(* ===== verification/_CoqProject ===== *)
-Q . S2P
Prelude.v
Rust.v
Keyspace.v
Lsn.v
ShardFn.v
VSchema.v
Catalog.v
Gate.v
Seq.v
Agent.v
PgOutput.v
Stream.v
Client.v
Workflow.v
Service.v
Topo.v
Filter.v
Copy.v
Apply.v
Seeding.v
Converge.v
Pg.v
Merge.v
Backend.v
Sql.v
Extract.v
Inject.v
Plan.v
Router.v
Wire.v
Answer.v
Go.v
OpProg.v
OpConfig.v
OpTopology.v
OpRouting.v
OpPlacement.v
Failover.v
Restore.v
Cutover.v
CutoverWorld.v
OpSeeding.v
OpDatabase.v
OpPublish.v
OpNode.v
OpShard.v
