(* ===== verification/Prelude.v ===== *)
(** * pgshard: a verification development of the data plane and the operator

    pgshard shards a PostgreSQL database. A *router* speaks the PostgreSQL protocol to
    the clients, parses each query, plans which shards it concerns and forwards it; an
    *agent* beside every PostgreSQL server executes the commands of the control plane
    and, when a shard is split, *seeds* the new shards by copying and then streaming the
    rows of their key range. Everything is keyed by the *keyspace*: a row's shard key is
    coerced to its column type, hashed to a 64-bit keyspace id, and belongs to the one
    shard whose half-open range contains that id. The router learns the shards from a
    compiled, epoch-numbered *topology*; a router that cannot confirm its topology within
    a write lease stops writing, and a cutover fences the source database, waits until
    the seeded shards have passed a journal position, and publishes the next epoch. The
    *operator*, in Go, compiles the topology from Kubernetes objects, elects primaries,
    drives reshards and their cutovers, and plans restores.

    ** Parts and files

    Shared:
    - [Prelude]: results, the state-and-error monad, list lemmas, tactics, hint bases.
    - [Rust]: what the code uses of the Rust standard library (machine integers at their
      widths, byte strings, [parse], [str] methods, UTF-8, the stable sort).

    [crates/pgshard-core], the vocabulary of every other part:
    - [Keyspace] ([keyspace.rs]): ids, ranges, their text bounds, [validate_partition].
    - [Lsn] ([lsn.rs]): the text form of log positions.
    - [ShardFn] ([shardfn.rs]): coercion of literals and the shard function.
    - [VSchema] ([vschema.rs]): which table is sharded by which column.

    [crates/pgshard-topo]: [Topo] ([model.rs], [lib.rs], [file.rs]) has the topology,
    [validate], the poll loop of the file watcher, and [Freshness], the stamp the write
    lease is measured from.

    The router ([crates/pgshard-sql], [pgshard-plan], [pgshard-seq], [pgshard-gate],
    [pgshard-router]), in the order a query passes through them:
    - [Sql] ([pgshard-sql/lib.rs]): parse trees and statement classes.
    - [Extract] ([extract.rs]): shard keys and relations read out of a tree.
    - [Inject] ([plan/sequence.rs]): the sequence columns an INSERT omits.
    - [Catalog] ([catalog.rs]) and [Plan] ([plan/lib.rs]): the shards a statement needs.
    - [Router] ([router/lib.rs], [router/main.rs]): the snapshot built from a topology, the
      task that swaps snapshots and renews the lease, the start of the process.
    - [Seq] ([pgshard-seq/lib.rs], [router/sequence.rs]): ids from reserved blocks, many
      threads on many routers.
    - [Backend] ([backend.rs]): a query on one shard. [Merge] ([merge.rs]): the ORDER BY
      over the shards. [Wire] ([wire.rs]): the proxy, which calls all of the above.
    - [Gate] ([pgshard-gate/lib.rs]): the sessions parked during a cutover.
    - [Answer]: no code of its own; what a client of [Wire] gets for a sharded SELECT
      compared with the table as a whole.

    Replication ([crates/pgshard-repl]), used by the agent's seeding worker:
    - [PgOutput] ([pgoutput.rs]): the decoder. [Stream] ([stream.rs]): the wrapper.
      [Client] ([client.rs]): the connection, over a socket that cuts data anywhere.
    - [Filter] ([filter.rs]): the placement of a streamed row; [Copy] ([copy.rs]): the
      filtered snapshot copy; [Apply] ([apply.rs]): the transactional applier.

    The agent ([crates/pgshard-agent]):
    - [Agent] ([epoch.rs], [schema.rs], [status.rs]): the guards of repeated and reordered
      commands. [Service] ([service.rs], [instance.rs]): the RPC handlers.
    - [Pg] ([pg.rs]): the commands on PostgreSQL, the cutover fence among them.
    - [Workflow] and [Seeding] ([workflow.rs]): plans and registry; the worker.
    - [Converge]: no code of its own; the worker, the filter and the applier run against a
      source that changes.

    The operator ([operator/internal]):
    - [Go]: what the code uses of the Go standard library ([math/bits], [cmp], [slices]).
    - [OpProg]: the programs of requests in which the reconciles are written, with their
      runs, what they ask and after which answers.
    - [OpConfig] ([pgconfig/pgconfig.go]): the rendered PostgreSQL configuration.
    - [OpTopology] ([topology/keyrange.go], [topology/keyspaceid.go],
      [controller/reshard.go]): the operator's keyspace, beside [Keyspace] and [ShardFn].
    - [OpRouting] ([routing/compiler.go]): the routing object and its writers, read back by
      [Topo] and [Router].
    - [OpPlacement] ([controller/pgshardcluster_controller.go]): the shards, nodes and
      configuration maps of a cluster.
    - [Failover] ([controller/failover.go] and the status of the node and shard
      controllers): elections, composed with the agent's [Service.promote].
    - [OpNode] ([controller/pgshardnode_controller.go]): pods, volumes, services and role
      labels of a node, around [Failover.aggregateStatus].
    - [OpShard] ([controller/pgshardshard_controller.go], shards without a node): the same
      without the provenance of volumes.
    - [Restore] ([backupcatalog]): the plan of a restore.
    - [Cutover] ([controller/reshard_cutover.go], the dispatch of the reshard controller,
      [cutoverGates] of the routing controller): reconciles as programs of requests;
      [CutoverWorld] has no code of its own and runs them in a world of caches, failing
      requests, restarts and client writes.
    - [OpSeeding] ([controller/reshard_seeding.go], [controller/reshard_targets.go],
      [reconcileValidating]): the phases of a reshard before its cutover, composed with the
      agent's [Workflow.plan] and the compiler of [OpRouting].
    - [OpDatabase] (the placed half of [controller/pgshardshard_controller.go]): the
      verification of a shard's database, composed with [Service.create_database].
    - [OpPublish] ([controller/pgshardrouting_controller.go]): what is gathered, checked and
      written as the routing, composed with [OpDatabase] and [Cutover.cutoverGates].

    ** How the code is rendered

    Pure functions are functions of the same name; fallible ones return [result] with the
    constructors of the source's error enum; a panic is [None]. A component's state is a
    record with the source's fields. A method under a mutex is one function on that state;
    where a lock is released in between (the sequence cache, the agent's guards, the
    fence), the two halves are separate steps of a transition relation in which other
    callers act between them. Clocks are arguments. Calls that can fail for reasons
    outside the program (sockets, statements, commits that take effect but are reported
    as failed) have their outcomes as parameters, so theorems hold for all of them. A
    reconcile of the operator is a tree of requests to the API server and the agents; an
    interpretation says how the world may answer.

    Code outside the repository is a class with the documented facts the source relies on:
    [ShardFn.XxHash] (the hash is a u64), [Sql.PgParser] and [Extract.PgQuery] (libpg_query),
    [Client.Protocol] (the postgres-protocol crate), [Service.Wire] (protobuf encodings),
    [Service.Instance] (the trait of the same name), [Apply.Target] (what a statement does
    to the target's rows), [OpConfig.Quantity], [Go.GoUnicode] and [OpConfig.Sha256]
    (Kubernetes quantities, lower case outside ASCII, the digest), [Pg.Postgres] (the server
    and the sessions beside the agent's; nobody else alters the database), [Plan.Semantics] and [Answer.SelectMeaning] (the meaning of a condition and
    of a SELECT). [Seq.BlockReserver] is the contract between the cache and its store; the
    router's reserver is an instance of it. Every class has a concrete instance in the
    example module of a file, at which the theorems are applied.

    ** What the theorems show

    - Placement: a catalog routes every id to exactly one shard
      ([Catalog.route_total_unique]); [validate] accepts exactly the partitions
      ([Topo.validate_iff_partition]); a snapshot reaches the owner's primary
      ([Router.route_reaches_owner]); coercion accepts exactly the spellings of a value
      ([ShardFn.coerce_exact]), so the stream places a row where the router does ([Filter.stream_places_as_router]).
    - Routing: writes and inserts run on the one shard of their rows
      ([Plan.write_hits_the_rows_shard], [Plan.insert_rows_on_their_shard]), reads miss no
      row ([Plan.select_never_under_routes]), no relation escapes the walk
      ([Extract.unresolved_relation_exact]); end to end, an answered SELECT is the SELECT on
      all rows ([Answer.select_answer_exact], [Answer.plain_select_answered],
      [Merge.merge_sorts_stably]).
    - Writes: at most one request ([Wire.write_sent_at_most_once]), none past the lease
      ([Wire.stale_router_never_writes]), and the lease only follows confirmations of the
      active epoch from the start of the process ([Router.lease_follows_active_epoch]); one
      that is announced between two reads of the start waits for the next
      ([Router.RouterExample.startup_loses_validation]).
    - Sequences: ids are unique across routers, crashes and lost replies
      ([Seq.pg_ids_unique]); one id per injected row ([Wire.injection_draws_one_id_per_row],
      [Inject.rewrite_exact]).
    - Cutover: parked sessions are never stranded, replan only after the cutover, stay in
      bounds ([Gate]); after a successful fence only sessions that the drain spares or that
      ask for the read-write mode themselves can commit a write, which the source trusts its
      clients not to do ([Pg.fence_quiesces]), and a fence ends ([Pg.fence_ends]).
    - Replication: the decoder accepts exactly the encodings ([PgOutput.decode_exact]);
      the client delivers every record and its loops end ([Client]); the copy sends exactly
      the rows the stream keeps ([Copy]); the applier holds exactly a prefix of the log
      ([Apply.exactly_once]) and quotes data ([Apply.statements_quote_data]).
    - Seeding: the preflight and the recheck mean what they say, only the seed's own slot
      is dropped ([Seeding]); composed, the target holds exactly the source's rows of its
      range at a transaction boundary ([Converge.seeding_converges]) and a journal position
      is a barrier ([Converge.journal_is_a_barrier]).
    - Agent: stale commands and repeated schema operations have no effect ([Service],
      [Agent]), one seeder per target ([Workflow]), databases are adopted only when told and
      the two publication checks agree ([Pg]).
    - Operator: its keyspace is the routers' ([OpTopology.keyspace_lockstep]), an accepted
      reshard keeps the partition ([OpTopology.reshard_keeps_partition]), a compiled routing
      sends every key to its owner and is versioned under races
      ([OpRouting.compiled_routing_routes], [OpRouting.routing_versions]); elections lose no
      reported WAL and primaries are vouched for ([Failover.failover_is_safe],
      [Failover.published_primary_vouched]), and a node at rest gets one
      ([Failover.failover_completes]);
      a restore plan is the selected point, complete ([Restore.resolve_exact]); a switch
      is committed only with every target past the barrier
      ([Cutover.commit_only_acknowledged]) and, unless objects are tampered with, has every
      write of its source before it ([CutoverWorld.no_write_after_barrier]), one cutover at
      a time ([CutoverWorld.cutover_exclusive]).
    - Reshards before the cutover: what validation accepts partitions the source, and every
      workflow started later is for one of these ranges
      ([OpSeeding.seeding_partitions_source]); the requests rest on the reads before them
      ([OpSeeding.seed_requests_rest]); the agent plans the operator's spec as meant
      ([OpSeeding.seed_spec_accepted]); the copied tables are the routed ones
      ([OpSeeding.seeded_tables_routed]); ready means caught up
      ([OpSeeding.ready_only_caught_up]); what is pinned stays ([OpSeeding.seed_lifecycle]).
    - Identity of data: no pod is created on another node's volumes and none serves on them
      ([OpNode.foreign_volume_never_mounted], [OpNode.foreign_pods_serve_nothing]); role
      labels and scale-down follow the poll ([OpNode.labels_follow_poll],
      [OpNode.prune_only_spare_standbys]), of a shard without a node too
      ([OpShard.shard_status_rests], [OpShard.shard_pod_rests]); a placed shard is ready only on the attestation of
      its primary pod ([OpDatabase.routable_on_evidence], [OpDatabase.create_request_served]),
      and only such a primary is published ([OpPublish.published_primary_verified]), under
      every gate that is asked for ([OpPublish.written_routing_gated]).
    - Clusters: the initial shards partition the keyspace under distinct names
      ([OpPlacement.initial_shards_partition], [OpPlacement.names_never_clash]), the controller
      changes only its own objects ([OpPlacement.cluster_touches_own]); the platform's
      parameters cannot be overridden and different configurations have different hashed
      texts ([OpConfig.render_enforces], [OpConfig.hash_distinguishes]).
    - Examples that the code departs from its documentation are theorems too:
      [Agent.stale_command_after_newer], [Apply.relation_redefined_mid_transaction],
      [Pg.partitioned_member_unnoticed], [Lsn.lsn_accepts_sign],
      [CutoverWorld.CutoverExample.unfenced_commit],
      [OpPublish.PublishExample.replaced_pod_published],
      [OpRouting.RoutingExample.unknown_hash_refused] and others.

    ** Fuel and bounds

    Recursion that is not structural takes fuel, and what it needs is proved:
    - [Client] loops get one round per unread byte plus one: every round consumes at least
      a header, so the out-of-fuel error is unreachable ([Client.client_loops_end]).
    - [Copy.drain_buf] consumes a byte per round: the length of the buffer is enough.
    - [Extract.walk_relations] gets the depth of the tree
      ([Extract.unresolved_relation_exact] is about the walk with that fuel).
    - [Gate]'s scans get the number of gates: each round removes one.
    - The fence polls at most [Pg.DRAIN_ROUNDS] = 101 times: ten seconds at 100 ms and the
      last look after the deadline ([Pg.fence_ends]); [create_database] makes the source's
      three attempts.
    Integers are [Z] with the width in the definition that can overflow (checked, wrapping
    or saturating as the source has it); keyspace ids and LSNs are u64. The int64 epoch and
    generation that the operator counts up are unbounded in [OpRouting].

    ** Not modelled

    - Argument parsing and the accept loops of the two binaries, beyond [Router.startup] and
      [Service.agent_main]; generated protobuf code; the test utilities.
    - pgwire's message loop, authentication and encoding of responses; TLS.
    - The cancellation of [next] by [select!] in the middle of a frame: the executor is not
      modelled.
    - The texts of error messages and of Kubernetes conditions, except where a client or a
      caller decides on them.
    - Of the operator: the ports, probes and environment of pod templates, the watches
      that trigger reconciles, and the agent client. In [CutoverWorld] a step that makes a
      reshard ready or fails it stands for the phases of [OpSeeding]; the other assumptions
      of that world are in its header. *)

From Stdlib Require Export ZArith Lia Ascii Sorted.
From stdpp Require Export base tactics option list numbers strings gmap.

(** ** Result: Rust's [Result<A, E>]

    The error type comes first so that [result E] is a monad for stdpp's
    [mret]/[mbind] classes: [x ← c; k] is Rust's [let x = c?; k]. *)

Inductive result (E A : Type) : Type :=
| Ok (a : A)
| Err (e : E).
Arguments Ok {E A} _.
Arguments Err {E A} _.

#[export] Instance result_ret E : MRet (result E) := fun A a => Ok a.
#[export] Instance result_bind E : MBind (result E) :=
  fun A B f r => match r with Ok a => f a | Err e => Err e end.
#[export] Instance result_fmap E : FMap (result E) :=
  fun A B f r => match r with Ok a => Ok (f a) | Err e => Err e end.

(** [Option::ok_or]. *)
Definition ok_or {E A} (e : E) (o : option A) : result E A :=
  match o with Some a => Ok a | None => Err e end.

(** [Result::map_err]. *)
Definition map_err {E F A} (f : E -> F) (r : result E A) : result F A :=
  match r with Ok a => Ok a | Err e => Err (f e) end.

(** [Result::ok]. *)
Definition res_ok {E A} (r : result E A) : option A :=
  match r with Ok a => Some a | Err _ => None end.

Definition is_ok {E A} (r : result E A) : bool :=
  match r with Ok _ => true | Err _ => false end.

(** An early [return Err(e)] when a condition holds: [ensure c e; k]. *)
Definition ensure {E} (c : bool) (e : E) : result E unit :=
  if c then Ok tt else Err e.

#[export] Instance result_eq_dec {E A} `{EqDecision E, EqDecision A} :
  EqDecision (result E A).
Proof. solve_decision. Defined.

(** ** Iterators used throughout the source *)

(** [Iterator::position]. *)
Fixpoint position {A} (p : A -> bool) (l : list A) : option nat :=
  match l with
  | [] => None
  | x :: l' => if p x then Some 0 else S <$> position p l'
  end.

(** [Iterator::find]. *)
Fixpoint find_first {A} (p : A -> bool) (l : list A) : option A :=
  match l with
  | [] => None
  | x :: l' => if p x then Some x else find_first p l'
  end.

(** [slice::windows(2)]. *)
Fixpoint windows2 {A} (l : list A) : list (A * A) :=
  match l with
  | a :: (b :: _) as l' => (a, b) :: windows2 l'
  | _ => []
  end.

(** ** State and errors *)

(** A computation that updates a state and may fail, keeping the state it reached. *)
Definition St (S E A : Type) : Type := S -> S * result E A.

#[export] Instance St_ret {S E} : MRet (St S E) := fun A a s => (s, Ok a).
#[export] Instance St_bind {S E} : MBind (St S E) :=
  fun A B f m s => match m s with (s', Ok a) => f a s' | (s', Err e) => (s', Err e) end.

Definition throw {S E A} (e : E) : St S E A := fun s => (s, Err e).
Definition lift {S E A} (r : result E A) : St S E A := fun s => (s, r).
Definition gets {S E A} (f : S -> A) : St S E A := fun s => (s, Ok (f s)).
Definition modify {S E} (f : S -> S) : St S E unit := fun s => (f s, Ok tt).

(** ** Tactics *)

(** Case analysis on the boolean conditions of the code, with the comparison
    operators reflected into arithmetic propositions that [lia] reads. *)
Ltac case_bool :=
  match goal with
  | |- context [if ?b then _ else _] => destruct b eqn:?
  | H : context [if ?b then _ else _] |- _ => destruct b eqn:?
  end.

(** Break the monadic steps of a hypothesis that says a computation returned. *)
Ltac res_step H :=
  match type of H with
  | mbind _ ?c = _ => let E := fresh "E" in destruct c eqn:E; simpl in H; [|discriminate H]
  | (match ?c with Ok _ => _ | Err _ => _ end) = _ =>
      let E := fresh "E" in destruct c eqn:E; simpl in H; [|discriminate H]
  end.

Ltac break_match :=
  match goal with
  | H : context [match ?x with _ => _ end] |- _ =>
      lazymatch x with
      | context [match _ with _ => _ end] => fail
      | _ => destruct x eqn:?
      end
  | |- context [match ?x with _ => _ end] =>
      lazymatch x with
      | context [match _ with _ => _ end] => fail
      | _ => destruct x eqn:?
      end
  end.

(** Decide a closed goal (ranges, well-formedness of concrete data) by
    evaluation. *)
Ltac concrete := vm_compute; repeat split; first [congruence | exact I | done].

(** ** Hint databases *)

Create HintDb pgshard.
Create HintDb wf.
Create HintDb seed.

(** ** Generic lemmas *)

Lemma result_bind_Ok {E A B} (f : A -> result E B) (r : result E A) b :
  (r ≫= f) = Ok b <-> exists a, r = Ok a /\ f a = Ok b.
Proof. destruct r; simpl; naive_solver. Qed.

Lemma bind_run {S E A B} (m : St S E A) (f : A -> St S E B) s :
  (m ≫= f) s = match m s with (s', Ok a) => f a s' | (s', Err e) => (s', Err e) end.
Proof. done. Qed.

Lemma bind_Ok {S E A B} (m : St S E A) (f : A -> St S E B) s s' b :
  (m ≫= f) s = (s', Ok b) <-> exists s1 a, m s = (s1, Ok a) /\ f a s1 = (s', Ok b).
Proof.
  rewrite bind_run. destruct (m s) as [s1 [a|e]]; split.
  - intros Hf. by exists s1, a.
  - intros (s2 & a2 & [= <- <-] & Hf). done.
  - done.
  - by intros (s2 & a2 & ? & _).
Qed.

Lemma ok_or_Ok {E A} (e : E) (o : option A) a : ok_or e o = Ok a <-> o = Some a.
Proof. destruct o; simpl; naive_solver. Qed.

Lemma ensure_Ok {E} c (e : E) u : ensure c e = Ok u <-> c = true.
Proof. destruct c, u; simpl; naive_solver. Qed.

Lemma mapM_Ok {E A B} (f : A -> result E B) l k :
  mapM f l = Ok k <-> Forall2 (fun x y => f x = Ok y) l k.
Proof.
  split.
  - revert k. induction l as [|x l IH]; intros k Hk; simpl in Hk.
    + injection Hk as <-. constructor.
    + apply result_bind_Ok in Hk as (y & Hy & Hk).
      apply result_bind_Ok in Hk as (ys & Hys & [= <-]). constructor; auto.
  - induction 1 as [|x y l k Hx _ IH]; simpl; [done|]. by rewrite Hx; simpl; rewrite IH.
Qed.

Lemma position_Some {A} (p : A -> bool) l i :
  position p l = Some i <->
  exists x, l !! i = Some x /\ p x = true /\
    forall j y, (j < i)%nat -> l !! j = Some y -> p y = false.
Proof.
  revert i. induction l as [|a l IH]; intros i; simpl.
  - split; [done|]. intros (x & Hx & _). by rewrite lookup_nil in Hx.
  - destruct (p a) eqn:Ha.
    + split.
      * intros [= <-]. exists a. split_and!; [done|done|]. intros j y Hj; lia.
      * intros (x & Hx & Hp & Hmin). destruct i as [|i]; [done|].
        specialize (Hmin 0 a ltac:(lia) eq_refl). congruence.
    + rewrite fmap_Some. split.
      * intros (i' & Hi' & ->). apply IH in Hi' as (x & Hx & Hp & Hmin).
        exists x. split_and!; [done|done|]. intros [|j] y Hj Hy; simpl in Hy.
        -- congruence.
        -- eapply Hmin; [|done]; lia.
      * intros (x & Hx & Hp & Hmin). destruct i as [|i]; simpl in Hx; [congruence|].
        exists i. split; [|done]. apply IH. exists x. split_and!; [done|done|].
        intros j y Hj Hy. apply (Hmin (S j) y); [lia|done].
Qed.

Lemma position_None {A} (p : A -> bool) l :
  position p l = None <-> Forall (fun x => p x = false) l.
Proof.
  induction l as [|a l IH]; simpl; [naive_solver constructor|].
  rewrite Forall_cons. destruct (p a); simpl; [naive_solver|].
  rewrite fmap_None, IH. naive_solver.
Qed.

Lemma position_lt {A} (p : A -> bool) l i : position p l = Some i -> (i < length l)%nat.
Proof. intros (x & Hx & _)%position_Some. by eapply lookup_lt_Some. Qed.

Lemma find_first_Some {A} (p : A -> bool) l x :
  find_first p l = Some x -> x ∈ l /\ p x = true.
Proof.
  induction l as [|a l IH]; simpl; [done|].
  destruct (p a) eqn:Ha; intros Hx.
  - injection Hx as ->. split; [left|done].
  - destruct (IH Hx). split; [right|]; done.
Qed.

Lemma find_first_None {A} (p : A -> bool) l :
  find_first p l = None <-> Forall (fun x => p x = false) l.
Proof.
  induction l as [|a l IH]; simpl; [naive_solver constructor|].
  rewrite Forall_cons. destruct (p a); naive_solver.
Qed.

Lemma windows2_lookup {A} (l : list A) i a b :
  windows2 l !! i = Some (a, b) <-> l !! i = Some a /\ l !! (S i) = Some b.
Proof.
  revert i. induction l as [|x [|y l] IH]; intros i.
  - naive_solver.
  - simpl. split; [done|]. intros [_ H]. by destruct i.
  - change (windows2 (x :: y :: l)) with ((x, y) :: windows2 (y :: l)).
    destruct i as [|i]; [simpl; naive_solver|].
    change (((x, y) :: windows2 (y :: l)) !! S i) with (windows2 (y :: l) !! i).
    rewrite IH. naive_solver.
Qed.

Lemma length_windows2 {A} (l : list A) : length (windows2 l) = pred (length l).
Proof.
  induction l as [|x [|y l] IH]; [done|done|].
  change (windows2 (x :: y :: l)) with ((x, y) :: windows2 (y :: l)).
  simpl length in *. lia.
Qed.

Lemma existsb_spec {A} (p : A -> bool) l :
  existsb p l = true <-> exists x, x ∈ l /\ p x = true.
Proof. rewrite existsb_exists. setoid_rewrite list_elem_of_In. done. Qed.

Lemma forallb_spec {A} (p : A -> bool) l :
  forallb p l = true <-> forall x, x ∈ l -> p x = true.
Proof. rewrite forallb_forall. setoid_rewrite list_elem_of_In. done. Qed.

Lemma list_last_irrel {A} (x : A) l d d' : List.last (x :: l) d = List.last (x :: l) d'.
Proof. revert x. induction l as [|y l IH]; intros x; [done|]. apply (IH y). Qed.

Lemma list_last_lookup {A} (x : A) l d :
  (x :: l) !! pred (length (x :: l)) = Some (List.last (x :: l) d).
Proof.
  revert x. induction l as [|y l IH]; intros x; [done|].
  change (List.last (x :: y :: l) d) with (List.last (y :: l) d). rewrite <- IH. done.
Qed.

Lemma Forall_sublist {A} (P : A -> Prop) (l k : list A) : sublist l k -> Forall P k -> Forall P l.
Proof. induction 1; intros Hk; [constructor| |]; inversion Hk; subst; auto. Qed.

Lemma sorted_sublist {A} (R : A -> A -> Prop) (l k : list A) :
  sublist l k -> StronglySorted R k -> StronglySorted R l.
Proof.
  induction 1 as [|x l k Hs IH|x l k Hs IH]; intros Hk; [constructor| |]; inversion Hk; subst.
  - constructor; [auto|]. eapply Forall_sublist; eauto.
  - auto.
Qed.

Lemma sorted_snoc {A} (R : A -> A -> Prop) (l : list A) x :
  StronglySorted R l -> Forall (fun y => R y x) l -> StronglySorted R (l ++ [x]).
Proof.
  induction 1 as [|y l Hs IH Hall]; intros Hx; simpl; [repeat constructor|].
  inversion Hx; subst. constructor; [auto|]. apply Forall_app. by repeat constructor.
Qed.

Lemma sorted_app {A} (R : A -> A -> Prop) (l k : list A) :
  (forall x y, x ∈ l -> y ∈ k -> R x y) -> StronglySorted R l -> StronglySorted R k -> StronglySorted R (l ++ k).
Proof.
  intros Hx Hl Hk. induction Hl as [|x l _ IH Hall]; [done|]. cbn. constructor; [apply IH; set_solver|].
  apply Forall_app. split; [done|]. apply Forall_forall. set_solver.
Qed.

Lemma filter_split_perm {A} (p : A -> bool) (l : list A) :
  l ≡ₚ List.filter p l ++ List.filter (fun x => negb (p x)) l.
Proof.
  induction l as [|x l IH]; simpl; [done|]. destruct (p x); simpl.
  - by rewrite <- IH.
  - rewrite <- Permutation_middle. by rewrite <- IH.
Qed.

Lemma filter_perm {A} (p : A -> bool) (l k : list A) : l ≡ₚ k -> List.filter p l ≡ₚ List.filter p k.
Proof.
  induction 1 as [|x l k _ IH|x y l|l k m _ IH1 _ IH2]; simpl; [done| | |by etrans].
  - destruct (p x); by rewrite IH.
  - destruct (p x), (p y); try done. apply Permutation_swap.
Qed.

Lemma elem_of_filter_b {A} (p : A -> bool) (l : list A) x :
  x ∈ List.filter p l <-> x ∈ l /\ p x = true.
Proof. rewrite !list_elem_of_In. apply List.filter_In. Qed.

Lemma filter_filter_b {A} (p q : A -> bool) (l : list A) :
  List.filter p (List.filter q l) = List.filter (fun x => q x && p x) l.
Proof. induction l as [|x l IH]; simpl; [done|]. destruct (q x); simpl; by rewrite ?IH. Qed.

Lemma elem_of_concat_lookup {A} (ls : list (list A)) i l x :
  ls !! i = Some l -> x ∈ l -> x ∈ concat ls.
Proof.
  revert i. induction ls as [|k ls IH]; intros i Hi Hx; [done|]. simpl.
  destruct i; simpl in Hi; simplify_eq; set_solver.
Qed.

Lemma NoDup_concat_disjoint {A} (ls : list (list A)) i j a b x :
  NoDup (concat ls) -> ls !! i = Some a -> ls !! j = Some b -> j <> i -> x ∈ a -> x ∈ b -> False.
Proof.
  revert i j. induction ls as [|l ls IH]; intros i j Hnd Hi Hj Hne Ha Hb; [done|].
  simpl in Hnd. apply NoDup_app in Hnd as (_ & Hdisj & Hnd).
  destruct i as [|i], j as [|j]; simpl in *; simplify_eq.
  - apply (Hdisj x Ha). by eapply elem_of_concat_lookup.
  - apply (Hdisj x Hb). by eapply elem_of_concat_lookup.
  - eapply (IH i j); eauto.
Qed.
