(* ===== verification/Rust.v ===== *)
(** * The Rust standard library the code uses

    Machine integers kept as [Z] with their widths, big-endian byte strings,
    [from_str_radix]/[parse] and the integer formatters, the [str] methods the
    sources call (on UTF-8 byte strings), UTF-8 validation, and a stable sort
    for [sort_by]/[sort_by_key]. *)

From S2P Require Import Prelude.

Open Scope Z_scope.

(** ** Machine integers *)

Definition u8_MAX : Z := 255.
Definition u16_MAX : Z := 65535.
Definition u32_MAX : Z := 4294967295.
Definition u64_MAX : Z := 18446744073709551615.
Definition two64 : Z := 18446744073709551616.
Definition i16_MIN : Z := -32768.
Definition i16_MAX : Z := 32767.
Definition i32_MIN : Z := -2147483648.
Definition i32_MAX : Z := 2147483647.
Definition i64_MIN : Z := -9223372036854775808.
Definition i64_MAX : Z := 9223372036854775807.

Definition is_u32 (z : Z) : Prop := 0 <= z <= u32_MAX.
Definition is_u64 (z : Z) : Prop := 0 <= z <= u64_MAX.
Definition is_i32 (z : Z) : Prop := i32_MIN <= z <= i32_MAX.
Definition is_i64 (z : Z) : Prop := i64_MIN <= z <= i64_MAX.

(** [as u32], [as u64], [as i32], [as i64]: truncation to the low bits. *)
Definition as_u32 (z : Z) : Z := z mod (u32_MAX + 1).
Definition as_u64 (z : Z) : Z := z mod two64.
Definition as_i32 (z : Z) : Z := (z - i32_MIN) mod (u32_MAX + 1) + i32_MIN.
Definition as_i64 (z : Z) : Z := (z - i64_MIN) mod two64 + i64_MIN.

(** [i64::checked_add], [u64::saturating_sub], [u64::saturating_add]. *)
Definition checked_add_i64 (a b : Z) : option Z :=
  let s := a + b in
  if (i64_MIN <=? s) && (s <=? i64_MAX) then Some s else None.

Definition saturating_sub (a b : Z) : Z := Z.max 0 (a - b).

Definition saturating_add_u64 (a b : Z) : Z := Z.min u64_MAX (a + b).

(** ** Bytes *)

(** A [u8] is an [ascii]; its numeric value and back. *)
Definition byte_val (c : ascii) : Z := Z.of_N (N_of_ascii c).

Definition byte_of (z : Z) : ascii := ascii_of_N (Z.to_N (z mod 256)).

(** Big-endian value of a byte string and the [n]-byte big-endian encoding
    ([to_be_bytes], [put_u64], [get_i32], ...). *)
Fixpoint be_acc (acc : Z) (l : list ascii) : Z :=
  match l with
  | [] => acc
  | c :: l' => be_acc (acc * 256 + byte_val c) l'
  end.

Definition be_val (l : list ascii) : Z := be_acc 0 l.

Fixpoint to_be (n : nat) (z : Z) : list ascii :=
  match n with
  | O => []
  | S n' => to_be n' (z / 256) ++ [byte_of z]
  end.

(** ** Digits *)

(** [char::to_digit(radix)] for radix up to 16. *)
Definition to_digit (radix : Z) (c : ascii) : option Z :=
  let v := byte_val c in
  let d :=
    if (48 <=? v) && (v <=? 57) then Some (v - 48)
    else if (97 <=? v) && (v <=? 102) then Some (v - 87)
    else if (65 <=? v) && (v <=? 70) then Some (v - 55)
    else None in
  match d with
  | Some d => if d <? radix then Some d else None
  | None => None
  end.

Definition is_ascii_digit (c : ascii) : bool :=
  (48 <=? byte_val c) && (byte_val c <=? 57).

Definition is_ascii_hexdigit (c : ascii) : bool :=
  let v := byte_val c in
  ((48 <=? v) && (v <=? 57)) || ((97 <=? v) && (v <=? 102)) || ((65 <=? v) && (v <=? 70)).

Definition is_ascii_lower (c : ascii) : bool := (97 <=? byte_val c) && (byte_val c <=? 122).
Definition is_ascii_upper (c : ascii) : bool := (65 <=? byte_val c) && (byte_val c <=? 90).
Definition is_ascii_alnum (c : ascii) : bool :=
  is_ascii_digit c || is_ascii_lower c || is_ascii_upper c.

Definition ascii_lower (c : ascii) : ascii :=
  if is_ascii_upper c then byte_of (byte_val c + 32) else c.

(** The digit loop of [from_str_radix] on an unsigned type with maximum [max]:
    [checked_mul] then [checked_add] at every digit. *)
Fixpoint digits_checked (radix max acc : Z) (l : list ascii) : option Z :=
  match l with
  | [] => Some acc
  | c :: l' =>
      match to_digit radix c with
      | None => None
      | Some d =>
          if acc * radix >? max then None
          else if acc * radix + d >? max then None
          else digits_checked radix max (acc * radix + d) l'
      end
  end.

(** [uN::from_str_radix]: the empty string and a lone sign are errors, a leading
    [+] is accepted, a leading [-] is not a digit of an unsigned type. *)
Definition from_str_radix_unsigned (radix max : Z) (l : list ascii) : option Z :=
  match l with
  | [] => None
  | [c] => if decide (c = "+"%char \/ c = "-"%char) then None
           else digits_checked radix max 0 l
  | c :: l' => if decide (c = "+"%char) then digits_checked radix max 0 l'
               else digits_checked radix max 0 l
  end.

(** The digit loop on a signed type after a [-]: accumulates downwards. *)
Fixpoint digits_checked_neg (radix min acc : Z) (l : list ascii) : option Z :=
  match l with
  | [] => Some acc
  | c :: l' =>
      match to_digit radix c with
      | None => None
      | Some d =>
          if acc * radix <? min then None
          else if acc * radix - d <? min then None
          else digits_checked_neg radix min (acc * radix - d) l'
      end
  end.

(** [str::parse::<i64>] and [parse::<i32>] are radix-10 [from_str_radix] on the
    signed type. *)
Definition from_str_radix_signed (radix min max : Z) (l : list ascii) : option Z :=
  match l with
  | [] => None
  | [c] => if decide (c = "+"%char \/ c = "-"%char) then None
           else digits_checked radix max 0 l
  | c :: l' => if decide (c = "+"%char) then digits_checked radix max 0 l'
               else if decide (c = "-"%char) then digits_checked_neg radix min 0 l'
               else digits_checked radix max 0 l
  end.

(** ** Formatting integers *)

(** The digit [0 <= d < 16] in lower or upper case. *)
Definition digit_char (upper : bool) (d : Z) : ascii :=
  if d <? 10 then byte_of (48 + d)
  else if upper then byte_of (55 + d) else byte_of (87 + d).

(** [n] digits, most significant first (the body of [{:016x}] when [n = 16]). *)
Fixpoint fixed_digits (upper : bool) (radix : Z) (n : nat) (z : Z) : list ascii :=
  match n with
  | O => []
  | S n' => fixed_digits upper radix n' (z / radix) ++ [digit_char upper (z mod radix)]
  end.

Fixpoint strip_zeros (l : list ascii) : list ascii :=
  match l with
  | c :: (_ :: _) as l' => if decide (c = "0"%char) then strip_zeros l' else l
  | _ => l
  end.

(** [{}], [{:x}], [{:X}] of an unsigned integer of at most 64 bits: no leading
    zeros, and ["0"] for zero. Twenty digits are enough for every radix from 10. *)
Definition fmt_radix (upper : bool) (radix z : Z) : list ascii :=
  strip_zeros (fixed_digits upper radix 20 z).
Arguments fmt_radix : simpl never.

(** [{}] of a signed integer. *)
Definition fmt_i (z : Z) : list ascii :=
  if z <? 0 then "-"%char :: fmt_radix false 10 (- z) else fmt_radix false 10 z.

(** ** Strings

    A Rust [str] is its UTF-8 bytes: [bytes] and [str_of] move between the two
    representations. *)

Definition bytes (s : string) : list ascii := String.list_ascii_of_string s.
Definition str_of (l : list ascii) : string := String.string_of_list_ascii l.
Definition str_len (s : string) : nat := length (bytes s).
Definition str_is_empty (s : string) : bool := match s with EmptyString => true | _ => false end.

(** [str::split_once(c)] for an ASCII [c], and the byte-list form of it. *)
Fixpoint split_once_bytes (c : ascii) (l : list ascii) : option (list ascii * list ascii) :=
  match l with
  | [] => None
  | x :: l' =>
      if decide (x = c) then Some ([], l')
      else match split_once_bytes c l' with
           | Some (a, b) => Some (x :: a, b)
           | None => None
           end
  end.

Definition split_once (c : ascii) (s : string) : option (string * string) :=
  match split_once_bytes c (bytes s) with
  | Some (a, b) => Some (str_of a, str_of b)
  | None => None
  end.

(** [slice::split(|b| b == c)]: always at least one field. *)
Fixpoint split_bytes (c : ascii) (l : list ascii) : list (list ascii) :=
  match l with
  | [] => [[]]
  | x :: l' =>
      if decide (x = c) then [] :: split_bytes c l'
      else match split_bytes c l' with
           | [] => [[x]]
           | f :: fs => (x :: f) :: fs
           end
  end.

(** [strip_prefix] on bytes. *)
Fixpoint strip_prefix_bytes (p l : list ascii) : option (list ascii) :=
  match p, l with
  | [], _ => Some l
  | a :: p', b :: l' => if decide (a = b) then strip_prefix_bytes p' l' else None
  | _ :: _, [] => None
  end.

(** ** [str::trim]

    The UTF-8 encodings of the characters with the Unicode property White_Space
    (25 of them), stripped from both ends. *)

Definition white_space : list (list Z) :=
  [[9]; [10]; [11]; [12]; [13]; [32]; [194; 133]; [194; 160]; [225; 154; 128]] ++
  ((fun b => [226; 128; b]) <$> [128; 129; 130; 131; 132; 133; 134; 135; 136; 137; 138; 168; 169; 175]) ++
  [[226; 129; 159]; [227; 128; 128]].

Definition is_prefix (p : list Z) (l : list ascii) : bool :=
  bool_decide (byte_val <$> take (length p) l = p).

(** The number of bytes of the encoding from [enc] at the head of [l], or 0. *)
Definition enc_at (enc : list (list Z)) (l : list ascii) : nat :=
  match find_first (fun p => is_prefix p l) enc with
  | Some p => length p
  | None => O
  end.

Fixpoint strip_ws (enc : list (list Z)) (fuel : nat) (l : list ascii) : list ascii :=
  match fuel with
  | O => l
  | S fuel' => match enc_at enc l with O => l | n => strip_ws enc fuel' (drop n l) end
  end.

(** Every round removes at least one byte, so the length is enough fuel. *)
Definition trim_start_bytes (l : list ascii) : list ascii := strip_ws white_space (length l) l.
Definition trim_end_bytes (l : list ascii) : list ascii :=
  reverse (strip_ws (reverse <$> white_space) (length l) (reverse l)).
Definition trim_bytes (l : list ascii) : list ascii := trim_end_bytes (trim_start_bytes l).

(** ** [std::str::from_utf8] *)

Definition in_range (lo hi : Z) (c : ascii) : bool := (lo <=? byte_val c) && (byte_val c <=? hi).

(** Well-formed UTF-8 (Unicode table 3-7, the table the validator follows). *)
Fixpoint utf8_valid (l : list ascii) : bool :=
  match l with
  | [] => true
  | c :: l' =>
      if in_range 0 127 c then utf8_valid l'
      else match l' with
      | c1 :: l1 =>
          if in_range 194 223 c then in_range 128 191 c1 && utf8_valid l1
          else match l1 with
          | c2 :: l2 =>
              if in_range 224 224 c then in_range 160 191 c1 && in_range 128 191 c2 && utf8_valid l2
              else if in_range 225 236 c || in_range 238 239 c then
                in_range 128 191 c1 && in_range 128 191 c2 && utf8_valid l2
              else if in_range 237 237 c then
                in_range 128 159 c1 && in_range 128 191 c2 && utf8_valid l2
              else match l2 with
              | c3 :: l3 =>
                  if in_range 240 240 c then
                    in_range 144 191 c1 && in_range 128 191 c2 && in_range 128 191 c3 && utf8_valid l3
                  else if in_range 241 243 c then
                    in_range 128 191 c1 && in_range 128 191 c2 && in_range 128 191 c3 && utf8_valid l3
                  else if in_range 244 244 c then
                    in_range 128 143 c1 && in_range 128 191 c2 && in_range 128 191 c3 && utf8_valid l3
                  else false
              | [] => false
              end
          | [] => false
          end
      | [] => false
      end
  end.

(** ** Stable sort ([slice::sort_by], [sort_by_key])

    [le a b] is [cmp(a, b) != Greater]. Insertion before the first element that
    is strictly greater keeps equal elements in their order. *)

Section sort.
Context {A : Type} (le : A -> A -> bool).

Fixpoint insert_sorted (x : A) (l : list A) : list A :=
  match l with
  | [] => [x]
  | y :: l' => if le x y then x :: y :: l' else y :: insert_sorted x l'
  end.

Fixpoint sort_by (l : list A) : list A :=
  match l with
  | [] => []
  | x :: l' => insert_sorted x (sort_by l')
  end.
End sort.

(** ** Lemmas: bytes *)

Lemma byte_val_range c : 0 <= byte_val c < 256.
Proof.
  unfold byte_val. pose proof (N_ascii_bounded c) as H.
  split; [lia|]. change 256 with (Z.of_N 256). lia.
Qed.

Lemma byte_val_of z : 0 <= z < 256 -> byte_val (byte_of z) = z.
Proof.
  intros Hz. unfold byte_val, byte_of. rewrite Z.mod_small by lia.
  rewrite N_ascii_embedding; [lia|]. change 256%N with (Z.to_N 256). lia.
Qed.

Lemma byte_val_of_mod z : byte_val (byte_of z) = z mod 256.
Proof.
  replace (byte_of z) with (byte_of (z mod 256)).
  - apply byte_val_of. apply Z.mod_pos_bound. lia.
  - unfold byte_of. by rewrite Z.mod_mod by lia.
Qed.

Lemma byte_of_val c : byte_of (byte_val c) = c.
Proof.
  unfold byte_of. rewrite Z.mod_small by apply byte_val_range.
  unfold byte_val. rewrite N2Z.id. apply ascii_N_embedding.
Qed.

#[export] Instance byte_val_inj : Inj (=) (=) byte_val.
Proof. intros a b H. by rewrite <- (byte_of_val a), <- (byte_of_val b), H. Qed.

Lemma be_acc_app acc l k : be_acc acc (l ++ k) = be_acc (be_acc acc l) k.
Proof. revert acc. induction l as [|c l IH]; intros acc; simpl; auto. Qed.

Lemma be_acc_val acc l : be_acc acc l = acc * 256 ^ Z.of_nat (length l) + be_val l.
Proof.
  unfold be_val. revert acc. induction l as [|c l IH]; intros acc; simpl length; cbn [be_acc].
  - lia.
  - rewrite (IH (acc * 256 + byte_val c)), (IH (0 * 256 + byte_val c)).
    rewrite Nat2Z.inj_succ, Z.pow_succ_r by lia. lia.
Qed.

Lemma be_val_app l k : be_val (l ++ k) = be_val l * 256 ^ Z.of_nat (length k) + be_val k.
Proof. unfold be_val at 1. rewrite be_acc_app, be_acc_val. reflexivity. Qed.

Lemma be_val_range l : 0 <= be_val l < 256 ^ Z.of_nat (length l).
Proof.
  induction l as [|c l IH] using rev_ind; [by vm_compute|].
  rewrite be_val_app, length_app. simpl length.
  replace (Z.of_nat (length l + 1)) with (Z.succ (Z.of_nat (length l))) by lia.
  rewrite Z.pow_succ_r by lia. change (be_val [c]) with (byte_val c).
  pose proof (byte_val_range c). change (256 ^ Z.of_nat 1) with 256. lia.
Qed.

Lemma length_to_be n z : length (to_be n z) = n.
Proof. revert z. induction n as [|n IH]; intros z; simpl; [done|]. rewrite length_app, IH. simpl. lia. Qed.

Lemma be_val_to_be_mod n z : be_val (to_be n z) = z mod 256 ^ Z.of_nat n.
Proof.
  revert z. induction n as [|n IH]; intros z; simpl to_be.
  - by rewrite Z.mod_1_r.
  - rewrite be_val_app, IH. change (be_val [byte_of z]) with (byte_val (byte_of z)).
    rewrite byte_val_of_mod. simpl length. change (256 ^ Z.of_nat 1) with 256.
    rewrite Nat2Z.inj_succ, Z.pow_succ_r by lia.
    rewrite (Z.rem_mul_r z 256) by lia. lia.
Qed.

Lemma be_val_to_be n z : 0 <= z < 256 ^ Z.of_nat n -> be_val (to_be n z) = z.
Proof. intros. rewrite be_val_to_be_mod. by apply Z.mod_small. Qed.

Lemma to_be_be_val l : to_be (length l) (be_val l) = l.
Proof.
  induction l as [|c l IH] using rev_ind; [done|].
  rewrite length_app, be_val_app. simpl length. rewrite Nat.add_1_r. simpl to_be.
  change (256 ^ Z.of_nat 1) with 256. change (be_val [c]) with (byte_val c).
  pose proof (byte_val_range c).
  rewrite Z.add_comm, Z.div_add by lia. rewrite Z.div_small by lia. rewrite Z.add_0_l, IH.
  f_equal. f_equal. unfold byte_of. rewrite Z.mod_add by lia.
  apply byte_of_val.
Qed.

(** Big-endian encodings of one width are injective. *)
Lemma to_be_inj n a b :
  0 <= a < 256 ^ Z.of_nat n -> 0 <= b < 256 ^ Z.of_nat n -> to_be n a = to_be n b -> a = b.
Proof. intros Ha Hb H. by rewrite <- (be_val_to_be n a), <- (be_val_to_be n b), H. Qed.

(** ** Lemmas: digits *)

Lemma digit_char_val u d : 0 <= d < 16 ->
  byte_val (digit_char u d) = if d <? 10 then 48 + d else if u then 55 + d else 87 + d.
Proof.
  intros Hd. unfold digit_char.
  destruct (d <? 10) eqn:E; [|destruct u]; apply byte_val_of; lia.
Qed.

Lemma to_digit_char radix u d : 0 <= d < radix -> radix <= 16 ->
  to_digit radix (digit_char u d) = Some d.
Proof.
  intros Hd Hr. unfold to_digit. rewrite digit_char_val by lia.
  repeat case_bool; try lia; f_equal; lia.
Qed.

Lemma digit_char_zero u : digit_char u 0 = "0"%char.
Proof. reflexivity. Qed.

Lemma to_digit_range radix c d : to_digit radix c = Some d -> 0 <= d < radix.
Proof. unfold to_digit. intros H. repeat case_bool; simplify_eq; try lia. all: case_bool; simplify_eq; lia. Qed.

Lemma digits_checked_app radix max acc l k :
  digits_checked radix max acc (l ++ k) =
  (digits_checked radix max acc l ≫= fun acc' => digits_checked radix max acc' k).
Proof.
  revert acc. induction l as [|c l IH]; intros acc; simpl; [done|].
  destruct (to_digit radix c); [|done]. repeat case_bool; auto.
Qed.

Lemma length_fixed_digits u radix n z : length (fixed_digits u radix n z) = n.
Proof. revert z. induction n as [|n IH]; intros z; simpl; [done|]. rewrite length_app, IH. simpl. lia. Qed.

Lemma digits_checked_fixed u radix max n acc z :
  2 <= radix <= 16 -> 0 <= acc -> 0 <= z < radix ^ Z.of_nat n ->
  acc * radix ^ Z.of_nat n + z <= max ->
  digits_checked radix max acc (fixed_digits u radix n z) = Some (acc * radix ^ Z.of_nat n + z).
Proof.
  intros Hr Hacc. revert z. induction n as [|n IH]; intros z Hz Hmax; simpl fixed_digits.
  - simpl. rewrite Z.pow_0_r in *. f_equal. lia.
  - rewrite Nat2Z.inj_succ, Z.pow_succ_r in * by lia.
    pose proof (Z.div_mod z radix ltac:(lia)) as Hdm.
    pose proof (Z.mod_pos_bound z radix ltac:(lia)) as Hmod.
    assert (0 <= z / radix < radix ^ Z.of_nat n).
    { split; [apply Z.div_pos; lia|]. apply Z.div_lt_upper_bound; lia. }
    remember (acc * radix ^ Z.of_nat n + z / radix) as t eqn:Ht.
    assert (Hsum : acc * (radix * radix ^ Z.of_nat n) + z = t * radix + z mod radix)
      by (rewrite Ht, Hdm at 1; ring).
    assert (0 <= t) by (rewrite Ht; assert (0 <= radix ^ Z.of_nat n) by lia; nia).
    rewrite digits_checked_app, IH by (lia || nia). rewrite <- Ht. simpl.
    rewrite to_digit_char by lia.
    destruct (t * radix >? max) eqn:E1; [lia|].
    destruct (t * radix + z mod radix >? max) eqn:E2; [lia|].
    by rewrite Hsum.
Qed.

Lemma strip_zeros_nonempty l : l <> [] -> strip_zeros l <> [].
Proof.
  induction l as [|c [|d l] IH]; intros H; simpl; [done|done|].
  destruct (decide _); [|done]. by apply IH.
Qed.

Lemma digits_checked_strip_zeros radix max l :
  0 < radix -> 0 <= max ->
  digits_checked radix max 0 (strip_zeros l) = digits_checked radix max 0 l.
Proof.
  intros Hr Hm. induction l as [|c [|d l] IH]; [done|done|].
  change (strip_zeros (c :: d :: l)) with
    (if decide (c = "0"%char) then strip_zeros (d :: l) else c :: d :: l).
  destruct (decide _) as [->|_]; [|done]. rewrite IH.
  change (digits_checked radix max 0 ("0"%char :: d :: l)) with
    (match to_digit radix "0"%char with
     | None => None
     | Some e => if 0 * radix >? max then None else if 0 * radix + e >? max then None
                 else digits_checked radix max (0 * radix + e) (d :: l) end).
  change (to_digit radix "0"%char) with (if 0 <? radix then Some 0 else None).
  destruct (0 <? radix) eqn:E; [|lia]. rewrite !Z.mul_0_l, Z.add_0_l.
  by destruct (0 >? max) eqn:E2; [lia|].
Qed.

(** A digit string never begins with a sign. *)
Lemma digits_no_sign radix max l c acc z :
  digits_checked radix max acc (c :: l) = Some z -> c <> "+"%char /\ c <> "-"%char.
Proof. intros H. split; intros ->; destruct radix; discriminate H. Qed.

Lemma from_unsigned_digits radix max l z :
  l <> [] -> digits_checked radix max 0 l = Some z ->
  from_str_radix_unsigned radix max l = Some z.
Proof.
  intros Hl H. destruct l as [|c l]; [done|].
  destruct (digits_no_sign _ _ _ _ _ _ H) as [H1 H2].
  unfold from_str_radix_unsigned. destruct l.
  - rewrite decide_False by naive_solver. done.
  - rewrite decide_False by done. done.
Qed.

Lemma to_digit_nonneg radix c d : to_digit radix c = Some d -> 0 <= d.
Proof. unfold to_digit. pose proof (byte_val_range c). repeat case_bool; intros [= <-]; lia. Qed.

Lemma digits_checked_range radix max l : forall acc z,
  0 <= radix -> 0 <= acc <= max -> digits_checked radix max acc l = Some z -> 0 <= z <= max.
Proof.
  induction l as [|c l IH]; intros acc z Hr Ha; cbn [digits_checked]; [by intros [= <-]|].
  destruct (to_digit radix c) as [d|] eqn:Hd; [|done]. apply to_digit_nonneg in Hd.
  destruct (_ >? _) eqn:E1; [done|]. destruct (acc * radix + d >? max) eqn:E2; [done|]. apply IH; [done|].
  split; [|lia]. assert (0 <= acc * radix) by (apply Z.mul_nonneg_nonneg; lia). lia.
Qed.

(** A parsed number is in the type's range. *)
Lemma from_str_radix_unsigned_range radix max l z :
  0 <= radix -> 0 <= max -> from_str_radix_unsigned radix max l = Some z -> 0 <= z <= max.
Proof.
  intros Hr Hm. unfold from_str_radix_unsigned. destruct l as [|c [|c' l]]; [done| |];
    case_decide; try done; apply digits_checked_range; lia.
Qed.

Lemma from_signed_digits radix min max l z :
  l <> [] -> digits_checked radix max 0 l = Some z ->
  from_str_radix_signed radix min max l = Some z.
Proof.
  intros Hl H. destruct l as [|c l]; [done|].
  destruct (digits_no_sign _ _ _ _ _ _ H) as [H1 H2].
  unfold from_str_radix_signed. destruct l.
  - rewrite decide_False by naive_solver. done.
  - rewrite !decide_False by done. done.
Qed.

Lemma from_signed_minus radix min max l z :
  l <> [] -> digits_checked_neg radix min 0 l = Some z ->
  from_str_radix_signed radix min max ("-"%char :: l) = Some z.
Proof. destruct l as [|c l]; [congruence|]. intros _ H. exact H. Qed.

Lemma from_signed_plus radix min max l z :
  l <> [] -> digits_checked radix max 0 l = Some z ->
  from_str_radix_signed radix min max ("+"%char :: l) = Some z.
Proof. destruct l as [|c l]; [congruence|]. intros _ H. exact H. Qed.

Lemma fmt_radix_nonempty u radix z : fmt_radix u radix z <> [].
Proof.
  apply strip_zeros_nonempty. intros H.
  apply (f_equal length) in H. by rewrite length_fixed_digits in H.
Qed.

(** Printing in a radix and reading back is the identity on the type's range. *)
Lemma digits_fmt_radix u radix max z :
  10 <= radix <= 16 -> 0 <= z <= max -> z < 10 ^ 20 ->
  digits_checked radix max 0 (fmt_radix u radix z) = Some z.
Proof.
  intros Hr Hz Hlim. unfold fmt_radix. rewrite digits_checked_strip_zeros by lia.
  assert (HP : 10 ^ Z.of_nat 20 <= radix ^ Z.of_nat 20) by (apply Z.pow_le_mono_l; lia).
  pose proof (digits_checked_fixed u radix max 20 0 z) as H.
  set (P := radix ^ Z.of_nat 20) in *. clearbody P.
  change (10 ^ Z.of_nat 20) with (10 ^ 20) in HP. rewrite H by lia. f_equal; lia.
Qed.

Lemma parse_fmt_unsigned u radix max z :
  10 <= radix <= 16 -> 0 <= z <= max -> z < 10 ^ 20 ->
  from_str_radix_unsigned radix max (fmt_radix u radix z) = Some z.
Proof.
  intros. apply from_unsigned_digits; [apply fmt_radix_nonempty|]. by apply digits_fmt_radix.
Qed.

(** Reading downwards mirrors reading upwards. *)
Lemma digits_neg_mirror radix max acc l z :
  digits_checked radix max acc l = Some z ->
  digits_checked_neg radix (- max) (- acc) l = Some (- z).
Proof.
  revert acc. induction l as [|c l IH]; intros acc; simpl; [by intros [= ->]|].
  destruct (to_digit radix c) as [d|]; [|done].
  rewrite Z.mul_opp_l. destruct (acc * radix >? max) eqn:E1; [done|].
  destruct (acc * radix + d >? max) eqn:E2; [done|]. intros H.
  destruct (- (acc * radix) <? - max) eqn:E3; [lia|].
  destruct (- (acc * radix) - d <? - max) eqn:E4; [lia|].
  replace (- (acc * radix) - d) with (- (acc * radix + d)) by lia. by apply IH.
Qed.

Lemma parse_fmt_i64 z : is_i64 z ->
  from_str_radix_signed 10 i64_MIN i64_MAX (fmt_i z) = Some z.
Proof.
  intros Hz. unfold is_i64 in Hz. unfold fmt_i.
  assert (Hw : i64_MAX < 10 ^ 20) by (vm_compute; done).
  destruct (z <? 0) eqn:E.
  - apply from_signed_minus; [apply fmt_radix_nonempty|].
    change i64_MIN with (- - i64_MIN). change 0 with (- 0). replace z with (- - z) at 2 by lia.
    apply digits_neg_mirror, digits_fmt_radix; [lia| |]; unfold i64_MIN, i64_MAX in *; lia.
  - apply from_signed_digits; [apply fmt_radix_nonempty|].
    apply digits_fmt_radix; unfold i64_MAX in *; lia.
Qed.

(** ** Lemmas: strings *)

Lemma bytes_str_of l : bytes (str_of l) = l.
Proof. apply String.list_ascii_of_string_of_list_ascii. Qed.

Lemma str_of_bytes s : str_of (bytes s) = s.
Proof. apply String.string_of_list_ascii_of_string. Qed.

#[export] Instance bytes_inj : Inj (=) (=) bytes.
Proof. intros a b H. by rewrite <- (str_of_bytes a), <- (str_of_bytes b), H. Qed.

#[export] Instance str_of_inj : Inj (=) (=) str_of.
Proof. intros a b H. by rewrite <- (bytes_str_of a), <- (bytes_str_of b), H. Qed.

Lemma bytes_app s t : bytes (s +:+ t) = bytes s ++ bytes t.
Proof. induction s as [|c s IH]; [done|]. simpl. f_equal. exact IH. Qed.

Lemma str_is_empty_spec s : str_is_empty s = true <-> s = EmptyString.
Proof. by destruct s. Qed.

Lemma bytes_nil s : bytes s = [] <-> s = EmptyString.
Proof. by destruct s. Qed.

Lemma split_once_bytes_app c a b : c ∉ a -> split_once_bytes c (a ++ c :: b) = Some (a, b).
Proof.
  intros Ha. induction a as [|x a IH]; simpl.
  - by rewrite decide_True.
  - rewrite decide_False by set_solver. rewrite IH by set_solver. done.
Qed.

Lemma split_once_sep c a b :
  c ∉ bytes a -> split_once c (a +:+ String c EmptyString +:+ b) = Some (a, b).
Proof.
  intros Ha. unfold split_once. rewrite bytes_app. change (bytes (String c EmptyString +:+ b)) with (c :: bytes b).
  by rewrite split_once_bytes_app, !str_of_bytes.
Qed.

Lemma split_once_bytes_Some c l a b :
  split_once_bytes c l = Some (a, b) -> l = a ++ c :: b /\ c ∉ a.
Proof.
  revert a b. induction l as [|x l IH]; intros a b; simpl; [done|].
  destruct (decide (x = c)) as [->|Hx]; [intros [= <- <-]; set_solver|].
  destruct (split_once_bytes c l) as [[a' b']|]; [|done]. intros [= <- <-].
  destruct (IH a' b' eq_refl) as [-> Hn]. split; [done|set_solver].
Qed.

Lemma split_once_bytes_None c l : split_once_bytes c l = None <-> c ∉ l.
Proof.
  induction l as [|x l IH]; simpl; [set_solver|].
  destruct (decide (x = c)) as [->|Hx]; [set_solver|].
  destruct (split_once_bytes c l) as [[a b]|]; set_solver.
Qed.

Lemma strip_prefix_bytes_Some p l r : strip_prefix_bytes p l = Some r <-> l = p ++ r.
Proof.
  revert l. induction p as [|a p IH]; intros l; simpl; [naive_solver|].
  destruct l as [|b l]; [naive_solver|]. destruct (decide (a = b)); [|naive_solver].
  rewrite IH. naive_solver.
Qed.

(** ** Lemmas: trim *)

Lemma is_prefix_app p l : is_prefix (byte_val <$> p) (p ++ l) = true.
Proof. unfold is_prefix. rewrite length_fmap, take_app_length. by apply bool_decide_true. Qed.

Definition prefix_free (enc : list (list Z)) : Prop :=
  forall p q, p ∈ enc -> q ∈ enc ->
    take (min (length p) (length q)) p = take (min (length p) (length q)) q -> p = q.

#[export] Instance prefix_free_dec enc : Decision (prefix_free enc).
Proof.
  refine (cast_if (decide (Forall (fun p => Forall (fun q =>
    take (min (length p) (length q)) p = take (min (length p) (length q)) q -> p = q) enc) enc)));
  unfold prefix_free; [|intros H; apply n].
  - rewrite Forall_forall in *. setoid_rewrite Forall_forall in f. naive_solver.
  - rewrite Forall_forall. intros p Hp. rewrite Forall_forall. auto.
Defined.

Lemma white_space_prefix_free : prefix_free white_space.
Proof. apply (bool_decide_unpack _). vm_compute. done. Qed.

Lemma white_space_rev_prefix_free : prefix_free (reverse <$> white_space).
Proof. apply (bool_decide_unpack _). vm_compute. done. Qed.

Lemma white_space_nonempty p : p ∈ white_space -> p <> [].
Proof.
  assert (H : Forall (fun p => p <> []) white_space) by (apply (bool_decide_unpack _); vm_compute; done).
  rewrite Forall_forall in H. auto.
Qed.

Lemma enc_at_app enc p l :
  prefix_free enc -> (byte_val <$> p) ∈ enc -> enc_at enc (p ++ l) = length p.
Proof.
  intros Hpf Hp. unfold enc_at. destruct (find_first _ _) as [q|] eqn:Hq.
  - apply find_first_Some in Hq as [Hin Hq]. unfold is_prefix in Hq.
    apply bool_decide_eq_true in Hq.
    rewrite <- (length_fmap byte_val p). f_equal. symmetry. apply Hpf; [done|done|].
    rewrite length_fmap. rewrite <- Hq at 3. rewrite <- !fmap_take, take_take.
    replace (min (min (length p) (length q)) (length q)) with (min (length p) (length q)) by lia.
    rewrite take_app_le by lia. done.
  - apply find_first_None in Hq. rewrite Forall_forall in Hq. specialize (Hq _ Hp).
    by rewrite is_prefix_app in Hq.
Qed.

(** A run of white-space characters, as bytes. *)
Definition blank (enc : list (list Z)) (w : list ascii) : Prop :=
  exists ps : list (list ascii), w = concat ps /\ Forall (fun p => (byte_val <$> p) ∈ enc /\ p <> []) ps.

Lemma strip_ws_stop enc fuel l : enc_at enc l = O -> strip_ws enc fuel l = l.
Proof. destruct fuel; simpl; [done|]. by intros ->. Qed.

Lemma strip_ws_blank enc w l fuel :
  prefix_free enc -> blank enc w -> enc_at enc l = O -> (length w <= fuel)%nat ->
  strip_ws enc fuel (w ++ l) = l.
Proof.
  intros Hpf (ps & -> & Hps) Hl. revert fuel.
  induction Hps as [|p ps [Hp Hne] _ IH]; intros fuel Hf; simpl.
  - by apply strip_ws_stop.
  - simpl in Hf. rewrite length_app in Hf. destruct p as [|x p']; [done|].
    destruct fuel as [|fuel]; [simpl in Hf; lia|].
    rewrite <- app_assoc. cbn [strip_ws]. rewrite enc_at_app by done.
    cbn [length]. change (S (length p')) with (length (x :: p')).
    rewrite drop_app_length. apply IH. simpl in Hf. lia.
Qed.

(** [trim] removes blanks around a core that neither begins nor ends with one. *)
Lemma trim_blank w1 core w2 :
  blank white_space w1 -> blank (reverse <$> white_space) (reverse w2) ->
  enc_at white_space (core ++ w2) = O -> enc_at (reverse <$> white_space) (reverse core) = O ->
  trim_bytes (w1 ++ core ++ w2) = core.
Proof.
  intros H1 H2 Hc1 Hc2. unfold trim_bytes, trim_start_bytes, trim_end_bytes.
  rewrite (strip_ws_blank white_space w1 (core ++ w2) _ white_space_prefix_free H1 Hc1)
    by (rewrite length_app; lia).
  rewrite reverse_app.
  rewrite (strip_ws_blank _ _ (reverse core) _ white_space_rev_prefix_free H2 Hc2)
    by (rewrite length_app, length_reverse; lia).
  apply reverse_involutive.
Qed.

Definition graphic (c : ascii) : bool := in_range 33 126 c.

Definition head_nongraphic (p : list Z) : bool :=
  match p with x :: _ => (x <? 33) || (126 <? x) | [] => false end.

Lemma graphic_no_enc enc c l :
  forallb head_nongraphic enc = true -> graphic c = true -> enc_at enc (c :: l) = O.
Proof.
  intros H Hc. unfold enc_at. destruct (find_first _ _) as [p|] eqn:Hp; [|done]. exfalso.
  apply find_first_Some in Hp as [Hin Hp]. apply bool_decide_eq_true in Hp.
  rewrite forallb_spec in H. specialize (H p Hin). destruct p as [|x p]; [done|].
  injection Hp as Hx _. unfold graphic, in_range in Hc. simpl in H. lia.
Qed.

Lemma graphic_no_ws c l : graphic c = true -> enc_at white_space (c :: l) = O.
Proof. apply graphic_no_enc. reflexivity. Qed.

Lemma graphic_no_ws_rev c l : graphic c = true -> enc_at (reverse <$> white_space) (c :: l) = O.
Proof. apply graphic_no_enc. reflexivity. Qed.

(** A string of graphic ASCII characters is its own [trim]; so is a padded one
    once the padding is gone. *)
Lemma trim_graphic w1 core w2 :
  blank white_space w1 -> blank (reverse <$> white_space) (reverse w2) ->
  core <> [] -> Forall (fun c => graphic c = true) core ->
  trim_bytes (w1 ++ core ++ w2) = core.
Proof.
  intros H1 H2 Hne Hc. apply trim_blank; [done|done| |].
  - destruct core as [|c core]; [done|]. apply graphic_no_ws. by inversion Hc.
  - destruct core as [|c core _] using rev_ind; [done|].
    rewrite reverse_snoc. apply graphic_no_ws_rev.
    apply Forall_app in Hc as [_ Hc]. by inversion Hc.
Qed.

Lemma blank_nil enc : blank enc [].
Proof. exists []. by split. Qed.

Lemma trim_graphic_id core :
  core <> [] -> Forall (fun c => graphic c = true) core -> trim_bytes core = core.
Proof.
  intros Hne Hc. pose proof (trim_graphic [] core [] (blank_nil _) (blank_nil _) Hne Hc) as H.
  by rewrite app_nil_l, app_nil_r in H.
Qed.

Lemma digit_char_graphic u d : 0 <= d < 16 -> graphic (digit_char u d) = true.
Proof.
  intros Hd. unfold graphic, in_range. rewrite digit_char_val by done.
  repeat case_bool; lia.
Qed.

Lemma fixed_digits_Forall (P : ascii -> Prop) u radix n z :
  0 < radix -> (forall d, 0 <= d < radix -> P (digit_char u d)) ->
  Forall P (fixed_digits u radix n z).
Proof.
  intros Hr HP. revert z. induction n as [|n IH]; intros z; simpl; [constructor|].
  apply Forall_app. split; [apply IH|]. constructor; [|constructor].
  apply HP. apply Z.mod_pos_bound. lia.
Qed.

Lemma strip_zeros_Forall (P : ascii -> Prop) l : Forall P l -> Forall P (strip_zeros l).
Proof.
  induction l as [|c [|d l] IH]; intros H; [done|done|].
  change (strip_zeros (c :: d :: l)) with
    (if decide (c = "0"%char) then strip_zeros (d :: l) else c :: d :: l).
  destruct (decide _); [|done]. apply IH. by inversion H.
Qed.

Lemma fmt_radix_Forall (P : ascii -> Prop) u radix z :
  0 < radix -> (forall d, 0 <= d < radix -> P (digit_char u d)) -> Forall P (fmt_radix u radix z).
Proof. intros. apply strip_zeros_Forall. by apply fixed_digits_Forall. Qed.

Lemma fmt_i_graphic z : Forall (fun c => graphic c = true) (fmt_i z).
Proof.
  assert (H : forall y, Forall (fun c => graphic c = true) (fmt_radix false 10 y)).
  { intros y. apply fmt_radix_Forall; [lia|]. intros d Hd. apply digit_char_graphic. lia. }
  unfold fmt_i. case_bool; [constructor; [done|]|]; apply H.
Qed.

Lemma fmt_i_nonempty z : fmt_i z <> [].
Proof. unfold fmt_i. case_bool; [done|]. apply fmt_radix_nonempty. Qed.

(** ** Lemmas: the stable sort *)

Section sort_lemmas.
Context {A : Type} (le : A -> A -> bool).
Hypothesis le_total : forall a b, le a b = false -> le b a = true.
Hypothesis le_trans : forall a b c, le a b = true -> le b c = true -> le a c = true.

Lemma insert_sorted_perm x l : insert_sorted le x l ≡ₚ x :: l.
Proof using.
  clear. induction l as [|y l IH]; simpl; [done|]. case_bool; [done|].
  rewrite IH. apply Permutation_swap.
Qed.

Lemma sort_by_perm l : sort_by le l ≡ₚ l.
Proof using.
  clear. induction l as [|x l IH]; simpl; [done|]. by rewrite insert_sorted_perm, IH.
Qed.

Lemma insert_sorted_sorted x l :
  StronglySorted (fun a b => le a b = true) l ->
  StronglySorted (fun a b => le a b = true) (insert_sorted le x l).
Proof using le_total le_trans.
  induction 1 as [|y l Hs IH Hall]; simpl.
  - repeat constructor.
  - destruct (le x y) eqn:E.
    + constructor; [by constructor|]. constructor; [done|].
      eapply Forall_impl; [exact Hall|]. intros z Hz. by eapply le_trans.
    + constructor; [done|]. rewrite Forall_forall. intros z Hz.
      rewrite insert_sorted_perm in Hz. apply elem_of_cons in Hz as [->|Hz]; [auto|].
      rewrite Forall_forall in Hall. auto.
Qed.

Lemma sort_by_sorted l : StronglySorted (fun a b => le a b = true) (sort_by le l).
Proof using le_total le_trans.
  induction l as [|x l IH]; simpl; [constructor|]. by apply insert_sorted_sorted.
Qed.

(** Elements that compare equal keep their order: on any class of mutually
    equal elements the sort does nothing. *)
Lemma insert_sorted_stable (P : A -> bool) x l :
  (forall a b, P a = true -> P b = true -> le a b = true) ->
  List.filter P (insert_sorted le x l) = List.filter P (x :: l).
Proof using.
  clear. intros HP. induction l as [|y l IH]; [done|].
  cbn [insert_sorted]. destruct (le x y) eqn:E; [done|].
  cbn [List.filter] in *. rewrite IH. destruct (P x) eqn:Px, (P y) eqn:Py; try done.
  by rewrite (HP x y) in E.
Qed.

Lemma sort_by_stable (P : A -> bool) l :
  (forall a b, P a = true -> P b = true -> le a b = true) ->
  List.filter P (sort_by le l) = List.filter P l.
Proof using.
  clear le_total le_trans. intros HP. induction l as [|x l IH]; [done|].
  cbn [sort_by]. rewrite insert_sorted_stable by done. simpl. by rewrite IH.
Qed.

Lemma sort_by_id l : StronglySorted (fun a b => le a b = true) l -> sort_by le l = l.
Proof using.
  clear. induction 1 as [|x l Hs IH Hall]; simpl; [done|]. rewrite IH.
  destruct Hall as [|y l Hxy _]; simpl; [done|]. by rewrite Hxy.
Qed.
End sort_lemmas.
