(* ===== verification/Keyspace.v ===== *)
(** * The keyspace: ids, half-open ranges, partitions

    [src/crates/pgshard-core/src/keyspace.rs]. A keyspace id is a [u64], kept as
    a [Z]; a range is [[start, end)] with [None] for the top of the space. *)

From S2P Require Import Prelude Rust.

Open Scope Z_scope.

(** ** Data *)

Definition KeyspaceId : Type := Z.

Record KeyRange := mkKeyRange {
  kr_start : Z;
  kr_end : option Z;
}.

#[export] Instance KeyRange_eq_dec : EqDecision KeyRange.
Proof. solve_decision. Defined.

Inductive KeyRangeError :=
| EmptyRange (start end_ : Z)
| InvalidBound (s : string)
| InvalidSyntax (s : string)
| InvalidSplit (parts : Z).

Inductive PartitionError :=
| PartitionEmpty
| DoesNotStartAtZero (start : Z)
| GapOrOverlap (index : nat) (prev_end : option Z) (next_start : Z)
| DoesNotEndAtMax (end_ : Z).

(** ** Operations of [KeyRange] *)

Module KeyRange.

Definition FULL : KeyRange := mkKeyRange 0 None.

Definition new (start : Z) (end_ : option Z) : result KeyRangeError KeyRange :=
  match end_ with
  | Some e => if start >=? e then Err (EmptyRange start e) else Ok (mkKeyRange start end_)
  | None => Ok (mkKeyRange start end_)
  end.

(** [u128]: the top of the space is representable. *)
Definition end_exclusive (r : KeyRange) : Z :=
  match kr_end r with Some e => e | None => Z.shiftl 1 64 end.

Definition contains (r : KeyRange) (id : KeyspaceId) : bool :=
  (id >=? kr_start r) && (id <? end_exclusive r).

Definition intersects (self other : KeyRange) : bool :=
  (kr_start self <? end_exclusive other) && (kr_start other <? end_exclusive self).

(** [bound(i) = start + (i * width) / parts] over [u128]. *)
Definition split_bound (start width parts i : Z) : Z := start + (i * width) / parts.

Definition split_part (r : KeyRange) (width parts i : Z) : KeyRange :=
  let lo := as_u64 (split_bound (kr_start r) width parts i) in
  let hi := split_bound (kr_start r) width parts (i + 1) in
  let end_ := if hi =? end_exclusive r then kr_end r else Some (as_u64 hi) in
  mkKeyRange lo end_.

Definition split_evenly (r : KeyRange) (parts : Z) : result KeyRangeError (list KeyRange) :=
  if parts =? 0 then Err (InvalidSplit parts)
  else
    let width := end_exclusive r - kr_start r in
    if width <? parts then Err (InvalidSplit parts)
    else Ok ((fun i => split_part r width parts (Z.of_nat i)) <$> seq 0 (Z.to_nat parts)).

End KeyRange.

(** ** Bounds as text *)

(** [trim_end_matches("00")], on the reversed byte string. *)
Fixpoint trim_00_rev (l : list ascii) : list ascii :=
  match l with
  | a :: b :: l' =>
      if decide (a = "0"%char /\ b = "0"%char) then trim_00_rev l' else l
  | _ => l
  end.

Definition format_bound (v : Z) : string :=
  if v =? 0 then EmptyString
  else str_of (reverse (trim_00_rev (reverse (fixed_digits false 16 16 v)))).

Definition is_lower_hex (c : ascii) : bool := is_ascii_digit c || in_range 97 102 c.

Definition parse_bound (s : string) : result KeyRangeError Z :=
  if str_is_empty s then Ok 0
  else if negb (Nat.even (str_len s)) || (16 <? str_len s)%nat
          || negb (forallb is_lower_hex (bytes s))
  then Err (InvalidBound s)
  else
    parsed ← ok_or (InvalidBound s) (from_str_radix_unsigned 16 u64_MAX (bytes s));
    Ok (as_u64 (Z.shiftl parsed (4 * (16 - Z.of_nat (str_len s))))).

Definition option_bound (e : option Z) : string :=
  match e with Some v => format_bound v | None => EmptyString end.

(** [impl Display for KeyRange]. *)
Definition KeyRange_to_string (r : KeyRange) : string :=
  format_bound (kr_start r) +:+ "-" +:+ option_bound (kr_end r).

(** [impl FromStr for KeyRange]. *)
Definition KeyRange_from_str (s : string) : result KeyRangeError KeyRange :=
  '(start, end_) ← ok_or (InvalidSyntax s) (split_once "-"%char s);
  start ← parse_bound start;
  end_ ← (if str_is_empty end_ then Ok None else Some <$> parse_bound end_);
  KeyRange.new start end_.

(** ** Partitions *)

(** The [for (index, pair) in ranges.windows(2).enumerate()] loop. *)
Fixpoint check_windows (index : nat) (ws : list (KeyRange * KeyRange)) : result PartitionError unit :=
  match ws with
  | [] => Ok tt
  | (a, b) :: ws' =>
      if decide (kr_end a = Some (kr_start b)) then check_windows (S index) ws'
      else Err (GapOrOverlap (index + 1) (kr_end a) (kr_start b))
  end.

Definition validate_partition (ranges : list KeyRange) : result PartitionError unit :=
  match ranges with
  | [] => Err PartitionEmpty
  | first :: _ =>
      if negb (kr_start first =? 0) then Err (DoesNotStartAtZero (kr_start first))
      else
        _ ← check_windows 0 (windows2 ranges);
        match kr_end (List.last ranges first) with
        | None => Ok tt
        | Some e => Err (DoesNotEndAtMax e)
        end
  end.

(** ** Well-formed ranges

    The fields of [KeyRange] are private: every range a caller holds was made by
    [FULL], [new], [split_evenly] or [from_str], and satisfies this. *)

Definition range_wf (r : KeyRange) : Prop :=
  0 <= kr_start r /\ kr_start r < KeyRange.end_exclusive r /\
  match kr_end r with Some e => e <= u64_MAX | None => True end.

#[export] Instance range_wf_dec r : Decision (range_wf r).
Proof. unfold range_wf. destruct (kr_end r); apply _. Defined.

(** The ranges run from [lo] to [hi] without gap or overlap. *)
Fixpoint chain (lo : Z) (rs : list KeyRange) (hi : option Z) : Prop :=
  match rs with
  | [] => False
  | r :: rs' =>
      kr_start r = lo /\
      match rs' with
      | [] => kr_end r = hi
      | _ :: _ => exists m, kr_end r = Some m /\ chain m rs' hi
      end
  end.

(** Exactly one range of the list holds [id]. *)
Definition unique_owner (rs : list KeyRange) (id : KeyspaceId) : Prop :=
  exists i r, rs !! i = Some r /\ KeyRange.contains r id = true /\
    forall j r', rs !! j = Some r' -> KeyRange.contains r' id = true -> j = i.

(** ** Lemmas *)

Lemma end_exclusive_range r : range_wf r -> kr_start r < KeyRange.end_exclusive r <= two64.
Proof.
  unfold range_wf, KeyRange.end_exclusive, u64_MAX, two64.
  destruct (kr_end r); [lia|]. change (Z.shiftl 1 64) with 18446744073709551616. lia.
Qed.

Lemma range_start_u64 r : range_wf r -> is_u64 (kr_start r).
Proof.
  intros H. pose proof (end_exclusive_range r H). destruct H as [? _].
  unfold is_u64, u64_MAX, two64 in *. lia.
Qed.

Lemma contains_spec r id :
  KeyRange.contains r id = true <-> kr_start r <= id < KeyRange.end_exclusive r.
Proof. unfold KeyRange.contains. rewrite andb_true_iff. lia. Qed.

Lemma new_wf start end_ r :
  is_u64 start -> (forall e, end_ = Some e -> is_u64 e) ->
  KeyRange.new start end_ = Ok r -> range_wf r /\ r = mkKeyRange start end_.
Proof.
  unfold is_u64, KeyRange.new, range_wf, KeyRange.end_exclusive. intros Hs He H.
  destruct end_ as [e|].
  - specialize (He e eq_refl). case_bool; simplify_eq. simpl. split_and!; lia || done.
  - simplify_eq. simpl. change (Z.shiftl 1 64) with 18446744073709551616. unfold u64_MAX in *.
    split_and!; lia || done.
Qed.

(** *** Chains and partitions *)

Lemma chain_first lo r rs hi : chain lo (r :: rs) hi -> kr_start r = lo.
Proof. by intros [? _]. Qed.

Lemma chain_start_le lo rs hi i r :
  Forall range_wf rs -> chain lo rs hi -> rs !! i = Some r -> lo <= kr_start r.
Proof.
  revert lo i. induction rs as [|a rs IH]; intros lo i Hwf Hc Hr; [done|].
  apply Forall_cons in Hwf as [Ha Hwf]. destruct Hc as [<- Hc].
  destruct i as [|i]; simpl in Hr; [injection Hr as ->; lia|].
  destruct rs as [|b rs]; [done|]. destruct Hc as (m & Hm & Hc).
  pose proof (IH m i Hwf Hc Hr). destruct Ha as (_ & Hlt & _).
  unfold KeyRange.end_exclusive in Hlt. rewrite Hm in Hlt. lia.
Qed.

Lemma chain_owner lo rs hi id :
  Forall range_wf rs -> chain lo rs hi ->
  lo <= id < KeyRange.end_exclusive (mkKeyRange lo hi) -> unique_owner rs id.
Proof.
  revert lo. induction rs as [|a rs IH]; intros lo Hwf Hc Hid; [done|].
  apply Forall_cons in Hwf as [Ha Hwf]. destruct Hc as [<- Hc].
  destruct rs as [|b rs].
  { exists O, a. split_and!; [done| |].
    - apply contains_spec. unfold KeyRange.end_exclusive in *. by rewrite Hc.
    - by intros [|j] r' Hr' _. }
  destruct Hc as (m & Hm & Hc).
  assert (Hend : KeyRange.end_exclusive a = m) by (unfold KeyRange.end_exclusive; by rewrite Hm).
  destruct (decide (id < m)) as [Hlt|Hge].
  - exists O, a. split_and!; [done|by apply contains_spec; lia|].
    intros [|j] r' Hr' Hin; [done|]. simpl in Hr'.
    pose proof (chain_start_le _ _ _ _ _ Hwf Hc Hr'). apply contains_spec in Hin. lia.
  - destruct (IH m Hwf Hc) as (i & r & Hr & Hin & Hu).
    { unfold KeyRange.end_exclusive in *. simpl in *. lia. }
    exists (S i), r. split_and!; [done|done|].
    intros [|j] r' Hr' Hin'; simpl in Hr'.
    + injection Hr' as <-. apply contains_spec in Hin'. lia.
    + f_equal. eauto.
Qed.

(** *** [validate_partition] decides the chain from 0 to the top *)

Lemma check_windows_Ok ws i : check_windows i ws = Ok tt <->
  Forall (fun p => kr_end p.1 = Some (kr_start p.2)) ws.
Proof.
  revert i. induction ws as [|[a b] ws IH]; intros i; simpl; [naive_solver|].
  rewrite Forall_cons. destruct (decide _); naive_solver.
Qed.

Lemma chain_windows lo r rs hi :
  chain lo (r :: rs) hi <->
  kr_start r = lo /\ Forall (fun p => kr_end p.1 = Some (kr_start p.2)) (windows2 (r :: rs)) /\
  kr_end (List.last (r :: rs) r) = hi.
Proof.
  revert lo r. induction rs as [|b rs IH]; intros lo r.
  - simpl. naive_solver constructor.
  - change (windows2 (r :: b :: rs)) with ((r, b) :: windows2 (b :: rs)).
    change (List.last (r :: b :: rs) r) with (List.last (b :: rs) r).
    rewrite (list_last_irrel b rs r b).
    rewrite Forall_cons. simpl fst; simpl snd.
    change (chain lo (r :: b :: rs) hi) with
      (kr_start r = lo /\ exists m, kr_end r = Some m /\ chain m (b :: rs) hi).
    setoid_rewrite IH. naive_solver.
Qed.

Lemma validate_partition_chain rs : validate_partition rs = Ok tt <-> chain 0 rs None.
Proof.
  destruct rs as [|r rs]; [done|]. rewrite chain_windows.
  unfold validate_partition. rewrite <- (check_windows_Ok _ 0).
  destruct (kr_start r =? 0) eqn:E; simpl negb; cbv iota; [|split; [done|lia]].
  apply Z.eqb_eq in E. destruct (check_windows 0 _) as [[]|e]; simpl; [|naive_solver].
  destruct (kr_end _); naive_solver.
Qed.

(** *** A partition of the ids is a chain *)

Section partition_complete.
Context (rs : list KeyRange).
Hypothesis Hwf : Forall range_wf rs.
Hypothesis Hsorted : StronglySorted (fun a b => kr_start a <= kr_start b) rs.
Hypothesis Howner : forall id, is_u64 id -> unique_owner rs id.

Lemma sorted_lookup_le i j a b :
  (i < j)%nat -> rs !! i = Some a -> rs !! j = Some b -> kr_start a <= kr_start b.
Proof using Hsorted.
  clear Hwf Howner. intros Hij Ha Hb. revert i j Hij Ha Hb.
  induction Hsorted as [|x l Hs IH Hall]; intros i j Hij Ha Hb; [done|].
  destruct j as [|j]; [lia|]. destruct i as [|i]; simpl in *.
  - injection Ha as ->. rewrite Forall_forall in Hall. apply Hall.
    by eapply list_elem_of_lookup_2.
  - eapply (IH ltac:(done) i j); [lia|done|done].
Qed.

Lemma owner_unique i j a b id :
  is_u64 id -> rs !! i = Some a -> rs !! j = Some b ->
  KeyRange.contains a id = true -> KeyRange.contains b id = true -> i = j.
Proof using Howner.
  intros Hid Ha Hb Hia Hib. destruct (Howner id Hid) as (k & r & _ & _ & Hu).
  by rewrite (Hu i a Ha Hia), (Hu j b Hb Hib).
Qed.

(** The end of a range, when it is an id, is owned by a later range. *)
Lemma end_owned_later i a e :
  rs !! i = Some a -> kr_end a = Some e ->
  exists j b, (i < j)%nat /\ rs !! j = Some b /\ KeyRange.contains b e = true.
Proof using Hwf Hsorted Howner.
  intros Ha He. pose proof (Forall_lookup_1 _ _ _ _ Hwf Ha) as Hwa.
  pose proof Hwa as (H0 & Hlt & Hmax). rewrite He in Hmax.
  unfold KeyRange.end_exclusive in Hlt. rewrite He in Hlt.
  destruct (Howner e ltac:(unfold is_u64; lia)) as (j & b & Hb & Hin & _).
  exists j, b. split; [|done]. destruct (decide (i < j)%nat) as [|Hnlt]; [done|exfalso].
  apply contains_spec in Hin as Hin'.
  destruct (decide (j = i)) as [->|Hne].
  - simplify_eq. unfold KeyRange.end_exclusive in Hin'. rewrite He in Hin'. lia.
  - pose proof (sorted_lookup_le j i b a ltac:(lia) Hb Ha).
    apply Hne. eapply (owner_unique j i b a (kr_start a)); [by apply range_start_u64|done|done| |];
      apply contains_spec; [lia|]. unfold KeyRange.end_exclusive. rewrite He. lia.
Qed.

Lemma window_contiguous i a b :
  rs !! i = Some a -> rs !! S i = Some b -> kr_end a = Some (kr_start b).
Proof using Hwf Hsorted Howner.
  intros Ha Hb. pose proof (Forall_lookup_1 _ _ _ _ Hwf Ha) as Hwa.
  pose proof (Forall_lookup_1 _ _ _ _ Hwf Hb) as Hwb.
  pose proof (sorted_lookup_le i (S i) a b ltac:(lia) Ha Hb) as Hle.
  pose proof (end_exclusive_range b Hwb) as Hb'.
  assert (Hge : KeyRange.end_exclusive a <= kr_start b).
  { apply Z.nlt_ge. intros Hlt. assert (i = S i); [|lia].
    apply (owner_unique i (S i) a b (kr_start b)); [by apply range_start_u64|done|done| |];
      apply contains_spec; lia. }
  destruct (kr_end a) as [e|] eqn:He.
  - unfold KeyRange.end_exclusive in Hge. rewrite He in Hge.
    destruct (end_owned_later i a e Ha He) as (j & c & Hj & Hc & Hin).
    apply contains_spec in Hin. f_equal.
    destruct (decide (j = S i)) as [->|Hne]; [simplify_eq; lia|].
    pose proof (sorted_lookup_le (S i) j b c ltac:(lia) Hb Hc). lia.
  - exfalso. unfold KeyRange.end_exclusive in Hge. rewrite He in Hge.
    change (Z.shiftl 1 64) with two64 in Hge. lia.
Qed.

Lemma partition_complete_chain : chain 0 rs None.
Proof using Hwf Hsorted Howner.
  assert (Hne : exists r l, rs = r :: l).
  { destruct (Howner 0 ltac:(by unfold is_u64)) as (i & r & Hr & _).
    clear - Hr. destruct rs; [done|eauto]. }
  destruct Hne as (r & l & Hrs). assert (Hr0 : rs !! O = Some r) by by rewrite Hrs.
  rewrite Hrs, chain_windows, <- Hrs. split_and!.
  - destruct (Howner 0 ltac:(by unfold is_u64)) as (i & a & Ha & Hin & _).
    apply contains_spec in Hin. pose proof (Forall_lookup_1 _ _ _ _ Hwf Hr0) as [H0 _].
    destruct i as [|i]; [simplify_eq; lia|].
    pose proof (sorted_lookup_le O (S i) r a ltac:(lia) Hr0 Ha). lia.
  - rewrite Forall_lookup. intros i [a b] [Ha Hb]%windows2_lookup. by eapply window_contiguous.
  - destruct (kr_end (List.last rs r)) as [e|] eqn:He; [exfalso|done].
    assert (Hl : rs !! pred (length rs) = Some (List.last rs r)).
    { rewrite Hrs. apply list_last_lookup. }
    destruct (end_owned_later _ _ _ Hl He) as (j & b & Hj & Hb & _).
    apply lookup_lt_Some in Hb. lia.
Qed.
End partition_complete.

(** *** [split_evenly] *)

Section split.
Context (r : KeyRange) (parts : Z).
Hypothesis Hr : range_wf r.
Hypothesis Hparts : 0 < parts.

Let width := KeyRange.end_exclusive r - kr_start r.
Hypothesis Hwidth : parts <= width.

Let bound := KeyRange.split_bound (kr_start r) width parts.

Lemma split_bound_0 : bound 0 = kr_start r.
Proof using. unfold bound, KeyRange.split_bound. rewrite Z.mul_0_l, Zdiv_0_l. lia. Qed.

Lemma split_bound_parts : bound parts = KeyRange.end_exclusive r.
Proof using Hparts.
  unfold bound, KeyRange.split_bound. rewrite Z.mul_comm, Z.div_mul by lia. unfold width. lia.
Qed.

(** Consecutive bounds differ by the width's quotient, or by one more. *)
Lemma split_bound_step i : bound i + width / parts <= bound (i + 1) <= bound i + width / parts + 1.
Proof using Hparts.
  unfold bound, KeyRange.split_bound.
  pose proof (Z.div_mod (i * width) parts ltac:(lia)).
  pose proof (Z.mod_pos_bound (i * width) parts ltac:(lia)).
  pose proof (Z.div_mod ((i + 1) * width) parts ltac:(lia)).
  pose proof (Z.mod_pos_bound ((i + 1) * width) parts ltac:(lia)).
  pose proof (Z.div_mod width parts ltac:(lia)).
  pose proof (Z.mod_pos_bound width parts ltac:(lia)). nia.
Qed.

Lemma split_bound_lt i : bound i < bound (i + 1).
Proof using Hparts Hwidth.
  pose proof (split_bound_step i). assert (1 <= width / parts) by (apply Z.div_le_lower_bound; lia). lia.
Qed.

Lemma split_bound_mono i j : i <= j -> bound i <= bound j.
Proof using Hparts Hwidth.
  intros Hij. unfold bound, KeyRange.split_bound.
  assert (i * width / parts <= j * width / parts) by (apply Z.div_le_mono; nia). lia.
Qed.

Lemma split_part_spec i : 0 <= i < parts ->
  kr_start (KeyRange.split_part r width parts i) = bound i /\
  KeyRange.end_exclusive (KeyRange.split_part r width parts i) = bound (i + 1) /\
  kr_end (KeyRange.split_part r width parts i) =
    (if decide (i + 1 = parts) then kr_end r else Some (bound (i + 1))).
Proof using Hr Hparts Hwidth.
  intros Hi. pose proof (end_exclusive_range r Hr) as Hend. destruct Hr as (H0 & _ & _).
  pose proof (split_bound_mono 0 i ltac:(lia)) as Hlo. rewrite split_bound_0 in Hlo.
  pose proof (split_bound_mono (i + 1) parts ltac:(lia)) as Hhi. rewrite split_bound_parts in Hhi.
  pose proof (split_bound_lt i) as Hlt. unfold bound in *.
  unfold KeyRange.split_part. simpl. unfold as_u64. rewrite (Z.mod_small _ two64) by lia.
  split; [done|]. destruct (_ =? _) eqn:E.
  - apply Z.eqb_eq in E. rewrite decide_True.
    + split; [|done]. unfold KeyRange.end_exclusive in *. simpl. lia.
    + destruct (decide (i + 1 = parts)) as [|Hne]; [done|exfalso].
      pose proof (split_bound_lt (i + 1)). pose proof (split_bound_mono (i + 1 + 1) parts ltac:(lia)) as Hm.
      rewrite split_bound_parts in Hm. unfold bound in *. lia.
  - rewrite (Z.mod_small _ two64) by lia. simpl. split; [done|].
    rewrite decide_False; [done|]. intros Heq. rewrite Heq in E.
    pose proof split_bound_parts. unfold bound in *. lia.
Qed.

Lemma split_part_wf i : 0 <= i < parts -> range_wf (KeyRange.split_part r width parts i).
Proof using Hr Hparts Hwidth.
  intros Hi. destruct (split_part_spec i Hi) as (Hs & He & Hopt).
  pose proof (split_bound_lt i) as Hlt.
  pose proof (split_bound_mono 0 i ltac:(lia)) as Hlo. rewrite split_bound_0 in Hlo.
  unfold range_wf. rewrite Hs, He, Hopt. destruct Hr as (H0 & _ & Hmax).
  split_and!; [lia|lia|]. destruct (decide _) as [|Hne]; [done|].
  pose proof (split_bound_lt (i + 1)).
  pose proof (split_bound_mono (i + 1 + 1) parts ltac:(lia)) as Hhi. rewrite split_bound_parts in Hhi.
  pose proof (end_exclusive_range r Hr). unfold u64_MAX, two64 in *. lia.
Qed.

Lemma split_parts_chain n i : (0 < n)%nat -> Z.of_nat i + Z.of_nat n = parts ->
  chain (bound (Z.of_nat i))
    ((fun k => KeyRange.split_part r width parts (Z.of_nat k)) <$> seq i n) (kr_end r).
Proof using Hr Hparts Hwidth.
  revert i. induction n as [|n IH]; intros i Hn Hi; [lia|].
  cbn [seq fmap list_fmap].
  destruct (split_part_spec (Z.of_nat i) ltac:(lia)) as (Hs & _ & He).
  split; [done|]. destruct n as [|n].
  - cbn [seq fmap list_fmap]. rewrite He, decide_True by lia. done.
  - cbn [seq fmap list_fmap]. exists (bound (Z.of_nat (S i))). split.
    + rewrite He, decide_False by lia. f_equal. f_equal. lia.
    + apply (IH (S i)); lia.
Qed.
End split.

(** *** Bounds as text *)

Lemma trim_00_rev_spec l : exists k, l = replicate (2 * k) "0"%char ++ trim_00_rev l.
Proof.
  induction l as [l IH] using (induction_ltof1 _ length). unfold ltof in IH.
  destruct l as [|a [|b l]]; [by exists O|by exists O|]. cbn [trim_00_rev].
  destruct (decide _) as [[-> ->]|Hne]; [|by exists O].
  destruct (IH l ltac:(simpl; lia)) as [k Hk]. exists (S k).
  replace (2 * S k)%nat with (S (S (2 * k))) by lia. cbn [replicate app]. do 2 f_equal. exact Hk.
Qed.

Lemma digits_checked_zeros radix max n acc z :
  digits_checked radix max acc (replicate n "0"%char) = Some z -> z = acc * radix ^ Z.of_nat n.
Proof.
  revert acc. induction n as [|n IH]; intros acc; simpl; [intros [= ->]; lia|].
  change (to_digit radix "0"%char) with (if 0 <? radix then Some 0 else None).
  destruct (0 <? radix); [|done]. repeat case_bool; [done|done|].
  intros H%IH. rewrite Nat2Z.inj_succ, Z.pow_succ_r by lia. rewrite H. lia.
Qed.

Lemma digit_char_lower_hex d : 0 <= d < 16 -> is_lower_hex (digit_char false d) = true.
Proof.
  intros Hd. unfold is_lower_hex, is_ascii_digit, in_range. rewrite digit_char_val by done.
  case_bool; lia.
Qed.

(** The text of a non-zero bound: the sixteen digits without [2 * k] zeros. *)
Lemma format_bound_digits v : is_u64 v -> v <> 0 ->
  exists t k, format_bound v = str_of t /\ t <> [] /\ length t = (16 - 2 * k)%nat /\ (2 * k <= 16)%nat /\
    fixed_digits false 16 16 v = t ++ replicate (2 * k) "0"%char.
Proof.
  intros Hv Hnz. unfold format_bound. destruct (v =? 0) eqn:E; [lia|].
  destruct (trim_00_rev_spec (reverse (fixed_digits false 16 16 v))) as [k Hk].
  set (t := reverse (trim_00_rev _)). exists t, k. split; [done|].
  assert (Hf : fixed_digits false 16 16 v = t ++ replicate (2 * k) "0"%char).
  { rewrite <- (reverse_involutive (fixed_digits _ _ _ _)), Hk at 1.
    by rewrite reverse_app, reverse_replicate. }
  pose proof (f_equal length Hf) as Hlen.
  rewrite length_fixed_digits, length_app, length_replicate in Hlen.
  split_and!; [|lia|lia|done]. intros Ht. rewrite Ht in Hf. simpl app in Hf.
  pose proof (digits_checked_fixed false 16 u64_MAX 16 0 v) as Hd.
  unfold is_u64 in Hv. change (16 ^ Z.of_nat 16) with 18446744073709551616 in Hd.
  rewrite Hf in Hd.
  specialize (Hd ltac:(lia) ltac:(lia) ltac:(unfold u64_MAX in *; lia) ltac:(unfold u64_MAX in *; lia)).
  apply digits_checked_zeros in Hd. lia.
Qed.

Lemma format_bound_nonempty v : is_u64 v -> v <> 0 -> str_is_empty (format_bound v) = false.
Proof.
  intros Hv Hnz. destruct (format_bound_digits v Hv Hnz) as (t & k & -> & Ht & _).
  destruct t; [done|]. done.
Qed.

Lemma format_bound_hex v : is_u64 v ->
  Forall (fun c => is_lower_hex c = true) (bytes (format_bound v)).
Proof.
  intros Hv. destruct (decide (v = 0)) as [->|Hnz]; [constructor|].
  destruct (format_bound_digits v Hv Hnz) as (t & k & -> & _ & _ & _ & Hf).
  rewrite bytes_str_of.
  assert (H : Forall (fun c => is_lower_hex c = true) (fixed_digits false 16 16 v)).
  { apply fixed_digits_Forall; [lia|apply digit_char_lower_hex]. }
  rewrite Hf, Forall_app in H. apply H.
Qed.

Lemma parse_format_bound v : is_u64 v -> parse_bound (format_bound v) = Ok v.
Proof.
  intros Hv. destruct (decide (v = 0)) as [->|Hnz]; [done|].
  unfold parse_bound. rewrite format_bound_nonempty by done.
  pose proof (format_bound_hex v Hv) as Hhex.
  destruct (format_bound_digits v Hv Hnz) as (t & k & Hfmt & Ht & Hlen & Hk & Hf).
  rewrite Hfmt in *. unfold str_len. rewrite bytes_str_of in *.
  assert (Hall : forallb is_lower_hex t = true)
    by (apply forallb_spec; rewrite Forall_forall in Hhex; auto).
  assert (Heven : Nat.even (16 - 2 * k) = true)
    by (replace (16 - 2 * k)%nat with (2 * (8 - k))%nat by lia; by rewrite Nat.even_mul).
  assert (Hle : (16 <? 16 - 2 * k)%nat = false) by (apply Nat.ltb_ge; lia).
  rewrite Hall, Hlen, Heven, Hle. cbn [negb orb]. unfold is_u64 in Hv.
  pose proof (digits_checked_fixed false 16 u64_MAX 16 0 v ltac:(lia) ltac:(lia)
    ltac:(unfold u64_MAX in *; lia) ltac:(lia)) as Hd.
  rewrite Hf, digits_checked_app in Hd. destruct (digits_checked _ _ _ t) as [x|] eqn:Hx; [|done].
  unfold mbind, option_bind in Hd. rewrite (from_unsigned_digits _ _ _ x Ht Hx).
  cbn [ok_or mbind result_bind].
  apply digits_checked_zeros in Hd. f_equal. unfold as_u64.
  replace (4 * (16 - Z.of_nat (16 - 2 * k))) with (4 * Z.of_nat (2 * k)) by lia.
  rewrite Z.shiftl_mul_pow2 by lia. rewrite Z.pow_mul_r by lia. change (2 ^ 4) with 16.
  rewrite Z.mul_0_l, Z.add_0_l in Hd. rewrite <- Hd.
  apply Z.mod_small. unfold u64_MAX, two64 in *. lia.
Qed.

Lemma parse_bound_u64 s v : parse_bound s = Ok v -> is_u64 v.
Proof.
  unfold parse_bound, is_u64. destruct (str_is_empty s); [intros [= <-]; by vm_compute|].
  case_bool; [done|]. intros H. apply result_bind_Ok in H as (x & _ & [= <-]).
  unfold as_u64, u64_MAX, two64. pose proof (Z.mod_pos_bound
    (x ≪ (4 * (16 - Z.of_nat (str_len s)))) 18446744073709551616 ltac:(lia)). lia.
Qed.

Lemma partition_owner rs id :
  Forall range_wf rs -> validate_partition rs = Ok tt -> is_u64 id -> unique_owner rs id.
Proof.
  intros Hwf Hv Hid. apply validate_partition_chain in Hv.
  apply (chain_owner 0 rs None id Hwf Hv). unfold is_u64, u64_MAX in Hid.
  change (KeyRange.end_exclusive _) with 18446744073709551616. lia.
Qed.

(** ** Properties *)

(** a list of well-formed ranges that [validate_partition] accepts gives every
    64-bit keyspace id exactly one owning range. *)
Theorem validate_partition_unique_owner rs id :
  Forall range_wf rs -> validate_partition rs = Ok tt -> is_u64 id -> unique_owner rs id.
Proof. apply partition_owner. Qed.

(** conversely, start-ordered well-formed ranges among which every 64-bit id
    has exactly one owner are accepted: the check rejects no real partition. *)
Theorem validate_partition_complete rs :
  Forall range_wf rs -> StronglySorted (fun a b => kr_start a <= kr_start b) rs ->
  (forall id, is_u64 id -> unique_owner rs id) -> validate_partition rs = Ok tt.
Proof. intros Hwf Hs Ho. apply validate_partition_chain. by apply partition_complete_chain. Qed.

(** [split_evenly] fails exactly on zero parts or more parts than ids; otherwise
    it returns [parts] well-formed ranges that run contiguously from the range's
    start to its end, whose widths are the floor of width/parts or one more. *)
Theorem split_evenly_spec r parts :
  range_wf r -> 0 <= parts ->
  let width := KeyRange.end_exclusive r - kr_start r in
  (KeyRange.split_evenly r parts = Err (InvalidSplit parts) /\ (parts = 0 \/ width < parts)) \/
  (exists rs, KeyRange.split_evenly r parts = Ok rs /\ 0 < parts <= width /\
    length rs = Z.to_nat parts /\ Forall range_wf rs /\ chain (kr_start r) rs (kr_end r) /\
    Forall (fun s => let w := KeyRange.end_exclusive s - kr_start s in
                     width / parts <= w <= width / parts + 1) rs).
Proof.
  intros Hr Hp. simpl. unfold KeyRange.split_evenly.
  destruct (parts =? 0) eqn:E0; [left; split; [done|lia]|].
  destruct (_ <? parts) eqn:E1; [left; split; [done|lia]|]. right.
  set (width := KeyRange.end_exclusive r - kr_start r) in *.
  assert (Hparts : 0 < parts) by lia. assert (Hw : parts <= width) by lia.
  eexists. split_and!; [done|done|done|by rewrite length_fmap, length_seq| | |].
  - apply Forall_fmap, Forall_seq. intros i Hi. apply split_part_wf; [done|done|done|lia].
  - pose proof (split_parts_chain r parts Hr Hparts Hw (Z.to_nat parts) 0 ltac:(lia) ltac:(lia)) as Hc.
    change (Z.of_nat 0) with 0 in Hc. rewrite split_bound_0 in Hc. exact Hc.
  - apply Forall_fmap, Forall_seq. intros i Hi.
    destruct (split_part_spec r parts Hr Hparts Hw (Z.of_nat i) ltac:(lia)) as (Hs & He & _).
    pose proof (split_bound_step r parts Hparts (Z.of_nat i)) as Hstep.
    unfold compose. unfold width in *. rewrite Hs, He. lia.
Qed.

Lemma validate_partition_unique_owner_witness :
  unique_owner [mkKeyRange 0 (Some 4611686018427387904); mkKeyRange 4611686018427387904 None] 77.
Proof.
  apply (validate_partition_unique_owner
    [mkKeyRange 0 (Some 4611686018427387904); mkKeyRange 4611686018427387904 None] 77).
  - repeat constructor; concrete.
  - reflexivity.
  - concrete.
Defined.

Lemma validate_partition_complete_witness : validate_partition [KeyRange.FULL] = Ok tt.
Proof.
  apply (validate_partition_complete [KeyRange.FULL]).
  - repeat constructor; concrete.
  - repeat constructor.
  - intros id Hid. exists O, KeyRange.FULL. split_and!; [reflexivity| |].
    + apply contains_spec. unfold is_u64, u64_MAX in Hid.
      change (KeyRange.end_exclusive _) with 18446744073709551616. simpl. lia.
    + intros [|j] r' Hr' _; [reflexivity|discriminate Hr'].
Defined.

Lemma split_evenly_spec_witness :
  (KeyRange.split_evenly KeyRange.FULL 3 = Err (InvalidSplit 3) /\ (3 = 0 \/ two64 < 3)) \/
  (exists rs, KeyRange.split_evenly KeyRange.FULL 3 = Ok rs /\ 0 < 3 <= two64 /\
    length rs = Z.to_nat 3 /\ Forall range_wf rs /\ chain 0 rs None /\
    Forall (fun s => let w := KeyRange.end_exclusive s - kr_start s in
                     two64 / 3 <= w <= two64 / 3 + 1) rs).
Proof.
  apply (split_evenly_spec KeyRange.FULL 3); [concrete|lia].
Defined.

(** the canonical text of a bound reads back as the bound, for every 64-bit
    value (so distinct bounds have distinct texts). *)
Theorem bound_round_trip v : is_u64 v -> parse_bound (format_bound v) = Ok v.
Proof. apply parse_format_bound. Qed.

Lemma bound_round_trip_witness : parse_bound (format_bound 4611686018427387904) = Ok 4611686018427387904.
Proof. apply (bound_round_trip 4611686018427387904). concrete. Defined.

Lemma hex_no_dash l : Forall (fun c => is_lower_hex c = true) l -> "-"%char ∉ l.
Proof. intros H Hin. rewrite Forall_forall in H. by specialize (H _ Hin). Qed.

(** a range prints as ["<start>-<end>"] and parses back to itself. *)
Theorem range_round_trip r : range_wf r -> KeyRange_from_str (KeyRange_to_string r) = Ok r.
Proof.
  intros Hr. pose proof (range_start_u64 r Hr) as Hs. destruct r as [s e]. simpl in Hs.
  assert (He : forall v, e = Some v -> is_u64 v /\ v <> 0 /\ s < v).
  { intros v ->. destruct Hr as (H0 & Hlt & Hmax). unfold KeyRange.end_exclusive in Hlt.
    simpl in *. unfold is_u64. lia. }
  unfold KeyRange_from_str, KeyRange_to_string. simpl kr_start. simpl kr_end.
  rewrite split_once_sep by (by apply hex_no_dash, format_bound_hex). cbn [ok_or mbind result_bind].
  rewrite parse_format_bound by done. cbn [mbind result_bind].
  destruct e as [v|]; simpl option_bound.
  - destruct (He v eq_refl) as (Hv & Hnz & Hlt). rewrite format_bound_nonempty by done.
    rewrite parse_format_bound by done. simpl. case_bool; [lia|done].
  - done.
Qed.

Lemma range_round_trip_witness :
  KeyRange_from_str (KeyRange_to_string (mkKeyRange 4611686018427387904 (Some 9223372036854775808)))
  = Ok (mkKeyRange 4611686018427387904 (Some 9223372036854775808)).
Proof.
  apply (range_round_trip (mkKeyRange 4611686018427387904 (Some 9223372036854775808))).
  concrete.
Defined.

(** a range parsed from text is well formed (non-empty, within the keyspace);
    parsing never yields an empty or inverted range. *)
Theorem from_str_wf s r : KeyRange_from_str s = Ok r -> range_wf r.
Proof.
  unfold KeyRange_from_str. intros H.
  apply result_bind_Ok in H as ([a b] & _ & H). apply result_bind_Ok in H as (x & Hx & H).
  apply result_bind_Ok in H as (e & He & H). eapply (new_wf x e r); [by eapply parse_bound_u64| |done].
  intros v ->. destruct (str_is_empty b); [done|].
  destruct (parse_bound b) eqn:Hb; [|done]. simpl in He. simplify_eq. by eapply parse_bound_u64.
Qed.

Lemma from_str_wf_witness : range_wf (mkKeyRange 4611686018427387904 None).
Proof. apply (from_str_wf "40-" (mkKeyRange 4611686018427387904 None)). vm_compute; reflexivity. Defined.

(** two well-formed ranges intersect exactly when some 64-bit id is in both. *)
Theorem intersects_spec a b :
  range_wf a -> range_wf b ->
  (KeyRange.intersects a b = true <->
   exists id, is_u64 id /\ KeyRange.contains a id = true /\ KeyRange.contains b id = true).
Proof.
  intros Ha Hb. pose proof (end_exclusive_range a Ha). pose proof (end_exclusive_range b Hb).
  destruct Ha as (Ha0 & _). destruct Hb as (Hb0 & _).
  unfold KeyRange.intersects. rewrite andb_true_iff. setoid_rewrite contains_spec. split.
  - intros [H1 H2]. exists (Z.max (kr_start a) (kr_start b)).
    unfold is_u64, u64_MAX, two64 in *. lia.
  - intros (id & _ & H1 & H2). lia.
Qed.

Lemma intersects_spec_witness :
  KeyRange.intersects KeyRange.FULL (mkKeyRange 5 (Some 9)) = true <->
  exists id, is_u64 id /\ KeyRange.contains KeyRange.FULL id = true /\
             KeyRange.contains (mkKeyRange 5 (Some 9)) id = true.
Proof.
  apply (intersects_spec KeyRange.FULL (mkKeyRange 5 (Some 9))); concrete.
Defined.
