(* ===== verification/Lsn.v ===== *)
(** * Log sequence numbers

    [src/crates/pgshard-core/src/lsn.rs]: the [X/X] text form of a 64-bit LSN. *)

From S2P Require Import Prelude Rust.

Open Scope Z_scope.

Definition Lsn : Type := Z.

Inductive InvalidLsn := mkInvalidLsn (s : string).

(** [impl Display for Lsn]: the high and the low 32 bits in upper-case hex. *)
Definition Lsn_to_string (lsn : Lsn) : string :=
  str_of (fmt_radix true 16 (Z.shiftr lsn 32)) +:+ "/" +:+ str_of (fmt_radix true 16 (as_u32 lsn)).

(** [impl FromStr for Lsn]. *)
Definition Lsn_from_str (s : string) : result InvalidLsn Lsn :=
  let invalid := mkInvalidLsn s in
  '(hi, lo) ← ok_or invalid (split_once "/"%char s);
  hi ← ok_or invalid (from_str_radix_unsigned 16 u64_MAX (bytes hi));
  lo ← ok_or invalid (from_str_radix_unsigned 16 u64_MAX (bytes lo));
  if (hi >? u32_MAX) || (lo >? u32_MAX) then Err invalid
  else Ok (Z.lor (Z.shiftl hi 32) lo).

(** ** Lemmas *)

Lemma lor_shiftl_add hi lo : 0 <= lo < 2 ^ 32 -> Z.lor (Z.shiftl hi 32) lo = hi * 2 ^ 32 + lo.
Proof.
  intros Hlo. rewrite <- Z.lxor_lor, <- Z.add_nocarry_lxor; [by rewrite Z.shiftl_mul_pow2| |];
    apply Z.bits_inj'; intros n Hn; rewrite Z.land_spec, Z.bits_0;
    (destruct (decide (n < 32));
     [rewrite Z.shiftl_spec_low by lia; done
     |rewrite (Z.bits_above_log2 lo n); [by rewrite andb_false_r|lia|];
      destruct (decide (lo = 0)) as [->|]; [simpl; lia|];
      apply Z.log2_lt_pow2; [lia|]; eapply Z.lt_le_trans; [apply Hlo|]; apply Z.pow_le_mono_r; lia]).
Qed.

Lemma hex_upper_no_slash z : "/"%char ∉ fmt_radix true 16 z.
Proof.
  intros Hin.
  assert (H : Forall (fun c => c <> "/"%char) (fmt_radix true 16 z)).
  { apply fmt_radix_Forall; [lia|]. intros d Hd Heq.
    apply (f_equal byte_val) in Heq. rewrite digit_char_val in Heq by lia.
    change (byte_val "/"%char) with 47 in Heq. repeat case_bool; lia. }
  rewrite Forall_forall in H. by apply (H _ Hin).
Qed.

(** every 64-bit LSN is read back from its PostgreSQL text form. *)
Theorem lsn_round_trip lsn : is_u64 lsn -> Lsn_from_str (Lsn_to_string lsn) = Ok lsn.
Proof.
  unfold is_u64, u64_MAX. intros Hl.
  assert (Hhi : 0 <= Z.shiftr lsn 32 <= u32_MAX).
  { rewrite Z.shiftr_div_pow2 by lia. unfold u32_MAX. split; [apply Z.div_pos; lia|].
    apply Z.lt_succ_r, Z.div_lt_upper_bound; lia. }
  assert (Hlo : 0 <= as_u32 lsn <= u32_MAX).
  { unfold as_u32, u32_MAX. pose proof (Z.mod_pos_bound lsn (4294967295 + 1)). lia. }
  unfold Lsn_from_str, Lsn_to_string.
  rewrite split_once_sep by (rewrite bytes_str_of; apply hex_upper_no_slash).
  cbn [ok_or mbind result_bind]. rewrite !bytes_str_of.
  rewrite !parse_fmt_unsigned by (unfold u32_MAX, u64_MAX in *; lia). cbn [ok_or mbind result_bind].
  destruct (_ || _) eqn:E; [lia|]. f_equal. rewrite lor_shiftl_add by (unfold u32_MAX in *; lia).
  rewrite Z.shiftr_div_pow2 by lia. unfold as_u32, u32_MAX.
  change (4294967295 + 1) with (2 ^ 32). rewrite (Z.div_mod lsn (2 ^ 32)) at 3 by lia. lia.
Qed.

Lemma lsn_round_trip_witness : Lsn_from_str (Lsn_to_string 97500059720) = Ok 97500059720.
Proof. apply (lsn_round_trip 97500059720). concrete. Defined.

(** A sign that PostgreSQL's [pg_lsn] input does not have is accepted on either half. *)
Example lsn_accepts_sign : Lsn_from_str "+16/+B374D848" = Ok 97500059720.
Proof. vm_compute. reflexivity. Qed.
