(* ===== verification/ShardFn.v ===== *)
(** * Shard keys: literals, coercion and the shard function

    [src/crates/pgshard-core/src/shardfn.rs]. The hash itself, [xxh64], is a
    third-party crate: the class [XxHash] carries it as an operation with the one
    fact the code relies on (its result is a [u64]). *)

From S2P Require Import Prelude Rust Keyspace.

Open Scope Z_scope.

Class XxHash := {
  xxh64 : list ascii -> Z -> Z;
  xxh64_u64 : forall data seed, is_u64 (xxh64 data seed);
}.

(** ** Data *)

Inductive ScalarValue :=
| Int16 (v : Z)
| Int32 (v : Z)
| Int64 (v : Z)
| Text (s : string)
| Uuid (b : list ascii)
| Bytea (b : list ascii).

Inductive ScalarType := TInt | TText | TUuid | TBytea.

#[export] Instance ScalarValue_eq_dec : EqDecision ScalarValue.
Proof. solve_decision. Defined.
#[export] Instance ScalarType_eq_dec : EqDecision ScalarType.
Proof. solve_decision. Defined.

(** ** Coercion of a literal to the column type *)

Definition coerce_int (s : string) : option Z :=
  from_str_radix_signed 10 i64_MIN i64_MAX (trim_bytes (bytes s)).

(** [u8::from_str_radix(&hex[2i..2i+2], 16).ok()?] over the pairs of digits. *)
Fixpoint hex_pairs (l : list ascii) : option (list ascii) :=
  match l with
  | [] => Some []
  | a :: b :: l' =>
      v ← from_str_radix_unsigned 16 u8_MAX [a; b];
      rest ← hex_pairs l';
      Some (byte_of v :: rest)
  | [_] => None
  end.

Definition starts_with (c : ascii) (l : list ascii) : bool :=
  match l with x :: _ => bool_decide (x = c) | [] => false end.
Definition ends_with (c : ascii) (l : list ascii) : bool := starts_with c (reverse l).

(** The literal without its surrounding braces; one brace alone is an error. *)
Definition uuid_body (t : list ascii) : option (list ascii) :=
  match starts_with "{"%char t, ends_with "}"%char t with
  | true, true => Some (take (length t - 2) (drop 1 t))
  | false, false => Some t
  | _, _ => None
  end.

Definition coerce_uuid (s : string) : option (list ascii) :=
  t ← uuid_body (trim_bytes (bytes s));
  let hex := List.filter (fun c => negb (bool_decide (c = "-"%char))) t in
  if negb (length hex =? 32)%nat || negb (forallb is_ascii_hexdigit hex) then None
  else hex_pairs hex.

Definition coerce_bytea (s : string) : option (list ascii) :=
  hex ← strip_prefix_bytes ["\"%char; "x"%char] (bytes s);
  if negb (Nat.even (length hex)) || negb (forallb is_ascii_hexdigit hex) then None
  else hex_pairs hex.

Definition coerce (ty : ScalarType) (value : ScalarValue) : option ScalarValue :=
  match ty, value with
  | TInt, Int16 v => Some (Int64 v)
  | TInt, Int32 v => Some (Int64 v)
  | TInt, Int64 v => Some (Int64 v)
  | TInt, Text s => Int64 <$> coerce_int s
  | TText, Text s => Some (Text s)
  | TUuid, Text s => Uuid <$> coerce_uuid s
  | TUuid, Uuid v => Some (Uuid v)
  | TBytea, Text s => Bytea <$> coerce_bytea s
  | TBytea, Bytea v => Some (Bytea v)
  | _, _ => None
  end.

(** ** The shard function *)

Inductive ShardFnError := UnknownShardFn (name : string).

(** [trait ShardFunction]. *)
Record ShardFunction := {
  sf_name : string;
  keyspace_id : ScalarValue -> KeyspaceId;
}.

(** The canonical bytes that are hashed. *)
Definition canonical_bytes (key : ScalarValue) : list ascii :=
  match key with
  | Int16 v | Int32 v | Int64 v => to_be 8 v
  | Text s => bytes s
  | Uuid b | Bytea b => b
  end.

Definition XXHASH64_V1 `{XxHash} : ShardFunction := {|
  sf_name := "xxhash64_v1";
  keyspace_id key := xxh64 (canonical_bytes key) 0;
|}.

Definition shard_function `{XxHash} (name : string) : result ShardFnError ShardFunction :=
  if decide (name = "xxhash64_v1") then Ok XXHASH64_V1 else Err (UnknownShardFn name).

(** ** Specification: spellings of a canonical value *)

(** [h] writes the bytes [b] as pairs of hex digits, each digit in either case. *)
Inductive hex_spelling : list ascii -> list ascii -> Prop :=
| hs_nil : hex_spelling [] []
| hs_cons u1 u2 c b h :
    hex_spelling b h ->
    hex_spelling (c :: b) (digit_char u1 (byte_val c / 16) :: digit_char u2 (byte_val c mod 16) :: h).

(** Decimal digits, with their value by places. *)
Inductive decimal : list ascii -> Z -> Prop :=
| dec_nil : decimal [] 0
| dec_snoc ds v d : 0 <= d < 10 -> decimal ds v -> decimal (ds ++ [digit_char false d]) (10 * v + d).

(** An optional sign and at least one digit. *)
Definition int_spelling (z : Z) (l : list ascii) : Prop :=
  exists ds v, ds <> [] /\ decimal ds v /\ (z = v /\ (l = ds \/ l = "+"%char :: ds) \/ z = - v /\ l = "-"%char :: ds).

(** [padded core l]: [l] is [core] between two runs of white space. *)
Definition padded (core l : list ascii) : Prop :=
  exists w1 w2, l = w1 ++ core ++ w2 /\ blank white_space w1 /\ blank (reverse <$> white_space) (reverse w2).

(** [spells ty lit w]: the literal [lit] writes the value [w] of a column of type [ty]. *)
Inductive spells : ScalarType -> ScalarValue -> ScalarValue -> Prop :=
| sp_int16 z : spells TInt (Int16 z) (Int64 z)
| sp_int32 z : spells TInt (Int32 z) (Int64 z)
| sp_int64 z : spells TInt (Int64 z) (Int64 z)
| sp_int_text core z l :
    is_i64 z -> int_spelling z core -> padded core l -> spells TInt (Text (str_of l)) (Int64 z)
| sp_text s : spells TText (Text s) (Text s)
| sp_uuid_text b h t braces l :
    length b = 16%nat -> hex_spelling b h ->
    List.filter (fun c => negb (bool_decide (c = "-"%char))) t = h ->
    padded (if braces : bool then ("{"%char :: t) ++ ["}"%char] else t) l ->
    spells TUuid (Text (str_of l)) (Uuid b)
| sp_uuid b : spells TUuid (Uuid b) (Uuid b)
| sp_bytea_text b h :
    hex_spelling b h -> spells TBytea (Text (str_of ("\"%char :: "x"%char :: h))) (Bytea b)
| sp_bytea b : spells TBytea (Bytea b) (Bytea b).

(** The canonical values of a column type. *)
Definition canonical (ty : ScalarType) (v : ScalarValue) : Prop :=
  match ty, v with
  | TInt, Int64 z => is_i64 z
  | TText, Text _ => True
  | TUuid, Uuid b => length b = 16%nat
  | TBytea, Bytea _ => True
  | _, _ => False
  end.

(** ** Lemmas *)

Lemma decimal_nonneg ds v : decimal ds v -> 0 <= v.
Proof. induction 1; lia. Qed.

Lemma to_digit_10 c d : to_digit 10 c = Some d -> c = digit_char false d.
Proof.
  intros Hd. pose proof (to_digit_range _ _ _ Hd). unfold to_digit in Hd. rewrite <- (byte_of_val c). unfold digit_char.
  destruct (d <? 10) eqn:E; [|lia]. f_equal. pose proof (byte_val_range c). repeat case_bool; simplify_eq; lia.
Qed.

(** The checked digit loops read decimal numbers in range. *)
Lemma digits_decimal max ds : forall v, 0 <= max -> digits_checked 10 max 0 ds = Some v <-> decimal ds v /\ v <= max.
Proof.
  intros v Hm. revert v. induction ds as [|c ds IH] using rev_ind; intros v.
  { split; [intros [= <-]; split; [constructor|done]|]. intros [Hd _]. inversion Hd as [|ds' ? ? ? ? E]; [done|]. by destruct ds'. }
  rewrite digits_checked_app, bind_Some. split.
  - intros (acc & Ha & Hc). apply IH in Ha as [Ha Hle]. cbn [digits_checked] in Hc.
    destruct (to_digit 10 c) as [d|] eqn:Hd; [|done]. rewrite (to_digit_10 _ _ Hd). apply to_digit_range in Hd.
    repeat case_bool; [done|done|]. injection Hc as <-. replace (acc * 10 + d) with (10 * acc + d) by lia. split; [by constructor|lia].
  - intros [Hd Hle]. inversion Hd as [|ds' v' d Hr Hd' E1 E2]; [by destruct ds|]. apply app_inj_tail in E1 as [-> <-].
    pose proof (decimal_nonneg _ _ Hd'). exists v'. split; [apply IH; split; [done|lia]|]. cbn [digits_checked].
    rewrite to_digit_char by lia. repeat case_bool; [lia|lia|]. f_equal. lia.
Qed.

Lemma digits_neg_fmap radix max l : forall acc, digits_checked_neg radix (- max) (- acc) l = Z.opp <$> digits_checked radix max acc l.
Proof.
  induction l as [|c l IH]; intros acc; [done|]. cbn [digits_checked digits_checked_neg]. destruct (to_digit radix c) as [d|]; [|done].
  rewrite Z.mul_opp_l. destruct (_ >? max) eqn:E1; destruct (_ <? - max) eqn:E2; try lia; [done|].
  destruct (_ + _ >? _) eqn:E3; destruct (_ - d <? _) eqn:E4; try lia; [done|].
  replace (- (acc * radix) - d) with (- (acc * radix + d)) by lia. apply IH.
Qed.

Lemma decimal_graphic ds v : decimal ds v -> Forall (fun c => graphic c = true /\ c <> "+"%char /\ c <> "-"%char) ds.
Proof.
  induction 1 as [|ds v d Hd _ IH]; [constructor|]. apply Forall_app. split; [done|]. constructor; [|constructor].
  split; [apply digit_char_graphic; lia|]. split; intros E; apply (f_equal byte_val) in E; rewrite digit_char_val in E by lia;
    destruct (d <? 10) eqn:E'; vm_compute (byte_val _) in E; lia.
Qed.

Lemma int_spelling_graphic z l : int_spelling z l -> l <> [] /\ Forall (fun c => graphic c = true) l.
Proof.
  intros (ds & v & Hne & Hd & Hl). apply decimal_graphic in Hd. assert (Hg : Forall (fun c => graphic c = true) ds) by (eapply Forall_impl; [exact Hd|naive_solver]).
  destruct Hl as [[_ [->| ->]]|[_ ->]]; (split; [done|]); [done|by constructor..].
Qed.

Lemma int_spelling_parse z l : from_str_radix_signed 10 i64_MIN i64_MAX l = Some z <-> int_spelling z l /\ is_i64 z.
Proof.
  assert (Hpos : forall ds v, digits_checked 10 i64_MAX 0 ds = Some v <-> decimal ds v /\ v <= i64_MAX) by (intros; by apply digits_decimal).
  assert (Hneg : forall ds v, digits_checked_neg 10 i64_MIN 0 ds = Some v <-> decimal ds (- v) /\ - v <= - i64_MIN).
  { intros ds v. change (digits_checked_neg 10 i64_MIN 0 ds) with (digits_checked_neg 10 (- - i64_MIN) (- 0) ds). rewrite digits_neg_fmap, fmap_Some. split.
    - intros (u & Hu & ->). rewrite Z.opp_involutive. by apply digits_decimal in Hu.
    - intros Hd. exists (- v). split; [by apply digits_decimal|lia]. }
  split.
  - intros Hp. assert (Hcase : (exists ds, ds <> [] /\ (l = ds \/ l = "+"%char :: ds) /\ digits_checked 10 i64_MAX 0 ds = Some z) \/
      exists ds, ds <> [] /\ l = "-"%char :: ds /\ digits_checked_neg 10 i64_MIN 0 ds = Some z).
    { unfold from_str_radix_signed in Hp. destruct l as [|c [|c' l]]; [done| |]; repeat case_decide; subst; try done.
      - left. exists [c]. by split_and!; [|left|].
      - left. exists (c' :: l). by split_and!; [|right|].
      - right. by exists (c' :: l).
      - left. exists (c :: c' :: l). by split_and!; [|left|]. }
    destruct Hcase as [(ds & Hne & Hl & [Hd Hle]%Hpos)|(ds & Hne & -> & [Hd Hle]%Hneg)]; pose proof (decimal_nonneg _ _ Hd).
    + split; [exists ds, z; split; [done|]; split; [done|]; left; by split|]. unfold is_i64, i64_MIN. lia.
    + split; [exists ds, (- z); split; [done|]; split; [done|]; right; split; [lia|done]|]. unfold is_i64, i64_MAX in *. lia.
  - intros [(ds & v & Hne & Hd & Hl) Hz]. unfold is_i64 in Hz. destruct Hl as [[-> [->| ->]]|[-> ->]].
    + apply from_signed_digits; [done|]. apply Hpos. split; [done|lia].
    + apply from_signed_plus; [done|]. apply Hpos. split; [done|lia].
    + apply from_signed_minus; [done|]. apply Hneg. rewrite Z.opp_involutive. split; [done|lia].
Qed.

(** What [trim] removes is white space. *)
Lemma strip_ws_sound enc fuel : forall l, exists w, l = w ++ strip_ws enc fuel l /\ blank enc w.
Proof.
  induction fuel as [|fuel IH]; intros l; cbn [strip_ws]; [exists []; split; [done|apply blank_nil]|].
  destruct (enc_at enc l) as [|n] eqn:E; [exists []; split; [done|apply blank_nil]|].
  destruct (IH (drop (S n) l)) as (w & Hw & (ps & -> & Hps)). exists (take (S n) l ++ concat ps). split; [by rewrite <- app_assoc, <- Hw, take_drop|].
  exists (take (S n) l :: ps). split; [done|]. constructor; [|done]. unfold enc_at in E.
  destruct (find_first _ _) as [p|] eqn:Hf; [|done]. apply find_first_Some in Hf as [Hin Hp]. apply bool_decide_eq_true in Hp. rewrite E in Hp.
  split; [by rewrite Hp|]. intros Ht. rewrite Ht in Hp. cbn in Hp. by rewrite <- Hp in E.
Qed.

Lemma trim_sound l : padded (trim_bytes l) l.
Proof.
  unfold trim_bytes, trim_end_bytes. destruct (strip_ws_sound white_space (length l) l) as (w1 & H1 & Hb1).
  fold (trim_start_bytes l) in H1. set (r := trim_start_bytes l) in *.
  destruct (strip_ws_sound (reverse <$> white_space) (length r) (reverse r)) as (w2 & H2 & Hb2).
  exists w1, (reverse w2). split; [|split; [done|by rewrite reverse_involutive]].
  rewrite H1 at 1. f_equal. apply (f_equal reverse) in H2. by rewrite reverse_involutive, reverse_app in H2.
Qed.

Lemma trim_padded core l :
  padded core l -> core <> [] -> Forall (fun c => graphic c = true) core -> trim_bytes l = core.
Proof. intros (w1 & w2 & -> & H1 & H2) Hne Hg. by apply trim_graphic. Qed.

Lemma digit_char_hexdigit u d : 0 <= d < 16 -> is_ascii_hexdigit (digit_char u d) = true.
Proof.
  intros Hd. unfold is_ascii_hexdigit. rewrite digit_char_val by done. repeat case_bool; lia.
Qed.

Lemma byte_nibbles c : 0 <= byte_val c / 16 < 16 /\ 0 <= byte_val c mod 16 < 16.
Proof.
  pose proof (byte_val_range c). split; [|apply Z.mod_pos_bound; lia].
  split; [apply Z.div_pos; lia|apply Z.div_lt_upper_bound; lia].
Qed.

Lemma hex_pair_parse u1 u2 c :
  from_str_radix_unsigned 16 u8_MAX
    [digit_char u1 (byte_val c / 16); digit_char u2 (byte_val c mod 16)] = Some (byte_val c).
Proof.
  destruct (byte_nibbles c) as [H1 H2]. pose proof (byte_val_range c).
  pose proof (Z.div_mod (byte_val c) 16 ltac:(lia)) as Hdm.
  apply from_unsigned_digits; [done|]. simpl.
  rewrite to_digit_char by lia. unfold u8_MAX. repeat case_bool; try lia.
  rewrite to_digit_char by lia. repeat case_bool; try lia. f_equal. lia.
Qed.

Lemma hex_spelling_pairs b h : hex_spelling b h -> hex_pairs h = Some b.
Proof.
  induction 1 as [|u1 u2 c b h _ IH]; [done|]. cbn [hex_pairs].
  rewrite hex_pair_parse, IH. simpl. by rewrite byte_of_val.
Qed.

Lemma hex_spelling_hex b h : hex_spelling b h ->
  forallb is_ascii_hexdigit h = true /\ length h = (2 * length b)%nat.
Proof.
  induction 1 as [|u1 u2 c b h _ [IH1 IH2]]; [done|]. simpl.
  destruct (byte_nibbles c). rewrite !digit_char_hexdigit by done. split; [done|lia].
Qed.

Lemma hexdigit_graphic c : is_ascii_hexdigit c = true -> graphic c = true.
Proof. unfold is_ascii_hexdigit, graphic, in_range. lia. Qed.

(** Hyphens and the digits they separate are graphic, and no digit is a brace. *)
Lemma dashed_hex t : let h := List.filter (fun c => negb (bool_decide (c = "-"%char))) t in
  forallb is_ascii_hexdigit h = true ->
  Forall (fun c => graphic c = true /\ c <> "{"%char /\ c <> "}"%char) t.
Proof.
  simpl. intros H. rewrite Forall_forall. intros c Hc.
  destruct (decide (c = "-"%char)) as [->|Hne]; [done|].
  rewrite forallb_spec in H. specialize (H c).
  rewrite list_elem_of_In, List.filter_In, <- list_elem_of_In in H.
  rewrite (bool_decide_eq_false_2 _ Hne) in H. specialize (H (conj Hc eq_refl)).
  split; [by apply hexdigit_graphic|]. split; intros ->; discriminate H.
Qed.

Lemma hex_pairs_length h b : hex_pairs h = Some b -> length h = (2 * length b)%nat.
Proof.
  revert b. induction h as [h IH] using (induction_ltof1 _ length). unfold ltof in IH. intros b.
  destruct h as [|x [|y h]]; [by intros [= <-]|done|]. cbn [hex_pairs]. intros H.
  destruct (from_str_radix_unsigned _ _ _) as [v|]; [|done].
  destruct (hex_pairs h) as [rest|] eqn:Hh; [|done]. simpl in H. injection H as <-.
  apply IH in Hh; simpl in *; lia.
Qed.

Lemma coerce_uuid_length s b : coerce_uuid s = Some b -> length b = 16%nat.
Proof.
  unfold coerce_uuid. intros H. destruct (uuid_body _) as [t|]; [|done].
  cbn [mbind option_bind] in H. destruct (negb _ || _) eqn:E; [done|].
  apply orb_false_iff in E as [E _]. apply negb_false_iff, Nat.eqb_eq in E.
  apply hex_pairs_length in H. lia.
Qed.

Lemma uuid_body_spelling t (braces : bool) :
  Forall (fun c => graphic c = true /\ c <> "{"%char /\ c <> "}"%char) t ->
  uuid_body (if braces then ("{"%char :: t) ++ ["}"%char] else t) = Some t.
Proof.
  intros Hd. unfold uuid_body, ends_with. destruct braces.
  - rewrite reverse_snoc, length_app. cbn [starts_with app length drop].
    rewrite !bool_decide_eq_true_2 by done.
    replace (S (length t) + 1 - 2)%nat with (length t) by lia. by rewrite drop_0, take_app_length.
  - assert (Hs : starts_with "{"%char t = false).
    { destruct t as [|c t]; [done|]. simpl. apply bool_decide_eq_false. inversion Hd; naive_solver. }
    assert (He : starts_with "}"%char (reverse t) = false).
    { destruct (reverse t) as [|c r] eqn:Hr; [done|]. simpl. apply bool_decide_eq_false.
      rewrite Forall_forall in Hd. destruct (Hd c) as (_ & _ & ?); [|done].
      rewrite <- elem_of_reverse, Hr. left. }
    by rewrite Hs, He.
Qed.

Lemma coerce_uuid_spelling b h t (braces : bool) l :
  length b = 16%nat -> hex_spelling b h ->
  List.filter (fun c => negb (bool_decide (c = "-"%char))) t = h ->
  padded (if braces then ("{"%char :: t) ++ ["}"%char] else t) l ->
  coerce_uuid (str_of l) = Some b.
Proof.
  intros Hb Hh Ht Hl. destruct (hex_spelling_hex b h Hh) as [Hhex Hlen].
  pose proof (dashed_hex t) as Hd. simpl in Hd. rewrite Ht in Hd. specialize (Hd Hhex).
  assert (Hg : Forall (fun c => graphic c = true) t) by (eapply Forall_impl; [exact Hd|naive_solver]).
  assert (Hne : t <> []) by (intros ->; simpl in Ht; subst h; simpl in Hlen; lia).
  unfold coerce_uuid. rewrite bytes_str_of.
  rewrite (trim_padded _ _ Hl);
    [|destruct braces; [done|exact Hne]
     |destruct braces; [|done]; simpl; constructor; [done|]; apply Forall_app; by repeat constructor].
  rewrite (uuid_body_spelling t braces Hd). cbn [mbind option_bind]. rewrite Ht, Hhex, Hlen, Hb. simpl.
  by apply hex_spelling_pairs.
Qed.

Lemma spells_coerce ty lit w : spells ty lit w -> coerce ty lit = Some w.
Proof.
  intros Hl. destruct Hl as [z|z|z|core z l Hz Hi Hp|s|b h t braces l Hb Hh Ht Hp|b|b h Hh|b]; try done.
  - cbn [coerce]. unfold coerce_int. rewrite bytes_str_of.
    destruct (int_spelling_graphic z core Hi). rewrite (trim_padded _ _ Hp) by done.
    by rewrite (proj2 (int_spelling_parse z core)).
  - simpl. by rewrite (coerce_uuid_spelling b h t braces l).
  - cbn [coerce]. unfold coerce_bytea. rewrite bytes_str_of.
    change (strip_prefix_bytes _ _) with (Some h). cbn [mbind option_bind].
    destruct (hex_spelling_hex b h Hh) as [-> ->].
    replace (Nat.even (2 * length b)) with true by (by rewrite Nat.even_mul).
    simpl. by rewrite (hex_spelling_pairs b h).
Qed.

(** ** What is accepted *)

Lemma hexdigit_char c : is_ascii_hexdigit c = true -> exists u d, 0 <= d < 16 /\ c = digit_char u d.
Proof.
  unfold is_ascii_hexdigit. intros H. pose proof (byte_val_range c).
  assert (exists u d, 0 <= d < 16 /\ byte_val c = byte_val (digit_char u d)) as (u & d & Hd & E).
  { destruct (byte_val c <=? 57) eqn:E1.
    - exists false, (byte_val c - 48). rewrite digit_char_val by lia. split; [lia|]. destruct (_ <? 10) eqn:E; lia.
    - destruct (byte_val c <=? 70) eqn:E2.
      + exists true, (byte_val c - 55). rewrite digit_char_val by lia. split; [lia|]. destruct (_ <? 10) eqn:E; lia.
      + exists false, (byte_val c - 87). rewrite digit_char_val by lia. split; [lia|]. destruct (_ <? 10) eqn:E; lia. }
  exists u, d. split; [done|]. by rewrite <- (byte_of_val c), E, byte_of_val.
Qed.

Lemma hex_pairs_spelling h b : forallb is_ascii_hexdigit h = true -> hex_pairs h = Some b -> hex_spelling b h.
Proof.
  revert b. induction h as [h IH] using (induction_ltof1 _ length). unfold ltof in IH. intros b Hh.
  destruct h as [|x [|y h]]; [intros [= <-]; constructor|done|]. cbn [hex_pairs]. intros H.
  cbn [forallb] in Hh. apply andb_true_iff in Hh as [Hx Hh]. apply andb_true_iff in Hh as [Hy Hh].
  destruct (hexdigit_char x Hx) as (u1 & d1 & H1 & ->). destruct (hexdigit_char y Hy) as (u2 & d2 & H2 & ->).
  pose proof (byte_val_of (16 * d1 + d2) ltac:(lia)) as Hv. pose proof (hex_pair_parse u1 u2 (byte_of (16 * d1 + d2))) as Hp. rewrite Hv in Hp.
  replace ((16 * d1 + d2) / 16) with d1 in Hp by (apply Z.div_unique with d2; lia).
  replace ((16 * d1 + d2) mod 16) with d2 in Hp by (apply Z.mod_unique with d1; lia).
  rewrite Hp in H. destruct (hex_pairs h) as [rest|] eqn:Hr; [|done]. injection H as <-.
  pose proof (hs_cons u1 u2 (byte_of (16 * d1 + d2)) rest h) as Hs. rewrite Hv in Hs.
  replace ((16 * d1 + d2) / 16) with d1 in Hs by (apply Z.div_unique with d2; lia).
  replace ((16 * d1 + d2) mod 16) with d2 in Hs by (apply Z.mod_unique with d1; lia).
  apply Hs, IH; [simpl; lia|done|done].
Qed.

Lemma uuid_body_braces core t : uuid_body core = Some t -> exists braces : bool, core = if braces then ("{"%char :: t) ++ ["}"%char] else t.
Proof.
  unfold uuid_body, ends_with. destruct (starts_with "{"%char core) eqn:Hs, (starts_with "}"%char (reverse core)) eqn:He; [|done|done|].
  - intros [= <-]. exists true. destruct core as [|c core]; [done|]. cbn [starts_with] in Hs. apply bool_decide_eq_true in Hs as ->.
    destruct core as [|e core _] using rev_ind; [done|]. rewrite app_comm_cons, reverse_snoc in He. cbn [starts_with] in He. apply bool_decide_eq_true in He as ->.
    cbn [length drop app]. rewrite length_app. cbn [length]. replace (S (length core + 1) - 2)%nat with (length core) by lia.
    by rewrite drop_0, take_app_length.
  - intros [= <-]. by exists false.
Qed.

Lemma coerce_spells ty lit w : coerce ty lit = Some w -> spells ty lit w.
Proof.
  destruct ty, lit as [z|z|z|s|b|b]; cbn [coerce]; intros H; try done; try (injection H as <-; constructor).
  - apply fmap_Some in H as (z & [Hi Hz]%int_spelling_parse & ->). rewrite <- (str_of_bytes s). by apply (sp_int_text (trim_bytes (bytes s))), trim_sound.
  - apply fmap_Some in H as (b & Hb & ->). pose proof (coerce_uuid_length _ _ Hb) as Hlen. unfold coerce_uuid in Hb. apply bind_Some in Hb as (t & Ht & Hb).
    destruct (negb _ || _) eqn:E; [done|]. apply orb_false_iff in E as [_ Hhex%negb_false_iff]. apply uuid_body_braces in Ht as [braces Ht].
    rewrite <- (str_of_bytes s). eapply (sp_uuid_text b _ t braces); [done|by apply hex_pairs_spelling|done|]. rewrite <- Ht. apply trim_sound.
  - apply fmap_Some in H as (b & Hb & ->). unfold coerce_bytea in Hb. apply bind_Some in Hb as (h & Hh & Hb).
    destruct (negb _ || _) eqn:E; [done|]. apply orb_false_iff in E as [_ Hhex%negb_false_iff]. apply strip_prefix_bytes_Some in Hh.
    rewrite <- (str_of_bytes s), Hh. by apply sp_bytea_text, hex_pairs_spelling.
Qed.

(** ** Properties *)

(** C39: coercion reads exactly the spellings of a value. A literal is accepted for a column's
    type as the value [w] exactly when it writes [w]: an integer in the 64-bit range as an
    integer of any width, or as text with decimal digits whose places add up to it, an
    optional sign and surrounding white space; text as itself; the 16 bytes of a uuid as
    pairs of hex digits, high digit first, of either case, with hyphens anywhere, optional
    braces and white space; the bytes of a bytea as [\x] and such pairs. *)
Theorem coerce_exact ty lit w : coerce ty lit = Some w <-> spells ty lit w.
Proof. split; [apply coerce_spells|apply spells_coerce]. Qed.

(** on the canonical values of one column type the hashed byte string
    determines the value: two different keys share a keyspace id only through a
    collision of the hash itself. *)
Theorem canonical_bytes_inj ty v w :
  canonical ty v -> canonical ty w -> canonical_bytes v = canonical_bytes w -> v = w.
Proof.
  destruct ty, v, w; cbn [canonical canonical_bytes]; try done; intros H1 H2 H; [|by f_equal; apply (inj bytes)|congruence|congruence].
  f_equal. apply (f_equal be_val) in H. rewrite !be_val_to_be_mod in H.
  unfold is_i64, i64_MIN, i64_MAX in *. change (256 ^ Z.of_nat 8) with 18446744073709551616 in H.
  pose proof (Z.div_mod v 18446744073709551616 ltac:(lia)).
  pose proof (Z.div_mod v0 18446744073709551616 ltac:(lia)).
  pose proof (Z.mod_pos_bound v 18446744073709551616 ltac:(lia)).
  pose proof (Z.mod_pos_bound v0 18446744073709551616 ltac:(lia)). lia.
Qed.

(** ** Witnesses *)

(** A concrete hash, to instantiate the class: the big-endian value modulo 2^64. *)
Definition be_hash : XxHash.
Proof.
  refine {| xxh64 data seed := be_val data mod two64 |}. intros data seed.
  unfold is_u64, u64_MAX, two64. pose proof (Z.mod_pos_bound (be_val data) 18446744073709551616 ltac:(lia)). lia.
Defined.

#[local] Existing Instance be_hash.

(** Both signs of zero, and a value out of range. *)
Example coerce_boundaries : coerce TInt (Text " -00 ") = Some (Int64 0) /\ coerce TInt (Text "-9223372036854775808") = Some (Int64 i64_MIN) /\
  coerce TInt (Text "9223372036854775808") = None /\ coerce TBytea (Text "\xfF0a") = Some (Bytea ["255"%char; "010"%char]).
Proof. split_and!; vm_compute; reflexivity. Qed.

Lemma coerce_exact_witness : spells TInt (Text " +042") (Int64 42).
Proof. apply (coerce_exact TInt (Text " +042") (Int64 42)). vm_compute. reflexivity. Defined.

Lemma canonical_bytes_inj_witness : Int64 (-1) = Int64 (-1).
Proof.
  apply (canonical_bytes_inj TInt (Int64 (-1)) (Int64 (-1))); [concrete|concrete|reflexivity].
Defined.
