(* ===== verification/VSchema.v ===== *)
(** * The sharding schema

    [src/crates/pgshard-core/src/vschema.rs]: which tables are sharded, by which
    column, with which sequence bindings. The [BTreeMap] is a [gmap]. *)

From S2P Require Import Prelude Rust Keyspace ShardFn.

(** ** Data *)

Record TableName := mkTableName {
  tn_schema : string;
  tn_name : string;
}.

#[export] Instance TableName_eq_dec : EqDecision TableName.
Proof. solve_decision. Defined.
#[export] Instance TableName_countable : Countable TableName.
Proof.
  refine (inj_countable' (fun t => (tn_schema t, tn_name t)) (fun p => mkTableName p.1 p.2) _).
  by intros [].
Defined.

(** [impl Display for TableName]. *)
Definition TableName_to_string (t : TableName) : string := tn_schema t +:+ "." +:+ tn_name t.

Record SequenceBinding := mkSequenceBinding {
  sb_column : string;
  sb_sequence : string;
}.

#[export] Instance SequenceBinding_eq_dec : EqDecision SequenceBinding.
Proof. solve_decision. Defined.

Inductive TableDef :=
| Sharded (shard_key_column : string) (shard_key_type : option ScalarType)
    (shard_function_name : string) (sequences : list SequenceBinding)
| Global.

#[export] Instance TableDef_eq_dec : EqDecision TableDef.
Proof. solve_decision. Defined.

Inductive VSchemaError :=
| EmptyTableName (schema name : string)
| DuplicateTable (table : TableName)
| EmptyShardKey (table : TableName)
| UnknownShardFunction (table : TableName) (function : string)
| DuplicateSequenceColumn (table : TableName) (column : string).

Record VSchema := mkVSchema { vs_tables : gmap TableName TableDef }.

(** ** Operations *)

Module VSchema.

Definition default : VSchema := mkVSchema ∅.

(** The [seen] loop: the first column that is already in the set. *)
Fixpoint duplicate_column (seen : gset string) (bindings : list SequenceBinding) : option string :=
  match bindings with
  | [] => None
  | b :: bindings' =>
      if decide (sb_column b ∈ seen) then Some (sb_column b)
      else duplicate_column ({[sb_column b]} ∪ seen) bindings'
  end.

Definition insert `{XxHash} (self : VSchema) (table : TableName) (def : TableDef)
    : result VSchemaError VSchema :=
  if str_is_empty (tn_schema table) || str_is_empty (tn_name table) then
    Err (EmptyTableName (tn_schema table) (tn_name table))
  else if decide (is_Some (vs_tables self !! table)) then Err (DuplicateTable table)
  else
    _ ← match def with
        | Sharded shard_key_column _ function sequences =>
            if str_is_empty shard_key_column then Err (EmptyShardKey table)
            else if negb (is_ok (shard_function function)) then
              Err (UnknownShardFunction table function)
            else match duplicate_column ∅ sequences with
                 | Some c => Err (DuplicateSequenceColumn table c)
                 | None => Ok tt
                 end
        | Global => Ok tt
        end;
    Ok (mkVSchema (<[table := def]> (vs_tables self))).

Definition get (self : VSchema) (table : TableName) : option TableDef := vs_tables self !! table.

End VSchema.

(** ** Well-formed schemas *)

Definition table_wf `{XxHash} (table : TableName) (def : TableDef) : Prop :=
  tn_schema table <> EmptyString /\ tn_name table <> EmptyString /\
  match def with
  | Sharded col _ function sequences =>
      col <> EmptyString /\ is_ok (shard_function function) = true /\ NoDup (sb_column <$> sequences)
  | Global => True
  end.

Definition vschema_wf `{XxHash} (v : VSchema) : Prop :=
  map_Forall table_wf (vs_tables v).

(** ** Lemmas *)

Lemma duplicate_column_None seen bs :
  VSchema.duplicate_column seen bs = None <->
  NoDup (sb_column <$> bs) /\ forall b, b ∈ bs -> sb_column b ∉ seen.
Proof.
  revert seen. induction bs as [|b bs IH]; intros seen; simpl.
  - split; [intros _; split; [constructor|set_solver]|done].
  - rewrite NoDup_cons. destruct (decide _) as [Hin|Hnin].
    + split; [done|]. intros [_ H]. by destruct (H b ltac:(left)).
    + rewrite IH. setoid_rewrite elem_of_cons. setoid_rewrite elem_of_union.
      setoid_rewrite elem_of_singleton. rewrite list_elem_of_fmap. split.
      * intros [Hnd Hseen]. split_and!; [|done|].
        -- intros (c & Hc & Hcin). apply (Hseen c Hcin). auto.
        -- intros c [->|Hc]; [done|]. intros ?. apply (Hseen c Hc). auto.
      * intros [[Hnb Hnd] Hseen]. split; [done|]. intros c Hc [Heq|?]; [|by apply (Hseen c); auto].
        apply Hnb. exists c. auto.
Qed.

Lemma insert_behaviour `{XxHash} self table def :
  vschema_wf self ->
  (is_ok (VSchema.insert self table def) = true <->
     table_wf table def /\ VSchema.get self table = None) /\
  forall v, VSchema.insert self table def = Ok v ->
    vschema_wf v /\ VSchema.get v table = Some def /\
    forall t, t <> table -> VSchema.get v t = VSchema.get self t.
Proof.
  intros Hwf. unfold VSchema.insert, table_wf, VSchema.get.
  destruct (str_is_empty (tn_schema table)) eqn:E1.
  { apply str_is_empty_spec in E1. simpl. split; [split; [done|naive_solver]|done]. }
  destruct (str_is_empty (tn_name table)) eqn:E2.
  { apply str_is_empty_spec in E2. simpl. split; [split; [done|naive_solver]|done]. }
  assert (N1 : tn_schema table <> EmptyString) by (by rewrite <- str_is_empty_spec, E1).
  assert (N2 : tn_name table <> EmptyString) by (by rewrite <- str_is_empty_spec, E2).
  simpl orb. cbv iota. destruct (decide _) as [Hs|Hn].
  { split; [|done]. split; [done|]. intros [_ Hnone]. rewrite Hnone in Hs. by destruct Hs. }
  apply eq_None_not_Some in Hn.
  assert (Hok : table_wf table def -> vschema_wf (mkVSchema (<[table:=def]> (vs_tables self)))).
  { intros Ht. by apply map_Forall_insert_2. }
  assert (Hget : forall v, Ok (E := VSchemaError) (mkVSchema (<[table:=def]> (vs_tables self))) = Ok v ->
    table_wf table def ->
    vschema_wf v /\ vs_tables v !! table = Some def /\
    forall t, t <> table -> vs_tables v !! t = vs_tables self !! t).
  { intros v [= <-] Ht. split_and!; [by apply Hok|apply lookup_insert_eq|].
    intros t Ht'. by apply lookup_insert_ne. }
  unfold table_wf in Hok, Hget. destruct def as [col ty fn seqs|]; simpl; [|naive_solver].
  destruct (str_is_empty col) eqn:E3.
  { apply str_is_empty_spec in E3. simpl. split; [split; [done|naive_solver]|done]. }
  assert (N3 : col <> EmptyString) by (by rewrite <- str_is_empty_spec, E3).
  destruct (is_ok (shard_function fn)) eqn:E4; simpl; [|naive_solver].
  destruct (VSchema.duplicate_column ∅ seqs) eqn:E5; simpl.
  - split; [|done]. split; [done|]. intros [(_ & _ & _ & _ & Hnd) _].
    assert (VSchema.duplicate_column ∅ seqs = None); [|congruence].
    apply duplicate_column_None. split; [done|set_solver].
  - apply duplicate_column_None in E5 as [Hnd _]. split; [naive_solver|].
    intros v Hv. apply Hget; [done|]. naive_solver.
Qed.

(** [VSchema::insert] accepts a table exactly when its name is complete and new
    and its definition is valid (key column, known shard function, one sequence per
    column); it then changes that entry only, and preserves well-formedness. *)
Theorem insert_spec `{XxHash} self table def :
  vschema_wf self ->
  (is_ok (VSchema.insert self table def) = true <->
     table_wf table def /\ VSchema.get self table = None) /\
  forall v, VSchema.insert self table def = Ok v ->
    vschema_wf v /\ VSchema.get v table = Some def /\
    forall t, t <> table -> VSchema.get v t = VSchema.get self t.
Proof. apply insert_behaviour. Qed.

#[local] Existing Instance be_hash.

Lemma insert_spec_witness :
  let t := mkTableName "public" "orders" in
  let d := Sharded "customer_id" (Some TInt) "xxhash64_v1" [mkSequenceBinding "id" "orders_id"] in
  (is_ok (VSchema.insert VSchema.default t d) = true <-> table_wf t d /\ VSchema.get VSchema.default t = None) /\
  forall v, VSchema.insert VSchema.default t d = Ok v ->
    vschema_wf v /\ VSchema.get v t = Some d /\
    forall t', t' <> t -> VSchema.get v t' = VSchema.get VSchema.default t'.
Proof. intros. apply (insert_spec VSchema.default t d). apply map_Forall_empty. Defined.
