(* ===== verification/Catalog.v ===== *)
(** * The shard catalog

    [src/crates/pgshard-plan/src/catalog.rs]: the shards of one database in
    keyspace order, and the shard that owns a keyspace id. *)

From S2P Require Import Prelude Rust Keyspace.

Definition ShardId : Type := string.

Record ShardCatalog := mkShardCatalog { sc_shards : list (KeyRange * ShardId) }.

Module ShardCatalog.

Definition new (shards : list (KeyRange * ShardId)) : result PartitionError ShardCatalog :=
  _ ← validate_partition (fst <$> shards);
  Ok (mkShardCatalog shards).

(** [None] is the panic of [expect]. *)
Definition route (self : ShardCatalog) (id : KeyspaceId) : option ShardId :=
  snd <$> find_first (fun s => KeyRange.contains s.1 id) (sc_shards self).

Definition all (self : ShardCatalog) : list ShardId := snd <$> sc_shards self.

Definition len (self : ShardCatalog) : nat := length (sc_shards self).

Definition is_empty (self : ShardCatalog) : bool :=
  match sc_shards self with [] => true | _ => false end.

End ShardCatalog.

(** The catalogs the constructor builds from well-formed ranges. *)
Definition catalog_wf (c : ShardCatalog) : Prop :=
  Forall (fun s => range_wf s.1) (sc_shards c) /\ validate_partition (fst <$> sc_shards c) = Ok tt.

(** ** Lemmas *)

Lemma new_catalog_wf shards c :
  Forall (fun s => range_wf s.1) shards -> ShardCatalog.new shards = Ok c ->
  catalog_wf c /\ sc_shards c = shards.
Proof.
  intros Hwf H. unfold ShardCatalog.new in H. apply result_bind_Ok in H as ([] & Hv & [= <-]).
  by repeat split.
Qed.

Lemma catalog_route c id :
  catalog_wf c -> is_u64 id ->
  exists i r s, sc_shards c !! i = Some (r, s) /\ KeyRange.contains r id = true /\
    ShardCatalog.route c id = Some s /\
    forall j r' s', sc_shards c !! j = Some (r', s') -> KeyRange.contains r' id = true -> j = i.
Proof.
  intros [Hwf Hv] Hid.
  destruct (partition_owner (fst <$> sc_shards c) id) as (i & r & Hr & Hin & Hu);
    [by apply Forall_fmap|done|done|].
  rewrite list_lookup_fmap in Hr. apply fmap_Some in Hr as ([r0 s] & Hs & ->).
  assert (Huniq : forall j r' s', sc_shards c !! j = Some (r', s') ->
            KeyRange.contains r' id = true -> j = i).
  { intros j r' s' Hj Hc. eapply Hu; [|exact Hc]. by rewrite list_lookup_fmap, Hj. }
  exists i, r0, s. split_and!; [done|done| |done].
  unfold ShardCatalog.route. destruct (find_first _ _) as [[r' s']|] eqn:Hf.
  - apply find_first_Some in Hf as [Hin' Hc]. apply list_elem_of_lookup in Hin' as [j Hj].
    rewrite (Huniq j r' s' Hj Hc) in Hj. simpl in *. congruence.
  - apply find_first_None in Hf. rewrite Forall_lookup in Hf. by rewrite (Hf i _ Hs) in Hin.
Qed.

Lemma route_in_all c id s : ShardCatalog.route c id = Some s -> s ∈ ShardCatalog.all c.
Proof.
  unfold ShardCatalog.route, ShardCatalog.all. intros H.
  apply fmap_Some in H as (p & [Hp _]%find_first_Some & ->). by apply list_elem_of_fmap_2.
Qed.

(** routing never panics: in a catalog built from well-formed ranges every
    64-bit keyspace id routes to a shard, the shard of the one range that contains
    the id. *)
Theorem route_total_unique shards c id :
  Forall (fun s => range_wf s.1) shards -> ShardCatalog.new shards = Ok c -> is_u64 id ->
  exists i r s, sc_shards c !! i = Some (r, s) /\ KeyRange.contains r id = true /\
    ShardCatalog.route c id = Some s /\
    forall j r' s', sc_shards c !! j = Some (r', s') -> KeyRange.contains r' id = true -> j = i.
Proof. intros Hwf Hn Hid. apply catalog_route; [|done]. by eapply new_catalog_wf. Qed.

Lemma route_total_unique_witness :
  exists i r s,
    sc_shards (mkShardCatalog [(mkKeyRange 0 (Some 128), "a"); (mkKeyRange 128 None, "b")]) !! i = Some (r, s) /\
    KeyRange.contains r 200 = true /\
    ShardCatalog.route (mkShardCatalog [(mkKeyRange 0 (Some 128), "a"); (mkKeyRange 128 None, "b")]) 200 = Some s /\
    forall j r' s',
      sc_shards (mkShardCatalog [(mkKeyRange 0 (Some 128), "a"); (mkKeyRange 128 None, "b")]) !! j = Some (r', s') ->
      KeyRange.contains r' 200 = true -> j = i.
Proof.
  apply (route_total_unique [(mkKeyRange 0 (Some 128), "a"); (mkKeyRange 128 None, "b")]
    (mkShardCatalog [(mkKeyRange 0 (Some 128), "a"); (mkKeyRange 128 None, "b")]) 200).
  - repeat constructor; concrete.
  - reflexivity.
  - concrete.
Defined.
