(* ===== verification/Gate.v ===== *)
(** * The buffering gate engine

    [src/crates/pgshard-gate/src/lib.rs]. The mutex makes every method atomic, so
    a method is a function on the engine's world: the [EngineState] it guards and
    the oneshot channels it hands out. [Instant::now()] is an argument of the
    methods that read it; a client that disconnects (drops its receiver) is a step
    of the environment. *)

From S2P Require Import Prelude Rust Keyspace.

Open Scope Z_scope.

(** ** Data *)

Inductive GateMode := WritesOnly | AllTraffic.

Record StatementScope := mkScope {
  sc_tables : list string;
  sc_keyspace_ids : list KeyspaceId;
  sc_is_write : bool;
}.

Record GateMatch := mkGateMatch {
  gm_all : bool;
  gm_tables : list string;
  gm_key_ranges : list KeyRange;
}.

Record GateSpec := mkGateSpec {
  gs_id : string;
  gs_mode : GateMode;
  gs_matcher : GateMatch;
  gs_deadline : Z;
  gs_min_generation : Z;
}.

Inductive Release :=
| Replan (topology_generation : Z)
| Expired
| Rejected.

#[export] Instance GateMode_eq_dec : EqDecision GateMode.
Proof. solve_decision. Defined.
#[export] Instance Release_eq_dec : EqDecision Release.
Proof. solve_decision. Defined.

Record GateLimits := mkGateLimits {
  max_sessions : nat;
  max_total_sessions : nat;
  max_wait : Z;
}.

(** [impl Default for GateLimits]; durations and instants are nanoseconds. *)
Definition default_limits : GateLimits :=
  mkGateLimits (Z.to_nat 5000) (Z.to_nat 50000) 20000000000.

(** A parked session: its oneshot sender, by channel number, and its arrival. *)
Record Parked := mkParked { waker : nat; enqueued : Z }.

Record GateState := mkGateState {
  spec : GateSpec;
  parked : list Parked;
  open_requested : bool;
}.

Record EngineState := mkEngineState {
  gates : list GateState;
  applied_generation : Z;
}.

(** A [tokio::sync::oneshot] channel: the value sent, and whether the receiver
    was dropped. *)
Record Chan := mkChan { ch_value : option Release; ch_closed : bool }.

Record World := mkWorld {
  w_state : EngineState;
  w_chans : gmap nat Chan;
  w_next : nat;
}.

Definition set_gates (gs : list GateState) (w : World) : World :=
  mkWorld (mkEngineState gs (applied_generation (w_state w))) (w_chans w) (w_next w).

Definition init : World := mkWorld (mkEngineState [] 0) ∅ 0.

(** ** Channels *)

Definition is_closed (w : World) (c : nat) : bool :=
  match w_chans w !! c with Some ch => ch_closed ch | None => true end.

(** [let _ = waker.send(release)]: a send to a dropped receiver is discarded. *)
Definition send (c : nat) (r : Release) (w : World) : World :=
  match w_chans w !! c with
  | Some ch =>
      if ch_closed ch then w
      else mkWorld (w_state w) (<[c := mkChan (Some r) (ch_closed ch)]> (w_chans w)) (w_next w)
  | None => w
  end.

(** [oneshot::channel()]. *)
Definition channel (w : World) : nat * World :=
  (w_next w, mkWorld (w_state w) (<[w_next w := mkChan None false]> (w_chans w)) (S (w_next w))).

(** The client goes away: its receiver is dropped. *)
Definition disconnect (c : nat) (w : World) : World :=
  match w_chans w !! c with
  | Some ch => mkWorld (w_state w) (<[c := mkChan (ch_value ch) true]> (w_chans w)) (w_next w)
  | None => w
  end.

(** ** Gate and engine operations *)

Definition GateMatch_matches (m : GateMatch) (scope : StatementScope) : bool :=
  if gm_all m then true
  else if existsb (fun t => existsb (fun g => bool_decide (g = t)) (gm_tables m)) (sc_tables scope)
  then true
  else existsb (fun id => existsb (fun r => KeyRange.contains r id) (gm_key_ranges m))
         (sc_keyspace_ids scope).

(** The test of [check]: the gate buffers this traffic and selects this scope. *)
Definition gate_applies (scope : StatementScope) (g : GateState) : bool :=
  (bool_decide (gs_mode (spec g) = AllTraffic) || sc_is_write scope)
  && GateMatch_matches (gs_matcher (spec g)) scope.

Definition prune_dead (w : World) (g : GateState) : GateState :=
  mkGateState (spec g) (List.filter (fun p => negb (is_closed w (waker p))) (parked g)) (open_requested g).

Definition total_parked (s : EngineState) : nat :=
  sum_list ((fun g => length (parked g)) <$> gates s).

(** [Vec::swap_remove]: the last element takes the place of the removed one
    ([<[i := z]>] does nothing when the removed element is the last). *)
Definition swap_remove {A} (i : nat) (l : list A) : list A :=
  match last l with
  | Some z => <[i := z]> (removelast l)
  | None => []
  end.

Definition send_all (r : Release) (ps : list Parked) (w : World) : World :=
  foldl (fun w p => send (waker p) r w) w ps.

(** [drain_gate] is called with [idx < gates.len()] only; the other branch is the
    panic of [swap_remove]. *)
Definition drain_gate (idx : nat) (r : Release) (w : World) : World :=
  match gates (w_state w) !! idx with
  | Some gate => send_all r (parked gate) (set_gates (swap_remove idx (gates (w_state w))) w)
  | None => w
  end.

Definition open_release (applied now : Z) (g : GateState) : Release :=
  if gs_deadline (spec g) <=? now then Expired else Replan applied.

Definition open_gate (idx : nat) (applied now : Z) (w : World) : World :=
  match gates (w_state w) !! idx with
  | Some gate => drain_gate idx (open_release applied now gate) w
  | None => w
  end.

(** ** The engine's public methods *)

(** The [while idx < state.gates.len()] loops of [topology_applied] and
    [expire_due]: a due gate is drained and its slot looked at again, any other is
    stepped over. Each round either removes a gate or advances [idx], so the
    number of gates is enough fuel. Returns the number of gates drained. *)
Fixpoint sweep (due : GateState -> bool) (act : nat -> World -> World)
    (fuel idx : nat) (w : World) : World * nat :=
  match fuel with
  | O => (w, O)
  | S fuel' =>
      match gates (w_state w) !! idx with
      | None => (w, O)
      | Some g =>
          if due g then let '(w', n) := sweep due act fuel' idx (act idx w) in (w', S n)
          else sweep due act fuel' (S idx) w
      end
  end.

Definition set_applied (generation : Z) (w : World) : World :=
  mkWorld (mkEngineState (gates (w_state w)) generation) (w_chans w) (w_next w).

Definition topology_applied (generation now : Z) (w : World) : World :=
  let w1 := if generation >? applied_generation (w_state w) then set_applied generation w else w in
  let applied := applied_generation (w_state w1) in
  fst (sweep (fun g => open_requested g && (gs_min_generation (spec g) <=? applied))
             (fun idx w => open_gate idx applied now w)
             (length (gates (w_state w1))) 0 w1).

Definition close (s : GateSpec) (w : World) : World :=
  let gs := gates (w_state w) in
  match position (fun g => bool_decide (gs_id (spec g) = gs_id s)) gs with
  | Some i =>
      match gs !! i with
      | Some g => set_gates (<[i := mkGateState s (parked g) (open_requested g)]> gs) w
      | None => w
      end
  | None => set_gates (gs ++ [mkGateState s [] false]) w
  end.

Definition open (gate_id : string) (now : Z) (w : World) : World :=
  let applied := applied_generation (w_state w) in
  let gs := gates (w_state w) in
  match position (fun g => bool_decide (gs_id (spec g) = gate_id)) gs with
  | None => w
  | Some idx =>
      match gs !! idx with
      | None => w
      | Some g =>
          if gs_deadline (spec g) <=? now then drain_gate idx Expired w
          else if gs_min_generation (spec g) >? applied then
            set_gates (<[idx := mkGateState (spec g) (parked g) true]> gs) w
          else drain_gate idx (Replan applied) w
      end
  end.

Definition expire_due (now : Z) (w : World) : World * nat :=
  sweep (fun g => gs_deadline (spec g) <=? now) (fun idx w => drain_gate idx Expired w)
        (length (gates (w_state w))) 0 w.

(** [gate.parked.push_back(Parked { waker, enqueued })]. *)
Definition push_parked (g : GateState) (c : nat) (now : Z) : GateState :=
  mkGateState (spec g) (parked g ++ [mkParked c now]) (open_requested g).

(** The receiver handed to the session, by channel number; [None] is "proceed". *)
Definition check (limits : GateLimits) (scope : StatementScope) (now : Z) (w : World)
    : World * option nat :=
  match position (gate_applies scope) (gates (w_state w)) with
  | None => (w, None)
  | Some idx =>
      let gs := prune_dead w <$> gates (w_state w) in
      let w1 := set_gates gs w in
      let over_total := (max_total_sessions limits <=? total_parked (w_state w1))%nat in
      match gs !! idx with
      | None => (w1, None)
      | Some gate =>
          if over_total || (max_sessions limits <=? length (parked gate))%nat then
            let '(c, w2) := channel w1 in (send c Rejected w2, Some c)
          else
            let '(c, w2) := channel w1 in
            (set_gates (<[idx := push_parked gate c now]> gs) w2, Some c)
      end
  end.

(** The [while let Some(front)] loop of one gate: the overdue prefix and the rest. *)
Fixpoint overdue_prefix (now wait : Z) (ps : list Parked) : list Parked * list Parked :=
  match ps with
  | [] => ([], [])
  | p :: ps' =>
      if saturating_sub now (enqueued p) >? wait then
        let '(over, rest) := overdue_prefix now wait ps' in (p :: over, rest)
      else ([], ps)
  end.

(** The [for gate in &mut state.gates] loop: the gates left, the sessions rejected. *)
Definition reject_in_gate (wait now : Z) (w : World) (g : GateState) : GateState * list Parked :=
  let g1 := prune_dead w g in
  let '(over, rest) := overdue_prefix now wait (parked g1) in
  (mkGateState (spec g1) rest (open_requested g1), over).

Definition reject_overdue_sessions (limits : GateLimits) (now : Z) (w : World) : World * nat :=
  let rs := reject_in_gate (max_wait limits) now w <$> gates (w_state w) in
  let over := concat (snd <$> rs) in
  (send_all Rejected over (set_gates (fst <$> rs) w), length over).

Definition status (w : World) : list (string * nat) :=
  (fun g => (gs_id (spec g), length (parked g))) <$> gates (w_state w).

(** ** The engine as a state machine *)

Inductive GateOp :=
| OpCheck (scope : StatementScope) (now : Z)
| OpClose (s : GateSpec)
| OpOpen (gate_id : string) (now : Z)
| OpTopology (generation now : Z)
| OpExpire (now : Z)
| OpReject (now : Z)
| OpDisconnect (c : nat).

Definition apply_op (limits : GateLimits) (o : GateOp) (w : World) : World :=
  match o with
  | OpCheck scope now => fst (check limits scope now w)
  | OpClose s => close s w
  | OpOpen id now => open id now w
  | OpTopology generation now => topology_applied generation now w
  | OpExpire now => fst (expire_due now w)
  | OpReject now => fst (reject_overdue_sessions limits now w)
  | OpDisconnect c => disconnect c w
  end.

(** Methods that read [Instant::now()] under the lock see a clock that does not go
    back; the timer's [now] was read before the lock and may be any instant. *)
Definition op_clock (t : Z) (o : GateOp) : Z :=
  match o with OpCheck _ now | OpOpen _ now | OpTopology _ now => now | _ => t end.

Inductive reach (limits : GateLimits) : Z -> World -> Prop :=
| reach_init : reach limits 0 init
| reach_step t w o : reach limits t w -> t <= op_clock t o -> reach limits (op_clock t o) (apply_op limits o w).

(** ** The invariant *)

Definition gate_wakers (g : GateState) : list nat := waker <$> parked g.
Definition wakers (gs : list GateState) : list nat := concat (gate_wakers <$> gs).

(** The gates: unique ids, bounded queues, each in arrival order. *)
Record gates_inv (limits : GateLimits) (t : Z) (gs : list GateState) : Prop := {
  gi_ids : NoDup ((fun g => gs_id (spec g)) <$> gs);
  gi_cap : Forall (fun g => (length (parked g) <= max_sessions limits)%nat) gs;
  gi_total : (length (wakers gs) <= max_total_sessions limits)%nat;
  gi_fifo : Forall (fun g => StronglySorted (fun a b => enqueued a <= enqueued b) (parked g) /\
                             Forall (fun p => enqueued p <= t) (parked g)) gs;
}.

(** The channels: a parked session waits in one place only and has been sent
    nothing; a live session that was sent nothing is parked. *)
Record chans_inv (w : World) : Prop := {
  ci_nodup : NoDup (wakers (gates (w_state w)));
  ci_waiting : forall c, c ∈ wakers (gates (w_state w)) ->
    exists ch, w_chans w !! c = Some ch /\ ch_value ch = None;
  ci_alloc : forall c, is_Some (w_chans w !! c) <-> (c < w_next w)%nat;
  ci_live : forall c ch, w_chans w !! c = Some ch -> ch_value ch = None -> ch_closed ch = false ->
    c ∈ wakers (gates (w_state w));
}.

(** ** Lemmas *)

Lemma swap_remove_split {A} (l : list A) i x : l !! i = Some x ->
  exists r, swap_remove i l = take i l ++ r /\ r ≡ₚ drop (S i) l.
Proof.
  intros Hi. unfold swap_remove. destruct l as [|z l _] using rev_ind; [done|].
  rewrite last_snoc, removelast_last.
  apply lookup_lt_Some in Hi as Hlt. rewrite length_app in Hlt. simpl in Hlt.
  destruct (decide (i = length l)) as [->|Hne].
  - exists []. rewrite list_insert_ge by lia. rewrite take_app_length, app_nil_r.
    by rewrite drop_ge by (rewrite length_app; simpl; lia).
  - exists (z :: drop (S i) l). rewrite insert_take_drop by lia. rewrite take_app_le by lia.
    split; [done|]. rewrite drop_app_le by lia. by rewrite (Permutation_app_comm _ [z]).
Qed.

Lemma swap_remove_perm {A} (l : list A) i x : l !! i = Some x -> l ≡ₚ x :: swap_remove i l.
Proof.
  intros Hi. destruct (swap_remove_split l i x Hi) as (r & -> & Hr).
  rewrite <- (take_drop_middle l i x Hi) at 1. by rewrite Hr, Permutation_middle.
Qed.

Lemma wakers_cons g gs : wakers (g :: gs) = gate_wakers g ++ wakers gs.
Proof. done. Qed.

Lemma wakers_app gs gs' : wakers (gs ++ gs') = wakers gs ++ wakers gs'.
Proof. unfold wakers. by rewrite fmap_app, concat_app. Qed.

Lemma wakers_perm gs gs' : gs ≡ₚ gs' -> wakers gs ≡ₚ wakers gs'.
Proof.
  unfold wakers. induction 1; simpl; [done|by f_equiv| |by etrans].
  rewrite !app_assoc. f_equiv. apply Permutation_app_comm.
Qed.

Lemma total_parked_wakers s : total_parked s = length (wakers (gates s)).
Proof.
  unfold total_parked, wakers. induction (gates s) as [|g gs IH]; simpl; [done|].
  rewrite length_app. unfold gate_wakers at 1. rewrite length_fmap. f_equal. exact IH.
Qed.

Lemma set_gates_gates gs w : gates (w_state (set_gates gs w)) = gs.
Proof. done. Qed.

Lemma send_frame c r w : w_state (send c r w) = w_state w /\ w_next (send c r w) = w_next w.
Proof. unfold send. destruct (w_chans w !! c) as [ch|]; [destruct (ch_closed ch)|]; done. Qed.

Lemma send_lookup c r w k :
  w_chans (send c r w) !! k =
  (fun ch => if bool_decide (k = c) && negb (ch_closed ch) then mkChan (Some r) false else ch) <$> (w_chans w !! k).
Proof.
  unfold send. destruct (decide (k = c)) as [->|Hne].
  - rewrite bool_decide_true by done. destruct (w_chans w !! c) as [ch|] eqn:Hc; simpl; [|by rewrite Hc].
    destruct (ch_closed ch) eqn:Hcl; simpl; [by rewrite Hc|]. by rewrite lookup_insert_eq.
  - rewrite bool_decide_false by done. simpl. rewrite (option_fmap_ext _ id) by done.
    rewrite option_fmap_id.
    destruct (w_chans w !! c) as [ch|] eqn:Hc; simpl; [|done].
    destruct (ch_closed ch); simpl; [done|]. by rewrite lookup_insert_ne by done.
Qed.

Lemma send_all_frame r ps w :
  w_state (send_all r ps w) = w_state w /\ w_next (send_all r ps w) = w_next w.
Proof.
  revert w. induction ps as [|p ps IH]; intros w; [done|]. simpl.
  destruct (IH (send (waker p) r w)) as [-> ->]. apply send_frame.
Qed.

Lemma send_all_lookup r ps w k :
  w_chans (send_all r ps w) !! k =
  (fun ch => if bool_decide (k ∈ waker <$> ps) && negb (ch_closed ch) then mkChan (Some r) false else ch)
    <$> (w_chans w !! k).
Proof.
  revert w. induction ps as [|p ps IH]; intros w.
  - simpl. by destruct (w_chans w !! k).
  - simpl send_all. rewrite IH, send_lookup. destruct (w_chans w !! k) as [ch|]; [|done]. simpl. f_equal.
    destruct (decide (k = waker p)) as [->|Hne].
    + rewrite (bool_decide_true (waker p = waker p)) by done.
      rewrite (bool_decide_true (_ ∈ waker p :: _)) by set_solver.
      destruct ch as [v []]; simpl; [by rewrite andb_false_r|]. by destruct (bool_decide _).
    + rewrite (bool_decide_false (k = waker p)) by done. simpl.
      rewrite (bool_decide_ext (k ∈ waker p :: _) (k ∈ waker <$> ps)) by set_solver. done.
Qed.

(** *** Releasing sessions preserves the channel invariant *)

Lemma release_chans r rel dead gs1 w :
  chans_inv w ->
  wakers (gates (w_state w)) ≡ₚ (waker <$> rel) ++ dead ++ wakers gs1 ->
  Forall (fun c => is_closed w c = true) dead ->
  chans_inv (send_all r rel (set_gates gs1 w)).
Proof.
  intros [Hnd Hwait Halloc Hlive] Hp Hdead.
  destruct (send_all_frame r rel (set_gates gs1 w)) as [Hst Hnx].
  pose proof Hnd as Hnd'. rewrite Hp in Hnd'.
  apply NoDup_app in Hnd' as (_ & Hdisj & Hnd'). apply NoDup_app in Hnd' as (_ & _ & Hnd1).
  split; rewrite ?Hst, ?Hnx; simpl.
  - done.
  - intros c Hc. destruct (Hwait c) as (ch & Hch & Hv); [rewrite Hp; set_solver|].
    exists ch. rewrite send_all_lookup. simpl. rewrite Hch. simpl.
    rewrite bool_decide_false; [done|]. intros Hr. apply (Hdisj c Hr). set_solver.
  - intros c. rewrite send_all_lookup, fmap_is_Some. apply Halloc.
  - intros c ch. rewrite send_all_lookup. simpl. intros (ch0 & Hch & Heq)%fmap_Some Hv Hcl.
    destruct (bool_decide (c ∈ waker <$> rel) && negb (ch_closed ch0)) eqn:E; [by subst ch|].
    subst ch0. rewrite Hcl, andb_true_r in E. apply bool_decide_eq_false in E.
    pose proof (Hlive c ch Hch Hv Hcl) as Hin. rewrite Hp in Hin.
    apply elem_of_app in Hin as [?|[Hin|?]%elem_of_app]; [done| |done].
    rewrite Forall_forall in Hdead. specialize (Hdead c Hin). unfold is_closed in Hdead.
    rewrite Hch in Hdead. congruence.
Qed.

(** A change of the gates alone that leaves the queues as they are. *)
Lemma regate_chans gs1 w :
  chans_inv w -> wakers gs1 = wakers (gates (w_state w)) -> chans_inv (set_gates gs1 w).
Proof. intros [Hnd Hwait Halloc Hlive] Hw. by split; simpl; rewrite ?Hw. Qed.

(** *** Gate lists that lose sessions *)

Definition shrinks (g g' : GateState) : Prop :=
  gs_id (spec g') = gs_id (spec g) /\ sublist (parked g') (parked g).

Lemma shrink_wakers gs gs' : Forall2 shrinks gs gs' -> (length (wakers gs') <= length (wakers gs))%nat.
Proof.
  induction 1 as [|g g' gs gs' [_ Hs] _ IH]; [done|].
  rewrite !wakers_cons, !length_app. apply sublist_length in Hs.
  assert (length (gate_wakers g') <= length (gate_wakers g))%nat
    by (unfold gate_wakers; by rewrite !length_fmap). lia.
Qed.

Lemma gates_inv_shrink limits t gs gs' :
  Forall2 shrinks gs gs' -> gates_inv limits t gs -> gates_inv limits t gs'.
Proof.
  intros Hs [Hid Hcap Htot Hfifo]. split.
  - replace ((fun g => gs_id (spec g)) <$> gs') with ((fun g => gs_id (spec g)) <$> gs); [done|].
    clear - Hs. induction Hs as [|g g' gs gs' [Heq _] _ IH]; simpl; [done|]. f_equal; [done|exact IH].
  - clear - Hs Hcap. induction Hs as [|g g' gs gs' [_ Hl] _ IH]; [constructor|].
    inversion Hcap; subst. apply sublist_length in Hl. constructor; [lia|auto].
  - pose proof (shrink_wakers _ _ Hs). lia.
  - clear - Hs Hfifo. induction Hs as [|g g' gs gs' [_ Hl] _ IH]; [constructor|].
    inversion Hfifo as [|? ? [H1 H2]]; subst. constructor; [|auto].
    split; [by eapply sorted_sublist|by eapply Forall_sublist].
Qed.

Lemma gates_inv_remove limits t gs g gs' :
  gs ≡ₚ g :: gs' -> gates_inv limits t gs -> gates_inv limits t gs'.
Proof.
  intros Hp [Hid Hcap Htot Hfifo]. split.
  - rewrite Hp in Hid. simpl in Hid. by apply NoDup_cons in Hid as [_ ?].
  - rewrite Hp in Hcap. by apply Forall_cons in Hcap as [_ ?].
  - rewrite (Permutation_length (wakers_perm _ _ Hp)) in Htot.
    rewrite wakers_cons, length_app in Htot. lia.
  - rewrite Hp in Hfifo. by apply Forall_cons in Hfifo as [_ ?].
Qed.

Lemma gates_inv_clock limits t t' gs : t <= t' -> gates_inv limits t gs -> gates_inv limits t' gs.
Proof.
  intros Ht [Hid Hcap Htot Hfifo]. split; [done|done|done|].
  eapply Forall_impl; [exact Hfifo|]. intros g [Hs Hall]. split; [done|].
  eapply Forall_impl; [exact Hall|]. simpl. lia.
Qed.

Lemma drain_gates idx r w g : gates (w_state w) !! idx = Some g ->
  gates (w_state (drain_gate idx r w)) = swap_remove idx (gates (w_state w)) /\
  applied_generation (w_state (drain_gate idx r w)) = applied_generation (w_state w).
Proof.
  intros Hg. unfold drain_gate. rewrite Hg.
  destruct (send_all_frame r (parked g) (set_gates (swap_remove idx (gates (w_state w))) w)) as [-> _].
  done.
Qed.

Lemma drain_inv limits t idx r w :
  gates_inv limits t (gates (w_state w)) /\ chans_inv w ->
  gates_inv limits t (gates (w_state (drain_gate idx r w))) /\ chans_inv (drain_gate idx r w).
Proof.
  intros [Hg Hc]. destruct (gates (w_state w) !! idx) as [g|] eqn:Hi;
    [|unfold drain_gate; by rewrite Hi].
  pose proof (swap_remove_perm _ _ _ Hi) as Hp. split.
  - destruct (drain_gates idx r w g Hi) as [-> _]. by eapply gates_inv_remove.
  - unfold drain_gate. rewrite Hi. apply (release_chans r (parked g) []); [done| |constructor].
    rewrite (wakers_perm _ _ Hp). done.
Qed.

(** *** Sweeps *)

Lemma sweep_preserves (P : World -> Prop) due act fuel idx w :
  (forall i v, P v -> P (act i v)) -> P w -> P (fst (sweep due act fuel idx w)).
Proof.
  intros Hact. revert idx w. induction fuel as [|fuel IH]; intros idx w Hw; simpl; [done|].
  destruct (_ !! idx) as [g|]; [|done]. destruct (due g); [|by apply IH].
  specialize (IH idx (act idx w) (Hact _ _ Hw)). by destruct (sweep _ _ _ _ _).
Qed.

(** *** Replacing one gate *)

Lemma replace_shrinks gs i g g' :
  gs !! i = Some g -> shrinks g g' -> Forall2 shrinks gs (<[i := g']> gs).
Proof.
  intros Hi Hs. rewrite <- (list_insert_id gs i g Hi) at 1.
  apply Forall2_insert; [|done]. apply Forall_Forall2_diag. by apply Forall_true.
Qed.

Lemma wakers_insert gs i g g' : gs !! i = Some g ->
  exists a b, wakers gs = a ++ gate_wakers g ++ b /\ wakers (<[i := g']> gs) = a ++ gate_wakers g' ++ b.
Proof.
  intros Hi. exists (wakers (take i gs)), (wakers (drop (S i) gs)).
  rewrite <- (take_drop_middle gs i g Hi) at 1.
  rewrite insert_take_drop by (by eapply lookup_lt_Some).
  by rewrite !wakers_app, !wakers_cons.
Qed.

Lemma wakers_insert_same gs i g g' :
  gs !! i = Some g -> parked g' = parked g -> wakers (<[i := g']> gs) = wakers gs.
Proof.
  intros Hi Hp. destruct (wakers_insert gs i g g' Hi) as (a & b & -> & ->).
  unfold gate_wakers. by rewrite Hp.
Qed.

(** *** Pruning *)

Lemma prune_shrinks w g : shrinks g (prune_dead w g).
Proof.
  split; [done|]. simpl. induction (parked g) as [|p ps IH]; simpl; [done|].
  destruct (negb _); by constructor.
Qed.

Lemma prune_wakers w gs :
  wakers (prune_dead w <$> gs) = List.filter (fun c => negb (is_closed w c)) (wakers gs).
Proof.
  assert (Hg : forall ps, waker <$> List.filter (fun p => negb (is_closed w (waker p))) ps =
               List.filter (fun c => negb (is_closed w c)) (waker <$> ps)).
  { induction ps as [|p ps IH]; [done|]. simpl.
    destruct (is_closed w (waker p)); simpl; [exact IH|]. f_equal. exact IH. }
  induction gs as [|g gs IH]; [done|].
  rewrite fmap_cons, !wakers_cons, List.filter_app. f_equal; [apply Hg|exact IH].
Qed.

Lemma prune_inv limits t w :
  gates_inv limits t (gates (w_state w)) -> chans_inv w ->
  gates_inv limits t (prune_dead w <$> gates (w_state w)) /\
  chans_inv (set_gates (prune_dead w <$> gates (w_state w)) w).
Proof.
  intros Hg Hc. split.
  - eapply gates_inv_shrink; [|exact Hg]. apply Forall2_fmap_r, Forall_Forall2_diag, Forall_true.
    apply prune_shrinks.
  - apply (release_chans Rejected [] (List.filter (is_closed w) (wakers (gates (w_state w))))); [done| |].
    + simpl. rewrite prune_wakers. apply filter_split_perm.
    + rewrite Forall_forall. intros c Hin. apply list_elem_of_In, List.filter_In in Hin. apply Hin.
Qed.

(** *** A new channel *)

Lemma fresh_next w c : chans_inv w -> c ∈ wakers (gates (w_state w)) -> c <> w_next w.
Proof.
  intros [_ Hwait Halloc _] Hc ->. destruct (Hwait _ Hc) as (ch & Hch & _). apply mk_is_Some, Halloc in Hch. lia.
Qed.

Lemma park_chans w gs' :
  chans_inv w -> wakers gs' ≡ₚ w_next w :: wakers (gates (w_state w)) ->
  chans_inv (set_gates gs' (snd (channel w))).
Proof.
  intros Hc Hp. pose proof (fresh_next w) as Hfresh. specialize (fun c => Hfresh c Hc).
  destruct Hc as [Hnd Hwait Halloc Hlive]. split; simpl.
  - rewrite Hp. apply NoDup_cons. split; [|done]. intros Hin. by apply (Hfresh _ Hin).
  - intros c. rewrite Hp, elem_of_cons. intros [->|Hin].
    + exists (mkChan None false). by rewrite lookup_insert_eq.
    + rewrite lookup_insert_ne by (by apply not_eq_sym, Hfresh). auto.
  - intros c. rewrite lookup_insert. case_decide; [split; [lia|done]|]. rewrite Halloc. lia.
  - intros c ch. rewrite lookup_insert, Hp, elem_of_cons. case_decide; [by left|]. eauto.
Qed.

Lemma refuse_chans w : chans_inv w -> chans_inv (send (w_next w) Rejected (snd (channel w))).
Proof.
  intros Hc. pose proof (fresh_next w) as Hfresh. specialize (fun c => Hfresh c Hc).
  destruct Hc as [Hnd Hwait Halloc Hlive].
  destruct (send_frame (w_next w) Rejected (snd (channel w))) as [Hst Hnx].
  split; rewrite ?Hst, ?Hnx; simpl.
  - done.
  - intros c Hin. rewrite send_lookup. simpl. rewrite lookup_insert_ne by (by apply not_eq_sym, Hfresh).
    destruct (Hwait c Hin) as (ch & -> & Hv). exists ch. simpl.
    by rewrite bool_decide_false by auto.
  - intros c. rewrite send_lookup, fmap_is_Some. simpl. rewrite lookup_insert.
    case_decide; [split; [lia|done]|]. rewrite Halloc. lia.
  - intros c ch. rewrite send_lookup. simpl. intros (ch0 & Hch & Heq)%fmap_Some Hv Hcl.
    rewrite lookup_insert in Hch. case_decide as Hn; simplify_eq.
    + by rewrite bool_decide_true in Hv by done.
    + rewrite bool_decide_false in * by done. simpl in *. by eapply Hlive.
Qed.

Lemma check_inv limits t scope now w :
  gates_inv limits t (gates (w_state w)) -> chans_inv w -> t <= now ->
  gates_inv limits now (gates (w_state (fst (check limits scope now w)))) /\
  chans_inv (fst (check limits scope now w)).
Proof.
  intros Hg Hc Ht. apply (gates_inv_clock _ _ now) in Hg as Hg'; [|done].
  unfold check. destruct (position _ _) as [idx|]; [|done].
  destruct (prune_inv limits t w Hg Hc) as [Hgp Hcp].
  set (gs := prune_dead w <$> gates (w_state w)) in *. set (w1 := set_gates gs w) in *.
  destruct (gs !! idx) as [gate|] eqn:Hgate; [|split; [by eapply gates_inv_clock|done]].
  destruct (_ || _) eqn:Hover.
  - cbn [channel fst snd]. split; [|by apply (refuse_chans w1)].
    destruct (send_frame (w_next w1) Rejected (snd (channel w1))) as [Hst _].
    unfold channel in Hst. simpl in Hst |- *. rewrite Hst. by eapply gates_inv_clock.
  - apply orb_false_iff in Hover as [Htot Hcap]. apply Nat.leb_gt in Htot, Hcap.
    rewrite total_parked_wakers in Htot. simpl in Htot.
    cbn [channel fst snd]. set (gate' := push_parked gate (w_next w1) now).
    assert (Hw : wakers (<[idx:=gate']> gs) ≡ₚ w_next w1 :: wakers gs).
    { destruct (wakers_insert gs idx gate gate' Hgate) as (a & b & -> & ->).
      unfold gate_wakers. simpl. rewrite fmap_app. simpl.
      rewrite <- app_assoc. simpl. rewrite app_assoc, <- Permutation_middle. by rewrite app_assoc. }
    split; [|by apply (park_chans w1)]. simpl.
    destruct Hgp as [Hid Hcaps _ Hfifo]. split.
    + replace ((fun g => gs_id (spec g)) <$> <[idx:=gate']> gs) with ((fun g => gs_id (spec g)) <$> gs);
        [done|]. rewrite list_fmap_insert. symmetry. apply list_insert_id.
      by rewrite list_lookup_fmap, Hgate.
    + apply Forall_insert; [done|]. simpl. rewrite length_app. simpl. lia.
    + rewrite Hw. simpl. lia.
    + apply Forall_insert.
      * eapply Forall_impl; [exact Hfifo|]. intros g [Hs Hall]. split; [done|].
        eapply Forall_impl; [exact Hall|]. simpl. lia.
      * pose proof (Forall_lookup_1 _ _ _ _ Hfifo Hgate) as [Hs Hall]. simpl.
        assert (Hall' : Forall (fun p => enqueued p <= now) (parked gate))
          by (eapply Forall_impl; [exact Hall|]; simpl; lia).
        split; [by apply sorted_snoc|]. apply Forall_app. split; [done|]. by repeat constructor.
Qed.

(** *** Rejecting overdue sessions *)

Lemma overdue_prefix_app now wait ps a b : overdue_prefix now wait ps = (a, b) -> ps = a ++ b.
Proof.
  revert a b. induction ps as [|p ps IH]; intros a b H; simpl in H; [by simplify_eq|].
  destruct (_ >? wait); [|by simplify_eq].
  destruct (overdue_prefix now wait ps) as [over rest]. simplify_eq. simpl. f_equal. by apply IH.
Qed.

Lemma reject_gate_split wait now w g g' over : reject_in_gate wait now w g = (g', over) ->
  parked (prune_dead w g) = over ++ parked g' /\ spec g' = spec g.
Proof.
  unfold reject_in_gate. destruct (overdue_prefix _ _ _) as [o r] eqn:E. intros [= <- <-].
  by apply overdue_prefix_app in E.
Qed.

Lemma reject_gate_shrinks wait now w g : shrinks g (fst (reject_in_gate wait now w g)).
Proof.
  destruct (reject_in_gate wait now w g) as [g' over] eqn:E.
  apply reject_gate_split in E as [Hp Hs]. destruct (prune_shrinks w g) as [_ Hsub].
  split; simpl; [by rewrite Hs|]. etrans; [|exact Hsub]. rewrite Hp. by apply sublist_inserts_l.
Qed.

Lemma reject_wakers wait now w gs : let rs := reject_in_gate wait now w <$> gs in
  wakers (prune_dead w <$> gs) ≡ₚ (waker <$> concat (snd <$> rs)) ++ wakers (fst <$> rs).
Proof.
  simpl. induction gs as [|g gs IH]; [done|].
  rewrite !fmap_cons. destruct (reject_in_gate wait now w g) as [g' over] eqn:E.
  apply reject_gate_split in E as [Hp _]. cbn [fst snd concat]. rewrite !wakers_cons, IH.
  unfold gate_wakers at 1 2. rewrite Hp, !fmap_app, <- !app_assoc. f_equiv.
  rewrite !app_assoc. f_equiv. apply Permutation_app_comm.
Qed.

Lemma reject_inv limits t now w :
  gates_inv limits t (gates (w_state w)) -> chans_inv w ->
  gates_inv limits t (gates (w_state (fst (reject_overdue_sessions limits now w)))) /\
  chans_inv (fst (reject_overdue_sessions limits now w)).
Proof.
  intros Hg Hc. unfold reject_overdue_sessions. cbn [fst].
  set (rs := reject_in_gate _ _ _ <$> _). split.
  - destruct (send_all_frame Rejected (concat (snd <$> rs)) (set_gates (fst <$> rs) w)) as [-> _].
    simpl. eapply gates_inv_shrink; [|exact Hg]. unfold rs. rewrite <- list_fmap_compose.
    apply Forall2_fmap_r, Forall_Forall2_diag, Forall_true. intros g. apply reject_gate_shrinks.
  - apply (release_chans Rejected _ (List.filter (is_closed w) (wakers (gates (w_state w))))); [done| |].
    + rewrite (filter_split_perm (is_closed w) (wakers (gates (w_state w)))) at 1.
      rewrite <- prune_wakers, (reject_wakers (max_wait limits) now). fold rs.
      rewrite !app_assoc. f_equiv. apply Permutation_app_comm.
    + rewrite Forall_forall. intros c Hin. apply list_elem_of_In, List.filter_In in Hin. apply Hin.
Qed.

(** *** Opening, closing, disconnecting *)

Lemma position_id_spec gs id i g :
  position (fun g => bool_decide (gs_id (spec g) = id)) gs = Some i -> gs !! i = Some g -> gs_id (spec g) = id.
Proof. intros (x & Hx & Hp & _)%position_Some Hg. simplify_eq. by apply bool_decide_eq_true in Hp. Qed.

Lemma close_inv limits t s w :
  gates_inv limits t (gates (w_state w)) -> chans_inv w ->
  gates_inv limits t (gates (w_state (close s w))) /\ chans_inv (close s w).
Proof.
  intros Hg Hc. unfold close. destruct (position _ _) as [i|] eqn:Hi.
  - destruct (_ !! i) as [g|] eqn:Hgi; [|done]. pose proof (position_id_spec _ _ _ _ Hi Hgi) as Hid. split.
    + eapply gates_inv_shrink; [|exact Hg]. by apply (replace_shrinks _ _ g).
    + apply regate_chans; [done|]. by apply (wakers_insert_same _ _ g).
  - assert (Hw : wakers (gates (w_state w) ++ [mkGateState s [] false]) = wakers (gates (w_state w)))
      by (rewrite wakers_app; simpl; apply app_nil_r).
    split; [|by apply regate_chans]. simpl. destruct Hg as [Hid Hcap Htot Hfifo]. split.
    + rewrite fmap_app. apply NoDup_app. split_and!; [done| |simpl; apply NoDup_singleton].
      apply position_None in Hi. rewrite Forall_forall in Hi. intros id Hin.
      apply list_elem_of_fmap in Hin as (g & -> & Hg). specialize (Hi g Hg).
      apply bool_decide_eq_false in Hi. simpl. set_solver.
    + apply Forall_app. split; [done|]. repeat constructor. simpl. lia.
    + by rewrite Hw.
    + apply Forall_app. split; [done|]. repeat constructor.
Qed.

Lemma open_inv limits t id now w :
  gates_inv limits t (gates (w_state w)) -> chans_inv w ->
  gates_inv limits t (gates (w_state (open id now w))) /\ chans_inv (open id now w).
Proof.
  intros Hg Hc. unfold open. destruct (position _ _) as [i|]; [|done].
  destruct (_ !! i) as [g|] eqn:Hgi; [|done].
  destruct (_ <=? now); [by apply drain_inv|]. destruct (_ >? _); [|by apply drain_inv]. split.
  - eapply gates_inv_shrink; [|exact Hg]. by apply (replace_shrinks _ _ g).
  - apply regate_chans; [done|]. by apply (wakers_insert_same _ _ g).
Qed.

Lemma disconnect_chans c w : chans_inv w -> chans_inv (disconnect c w).
Proof.
  intros [Hnd Hwait Halloc Hlive]. unfold disconnect.
  destruct (w_chans w !! c) as [ch0|] eqn:Hc0; [|done]. split; simpl.
  - done.
  - intros k Hk. destruct (Hwait k Hk) as (ch & Hch & Hv). rewrite lookup_insert.
    case_decide; simplify_eq; eauto.
  - intros k. rewrite lookup_insert. case_decide; [|apply Halloc]. subst k.
    rewrite <- Halloc, Hc0. done.
  - intros k ch. rewrite lookup_insert. case_decide; [intros; simplify_eq|]; eauto.
Qed.

Lemma open_gate_inv limits t idx applied now w :
  gates_inv limits t (gates (w_state w)) /\ chans_inv w ->
  gates_inv limits t (gates (w_state (open_gate idx applied now w))) /\ chans_inv (open_gate idx applied now w).
Proof. intros H. unfold open_gate. destruct (_ !! idx); [by apply drain_inv|done]. Qed.

Lemma apply_op_inv limits t w o :
  gates_inv limits t (gates (w_state w)) /\ chans_inv w -> t <= op_clock t o ->
  gates_inv limits (op_clock t o) (gates (w_state (apply_op limits o w))) /\ chans_inv (apply_op limits o w).
Proof.
  intros [Hg Hc] Ht. destruct o as [scope now|s|id now|gen now|now|now|c]; simpl in *.
  - by apply (check_inv limits t).
  - by apply close_inv.
  - destruct (open_inv limits t id now w Hg Hc). split; [by eapply gates_inv_clock|done].
  - unfold topology_applied.
    set (w1 := if gen >? applied_generation (w_state w) then set_applied gen w else w).
    assert (H1 : gates_inv limits t (gates (w_state w1)) /\ chans_inv w1).
    { unfold w1. destruct (_ >? _); [|done]. split; [done|]. by destruct Hc. }
    edestruct (sweep_preserves (fun w => gates_inv limits t (gates (w_state w)) /\ chans_inv w)) as [Ha Hb];
      [|exact H1|split; [by eapply gates_inv_clock|exact Hb]].
    intros i v. apply open_gate_inv.
  - apply (sweep_preserves (fun w => gates_inv limits t (gates (w_state w)) /\ chans_inv w)); [|done].
    intros i v. apply drain_inv.
  - by apply reject_inv.
  - split; [|by apply disconnect_chans]. unfold disconnect. by destruct (_ !! c).
Qed.

Lemma reach_inv limits t w : reach limits t w ->
  gates_inv limits t (gates (w_state w)) /\ chans_inv w.
Proof.
  induction 1 as [|t w o _ IH Ht]; [|by apply apply_op_inv].
  split; split; simpl; [constructor|constructor|unfold wakers; simpl; lia|constructor|constructor| | |].
  - intros c Hc. by apply elem_of_nil in Hc.
  - intros c. rewrite lookup_empty. split; [by intros []|lia].
  - intros c ch Hc. by rewrite lookup_empty in Hc.
Qed.

(** *** What a sweep leaves *)

Lemma sweep_gates due act fuel idx w :
  (forall i v g, gates (w_state v) !! i = Some g ->
     gates (w_state (act i v)) = swap_remove i (gates (w_state v))) ->
  (length (gates (w_state w)) - idx <= fuel)%nat ->
  let '(w', n) := sweep due act fuel idx w in
  (exists r, gates (w_state w') = take idx (gates (w_state w)) ++ r /\
             r ≡ₚ List.filter (fun g => negb (due g)) (drop idx (gates (w_state w)))) /\
  n = length (List.filter due (drop idx (gates (w_state w)))).
Proof.
  intros Hact. revert idx w. induction fuel as [|fuel IH]; intros idx w Hf; simpl.
  - rewrite drop_ge, take_ge by lia. split; [|done]. exists []. by rewrite app_nil_r.
  - destruct (gates (w_state w) !! idx) as [g|] eqn:Hg.
    + rewrite (drop_S _ g) by done. apply lookup_lt_Some in Hg as Hlt. destruct (due g) eqn:Hd; simpl; rewrite Hd; simpl.
      * specialize (IH idx (act idx w)). rewrite (Hact idx w g Hg) in IH.
        destruct (swap_remove_split _ _ _ Hg) as (r0 & Hr0 & Hp). rewrite Hr0 in IH.
        rewrite length_app, length_take, (Permutation_length Hp), length_drop in IH.
        specialize (IH ltac:(lia)). destruct (sweep due act fuel idx (act idx w)) as [w' n].
        rewrite take_app_le, take_take, Nat.min_id in IH by (rewrite length_take; lia).
        rewrite (drop_app_length' _ _ _ (eq_sym (length_take_le _ _ (Nat.lt_le_incl _ _ Hlt)))) in IH.
        destruct IH as [(r & Hr & Hperm) ->]. split.
        -- exists r. split; [done|]. by rewrite Hperm, (filter_perm _ _ _ Hp).
        -- f_equal. apply Permutation_length. by apply filter_perm.
      * specialize (IH (S idx) w ltac:(lia)). destruct (sweep due act fuel (S idx) w) as [w' n].
        destruct IH as [(r & Hr & Hperm) ->]. split; [|done].
        exists (g :: r). rewrite (take_S_r _ _ g) in Hr by done. rewrite <- app_assoc in Hr.
        split; [done|]. by rewrite Hperm.
    + apply lookup_ge_None in Hg. rewrite drop_ge, take_ge by lia. split; [|done].
      exists []. by rewrite app_nil_r.
Qed.

(** The verdict sent on channel [c], if any. *)
Definition verdict (w : World) (c : nat) : option Release := w_chans w !! c ≫= ch_value.

Lemma drain_lookup idx r w g c : gates (w_state w) !! idx = Some g ->
  w_chans (drain_gate idx r w) !! c =
  (fun ch => if bool_decide (c ∈ gate_wakers g) && negb (ch_closed ch) then mkChan (Some r) false else ch)
    <$> (w_chans w !! c).
Proof. intros Hg. unfold drain_gate. rewrite Hg, send_all_lookup. done. Qed.

Lemma sweep_drain_lookup due r fuel idx w c :
  (length (gates (w_state w)) - idx <= fuel)%nat ->
  w_chans (fst (sweep due (fun i v => drain_gate i r v) fuel idx w)) !! c =
  (fun ch => if bool_decide (c ∈ wakers (List.filter due (drop idx (gates (w_state w))))) && negb (ch_closed ch)
             then mkChan (Some r) false else ch) <$> (w_chans w !! c).
Proof.
  revert idx w. induction fuel as [|fuel IH]; intros idx w Hf; simpl.
  - rewrite drop_ge by lia. simpl. by destruct (_ !! c).
  - destruct (gates (w_state w) !! idx) as [g|] eqn:Hg.
    + rewrite (drop_S _ g) by done. apply lookup_lt_Some in Hg as Hlt. destruct (due g) eqn:Hd; simpl; rewrite Hd.
      * specialize (IH idx (drain_gate idx r w)).
        destruct (drain_gates idx r w g Hg) as [Hdg _]. rewrite Hdg in IH.
        destruct (swap_remove_split _ _ _ Hg) as (r0 & Hr0 & Hp). rewrite Hr0 in IH.
        rewrite length_app, length_take, (Permutation_length Hp), length_drop in IH.
        specialize (IH ltac:(lia)). destruct (sweep _ _ fuel idx _) as [w' n]. simpl in *.
        rewrite (drop_app_length' _ _ _ (eq_sym (length_take_le _ _ (Nat.lt_le_incl _ _ Hlt)))) in IH.
        rewrite IH, (drain_lookup idx r w g c Hg). destruct (w_chans w !! c) as [ch|]; [|done]. simpl. f_equal.
        rewrite wakers_cons.
        pose proof (wakers_perm _ _ (filter_perm due _ _ Hp)) as Hwp.
        rewrite (bool_decide_ext (c ∈ wakers (List.filter due r0))
                   (c ∈ wakers (List.filter due (drop (S idx) (gates (w_state w))))))
          by (by rewrite Hwp).
        rewrite (bool_decide_ext (c ∈ gate_wakers g ++ _) _ (elem_of_app _ _ _)), bool_decide_or.
        by destruct ch as [v []], (bool_decide (c ∈ gate_wakers g)),
          (bool_decide (c ∈ wakers (List.filter due (drop (S idx) (gates (w_state w)))))).
      * apply (IH (S idx) w). lia.
    + apply lookup_ge_None in Hg. rewrite drop_ge by lia. simpl. by destruct (_ !! c).
Qed.

(** *** Verdicts are final *)

Lemma verdict_not_parked w c r : chans_inv w -> verdict w c = Some r -> c ∉ wakers (gates (w_state w)).
Proof.
  intros Hc Hv Hin. destruct (ci_waiting w Hc c Hin) as (ch & Hch & Hn).
  unfold verdict in Hv. rewrite Hch in Hv. simpl in Hv. congruence.
Qed.

Lemma send_all_verdict r rel w c :
  c ∉ waker <$> rel -> verdict (send_all r rel w) c = verdict w c.
Proof.
  intros Hn. unfold verdict. rewrite send_all_lookup, bool_decide_false by done.
  by destruct (w_chans w !! c).
Qed.

Lemma gate_wakers_in gs i g c : gs !! i = Some g -> c ∈ gate_wakers g -> c ∈ wakers gs.
Proof.
  intros Hi Hc. destruct (wakers_insert gs i g g Hi) as (a & b & -> & _). set_solver.
Qed.

Lemma drain_verdict idx r r' w c : chans_inv w -> verdict w c = Some r -> verdict (drain_gate idx r' w) c = Some r.
Proof.
  intros Hc Hv. unfold drain_gate. destruct (_ !! idx) as [g|] eqn:Hg; [|done].
  rewrite send_all_verdict; [done|]. intros Hin.
  apply (verdict_not_parked w c r Hc Hv). by eapply gate_wakers_in.
Qed.

Lemma channel_verdict w c r : chans_inv w -> verdict w c = Some r ->
  w_chans (snd (channel w)) !! c = w_chans w !! c.
Proof.
  intros Hc Hv. simpl. apply lookup_insert_ne. intros <-. unfold verdict in Hv.
  destruct (w_chans w !! w_next w) as [ch|] eqn:E; [|done].
  apply mk_is_Some, (ci_alloc w Hc) in E. lia.
Qed.

Lemma check_verdict limits scope now w c r : chans_inv w -> verdict w c = Some r ->
  verdict (fst (check limits scope now w)) c = Some r.
Proof.
  intros Hc Hv. unfold check. destruct (position _ _) as [idx|]; [|done].
  pose proof (channel_verdict w c r Hc Hv) as Hch.
  assert (Hne : c <> w_next w).
  { intros ->. simpl in Hch. rewrite lookup_insert_eq in Hch. unfold verdict in Hv. by rewrite <- Hch in Hv. }
  destruct (_ !! idx); [|done]. destruct (_ || _); cbn [channel fst snd].
  - unfold verdict. rewrite send_lookup, bool_decide_false by done. simpl in *. rewrite Hch.
    unfold verdict in Hv. by destruct (w_chans w !! c).
  - unfold verdict. simpl in *. by rewrite Hch.
Qed.

Lemma apply_op_verdict limits o w c r : chans_inv w -> verdict w c = Some r ->
  verdict (apply_op limits o w) c = Some r.
Proof.
  intros Hc Hv.
  assert (Hdrain : forall w' due act fuel idx, chans_inv w' -> verdict w' c = Some r ->
    (forall i v, chans_inv v /\ verdict v c = Some r -> chans_inv (act i v) /\ verdict (act i v) c = Some r) ->
    verdict (fst (sweep due act fuel idx w')) c = Some r).
  { intros w' due act fuel idx Hc' Hv' Hact.
    by apply (sweep_preserves (fun v => chans_inv v /\ verdict v c = Some r)). }
  assert (Hd : forall i r' v, chans_inv v /\ verdict v c = Some r ->
    chans_inv (drain_gate i r' v) /\ verdict (drain_gate i r' v) c = Some r).
  { intros i r' v [Hcv Hvv]. split; [|by apply drain_verdict].
    unfold drain_gate. destruct (_ !! i) as [g|] eqn:Hg; [|done].
    apply (release_chans r' (parked g) []); [done| |constructor].
    by rewrite (wakers_perm _ _ (swap_remove_perm _ _ _ Hg)). }
  destruct o as [scope now|s|id now|gen now|now|now|k]; simpl.
  - by apply check_verdict.
  - unfold close. destruct (position _ _); [|done]. by destruct (_ !! _).
  - unfold open. destruct (position _ _); [|done]. destruct (_ !! _); [|done].
    destruct (_ <=? now); [by apply Hd|]. destruct (_ >? _); [done|by apply Hd].
  - unfold topology_applied. apply Hdrain; [destruct (_ >? _); [by destruct Hc|done]|by destruct (_ >? _)|].
    intros i v H. unfold open_gate. destruct (_ !! i); [by apply Hd|done].
  - unfold expire_due. apply Hdrain; [done|done|]. intros i v. apply Hd.
  - rewrite send_all_verdict; [done|]. intros Hin. apply (verdict_not_parked w c r Hc Hv).
    rewrite (filter_split_perm (is_closed w) (wakers (gates (w_state w)))).
    rewrite <- prune_wakers, (reject_wakers (max_wait limits) now). set_solver.
  - unfold disconnect. destruct (w_chans w !! k) as [ch|] eqn:Hk; [|done]. unfold verdict in *. simpl.
    rewrite lookup_insert. case_decide; [|done]. subst. by rewrite Hk in Hv.
Qed.

(** *** The overdue prefix of a queue in arrival order *)

Definition overdue (now wait : Z) (p : Parked) : bool := saturating_sub now (enqueued p) >? wait.

Lemma overdue_prefix_filter now wait ps :
  StronglySorted (fun a b => enqueued a <= enqueued b) ps ->
  overdue_prefix now wait ps =
  (List.filter (overdue now wait) ps, List.filter (fun p => negb (overdue now wait p)) ps).
Proof.
  induction 1 as [|p ps Hs IH Hall]; [done|]. cbn [overdue_prefix List.filter].
  fold (overdue now wait p). destruct (overdue now wait p) eqn:E; cbn [negb].
  - by rewrite IH.
  - assert (Hno : Forall (fun q => overdue now wait q = false) ps).
    { eapply Forall_impl; [exact Hall|]. intros q Hq. unfold overdue, saturating_sub in *. simpl in *. lia. }
    f_equal.
    + clear - Hno. induction Hno as [|q ps Hq _ IH]; simpl; [done|]. by rewrite Hq.
    + f_equal. clear - Hno. induction Hno as [|q ps Hq _ IH]; simpl; [done|]. rewrite Hq. simpl. by rewrite <- IH.
Qed.

Lemma reject_gate_filter wait now w g :
  StronglySorted (fun a b => enqueued a <= enqueued b) (parked g) ->
  reject_in_gate wait now w g =
  (mkGateState (spec g)
     (List.filter (fun p => negb (is_closed w (waker p)) && negb (overdue now wait p)) (parked g))
     (open_requested g),
   List.filter (fun p => negb (is_closed w (waker p)) && overdue now wait p) (parked g)).
Proof.
  intros Hs. unfold reject_in_gate. destruct (prune_shrinks w g) as [_ Hsub].
  rewrite overdue_prefix_filter by (by eapply sorted_sublist).
  simpl. by rewrite !filter_filter_b.
Qed.

(** *** Replans *)

(** What one method may do on channel [c]: keep its verdict, or send a replan to a
    session of a gate that is ready to open. *)
Definition replans_ready (now : Z) (ok : GateState -> Prop) (applied : Z) (w w' : World) : Prop :=
  (forall g, g ∈ gates (w_state w') -> g ∈ gates (w_state w)) /\
  forall c g, verdict w' c = Some (Replan g) -> verdict w c <> Some (Replan g) ->
    g = applied /\ exists gate, gate ∈ gates (w_state w) /\ c ∈ gate_wakers gate /\ ok gate /\
      now < gs_deadline (spec gate).

Lemma replans_ready_refl now ok applied w : replans_ready now ok applied w w.
Proof. split; [done|]. by intros c g Hv Hn. Qed.

Lemma replans_ready_trans now ok applied w1 w2 w3 :
  replans_ready now ok applied w1 w2 -> replans_ready now ok applied w2 w3 ->
  replans_ready now ok applied w1 w3.
Proof.
  intros [Hg1 Hv1] [Hg2 Hv2]. split; [eauto|]. intros c g Hv Hn.
  destruct (decide (verdict w2 c = Some (Replan g))) as [H2|H2]; [by apply Hv1|].
  destruct (Hv2 c g Hv H2) as (-> & gate & Hin & Hc & Hok & Hd). split; [done|]. exists gate. eauto.
Qed.

Lemma send_all_new_verdict r rel w c v :
  verdict (send_all r rel w) c = Some v -> verdict w c <> Some v -> v = r /\ c ∈ waker <$> rel.
Proof.
  unfold verdict. rewrite send_all_lookup. destruct (w_chans w !! c) as [ch|]; [|done]. simpl.
  destruct (bool_decide _ && _) eqn:E; [|done]. apply andb_true_iff in E as [E _].
  apply bool_decide_eq_true in E. intros [= ->] _. done.
Qed.

Lemma drain_replans now ok applied idx r w gate :
  gates (w_state w) !! idx = Some gate -> ok gate ->
  (forall g, r = Replan g -> g = applied /\ now < gs_deadline (spec gate)) ->
  replans_ready now ok applied w (drain_gate idx r w).
Proof.
  intros Hg Hok Hr. split.
  - destruct (drain_gates idx r w gate Hg) as [-> _]. intros g Hin.
    rewrite (swap_remove_perm _ _ _ Hg). by right.
  - intros c g Hv Hn. unfold drain_gate in Hv. rewrite Hg in Hv.
    destruct (send_all_new_verdict _ _ _ _ _ Hv Hn) as [Heq Hc].
    destruct (Hr g (eq_sym Heq)) as [-> Hd]. split; [done|]. exists gate.
    split; [by eapply list_elem_of_lookup_2|done].
Qed.

Lemma sweep_replans now due applied fuel idx w :
  replans_ready now (fun g => due g = true) applied w
    (fst (sweep due (fun i v => open_gate i applied now v) fuel idx w)).
Proof.
  revert idx w. induction fuel as [|fuel IH]; intros idx w; simpl; [apply replans_ready_refl|].
  destruct (gates (w_state w) !! idx) as [g|] eqn:Hg; [|apply replans_ready_refl].
  destruct (due g) eqn:Hd; [|apply IH].
  specialize (IH idx (open_gate idx applied now w)). destruct (sweep _ _ _ _ _) as [w' n]. simpl in *.
  eapply replans_ready_trans; [|exact IH]. unfold open_gate. rewrite Hg.
  apply (drain_replans _ _ _ _ _ _ g); [done|done|]. intros k Hk. unfold open_release in Hk.
  destruct (_ <=? now) eqn:E; simplify_eq. split; [done|lia].
Qed.

Lemma sweep_applied due act fuel idx w :
  (forall i v, applied_generation (w_state (act i v)) = applied_generation (w_state v)) ->
  applied_generation (w_state (fst (sweep due act fuel idx w))) = applied_generation (w_state w).
Proof.
  intros Hact. apply (sweep_preserves (fun v => applied_generation (w_state v) = applied_generation (w_state w)));
    [|done]. intros i v. by rewrite Hact.
Qed.

Lemma drain_applied i r v : applied_generation (w_state (drain_gate i r v)) = applied_generation (w_state v).
Proof.
  destruct (gates (w_state v) !! i) as [g|] eqn:Hg; [by apply (drain_gates i r v g)|].
  unfold drain_gate. by rewrite Hg.
Qed.

Lemma not_replan_op limits o w c g :
  match o with OpOpen _ _ | OpTopology _ _ => False | _ => True end ->
  verdict (apply_op limits o w) c = Some (Replan g) -> verdict w c = Some (Replan g).
Proof.
  intros Ho Hv. destruct o as [scope now|s|id now|gen now|now|now|k]; simpl in *; try done.
  - unfold check in Hv. destruct (position _ _) as [idx|]; [|done]. destruct (_ !! idx); [|done].
    destruct (_ || _); cbn [channel fst snd] in Hv; unfold verdict in *.
    + rewrite send_lookup in Hv. simpl in Hv. rewrite lookup_insert in Hv. case_decide.
      * subst. by rewrite bool_decide_true in Hv by done.
      * rewrite bool_decide_false in Hv by done. by destruct (w_chans w !! c).
    + simpl in Hv. rewrite lookup_insert in Hv. by case_decide.
  - unfold close in Hv. destruct (position _ _); [|done]. by destruct (_ !! _).
  - destruct (decide (verdict w c = Some (Replan g))) as [|Hn]; [done|exfalso].
    unfold expire_due, verdict in *. rewrite sweep_drain_lookup in Hv by lia.
    destruct (w_chans w !! c) as [ch|]; [|done]. simpl in *. by case_bool.
  - destruct (decide (verdict w c = Some (Replan g))) as [|Hn]; [done|exfalso].
    by destruct (send_all_new_verdict _ _ _ _ _ Hv Hn).
  - unfold disconnect in Hv. destruct (w_chans w !! k) as [ch|] eqn:Hk; [|done]. unfold verdict in *. simpl in Hv.
    rewrite lookup_insert in Hv. case_decide; [|done]. subst. by rewrite Hk.
Qed.

(** ** Properties *)

(** C24: no session is stranded and none is released twice. Every channel the engine
    handed out is either parked in the queue of exactly one gate with nothing sent on
    it, or parked nowhere and then it carries its one verdict or its client is gone;
    and a verdict, once sent, is never changed by any later operation. *)
Theorem no_session_stranded limits t w c :
  reach limits t w -> (c < w_next w)%nat ->
  (exists ch, w_chans w !! c = Some ch /\
    ((ch_value ch = None /\ exists i g, gates (w_state w) !! i = Some g /\ c ∈ gate_wakers g /\
        forall j g', gates (w_state w) !! j = Some g' -> c ∈ gate_wakers g' -> j = i) \/
     ((forall i g, gates (w_state w) !! i = Some g -> c ∉ gate_wakers g) /\
        (is_Some (ch_value ch) \/ ch_closed ch = true)))) /\
  (forall r o, verdict w c = Some r -> verdict (apply_op limits o w) c = Some r).
Proof.
  intros Hr Hlt. apply reach_inv in Hr as [_ Hc]. split; [|intros r o; by apply apply_op_verdict].
  apply (ci_alloc w Hc) in Hlt as [ch Hch]. exists ch. split; [done|].
  destruct (decide (c ∈ wakers (gates (w_state w)))) as [Hin|Hnin].
  - left. destruct (ci_waiting w Hc c Hin) as (ch' & Hch' & Hv). simplify_eq. split; [done|].
    unfold wakers in Hin. apply list_elem_of_In, in_concat in Hin as (l & Hl & Hcl).
    apply list_elem_of_In, list_elem_of_fmap in Hl as (g & -> & Hg).
    apply list_elem_of_lookup in Hg as [i Hi]. apply list_elem_of_In in Hcl. exists i, g.
    split_and!; [done|done|]. intros j g' Hj Hcj.
    pose proof (ci_nodup w Hc) as Hnd. unfold wakers in Hnd.
    destruct (decide (j = i)) as [|Hne]; [done|exfalso].
    eapply (NoDup_concat_disjoint (gate_wakers <$> gates (w_state w)) i j); [done| | |done|exact Hcl|exact Hcj];
      by rewrite list_lookup_fmap, ?Hi, ?Hj.
  - right. split.
    + intros i g Hi Hcg. apply Hnin. by eapply gate_wakers_in.
    + destruct (ch_value ch) eqn:Hv; [left; eauto|right].
      destruct (ch_closed ch) eqn:Hcl; [done|]. by destruct Hnin; eapply ci_live.
Qed.

(** a session is told to replan only by [open] or [topology_applied], only while
    its gate's deadline has not passed, and only with an applied topology generation
    that has reached the gate's minimum: buffered writes are never replayed against a
    pre-cutover shard map, and never after the cutover was aborted. *)
Theorem replan_only_after_cutover limits w o c g :
  verdict w c <> Some (Replan g) -> verdict (apply_op limits o w) c = Some (Replan g) ->
  exists gate now, gate ∈ gates (w_state w) /\ c ∈ gate_wakers gate /\
    now < gs_deadline (spec gate) /\ gs_min_generation (spec gate) <= g /\
    g = applied_generation (w_state (apply_op limits o w)) /\
    (o = OpOpen (gs_id (spec gate)) now \/
     exists generation, o = OpTopology generation now /\ open_requested gate = true).
Proof.
  intros Hn Hv.
  destruct o as [scope now|s|id now|gen now|now|now|k];
    try (exfalso; apply Hn; eapply not_replan_op; [|exact Hv]; exact I).
  - simpl in Hv |- *. unfold open in *. destruct (position _ _) as [i|] eqn:Hi; [|done].
    destruct (_ !! i) as [gate|] eqn:Hg; [|done]. pose proof (position_id_spec _ _ _ _ Hi Hg) as <-.
    destruct (_ <=? now) eqn:Ed.
    { unfold drain_gate in Hv. rewrite Hg in Hv.
      by destruct (send_all_new_verdict _ _ _ _ _ Hv Hn) as [? _]. }
    destruct (_ >? _) eqn:Em; [done|]. rewrite drain_applied.
    unfold drain_gate in Hv. rewrite Hg in Hv.
    destruct (send_all_new_verdict _ _ _ _ _ Hv Hn) as [[= ->] Hc].
    exists gate, now. split_and!; [by eapply list_elem_of_lookup_2|done|lia|lia|done|by left].
  - simpl in Hv |- *. unfold topology_applied in *.
    set (w1 := if gen >? applied_generation (w_state w) then set_applied gen w else w) in *.
    assert (Hg1 : gates (w_state w1) = gates (w_state w)) by (unfold w1; by destruct (_ >? _)).
    assert (Hv1 : verdict w1 c = verdict w c) by (unfold w1; by destruct (_ >? _)).
    edestruct (sweep_replans now) as [_ Hs]. destruct (Hs c g Hv) as (-> & gate & Hin & Hc & Hdue & Hd).
    { by rewrite Hv1. }
    apply andb_true_iff in Hdue as [Hopen Hmin]. rewrite Hg1 in Hin.
    rewrite sweep_applied by (intros i v; unfold open_gate; destruct (_ !! i); [apply drain_applied|done]).
    exists gate, now. split_and!; [done|done|done|lia|done|]. right. by exists gen.
Qed.

(** [expire_due] removes exactly the gates whose deadline has passed, reports how
    many, sends [Expired] to every still connected session parked behind one of them,
    and touches no other channel. *)
Theorem expire_due_spec now w :
  let '(w', n) := expire_due now w in
  let due g := gs_deadline (spec g) <=? now in
  gates (w_state w') ≡ₚ List.filter (fun g => negb (due g)) (gates (w_state w)) /\
  n = length (List.filter due (gates (w_state w))) /\
  forall c ch, w_chans w !! c = Some ch ->
    w_chans w' !! c =
      Some (if bool_decide (c ∈ wakers (List.filter due (gates (w_state w)))) && negb (ch_closed ch)
            then mkChan (Some Expired) false else ch).
Proof.
  unfold expire_due. set (due := fun g => gs_deadline (spec g) <=? now).
  pose proof (sweep_gates due (fun i v => drain_gate i Expired v) (length (gates (w_state w))) 0 w) as Hg.
  pose proof (fun c => sweep_drain_lookup due Expired (length (gates (w_state w))) 0 w c ltac:(lia)) as Hch.
  destruct (sweep _ _ _ _ _) as [w' n]. simpl in Hch.
  destruct Hg as [(r & -> & Hr) Hn]; [intros i v g Hi; by apply (drain_gates i Expired v g)|lia|].
  rewrite drop_0 in Hr, Hn. split_and!; [by simpl|done|].
  intros c ch Hc. by rewrite Hch, Hc.
Qed.

Lemma reject_overdue_gates limits t now w :
  gates_inv limits t (gates (w_state w)) ->
  reject_in_gate (max_wait limits) now w <$> gates (w_state w) =
  (fun g => (mkGateState (spec g)
      (List.filter (fun p => negb (is_closed w (waker p)) && negb (overdue now (max_wait limits) p)) (parked g))
      (open_requested g),
    List.filter (fun p => negb (is_closed w (waker p)) && overdue now (max_wait limits) p) (parked g)))
  <$> gates (w_state w).
Proof.
  intros [_ _ _ Hfifo]. apply list_fmap_ext. intros i g Hi.
  apply reject_gate_filter. by apply (Forall_lookup_1 _ _ _ _ Hfifo Hi).
Qed.

(** after [reject_overdue_sessions] in a reachable state, the sessions still parked
    are exactly the connected ones that have waited at most [max_wait]; every connected
    session that has waited longer, wherever it is queued, has been told [Rejected], and
    the number returned is the number of those. *)
Theorem reject_overdue_spec limits t now w :
  reach limits t w ->
  let '(w', n) := reject_overdue_sessions limits now w in
  let live p := negb (is_closed w (waker p)) in
  let over p := saturating_sub now (enqueued p) >? max_wait limits in
  (parked <$> gates (w_state w')) =
    (fun g => List.filter (fun p => live p && negb (over p)) (parked g)) <$> gates (w_state w) /\
  (forall g p, g ∈ gates (w_state w) -> p ∈ parked g -> live p = true -> over p = true ->
     verdict w' (waker p) = Some Rejected) /\
  n = length (List.filter (fun p => live p && over p) (concat (parked <$> gates (w_state w)))).
Proof.
  intros [Hg Hc]%reach_inv. unfold reject_overdue_sessions.
  rewrite (reject_overdue_gates limits t now w Hg). set (rs := _ <$> gates (w_state w)).
  destruct (send_all_frame Rejected (concat (snd <$> rs)) (set_gates (fst <$> rs) w)) as [-> _]. simpl.
  assert (Hover : concat (snd <$> rs) =
    List.filter (fun p => negb (is_closed w (waker p)) && overdue now (max_wait limits) p)
      (concat (parked <$> gates (w_state w)))).
  { unfold rs. clear. induction (gates (w_state w)) as [|g gs IH]; [done|].
    rewrite !fmap_cons. cbn [concat snd]. rewrite List.filter_app. f_equal. exact IH. }
  split_and!.
  - unfold rs. by rewrite <- !list_fmap_compose.
  - intros g p Hgin Hp Hl Ho. unfold verdict. rewrite send_all_lookup. simpl.
    assert (Hin : p ∈ concat (snd <$> rs)).
    { rewrite Hover, elem_of_filter_b. split; [|unfold overdue; by rewrite Hl, Ho].
      apply list_elem_of_lookup in Hgin as [i Hi]. eapply (elem_of_concat_lookup _ i); [|exact Hp].
      by rewrite list_lookup_fmap, Hi. }
    apply (list_elem_of_fmap_2 waker) in Hin as Hw. rewrite bool_decide_true by done.
    unfold is_closed in Hl. destruct (w_chans w !! waker p) as [ch|]; [|done]. simpl. by rewrite Hl.
  - by rewrite Hover.
Qed.

(** C38: the bounds of the engine. In every reachable state the gate ids are distinct, no gate
    holds more sessions than [max_sessions], all gates together no more than
    [max_total_sessions], and every queue is in arrival order; hence, although
    [reject_overdue_sessions] looks only at the head of each queue, no session that it leaves
    parked has waited longer than [max_wait], and no gate that [expire_due] leaves is past its
    deadline. *)
Theorem engine_bounds limits t w :
  reach limits t w ->
  NoDup ((fun g => gs_id (spec g)) <$> gates (w_state w)) /\
  Forall (fun g => (length (parked g) <= max_sessions limits)%nat /\
                   StronglySorted (fun a b => enqueued a <= enqueued b) (parked g)) (gates (w_state w)) /\
  (total_parked (w_state w) <= max_total_sessions limits)%nat /\
  (forall now g p, g ∈ gates (w_state (fst (reject_overdue_sessions limits now w))) -> p ∈ parked g ->
     saturating_sub now (enqueued p) <= max_wait limits) /\
  forall now g, g ∈ gates (w_state (fst (expire_due now w))) -> now < gs_deadline (spec g).
Proof.
  intros Hr. pose proof Hr as [[Hid Hcap Htot Hfifo] _]%reach_inv. rewrite total_parked_wakers. split_and!; [done| |done| |].
  - apply Forall_and. split; [done|]. eapply Forall_impl; [exact Hfifo|]. naive_solver.
  - intros now g p Hg Hp. pose proof (reject_overdue_spec limits t now w Hr) as Hs.
    destruct (reject_overdue_sessions limits now w) as [w' n]. destruct Hs as [Hs _]. cbn [fst] in Hg.
    apply (list_elem_of_fmap_2 parked) in Hg. rewrite Hs in Hg. apply list_elem_of_fmap in Hg as (g0 & Heq & _).
    rewrite Heq in Hp. apply elem_of_filter_b in Hp as [_ Hp]. apply andb_true_iff in Hp as [_ Hp%negb_true_iff]. lia.
  - intros now g Hg. pose proof (expire_due_spec now w) as Hs. destruct (expire_due now w) as [w' n]. destruct Hs as [Hs _].
    cbn [fst] in Hg. rewrite Hs in Hg. apply elem_of_filter_b in Hg as [_ Hg%negb_true_iff]. lia.
Qed.

(** ** Witnesses *)

Definition demo_limits : GateLimits := mkGateLimits 2 3 10.
Definition demo_spec : GateSpec := mkGateSpec "g" WritesOnly (mkGateMatch true [] []) 100 7.
Definition demo_write : StatementScope := mkScope ["public.orders"] [] true.

(** A gate closed, a write parked behind it at 5. *)
Definition demo_parked : World :=
  apply_op demo_limits (OpCheck demo_write 5) (apply_op demo_limits (OpClose demo_spec) init).

Lemma demo_parked_reach : reach demo_limits 5 demo_parked.
Proof.
  apply (reach_step demo_limits 0 _ (OpCheck demo_write 5)); [|simpl; lia].
  apply (reach_step demo_limits 0 _ (OpClose demo_spec)); [constructor|simpl; lia].
Qed.

Lemma engine_bounds_witness : (total_parked (w_state demo_parked) <= max_total_sessions demo_limits)%nat /\
  forall g, g ∈ gates (w_state (fst (expire_due 99 demo_parked))) -> 99 < gs_deadline (spec g).
Proof.
  destruct (engine_bounds demo_limits 5 demo_parked demo_parked_reach) as (_ & _ & Ht & _ & Hd). split; [exact Ht|exact (Hd 99)].
Defined.

Lemma no_session_stranded_witness :
  (exists ch, w_chans demo_parked !! 0%nat = Some ch /\
    ((ch_value ch = None /\ exists i g, gates (w_state demo_parked) !! i = Some g /\ 0%nat ∈ gate_wakers g /\
        forall j g', gates (w_state demo_parked) !! j = Some g' -> 0%nat ∈ gate_wakers g' -> j = i) \/
     ((forall i g, gates (w_state demo_parked) !! i = Some g -> 0%nat ∉ gate_wakers g) /\
        (is_Some (ch_value ch) \/ ch_closed ch = true)))) /\
  (forall r o, verdict demo_parked 0 = Some r -> verdict (apply_op demo_limits o demo_parked) 0 = Some r).
Proof.
  apply (no_session_stranded demo_limits 5 demo_parked 0); [apply demo_parked_reach|vm_compute; lia].
Defined.

Definition demo_armed : World := apply_op demo_limits (OpOpen "g" 6) demo_parked.

Lemma replan_only_after_cutover_witness :
  exists gate now, gate ∈ gates (w_state demo_armed) /\ 0%nat ∈ gate_wakers gate /\
    now < gs_deadline (spec gate) /\ gs_min_generation (spec gate) <= 8 /\
    8 = applied_generation (w_state (apply_op demo_limits (OpTopology 8 9) demo_armed)) /\
    (OpTopology 8 9 = OpOpen (gs_id (spec gate)) now \/
     exists generation, OpTopology 8 9 = OpTopology generation now /\ open_requested gate = true).
Proof.
  apply (replan_only_after_cutover demo_limits demo_armed (OpTopology 8 9) 0 8).
  - vm_compute. discriminate.
  - vm_compute. reflexivity.
Defined.

Lemma reject_overdue_spec_witness :
  let '(w', n) := reject_overdue_sessions demo_limits 20 demo_parked in
  let live p := negb (is_closed demo_parked (waker p)) in
  let over p := saturating_sub 20 (enqueued p) >? max_wait demo_limits in
  (parked <$> gates (w_state w')) =
    (fun g => List.filter (fun p => live p && negb (over p)) (parked g)) <$> gates (w_state demo_parked) /\
  (forall g p, g ∈ gates (w_state demo_parked) -> p ∈ parked g -> live p = true -> over p = true ->
     verdict w' (waker p) = Some Rejected) /\
  n = length (List.filter (fun p => live p && over p) (concat (parked <$> gates (w_state demo_parked)))).
Proof. apply (reject_overdue_spec demo_limits 5 20 demo_parked). apply demo_parked_reach. Defined.
