(* ===== verification/Seq.v ===== *)
(** * Global sequences: the block cache and its reservation backend

    [src/crates/pgshard-seq/src/lib.rs] (the in-memory allocator over reserved
    blocks) and [src/crates/pgshard-router/src/sequence.rs] (the reservation
    against the [pgshard.sequences] row). Many threads on many routers run
    [next_id] at once; each critical section of the mutex is one step of a
    transition system, and the reservation, which runs outside the lock, is a step
    of its own. *)

From S2P Require Import Prelude Rust.

Open Scope Z_scope.

(** ** The allocator *)

Inductive SeqError :=
| UnknownSequence (sequence : string)
| Backend (message : string)
| Exhausted (sequence : string).

Record Block := mkBlock { b_next : Z; b_end : Z }.

Module Block.

Definition new (start size : Z) : option Block :=
  e ← checked_add_i64 start size; Some (mkBlock start e).

Definition empty : Block := mkBlock 0 0.

Definition take (b : Block) : option (Z * Block) :=
  if b_next b <? b_end b then Some (b_next b, mkBlock (b_next b + 1) (b_end b)) else None.

Definition remaining (b : Block) : Z := Z.max (b_end b - b_next b) 0.

End Block.

Record SeqState := mkSeqState { ss_block : Block; ss_refill_at : Z; ss_reserving : bool }.

(** The mutex-guarded map of one router. *)
#[global] Abbreviation Cache := (gmap string SeqState).

(** The outcome of one turn of the loop of [next_id] under the lock. *)
Inductive Turn :=
| Served (id : Z)
| Wait
| Claimed.

(** The top of the loop: serve from the block, wait for the reservation in flight,
    or take the single-flight claim. *)
Definition next_id_turn (cache : Cache) (sequence : string) : Cache * Turn :=
  match cache !! sequence with
  | Some entry =>
      match Block.take (ss_block entry) with
      | Some (id, block) =>
          (<[sequence := mkSeqState block (ss_refill_at entry) (ss_reserving entry)]> cache, Served id)
      | None =>
          if ss_reserving entry then (cache, Wait)
          else (<[sequence := mkSeqState (ss_block entry) (ss_refill_at entry) true]> cache, Claimed)
      end
  | None => (<[sequence := mkSeqState Block.empty 0 true]> cache, Claimed)
  end.

(** After [reserve] returned: relock, clear the claim, install the block and serve
    its first id. [None] for the entry is the panic of [expect]. *)
Definition next_id_finish (cache : Cache) (sequence : string) (r : result SeqError (Z * Z))
    : Cache * result SeqError Z :=
  match cache !! sequence with
  | None => (cache, Err (Backend "reservation claim present"))
  | Some entry =>
      let released := <[sequence := mkSeqState (ss_block entry) (ss_refill_at entry) false]> cache in
      match r with
      | Err e => (released, Err e)
      | Ok (start, size) =>
          if size <=? 0 then (released, Err (Backend "reserved a non-positive block size"))
          else match Block.new start size with
          | None => (released, Err (Exhausted sequence))
          | Some block =>
              match Block.take block with
              | None => (released, Err (Exhausted sequence))
              | Some (id, block') =>
                  (<[sequence := mkSeqState block' (Z.max (size / 5) 1) false]> cache, Ok id)
              end
          end
      end
  end.

(** [Drop for ReservationClaim] on an unwind: clear the claim, wake the waiters. *)
Definition claim_drop (cache : Cache) (sequence : string) : Cache :=
  match cache !! sequence with
  | Some entry => <[sequence := mkSeqState (ss_block entry) (ss_refill_at entry) false]> cache
  | None => cache
  end.

Definition needs_refill (cache : Cache) (sequence : string) : bool :=
  match cache !! sequence with
  | Some s => negb (ss_reserving s) && (Block.remaining (ss_block s) <=? ss_refill_at s)
  | None => false
  end.

(** ** The contract of [BlockReserver]

    [step db router sequence db' r]: a call of [reserve] on a router takes the
    authoritative store from [db] to [db'] and returns [r]. An implementation
    exhibits the ids it has [granted]: a successful call grants a range of ids that
    were not, and nothing is ever un-granted. *)
Class BlockReserver {DB : Type} (step : DB -> nat -> string -> DB -> result SeqError (Z * Z) -> Prop) := {
  granted : DB -> string -> Z -> Prop;
  reserve_fresh db router s db' start size id :
    step db router s db' (Ok (start, size)) -> start <= id < start + size ->
    ~ granted db s id /\ granted db' s id;
  reserve_mono db router s db' r s' id :
    step db router s db' r -> granted db s' id -> granted db' s' id;
}.

(** ** The Postgres backend *)

(** A row of [pgshard.sequences]. *)
Record SeqRow := mkSeqRow { row_next_id : Z; row_block_size : Z }.

(** The store: the table, and which routers hold a live connection to it. *)
Record Store := mkStore { st_rows : gmap string SeqRow; st_connected : gset nat }.

(** What the network and the server do with a call. A query can fail before or
    after the server committed it. *)
Record NetOutcome := mkNetOutcome { connect_ok : bool; query_ok : bool; committed : bool }.

(** [RESERVE_SQL] on the matching row; [None] is PostgreSQL's "bigint out of
    range", which aborts the statement. *)
Definition reserve_sql (row : SeqRow) : option SeqRow :=
  n ← checked_add_i64 (row_next_id row) (if row_block_size row >? 0 then row_block_size row else 0);
  Some (mkSeqRow n (row_block_size row)).

Definition drop_client (router : nat) (db : Store) : Store :=
  mkStore (st_rows db) (st_connected db ∖ {[router]}).

(** [PgBlockReserver::reserve]. *)
Definition reserve (net : NetOutcome) (router : nat) (sequence : string) (db : Store)
    : Store * result SeqError (Z * Z) :=
  if negb (bool_decide (router ∈ st_connected db)) && negb (connect_ok net) then
    (db, Err (Backend "connect"))
  else
    let db := mkStore (st_rows db) ({[router]} ∪ st_connected db) in
    match st_rows db !! sequence with
    | None =>
        if query_ok net then (db, Err (UnknownSequence sequence))
        else (drop_client router db, Err (Backend "query"))
    | Some row =>
        match reserve_sql row with
        | None => (drop_client router db, Err (Backend "bigint out of range"))
        | Some row' =>
            let db' := mkStore (<[sequence := row']> (st_rows db)) (st_connected db) in
            if query_ok net then
              if row_block_size row' <=? 0 then (db', Err (Backend "non-positive block_size"))
              else (db', Ok (row_next_id row' - row_block_size row', row_block_size row'))
            else (drop_client router (if committed net then db' else db), Err (Backend "query"))
        end
    end.

Definition pg_step (db : Store) (router : nat) (s : string) (db' : Store) (r : result SeqError (Z * Z)) : Prop :=
  exists net, reserve net router s db = (db', r).

(** ** The system: threads of many routers over one store *)

(** Where a thread inside [next_id] is, outside the lock: about to call [reserve],
    or back from it. A thread at the top of the loop holds no state. *)
Inductive Pc :=
| AtReserve
| Returned (r : result SeqError (Z * Z)).

Record Thread := mkThread { th_router : nat; th_sequence : string; th_pc : Pc }.

Record System (DB : Type) := mkSystem {
  sys_db : DB;
  sys_caches : gmap nat Cache;
  sys_threads : gmap nat Thread;
  sys_issued : list (string * Z);
}.
Arguments mkSystem {DB} _ _ _ _.
Arguments sys_db {DB} _.
Arguments sys_caches {DB} _.
Arguments sys_threads {DB} _.
Arguments sys_issued {DB} _.

Definition cache_of {DB} (y : System DB) (router : nat) : Cache := default ∅ (sys_caches y !! router).

Section system.
Context {DB : Type} (step : DB -> nat -> string -> DB -> result SeqError (Z * Z) -> Prop).

Inductive sys_step : System DB -> System DB -> Prop :=
| step_served y router s cache' id :
    next_id_turn (cache_of y router) s = (cache', Served id) ->
    sys_step y (mkSystem (sys_db y) (<[router := cache']> (sys_caches y)) (sys_threads y)
                  (sys_issued y ++ [(s, id)]))
| step_claim y router s cache' t :
    next_id_turn (cache_of y router) s = (cache', Claimed) ->
    sys_threads y !! t = None ->
    sys_step y (mkSystem (sys_db y) (<[router := cache']> (sys_caches y))
                  (<[t := mkThread router s AtReserve]> (sys_threads y)) (sys_issued y))
| step_reserve y t router s db' r :
    sys_threads y !! t = Some (mkThread router s AtReserve) ->
    step (sys_db y) router s db' r ->
    sys_step y (mkSystem db' (sys_caches y) (<[t := mkThread router s (Returned r)]> (sys_threads y))
                  (sys_issued y))
| step_finish_ok y t router s r cache' id :
    sys_threads y !! t = Some (mkThread router s (Returned r)) ->
    next_id_finish (cache_of y router) s r = (cache', Ok id) ->
    sys_step y (mkSystem (sys_db y) (<[router := cache']> (sys_caches y)) (delete t (sys_threads y))
                  (sys_issued y ++ [(s, id)]))
| step_finish_err y t router s r cache' e :
    sys_threads y !! t = Some (mkThread router s (Returned r)) ->
    next_id_finish (cache_of y router) s r = (cache', Err e) ->
    sys_step y (mkSystem (sys_db y) (<[router := cache']> (sys_caches y)) (delete t (sys_threads y))
                  (sys_issued y))
| step_panic y t router s db' r :
    sys_threads y !! t = Some (mkThread router s AtReserve) ->
    step (sys_db y) router s db' r ->
    sys_step y (mkSystem db' (<[router := claim_drop (cache_of y router) s]> (sys_caches y))
                  (delete t (sys_threads y)) (sys_issued y))
| step_restart y router :
    sys_step y (mkSystem (sys_db y) (delete router (sys_caches y))
                  (filter (fun p => th_router p.2 <> router) (sys_threads y)) (sys_issued y)).

Inductive sys_reach (db0 : DB) : System DB -> Prop :=
| sys_init : sys_reach db0 (mkSystem db0 ∅ ∅ [])
| sys_next y y' : sys_reach db0 y -> sys_step y y' -> sys_reach db0 y'.
End system.

(** ** Who holds an id *)

Definition in_block (b : Block) (id : Z) : Prop := b_next b <= id < b_end b.

Inductive Holder := HCache (router : nat) | HThread (t : nat).

#[export] Instance Holder_eq_dec : EqDecision Holder.
Proof. solve_decision. Defined.

Definition holds {DB} (y : System DB) (h : Holder) (s : string) (id : Z) : Prop :=
  match h with
  | HCache router => exists e, cache_of y router !! s = Some e /\ in_block (ss_block e) id
  | HThread t => exists router start size,
      sys_threads y !! t = Some (mkThread router s (Returned (Ok (start, size)))) /\
      start <= id < start + size
  end.

(** Every id that was handed out, or can still be, was granted by the store; no id
    is in two places; none that was handed out is still held. *)
Record ids_inv {DB} `{BlockReserver DB step} (y : System DB) : Prop := {
  ii_held : forall h s id, holds y h s id -> granted (sys_db y) s id;
  ii_issued : forall s id, (s, id) ∈ sys_issued y -> granted (sys_db y) s id;
  ii_disjoint : forall h1 h2 s id, holds y h1 s id -> holds y h2 s id -> h1 = h2;
  ii_fresh : forall h s id, (s, id) ∈ sys_issued y -> ~ holds y h s id;
  ii_nodup : NoDup (sys_issued y);
}.

(** The single-flight claim: the [reserving] flag of an entry is set exactly while
    one thread is reserving for it, and the entry's block is then drained. *)
Record flight_inv {DB} (y : System DB) : Prop := {
  fi_one : forall t1 t2 th1 th2, sys_threads y !! t1 = Some th1 -> sys_threads y !! t2 = Some th2 ->
    th_router th1 = th_router th2 -> th_sequence th1 = th_sequence th2 -> t1 = t2;
  fi_claim : forall t th, sys_threads y !! t = Some th ->
    exists e, cache_of y (th_router th) !! th_sequence th = Some e /\ ss_reserving e = true /\
              Block.take (ss_block e) = None;
  fi_held : forall (router : nat) (s : string) (e : SeqState), cache_of y router !! s = Some e -> ss_reserving e = true ->
    exists t th, sys_threads y !! t = Some th /\ th_router th = router /\ th_sequence th = s;
}.

(** ** Lemmas *)

Lemma cache_of_insert {DB} (y : System DB) (db : DB) router cache ths iss r :
  cache_of (mkSystem db (<[router := cache]> (sys_caches y)) ths iss) r =
  if decide (router = r) then cache else cache_of y r.
Proof. unfold cache_of. simpl. rewrite lookup_insert. by case_decide. Qed.

Lemma take_spec b id b' : Block.take b = Some (id, b') ->
  id = b_next b /\ b' = mkBlock (b_next b + 1) (b_end b) /\ in_block b id.
Proof. unfold Block.take, in_block. case_bool; [|done]. intros [= <- <-]. split_and!; [done|done|lia|lia]. Qed.

Lemma take_None b : Block.take b = None <-> forall id, ~ in_block b id.
Proof.
  unfold Block.take, in_block. destruct (_ <? _) eqn:E; split; intros H; try done.
  - exfalso. apply (H (b_next b)). lia.
  - intros id Hid. lia.
Qed.

Lemma turn_served cache s cache' id : next_id_turn cache s = (cache', Served id) ->
  exists e, cache !! s = Some e /\ in_block (ss_block e) id /\
    cache' = <[s := mkSeqState (mkBlock (id + 1) (b_end (ss_block e))) (ss_refill_at e) (ss_reserving e)]> cache /\
    id = b_next (ss_block e).
Proof.
  unfold next_id_turn. destruct (cache !! s) as [e|] eqn:He; [|done].
  destruct (Block.take (ss_block e)) as [[i b]|] eqn:Ht.
  - intros [= <- <-]. apply take_spec in Ht as (-> & -> & Hin). exists e. by repeat split; apply Hin.
  - by destruct (ss_reserving e).
Qed.

Lemma turn_claimed cache s cache' : next_id_turn cache s = (cache', Claimed) ->
  exists b n, cache' = <[s := mkSeqState b n true]> cache /\ Block.take b = None /\
    (cache !! s = None \/ cache !! s = Some (mkSeqState b n false)).
Proof.
  unfold next_id_turn. destruct (cache !! s) as [[b n rv]|] eqn:He.
  - simpl. destruct (Block.take b) as [[i b']|] eqn:Ht; [done|]. destruct rv; [done|].
    intros [= <-]. exists b, n. auto.
  - intros [= <-]. exists Block.empty, 0. auto.
Qed.

Lemma finish_ok cache s r cache' id : next_id_finish cache s r = (cache', Ok id) ->
  exists start size e, r = Ok (start, size) /\ 0 < size /\ id = start /\ cache !! s = Some e /\
    cache' = <[s := mkSeqState (mkBlock (start + 1) (start + size)) (Z.max (size / 5) 1) false]> cache.
Proof.
  unfold next_id_finish. destruct (cache !! s) as [e|] eqn:He; [|done].
  destruct r as [[start size]|e0]; [|done]. destruct (size <=? 0) eqn:Es; [done|].
  unfold Block.new, checked_add_i64. destruct (_ && _); simpl; [|done].
  unfold Block.take. simpl. destruct (_ <? _); [|done]. intros [= <- <-].
  exists start, size, e. split_and!; try done. lia.
Qed.

Lemma finish_err cache s r cache' e0 : next_id_finish cache s r = (cache', Err e0) ->
  cache' = match cache !! s with
           | Some e => <[s := mkSeqState (ss_block e) (ss_refill_at e) false]> cache
           | None => cache end.
Proof.
  unfold next_id_finish. destruct (cache !! s) as [e|] eqn:He; [|by intros [= <- _]].
  destruct r as [[start size]|e1]; [|by intros [= <- _]]. destruct (size <=? 0); [by intros [= <- _]|].
  destruct (Block.new _ _) as [b|]; [|by intros [= <- _]].
  destruct (Block.take b) as [[i b']|]; [done|by intros [= <- _]].
Qed.

Section ids.
Context {DB : Type} {step : DB -> nat -> string -> DB -> result SeqError (Z * Z) -> Prop}.
Context `{!BlockReserver step}.

(** Ids only move between holders, and one of them may be handed out. *)
Lemma ids_move (y y' : System DB) (src : Holder -> string -> Holder) :
  ids_inv (step := step) y -> (forall s id, granted (sys_db y) s id -> granted (sys_db y') s id) ->
  (forall h s id, holds y' h s id -> holds y (src h s) s id) ->
  (forall h1 h2 s id, holds y' h1 s id -> holds y' h2 s id -> src h1 s = src h2 s -> h1 = h2) ->
  (sys_issued y' = sys_issued y \/
   exists s id h0, sys_issued y' = sys_issued y ++ [(s, id)] /\ holds y h0 s id /\ forall h, ~ holds y' h s id) ->
  ids_inv (step := step) y'.
Proof.
  intros [Hheld Hiss Hdisj Hfresh Hnd] Hg Hsrc Hinj Hout. split.
  - eauto.
  - intros s id Hin. destruct Hout as [Heq|(s0 & id0 & h0 & Heq & Hh & _)]; rewrite Heq in Hin; [eauto|].
    apply elem_of_app in Hin as [?|Hin]; [eauto|]. apply list_elem_of_singleton in Hin as [= -> ->]. eauto.
  - intros h1 h2 s id H1 H2. apply (Hinj h1 h2 s id); [done|done|]. eauto.
  - intros h s id Hin Hh. destruct Hout as [Heq|(s0 & id0 & h0 & Heq & Hh0 & Hno)]; rewrite Heq in Hin.
    + eapply Hfresh; eauto.
    + apply elem_of_app in Hin as [Hin|Hin]; [eapply Hfresh; eauto|].
      apply list_elem_of_singleton in Hin as [= -> ->]. by eapply Hno.
  - destruct Hout as [->|(s0 & id0 & h0 & -> & Hh0 & _)]; [done|].
    apply NoDup_app. split_and!; [done| |apply NoDup_singleton].
    intros [s id] Hin Hs. apply list_elem_of_singleton in Hs as [= -> ->]. by eapply Hfresh.
Qed.

(** The caches of [y'] hold at most what those of [y] do. *)
Lemma ids_shrink (y y' : System DB) :
  ids_inv (step := step) y -> (forall s id, granted (sys_db y) s id -> granted (sys_db y') s id) ->
  sys_issued y' = sys_issued y ->
  (forall h s id, holds y' h s id -> holds y h s id) -> ids_inv (step := step) y'.
Proof.
  intros Hi Hg Heq Hh. apply (ids_move y y' (fun h _ => h)); [done|done|done| |by left]. by intros.
Qed.

Lemma holds_cache_insert (y : System DB) (db : DB) router s e ths iss r s' id :
  holds (mkSystem db (<[router := <[s := e]> (cache_of y router)]> (sys_caches y)) ths iss) (HCache r) s' id <->
  if decide (r = router /\ s' = s) then in_block (ss_block e) id else holds y (HCache r) s' id.
Proof.
  unfold holds. rewrite cache_of_insert. destruct (decide (router = r)) as [->|Hr].
  - rewrite lookup_insert. destruct (decide (s = s')) as [->|Hs].
    + rewrite decide_True by done. naive_solver.
    + rewrite decide_False by naive_solver. done.
  - rewrite decide_False by naive_solver. done.
Qed.

Lemma ids_served (y : System DB) router s cache' id :
  ids_inv (step := step) y -> next_id_turn (cache_of y router) s = (cache', Served id) ->
  ids_inv (step := step) (mkSystem (sys_db y) (<[router := cache']> (sys_caches y)) (sys_threads y)
                            (sys_issued y ++ [(s, id)])).
Proof.
  intros Hi (e & He & Hin & -> & ->)%turn_served.
  assert (Hh : holds y (HCache router) s (b_next (ss_block e))) by (exists e; done).
  assert (Hsub : forall h s' id', holds (mkSystem (sys_db y)
      (<[router := <[s := mkSeqState (mkBlock (b_next (ss_block e) + 1) (b_end (ss_block e))) (ss_refill_at e)
          (ss_reserving e)]> (cache_of y router)]> (sys_caches y)) (sys_threads y)
      (sys_issued y ++ [(s, b_next (ss_block e))])) h s' id' -> holds y h s' id').
  { intros [r|t] s' id'; [|done]. rewrite holds_cache_insert. case_decide as Hd; [|done].
    destruct Hd as [-> ->]. unfold in_block. simpl. intros Hb. exists e. split; [done|].
    unfold in_block in *. lia. }
  apply (ids_move y _ (fun h _ => h)); [done|done|done|by intros|].
  right. exists s, (b_next (ss_block e)), (HCache router). split_and!; [done|done|].
  intros h Hh'. pose proof (ii_disjoint y Hi _ _ _ _ (Hsub _ _ _ Hh') Hh) as ->.
  rewrite holds_cache_insert, decide_True in Hh' by done. unfold in_block in Hh'. simpl in Hh'. lia.
Qed.

Lemma ids_finish (y : System DB) t router s r cache' id :
  ids_inv (step := step) y -> sys_threads y !! t = Some (mkThread router s (Returned r)) ->
  next_id_finish (cache_of y router) s r = (cache', Ok id) ->
  ids_inv (step := step) (mkSystem (sys_db y) (<[router := cache']> (sys_caches y)) (delete t (sys_threads y))
                            (sys_issued y ++ [(s, id)])).
Proof.
  intros Hi Ht (start & size & e & -> & Hsize & -> & He & ->)%finish_ok.
  assert (Hh : forall i, start <= i < start + size -> holds y (HThread t) s i)
    by (intros i Hb; exists router, start, size; done).
  set (src := fun h s' => if decide (h = HCache router /\ s' = s) then HThread t else h).
  set (y' := mkSystem _ _ _ _).
  assert (Hsrc : forall h s' i, holds y' h s' i -> holds y (src h s') s' i).
  { intros [r|t'] s' i; unfold src, y'.
    - rewrite holds_cache_insert. case_decide as Hd.
      + destruct Hd as [-> ->]. rewrite decide_True by done. unfold in_block. simpl. intros. apply Hh. lia.
      + rewrite decide_False by naive_solver. done.
    - rewrite decide_False by naive_solver. intros (r0 & st & sz & Hl & Hb). simpl in Hl.
      apply lookup_delete_Some in Hl as [_ Hl]. exists r0, st, sz. done. }
  assert (Hthread : forall s' i, ~ holds y' (HThread t) s' i).
  { intros s' i (r0 & st & sz & Hl & _). simpl in Hl. by rewrite lookup_delete_eq in Hl. }
  apply (ids_move y y' src); [done|done|done| |].
  - intros h1 h2 s' i H1 H2. unfold src. do 2 case_decide; naive_solver.
  - right. exists s, start, (HThread t). split_and!; [done|apply Hh; lia|].
    intros h Hh'. pose proof (ii_disjoint y Hi _ _ _ _ (Hsrc _ _ _ Hh') (Hh start ltac:(lia))) as Heq.
    unfold src in Heq. case_decide as Hd; [|subst h; by apply (Hthread s start)].
    destruct Hd as [-> _]. unfold y' in Hh'. rewrite holds_cache_insert, decide_True in Hh' by done.
    unfold in_block in Hh'. simpl in Hh'. lia.
Qed.

Lemma ids_reserve (y : System DB) t router s db' r :
  ids_inv (step := step) y -> sys_threads y !! t = Some (mkThread router s AtReserve) ->
  step (sys_db y) router s db' r ->
  ids_inv (step := step) (mkSystem db' (sys_caches y) (<[t := mkThread router s (Returned r)]> (sys_threads y))
                            (sys_issued y)).
Proof.
  intros [Hheld Hiss Hdisj Hfresh Hnd] Ht Hstep. set (y' := mkSystem _ _ _ _).
  assert (Hmono : forall s' i, granted (sys_db y) s' i -> granted db' s' i)
    by (intros; by eapply reserve_mono).
  assert (Hcases : forall h s' i, holds y' h s' i ->
    holds y h s' i \/ (h = HThread t /\ ~ granted (sys_db y) s' i /\ granted db' s' i)).
  { intros [rr|t'] s' i; [by left|]. intros (r0 & st & sz & Hl & Hb). simpl in Hl.
    rewrite lookup_insert in Hl. case_decide as Hd; [|left; by exists r0, st, sz].
    subst t'. injection Hl as <- <- ->. right. split; [done|]. by eapply reserve_fresh. }
  split; simpl.
  - intros h s' i [Hh|(_ & _ & Hg)]%Hcases; eauto.
  - eauto.
  - intros h1 h2 s' i [H1|(-> & Hn1 & _)]%Hcases [H2|(-> & Hn2 & _)]%Hcases; [eauto| | |done].
    + destruct Hn2. eauto.
    + destruct Hn1. eauto.
  - intros h s' i Hin [Hh|(_ & Hn & _)]%Hcases; [by eapply Hfresh|]. apply Hn. eauto.
  - done.
Qed.

Lemma ids_step (y y' : System DB) :
  sys_step step y y' -> ids_inv (step := step) y -> ids_inv (step := step) y'.
Proof.
  destruct 1 as [y router s cache' id Hturn|y router s cache' t Hturn Ht|y t router s db' r Ht Hs
    |y t router s r cache' id Ht Hf|y t router s r cache' e Ht Hf|y t router s db' r Ht Hs|y router]; intros Hi.
  - by apply ids_served.
  - apply turn_claimed in Hturn as (b & n & -> & Hb & Hold). apply (ids_shrink y); [done|done|done|].
    intros [rr|t'] s' i.
    + rewrite holds_cache_insert. case_decide; [|done]. simpl. intros Hin. by apply take_None in Hin.
    + intros (r0 & st & sz & Hl & Hb'). simpl in Hl. rewrite lookup_insert in Hl.
      case_decide; [done|]. by exists r0, st, sz.
  - by apply ids_reserve.
  - by eapply ids_finish.
  - apply finish_err in Hf. apply (ids_shrink y); [done|done|done|].
    intros [rr|t'] s' i.
    + destruct (cache_of y router !! s) as [e0|] eqn:He; subst cache'.
      * rewrite holds_cache_insert. case_decide as Hd; [|done]. destruct Hd as [-> ->].
        simpl. intros Hb. by exists e0.
      * unfold holds. rewrite cache_of_insert. case_decide; by subst.
    + intros (r0 & st & sz & Hl & Hb). simpl in Hl. apply lookup_delete_Some in Hl as [_ Hl].
      by exists r0, st, sz.
  - apply (ids_shrink y); [done|intros; by eapply reserve_mono|done|].
    intros [rr|t'] s' i.
    + unfold claim_drop. destruct (cache_of y router !! s) as [e0|] eqn:He.
      * rewrite holds_cache_insert. case_decide as Hd; [|done]. destruct Hd as [-> ->].
        simpl. intros Hb. by exists e0.
      * unfold holds. rewrite cache_of_insert. case_decide; by subst.
    + intros (r0 & st & sz & Hl & Hb). simpl in Hl. apply lookup_delete_Some in Hl as [_ Hl].
      by exists r0, st, sz.
  - apply (ids_shrink y); [done|done|done|]. intros [rr|t'] s' i.
    + intros (e & He & Hb). unfold cache_of in He. simpl in He. rewrite lookup_delete in He.
      case_decide; simpl in He; [by rewrite lookup_empty in He|]. by exists e.
    + intros (r0 & st & sz & Hl & Hb). simpl in Hl. apply map_lookup_filter_Some in Hl as [Hl _].
      by exists r0, st, sz.
Qed.

Lemma ids_reach db0 (y : System DB) : sys_reach step db0 y -> ids_inv (step := step) y.
Proof.
  induction 1 as [|y y' _ IH Hs]; [|by eapply ids_step].
  split; simpl; try (intros; set_solver); try constructor.
  - intros [r|t] s id; unfold holds, cache_of; simpl; rewrite lookup_empty; simpl; [|naive_solver].
    rewrite lookup_empty. naive_solver.
  - intros h1 h2 s id Hh. destruct h1; unfold holds, cache_of in Hh; simpl in Hh;
      rewrite lookup_empty in Hh; simpl in Hh; [rewrite lookup_empty in Hh|]; naive_solver.
Qed.
End ids.

(** *** Single flight *)

Lemma cache_entry_insert {DB} (y : System DB) (db : DB) router s e ths iss r s' :
  cache_of (mkSystem db (<[router := <[s := e]> (cache_of y router)]> (sys_caches y)) ths iss) r !! s' =
  if decide (r = router /\ s' = s) then Some e else cache_of y r !! s'.
Proof.
  rewrite cache_of_insert. destruct (decide (router = r)) as [->|Hr].
  - rewrite lookup_insert. destruct (decide (s = s')) as [->|Hs].
    + by rewrite decide_True.
    + by rewrite decide_False by naive_solver.
  - by rewrite decide_False by naive_solver.
Qed.

(** A thread gives up its claim. *)
Lemma flight_release {DB} (y : System DB) (db : DB) t router s pc e iss :
  flight_inv y -> sys_threads y !! t = Some (mkThread router s pc) -> ss_reserving e = false ->
  flight_inv (mkSystem db (<[router := <[s := e]> (cache_of y router)]> (sys_caches y))
                (delete t (sys_threads y)) iss).
Proof.
  intros [Hone Hclaim Hheld] Ht He. split; simpl.
  - intros t1 t2 th1 th2 [_ H1]%lookup_delete_Some [_ H2]%lookup_delete_Some. by apply Hone.
  - intros t' th [Hne H1]%lookup_delete_Some. rewrite cache_entry_insert.
    rewrite decide_False; [by apply (Hclaim t')|]. intros [Hr Hs]. apply Hne. symmetry.
    by eapply (Hone t' t).
  - intros r' s' e'. rewrite cache_entry_insert. case_decide as Hd; [intros [= <-] ?; congruence|].
    intros He' Hres. destruct (Hheld r' s' e' He' Hres) as (t' & th & Hth & <- & <-).
    exists t', th. split; [|done]. apply lookup_delete_Some. split; [|done].
    intros ->. rewrite Ht in Hth. injection Hth as <-. by apply Hd.
Qed.

Lemma flight_claim {DB} (y : System DB) router s cache' t :
  flight_inv y -> next_id_turn (cache_of y router) s = (cache', Claimed) -> sys_threads y !! t = None ->
  flight_inv (mkSystem (sys_db y) (<[router := cache']> (sys_caches y))
                (<[t := mkThread router s AtReserve]> (sys_threads y)) (sys_issued y)).
Proof.
  intros [Hone Hclaim Hheld] (b & n & -> & Hb & Hold)%turn_claimed Ht.
  assert (Hno : forall t' th, sys_threads y !! t' = Some th -> th_router th = router -> th_sequence th = s -> False).
  { intros t' th Hth Hr Hs. destruct (Hclaim t' th Hth) as (e & He & Hrv & _). rewrite Hr, Hs in He.
    destruct Hold as [Hold|Hold]; simplify_eq; done. }
  split; simpl.
  - intros t1 t2 th1 th2. rewrite !lookup_insert. do 2 case_decide; intros; simplify_eq; simpl in *; try done.
    + exfalso. by eapply Hno.
    + exfalso. by eapply Hno.
    + by eapply Hone.
  - intros t' th. rewrite lookup_insert. case_decide; intros Hth; simplify_eq; simpl; rewrite cache_entry_insert.
    + rewrite decide_True by done. by eexists.
    + rewrite decide_False; [by apply (Hclaim t')|]. intros [Hr Hs]. by eapply Hno.
  - intros r' s' e'. rewrite cache_entry_insert. case_decide as Hd; intros He' Hres.
    + destruct Hd as [-> ->]. exists t. eexists. by rewrite lookup_insert_eq.
    + destruct (Hheld r' s' e' He' Hres) as (t' & th & Hth & <- & <-). exists t', th.
      split; [|done]. rewrite lookup_insert_ne; [done|]. intros ->. congruence.
Qed.

Lemma flight_served {DB} (y : System DB) router s cache' id iss :
  flight_inv y -> next_id_turn (cache_of y router) s = (cache', Served id) ->
  flight_inv (mkSystem (sys_db y) (<[router := cache']> (sys_caches y)) (sys_threads y) iss).
Proof.
  intros [Hone Hclaim Hheld] (e & He & Hin & -> & _)%turn_served. split; simpl.
  - done.
  - intros t th Hth. destruct (Hclaim t th Hth) as (e0 & He0 & Hr & Hd). rewrite cache_entry_insert.
    rewrite decide_False; [by exists e0|]. intros [Hrr Hs]. rewrite Hrr, Hs, He in He0. injection He0 as <-.
    rewrite take_None in Hd. by apply (Hd id).
  - intros r' s' e'. rewrite cache_entry_insert. case_decide as Hd; [|by apply Hheld].
    destruct Hd as [-> ->]. intros [= <-]. simpl. by apply Hheld.
Qed.

Lemma flight_step {DB} (step : DB -> nat -> string -> DB -> result SeqError (Z * Z) -> Prop) (y y' : System DB) :
  sys_step step y y' -> flight_inv y -> flight_inv y'.
Proof.
  destruct 1 as [y router s cache' id Hturn|y router s cache' t Hturn Ht|y t router s db' r Ht Hs
    |y t router s r cache' id Ht Hf|y t router s r cache' e Ht Hf|y t router s db' r Ht Hs|y router]; intros Hi.
  - by eapply flight_served.
  - by apply flight_claim.
  - destruct Hi as [Hone Hclaim Hheld]. split; simpl.
    + intros t1 t2 th1 th2. rewrite !lookup_insert.
      do 2 case_decide; intros; simplify_eq; simpl in *; try done.
      * by eapply (Hone t1 t2 (mkThread router s AtReserve) th2).
      * by eapply (Hone t1 t2 th1 (mkThread router s AtReserve)).
      * by eapply Hone.
    + intros t' th. rewrite lookup_insert. case_decide; [|apply Hclaim].
      intros [= <-]. subst t'. apply (Hclaim _ _ Ht).
    + intros r' s' e' He' Hres. destruct (Hheld r' s' e' He' Hres) as (t' & th & Hth & <- & <-).
      destruct (decide (t = t')) as [->|Hne].
      * exists t'. eexists. rewrite lookup_insert_eq. by rewrite Ht in Hth; injection Hth as <-.
      * exists t', th. by rewrite lookup_insert_ne.
  - apply finish_ok in Hf as (start & size & e & _ & _ & _ & _ & ->). by eapply flight_release.
  - apply finish_err in Hf. destruct (fi_claim y Hi t _ Ht) as (e0 & He0 & _). simpl in He0.
    rewrite He0 in Hf. subst cache'. by eapply flight_release.
  - unfold claim_drop. destruct (fi_claim y Hi t _ Ht) as (e0 & He0 & _). simpl in He0.
    rewrite He0. by eapply flight_release.
  - destruct Hi as [Hone Hclaim Hheld].
    assert (Hcache : forall r, r <> router -> cache_of (mkSystem (sys_db y) (delete router (sys_caches y))
      (filter (fun p => th_router p.2 <> router) (sys_threads y)) (sys_issued y)) r = cache_of y r).
    { intros r Hr. unfold cache_of. simpl. by rewrite lookup_delete_ne. }
    split; simpl.
    + intros t1 t2 th1 th2 [H1 _]%map_lookup_filter_Some [H2 _]%map_lookup_filter_Some. by apply Hone.
    + intros t' th [H1 Hne]%map_lookup_filter_Some. rewrite Hcache by done. by apply (Hclaim t').
    + intros r' s' e' He' Hres. destruct (decide (r' = router)) as [->|Hne].
      { unfold cache_of in He'. simpl in He'. rewrite lookup_delete_eq in He'. simpl in He'.
        by rewrite lookup_empty in He'. }
      rewrite Hcache in He' by done. destruct (Hheld r' s' e' He' Hres) as (t' & th & Hth & <- & <-).
      exists t', th. split; [|done]. by apply map_lookup_filter_Some.
Qed.

Lemma flight_reach {DB} (step : DB -> nat -> string -> DB -> result SeqError (Z * Z) -> Prop) db0 (y : System DB) :
  sys_reach step db0 y -> flight_inv y.
Proof.
  induction 1 as [|y y' _ IH Hs]; [|by eapply flight_step].
  split; simpl; [done|done|]. intros r s e He. unfold cache_of in He. simpl in He.
  rewrite lookup_empty in He. simpl in He. by rewrite lookup_empty in He.
Qed.

(** *** The Postgres backend keeps the contract *)

Lemma reserve_ok_inv net router s db db' start size : reserve net router s db = (db', Ok (start, size)) ->
  exists row, st_rows db !! s = Some row /\ 0 < size /\ size = row_block_size row /\ start = row_next_id row /\
    st_rows db' = <[s := mkSeqRow (start + size) size]> (st_rows db).
Proof.
  unfold reserve. destruct (negb _ && _); [done|]. simpl.
  destruct (st_rows db !! s) as [[n z]|] eqn:Hrow; [|by destruct (query_ok net)].
  unfold reserve_sql, checked_add_i64. simpl.
  destruct (_ && _); simpl; [|done]. destruct (query_ok net); [|done]. simpl.
  destruct (z <=? 0) eqn:Ez; [done|]. intros [= <- <- <-]. exists (mkSeqRow n z). simpl.
  destruct (z >? 0) eqn:Ez'; [|lia]. split_and!; try done; [lia|lia|]. simpl. do 2 f_equal; lia.
Qed.

(** Whatever happens to the call, a row only moves forward. *)
Lemma reserve_rows net router s db db' r : reserve net router s db = (db', r) ->
  forall k row, st_rows db !! k = Some row ->
  exists row', st_rows db' !! k = Some row' /\ row_next_id row <= row_next_id row'.
Proof.
  intros H k row Hk.
  assert (Hsame : st_rows db' = st_rows db -> exists row', st_rows db' !! k = Some row' /\
    row_next_id row <= row_next_id row') by (intros ->; exists row; split; [done|lia]).
  unfold reserve in H. destruct (negb _ && _); [simplify_eq; auto|]. simpl in H.
  destruct (st_rows db !! s) as [r0|] eqn:Hrow; [|destruct (query_ok net); simplify_eq; auto].
  destruct (reserve_sql r0) as [row'|] eqn:Hsql; [|simplify_eq; auto].
  assert (Hadv : row_next_id r0 <= row_next_id row').
  { unfold reserve_sql, checked_add_i64 in Hsql. destruct (_ && _); [|done]. simpl in Hsql.
    simplify_eq. simpl. case_bool; lia. }
  assert (Hmove : st_rows db' = <[s := row']> (st_rows db) -> exists row'', st_rows db' !! k = Some row'' /\
    row_next_id row <= row_next_id row'').
  { intros ->. rewrite lookup_insert. case_decide; [|exists row; split; [done|lia]].
    subst k. exists row'. simplify_eq. done. }
  destruct (query_ok net); [destruct (_ <=? 0); simplify_eq; auto|].
  destruct (committed net); simplify_eq; auto.
Qed.

(** The ids below a row's [next_id] are the granted ones. *)
#[export] Program Instance pg_reserver : BlockReserver pg_step := {|
  granted db s id := exists row, st_rows db !! s = Some row /\ id < row_next_id row;
|}.
Next Obligation.
  intros db router s db' start size id [net H] Hid. simpl.
  apply reserve_ok_inv in H as (row & Hrow & Hpos & -> & -> & Hdb'). split.
  - intros (row' & Hrow' & Hlt). simplify_eq. lia.
  - rewrite Hdb'. eexists. rewrite lookup_insert_eq. split; [done|]. simpl. lia.
Qed.
Next Obligation.
  intros db router s db' r s' id [net H] (row & Hrow & Hlt). simpl.
  destruct (reserve_rows _ _ _ _ _ _ H _ _ Hrow) as (row' & Hrow' & Hle). exists row'. split; [done|lia].
Qed.

(** ** Properties *)

(** over any reservation backend that keeps the [BlockReserver] contract, no id of
    a sequence is ever handed out twice: not by two threads, not by two routers, not
    after failed, panicking or lost reservations, and not across router restarts. *)
Theorem ids_never_duplicated {DB} (step : DB -> nat -> string -> DB -> result SeqError (Z * Z) -> Prop)
    `{!BlockReserver step} (db0 : DB) (y : System DB) :
  sys_reach step db0 y -> NoDup (sys_issued y).
Proof. intros Hr. apply (ii_nodup y). by eapply ids_reach. Qed.

(** C18: over the [pgshard.sequences] table (with its own failures: no connection, a
    query lost before or after the commit, a row with a bad block size, bigint
    overflow) ids are never handed out twice, and each is below its row's [next_id]. *)
Theorem pg_ids_unique (db0 : Store) (y : System Store) :
  sys_reach pg_step db0 y ->
  NoDup (sys_issued y) /\
  forall s id, (s, id) ∈ sys_issued y ->
    exists row, st_rows (sys_db y) !! s = Some row /\ id < row_next_id row.
Proof.
  intros Hr. pose proof (ids_reach (step := pg_step) db0 y Hr) as Hi.
  split; [by apply (ii_nodup y)|]. intros s id Hin. exact (ii_issued y Hi s id Hin).
Qed.

(** reservations are single-flighted and no waiter is abandoned: at most one thread
    per router and sequence is outside the lock; a call that has to wait waits for such
    a thread; and when that thread comes back, whatever the backend said, the claim it
    needs is present (no panic) and after it the waiter no longer waits. *)
Theorem single_flight {DB} (step : DB -> nat -> string -> DB -> result SeqError (Z * Z) -> Prop) (db0 : DB) y :
  sys_reach step db0 y ->
  (forall t1 t2 th1 th2, sys_threads y !! t1 = Some th1 -> sys_threads y !! t2 = Some th2 ->
     th_router th1 = th_router th2 -> th_sequence th1 = th_sequence th2 -> t1 = t2) /\
  (forall router s, snd (next_id_turn (cache_of y router) s) = Wait ->
     exists t th, sys_threads y !! t = Some th /\ th_router th = router /\ th_sequence th = s) /\
  (forall t router s r, sys_threads y !! t = Some (mkThread router s (Returned r)) ->
     is_Some (cache_of y router !! s) /\
     snd (next_id_turn (fst (next_id_finish (cache_of y router) s r)) s) <> Wait).
Proof.
  intros Hr. apply flight_reach in Hr as [Hone Hclaim Hheld]. split_and!; [done| |].
  - intros router s Hw. unfold next_id_turn in Hw.
    destruct (cache_of y router !! s) as [e|] eqn:He; [|done].
    destruct (Block.take _) as [[i b]|]; [done|]. destruct (ss_reserving e) eqn:Hrv; [|done]. by eapply Hheld.
  - intros t router s r Ht. destruct (Hclaim t _ Ht) as (e & He & _). simpl in He. split; [by eexists|].
    destruct (next_id_finish (cache_of y router) s r) as [cache' [id|err]] eqn:Hf.
    + apply finish_ok in Hf as (start & size & e' & _ & _ & _ & _ & ->). simpl. unfold next_id_turn.
      rewrite lookup_insert_eq. simpl. by destruct (Block.take _) as [[i b]|].
    + apply finish_err in Hf. rewrite He in Hf. subst cache'. simpl. unfold next_id_turn.
      rewrite lookup_insert_eq. simpl. by destruct (Block.take _) as [[i b]|].
Qed.

(** the end of a reservation, on every branch: the call succeeds exactly when the
    backend returned a positive size whose end fits in 64 bits, and then returns the
    range's first id and caches the rest; any other outcome is an error that leaves the
    old block in place; the claim is cleared in every case. *)
Theorem reservation_outcome cache s e r :
  cache !! s = Some e -> (forall start size, r = Ok (start, size) -> is_i64 start /\ is_i64 size) ->
  let '(cache', out) := next_id_finish cache s r in
  (forall k, k <> s -> cache' !! k = cache !! k) /\
  match out with
  | Ok id => exists size, r = Ok (id, size) /\ 0 < size /\ id + size <= i64_MAX /\
      exists n, cache' !! s = Some (mkSeqState (mkBlock (id + 1) (id + size)) n false)
  | Err _ =>
      (forall start size, r = Ok (start, size) -> size <= 0 \/ i64_MAX < start + size) /\
      cache' !! s = Some (mkSeqState (ss_block e) (ss_refill_at e) false)
  end.
Proof.
  intros He Hr. unfold next_id_finish. rewrite He.
  assert (Hk : forall x k, k <> s -> <[s := x]> cache !! k = cache !! k)
    by (intros x k Hk; by apply lookup_insert_ne).
  destruct r as [[start size]|err].
  2: { split; [auto|]. split; [done|]. apply lookup_insert_eq. }
  destruct (Hr start size eq_refl) as [Hs1 Hs2]. unfold is_i64, i64_MIN in *.
  destruct (size <=? 0) eqn:Ez.
  { split; [auto|]. split; [|apply lookup_insert_eq]. intros ? ? [= <- <-]. lia. }
  unfold Block.new, checked_add_i64. destruct (_ && _) eqn:Eb; simpl.
  - unfold Block.take. simpl. destruct (_ <? _) eqn:Et; [|lia]. split; [auto|].
    exists size. split_and!; [done|lia|unfold i64_MIN in *; lia|]. eexists. apply lookup_insert_eq.
  - split; [auto|]. split; [|apply lookup_insert_eq]. intros ? ? [= <- <-]. unfold i64_MIN in *. lia.
Qed.

(** Taking ids until the block is drained. *)
Fixpoint drain (fuel : nat) (b : Block) : list Z * Block :=
  match fuel with
  | O => ([], b)
  | S fuel' => match Block.take b with
               | None => ([], b)
               | Some (id, b') => let '(ids, b'') := drain fuel' b' in (id :: ids, b'')
               end
  end.

Lemma drain_seqZ n b : b_end b - b_next b = Z.of_nat n ->
  drain (S n) b = (seqZ (b_next b) (Z.of_nat n), mkBlock (b_end b) (b_end b)).
Proof.
  revert b. induction n as [|n IH]; intros [nx en] Hn; simpl in Hn.
  - simpl. unfold Block.take. simpl. destruct (_ <? _) eqn:E; [lia|]. simpl. do 2 f_equal. lia.
  - change (drain (S (S n)) (mkBlock nx en)) with (match Block.take (mkBlock nx en) with
      | None => ([], mkBlock nx en)
      | Some (id, b') => let '(ids, b'') := drain (S n) b' in (id :: ids, b'') end).
    unfold Block.take. cbn [b_next b_end]. destruct (_ <? _) eqn:E; [|lia].
    rewrite IH by (simpl; lia). cbn [b_next b_end].
    rewrite (seqZ_cons nx) by lia. do 2 f_equal.
    unfold Z.succ. f_equal; lia.
Qed.

(** a block reserved over [[start, start + size)] serves exactly the [size] ids of
    the range, in order, and then refuses; one ask more than its size is enough to see
    it drained. *)
Theorem block_serves_range start size b :
  0 <= size -> Block.new start size = Some b ->
  fst (drain (S (Z.to_nat size)) b) = seqZ start size /\
  Block.take (snd (drain (S (Z.to_nat size)) b)) = None /\
  Block.remaining b = size.
Proof.
  intros Hs H. unfold Block.new, checked_add_i64 in H. destruct (_ && _); [|done]. simpl in H.
  injection H as <-. rewrite drain_seqZ by (simpl; lia). simpl. split_and!.
  - f_equal. lia.
  - unfold Block.take. simpl. by rewrite Z.ltb_irrefl.
  - unfold Block.remaining. simpl. lia.
Qed.

(** ** Witnesses *)

Definition demo_store : Store := mkStore {[ "orders_id" := mkSeqRow 1 10 ]} ∅.
Definition demo_net : NetOutcome := mkNetOutcome true true true.

(** One thread reserves the first block and is served id 1. *)
Definition demo_claimed : System Store :=
  mkSystem demo_store {[ 0%nat := fst (next_id_turn ∅ "orders_id") ]}
    {[ 0%nat := mkThread 0 "orders_id" AtReserve ]} [].
Definition demo_returned : System Store :=
  mkSystem (fst (reserve demo_net 0 "orders_id" demo_store)) (sys_caches demo_claimed)
    {[ 0%nat := mkThread 0 "orders_id" (Returned (Ok (1, 10))) ]} [].
Definition demo_served : System Store :=
  mkSystem (sys_db demo_returned)
    (<[0%nat := fst (next_id_finish (cache_of demo_returned 0) "orders_id" (Ok (1, 10)))]> (sys_caches demo_returned))
    ∅ [("orders_id", 1)].

Lemma demo_returned_reach : sys_reach pg_step demo_store demo_returned.
Proof.
  apply (sys_next pg_step demo_store demo_claimed).
  - apply (sys_next pg_step demo_store (mkSystem demo_store ∅ ∅ [])); [constructor|].
    apply (step_claim pg_step (mkSystem demo_store ∅ ∅ []) 0 "orders_id" _ 0); reflexivity.
  - apply (step_reserve pg_step demo_claimed 0 0 "orders_id"); [reflexivity|].
    exists demo_net. vm_compute. reflexivity.
Qed.

Lemma demo_served_reach : sys_reach pg_step demo_store demo_served.
Proof.
  apply (sys_next pg_step demo_store demo_returned); [apply demo_returned_reach|].
  apply (step_finish_ok pg_step demo_returned 0 0 "orders_id" (Ok (1, 10))); [reflexivity|].
  vm_compute. reflexivity.
Qed.

Lemma ids_never_duplicated_witness : NoDup (sys_issued demo_served).
Proof. apply (ids_never_duplicated pg_step demo_store demo_served). apply demo_served_reach. Defined.

Lemma pg_ids_unique_witness :
  NoDup (sys_issued demo_served) /\
  forall s id, (s, id) ∈ sys_issued demo_served ->
    exists row, st_rows (sys_db demo_served) !! s = Some row /\ id < row_next_id row.
Proof. apply (pg_ids_unique demo_store demo_served). apply demo_served_reach. Defined.

Lemma single_flight_witness :
  (forall t1 t2 th1 th2, sys_threads demo_returned !! t1 = Some th1 -> sys_threads demo_returned !! t2 = Some th2 ->
     th_router th1 = th_router th2 -> th_sequence th1 = th_sequence th2 -> t1 = t2) /\
  (forall router s, snd (next_id_turn (cache_of demo_returned router) s) = Wait ->
     exists t th, sys_threads demo_returned !! t = Some th /\ th_router th = router /\ th_sequence th = s) /\
  (forall t router s r, sys_threads demo_returned !! t = Some (mkThread router s (Returned r)) ->
     is_Some (cache_of demo_returned router !! s) /\
     snd (next_id_turn (fst (next_id_finish (cache_of demo_returned router) s r)) s) <> Wait).
Proof. apply (single_flight pg_step demo_store demo_returned). apply demo_returned_reach. Defined.

Lemma reservation_outcome_witness :
  let '(cache', out) := next_id_finish {[ "s" := mkSeqState Block.empty 0 true ]} "s" (Ok (5, 3)) in
  (forall k, k <> "s" -> cache' !! k = ({[ "s" := mkSeqState Block.empty 0 true ]} : Cache) !! k) /\
  match out with
  | Ok id => exists size, (Ok (5, 3) : result SeqError (Z * Z)) = Ok (id, size) /\ 0 < size /\ id + size <= i64_MAX /\
      exists n, cache' !! "s" = Some (mkSeqState (mkBlock (id + 1) (id + size)) n false)
  | Err _ =>
      (forall start size, (Ok (5, 3) : result SeqError (Z * Z)) = Ok (start, size) -> size <= 0 \/ i64_MAX < start + size) /\
      cache' !! "s" = Some (mkSeqState Block.empty 0 false)
  end.
Proof.
  apply (reservation_outcome {[ "s" := mkSeqState Block.empty 0 true ]} "s" (mkSeqState Block.empty 0 true) (Ok (5, 3))).
  - reflexivity.
  - intros start size [= <- <-]. split; concrete.
Defined.

Lemma block_serves_range_witness :
  fst (drain (S (Z.to_nat 3)) (mkBlock 7 10)) = seqZ 7 3 /\
  Block.take (snd (drain (S (Z.to_nat 3)) (mkBlock 7 10))) = None /\
  Block.remaining (mkBlock 7 10) = 3.
Proof. apply (block_serves_range 7 3 (mkBlock 7 10)); [lia|reflexivity]. Defined.
