(* ===== verification/Agent.v ===== *)
(** * The agent's guards: decision epochs and schema operations

    [src/crates/pgshard-agent/src/epoch.rs], [schema.rs] and [status.rs]. Both
    guards split a command in two critical sections, one before and one after the
    call into PostgreSQL; concurrent requests interleave between them, which the
    transition systems below make explicit. *)

From S2P Require Import Prelude Rust.

Open Scope Z_scope.

(** ** The decision-epoch guard *)

Inductive Outcome := Apply | ReplayEpoch.

Inductive EpochError :=
| EpochZero
| EpochStale (got applied : Z)
| EpochConflict (epoch : Z).

Record Applied := mkApplied { ap_epoch : Z; ap_key : string; ap_seen : bool }.

#[export] Instance Outcome_eq_dec : EqDecision Outcome.
Proof. solve_decision. Defined.
#[export] Instance Applied_eq_dec : EqDecision Applied.
Proof. solve_decision. Defined.

Module EpochGuard.

Definition new : Applied := mkApplied 0 EmptyString false.

Definition check (a : Applied) (epoch : Z) (key : string) : result EpochError Outcome :=
  if epoch =? 0 then Err EpochZero
  else if ap_seen a && (epoch <? ap_epoch a) then Err (EpochStale epoch (ap_epoch a))
  else if ap_seen a && (epoch =? ap_epoch a) then
    if decide (ap_key a = key) then Ok ReplayEpoch else Err (EpochConflict epoch)
  else Ok Apply.

Definition commit (a : Applied) (epoch : Z) (key : string) : Applied :=
  if negb (ap_seen a) || (epoch >? ap_epoch a) then mkApplied epoch key true else a.

Definition applied_epoch (a : Applied) : Z := ap_epoch a.

End EpochGuard.

(** ** Schema operations *)

Inductive Claim := Execute | ReplayOp.

Inductive SchemaError :=
| EmptyId
| DifferentSql (id : string)
| OpInFlight (id : string).

Inductive OpState := InFlight | Done | Failed.

Record Op := mkOp { op_sql : string; op_state : OpState }.

#[export] Instance OpState_eq_dec : EqDecision OpState.
Proof. solve_decision. Defined.
#[export] Instance Claim_eq_dec : EqDecision Claim.
Proof. solve_decision. Defined.

(** The mutex-guarded map of [SchemaLog]. *)
#[global] Abbreviation SchemaLog := (gmap string Op).

Definition claim (ops : SchemaLog) (id sql : string) : SchemaLog * result SchemaError Claim :=
  if str_is_empty id then (ops, Err EmptyId)
  else match ops !! id with
  | Some op =>
      if negb (bool_decide (op_sql op = sql)) then (ops, Err (DifferentSql id))
      else match op_state op with
           | Done => (ops, Ok ReplayOp)
           | InFlight => (ops, Err (OpInFlight id))
           | Failed => (<[id := mkOp (op_sql op) InFlight]> ops, Ok Execute)
           end
  | None => (<[id := mkOp sql InFlight]> ops, Ok Execute)
  end.

Definition set_state (ops : SchemaLog) (id : string) (st : OpState) : SchemaLog :=
  match ops !! id with
  | Some op => <[id := mkOp (op_sql op) st]> ops
  | None => ops
  end.

Definition mark_done (ops : SchemaLog) (id : string) : SchemaLog := set_state ops id Done.
Definition mark_failed (ops : SchemaLog) (id : string) : SchemaLog := set_state ops id Failed.

(** ** Status *)

(** [instance::Snapshot]. *)
Record Snapshot := mkSnapshot {
  in_recovery : bool; accepting : bool; timeline : Z;
  write_lsn : Z; receive_lsn : Z; replay_lsn : Z;
  receiver_active : bool; postgres_version : string; system_id : Z; fenced : bool;
}.

Inductive InstanceRole := Primary | Standby.

(** [v1::InstanceStatus], the fields the mapping sets from the snapshot. *)
Record InstanceStatus := mkInstanceStatus {
  is_role : InstanceRole; is_ready : bool; is_timeline : Z;
  is_wal_write_lsn : Z; is_wal_receive_lsn : Z; is_wal_replay_lsn : Z;
  is_wal_receiver_active : bool; is_postgres_version : string; is_system_id : Z; is_fenced : bool;
}.

Definition to_status (s : Snapshot) : InstanceStatus :=
  mkInstanceStatus (if in_recovery s then Standby else Primary) (accepting s && negb (fenced s))
    (timeline s) (write_lsn s) (receive_lsn s) (replay_lsn s) (receiver_active s)
    (postgres_version s) (system_id s) (fenced s).

(** ** Concurrent epoch-guarded commands

    A command passes [check] (and is then [Running]), reaches the instance, and
    [commit]s. The history lists the commands in the order they reached the
    instance. *)

Inductive CmdPc := Running | Executed.

Record EpochSys := mkEpochSys {
  es_guard : Applied;
  es_cmds : gmap nat (Z * string * CmdPc);
  es_history : list (Z * string);
}.

Inductive epoch_step : EpochSys -> EpochSys -> Prop :=
| ep_check y c epoch key :
    es_cmds y !! c = None -> EpochGuard.check (es_guard y) epoch key = Ok Apply ->
    epoch_step y (mkEpochSys (es_guard y) (<[c := (epoch, key, Running)]> (es_cmds y)) (es_history y))
| ep_execute y c epoch key :
    es_cmds y !! c = Some (epoch, key, Running) ->
    epoch_step y (mkEpochSys (es_guard y) (<[c := (epoch, key, Executed)]> (es_cmds y))
                    (es_history y ++ [(epoch, key)]))
| ep_fail y c epoch key :
    es_cmds y !! c = Some (epoch, key, Running) ->
    epoch_step y (mkEpochSys (es_guard y) (delete c (es_cmds y)) (es_history y))
| ep_commit y c epoch key :
    es_cmds y !! c = Some (epoch, key, Executed) ->
    epoch_step y (mkEpochSys (EpochGuard.commit (es_guard y) epoch key) (delete c (es_cmds y)) (es_history y)).

(** ** Concurrent schema operations

    The handler of [ExecSchema]: claim, run the statement outside the lock, mark.
    The ghost counters give, per id, how often the statement ran and how often it
    succeeded. *)

Record SchemaSys := mkSchemaSys {
  xs_log : SchemaLog;
  xs_running : list (string * string);
  xs_done : list (string * string);
}.

Inductive schema_step : SchemaSys -> SchemaSys -> Prop :=
| xs_claim y id sql log' :
    claim (xs_log y) id sql = (log', Ok Execute) ->
    schema_step y (mkSchemaSys log' ((id, sql) :: xs_running y) (xs_done y))
| xs_refused y id sql log' out :
    claim (xs_log y) id sql = (log', out) -> out <> Ok Execute ->
    schema_step y (mkSchemaSys log' (xs_running y) (xs_done y))
| xs_success y id sql before after :
    xs_running y = before ++ (id, sql) :: after ->
    schema_step y (mkSchemaSys (mark_done (xs_log y) id) (before ++ after) ((id, sql) :: xs_done y))
| xs_failure y id sql before after :
    xs_running y = before ++ (id, sql) :: after ->
    schema_step y (mkSchemaSys (mark_failed (xs_log y) id) (before ++ after) (xs_done y)).

(** ** Lemmas *)

Lemma check_apply a epoch key : EpochGuard.check a epoch key = Ok Apply ->
  epoch <> 0 /\ (ap_seen a = true -> ap_epoch a < epoch).
Proof.
  unfold EpochGuard.check. destruct (epoch =? 0) eqn:E0; [done|].
  destruct (ap_seen a) eqn:Es; simpl; [|intros _; split; [lia|done]].
  destruct (epoch <? ap_epoch a) eqn:E1; [done|]. destruct (epoch =? ap_epoch a) eqn:E2.
  - by destruct (decide _).
  - intros _. split; lia.
Qed.

Lemma commit_mono a epoch key : ap_seen a = true ->
  ap_seen (EpochGuard.commit a epoch key) = true /\ ap_epoch a <= ap_epoch (EpochGuard.commit a epoch key).
Proof.
  intros Hs. unfold EpochGuard.commit. rewrite Hs. simpl. destruct (_ >? _) eqn:E; simpl; [split; [done|lia]|].
  split; [done|lia].
Qed.

(** the applied epoch never goes back, whatever the interleaving of concurrent
    commands: once the guard has recorded an epoch, every later state of it has
    recorded the same or a higher one. *)
Theorem applied_epoch_monotone y y' :
  rtc epoch_step y y' -> ap_seen (es_guard y) = true ->
  ap_seen (es_guard y') = true /\
  EpochGuard.applied_epoch (es_guard y) <= EpochGuard.applied_epoch (es_guard y').
Proof.
  unfold EpochGuard.applied_epoch. intros Hr Hs. induction Hr as [y|y y1 y' Hstep _ IH]; [split; [done|lia]|].
  assert (H1 : ap_seen (es_guard y1) = true /\ ap_epoch (es_guard y) <= ap_epoch (es_guard y1)).
  { destruct Hstep; simpl; try (split; [done|lia]). by apply commit_mono. }
  destruct H1 as [H1 Hle]. destruct (IH H1). split; [done|lia].
Qed.

Definition epoch_init : EpochSys := mkEpochSys EpochGuard.new ∅ [].

Lemma applied_epoch_monotone_witness :
  let y := mkEpochSys (mkApplied 4 "fence:true" true) ∅ [] in
  let y' := mkEpochSys (mkApplied 4 "fence:true" true) {[ 0%nat := (7, "promote:a", Running) ]} [] in
  ap_seen (es_guard y') = true /\
  EpochGuard.applied_epoch (es_guard y) <= EpochGuard.applied_epoch (es_guard y').
Proof.
  apply (applied_epoch_monotone (mkEpochSys (mkApplied 4 "fence:true" true) ∅ [])
    (mkEpochSys (mkApplied 4 "fence:true" true) {[ 0%nat := (7, "promote:a", Running) ]} [])); [|reflexivity].
  apply rtc_once. apply (ep_check (mkEpochSys (mkApplied 4 "fence:true" true) ∅ []) 0 7 "promote:a"); reflexivity.
Defined.

(** the guard alone does not order concurrent commands at the instance. There is a
    run in which a promote of epoch 5 passes the check, a fence of epoch 6 is checked,
    executed and recorded as applied, and only then the promote of epoch 5 reaches the
    instance: a stale decision takes effect after a newer one. *)
Theorem stale_command_after_newer :
  exists y y', rtc epoch_step epoch_init y /\ EpochGuard.applied_epoch (es_guard y) = 6 /\
    es_history y = [(6, "fence:true")] /\
    epoch_step y y' /\ es_history y' = [(6, "fence:true"); (5, "promote:a")].
Proof.
  set (y0 := epoch_init).
  set (y1 := mkEpochSys EpochGuard.new {[ 0%nat := (5, "promote:a", Running) ]} []).
  set (y2 := mkEpochSys EpochGuard.new (<[1%nat := (6, "fence:true", Running)]> (es_cmds y1)) []).
  set (y3 := mkEpochSys EpochGuard.new (<[1%nat := (6, "fence:true", Executed)]> (es_cmds y2)) [(6, "fence:true")]).
  set (y4 := mkEpochSys (mkApplied 6 "fence:true" true) (delete 1%nat (es_cmds y3)) [(6, "fence:true")]).
  exists y4. eexists. split_and!; [|reflexivity|reflexivity| |].
  - apply (rtc_l _ y0 y1); [by apply (ep_check y0 0 5 "promote:a")|].
    apply (rtc_l _ y1 y2); [by apply (ep_check y1 1 6 "fence:true")|].
    apply (rtc_l _ y2 y3); [by apply (ep_execute y2 1 6 "fence:true")|].
    apply (rtc_l _ y3 y4); [|done]. by apply (ep_commit y3 1 6 "fence:true").
  - by apply (ep_execute y4 0 5 "promote:a").
  - reflexivity.
Qed.

(** *** Schema operations *)

(** Every id has its sql for life; running ids are marked in flight and run once;
    completed ids are marked done. *)
Record schema_inv (y : SchemaSys) : Prop := {
  si_running : NoDup (xs_running y).*1;
  si_flight : forall id sql, (id, sql) ∈ xs_running y -> xs_log y !! id = Some (mkOp sql InFlight);
  si_done : forall id sql, (id, sql) ∈ xs_done y -> xs_log y !! id = Some (mkOp sql Done);
  si_once : NoDup (xs_done y).*1;
}.

Lemma claim_execute log id sql log' : claim log id sql = (log', Ok Execute) ->
  log' = <[id := mkOp sql InFlight]> log /\
  (log !! id = None \/ log !! id = Some (mkOp sql Failed)).
Proof.
  unfold claim. destruct (str_is_empty id); [done|].
  destruct (log !! id) as [[s st]|] eqn:Hid; [|intros [= <-]; auto]. simpl.
  destruct (bool_decide (s = sql)) eqn:Es; simpl; [|done]. apply bool_decide_eq_true in Es as ->.
  destruct st; try done. intros [= <-]. auto.
Qed.

Lemma claim_refused log id sql log' out : claim log id sql = (log', out) -> out <> Ok Execute -> log' = log.
Proof.
  unfold claim. destruct (str_is_empty id); [by intros [= <- _]|].
  destruct (log !! id) as [[s st]|]; [|by intros [= _ <-]]. simpl.
  destruct (negb _); [by intros [= <- _]|]. destruct st; by intros [= <- <-].
Qed.

Lemma schema_finish y id sql before after st :
  schema_inv y -> xs_running y = before ++ (id, sql) :: after ->
  set_state (xs_log y) id st = <[id := mkOp sql st]> (xs_log y) /\
  NoDup (before ++ after).*1 /\
  (forall id' sql', (id', sql') ∈ before ++ after -> id' <> id /\ (id', sql') ∈ xs_running y) /\
  (forall sql', (id, sql') ∉ xs_done y).
Proof.
  intros [Hr Hf Hd Ho] Heq.
  assert (Hid : xs_log y !! id = Some (mkOp sql InFlight)) by (apply Hf; rewrite Heq; set_solver).
  split; [unfold set_state; by rewrite Hid|]. rewrite Heq, fmap_app, fmap_cons in Hr. simpl in Hr.
  assert (Hperm : before.*1 ++ id :: after.*1 ≡ₚ id :: (before ++ after).*1)
    by (by rewrite fmap_app, Permutation_middle).
  rewrite Hperm in Hr. apply NoDup_cons in Hr as [Hn Hr]. split; [done|]. split.
  - intros id' sql' Hin. split; [|rewrite Heq; set_solver]. intros ->. apply Hn.
    apply list_elem_of_fmap. by exists (id, sql').
  - intros sql' Hin. specialize (Hd _ _ Hin). congruence.
Qed.

Lemma schema_step_inv y y' : schema_step y y' -> schema_inv y -> schema_inv y'.
Proof.
  destruct 1 as [y id sql log' Hc|y id sql log' out Hc Hne|y id sql before after Heq|y id sql before after Heq];
    intros Hi.
  - apply claim_execute in Hc as [-> Hold]. destruct Hi as [Hr Hf Hd Ho].
    assert (Hnr : forall s, (id, s) ∉ xs_running y).
    { intros s Hin. specialize (Hf _ _ Hin). destruct Hold; simplify_eq. }
    split; simpl; [|intros id' sql'|intros id' sql'|done].
    + apply NoDup_cons. split; [|done]. intros ([i s] & -> & Hin)%list_elem_of_fmap. by apply (Hnr s).
    + intros [[= -> ->]|Hin]%elem_of_cons; [by rewrite lookup_insert_eq|].
      rewrite lookup_insert_ne; [by apply Hf|]. intros ->. by apply (Hnr sql').
    + intros Hin. specialize (Hd _ _ Hin). rewrite lookup_insert_ne; [done|]. intros ->.
      destruct Hold; simplify_eq.
  - apply claim_refused in Hc; [|done]. subst log'. by destruct Hi.
  - destruct (schema_finish y id sql before after Done Hi Heq) as (Hset & Hnd & Hrest & Hnd').
    destruct Hi as [Hr Hf Hd Ho]. split; simpl; unfold mark_done; rewrite ?Hset; [done| | |].
    + intros id' sql' Hin. destruct (Hrest _ _ Hin) as [Hne Hin']. rewrite lookup_insert_ne by done. auto.
    + intros id' sql' [[= -> ->]|Hin]%elem_of_cons; [by rewrite lookup_insert_eq|].
      rewrite lookup_insert_ne; [by apply Hd|]. intros ->. by apply (Hnd' sql').
    + apply NoDup_cons. split; [|done]. intros ([i s] & -> & Hin)%list_elem_of_fmap. by apply (Hnd' s).
  - destruct (schema_finish y id sql before after Failed Hi Heq) as (Hset & Hnd & Hrest & Hnd').
    destruct Hi as [Hr Hf Hd Ho]. split; simpl; unfold mark_failed; rewrite ?Hset; [done| | |done].
    + intros id' sql' Hin. destruct (Hrest _ _ Hin) as [Hne Hin']. rewrite lookup_insert_ne by done. auto.
    + intros id' sql' Hin. rewrite lookup_insert_ne; [by apply Hd|]. intros ->. by apply (Hnd' sql').
Qed.

Definition schema_start : SchemaSys := mkSchemaSys ∅ [] [].

Lemma schema_reach_inv y : rtc schema_step schema_start y -> schema_inv y.
Proof.
  assert (Hgen : forall x, rtc schema_step x y -> schema_inv x -> schema_inv y).
  { induction 1; eauto using schema_step_inv. }
  intros Hr. apply (Hgen _ Hr). split; simpl; [constructor|set_solver|set_solver|constructor].
Qed.

(** under any interleaving of concurrent and retried [ExecSchema] calls, an operation
    id is never running twice at once, its statement succeeds at most once, and after the
    success every retry is refused execution (a retry with the same sql replays, one with
    another sql is an error). *)
Theorem schema_ops_at_most_once y :
  rtc schema_step schema_start y ->
  NoDup (xs_running y).*1 /\ NoDup (xs_done y).*1 /\
  forall id sql, (id, sql) ∈ xs_done y ->
    (id ∉ (xs_running y).*1) /\
    forall sql', snd (claim (xs_log y) id sql') =
      if str_is_empty id then Err EmptyId
      else if decide (sql' = sql) then Ok ReplayOp else Err (DifferentSql id).
Proof.
  intros [Hr Hf Hd Ho]%schema_reach_inv. split_and!; [done|done|]. intros id sql Hin.
  specialize (Hd _ _ Hin) as Hlog. split.
  - intros ([i s] & -> & Hi)%list_elem_of_fmap. specialize (Hf _ _ Hi). simpl in Hlog. congruence.
  - intros sql'. unfold claim. destruct (str_is_empty id); [done|]. rewrite Hlog. simpl.
    destruct (decide (sql' = sql)) as [->|Hne].
    + by rewrite bool_decide_true.
    + by rewrite bool_decide_false by auto.
Qed.

Definition demo_schema : SchemaSys :=
  mkSchemaSys (mark_done (fst (claim ∅ "op1" "CREATE TABLE t()")) "op1") [] [("op1", "CREATE TABLE t()")].

Lemma schema_ops_at_most_once_witness :
  NoDup (xs_running demo_schema).*1 /\ NoDup (xs_done demo_schema).*1 /\
  forall id sql, (id, sql) ∈ xs_done demo_schema ->
    (id ∉ (xs_running demo_schema).*1) /\
    forall sql', snd (claim (xs_log demo_schema) id sql') =
      if str_is_empty id then Err EmptyId
      else if decide (sql' = sql) then Ok ReplayOp else Err (DifferentSql id).
Proof.
  apply (schema_ops_at_most_once demo_schema).
  apply (rtc_l _ _ (mkSchemaSys (fst (claim ∅ "op1" "CREATE TABLE t()")) [("op1", "CREATE TABLE t()")] [])).
  - apply (xs_claim schema_start "op1" "CREATE TABLE t()"). reflexivity.
  - apply rtc_once. by apply (xs_success (mkSchemaSys (fst (claim ∅ "op1" "CREATE TABLE t()"))
      [("op1", "CREATE TABLE t()")] []) "op1" "CREATE TABLE t()" [] []).
Defined.
