(* ===== verification/PgOutput.v ===== *)
(** * The pgoutput decoder

    [src/crates/pgshard-repl/src/pgoutput.rs]: the bounds-checked [Reader], one
    parser per message kind, and the stateful decoder that tracks the
    streamed-transaction bracket. A parser takes the reader to a value and the
    reader after it, or to the [DecodeError] the source returns. *)

From S2P Require Import Prelude Rust Lsn.

Open Scope Z_scope.

(** ** Messages *)

Definition Xid : Type := Z.
Definition Oid : Type := Z.
Definition TimestampTz : Type := Z.

Definition MAX_SUPPORTED_PROTOCOL_VERSION : Z := 4.

Inductive DecodeError :=
| Truncated (offset needed : nat)
| UnknownMessage (tag : ascii)
| UnknownTupleKind (kind : ascii)
| UnexpectedTupleMarker (marker : ascii)
| NegativeLength (len : Z)
| InvalidUtf8
| TrailingBytes (n : nat).

Inductive TupleColumn :=
| TCNull
| TCUnchangedToast
| TCText (v : list ascii)
| TCBinary (v : list ascii).

#[global] Abbreviation TupleData := (list TupleColumn).

Record Begin := mkBegin { bg_final_lsn : Lsn; bg_commit_timestamp : TimestampTz; bg_xid : Xid }.
Record Message := mkMessage {
  mg_xid : option Xid; mg_transactional : bool; mg_lsn : Lsn; mg_prefix : string; mg_content : list ascii;
}.
Record Commit := mkCommit { cm_commit_lsn : Lsn; cm_end_lsn : Lsn; cm_commit_timestamp : TimestampTz }.
Record Origin := mkOrigin { og_commit_lsn : Lsn; og_name : string }.
Record RelationColumn := mkRelationColumn {
  rc_flags : ascii; rc_name : string; rc_type_oid : Oid; rc_type_modifier : Z;
}.
Record Relation := mkRelation {
  rl_xid : option Xid; rl_oid : Oid; rl_namespace : string; rl_name : string;
  rl_replica_identity : ascii; rl_columns : list RelationColumn;
}.
Record TypeDecl := mkTypeDecl { td_xid : option Xid; td_oid : Oid; td_namespace : string; td_name : string }.
Record Insert := mkInsert { in_xid : option Xid; in_rel_oid : Oid; in_new_tuple : TupleData }.
Record Update := mkUpdate {
  up_xid : option Xid; up_rel_oid : Oid; up_key : option TupleData; up_old : option TupleData;
  up_new_tuple : TupleData;
}.
Record Delete := mkDelete {
  de_xid : option Xid; de_rel_oid : Oid; de_key : option TupleData; de_old : option TupleData;
}.
Record Truncate := mkTruncate { tr_xid : option Xid; tr_options : ascii; tr_relations : list Oid }.
Record StreamStart := mkStreamStart { sst_xid : Xid; sst_first_segment : bool }.
Record StreamCommit := mkStreamCommit {
  sc_xid : Xid; sc_commit_lsn : Lsn; sc_end_lsn : Lsn; sc_commit_timestamp : TimestampTz;
}.
Record StreamAbort := mkStreamAbort {
  sa_xid : Xid; sa_subxid : Xid; sa_abort_lsn : option Lsn; sa_abort_timestamp : option TimestampTz;
}.
Record PreparedTxn := mkPreparedTxn {
  pt_lsn : Lsn; pt_end_lsn : Lsn; pt_timestamp : TimestampTz; pt_xid : Xid; pt_gid : string;
}.
Record RollbackPrepared := mkRollbackPrepared {
  rb_prepared_end_lsn : Lsn; rb_rollback_end_lsn : Lsn; rb_prepare_timestamp : TimestampTz;
  rb_rollback_timestamp : TimestampTz; rb_xid : Xid; rb_gid : string;
}.

Inductive LogicalRepMsg :=
| MBegin (m : Begin)
| MMessage (m : Message)
| MCommit (m : Commit)
| MOrigin (m : Origin)
| MRelation (m : Relation)
| MType (m : TypeDecl)
| MInsert (m : Insert)
| MUpdate (m : Update)
| MDelete (m : Delete)
| MTruncate (m : Truncate)
| MStreamStart (m : StreamStart)
| MStreamStop
| MStreamCommit (m : StreamCommit)
| MStreamAbort (m : StreamAbort)
| MBeginPrepare (m : PreparedTxn)
| MPrepare (m : PreparedTxn)
| MCommitPrepared (m : PreparedTxn)
| MStreamPrepare (m : PreparedTxn)
| MRollbackPrepared (m : RollbackPrepared).

(** The low bit of a flags byte. *)
Definition bit0 (c : ascii) : bool := Z.testbit (byte_val c) 0.
Definition bit1 (c : ascii) : bool := Z.testbit (byte_val c) 1.

Definition is_key (c : RelationColumn) : bool := bit0 (rc_flags c).
Definition truncate_cascade (t : Truncate) : bool := bit0 (tr_options t).
Definition truncate_restart_identity (t : Truncate) : bool := bit1 (tr_options t).

Inductive StreamMode := StreamOff | StreamOn | StreamParallel.

#[export] Instance StreamMode_eq_dec : EqDecision StreamMode.
Proof. solve_decision. Defined.

Record PgOutputDecoder := mkDecoder {
  pd_protocol_version : Z; pd_stream_mode : StreamMode; pd_in_stream : bool;
}.

Definition with_stream_mode (protocol_version : Z) (stream_mode : StreamMode) : PgOutputDecoder :=
  mkDecoder protocol_version stream_mode false.

Definition new_decoder (protocol_version : Z) : PgOutputDecoder := with_stream_mode protocol_version StreamOff.

(** ** The reader *)

Record Reader := mkReader { rd_buf : list ascii; rd_pos : nat }.

Definition Parser (A : Type) : Type := Reader -> result DecodeError (A * Reader).

#[export] Instance Parser_ret : MRet Parser := fun A a r => Ok (a, r).
#[export] Instance Parser_bind : MBind Parser :=
  fun A B f p r => match p r with Ok (a, r') => f a r' | Err e => Err e end.

Definition fail {A} (e : DecodeError) : Parser A := fun _ => Err e.

Definition remaining (r : Reader) : nat := length (rd_buf r) - rd_pos r.

Definition rest : Parser (list ascii) :=
  fun r => Ok (drop (rd_pos r) (rd_buf r), mkReader (rd_buf r) (length (rd_buf r))).

(** The end of a slice cannot overflow a [usize]: it is a [nat]. *)
Definition read_bytes (n : nat) : Parser (list ascii) := fun r =>
  let e := (rd_pos r + n)%nat in
  if (e <=? length (rd_buf r))%nat then
    Ok (take n (drop (rd_pos r) (rd_buf r)), mkReader (rd_buf r) e)
  else Err (Truncated (rd_pos r) n).

Definition read_u8 : Parser ascii :=
  b ← read_bytes 1; match b with c :: _ => mret c | [] => fail (Truncated 0 0) end.

(** Two's complement on [n] bytes. *)
Definition signed (n : nat) (z : Z) : Z := if z <? 256 ^ Z.of_nat n / 2 then z else z - 256 ^ Z.of_nat n.

Definition read_i16 : Parser Z := b ← read_bytes 2; mret (signed 2 (be_val b)).
Definition read_u32 : Parser Z := b ← read_bytes 4; mret (be_val b).
Definition read_i32 : Parser Z := b ← read_bytes 4; mret (signed 4 (be_val b)).
Definition read_i64 : Parser Z := b ← read_bytes 8; mret (signed 8 (be_val b)).
Definition read_lsn : Parser Lsn := b ← read_bytes 8; mret (be_val b).

Definition cstr : Parser string := fun r =>
  let rest := drop (rd_pos r) (rd_buf r) in
  match position (fun b => bool_decide (b = "000"%char)) rest with
  | None => Err (Truncated (rd_pos r) 1)
  | Some nul =>
      if utf8_valid (take nul rest) then
        Ok (str_of (take nul rest), mkReader (rd_buf r) (rd_pos r + (nul + 1)))
      else Err InvalidUtf8
  end.

(** ** Message parsers *)

Definition count (value : Z) : Parser nat :=
  if value <? 0 then fail (NegativeLength value) else mret (Z.to_nat value).

Definition read_sized : Parser (list ascii) := n ← read_i32; len ← count n; read_bytes len.

Definition expect_marker (want : ascii) : Parser unit :=
  got ← read_u8; if decide (got = want) then mret tt else fail (UnexpectedTupleMarker got).

Definition stream_xid (in_stream : bool) : Parser (option Xid) :=
  if in_stream then x ← read_u32; mret (Some x) else mret None.

(** The [for _ in 0..count] loops. *)
Fixpoint repeat_parse {A} (p : Parser A) (n : nat) : Parser (list A) :=
  match n with
  | O => mret []
  | S n' => x ← p; xs ← repeat_parse p n'; mret (x :: xs)
  end.

Definition tuple_column : Parser TupleColumn :=
  kind ← read_u8;
  if decide (kind = "n"%char) then mret TCNull
  else if decide (kind = "u"%char) then mret TCUnchangedToast
  else if decide (kind = "t"%char) then v ← read_sized; mret (TCText v)
  else if decide (kind = "b"%char) then v ← read_sized; mret (TCBinary v)
  else fail (UnknownTupleKind kind).

Definition tuple_data : Parser TupleData :=
  n ← read_i16; count ← count n; repeat_parse tuple_column count.

Definition begin : Parser Begin :=
  final_lsn ← read_lsn; commit_timestamp ← read_i64; xid ← read_u32;
  mret (mkBegin final_lsn commit_timestamp xid).

Definition logical_message (in_stream : bool) : Parser Message :=
  xid ← stream_xid in_stream; flags ← read_u8; lsn ← read_lsn; prefix ← cstr; content ← read_sized;
  mret (mkMessage xid (bit0 flags) lsn prefix content).

Definition commit : Parser Commit :=
  _ ← read_u8; commit_lsn ← read_lsn; end_lsn ← read_lsn; commit_timestamp ← read_i64;
  mret (mkCommit commit_lsn end_lsn commit_timestamp).

Definition origin : Parser Origin := commit_lsn ← read_lsn; name ← cstr; mret (mkOrigin commit_lsn name).

Definition relation_column : Parser RelationColumn :=
  flags ← read_u8; name ← cstr; type_oid ← read_u32; type_modifier ← read_i32;
  mret (mkRelationColumn flags name type_oid type_modifier).

Definition relation (in_stream : bool) : Parser Relation :=
  xid ← stream_xid in_stream; oid ← read_u32; namespace ← cstr; name ← cstr; replica_identity ← read_u8;
  n ← read_i16; count ← count n; columns ← repeat_parse relation_column count;
  mret (mkRelation xid oid namespace name replica_identity columns).

Definition type_decl (in_stream : bool) : Parser TypeDecl :=
  xid ← stream_xid in_stream; oid ← read_u32; namespace ← cstr; name ← cstr;
  mret (mkTypeDecl xid oid namespace name).

Definition insert (in_stream : bool) : Parser Insert :=
  xid ← stream_xid in_stream; rel_oid ← read_u32; _ ← expect_marker "N"%char; new_tuple ← tuple_data;
  mret (mkInsert xid rel_oid new_tuple).

Definition update (in_stream : bool) : Parser Update :=
  xid ← stream_xid in_stream; rel_oid ← read_u32; first ← read_u8;
  '(key, old, marker) ←
    (if decide (first = "K"%char) then t ← tuple_data; m ← read_u8; mret (Some t, None, m)
     else if decide (first = "O"%char) then t ← tuple_data; m ← read_u8; mret (None, Some t, m)
     else mret (None, None, first));
  if decide (marker = "N"%char) then new_tuple ← tuple_data; mret (mkUpdate xid rel_oid key old new_tuple)
  else fail (UnexpectedTupleMarker marker).

Definition delete (in_stream : bool) : Parser Delete :=
  xid ← stream_xid in_stream; rel_oid ← read_u32; marker ← read_u8;
  if decide (marker = "K"%char) then t ← tuple_data; mret (mkDelete xid rel_oid (Some t) None)
  else if decide (marker = "O"%char) then t ← tuple_data; mret (mkDelete xid rel_oid None (Some t))
  else fail (UnexpectedTupleMarker marker).

Definition truncate (in_stream : bool) : Parser Truncate :=
  xid ← stream_xid in_stream; n ← read_i32; count ← count n; options ← read_u8;
  relations ← repeat_parse read_u32 count; mret (mkTruncate xid options relations).

Definition stream_start : Parser StreamStart :=
  xid ← read_u32; first ← read_u8; mret (mkStreamStart xid (negb (bool_decide (first = "000"%char)))).

Definition stream_commit : Parser StreamCommit :=
  xid ← read_u32; _ ← read_u8; commit_lsn ← read_lsn; end_lsn ← read_lsn; commit_timestamp ← read_i64;
  mret (mkStreamCommit xid commit_lsn end_lsn commit_timestamp).

Definition stream_abort (parallel : bool) : Parser StreamAbort :=
  xid ← read_u32; subxid ← read_u32;
  if parallel then lsn ← read_lsn; ts ← read_i64; mret (mkStreamAbort xid subxid (Some lsn) (Some ts))
  else mret (mkStreamAbort xid subxid None None).

Definition prepared (has_flags : bool) : Parser PreparedTxn :=
  _ ← (if has_flags then _ ← read_u8; mret tt else mret tt);
  lsn ← read_lsn; end_lsn ← read_lsn; timestamp ← read_i64; xid ← read_u32; gid ← cstr;
  mret (mkPreparedTxn lsn end_lsn timestamp xid gid).

Definition rollback_prepared : Parser RollbackPrepared :=
  _ ← read_u8; prepared_end_lsn ← read_lsn; rollback_end_lsn ← read_lsn; prepare_timestamp ← read_i64;
  rollback_timestamp ← read_i64; xid ← read_u32; gid ← cstr;
  mret (mkRollbackPrepared prepared_end_lsn rollback_end_lsn prepare_timestamp rollback_timestamp xid gid).

(** ** The decoder *)

(** The [match tag] of [decode]: the message and the bracket state after it. *)
Definition decode_body (in_stream parallel : bool) (tag : ascii) : Parser (LogicalRepMsg * bool) :=
  if decide (tag = "B"%char) then m ← begin; mret (MBegin m, in_stream)
  else if decide (tag = "M"%char) then m ← logical_message in_stream; mret (MMessage m, in_stream)
  else if decide (tag = "C"%char) then m ← commit; mret (MCommit m, in_stream)
  else if decide (tag = "O"%char) then m ← origin; mret (MOrigin m, in_stream)
  else if decide (tag = "R"%char) then m ← relation in_stream; mret (MRelation m, in_stream)
  else if decide (tag = "Y"%char) then m ← type_decl in_stream; mret (MType m, in_stream)
  else if decide (tag = "I"%char) then m ← insert in_stream; mret (MInsert m, in_stream)
  else if decide (tag = "U"%char) then m ← update in_stream; mret (MUpdate m, in_stream)
  else if decide (tag = "D"%char) then m ← delete in_stream; mret (MDelete m, in_stream)
  else if decide (tag = "T"%char) then m ← truncate in_stream; mret (MTruncate m, in_stream)
  else if decide (tag = "S"%char) then m ← stream_start; mret (MStreamStart m, true)
  else if decide (tag = "E"%char) then mret (MStreamStop, false)
  else if decide (tag = "c"%char) then m ← stream_commit; mret (MStreamCommit m, in_stream)
  else if decide (tag = "A"%char) then m ← stream_abort parallel; mret (MStreamAbort m, in_stream)
  else if decide (tag = "b"%char) then m ← prepared false; mret (MBeginPrepare m, in_stream)
  else if decide (tag = "P"%char) then m ← prepared true; mret (MPrepare m, in_stream)
  else if decide (tag = "K"%char) then m ← prepared true; mret (MCommitPrepared m, in_stream)
  else if decide (tag = "p"%char) then m ← prepared true; mret (MStreamPrepare m, in_stream)
  else if decide (tag = "r"%char) then m ← rollback_prepared; mret (MRollbackPrepared m, in_stream)
  else fail (UnknownMessage tag).

Definition decode_frame (in_stream parallel : bool) : Parser (LogicalRepMsg * bool) :=
  tag ← read_u8; decode_body in_stream parallel tag.

(** [PgOutputDecoder::decode]: the decoder after the frame, and the message. *)
Definition decode (frame : list ascii) (d : PgOutputDecoder) : PgOutputDecoder * result DecodeError LogicalRepMsg :=
  match decode_frame (pd_in_stream d) (bool_decide (pd_stream_mode d = StreamParallel)) (mkReader frame 0) with
  | Err e => (d, Err e)
  | Ok ((msg, next_in_stream), r) =>
      if (remaining r =? 0)%nat then
        (mkDecoder (pd_protocol_version d) (pd_stream_mode d) next_in_stream, Ok msg)
      else (d, Err (TrailingBytes (remaining r)))
  end.

(** ** The wire grammar

    PostgreSQL's logical-replication message formats, as an encoder of a message
    with the flags byte [f] of the kinds that carry one, and the messages that
    have an encoding inside or outside a streamed block. *)

Definition enc_cstr (s : string) : list ascii := bytes s ++ ["000"%char].
Definition enc_sized (v : list ascii) : list ascii := to_be 4 (Z.of_nat (length v)) ++ v.
Definition enc_xid (xid : option Xid) : list ascii := match xid with Some x => to_be 4 x | None => [] end.

Definition enc_column (c : TupleColumn) : list ascii :=
  match c with
  | TCNull => ["n"%char]
  | TCUnchangedToast => ["u"%char]
  | TCText v => ["t"%char] ++ enc_sized v
  | TCBinary v => ["b"%char] ++ enc_sized v
  end.

Definition enc_tuple (t : TupleData) : list ascii :=
  to_be 2 (Z.of_nat (length t)) ++ concat (enc_column <$> t).

Definition enc_relation_column (c : RelationColumn) : list ascii :=
  [rc_flags c] ++ enc_cstr (rc_name c) ++ to_be 4 (rc_type_oid c) ++ to_be 4 (rc_type_modifier c).

Definition enc_old_row (key old : option TupleData) : list ascii :=
  match key, old with
  | Some t, _ => ["K"%char] ++ enc_tuple t
  | None, Some t => ["O"%char] ++ enc_tuple t
  | None, None => []
  end.

Definition enc_prepared (m : PreparedTxn) : list ascii :=
  to_be 8 (pt_lsn m) ++ to_be 8 (pt_end_lsn m) ++ to_be 8 (pt_timestamp m) ++ to_be 4 (pt_xid m)
    ++ enc_cstr (pt_gid m).

Definition enc_msg (f : ascii) (msg : LogicalRepMsg) : list ascii :=
  match msg with
  | MBegin m => ["B"%char] ++ to_be 8 (bg_final_lsn m) ++ to_be 8 (bg_commit_timestamp m) ++ to_be 4 (bg_xid m)
  | MMessage m =>
      ["M"%char] ++ enc_xid (mg_xid m) ++ [f] ++ to_be 8 (mg_lsn m) ++ enc_cstr (mg_prefix m)
        ++ enc_sized (mg_content m)
  | MCommit m =>
      ["C"%char] ++ [f] ++ to_be 8 (cm_commit_lsn m) ++ to_be 8 (cm_end_lsn m) ++ to_be 8 (cm_commit_timestamp m)
  | MOrigin m => ["O"%char] ++ to_be 8 (og_commit_lsn m) ++ enc_cstr (og_name m)
  | MRelation m =>
      ["R"%char] ++ enc_xid (rl_xid m) ++ to_be 4 (rl_oid m) ++ enc_cstr (rl_namespace m) ++ enc_cstr (rl_name m)
        ++ [rl_replica_identity m] ++ to_be 2 (Z.of_nat (length (rl_columns m)))
        ++ concat (enc_relation_column <$> rl_columns m)
  | MType m =>
      ["Y"%char] ++ enc_xid (td_xid m) ++ to_be 4 (td_oid m) ++ enc_cstr (td_namespace m) ++ enc_cstr (td_name m)
  | MInsert m => ["I"%char] ++ enc_xid (in_xid m) ++ to_be 4 (in_rel_oid m) ++ ["N"%char] ++ enc_tuple (in_new_tuple m)
  | MUpdate m =>
      ["U"%char] ++ enc_xid (up_xid m) ++ to_be 4 (up_rel_oid m) ++ enc_old_row (up_key m) (up_old m) ++ ["N"%char]
        ++ enc_tuple (up_new_tuple m)
  | MDelete m => ["D"%char] ++ enc_xid (de_xid m) ++ to_be 4 (de_rel_oid m) ++ enc_old_row (de_key m) (de_old m)
  | MTruncate m =>
      ["T"%char] ++ enc_xid (tr_xid m) ++ to_be 4 (Z.of_nat (length (tr_relations m))) ++ [tr_options m]
        ++ concat (to_be 4 <$> tr_relations m)
  | MStreamStart m => ["S"%char] ++ to_be 4 (sst_xid m) ++ [f]
  | MStreamStop => ["E"%char]
  | MStreamCommit m =>
      ["c"%char] ++ to_be 4 (sc_xid m) ++ [f] ++ to_be 8 (sc_commit_lsn m) ++ to_be 8 (sc_end_lsn m)
        ++ to_be 8 (sc_commit_timestamp m)
  | MStreamAbort m =>
      ["A"%char] ++ to_be 4 (sa_xid m) ++ to_be 4 (sa_subxid m)
        ++ match sa_abort_lsn m, sa_abort_timestamp m with
           | Some l, Some t => to_be 8 l ++ to_be 8 t
           | _, _ => []
           end
  | MBeginPrepare m => ["b"%char] ++ enc_prepared m
  | MPrepare m => ["P"%char] ++ [f] ++ enc_prepared m
  | MCommitPrepared m => ["K"%char] ++ [f] ++ enc_prepared m
  | MStreamPrepare m => ["p"%char] ++ [f] ++ enc_prepared m
  | MRollbackPrepared m =>
      ["r"%char] ++ [f] ++ to_be 8 (rb_prepared_end_lsn m) ++ to_be 8 (rb_rollback_end_lsn m)
        ++ to_be 8 (rb_prepare_timestamp m) ++ to_be 8 (rb_rollback_timestamp m) ++ to_be 4 (rb_xid m)
        ++ enc_cstr (rb_gid m)
  end.

Definition wf_cstr (s : string) : Prop := utf8_valid (bytes s) = true /\ "000"%char ∉ bytes s.
Definition wf_sized (v : list ascii) : Prop := Z.of_nat (length v) <= i32_MAX.
Definition wf_xid (in_stream : bool) (xid : option Xid) : Prop :=
  match xid with Some x => in_stream = true /\ is_u32 x | None => in_stream = false end.

Definition wf_column (c : TupleColumn) : Prop :=
  match c with TCText v | TCBinary v => wf_sized v | _ => True end.
Definition wf_tuple (t : TupleData) : Prop := Z.of_nat (length t) <= 32767 /\ Forall wf_column t.
Definition wf_relation_column (c : RelationColumn) : Prop :=
  wf_cstr (rc_name c) /\ is_u32 (rc_type_oid c) /\ is_i32 (rc_type_modifier c).
Definition wf_old_row (key old : option TupleData) : Prop :=
  match key, old with
  | Some t, None | None, Some t => wf_tuple t
  | None, None => True
  | Some _, Some _ => False
  end.
Definition wf_prepared (m : PreparedTxn) : Prop :=
  is_u64 (pt_lsn m) /\ is_u64 (pt_end_lsn m) /\ is_i64 (pt_timestamp m) /\ is_u32 (pt_xid m) /\ wf_cstr (pt_gid m).

(** The messages a publisher can send with flags byte [f]. *)
Definition wf_msg (in_stream parallel : bool) (f : ascii) (msg : LogicalRepMsg) : Prop :=
  match msg with
  | MBegin m => is_u64 (bg_final_lsn m) /\ is_i64 (bg_commit_timestamp m) /\ is_u32 (bg_xid m)
  | MMessage m =>
      wf_xid in_stream (mg_xid m) /\ mg_transactional m = bit0 f /\ is_u64 (mg_lsn m) /\ wf_cstr (mg_prefix m)
      /\ wf_sized (mg_content m)
  | MCommit m => is_u64 (cm_commit_lsn m) /\ is_u64 (cm_end_lsn m) /\ is_i64 (cm_commit_timestamp m)
  | MOrigin m => is_u64 (og_commit_lsn m) /\ wf_cstr (og_name m)
  | MRelation m =>
      wf_xid in_stream (rl_xid m) /\ is_u32 (rl_oid m) /\ wf_cstr (rl_namespace m) /\ wf_cstr (rl_name m)
      /\ Z.of_nat (length (rl_columns m)) <= 32767 /\ Forall wf_relation_column (rl_columns m)
  | MType m => wf_xid in_stream (td_xid m) /\ is_u32 (td_oid m) /\ wf_cstr (td_namespace m) /\ wf_cstr (td_name m)
  | MInsert m => wf_xid in_stream (in_xid m) /\ is_u32 (in_rel_oid m) /\ wf_tuple (in_new_tuple m)
  | MUpdate m =>
      wf_xid in_stream (up_xid m) /\ is_u32 (up_rel_oid m) /\ wf_old_row (up_key m) (up_old m)
      /\ wf_tuple (up_new_tuple m)
  | MDelete m =>
      wf_xid in_stream (de_xid m) /\ is_u32 (de_rel_oid m) /\ wf_old_row (de_key m) (de_old m)
      /\ ~ (de_key m = None /\ de_old m = None)
  | MTruncate m =>
      wf_xid in_stream (tr_xid m) /\ Z.of_nat (length (tr_relations m)) <= i32_MAX /\ Forall is_u32 (tr_relations m)
  | MStreamStart m => is_u32 (sst_xid m) /\ sst_first_segment m = negb (bool_decide (f = "000"%char))
  | MStreamStop => True
  | MStreamCommit m =>
      is_u32 (sc_xid m) /\ is_u64 (sc_commit_lsn m) /\ is_u64 (sc_end_lsn m) /\ is_i64 (sc_commit_timestamp m)
  | MStreamAbort m =>
      is_u32 (sa_xid m) /\ is_u32 (sa_subxid m)
      /\ match sa_abort_lsn m, sa_abort_timestamp m with
         | Some l, Some t => parallel = true /\ is_u64 l /\ is_i64 t
         | None, None => parallel = false
         | _, _ => False
         end
  | MBeginPrepare m | MPrepare m | MCommitPrepared m | MStreamPrepare m => wf_prepared m
  | MRollbackPrepared m =>
      is_u64 (rb_prepared_end_lsn m) /\ is_u64 (rb_rollback_end_lsn m) /\ is_i64 (rb_prepare_timestamp m)
      /\ is_i64 (rb_rollback_timestamp m) /\ is_u32 (rb_xid m) /\ wf_cstr (rb_gid m)
  end.

(** The streamed-block bracket after a message. *)
Definition bracket_after (in_stream : bool) (msg : LogicalRepMsg) : bool :=
  match msg with MStreamStart _ => true | MStreamStop => false | _ => in_stream end.

(** The decoder in the state a message leaves it in. *)
Definition decoder_after (d : PgOutputDecoder) (msg : LogicalRepMsg) : PgOutputDecoder :=
  mkDecoder (pd_protocol_version d) (pd_stream_mode d) (bracket_after (pd_in_stream d) msg).

Definition is_parallel (d : PgOutputDecoder) : bool := bool_decide (pd_stream_mode d = StreamParallel).

(** ** Reasoning about parsers *)

Definition unread (r : Reader) : list ascii := drop (rd_pos r) (rd_buf r).
Definition in_bounds (r : Reader) : Prop := (rd_pos r <= length (rd_buf r))%nat.
Definition adv (r : Reader) (n : nat) : Reader := mkReader (rd_buf r) (rd_pos r + n).

(** [p] takes the bytes [b] to [x], whatever follows them. *)
Definition reads {A} (p : Parser A) (b : list ascii) (x : A) : Prop :=
  forall r t, in_bounds r -> unread r = b ++ t -> p r = Ok (x, adv r (length b)).

(** What [p] accepts is related by [W] to the bytes it consumed. *)
Definition sound {A} (p : Parser A) (W : list ascii -> A -> Prop) : Prop :=
  forall r x r', in_bounds r -> p r = Ok (x, r') ->
    exists b, unread r = b ++ unread r' /\ in_bounds r' /\ W b x.

(** What a parser of the body of a [tag] message accepts is an encoding. *)
Definition accepts_msg {A} (in_stream parallel : bool) (tag : ascii) (con : A -> LogicalRepMsg) (p : Parser A) : Prop :=
  sound p (fun b m => exists f, tag :: b = enc_msg f (con m) /\ wf_msg in_stream parallel f (con m)).

Lemma adv_unread r b t :
  in_bounds r -> unread r = b ++ t -> in_bounds (adv r (length b)) /\ unread (adv r (length b)) = t.
Proof.
  unfold in_bounds, unread, adv. simpl. intros Hr H.
  assert (length (drop (rd_pos r) (rd_buf r)) = length b + length t)%nat as Hl by (rewrite H; apply length_app).
  rewrite length_drop in Hl. split; [lia|].
  rewrite <- drop_drop, H. by apply drop_app_length.
Qed.

Lemma reads_ret {A} (x : A) : reads (mret x) [] x.
Proof.
  intros [buf pos] t _ _. unfold mret, Parser_ret, adv. simpl. by rewrite Nat.add_0_r.
Qed.

Lemma reads_bind {A B} (p : Parser A) (f : A -> Parser B) b1 b2 x y :
  reads p b1 x -> reads (f x) b2 y -> reads (p ≫= f) (b1 ++ b2) y.
Proof.
  intros Hp Hf r t Hr H. rewrite <- app_assoc in H.
  destruct (adv_unread _ _ _ Hr H) as [Hr' H'].
  unfold mbind, Parser_bind. rewrite (Hp r _ Hr H), (Hf _ _ Hr' H').
  unfold adv. simpl. by rewrite length_app, Nat.add_assoc.
Qed.

Lemma reads_bind_nil {A B} (p : Parser A) (f : A -> Parser B) b x y :
  reads p b x -> reads (f x) [] y -> reads (p ≫= f) b y.
Proof. intros Hp Hf. rewrite <- (app_nil_r b). by eapply reads_bind. Qed.

Lemma sound_ret {A} (x : A) : sound (mret x) (fun b y => b = [] /\ y = x).
Proof.
  intros r y r' Hr H. unfold mret, Parser_ret in H. simplify_eq. by exists [].
Qed.

Lemma sound_fail {A} e (W : list ascii -> A -> Prop) : sound (fail e) W.
Proof. intros r y r' _ H. discriminate. Qed.

Lemma sound_bind {A B} (p : Parser A) (f : A -> Parser B) W K :
  sound p W -> (forall x, sound (f x) (K x)) ->
  sound (p ≫= f) (fun b y => exists b1 b2 x, b = b1 ++ b2 /\ W b1 x /\ K x b2 y).
Proof.
  intros Hp Hf r y r' Hr H. unfold mbind, Parser_bind in H.
  destruct (p r) as [[x r1]|] eqn:E; [|done].
  destruct (Hp _ _ _ Hr E) as (b1 & H1 & Hr1 & HW).
  destruct (Hf _ _ _ _ Hr1 H) as (b2 & H2 & Hr2 & HK).
  exists (b1 ++ b2). rewrite H1, H2, app_assoc. naive_solver.
Qed.

Lemma sound_weaken {A} (p : Parser A) (W W' : list ascii -> A -> Prop) :
  sound p W -> (forall b x, W b x -> W' b x) -> sound p W'.
Proof. intros Hp HW r x r' Hr H. destruct (Hp _ _ _ Hr H) as (b & ?). naive_solver. Qed.

Lemma sound_if {A} (b : bool) (p q : Parser A) W :
  (b = true -> sound p W) -> (b = false -> sound q W) -> sound (if b then p else q) W.
Proof. destruct b; auto. Qed.

Lemma sound_decide {A} P `{Decision P} (p q : Parser A) W :
  (P -> sound p W) -> (~ P -> sound q W) -> sound (if decide P then p else q) W.
Proof. destruct (decide P); auto. Qed.

(** *** Primitives *)

Lemma reads_bytes b : reads (read_bytes (length b)) b b.
Proof.
  intros r t Hr H. unfold read_bytes.
  destruct (adv_unread _ _ _ Hr H) as [Hb _]. unfold in_bounds, adv in Hb. simpl in Hb.
  rewrite (proj2 (Nat.leb_le _ _)) by done. unfold unread in H. rewrite H.
  by rewrite take_app_length.
Qed.

Lemma sound_bytes n : sound (read_bytes n) (fun b x => b = x /\ length x = n).
Proof.
  intros r x r' Hr H. unfold read_bytes in H. destruct (_ <=? _)%nat eqn:E; [|done].
  apply Nat.leb_le in E. simplify_eq. unfold in_bounds, unread in *. simpl.
  exists (take n (drop (rd_pos r) (rd_buf r))).
  rewrite <- (drop_drop (rd_buf r)), take_drop. split; [done|]. split; [done|]. split; [done|].
  rewrite length_take_le; [done|]. rewrite length_drop. lia.
Qed.

Lemma reads_u8 c : reads read_u8 [c] c.
Proof. apply (reads_bind_nil _ _ [c] [c]); [apply (reads_bytes [c])|apply reads_ret]. Qed.

Lemma sound_u8 : sound read_u8 (fun b x => b = [x]).
Proof.
  eapply sound_weaken.
  - eapply (sound_bind _ _ _ (fun b b2 y => head b = Some y /\ b2 = [])); [apply sound_bytes|].
    intros [|c l]; [apply sound_fail|]. eapply sound_weaken; [apply sound_ret|]. naive_solver.
  - intros b x (b1 & b2 & y & -> & [-> Hl] & [Hh ->]). rewrite app_nil_r.
    destruct y as [|c [|]]; naive_solver.
Qed.

Lemma reads_be {A} n (f : Z -> A) z : reads (b ← read_bytes n; mret (f (be_val b))) (to_be n z) (f (z mod 256 ^ Z.of_nat n)).
Proof.
  rewrite <- (be_val_to_be_mod n z).
  apply (reads_bind_nil _ _ _ (to_be n z)); [|apply reads_ret].
  rewrite <- (length_to_be n z) at 1. apply reads_bytes.
Qed.

Lemma sound_be {A} n (f : Z -> A) :
  sound (b ← read_bytes n; mret (f (be_val b)))
    (fun b x => exists z, b = to_be n z /\ 0 <= z < 256 ^ Z.of_nat n /\ x = f z).
Proof.
  eapply sound_weaken; [eapply sound_bind; [apply sound_bytes|intros; apply sound_ret]|].
  intros b x (b1 & b2 & y & -> & [-> Hl] & [-> ->]). exists (be_val y). rewrite app_nil_r, <- Hl.
  split; [by rewrite to_be_be_val|]. split; [apply be_val_range|done].
Qed.

Lemma reads_unsigned n z : 0 <= z < 256 ^ Z.of_nat n -> reads (b ← read_bytes n; mret (be_val b)) (to_be n z) z.
Proof.
  intros Hz. pose proof (reads_be n (fun x => x) z) as H. simpl in H.
  by rewrite Z.mod_small in H.
Qed.

Lemma sound_unsigned n :
  sound (b ← read_bytes n; mret (be_val b)) (fun b z => b = to_be n z /\ 0 <= z < 256 ^ Z.of_nat n).
Proof. eapply sound_weaken; [apply (sound_be n (fun x => x))|]. naive_solver. Qed.

Lemma pow256_even n : (0 < n)%nat -> 256 ^ Z.of_nat n mod 2 = 0.
Proof.
  intros Hn. replace (Z.of_nat n) with (Z.succ (Z.of_nat (n - 1))) by lia.
  rewrite Z.pow_succ_r by lia. rewrite <- Zmult_mod_idemp_l. done.
Qed.

Lemma signed_mod n z :
  (0 < n)%nat -> - (256 ^ Z.of_nat n / 2) <= z < 256 ^ Z.of_nat n / 2 -> signed n (z mod 256 ^ Z.of_nat n) = z.
Proof.
  intros Hn Hz. unfold signed. set (m := 256 ^ Z.of_nat n) in *.
  pose proof (pow256_even n Hn : m mod 2 = 0) as Hm.
  assert (0 < m) by (unfold m; lia).
  pose proof (Z.div_mod m 2).
  destruct (decide (0 <= z)).
  - rewrite Z.mod_small by lia. destruct (Z.ltb_spec z (m / 2)); lia.
  - rewrite <- (Z_mod_plus_full z 1), Z.mod_small by lia. destruct (Z.ltb_spec (z + 1 * m) (m / 2)); lia.
Qed.

Lemma signed_to_be n z : (0 < n)%nat -> 0 <= z < 256 ^ Z.of_nat n ->
  to_be n (signed n z) = to_be n z /\ - (256 ^ Z.of_nat n / 2) <= signed n z < 256 ^ Z.of_nat n / 2.
Proof.
  intros Hn Hz. set (m := 256 ^ Z.of_nat n) in *.
  pose proof (pow256_even n Hn : m mod 2 = 0) as Hm.
  pose proof (Z.div_mod m 2).
  split.
  - rewrite <- (to_be_be_val (to_be n (signed n z))), <- (to_be_be_val (to_be n z)), !length_to_be.
    f_equal. rewrite !be_val_to_be_mod. unfold signed. fold m.
    destruct (z <? m / 2); [done|]. replace (z - m) with (z + (-1) * m) by lia. apply Z_mod_plus_full.
  - unfold signed. fold m. destruct (Z.ltb_spec z (m / 2)); lia.
Qed.

Lemma reads_signed n z : (0 < n)%nat -> - (256 ^ Z.of_nat n / 2) <= z < 256 ^ Z.of_nat n / 2 ->
  reads (b ← read_bytes n; mret (signed n (be_val b))) (to_be n z) z.
Proof.
  intros Hn Hz. pose proof (reads_be n (signed n) z) as H. by rewrite signed_mod in H.
Qed.

Lemma sound_signed n : (0 < n)%nat ->
  sound (b ← read_bytes n; mret (signed n (be_val b)))
    (fun b z => b = to_be n z /\ - (256 ^ Z.of_nat n / 2) <= z < 256 ^ Z.of_nat n / 2).
Proof.
  intros Hn. eapply sound_weaken; [apply (sound_be n (signed n))|].
  intros b x (z & -> & Hz & ->). destruct (signed_to_be n z Hn Hz) as [-> ?]. done.
Qed.

Lemma reads_u32 z : is_u32 z -> reads read_u32 (to_be 4 z) z.
Proof. intros H. apply reads_unsigned. unfold is_u32, u32_MAX in H. simpl Z.of_nat. lia. Qed.
Lemma reads_lsn z : is_u64 z -> reads read_lsn (to_be 8 z) z.
Proof. intros H. apply (reads_unsigned 8). unfold is_u64, u64_MAX in H. simpl Z.of_nat. lia. Qed.
Lemma reads_i64 z : is_i64 z -> reads read_i64 (to_be 8 z) z.
Proof. intros H. apply reads_signed; [lia|]. unfold is_i64, i64_MIN, i64_MAX in H. change (256 ^ Z.of_nat 8 / 2) with 9223372036854775808. lia. Qed.
Lemma reads_i32 z : is_i32 z -> reads read_i32 (to_be 4 z) z.
Proof. intros H. apply reads_signed; [lia|]. unfold is_i32, i32_MIN, i32_MAX in H. change (256 ^ Z.of_nat 4 / 2) with 2147483648. lia. Qed.
Lemma reads_i16 z : -32768 <= z <= 32767 -> reads read_i16 (to_be 2 z) z.
Proof. intros H. apply reads_signed; [lia|]. change (256 ^ Z.of_nat 2 / 2) with 32768. lia. Qed.

Lemma sound_u32 : sound read_u32 (fun b z => b = to_be 4 z /\ is_u32 z).
Proof.
  eapply sound_weaken; [apply (sound_unsigned 4)|]. intros b z [-> H]. split; [done|].
  unfold is_u32, u32_MAX. change (256 ^ Z.of_nat 4) with 4294967296 in H. lia.
Qed.
Lemma sound_lsn : sound read_lsn (fun b z => b = to_be 8 z /\ is_u64 z).
Proof.
  eapply sound_weaken; [apply (sound_unsigned 8)|]. intros b z [-> H]. split; [done|].
  unfold is_u64, u64_MAX. change (256 ^ Z.of_nat 8) with 18446744073709551616 in H. lia.
Qed.
Lemma sound_i64 : sound read_i64 (fun b z => b = to_be 8 z /\ is_i64 z).
Proof.
  eapply sound_weaken; [apply (sound_signed 8); lia|]. intros b z [-> H]. split; [done|].
  unfold is_i64, i64_MIN, i64_MAX. change (256 ^ Z.of_nat 8 / 2) with 9223372036854775808 in H. lia.
Qed.
Lemma sound_i32 : sound read_i32 (fun b z => b = to_be 4 z /\ is_i32 z).
Proof.
  eapply sound_weaken; [apply (sound_signed 4); lia|]. intros b z [-> H]. split; [done|].
  unfold is_i32, i32_MIN, i32_MAX. change (256 ^ Z.of_nat 4 / 2) with 2147483648 in H. lia.
Qed.
Lemma sound_i16 : sound read_i16 (fun b z => b = to_be 2 z /\ z <= 32767).
Proof.
  eapply sound_weaken; [apply (sound_signed 2); lia|]. intros b z [-> H]. split; [done|].
  change (256 ^ Z.of_nat 2 / 2) with 32768 in H. lia.
Qed.

Lemma position_nul l t :
  "000"%char ∉ l -> position (fun b => bool_decide (b = "000"%char)) (l ++ "000"%char :: t) = Some (length l).
Proof.
  induction l as [|c l IH]; intros H; simpl; [done|].
  apply not_elem_of_cons in H as [Hc Hl]. rewrite bool_decide_eq_false_2 by congruence.
  by rewrite IH.
Qed.

Lemma reads_cstr s : wf_cstr s -> reads cstr (enc_cstr s) s.
Proof.
  intros [Hu Hn] r t Hr H. unfold cstr. fold (unread r). rewrite H. unfold enc_cstr.
  rewrite <- app_assoc. simpl. rewrite position_nul by done.
  rewrite take_app_length, Hu, str_of_bytes. unfold adv. by rewrite length_app.
Qed.

Lemma sound_cstr : sound cstr (fun b s => b = enc_cstr s /\ wf_cstr s).
Proof.
  intros r s r' Hr H. unfold cstr in H. fold (unread r) in H.
  destruct (position _ _) as [n|] eqn:E; [|done].
  destruct (utf8_valid _) eqn:Hu; [|done]. simplify_eq.
  apply position_Some in E as (x & Hx & Hz & Hlt). apply bool_decide_eq_true in Hz as ->.
  assert (unread r = (take n (unread r) ++ ["000"%char]) ++ drop (S n) (unread r)) as Hs.
  { rewrite <- app_assoc. symmetry. by apply take_drop_middle. }
  pose proof (lookup_lt_Some _ _ _ Hx) as Hl.
  exists (take n (unread r) ++ ["000"%char]).
  assert (length (take n (unread r) ++ ["000"%char]) = n + 1)%nat as Hlen.
  { rewrite length_app, length_take_le by lia. done. }
  destruct (adv_unread r _ _ Hr Hs) as [Hb Hun]. rewrite Hlen in Hb, Hun. unfold adv in Hb, Hun.
  split; [by rewrite Hun|]. split; [done|]. unfold enc_cstr, wf_cstr. rewrite bytes_str_of.
  split; [done|]. split; [done|]. intros (j & Hj)%list_elem_of_lookup.
  apply lookup_take_Some in Hj as [Hj Hjn]. specialize (Hlt _ _ Hjn Hj).
  by rewrite bool_decide_eq_false in Hlt.
Qed.

Lemma reads_count n : reads (count (Z.of_nat n)) [] n.
Proof.
  unfold count. rewrite (proj2 (Z.ltb_ge _ _)) by lia. rewrite Nat2Z.id. apply reads_ret.
Qed.

Lemma sound_count z : sound (count z) (fun b n => b = [] /\ z = Z.of_nat n).
Proof.
  unfold count. apply sound_if; [intros; apply sound_fail|intros Hz%Z.ltb_ge].
  eapply sound_weaken; [apply sound_ret|]. intros b x [-> ->]. split; [done|lia].
Qed.

Lemma reads_repeat {A} (p : Parser A) (enc : A -> list ascii) l :
  Forall (fun x => reads p (enc x) x) l -> reads (repeat_parse p (length l)) (concat (enc <$> l)) l.
Proof.
  induction 1 as [|x l Hx Hl IH]; cbn [length repeat_parse]; [apply reads_ret|].
  rewrite fmap_cons. cbn [concat]. eapply reads_bind; [exact Hx|].
  eapply reads_bind_nil; [exact IH|apply reads_ret].
Qed.

Lemma sound_repeat {A} (p : Parser A) enc (wf : A -> Prop) n :
  sound p (fun b x => b = enc x /\ wf x) ->
  sound (repeat_parse p n) (fun b l => b = concat (enc <$> l) /\ Forall wf l /\ length l = n).
Proof.
  intros Hp. induction n as [|n IH]; cbn [repeat_parse].
  - eapply sound_weaken; [apply sound_ret|]. intros b l [-> ->]. repeat constructor.
  - eapply sound_weaken.
    { eapply sound_bind; [exact Hp|]. intros x. eapply sound_bind; [exact IH|]. intros l. apply sound_ret. }
    intros b l (b1 & ? & x & -> & [-> Hx] & b2 & b3 & l' & -> & (-> & Hl & Hn) & -> & ->).
    rewrite app_nil_r. repeat split; [by constructor|by rewrite <- Hn].
Qed.

Create HintDb pgoutput.
#[export] Hint Resolve reads_ret reads_u8 reads_u32 reads_lsn reads_i64 reads_i32 reads_i16 reads_cstr
  reads_count reads_bytes sound_ret sound_u8 sound_u32 sound_lsn sound_i64 sound_i32 sound_i16 sound_cstr sound_count
  sound_bytes sound_fail : pgoutput.

#[local] Opaque to_be.

(** Reads the fields of an encoding one by one. *)
Ltac read_fields :=
  repeat first
    [ solve [eauto with pgoutput]
    | eapply reads_bind_nil; [solve [eauto with pgoutput]|]
    | eapply reads_bind; [solve [eauto with pgoutput]|] ].

(** Collects what a sequence of reads consumed. *)
Ltac sound_fields :=
  repeat first [ apply sound_ret | apply sound_bytes | solve [eauto with pgoutput] | eapply sound_bind; [|intros ?] ].

(** *** Composite fields *)

Lemma reads_sized v : wf_sized v -> reads read_sized (enc_sized v) v.
Proof.
  intros H. assert (is_i32 (Z.of_nat (length v))) by (unfold wf_sized, is_i32, i32_MIN in *; lia).
  unfold read_sized, enc_sized. eapply reads_bind; [eauto with pgoutput|].
  rewrite <- (app_nil_l v) at 2. eapply reads_bind; eauto with pgoutput.
Qed.

Ltac unpack :=
  repeat match goal with
  | H : exists _, _ |- _ => destruct H
  | H : _ /\ _ |- _ => destruct H
  end; simplify_eq; rewrite ?app_nil_r.

Lemma sound_sized : sound read_sized (fun b v => b = enc_sized v /\ wf_sized v).
Proof.
  eapply sound_weaken; [sound_fields|]. cbn beta. intros b v H. unpack.
  unfold is_i32, wf_sized in *. split; [done|lia].
Qed.

Lemma reads_xid in_stream xid : wf_xid in_stream xid -> reads (stream_xid in_stream) (enc_xid xid) xid.
Proof.
  destruct xid as [x|]; simpl; [intros [-> H]|intros ->]; unfold stream_xid; read_fields.
Qed.

Lemma sound_xid in_stream : sound (stream_xid in_stream) (fun b xid => b = enc_xid xid /\ wf_xid in_stream xid).
Proof.
  unfold stream_xid. apply sound_if; intros ->; (eapply sound_weaken; [sound_fields|]);
    cbn beta; intros b v H; unpack; done.
Qed.

#[export] Hint Resolve reads_sized sound_sized reads_xid sound_xid : pgoutput.

Lemma reads_column c : wf_column c -> reads tuple_column (enc_column c) c.
Proof.
  intros H. destruct c; cbn [enc_column wf_column] in *; unfold tuple_column;
    first [eapply reads_bind_nil; [apply reads_u8|]|eapply reads_bind; [apply reads_u8|]];
    simpl; read_fields.
Qed.

Lemma sound_column : sound tuple_column (fun b c => b = enc_column c /\ wf_column c).
Proof.
  unfold tuple_column. eapply sound_weaken.
  - eapply (sound_bind _ _ _ (fun kind b c => kind :: b = enc_column c /\ wf_column c)); [apply sound_u8|].
    intros kind. repeat (apply sound_decide; intros ?); [..|apply sound_fail]; subst;
      (eapply sound_weaken; [sound_fields|]); cbn beta; intros b c Hb; unpack; done.
  - intros b c Hb. unpack. simpl. naive_solver.
Qed.

Lemma reads_tuple t : wf_tuple t -> reads tuple_data (enc_tuple t) t.
Proof.
  intros [Hl Hc]. unfold tuple_data, enc_tuple. eapply reads_bind; [apply reads_i16; lia|].
  rewrite <- (app_nil_l (concat _)). eapply reads_bind; [apply reads_count|].
  apply reads_repeat. eapply Forall_impl; [exact Hc|apply reads_column].
Qed.

Lemma sound_tuple : sound tuple_data (fun b t => b = enc_tuple t /\ wf_tuple t).
Proof.
  unfold tuple_data. eapply sound_weaken.
  - do 2 (eapply sound_bind; [eauto with pgoutput|intros ?]). apply sound_repeat, sound_column.
  - cbn beta. intros b t H. unpack. done.
Qed.

Lemma reads_relation_column c : wf_relation_column c -> reads relation_column (enc_relation_column c) c.
Proof. destruct c. intros (? & ? & ?). unfold relation_column. read_fields. Qed.

Lemma sound_relation_column :
  sound relation_column (fun b c => b = enc_relation_column c /\ wf_relation_column c).
Proof.
  eapply sound_weaken; [unfold relation_column; sound_fields|]. cbn beta. intros b c H. unpack. done.
Qed.

Lemma reads_marker want : reads (expect_marker want) [want] tt.
Proof.
  eapply reads_bind_nil; [apply reads_u8|]. rewrite decide_True by done. apply reads_ret.
Qed.

Lemma sound_marker want : sound (expect_marker want) (fun b _ => b = [want]).
Proof.
  eapply sound_weaken.
  - eapply (sound_bind _ _ _ (fun c b _ => c = want /\ b = [])); [apply sound_u8|].
    intros c. apply sound_decide; intros ?; [|apply sound_fail].
    eapply sound_weaken; [apply sound_ret|]. naive_solver.
  - cbn beta. intros b c H. unpack. done.
Qed.

Lemma reads_prepared_body m :
  wf_prepared m ->
  reads (lsn ← read_lsn; end_lsn ← read_lsn; timestamp ← read_i64; xid ← read_u32; gid ← cstr;
         mret (mkPreparedTxn lsn end_lsn timestamp xid gid)) (enc_prepared m) m.
Proof. destruct m. intros (? & ? & ? & ? & ?). read_fields. Qed.

#[export] Hint Resolve reads_tuple sound_tuple reads_marker sound_marker : pgoutput.

(** *** Messages *)

Lemma reads_update in_stream xid oid key old t :
  wf_xid in_stream xid -> is_u32 oid -> wf_old_row key old -> wf_tuple t ->
  reads (update in_stream) (enc_xid xid ++ to_be 4 oid ++ enc_old_row key old ++ ["N"%char] ++ enc_tuple t)
    (mkUpdate xid oid key old t).
Proof.
  intros Hx Ho Hk Ht. unfold update. do 2 (eapply reads_bind; [eauto with pgoutput|]).
  destruct key as [k|], old as [o|]; try done; cbn [enc_old_row wf_old_row] in *.
  - rewrite <- app_assoc. eapply reads_bind; [apply reads_u8|]. simpl decide. cbn match. rewrite app_assoc.
    eapply reads_bind; [read_fields|]. simpl. read_fields.
  - rewrite <- app_assoc. eapply reads_bind; [apply reads_u8|]. simpl decide. cbn match. rewrite app_assoc.
    eapply reads_bind; [read_fields|]. simpl. read_fields.
  - rewrite app_nil_l. eapply reads_bind; [apply reads_u8|]. simpl decide. cbn match.
    rewrite <- (app_nil_l (enc_tuple t)). eapply reads_bind; [apply reads_ret|]. simpl. read_fields.
Qed.

Lemma reads_delete in_stream xid oid key old :
  wf_xid in_stream xid -> is_u32 oid -> wf_old_row key old -> ~ (key = None /\ old = None) ->
  reads (delete in_stream) (enc_xid xid ++ to_be 4 oid ++ enc_old_row key old) (mkDelete xid oid key old).
Proof.
  intros Hx Ho Hk Hn. unfold delete. do 2 (eapply reads_bind; [eauto with pgoutput|]).
  destruct key as [k|], old as [o|]; try done; cbn [enc_old_row wf_old_row] in *; [..|tauto];
    (eapply reads_bind; [apply reads_u8|]; simpl; read_fields).
Qed.

(** Splits the tag off an encoding, keeping the rest as written. *)
Ltac drop_tag :=
  cbn [enc_msg];
  repeat match goal with
  | |- context [tail ([?c] ++ ?b)] => change (tail ([c] ++ b)) with b
  | |- context [head ([?c] ++ ?b)] => change (head ([c] ++ b)) with (Some c)
  end; cbn [default].

Lemma reads_relation in_stream m f :
  wf_msg in_stream false f (MRelation m) -> reads (relation in_stream) (tail (enc_msg f (MRelation m))) m.
Proof.
  destruct m. intros (? & ? & ? & ? & ? & Hc). unfold relation. drop_tag.
  do 5 (eapply reads_bind; [eauto with pgoutput|]). eapply reads_bind; [apply reads_i16; lia|].
  rewrite <- (app_nil_l (concat _)). eapply reads_bind; [apply reads_count|].
  eapply reads_bind_nil; [|apply reads_ret]. apply reads_repeat.
  eapply Forall_impl; [exact Hc|apply reads_relation_column].
Qed.

Lemma reads_truncate in_stream m f :
  wf_msg in_stream false f (MTruncate m) -> reads (truncate in_stream) (tail (enc_msg f (MTruncate m))) m.
Proof.
  destruct m. intros (? & ? & Hc). unfold truncate. drop_tag.
  eapply reads_bind; [eauto with pgoutput|].
  eapply reads_bind; [apply reads_i32; unfold is_i32, i32_MIN; simpl in *; lia|].
  match goal with |- reads _ ?l _ => rewrite <- (app_nil_l l) end.
  eapply reads_bind; [apply reads_count|]. eapply reads_bind; [apply reads_u8|].
  eapply reads_bind_nil; [|apply reads_ret]. apply reads_repeat.
  eapply Forall_impl; [exact Hc|apply reads_u32].
Qed.

Lemma reads_prepared (has_flags : bool) f m :
  wf_prepared m -> reads (prepared has_flags) ((if has_flags then [f] else []) ++ enc_prepared m) m.
Proof.
  intros Hm. eapply reads_bind; [|by apply reads_prepared_body]. destruct has_flags; read_fields.
Qed.

Lemma reads_abort parallel f m :
  wf_msg false parallel f (MStreamAbort m) -> reads (stream_abort parallel) (tail (enc_msg f (MStreamAbort m))) m.
Proof.
  destruct m as [x s [l|] [t|]]; intros (? & ? & Hp); try done; drop_tag; unfold stream_abort;
    simpl in Hp; destruct_and?; subst; read_fields.
Qed.

Lemma enc_msg_tag f msg : enc_msg f msg = [default "000"%char (head (enc_msg f msg))] ++ tail (enc_msg f msg).
Proof. by destruct msg. Qed.

Lemma reads_frame in_stream parallel f msg :
  wf_msg in_stream parallel f msg ->
  reads (decode_frame in_stream parallel) (enc_msg f msg) (msg, bracket_after in_stream msg).
Proof.
  intros Hm. unfold decode_frame.
  assert (reads (decode_body in_stream parallel (default "000"%char (head (enc_msg f msg)))) (tail (enc_msg f msg))
            (msg, bracket_after in_stream msg)) as H.
  2: { rewrite (enc_msg_tag f msg) at 1. eapply reads_bind; [apply reads_u8|exact H]. }
  destruct msg as [m|m|m|m|m|m|m|m|m|m|m| |m|m|m|m|m|m|m]; drop_tag; cbn [bracket_after];
    unfold decode_body; simpl decide; cbn match; [..|]; try (eapply reads_bind_nil; [|apply reads_ret]).
  all: try solve [destruct m; simpl in Hm; destruct_and?; subst;
    unfold begin, logical_message, commit, origin, type_decl, insert, stream_start, stream_commit, rollback_prepared;
    read_fields].
  all: first [by apply reads_ret | by apply (reads_prepared true) | by apply (reads_prepared false)
    | by apply (reads_relation _ _ f) | by apply (reads_truncate _ _ f) | by apply (reads_abort _ f)
    | destruct m; simpl in Hm; destruct_and?; by apply reads_update
    | destruct m; simpl in Hm; destruct_and?; by apply reads_delete ].
Qed.

Ltac accept_fields :=
  eapply sound_weaken; [sound_fields|]; cbn beta; intros ? ? ?; unpack;
  (eexists; split; [reflexivity|simpl; try done; try naive_solver]).

Lemma accepts_update in_stream parallel : accepts_msg in_stream parallel "U"%char MUpdate (update in_stream).
Proof.
  unfold accepts_msg, update. eapply sound_weaken.
  - do 3 (eapply sound_bind; [eauto with pgoutput|intros ?]).
    eapply (sound_bind _ _ (fun b '(key, old, marker) => x1 :: b = enc_old_row key old ++ [marker] /\ wf_old_row key old)
      (fun '(key, old, marker) b m => marker = "N"%char /\ exists t, b = enc_tuple t /\ wf_tuple t /\
        m = mkUpdate x x0 key old t)).
    + repeat (apply sound_decide; intros ?); subst; (eapply sound_weaken; [sound_fields|]);
        cbn beta; intros ? ? ?; unpack; [..|done]; cbn [enc_old_row]; by rewrite <- ?app_assoc.
    + intros [[key old] marker]. apply sound_decide; intros ?; [|apply sound_fail].
      eapply sound_weaken; [sound_fields|]. cbn beta. intros ? ? ?. unpack. eauto.
  - cbn beta. intros b m H.
    destruct H as (b1 & b2 & x & -> & [-> Hx] & b3 & b4 & o & -> & [-> Ho] & b5 & b6 & c & -> & -> & b7 & b8
      & [[key old] marker] & -> & [Hr Hw] & -> & t & -> & Ht & ->).
    exists "000"%char. split; [|done]. cbn [enc_msg up_xid up_rel_oid up_key up_old up_new_tuple].
    rewrite (app_assoc (enc_old_row key old)), <- Hr. done.
Qed.

Lemma accepts_delete in_stream parallel : accepts_msg in_stream parallel "D"%char MDelete (delete in_stream).
Proof.
  unfold accepts_msg, delete. eapply sound_weaken.
  - do 2 (eapply sound_bind; [eauto with pgoutput|intros ?]).
    eapply (sound_bind _ _ _ (fun c b m => exists key old, c :: b = enc_old_row key old /\ wf_old_row key old
      /\ ~ (key = None /\ old = None) /\ m = mkDelete x x0 key old)); [eauto with pgoutput|]. intros c.
    repeat (apply sound_decide; intros ?); [..|apply sound_fail]; subst; (eapply sound_weaken; [sound_fields|]);
      cbn beta; intros ? ? ?; unpack;
      match goal with H : wf_tuple ?t |- _ => first [exists (Some t), None; by naive_solver|exists None, (Some t); naive_solver] end.
  - cbn beta. intros b m H.
    destruct H as (b1 & b2 & x & -> & [-> Hx] & b3 & b4 & o & -> & [-> Ho] & b5 & b6 & c & -> & -> & key & old & Hr
      & Hw & Hn & ->).
    exists "000"%char. split; [|done]. cbn [enc_msg de_xid de_rel_oid de_key de_old]. by rewrite <- Hr.
Qed.

Lemma accepts_relation in_stream parallel : accepts_msg in_stream parallel "R"%char MRelation (relation in_stream).
Proof.
  unfold accepts_msg, relation. eapply sound_weaken.
  - do 7 (eapply sound_bind; [eauto with pgoutput|intros ?]).
    eapply sound_bind; [apply sound_repeat, sound_relation_column|intros ?]. apply sound_ret.
  - cbn beta. intros b m H. unpack. exists "000"%char. done.
Qed.

Lemma accepts_truncate in_stream parallel : accepts_msg in_stream parallel "T"%char MTruncate (truncate in_stream).
Proof.
  unfold accepts_msg, truncate. eapply sound_weaken.
  - do 4 (eapply sound_bind; [eauto with pgoutput|intros ?]).
    eapply sound_bind; [apply (sound_repeat _ (to_be 4) is_u32), sound_u32|intros ?]. apply sound_ret.
  - cbn beta. intros b m H. unpack. exists "000"%char. unfold is_i32 in *. split; [done|]. simpl. naive_solver.
Qed.

Lemma accepts_abort in_stream parallel :
  accepts_msg in_stream parallel "A"%char MStreamAbort (stream_abort parallel).
Proof.
  unfold accepts_msg, stream_abort. destruct parallel;
    (eapply sound_weaken; [sound_fields|]); cbn beta; intros ? ? ?; unpack; exists "000"%char; done.
Qed.

(** The accepted frames of a tag, wrapped into the message and the bracket. *)
Lemma accepts_wrap {A} in_stream parallel tag (con : A -> LogicalRepMsg) (p : Parser A) next :
  accepts_msg in_stream parallel tag con p -> (forall m, bracket_after in_stream (con m) = next) ->
  sound (m ← p; mret (con m, next)) (fun b '(msg, nb) =>
    exists f, tag :: b = enc_msg f msg /\ wf_msg in_stream parallel f msg /\ nb = bracket_after in_stream msg).
Proof.
  intros Hp Hn. eapply sound_weaken; [eapply sound_bind; [exact Hp|intros; apply sound_ret]|].
  cbn beta. intros b [msg nb] H. unpack. eauto.
Qed.

Lemma sound_body in_stream parallel tag :
  sound (decode_body in_stream parallel tag) (fun b '(msg, nb) =>
    exists f, tag :: b = enc_msg f msg /\ wf_msg in_stream parallel f msg /\ nb = bracket_after in_stream msg).
Proof.
  unfold decode_body. repeat (apply sound_decide; intros ?); [..|apply sound_fail]; subst tag.
  all: try (apply accepts_wrap; [|done]).
  all: first [apply accepts_update | apply accepts_delete | apply accepts_relation | apply accepts_truncate
    | apply accepts_abort | idtac].
  all: unfold accepts_msg, begin, logical_message, commit, origin, type_decl, insert, stream_start, stream_commit,
    rollback_prepared; accept_fields.
  Unshelve. all: exact "000"%char.
Qed.

Lemma start_in_bounds buf : in_bounds (mkReader buf 0).
Proof. unfold in_bounds. simpl. lia. Qed.

Lemma decode_frame_sound in_stream parallel frame msg next r :
  decode_frame in_stream parallel (mkReader frame 0) = Ok ((msg, next), r) ->
  exists f, frame = enc_msg f msg ++ unread r /\ in_bounds r /\ wf_msg in_stream parallel f msg
    /\ next = bracket_after in_stream msg.
Proof.
  intros H. unfold decode_frame in H.
  destruct (sound_bind _ _ _ _ sound_u8 (sound_body in_stream parallel) _ _ _ (start_in_bounds frame) H)
    as (b & Hb & Hr & b1 & b2 & tag & -> & -> & f & He & Hw & ->).
  exists f. rewrite <- He. change (frame = ([tag] ++ b2) ++ unread r) in Hb. by subst.
Qed.

Lemma remaining_unread r : in_bounds r -> remaining r = 0%nat -> unread r = [].
Proof.
  unfold in_bounds, remaining, unread. intros Hr H. apply drop_ge. lia.
Qed.

(** C15: the decoder accepts exactly PostgreSQL's wire grammar: a frame decodes to
    a message if and only if it is, byte for byte and with nothing left over, an
    encoding of that message that is well formed in the decoder's state (the
    per-change transaction id present exactly inside a streamed block, the abort
    position exactly under parallel streaming, every count, length and string in
    range), and the only state a message changes is the streamed-block bracket. *)
Theorem decode_exact frame d d' msg :
  decode frame d = (d', Ok msg) <->
  (exists f, frame = enc_msg f msg /\ wf_msg (pd_in_stream d) (is_parallel d) f msg) /\ d' = decoder_after d msg.
Proof.
  unfold decode. fold (is_parallel d). split.
  - destruct (decode_frame _ _ _) as [[[m next] r]|e] eqn:E; [|done].
    apply decode_frame_sound in E as (f & -> & Hr & Hw & ->).
    destruct (Nat.eqb_spec (remaining r) 0) as [Hz|]; [|done]. intros [= <- <-].
    rewrite (remaining_unread r Hr Hz), app_nil_r. eauto.
  - intros [(f & -> & Hw) ->].
    rewrite (reads_frame _ _ f msg Hw (mkReader (enc_msg f msg) 0) [] (start_in_bounds _)) by by rewrite app_nil_r.
    unfold remaining, adv. simpl. by rewrite Nat.sub_diag.
Qed.

(** a frame the decoder refuses leaves the decoder as it was, so a decode
    error never makes a later change's transaction-id prefix be misread. *)
Theorem decode_error_keeps_state frame d d' e : decode frame d = (d', Err e) -> d' = d.
Proof.
  unfold decode. repeat case_match; naive_solver.
Qed.

Lemma decode_error_keeps_state_witness :
  decode ["S"%char; "001"%char] (new_decoder 2) = (new_decoder 2, Err (Truncated 1 4)) /\ new_decoder 2 = new_decoder 2.
Proof.
  split; [reflexivity|]. apply (decode_error_keeps_state ["S"%char; "001"%char] _ _ (Truncated 1 4)). reflexivity.
Defined.

(** One encoding of a message determines it: no frame means two messages. *)
Lemma enc_msg_inj in_stream parallel f g m n :
  wf_msg in_stream parallel f m -> wf_msg in_stream parallel g n -> enc_msg f m = enc_msg g n -> m = n.
Proof.
  intros Hm Hn He.
  pose proof (reads_frame _ _ _ _ Hm (mkReader (enc_msg f m) 0) [] (start_in_bounds _)) as H1.
  pose proof (reads_frame _ _ _ _ Hn (mkReader (enc_msg f m) 0) [] (start_in_bounds _)) as H2.
  rewrite <- He in H2. unfold unread in *. simpl in *. rewrite app_nil_r in *.
  specialize (H1 eq_refl). rewrite (H2 eq_refl) in H1. naive_solver.
Qed.

Example decode_streamed_insert :
  let frame := enc_msg "000"%char (MInsert (mkInsert (Some 7) 16400 [TCText ["5"%char]; TCNull])) in
  decode frame (mkDecoder 2 StreamOn true)
  = (mkDecoder 2 StreamOn true, Ok (MInsert (mkInsert (Some 7) 16400 [TCText ["5"%char]; TCNull]))).
Proof. vm_compute. reflexivity. Qed.
