(* ===== verification/Stream.v ===== *)
(** * The streaming-replication wrapper

    [src/crates/pgshard-repl/src/stream.rs]: the two server messages of the
    CopyData stream and the two client messages, whose encoders produce the
    bytes of a frame. *)

From S2P Require Import Prelude Rust Lsn PgOutput.

Open Scope Z_scope.

Record XLogData := mkXLogData {
  xl_wal_start : Lsn; xl_wal_end : Lsn; xl_server_time : Z; xl_data : list ascii;
}.
Record PrimaryKeepalive := mkPrimaryKeepalive {
  pk_wal_end : Lsn; pk_server_time : Z; pk_reply_requested : bool;
}.

Inductive ReplicationMessage :=
| RXLogData (m : XLogData)
| RPrimaryKeepalive (m : PrimaryKeepalive).

Definition wrapper : Parser ReplicationMessage :=
  tag ← read_u8;
  if decide (tag = "w"%char) then
    wal_start ← read_lsn; wal_end ← read_lsn; server_time ← read_i64; data ← rest;
    mret (RXLogData (mkXLogData wal_start wal_end server_time data))
  else if decide (tag = "k"%char) then
    wal_end ← read_lsn; server_time ← read_i64; reply ← read_u8;
    mret (RPrimaryKeepalive (mkPrimaryKeepalive wal_end server_time (negb (bool_decide (reply = "000"%char)))))
  else fail (UnknownMessage tag).

Definition decode (frame : list ascii) : result DecodeError ReplicationMessage :=
  match wrapper (mkReader frame 0) with
  | Err e => Err e
  | Ok (msg, r) => if (remaining r =? 0)%nat then Ok msg else Err (TrailingBytes (remaining r))
  end.

Record StandbyStatusUpdate := mkStandbyStatusUpdate {
  su_write_lsn : Lsn; su_flush_lsn : Lsn; su_apply_lsn : Lsn; su_client_time : Z; su_reply_requested : bool;
}.

Definition byte_of_bool (b : bool) : ascii := if b then "001"%char else "000"%char.

Definition encode_status (m : StandbyStatusUpdate) : list ascii :=
  ["r"%char] ++ to_be 8 (su_write_lsn m) ++ to_be 8 (su_flush_lsn m) ++ to_be 8 (su_apply_lsn m)
    ++ to_be 8 (su_client_time m) ++ [byte_of_bool (su_reply_requested m)].

Record HotStandbyFeedback := mkHotStandbyFeedback {
  hs_client_time : Z; hs_global_xmin : Z; hs_global_xmin_epoch : Z; hs_catalog_xmin : Z; hs_catalog_xmin_epoch : Z;
}.

Definition encode_feedback (m : HotStandbyFeedback) : list ascii :=
  ["h"%char] ++ to_be 8 (hs_client_time m) ++ to_be 4 (hs_global_xmin m) ++ to_be 4 (hs_global_xmin_epoch m)
    ++ to_be 4 (hs_catalog_xmin m) ++ to_be 4 (hs_catalog_xmin_epoch m).

(** ** The protocol's own description of the frames *)

(** A server frame; [reply] is the reply byte of a keepalive. *)
Definition enc_wrapper (reply : ascii) (m : ReplicationMessage) : list ascii :=
  match m with
  | RXLogData m => ["w"%char] ++ to_be 8 (xl_wal_start m) ++ to_be 8 (xl_wal_end m) ++ to_be 8 (xl_server_time m) ++ xl_data m
  | RPrimaryKeepalive m => ["k"%char] ++ to_be 8 (pk_wal_end m) ++ to_be 8 (pk_server_time m) ++ [reply]
  end.

Definition wf_wrapper (reply : ascii) (m : ReplicationMessage) : Prop :=
  match m with
  | RXLogData m => is_u64 (xl_wal_start m) /\ is_u64 (xl_wal_end m) /\ is_i64 (xl_server_time m)
  | RPrimaryKeepalive m =>
      is_u64 (pk_wal_end m) /\ is_i64 (pk_server_time m)
      /\ pk_reply_requested m = negb (bool_decide (reply = "000"%char))
  end.

(** A server's reading of the client messages, with the readers of the decoder. *)
Definition read_status : Parser StandbyStatusUpdate :=
  _ ← expect_marker "r"%char; write_lsn ← read_lsn; flush_lsn ← read_lsn; apply_lsn ← read_lsn;
  client_time ← read_i64; reply ← read_u8;
  mret (mkStandbyStatusUpdate write_lsn flush_lsn apply_lsn client_time (negb (bool_decide (reply = "000"%char)))).

Definition read_feedback : Parser HotStandbyFeedback :=
  _ ← expect_marker "h"%char; client_time ← read_i64; global_xmin ← read_u32; global_xmin_epoch ← read_u32;
  catalog_xmin ← read_u32; catalog_xmin_epoch ← read_u32;
  mret (mkHotStandbyFeedback client_time global_xmin global_xmin_epoch catalog_xmin catalog_xmin_epoch).

Definition wf_status (m : StandbyStatusUpdate) : Prop :=
  is_u64 (su_write_lsn m) /\ is_u64 (su_flush_lsn m) /\ is_u64 (su_apply_lsn m) /\ is_i64 (su_client_time m).

Definition wf_feedback (m : HotStandbyFeedback) : Prop :=
  is_i64 (hs_client_time m) /\ is_u32 (hs_global_xmin m) /\ is_u32 (hs_global_xmin_epoch m)
  /\ is_u32 (hs_catalog_xmin m) /\ is_u32 (hs_catalog_xmin_epoch m).

(** [p] takes the whole of the unread bytes [b] to [x]. *)
Definition reads_all {A} (p : Parser A) (b : list ascii) (x : A) : Prop :=
  forall r, in_bounds r -> unread r = b -> exists r', p r = Ok (x, r') /\ remaining r' = 0%nat.

#[local] Opaque to_be.

Lemma sound_rest : sound rest (fun b x => b = x).
Proof.
  intros r x r' Hr H. unfold rest in H. simplify_eq. exists (unread r). unfold unread, in_bounds in *. simpl.
  rewrite (drop_ge (rd_buf r) (length (rd_buf r))) by lia. rewrite app_nil_r. done.
Qed.

Lemma wrapper_sound :
  sound wrapper (fun b m => exists reply, b = enc_wrapper reply m /\ wf_wrapper reply m).
Proof.
  eapply sound_weaken.
  - eapply (sound_bind _ _ _ (fun tag b m => exists reply, tag :: b = enc_wrapper reply m /\ wf_wrapper reply m));
      [apply sound_u8|]. intros tag.
    repeat (apply sound_decide; intros ?); [..|apply sound_fail]; subst tag;
      (eapply sound_weaken; [repeat first [apply sound_rest | progress sound_fields | eapply sound_bind; [|intros ?]]|]);
      cbn beta; intros ? ? ?; unpack; [exists "000"%char; done|eexists; done].
  - cbn beta. intros b m H. unpack. simpl. eauto.
Qed.

Lemma reads_all_of {A} (p : Parser A) b x : reads p b x -> reads_all p b x.
Proof.
  intros H r Hr Hu. rewrite (H r [] Hr) by by rewrite app_nil_r. eexists. split; [done|].
  rewrite <- (app_nil_r b) in Hu. destruct (adv_unread _ _ _ Hr Hu) as [Hb Hn].
  unfold remaining. unfold unread in Hn. apply (f_equal length) in Hn. rewrite length_drop in Hn. done.
Qed.

Lemma reads_all_bind {A B} (p : Parser A) (f : A -> Parser B) b1 b2 x y :
  reads p b1 x -> reads_all (f x) b2 y -> reads_all (p ≫= f) (b1 ++ b2) y.
Proof.
  intros Hp Hf r Hr Hu. unfold mbind, Parser_bind. rewrite (Hp r b2 Hr Hu).
  destruct (adv_unread _ _ _ Hr Hu) as [Hb Hn]. by apply Hf.
Qed.

Lemma reads_all_rest {A} (g : list ascii -> A) b : reads_all (x ← rest; mret (g x)) b (g b).
Proof.
  intros r Hr Hu. unfold mbind, Parser_bind, rest, mret, Parser_ret. fold (unread r). rewrite Hu.
  eexists. split; [done|]. unfold remaining. simpl. lia.
Qed.

Lemma wrapper_complete reply m : wf_wrapper reply m -> reads_all wrapper (enc_wrapper reply m) m.
Proof.
  destruct m as [[]|[]]; intros H; simpl in H; destruct_and!; subst;
    (eapply reads_all_bind; [apply reads_u8|]); simpl decide; cbn match.
  - do 3 (eapply reads_all_bind; [eauto with pgoutput|]). apply (reads_all_rest (fun d => RXLogData (mkXLogData _ _ _ d))).
  - apply reads_all_of. read_fields.
Qed.

(** a CopyData frame splits into a WAL chunk or a keepalive exactly when it is
    an encoding of that message, nothing left over; a WAL chunk's payload is the
    rest of the frame, unchanged, and a keepalive asks for a reply exactly when
    its last byte is not zero. *)
Theorem wrapper_exact frame msg :
  decode frame = Ok msg <-> exists reply, frame = enc_wrapper reply msg /\ wf_wrapper reply msg.
Proof.
  unfold decode. split.
  - destruct (wrapper _) as [[m r]|] eqn:E; [|done].
    destruct (Nat.eqb_spec (remaining r) 0) as [Hz|]; [|done]. intros [= ->].
    destruct (wrapper_sound _ _ _ (start_in_bounds frame) E) as (b & Hb & Hr & reply & -> & Hw).
    change (frame = enc_wrapper reply msg ++ unread r) in Hb.
    rewrite (remaining_unread r Hr Hz), app_nil_r in Hb. eauto.
  - intros (reply & -> & Hw).
    destruct (wrapper_complete reply msg Hw (mkReader _ 0) (start_in_bounds _) eq_refl) as (r' & -> & ->). done.
Qed.

(** the client's status update and hot-standby feedback are 34 and 25 bytes,
    and a server that reads the fields back in order recovers exactly the
    positions reported. *)
Theorem feedback_round_trip m h :
  wf_status m -> wf_feedback h ->
  (length (encode_status m) = 34%nat /\ reads_all read_status (encode_status m) m)
  /\ (length (encode_feedback h) = 25%nat /\ reads_all read_feedback (encode_feedback h) h).
Proof.
  destruct m as [w f a t []], h; intros (? & ? & ? & ?) (? & ? & ? & ? & ?); simpl in *;
    (split; split; [unfold encode_status, encode_feedback; rewrite ?length_app, ?length_to_be; done| |
                    unfold encode_status, encode_feedback; rewrite ?length_app, ?length_to_be; done|];
     apply reads_all_of; unfold read_status, read_feedback, encode_status, encode_feedback; read_fields).
Qed.

Lemma feedback_round_trip_witness :
  let m := mkStandbyStatusUpdate 17 34 51 725 true in
  let h := mkHotStandbyFeedback 725 100 1 90 1 in
  (length (encode_status m) = 34%nat /\ reads_all read_status (encode_status m) m)
  /\ (length (encode_feedback h) = 25%nat /\ reads_all read_feedback (encode_feedback h) h).
Proof. apply feedback_round_trip; repeat split; vm_compute; done. Defined.
