(* ===== verification/Client.v ===== *)
(** * The replication connection

    [src/crates/pgshard-repl/src/client.rs]: the hand-written backend client that
    authenticates, creates a slot and streams its changes. The socket is a parameter
    of the state: what its reads return, chunk by chunk, and which of its writes
    fail; what was written is kept. The SCRAM exchange and the frontend messages of
    the postgres-protocol crate are parameters. *)

From S2P Require Import Prelude Rust Lsn PgOutput Stream.

Open Scope Z_scope.

Record Config := mkConfig {
  cf_host : string; cf_port : Z; cf_user : string; cf_password : string; cf_database : string;
}.

(** The texts of [Malformed] and [Auth] are kept up to the value they quote; the text
    of [Server] is the lossy UTF-8 reading of the bytes kept here. *)
Inductive ClientError :=
| CIo (e : string)
| CClosed
| CServer (message : option (list ascii))
| CAuth (what : string)
| CUnexpected (tag : ascii)
| CMalformed (what : string)
| CDecode (e : DecodeError)
(* not errors of the source: the read never returns; the loop's bound is spent *)
| CPending
| COutOfFuel.

Definition MAX_MESSAGE_LEN : Z := Z.shiftl 1 30.

(** ** The socket *)

(** What a read meets: bytes (none at the end of the stream), a failure, or the
    deadline of the control read in progress. After the last event the peer is
    silent. *)
Inductive NetEvent := Data (b : list ascii) | Broken (e : string) | Stall.

Record ReplicationClient := mkClient {
  rc_events : list NetEvent;
  rc_faults : list (option string);
  rc_sent : list (list ascii);
  rc_buf : list ascii;
  rc_last_wal_end : Lsn;
  rc_confirmed_lsn : Lsn;
}.

(** [let mut chunk = [0u8; 16 * 1024]]: what one read returns at most. *)
Definition READ_SIZE : nat := 16 * 1024.

(** ** Operations: state and errors *)

#[global] Abbreviation Op := (St ReplicationClient ClientError).

Definition write_all (b : list ascii) : Op unit := fun c =>
  match rc_faults c with
  | Some e :: faults => (mkClient (rc_events c) faults (rc_sent c) (rc_buf c) (rc_last_wal_end c) (rc_confirmed_lsn c), Err (CIo e))
  | faults =>
      (mkClient (rc_events c) (tail faults) (rc_sent c ++ [b]) (rc_buf c) (rc_last_wal_end c) (rc_confirmed_lsn c), Ok tt)
  end.

(** [while read_buf.len() < n { fill }]; [deadline] when the read is under the
    control timeout. *)
Fixpoint fill_until (deadline : bool) (n : nat) (events : list NetEvent) (buf : list ascii)
    : list NetEvent * list ascii * result ClientError unit :=
  if (n <=? length buf)%nat then (events, buf, Ok tt)
  else match events with
  | [] => ([], buf, Err (if deadline then CMalformed "timed out waiting for a server reply" else CPending))
  | Data [] :: events' => (events', buf, Err CClosed)
  | Data b :: events' => fill_until deadline n events' (buf ++ b)
  | Broken e :: events' => (events', buf, Err (CIo e))
  | Stall :: events' =>
      if deadline then (events', buf, Err (CMalformed "timed out waiting for a server reply"))
      else fill_until deadline n events' buf
  end.

Definition set_read (c : ReplicationClient) (events : list NetEvent) (buf : list ascii) : ReplicationClient :=
  mkClient events (rc_faults c) (rc_sent c) buf (rc_last_wal_end c) (rc_confirmed_lsn c).

Definition fill_to (deadline : bool) (n : nat) : Op unit := fun c =>
  let '(events, buf, r) := fill_until deadline n (rc_events c) (rc_buf c) in (set_read c events buf, r).

(** [read_buf.split_to(n)], for [n] bytes that are there. *)
Definition split_to (n : nat) : Op (list ascii) := fun c => (set_read c (rc_events c) (drop n (rc_buf c)), Ok (take n (rc_buf c))).

Definition peek : Op (list ascii) := fun c => (c, Ok (rc_buf c)).

Definition read_message (deadline : bool) : Op (ascii * list ascii) :=
  _ ← fill_to deadline 5;
  buf ← peek;
  let len := signed 4 (be_val (take 4 (drop 1 buf))) in
  if (4 <=? len) && (len <=? MAX_MESSAGE_LEN) then
    let total := (1 + Z.to_nat len)%nat in
    _ ← fill_to deadline total;
    msg ← split_to total;
    match msg with
    | tag :: _ => mret (tag, drop 5 msg)
    | [] => throw COutOfFuel
    end
  else throw (CMalformed "bad message length").

(** ** Loops over messages *)

Definition event_bytes (e : NetEvent) : nat := match e with Data b => length b | _ => O end.
Definition pending_bytes (c : ReplicationClient) : nat := length (rc_buf c) + sum_list (event_bytes <$> rc_events c).

(** [loop { let msg = read; match msg { ... } }]: [step] returns [None] to continue. *)
Fixpoint recv_loop {M A} (read : Op M) (step : M -> Op (option A)) (fuel : nat) : Op A :=
  match fuel with
  | O => throw COutOfFuel
  | S fuel' =>
      msg ← read;
      o ← step msg;
      match o with Some a => mret a | None => recv_loop read step fuel' end
  end.

(** Every message takes bytes off the socket, so one more round than there are bytes
    is enough. *)
Definition recv {M A} (read : Op M) (step : M -> Op (option A)) : Op A :=
  fun c => recv_loop read step (S (pending_bytes c)) c.

Definition read_control : Op (ascii * list ascii) :=
  recv (read_message true) (fun msg => mret (if bool_decide (msg.1 = "N"%char) then None else Some msg)).

(** ** Parsing bodies *)

Definition read_i32 (body : list ascii) : result ClientError (Z * list ascii) :=
  if (length body <? 4)%nat then Err (CMalformed "truncated int32")
  else Ok (signed 4 (be_val (take 4 body)), drop 4 body).

Definition server_error (body : list ascii) : ClientError :=
  CServer (head (omap (fun field => match field with "M"%char :: rest => Some rest | _ => None end) (split_bytes "000"%char body))).

(** The names in a SASL body that are compared: a lossy reading equals an ASCII name
    exactly when the bytes do. *)
Definition mechanisms (body : list ascii) : list (list ascii) :=
  List.filter (fun s => negb (bool_decide (s = []))) (split_bytes "000"%char body).

Definition CONSISTENT_FIELD : nat := 1.
Definition SNAPSHOT_FIELD : nat := 2.

(** The loop over the fields from the [i]th. *)
Fixpoint slot_fields (n i : nat) (body : list ascii) (consistent : option Lsn) (snapshot : option string)
    : result ClientError (option Lsn * option string) :=
  match n with
  | O => Ok (consistent, snapshot)
  | S n' =>
      let wanted := (i =? CONSISTENT_FIELD)%nat || (i =? SNAPSHOT_FIELD)%nat in
      if (length body <? 4)%nat then Err (CMalformed "truncated slot DataRow field")
      else
        let len := signed 4 (be_val (take 4 body)) in
        let body := drop 4 body in
        if len <? 0 then
          if wanted then Err (CMalformed "null consistent point or snapshot name")
          else slot_fields n' (S i) body consistent snapshot
        else
          let len := Z.to_nat len in
          if (length body <? len)%nat then Err (CMalformed "truncated slot DataRow value")
          else if wanted then
            let bytes := take len body in
            if negb (utf8_valid bytes) then Err (CMalformed "slot DataRow value not UTF-8")
            else if (i =? CONSISTENT_FIELD)%nat then
              lsn ← map_err (fun _ => CMalformed "unparseable consistent point") (Lsn_from_str (str_of bytes));
              slot_fields n' (S i) (drop len body) (Some lsn) snapshot
            else slot_fields n' (S i) (drop len body) consistent (Some (str_of bytes))
          else slot_fields n' (S i) (drop len body) consistent snapshot
  end.

Definition slot_row (body : list ascii) : result ClientError (string * Lsn) :=
  if (length body <? 2)%nat then Err (CMalformed "short slot DataRow")
  else
    let fields := Z.to_nat (be_val (take 2 body)) in
    if (fields <=? SNAPSHOT_FIELD)%nat then Err (CMalformed "CREATE_REPLICATION_SLOT row has too few fields")
    else
      '(consistent, snapshot) ← slot_fields fields 0 (drop 2 body) None None;
      match snapshot, consistent with
      | Some s, Some c => Ok (s, c)
      | _, _ => Err (CMalformed "no snapshot or consistent-point field in slot DataRow")
      end.

(** ** Names *)

Definition is_safe_ident (name : string) : bool :=
  negb (str_is_empty name) && (str_len name <=? 63)%nat
  && forallb (fun b => is_ascii_alnum b || bool_decide (b = "_"%char)) (bytes name).

(** ** Third-party protocol code *)

(** [postgres_protocol]: the frontend messages and the SCRAM-SHA-256 exchange. *)
Class Protocol := {
  startup_message : list (string * string) -> result string (list ascii);
  query_message : string -> result string (list ascii);
  sasl_initial_response : string -> list ascii -> result string (list ascii);
  sasl_response : list ascii -> result string (list ascii);
  Scram : Type;
  scram_new : list ascii -> Scram;
  scram_message : Scram -> list ascii;
  scram_update : Scram -> list ascii -> result string Scram;
  scram_finish : Scram -> list ascii -> result string unit;
}.

Section client.
  Context `{Protocol}.

Definition malformed {A} (r : result string A) : Op A := lift (map_err CMalformed r).

Definition send_query (sql : string) : Op unit :=
  buf ← malformed (query_message sql);
  write_all buf.

(** [i32::try_from(4 + payload.len())]. *)
Definition send_copy_data (payload : list ascii) : Op unit :=
  let len := 4 + Z.of_nat (length payload) in
  if i32_MAX <? len then throw (CMalformed "copy-data payload too large")
  else write_all ("d"%char :: to_be 4 len ++ payload).

(** ** Connecting *)

(** [tag != b'R' || read_i32(body)? != code]: the rest of the body. *)
Definition expect_auth (code : Z) (what : string) : Op (list ascii) :=
  '(tag, body) ← read_control;
  if bool_decide (tag = "E"%char) then throw (server_error body)
  else if negb (bool_decide (tag = "R"%char)) then throw (CAuth what)
  else
    '(got, rest) ← lift (read_i32 body);
    if got =? code then mret rest else throw (CAuth what).

Definition authenticate (config : Config) : Op unit :=
  '(tag, body) ← read_control;
  if bool_decide (tag = "E"%char) then throw (server_error body)
  else if negb (bool_decide (tag = "R"%char)) then throw (CUnexpected tag)
  else
    '(method, body) ← lift (read_i32 body);
    if method =? 0 then
      if str_is_empty (cf_password config) then mret tt
      else throw (CAuth "server requested no authentication but a password is configured; refusing the trust downgrade")
    else if negb (method =? 10) then throw (CAuth "unsupported authentication method")
    else if negb (existsb (fun m => bool_decide (m = bytes "SCRAM-SHA-256")) (mechanisms body)) then
      throw (CAuth "server did not offer SCRAM-SHA-256")
    else
      let scram := scram_new (bytes (cf_password config)) in
      buf ← malformed (sasl_initial_response "SCRAM-SHA-256" (scram_message scram));
      _ ← write_all buf;
      body ← expect_auth 11 "expected SASLContinue";
      scram ← lift (map_err CAuth (scram_update scram body));
      buf ← malformed (sasl_response (scram_message scram));
      _ ← write_all buf;
      body ← expect_auth 12 "expected SASLFinal";
      _ ← lift (map_err CAuth (scram_finish scram body));
      _ ← expect_auth 0 "expected AuthenticationOk";
      mret tt.

Definition startup_parameters (config : Config) : list (string * string) :=
  [("user", cf_user config); ("database", cf_database config); ("replication", "database"); ("client_encoding", "UTF8");
   ("bytea_output", "hex"); ("DateStyle", "ISO"); ("IntervalStyle", "postgres"); ("extra_float_digits", "3")].

Definition startup (config : Config) : Op unit :=
  buf ← malformed (startup_message (startup_parameters config));
  _ ← write_all buf;
  _ ← authenticate config;
  recv read_control (fun '(tag, body) =>
    if bool_decide (tag = "Z"%char) then mret (Some tt)
    else if bool_decide (tag ∈ ["S"%char; "K"%char]) then mret None
    else if bool_decide (tag = "E"%char) then throw (server_error body)
    else throw (CUnexpected tag)).

(** [connect], on the socket of a TCP connection or its failure. *)
Definition connect (config : Config) (tcp : result string (list NetEvent * list (option string)))
    : result ClientError ReplicationClient :=
  '(events, faults) ← map_err CIo tcp;
  match startup config (mkClient events faults [] [] 0 0) with
  | (client, Ok _) => Ok client
  | (_, Err e) => Err e
  end.

(** ** Commands *)

Definition create_logical_slot (name : string) (temporary : bool) : Op unit :=
  if negb (is_safe_ident name) then throw (CMalformed "unsafe replication slot name")
  else
    _ ← send_query (if temporary
                    then "CREATE_REPLICATION_SLOT " +:+ name +:+ " TEMPORARY LOGICAL pgoutput (SNAPSHOT 'nothing')"
                    else "CREATE_REPLICATION_SLOT " +:+ name +:+ " LOGICAL pgoutput (SNAPSHOT 'nothing', FAILOVER true)");
    recv read_control (fun '(tag, body) =>
      if bool_decide (tag = "Z"%char) then mret (Some tt)
      else if bool_decide (tag ∈ ["T"%char; "D"%char; "C"%char; "S"%char]) then mret None
      else if bool_decide (tag = "E"%char) then throw (server_error body)
      else throw (CUnexpected tag)).

(** The reply loop of [create_logical_slot_exported], with the row it has seen. *)
Fixpoint slot_reply (fuel : nat) (row : option (string * Lsn)) : Op (option (string * Lsn)) :=
  match fuel with
  | O => throw COutOfFuel
  | S fuel' =>
      '(tag, body) ← read_control;
      if bool_decide (tag = "D"%char) then row ← lift (slot_row body); slot_reply fuel' (Some row)
      else if bool_decide (tag ∈ ["T"%char; "C"%char; "S"%char]) then slot_reply fuel' row
      else if bool_decide (tag = "Z"%char) then mret row
      else if bool_decide (tag = "E"%char) then throw (server_error body)
      else throw (CUnexpected tag)
  end.

Definition create_logical_slot_exported (name : string) (temporary : bool) : Op (string * Lsn) :=
  if negb (is_safe_ident name) then throw (CMalformed "unsafe replication slot name")
  else
    _ ← send_query (if temporary
                    then "CREATE_REPLICATION_SLOT " +:+ name +:+ " TEMPORARY LOGICAL pgoutput (SNAPSHOT 'export')"
                    else "CREATE_REPLICATION_SLOT " +:+ name +:+ " LOGICAL pgoutput (SNAPSHOT 'export', FAILOVER true)");
    row ← (fun c => slot_reply (S (pending_bytes c)) None c);
    lift (ok_or (CMalformed "CREATE_REPLICATION_SLOT returned no snapshot") row).

(** The double quote, code 34. *)
Definition DQUOTE : string := String "034"%char EmptyString.

Definition start_command (slot publication : string) : string :=
  "START_REPLICATION SLOT " +:+ slot +:+ " LOGICAL 0/0 (proto_version '4', publication_names '" +:+ DQUOTE +:+ publication
    +:+ DQUOTE +:+ "', messages 'true')".

Definition start_replication (slot publication : string) : Op unit :=
  if negb (is_safe_ident slot) || negb (is_safe_ident publication) then throw (CMalformed "unsafe slot or publication name")
  else
    _ ← send_query (start_command slot publication);
    recv read_control (fun '(tag, body) =>
      if bool_decide (tag = "W"%char) then mret (Some tt)
      else if bool_decide (tag = "S"%char) then mret None
      else if bool_decide (tag = "E"%char) then throw (server_error body)
      else throw (CUnexpected tag)).

(** ** Streaming *)

Definition confirm (lsn : Lsn) (c : ReplicationClient) : ReplicationClient :=
  if lsn >? rc_confirmed_lsn c
  then mkClient (rc_events c) (rc_faults c) (rc_sent c) (rc_buf c) (rc_last_wal_end c) lsn else c.

Definition status_of (c : ReplicationClient) : StandbyStatusUpdate :=
  mkStandbyStatusUpdate (rc_last_wal_end c) (rc_confirmed_lsn c) (rc_confirmed_lsn c) 0 false.

Definition send_standby_status : Op unit := fun c => send_copy_data (encode_status (status_of c)) c.

(** [if wal_end > self.last_wal_end { self.last_wal_end = wal_end }]. *)
Definition saw_wal_end (lsn : Lsn) : Op unit := fun c =>
  (if lsn >? rc_last_wal_end c
   then mkClient (rc_events c) (rc_faults c) (rc_sent c) (rc_buf c) lsn (rc_confirmed_lsn c) else c, Ok tt).

(** One message of the stream; [Some None] is the end of the copy. *)
Definition on_stream_message (msg : ascii * list ascii) : Op (option (option XLogData)) :=
  let '(tag, body) := msg in
  if bool_decide (tag = "d"%char) then
    m ← lift (map_err CDecode (Stream.decode body));
    match m with
    | RXLogData x => _ ← saw_wal_end (xl_wal_end x); mret (Some (Some x))
    | RPrimaryKeepalive k =>
        _ ← saw_wal_end (pk_wal_end k);
        _ ← (if pk_reply_requested k then send_standby_status else mret tt);
        mret None
    end
  else if bool_decide (tag = "c"%char) then mret (Some None)
  else if bool_decide (tag = "E"%char) then throw (server_error body)
  else if bool_decide (tag ∈ ["N"%char; "S"%char]) then mret None
  else throw (CUnexpected tag).

Definition next : Op (option XLogData) := recv (read_message false) on_stream_message.

End client.

(** ** Specification: messages on the wire *)

(** A backend message; the length covers itself and the body. *)
Definition frame (tag : ascii) (body : list ascii) : list ascii := tag :: to_be 4 (4 + Z.of_nat (length body)) ++ body.
Definition frame_ok (body : list ascii) : Prop := 4 + Z.of_nat (length body) <= MAX_MESSAGE_LEN.

Definition event_data (e : NetEvent) : list ascii := match e with Data b => b | _ => [] end.

(** All bytes still to be read. *)
Definition incoming (c : ReplicationClient) : list ascii := rc_buf c ++ concat (event_data <$> rc_events c).

(** The connection delivers bytes: no end of stream, no failure, and under a deadline
    no stall. *)
Definition flows (deadline : bool) (e : NetEvent) : Prop :=
  match e with Data b => b <> [] | Broken _ => False | Stall => deadline = false end.

(** Everything but what is read stays. *)
Definition same_but_read (c c' : ReplicationClient) : Prop :=
  rc_faults c' = rc_faults c /\ rc_sent c' = rc_sent c /\ rc_last_wal_end c' = rc_last_wal_end c /\
  rc_confirmed_lsn c' = rc_confirmed_lsn c.

(** ** Lemmas: reading *)

Lemma pending_incoming c : pending_bytes c = length (incoming c).
Proof.
  unfold pending_bytes, incoming. rewrite length_app. f_equal.
  induction (rc_events c) as [|e es IH]; [done|]. rewrite !fmap_cons. cbn [sum_list concat]. rewrite length_app, IH. by destruct e.
Qed.

Lemma fill_until_spec d n events : forall buf events' buf' r,
  fill_until d n events buf = (events', buf', r) ->
  buf' ++ concat (event_data <$> events') = buf ++ concat (event_data <$> events) /\
  (is_ok r = true -> (n <= length buf')%nat) /\ r <> Err COutOfFuel /\
  (forall k, Forall (fun e => event_bytes e <= k)%nat events -> (length buf' <= length buf `max` (n + k))%nat) /\
  events' `suffix_of` events.
Proof.
  induction events as [|e events IH]; intros buf events' buf' r; cbn [fill_until].
  { destruct (Nat.leb_spec n (length buf)); intros [= <- <- <-]; destruct d; split_and!; try done; lia. }
  destruct (Nat.leb_spec n (length buf)) as [Hn|Hn].
  { intros [= <- <- <-]. split_and!; try done. intros k _. lia. }
  assert (Hk : forall k, (length buf <= length buf `max` (n + k))%nat) by (intros; lia).
  assert (Hsuf : events `suffix_of` e :: events) by by exists [e].
  destruct e as [[|x b]|err|]; [by intros [= <- <- <-]| |by intros [= <- <- <-]|].
  - intros Hf. apply IH in Hf as (Hi & Hok & Hfuel & Hb & Hs). split_and!; [|done|done| |by etrans].
    + rewrite Hi, <- app_assoc. done.
    + intros k Hall. apply Forall_cons in Hall as [Hx Hall]. specialize (Hb k Hall). rewrite length_app in Hb.
      cbn [event_bytes] in Hx. lia.
  - destruct d; [by intros [= <- <- <-]|]. intros Hf. apply IH in Hf as (Hi & Hok & Hfuel & Hb & Hs). split_and!; [done..| |by etrans].
    intros k Hall. apply Forall_cons in Hall as [_ Hall]. by apply Hb.
Qed.

Lemma fill_until_flows d n events : forall buf,
  Forall (flows d) events -> (n <= length (buf ++ concat (event_data <$> events)))%nat ->
  exists events' buf', fill_until d n events buf = (events', buf', Ok tt).
Proof.
  induction events as [|e events IH]; intros buf Hf Hn; cbn [fill_until].
  { cbn in Hn. rewrite app_nil_r in Hn. rewrite (proj2 (Nat.leb_le _ _) Hn). by eexists _, _. }
  destruct (n <=? length buf)%nat; [by eexists _, _|]. apply Forall_cons in Hf as [He Hf].
  destruct e as [[|x b]|err|]; [done| |done|cbn in He; subst d]; apply IH; try done.
  rewrite <- app_assoc. done.
Qed.

Lemma fill_to_spec d n c c' r :
  fill_to d n c = (c', r) ->
  incoming c' = incoming c /\ same_but_read c c' /\ (is_ok r = true -> (n <= length (rc_buf c'))%nat) /\ r <> Err COutOfFuel /\
  (forall k, Forall (fun e => event_bytes e <= k)%nat (rc_events c) -> (length (rc_buf c') <= length (rc_buf c) `max` (n + k))%nat) /\
  rc_events c' `suffix_of` rc_events c.
Proof.
  unfold fill_to. destruct (fill_until d n (rc_events c) (rc_buf c)) as [[es buf] r0] eqn:E. intros [= <- <-].
  apply fill_until_spec in E as (? & ? & ? & ? & ?). split_and!; done.
Qed.

Lemma Forall_suffix {A} (P : A -> Prop) l k : l `suffix_of` k -> Forall P k -> Forall P l.
Proof. intros [m ->] [_ H]%Forall_app. done. Qed.

Lemma fill_to_flows d n c :
  Forall (flows d) (rc_events c) -> (n <= length (incoming c))%nat ->
  exists c', fill_to d n c = (c', Ok tt) /\ Forall (flows d) (rc_events c').
Proof.
  intros Hf Hn. destruct (fill_until_flows d n _ _ Hf Hn) as (es & buf & E). unfold fill_to. rewrite E. eexists. split; [done|].
  apply fill_until_spec in E as (_ & _ & _ & _ & Hs). by eapply Forall_suffix.
Qed.

Lemma signed_be_val b z : length b = 4%nat -> signed 4 (be_val b) = z -> 0 <= z -> b = to_be 4 z /\ z <= i32_MAX.
Proof.
  intros Hl Hz Hp. pose proof (be_val_range b) as Hr. rewrite Hl in Hr. unfold signed in Hz.
  change (256 ^ Z.of_nat 4) with 4294967296 in *. change (4294967296 / 2) with 2147483648 in Hz.
  unfold i32_MAX. destruct (Z.ltb_spec (be_val b) 2147483648); [|lia]. split; [|lia].
  rewrite <- Hz, <- Hl. symmetry. apply to_be_be_val.
Qed.

Lemma signed_be_small z : 0 <= z <= i32_MAX -> signed 4 (be_val (to_be 4 z)) = z.
Proof.
  unfold i32_MAX. intros Hz. rewrite be_val_to_be by (change (256 ^ Z.of_nat 4) with 4294967296; lia). unfold signed.
  change (256 ^ Z.of_nat 4 / 2) with 2147483648. destruct (Z.ltb_spec z 2147483648); lia.
Qed.

Lemma same_but_read_trans c1 c2 c3 : same_but_read c1 c2 -> same_but_read c2 c3 -> same_but_read c1 c3.
Proof. unfold same_but_read. intuition congruence. Qed.

(** The length read off a longer buffer is the length of the message split off it. *)
Lemma header_length buf1 rest1 buf2 rest2 tag msg len :
  buf2 ++ rest2 = buf1 ++ rest1 -> (5 <= length buf1)%nat -> signed 4 (be_val (take 4 (drop 1 buf1))) = len -> 4 <= len ->
  (1 + Z.to_nat len <= length buf2)%nat -> take (1 + Z.to_nat len) buf2 = tag :: msg ->
  tag :: msg = frame tag (drop 4 msg) /\ 4 + Z.of_nat (length (drop 4 msg)) = len.
Proof.
  intros Hi H1 Hl H4 H2 Et. set (total := (1 + Z.to_nat len)%nat) in *.
  assert (Hlen : length (tag :: msg) = total) by (rewrite <- Et, length_take; lia). cbn [length] in Hlen.
  assert (Hhead : take 4 msg = to_be 4 len).
  { assert (take 4 (drop 1 buf1) = take 4 msg) as Heq.
    { assert (take 5 buf1 = take 5 buf2) as H55 by (apply (f_equal (take 5)) in Hi; rewrite !take_app_le in Hi by lia; done).
      rewrite !(take_drop_commute _ 4 1). cbn [Nat.add]. rewrite H55.
      assert (take 5 (take total buf2) = take 5 (tag :: msg)) as H5' by by rewrite Et.
      rewrite take_take, Nat.min_l in H5' by lia. by rewrite H5'. }
    rewrite <- Heq. apply signed_be_val; [rewrite length_take, length_drop; lia|done|lia]. }
  assert (Hbody : 4 + Z.of_nat (length (drop 4 msg)) = len) by (rewrite length_drop; lia).
  unfold frame. rewrite Hbody, <- Hhead, take_drop. done.
Qed.

(** A message that was read was at the front of the bytes. *)
Lemma read_message_spec d c c' r :
  read_message d c = (c', r) ->
  same_but_read c c' /\ r <> Err COutOfFuel /\ (length (incoming c') <= length (incoming c))%nat /\
  (forall k, Forall (fun e => event_bytes e <= k)%nat (rc_events c) ->
     (length (rc_buf c') <= length (rc_buf c) `max` (1 + Z.to_nat MAX_MESSAGE_LEN + k))%nat) /\
  (forall tag body, r = Ok (tag, body) -> incoming c = frame tag body ++ incoming c' /\ frame_ok body) /\
  rc_events c' `suffix_of` rc_events c.
Proof.
  unfold read_message, throw. intros Hm. rewrite bind_run in Hm.
  destruct (fill_to d 5 c) as [c1 r1] eqn:E1. apply fill_to_spec in E1 as (Hi1 & Hs1 & Hn1 & Hf1 & Hb1 & Hx1).
  assert (5 <= 1 + Z.to_nat MAX_MESSAGE_LEN)%nat as H5 by (unfold MAX_MESSAGE_LEN; rewrite Z.shiftl_1_l; lia).
  destruct r1 as [[]|e].
  2: { injection Hm as <- <-. split_and!; [done|congruence|by rewrite Hi1| |done|done]. intros k Hk. specialize (Hb1 k Hk). lia. }
  specialize (Hn1 eq_refl). rewrite bind_run in Hm. cbn [peek] in Hm.
  set (len := signed 4 (be_val (take 4 (drop 1 (rc_buf c1))))) in *.
  destruct ((4 <=? len) && (len <=? MAX_MESSAGE_LEN)) eqn:El.
  2: { injection Hm as <- <-. split_and!; [done|congruence|by rewrite Hi1| |done|done]. intros k Hk. specialize (Hb1 k Hk). lia. }
  apply andb_true_iff in El as [El1%Z.leb_le El2%Z.leb_le]. rewrite bind_run in Hm.
  destruct (fill_to d (1 + Z.to_nat len) c1) as [c2 r2] eqn:E2. apply fill_to_spec in E2 as (Hi2 & Hs2 & Hn2 & Hf2 & Hb2 & Hx2).
  assert (Hbound : forall k, Forall (fun e => event_bytes e <= k)%nat (rc_events c) ->
    (length (rc_buf c2) <= length (rc_buf c) `max` (1 + Z.to_nat MAX_MESSAGE_LEN + k))%nat).
  { intros k Hk. specialize (Hb1 k Hk). specialize (Hb2 k (Forall_suffix _ _ _ Hx1 Hk)). lia. }
  pose proof (same_but_read_trans _ _ _ Hs1 Hs2) as Hs. assert (rc_events c2 `suffix_of` rc_events c) as Hx by by etrans.
  destruct r2 as [[]|e]; [|injection Hm as <- <-; split_and!; [done|congruence|by rewrite Hi2, Hi1|done|done|done]].
  specialize (Hn2 eq_refl). rewrite bind_run in Hm. cbn [split_to] in Hm. set (total := (1 + Z.to_nat len)%nat) in *.
  assert (Hinc : incoming c2 = take total (rc_buf c2) ++ incoming (set_read c2 (rc_events c2) (drop total (rc_buf c2)))).
  { unfold incoming. cbn [set_read rc_buf rc_events]. by rewrite app_assoc, take_drop. }
  destruct (take total (rc_buf c2)) as [|tag msg] eqn:Et.
  { apply (f_equal length) in Et. rewrite length_take in Et. cbn [length] in Et. lia. }
  cbn [mret St_ret] in Hm. injection Hm as <- <-. split_and!; [done|done|rewrite <- Hi1, <- Hi2, Hinc, length_app; cbn; lia| | |done].
  - intros k Hk. specialize (Hbound k Hk). cbn [set_read rc_buf]. rewrite length_drop. lia.
  - intros tag' body [= <- <-]. rewrite <- Hi1, <- Hi2, Hinc.
    destruct (header_length (rc_buf c1) _ (rc_buf c2) _ tag msg len Hi2 Hn1 eq_refl El1 Hn2 Et) as [Hfr Hlen].
    cbn [drop]. split; [by rewrite Hfr at 1|]. unfold frame_ok. lia.
Qed.

(** A message at the front of the bytes is read. *)
Lemma read_message_frame d c tag body rest :
  incoming c = frame tag body ++ rest -> frame_ok body -> Forall (flows d) (rc_events c) ->
  exists c', read_message d c = (c', Ok (tag, body)) /\ incoming c' = rest /\ Forall (flows d) (rc_events c') /\ same_but_read c c'.
Proof.
  intros Hi Hok Hf. pose proof (f_equal length Hi) as Hlen. unfold frame in Hlen.
  cbn [app length] in Hlen. rewrite !length_app, length_to_be in Hlen.
  destruct (fill_to_flows d 5 c Hf) as (c1 & E1 & Hf1); [lia|].
  pose proof (fill_to_spec _ _ _ _ _ E1) as (Hi1 & Hs1 & Hn1 & _). specialize (Hn1 eq_refl).
  destruct (fill_to_flows d (1 + Z.to_nat (4 + Z.of_nat (length body))) c1 Hf1) as (c2 & E2 & Hf2); [rewrite Hi1; lia|].
  pose proof (fill_to_spec _ _ _ _ _ E2) as (Hi2 & Hs2 & Hn2 & _). specialize (Hn2 eq_refl).
  assert (Hhead : signed 4 (be_val (take 4 (drop 1 (rc_buf c1)))) = 4 + Z.of_nat (length body)).
  { assert (take 4 (drop 1 (rc_buf c1)) = to_be 4 (4 + Z.of_nat (length body))) as ->.
    { rewrite (take_drop_commute _ 4 1). cbn [Nat.add].
      rewrite <- (take_app_le (rc_buf c1) (concat (event_data <$> rc_events c1)) 5) by lia.
      fold (incoming c1). rewrite Hi1, Hi. unfold frame. cbn [app].
      rewrite <- (take_drop_commute _ 4 1). cbn [drop]. rewrite drop_0.
      rewrite <- app_assoc, take_app_le by (rewrite length_to_be; lia). apply take_ge. rewrite length_to_be. lia. }
    apply signed_be_small. unfold frame_ok, MAX_MESSAGE_LEN in Hok. rewrite Z.shiftl_1_l in Hok. unfold i32_MAX. lia. }
  assert (Hmsg : take (1 + Z.to_nat (4 + Z.of_nat (length body))) (rc_buf c2) = frame tag body).
  { rewrite <- (take_app_le (rc_buf c2) (concat (event_data <$> rc_events c2))) by lia. fold (incoming c2). rewrite Hi2, Hi1, Hi.
    rewrite take_app_le by (unfold frame; cbn [length]; rewrite length_app, length_to_be; lia). apply take_ge.
    unfold frame. cbn [length]. rewrite length_app, length_to_be. lia. }
  exists (set_read c2 (rc_events c2) (drop (1 + Z.to_nat (4 + Z.of_nat (length body))) (rc_buf c2))).
  split_and!; [| |done|by eapply same_but_read_trans].
  - unfold read_message. rewrite bind_run, E1, bind_run. cbn [peek]. rewrite Hhead.
    rewrite (proj2 (Z.leb_le 4 _)), (proj2 (Z.leb_le _ MAX_MESSAGE_LEN)) by (done || lia). cbn [andb].
    rewrite bind_run, E2, bind_run. cbn [split_to]. rewrite Hmsg. reflexivity.
  - assert (frame tag body ++ rest = frame tag body ++ incoming (set_read c2 (rc_events c2) (drop (1 + Z.to_nat (4 + Z.of_nat (length body))) (rc_buf c2)))) as Heq.
    { rewrite <- Hi, <- Hi1, <- Hi2, <- Hmsg. unfold incoming. cbn [set_read rc_buf rc_events]. by rewrite app_assoc, take_drop. }
    symmetry. by apply app_inv_head in Heq.
Qed.

(** ** Lemmas: loops end *)

(** An operation that neither runs out of its bound nor un-reads bytes. *)
Definition quiet {A} (m : Op A) : Prop := forall c c' r, m c = (c', r) ->
  r <> Err COutOfFuel /\ (length (incoming c') <= length (incoming c))%nat.

(** A read that takes bytes whenever it succeeds. *)
Definition consumes {A} (m : Op A) : Prop := quiet m /\ forall c c' a, m c = (c', Ok a) -> (length (incoming c') < length (incoming c))%nat.

Create HintDb client.

Lemma quiet_ret {A} (a : A) : quiet (mret a).
Proof. intros c c' r [= <- <-]. done. Qed.

Lemma quiet_throw {A} e : e <> COutOfFuel -> quiet (A := A) (throw e).
Proof. intros He c c' r [= <- <-]. split; [congruence|done]. Qed.

Lemma quiet_lift {A} (r : result ClientError A) : r <> Err COutOfFuel -> quiet (lift r).
Proof. intros He c c' r' [= <- <-]. done. Qed.

Lemma quiet_bind {A B} (m : Op A) (f : A -> Op B) : quiet m -> (forall a, quiet (f a)) -> quiet (m ≫= f).
Proof.
  intros Hm Hf c c' r. rewrite bind_run. destruct (m c) as [c1 [a|e]] eqn:E; apply Hm in E as [Hne Hle].
  - intros Hr. apply Hf in Hr as [? ?]. split; [done|lia].
  - intros [= <- <-]. split; [congruence|done].
Qed.

Lemma quiet_write b : quiet (write_all b).
Proof. intros c c' r. unfold write_all. destruct (rc_faults c) as [|[|] ?]; intros [= <- <-]; done. Qed.

Lemma quiet_malformed {A} (r : result string A) : quiet (malformed r).
Proof. apply quiet_lift. by destruct r. Qed.

Lemma quiet_consumes {A} (m : Op A) : consumes m -> quiet m.
Proof. by intros [? _]. Qed.

Lemma consumes_read_message d : consumes (read_message d).
Proof.
  split.
  - intros c c' r (_ & ? & ? & _)%read_message_spec. done.
  - intros c c' [tag body] (_ & _ & _ & _ & Hok & _)%read_message_spec. destruct (Hok _ _ eq_refl) as [-> _].
    rewrite length_app. unfold frame. cbn. lia.
Qed.

Lemma recv_loop_quiet {M A} (read : Op M) (step : M -> Op (option A)) fuel : consumes read -> (forall m, quiet (step m)) ->
  forall c c' r, (length (incoming c) < fuel)%nat -> recv_loop read step fuel c = (c', r) ->
  r <> Err COutOfFuel /\ (length (incoming c') <= length (incoming c))%nat /\
  (is_ok r = true -> (length (incoming c') < length (incoming c))%nat).
Proof.
  intros [Hq Hc] Hs. induction fuel as [|fuel IH]; intros c c' r Hlt; [lia|]. cbn [recv_loop]. rewrite bind_run.
  destruct (read c) as [c1 [m|e]] eqn:E; pose proof (Hq _ _ _ E) as [Hne Hle].
  2: { intros [= <- <-]. split_and!; [congruence|done|done]. }
  apply Hc in E. rewrite bind_run. destruct (step m c1) as [c2 [o|e]] eqn:E2; apply Hs in E2 as [Hne2 Hle2].
  2: { intros [= <- <-]. split_and!; [congruence|lia|done]. }
  destruct o as [a|]; [intros [= <- <-]; split_and!; [done|lia|intros _; lia]|].
  intros Hr. apply IH in Hr as (? & ? & Hk); [|lia]. split_and!; [done|lia|intros Hok; specialize (Hk Hok); lia].
Qed.

Lemma recv_consumes {M A} (read : Op M) (step : M -> Op (option A)) : consumes read -> (forall m, quiet (step m)) -> consumes (recv read step).
Proof.
  intros Hc Hs. split; intros c c' r Hr; unfold recv in Hr; eapply recv_loop_quiet in Hr as (? & ? & Hok); try done;
    rewrite ?pending_incoming; try lia. by apply Hok.
Qed.

Lemma consumes_read_control : consumes read_control.
Proof. apply recv_consumes; [apply consumes_read_message|]. intros m. apply quiet_ret. Qed.

Lemma server_error_fuel body : server_error body <> COutOfFuel.
Proof. done. Qed.

#[export] Hint Resolve quiet_ret quiet_write quiet_malformed consumes_read_message consumes_read_control server_error_fuel : client.

(** Follows the structure of an operation. *)
Ltac quiet_op :=
  repeat first
    [ solve [trivial with client nocore]
    | apply quiet_throw; first [apply server_error_fuel | discriminate]
    | apply quiet_consumes, consumes_read_control
    | apply quiet_consumes, recv_consumes; [first [apply consumes_read_control | apply consumes_read_message]|]
    | apply quiet_bind | match goal with |- quiet _ => fail 1 | |- forall _, _ => intros ? end | progress cbn beta iota
    | match goal with |- quiet (if ?b then _ else _) => destruct b end
    | match goal with |- quiet (match ?x with _ => _ end) => destruct x end ].

Section ends.
  Context `{Protocol}.

Lemma read_i32_fuel body : read_i32 body <> Err COutOfFuel.
Proof. unfold read_i32. by destruct (_ <? _)%nat. Qed.

Lemma slot_fields_fuel n : forall i body consistent snapshot, slot_fields n i body consistent snapshot <> Err COutOfFuel.
Proof.
  induction n as [|n IH]; intros i body consistent snapshot; cbn [slot_fields]; [done|].
  repeat (match goal with |- context [if ?b then _ else _] => destruct b end; try done; try apply IH).
  destruct (Lsn_from_str _); cbn [map_err mbind result_bind]; [apply IH|done].
Qed.

Lemma slot_row_fuel body : slot_row body <> Err COutOfFuel.
Proof.
  unfold slot_row. destruct (_ <? _)%nat; [done|]. destruct (_ <=? _)%nat; [done|].
  pose proof (slot_fields_fuel (Z.to_nat (be_val (take 2 body))) 0 (drop 2 body) None None) as Hf.
  destruct (slot_fields _ _ _ _ _) as [[[|] [|]]|e]; cbn; congruence.
Qed.

Lemma quiet_expect_auth code what : quiet (expect_auth code what).
Proof. unfold expect_auth. quiet_op. apply quiet_lift, read_i32_fuel. Qed.

#[local] Hint Resolve quiet_expect_auth : client.

Lemma quiet_authenticate config : quiet (authenticate config).
Proof.
  unfold authenticate. quiet_op; apply quiet_lift; try apply read_i32_fuel.
  - by destruct (scram_update _ _).
  - by destruct (scram_finish _ _).
Qed.

Lemma quiet_send_query sql : quiet (send_query sql).
Proof. unfold send_query. quiet_op. Qed.

Lemma quiet_send_copy_data payload : quiet (send_copy_data payload).
Proof. unfold send_copy_data. quiet_op. Qed.

Lemma quiet_send_status : quiet send_standby_status.
Proof. intros c c' r. apply quiet_send_copy_data. Qed.

Lemma quiet_saw lsn : quiet (saw_wal_end lsn).
Proof. intros c c' r [= <- <-]. split; [done|]. by destruct (_ >? _). Qed.

Lemma quiet_on_stream_message msg : quiet (on_stream_message msg).
Proof.
  unfold on_stream_message. quiet_op; [apply quiet_lift; by destruct (Stream.decode _)|apply quiet_saw..|apply quiet_send_status].
Qed.

Lemma slot_reply_quiet fuel : forall row c c' r, (length (incoming c) < fuel)%nat -> slot_reply fuel row c = (c', r) ->
  r <> Err COutOfFuel.
Proof.
  destruct consumes_read_control as [Hq Hc].
  induction fuel as [|fuel IH]; intros row c c' r Hlt; [lia|]. cbn [slot_reply]. rewrite bind_run.
  destruct (read_control c) as [c1 [[tag body]|e]] eqn:E; pose proof (Hq _ _ _ E) as [Hne Hle].
  2: { intros [= <- <-]. congruence. }
  apply Hc in E. repeat (match goal with |- context [if ?b then _ else _] => destruct b end).
  - rewrite bind_run. unfold lift. pose proof (slot_row_fuel body). destruct (slot_row body); [apply IH; lia|].
    intros [= <- <-]. congruence.
  - apply IH. lia.
  - by intros [= <- <-].
  - by intros [= <- <-].
  - by intros [= <- <-].
Qed.

#[local] Hint Resolve quiet_authenticate quiet_send_query quiet_on_stream_message : client.

(** every operation of the connection ends within its bound. Whatever the server
    sends and however its bytes arrive, connecting, creating a slot, starting the
    stream and taking its next record never exhaust the bound of one round per
    unread byte: each round of each loop consumes at least one message. *)
Theorem client_loops_end config name temporary slot publication c :
  (startup config c).2 <> Err COutOfFuel /\ (create_logical_slot name temporary c).2 <> Err COutOfFuel /\
  (create_logical_slot_exported name temporary c).2 <> Err COutOfFuel /\
  (start_replication slot publication c).2 <> Err COutOfFuel /\ (next c).2 <> Err COutOfFuel.
Proof.
  assert (Hq : forall A (m : Op A), quiet m -> (m c).2 <> Err COutOfFuel).
  { intros A m Hm. destruct (m c) as [c' r] eqn:E. by apply Hm in E as [? _]. }
  split_and!; [apply Hq..| |apply Hq|apply Hq].
  - unfold startup. quiet_op.
  - unfold create_logical_slot. quiet_op.
  - unfold create_logical_slot_exported. destruct (negb _); [done|]. rewrite bind_run.
    pose proof (quiet_send_query (if temporary then "CREATE_REPLICATION_SLOT " +:+ name +:+ " TEMPORARY LOGICAL pgoutput (SNAPSHOT 'export')"
      else "CREATE_REPLICATION_SLOT " +:+ name +:+ " LOGICAL pgoutput (SNAPSHOT 'export', FAILOVER true)") c) as Hs.
    destruct (send_query _ c) as [c1 [[]|e]]; [|destruct (Hs _ _ eq_refl); cbn; congruence]. rewrite bind_run.
    destruct (slot_reply (S (pending_bytes c1)) None c1) as [c2 [row|e]] eqn:E; [by destruct row|].
    cbn. assert (Err e <> Err COutOfFuel :> result ClientError (option (string * Lsn))) as He; [|congruence].
    eapply slot_reply_quiet; [|exact E]. rewrite pending_incoming. lia.
  - unfold start_replication. quiet_op.
  - unfold next. apply quiet_consumes, recv_consumes; [apply consumes_read_message|]. apply quiet_on_stream_message.
Qed.

End ends.

(** ** Properties *)

(** messages do not depend on how the bytes arrive. A message the client reads was
    at the front of the bytes, its length covering exactly its body; conversely a
    message at the front of the bytes is read, however they are cut into chunks,
    and the rest stays to be read. No read is taken for a message of more than one
    gigabyte, and the buffer never holds more than one message and one read. *)
Theorem framing_exact d c :
  (forall c' tag body, read_message d c = (c', Ok (tag, body)) ->
     incoming c = frame tag body ++ incoming c' /\ frame_ok body) /\
  (forall tag body rest, incoming c = frame tag body ++ rest -> frame_ok body -> Forall (flows d) (rc_events c) ->
     exists c', read_message d c = (c', Ok (tag, body)) /\ incoming c' = rest) /\
  (forall c' r, read_message d c = (c', r) -> Forall (fun e => event_bytes e <= READ_SIZE)%nat (rc_events c) ->
     (length (rc_buf c') <= length (rc_buf c) `max` (1 + Z.to_nat MAX_MESSAGE_LEN + READ_SIZE))%nat).
Proof.
  split_and!.
  - intros c' tag body (_ & _ & _ & _ & Hok & _)%read_message_spec. by apply Hok.
  - intros tag body rest Hi Hok Hf. destruct (read_message_frame d c tag body rest Hi Hok Hf) as (c' & ? & ? & _). by exists c'.
  - intros c' r (_ & _ & _ & Hb & _)%read_message_spec Hk. by apply Hb.
Qed.

Section streaming.
  Context `{Protocol}.

(** a configured password is never skipped. If authentication succeeds with a
    password configured, the server answered a SCRAM exchange keyed with that
    password: its first message was accepted and its final signature verified. *)
Theorem auth_proves_password config c c' :
  authenticate config c = (c', Ok tt) -> cf_password config <> EmptyString ->
  exists challenge scram signature,
    scram_update (scram_new (bytes (cf_password config))) challenge = Ok scram /\ scram_finish scram signature = Ok tt.
Proof.
  intros Ha Hp. unfold authenticate in Ha. apply bind_Ok in Ha as (c1 & [tag body] & _ & Ha).
  destruct (bool_decide _); [done|]. destruct (negb _); [done|]. apply bind_Ok in Ha as (c2 & [method rest] & _ & Ha).
  destruct (method =? 0).
  { unfold str_is_empty in Ha. destruct (cf_password config); [done|]. done. }
  destruct (negb _); [done|]. destruct (negb _); [done|]. cbv zeta in Ha.
  do 2 apply bind_Ok in Ha as (? & ? & _ & Ha). apply bind_Ok in Ha as (c5 & challenge & _ & Ha).
  apply bind_Ok in Ha as (c6 & scram & Hu & Ha). do 2 apply bind_Ok in Ha as (? & ? & _ & Ha).
  apply bind_Ok in Ha as (c9 & signature & _ & Ha). apply bind_Ok in Ha as (c10 & [] & Hf & _).
  unfold lift in Hu, Hf. injection Hu as <- Hu. injection Hf as <- Hf. exists challenge, scram, signature. split.
  - destruct (scram_update _ challenge); [by injection Hu as ->|done].
  - by destruct (scram_finish scram signature) as [[]|].
Qed.

(** The CopyData message of a status. *)
Definition status_message (m : StandbyStatusUpdate) : list ascii := frame "d"%char (encode_status m).

Lemma send_status_run c :
  send_standby_status c =
  match rc_faults c with
  | Some e :: faults => (mkClient (rc_events c) faults (rc_sent c) (rc_buf c) (rc_last_wal_end c) (rc_confirmed_lsn c), Err (CIo e))
  | faults => (mkClient (rc_events c) (tail faults) (rc_sent c ++ [status_message (status_of c)]) (rc_buf c) (rc_last_wal_end c)
                 (rc_confirmed_lsn c), Ok tt)
  end.
Proof.
  unfold send_standby_status, send_copy_data. assert (length (encode_status (status_of c)) = 34%nat) as ->.
  { unfold encode_status. rewrite !length_app, !length_to_be. done. }
  rewrite (proj2 (Z.ltb_ge _ _)) by (unfold i32_MAX; lia). done.
Qed.

(** A status reports what is confirmed, and nothing else, as durable. *)
Definition reports_confirmed (confirmed : Lsn) (b : list ascii) : Prop :=
  exists w, b = status_message (mkStandbyStatusUpdate w confirmed confirmed 0 false).

Definition only_reports {A} (m : Op A) : Prop := forall c c' r, m c = (c', r) ->
  rc_confirmed_lsn c' = rc_confirmed_lsn c /\ exists l, rc_sent c' = rc_sent c ++ l /\ Forall (reports_confirmed (rc_confirmed_lsn c)) l.

Lemma only_reports_bind {A B} (m : Op A) (f : A -> Op B) : only_reports m -> (forall a, only_reports (f a)) -> only_reports (m ≫= f).
Proof.
  intros Hm Hf c c' r. rewrite bind_run. destruct (m c) as [c1 [a|e]] eqn:E; apply Hm in E as (Hc & l & Hs & Hl).
  - intros Hr. apply Hf in Hr as (Hc2 & l2 & Hs2 & Hl2). rewrite Hc in *. split; [done|]. exists (l ++ l2).
    rewrite Hs2, Hs, app_assoc. split; [done|]. by apply Forall_app.
  - intros [= <- <-]. by eauto.
Qed.

Lemma only_reports_silent {A} (m : Op A) :
  (forall c, rc_confirmed_lsn (m c).1 = rc_confirmed_lsn c /\ rc_sent (m c).1 = rc_sent c) -> only_reports m.
Proof. intros Hm c c' r Hr. destruct (Hm c) as [? Hs]. rewrite Hr in *. split; [done|]. exists []. by rewrite app_nil_r. Qed.

Lemma only_reports_status : only_reports send_standby_status.
Proof.
  intros c c' r. rewrite send_status_run. destruct (rc_faults c) as [|[e|] faults]; intros [= <- <-]; (split; [done|]).
  - eexists. split; [done|]. repeat constructor. by eexists.
  - exists []. cbn. by rewrite app_nil_r.
  - eexists. split; [done|]. repeat constructor. by eexists.
Qed.

Lemma only_reports_message msg : only_reports (on_stream_message msg).
Proof.
  destruct msg as [tag body]. unfold on_stream_message.
  destruct (bool_decide _); [|repeat (match goal with |- context [if ?b then _ else _] => destruct b end); by apply only_reports_silent].
  apply only_reports_bind; [by apply only_reports_silent|]. intros [x|k].
  - apply only_reports_bind; [|by intros; apply only_reports_silent]. apply only_reports_silent. intros c. cbn. by destruct (_ >? _).
  - apply only_reports_bind; [apply only_reports_silent; intros c; cbn; by destruct (_ >? _)|]. intros _.
    apply only_reports_bind; [|by intros; apply only_reports_silent]. destruct (pk_reply_requested k); [apply only_reports_status|].
    by apply only_reports_silent.
Qed.

Lemma recv_loop_reports {M A} (read : Op M) (step : M -> Op (option A)) fuel :
  only_reports read -> (forall m, only_reports (step m)) -> only_reports (recv_loop read step fuel).
Proof.
  intros Hr Hs. induction fuel as [|fuel IH]; [by apply only_reports_silent|]. cbn [recv_loop].
  apply only_reports_bind; [done|]. intros m. apply only_reports_bind; [done|]. intros [a|]; [by apply only_reports_silent|done].
Qed.

Lemma only_reports_next : only_reports next.
Proof.
  intros c c' r Hr. eapply (recv_loop_reports (read_message false) on_stream_message); [| |exact Hr].
  - intros c1 c2 r2 ((_ & Hs & _ & Hc) & _)%read_message_spec. split; [done|]. exists []. by rewrite app_nil_r.
  - apply only_reports_message.
Qed.

(** What the server may send between two records, and what ends the wait. *)
Inductive Item := ItSkip (tag : ascii) (body : list ascii) | ItKeepalive (reply : ascii) (k : PrimaryKeepalive).
Inductive Final := FRecord (reply : ascii) (x : XLogData) | FDone (body : list ascii).

Definition item_frame (it : Item) : list ascii :=
  match it with
  | ItSkip tag body => frame tag body
  | ItKeepalive reply k => frame "d"%char (enc_wrapper reply (RPrimaryKeepalive k))
  end.

Definition final_frame (f : Final) : list ascii :=
  match f with FRecord reply x => frame "d"%char (enc_wrapper reply (RXLogData x)) | FDone body => frame "c"%char body end.

Definition item_wf (it : Item) : Prop :=
  match it with
  | ItSkip tag body => (tag = "N"%char \/ tag = "S"%char) /\ frame_ok body
  | ItKeepalive reply k => wf_wrapper reply (RPrimaryKeepalive k)
  end.

Definition final_wf (f : Final) : Prop :=
  match f with
  | FRecord reply x => wf_wrapper reply (RXLogData x) /\ frame_ok (enc_wrapper reply (RXLogData x))
  | FDone body => frame_ok body
  end.

Definition final_record (f : Final) : option XLogData := match f with FRecord _ x => Some x | FDone _ => None end.
Definition final_wal (last : Lsn) (f : Final) : Lsn := match f with FRecord _ x => Z.max last (xl_wal_end x) | FDone _ => last end.

(** The highest position after the items, and the statuses sent on the way. *)
Fixpoint answered (last confirmed : Lsn) (items : list Item) : Lsn * list (list ascii) :=
  match items with
  | [] => (last, [])
  | ItSkip _ _ :: items' => answered last confirmed items'
  | ItKeepalive _ k :: items' =>
      let last := Z.max last (pk_wal_end k) in
      let status := status_message (mkStandbyStatusUpdate last confirmed confirmed 0 false) in
      let '(last', sent) := answered last confirmed items' in
      (last', if pk_reply_requested k then status :: sent else sent)
  end.

(** The state after reading up to [rest] with these statuses sent. *)
Definition after (c c' : ReplicationClient) (rest : list ascii) (last : Lsn) (sent : list (list ascii)) : Prop :=
  incoming c' = rest /\ Forall (flows false) (rc_events c') /\ rc_faults c' = [] /\ rc_sent c' = rc_sent c ++ sent /\
  rc_last_wal_end c' = last /\ rc_confirmed_lsn c' = rc_confirmed_lsn c.

Lemma saw_wal_end_run lsn c :
  saw_wal_end lsn c = (mkClient (rc_events c) (rc_faults c) (rc_sent c) (rc_buf c) (Z.max (rc_last_wal_end c) lsn) (rc_confirmed_lsn c), Ok tt).
Proof.
  unfold saw_wal_end. destruct (Z.gtb_spec lsn (rc_last_wal_end c)); [by rewrite Z.max_r by lia|].
  rewrite Z.max_l by lia. by destruct c.
Qed.

Lemma decode_copy_data reply m : wf_wrapper reply m -> Stream.decode (enc_wrapper reply m) = Ok m.
Proof. intros Hw. apply wrapper_exact. by exists reply. Qed.

Lemma item_step it c rest :
  item_wf it -> incoming c = item_frame it ++ rest -> Forall (flows false) (rc_events c) -> rc_faults c = [] ->
  exists c1 c2 m, read_message false c = (c1, Ok m) /\ on_stream_message m c1 = (c2, Ok None) /\
    after c c2 rest (answered (rc_last_wal_end c) (rc_confirmed_lsn c) [it]).1 (answered (rc_last_wal_end c) (rc_confirmed_lsn c) [it]).2.
Proof.
  intros Hw Hi Hf Hn. destruct it as [tag body|reply k]; cbn [item_frame item_wf] in *.
  - destruct Hw as [Htag Hok]. destruct (read_message_frame false c tag body rest Hi Hok Hf) as (c1 & Hm & Hi1 & Hf1 & Hn1 & Hs1 & Hl1 & Hc1).
    exists c1, c1, (tag, body). split; [done|]. split.
    + unfold on_stream_message. by destruct Htag as [->| ->].
    + unfold after. cbn. rewrite app_nil_r. split_and!; congruence || done.
  - destruct (read_message_frame false c "d"%char (enc_wrapper reply (RPrimaryKeepalive k)) rest) as (c1 & Hm & Hi1 & Hf1 & Hn1 & Hs1 & Hl1 & Hc1); [done| |done|].
    { unfold frame_ok, enc_wrapper, MAX_MESSAGE_LEN. rewrite !length_app, !length_to_be, Z.shiftl_1_l. cbn. lia. }
    exists c1. rewrite Hn in Hn1. destruct (pk_reply_requested k) eqn:Ep.
    + eexists _, _. split; [exact Hm|]. split.
      * unfold on_stream_message. rewrite bool_decide_eq_true_2 by done. rewrite bind_run. cbn [lift].
        rewrite decode_copy_data by done. cbn [map_err]. rewrite bind_run, saw_wal_end_run, bind_run, Ep, send_status_run.
        cbn [rc_faults]. rewrite Hn1. done.
      * unfold after. cbn [answered fst snd]. rewrite Ep. cbn. rewrite Hs1, Hl1, Hc1. split_and!; done.
    + eexists _, _. split; [exact Hm|]. split.
      * unfold on_stream_message. rewrite bool_decide_eq_true_2 by done. rewrite bind_run. cbn [lift].
        rewrite decode_copy_data by done. cbn [map_err]. rewrite bind_run, saw_wal_end_run, bind_run, Ep. done.
      * unfold after. cbn [answered fst snd]. rewrite Ep. cbn. rewrite Hs1, Hl1, Hc1, app_nil_r. split_and!; done.
Qed.

Lemma final_step f c rest :
  final_wf f -> incoming c = final_frame f ++ rest -> Forall (flows false) (rc_events c) -> rc_faults c = [] ->
  exists c1 c2 m, read_message false c = (c1, Ok m) /\ on_stream_message m c1 = (c2, Ok (Some (final_record f))) /\
    after c c2 rest (final_wal (rc_last_wal_end c) f) [].
Proof.
  intros Hw Hi Hf Hn. destruct f as [reply x|body]; cbn [final_frame final_wf final_record final_wal] in *.
  - destruct Hw as [Hw Hok].
    destruct (read_message_frame false c _ _ rest Hi Hok Hf) as (c1 & Hm & Hi1 & Hf1 & Hn1 & Hs1 & Hl1 & Hc1).
    eexists c1, _, _. split; [exact Hm|]. split.
    + unfold on_stream_message. rewrite bool_decide_eq_true_2 by done. rewrite bind_run. cbn [lift].
      rewrite decode_copy_data by done. cbn [map_err]. rewrite bind_run, saw_wal_end_run. done.
    + unfold after. cbn. rewrite Hs1, Hl1, Hc1, app_nil_r, Hn1. split_and!; done.
  - destruct (read_message_frame false c _ _ rest Hi Hw Hf) as (c1 & Hm & Hi1 & Hf1 & Hn1 & Hs1 & Hl1 & Hc1).
    exists c1, c1, ("c"%char, body). split; [done|]. split; [done|]. unfold after. rewrite app_nil_r. split_and!; congruence || done.
Qed.

Lemma answered_cons last confirmed it items :
  answered last confirmed (it :: items) =
  let '(l1, s1) := answered last confirmed [it] in
  let '(l2, s2) := answered l1 confirmed items in (l2, s1 ++ s2).
Proof.
  destruct it as [tag body|reply k]; cbn [answered].
  - by destruct (answered last confirmed items).
  - destruct (answered (Z.max last (pk_wal_end k)) confirmed items). by destruct (pk_reply_requested k).
Qed.

(** the stream delivers the server's records, in order, and answers its
    keepalives. Past any run of keepalives and notices the client returns the next
    record unchanged, or the end of the copy, and leaves the rest to be read; it
    sends one status for each keepalive that asks for one, reporting the highest
    position seen so far as written and the confirmed position as flushed and
    applied. *)
Theorem next_exact items f c rest :
  Forall item_wf items -> final_wf f -> incoming c = concat (item_frame <$> items) ++ final_frame f ++ rest ->
  Forall (flows false) (rc_events c) -> rc_faults c = [] ->
  exists c', next c = (c', Ok (final_record f)) /\
    after c c' rest (final_wal (answered (rc_last_wal_end c) (rc_confirmed_lsn c) items).1 f)
      (answered (rc_last_wal_end c) (rc_confirmed_lsn c) items).2.
Proof.
  intros Hw Hfw Hi Hf Hn. unfold next, recv.
  assert (Hfuel : (length (incoming c) < S (pending_bytes c))%nat) by (rewrite pending_incoming; lia).
  generalize dependent (S (pending_bytes c)). intros fuel Hlt. revert fuel c Hi Hf Hn Hlt.
  induction items as [|it items IH]; intros fuel c Hi Hf Hn Hlt; (destruct fuel as [|fuel]; [lia|]); cbn [recv_loop].
  - destruct (final_step f c rest Hfw Hi Hf Hn) as (c1 & c2 & m & Hm & Hs & Ha). exists c2. rewrite bind_run, Hm, bind_run, Hs. done.
  - apply Forall_cons in Hw as [Hw1 Hw]. rewrite fmap_cons in Hi. cbn [concat] in Hi. rewrite <- app_assoc in Hi.
    destruct (item_step it c _ Hw1 Hi Hf Hn) as (c1 & c2 & m & Hm & Hs & Hi2 & Hf2 & Hn2 & Hs2 & Hl2 & Hc2).
    assert (length (incoming c1) < length (incoming c))%nat as Hdec by by apply (consumes_read_message false) in Hm.
    assert (length (incoming c2) <= length (incoming c1))%nat as Hdec2 by by apply quiet_on_stream_message in Hs as [_ ?].
    destruct (IH Hw fuel c2 Hi2 Hf2 Hn2) as (c3 & Hn3 & Ha); [lia|]. exists c3. rewrite bind_run, Hm, bind_run, Hs. split; [done|].
    rewrite answered_cons. destruct (answered _ _ [it]) as [l1 s1]. cbn [fst snd] in *. rewrite Hl2, Hc2 in Ha.
    destruct (answered l1 _ items) as [l2 s2]. cbn [fst snd] in *. unfold after in *. rewrite Hs2, Hc2 in Ha.
    by rewrite <- app_assoc in Ha.
Qed.

End streaming.

(** ** The slot's row *)

(** A field of a DataRow: its size, -1 for NULL, and its bytes. *)
Definition enc_field (o : option (list ascii)) : list ascii :=
  match o with Some b => to_be 4 (Z.of_nat (length b)) ++ b | None => to_be 4 (-1) end.
Definition enc_row (fields : list (option (list ascii))) : list ascii :=
  to_be 2 (Z.of_nat (length fields)) ++ concat (enc_field <$> fields).
Definition field_wf (o : option (list ascii)) : Prop :=
  match o with Some b => Z.of_nat (length b) <= i32_MAX | None => True end.

Lemma enc_field_head o rest : field_wf o ->
  (length (enc_field o ++ rest) <? 4)%nat = false /\
  signed 4 (be_val (take 4 (enc_field o ++ rest))) = match o with Some b => Z.of_nat (length b) | None => -1 end /\
  drop 4 (enc_field o ++ rest) = match o with Some b => b ++ rest | None => rest end.
Proof.
  intros Hw. destruct o as [b|]; cbn [enc_field field_wf] in *.
  - rewrite <- app_assoc. split_and!.
    + apply Nat.ltb_ge. rewrite !length_app, length_to_be. lia.
    + rewrite take_app_le, take_ge by (rewrite length_to_be; lia). apply signed_be_small. lia.
    + rewrite drop_app_ge by (rewrite length_to_be; lia). by rewrite length_to_be.
  - split_and!.
    + apply Nat.ltb_ge. rewrite length_app, length_to_be. lia.
    + rewrite take_app_le, take_ge by (rewrite length_to_be; lia). done.
    + rewrite drop_app_ge by (rewrite length_to_be; lia). by rewrite length_to_be.
Qed.

Lemma slot_fields_skip fields : forall i consistent snapshot, (3 <= i)%nat -> Forall field_wf fields ->
  slot_fields (length fields) i (concat (enc_field <$> fields)) consistent snapshot = Ok (consistent, snapshot).
Proof.
  induction fields as [|o fields IH]; intros i consistent snapshot Hi Hw; [done|]. apply Forall_cons in Hw as [Hw1 Hw].
  rewrite fmap_cons. cbn [length slot_fields concat].
  destruct (enc_field_head o (concat (enc_field <$> fields)) Hw1) as (-> & -> & ->).
  rewrite (proj2 (Nat.eqb_neq i CONSISTENT_FIELD)), (proj2 (Nat.eqb_neq i SNAPSHOT_FIELD))
    by (unfold CONSISTENT_FIELD, SNAPSHOT_FIELD; lia). cbn [orb].
  destruct o as [b|]; [|apply IH; [lia|done]]. rewrite (proj2 (Z.ltb_ge _ _)), Nat2Z.id by lia.
  rewrite (proj2 (Nat.ltb_ge _ _)) by (rewrite length_app; lia). rewrite drop_app_ge, Nat.sub_diag by lia. apply IH; [lia|done].
Qed.

Lemma slot_field_step n i o rest consistent snapshot : field_wf o -> (i < 3)%nat ->
  slot_fields (S n) i (enc_field o ++ rest) consistent snapshot =
  match i, o with
  | O, _ => slot_fields n 1 rest consistent snapshot
  | _, None => Err (CMalformed "null consistent point or snapshot name")
  | 1%nat, Some b =>
      if negb (utf8_valid b) then Err (CMalformed "slot DataRow value not UTF-8")
      else lsn ← map_err (fun _ => CMalformed "unparseable consistent point") (Lsn_from_str (str_of b));
           slot_fields n 2 rest (Some lsn) snapshot
  | _, Some b =>
      if negb (utf8_valid b) then Err (CMalformed "slot DataRow value not UTF-8")
      else slot_fields n 3 rest consistent (Some (str_of b))
  end.
Proof.
  intros Hw Hi. cbn [slot_fields]. destruct (enc_field_head o rest Hw) as (-> & -> & ->).
  assert (forall b, (Z.of_nat (length b) <? 0) = false /\ (length (b ++ rest) <? length b)%nat = false /\
    take (length b) (b ++ rest) = b /\ drop (length b) (b ++ rest) = rest) as Hb.
  { intros b. split_and!; [apply Z.ltb_ge; lia|apply Nat.ltb_ge; rewrite length_app; lia|by rewrite take_app_length|by rewrite drop_app_length]. }
  destruct o as [b|]; [destruct (Hb b) as (-> & E & Et & Ed); rewrite Nat2Z.id, E, Et, Ed|];
    (destruct i as [|[|[|i]]]; [..|lia]); cbn [CONSISTENT_FIELD SNAPSHOT_FIELD Nat.eqb orb]; reflexivity.
Qed.

(** C40: the row of a created slot is read back. From any row of at least three fields
    whose second is the text of a position and whose third is a snapshot name, the
    client takes exactly that snapshot and that consistent point, whatever the other
    fields are. *)
Theorem slot_row_round_trip name point snapshot lsn others :
  Lsn_from_str point = Ok lsn -> Forall (fun s => utf8_valid (bytes s) = true /\ field_wf (Some (bytes s))) [point; snapshot] ->
  field_wf name -> Forall field_wf others -> Z.of_nat (length others) < 65000 ->
  slot_row (enc_row (name :: Some (bytes point) :: Some (bytes snapshot) :: others)) = Ok (snapshot, lsn).
Proof.
  intros Hl Htexts Hname Ho Hn. apply Forall_cons in Htexts as [[Hu1 Hw1] Htexts]. apply Forall_cons in Htexts as [[Hu2 Hw2] _].
  unfold slot_row, enc_row. rewrite (proj2 (Nat.ltb_ge _ _)) by (rewrite length_app, length_to_be; lia).
  rewrite take_app_le, take_ge, be_val_to_be by (rewrite ?length_to_be; cbn [length]; change (256 ^ Z.of_nat 2) with 65536; lia).
  rewrite Nat2Z.id. cbn [length]. rewrite (proj2 (Nat.leb_gt _ _)) by (unfold SNAPSHOT_FIELD; lia).
  rewrite drop_app_ge, length_to_be by (rewrite length_to_be; lia). rewrite Nat.sub_diag, drop_0, !fmap_cons. cbn [concat].
  rewrite !slot_field_step by (done || lia). cbn iota beta. rewrite Hu1, str_of_bytes, Hl. cbn [negb map_err mbind result_bind].
  rewrite slot_field_step by (done || lia). cbn iota beta. rewrite Hu2. cbn [negb]. rewrite str_of_bytes.
  by rewrite slot_fields_skip.
Qed.

(** ** Witnesses *)

Module ClientExample.

(** A toy exchange: the client sends its password, and the server's signature must be
    the password too. *)
#[local] Instance toy : Protocol := {|
  startup_message _ := Ok (bytes "startup");
  query_message sql := Ok (bytes sql);
  sasl_initial_response m b := Ok (bytes m ++ b);
  sasl_response b := Ok b;
  Scram := list ascii;
  scram_new p := p;
  scram_message p := p;
  scram_update p _ := Ok p;
  scram_finish p b := if bool_decide (b = p) then Ok tt else Err "mismatch";
|}.

Definition config : Config := mkConfig "db" 5432 "repl" "pw" "app".

(** A SCRAM offer, continuation, signature and acceptance, cut at odd places. *)
Definition auth_bytes : list ascii :=
  frame "R"%char (to_be 4 10 ++ bytes "SCRAM-SHA-256" ++ ["000"%char; "000"%char])
  ++ frame "R"%char (to_be 4 11 ++ bytes "challenge") ++ frame "R"%char (to_be 4 12 ++ bytes "pw") ++ frame "R"%char (to_be 4 0).

Definition auth_socket : ReplicationClient := mkClient [Data (take 7 auth_bytes); Data (drop 7 auth_bytes)] [] [] [] 0 0.

Lemma auth_proves_password_witness :
  exists challenge scram signature,
    scram_update (scram_new (bytes "pw")) challenge = Ok scram /\ scram_finish scram signature = Ok tt.
Proof.
  apply (auth_proves_password config auth_socket (authenticate config auth_socket).1); [vm_compute; reflexivity|discriminate].
Defined.

(** A keepalive that asks for a reply, then a record. *)
Definition keepalive : Item := ItKeepalive "001"%char (mkPrimaryKeepalive 40 7 true).
Definition record : Final := FRecord "000"%char (mkXLogData 50 60 8 (bytes "B")).
Definition stream_bytes : list ascii := concat (item_frame <$> [keepalive]) ++ final_frame record ++ bytes "d".
Definition stream_socket : ReplicationClient :=
  mkClient [Data (take 9 stream_bytes); Stall; Data (drop 9 stream_bytes)] [] [] [] 0 30.

Lemma next_exact_witness :
  exists c', next stream_socket = (c', Ok (Some (mkXLogData 50 60 8 (bytes "B")))) /\
    after stream_socket c' (bytes "d") 60 [status_message (mkStandbyStatusUpdate 40 30 30 0 false)].
Proof.
  apply (next_exact [keepalive] record stream_socket (bytes "d")).
  - repeat constructor; vm_compute; try discriminate; done.
  - split; [repeat split; vm_compute; discriminate|vm_compute; discriminate].
  - vm_compute. reflexivity.
  - repeat constructor; vm_compute; discriminate.
  - reflexivity.
Defined.

Lemma slot_row_round_trip_witness :
  slot_row (enc_row [Some (bytes "pgshard_s"); Some (bytes "0/16B3748"); Some (bytes "00000003-1"); None])
    = Ok ("00000003-1", 23803720).
Proof.
  apply (slot_row_round_trip (Some (bytes "pgshard_s")) "0/16B3748" "00000003-1" 23803720 [None]);
    repeat constructor; vm_compute; discriminate.
Defined.

End ClientExample.
