(* ===== verification/Workflow.v ===== *)
(** * Seeding workflows: specs, the registry, the xid horizon

    [src/crates/pgshard-agent/src/workflow.rs]: the validation of a [WorkflowSpec]
    into a [RunPlan], the registry that admits one running workflow per target
    database, and the xid recurrence horizon of the publication drift check. The
    texts of the error messages are not modelled: an [Invalid] carries a tag. *)

From S2P Require Import Prelude Rust Keyspace ShardFn Client.

Open Scope Z_scope.

(** ** Wire messages ([pgshard.v1]) *)

Record TableRef := mkTableRef { tr_schema : string; tr_name : string }.
Record PgEndpoint := mkPgEndpoint { pe_host : string; pe_port : Z; pe_database : string }.

#[export] Instance TableRef_eq_dec : EqDecision TableRef.
Proof. solve_decision. Defined.

Record TableMapping := mkTableMapping {
  tm_source : option TableRef;
  tm_target : option TableRef;
  tm_column_map : list (string * string);
  tm_shard_key_column : string;
  tm_shard_key_type : string;
}.

Inductive RowFilter :=
| FilterAll (all : bool)
| FilterKeyRange (range : option (Z * option Z)) (hash_function : string).

Definition WORKFLOW_KIND_RESHARD : Z := 1.
Definition SOURCE_POLICY_UNSPECIFIED : Z := 0.
Definition SOURCE_POLICY_PRIMARY : Z := 1.

Record WorkflowSpec := mkWorkflowSpec {
  ws_id : string;
  ws_kind : Z;
  ws_source_shard : string;
  ws_source_primary : option PgEndpoint;
  ws_source_standbys : list PgEndpoint;
  ws_source_policy : Z;
  ws_slot : string;
  ws_publication : string;
  ws_tables : list TableMapping;
  ws_filter : option RowFilter;
  ws_target_database : string;
  ws_expect_provenance : string;
}.

(** ** Plans *)

Record WorkflowConfig := mkWorkflowConfig { wc_source_user : string; wc_source_password : string }.

Record TablePlan := mkTablePlan {
  tp_schema : string; tp_name : string; tp_shard_key_column : string; tp_shard_key_type : ScalarType;
}.

Record RunPlan := mkRunPlan {
  rp_id : string; rp_source : Config; rp_slot : string; rp_publication : string;
  rp_target_database : string; rp_expect_provenance : string;
  rp_tables : list TablePlan; rp_range : KeyRange; rp_hash_function : string;
}.

Inductive WorkflowError :=
| WInvalid (what : string)
| WConflict (id : string)
| WTargetBusy (id database : string)
| WStopping (id : string)
| WUnimplemented (what : string).

Definition is_safe_ident (name : string) : bool :=
  negb (str_is_empty name) && (str_len name <=? 63)%nat
  && forallb (fun b => is_ascii_alnum b || bool_decide (b = "_"%char)) (bytes name).

Definition scalar_type (wire : string) : result WorkflowError ScalarType :=
  if decide (wire = "int") then Ok TInt
  else if decide (wire = "text") then Ok TText
  else if decide (wire = "uuid") then Ok TUuid
  else if decide (wire = "bytea") then Ok TBytea
  else Err (WInvalid "shard key type").

Definition starts_with_str (p s : string) : bool :=
  match strip_prefix_bytes (bytes p) (bytes s) with Some _ => true | None => false end.

(** The duplicate-mapping loop: a source named by an earlier mapping. *)
Fixpoint mapped_twice (prev : list TableRef) (ms : list TableMapping) : bool :=
  match ms with
  | [] => false
  | m :: ms' =>
      match tm_source m with
      | Some a => bool_decide (a ∈ prev) || mapped_twice (a :: prev) ms'
      | None => mapped_twice prev ms'
      end
  end.

(** The [match] on the row filter. *)
Definition plan_filter `{XxHash} (f : option RowFilter) : result WorkflowError (KeyRange * string) :=
  match f with
  | Some (FilterAll true) => Ok (KeyRange.FULL, "xxhash64_v1")
  | Some (FilterKeyRange range hash) =>
      raw ← ok_or (WInvalid "key_range.range") range;
      kr ← map_err (fun _ => WInvalid "key range") (KeyRange.new raw.1 raw.2);
      if negb (is_ok (shard_function hash)) then Err (WInvalid "hash function") else Ok (kr, hash)
  | _ => Err (WInvalid "filter")
  end.

(** The body of the [for mapping in &spec.tables] loop. *)
Definition plan_table (mapping : TableMapping) : result WorkflowError TablePlan :=
  src ← ok_or (WInvalid "table source")
    (match tm_source mapping with
     | Some t => if str_is_empty (tr_schema t) || str_is_empty (tr_name t) then None else Some t
     | None => None
     end);
  if match tm_target mapping with
     | Some target =>
         negb (bool_decide (tr_schema target = tr_schema src) && bool_decide (tr_name target = tr_name src))
         && negb (str_is_empty (tr_schema target) && str_is_empty (tr_name target))
     | None => false
     end
  then Err (WUnimplemented "table renaming")
  else if negb (bool_decide (tm_column_map mapping = [])) then Err (WUnimplemented "column mapping")
  else if str_is_empty (tm_shard_key_column mapping) then Err (WInvalid "shard key column")
  else
    ty ← scalar_type (tm_shard_key_type mapping);
    Ok (mkTablePlan (tr_schema src) (tr_name src) (tm_shard_key_column mapping) ty).

Definition plan `{XxHash} (spec : WorkflowSpec) (config : WorkflowConfig) : result WorkflowError RunPlan :=
  if str_is_empty (ws_id spec) then Err (WInvalid "id")
  else if negb (ws_kind spec =? WORKFLOW_KIND_RESHARD) then Err (WInvalid "kind")
  else if negb (is_safe_ident (ws_slot spec)) then Err (WInvalid "slot")
  else if negb (starts_with_str "pgshard_" (ws_slot spec)) then Err (WInvalid "slot prefix")
  else if negb (is_safe_ident (ws_publication spec)) then Err (WInvalid "publication")
  else if str_is_empty (ws_target_database spec) || (63 <? str_len (ws_target_database spec))%nat then
    Err (WInvalid "target_database")
  else if str_is_empty (ws_expect_provenance spec) then Err (WInvalid "expect_provenance")
  else
    source ← ok_or (WInvalid "source_primary")
      (match ws_source_primary spec with
       | Some e => if negb (str_is_empty (pe_host e)) && negb (pe_port e =? 0) && negb (str_is_empty (pe_database e))
                   then Some e else None
       | None => None
       end);
    if pe_port source >? u16_MAX then Err (WInvalid "port")
    else if negb (ws_source_policy spec =? SOURCE_POLICY_PRIMARY)
            && negb (ws_source_policy spec =? SOURCE_POLICY_UNSPECIFIED)
    then Err (WUnimplemented "source policy")
    else if bool_decide (ws_tables spec = []) then Err (WInvalid "tables")
    else if mapped_twice [] (ws_tables spec) then Err (WInvalid "mapped twice")
    else
      '(range, hash) ← plan_filter (ws_filter spec);
      tables ← mapM plan_table (ws_tables spec);
      Ok (mkRunPlan (ws_id spec)
            (mkConfig (pe_host source) (pe_port source) (wc_source_user config) (wc_source_password config)
               (pe_database source))
            (ws_slot spec) (ws_publication spec) (ws_target_database spec) (ws_expect_provenance spec)
            tables range hash).

#[export] Instance TableMapping_eq_dec : EqDecision TableMapping.
Proof. solve_decision. Defined.

(** ** The registry *)

Inductive WorkflowPhase := PhaseInit | PhaseCopy | PhaseStreaming | PhaseStopped | PhaseError.

#[export] Instance WorkflowPhase_eq_dec : EqDecision WorkflowPhase.
Proof. solve_decision. Defined.

(** A handle: the watch channels' values and whether the task has terminated
    ([join.is_finished()]). *)
Record WorkflowHandle := mkHandle {
  wh_spec_bytes : list ascii;
  wh_target_database : string;
  wh_phase : WorkflowPhase;
  wh_stop : bool;
  wh_finished : bool;
}.

Definition winding_down (h : WorkflowHandle) : bool :=
  bool_decide (wh_phase h = PhaseError) || bool_decide (wh_phase h = PhaseStopped) || wh_stop h.

#[global] Abbreviation WorkflowRegistry := (gmap string WorkflowHandle).

(** [inner.iter().find(...)]: an unfinished handle of another id on this target.
    The order of a [HashMap] is unspecified; the map's own order is taken, and
    there is never more than one candidate. *)
Definition target_holder (reg : WorkflowRegistry) (id database : string) : option (string * WorkflowHandle) :=
  find_first (fun p => negb (bool_decide (p.1 = id)) && negb (wh_finished p.2)
                       && bool_decide (wh_target_database p.2 = database))
    (map_to_list reg).

(** [WorkflowRegistry::start]; [encode] is prost's [encode_to_vec], and a new
    handle's task has not finished. *)
Definition registry_start `{XxHash} (encode : WorkflowSpec -> list ascii) (spec : WorkflowSpec)
    (config : WorkflowConfig) (reg : WorkflowRegistry) : WorkflowRegistry * result WorkflowError unit :=
  match plan spec config with
  | Err e => (reg, Err e)
  | Ok run =>
      let spec_bytes := encode spec in
      let fresh :=
        match target_holder reg (rp_id run) (rp_target_database run) with
        | Some (other, holder) =>
            if winding_down holder then (reg, Err (WStopping other))
            else (reg, Err (WTargetBusy other (rp_target_database run)))
        | None =>
            (<[rp_id run := mkHandle spec_bytes (rp_target_database run) PhaseInit false false]> reg, Ok tt)
        end in
      match reg !! rp_id run with
      | Some existing =>
          if wh_finished existing then fresh
          else if winding_down existing then (reg, Err (WStopping (rp_id run)))
          else if bool_decide (wh_spec_bytes existing = spec_bytes) then (reg, Ok tt)
          else (reg, Err (WConflict (rp_id run)))
      | None => fresh
      end
  end.

Definition registry_stop (id : string) (reg : WorkflowRegistry) : WorkflowRegistry :=
  match reg !! id with
  | Some h => <[id := mkHandle (wh_spec_bytes h) (wh_target_database h) (wh_phase h) true (wh_finished h)]> reg
  | None => reg
  end.

Definition statuses (ids : list string) (reg : WorkflowRegistry) : list (string * WorkflowPhase) :=
  (fun p => (p.1, wh_phase p.2)) <$>
    List.filter (fun p => bool_decide (ids = []) || bool_decide (p.1 ∈ ids)) (map_to_list reg).

(** The running task: it moves its status, and eventually terminates. *)
Definition worker_phase (id : string) (ph : WorkflowPhase) (reg : WorkflowRegistry) : WorkflowRegistry :=
  match reg !! id with
  | Some h => if wh_finished h then reg
              else <[id := mkHandle (wh_spec_bytes h) (wh_target_database h) ph (wh_stop h) false]> reg
  | None => reg
  end.

Definition worker_finish (id : string) (reg : WorkflowRegistry) : WorkflowRegistry :=
  match reg !! id with
  | Some h => <[id := mkHandle (wh_spec_bytes h) (wh_target_database h) (wh_phase h) (wh_stop h) true]> reg
  | None => reg
  end.

(** ** Streaming filters and the xid horizon *)

Definition allowed_key_oids (key_type : ScalarType) : list Z :=
  match key_type with
  | TInt => [20; 21; 23]
  | TText => [25; 1043]
  | TUuid => [2950]
  | TBytea => [17]
  end.

Record RelFilter := mkRelFilter { rf_key_index : nat; rf_key_type : ScalarType }.

(** [rel_filter]: the filter of a relation the stream has described. *)
Definition rel_filter (relations : gmap Z RelFilter) (oid : Z) : option RelFilter := relations !! oid.

(** [xid_recurrence_horizon] over the captured [xmin] texts; [None] is the error. *)
Fixpoint horizon_loop (base32 horizon : Z) (xmins : list string) : option Z :=
  match xmins with
  | [] => Some horizon
  | xmin :: xmins' =>
      v ← from_str_radix_unsigned 10 u32_MAX (bytes xmin);
      if v <? 3 then horizon_loop base32 horizon xmins'
      else
        let d := as_u32 (v - base32) in
        horizon_loop base32 (if d >? 0 then Z.min horizon d else horizon) xmins'
  end.

Definition xid_recurrence_horizon (base : Z) (versions : list (Z * Z * string)) : option Z :=
  horizon_loop (as_u32 base) (u32_MAX + 1) (snd <$> versions).

(** ** Lemmas *)

(** The registry under calls and running tasks. *)
Inductive reg_reach `{XxHash} (encode : WorkflowSpec -> list ascii) (config : WorkflowConfig)
    : WorkflowRegistry -> Prop :=
| rr_init : reg_reach encode config ∅
| rr_start reg spec : reg_reach encode config reg ->
    reg_reach encode config (fst (registry_start encode spec config reg))
| rr_stop reg id : reg_reach encode config reg -> reg_reach encode config (registry_stop id reg)
| rr_phase reg id ph : reg_reach encode config reg -> reg_reach encode config (worker_phase id ph reg)
| rr_finish reg id : reg_reach encode config reg -> reg_reach encode config (worker_finish id reg).

Definition one_holder (reg : WorkflowRegistry) : Prop :=
  forall id1 id2 h1 h2, reg !! id1 = Some h1 -> reg !! id2 = Some h2 ->
    wh_finished h1 = false -> wh_finished h2 = false ->
    wh_target_database h1 = wh_target_database h2 -> id1 = id2.

Lemma target_holder_None reg id database :
  target_holder reg id database = None ->
  forall id' h, reg !! id' = Some h -> id' <> id -> wh_finished h = false -> wh_target_database h <> database.
Proof.
  unfold target_holder. intros Hn id' h Hh Hne Hf Heq.
  apply find_first_None in Hn. rewrite Forall_forall in Hn.
  specialize (Hn (id', h) ltac:(by apply elem_of_map_to_list)). simpl in Hn.
  rewrite bool_decide_false, Hf, bool_decide_true in Hn by done. done.
Qed.

(** Replacing a handle by one that holds no more than it did. *)
Lemma one_holder_update reg id h h' :
  one_holder reg -> reg !! id = Some h ->
  wh_target_database h' = wh_target_database h -> (wh_finished h' = false -> wh_finished h = false) ->
  one_holder (<[id := h']> reg).
Proof.
  intros Ho Hh Ht Hf id1 id2 h1 h2. rewrite !lookup_insert.
  do 2 case_decide; intros ? ? ? ? Hd; simplify_eq; try done.
  - eapply (Ho id1 id2 h h2); eauto. congruence.
  - eapply (Ho id1 id2 h1 h); eauto. congruence.
  - eapply (Ho id1 id2 h1 h2); eauto.
Qed.

Lemma registry_start_cases `{XxHash} encode spec config reg reg' r :
  registry_start encode spec config reg = (reg', r) ->
  reg' = reg \/
  exists run, plan spec config = Ok run /\ r = Ok tt /\
    reg' = <[rp_id run := mkHandle (encode spec) (rp_target_database run) PhaseInit false false]> reg /\
    target_holder reg (rp_id run) (rp_target_database run) = None /\
    (forall h, reg !! rp_id run = Some h -> wh_finished h = true).
Proof.
  unfold registry_start. destruct (plan spec config) as [run|e]; [|intros [= <- _]; by left].
  destruct (reg !! rp_id run) as [ex|] eqn:Hex.
  - destruct (wh_finished ex) eqn:Hf.
    + destruct (target_holder _ _ _) as [[other holder]|] eqn:Hh.
      * destruct (winding_down holder); intros [= <- _]; by left.
      * intros [= <- <-]. right. exists run. split_and!; try done. congruence.
    + destruct (winding_down ex); [intros [= <- _]; by left|].
      destruct (bool_decide _); intros [= <- _]; by left.
  - destruct (target_holder _ _ _) as [[other holder]|] eqn:Hh.
    + destruct (winding_down holder); intros [= <- _]; by left.
    + intros [= <- <-]. right. exists run. split_and!; congruence.
Qed.

Lemma one_holder_reach `{XxHash} encode config reg : reg_reach encode config reg -> one_holder reg.
Proof.
  induction 1 as [|reg spec _ IH|reg id _ IH|reg id ph _ IH|reg id _ IH].
  - intros id1 id2 h1 h2 H1. by rewrite lookup_empty in H1.
  - destruct (registry_start encode spec config reg) as [reg' r] eqn:E.
    destruct (registry_start_cases _ _ _ _ _ _ E) as [->|(run & _ & _ & -> & Hn & Hfin)]; [done|]. simpl.
    pose proof (target_holder_None _ _ _ Hn) as Hno.
    intros id1 id2 h1 h2. rewrite !lookup_insert.
    do 2 case_decide; intros Hl1 Hl2 Hf1 Hf2 Hd; simplify_eq; simpl in *; try done.
    + exfalso. eapply (Hno id2 h2); eauto.
    + exfalso. eapply (Hno id1 h1); eauto.
    + eapply (IH id1 id2 h1 h2); eauto.
  - unfold registry_stop. destruct (reg !! id) eqn:Hh; [|done]. by eapply one_holder_update.
  - unfold worker_phase. destruct (reg !! id) as [h|] eqn:Hh; [|done].
    destruct (wh_finished h) eqn:Hf; [done|]. by eapply one_holder_update.
  - unfold worker_finish. destruct (reg !! id) eqn:Hh; [|done]. by eapply one_holder_update.
Qed.

Lemma mapped_twice_spec prev ms : mapped_twice prev ms = false ->
  NoDup (omap tm_source ms) /\ forall t, t ∈ omap tm_source ms -> t ∉ prev.
Proof.
  revert prev. induction ms as [|m ms IH]; intros prev Hm; simpl in *.
  - split; [constructor|set_solver].
  - destruct (tm_source m) as [a|]; [|by apply IH].
    apply orb_false_iff in Hm as [Ha Hm]. apply bool_decide_eq_false in Ha.
    destruct (IH _ Hm) as [Hnd Hno]. split.
    + apply NoDup_cons. split; [|done]. intros Hin. apply (Hno a Hin). left.
    + intros t [->|Hin]%elem_of_cons; [done|]. specialize (Hno t Hin). set_solver.
Qed.

Lemma plan_table_Ok m t : plan_table m = Ok t ->
  tm_source m = Some (mkTableRef (tp_schema t) (tp_name t)) /\
  tp_schema t <> EmptyString /\ tp_name t <> EmptyString /\
  tp_shard_key_column t = tm_shard_key_column m /\ tp_shard_key_column t <> EmptyString /\
  scalar_type (tm_shard_key_type m) = Ok (tp_shard_key_type t).
Proof.
  unfold plan_table. intros H. apply result_bind_Ok in H as (src & Hsrc & H). apply ok_or_Ok in Hsrc.
  destruct (tm_source m) as [r|]; [|done]. destruct (str_is_empty (tr_schema r)) eqn:E1; [done|].
  destruct (str_is_empty (tr_name r)) eqn:E2; [done|]. simpl in Hsrc. injection Hsrc as ->.
  case_bool; [done|]. case_bool; [done|]. destruct (str_is_empty (tm_shard_key_column m)) eqn:E3; [done|].
  apply result_bind_Ok in H as (ty & Hty & [= <-]). simpl. rewrite <- !str_is_empty_spec, E1, E2, E3.
  by destruct src.
Qed.

Lemma tables_sources ms ts : mapM plan_table ms = Ok ts ->
  (fun t => mkTableRef (tp_schema t) (tp_name t)) <$> ts = omap tm_source ms.
Proof.
  intros H%mapM_Ok. induction H as [|m t ms ts Hm _ IH]; [done|].
  apply plan_table_Ok in Hm as (Hs & _). simpl. rewrite Hs. f_equal. exact IH.
Qed.

(** ** Properties *)

(** seeding truncates its target, so at any time at most one workflow task that has
    not terminated holds a given target database, whatever sequence of starts, stops,
    retries and task terminations led there. *)
Theorem one_seeder_per_target `{XxHash} encode config reg id1 id2 h1 h2 :
  reg_reach encode config reg ->
  reg !! id1 = Some h1 -> reg !! id2 = Some h2 -> wh_finished h1 = false -> wh_finished h2 = false ->
  wh_target_database h1 = wh_target_database h2 -> id1 = id2.
Proof. intros Hr. exact (one_holder_reach encode config reg Hr id1 id2 h1 h2). Qed.

(** [start] succeeds only with a worker behind the answer: afterwards the id has a
    task that has not terminated, was started with the byte-identical spec, and was not
    told to stop and has not failed; and nothing else in the registry changed. *)
Theorem start_ok_has_worker `{XxHash} encode spec config reg reg' :
  registry_start encode spec config reg = (reg', Ok tt) ->
  (exists h, reg' !! ws_id spec = Some h /\ wh_finished h = false /\ winding_down h = false /\
     wh_spec_bytes h = encode spec) /\
  forall id, id <> ws_id spec -> reg' !! id = reg !! id.
Proof.
  intros Hs.
  assert (Hid : forall run, plan spec config = Ok run -> rp_id run = ws_id spec).
  { intros run Hp. unfold plan in Hp. repeat (case_bool; [done|]).
    apply result_bind_Ok in Hp as (src & _ & Hp). repeat (case_bool; [done|]).
    apply result_bind_Ok in Hp as ([rg hs] & _ & Hp). apply result_bind_Ok in Hp as (ts & _ & [= <-]). done. }
  pose proof (registry_start_cases _ _ _ _ _ _ Hs) as [->|(run & Hp & _ & -> & _)].
  - split; [|done]. unfold registry_start in Hs. destruct (plan spec config) as [run|e] eqn:Hp; [|done].
    rewrite <- (Hid run eq_refl). destruct (reg !! rp_id run) as [ex|] eqn:Hex.
    + destruct (wh_finished ex) eqn:Hf.
      * destruct (target_holder _ _ _) as [[o hd]|]; [by destruct (winding_down hd)|].
        injection Hs as Hs. exfalso. rewrite <- Hs, lookup_insert_eq in Hex. by injection Hex as <-.
      * destruct (winding_down ex) eqn:Hw; [done|].
        destruct (bool_decide _) eqn:Hb; [|done]. apply bool_decide_eq_true in Hb. by exists ex.
    + destruct (target_holder _ _ _) as [[o hd]|]; [by destruct (winding_down hd)|].
      injection Hs as Hs. exfalso. by rewrite <- Hs, lookup_insert_eq in Hex.
  - rewrite <- (Hid run Hp). split; [|intros id Hne; by apply lookup_insert_ne].
    eexists. rewrite lookup_insert_eq. by split_and!.
Qed.

(** a spec that [plan] accepts is safe to run destructively: the slot is a safe
    identifier in the reserved namespace, the publication a safe identifier, the target
    database name is non-empty and is not truncated by PostgreSQL, a provenance marker is
    demanded, the key range is well formed and its hash function known, the source port is
    a port, and the tables are distinct, each with a key column and a known key type. *)
Theorem plan_safe `{XxHash} spec config run :
  (forall s e h, ws_filter spec = Some (FilterKeyRange (Some (s, e)) h) ->
     is_u64 s /\ forall v, e = Some v -> is_u64 v) ->
  plan spec config = Ok run ->
  is_safe_ident (rp_slot run) = true /\ starts_with_str "pgshard_" (rp_slot run) = true /\
  is_safe_ident (rp_publication run) = true /\
  (0 < str_len (rp_target_database run) <= 63)%nat /\ rp_expect_provenance run <> EmptyString /\
  range_wf (rp_range run) /\ is_ok (shard_function (rp_hash_function run)) = true /\
  cf_port (rp_source run) <> 0 /\ cf_port (rp_source run) <= u16_MAX /\
  rp_tables run <> [] /\ NoDup ((fun t => (tp_schema t, tp_name t)) <$> rp_tables run) /\
  Forall (fun t => tp_shard_key_column t <> EmptyString) (rp_tables run).
Proof.
  intros Hf Hp. unfold plan in Hp.
  destruct (str_is_empty (ws_id spec)); [done|]. destruct (negb (ws_kind spec =? _)); [done|].
  destruct (is_safe_ident (ws_slot spec)) eqn:E1; [|done]. simpl negb in Hp. cbv iota in Hp.
  destruct (starts_with_str _ _) eqn:E2; [|done]. simpl negb in Hp. cbv iota in Hp.
  destruct (is_safe_ident (ws_publication spec)) eqn:E3; [|done]. simpl negb in Hp. cbv iota in Hp.
  destruct (str_is_empty (ws_target_database spec)) eqn:E4; [done|].
  destruct (63 <? _)%nat eqn:E5; [done|]. simpl orb in Hp. cbv iota in Hp.
  destruct (str_is_empty (ws_expect_provenance spec)) eqn:E6; [done|].
  apply result_bind_Ok in Hp as (src & Hsrc & Hp). apply ok_or_Ok in Hsrc.
  destruct (pe_port src >? u16_MAX) eqn:E7; [done|]. case_bool; [done|].
  destruct (bool_decide (ws_tables spec = [])) eqn:E8; [done|]. apply bool_decide_eq_false in E8.
  destruct (mapped_twice [] (ws_tables spec)) eqn:E9; [done|].
  apply result_bind_Ok in Hp as ([rg hs] & Hfil & Hp). apply result_bind_Ok in Hp as (ts & Hts & [= <-]). simpl.
  assert (Hport : pe_port src <> 0).
  { destruct (ws_source_primary spec) as [e|]; [|done]. destruct (negb _ && _ && _) eqn:Ee; [|done].
    injection Hsrc as ->. rewrite !andb_true_iff, !negb_true_iff in Ee. lia. }
  assert (Hrange : range_wf rg /\ is_ok (shard_function hs) = true).
  { unfold plan_filter in Hfil. destruct (ws_filter spec) as [[[]|raw h]|] eqn:Efl; try done.
    - injection Hfil as <- <-. split; [concrete|done].
    - apply result_bind_Ok in Hfil as ([s e] & Hraw & Hfil). apply ok_or_Ok in Hraw. subst raw.
      apply result_bind_Ok in Hfil as (kr & Hkr & Hfil). simpl in Hkr.
      destruct (KeyRange.new s e) as [kr'|] eqn:Hnew; [|done]. injection Hkr as ->.
      destruct (is_ok (shard_function h)) eqn:Eh; [|done]. injection Hfil as -> ->.
      destruct (Hf s e hs eq_refl). split; [|done]. by eapply new_wf. }
  destruct Hrange as [Hr1 Hr2]. pose proof (tables_sources _ _ Hts) as Hsrcs.
  apply mapM_Ok in Hts as Hall. apply mapped_twice_spec in E9 as [Hnd _].
  apply Nat.ltb_ge in E5.
  split_and!; try done.
  - unfold str_len in *. destruct (ws_target_database spec); [done|]. simpl. lia.
  - by rewrite <- str_is_empty_spec, E6.
  - lia.
  - intros ->. apply Forall2_nil_inv_r in Hall. done.
  - apply (NoDup_fmap_1 (fun p => mkTableRef p.1 p.2)).
    rewrite <- list_fmap_compose. unfold compose. simpl. by rewrite Hsrcs.
  - clear - Hall. induction Hall as [|m t ms ts Hm _ IH]; constructor; [|done].
    by apply plan_table_Ok in Hm as (_ & _ & _ & _ & ? & _).
Qed.

(** *** The horizon *)

Lemma horizon_loop_spec base32 xmins : forall h0 h,
  0 <= base32 <= u32_MAX -> horizon_loop base32 h0 xmins = Some h ->
  h <= h0 /\
  forall x v, x ∈ xmins -> from_str_radix_unsigned 10 u32_MAX (bytes x) = Some v -> 3 <= v ->
    as_u32 (v - base32) = 0 \/ h <= as_u32 (v - base32).
Proof.
  induction xmins as [|x xs IH]; intros h0 h Hb H; simpl in H.
  - injection H as ->. split; [lia|set_solver].
  - destruct (from_str_radix_unsigned _ _ _) as [v|] eqn:Hv; [|done]. simpl in H.
    destruct (v <? 3) eqn:E3.
    + destruct (IH _ _ Hb H) as [Hle Hall]. split; [done|]. intros y w [->|Hy]%elem_of_cons Hw Hw3; [|eauto].
      rewrite Hv in Hw. simplify_eq. lia.
    + destruct (IH _ _ Hb H) as [Hle Hall]. split; [case_bool; lia|].
      intros y w [->|Hy]%elem_of_cons Hw Hw3; [|eauto]. rewrite Hv in Hw. injection Hw as ->.
      destruct (as_u32 (w - base32) >? 0) eqn:Ed; [right; lia|left].
      unfold as_u32, u32_MAX in *. pose proof (Z.mod_pos_bound (w - base32) (4294967295 + 1)). lia.
Qed.

(** Within the horizon no transaction id handed out after the baseline repeats a
    captured [xmin]: for fewer than [horizon] ids consumed, the low 32 bits of the counter
    differ from every captured non-special value, so equal row versions prove the
    publication's rows were not rewritten. *)
Lemma xid_horizon_sound base versions horizon k x v :
  is_u64 base -> xid_recurrence_horizon base versions = Some horizon ->
  x ∈ versions.*2 -> from_str_radix_unsigned 10 u32_MAX (bytes x) = Some v -> 3 <= v <= u32_MAX ->
  0 < k < horizon -> as_u32 (base + k) <> v.
Proof.
  intros Hbase Hh Hx Hv Hrange Hk Heq. unfold xid_recurrence_horizon in Hh.
  assert (Hb : 0 <= as_u32 base <= u32_MAX).
  { unfold as_u32, u32_MAX. pose proof (Z.mod_pos_bound base (4294967295 + 1)). lia. }
  destruct (horizon_loop_spec _ _ _ _ Hb Hh) as [Hmax Hall].
  specialize (Hall x v Hx Hv ltac:(lia)).
  assert (Hd : as_u32 (v - as_u32 base) = as_u32 k).
  { rewrite <- Heq. unfold as_u32. rewrite <- Zminus_mod. f_equal. lia. }
  rewrite Hd in Hall. unfold as_u32, u32_MAX in *. rewrite (Z.mod_small k) in Hall by lia. lia.
Qed.

(** ** Witnesses *)

#[local] Existing Instance be_hash.

Definition demo_encode (s : WorkflowSpec) : list ascii := bytes (ws_id s) ++ bytes (ws_slot s).
Definition demo_wconfig : WorkflowConfig := mkWorkflowConfig "repl" "secret".
Definition demo_wspec : WorkflowSpec :=
  mkWorkflowSpec "wf1" 1 "src" (Some (mkPgEndpoint "10.0.0.1" 5432 "app")) [] 1 "pgshard_wf1" "pgshard_pub"
    [mkTableMapping (Some (mkTableRef "public" "orders")) None [] "customer_id" "int"]
    (Some (FilterKeyRange (Some (0, Some 128)) "xxhash64_v1")) "shard_00" "uid-1".
Definition demo_reg : WorkflowRegistry := fst (registry_start demo_encode demo_wspec demo_wconfig ∅).
Definition demo_handle : WorkflowHandle := mkHandle (demo_encode demo_wspec) "shard_00" PhaseInit false false.

Lemma one_seeder_per_target_witness : "wf1" = "wf1".
Proof.
  apply (one_seeder_per_target demo_encode demo_wconfig demo_reg "wf1" "wf1" demo_handle demo_handle);
    try reflexivity. apply rr_start. constructor.
Defined.

Lemma start_ok_has_worker_witness :
  (exists h, demo_reg !! ws_id demo_wspec = Some h /\ wh_finished h = false /\ winding_down h = false /\
     wh_spec_bytes h = demo_encode demo_wspec) /\
  forall id, id <> ws_id demo_wspec -> demo_reg !! id = (∅ : WorkflowRegistry) !! id.
Proof. apply (start_ok_has_worker demo_encode demo_wspec demo_wconfig ∅ demo_reg). reflexivity. Defined.

Definition demo_run : RunPlan :=
  mkRunPlan "wf1" (mkConfig "10.0.0.1" 5432 "repl" "secret" "app") "pgshard_wf1" "pgshard_pub" "shard_00" "uid-1"
    [mkTablePlan "public" "orders" "customer_id" TInt] (mkKeyRange 0 (Some 128)) "xxhash64_v1".

Lemma plan_safe_witness :
  is_safe_ident (rp_slot demo_run) = true /\ starts_with_str "pgshard_" (rp_slot demo_run) = true /\
  is_safe_ident (rp_publication demo_run) = true /\
  (0 < str_len (rp_target_database demo_run) <= 63)%nat /\ rp_expect_provenance demo_run <> EmptyString /\
  range_wf (rp_range demo_run) /\ is_ok (shard_function (rp_hash_function demo_run)) = true /\
  cf_port (rp_source demo_run) <> 0 /\ cf_port (rp_source demo_run) <= u16_MAX /\
  rp_tables demo_run <> [] /\ NoDup ((fun t => (tp_schema t, tp_name t)) <$> rp_tables demo_run) /\
  Forall (fun t => tp_shard_key_column t <> EmptyString) (rp_tables demo_run).
Proof.
  apply (plan_safe demo_wspec demo_wconfig demo_run); [|vm_compute; reflexivity].
  intros s e h [= <- <- <-]. split; [concrete|]. intros v [= <-]. concrete.
Defined.

