(* ===== verification/Service.v ===== *)
(** * The agent's RPC handlers

    [src/crates/pgshard-agent/src/service.rs] over the [Instance] trait
    ([instance.rs]). A handler is a function from the agent's state to its next state
    and the reply. The per-name slots of [create_restore_point] and [emit_journal] are
    locked across the PostgreSQL call by a detached task, so for one name these
    handlers are atomic; [exec_schema] and the epoch-guarded commands are shown here
    one request at a time, and interleaved in the file of the guards. Message texts of
    a [Status] are not modelled, its code is. *)

From S2P Require Import Prelude Rust Keyspace ShardFn Agent Workflow.

Open Scope Z_scope.

(** ** Data *)

Inductive Code :=
| InvalidArgument | FailedPrecondition | Aborted | AlreadyExists | Internal | Unimplemented | Unavailable.

#[export] Instance Code_eq_dec : EqDecision Code.
Proof. solve_decision. Defined.

Record RestorePoint := mkRestorePoint { rpt_lsn : Z; rpt_timeline : Z }.

(** A call under [tokio::time::timeout]. *)
Inductive Timed (A : Type) :=
| Finished (r : result unit A)
| TimedOut.
Arguments Finished {A} _.
Arguments TimedOut {A}.

(** An error of [create_database]: the typed [ForeignDatabase], or any other. *)
Inductive DbError := ForeignDatabase | OtherDbError.

(** [trait Instance]: what the agent asks of the local PostgreSQL. [I] is the
    instance's own state; any call may fail, also after it took effect. *)
Class Instance (I : Type) := {
  inst_snapshot : I -> result unit Snapshot;
  inst_promote : I -> I * result unit Z;
  inst_set_fenced : I -> bool -> I * result unit unit;
  inst_rejoin : I -> string -> bool -> I * result unit bool;
  inst_exec_sql : I -> string -> I * result unit unit;
  inst_create_database : I -> string -> string -> string -> bool -> I * result DbError unit;
  inst_drop_database : I -> string -> I * result unit unit;
  inst_create_restore_point : I -> string -> I * Timed RestorePoint;
  inst_switch_wal : I -> bool -> I * result unit Z;
  inst_fence_writes : I -> string -> bool -> I * result unit Z;
  inst_emit_journal : I -> string -> list ascii -> I * Timed Z;
  inst_prepare_source : I -> string -> string -> list (string * string) -> I * result unit (option Z);
}.

(** The wire library (prost): the encoding of the two messages the agent compares. *)
Class Wire := {
  JournalEvent : Type;
  journal_source_shard : JournalEvent -> string;
  encode_journal : JournalEvent -> list ascii;
  encode_spec : WorkflowSpec -> list ascii;
}.

Record JournalRecord := mkJournalRecord { jr_database : string; jr_payload : list ascii; jr_lsn : option Z }.

Record AgentSvc (I : Type) := mkAgent {
  ag_instance : I;
  ag_pod : string;
  ag_pod_uid : string;
  ag_epoch : Applied;
  ag_schema : SchemaLog;
  ag_restore_points : gmap string RestorePoint;
  ag_journals : gmap string JournalRecord;
  ag_workflows : WorkflowRegistry;
  ag_workflow_config : option WorkflowConfig;
}.
Arguments mkAgent {I} _ _ _ _ _ _ _ _ _.
Arguments ag_instance {I} _.
Arguments ag_pod {I} _.
Arguments ag_pod_uid {I} _.
Arguments ag_epoch {I} _.
Arguments ag_schema {I} _.
Arguments ag_restore_points {I} _.
Arguments ag_journals {I} _.
Arguments ag_workflows {I} _.
Arguments ag_workflow_config {I} _.

Section fields.
Context {I : Type}.

Definition with_instance (i : I) (s : AgentSvc I) : AgentSvc I :=
  mkAgent i (ag_pod s) (ag_pod_uid s) (ag_epoch s) (ag_schema s) (ag_restore_points s) (ag_journals s)
    (ag_workflows s) (ag_workflow_config s).
Definition with_epoch (a : Applied) (s : AgentSvc I) : AgentSvc I :=
  mkAgent (ag_instance s) (ag_pod s) (ag_pod_uid s) a (ag_schema s) (ag_restore_points s) (ag_journals s)
    (ag_workflows s) (ag_workflow_config s).
Definition with_schema (x : SchemaLog) (s : AgentSvc I) : AgentSvc I :=
  mkAgent (ag_instance s) (ag_pod s) (ag_pod_uid s) (ag_epoch s) x (ag_restore_points s) (ag_journals s)
    (ag_workflows s) (ag_workflow_config s).
Definition with_restore_points (x : gmap string RestorePoint) (s : AgentSvc I) : AgentSvc I :=
  mkAgent (ag_instance s) (ag_pod s) (ag_pod_uid s) (ag_epoch s) (ag_schema s) x (ag_journals s)
    (ag_workflows s) (ag_workflow_config s).
Definition with_journals (x : gmap string JournalRecord) (s : AgentSvc I) : AgentSvc I :=
  mkAgent (ag_instance s) (ag_pod s) (ag_pod_uid s) (ag_epoch s) (ag_schema s) (ag_restore_points s) x
    (ag_workflows s) (ag_workflow_config s).
Definition with_registry (x : WorkflowRegistry) (s : AgentSvc I) : AgentSvc I :=
  mkAgent (ag_instance s) (ag_pod s) (ag_pod_uid s) (ag_epoch s) (ag_schema s) (ag_restore_points s)
    (ag_journals s) x (ag_workflow_config s).
End fields.

(** [AgentSvc::new], [with_pod_uid], [with_workflows]. *)
Definition with_pod_uid {I} (instance : I) (pod pod_uid : string) : AgentSvc I :=
  mkAgent instance pod pod_uid EpochGuard.new ∅ ∅ ∅ ∅ None.
Definition agent_new {I} (instance : I) (pod : string) : AgentSvc I := with_pod_uid instance pod EmptyString.
Definition with_workflows {I} (config : WorkflowConfig) (s : AgentSvc I) : AgentSvc I :=
  mkAgent (ag_instance s) (ag_pod s) (ag_pod_uid s) (ag_epoch s) (ag_schema s) (ag_restore_points s) (ag_journals s)
    (ag_workflows s) (Some config).

(** The agent binary's [main] up to serving: the credentials' connection string is parsed
    by tokio-postgres, and a string it refuses stops the agent. *)
Definition agent_main {I} (parses : string -> bool) (instance : I) (pg_conn pod pod_uid : string) (repl_user repl_password : option string)
    : option (AgentSvc I) :=
  let svc := with_pod_uid instance pod pod_uid in
  match repl_user, repl_password with
  | Some user, Some password => if parses pg_conn then Some (with_workflows (mkWorkflowConfig user password) svc) else None
  | _, _ => Some svc
  end.

(** ** Status mapping and argument checks *)

Definition workflow_status (e : WorkflowError) : Code :=
  match e with
  | WInvalid _ => InvalidArgument
  | WConflict _ | WTargetBusy _ _ => FailedPrecondition
  | WStopping _ => Unavailable
  | WUnimplemented _ => Unimplemented
  end.

Definition schema_status (e : SchemaError) : Code :=
  match e with
  | EmptyId | DifferentSql _ => InvalidArgument
  | OpInFlight _ => AlreadyExists
  end.

Definition epoch_status (e : EpochError) : Code :=
  match e with
  | EpochZero => InvalidArgument
  | EpochStale _ _ | EpochConflict _ => FailedPrecondition
  end.

Definition internal {A} (r : result unit A) : result Code A := map_err (fun _ => Internal) r.

Definition MAX_IDENT_BYTES : nat := 63.

Definition check_ident (value : string) (required : bool) : result Code unit :=
  if str_is_empty value then if required then Err InvalidArgument else Ok tt
  else if (MAX_IDENT_BYTES <? str_len value)%nat then Err InvalidArgument
  else Ok tt.

Definition MAX_PROVENANCE_BYTES : nat := 128.

Definition check_provenance (value : string) : result Code unit :=
  if (MAX_PROVENANCE_BYTES <? str_len value)%nat then Err InvalidArgument
  else if negb (forallb (fun c => is_ascii_alnum c
            || bool_decide (c ∈ ["."%char; "_"%char; ":"%char; "-"%char])) (bytes value))
  then Err InvalidArgument
  else Ok tt.

(** The pod-uid test shared by the identity-sensitive requests. *)
Definition wrong_pod {I} (s : AgentSvc I) (target_pod_uid : string) : bool :=
  negb (str_is_empty target_pod_uid) && negb (str_is_empty (ag_pod_uid s))
  && negb (bool_decide (target_pod_uid = ag_pod_uid s)).

Definition bool_str (b : bool) : string := if b then "true" else "false".

(** ** Handlers *)

Section handlers.
Context {I : Type} `{!Instance I} `{!XxHash} `{!Wire}.

Definition get_status (s : AgentSvc I) : AgentSvc I * result Code InstanceStatus :=
  (s, to_status <$> internal (inst_snapshot (ag_instance s))).

Definition promote (target_primary : string) (decision_epoch : Z) (s : AgentSvc I)
    : AgentSvc I * result Code (Z * Z) :=
  if negb (bool_decide (target_primary = ag_pod s)) then (s, Err FailedPrecondition)
  else
    let key := "promote:" +:+ target_primary in
    match EpochGuard.check (ag_epoch s) decision_epoch key with
    | Err e => (s, Err (epoch_status e))
    | Ok Apply =>
        match inst_promote (ag_instance s) with
        | (i, Err _) => (with_instance i s, Err Internal)
        | (i, Ok tl) =>
            let s1 := with_epoch (EpochGuard.commit (ag_epoch s) decision_epoch key) (with_instance i s) in
            (s1, (fun snap => (tl, write_lsn snap)) <$> internal (inst_snapshot i))
        end
    | Ok ReplayEpoch =>
        (s, (fun snap => (timeline snap, write_lsn snap)) <$> internal (inst_snapshot (ag_instance s)))
    end.

Definition fence (fenced : bool) (decision_epoch : Z) (s : AgentSvc I) : AgentSvc I * result Code unit :=
  let key := "fence:" +:+ bool_str fenced in
  match EpochGuard.check (ag_epoch s) decision_epoch key with
  | Err e => (s, Err (epoch_status e))
  | Ok Apply =>
      match inst_set_fenced (ag_instance s) fenced with
      | (i, Err _) => (with_instance i s, Err Internal)
      | (i, Ok _) =>
          (with_epoch (EpochGuard.commit (ag_epoch s) decision_epoch key) (with_instance i s), Ok tt)
      end
  | Ok ReplayEpoch => (s, Ok tt)
  end.

Definition port_str (port : Z) : string := str_of (fmt_radix false 10 port).

Definition rejoin_as_standby (upstream : option (string * Z)) (allow_rewind : bool) (decision_epoch : Z)
    (s : AgentSvc I) : AgentSvc I * result Code bool :=
  match upstream with
  | None => (s, Err InvalidArgument)
  | Some (host, port) =>
      let target := host +:+ ":" +:+ port_str port in
      let key := "rejoin:" +:+ target +:+ ":" +:+ bool_str allow_rewind in
      match EpochGuard.check (ag_epoch s) decision_epoch key with
      | Err e => (s, Err (epoch_status e))
      | Ok Apply =>
          match inst_rejoin (ag_instance s) target allow_rewind with
          | (i, Err _) => (with_instance i s, Err Internal)
          | (i, Ok rewound) =>
              (with_epoch (EpochGuard.commit (ag_epoch s) decision_epoch key) (with_instance i s), Ok rewound)
          end
      | Ok ReplayEpoch => (s, Ok allow_rewind)
      end
  end.

Definition create_restore_point (name : string) (s : AgentSvc I) : AgentSvc I * result Code RestorePoint :=
  match check_ident name true with
  | Err c => (s, Err c)
  | Ok _ =>
      match ag_restore_points s !! name with
      | Some rp => (s, Ok rp)
      | None =>
          match inst_create_restore_point (ag_instance s) name with
          | (i, Finished (Ok rp)) =>
              (with_restore_points (<[name := rp]> (ag_restore_points s)) (with_instance i s), Ok rp)
          | (i, _) => (with_instance i s, Err Internal)
          end
      end
  end.

Definition switch_wal (wait_archived : bool) (s : AgentSvc I) : AgentSvc I * result Code Z :=
  let '(i, r) := inst_switch_wal (ag_instance s) wait_archived in (with_instance i s, internal r).

(** The [for t in &req.tables] loop: names checked, duplicates refused. *)
Fixpoint source_tables (acc : list (string * string)) (ts : list TableRef) : result Code (list (string * string)) :=
  match ts with
  | [] => Ok acc
  | t :: ts' =>
      _ ← check_ident (tr_schema t) true;
      _ ← check_ident (tr_name t) true;
      if bool_decide ((tr_schema t, tr_name t) ∈ acc) then Err InvalidArgument
      else source_tables (acc ++ [(tr_schema t, tr_name t)]) ts'
  end.

Definition prepare_source_checks (database publication : string) (tables : list TableRef)
    : result Code (list (string * string)) :=
  _ ← check_ident database true;
  _ ← check_ident publication true;
  if negb (starts_with_str "pgshard_" publication) then Err InvalidArgument
  else if bool_decide (tables = []) then Err InvalidArgument
  else source_tables [] tables.

Definition prepare_source (target_pod_uid database publication : string) (tables : list TableRef)
    (s : AgentSvc I) : AgentSvc I * result Code (option Z) :=
  if wrong_pod s target_pod_uid then (s, Err Aborted)
  else match prepare_source_checks database publication tables with
  | Err c => (s, Err c)
  | Ok ts =>
      let '(i, r) := inst_prepare_source (ag_instance s) database publication ts in
      (with_instance i s, internal r)
  end.

Definition start_workflow (target_pod_uid : string) (spec : option WorkflowSpec) (s : AgentSvc I)
    : AgentSvc I * result Code unit :=
  match ag_workflow_config s with
  | None => (s, Err Unimplemented)
  | Some config =>
      if wrong_pod s target_pod_uid then (s, Err Aborted)
      else match spec with
      | None => (s, Err InvalidArgument)
      | Some spec =>
          let '(reg, r) := registry_start encode_spec spec config (ag_workflows s) in
          (with_registry reg s, map_err workflow_status r)
      end
  end.

Definition stop_workflow (id : string) (drop_slot : bool) (s : AgentSvc I) : AgentSvc I * result Code unit :=
  match ag_workflow_config s with
  | None => (s, Err Unimplemented)
  | Some _ =>
      if str_is_empty id then (s, Err InvalidArgument)
      else if drop_slot then (s, Err Unimplemented)
      else (with_registry (registry_stop id (ag_workflows s)) s, Ok tt)
  end.

Definition fence_writes (target_pod_uid database : string) (unfence : bool) (s : AgentSvc I)
    : AgentSvc I * result Code Z :=
  if wrong_pod s target_pod_uid then (s, Err Aborted)
  else match check_ident database true with
  | Err c => (s, Err c)
  | Ok _ =>
      let '(i, r) := inst_fence_writes (ag_instance s) database (negb unfence) in
      (with_instance i s, internal r)
  end.

Definition emit_journal (target_pod_uid database id : string) (journal : option JournalEvent) (s : AgentSvc I)
    : AgentSvc I * result Code Z :=
  if wrong_pod s target_pod_uid then (s, Err Aborted)
  else match check_ident database true with
  | Err c => (s, Err c)
  | Ok _ =>
      if str_is_empty id then (s, Err InvalidArgument)
      else match journal with
      | None => (s, Err InvalidArgument)
      | Some journal =>
          if str_is_empty (journal_source_shard journal) then (s, Err InvalidArgument)
          else
            let payload := encode_journal journal in
            match ag_journals s !! id with
            | Some rec =>
                if negb (bool_decide (jr_database rec = database) && bool_decide (jr_payload rec = payload))
                then (s, Err FailedPrecondition)
                else (s, ok_or FailedPrecondition (jr_lsn rec))
            | None =>
                match inst_emit_journal (ag_instance s) database payload with
                | (i, Finished (Ok lsn)) =>
                    (with_journals (<[id := mkJournalRecord database payload (Some lsn)]> (ag_journals s))
                       (with_instance i s), Ok lsn)
                | (i, Finished (Err _)) => (with_instance i s, Err Internal)
                | (i, TimedOut) =>
                    (with_journals (<[id := mkJournalRecord database payload None]> (ag_journals s))
                       (with_instance i s), Err Internal)
                end
            end
      end
  end.

Definition exec_schema (operation_id sql : string) (s : AgentSvc I) : AgentSvc I * result Code unit :=
  match claim (ag_schema s) operation_id sql with
  | (log, Err e) => (with_schema log s, Err (schema_status e))
  | (log, Ok ReplayOp) => (with_schema log s, Ok tt)
  | (log, Ok Execute) =>
      match inst_exec_sql (ag_instance s) sql with
      | (i, Ok _) => (with_schema (mark_done log operation_id) (with_instance i s), Ok tt)
      | (i, Err _) => (with_schema (mark_failed log operation_id) (with_instance i s), Err Internal)
      end
  end.

Definition create_database (target_pod_uid name owner provenance : string) (adopt : bool) (s : AgentSvc I)
    : AgentSvc I * result Code (string * string) :=
  if wrong_pod s target_pod_uid then (s, Err Aborted)
  else match (_ ← check_ident name true; _ ← check_ident owner false; check_provenance provenance) with
  | Err c => (s, Err c)
  | Ok _ =>
      if adopt && str_is_empty provenance then (s, Err InvalidArgument)
      else
        match inst_create_database (ag_instance s) name owner provenance adopt with
        | (i, Err ForeignDatabase) => (with_instance i s, Err FailedPrecondition)
        | (i, Err OtherDbError) => (with_instance i s, Err Internal)
        | (i, Ok _) => (with_instance i s, Ok (provenance, ag_pod_uid s))
        end
  end.

Definition drop_database (name : string) (s : AgentSvc I) : AgentSvc I * result Code unit :=
  match check_ident name true with
  | Err c => (s, Err c)
  | Ok _ =>
      let '(i, r) := inst_drop_database (ag_instance s) name in (with_instance i s, internal r)
  end.

(** [watch_workflows]: the rounds the spawned task sends, one a second over the registry
    as it then is, until the receiver is gone. *)
Definition watch_rounds (ids : list string) (registries : list WorkflowRegistry) : list (string * WorkflowPhase) :=
  concat (statuses ids <$> registries).

Definition watch_workflows (ids : list string) (later : list WorkflowRegistry) (s : AgentSvc I)
    : AgentSvc I * result Code (list (string * WorkflowPhase)) :=
  match ag_workflow_config s with
  | None => (s, Err Unimplemented)
  | Some _ => (s, Ok (watch_rounds ids (ag_workflows s :: later)))
  end.

(** The requests the agent has no implementation of: [reload_config], [run_backup],
    [run_restore], [stanza_create], [stanza_check], and four more of the same form. *)
Definition unimplemented (s : AgentSvc I) : AgentSvc I * result Code unit := (s, Err Unimplemented).

(** ** All requests *)

Inductive AgentRequest :=
| RGetStatus
| RPromote (target_primary : string) (decision_epoch : Z)
| RFence (fenced : bool) (decision_epoch : Z)
| RRejoin (upstream : option (string * Z)) (allow_rewind : bool) (decision_epoch : Z)
| RRestorePoint (name : string)
| RSwitchWal (wait_archived : bool)
| RPrepareSource (uid database publication : string) (tables : list TableRef)
| RStartWorkflow (uid : string) (spec : option WorkflowSpec)
| RStopWorkflow (id : string) (drop_slot : bool)
| RFenceWrites (uid database : string) (unfence : bool)
| REmitJournal (uid database id : string) (journal : option JournalEvent)
| RExecSchema (operation_id sql : string)
| RCreateDatabase (uid name owner provenance : string) (adopt : bool)
| RDropDatabase (name : string)
| RWatch (ids : list string) (later : list WorkflowRegistry)
| RUnimplemented.

(** The state after a request (the replies have different types). *)
Definition handle (r : AgentRequest) (s : AgentSvc I) : AgentSvc I :=
  match r with
  | RGetStatus => fst (get_status s)
  | RPromote t e => fst (promote t e s)
  | RFence f e => fst (fence f e s)
  | RRejoin u a e => fst (rejoin_as_standby u a e s)
  | RRestorePoint n => fst (create_restore_point n s)
  | RSwitchWal w => fst (switch_wal w s)
  | RPrepareSource u d p ts => fst (prepare_source u d p ts s)
  | RStartWorkflow u sp => fst (start_workflow u sp s)
  | RStopWorkflow i d => fst (stop_workflow i d s)
  | RFenceWrites u d f => fst (fence_writes u d f s)
  | REmitJournal u d i j => fst (emit_journal u d i j s)
  | RExecSchema o q => fst (exec_schema o q s)
  | RCreateDatabase u n o p a => fst (create_database u n o p a s)
  | RDropDatabase n => fst (drop_database n s)
  | RWatch ids later => fst (watch_workflows ids later s)
  | RUnimplemented => fst (unimplemented s)
  end.

Definition handle_all (rs : list AgentRequest) (s : AgentSvc I) : AgentSvc I :=
  foldl (fun s r => handle r s) s rs.
End handlers.

(** ** Lemmas *)

(** The decision epoch a request carries, and the pod it is meant for. *)
Definition req_epoch `{!Wire} (r : AgentRequest) : option Z :=
  match r with
  | RPromote _ e | RFence _ e | RRejoin _ _ e => Some e
  | _ => None
  end.

Definition req_uid `{!Wire} (r : AgentRequest) : option string :=
  match r with
  | RPrepareSource u _ _ _ | RStartWorkflow u _ | RFenceWrites u _ _ | REmitJournal u _ _ _
  | RCreateDatabase u _ _ _ _ => Some u
  | _ => None
  end.

Section service_lemmas.
Context {I : Type} `{!Instance I} `{!XxHash} `{!Wire}.
Implicit Types s : AgentSvc I.

Ltac cases_on_calls :=
  repeat match goal with
  | |- context [match ?x with _ => _ end] =>
      lazymatch x with
      | context [match _ with _ => _ end] => fail
      | _ => destruct x eqn:?; simpl
      end
  end.

(** A request that is not epoch-guarded leaves the guard alone. *)
Lemma handle_epoch_frame (r : AgentRequest) s : req_epoch r = None -> ag_epoch (handle r s) = ag_epoch s.
Proof.
  intros Hr. destruct r; try discriminate Hr; simpl;
    unfold create_restore_point, switch_wal, prepare_source, start_workflow, stop_workflow, fence_writes,
      emit_journal, exec_schema, create_database, drop_database, watch_workflows;
    cases_on_calls; done.
Qed.

(** A guarded request either changes nothing, or it passed the check; and then the
    guard records it or stays. *)
Lemma handle_guarded (r : AgentRequest) s e : req_epoch r = Some e ->
  handle r s = s \/
  exists key, EpochGuard.check (ag_epoch s) e key = Ok Apply /\
    (ag_epoch (handle r s) = ag_epoch s \/ ag_epoch (handle r s) = EpochGuard.commit (ag_epoch s) e key).
Proof.
  intros Hr. destruct r as [|t e'|f e'|u a e'| | | | | | | | | | | | ]; try discriminate Hr; injection Hr as ->; simpl.
  - unfold promote. destruct (negb _); [by left|].
    destruct (EpochGuard.check _ _ _) as [[]|] eqn:Hc; [|by left|by left]. right. eexists.
    split; [exact Hc|]. destruct (inst_promote _) as [i []]; simpl; auto.
  - unfold fence. destruct (EpochGuard.check _ _ _) as [[]|] eqn:Hc; [|by left|by left]. right. eexists.
    split; [exact Hc|]. destruct (inst_set_fenced _ _) as [i []]; simpl; auto.
  - unfold rejoin_as_standby. destruct u as [[host port]|]; [|by left].
    destruct (EpochGuard.check _ _ _) as [[]|] eqn:Hc; [|by left|by left]. right. eexists.
    split; [exact Hc|]. destruct (inst_rejoin _ _ _) as [i []]; simpl; auto.
Qed.

Lemma handle_epoch_mono (r : AgentRequest) s :
  ap_seen (ag_epoch s) = true ->
  ap_seen (ag_epoch (handle r s)) = true /\ ap_epoch (ag_epoch s) <= ap_epoch (ag_epoch (handle r s)).
Proof.
  intros Hs. destruct (req_epoch r) as [e|] eqn:Hr.
  - destruct (handle_guarded r s e Hr) as [->|(key & _ & [->| ->])]; [split; [done|lia]..|by apply commit_mono].
  - rewrite handle_epoch_frame by done. split; [done|lia].
Qed.

Lemma handle_all_epoch_mono (rs : list AgentRequest) s :
  ap_seen (ag_epoch s) = true ->
  ap_seen (ag_epoch (handle_all rs s)) = true /\ ap_epoch (ag_epoch s) <= ap_epoch (ag_epoch (handle_all rs s)).
Proof.
  revert s. induction rs as [|r rs IH]; intros s Hs; simpl; [split; [done|lia]|].
  destruct (handle_epoch_mono r s Hs) as [H1 H2]. destruct (IH _ H1). split; [done|lia].
Qed.

(** A recorded journal slot is never overwritten. *)
Lemma handle_journal_frame (r : AgentRequest) s id rec :
  ag_journals s !! id = Some rec -> ag_journals (handle r s) !! id = Some rec.
Proof.
  intros Hid. destruct r as [|t e|f e|u a e|n|w|u d p ts|u sp|i d|u d f|u d i j|o q|u n o p a|n|ids l|]; simpl;
    try (unfold promote, fence, rejoin_as_standby, create_restore_point, switch_wal, prepare_source,
      start_workflow, stop_workflow, fence_writes, exec_schema, create_database, drop_database, watch_workflows;
      cases_on_calls; exact Hid).
  unfold emit_journal. destruct (wrong_pod s u); [done|]. destruct (check_ident d true); [|done].
  destruct (str_is_empty i); [done|]. destruct j as [j|]; [|done].
  destruct (str_is_empty (journal_source_shard j)); [done|].
  destruct (ag_journals s !! i) as [rec'|] eqn:Hi; [by case_bool|].
  assert (Hne : i <> id) by congruence.
  destruct (inst_emit_journal _ _ _) as [i' [[]|]]; simpl; try done; by rewrite lookup_insert_ne.
Qed.

Lemma handle_all_journal_frame (rs : list AgentRequest) s id rec :
  ag_journals s !! id = Some rec -> ag_journals (handle_all rs s) !! id = Some rec.
Proof.
  revert s. induction rs as [|r rs IH]; intros s Hs; simpl; [done|]. by apply IH, handle_journal_frame.
Qed.

Lemma handle_point_frame (r : AgentRequest) s name rp :
  ag_restore_points s !! name = Some rp -> ag_restore_points (handle r s) !! name = Some rp.
Proof.
  intros Hid. destruct r as [|t e|f e|u a e|n|w|u d p ts|u sp|i d|u d f|u d i j|o q|u n o p a|n|ids l|]; simpl;
    try (unfold promote, fence, rejoin_as_standby, switch_wal, prepare_source,
      start_workflow, stop_workflow, fence_writes, emit_journal, exec_schema, create_database, drop_database, watch_workflows;
      cases_on_calls; exact Hid).
  unfold create_restore_point. destruct (check_ident n true); [|done].
  destruct (ag_restore_points s !! n) as [rp'|] eqn:Hn; [done|]. assert (Hne : n <> name) by congruence.
  destruct (inst_create_restore_point _ _) as [i [[]|]]; simpl; try done. by rewrite lookup_insert_ne.
Qed.

Lemma handle_all_point_frame (rs : list AgentRequest) s name rp :
  ag_restore_points s !! name = Some rp -> ag_restore_points (handle_all rs s) !! name = Some rp.
Proof.
  revert s. induction rs as [|r rs IH]; intros s Hs; simpl; [done|]. by apply IH, handle_point_frame.
Qed.

(** No request changes the identity or the configuration of the agent. *)
Lemma handle_config_frame (r : AgentRequest) s :
  ag_workflow_config (handle r s) = ag_workflow_config s /\ ag_pod (handle r s) = ag_pod s /\
  (ag_workflow_config s = None -> ag_workflows (handle r s) = ag_workflows s).
Proof.
  destruct r; simpl;
    unfold promote, fence, rejoin_as_standby, create_restore_point, switch_wal, prepare_source, start_workflow, stop_workflow,
      fence_writes, emit_journal, exec_schema, create_database, drop_database, watch_workflows;
    cases_on_calls; split_and!; done.
Qed.
End service_lemmas.

(** ** Properties *)

(** once a decision epoch has been applied, a request of that or an older epoch, be it
    a delayed one of an earlier failover, a conflicting one or a retry, changes nothing:
    not the instance, not the guard, after any number of other requests handled in
    between (requests handled one at a time). *)
Theorem stale_request_no_effect {I} `{!Instance I} `{!XxHash} `{!Wire}
    (s : AgentSvc I) (rs : list AgentRequest) (r : AgentRequest) e :
  ap_seen (ag_epoch s) = true -> req_epoch r = Some e -> e <= ap_epoch (ag_epoch s) ->
  handle r (handle_all rs s) = handle_all rs s.
Proof.
  intros Hs Hr He. destruct (handle_all_epoch_mono rs s Hs) as [Hs1 Hle].
  destruct (handle_guarded r (handle_all rs s) e Hr) as [|(key & Hc & _)]; [done|].
  apply check_apply in Hc as [_ Hlt]. specialize (Hlt Hs1). lia.
Qed.

(** a journal id is emitted at most once. An emit that succeeded or timed out records
    its slot; from then on, after any requests, another [EmitJournal] with the id never
    reaches PostgreSQL again, and it succeeds only for the identical database and payload
    and only with the position the first emit returned. *)
Theorem journal_at_most_once {I} `{!Instance I} `{!XxHash} `{!Wire} (s : AgentSvc I) uid database id journal :
  (forall i lsn, wrong_pod s uid = false -> check_ident database true = Ok tt -> str_is_empty id = false ->
     str_is_empty (journal_source_shard journal) = false -> ag_journals s !! id = None ->
     (inst_emit_journal (ag_instance s) database (encode_journal journal) = (i, Finished (Ok lsn)) ->
        ag_journals (fst (emit_journal uid database id (Some journal) s)) !! id =
          Some (mkJournalRecord database (encode_journal journal) (Some lsn))) /\
     (inst_emit_journal (ag_instance s) database (encode_journal journal) = (i, TimedOut) ->
        ag_journals (fst (emit_journal uid database id (Some journal) s)) !! id =
          Some (mkJournalRecord database (encode_journal journal) None))) /\
  (forall rec (rs : list AgentRequest) uid' database' journal', ag_journals s !! id = Some rec ->
     let '(s', reply) := emit_journal uid' database' id journal' (handle_all rs s) in
     s' = handle_all rs s /\
     forall lsn, reply = Ok lsn ->
       jr_lsn rec = Some lsn /\ jr_database rec = database' /\
       exists j, journal' = Some j /\ encode_journal j = jr_payload rec).
Proof.
  split.
  - intros i lsn H1 H2 H3 H4 H5. unfold emit_journal. rewrite H1, H2, H3, H4, H5.
    split; intros ->; simpl; apply lookup_insert_eq.
  - intros rec rs uid' database' journal' Hrec.
    apply (handle_all_journal_frame rs) in Hrec. set (s1 := handle_all rs s) in *.
    unfold emit_journal. destruct (wrong_pod s1 uid'); [done|]. destruct (check_ident database' true); [|done].
    destruct (str_is_empty id); [done|]. destruct journal' as [j|]; [|done].
    destruct (str_is_empty (journal_source_shard j)); [done|]. rewrite Hrec.
    destruct (negb _) eqn:Em; [done|]. apply negb_false_iff, andb_true_iff in Em as [Ed Ep].
    apply bool_decide_eq_true in Ed, Ep. split; [done|]. intros lsn Hl. apply ok_or_Ok in Hl.
    split_and!; [done|done|]. exists j. done.
Qed.

(** a restore point that was created under a name is replayed, not written again: every
    later request for the name, after any other requests, returns the first point and
    leaves PostgreSQL alone. *)
Theorem restore_point_replayed {I} `{!Instance I} `{!XxHash} `{!Wire} (s : AgentSvc I) name rp (rs : list AgentRequest) :
  snd (create_restore_point name s) = Ok rp ->
  create_restore_point name (handle_all rs (fst (create_restore_point name s))) =
    (handle_all rs (fst (create_restore_point name s)), Ok rp).
Proof.
  intros Hrp. assert (Hc : check_ident name true = Ok tt).
  { unfold create_restore_point in Hrp. by destruct (check_ident name true) as [[]|]. }
  assert (Hrec : ag_restore_points (fst (create_restore_point name s)) !! name = Some rp).
  { unfold create_restore_point in *. rewrite Hc in *.
    destruct (ag_restore_points s !! name) as [rp'|] eqn:Hn; simpl in *; [congruence|].
    destruct (inst_create_restore_point _ _) as [i [[rp'|]|]]; simpl in *; try done.
    injection Hrp as ->. apply lookup_insert_eq. }
  apply (handle_all_point_frame rs) in Hrec. unfold create_restore_point at 1. by rewrite Hc, Hrec.
Qed.

(** a request that names another pod's uid (a reused pod address) is refused before it
    can do anything: neither PostgreSQL nor any state of the agent is touched. *)
Theorem wrong_pod_no_effect {I} `{!Instance I} `{!XxHash} `{!Wire} (s : AgentSvc I) (r : AgentRequest) uid :
  req_uid r = Some uid -> wrong_pod s uid = true -> handle r s = s.
Proof.
  intros Hu Hw. destruct r; try discriminate Hu; injection Hu as ->; simpl;
    unfold prepare_source, start_workflow, fence_writes, emit_journal, create_database; rewrite Hw; try done.
  by destruct (ag_workflow_config s).
Qed.

(** an agent started without both replication credentials never runs a workflow: after
    any requests it still refuses to start, stop or watch one, and its registry is empty. *)
Theorem no_runner_without_credentials {I} `{!Instance I} `{!XxHash} `{!Wire} parses (i : I) conn pod uid user password s (rs : list AgentRequest) :
  user = None \/ password = None -> agent_main parses i conn pod uid user password = Some s ->
  let s' := handle_all rs s in
  ag_workflows s' = ∅ /\ forall u spec id drop ids later,
    start_workflow u spec s' = (s', Err Unimplemented) /\ stop_workflow id drop s' = (s', Err Unimplemented) /\
    watch_workflows ids later s' = (s', Err Unimplemented).
Proof.
  intros Hcred Hmain. assert (ag_workflow_config s = None /\ ag_workflows s = ∅) as [Hc Hw].
  { unfold agent_main in Hmain. destruct Hcred; subst; [|destruct user]; by injection Hmain as <-. }
  cbv zeta. assert (ag_workflow_config (handle_all rs s) = None /\ ag_workflows (handle_all rs s) = ∅) as [Hc' Hw'].
  { clear Hmain. revert s Hc Hw. induction rs as [|r rs IH]; intros s Hc Hw; simpl; [done|].
    destruct (handle_config_frame r s) as (H1 & _ & H3). apply IH; [congruence|]. by rewrite H3. }
  split; [done|]. intros. unfold start_workflow, stop_workflow, watch_workflows. by rewrite Hc'.
Qed.

(** ** Witnesses *)

(** A concrete instance: it records whether it was fenced, never rewinds, and emits
    journals at increasing positions. *)
Definition demo_snap : Snapshot := mkSnapshot false true 1 100 0 0 false "17" 1 false.
#[local] Instance demo_instance : Instance Z := {|
  inst_snapshot _ := Ok demo_snap;
  inst_promote i := (i + 1, Ok 2);
  inst_set_fenced i _ := (i + 1, Ok tt);
  inst_rejoin i _ _ := (i + 1, Ok false);
  inst_exec_sql i _ := (i + 1, Ok tt);
  inst_create_database i _ _ _ _ := (i + 1, Ok tt);
  inst_drop_database i _ := (i + 1, Ok tt);
  inst_create_restore_point i _ := (i + 1, Finished (Ok (mkRestorePoint i 1)));
  inst_switch_wal i _ := (i + 1, Ok i);
  inst_fence_writes i _ _ := (i + 1, Ok 0);
  inst_emit_journal i _ _ := (i + 1, Finished (Ok i));
  inst_prepare_source i _ _ _ := (i + 1, Ok None);
|}.
#[local] Instance demo_wire : Wire := {|
  JournalEvent := string;
  journal_source_shard j := j;
  encode_journal j := bytes j;
  encode_spec sp := bytes (ws_id sp);
|}.
#[local] Existing Instance be_hash.

Definition demo_agent : AgentSvc Z := mkAgent 7 "pod-a" "uid-a" (mkApplied 6 "fence:true" true) ∅ ∅ ∅ ∅ None.

Lemma stale_request_no_effect_witness :
  handle (RPromote "pod-a" 5) (handle_all [RFence false 9] demo_agent) = handle_all [RFence false 9] demo_agent.
Proof.
  apply (stale_request_no_effect demo_agent [RFence false 9] (RPromote "pod-a" 5) 5); [reflexivity|reflexivity|].
  simpl. lia.
Defined.

Lemma restore_point_replayed_witness :
  create_restore_point "b1" (handle_all [RFence false 9] (fst (create_restore_point "b1" demo_agent))) =
    (handle_all [RFence false 9] (fst (create_restore_point "b1" demo_agent)), Ok (mkRestorePoint 7 1)).
Proof. apply (restore_point_replayed demo_agent "b1" (mkRestorePoint 7 1) [RFence false 9]). reflexivity. Defined.

Lemma wrong_pod_no_effect_witness :
  handle (RCreateDatabase "uid-b" "db" "" "p" false) demo_agent = demo_agent.
Proof.
  apply (wrong_pod_no_effect demo_agent (RCreateDatabase "uid-b" "db" "" "p" false) "uid-b"); reflexivity.
Defined.

(** a retried rejoin does not replay its result: on an instance that did not need a
    rewind the first answer is [rewound = false] and the answer to the identical retry is
    [rewound = true]. *)
Theorem rejoin_retry_answer_differs :
  let req s := rejoin_as_standby (Some ("10.0.0.2", 5432)) true 9 s in
  snd (req demo_agent) = Ok false /\ snd (req (fst (req demo_agent))) = Ok true.
Proof. split; vm_compute; reflexivity. Qed.

Lemma no_runner_without_credentials_witness :
  ag_workflows (handle_all [RStopWorkflow "w" false] (with_pod_uid (7 : Z) "pod-a" "uid-a")) = ∅.
Proof.
  apply (no_runner_without_credentials (fun _ => true) (7 : Z) "host=/tmp" "pod-a" "uid-a" (Some "repl") None _ [RStopWorkflow "w" false]
    (or_intror eq_refl) eq_refl).
Defined.
