(* ===== verification/Topo.v ===== *)
(** * The topology: model, validation, watcher, freshness

    [src/crates/pgshard-topo/src/{model,lib,file}.rs]. The JSON deserializer
    (serde_json) and the file read are parameters; the parts of the (de)serialization
    that are code of the crate ([Bounds], [canonical_bound], the defaults) are
    modelled. Instants and wall times are nanoseconds. *)

From S2P Require Import Prelude Rust Keyspace ShardFn.

Open Scope Z_scope.

(** ** Model *)

Definition default_port : Z := 5432.

Record TopoInstance := mkTopoInstance {
  ti_pod : string; ti_host : string; ti_port : Z; ti_can_read : bool;
}.

Inductive ShardState := Serving | Buffered | ReadOnly | Draining | Hidden.

#[export] Instance ShardState_eq_dec : EqDecision ShardState.
Proof. solve_decision. Defined.

Record ShardEntry := mkShardEntry {
  se_name : string; se_key_range : KeyRange; se_state : ShardState;
  se_primary : option TopoInstance; se_replicas : list TopoInstance;
}.

Inductive TableType := TTSharded | TTGlobal.

Record TopoSequence := mkTopoSequence { ts_column : string; ts_sequence : string }.

Inductive ShardKeyType := SKInt | SKText | SKUuid | SKBytea.

Record TableEntry := mkTableEntry {
  te_schema : string; te_name : string; te_table_type : TableType;
  te_shard_key_column : option string; te_shard_key_type : option ShardKeyType;
  te_sequences : list TopoSequence;
}.

Inductive TopoGateMode := BufferWrites | BufferAll.

Definition default_gate_mode : TopoGateMode := BufferWrites.

Record TopoGateMatch := mkTopoGateMatch {
  tg_all : bool; tg_tables : list string; tg_key_ranges : list KeyRange;
}.

Record TopoGateSpec := mkTopoGateSpec {
  tgs_id : string; tgs_match : TopoGateMatch; tgs_mode : TopoGateMode;
  tgs_deadline : string; tgs_min_topology_generation : Z;
}.

Record Topology := mkTopology {
  t_epoch : Z; t_topology_generation : Z; t_write_lease_seconds : Z; t_hash_function : string;
  t_shards : list ShardEntry; t_tables : list TableEntry; t_gates : list TopoGateSpec;
  t_sequence_endpoint : option TopoInstance;
}.

Definition default_hash_function : string := "xxhash64_v1".
Definition default_write_lease_seconds : Z := 10.

Definition default_topology : Topology :=
  mkTopology 0 0 default_write_lease_seconds default_hash_function [] [] [] None.

(** *** Key ranges on the wire *)

Record Bounds := mkBounds { bd_start : string; bd_end : string }.

Definition from_range (kr : KeyRange) : Bounds :=
  mkBounds (format_bound (kr_start kr)) (option_bound (kr_end kr)).

Inductive BoundError := BadBound (e : KeyRangeError) | Noncanonical (s : string).

Definition canonical_bound (s : string) : result BoundError Z :=
  value ← map_err BadBound (parse_bound s);
  if negb (bool_decide (format_bound value = s)) then Err (Noncanonical s) else Ok value.

Definition into_range (b : Bounds) : result BoundError KeyRange :=
  start ← canonical_bound (bd_start b);
  end_ ← (if str_is_empty (bd_end b) then Ok None else Some <$> canonical_bound (bd_end b));
  map_err BadBound (KeyRange.new start end_).

(** ** Validation *)

Inductive TopologyError :=
| TopoIo
| TopoParse
| TopoInvalid (what : string).

Definition is_serving (s : ShardEntry) : bool := bool_decide (se_state s = Serving).

Definition serving_ranges (t : Topology) : list KeyRange :=
  sort_by (fun a b => kr_start a <=? kr_start b) (se_key_range <$> List.filter is_serving (t_shards t)).

Definition validate `{XxHash} (t : Topology) : result TopologyError unit :=
  if t_epoch t =? 0 then Err (TopoInvalid "epoch")
  else if negb ((1 <=? t_write_lease_seconds t) && (t_write_lease_seconds t <=? 60)) then
    Err (TopoInvalid "writeLeaseSeconds")
  else if t_topology_generation t =? 0 then Err (TopoInvalid "topologyGeneration")
  else
    _ ← map_err (fun _ => TopoInvalid "hash function") (shard_function (t_hash_function t));
    map_err (fun _ => TopoInvalid "serving shards") (validate_partition (serving_ranges t)).

(** ** Freshness *)

(** A stamp: the suspend-inclusive monotonic clock and the wall clock. *)
Record Stamp := mkStamp { st_boot : Z; st_wall : Z }.

Record SourceValidation := mkSourceValidation { sv_epoch : Z; sv_boot : Z; sv_wall : Z }.

#[export] Instance SourceValidation_eq_dec : EqDecision SourceValidation.
Proof. solve_decision. Defined.

(** [std::time::Duration::MAX] in nanoseconds. *)
Definition DURATION_MAX : Z := u64_MAX * 1000000000 + 999999999.

Module Freshness.

Definition unconfirmed : Stamp := mkStamp 0 0.

(** [Freshness::new] at a boot reading ([None]: the clock failed) and a wall reading. *)
Definition new (boot_now : option Z) (wall_now : Z) : Stamp :=
  match boot_now with
  | Some boot => mkStamp boot wall_now
  | None => unconfirmed
  end.

Definition seeded (v : SourceValidation) : Stamp := mkStamp (sv_boot v) (sv_wall v).

Definition install (v : SourceValidation) (f : Stamp) : Stamp :=
  if sv_boot v >? st_boot f then mkStamp (sv_boot v) (sv_wall v) else f.

(** [SystemTime::duration_since] fails when the wall clock is behind the stamp. *)
Definition age (wall_now : Z) (boot_now : option Z) (f : Stamp) : Z :=
  if wall_now <? st_wall f then DURATION_MAX
  else match boot_now with
  | None => DURATION_MAX
  | Some now => Z.max (saturating_sub now (st_boot f)) (wall_now - st_wall f)
  end.

Definition backdate (by_ : Z) (boot_now : option Z) (wall_now : Z) : Stamp :=
  match boot_now with
  | Some boot => mkStamp (saturating_sub boot by_) (wall_now - by_)
  | None => unconfirmed
  end.

End Freshness.

(** [ValidationClocks::before_read] and [stamp]. *)
Definition before_read (wall_now : Z) (boot_now : option Z) : option Stamp :=
  (fun boot => mkStamp boot wall_now) <$> boot_now.

Definition stamp (c : Stamp) (epoch : Z) : SourceValidation :=
  mkSourceValidation epoch (st_boot c) (st_wall c).

(** ** The file watcher *)

Section watcher.
Context `{XxHash}.
(** serde_json's [from_slice::<Topology>]. *)
Variable from_slice : list ascii -> option Topology.

(** [load]: [read] is what the file system returned. *)
Definition load (read : option (list ascii)) : result TopologyError Topology :=
  b ← ok_or TopoIo read;
  topology ← ok_or TopoParse (from_slice b);
  _ ← validate topology;
  Ok topology.

Record FileWatcher := mkFileWatcher { fw_current : Topology; fw_validated : SourceValidation }.

(** The application rule: strictly increasing epochs only. *)
Definition apply (candidate current : Topology) : Topology * bool :=
  if t_epoch candidate >? t_epoch current then (candidate, true) else (current, false).

Definition start (interval_zero : bool) (clocks : option Stamp) (read : option (list ascii))
    : result TopologyError FileWatcher :=
  if interval_zero then Err (TopoInvalid "interval")
  else
    c ← ok_or (TopoInvalid "boot clock") clocks;
    initial ← load read;
    Ok (mkFileWatcher initial (stamp c (t_epoch initial))).

(** One tick of the poll loop. *)
Definition poll (clocks : option Stamp) (read : option (list ascii)) (w : FileWatcher) : FileWatcher :=
  match clocks with
  | None => w
  | Some c =>
      match load read with
      | Ok candidate =>
          mkFileWatcher (fst (apply candidate (fw_current w))) (stamp c (t_epoch candidate))
      | Err _ => w
      end
  end.

Definition reload (clocks : option Stamp) (read : option (list ascii)) (w : FileWatcher)
    : FileWatcher * result TopologyError bool :=
  match clocks with
  | None => (w, Err (TopoInvalid "boot clock"))
  | Some c =>
      match load read with
      | Err e => (w, Err e)
      | Ok candidate =>
          let '(current, applied) := apply candidate (fw_current w) in
          (mkFileWatcher current (stamp c (t_epoch candidate)), Ok applied)
      end
  end.

(** A watcher after any number of polls and manual reloads. *)
Inductive watcher_reach : FileWatcher -> Prop :=
| wr_start iz clocks read w : start iz clocks read = Ok w -> watcher_reach w
| wr_poll clocks read w : watcher_reach w -> watcher_reach (poll clocks read w)
| wr_reload clocks read w : watcher_reach w -> watcher_reach (fst (reload clocks read w)).
End watcher.

(** ** Lemmas *)

Lemma range_count rs id : unique_owner rs id <-> length (List.filter (fun r => KeyRange.contains r id) rs) = 1%nat.
Proof.
  split.
  - intros (i & r & Hr & Hc & Hu). rewrite <- (take_drop_middle rs i r Hr), List.filter_app. simpl. rewrite Hc.
    assert (Hnil : forall l, (forall x, x ∈ l -> KeyRange.contains x id = false) ->
      List.filter (fun r => KeyRange.contains r id) l = []).
    { induction l as [|x l IH]; intros Hl; [done|]. simpl. rewrite (Hl x) by set_solver. apply IH. set_solver. }
    rewrite !Hnil; [done| |].
    + intros x Hx. apply list_elem_of_lookup in Hx as [j Hj].
      destruct (KeyRange.contains x id) eqn:E; [|done]. rewrite lookup_drop in Hj.
      specialize (Hu _ _ Hj E). lia.
    + intros x Hx. apply list_elem_of_lookup in Hx as [j Hj].
      destruct (KeyRange.contains x id) eqn:E; [|done]. apply lookup_take_Some in Hj as [Hj Hlt].
      specialize (Hu _ _ Hj E). lia.
  - induction rs as [|r rs IH]; [done|]. simpl. destruct (KeyRange.contains r id) eqn:E.
    + simpl. intros [= H]. exists O, r. split_and!; [done|done|].
      intros [|j] r' Hr' Hc'; [done|]. simpl in Hr'. exfalso.
      assert (Hin : r' ∈ List.filter (fun r => KeyRange.contains r id) rs)
        by (apply elem_of_filter_b; split; [by eapply list_elem_of_lookup_2|done]).
      apply nil_length_inv in H. rewrite H in Hin. by apply elem_of_nil in Hin.
    + intros H. destruct (IH H) as (i & r0 & Hr0 & Hc & Hu). exists (S i), r0. split_and!; [done|done|].
      intros [|j] r' Hr' Hc'; simpl in Hr'; [simplify_eq; congruence|]. f_equal. eauto.
Qed.

Lemma serving_sorted t : StronglySorted (fun a b => kr_start a <= kr_start b) (serving_ranges t).
Proof.
  assert (H : StronglySorted (fun a b => (kr_start a <=? kr_start b) = true) (serving_ranges t))
    by (apply sort_by_sorted; intros; lia).
  clear - H. induction H as [|x l Hs IH Hall]; constructor; [done|].
  eapply Forall_impl; [exact Hall|]. simpl. lia.
Qed.

Lemma serving_perm t : serving_ranges t ≡ₚ se_key_range <$> List.filter is_serving (t_shards t).
Proof. apply sort_by_perm. Qed.

Lemma serving_wf t : Forall (fun s => range_wf (se_key_range s)) (t_shards t) -> Forall range_wf (serving_ranges t).
Proof.
  intros Hw. rewrite serving_perm. apply Forall_fmap. rewrite Forall_forall in *. intros s Hs.
  apply elem_of_filter_b in Hs as [Hs _]. by apply Hw.
Qed.

Lemma filter_fmap_length {A B} (f : A -> B) (p : B -> bool) l :
  length (List.filter p (f <$> l)) = length (List.filter (fun x => p (f x)) l).
Proof. induction l as [|x l IH]; [done|]. simpl. destruct (p (f x)); simpl; by rewrite <- IH. Qed.

Lemma serving_count t id :
  length (List.filter (fun r => KeyRange.contains r id) (serving_ranges t)) =
  length (List.filter (fun s => is_serving s && KeyRange.contains (se_key_range s) id) (t_shards t)).
Proof.
  rewrite (Permutation_length (filter_perm _ _ _ (serving_perm t))), filter_fmap_length.
  by rewrite filter_filter_b.
Qed.

Lemma canonical_bound_Ok s v : canonical_bound s = Ok v <-> is_u64 v /\ s = format_bound v.
Proof.
  unfold canonical_bound. split.
  - intros H. apply result_bind_Ok in H as (x & Hx & H). destruct (parse_bound s) as [y|] eqn:Hp; [|done].
    simpl in Hx. injection Hx as ->. destruct (bool_decide _) eqn:E; [|done]. simpl in H. injection H as ->.
    apply bool_decide_eq_true in E. split; [by eapply parse_bound_u64|done].
  - intros [Hv ->]. rewrite parse_format_bound by done. simpl. by rewrite bool_decide_true.
Qed.

(** ** Properties *)

(** a topology whose shards have well-formed ranges validates exactly when its epoch,
    generation, lease and hash function are in bounds and every 64-bit keyspace id is in
    the range of exactly one serving shard, in whatever order the shards are listed. *)
Theorem validate_iff_partition `{XxHash} t :
  Forall (fun s => range_wf (se_key_range s)) (t_shards t) ->
  (validate t = Ok tt <->
   t_epoch t <> 0 /\ 1 <= t_write_lease_seconds t <= 60 /\ t_topology_generation t <> 0 /\
   is_ok (shard_function (t_hash_function t)) = true /\
   forall id, is_u64 id ->
     length (List.filter (fun s => is_serving s && KeyRange.contains (se_key_range s) id) (t_shards t)) = 1%nat).
Proof.
  intros Hwf. apply serving_wf in Hwf. unfold validate.
  assert (Hpart : validate_partition (serving_ranges t) = Ok tt <-> forall id, is_u64 id ->
    length (List.filter (fun s => is_serving s && KeyRange.contains (se_key_range s) id) (t_shards t)) = 1%nat).
  { setoid_rewrite <- serving_count. setoid_rewrite <- range_count. split.
    - intros Hv id Hid. by apply partition_owner.
    - intros Ho. apply validate_partition_chain, partition_complete_chain; [done|apply serving_sorted|done]. }
  destruct (t_epoch t =? 0) eqn:E1; [split; [done|lia]|].
  destruct ((1 <=? t_write_lease_seconds t) && (t_write_lease_seconds t <=? 60)) eqn:E2;
    [|simpl; split; [done|lia]].
  destruct (t_topology_generation t =? 0) eqn:E3; [simpl; split; [done|lia]|]. simpl.
  destruct (shard_function (t_hash_function t)); simpl; [|naive_solver].
  destruct (validate_partition (serving_ranges t)) as [[]|]; simpl.
  - split; [|done]. intros _. split_and!; try done; try lia. by apply Hpart.
  - split; [done|]. intros (_ & _ & _ & _ & Ho). by apply Hpart in Ho.
Qed.

(** a key range survives the wire form of the routing CRD, and has only one spelling
    there: reading [{start,end}] back gives the range, and a pair of texts that reads as a
    range is the canonical one. *)
Theorem bounds_round_trip kr b :
  range_wf kr -> into_range (from_range kr) = Ok kr /\ (into_range b = Ok kr -> b = from_range kr).
Proof.
  intros Hwf. pose proof (range_start_u64 kr Hwf) as Hs. destruct kr as [s e]. simpl in Hs.
  assert (He : forall v, e = Some v -> is_u64 v /\ v <> 0 /\ s < v).
  { intros v ->. destruct Hwf as (H0 & Hlt & Hmax). unfold KeyRange.end_exclusive in Hlt.
    simpl in *. unfold is_u64. lia. }
  assert (Hcan : forall v, is_u64 v -> canonical_bound (format_bound v) = Ok v)
    by (intros v Hv; by apply canonical_bound_Ok).
  split.
  - unfold into_range, from_range. simpl. rewrite Hcan by done. simpl. destruct e as [v|]; simpl; [|done].
    destruct (He v eq_refl) as (Hv & Hnz & Hlt). rewrite format_bound_nonempty, Hcan by done. simpl.
    destruct (_ >=? v) eqn:E; [lia|done].
  - unfold into_range. intros H. apply result_bind_Ok in H as (x & Hx & H).
    apply canonical_bound_Ok in Hx as [_ Hx]. apply result_bind_Ok in H as (oe & Hoe & H).
    destruct (KeyRange.new x oe) as [kr|] eqn:Hn; [|done]. simpl in H. injection H as ->.
    assert (x = s /\ oe = e) as [-> ->].
    { unfold KeyRange.new in Hn. destruct oe; [case_bool|]; by simplify_eq. }
    destruct b as [bs be]. unfold from_range. simpl in *. f_equal; [done|].
    destruct (str_is_empty be) eqn:Eb.
    + apply str_is_empty_spec in Eb. by simplify_eq.
    + destruct (canonical_bound be) as [v|] eqn:Hv; [|done]. simpl in Hoe. injection Hoe as <-.
      by apply canonical_bound_Ok in Hv as [_ ->].
Qed.

Lemma load_valid `{XxHash} from_slice read t : load from_slice read = Ok t -> validate t = Ok tt.
Proof.
  unfold load. intros Hl. apply result_bind_Ok in Hl as (b & _ & Hl). apply result_bind_Ok in Hl as (t' & _ & Hl).
  apply result_bind_Ok in Hl as ([] & Hv & [= <-]). done.
Qed.

Lemma apply_epoch c t : t_epoch t <= t_epoch (fst (apply c t)) /\ t_epoch c <= t_epoch (fst (apply c t)) /\
  (fst (apply c t) = t \/ fst (apply c t) = c).
Proof. unfold apply. destruct (_ >? _) eqn:E; simpl; split_and!; auto; lia. Qed.

(** whatever the file holds at each poll (nothing, garbage, an invalid or an older
    topology), the watcher's current snapshot is always a valid topology, the epoch a poll
    or reload leaves is never lower than before and strictly higher when the snapshot
    changed, and an announced validation never refers to an epoch the consumers cannot see
    yet. *)
Theorem watcher_epochs `{XxHash} (from_slice : list ascii -> option Topology) w clocks read :
  watcher_reach from_slice w ->
  validate (fw_current w) = Ok tt /\ sv_epoch (fw_validated w) <= t_epoch (fw_current w) /\
  forall w', (w' = poll from_slice clocks read w \/ w' = fst (reload from_slice clocks read w)) ->
    t_epoch (fw_current w) <= t_epoch (fw_current w') /\
    (fw_current w' <> fw_current w -> t_epoch (fw_current w) < t_epoch (fw_current w')).
Proof.
  assert (Hreload : forall c r v, fst (reload from_slice c r v) = poll from_slice c r v).
  { intros c r v. unfold reload, poll. destruct c; [|done]. destruct (load _ r); [|done].
    by destruct (apply _ _). }
  intros Hr. split_and!.
  - induction Hr as [iz c r w Hs|c r w _ IH|c r w _ IH]; rewrite ?Hreload.
    + unfold start in Hs. destruct iz; [done|]. apply result_bind_Ok in Hs as (c0 & _ & Hs).
      apply result_bind_Ok in Hs as (t & Hl & [= <-]). by eapply load_valid.
    + unfold poll. destruct c; [|done]. destruct (load _ r) as [t|] eqn:Hl; [|done]. simpl.
      destruct (apply_epoch t (fw_current w)) as (_ & _ & [-> | ->]); [done|by eapply load_valid].
    + unfold poll. destruct c; [|done]. destruct (load _ r) as [t|] eqn:Hl; [|done]. simpl.
      destruct (apply_epoch t (fw_current w)) as (_ & _ & [-> | ->]); [done|by eapply load_valid].
  - induction Hr as [iz c r w Hs|c r w _ IH|c r w _ IH]; rewrite ?Hreload.
    + unfold start in Hs. destruct iz; [done|]. apply result_bind_Ok in Hs as (c0 & _ & Hs).
      apply result_bind_Ok in Hs as (t & Hl & [= <-]). simpl. lia.
    + unfold poll. destruct c; [|done]. destruct (load _ r) as [t|]; [|done]. simpl. apply apply_epoch.
    + unfold poll. destruct c; [|done]. destruct (load _ r) as [t|]; [|done]. simpl. apply apply_epoch.
  - intros w' Hw'. assert (Hp : w' = poll from_slice clocks read w) by (destruct Hw'; subst; by rewrite ?Hreload).
    subst w'. unfold poll. destruct clocks; [|split; [lia|done]].
    destruct (load from_slice read) as [t|]; [|split; [lia|done]]. simpl.
    unfold apply. destruct (_ >? _) eqn:E; simpl; [split; lia|]. split; [lia|done].
Qed.

(** freshness fails closed. The age is never less than the time the suspend-inclusive
    clock has counted since the newest installed confirmation, a wall clock behind the
    stamp or a failed clock makes it maximal, and installing confirmations in any order
    leaves the newest one. *)
Theorem freshness_fails_closed (vs : list SourceValidation) f wall_now boot_now :
  let g := foldl (fun f v => Freshness.install v f) f vs in
  (forall v, v ∈ vs -> sv_boot v <= st_boot g) /\ st_boot f <= st_boot g /\
  (g = f \/ exists v, v ∈ vs /\ g = Freshness.seeded v) /\
  match boot_now with
  | Some b => wall_now < st_wall g \/ (b - st_boot g <= Freshness.age wall_now boot_now g /\
                                      wall_now - st_wall g <= Freshness.age wall_now boot_now g)
  | None => Freshness.age wall_now boot_now g = DURATION_MAX
  end /\
  (wall_now < st_wall g -> Freshness.age wall_now boot_now g = DURATION_MAX).
Proof.
  intros g.
  assert (Hg : (forall v, v ∈ vs -> sv_boot v <= st_boot g) /\ st_boot f <= st_boot g /\
               (g = f \/ exists v, v ∈ vs /\ g = Freshness.seeded v)).
  { unfold g. clear g. revert f. induction vs as [|v vs IH]; intros f; simpl; [split; [set_solver|split; [lia|auto]]|].
    destruct (IH (Freshness.install v f)) as (H1 & H2 & H3).
    assert (Hi : st_boot f <= st_boot (Freshness.install v f) /\ sv_boot v <= st_boot (Freshness.install v f) /\
      (Freshness.install v f = f \/ Freshness.install v f = Freshness.seeded v)).
    { unfold Freshness.install. destruct (_ >? _) eqn:E; simpl; split_and!; auto; lia. }
    destruct Hi as (Hi1 & Hi2 & Hi3). split_and!.
    - intros x [->|Hx]%elem_of_cons; [lia|auto].
    - lia.
    - destruct H3 as [H3|(x & Hx & H3)]; [|right; exists x; split; [by right|done]].
      rewrite H3. destruct Hi3 as [->|Hi3]; [by left|]. right. exists v. split; [left|done]. }
  destruct Hg as (H1 & H2 & H3). split_and!; [done|done|done| |].
  - unfold Freshness.age, saturating_sub. destruct boot_now as [b|].
    + destruct (wall_now <? st_wall g) eqn:E; [left; lia|right; lia].
    + by destruct (_ <? _).
  - intros Hlt. unfold Freshness.age. by destruct (wall_now <? st_wall g) eqn:E; [|lia].
Qed.

(** an unconfirmed freshness is not at maximal age by construction: on a machine whose
    boot and wall clocks both read five seconds (a wall clock that starts at the epoch) its
    age is five seconds, less than the shortest usual write lease. *)
Theorem unconfirmed_age_is_clock_reading :
  Freshness.age 5000000000 (Some 5000000000) Freshness.unconfirmed = 5000000000 /\
  Freshness.age 5000000000 (Some 5000000000) Freshness.unconfirmed < default_write_lease_seconds * 1000000000.
Proof. split; reflexivity. Qed.

(** ** Witnesses *)

#[local] Existing Instance be_hash.

Definition demo_shard (name : string) (kr : KeyRange) : ShardEntry := mkShardEntry name kr Serving None [].
Definition demo_topology : Topology :=
  mkTopology 3 1 10 "xxhash64_v1"
    [demo_shard "b" (mkKeyRange 128 None); demo_shard "a" (mkKeyRange 0 (Some 128))] [] [] None.

Lemma validate_iff_partition_witness :
  validate demo_topology = Ok tt <->
   t_epoch demo_topology <> 0 /\ 1 <= t_write_lease_seconds demo_topology <= 60 /\
   t_topology_generation demo_topology <> 0 /\
   is_ok (shard_function (t_hash_function demo_topology)) = true /\
   forall id, is_u64 id ->
     length (List.filter (fun s => is_serving s && KeyRange.contains (se_key_range s) id) (t_shards demo_topology)) = 1%nat.
Proof. apply (validate_iff_partition demo_topology). repeat constructor; concrete. Defined.

Lemma bounds_round_trip_witness :
  into_range (from_range (mkKeyRange 0 (Some 9223372036854775808))) = Ok (mkKeyRange 0 (Some 9223372036854775808)) /\
  (into_range (mkBounds "" "80") = Ok (mkKeyRange 0 (Some 9223372036854775808)) ->
   mkBounds "" "80" = from_range (mkKeyRange 0 (Some 9223372036854775808))).
Proof. apply (bounds_round_trip (mkKeyRange 0 (Some 9223372036854775808)) (mkBounds "" "80")). concrete. Defined.

Definition demo_from_slice (b : list ascii) : option Topology := match b with [] => None | _ => Some demo_topology end.
Definition demo_watcher : FileWatcher := mkFileWatcher demo_topology (mkSourceValidation 3 1 2).

Lemma watcher_epochs_witness :
  validate (fw_current demo_watcher) = Ok tt /\
  sv_epoch (fw_validated demo_watcher) <= t_epoch (fw_current demo_watcher) /\
  forall w', (w' = poll demo_from_slice (Some (mkStamp 5 6)) None demo_watcher \/
              w' = fst (reload demo_from_slice (Some (mkStamp 5 6)) None demo_watcher)) ->
    t_epoch (fw_current demo_watcher) <= t_epoch (fw_current w') /\
    (fw_current w' <> fw_current demo_watcher -> t_epoch (fw_current demo_watcher) < t_epoch (fw_current w')).
Proof.
  apply (watcher_epochs demo_from_slice demo_watcher (Some (mkStamp 5 6)) None).
  apply (wr_start demo_from_slice false (Some (mkStamp 1 2)) (Some ["x"%char])). vm_compute. reflexivity.
Defined.
