(* ===== verification/Filter.v ===== *)
(** * Filtering decoded rows by keyspace id

    [src/crates/pgshard-repl/src/filter.rs]: the placement of a replicated row
    from the text form of its shard key, with the router's own shard function
    and column types. *)

From S2P Require Import Prelude Rust Keyspace ShardFn Lsn PgOutput.

Open Scope Z_scope.

Inductive FilterError :=
| NoShardKeyColumn (column : string)
| ColumnOutOfRange (index len : nat)
| UnroutableCell
| BinaryCell
| FilterInvalidUtf8
| Uncoercible (value : string) (ty : ScalarType).

Definition shard_key_index (relation : Relation) (shard_key_column : string) : result FilterError nat :=
  ok_or (NoShardKeyColumn shard_key_column)
    (position (fun c => bool_decide (rc_name c = shard_key_column)) (rl_columns relation)).

Definition text_keyspace_id (text : string) (shard_key_type : ScalarType) (shard_fn : ShardFunction) :
    result FilterError KeyspaceId :=
  canonical ← ok_or (Uncoercible text shard_key_type) (coerce shard_key_type (Text text));
  mret (keyspace_id shard_fn canonical).

Definition cell_keyspace_id (cell : TupleColumn) (shard_key_type : ScalarType) (shard_fn : ShardFunction) :
    result FilterError KeyspaceId :=
  match cell with
  | TCText b =>
      if utf8_valid b then text_keyspace_id (str_of b) shard_key_type shard_fn else Err FilterInvalidUtf8
  | TCBinary _ => Err BinaryCell
  | TCNull | TCUnchangedToast => Err UnroutableCell
  end.

Definition tuple_keyspace_id (tuple : TupleData) (shard_key_index : nat) (shard_key_type : ScalarType)
    (shard_fn : ShardFunction) : result FilterError KeyspaceId :=
  cell ← ok_or (ColumnOutOfRange shard_key_index (length tuple)) (tuple !! shard_key_index);
  cell_keyspace_id cell shard_key_type shard_fn.

Definition tuple_in_range (tuple : TupleData) (shard_key_index : nat) (shard_key_type : ScalarType)
    (shard_fn : ShardFunction) (range : KeyRange) : result FilterError bool :=
  id ← tuple_keyspace_id tuple shard_key_index shard_key_type shard_fn;
  mret (KeyRange.contains range id).

(** ** Placement agrees with the router *)

Lemma cell_keyspace_id_spelled ty s w (f : ShardFunction) :
  spells ty (Text s) w -> utf8_valid (bytes s) = true -> cell_keyspace_id (TCText (bytes s)) ty f = Ok (keyspace_id f w).
Proof.
  intros Hs Hu. cbn [cell_keyspace_id]. rewrite Hu, str_of_bytes.
  unfold text_keyspace_id. by rewrite (spells_coerce _ _ _ Hs).
Qed.

(** a replicated row goes where the router put it: if a client's literal and
    the text the stream ships both write the same value of the shard-key column's
    type, the row's keyspace id is the shard function of the value the router's
    coercion of the literal yields, and the row is kept exactly by the ranges that
    contain that id. *)
Theorem stream_places_as_router ty lit s w f tuple i range :
  spells ty lit w -> spells ty (Text s) w -> utf8_valid (bytes s) = true -> tuple !! i = Some (TCText (bytes s)) ->
  exists v, coerce ty lit = Some v
    /\ tuple_keyspace_id tuple i ty f = Ok (keyspace_id f v)
    /\ tuple_in_range tuple i ty f range = Ok (KeyRange.contains range (keyspace_id f v)).
Proof.
  intros Hl Hs Hu Ht. exists w. split; [by apply spells_coerce|].
  assert (tuple_keyspace_id tuple i ty f = Ok (keyspace_id f w)) as H.
  { unfold tuple_keyspace_id. rewrite Ht. by apply cell_keyspace_id_spelled. }
  split; [done|]. unfold tuple_in_range. by rewrite H.
Qed.

#[local] Existing Instance be_hash.

Lemma stream_places_as_router_witness :
  let tuple := [TCNull; TCText (bytes "+7")] in
  exists v, coerce TInt (Int32 7) = Some v
    /\ tuple_keyspace_id tuple 1 TInt XXHASH64_V1 = Ok (keyspace_id XXHASH64_V1 v)
    /\ tuple_in_range tuple 1 TInt XXHASH64_V1 KeyRange.FULL
       = Ok (KeyRange.contains KeyRange.FULL (keyspace_id XXHASH64_V1 v)).
Proof.
  apply (stream_places_as_router TInt (Int32 7) "+7" (Int64 7)); [apply sp_int32| |reflexivity|reflexivity].
  apply coerce_spells. vm_compute. reflexivity.
Defined.
