(* ===== verification/Copy.v ===== *)
(** * The filtered snapshot copy

    [src/crates/pgshard-repl/src/copy.rs]: the initial load of a reshard seed.
    Each row of [COPY ... TO STDOUT] whose shard key falls in the target range is
    passed unchanged to [COPY ... FROM STDIN]. The two sessions are parameters:
    which command fails, what chunks the source sends; a copy returns the commands
    it issued on each session, the rows it sent and its result. *)

From S2P Require Import Prelude Rust Keyspace ShardFn Lsn PgOutput Filter.

Open Scope Z_scope.

Inductive CopyError :=
| Source (e : string)
| Target (e : string)
| CopyFilter (e : FilterError)
| CopyNoShardKeyColumn (column : string)
| Malformed (what : string)
| BadSnapshot (snapshot : string).

Record CopySpec := mkCopySpec {
  cs_schema : string; cs_table : string; cs_columns : list string; cs_shard_key_column : string;
  cs_shard_key_type : ScalarType; cs_target_range : KeyRange;
}.

(** ** Quoting and fields *)

(** [str::replace] of one character by two of it. *)
Fixpoint double_char (q : ascii) (l : list ascii) : list ascii :=
  match l with
  | [] => []
  | c :: l' => if decide (c = q) then q :: q :: double_char q l' else c :: double_char q l'
  end.

Definition quoted (q : ascii) (s : string) : string := str_of (q :: double_char q (bytes s) ++ [q]).

(** The double quote, code 34. *)
Definition quote_ident (ident : string) : string := quoted "034"%char ident.

Fixpoint join (sep : string) (l : list string) : string :=
  match l with
  | [] => ""
  | [x] => x
  | x :: l' => x +:+ sep +:+ join sep l'
  end.

Definition unescape_letter (c : ascii) : ascii :=
  if decide (c = "b"%char) then "008"%char
  else if decide (c = "f"%char) then "012"%char
  else if decide (c = "n"%char) then "010"%char
  else if decide (c = "r"%char) then "013"%char
  else if decide (c = "t"%char) then "009"%char
  else if decide (c = "v"%char) then "011"%char
  else c.

(** The [while i < field.len()] loop. *)
Fixpoint unescape (field : list ascii) : list ascii :=
  match field with
  | [] => []
  | c :: rest =>
      if decide (c = "\"%char) then
        match rest with
        | [] => [c]
        | d :: rest' => unescape_letter d :: unescape rest'
        end
      else c :: unescape rest
  end.

Definition copy_field_unescape (field : list ascii) : option (list ascii) :=
  if decide (field = ["\"%char; "N"%char]) then None else Some (unescape field).

(** [strip_suffix] of the newline. *)
Definition strip_newline (row : list ascii) : list ascii :=
  match reverse row with
  | c :: l => if decide (c = "010"%char) then reverse l else row
  | [] => row
  end.

Definition row_in_range (row : list ascii) (key_index : nat) (spec : CopySpec) (shard_fn : ShardFunction) :
    result CopyError bool :=
  field ← ok_or (Malformed ("row has fewer than " +:+ str_of (fmt_radix false 10 (Z.of_nat key_index + 1)) +:+ " columns"))
    (split_bytes "009"%char (strip_newline row) !! key_index);
  value ← ok_or (CopyFilter UnroutableCell) (copy_field_unescape field);
  _ ← ensure (utf8_valid value) (CopyFilter FilterInvalidUtf8);
  id ← map_err CopyFilter (text_keyspace_id (str_of value) (cs_shard_key_type spec) shard_fn);
  mret (KeyRange.contains (cs_target_range spec) id).

(** ** The row stream *)

Inductive Session := OnSource | OnTarget.

(** What the two connections do: the error of a command, the chunks and the end
    of the source's COPY, the error of the [n]th row sent and of the end of the
    target's COPY. *)
Record Connections := mkConnections {
  cn_execute : Session -> string -> option string;
  cn_copy_out : option string;
  cn_copy_in : option string;
  cn_chunks : list (list ascii);
  cn_chunks_end : option string;
  cn_send : nat -> option string;
  cn_finish : option string;
}.

(** The rows sent so far and the counter [copied]. *)
Record Progress := mkProgress { pr_sent : list (list ascii); pr_copied : Z }.

Section stream.
  Context (cn : Connections) (key_index : nat) (spec : CopySpec) (shard_fn : ShardFunction).

(** One complete row. *)
Definition forward_row (row : list ascii) (st : Progress) : Progress * option CopyError :=
  match row_in_range row key_index spec shard_fn with
  | Err e => (st, Some e)
  | Ok false => (st, None)
  | Ok true =>
      match cn_send cn (length (pr_sent st)) with
      | Some e => (st, Some (Target e))
      | None => (mkProgress (pr_sent st ++ [row]) (pr_copied st + 1), None)
      end
  end.

(** [while let Some(nl) = buf.iter().position(..)]: every turn removes a row from
    the buffer, so its length is enough fuel. *)
Fixpoint drain_buf (fuel : nat) (buf : list ascii) (st : Progress) : list ascii * Progress * option CopyError :=
  match fuel with
  | O => (buf, st, None)
  | S fuel' =>
      match position (fun b => bool_decide (b = "010"%char)) buf with
      | None => (buf, st, None)
      | Some nl =>
          match forward_row (take (nl + 1) buf) st with
          | (st', Some e) => (drop (nl + 1) buf, st', Some e)
          | (st', None) => drain_buf fuel' (drop (nl + 1) buf) st'
          end
      end
  end.

(** The outer loop, over the chunks of the source. *)
Fixpoint drain_chunks (chunks : list (list ascii)) (buf : list ascii) (st : Progress) :
    list ascii * Progress * option CopyError :=
  match chunks with
  | [] => (buf, st, Source <$> cn_chunks_end cn)
  | chunk :: rest =>
      match drain_buf (length (buf ++ chunk)) (buf ++ chunk) st with
      | (buf', st', Some e) => (buf', st', Some e)
      | (buf', st', None) => drain_chunks rest buf' st'
      end
  end.

Definition stream_filtered : Progress * result CopyError Z :=
  let start := mkProgress [] 0 in
  match cn_copy_out cn, cn_copy_in cn with
  | Some e, _ => (start, Err (Source e))
  | None, Some e => (start, Err (Target e))
  | None, None =>
      match drain_chunks (cn_chunks cn) [] start with
      | (_, st, Some e) => (st, Err e)
      | (buf, st, None) =>
          if negb (bool_decide (buf = [])) then
            (st, Err (Malformed "COPY stream ended without a final row terminator"))
          else match cn_finish cn with
               | Some e => (st, Err (Target e))
               | None => (st, Ok (pr_copied st))
               end
      end
  end.

End stream.

(** ** The whole copy *)

Definition source_begin : string := "BEGIN ISOLATION LEVEL REPEATABLE READ READ ONLY".
Definition source_setup (snapshot : string) : string :=
  "SET TRANSACTION SNAPSHOT '" +:+ snapshot +:+ "'; SET LOCAL row_security = off; SET LOCAL bytea_output = 'hex'; "
  +:+ "SET LOCAL DateStyle = 'ISO'; SET LOCAL IntervalStyle = 'postgres'; SET LOCAL extra_float_digits = 3".
Definition target_begin : string :=
  "BEGIN; SET LOCAL session_replication_role = replica; SET LOCAL DateStyle = 'ISO'; SET LOCAL IntervalStyle = 'postgres'".
Definition COMMIT : string := "COMMIT".
Definition ROLLBACK : string := "ROLLBACK".

(** A command on one of the sessions, or the streaming of rows between them. *)
Inductive Action := Execute (s : Session) (sql : string) | CopyRows (table col_list : string).

Record Copied := mkCopied { co_actions : list Action; co_sent : list (list ascii); co_result : result CopyError Z }.

Definition snapshot_ok (snapshot : string) : bool :=
  negb (str_is_empty snapshot) && forallb (fun b => is_ascii_hexdigit b || bool_decide (b = "-"%char)) (bytes snapshot).

(** The part on the target: begin, stream, commit or roll back. *)
Definition copy_to_target (cn : Connections) (table col_list : string) (key_index : nat) (spec : CopySpec)
    (shard_fn : ShardFunction) : Copied :=
  match cn_execute cn OnTarget target_begin with
  | Some e => mkCopied [Execute OnTarget target_begin; Execute OnTarget ROLLBACK] [] (Err (Target e))
  | None =>
      let '(st, copied) := stream_filtered cn key_index spec shard_fn in
      let before := [Execute OnTarget target_begin; CopyRows table col_list] in
      match copied with
      | Err e => mkCopied (before ++ [Execute OnTarget ROLLBACK]) (pr_sent st) (Err e)
      | Ok n =>
          mkCopied (before ++ [Execute OnTarget COMMIT]) (pr_sent st)
            (match cn_execute cn OnTarget COMMIT with Some e => Err (Target e) | None => Ok n end)
      end
  end.

Definition copy_filtered (cn : Connections) (snapshot : string) (spec : CopySpec) (shard_fn : ShardFunction) : Copied :=
  if negb (snapshot_ok snapshot) then mkCopied [] [] (Err (BadSnapshot snapshot))
  else match position (fun c => bool_decide (c = cs_shard_key_column spec)) (cs_columns spec) with
  | None => mkCopied [] [] (Err (CopyNoShardKeyColumn (cs_shard_key_column spec)))
  | Some key_index =>
      let table := quote_ident (cs_schema spec) +:+ "." +:+ quote_ident (cs_table spec) in
      let col_list := join ", " (quote_ident <$> cs_columns spec) in
      match cn_execute cn OnSource source_begin with
      | Some e => mkCopied [Execute OnSource source_begin] [] (Err (Source e))
      | None =>
          let result :=
            match cn_execute cn OnSource (source_setup snapshot) with
            | Some e => mkCopied [] [] (Err (Source e))
            | None => copy_to_target cn table col_list key_index spec shard_fn
            end in
          mkCopied ([Execute OnSource source_begin; Execute OnSource (source_setup snapshot)] ++ co_actions result
                    ++ [Execute OnSource ROLLBACK]) (co_sent result) (co_result result)
      end
  end.

(** ** PostgreSQL's COPY text format *)

Definition escape_letter (c : ascii) : option ascii :=
  if decide (c = "008"%char) then Some "b"%char
  else if decide (c = "012"%char) then Some "f"%char
  else if decide (c = "010"%char) then Some "n"%char
  else if decide (c = "013"%char) then Some "r"%char
  else if decide (c = "009"%char) then Some "t"%char
  else if decide (c = "011"%char) then Some "v"%char
  else if decide (c = "\"%char) then Some "\"%char
  else None.

Fixpoint escape (v : list ascii) : list ascii :=
  match v with
  | [] => []
  | c :: v' => match escape_letter c with Some e => "\"%char :: e :: escape v' | None => c :: escape v' end
  end.

(** A column as COPY sends it: the NULL marker, or the escaped text. A row of a
    table has no unshipped or binary cell. *)
Definition copy_field (c : TupleColumn) : list ascii :=
  match c with TCText v => escape v | _ => ["\"%char; "N"%char] end.

Fixpoint join_bytes (sep : ascii) (l : list (list ascii)) : list ascii :=
  match l with
  | [] => []
  | [x] => x
  | x :: l' => x ++ sep :: join_bytes sep l'
  end.

Definition copy_row (t : TupleData) : list ascii := join_bytes "009"%char (copy_field <$> t) ++ ["010"%char].

Definition table_cell (c : TupleColumn) : Prop := match c with TCText _ | TCNull => True | _ => False end.
Definition table_row (t : TupleData) : Prop := t <> [] /\ Forall table_cell t.

(** The complete lines of a byte string and what follows the last one. *)
Fixpoint lines (l : list ascii) : list (list ascii) * list ascii :=
  match l with
  | [] => ([], [])
  | c :: l' =>
      let '(rows, tail) := lines l' in
      if decide (c = "010"%char) then ([c] :: rows, tail)
      else match rows with
           | [] => ([], c :: tail)
           | r :: rows' => ((c :: r) :: rows', tail)
           end
  end.

(** Forwarding rows one after the other, stopping at the first error. *)
Fixpoint forward_rows (cn : Connections) (key_index : nat) (spec : CopySpec) (f : ShardFunction)
    (rows : list (list ascii)) (st : Progress) : Progress * option CopyError :=
  match rows with
  | [] => (st, None)
  | row :: rows' =>
      match forward_row cn key_index spec f row st with
      | (st', Some e) => (st', Some e)
      | (st', None) => forward_rows cn key_index spec f rows' st'
      end
  end.

(** The rows of a table the seed must contain, up to the first row that cannot be
    placed. *)
Fixpoint keep_rows (i : nat) (ty : ScalarType) (f : ShardFunction) (range : KeyRange) (ts : list TupleData) :
    list TupleData * option FilterError :=
  match ts with
  | [] => ([], None)
  | t :: ts' =>
      match tuple_in_range t i ty f range with
      | Err e => ([], Some e)
      | Ok b => let '(kept, e) := keep_rows i ty f range ts' in (if b then t :: kept else kept, e)
      end
  end.

Definition no_io_error (cn : Connections) : Prop :=
  cn_copy_out cn = None /\ cn_copy_in cn = None /\ cn_chunks_end cn = None /\ (forall n, cn_send cn n = None)
  /\ cn_finish cn = None.

(** The commands of one session. *)
Definition on_session (s : Session) (a : Action) : option string :=
  match a, s with
  | Execute OnSource sql, OnSource | Execute OnTarget sql, OnTarget => Some sql
  | _, _ => None
  end.
Definition commands (s : Session) (l : list Action) : list string := omap (on_session s) l.

(** ** Fields *)

Lemma escape_letter_spec c :
  match escape_letter c with
  | Some e => unescape_letter e = c /\ e <> "009"%char /\ e <> "010"%char
  | None => c <> "\"%char /\ c <> "009"%char /\ c <> "010"%char
  end.
Proof. unfold escape_letter. repeat case_decide; subst; done. Qed.

Lemma unescape_escape v : unescape (escape v) = v.
Proof.
  induction v as [|c v IH]; [done|]. cbn [escape]. pose proof (escape_letter_spec c) as H.
  destruct (escape_letter c) as [e|]; cbn [unescape].
  - rewrite decide_True by done. destruct H as [-> _]. by rewrite IH.
  - rewrite decide_False by tauto. by rewrite IH.
Qed.

Lemma escape_not_null v : escape v <> ["\"%char; "N"%char].
Proof.
  destruct v as [|c v]; [done|]. cbn [escape]. pose proof (escape_letter_spec c) as H.
  destruct (escape_letter c) as [e|] eqn:E; [|naive_solver]. intros [= -> _]. by rewrite <- (proj1 H) in E.
Qed.

Lemma copy_field_unescape_spec c :
  table_cell c -> copy_field_unescape (copy_field c) = match c with TCText v => Some v | _ => None end.
Proof.
  destruct c as [| |v|v]; try done. intros _. unfold copy_field_unescape. cbn [copy_field].
  rewrite decide_False by apply escape_not_null. by rewrite unescape_escape.
Qed.

Lemma escape_plain v : Forall (fun c => c <> "009"%char /\ c <> "010"%char) (escape v).
Proof.
  induction v as [|c v IH]; [constructor|]. cbn [escape]. pose proof (escape_letter_spec c) as H.
  destruct (escape_letter c) as [e|]; [constructor; [done|]|]; constructor; naive_solver.
Qed.

Lemma copy_field_plain c : Forall (fun c => c <> "009"%char /\ c <> "010"%char) (copy_field c).
Proof. destruct c; cbn [copy_field]; [..|apply escape_plain|]; by repeat constructor. Qed.

Lemma split_bytes_plain c l : c ∉ l -> split_bytes c l = [l].
Proof.
  induction l as [|x l IH]; [done|]. intros [Hx Hl]%not_elem_of_cons. cbn [split_bytes].
  rewrite decide_False by done. by rewrite IH.
Qed.

Lemma split_bytes_app c l r : c ∉ l -> split_bytes c (l ++ c :: r) = l :: split_bytes c r.
Proof.
  induction l as [|x l IH]; intros H; cbn [split_bytes app].
  - by rewrite decide_True.
  - apply not_elem_of_cons in H as [Hx Hl]. rewrite decide_False by done. by rewrite IH.
Qed.

Lemma split_join c l : l <> [] -> Forall (fun f => c ∉ f) l -> split_bytes c (join_bytes c l) = l.
Proof.
  intros Hne H. induction H as [|f l Hf Hl IH]; [done|]. destruct l as [|g l].
  - by apply split_bytes_plain.
  - change (join_bytes c (f :: g :: l)) with (f ++ c :: join_bytes c (g :: l)).
    rewrite split_bytes_app by done. by rewrite IH.
Qed.

Lemma join_plain (P : ascii -> Prop) c l : P c -> Forall (Forall P) l -> Forall P (join_bytes c l).
Proof.
  intros Hc H. induction H as [|f l Hf Hl IH]; [constructor|]. destruct l as [|g l]; [done|].
  change (join_bytes c (f :: g :: l)) with (f ++ c :: join_bytes c (g :: l)).
  apply Forall_app. split; [done|]. by constructor.
Qed.

Lemma copy_row_split t :
  t <> [] -> split_bytes "009"%char (strip_newline (copy_row t)) = copy_field <$> t.
Proof.
  intros Hne. unfold copy_row, strip_newline. rewrite reverse_snoc, decide_True, reverse_involutive by done.
  apply split_join; [by destruct t|]. apply Forall_fmap, Forall_true. intros c Hc.
  pose proof (copy_field_plain c) as H. rewrite Forall_forall in H. specialize (H _ Hc). naive_solver.
Qed.

(** A COPY row and the tuple the stream ships are kept or refused alike. *)
Lemma row_in_range_tuple t i spec f :
  table_row t -> (i < length t)%nat ->
  row_in_range (copy_row t) i spec f
  = map_err CopyFilter (tuple_in_range t i (cs_shard_key_type spec) f (cs_target_range spec)).
Proof.
  intros [Hne Hc] Hi. destruct (lookup_lt_is_Some_2 _ _ Hi) as [c Ht].
  unfold row_in_range, tuple_in_range, tuple_keyspace_id. rewrite copy_row_split by done.
  rewrite list_lookup_fmap, Ht. cbn [fmap option_fmap option_map ok_or mbind result_bind].
  rewrite copy_field_unescape_spec by by eapply Forall_lookup_1.
  pose proof (Forall_lookup_1 _ _ _ _ Hc Ht) as Htc. destruct c as [| |v|v]; try done; cbn.
  destruct (utf8_valid v); [|done]. cbn. by destruct (text_keyspace_id _ _ _).
Qed.

(** ** Rows do not depend on how the stream is cut *)

Lemma lines_app a b :
  lines (a ++ b) = let '(r1, t1) := lines a in let '(r2, t2) := lines (t1 ++ b) in (r1 ++ r2, t2).
Proof.
  induction a as [|c a IH]; cbn [lines app]; [by destruct (lines b)|]. rewrite IH.
  destruct (lines a) as [r1 t1]. destruct (decide (c = _)) as [->|Hc].
  - by destruct (lines (t1 ++ b)).
  - destruct r1 as [|r r1]; cbn [lines app].
    + destruct (lines (t1 ++ b)) as [[|] ?]; by rewrite decide_False.
    + by destruct (lines (t1 ++ b)).
Qed.

Lemma lines_position buf :
  match position (fun b => bool_decide (b = "010"%char)) buf with
  | None => lines buf = ([], buf)
  | Some nl =>
      let '(rows, tail) := lines (drop (nl + 1) buf) in
      lines buf = (take (nl + 1) buf :: rows, tail) /\ (length (drop (nl + 1) buf) < length buf)%nat
  end.
Proof.
  induction buf as [|c buf IH]; cbn [position]; [done|]. case_bool_decide as Hc.
  - subst. change (drop (0 + 1) (_ :: buf)) with buf. cbn [lines length]. destruct (lines buf) as [rows tail].
    rewrite decide_True by done. split; [done|lia].
  - destruct (position _ buf) as [nl|]; cbn [fmap option_fmap option_map].
    + change (S nl + 1)%nat with (S (nl + 1)). cbn [take drop lines length].
      revert IH. destruct (lines (drop (nl + 1) buf)) as [rows tail]. intros [-> Hl].
      rewrite decide_False by done. split; [done|lia].
    + cbn [lines]. rewrite IH. by rewrite decide_False.
Qed.

Lemma drain_buf_lines cn i spec f fuel buf st :
  (length buf <= fuel)%nat ->
  forall rows tail, lines buf = (rows, tail) ->
  match forward_rows cn i spec f rows st with
  | (st', Some e) => exists b, drain_buf cn i spec f fuel buf st = (b, st', Some e)
  | (st', None) => drain_buf cn i spec f fuel buf st = (tail, st', None)
  end.
Proof.
  revert buf st. induction fuel as [|fuel IH]; intros buf st Hf rows tail Hl.
  - destruct buf; [|simpl in Hf; lia]. injection Hl as <- <-. done.
  - cbn [drain_buf]. pose proof (lines_position buf) as H. destruct (position _ buf) as [nl|].
    + destruct (lines (drop (nl + 1) buf)) as [rows' tail'] eqn:E. destruct H as [H Hlt].
      rewrite H in Hl. injection Hl as <- <-. cbn [forward_rows].
      destruct (forward_row _ _ _ _ _ st) as [st' [e|]]; [by eexists|].
      apply IH; [lia|done].
    + rewrite H in Hl. injection Hl as <- <-. done.
Qed.

Lemma forward_rows_app cn i spec f r1 r2 st :
  forward_rows cn i spec f (r1 ++ r2) st =
  match forward_rows cn i spec f r1 st with
  | (st', Some e) => (st', Some e)
  | (st', None) => forward_rows cn i spec f r2 st'
  end.
Proof.
  revert st. induction r1 as [|r r1 IH]; intros st; [done|]. cbn [forward_rows app].
  destruct (forward_row _ _ _ _ _ _) as [st' [e|]]; [done|apply IH].
Qed.

Lemma drain_chunks_lines cn i spec f chunks buf st :
  cn_chunks_end cn = None ->
  forall rows tail, lines (buf ++ concat chunks) = (rows, tail) -> lines buf = ([], buf) ->
  match forward_rows cn i spec f rows st with
  | (st', Some e) => exists b, drain_chunks cn i spec f chunks buf st = (b, st', Some e)
  | (st', None) => drain_chunks cn i spec f chunks buf st = (tail, st', None)
  end.
Proof.
  intros He. revert buf st. induction chunks as [|c chunks IH]; intros buf st rows tail Hl Hb.
  - simpl in Hl. rewrite app_nil_r, Hb in Hl. injection Hl as <- <-. simpl. by rewrite He.
  - simpl concat in Hl. rewrite app_assoc, lines_app in Hl. destruct (lines (buf ++ c)) as [r1 t1] eqn:E1.
    destruct (lines (t1 ++ concat chunks)) as [r2 t2] eqn:E2. injection Hl as <- <-.
    cbn [drain_chunks]. rewrite forward_rows_app.
    pose proof (drain_buf_lines cn i spec f _ (buf ++ c) st (le_n _) _ _ E1) as H.
    destruct (forward_rows cn i spec f r1 st) as [st' [e|]].
    + destruct H as [b ->]. by eexists.
    + rewrite H. apply IH; [done|].
      pose proof (lines_app (buf ++ c) []) as Ht. rewrite app_nil_r, E1, app_nil_r in Ht.
      destruct (lines t1) as [r t] eqn:E. injection Ht as Hr ->.
      by rewrite <- (app_nil_r r1) in Hr at 1; apply app_inv_head in Hr as <-.
Qed.

(** ** Properties *)

Lemma lines_row b l :
  Forall (fun c => c <> "010"%char) b ->
  lines (b ++ "010"%char :: l) = let '(rows, tail) := lines l in ((b ++ ["010"%char]) :: rows, tail).
Proof.
  induction 1 as [|c b Hc Hb IH]; cbn [app lines].
  - by destruct (lines l).
  - rewrite IH. destruct (lines l). by rewrite decide_False.
Qed.

Lemma lines_copy_row t l : lines (copy_row t ++ l) = let '(rows, tail) := lines l in (copy_row t :: rows, tail).
Proof.
  unfold copy_row. rewrite <- app_assoc. apply lines_row. apply join_plain; [done|].
  apply Forall_fmap, Forall_true. intros c. eapply Forall_impl; [apply copy_field_plain|]. naive_solver.
Qed.

Lemma lines_table ts : lines (concat (copy_row <$> ts)) = (copy_row <$> ts, []).
Proof.
  induction ts as [|t ts IH]; [done|]. rewrite fmap_cons. cbn [concat]. by rewrite lines_copy_row, IH.
Qed.

Lemma forward_table cn i spec f ts st :
  (forall n, cn_send cn n = None) -> Forall (fun t => table_row t /\ (i < length t)%nat) ts ->
  forward_rows cn i spec f (copy_row <$> ts) st =
  let '(kept, e) := keep_rows i (cs_shard_key_type spec) f (cs_target_range spec) ts in
  (mkProgress (pr_sent st ++ (copy_row <$> kept)) (pr_copied st + Z.of_nat (length kept)), CopyFilter <$> e).
Proof.
  intros Hs Ht. revert st. induction Ht as [|t ts [Hr Hi] _ IH]; intros st.
  - cbn. rewrite app_nil_r, Z.add_0_r. by destruct st.
  - rewrite fmap_cons. cbn [forward_rows keep_rows]. unfold forward_row. rewrite row_in_range_tuple by done.
    destruct (tuple_in_range t i _ f _) as [[]|e]; cbn [map_err].
    + rewrite Hs, IH. destruct (keep_rows _ _ _ _ ts). cbn [pr_sent pr_copied].
      rewrite fmap_cons, <- app_assoc. cbn [length]. do 2 f_equal. lia.
    + by rewrite IH; destruct (keep_rows _ _ _ _ ts).
    + cbn. rewrite app_nil_r, Z.add_0_r. by destruct st.
Qed.

(** C28: the snapshot copy sends exactly the rows the stream would keep. For any
    table contents and any cut of its COPY encoding into chunks, the rows sent are
    the encodings, byte for byte and in order, of the rows whose shard key places
    them in the target range, and the count returned is their number; a row that
    the stream could not place stops the copy with that very filter error. *)
Theorem copy_sends_stream_rows cn i spec f ts :
  no_io_error cn -> concat (cn_chunks cn) = concat (copy_row <$> ts) ->
  Forall (fun t => table_row t /\ (i < length t)%nat) ts ->
  let '(kept, e) := keep_rows i (cs_shard_key_type spec) f (cs_target_range spec) ts in
  stream_filtered cn i spec f =
    (mkProgress (copy_row <$> kept) (Z.of_nat (length kept)),
     match e with None => Ok (Z.of_nat (length kept)) | Some e => Err (CopyFilter e) end).
Proof.
  intros (Ho & Hi & He & Hs & Hf) Hc Ht.
  pose proof (drain_chunks_lines cn i spec f (cn_chunks cn) [] (mkProgress [] 0) He) as H.
  specialize (H (copy_row <$> ts) []). rewrite app_nil_l, Hc, lines_table in H. specialize (H eq_refl eq_refl).
  rewrite forward_table in H by done. unfold stream_filtered. rewrite Ho, Hi.
  destruct (keep_rows _ _ _ _ ts) as [kept [e|]]; cbn in H.
  - by destruct H as [b ->].
  - rewrite H. cbn. by rewrite Hf.
Qed.

#[local] Existing Instance be_hash.

Lemma copy_sends_stream_rows_witness :
  let spec := mkCopySpec "public" "orders" ["id"; "note"] "id" TInt (mkKeyRange 0 (Some 6)) in
  let ts := [[TCText ["5"%char]; TCText ["009"%char]]; [TCText ["7"%char]; TCNull]] in
  let bs := concat (copy_row <$> ts) in
  let cn := mkConnections (fun _ _ => None) None None [take 3 bs; drop 3 bs] None (fun _ => None) None in
  let '(kept, e) := keep_rows 0 TInt XXHASH64_V1 (mkKeyRange 0 (Some 6)) ts in
  stream_filtered cn 0 spec XXHASH64_V1 =
    (mkProgress (copy_row <$> kept) (Z.of_nat (length kept)),
     match e with None => Ok (Z.of_nat (length kept)) | Some e => Err (CopyFilter e) end).
Proof.
  intros spec ts bs cn. apply (copy_sends_stream_rows cn 0 spec XXHASH64_V1 ts).
  - repeat split.
  - reflexivity.
  - repeat constructor; done.
Defined.

(** C36: a copy never leaves a session in a transaction and commits all or
    nothing. Once the source transaction began, the last command on the source is
    its rollback; the commands on the target are none, a begin ended by a
    rollback, or, only after every row was streamed, a begin ended by the commit;
    and the copy returns a count exactly when that commit succeeded. *)
Theorem copy_closes_sessions cn snapshot spec f :
  let c := copy_filtered cn snapshot spec f in
  (commands OnSource (co_actions c) = [] \/ commands OnSource (co_actions c) = [source_begin]
    /\ cn_execute cn OnSource source_begin <> None
    \/ last (commands OnSource (co_actions c)) = Some ROLLBACK)
  /\ (commands OnTarget (co_actions c) = [] /\ is_ok (co_result c) = false
     \/ commands OnTarget (co_actions c) = [target_begin; ROLLBACK] /\ is_ok (co_result c) = false
     \/ commands OnTarget (co_actions c) = [target_begin; COMMIT]
        /\ exists i st n, stream_filtered cn i spec f = (st, Ok n) /\ co_sent c = pr_sent st
            /\ co_result c = match cn_execute cn OnTarget COMMIT with Some e => Err (Target e) | None => Ok n end).
Proof.
  unfold copy_filtered, copy_to_target. repeat case_match; simplify_eq; cbn; (split; [naive_solver|]); eauto 15.
Qed.
