(* ===== verification/Apply.v ===== *)
(** * Transactional apply

    [src/crates/pgshard-repl/src/apply.rs]: the applier buffers a source
    transaction and at its commit runs the changes and the checkpoint update in
    one target transaction. The target database is a parameter: the effect of a
    statement on its rows. The progress table is modelled by the SQL the source
    runs on it, and a commit can fail before or after it took effect. *)

From S2P Require Import Prelude Rust Lsn PgOutput Copy.

Open Scope Z_scope.

Inductive ApplyError :=
| ADb (e : string)
| AUnknownRelation (oid : Oid)
| AColumnCountMismatch (relation : string) (expected actual : nat)
| AInvalidUtf8
| ARowCountMismatch (affected : Z)
| ALeaseHeld (consumer : string)
| AFenced (consumer : string) (commit : Lsn)
| AUnsupported (what : string)
(* not an error of the source: a slice index out of range panics *)
| APanic.

Record RelationInfo := mkRelationInfo {
  ri_schema : string; ri_table : string; ri_columns : list string; ri_replica_identity : ascii;
  ri_key_columns : list nat;
}.

Inductive Cell := CNull | CText (v : list ascii) | CUnchanged.

Inductive PendingChange :=
| PInsert (rel_oid : Oid) (new : list Cell)
| PUpdate (rel_oid : Oid) (key_source new : list Cell)
| PDelete (rel_oid : Oid) (key_source : list Cell).

(** ** Rendering a change as SQL *)

(** The single quote, code 39. *)
Definition quote_literal (value : string) : string := quoted "039"%char value.

Definition cell_of (column : TupleColumn) : result ApplyError Cell :=
  match column with
  | TCNull => Ok CNull
  | TCText b => Ok (CText b)
  | TCUnchangedToast => Ok CUnchanged
  | TCBinary _ => Err (AUnsupported "binary-format value")
  end.

Definition tuple_cells (tuple : TupleData) : result ApplyError (list Cell) := mapM cell_of tuple.

Definition check_len (relation : RelationInfo) (cells : list Cell) : result ApplyError unit :=
  ensure (length cells =? length (ri_columns relation))%nat
    (AColumnCountMismatch (ri_schema relation +:+ "." +:+ ri_table relation) (length (ri_columns relation)) (length cells)).

Definition render_cell (cell : Cell) : result ApplyError string :=
  match cell with
  | CNull => Ok "NULL"
  | CText b => if utf8_valid b then Ok (quote_literal (str_of b)) else Err AInvalidUtf8
  | CUnchanged => Err (AUnsupported "unshipped TOAST value in a full row")
  end.

Definition qualified (relation : RelationInfo) : string :=
  quote_ident (ri_schema relation) +:+ "." +:+ quote_ident (ri_table relation).

Definition build_insert (relation : RelationInfo) (values : list Cell) : result ApplyError string :=
  _ ← check_len relation values;
  rendered ← mapM render_cell values;
  mret ("INSERT INTO " +:+ qualified relation +:+ " (" +:+ join ", " (quote_ident <$> ri_columns relation)
        +:+ ") VALUES (" +:+ join ", " rendered +:+ ")").

(** One conjunct of the [WHERE]; [key_source[i]] and [columns[i]] panic out of range. *)
Definition key_condition (relation : RelationInfo) (key_source : list Cell) (i : nat) : result ApplyError string :=
  match key_source !! i with
  | None => Err APanic
  | Some CNull => Err (AUnsupported "null replica-identity key")
  | Some CUnchanged => Err (AUnsupported "unshipped replica-identity key")
  | Some cell =>
      match ri_columns relation !! i with
      | None => Err APanic
      | Some name => v ← render_cell cell; mret (quote_ident name +:+ " = " +:+ v)
      end
  end.

Definition build_where (relation : RelationInfo) (key_source : list Cell) : result ApplyError string :=
  if negb (bool_decide (ri_replica_identity relation = "d"%char) || bool_decide (ri_replica_identity relation = "i"%char))
  then Err (AUnsupported "update/delete requires REPLICA IDENTITY DEFAULT or an index (full/nothing not supported)")
  else if (length (ri_key_columns relation) =? 0)%nat
  then Err (AUnsupported "update/delete on a table with no replica-identity key")
  else conditions ← mapM (key_condition relation key_source) (ri_key_columns relation);
       mret (join " AND " conditions).

(** The loop over [columns.iter().zip(new)]. *)
Fixpoint assignments (columns : list string) (new : list Cell) : result ApplyError (list string) :=
  match columns, new with
  | name :: columns', cell :: new' =>
      match cell with
      | CUnchanged => assignments columns' new'
      | _ =>
          v ← render_cell cell;
          rest ← assignments columns' new';
          mret ((quote_ident name +:+ " = " +:+ v) :: rest)
      end
  | _, _ => Ok []
  end.

Definition build_update (relation : RelationInfo) (key_source new : list Cell) : result ApplyError (option string) :=
  _ ← check_len relation key_source;
  _ ← check_len relation new;
  assigned ← assignments (ri_columns relation) new;
  match assigned with
  | [] => mret None
  | _ =>
      where_ ← build_where relation key_source;
      mret (Some ("UPDATE " +:+ qualified relation +:+ " SET " +:+ join ", " assigned +:+ " WHERE " +:+ where_))
  end.

Definition build_delete (relation : RelationInfo) (key_source : list Cell) : result ApplyError string :=
  _ ← check_len relation key_source;
  where_ ← build_where relation key_source;
  mret ("DELETE FROM " +:+ qualified relation +:+ " WHERE " +:+ where_).

(** ** The target *)

(** A statement's effect on the target's rows: the number of rows it affected and
    the rows after it, or PostgreSQL's error. *)
Class Target := {
  Rows : Type;
  exec_sql : string -> Rows -> result string (Z * Rows);
}.

(** The target database: its tables and [pgshard.repl_progress], the row of a
    consumer as the pair of its [bigint] columns [lsn] and [end_lsn]. *)
Record Db `{Target} := mkDb { db_rows : Rows; db_progress : gmap string (Z * Z) }.
Arguments mkDb {_}.
Arguments db_rows {_}.
Arguments db_progress {_}.

(** How the connection fails during a commit, if it does. *)
Inductive Fault :=
| NoFault
| BeginFails (e : string)
| ProgressFails (e : string)
| CommitLost (e : string)
| CommitInDoubt (e : string).

Record Applier := mkApplier {
  ap_relations : gmap Oid RelationInfo; ap_consumer : string; ap_checkpoint : Lsn; ap_ack : Lsn;
  ap_pending : list PendingChange;
}.

Section applier.
  Context `{Target}.

(** The checkpoint upsert: [INSERT ... ON CONFLICT DO UPDATE ... WHERE lsn < EXCLUDED.lsn];
    the number of rows it affected. *)
Definition advance_progress (consumer : string) (lsn end_lsn : Z) (db : Db) : Z * Db :=
  match db_progress db !! consumer with
  | None => (1, mkDb (db_rows db) (<[consumer := (lsn, end_lsn)]> (db_progress db)))
  | Some (old, _) =>
      if old <? lsn then (1, mkDb (db_rows db) (<[consumer := (lsn, end_lsn)]> (db_progress db)))
      else (0, db)
  end.

(** The outcome of taking the stream lease and of setting the session up. *)
Inductive Startup := Started | LeaseContended | StartupFails (e : string).

(** [Applier::new]: the checkpoint and the acknowledgement position come from the
    progress row. *)
Definition new_applier (startup : Startup) (consumer : string) (db : Db) : result ApplyError Applier :=
  match startup with
  | LeaseContended => Err (ALeaseHeld consumer)
  | StartupFails e => Err (ADb e)
  | Started =>
      let '(checkpoint, ack) :=
        match db_progress db !! consumer with
        | Some (lsn, end_lsn) => (as_u64 lsn, Z.max (as_u64 end_lsn) (as_u64 lsn))
        | None => (0, 0)
        end in
      Ok (mkApplier ∅ consumer checkpoint ack [])
  end.

Definition relation_of (relations : gmap Oid RelationInfo) (oid : Oid) : result ApplyError RelationInfo :=
  ok_or (AUnknownRelation oid) (relations !! oid).

(** The statements of one buffered change: none for an update that ships nothing. *)
Definition change_statements (relations : gmap Oid RelationInfo) (change : PendingChange) :
    result ApplyError (list string) :=
  match change with
  | PInsert rel_oid new => r ← relation_of relations rel_oid; sql ← build_insert r new; mret [sql]
  | PUpdate rel_oid key_source new =>
      r ← relation_of relations rel_oid;
      sql ← build_update r key_source new;
      mret (match sql with Some sql => [sql] | None => [] end)
  | PDelete rel_oid key_source => r ← relation_of relations rel_oid; sql ← build_delete r key_source; mret [sql]
  end.

Fixpoint statements (relations : gmap Oid RelationInfo) (pending : list PendingChange) : result ApplyError (list string) :=
  match pending with
  | [] => Ok []
  | change :: rest =>
      s ← change_statements relations change;
      ss ← statements relations rest;
      mret (s ++ ss)
  end.

(** The statements inside the target transaction; each must affect one row. *)
Fixpoint run_statements (stmts : list string) (rows : Rows) : result ApplyError Rows :=
  match stmts with
  | [] => Ok rows
  | sql :: rest =>
      '(affected, rows') ← map_err ADb (exec_sql sql rows);
      _ ← ensure (affected =? 1) (ARowCountMismatch affected);
      run_statements rest rows'
  end.

Definition clear_pending (a : Applier) : Applier :=
  mkApplier (ap_relations a) (ap_consumer a) (ap_checkpoint a) (ap_ack a) [].

(** The target transaction: the statements, then the checkpoint compare-and-set.
    Nothing of it is durable until the commit. *)
Definition apply_txn (fault : Fault) (a : Applier) (stmts : list string) (commit_lsn end_lsn : Lsn) (db : Db) :
    result ApplyError Db :=
  match fault with
  | BeginFails e => Err (ADb e)
  | _ =>
      rows ← run_statements stmts (db_rows db);
      match fault with
      | ProgressFails e => Err (ADb e)
      | _ =>
          let '(advanced, db') :=
            advance_progress (ap_consumer a) (as_i64 commit_lsn) (as_i64 end_lsn) (mkDb rows (db_progress db)) in
          _ ← ensure (advanced =? 1)
                (AFenced (ap_consumer a) commit_lsn);
          mret db'
      end
  end.

Definition commit (fault : Fault) (commit_lsn end_lsn : Lsn) (a : Applier) (db : Db) :
    Applier * Db * result ApplyError unit :=
  if commit_lsn <=? ap_checkpoint a then
    (mkApplier (ap_relations a) (ap_consumer a) (ap_checkpoint a) (Z.max (ap_ack a) end_lsn) [], db, Ok tt)
  else match statements (ap_relations a) (ap_pending a) with
  | Err e => (a, db, Err e)
  | Ok stmts =>
      match apply_txn fault a stmts commit_lsn end_lsn db with
      | Err e => (a, db, Err e)
      | Ok db' =>
          match fault with
          | CommitLost e => (a, db, Err (ADb e))
          | CommitInDoubt e => (a, db', Err (ADb e))
          | _ =>
              (mkApplier (ap_relations a) (ap_consumer a) commit_lsn (Z.max (ap_ack a) end_lsn) [], db', Ok tt)
          end
      end
  end.

(** [columns.iter().enumerate().filter(is_key).map(i)]. *)
Definition key_column_indices (columns : list RelationColumn) : list nat :=
  fst <$> List.filter (fun p => is_key p.2) (imap pair columns).

Definition relation_info (r : Relation) : RelationInfo :=
  mkRelationInfo (rl_namespace r) (rl_name r) (rc_name <$> rl_columns r) (rl_replica_identity r)
    (key_column_indices (rl_columns r)).

Definition push_pending (c : PendingChange) (a : Applier) : Applier :=
  mkApplier (ap_relations a) (ap_consumer a) (ap_checkpoint a) (ap_ack a) (ap_pending a ++ [c]).

(** The change a message buffers. *)
Definition change_of (msg : LogicalRepMsg) : option (result ApplyError PendingChange) :=
  match msg with
  | MInsert m => Some (new ← tuple_cells (in_new_tuple m); mret (PInsert (in_rel_oid m) new))
  | MUpdate m =>
      Some (key_source ← match up_key m, up_old m with
                         | Some key, _ => tuple_cells key
                         | None, Some old => tuple_cells old
                         | None, None => tuple_cells (up_new_tuple m)
                         end;
            new ← tuple_cells (up_new_tuple m);
            mret (PUpdate (up_rel_oid m) key_source new))
  | MDelete m =>
      Some (key_source ← match de_key m, de_old m with
                         | Some key, _ => tuple_cells key
                         | None, Some old => tuple_cells old
                         | None, None => Err (AUnsupported "delete without a replica-identity key")
                         end;
            mret (PDelete (de_rel_oid m) key_source))
  | _ => None
  end.

(** [Applier::handle]. *)
Definition handle (fault : Fault) (msg : LogicalRepMsg) (a : Applier) (db : Db) :
    Applier * Db * result ApplyError unit :=
  match msg with
  | MRelation r =>
      (mkApplier (<[rl_oid r := relation_info r]> (ap_relations a)) (ap_consumer a) (ap_checkpoint a) (ap_ack a)
         (ap_pending a), db, Ok tt)
  | MBegin _ => (clear_pending a, db, Ok tt)
  | MInsert _ | MUpdate _ | MDelete _ =>
      match change_of msg with
      | Some (Ok c) => (push_pending c a, db, Ok tt)
      | Some (Err e) => (a, db, Err e)
      | None => (a, db, Ok tt)
      end
  | MCommit m => commit fault (cm_commit_lsn m) (cm_end_lsn m) a db
  | MOrigin _ | MType _ | MMessage _ => (a, db, Ok tt)
  | MTruncate _ => (a, db, Err (AUnsupported "TRUNCATE apply"))
  | _ => (a, db, Err (AUnsupported "streamed or two-phase transactions"))
  end.

Fixpoint handle_all (fault : Fault) (msgs : list LogicalRepMsg) (a : Applier) (db : Db) :
    Applier * Db * result ApplyError unit :=
  match msgs with
  | [] => (a, db, Ok tt)
  | m :: rest =>
      match handle fault m a db with
      | (a', db', Ok _) => handle_all fault rest a' db'
      | (a', db', Err e) => (a', db', Err e)
      end
  end.

(** ** A stream, its slot and the appliers that consume it

    The source's log: for each transaction, in commit order, the statements its
    changes render to and the two positions of its commit record. *)
Record Txn := mkTxn { tx_stmts : list string; tx_commit : Lsn; tx_end : Lsn }.

(** A worker: its applier and the index of the next transaction it receives. *)
Record Worker := mkWorker { wk_applier : Applier; wk_next : nat }.

(** The target, the position the slot has been told to release, and the workers
    that live, one or (across a handover) more. *)
Record Stream := mkStream { sm_db : Db; sm_confirmed : Lsn; sm_workers : gmap nat Worker }.

(** The positions of a log: a commit record ends before the next one begins, and
    fits the progress table's signed column. *)
Definition log_wf (log : list Txn) : Prop :=
  (forall i t, log !! i = Some t -> 0 < tx_commit t < tx_end t /\ tx_end t <= i64_MAX) /\
  (forall i t u, log !! i = Some t -> log !! S i = Some u -> tx_end t <= tx_commit u).

(** [body] is what the publisher sends a worker for [t]: whatever the worker
    buffers from it renders, under the relations announced to it, to [t]'s
    statements. *)
Definition describes (body : list LogicalRepMsg) (t : Txn) (a : Applier) (db : Db) : Prop :=
  Forall (fun m => match m with MBegin _ | MCommit _ => False | _ => True end) body /\
  forall b a' stmts, handle_all NoFault (MBegin b :: body) a db = (a', db, Ok tt) ->
    statements (ap_relations a') (ap_pending a') = Ok stmts -> stmts = tx_stmts t.

Inductive stream_step (log : list Txn) (consumer : string) : Stream -> Stream -> Prop :=
(** A worker starts. The slot resends every transaction but those whose commit lies
    below the confirmed position. *)
| ss_start id n startup a db confirmed ws :
    ws !! id = None -> (forall i t, (i < n)%nat -> log !! i = Some t -> tx_commit t < confirmed) ->
    (n <= length log)%nat -> new_applier startup consumer db = Ok a ->
    stream_step log consumer (mkStream db confirmed ws) (mkStream db confirmed (<[id := mkWorker a n]> ws))
(** A worker receives a transaction; after an error it stops. *)
| ss_deliver id fault w t b body ts a' db db' r confirmed ws :
    ws !! id = Some w -> log !! wk_next w = Some t -> describes body t (wk_applier w) db ->
    handle_all fault (MBegin b :: body ++ [MCommit (mkCommit (tx_commit t) (tx_end t) ts)]) (wk_applier w) db
      = (a', db', r) ->
    stream_step log consumer (mkStream db confirmed ws)
      (mkStream db' confirmed (if is_ok r then <[id := mkWorker a' (S (wk_next w))]> ws else base.delete id ws))
(** A worker acknowledges its position to the slot. *)
| ss_confirm id w db confirmed ws :
    ws !! id = Some w ->
    stream_step log consumer (mkStream db confirmed ws) (mkStream db (Z.max confirmed (ap_ack (wk_applier w))) ws)
(** A worker dies, between or within transactions. *)
| ss_crash id db confirmed ws :
    stream_step log consumer (mkStream db confirmed ws) (mkStream db confirmed (base.delete id ws)).

(** ** What exactly-once means *)

(** The rows after the first [k] transactions of the log. *)
Fixpoint run_log (log : list Txn) (rows : Rows) : result ApplyError Rows :=
  match log with
  | [] => Ok rows
  | t :: rest => rows' ← run_statements (tx_stmts t) rows; run_log rest rows'
  end.

(** The commit position and the end of the last of the first [k] transactions. *)
Definition commit_at (log : list Txn) (k : nat) : Z :=
  match k with O => 0 | S i => match log !! i with Some t => tx_commit t | None => 0 end end.
Definition end_at (log : list Txn) (k : nat) : Z :=
  match k with O => 0 | S i => match log !! i with Some t => tx_end t | None => 0 end end.

(** The target holds exactly the first [k] transactions. *)
Definition holds_prefix (log : list Txn) (consumer : string) (rows0 : Rows) (k : nat) (db : Db) : Prop :=
  (k <= length log)%nat /\ run_log (take k log) rows0 = Ok (db_rows db) /\
  db_progress db !! consumer = match k with O => None | _ => Some (commit_at log k, end_at log k) end.

(** A worker's view is behind or at the target's. *)
Definition worker_ok (log : list Txn) (consumer : string) (k : nat) (w : Worker) : Prop :=
  exists j, (wk_next w <= j <= k)%nat /\ ap_consumer (wk_applier w) = consumer /\
    ap_checkpoint (wk_applier w) = commit_at log j /\ ap_ack (wk_applier w) <= end_at log k.

Definition stream_inv (log : list Txn) (consumer : string) (rows0 : Rows) (k : nat) (s : Stream) : Prop :=
  holds_prefix log consumer rows0 k (sm_db s) /\ sm_confirmed s <= end_at log k /\
  forall id w, sm_workers s !! id = Some w -> worker_ok log consumer k w.

End applier.

(** ** What PostgreSQL reads in a statement

    With [standard_conforming_strings] on, a quoted token ends at the first quote
    that is not doubled, and nothing else is special inside it. *)
Inductive Token := TChar (c : ascii) | TQuoted (q : ascii) (v : list ascii) | TUnterminated.

Definition is_quote (c : ascii) : bool := bool_decide (c = "034"%char) || bool_decide (c = "039"%char).

Fixpoint lex (st : option (ascii * list ascii)) (l : list ascii) : list Token :=
  match st, l with
  | None, [] => []
  | None, c :: l' => if is_quote c then lex (Some (c, [])) l' else TChar c :: lex None l'
  | Some _, [] => [TUnterminated]
  | Some (q, acc), c :: l' =>
      if decide (c = q) then
        match l' with
        | d :: l'' => if decide (d = q) then lex (Some (q, acc ++ [q])) l'' else TQuoted q acc :: lex None l'
        | [] => [TQuoted q acc]
        end
      else lex (Some (q, acc ++ [c])) l'
  end.

Definition raw (s : string) : list Token := TChar <$> bytes s.
Definition ident_token (s : string) : list Token := [TQuoted "034"%char (bytes s)].

Fixpoint sep_tokens (sep : string) (l : list (list Token)) : list Token :=
  match l with
  | [] => []
  | [x] => x
  | x :: l' => x ++ raw sep ++ sep_tokens sep l'
  end.

Definition cell_tokens (c : Cell) : list Token :=
  match c with CText v => [TQuoted "039"%char v] | _ => raw "NULL" end.

Definition qualified_tokens (r : RelationInfo) : list Token :=
  ident_token (ri_schema r) ++ raw "." ++ ident_token (ri_table r).

Definition equals_tokens (name : string) (c : Cell) : list Token := ident_token name ++ raw " = " ++ cell_tokens c.

Definition insert_tokens (r : RelationInfo) (values : list Cell) : list Token :=
  raw "INSERT INTO " ++ qualified_tokens r ++ raw " (" ++ sep_tokens ", " (ident_token <$> ri_columns r)
    ++ raw ") VALUES (" ++ sep_tokens ", " (cell_tokens <$> values) ++ raw ")".

Definition where_tokens (r : RelationInfo) (key_source : list Cell) : list Token :=
  sep_tokens " AND " ((fun i => equals_tokens (default "" (ri_columns r !! i)) (default CNull (key_source !! i)))
                        <$> ri_key_columns r).

Definition delete_tokens (r : RelationInfo) (key_source : list Cell) : list Token :=
  raw "DELETE FROM " ++ qualified_tokens r ++ raw " WHERE " ++ where_tokens r key_source.

Definition set_tokens (columns : list string) (new : list Cell) : list (list Token) :=
  (fun p => equals_tokens p.1 p.2) <$> List.filter (fun p => match p.2 with CUnchanged => false | _ => true end) (zip columns new).

Definition update_tokens (r : RelationInfo) (key_source new : list Cell) : list Token :=
  raw "UPDATE " ++ qualified_tokens r ++ raw " SET " ++ sep_tokens ", " (set_tokens (ri_columns r) new)
    ++ raw " WHERE " ++ where_tokens r key_source.

(** A relation the applier learned: its key columns are columns of it. *)
Definition relation_wf (r : RelationInfo) : Prop := Forall (fun i => (i < length (ri_columns r))%nat) (ri_key_columns r).

(** [s] lexes to [ts] before any [rest] ([strong]), or before one that does not begin
    with a quote. *)
Definition lexes (strong : bool) (s : string) (ts : list Token) : Prop :=
  forall rest, (strong = false -> default false (is_quote <$> head rest) = false) ->
    lex None (bytes s ++ rest) = ts ++ lex None rest.

(** ** Positions of a log *)

Lemma commit_at_S log i t : log !! i = Some t -> commit_at log (S i) = tx_commit t /\ end_at log (S i) = tx_end t.
Proof. intros H. simpl. by rewrite H. Qed.

Lemma log_positions log i :
  log_wf log -> (i < length log)%nat ->
  0 <= commit_at log i <= end_at log i /\ end_at log i <= commit_at log (S i) /\ commit_at log i < commit_at log (S i)
  /\ commit_at log (S i) < end_at log (S i) /\ end_at log (S i) <= i64_MAX.
Proof.
  intros [Hp Hn] Hi. destruct (lookup_lt_is_Some_2 _ _ Hi) as [t Ht].
  destruct (commit_at_S _ _ _ Ht) as [-> ->]. pose proof (Hp _ _ Ht). destruct i as [|i]; [simpl; lia|].
  destruct (lookup_lt_is_Some_2 log i ltac:(lia)) as [u Hu].
  destruct (commit_at_S _ _ _ Hu) as [-> ->]. pose proof (Hp _ _ Hu). pose proof (Hn _ _ _ Hu Ht). lia.
Qed.

Lemma log_positions_mono log i j :
  log_wf log -> (i < j <= length log)%nat ->
  commit_at log i < commit_at log j /\ end_at log i <= commit_at log j /\ end_at log i <= end_at log j.
Proof.
  intros Hl [Hij Hj]. induction Hij as [|m Hij IH].
  - pose proof (log_positions log i Hl Hj). lia.
  - specialize (IH ltac:(lia)). pose proof (log_positions log m Hl ltac:(lia)). lia.
Qed.

Lemma log_positions_range log k :
  log_wf log -> (k <= length log)%nat -> 0 <= commit_at log k <= end_at log k /\ end_at log k <= i64_MAX.
Proof.
  intros Hl Hk. destruct k as [|k]; [done|]. pose proof (log_positions log k Hl ltac:(lia)). lia.
Qed.

Lemma commit_at_lt_iff log i j :
  log_wf log -> (i <= length log)%nat -> (j <= length log)%nat -> commit_at log i < commit_at log j <-> (i < j)%nat.
Proof.
  intros Hl Hi Hj. split; [|intros; by apply log_positions_mono].
  intros H. destruct (lt_eq_lt_dec i j) as [[?| -> ]|Hji]; [done|lia|].
  pose proof (log_positions_mono log j i Hl ltac:(lia)). lia.
Qed.

(** The signed column holds the position unchanged. *)
Lemma as_i64_pos z : 0 <= z <= i64_MAX -> as_i64 z = z.
Proof. unfold as_i64, i64_MIN, i64_MAX, two64. intros Hz. rewrite Z.mod_small by lia. lia. Qed.

Lemma as_u64_pos z : 0 <= z <= i64_MAX -> as_u64 z = z.
Proof. unfold as_u64, i64_MAX, two64. intros Hz. apply Z.mod_small. lia. Qed.

Section props.
  Context `{TT : Target}.
  Implicit Types (db : Db) (a : Applier).

(** ** Buffering a transaction touches neither the target nor the positions *)

Definition same_positions a a' : Prop :=
  ap_consumer a' = ap_consumer a /\ ap_checkpoint a' = ap_checkpoint a /\ ap_ack a' = ap_ack a.

Lemma handle_buffers fault m a db :
  match m with MCommit _ => False | _ => True end ->
  exists a' r, handle fault m a db = (a', db, r) /\ handle NoFault m a db = (a', db, r) /\ same_positions a a'.
Proof.
  intros Hm. destruct m; try done; simpl; repeat case_match; unfold same_positions; eauto 10.
Qed.

Lemma handle_all_buffers fault ms a db :
  Forall (fun m => match m with MCommit _ => False | _ => True end) ms ->
  exists a' r, handle_all fault ms a db = (a', db, r) /\ handle_all NoFault ms a db = (a', db, r) /\ same_positions a a'.
Proof.
  intros H. revert a. induction H as [|m ms Hm _ IH]; intros a.
  - by exists a, (Ok tt).
  - destruct (handle_buffers fault m a db Hm) as (a1 & r1 & E1 & E2 & Hs).
    cbn [handle_all]. rewrite E1, E2. destruct r1 as [[]|e]; [|eauto].
    destruct (IH a1) as (a2 & r2 & E3 & E4 & Hs2). exists a2, r2. split; [done|]. split; [done|].
    unfold same_positions in *. naive_solver congruence.
Qed.

Lemma handle_all_app fault l1 l2 a db :
  handle_all fault (l1 ++ l2) a db =
  match handle_all fault l1 a db with
  | (a', db', Ok _) => handle_all fault l2 a' db'
  | (a', db', Err e) => (a', db', Err e)
  end.
Proof.
  revert a db. induction l1 as [|m l1 IH]; intros a db; [done|]. cbn [handle_all app].
  destruct (handle fault m a db) as [[a' db'] [[]|e]]; [apply IH|done].
Qed.

(** ** The target transaction *)

Lemma run_log_app l1 l2 rows :
  run_log (l1 ++ l2) rows = rows' ← run_log l1 rows; run_log l2 rows'.
Proof.
  revert rows. induction l1 as [|t l1 IH]; intros rows; [done|]. cbn [run_log app].
  destruct (run_statements _ rows); [apply IH|done].
Qed.

Lemma run_log_snoc log k t rows rows1 rows2 :
  log !! k = Some t -> run_log (take k log) rows = Ok rows1 -> run_statements (tx_stmts t) rows1 = Ok rows2 ->
  run_log (take (S k) log) rows = Ok rows2.
Proof.
  intros Ht H1 H2. rewrite (take_S_r _ _ _ Ht), run_log_app, H1. cbn [mbind result_bind run_log]. by rewrite H2.
Qed.

(** A transaction that goes through is the next one: the statements ran on the
    prefix and the compare-and-set moved the checkpoint from it. *)
Lemma apply_txn_next log c rows0 k n fault a t db db' :
  log_wf log -> holds_prefix log c rows0 k db -> log !! n = Some t -> ap_consumer a = c -> (n <= k)%nat ->
  apply_txn fault a (tx_stmts t) (tx_commit t) (tx_end t) db = Ok db' ->
  n = k /\ holds_prefix log c rows0 (S k) db'.
Proof.
  intros Hl (Hk & Hrows & Hp) Ht Hc Hn H. pose proof (lookup_lt_Some _ _ _ Ht) as Hlt.
  destruct (commit_at_S _ _ _ Ht) as [Hct Het]. pose proof (log_positions log n Hl Hlt) as Hpos.
  unfold apply_txn in H.
  assert (exists rows, run_statements (tx_stmts t) (db_rows db) = Ok rows /\
    (let '(advanced, db1) := advance_progress c (as_i64 (tx_commit t)) (as_i64 (tx_end t)) (mkDb rows (db_progress db)) in
     (advanced =? 1) = true /\ db' = db1)) as (rows & Hr & Ha).
  { destruct fault; try done; destruct (run_statements _ _) as [rows|]; try done; exists rows; (split; [done|]);
      cbn [mbind result_bind] in H; try done; rewrite Hc in H; destruct (advance_progress _ _ _ _) as [adv db1];
      (destruct (adv =? 1); [|done]); (split; [done|]); by injection H as <-. }
  rewrite Hct, Het in Hpos. rewrite !as_i64_pos in Ha by lia.
  unfold advance_progress in Ha. cbn [db_progress db_rows] in Ha. rewrite Hp in Ha.
  assert (n = k) as ->.
  { destruct k as [|k]; [lia|]. destruct (commit_at log (S k) <? tx_commit t) eqn:E; [|naive_solver].
    apply Z.ltb_lt in E. rewrite <- Hct, commit_at_lt_iff in E by (done || lia). lia. }
  assert (db' = mkDb rows (<[c := (tx_commit t, tx_end t)]> (db_progress db))) as ->.
  { destruct k; [naive_solver|]. destruct (_ <? _); naive_solver. }
  split; [done|]. split; [lia|]. cbn [db_rows db_progress]. split; [by eapply run_log_snoc|].
  by rewrite lookup_insert_eq, Hct, Het.
Qed.

Lemma commit_step log c rows0 k n j fault a t db a' db' r :
  log_wf log -> holds_prefix log c rows0 k db -> log !! n = Some t ->
  ap_consumer a = c -> ap_checkpoint a = commit_at log j -> ap_ack a <= end_at log k -> (n <= j <= k)%nat ->
  (forall stmts, statements (ap_relations a) (ap_pending a) = Ok stmts -> stmts = tx_stmts t) ->
  commit fault (tx_commit t) (tx_end t) a db = (a', db', r) ->
  exists k', (k <= k')%nat /\ holds_prefix log c rows0 k' db' /\
    (is_ok r = true -> (S n <= k')%nat /\ worker_ok log c k' (mkWorker a' (S n))).
Proof.
  intros Hl Hh Ht Hc Hcp Hack Hn Hs H. pose proof (lookup_lt_Some _ _ _ Ht) as Hlt.
  destruct (commit_at_S _ _ _ Ht) as [Hct Het]. pose proof Hh as (Hk & _ & _).
  unfold commit in H. rewrite Hcp, <- Hct in H. destruct (Z.leb_spec (commit_at log (S n)) (commit_at log j)) as [Hle|Hgt].
  - injection H as <- <- <-. exists k. split; [done|]. split; [done|]. intros _.
    assert (S n <= j)%nat as Hj.
    { destruct (decide (S n <= j)%nat) as [|Hx]; [done|].
      pose proof (log_positions_mono log j (S n) Hl ltac:(lia)). lia. }
    split; [lia|]. exists j. cbn. split; [lia|]. split; [done|]. split; [done|].
    assert (end_at log (S n) <= end_at log k).
    { destruct (decide (S n = k)) as [->|]; [done|]. by apply log_positions_mono; [|lia]. }
    lia.
  - assert (j = n) as ->.
    { apply commit_at_lt_iff in Hgt; [lia|done|lia|lia]. }
    rewrite Hct in H. destruct (statements _ _) as [ss|] eqn:E; [|injection H as <- <- <-; exists k; done].
    rewrite (Hs ss eq_refl) in *. destruct (apply_txn _ _ _ _ _ _) as [db1|e] eqn:E1; [|injection H as <- <- <-; exists k; done].
    destruct (apply_txn_next _ _ _ _ _ _ _ _ _ _ Hl Hh Ht Hc ltac:(lia) E1) as [-> Hh'].
    destruct fault; injection H as <- <- <-; first [exists (S k); split; [lia|]; split; [done|]; done | exists k; done | idtac];
      (exists (S k); split; [lia|]; split; [done|]; intros _; split; [lia|]; exists (S k); cbn [wk_next wk_applier ap_consumer ap_checkpoint ap_ack];
       split; [lia|]; split; [done|]; split; [done|];
       pose proof (log_positions log k Hl Hlt); lia).
Qed.
(** ** The invariant *)

Lemma new_applier_ok log c rows0 k n startup db confirmed a :
  log_wf log -> holds_prefix log c rows0 k db -> confirmed <= end_at log k ->
  (forall i t, (i < n)%nat -> log !! i = Some t -> tx_commit t < confirmed) -> (n <= length log)%nat ->
  new_applier startup c db = Ok a -> worker_ok log c k (mkWorker a n).
Proof.
  intros Hl (Hk & _ & Hp) Hc Hn Hnl H. exists k. cbn [wk_applier wk_next].
  pose proof (log_positions_range log k Hl Hk) as Hr.
  assert (n <= k)%nat as Hnk.
  { destruct (decide (n <= k)%nat) as [|Hx]; [done|]. destruct (lookup_lt_is_Some_2 log k ltac:(lia)) as [t Ht].
    specialize (Hn k t ltac:(lia) Ht). destruct (commit_at_S _ _ _ Ht) as [Hct _].
    pose proof (log_positions log k Hl ltac:(lia)). lia. }
  unfold new_applier in H. destruct startup; try done. rewrite Hp in H.
  destruct k as [|k]; [by injection H as <-|]. rewrite !as_u64_pos in H by lia.
  injection H as <-. cbn [ap_consumer ap_checkpoint ap_ack]. split; [lia|]. split; [done|]. split; [done|]. apply Z.max_lub; [done|apply Hr].
Qed.

Lemma worker_ok_mono log c k k' w :
  log_wf log -> (k <= k' <= length log)%nat -> worker_ok log c k w -> worker_ok log c k' w.
Proof.
  intros Hl Hk (j & Hj & Hc & Hcp & Ha). exists j. split; [lia|]. split; [done|]. split; [done|].
  destruct (decide (k = k')) as [->|]; [done|]. pose proof (log_positions_mono log k k' Hl ltac:(lia)). lia.
Qed.

Lemma deliver_ok log c rows0 k fault w t b body ts a' db db' r :
  log_wf log -> holds_prefix log c rows0 k db -> worker_ok log c k w -> log !! wk_next w = Some t ->
  describes body t (wk_applier w) db ->
  handle_all fault (MBegin b :: body ++ [MCommit (mkCommit (tx_commit t) (tx_end t) ts)]) (wk_applier w) db
    = (a', db', r) ->
  exists k', (k <= k')%nat /\ holds_prefix log c rows0 k' db' /\
    (is_ok r = true -> worker_ok log c k' (mkWorker a' (S (wk_next w)))).
Proof.
  intros Hl Hh (j & Hj & Hc & Hcp & Ha) Ht [Hb Hd] H. rewrite app_comm_cons, handle_all_app in H.
  destruct (handle_all_buffers fault (MBegin b :: body) (wk_applier w) db) as (a1 & r1 & E1 & E2 & Hs1 & Hs2 & Hs3).
  { constructor; [done|]. eapply Forall_impl; [exact Hb|]. by intros []. }
  rewrite E1 in H. destruct r1 as [[]|e]; [|injection H as <- <- <-; exists k; done].
  cbn [handle_all handle cm_commit_lsn cm_end_lsn] in H.
  destruct (commit _ _ _ a1 db) as [[a2 db2] r2] eqn:E.
  eapply (commit_step log c rows0 k (wk_next w) j) in E as (k' & Hk' & Hh' & Hw);
    [|done..|congruence|congruence|lia|done|by intros stmts; apply (Hd b a1 stmts)].
  exists k'. destruct r2 as [[]|e]; injection H as <- <- <-; split; [lia|..]; [|done|done]. naive_solver.
Qed.

Lemma stream_step_inv log c rows0 k s s' :
  log_wf log -> stream_inv log c rows0 k s -> stream_step log c s s' ->
  exists k', (k <= k')%nat /\ stream_inv log c rows0 k' s'.
Proof.
  intros Hl (Hh & Hcf & Hw) Hstep.
  destruct Hstep as [id n startup a db cf ws Hid Hn Hnl Hnew|id fault w t b body ts a' db db' r cf ws Hid Ht Hd H
    |id w db cf ws Hid|id db cf ws]; cbn [sm_db sm_confirmed sm_workers] in *.
  - exists k. split; [done|]. split; [done|]. split; [done|]. cbn [sm_workers]. intros id' w'.
    rewrite lookup_insert_Some. intros [[<- <-]|[_ ?]]; [by eapply new_applier_ok|by eapply Hw].
  - destruct (deliver_ok _ _ _ _ _ _ _ _ _ _ _ _ _ _ Hl Hh (Hw _ _ Hid) Ht Hd H) as (k' & Hk' & Hh' & Hok).
    pose proof Hh' as (Hkl & _). exists k'. split; [done|]. split; [done|]. cbn [sm_confirmed sm_workers]. split.
    { destruct (decide (k = k')) as [->|]; [done|]. pose proof (log_positions_mono log k k' Hl ltac:(lia)). lia. }
    intros id' w'. destruct (is_ok r).
    + rewrite lookup_insert_Some. intros [[<- <-]|[_ ?]]; [by apply Hok|].
      eapply worker_ok_mono; [done|split; [exact Hk'|done]|by eapply Hw].
    + rewrite lookup_delete_Some. intros [_ ?]. eapply worker_ok_mono; [done|split; [exact Hk'|done]|by eapply Hw].
  - exists k. split; [done|]. split; [done|]. cbn [sm_confirmed sm_workers]. split; [|done].
    destruct (Hw _ _ Hid) as (j & _ & _ & _ & Ha). lia.
  - exists k. split; [done|]. split; [done|]. cbn [sm_confirmed sm_workers]. split; [done|].
    intros id' w'. rewrite lookup_delete_Some. intros [_ ?]. by eapply Hw.
Qed.

Lemma stream_inv_reachable log c rows0 k s s' :
  log_wf log -> stream_inv log c rows0 k s -> rtc (stream_step log c) s s' ->
  exists k', (k <= k')%nat /\ stream_inv log c rows0 k' s'.
Proof.
  intros Hl Hi Hr. revert k Hi. induction Hr as [s|s1 s2 s3 Hs _ IH]; intros k Hi; [by exists k|].
  destruct (stream_step_inv _ _ _ _ _ _ Hl Hi Hs) as (k1 & Hk1 & Hi1).
  destruct (IH k1 Hi1) as (k2 & Hk2 & Hi2). exists k2. split; [lia|done].
Qed.

(** ** Properties *)

(** C3: exactly-once apply. Whatever workers start, overlap, fail at any point of a
    commit (the in-doubt commit included), crash and are replaced, and however
    often the slot replays transactions, the target always holds exactly the
    effect of a prefix of the source's log, each transaction once and in order;
    its progress row is that prefix's position; the slot has been told to release
    nothing beyond it; and it includes every transaction a live worker has
    handled. *)
Theorem exactly_once log c db0 s :
  log_wf log -> db_progress db0 !! c = None -> rtc (stream_step log c) (mkStream db0 0 ∅) s ->
  exists k, holds_prefix log c (db_rows db0) k (sm_db s) /\ sm_confirmed s <= end_at log k /\
    forall id w, sm_workers s !! id = Some w -> (wk_next w <= k)%nat.
Proof.
  intros Hl Hp Hr. destruct (stream_inv_reachable log c (db_rows db0) 0 (mkStream db0 0 ∅) s Hl) as (k & _ & Hh & Hc & Hw).
  - split; [split; [lia|done]|]. split; [done|]. intros id w. cbn. by rewrite lookup_empty.
  - done.
  - exists k. split; [done|]. split; [done|]. intros id w Hid. destruct (Hw id w Hid) as (j & Hj & _). lia.
Qed.

(** the compare-and-set fences a stale applier: if the durable progress is
    already at or past the commit, the transaction is refused and the target,
    its rows included, is unchanged. *)
Theorem stale_commit_refused fault commit_lsn end_lsn a db lsn e :
  db_progress db !! ap_consumer a = Some (lsn, e) -> as_i64 commit_lsn <= lsn -> ap_checkpoint a < commit_lsn ->
  exists err, commit fault commit_lsn end_lsn a db = (a, db, Err err).
Proof.
  intros Hp Hle Hgt. unfold commit. rewrite (proj2 (Z.leb_gt _ _)) by done.
  destruct (statements _ _) as [stmts|err]; [|by exists err].
  assert (exists err, apply_txn fault a stmts commit_lsn end_lsn db = Err err) as [err ->]; [|by exists err].
  unfold apply_txn. destruct fault; try (by eexists); destruct (run_statements _ _) as [rows|err]; try (by eexists);
    cbn [mbind result_bind]; try (by eexists); unfold advance_progress; cbn [db_progress db_rows]; rewrite Hp;
    rewrite (proj2 (Z.ltb_ge _ _)) by done; by eexists.
Qed.

End props.

(** ** Quoting *)

Lemma lex_quoted_body q acc v rest :
  is_quote q = true -> default false (is_quote <$> head rest) = false ->
  lex (Some (q, acc)) (double_char q v ++ q :: rest) = TQuoted q (acc ++ v) :: lex None rest.
Proof.
  intros Hq Hr. revert acc. induction v as [|c v IH]; intros acc; cbn [double_char].
  - rewrite app_nil_r. cbn [app lex]. rewrite decide_True by done. destruct rest as [|d rest]; [done|].
    rewrite decide_False; [done|]. intros ->. cbn in Hr. congruence.
  - destruct (decide (c = q)) as [->|Hc]; cbn [app lex].
    + rewrite !decide_True by done. rewrite IH, <- app_assoc. done.
    + rewrite decide_False by done. rewrite IH, <- app_assoc. done.
Qed.

Lemma lexes_quoted q s : is_quote q = true -> lexes false (quoted q s) [TQuoted q (bytes s)].
Proof.
  intros Hq rest Hr. unfold quoted. rewrite bytes_str_of, <- app_comm_cons, <- app_assoc. cbn [lex].
  rewrite Hq. by apply lex_quoted_body, Hr.
Qed.

Lemma lexes_raw s : forallb (fun c => negb (is_quote c)) (bytes s) = true -> lexes true s (raw s).
Proof.
  intros H rest _. unfold raw. induction (bytes s) as [|c l IH]; [done|]. cbn in H.
  apply andb_true_iff in H as [Hc Hl]. rewrite fmap_cons. cbn [app lex].
  rewrite negb_true_iff in Hc. rewrite Hc. f_equal. by apply IH.
Qed.

Lemma lexes_weaken s ts : lexes true s ts -> lexes false s ts.
Proof. intros H rest _. by apply H. Qed.

(** A strong fragment, then anything. *)
Lemma lexes_app b s1 s2 t1 t2 : lexes true s1 t1 -> lexes b s2 t2 -> lexes b (s1 +:+ s2) (t1 ++ t2).
Proof.
  intros H1 H2 rest Hr. rewrite bytes_app, <- app_assoc, H1 by done. by rewrite H2, app_assoc.
Qed.

(** Any fragment, then one that does not begin with a quote. *)
Lemma lexes_app_weak b s1 s2 t1 t2 :
  lexes false s1 t1 -> lexes b s2 t2 -> (exists c l, bytes s2 = c :: l /\ is_quote c = false) ->
  lexes b (s1 +:+ s2) (t1 ++ t2).
Proof.
  intros H1 H2 (c & l & Hb & Hc) rest Hr. rewrite bytes_app, <- app_assoc, H1.
  - by rewrite H2, app_assoc.
  - intros _. rewrite Hb. done.
Qed.

Lemma starts_raw c s t : is_quote c = false -> exists c' l, bytes (String c s +:+ t) = c' :: l /\ is_quote c' = false.
Proof. intros H. rewrite bytes_app. by exists c, (bytes s ++ bytes t). Qed.

Lemma lexes_join c sep ss tss :
  is_quote c = false -> forallb (fun c => negb (is_quote c)) (bytes (String c sep)) = true ->
  Forall2 (lexes false) ss tss -> lexes false (join (String c sep) ss) (sep_tokens (String c sep) tss).
Proof.
  intros Hc Hs H. induction H as [|s ts ss tss Hp Hl IH]; [by intros rest _|].
  destruct Hl as [|s' ts' ss tss Hp' Hl]; [exact Hp|].
  change (lexes false (s +:+ String c sep +:+ join (String c sep) (s' :: ss))
    (ts ++ raw (String c sep) ++ sep_tokens (String c sep) (ts' :: tss))).
  apply lexes_app_weak; [exact Hp| |by apply starts_raw]. apply lexes_app; [by apply lexes_raw|exact IH].
Qed.

Lemma lexes_ident s : lexes false (quote_ident s) (ident_token s).
Proof. by apply lexes_quoted. Qed.

Lemma lexes_cell c s : render_cell c = Ok s -> lexes false s (cell_tokens c).
Proof.
  destruct c as [|v|]; cbn; [intros [= <-]|destruct (utf8_valid v); [intros [= <-]|done]|done].
  - by apply lexes_weaken, lexes_raw.
  - pose proof (lexes_quoted "039"%char (str_of v) eq_refl) as H. by rewrite bytes_str_of in H.
Qed.

Lemma lexes_qualified b r s ts :
  lexes b s ts -> (exists c l, bytes s = c :: l /\ is_quote c = false) ->
  lexes b (qualified r +:+ s) (qualified_tokens r ++ ts).
Proof.
  intros Hs Hh. apply lexes_app_weak; [|done|done].
  apply lexes_app_weak; [apply lexes_ident| |by apply (starts_raw "."%char)].
  apply lexes_app; [by apply lexes_raw|apply lexes_ident].
Qed.

Lemma lexes_equals name c s : render_cell c = Ok s -> lexes false (quote_ident name +:+ " = " +:+ s) (equals_tokens name c).
Proof.
  intros H. apply lexes_app_weak; [apply lexes_ident| |by apply (starts_raw " "%char)].
  apply lexes_app; [by apply lexes_raw|by apply lexes_cell].
Qed.

Lemma lexes_all s ts : lexes false s ts -> lex None (bytes s) = ts.
Proof. intros H. rewrite <- (app_nil_r (bytes s)), H by done. apply app_nil_r. Qed.

Lemma build_insert_lexes r values sql :
  build_insert r values = Ok sql -> lexes false sql (insert_tokens r values).
Proof.
  unfold build_insert. intros H. destruct (check_len r values); [|done]. cbn [mbind result_bind] in H.
  destruct (mapM render_cell values) as [rendered|] eqn:E; [|done]. injection H as <-. apply mapM_Ok in E.
  apply lexes_app; [by apply lexes_raw|]. apply lexes_qualified; [|by apply (starts_raw " "%char)].
  apply lexes_app; [by apply lexes_raw|]. apply lexes_app_weak; [| |by apply (starts_raw ")"%char)].
  { apply lexes_join; [done|done|]. apply Forall2_fmap, Forall_Forall2_diag, Forall_true. apply lexes_ident. }
  apply lexes_app; [by apply lexes_raw|]. apply lexes_app_weak; [|by apply lexes_weaken, lexes_raw|by eexists _, _].
  apply lexes_join; [done|done|]. apply Forall2_fmap_r, Forall2_flip. eapply Forall2_impl; [exact E|].
  intros c s Hs. by apply lexes_cell.
Qed.

Lemma build_where_lexes r key_source sql :
  build_where r key_source = Ok sql -> lexes false sql (where_tokens r key_source).
Proof.
  unfold build_where. intros H. destruct (negb _); [done|]. destruct (_ =? _)%nat; [done|].
  destruct (mapM (key_condition r key_source) (ri_key_columns r)) as [cs|] eqn:E; [|done].
  injection H as <-. apply mapM_Ok in E. apply lexes_join; [done|done|].
  apply Forall2_fmap_r, Forall2_flip. eapply Forall2_impl; [exact E|]. cbn beta. intros i s Hs.
  unfold key_condition in Hs. destruct (key_source !! i) as [c|]; [|done].
  destruct c as [|v|]; try done. destruct (ri_columns r !! i) as [name|]; [|done].
  destruct (render_cell (CText v)) as [s'|] eqn:Er; [|done]. injection Hs as <-. by apply lexes_equals.
Qed.

Lemma assignments_shipped name columns c new :
  c <> CUnchanged ->
  assignments (name :: columns) (c :: new)
    = (v ← render_cell c; rest ← assignments columns new; mret ((quote_ident name +:+ " = " +:+ v) :: rest))
  /\ set_tokens (name :: columns) (c :: new) = equals_tokens name c :: set_tokens columns new.
Proof. by destruct c. Qed.

Lemma assignments_lexes columns new ss :
  assignments columns new = Ok ss -> Forall2 (lexes false) ss (set_tokens columns new).
Proof.
  revert new ss. induction columns as [|name columns IH]; intros new ss H; [injection H as <-; constructor|].
  destruct new as [|c new]; [injection H as <-; constructor|].
  assert (c = CUnchanged \/ c <> CUnchanged) as [->|Hc] by (destruct c; auto); [by apply IH|].
  destruct (assignments_shipped name columns c new Hc) as [E ->]. rewrite E in H.
  destruct (render_cell c) as [v|] eqn:Er; [|done]. cbn [mbind result_bind] in H.
  destruct (assignments columns new) as [rest|] eqn:Ea; [|done]. injection H as <-.
  constructor; [by apply lexes_equals|by apply IH].
Qed.

(** replicated data cannot change the SQL it is applied with. However the names
    and values of a change are spelled, PostgreSQL reads the statement built for
    it as the fixed text of that statement with each identifier and value as one
    quoted token whose content is exactly the name or value. *)
Theorem statements_quote_data r key_source new sql :
  (build_insert r new = Ok sql -> lex None (bytes sql) = insert_tokens r new) /\
  (build_update r key_source new = Ok (Some sql) -> lex None (bytes sql) = update_tokens r key_source new) /\
  (build_delete r key_source = Ok sql -> lex None (bytes sql) = delete_tokens r key_source).
Proof.
  split; [intros H; by apply lexes_all, build_insert_lexes|]. split.
  - unfold build_update. intros H. destruct (check_len r key_source); [|done].
    cbn [mbind result_bind] in H. destruct (check_len r new); [|done]. cbn [mbind result_bind] in H.
    destruct (assignments _ _) as [[|s ss]|] eqn:E; [done| |done]. cbn [mbind result_bind] in H.
    destruct (build_where _ _) as [w|] eqn:Ew; [|done]. injection H as <-. apply lexes_all.
    apply lexes_app; [by apply lexes_raw|]. apply lexes_qualified; [|by apply (starts_raw " "%char)].
    apply lexes_app; [by apply lexes_raw|]. apply lexes_app_weak; [| |by apply (starts_raw " "%char)].
    + apply (lexes_join ","%char " " (s :: ss)); [done|done|by apply assignments_lexes].
    + apply lexes_app; [by apply lexes_raw|by apply build_where_lexes].
  - unfold build_delete. intros H. destruct (check_len r _); [|done]. cbn [mbind result_bind] in H.
    destruct (build_where _ _) as [w|] eqn:Ew; [|done]. injection H as <-. apply lexes_all.
    apply lexes_app; [by apply lexes_raw|]. apply lexes_qualified; [|by apply (starts_raw " "%char)].
    apply lexes_app; [by apply lexes_raw|by apply build_where_lexes].
Qed.

(** ** Index safety *)

Lemma key_column_indices_bound columns : Forall (fun i => (i < length columns)%nat) (key_column_indices columns).
Proof.
  unfold key_column_indices. apply Forall_fmap, Forall_forall. intros [i c] Hi. cbn.
  apply elem_of_filter_b in Hi as [Hi _]. apply list_elem_of_lookup in Hi as [j Hj].
  rewrite list_lookup_imap in Hj. apply fmap_Some in Hj as (c' & Hc & [= -> ->]). by eapply lookup_lt_Some.
Qed.

Lemma bind_no_panic {A B} (p : result ApplyError A) (f : A -> result ApplyError B) :
  p <> Err APanic -> (forall x, p = Ok x -> f x <> Err APanic) -> p ≫= f <> Err APanic.
Proof. destruct p as [x|e]; cbn; [intros _ H; by apply H|congruence]. Qed.

Lemma mapM_no_panic {A B} (f : A -> result ApplyError B) l :
  (forall x, x ∈ l -> f x <> Err APanic) -> mapM f l <> Err APanic.
Proof.
  induction l as [|x l IH]; intros Hf; [done|]. simpl. apply bind_no_panic; [apply Hf; left|intros y _].
  apply bind_no_panic; [|done]. apply IH. intros z Hz. apply Hf. by right.
Qed.

Lemma render_no_panic c : render_cell c <> Err APanic.
Proof. destruct c as [|v|]; cbn; [done| |done]. by destruct (utf8_valid v). Qed.

Lemma check_len_no_panic r cells : check_len r cells <> Err APanic.
Proof. unfold check_len. by destruct (_ =? _)%nat. Qed.

Lemma check_len_Ok r cells u : check_len r cells = Ok u -> length cells = length (ri_columns r).
Proof. unfold check_len. by destruct (Nat.eqb_spec (length cells) (length (ri_columns r))). Qed.

Lemma build_where_no_panic r key_source :
  relation_wf r -> length key_source = length (ri_columns r) -> build_where r key_source <> Err APanic.
Proof.
  intros Hr Hl. unfold build_where. destruct (negb _); [done|]. destruct (_ =? _)%nat; [done|].
  apply bind_no_panic; [|done]. apply mapM_no_panic. intros i Hi.
  unfold relation_wf in Hr. rewrite Forall_forall in Hr. specialize (Hr i Hi).
  unfold key_condition. destruct (lookup_lt_is_Some_2 key_source i ltac:(lia)) as [c ->].
  destruct (lookup_lt_is_Some_2 _ _ Hr) as [n ->]. destruct c as [|v|]; try done.
  apply bind_no_panic; [apply render_no_panic|done].
Qed.

Lemma assignments_no_panic columns new : assignments columns new <> Err APanic.
Proof.
  revert new. induction columns as [|name columns IH]; intros [|c new]; [done..|].
  assert (c = CUnchanged \/ c <> CUnchanged) as [->|Hc] by (destruct c; auto); [apply IH|].
  destruct (assignments_shipped name columns c new Hc) as [-> _].
  apply bind_no_panic; [apply render_no_panic|intros v _]. by apply bind_no_panic; [apply IH|].
Qed.

Lemma change_no_panic relations c :
  (forall oid r, relations !! oid = Some r -> relation_wf r) -> change_statements relations c <> Err APanic.
Proof.
  intros Hr. destruct c as [oid new|oid key new|oid key]; cbn [change_statements];
    (apply bind_no_panic; [unfold relation_of; by destruct (relations !! oid)|]; intros r Hoid;
     assert (relation_wf r) as Hw
       by (apply (Hr oid); unfold relation_of in Hoid; destruct (relations !! oid); [by injection Hoid as ->|done])).
  - apply bind_no_panic; [|done]. apply bind_no_panic; [apply check_len_no_panic|intros _ _].
    apply bind_no_panic; [|done]. apply mapM_no_panic. intros c _. apply render_no_panic.
  - apply bind_no_panic; [|done]. apply bind_no_panic; [apply check_len_no_panic|intros _ Hl%check_len_Ok].
    apply bind_no_panic; [apply check_len_no_panic|intros _ _]. apply bind_no_panic; [apply assignments_no_panic|].
    intros [|s ss] _; [done|]. apply bind_no_panic; [by apply build_where_no_panic|done].
  - apply bind_no_panic; [|done]. apply bind_no_panic; [apply check_len_no_panic|intros _ Hl%check_len_Ok].
    apply bind_no_panic; [by apply build_where_no_panic|done].
Qed.

Lemma change_of_no_panic msg c : change_of msg = Some c -> c <> Err APanic.
Proof.
  assert (forall t, tuple_cells t <> Err APanic) as Ht.
  { intros t. apply mapM_no_panic. by intros [] _. }
  destruct msg; try done; cbn [change_of]; intros [= <-];
    (apply bind_no_panic; [repeat case_match; try done; apply Ht|try done]).
  intros k _. apply bind_no_panic; [apply Ht|done].
Qed.

Section safety.
  Context `{TT : Target}.

Lemma statements_no_panic relations pending :
  (forall oid r, relations !! oid = Some r -> relation_wf r) -> statements relations pending <> Err APanic.
Proof.
  intros Hr. induction pending as [|c pending IH]; [done|]. cbn [statements].
  apply bind_no_panic; [by apply change_no_panic|intros s _]. by apply bind_no_panic.
Qed.

Lemma run_statements_no_panic stmts rows : run_statements stmts rows <> Err APanic.
Proof.
  revert rows. induction stmts as [|sql stmts IH]; intros rows; [done|]. cbn [run_statements].
  destruct (exec_sql sql rows) as [[n rows']|e]; cbn; [|done]. destruct (n =? 1); cbn; [apply IH|done].
Qed.

Lemma apply_txn_no_panic fault a stmts commit_lsn end_lsn db : apply_txn fault a stmts commit_lsn end_lsn db <> Err APanic.
Proof.
  unfold apply_txn, advance_progress.
  destruct fault; [|done|..]; (apply bind_no_panic; [apply run_statements_no_panic|intros rows _]);
    repeat case_match; simplify_eq; done.
Qed.

Lemma commit_no_panic fault commit_lsn end_lsn (a : Applier) db :
  (forall oid i, ap_relations a !! oid = Some i -> relation_wf i) ->
  (commit fault commit_lsn end_lsn a db).2 <> Err APanic
  /\ ap_relations (commit fault commit_lsn end_lsn a db).1.1 = ap_relations a.
Proof.
  intros Hr. unfold commit. destruct (_ <=? _); [done|].
  destruct (statements _ _) as [stmts|e] eqn:E.
  - destruct (apply_txn _ _ _ _ _ _) as [db'|e] eqn:E1; [by destruct fault|]. split; [|done]. cbn.
    intros [= ->]. by apply (apply_txn_no_panic fault a stmts commit_lsn end_lsn db).
  - split; [|done]. cbn. intros [= ->]. by apply (statements_no_panic _ (ap_pending a) Hr).
Qed.

(** no stream can make the applier index out of range: the key columns it
    records are columns of the relation, and every message is then either handled
    or refused with an error, never by a panic. *)
Theorem handle_never_panics fault msg a db a' db' r :
  (forall oid i, ap_relations a !! oid = Some i -> relation_wf i) -> handle fault msg a db = (a', db', r) ->
  (forall oid i, ap_relations a' !! oid = Some i -> relation_wf i) /\ r <> Err APanic.
Proof.
  intros Hr H. pose proof (change_of_no_panic msg) as Hc.
  destruct msg; cbn [handle] in H; try (injection H as <- <- <-; done).
  - pose proof (commit_no_panic fault (cm_commit_lsn m) (cm_end_lsn m) a db Hr) as [H1 H2].
    rewrite H in H1, H2. cbn in H1, H2. by rewrite H2.
  - injection H as <- <- <-. split; [|done]. cbn [ap_relations]. intros oid i.
    rewrite lookup_insert_Some. intros [[_ <-]|[_ ?]]; [|by eapply Hr].
    unfold relation_wf, relation_info. cbn. rewrite length_fmap. apply key_column_indices_bound.
  - destruct (change_of _) as [[c|e]|]; injection H as <- <- <-; [done| |done]. split; [done|naive_solver].
  - destruct (change_of _) as [[c|e]|]; injection H as <- <- <-; [done| |done]. split; [done|naive_solver].
  - destruct (change_of _) as [[c|e]|]; injection H as <- <- <-; [done| |done]. split; [done|naive_solver].
Qed.

End safety.

(** ** A concrete target

    A target that appends each statement to its log: one row per statement. *)
#[local] Instance log_target : Target := {| Rows := list string; exec_sql sql rows := Ok (1, rows ++ [sql]) |}.

Definition orders_relation : Relation :=
  mkRelation None 16400 "public" "orders" "d"%char
    [mkRelationColumn "001"%char "id" 23 (-1); mkRelationColumn "000"%char "note" 25 (-1)].

Definition insert_order : LogicalRepMsg := MInsert (mkInsert None 16400 [TCText ["5"%char]; TCNull]).

Definition one_txn : list Txn :=
  [mkTxn [str_of (bytes "INSERT INTO " ++ bytes (quote_ident "public") ++ bytes "." ++ bytes (quote_ident "orders")
    ++ bytes " (" ++ bytes (quote_ident "id") ++ bytes ", " ++ bytes (quote_ident "note") ++ bytes ") VALUES ('5', NULL)")]
    100 120].

Lemma one_txn_wf : log_wf one_txn.
Proof.
  split.
  - intros [|i] t; [|done]. intros [= <-]. cbn. unfold i64_MAX. lia.
  - intros [|i] t u; [|done]. done.
Qed.

Definition fresh_db : Db := mkDb [] ∅.

(** The target after the transaction. *)
Definition applied_db : Db :=
  mkDb (concat (map tx_stmts one_txn)) (<["seed" := (100, 120)]> ∅).

Definition one_applier : Applier := mkApplier ∅ "seed" 0 0 [].

Lemma describes_one t : one_txn !! 0%nat = Some t -> describes [MRelation orders_relation; insert_order] t one_applier fresh_db.
Proof.
  intros [= <-]. split; [by repeat constructor|]. intros b a' stmts H. cbn in H. injection H as <-. vm_compute.
  by intros [= <-].
Qed.

Lemma exactly_once_witness :
  exists k, holds_prefix one_txn "seed" [] k applied_db /\ 120 <= end_at one_txn k /\
    forall id w, ({[ 1%nat := mkWorker (mkApplier {[ 16400 := relation_info orders_relation ]} "seed" 100 120 []) 1 ]}
      : gmap nat Worker) !! id = Some w -> (wk_next w <= k)%nat.
Proof.
  apply (exactly_once one_txn "seed" fresh_db (mkStream applied_db 120 _)); [apply one_txn_wf|reflexivity|].
  eapply rtc_l; [apply (ss_start _ _ 1 0 Started one_applier); [reflexivity|lia|cbn; lia|reflexivity]|].
  eapply rtc_l.
  { eapply (ss_deliver _ _ 1 NoFault _ _ (mkBegin 0 0 7) _ 0); [reflexivity|reflexivity|by apply describes_one|].
    vm_compute. reflexivity. }
  eapply rtc_l; [by apply (ss_confirm _ _ 1)|]. apply rtc_refl.
Defined.

Lemma stale_commit_refused_witness :
  exists err, commit NoFault 100 120 one_applier applied_db = (one_applier, applied_db, Err err).
Proof.
  apply (stale_commit_refused NoFault 100 120 one_applier applied_db 100 120); [reflexivity|vm_compute; discriminate|reflexivity].
Defined.

Lemma handle_never_panics_witness :
  let a := mkApplier {[ 16400 := relation_info orders_relation ]} "seed" 0 0 [] in
  (forall oid i, ap_relations (push_pending (PInsert 16400 [CText ["5"%char]; CNull]) a) !! oid = Some i -> relation_wf i)
  /\ Ok tt <> Err APanic.
Proof.
  intros a. apply (handle_never_panics NoFault insert_order a fresh_db _ fresh_db (Ok tt)); [|reflexivity].
  intros oid i Hi. cbn [ap_relations a] in Hi. apply lookup_singleton_Some in Hi as [_ <-]. vm_compute. repeat constructor.
Defined.

(** A relation redefined inside a transaction is the one its earlier changes are
    rendered with: after the columns of the table exchange their names, a row
    inserted before the exchange has its values under the wrong names. *)
Example relation_redefined_mid_transaction :
  let renamed := mkRelation None 16400 "public" "orders" "d"%char
    [mkRelationColumn "001"%char "note" 23 (-1); mkRelationColumn "000"%char "id" 25 (-1)] in
  let row := MInsert (mkInsert None 16400 [TCText ["5"%char]; TCText ["6"%char]]) in
  let sent := [MBegin (mkBegin 0 0 7); MRelation orders_relation; row; MRelation renamed] in
  let a := (handle_all NoFault sent one_applier fresh_db).1.1 in
  let order := [CText ["5"%char]; CText ["6"%char]] in
  statements (ap_relations a) (ap_pending a) = (sql ← build_insert (relation_info renamed) order; mret [sql])
  /\ build_insert (relation_info renamed) order <> build_insert (relation_info orders_relation) order.
Proof. vm_compute. done. Qed.
