(* ===== verification/Seeding.v ===== *)
(** * The seeding worker

    [src/crates/pgshard-agent/src/workflow.rs], the task that [StartWorkflow] spawns:
    the preflight, the initial copy under the slot's snapshot, and the loop that
    filters the slot's changes into the applier. The catalogs of the two databases
    and the outcomes of the commands are parameters; the actions are recorded in
    order. *)

From S2P Require Import Prelude Rust Keyspace ShardFn Lsn PgOutput Stream Client Workflow Filter Copy Apply.

Open Scope Z_scope.

(** ** Failures *)

(** The worker's [anyhow] errors, one constructor per check. *)
Inductive Failure :=
| FSql (e : string)
| FNoPublication | FBadXid | FBadXmin
| FProvenance (found : option string)
| FKindsDisabled | FViaPartitionRoot | FPublishesGenerated | FAllTables | FTablesInSchema
| FNotPublished (schema name : string) | FUnmapped (schema name : string)
| FRowFilter (schema name : string) | FColumnList (schema name : string)
| FNoSourceTable | FSourceNotPlain | FSourceGenerated (column : string)
| FNoTargetTable | FTargetNotPlain | FExtraColumn (column : string) | FMissingColumn (column : string)
| FCustomType (column : string) | FTypeDiffers (column : string) | FTargetGenerated (column : string)
| FIdentityAlways (column : string)
| FNoKeyColumn (column : string) | FKeyType (oid : Z) | FIdentityUncovered | FBadReplicaIdentity (c : ascii)
| FShardFunction
| FSlotActive | FSlotForeign (plugin database : option string)
| FClient (e : ClientError) | FCreateSlot (e : ClientError)
| FClearCheckpoint (e : string)
| FCopy (e : CopyError)
| FApplier (e : ApplyError)
| FPublicationChanged | FXidsConsumed
| FStreamEnded | FDecode (e : DecodeError)
| FUnmappedStream (schema name : string) | FFilter (e : FilterError)
| FStreamKeyType (oid : Z) | FStreamIdentity
| FUnknownRelation (oid : Z) | FCrossesBoundary | FDeleteWithoutKey | FTruncate.

Definition sql {A} (r : result string A) : result Failure A := map_err FSql r.

(** A [for] loop of checks. *)
Fixpoint check_all {A} (f : A -> result Failure unit) (l : list A) : result Failure unit :=
  match l with [] => Ok tt | x :: l' => _ ← f x; check_all f l' end.

(** ** The publication *)

Record PublishedTable := mkPublishedTable {
  pt_schema : string; pt_name : string; pt_columns : list string; pt_has_column_list : bool; pt_has_row_filter : bool;
}.

Record PublicationShape := mkPublicationShape {
  ps_insert : bool; ps_update : bool; ps_delete : bool; ps_truncate : bool; ps_via_partition_root : bool;
  ps_publishes_generated : bool; ps_all_tables : bool;
  ps_versions : list (Z * Z * string); ps_tables : list PublishedTable;
}.

#[export] Instance PublishedTable_eq_dec : EqDecision PublishedTable.
Proof. solve_decision. Defined.
#[export] Instance PublicationShape_eq_dec : EqDecision PublicationShape.
Proof. solve_decision. Defined.

Record PublicationBaseline := mkBaseline { pb_shape : PublicationShape; pb_xid : Z; pb_horizon : Z }.

(** The source's answers to the three catalog queries: the publication's flags and
    the current transaction id, the versions of its rows, and its tables. *)
Record PublicationRow := mkPublicationRow {
  pr_insert : bool; pr_update : bool; pr_delete : bool; pr_truncate : bool; pr_viaroot : bool; pr_gencols : bool;
  pr_alltables : bool; pr_xid : string;
}.

Record PublicationAnswers := mkPublicationAnswers {
  an_row : result string (option PublicationRow);
  an_versions : result string (list (Z * Z * string));
  an_tables : result string (list (string * string * option (list string) * option bool * option bool));
}.

Definition published_table (r : string * string * option (list string) * option bool * option bool) : PublishedTable :=
  let '(schema, name, columns, column_list, row_filter) := r in
  mkPublishedTable schema name (default [] columns) (default false column_list) (default false row_filter).

Definition fetch_publication (a : PublicationAnswers) : result Failure PublicationBaseline :=
  o ← sql (an_row a);
  row ← ok_or FNoPublication o;
  xid ← ok_or FBadXid (from_str_radix_unsigned 10 u64_MAX (bytes (pr_xid row)));
  versions ← sql (an_versions a);
  tables ← sql (an_tables a);
  horizon ← ok_or FBadXmin (xid_recurrence_horizon xid versions);
  mret (mkBaseline
    (mkPublicationShape (pr_insert row) (pr_update row) (pr_delete row) (pr_truncate row) (pr_viaroot row) (pr_gencols row)
       (pr_alltables row) versions (published_table <$> tables)) xid horizon).

(** ** The preflight *)

Record SqlColumn := mkSqlColumn {
  sc_name : string; sc_type_oid : Z; sc_typmod : Z; sc_generated : bool; sc_identity : ascii; sc_relkind : ascii;
}.

(** What the preflight reads of the two databases. *)
Record Catalogs := mkCatalogs {
  ct_marker : result string (option string);
  ct_publication : PublicationAnswers;
  ct_source_columns : string -> string -> result string (list SqlColumn);
  ct_target_columns : string -> string -> result string (list SqlColumn);
  ct_replident : string -> string -> result string ascii;
  ct_identity_columns : string -> string -> bool -> result string (list string);
}.

Definition provenance_marker (expect : string) : string := "pgshard-provenance:" +:+ expect.

(** The checks on the publication as a whole. *)
Definition check_publication (run : RunPlan) (shape : PublicationShape) : result Failure unit :=
  _ ← ensure (ps_insert shape && ps_update shape && ps_delete shape && ps_truncate shape) FKindsDisabled;
  _ ← ensure (negb (ps_via_partition_root shape)) FViaPartitionRoot;
  _ ← ensure (negb (ps_publishes_generated shape)) FPublishesGenerated;
  _ ← ensure (negb (ps_all_tables shape)) FAllTables;
  _ ← ensure (forallb (fun v => negb (v.1.1 =? 2)) (ps_versions shape)) FTablesInSchema;
  _ ← check_all (fun t =>
        ensure (existsb (fun p => bool_decide (pt_schema p = tp_schema t) && bool_decide (pt_name p = tp_name t)) (ps_tables shape))
          (FNotPublished (tp_schema t) (tp_name t))) (rp_tables run);
  check_all (fun p =>
    _ ← ensure (existsb (fun t => bool_decide (tp_schema t = pt_schema p) && bool_decide (tp_name t = pt_name p)) (rp_tables run))
          (FUnmapped (pt_schema p) (pt_name p));
    _ ← ensure (negb (pt_has_row_filter p)) (FRowFilter (pt_schema p) (pt_name p));
    ensure (negb (pt_has_column_list p)) (FColumnList (pt_schema p) (pt_name p))) (ps_tables shape).

(** One source column against the target's. *)
Definition check_column (tgt : list SqlColumn) (c : SqlColumn) : result Failure unit :=
  t ← ok_or (FMissingColumn (sc_name c)) (find_first (fun t => bool_decide (sc_name t = sc_name c)) tgt);
  _ ← ensure ((sc_type_oid c <? 16384) && (sc_type_oid t <? 16384)) (FCustomType (sc_name c));
  _ ← ensure ((sc_type_oid t =? sc_type_oid c) && (sc_typmod t =? sc_typmod c)) (FTypeDiffers (sc_name c));
  _ ← ensure (negb (sc_generated t)) (FTargetGenerated (sc_name c));
  ensure (negb (bool_decide (sc_identity t = "a"%char))) (FIdentityAlways (sc_name c)).

(** [src[0].relkind == 'r'], for a non-empty list. *)
Definition is_plain_table (cols : list SqlColumn) : bool :=
  match cols with c :: _ => bool_decide (sc_relkind c = "r"%char) | [] => false end.

Definition check_identity (ct : Catalogs) (table : TablePlan) : result Failure unit :=
  replident ← sql (ct_replident ct (tp_schema table) (tp_name table));
  if bool_decide (replident = "d"%char) || bool_decide (replident = "i"%char) then
    cols ← sql (ct_identity_columns ct (tp_schema table) (tp_name table) (bool_decide (replident = "i"%char)));
    ensure (bool_decide (tp_shard_key_column table ∈ cols)) FIdentityUncovered
  else Err (FBadReplicaIdentity replident).

(** One table: the columns of the copy. *)
Definition preflight_table (ct : Catalogs) (table : TablePlan) : result Failure (list string) :=
  src ← sql (ct_source_columns ct (tp_schema table) (tp_name table));
  _ ← ensure (negb (bool_decide (length src = O))) FNoSourceTable;
  _ ← ensure (is_plain_table src) FSourceNotPlain;
  _ ← check_all (fun c => ensure (negb (sc_generated c)) (FSourceGenerated (sc_name c))) src;
  tgt ← sql (ct_target_columns ct (tp_schema table) (tp_name table));
  _ ← ensure (negb (bool_decide (length tgt = O))) FNoTargetTable;
  _ ← ensure (is_plain_table tgt) FTargetNotPlain;
  _ ← check_all (fun t => ensure (existsb (fun c => bool_decide (sc_name c = sc_name t)) src) (FExtraColumn (sc_name t))) tgt;
  _ ← check_all (check_column tgt) src;
  key ← ok_or (FNoKeyColumn (tp_shard_key_column table))
          (find_first (fun c => bool_decide (sc_name c = tp_shard_key_column table)) src);
  _ ← ensure (bool_decide (sc_type_oid key ∈ allowed_key_oids (tp_shard_key_type table))) (FKeyType (sc_type_oid key));
  _ ← check_identity ct table;
  mret (sc_name <$> src).

Definition preflight (ct : Catalogs) (run : RunPlan) : result Failure (list (list string) * PublicationBaseline) :=
  marker ← sql (ct_marker ct);
  _ ← ensure (bool_decide (marker = Some (provenance_marker (rp_expect_provenance run)))) (FProvenance marker);
  baseline ← fetch_publication (ct_publication ct);
  _ ← check_publication run (pb_shape baseline);
  plans ← mapM (preflight_table ct) (rp_tables run);
  mret (plans, baseline).

(** ** The seed: INIT and COPY *)

Record CopyProgress := mkCopyProgress { cp_tables_total : Z; cp_tables_done : Z; cp_rows_copied : Z }.

Record WorkflowStatus := mkWorkflowStatus {
  wst_id : string; wst_phase : WorkflowPhase; wst_copy : option CopyProgress;
  wst_applied_lsn : option Lsn; wst_journal_lsn : option Lsn;
}.

Definition set_phase (ph : WorkflowPhase) (s : WorkflowStatus) : WorkflowStatus :=
  mkWorkflowStatus (wst_id s) ph (wst_copy s) (wst_applied_lsn s) (wst_journal_lsn s).
Definition set_copy (ph : WorkflowPhase) (p : CopyProgress) (s : WorkflowStatus) : WorkflowStatus :=
  mkWorkflowStatus (wst_id s) ph (Some p) (wst_applied_lsn s) (wst_journal_lsn s).

(** What the seed does to the two databases, in order. *)
Inductive SeedAction :=
| ADropSlot (slot : string)
| ACreateSlot (slot : string)
| AClearCheckpoint (consumer : string)
| ATruncate (table : string)
| ACopyTable (schema name : string) (copied : Copied)
| AStartReplication (slot publication : string).

Record SlotInfo := mkSlotInfo { si_active : bool; si_plugin : option string; si_database : option string }.

(** The outcomes of the seed's commands: [None] is success. [en_clear] is the SQLSTATE
    and text of a failure; [en_stop] is the stop flag read before a table. *)
Record Env := mkEnv {
  en_source : option string;
  en_target : option string;
  en_catalogs : Catalogs;
  en_slot : result string (option SlotInfo);
  en_drop : option string;
  en_tcp : result string (list NetEvent * list (option string));
  en_clear : option (string * string);
  en_stop : nat -> bool;
  en_truncate : string -> option string;
  en_copy : string -> string -> Connections;
}.

Record SeedState := mkSeedState { sd_status : WorkflowStatus; sd_actions : list SeedAction }.

#[global] Abbreviation Seed := (St SeedState Failure).

Definition send_modify (f : WorkflowStatus -> WorkflowStatus) : Seed unit :=
  modify (fun s => mkSeedState (f (sd_status s)) (sd_actions s)).
Definition record_action (a : SeedAction) : Seed unit := modify (fun s => mkSeedState (sd_status s) (sd_actions s ++ [a])).

(** A command: it is sent, then its outcome is known. *)
Definition command (a : SeedAction) (outcome : option string) : Seed unit :=
  _ ← record_action a;
  match outcome with Some e => throw (FSql e) | None => mret tt end.

Definition quote_ident (ident : string) : string := quoted "034"%char ident.

Definition qualified_name (t : TablePlan) : string := quote_ident (tp_schema t) +:+ "." +:+ quote_ident (tp_name t).

(** SQLSTATEs of a missing table and a missing schema. *)
Definition UNDEFINED_TABLE : string := "42P01".
Definition INVALID_SCHEMA_NAME : string := "3F000".

Section seed.
  Context `{XxHash} `{Protocol} (run : RunPlan) (env : Env).

(** A pre-existing slot is dropped when it is the workflow's own and not in use. *)
Definition drop_stale_slot : Seed unit :=
  o ← lift (sql (en_slot env));
  match o with
  | None => mret tt
  | Some slot =>
      _ ← lift (ensure (negb (si_active slot)) FSlotActive);
      _ ← lift (ensure (bool_decide (si_plugin slot = Some "pgoutput")
                        && bool_decide (si_database slot = Some (cf_database (rp_source run))))
                  (FSlotForeign (si_plugin slot) (si_database slot)));
      command (ADropSlot (rp_slot run)) (en_drop env)
  end.

Definition clear_checkpoint : Seed unit :=
  _ ← record_action (AClearCheckpoint (rp_id run));
  match en_clear env with
  | Some (code, e) =>
      lift (ensure (bool_decide (code = UNDEFINED_TABLE) || bool_decide (code = INVALID_SCHEMA_NAME)) (FClearCheckpoint e))
  | None => mret tt
  end.

(** The loop over the tables; [false] when stopped. *)
Fixpoint copy_tables (snapshot : string) (shard_fn : ShardFunction) (done_ : nat) (tables : list (TablePlan * list string))
    (rows_copied : Z) : Seed bool :=
  match tables with
  | [] => mret true
  | (table, columns) :: tables' =>
      if en_stop env done_ then _ ← send_modify (set_phase PhaseStopped); mret false
      else
        _ ← command (ATruncate (qualified_name table)) (en_truncate env (qualified_name table));
        let spec := mkCopySpec (tp_schema table) (tp_name table) columns (tp_shard_key_column table) (tp_shard_key_type table)
                      (rp_range run) in
        let copied := copy_filtered (en_copy env (tp_schema table) (tp_name table)) snapshot spec shard_fn in
        _ ← record_action (ACopyTable (tp_schema table) (tp_name table) copied);
        n ← lift (map_err FCopy (co_result copied));
        let rows_copied := rows_copied + n in
        _ ← send_modify (set_copy PhaseCopy
               (mkCopyProgress (as_u32 (Z.of_nat (length (rp_tables run)))) (as_u32 (Z.of_nat done_) + 1) rows_copied));
        copy_tables snapshot shard_fn (S done_) tables' rows_copied
  end.

(** From the connections to the seeded tables: the replication connection with its
    stream started, the consistent point and the publication's baseline; [None] when
    stopped on the way. *)
Definition seed : Seed (option (ReplicationClient * Lsn * PublicationBaseline)) :=
  shard_fn ← lift (map_err (fun _ => FShardFunction) (shard_function (rp_hash_function run)));
  _ ← lift (match en_source env with Some e => Err (FSql e) | None => Ok tt end);
  _ ← lift (match en_target env with Some e => Err (FSql e) | None => Ok tt end);
  '(tables, publication) ← lift (preflight (en_catalogs env) run);
  _ ← drop_stale_slot;
  repl ← lift (map_err FClient (connect (rp_source run) (en_tcp env)));
  _ ← record_action (ACreateSlot (rp_slot run));
  match create_logical_slot_exported (rp_slot run) false repl with
  | (_, Err e) => throw (FCreateSlot e)
  | (repl, Ok (snapshot, consistent_point)) =>
      _ ← send_modify (set_copy PhaseCopy (mkCopyProgress (as_u32 (Z.of_nat (length (rp_tables run)))) 0 0));
      _ ← clear_checkpoint;
      going ← copy_tables snapshot shard_fn 0 (zip (rp_tables run) tables) 0;
      if negb (going : bool) then mret None
      else
        _ ← record_action (AStartReplication (rp_slot run) (rp_publication run));
        match start_replication (rp_slot run) (rp_publication run) repl with
        | (_, Err e) => throw (FClient e)
        | (repl, Ok _) => mret (Some (repl, consistent_point, publication))
        end
  end.

End seed.

(** ** The stream *)

(** The shard-key filter of a relation the stream describes. *)
Definition describe (run : RunPlan) (rel : Relation) : result Failure RelFilter :=
  table ← ok_or (FUnmappedStream (rl_namespace rel) (rl_name rel))
    (find_first (fun t => bool_decide (tp_schema t = rl_namespace rel) && bool_decide (tp_name t = rl_name rel)) (rp_tables run));
  key_index ← map_err FFilter (shard_key_index rel (tp_shard_key_column table));
  column ← ok_or (FFilter (NoShardKeyColumn (tp_shard_key_column table))) (rl_columns rel !! key_index);
  _ ← ensure (bool_decide (rc_type_oid column ∈ allowed_key_oids (tp_shard_key_type table))) (FStreamKeyType (rc_type_oid column));
  _ ← ensure ((bool_decide (rl_replica_identity rel = "d"%char) || bool_decide (rl_replica_identity rel = "i"%char))
              && is_key column) FStreamIdentity;
  mret (mkRelFilter key_index (tp_shard_key_type table)).

Section filter.
  Context `{XxHash} (run : RunPlan) (shard_fn : ShardFunction).

Definition filter_of (relations : gmap Oid RelFilter) (oid : Oid) : result Failure RelFilter :=
  ok_or (FUnknownRelation oid) (rel_filter relations oid).

Definition in_range (f : RelFilter) (tuple : TupleData) : result Failure bool :=
  map_err FFilter (tuple_in_range tuple (rf_key_index f) (rf_key_type f) shard_fn (rp_range run)).

(** What the loop does with a message before the applier sees it: the relations it
    knows, and whether the applier gets the message. *)
Definition keep_message (relations : gmap Oid RelFilter) (msg : LogicalRepMsg) : result Failure (gmap Oid RelFilter * bool) :=
  match msg with
  | MRelation rel => f ← describe run rel; mret (<[rl_oid rel := f]> relations, true)
  | MInsert ins =>
      f ← filter_of relations (in_rel_oid ins);
      kept ← in_range f (in_new_tuple ins);
      mret (relations, kept)
  | MUpdate upd =>
      f ← filter_of relations (up_rel_oid upd);
      new_in ← in_range f (up_new_tuple upd);
      _ ← match (match up_key upd with Some key => Some key | None => up_old upd end) with
          | Some old => old_in ← in_range f old; ensure (eqb old_in new_in) FCrossesBoundary
          | None => mret tt
          end;
      mret (relations, new_in)
  | MDelete del =>
      f ← filter_of relations (de_rel_oid del);
      tuple ← ok_or FDeleteWithoutKey (match de_key del with Some key => Some key | None => de_old del end);
      kept ← in_range f tuple;
      mret (relations, kept)
  | MTruncate _ => Err FTruncate
  | _ => mret (relations, true)
  end.

End filter.

(** The worker while streaming: its connection, its applier on the target, what it
    knows of the stream, the journal message of the transaction in progress, and its
    published status. *)
Record Streamer `{Target} := mkStreamer {
  sr_client : ReplicationClient; sr_applier : Applier; sr_db : Db; sr_decoder : PgOutputDecoder;
  sr_relations : gmap Oid RelFilter; sr_pending_journal : option Lsn; sr_status : WorkflowStatus;
}.
Arguments mkStreamer {_}.
Arguments sr_client {_}.
Arguments sr_applier {_}.
Arguments sr_db {_}.
Arguments sr_decoder {_}.
Arguments sr_relations {_}.
Arguments sr_pending_journal {_}.
Arguments sr_status {_}.

(** The branch of the [select!] that fires: the stream's next frame (and how a commit
    on the target fails, if it does), the recheck of the publication, or a change of
    the stop flag. *)
Inductive Choice := ChFrame (fault : Fault) | ChRecheck (answers : PublicationAnswers) | ChStop (stop : bool).

Section streaming.
  Context `{XxHash} `{Protocol} `{Target} (run : RunPlan) (shard_fn : ShardFunction) (publication : PublicationBaseline).

#[local] Abbreviation Streaming := (St Streamer Failure).

Definition with_client (f : ReplicationClient -> ReplicationClient) : Streaming unit := modify (fun s =>
  mkStreamer (f (sr_client s)) (sr_applier s) (sr_db s) (sr_decoder s) (sr_relations s) (sr_pending_journal s) (sr_status s)).

(** An operation of the connection. *)
Definition on_client {A} (op : Op A) : Streaming A := fun s =>
  let '(c, r) := op (sr_client s) in
  (mkStreamer c (sr_applier s) (sr_db s) (sr_decoder s) (sr_relations s) (sr_pending_journal s) (sr_status s), map_err FClient r).

Definition apply_message (fault : Fault) (msg : LogicalRepMsg) : Streaming unit := fun s =>
  let '(a, db, r) := handle fault msg (sr_applier s) (sr_db s) in
  (mkStreamer (sr_client s) a db (sr_decoder s) (sr_relations s) (sr_pending_journal s) (sr_status s), map_err FApplier r).

Definition decode_frame_data (data : list ascii) : Streaming LogicalRepMsg := fun s =>
  let '(d, r) := PgOutput.decode data (sr_decoder s) in
  (mkStreamer (sr_client s) (sr_applier s) (sr_db s) d (sr_relations s) (sr_pending_journal s) (sr_status s), map_err FDecode r).

(** A transactional message with the [pgshard] prefix is the cutover's barrier. *)
Definition note_journal (msg : LogicalRepMsg) : Streaming unit := modify (fun s =>
  match msg with
  | MMessage m =>
      if bool_decide (mg_prefix m = "pgshard") && mg_transactional m then
        mkStreamer (sr_client s) (sr_applier s) (sr_db s) (sr_decoder s) (sr_relations s) (Some (mg_lsn m)) (sr_status s)
      else s
  | _ => s
  end).

Definition set_relations (relations : gmap Oid RelFilter) : Streaming unit := modify (fun s =>
  mkStreamer (sr_client s) (sr_applier s) (sr_db s) (sr_decoder s) relations (sr_pending_journal s) (sr_status s)).

(** After a commit: acknowledge it to the slot and publish the new watermark. *)
Definition acknowledge : Streaming unit :=
  ack ← gets (fun s => ap_ack (sr_applier s));
  _ ← with_client (confirm ack);
  _ ← on_client send_standby_status;
  modify (fun s =>
    mkStreamer (sr_client s) (sr_applier s) (sr_db s) (sr_decoder s) (sr_relations s) None
      (mkWorkflowStatus (wst_id (sr_status s)) (wst_phase (sr_status s)) (wst_copy (sr_status s)) (Some ack)
         (match sr_pending_journal s with Some j => Some j | None => wst_journal_lsn (sr_status s) end))).

Definition on_message (fault : Fault) (msg : LogicalRepMsg) : Streaming unit :=
  _ ← note_journal msg;
  known ← gets sr_relations;
  '(relations, kept) ← lift (keep_message run shard_fn known msg);
  _ ← set_relations relations;
  _ ← (if kept : bool then apply_message fault msg else mret tt);
  match msg with MCommit _ => acknowledge | _ => mret tt end.

Definition recheck (answers : PublicationAnswers) : Streaming unit :=
  now ← lift (fetch_publication answers);
  _ ← lift (ensure (bool_decide (pb_shape now = pb_shape publication)) FPublicationChanged);
  lift (ensure (saturating_sub (pb_xid now) (pb_xid publication) <? pb_horizon publication) FXidsConsumed).

(** One turn of the loop; [true] when the worker stops. *)
Definition turn (ch : Choice) : Streaming bool :=
  match ch with
  | ChFrame fault =>
      o ← on_client next;
      match o with
      | None => throw FStreamEnded
      | Some x => msg ← decode_frame_data (xl_data x); _ ← on_message fault msg; mret false
      end
  | ChRecheck answers => _ ← recheck answers; mret false
  | ChStop false => mret false
  | ChStop true =>
      _ ← modify (fun s => mkStreamer (sr_client s) (sr_applier s) (sr_db s) (sr_decoder s) (sr_relations s) (sr_pending_journal s)
                             (set_phase PhaseStopped (sr_status s)));
      mret true
  end.

(** The turns of a run, up to a stop or a failure; [false] while it still runs. *)
Fixpoint turns (choices : list Choice) : Streaming bool :=
  match choices with
  | [] => mret false
  | ch :: choices' => stopped ← turn ch; if stopped : bool then mret true else turns choices'
  end.

(** The applier and the initial watermark, once the stream has started. *)
Definition start_streaming (repl : ReplicationClient) (consistent_point : Lsn) (startup : result string Startup)
    (status : WorkflowStatus) (db : Db) : result Failure Streamer :=
  su ← sql startup;
  applier ← map_err FApplier (new_applier su (rp_id run) db);
  mret (mkStreamer repl applier db (new_decoder 4) ∅ None
    (mkWorkflowStatus (wst_id status) PhaseStreaming (wst_copy status) (Some consistent_point) (wst_journal_lsn status))).

End streaming.

(** ** The whole task *)

Section task.
  Context `{XxHash} `{Protocol} `{Target}.

(** [run_workflow] up to the turns given, and the spawned task's handling of its
    error; the target after the copy is given. *)
Definition run_workflow (run : RunPlan) (env : Env) (startup : result string Startup) (db : Db) (choices : list Choice)
    : SeedState * option Streamer * result Failure bool :=
  let init := mkSeedState (mkWorkflowStatus (rp_id run) PhaseInit None None None) [] in
  match seed run env init with
  | (st, Err e) => (st, None, Err e)
  | (st, Ok None) => (st, None, Ok true)
  | (st, Ok (Some (repl, consistent_point, publication))) =>
      match shard_function (rp_hash_function run) with
      | Err _ => (st, None, Err FShardFunction)
      | Ok shard_fn =>
          match start_streaming run repl consistent_point startup (sd_status st) db with
          | Err e => (st, None, Err e)
          | Ok s => let '(s', r) := turns run shard_fn publication choices s in (st, Some s', r)
          end
      end
  end.

(** The status the task leaves. *)
Definition task_status (o : SeedState * option Streamer * result Failure bool) : WorkflowStatus :=
  let '(st, s, r) := o in
  let status := match s with Some s => sr_status s | None => sd_status st end in
  match r with Err _ => set_phase PhaseError status | Ok _ => status end.

End task.

(** ** Specification: the order of the seed *)

Section order.
  Context `{XxHash} (run : RunPlan) (env : Env).

Definition copied_table (snapshot : string) (shard_fn : ShardFunction) (p : TablePlan * list string) : Copied :=
  copy_filtered (en_copy env (tp_schema p.1) (tp_name p.1)) snapshot
    (mkCopySpec (tp_schema p.1) (tp_name p.1) p.2 (tp_shard_key_column p.1) (tp_shard_key_type p.1) (rp_range run)) shard_fn.

Definition table_actions (snapshot : string) (shard_fn : ShardFunction) (p : TablePlan * list string) : list SeedAction :=
  [ATruncate (qualified_name p.1); ACopyTable (tp_schema p.1) (tp_name p.1) (copied_table snapshot shard_fn p)].

(** A slot of that name that is the workflow's own and that nobody uses. *)
Definition own_stale (slot : SlotInfo) : bool :=
  negb (si_active slot) && bool_decide (si_plugin slot = Some "pgoutput")
  && bool_decide (si_database slot = Some (cf_database (rp_source run))).

(** The slot that is dropped, if any. *)
Definition dropped : list SeedAction :=
  match en_slot env with Ok (Some slot) => if own_stale slot then [ADropSlot (rp_slot run)] else [] | _ => [] end.

(** All that a seed does. *)
Definition seed_script (plans : list (list string)) (snapshot : string) (shard_fn : ShardFunction) : list SeedAction :=
  dropped ++ [ACreateSlot (rp_slot run); AClearCheckpoint (rp_id run)]
  ++ concat (table_actions snapshot shard_fn <$> zip (rp_tables run) plans)
  ++ [AStartReplication (rp_slot run) (rp_publication run)].

End order.

(** ** Lemmas: the seed *)

Lemma drop_in_script `{XxHash} run env plans snapshot shard_fn n :
  ADropSlot n ∈ seed_script run env plans snapshot shard_fn ->
  n = rp_slot run /\ exists slot, en_slot env = Ok (Some slot) /\ own_stale run slot = true.
Proof.
  unfold seed_script. rewrite !elem_of_app. intros [Hd|[Hd|[Hd|Hd]]].
  - unfold dropped in Hd. destruct (en_slot env) as [[slot|]|e]; [|by apply elem_of_nil in Hd..].
    destruct (own_stale run slot) eqn:Eo; [|by apply elem_of_nil in Hd]. apply list_elem_of_singleton in Hd as [= ->]. by eauto.
  - exfalso. set_solver.
  - exfalso. apply list_elem_of_In, in_concat in Hd as (l & Hl & Hd). apply list_elem_of_In, list_elem_of_fmap in Hl as (p & -> & _).
    apply list_elem_of_In in Hd. unfold table_actions in Hd. set_solver.
  - exfalso. set_solver.
Qed.

Lemma lift_Ok {S E A} (r : result E A) (s s' : S) a : lift r s = (s', Ok a) <-> r = Ok a /\ s' = s.
Proof. unfold lift. split; [by intros [= <- ->]|by intros [-> ->]]. Qed.

(** The actions of a computation extend those before it by a prefix of [script], and by
    all of it when it succeeds with a result that is [full]. *)
Definition follows {A} (m : Seed A) (script : list SeedAction) (full : A -> bool) : Prop := forall s s' r, m s = (s', r) ->
  exists l, sd_actions s' = sd_actions s ++ l /\ l `prefix_of` script /\ (forall a, r = Ok a -> full a = true -> l = script).

Definition always {A} : A -> bool := fun _ => true.

Lemma follows_bind_cut {A B} (m : Seed A) (f : A -> Seed B) l1 l2 full1 full2 :
  follows m l1 full1 -> (forall a, full1 a = true -> follows (f a) l2 full2) ->
  (forall a s s' r, full1 a = false -> f a s = (s', r) -> sd_actions s' = sd_actions s /\ forall b, r = Ok b -> full2 b = false) ->
  follows (m ≫= f) (l1 ++ l2) full2.
Proof.
  intros Hm Hf Hcut s s' r. rewrite bind_run. destruct (m s) as [s1 [a|e]] eqn:E; destruct (Hm _ _ _ E) as (k1 & Hk1 & Hp1 & Hok1).
  - intros Hr. destruct (full1 a) eqn:Ea.
    + destruct (Hf _ Ea _ _ _ Hr) as (k2 & Hk2 & Hp2 & Hok2). specialize (Hok1 a eq_refl Ea) as ->. exists (l1 ++ k2).
      rewrite Hk2, Hk1, app_assoc. split_and!; [done|by apply prefix_app|]. intros b Hb Hfull. by rewrite (Hok2 b Hb Hfull).
    + destruct (Hcut _ _ _ _ Ea Hr) as [Hsame Hnot]. exists k1. rewrite Hsame. split_and!; [done|by apply prefix_app_r|].
      intros b Hb Hfull. rewrite (Hnot b Hb) in Hfull. done.
  - intros [= <- <-]. exists k1. split_and!; [done|by apply prefix_app_r|done].
Qed.

Lemma follows_bind {A B} (m : Seed A) (f : A -> Seed B) l1 l2 full :
  follows m l1 always -> (forall a, follows (f a) l2 full) -> follows (m ≫= f) (l1 ++ l2) full.
Proof. intros Hm Hf. eapply follows_bind_cut; [exact Hm|intros a _; apply Hf|done]. Qed.

Lemma follows_quiet {A B} (m : Seed A) (f : A -> Seed B) l full :
  follows m [] always -> (forall a, follows (f a) l full) -> follows (m ≫= f) l full.
Proof. intros Hm Hf. change l with ([] ++ l). by apply follows_bind. Qed.

Lemma follows_lift {A} (r : result Failure A) full : follows (lift r) [] full.
Proof. intros s s' r' [= <- <-]. exists []. by rewrite app_nil_r. Qed.

Lemma follows_lift_bind {A B} (r : result Failure A) (f : A -> Seed B) l full :
  (forall a, r = Ok a -> follows (f a) l full) -> follows (lift r ≫= f) l full.
Proof.
  intros Hf s s' r'. rewrite bind_run. unfold lift. destruct r as [a|e]; [by apply Hf|].
  intros [= <- <-]. exists []. rewrite app_nil_r. split_and!; [done|apply prefix_nil|done].
Qed.

Lemma follows_ret {A} (a : A) full : follows (mret a) [] full.
Proof. intros s s' r' [= <- <-]. exists []. by rewrite app_nil_r. Qed.

Lemma follows_throw {A} e l full : follows (A := A) (throw e) l full.
Proof. intros s s' r' [= <- <-]. exists []. rewrite app_nil_r. split_and!; [done|apply prefix_nil|done]. Qed.

Lemma follows_status f full : follows (send_modify f) [] full.
Proof. intros s s' r' [= <- <-]. exists []. by rewrite app_nil_r. Qed.

Lemma follows_record a full : follows (record_action a) [a] full.
Proof. intros s s' r' [= <- <-]. by exists [a]. Qed.

Lemma follows_command a o full : follows (command a o) [a] full.
Proof.
  unfold command. change [a] with ([a] ++ []). apply follows_bind; [apply follows_record|]. intros _.
  destruct o; [apply follows_throw|apply follows_ret].
Qed.

#[export] Hint Resolve follows_lift follows_ret follows_throw follows_status follows_record follows_command : seed.

Section seed_order.
  Context `{XxHash} `{Protocol} (run : RunPlan) (env : Env).

Lemma drop_stale_slot_follows : follows (drop_stale_slot run env) (dropped run env) always.
Proof.
  unfold drop_stale_slot, dropped. apply follows_lift_bind. intros o Ho. destruct (en_slot env) as [o'|e]; [|done].
  injection Ho as ->. destruct o as [slot|]; [|auto with seed].
  apply follows_lift_bind. intros ? Ha%ensure_Ok. apply follows_lift_bind. intros ? Ho%ensure_Ok.
  apply andb_true_iff in Ho as [H1 H2]. unfold own_stale. rewrite Ha, H1, H2. auto with seed.
Qed.

Lemma clear_checkpoint_follows : follows (clear_checkpoint run env) [AClearCheckpoint (rp_id run)] always.
Proof.
  unfold clear_checkpoint. change [AClearCheckpoint (rp_id run)] with ([AClearCheckpoint (rp_id run)] ++ []).
  apply follows_bind; [auto with seed|]. intros _. destruct (en_clear env) as [[code e]|]; auto with seed.
Qed.

Lemma copy_tables_follows snapshot shard_fn tables : forall done_ rows,
  follows (copy_tables run env snapshot shard_fn done_ tables rows)
    (concat (table_actions run env snapshot shard_fn <$> tables)) id.
Proof.
  induction tables as [|[table columns] tables IH]; intros done_ rows; cbn [copy_tables]; [auto with seed|].
  rewrite fmap_cons. cbn [concat]. destruct (en_stop env done_).
  { intros s s' r [= <- <-]. exists []. rewrite app_nil_r. split_and!; [done|apply prefix_nil|]. intros a [= <-]. done. }
  unfold table_actions at 1. cbn [fst]. rewrite <- app_comm_cons.
  apply (follows_bind _ _ [_]); [auto with seed|]. intros _. apply (follows_bind _ _ [_]); [auto with seed|]. intros _.
  apply follows_lift_bind. intros n _. apply follows_quiet; [auto with seed|]. intros _. apply IH.
Qed.

Lemma seed_Ok_preflight s s' r : seed run env s = (s', r) -> sd_actions s' <> sd_actions s ->
  exists plans baseline, preflight (en_catalogs env) run = Ok (plans, baseline).
Proof.
  unfold seed, lift. intros Hs Hne. repeat rewrite bind_run in Hs.
  destruct (map_err _ (shard_function _)); [|injection Hs as <- <-; done].
  rewrite bind_run in Hs. destruct (match en_source env with Some e => _ | None => _ end); [|injection Hs as <- <-; done].
  rewrite bind_run in Hs. destruct (match en_target env with Some e => _ | None => _ end); [|injection Hs as <- <-; done].
  rewrite bind_run in Hs. destruct (preflight (en_catalogs env) run) as [[plans baseline]|]; [by eauto|injection Hs as <- <-; done].
Qed.

(** Seeding ran to its end. *)
Definition finished {A} (o : option A) : bool := match o with Some _ => true | None => false end.

Lemma stream_started_follows repl point baseline :
  follows (_ ← record_action (AStartReplication (rp_slot run) (rp_publication run));
           match start_replication (rp_slot run) (rp_publication run) repl with
           | (_, Err e) => throw (FClient e)
           | (repl, Ok _) => mret (Some (repl, point : Lsn, baseline : PublicationBaseline))
           end) [AStartReplication (rp_slot run) (rp_publication run)] finished.
Proof.
  change [AStartReplication (rp_slot run) (rp_publication run)] with ([AStartReplication (rp_slot run) (rp_publication run)] ++ []).
  apply follows_bind; [auto with seed|]. intros _. destruct (start_replication _ _ repl) as [repl' [[]|e]]; auto with seed.
Qed.

Lemma seed_follows plans baseline :
  preflight (en_catalogs env) run = Ok (plans, baseline) ->
  exists snapshot shard_fn, follows (seed run env) (seed_script run env plans snapshot shard_fn) finished.
Proof.
  intros Hp. unfold seed. destruct (shard_function (rp_hash_function run)) as [shard_fn|e].
  2: { exists EmptyString, XXHASH64_V1. apply follows_lift_bind. done. }
  destruct (connect (rp_source run) (en_tcp env)) as [repl|ce] eqn:Hc; cbn [map_err].
  2: { exists EmptyString, shard_fn. do 3 (apply follows_lift_bind; intros ? _). apply follows_lift_bind. intros [tables publication] _.
       apply follows_bind; [apply drop_stale_slot_follows|]. intros _. apply follows_lift_bind. done. }
  assert (exists snapshot, forall o, create_logical_slot_exported (rp_slot run) false repl = o ->
    match o.2 with Ok p => p.1 = snapshot | Err _ => True end) as [snapshot Hsnap].
  { destruct (create_logical_slot_exported _ _ repl) as [r' [[snap pt]|]]; [exists snap|exists EmptyString]; by intros ? <-. }
  exists snapshot, shard_fn. apply follows_lift_bind. intros f [= <-]. do 2 (apply follows_lift_bind; intros ? _).
  apply follows_lift_bind. rewrite Hp. intros [tables publication] [= <- <-].
  apply follows_bind; [apply drop_stale_slot_follows|]. intros _. apply follows_lift_bind. intros r [= <-].
  apply (follows_bind _ _ [_]); [auto with seed|]. intros _.
  specialize (Hsnap _ eq_refl). destruct (create_logical_slot_exported _ _ repl) as [r' [[snap pt]|]]; [|auto with seed].
  cbn in Hsnap. subst snap. apply follows_quiet; [auto with seed|]. intros _.
  apply (follows_bind _ _ [_]); [apply clear_checkpoint_follows|]. intros _.
  eapply follows_bind_cut; [apply copy_tables_follows| |].
  - intros going Hg. unfold id in Hg. subst going. cbn [negb]. apply stream_started_follows.
  - intros going s s' o Hg. unfold id in Hg. subst going. cbn [negb]. intros [= <- <-]. split; [done|]. intros b [= <-]. done.
Qed.

Lemma preflight_marker plans baseline :
  preflight (en_catalogs env) run = Ok (plans, baseline) ->
  ct_marker (en_catalogs env) = Ok (Some (provenance_marker (rp_expect_provenance run))).
Proof.
  unfold preflight. intros Hp. apply result_bind_Ok in Hp as (marker & Hm & Hp).
  apply result_bind_Ok in Hp as ([] & He%ensure_Ok%bool_decide_eq_true & _). subst marker.
  destruct (ct_marker _); [by injection Hm as ->|done].
Qed.

(** C29: seeding destroys nothing before its preconditions hold, and nothing of others.
    A seed that does anything at all to the two databases passed the preflight, with
    the target carrying the expected provenance marker. Its actions are a prefix of
    one fixed script: drop the stale slot, create the slot, clear the checkpoint,
    then truncate and copy each mapped table in turn under the slot's snapshot, and
    start the stream; a seed that ends has run all of it. A slot is dropped only if
    it has the workflow's own name, plugin and database and is not in use. *)
Theorem seed_destroys_only_its_own s s' r :
  seed run env s = (s', r) -> sd_actions s = [] ->
  (sd_actions s' <> [] -> exists plans baseline snapshot shard_fn,
     preflight (en_catalogs env) run = Ok (plans, baseline) /\
     ct_marker (en_catalogs env) = Ok (Some (provenance_marker (rp_expect_provenance run))) /\
     sd_actions s' `prefix_of` seed_script run env plans snapshot shard_fn /\
     (forall o, r = Ok (Some o) -> sd_actions s' = seed_script run env plans snapshot shard_fn)) /\
  forall n, ADropSlot n ∈ sd_actions s' ->
    n = rp_slot run /\ exists slot, en_slot env = Ok (Some slot) /\ own_stale run slot = true.
Proof.
  intros Hs Hnil. assert (Hmain : sd_actions s' <> [] -> exists plans baseline snapshot shard_fn,
     preflight (en_catalogs env) run = Ok (plans, baseline) /\
     ct_marker (en_catalogs env) = Ok (Some (provenance_marker (rp_expect_provenance run))) /\
     sd_actions s' `prefix_of` seed_script run env plans snapshot shard_fn /\
     (forall o, r = Ok (Some o) -> sd_actions s' = seed_script run env plans snapshot shard_fn)).
  { intros Hne. rewrite <- Hnil in Hne. destruct (seed_Ok_preflight _ _ _ Hs Hne) as (plans & baseline & Hp).
    destruct (seed_follows _ _ Hp) as (snapshot & shard_fn & Hf). destruct (Hf _ _ _ Hs) as (l & Hl & Hpre & Hfull).
    rewrite Hnil in Hl. cbn in Hl. exists plans, baseline, snapshot, shard_fn. rewrite Hl.
    split_and!; [done|by eapply preflight_marker|done|]. intros o ->. by apply (Hfull (Some o)). }
  split; [exact Hmain|]. intros n Hn. destruct Hmain as (plans & _ & snapshot & shard_fn & _ & _ & [k Hk] & _).
  { intros E. rewrite E in Hn. by apply elem_of_nil in Hn. }
  assert (ADropSlot n ∈ seed_script run env plans snapshot shard_fn) as Hin by (rewrite Hk; by apply elem_of_app; left).
  apply (drop_in_script _ _ _ _ _ _ Hin).
Qed.

End seed_order.

(** ** The preflight *)

Lemma check_all_Ok {A} (f : A -> result Failure unit) l : check_all f l = Ok tt <-> Forall (fun x => f x = Ok tt) l.
Proof.
  induction l as [|x l IH]; cbn [check_all]; [split; [constructor|done]|]. rewrite result_bind_Ok, Forall_cons, <- IH. split.
  - intros ([] & Hx & Hl). done.
  - intros [Hx Hl]. by exists tt.
Qed.

Lemma sql_Ok {A} (r : result string A) a : sql r = Ok a <-> r = Ok a.
Proof. destruct r; cbn; split; intros H; congruence || by injection H as ->. Qed.

(** A published table of that name. *)
Definition publishes (shape : PublicationShape) (schema name : string) : Prop :=
  exists p, p ∈ ps_tables shape /\ pt_schema p = schema /\ pt_name p = name.
Definition maps (run : RunPlan) (schema name : string) : Prop :=
  exists t, t ∈ rp_tables run /\ tp_schema t = schema /\ tp_name t = name.

(** The publication carries every change of its tables, whole. *)
Definition publishes_everything (shape : PublicationShape) : Prop :=
  ps_insert shape = true /\ ps_update shape = true /\ ps_delete shape = true /\ ps_truncate shape = true /\
  Forall (fun p => pt_has_row_filter p = false /\ pt_has_column_list p = false) (ps_tables shape).

Lemma check_publication_Ok run shape :
  check_publication run shape = Ok tt ->
  publishes_everything shape /\ forall schema name, publishes shape schema name <-> maps run schema name.
Proof.
  unfold check_publication. intros Hc.
  apply result_bind_Ok in Hc as ([] & Hk%ensure_Ok & Hc). rewrite !andb_true_iff in Hk. destruct Hk as [[[Hi Hu] Hd] Ht].
  do 4 (apply result_bind_Ok in Hc as ([] & _ & Hc)). apply result_bind_Ok in Hc as ([] & Hmapped & Hpub).
  apply check_all_Ok in Hmapped. apply check_all_Ok in Hpub. rewrite Forall_forall in Hmapped. rewrite Forall_forall in Hpub.
  assert (Hp : forall p, p ∈ ps_tables shape -> maps run (pt_schema p) (pt_name p) /\ pt_has_row_filter p = false /\ pt_has_column_list p = false).
  { intros p Hp. specialize (Hpub p Hp). apply result_bind_Ok in Hpub as ([] & He%ensure_Ok & Hpub).
    apply result_bind_Ok in Hpub as ([] & Hf%ensure_Ok & Hl%ensure_Ok). rewrite negb_true_iff in Hf, Hl. split_and!; [|done|done].
    apply existsb_exists in He as (t & Hin%list_elem_of_In & [E1%bool_decide_eq_true E2%bool_decide_eq_true]%andb_true_iff). by exists t. }
  split.
  - split_and!; [done..|]. apply Forall_forall. intros p Hin. by destruct (Hp p Hin).
  - intros schema name. split.
    + intros (p & Hin & <- & <-). by destruct (Hp p Hin).
    + intros (t & Hin & <- & <-). specialize (Hmapped t Hin). apply ensure_Ok, existsb_exists in Hmapped as (p & Hp'%list_elem_of_In & E).
      apply andb_true_iff in E as [E1%bool_decide_eq_true E2%bool_decide_eq_true]. by exists p.
Qed.

(** Source and target have the same columns, of the same builtin types, and the shard
    key has a hashable type and is part of the replica identity. *)
Definition table_ready (ct : Catalogs) (t : TablePlan) (columns : list string) : Prop :=
  exists src tgt, ct_source_columns ct (tp_schema t) (tp_name t) = Ok src /\ ct_target_columns ct (tp_schema t) (tp_name t) = Ok tgt /\
    columns = sc_name <$> src /\ (forall n, n ∈ sc_name <$> tgt <-> n ∈ columns) /\
    (forall c, c ∈ src -> exists d, d ∈ tgt /\ sc_name d = sc_name c /\ sc_type_oid d = sc_type_oid c /\ sc_typmod d = sc_typmod c /\
       sc_type_oid c < 16384 /\ sc_generated c = false /\ sc_generated d = false) /\
    (exists key, key ∈ src /\ sc_name key = tp_shard_key_column t /\ sc_type_oid key ∈ allowed_key_oids (tp_shard_key_type t)) /\
    exists index cols, ct_identity_columns ct (tp_schema t) (tp_name t) index = Ok cols /\ tp_shard_key_column t ∈ cols.

Lemma check_column_Ok tgt c :
  check_column tgt c = Ok tt ->
  exists d, d ∈ tgt /\ sc_name d = sc_name c /\ sc_type_oid d = sc_type_oid c /\ sc_typmod d = sc_typmod c /\
    sc_type_oid c < 16384 /\ sc_generated d = false.
Proof.
  unfold check_column. intros Hc. apply result_bind_Ok in Hc as (d & Hd%ok_or_Ok & Hc).
  apply find_first_Some in Hd as [Hin Hn%bool_decide_eq_true]. apply result_bind_Ok in Hc as ([] & Hb%ensure_Ok & Hc).
  apply result_bind_Ok in Hc as ([] & Ht%ensure_Ok & Hc). apply result_bind_Ok in Hc as ([] & Hg%ensure_Ok & _).
  rewrite andb_true_iff in Hb, Ht. rewrite negb_true_iff in Hg. exists d. split_and!; [done|done|lia|lia|lia|done].
Qed.

Lemma preflight_table_Ok ct t columns : preflight_table ct t = Ok columns -> table_ready ct t columns.
Proof.
  unfold preflight_table. intros Hp. apply result_bind_Ok in Hp as (src & Hsrc%sql_Ok & Hp).
  do 2 (apply result_bind_Ok in Hp as ([] & _ & Hp)). apply result_bind_Ok in Hp as ([] & Hgen%check_all_Ok & Hp).
  apply result_bind_Ok in Hp as (tgt & Htgt%sql_Ok & Hp). do 2 (apply result_bind_Ok in Hp as ([] & _ & Hp)).
  apply result_bind_Ok in Hp as ([] & Hextra%check_all_Ok & Hp). apply result_bind_Ok in Hp as ([] & Hcols%check_all_Ok & Hp).
  apply result_bind_Ok in Hp as (key & Hkey%ok_or_Ok & Hp). apply result_bind_Ok in Hp as ([] & Hty%ensure_Ok & Hp).
  apply result_bind_Ok in Hp as ([] & Hid & [= <-]). rewrite Forall_forall in Hgen. rewrite Forall_forall in Hextra. rewrite Forall_forall in Hcols.
  apply find_first_Some in Hkey as [Hkin Hkn%bool_decide_eq_true]. apply bool_decide_eq_true in Hty.
  assert (Hmatch : forall c, c ∈ src -> exists d, d ∈ tgt /\ sc_name d = sc_name c /\ sc_type_oid d = sc_type_oid c /\
    sc_typmod d = sc_typmod c /\ sc_type_oid c < 16384 /\ sc_generated c = false /\ sc_generated d = false).
  { intros c Hc. destruct (check_column_Ok _ _ (Hcols c Hc)) as (d & ? & ? & ? & ? & ? & ?). exists d.
    specialize (Hgen c Hc). apply ensure_Ok, negb_true_iff in Hgen. split_and!; done. }
  exists src, tgt. split_and!; [done|done|done| |done|by exists key|].
  - intros n. split.
    + intros (d & -> & Hd)%list_elem_of_fmap. specialize (Hextra d Hd). apply ensure_Ok, existsb_exists in Hextra as (c & Hc%list_elem_of_In & E%bool_decide_eq_true).
      rewrite <- E. by apply list_elem_of_fmap_2.
    + intros (c & -> & Hc)%list_elem_of_fmap. destruct (Hmatch c Hc) as (d & Hd & <- & _). by apply list_elem_of_fmap_2.
  - unfold check_identity in Hid. apply result_bind_Ok in Hid as (ri & _ & Hid). destruct (_ || _); [|done].
    apply result_bind_Ok in Hid as (cols & Hc%sql_Ok & He%ensure_Ok%bool_decide_eq_true). by eexists _, cols.
Qed.

(** what the preflight guarantees. Once it passes, the publication carries every
    change of exactly the mapped tables, unfiltered and whole; each mapped table has
    the same columns with the same builtin types on both sides, none of them
    generated; and its shard key has a type the shard function can hash and is
    covered by the replica identity. The copy is planned with exactly those columns. *)
Theorem preflight_guarantees ct run plans baseline :
  preflight ct run = Ok (plans, baseline) ->
  publishes_everything (pb_shape baseline) /\
  (forall schema name, publishes (pb_shape baseline) schema name <-> maps run schema name) /\
  Forall2 (table_ready ct) (rp_tables run) plans.
Proof.
  unfold preflight. intros Hp. apply result_bind_Ok in Hp as (marker & _ & Hp). apply result_bind_Ok in Hp as ([] & _ & Hp).
  apply result_bind_Ok in Hp as (base & _ & Hp). apply result_bind_Ok in Hp as ([] & Hc & Hp).
  apply result_bind_Ok in Hp as (ps & Hm%mapM_Ok & [= <- <-]). apply check_publication_Ok in Hc as [He Hs].
  split_and!; [done|done|]. eapply Forall2_impl; [exact Hm|]. intros t cols. apply preflight_table_Ok.
Qed.

(** ** Drift of the publication *)

Lemma fetch_publication_Ok a base :
  fetch_publication a = Ok base -> is_u64 (pb_xid base) /\ xid_recurrence_horizon (pb_xid base) (ps_versions (pb_shape base)) = Some (pb_horizon base).
Proof.
  unfold fetch_publication. intros Hf. apply result_bind_Ok in Hf as (o & _ & Hf). apply result_bind_Ok in Hf as (row & _ & Hf).
  apply result_bind_Ok in Hf as (xid & Hx%ok_or_Ok & Hf). apply result_bind_Ok in Hf as (versions & _ & Hf).
  apply result_bind_Ok in Hf as (tables & _ & Hf). apply result_bind_Ok in Hf as (horizon & Hh%ok_or_Ok & [= <-]).
  cbn [pb_xid pb_shape ps_versions pb_horizon]. split; [|done]. by apply from_str_radix_unsigned_range in Hx.
Qed.

(** a recheck that passes proves the publication was untouched. Its flags, its
    tables and all its row versions are those of the baseline, and no transaction id
    handed out since the baseline, however the 32-bit ids wrap around, equals the
    version of any of those rows: nobody altered the publication in between, not
    even to alter it back. *)
Theorem recheck_detects_drift `{Target} a0 base answers (s s' : Streamer) :
  fetch_publication a0 = Ok base -> recheck base answers s = (s', Ok tt) ->
  s' = s /\ exists now, fetch_publication answers = Ok now /\ pb_shape now = pb_shape base /\
    forall kind oid xmin v x, (kind, oid, xmin) ∈ ps_versions (pb_shape now) ->
      from_str_radix_unsigned 10 u32_MAX (bytes xmin) = Some v -> 3 <= v ->
      pb_xid base < x <= pb_xid now -> as_u32 x <> v.
Proof.
  intros Hf Hr. unfold recheck in Hr. apply bind_Ok in Hr as (s1 & now & [Hn ->]%lift_Ok & Hr).
  apply bind_Ok in Hr as (s2 & [] & [Hs%ensure_Ok%bool_decide_eq_true ->]%lift_Ok & [Hx%ensure_Ok ->]%lift_Ok). split; [done|].
  exists now. split_and!; [done|done|]. rewrite Hs. apply fetch_publication_Ok in Hf as [Hu Hh]. intros kind oid xmin v x Hin Hv H3 Hb.
  unfold saturating_sub in Hx. replace x with (pb_xid base + (x - pb_xid base)) by lia.
  eapply xid_horizon_sound; [exact Hu|exact Hh| |exact Hv| |lia].
  - apply list_elem_of_fmap. by exists (kind, oid, xmin).
  - apply from_str_radix_unsigned_range in Hv; unfold u32_MAX in *; lia.
Qed.

(** ** A concrete workflow *)

Module SeedingExample.

#[local] Existing Instance be_hash.

#[local] Instance toy : Protocol := {|
  startup_message _ := Err "none"; query_message _ := Err "none"; sasl_initial_response _ _ := Err "none"; sasl_response _ := Err "none";
  Scram := unit; scram_new _ := tt; scram_message _ := []; scram_update _ _ := Err "none"; scram_finish _ _ := Err "none";
|}.

#[local] Instance nowhere : Target := {| Rows := unit; exec_sql _ _ := Err "none" |}.

Definition run : RunPlan := mkRunPlan "wf" (mkConfig "db" 5432 "repl" "pw" "app") "s" "p" "app" "prov"
  [mkTablePlan "public" "users" "id" TInt] (mkKeyRange 0 (Some 10)) "xxhash64_v1".

(** The publication at transaction [xid], last altered by transaction 700. *)
Definition answers (xid : string) : PublicationAnswers := mkPublicationAnswers
  (Ok (Some (mkPublicationRow true true true true false false false xid))) (Ok [(0, 16390, "700"); (1, 16391, "701")])
  (Ok [("public", "users", Some ["id"; "name"], Some false, Some false)]).

Definition columns : list SqlColumn :=
  [mkSqlColumn "id" 20 (-1) false "000"%char "r"%char; mkSqlColumn "name" 25 (-1) false "000"%char "r"%char].

Definition catalogs : Catalogs := mkCatalogs (Ok (Some "pgshard-provenance:prov")) (answers "800") (fun _ _ => Ok columns) (fun _ _ => Ok columns)
  (fun _ _ => Ok "d"%char) (fun _ _ _ => Ok ["id"]).

(** A stale slot of the workflow is there, and the source then refuses the
    replication connection. *)
Definition env : Env := mkEnv None None catalogs (Ok (Some (mkSlotInfo false (Some "pgoutput") (Some "app")))) None (Err "refused")
  None (fun _ => false) (fun _ => None) (fun _ _ => mkConnections (fun _ _ => None) None None [] None (fun _ => None) None).

Definition fresh : SeedState := mkSeedState (mkWorkflowStatus "wf" PhaseInit None None None) [].

Definition base : PublicationBaseline := mkBaseline
  (mkPublicationShape true true true true false false false [(0, 16390, "700"); (1, 16391, "701")]
    [mkPublishedTable "public" "users" ["id"; "name"] false false]) 800 4294967196.

Lemma seed_destroys_only_its_own_witness :
  sd_actions (seed run env fresh).1 = [ADropSlot "s"] /\
  exists slot, en_slot env = Ok (Some slot) /\ own_stale run slot = true.
Proof.
  split; [vm_compute; reflexivity|].
  destruct (seed_destroys_only_its_own run env fresh (seed run env fresh).1 (seed run env fresh).2 (surjective_pairing _) eq_refl) as [_ Hd].
  apply (Hd "s"). vm_compute. left.
Defined.

Lemma preflight_guarantees_witness :
  Forall2 (table_ready catalogs) (rp_tables run) [["id"; "name"]] /\ publishes_everything (pb_shape base).
Proof.
  destruct (preflight_guarantees catalogs run [["id"; "name"]] base) as (He & _ & Ht); [vm_compute; reflexivity|].
  split; [exact Ht|exact He].
Defined.

Definition worker : Streamer := mkStreamer (mkClient [] [] [] [] 0 0) (mkApplier ∅ "wf" 0 0 []) (mkDb tt ∅) (new_decoder 4) ∅ None (sd_status fresh).

(** A hundred transactions later the publication is as it was. *)
Lemma recheck_detects_drift_witness :
  exists now, fetch_publication (answers "900") = Ok now /\ pb_shape now = pb_shape base.
Proof.
  destruct (recheck_detects_drift (answers "800") base (answers "900") worker worker) as (_ & now & Hn & Hs & _);
    [vm_compute; reflexivity|vm_compute; reflexivity|].
  exists now. split; [exact Hn|exact Hs].
Defined.

End SeedingExample.
