(* ===== verification/Converge.v ===== *)
(** * Seeding converges

    The composition of the seeding worker ([Seeding]), the range filter ([Filter]) and
    the applier ([Apply]) with a source that changes: what the target holds at every
    moment of the stream, as a function of what the source held. Rows are text cells,
    as replication ships them; the source's transactions are the messages PostgreSQL
    decodes for them, and a table's rows are identified by their replica identity. *)

From S2P Require Import Prelude Rust Keyspace ShardFn Lsn PgOutput Stream Client Workflow Filter Copy Apply Seeding.

Open Scope Z_scope.

(** ** Rows *)

#[export] Instance Cell_eq_dec : EqDecision Cell.
Proof. solve_decision. Defined.

#[export] Instance Cell_countable : Countable Cell.
Proof.
  refine (inj_countable' (fun c => match c with CNull => inl false | CUnchanged => inl true | CText v => inr v end)
    (fun x => match x with inl false => CNull | inl true => CUnchanged | inr v => CText v end) _).
  by intros [].
Defined.

(** Rows by relation and replica identity. *)
#[global] Abbreviation RowMap := (gmap (Oid * list Cell) (list Cell)).

(** The identity of a row. *)
Definition key_of (r : RelationInfo) (row : list Cell) : list Cell := (fun i => default CNull (row !! i)) <$> ri_key_columns r.

(** A whole row of a table: every column, none left out. *)
Definition whole_row (r : RelationInfo) (row : list Cell) : Prop :=
  length row = length (ri_columns r) /\ Forall (fun c => c <> CUnchanged) row.

(** The row after an update that ships [new]. *)
Definition overlay (old new : list Cell) : list Cell :=
  zip_with (fun o n => match n with CUnchanged => o | _ => n end) old new.

Definition tuple_of (row : list Cell) : TupleData :=
  (fun c => match c with CNull => TCNull | CText v => TCText v | CUnchanged => TCUnchangedToast end) <$> row.

Section rows.
  Context `{XxHash} (run : RunPlan) (shard_fn : ShardFunction).
  (** The mapped relations: how the applier knows them, and their filters. *)
  Context (schema : gmap Oid (RelationInfo * RelFilter)).

Definition rels : gmap Oid RelationInfo := fst <$> schema.
Definition filters : gmap Oid RelFilter := snd <$> schema.

(** The row's shard key is in the workflow's range. *)
Definition placed_in (f : RelFilter) (row : list Cell) : bool :=
  match tuple_in_range (tuple_of row) (rf_key_index f) (rf_key_type f) shard_fn (rp_range run) with Ok b => b | Err _ => false end.

Definition belongs (p : (Oid * list Cell) * list Cell) : Prop :=
  match schema !! p.1.1 with Some (_, f) => placed_in f p.2 = true | None => False end.

#[export] Instance belongs_dec p : Decision (belongs p).
Proof. unfold belongs. destruct (schema !! p.1.1) as [[r f]|]; apply _. Defined.

(** The part of the source the target is to hold. *)
Definition restrict (S : RowMap) : RowMap := filter belongs S.

(** ** The source *)

(** [kc] has the identity of [old]. *)
Definition same_key (r : RelationInfo) (kc old : list Cell) : Prop := forall i, i ∈ ri_key_columns r -> kc !! i = old !! i.

(** A message of the stream and what it says happened at the source. An update ships
    the old identity when it changed, and leaves out unchanged large values. *)
Inductive source_step : RowMap -> LogicalRepMsg -> RowMap -> Prop :=
| src_insert S xid oid tuple row r f :
    schema !! oid = Some (r, f) -> tuple_cells tuple = Ok row -> whole_row r row -> S !! (oid, key_of r row) = None ->
    source_step S (MInsert (mkInsert xid oid tuple)) (<[(oid, key_of r row) := row]> S)
| src_update S xid oid key tuple new old k r f :
    schema !! oid = Some (r, f) -> S !! (oid, k) = Some old -> tuple_cells tuple = Ok new -> length new = length (ri_columns r) ->
    (key_of r (overlay old new) = k \/ S !! (oid, key_of r (overlay old new)) = None) ->
    match key with Some kt => exists kc, tuple_cells kt = Ok kc /\ same_key r kc old | None => key_of r (overlay old new) = k end ->
    source_step S (MUpdate (mkUpdate xid oid key None tuple))
      (<[(oid, key_of r (overlay old new)) := overlay old new]> (base.delete (oid, k) S))
| src_delete S xid oid kt kc old k r f :
    schema !! oid = Some (r, f) -> S !! (oid, k) = Some old -> tuple_cells kt = Ok kc -> same_key r kc old ->
    source_step S (MDelete (mkDelete xid oid (Some kt) None)) (base.delete (oid, k) S)
| src_relation S rel r f :
    schema !! rl_oid rel = Some (r, f) -> relation_info rel = r -> describe run rel = Ok f -> source_step S (MRelation rel) S
| src_type S m : source_step S (MType m) S
| src_origin S m : source_step S (MOrigin m) S
| src_message S m : source_step S (MMessage m) S.

Inductive source_steps : RowMap -> list LogicalRepMsg -> RowMap -> Prop :=
| src_nil S : source_steps S [] S
| src_snoc S ms S' m S'' : source_steps S ms S' -> source_step S' m S'' -> source_steps S (ms ++ [m]) S''.

(** A transaction of the source, as the stream carries it. *)
Record SourceTxn := mkSourceTxn { st_begin : Begin; st_body : list LogicalRepMsg; st_commit : Commit }.

Definition txn_messages (t : SourceTxn) : list LogicalRepMsg := MBegin (st_begin t) :: st_body t ++ [MCommit (st_commit t)].

(** The source after each transaction of its log. *)
Inductive history : RowMap -> list SourceTxn -> list RowMap -> Prop :=
| hist_nil S : history S [] [S]
| hist_cons S t S' log states : source_steps S (st_body t) S' -> history S' log states -> history S (t :: log) (S :: states).

(** ** The target *)

(** A buffered change and its effect on rows. *)
Inductive target_step : RowMap -> PendingChange -> RowMap -> Prop :=
| tgt_insert T oid row r f :
    schema !! oid = Some (r, f) -> T !! (oid, key_of r row) = None ->
    target_step T (PInsert oid row) (<[(oid, key_of r row) := row]> T)
| tgt_update T oid ks new old r f :
    schema !! oid = Some (r, f) -> T !! (oid, key_of r ks) = Some old ->
    (key_of r (overlay old new) = key_of r ks \/ T !! (oid, key_of r (overlay old new)) = None) ->
    target_step T (PUpdate oid ks new)
      (<[(oid, key_of r (overlay old new)) := overlay old new]> (base.delete (oid, key_of r ks) T))
| tgt_delete T oid ks old r f :
    schema !! oid = Some (r, f) -> T !! (oid, key_of r ks) = Some old ->
    target_step T (PDelete oid ks) (base.delete (oid, key_of r ks) T).

(** PostgreSQL on the target: [tbl] are the rows of the mapped tables, and the
    statements of a change have that change's effect on them. *)
Definition executes `{Target} (tbl : Rows -> RowMap) (c : PendingChange) : Prop := forall stmts rows T',
  change_statements rels c = Ok stmts -> target_step (tbl rows) c T' ->
  exists rows', run_statements stmts rows = Ok rows' /\ tbl rows' = T'.

(** The changes of a body that the worker passes on. *)
Definition kept (m : LogicalRepMsg) : bool :=
  match keep_message run shard_fn filters m with Ok (_, b) => b | Err _ => false end.
Definition kept_change (m : LogicalRepMsg) : option PendingChange :=
  if kept m then match change_of m with Some (Ok c) => Some c | _ => None end else None.
Definition kept_changes (ms : list LogicalRepMsg) : list PendingChange := omap kept_change ms.

(** ** Lemmas: cells and keys *)

Lemma tuple_cells_of t cs : tuple_cells t = Ok cs -> t = tuple_of cs.
Proof.
  unfold tuple_cells. intros Hc%mapM_Ok. induction Hc as [|c d t cs Hcd _ IH]; [done|]. unfold tuple_of. rewrite fmap_cons. f_equal; [|exact IH].
  destruct c; cbn in Hcd; by simplify_eq.
Qed.

Lemma in_range_placed f row b :
  in_range run shard_fn f (tuple_of row) = Ok b -> placed_in f row = b /\ exists v, row !! rf_key_index f = Some (CText v).
Proof.
  unfold in_range, placed_in. destruct (tuple_in_range _ _ _ _ _) as [b'|] eqn:E; [|done]. intros [= ->]. split; [done|].
  unfold tuple_in_range, tuple_keyspace_id, tuple_of in E. rewrite list_lookup_fmap in E.
  destruct (row !! rf_key_index f) as [[|v|]|]; try done. by exists v.
Qed.

Lemma placed_same f row row' c :
  row !! rf_key_index f = Some c -> row' !! rf_key_index f = Some c -> placed_in f row = placed_in f row'.
Proof.
  intros H1 H2. unfold placed_in, tuple_in_range, tuple_keyspace_id, tuple_of. by rewrite !list_lookup_fmap, H1, H2.
Qed.

Lemma key_of_same r kc old : same_key r kc old -> key_of r kc = key_of r old.
Proof. intros Hs. unfold key_of. apply map_ext_in. intros i Hi%list_elem_of_In. by rewrite Hs. Qed.

Lemma key_of_lookup r a b i : key_of r a = key_of r b -> i ∈ ri_key_columns r -> default CNull (a !! i) = default CNull (b !! i).
Proof. unfold key_of. intros Hk Hi%list_elem_of_In. by apply (proj1 map_ext_in_iff Hk). Qed.

Lemma overlay_shipped old new i c o : new !! i = Some c -> c <> CUnchanged -> old !! i = Some o -> overlay old new !! i = Some c.
Proof. intros Hn Hc Ho. unfold overlay. rewrite lookup_zip_with, Ho, Hn. by destruct c. Qed.

Context (Hschema : forall oid r f, schema !! oid = Some (r, f) ->
  exists rel, rl_oid rel = oid /\ relation_info rel = r /\ describe run rel = Ok f).

Lemma key_index_of oid r f : schema !! oid = Some (r, f) ->
  rf_key_index f ∈ ri_key_columns r /\ (rf_key_index f < length (ri_columns r))%nat.
Proof.
  intros Hs. destruct (Hschema _ _ _ Hs) as (rel & _ & <- & Hd). unfold describe in Hd.
  apply result_bind_Ok in Hd as (table & _ & Hd). apply result_bind_Ok in Hd as (i & _ & Hd).
  apply result_bind_Ok in Hd as (column & Hc%ok_or_Ok & Hd). apply result_bind_Ok in Hd as ([] & _ & Hd).
  apply result_bind_Ok in Hd as ([] & He%ensure_Ok & [= <-]). apply andb_true_iff in He as [_ Hk].
  cbn [rf_key_index relation_info ri_key_columns ri_columns]. split; [|rewrite length_fmap; by eapply lookup_lt_Some].
  unfold key_column_indices. apply list_elem_of_fmap. exists (i, column). split; [done|]. apply elem_of_filter_b. split; [|done].
  apply list_elem_of_lookup. exists i. rewrite list_lookup_imap, Hc. done.
Qed.

(** Rows sit under their identity, whole. *)
Definition rows_wf (S : RowMap) : Prop := forall oid k row, S !! (oid, k) = Some row ->
  exists r f, schema !! oid = Some (r, f) /\ k = key_of r row /\ whole_row r row.

Lemma rows_wf_insert S oid r f row : rows_wf S -> schema !! oid = Some (r, f) -> whole_row r row ->
  rows_wf (<[(oid, key_of r row) := row]> S).
Proof.
  intros Hw Hs Hr oid' k' row'. rewrite lookup_insert_Some. intros [[[= <- <-] <-]|[_ ?]]; [by eauto|by eapply Hw].
Qed.

Lemma rows_wf_delete S k : rows_wf S -> rows_wf (base.delete k S).
Proof. intros Hw oid k' row'. rewrite lookup_delete_Some. intros [_ ?]. by eapply Hw. Qed.

Lemma overlay_whole r old new : whole_row r old -> length new = length (ri_columns r) -> whole_row r (overlay old new).
Proof.
  intros [Hl Hf] Hn. unfold whole_row, overlay. rewrite length_zip_with. split; [lia|].
  clear Hl Hn. revert new. induction Hf as [|o old Ho _ IH]; intros [|n new]; constructor; [by destruct n|apply IH].
Qed.

Lemma source_step_wf S m S' : source_step S m S' -> rows_wf S -> rows_wf S'.
Proof.
  intros Hs Hw. destruct Hs as [S xid oid tuple row r f Hr Ht Hrow Hn|S xid oid key tuple new old k r f Hr Hold Ht Hl Hfree Hkey
    |S xid oid kt kc old k r f Hr Hold Hk Hsame|S rel r f Hr|S|S|S]; try done.
  - by eapply rows_wf_insert.
  - destruct (Hw _ _ _ Hold) as (r' & f' & Hr' & -> & Hwh). rewrite Hr in Hr'. injection Hr' as <- <-.
    eapply rows_wf_insert; [by apply rows_wf_delete|done|by apply overlay_whole].
  - by apply rows_wf_delete.
Qed.

(** ** Lemmas: what the filter keeps *)

Lemma filters_lookup oid f : filters !! oid = Some f <-> exists r, schema !! oid = Some (r, f).
Proof. unfold filters. rewrite lookup_fmap, fmap_Some. split; [intros ([r f'] & ? & ->); by exists r|intros [r Hr]; by exists (r, f)]. Qed.

(** A worker that knows part of the schema decides as one that knows it all. *)
Lemma keep_message_known S m S' known known' b :
  source_step S m S' -> known ⊆ filters -> keep_message run shard_fn known m = Ok (known', b) ->
  known' ⊆ filters /\ keep_message run shard_fn filters m = Ok (filters, b).
Proof.
  intros Hs Hk Hm.
  assert (Hof : forall oid f, filter_of known oid = Ok f -> filter_of filters oid = Ok f).
  { intros oid f. unfold filter_of, rel_filter. rewrite !ok_or_Ok. intros Ho. by eapply lookup_weaken. }
  destruct Hs as [S xid oid tuple row r f Hr _ _ _|S xid oid key tuple new old k r f _ _ _ _ _ _|S xid oid kt kc old k r f _ _ _ _
    |S rel r f Hr Hri Hd|S m|S m|S m]; cbn [keep_message] in *; try (injection Hm as <- <-; done).
  - apply result_bind_Ok in Hm as (g & Hg & Hm). apply result_bind_Ok in Hm as (b' & Hb & [= <- <-]).
    split; [done|]. rewrite (Hof _ _ Hg). cbn [mbind result_bind]. by rewrite Hb.
  - apply result_bind_Ok in Hm as (g & Hg & Hm). apply result_bind_Ok in Hm as (b' & Hb & Hm). rewrite (Hof _ _ Hg).
    apply result_bind_Ok in Hm as ([] & Hc & [= <- <-]). split; [done|]. cbn [mbind result_bind]. rewrite Hb. cbn [mbind result_bind].
    cbn [mbind result_bind] in Hc. by rewrite Hc.
  - apply result_bind_Ok in Hm as (g & Hg & Hm). cbn [de_key de_old ok_or mbind result_bind] in Hm.
    apply result_bind_Ok in Hm as (b' & Hb & [= <- <-]). split; [done|]. rewrite (Hof _ _ Hg). cbn [mbind result_bind ok_or de_key]. by rewrite Hb.
  - rewrite Hd in *. cbn [mbind result_bind] in *. injection Hm as <- <-.
    assert (filters !! rl_oid rel = Some f) as Hf by (apply filters_lookup; by exists r).
    split; [by apply insert_subseteq_l|]. by rewrite insert_id.
Qed.

(** ** Lemmas: the restriction follows the source *)

Lemma belongs_row oid k row r f : schema !! oid = Some (r, f) -> belongs ((oid, k), row) <-> placed_in f row = true.
Proof. intros Hs. unfold belongs. cbn [fst snd]. by rewrite Hs. Qed.

Lemma restrict_insert_in S oid k row r f : schema !! oid = Some (r, f) -> placed_in f row = true ->
  restrict (<[(oid, k) := row]> S) = <[(oid, k) := row]> (restrict S).
Proof. intros Hs Hp. apply map_filter_insert_True. by eapply belongs_row. Qed.

Lemma restrict_insert_out S oid k row r f : schema !! oid = Some (r, f) -> placed_in f row = false -> S !! (oid, k) = None ->
  restrict (<[(oid, k) := row]> S) = restrict S.
Proof.
  intros Hs Hp Hn. unfold restrict. rewrite map_filter_insert_False; [by rewrite delete_id|].
  intros Hb. apply (belongs_row oid k row r f Hs) in Hb. congruence.
Qed.

Lemma restrict_delete S k : restrict (base.delete k S) = base.delete k (restrict S).
Proof. apply map_filter_delete. Qed.

Lemma restrict_delete_out S oid k row r f : schema !! oid = Some (r, f) -> S !! (oid, k) = Some row -> placed_in f row = false ->
  restrict (base.delete (oid, k) S) = restrict S.
Proof.
  intros Hs Hr Hp. unfold restrict. apply map_filter_delete_not. intros row' Hr' Hb. rewrite Hr in Hr'. injection Hr' as <-.
  apply (belongs_row oid k row r f Hs) in Hb. congruence.
Qed.

Lemma restrict_lookup_in S oid k row r f : schema !! oid = Some (r, f) -> S !! (oid, k) = Some row -> placed_in f row = true ->
  restrict S !! (oid, k) = Some row.
Proof. intros Hs Hr Hp. apply map_lookup_filter_Some. split; [done|]. by eapply belongs_row. Qed.

Lemma restrict_lookup_None S k : S !! k = None -> restrict S !! k = None.
Proof. intros Hn. apply map_lookup_filter_None. by left. Qed.

(** *** Shipped keys *)

Lemma assignments_nonempty columns : forall new i v l,
  new !! i = Some (CText v) -> (i < length columns)%nat -> assignments columns new = Ok l -> l <> [].
Proof.
  induction columns as [|name columns IH]; intros new i v l Hn Hi; [cbn in Hi; lia|]. destruct new as [|c new]; [done|].
  cbn [assignments]. destruct i as [|i].
  - injection Hn as ->. intros Ha. apply result_bind_Ok in Ha as (t & _ & Ha). by apply result_bind_Ok in Ha as (rest & _ & [= <-]).
  - cbn in Hn, Hi. destruct c; [| |intros Ha; eapply IH; [exact Hn|lia|exact Ha]];
      intros Ha; apply result_bind_Ok in Ha as (t & _ & Ha); by apply result_bind_Ok in Ha as (rest & _ & [= <-]).
Qed.

Lemma build_where_keys r ks sql i : build_where r ks = Ok sql -> i ∈ ri_key_columns r -> exists v, ks !! i = Some (CText v).
Proof.
  unfold build_where. destruct (negb _); [done|]. destruct (_ =? _)%nat; [done|]. intros Hb Hi.
  apply result_bind_Ok in Hb as (conditions & Hc%mapM_Ok & _). apply list_elem_of_lookup in Hi as [j Hj].
  destruct (Forall2_lookup_l _ _ _ _ _ Hc Hj) as (c & _ & Hk). unfold key_condition in Hk.
  destruct (ks !! i) as [[|v|]|]; try done. by exists v.
Qed.

Lemma update_keys_shipped oid r f ks new stmts i v :
  schema !! oid = Some (r, f) -> change_statements rels (PUpdate oid ks new) = Ok stmts -> new !! i = Some (CText v) ->
  (i < length (ri_columns r))%nat -> forall j, j ∈ ri_key_columns r -> exists w, ks !! j = Some (CText w).
Proof.
  intros Hs Hc Hn Hi j Hj. cbn [change_statements] in Hc. apply result_bind_Ok in Hc as (r' & Hr%ok_or_Ok & Hc).
  unfold rels in Hr. rewrite lookup_fmap, Hs in Hr. injection Hr as <-. apply result_bind_Ok in Hc as (o & Hu & _).
  unfold build_update in Hu. apply result_bind_Ok in Hu as ([] & _ & Hu). apply result_bind_Ok in Hu as ([] & _ & Hu).
  apply result_bind_Ok in Hu as (assigned & Ha & Hu). pose proof (assignments_nonempty _ _ _ _ _ Hn Hi Ha) as Hne.
  destruct assigned; [done|]. apply result_bind_Ok in Hu as (w & Hw & _). by eapply build_where_keys.
Qed.

(** *** One message *)

(** What the applier gets of a message does to the restricted rows what the message did
    to the source; what it does not get leaves them as they were. *)
Definition tracks (S : RowMap) (c : PendingChange) (S' : RowMap) (b : bool) : Prop :=
  if b then target_step (restrict S) c (restrict S') else restrict S' = restrict S.

Lemma insert_tracks S xid oid tuple row r f b :
  schema !! oid = Some (r, f) -> tuple_cells tuple = Ok row -> S !! (oid, key_of r row) = None ->
  keep_message run shard_fn filters (MInsert (mkInsert xid oid tuple)) = Ok (filters, b) ->
  tracks S (PInsert oid row) (<[(oid, key_of r row) := row]> S) b.
Proof.
  intros Hs Ht Hn Hm. cbn [keep_message in_rel_oid in_new_tuple] in Hm. apply result_bind_Ok in Hm as (g & Hg & Hm).
  unfold filter_of, rel_filter in Hg. apply ok_or_Ok, filters_lookup in Hg as [r' Hg]. rewrite Hs in Hg. injection Hg as <- <-.
  apply result_bind_Ok in Hm as (b' & Hb & [= <-]). rewrite (tuple_cells_of _ _ Ht) in Hb. apply in_range_placed in Hb as [Hp _].
  unfold tracks. destruct b'.
  - rewrite (restrict_insert_in _ _ _ _ r f) by done. econstructor; [done|by apply restrict_lookup_None].
  - by eapply restrict_insert_out.
Qed.

Lemma delete_tracks S xid oid kt kc old k r f b :
  rows_wf S -> schema !! oid = Some (r, f) -> S !! (oid, k) = Some old -> tuple_cells kt = Ok kc -> same_key r kc old ->
  keep_message run shard_fn filters (MDelete (mkDelete xid oid (Some kt) None)) = Ok (filters, b) ->
  tracks S (PDelete oid kc) (base.delete (oid, k) S) b.
Proof.
  intros Hw Hs Hold Ht Hsame Hm. cbn [keep_message de_rel_oid de_key] in Hm. apply result_bind_Ok in Hm as (g & Hg & Hm).
  unfold filter_of, rel_filter in Hg. apply ok_or_Ok, filters_lookup in Hg as [r' Hg]. rewrite Hs in Hg. injection Hg as <- <-.
  cbn [ok_or mbind result_bind] in Hm. apply result_bind_Ok in Hm as (b' & Hb & [= <-]).
  rewrite (tuple_cells_of _ _ Ht) in Hb. apply in_range_placed in Hb as [Hp [v Hv]].
  destruct (Hw _ _ _ Hold) as (r' & f' & Hr' & -> & _). rewrite Hs in Hr'. injection Hr' as <- <-.
  destruct (key_index_of _ _ _ Hs) as [Hi _]. rewrite (placed_same f kc old (CText v)) in Hp by (done || by rewrite <- Hsame).
  unfold tracks. destruct b'; [|by eapply restrict_delete_out].
  rewrite restrict_delete, <- (key_of_same r kc old Hsame). econstructor; [done|]. rewrite (key_of_same r kc old Hsame).
  by eapply restrict_lookup_in.
Qed.

(** The cells an update's statements search by. *)
Definition update_key (key : option TupleData) (new : list Cell) : result ApplyError (list Cell) :=
  match key with Some kt => tuple_cells kt | None => Ok new end.

Lemma keep_update xid oid key new r f b :
  schema !! oid = Some (r, f) ->
  keep_message run shard_fn filters (MUpdate (mkUpdate xid oid key None (tuple_of new))) = Ok (filters, b) ->
  in_range run shard_fn f (tuple_of new) = Ok b /\ match key with Some kt => in_range run shard_fn f kt = Ok b | None => True end.
Proof.
  intros Hs Hm. cbn [keep_message up_rel_oid up_new_tuple up_key up_old] in Hm. apply result_bind_Ok in Hm as (g & Hg & Hm).
  unfold filter_of, rel_filter in Hg. apply ok_or_Ok, filters_lookup in Hg as [r' Hg]. rewrite Hs in Hg. injection Hg as <- <-.
  apply result_bind_Ok in Hm as (b' & Hb & Hm). apply result_bind_Ok in Hm as ([] & Hc & [= <-]). split; [done|].
  destruct key as [kt|]; [|done]. apply result_bind_Ok in Hc as (o & Ho & He%ensure_Ok). by apply eqb_prop in He as ->.
Qed.

(** The row before an update is placed as the row after it. *)
Lemma update_placed oid key new old r f b :
  schema !! oid = Some (r, f) -> whole_row r old ->
  match key with Some kt => exists kc, tuple_cells kt = Ok kc /\ same_key r kc old | None => key_of r (overlay old new) = key_of r old end ->
  in_range run shard_fn f (tuple_of new) = Ok b -> match key with Some kt => in_range run shard_fn f kt = Ok b | None => True end ->
  placed_in f (overlay old new) = b /\ placed_in f old = b.
Proof.
  intros Hs [Hl _] Hkey Hn Ho. destruct (key_index_of _ _ _ Hs) as [Hi Hlt]. apply in_range_placed in Hn as [Hp [v Hv]].
  destruct (lookup_lt_is_Some_2 old (rf_key_index f) ltac:(lia)) as [o Hold].
  pose proof (overlay_shipped _ _ _ _ _ Hv ltac:(done) Hold) as Hov.
  split; [by rewrite (placed_same f _ new _ Hov Hv)|]. destruct key as [kt|].
  - destruct Hkey as (kc & Hkc & Hsame). rewrite (tuple_cells_of _ _ Hkc) in Ho. apply in_range_placed in Ho as [Hpk [w Hw]].
    by rewrite (placed_same f old kc (CText w)) by (done || by rewrite <- Hsame).
  - pose proof (key_of_lookup _ _ _ _ Hkey Hi) as Hd. rewrite Hov, Hold in Hd. cbn in Hd. subst o.
    by rewrite (placed_same f old new _ Hold Hv).
Qed.

(** The statements of a kept update search for the row's identity. *)
Lemma update_searches oid key ks new old r f stmts b :
  schema !! oid = Some (r, f) -> whole_row r old -> update_key key new = Ok ks ->
  match key with Some kt => exists kc, tuple_cells kt = Ok kc /\ same_key r kc old | None => key_of r (overlay old new) = key_of r old end ->
  in_range run shard_fn f (tuple_of new) = Ok b -> change_statements rels (PUpdate oid ks new) = Ok stmts ->
  key_of r ks = key_of r old.
Proof.
  intros Hs [Hl _] Hks Hkey Hn Hc. destruct key as [kt|].
  - destruct Hkey as (kc & Hkc & Hsame). cbn [update_key] in Hks. rewrite Hkc in Hks. injection Hks as <-. by apply key_of_same.
  - injection Hks as <-. rewrite <- Hkey. apply key_of_same. intros j Hj. destruct (key_index_of _ _ _ Hs) as [_ Hlt].
    apply in_range_placed in Hn as [_ [v Hv]]. destruct (update_keys_shipped _ _ _ _ _ _ _ _ Hs Hc Hv Hlt j Hj) as [w Hw].
    rewrite Hw. symmetry. cbn [change_statements] in Hc. apply result_bind_Ok in Hc as (r' & Hr%ok_or_Ok & Hc).
    unfold rels in Hr. rewrite lookup_fmap, Hs in Hr. injection Hr as <-. apply result_bind_Ok in Hc as (o & Hu & _).
    unfold build_update in Hu. apply result_bind_Ok in Hu as ([] & Hlen & _). apply ensure_Ok, Nat.eqb_eq in Hlen.
    destruct (lookup_lt_is_Some_2 old j) as [o' Ho']; [apply lookup_lt_Some in Hw; lia|]. by eapply overlay_shipped.
Qed.

Lemma update_tracks S xid oid key tuple new old k ks r f b :
  rows_wf S -> schema !! oid = Some (r, f) -> S !! (oid, k) = Some old -> tuple_cells tuple = Ok new ->
  (key_of r (overlay old new) = k \/ S !! (oid, key_of r (overlay old new)) = None) ->
  match key with Some kt => exists kc, tuple_cells kt = Ok kc /\ same_key r kc old | None => key_of r (overlay old new) = k end ->
  update_key key new = Ok ks ->
  keep_message run shard_fn filters (MUpdate (mkUpdate xid oid key None tuple)) = Ok (filters, b) ->
  (b = true -> is_ok (change_statements rels (PUpdate oid ks new)) = true) ->
  tracks S (PUpdate oid ks new) (<[(oid, key_of r (overlay old new)) := overlay old new]> (base.delete (oid, k) S)) b.
Proof.
  intros Hw Hs Hold Ht Hfree Hkey Hks Hm Hok. destruct (Hw _ _ _ Hold) as (r' & f' & Hr' & -> & Hwh). rewrite Hs in Hr'.
  injection Hr' as <- <-. rewrite (tuple_cells_of _ _ Ht) in Hm. destruct (keep_update _ _ _ _ _ _ _ Hs Hm) as [Hn Ho].
  destruct (update_placed _ _ _ _ _ _ _ Hs Hwh Hkey Hn Ho) as [Hp Hpo]. unfold tracks. destruct b.
  - destruct (change_statements rels (PUpdate oid ks new)) as [stmts|] eqn:Ec; [|by specialize (Hok eq_refl)].
    pose proof (update_searches _ _ _ _ _ _ _ _ _ Hs Hwh Hks Hkey Hn Ec) as Hsearch.
    rewrite (restrict_insert_in _ _ _ _ r f), restrict_delete, <- Hsearch by done. econstructor; [done| |]; rewrite Hsearch.
    + by eapply restrict_lookup_in.
    + destruct Hfree as [?|?]; [by left|right; by apply restrict_lookup_None].
  - rewrite (restrict_insert_out _ _ _ _ r f); [by eapply restrict_delete_out|done|done|].
    destruct Hfree as [->|?]; [apply lookup_delete_eq|]. by rewrite lookup_delete_None; right.
Qed.

Lemma step_tracks S m S' b :
  rows_wf S -> source_step S m S' -> keep_message run shard_fn filters m = Ok (filters, b) ->
  match change_of m with
  | None => S' = S
  | Some (Ok c) => (b = true -> is_ok (change_statements rels c) = true) -> tracks S c S' b
  | Some (Err _) => False
  end.
Proof.
  intros Hw Hs Hm. destruct Hs as [S xid oid tuple row r f Hr Ht Hrow Hn|S xid oid key tuple new old k r f Hr Hold Ht Hl Hfree Hkey
    |S xid oid kt kc old k r f Hr Hold Hk Hsame|S rel r f Hr|S m|S m|S m]; cbn [change_of in_new_tuple in_rel_oid up_key up_old up_new_tuple up_rel_oid de_key de_old de_rel_oid]; try done.
  - rewrite Ht. cbn [mbind result_bind]. intros _. by eapply insert_tracks.
  - rewrite Ht. destruct (update_key key new) as [ks|e] eqn:Eks.
    + assert ((match key with Some kt => tuple_cells kt | None => Ok new end) = Ok ks) as -> by exact Eks.
      cbn [mbind result_bind]. intros Hok. eapply update_tracks; eauto.
    + destruct key as [kt|]; [|done]. destruct Hkey as (kc & Hkc & _). cbn in Eks. congruence.
  - rewrite Hk. cbn [mbind result_bind]. intros _. eapply delete_tracks; eauto.
Qed.

(** *** A body *)

Lemma statements_app relations l1 l2 :
  statements relations (l1 ++ l2) = (s1 ← statements relations l1; s2 ← statements relations l2; mret (s1 ++ s2)).
Proof.
  induction l1 as [|c l1 IH]; cbn [statements app mbind result_bind]; [by destruct (statements relations l2)|].
  rewrite IH. destruct (change_statements relations c); [|done]. cbn [mbind result_bind]. destruct (statements relations l1); [|done].
  cbn [mbind result_bind]. destruct (statements relations l2); [|done]. cbn [mbind result_bind mret result_ret]. by rewrite app_assoc.
Qed.

Lemma run_statements_app `{Target} l1 l2 rows :
  run_statements (l1 ++ l2) rows = (rows' ← run_statements l1 rows; run_statements l2 rows').
Proof.
  revert rows. induction l1 as [|sql l1 IH]; intros rows; [done|]. cbn [run_statements app].
  destruct (map_err ADb (exec_sql sql rows)) as [[n rows']|]; [|done]. cbn [mbind result_bind]. destruct (ensure _ _); [|done]. apply IH.
Qed.

Lemma statements_known known pending stmts :
  known ⊆ rels -> statements known pending = Ok stmts -> statements rels pending = Ok stmts.
Proof.
  intros Hk. assert (Hc : forall c l, change_statements known c = Ok l -> change_statements rels c = Ok l).
  { intros c l. assert (Hr : forall oid r, relation_of known oid = Ok r -> relation_of rels oid = Ok r).
    { intros oid r. unfold relation_of. rewrite !ok_or_Ok. intros Ho. by eapply lookup_weaken. }
    destruct c; cbn [change_statements]; intros (r & Hx & Hl)%result_bind_Ok; by rewrite (Hr _ _ Hx). }
  revert stmts. induction pending as [|c pending IH]; intros stmts; [done|]. cbn [statements].
  intros (l & Hl & (ss & Hss & [= <-])%result_bind_Ok)%result_bind_Ok. rewrite (Hc _ _ Hl). cbn [mbind result_bind]. by rewrite (IH _ Hss).
Qed.

(** A message the filter has an answer for. *)
Definition accepted (m : LogicalRepMsg) : Prop := exists b, keep_message run shard_fn filters m = Ok (filters, b).

Lemma kept_change_of m b : keep_message run shard_fn filters m = Ok (filters, b) ->
  kept_change m = if b then match change_of m with Some (Ok c) => Some c | _ => None end else None.
Proof. unfold kept_change, kept. by intros ->. Qed.

(** A body's statements, run on the restricted rows before it, end in the restricted
    rows after it. *)
Lemma body_runs `{Target} (tbl : Rows -> RowMap) S ms S' :
  source_steps S ms S' -> rows_wf S -> Forall accepted ms -> Forall (executes tbl) (kept_changes ms) ->
  rows_wf S' /\ forall stmts rows, statements rels (kept_changes ms) = Ok stmts -> tbl rows = restrict S ->
    exists rows', run_statements stmts rows = Ok rows' /\ tbl rows' = restrict S'.
Proof.
  induction 1 as [S|S ms S' m S'' Hs IH Hm]; intros Hw Ha He.
  - split; [done|]. intros stmts rows [= <-] Ht. by exists rows.
  - unfold kept_changes in *. rewrite omap_app in *. apply Forall_app in Ha as [Ha [b Hb]%Forall_singleton]. apply Forall_app in He as [He Hem].
    destruct (IH Hw Ha He) as [Hw' Hrun]. split; [by eapply source_step_wf|]. intros stmts rows Hst Ht. rewrite statements_app in Hst.
    apply result_bind_Ok in Hst as (s1 & Hs1 & (s2 & Hs2 & [= <-])%result_bind_Ok). destruct (Hrun _ _ Hs1 Ht) as (rows1 & Hr1 & Ht1).
    rewrite run_statements_app, Hr1. cbn [mbind result_bind]. pose proof (step_tracks _ _ _ _ Hw' Hm Hb) as Htr.
    cbn [omap list_omap] in Hs2, Hem. rewrite (kept_change_of _ _ Hb) in Hs2, Hem. destruct (change_of m) as [[c|e]|]; [|done|].
    + destruct b; cbn [statements] in Hs2.
      * apply result_bind_Ok in Hs2 as (l & Hl & [= <-]). rewrite app_nil_r. rewrite Hl in Htr. specialize (Htr (fun _ => eq_refl)).
        apply (proj1 (Forall_singleton _ _)) in Hem. apply Hem; [done|]. by rewrite Ht1.
      * injection Hs2 as <-. exists rows1. split; [done|]. rewrite Ht1. symmetry. by apply Htr.
    + assert ((if b then @None PendingChange else None) = None) as E by by destruct b. rewrite E in Hs2. injection Hs2 as <-.
      subst S''. by exists rows1.
Qed.

(** ** The stream *)

(** The positions of the log's transactions. *)
Definition positions (log : list SourceTxn) : list Txn :=
  (fun t => mkTxn [] (cm_commit_lsn (st_commit t)) (cm_end_lsn (st_commit t))) <$> log.

Definition messages (log : list SourceTxn) : list LogicalRepMsg := concat (txn_messages <$> log).

(** Every status in [l] reports a position up to [bound]. *)
Definition reports_upto (bound : Lsn) (l : list (list ascii)) : Prop :=
  Forall (fun b => exists p, p <= bound /\ reports_confirmed p b) l.

(** *** What a stream leaves on the target *)

Context `{PP : Protocol} `{TT : Target} (tbl : Rows -> RowMap) (S0 : RowMap) (log : list SourceTxn) (states : list RowMap).
(** The connection when the stream began, and the slot's consistent point. *)
Context (client0 : ReplicationClient) (consistent_point : Lsn).

(** A barrier of the cutover: a transactional message with the [pgshard] prefix. *)
Definition is_barrier (j : Lsn) (m : LogicalRepMsg) : Prop :=
  match m with MMessage g => mg_prefix g = "pgshard" /\ mg_transactional g = true /\ mg_lsn g = j | _ => False end.

(** The barrier at [j] is in one of the first [k] transactions. *)
Definition barrier_within (k : nat) (j : Lsn) : Prop :=
  exists i t m, (i < k)%nat /\ log !! i = Some t /\ m ∈ st_body t /\ is_barrier j m.

(** The published watermarks speak of the first [k] transactions. *)
Definition status_honest (k : nat) (st : WorkflowStatus) : Prop :=
  (forall j, wst_journal_lsn st = Some j -> barrier_within k j) /\
  (wst_applied_lsn st = Some consistent_point \/ exists p, wst_applied_lsn st = Some p /\ p <= end_at (positions log) k).

(** The target holds the restriction of the source after the first [k] transactions and
    says so in its progress row; the source was told of no position beyond, and the
    status claims none. *)
Definition target_holds (k : nat) (s : Streamer) : Prop :=
  (exists Sk, states !! k = Some Sk /\ tbl (db_rows (sr_db s)) = restrict Sk) /\
  db_progress (sr_db s) !! rp_id run = match k with O => None | _ => Some (commit_at (positions log) k, end_at (positions log) k) end /\
  rc_confirmed_lsn (sr_client s) <= Z.max (rc_confirmed_lsn client0) (end_at (positions log) k) /\
  (exists l, rc_sent (sr_client s) = rc_sent client0 ++ l /\ reports_upto (Z.max (rc_confirmed_lsn client0) (end_at (positions log) k)) l) /\
  status_honest k (sr_status s).

(** A worker that has seen [n] commits. *)
Definition live (n : nat) (s : Streamer) : Prop :=
  sr_relations s ⊆ filters /\ ap_relations (sr_applier s) ⊆ rels /\ ap_consumer (sr_applier s) = rp_id run /\
  ap_checkpoint (sr_applier s) = commit_at (positions log) n /\ ap_ack (sr_applier s) = end_at (positions log) n.

(** Where the worker is when [rest] of the stream is still to come: between two
    transactions, or inside one with the changes so far buffered. *)
Definition between (n : nat) (rest : list LogicalRepMsg) : Prop := rest = messages (drop n log).
Definition journal_pending (s : Streamer) (ms : list LogicalRepMsg) : Prop :=
  forall j, sr_pending_journal s = Some j -> exists m, m ∈ ms /\ is_barrier j m.
Definition inside (n : nat) (s : Streamer) (rest : list LogicalRepMsg) : Prop :=
  exists t ms ms', log !! n = Some t /\ st_body t = ms ++ ms' /\ rest = ms' ++ MCommit (st_commit t) :: messages (drop (Datatypes.S n) log) /\
    Forall accepted ms /\ ap_pending (sr_applier s) = kept_changes ms /\ journal_pending s ms.

Definition stream_at (n : nat) (s : Streamer) (rest : list LogicalRepMsg) : Prop :=
  target_holds n s /\ live n s /\ ((between n rest /\ sr_pending_journal s = None) \/ inside n s rest).

(** The messages of a run's turns, as the decoder gives them. *)
Fixpoint received (publication : PublicationBaseline) (choices : list Choice) (s : Streamer) : list LogicalRepMsg :=
  match choices with
  | [] => []
  | ch :: rest =>
      match ch with
      | ChFrame _ =>
          match on_client next s with
          | (s1, Ok (Some x)) => match decode_frame_data (xl_data x) s1 with (_, Ok m) => [m] | _ => [] end
          | _ => []
          end
      | _ => []
      end ++ match turn run shard_fn publication ch s with (s', Ok false) => received publication rest s' | _ => [] end
  end.

(** The commits of a piece of the stream. *)
Definition commits (ms : list LogicalRepMsg) : nat := length (List.filter (fun m => match m with MCommit _ => true | _ => false end) ms).

Context (Hhist : history S0 log states) (Hrows : rows_wf S0) (Hlog : log_wf (positions log)).
Context (Hexec : Forall (fun t => Forall (executes tbl) (kept_changes (st_body t))) log).

Lemma history_at S l sts : history S l sts ->
  sts !! 0%nat = Some S /\ forall n t, l !! n = Some t ->
    exists Sn Sn', sts !! n = Some Sn /\ sts !! Datatypes.S n = Some Sn' /\ source_steps Sn (st_body t) Sn'.
Proof.
  induction 1 as [S|S t S' l sts Hs Hh [IH0 IH]]; [done|]. split; [done|]. intros [|n] u Hu.
  - injection Hu as <-. by exists S, S'.
  - by apply IH.
Qed.

Lemma history_length S l sts : history S l sts -> length sts = Datatypes.S (length l).
Proof. induction 1; cbn; lia. Qed.

Lemma steps_wf S ms S' : source_steps S ms S' -> rows_wf S -> rows_wf S'.
Proof. induction 1; intros Hw; [done|]. eapply source_step_wf; eauto. Qed.

Lemma history_wf S l sts : history S l sts -> rows_wf S -> Forall rows_wf sts.
Proof. induction 1 as [|S t S' l sts Hs _ IH]; intros Hw; constructor; [done|constructor|done|]. apply IH. by eapply steps_wf. Qed.

Lemma body_step S ms S' m : source_steps S ms S' -> m ∈ ms -> exists S1 S2, source_step S1 m S2.
Proof.
  induction 1 as [S|S ms S' m' S'' Hs IH Hm]; [by intros ?%elem_of_nil|]. rewrite elem_of_app, list_elem_of_singleton.
  intros [?| ->]; [by apply IH|by eauto].
Qed.

(** *** One message of the stream *)

Definition same_target (s s' : Streamer) : Prop := sr_db s' = sr_db s /\ sr_client s' = sr_client s /\ sr_status s' = sr_status s.

Lemma target_holds_same k s s' : same_target s s' -> target_holds k s -> target_holds k s'.
Proof. intros (Hd & Hc & Hs). unfold target_holds. by rewrite Hd, Hc, Hs. Qed.

Lemma note_journal_same m s : exists s1, note_journal m s = (s1, Ok tt) /\ same_target s s1 /\
  sr_applier s1 = sr_applier s /\ sr_relations s1 = sr_relations s /\ forall ms, journal_pending s ms -> journal_pending s1 (ms ++ [m]).
Proof.
  assert (Hkeep : forall ms, journal_pending s ms -> journal_pending s (ms ++ [m])).
  { intros ms Hp j (m' & Hm & Hb)%Hp. exists m'. split; [set_solver|done]. }
  unfold note_journal, modify. eexists. split; [done|]. destruct m; try done.
  destruct (bool_decide _ && _) eqn:E; [|done]. apply andb_true_iff in E as [E1%bool_decide_eq_true E2].
  repeat (split; [done|]). intros ms _ j [= <-]. eexists. split; [apply elem_of_app; right; by apply list_elem_of_singleton|done].
Qed.

(** What the worker does with a message that is not a commit. *)
Lemma on_message_buffers fault m s s' r :
  match m with MCommit _ => False | _ => True end -> on_message run shard_fn fault m s = (s', r) ->
  same_target s s' /\ (forall ms, journal_pending s ms -> journal_pending s' (ms ++ [m])) /\
  (r = Ok tt -> exists known kept a', keep_message run shard_fn (sr_relations s) m = Ok (known, kept) /\ sr_relations s' = known /\
     sr_applier s' = a' /\ if kept then handle fault m (sr_applier s) (sr_db s) = (a', sr_db s, Ok tt) else a' = sr_applier s).
Proof.
  intros Hm. unfold on_message. rewrite bind_run. destruct (note_journal_same m s) as (s1 & -> & (Hd & Hc & Hst) & Ha & Hr & Hj).
  rewrite bind_run. cbn [gets]. rewrite bind_run. unfold lift. rewrite Hr. destruct (keep_message _ _ _ _) as [[known kept]|e]; [|by intros [= <- <-]].
  rewrite bind_run. cbn [set_relations modify]. rewrite bind_run. destruct kept.
  - unfold apply_message. cbn [sr_applier sr_db]. rewrite Ha, Hd. destruct (handle_buffers fault m (sr_applier s) (sr_db s) Hm) as (a' & r' & Hh & _ & _).
    rewrite Hh. destruct r' as [[]|e]; cbn [map_err].
    + destruct m; try done; intros [= <- <-]; (split; [by repeat split|]); (split; [exact Hj|]); intros _; by eexists _, true, _.
    + intros [= <- <-]. split; [by repeat split|]. split; [exact Hj|done].
  - destruct m; try done; intros [= <- <-]; (split; [by repeat split|]); (split; [exact Hj|]); intros _; by eexists _, false, _.
Qed.

Lemma messages_cons n t : log !! n = Some t ->
  messages (drop n log) = MBegin (st_begin t) :: st_body t ++ MCommit (st_commit t) :: messages (drop (Datatypes.S n) log).
Proof. intros Ht. rewrite (drop_S _ _ _ Ht). unfold messages. rewrite fmap_cons. cbn [concat txn_messages app]. by rewrite <- app_assoc. Qed.

Lemma between_begin n m rest : between n (m :: rest) ->
  exists t, log !! n = Some t /\ m = MBegin (st_begin t) /\ rest = st_body t ++ MCommit (st_commit t) :: messages (drop (Datatypes.S n) log).
Proof.
  unfold between. intros Hm. destruct (log !! n) as [t|] eqn:Et.
  - rewrite (messages_cons _ _ Et) in Hm. injection Hm as -> ->. by exists t.
  - by rewrite drop_ge in Hm by by apply lookup_ge_None.
Qed.

Lemma begin_step fault n s m rest s' r :
  target_holds n s -> live n s -> between n (m :: rest) -> sr_pending_journal s = None ->
  on_message run shard_fn fault m s = (s', r) -> stream_at n s' rest /\ r = Ok tt.
Proof.
  intros Ht (Hf & Ha & Hl) (t & Hlt & -> & ->)%between_begin Hj Hm. unfold on_message in Hm. rewrite bind_run in Hm.
  cbn in Hm. injection Hm as <- <-. split; [|done]. split; [by eapply target_holds_same|]. split; [done|]. right. exists t, [], (st_body t). repeat (split; [done|]). intros j Hj'. cbn in Hj'. congruence.
Qed.

Lemma accept_buffers fault m S1 S2 known known' kept a a' db :
  source_step S1 m S2 -> known ⊆ filters -> ap_relations a ⊆ rels -> keep_message run shard_fn known m = Ok (known', kept) ->
  (if kept then handle fault m a db = (a', db, Ok tt) else a' = a) ->
  ap_relations a' ⊆ rels /\ same_positions a a' /\ ap_pending a' = ap_pending a ++ kept_changes [m].
Proof.
  intros Hs Hk Ha Hm Hh. destruct (keep_message_known _ _ _ _ _ _ Hs Hk Hm) as [_ Hb].
  unfold kept_changes. cbn [omap list_omap]. rewrite (kept_change_of _ _ Hb). destruct kept; [|subst a'; by rewrite app_nil_r].
  assert (Hrel : forall oid r f, schema !! oid = Some (r, f) -> rels !! oid = Some r).
  { intros oid r f Ho. unfold rels. by rewrite lookup_fmap, Ho. }
  destruct Hs as [S xid oid tuple row r f Hr Ht _ _|S xid oid key tuple new old k r f Hr _ Ht _ _ Hkey
    |S xid oid kt kc old k r f Hr _ Hkt _|S rel r f Hr Hi _|S m|S m|S m]; cbn [handle] in Hh; try (injection Hh as <-; by rewrite app_nil_r).
  all: try (destruct (change_of _) as [[c|e]|]; [injection Hh as <-; done|done|injection Hh as <-; by rewrite app_nil_r]).
  injection Hh as <-. cbn. rewrite app_nil_r. split; [|done]. apply insert_subseteq_l; [|done]. rewrite Hi. by eapply Hrel.
Qed.

Lemma body_step_at fault n s m rest s' r t ms ms' :
  target_holds n s -> live n s -> log !! n = Some t -> st_body t = ms ++ m :: ms' -> Forall accepted ms ->
  ap_pending (sr_applier s) = kept_changes ms -> journal_pending s ms -> rest = ms' ++ MCommit (st_commit t) :: messages (drop (Datatypes.S n) log) ->
  on_message run shard_fn fault m s = (s', r) ->
  match r with Ok _ => stream_at n s' rest | Err _ => target_holds n s' end.
Proof.
  intros Ht (Hf & Ha & Hl) Hlt Hb Hacc Hp Hj Hr Hm. destruct (history_at _ _ _ Hhist) as [_ Hat].
  destruct (Hat _ _ Hlt) as (Sn & Sn' & _ & _ & Hsteps). destruct (body_step _ _ _ m Hsteps) as (S1 & S2 & Hstep).
  { rewrite Hb. set_solver. }
  assert (Hnc : match m with MCommit _ => False | _ => True end) by by destruct Hstep.
  destruct (on_message_buffers _ _ _ _ _ Hnc Hm) as (Hsame & Hj' & Hok). destruct r as [[]|e]; [|by eapply target_holds_same].
  destruct (Hok eq_refl) as (known & kept & a' & Hk & Hrel & Ha' & Hh).
  destruct (keep_message_known _ _ _ _ _ _ Hstep Hf Hk) as [Hknown Hfull].
  destruct (accept_buffers _ _ _ _ _ _ _ _ _ _ Hstep Hf Ha Hk Hh) as (Hrels & (Hp1 & Hp2 & Hp3) & Hpend).
  split; [by eapply target_holds_same|]. split; [unfold live; by rewrite Hrel, Ha', Hp1, Hp2, Hp3|]. right. exists t, (ms ++ [m]), ms'.
  split; [done|]. split; [by rewrite <- app_assoc|]. split; [done|]. split; [apply Forall_app; split; [done|]; apply Forall_singleton; by eexists|].
  split; [unfold kept_changes; by rewrite omap_app, Ha', Hpend, Hp|by apply Hj'].
Qed.

(** *** The commit *)

Lemma apply_txn_rows fault (a : Applier) stmts c e (db db' : Db) : apply_txn fault a stmts c e db = Ok db' ->
  exists rows, run_statements stmts (db_rows db) = Ok rows /\
    db' = mkDb rows (<[ap_consumer a := (as_i64 c, as_i64 e)]> (db_progress db)).
Proof.
  unfold apply_txn. intros Ha.
  assert (exists rows, run_statements stmts (db_rows db) = Ok rows /\
    (let '(adv, db1) := advance_progress (ap_consumer a) (as_i64 c) (as_i64 e) (mkDb rows (db_progress db)) in
     (adv =? 1) = true /\ db' = db1)) as (rows & Hr & Hadv).
  { destruct fault; try done; destruct (run_statements _ _) as [rows|]; try done; exists rows; (split; [done|]);
      cbn [mbind result_bind] in Ha; try done; destruct (advance_progress _ _ _ _) as [adv db1];
      (destruct (adv =? 1); [|done]); (split; [done|]); by injection Ha as <-. }
  exists rows. split; [done|]. unfold advance_progress in Hadv. cbn [db_progress db_rows] in Hadv.
  destruct (db_progress db !! ap_consumer a) as [[old x]|]; [destruct (_ <? _)|]; naive_solver.
Qed.

(** A commit of a transaction the worker has not seen leaves the target as it was, or
    with the transaction and its position. *)
Lemma commit_outcome fault c e (a a' : Applier) (db db' : Db) r :
  ap_checkpoint a < c -> Apply.commit fault c e a db = (a', db', r) ->
  (r <> Ok tt /\ db' = db) \/
  (exists stmts rows, statements (ap_relations a) (ap_pending a) = Ok stmts /\ run_statements stmts (db_rows db) = Ok rows /\
     db' = mkDb rows (<[ap_consumer a := (as_i64 c, as_i64 e)]> (db_progress db)) /\
     (r = Ok tt -> a' = mkApplier (ap_relations a) (ap_consumer a) c (Z.max (ap_ack a) e) [])).
Proof.
  intros Hc. unfold Apply.commit. destruct (Z.leb_spec c (ap_checkpoint a)); [lia|].
  destruct (statements _ _) as [stmts|err]; [|intros [= <- <- <-]; by left].
  destruct (apply_txn _ _ _ _ _ _) as [db1|err] eqn:Ea; [|intros [= <- <- <-]; by left].
  apply apply_txn_rows in Ea as (rows & Hr & ->).
  destruct fault; intros [= <- <- <-]; first [by left | right; by exists stmts, rows].
Qed.

Lemma positions_at n t : log !! n = Some t ->
  commit_at (positions log) (Datatypes.S n) = cm_commit_lsn (st_commit t) /\ end_at (positions log) (Datatypes.S n) = cm_end_lsn (st_commit t).
Proof. intros Ht. unfold commit_at, end_at, positions. by rewrite list_lookup_fmap, Ht. Qed.

(** The committed rows are the restriction of the next state. *)
Lemma commit_rows n t s stmts rows :
  target_holds n s -> live n s -> log !! n = Some t -> Forall accepted (st_body t) ->
  ap_pending (sr_applier s) = kept_changes (st_body t) ->
  statements (ap_relations (sr_applier s)) (ap_pending (sr_applier s)) = Ok stmts -> run_statements stmts (db_rows (sr_db s)) = Ok rows ->
  exists Sk, states !! Datatypes.S n = Some Sk /\ tbl rows = restrict Sk.
Proof.
  intros ((Sk & HSk & Htbl) & _) (_ & Ha & _) Hlt Hacc Hp Hst Hrun. destruct (history_at _ _ _ Hhist) as [_ Hat].
  destruct (Hat _ _ Hlt) as (Sn & Sn' & HSn & HSn' & Hsteps). rewrite HSk in HSn. injection HSn as <-. exists Sn'. split; [done|].
  rewrite Hp in Hst. apply (statements_known _ _ _ Ha) in Hst.
  destruct (body_runs tbl Sk (st_body t) Sn' Hsteps) as [_ Hbody].
  - pose proof (history_wf _ _ _ Hhist Hrows) as Hall. by eapply (Forall_lookup_1 _ _ _ _ Hall).
  - done.
  - by eapply (Forall_lookup_1 _ _ _ _ Hexec).
  - destruct (Hbody _ _ Hst Htbl) as (rows' & Hrun' & <-). congruence.
Qed.

Lemma target_grows n s db' client t rows :
  target_holds n s -> log !! n = Some t -> (exists Sk, states !! Datatypes.S n = Some Sk /\ tbl rows = restrict Sk) ->
  db' = mkDb rows (<[rp_id run := (as_i64 (cm_commit_lsn (st_commit t)), as_i64 (cm_end_lsn (st_commit t)))]> (db_progress (sr_db s))) ->
  rc_confirmed_lsn client <= Z.max (rc_confirmed_lsn client0) (cm_end_lsn (st_commit t)) ->
  (exists l, rc_sent client = rc_sent (sr_client s) ++ l /\ reports_upto (Z.max (rc_confirmed_lsn client0) (cm_end_lsn (st_commit t))) l) ->
  forall s', sr_db s' = db' -> sr_client s' = client -> status_honest (Datatypes.S n) (sr_status s') -> target_holds (Datatypes.S n) s'.
Proof.
  intros (_ & _ & Hc & (l & Hl & Hup) & _) Hlt HSk -> Hconf (l' & Hl' & Hup') s' Hd Hcl Hst. unfold target_holds. rewrite Hd, Hcl.
  destruct (positions_at _ _ Hlt) as [Hcp Hep]. rewrite Hcp, Hep. cbn [db_rows db_progress].
  pose proof (lookup_lt_Some _ _ _ Hlt) as Hn. pose proof (log_positions (positions log) n Hlog ltac:(unfold positions; by rewrite length_fmap)) as Hpos.
  rewrite Hcp, Hep in Hpos. split; [done|]. split; [rewrite lookup_insert_eq; by rewrite !as_i64_pos by lia|]. split; [done|].
  split; [|done]. exists (l ++ l'). split; [by rewrite Hl', Hl, app_assoc|]. apply Forall_app. split; [|done].
  eapply Forall_impl; [exact Hup|]. intros b (p & Hp & Hb). exists p. split; [lia|done].
Qed.

Lemma acknowledge_run s s' r : acknowledge s = (s', r) ->
  sr_db s' = sr_db s /\ sr_relations s' = sr_relations s /\ sr_applier s' = sr_applier s /\
  rc_confirmed_lsn (sr_client s') = Z.max (rc_confirmed_lsn (sr_client s)) (ap_ack (sr_applier s)) /\
  (exists l, rc_sent (sr_client s') = rc_sent (sr_client s) ++ l /\ Forall (reports_confirmed (rc_confirmed_lsn (sr_client s'))) l) /\
  ((r <> Ok tt /\ sr_status s' = sr_status s) \/
   (sr_pending_journal s' = None /\ wst_applied_lsn (sr_status s') = Some (ap_ack (sr_applier s)) /\
    wst_journal_lsn (sr_status s') = match sr_pending_journal s with Some j => Some j | None => wst_journal_lsn (sr_status s) end)).
Proof.
  unfold acknowledge. rewrite bind_run. cbn [gets]. rewrite bind_run. cbn [with_client modify]. rewrite bind_run. unfold on_client. cbn [sr_client].
  destruct (send_standby_status _) as [c' r'] eqn:E. apply only_reports_status in E as (Hc & l & Hs & Hl).
  assert (Hconf : rc_confirmed_lsn (confirm (ap_ack (sr_applier s)) (sr_client s)) = Z.max (rc_confirmed_lsn (sr_client s)) (ap_ack (sr_applier s))
    /\ rc_sent (confirm (ap_ack (sr_applier s)) (sr_client s)) = rc_sent (sr_client s)).
  { unfold confirm. destruct (Z.gtb_spec (ap_ack (sr_applier s)) (rc_confirmed_lsn (sr_client s))); cbn; split; (done || lia). }
  destruct Hconf as [Hconf Hsent]. rewrite Hconf in Hc. rewrite Hsent in Hs. rewrite Hconf, <- Hc in Hl.
  destruct r' as [[]|e]; cbn [map_err]; intros [= <- <-]; cbn; (split; [done|]); (split; [done|]); (split; [done|]); (split; [done|]);
    (split; [by exists l|]); [by right|by left].
Qed.

Lemma honest_grows n st : status_honest n st -> (n < length log)%nat -> status_honest (Datatypes.S n) st.
Proof.
  intros [Hj Ha] Hn. pose proof (log_positions (positions log) n Hlog ltac:(unfold positions; by rewrite length_fmap)) as Hpos. split.
  - intros j (i & t & m & Hi & Hrest)%Hj. exists i, t, m. split; [lia|done].
  - destruct Ha as [?|(p & ? & ?)]; [by left|right; exists p; split; [done|lia]].
Qed.

(** The watermarks an acknowledged commit publishes. *)
Lemma honest_acknowledged n t s st :
  status_honest n (sr_status s) -> log !! n = Some t -> journal_pending s (st_body t) ->
  wst_applied_lsn st = Some (Z.max (end_at (positions log) n) (cm_end_lsn (st_commit t))) ->
  wst_journal_lsn st = match sr_pending_journal s with Some j => Some j | None => wst_journal_lsn (sr_status s) end ->
  status_honest (Datatypes.S n) st.
Proof.
  intros Hh Hlt Hp Happ Hjl. pose proof (lookup_lt_Some _ _ _ Hlt) as Hn. destruct (honest_grows _ _ Hh Hn) as [Hj _].
  pose proof (log_positions (positions log) n Hlog ltac:(unfold positions; by rewrite length_fmap)) as Hpos.
  destruct (positions_at _ _ Hlt) as [_ Het]. split.
  - intros j. rewrite Hjl. destruct (sr_pending_journal s) as [j'|] eqn:Ej; [|apply Hj]. intros [= ->].
    destruct (Hp j Ej) as (m & Hm & Hb). exists n, t, m. split; [lia|done].
  - right. eexists. split; [exact Happ|]. rewrite Het in *. lia.
Qed.

Lemma commit_at_message fault n s t rest s' r :
  target_holds n s -> live n s -> log !! n = Some t -> Forall accepted (st_body t) ->
  ap_pending (sr_applier s) = kept_changes (st_body t) -> journal_pending s (st_body t) -> rest = messages (drop (Datatypes.S n) log) ->
  on_message run shard_fn fault (MCommit (st_commit t)) s = (s', r) ->
  match r with
  | Ok _ => stream_at (Datatypes.S n) s' rest
  | Err _ => target_holds n s' \/ target_holds (Datatypes.S n) s'
  end.
Proof.
  intros Ht Hlive Hlt Hacc Hp Hj Hrest Hm. pose proof Ht as (_ & _ & Hconf & _ & Hhon). pose proof Hlive as (Hf & Ha & Hcons & Hcp & Hack).
  pose proof (lookup_lt_Some _ _ _ Hlt) as Hn. pose proof (log_positions (positions log) n Hlog ltac:(unfold positions; by rewrite length_fmap)) as Hpos.
  destruct (positions_at _ _ Hlt) as [Hct Het]. rewrite Hct, Het in Hpos.
  unfold on_message in Hm. rewrite bind_run in Hm. cbn [note_journal modify] in Hm. rewrite bind_run in Hm. cbn [gets] in Hm.
  rewrite bind_run in Hm. cbn [keep_message] in Hm. unfold lift in Hm. cbn [mret result_ret] in Hm. rewrite bind_run in Hm.
  cbn [set_relations modify] in Hm. rewrite bind_run in Hm. unfold apply_message in Hm. cbn [handle sr_applier sr_db sr_client sr_decoder sr_relations sr_pending_journal sr_status] in Hm.
  destruct (Apply.commit fault _ _ _ _) as [[a' db'] r'] eqn:Ec. apply commit_outcome in Ec; [|rewrite Hcp; lia].
  destruct Ec as [[Hr ->]|(stmts & rows & Hst & Hrun & Hdb & Hok)].
  - destruct r' as [[]|e]; [done|]. injection Hm as <- <-. left. by eapply target_holds_same.
  - pose proof (commit_rows _ _ _ _ _ Ht Hlive Hlt Hacc Hp Hst Hrun) as HSk. rewrite Hcons in Hdb.
    destruct r' as [[]|e]; cbn [map_err] in Hm.
    + apply acknowledge_run in Hm as (Hd & Hrel & Hap & Hcf & (l & Hs & Hl) & Hst'). cbn [sr_db sr_relations sr_applier sr_client sr_status sr_pending_journal] in *.
      specialize (Hok eq_refl). subst a'. cbn [ap_ack] in Hcf. rewrite Hack in Hcf.
      assert (Hbound : rc_confirmed_lsn (sr_client s') <= Z.max (rc_confirmed_lsn client0) (cm_end_lsn (st_commit t))) by lia.
      assert (status_honest (Datatypes.S n) (sr_status s')).
      { destruct Hst' as [[_ ->]|(_ & Happ & Hjl)]; [by apply honest_grows|]. eapply honest_acknowledged; [exact Hhon|done|done| |done].
        by rewrite Happ, Hack. }
      assert (target_holds (Datatypes.S n) s').
      { eapply target_grows; [exact Ht|exact Hlt|exact HSk|exact Hdb|exact Hbound| |done|done|done]. exists l. split; [done|].
        eapply Forall_impl; [exact Hl|]. intros b Hb. by exists (rc_confirmed_lsn (sr_client s')). }
      destruct r as [[]|e]; [|by right]. split; [done|]. split; [|left; split; [done|]; by destruct Hst' as [[? _]|[? _]]]. unfold live. rewrite Hrel, Hap.
      cbn [ap_relations ap_consumer ap_checkpoint ap_ack]. rewrite Hct, Het, Hack. split; [done|]. split; [done|]. split; [done|]. split; [done|lia].
    + injection Hm as <- <-. right. eapply target_grows; [exact Ht|exact Hlt|exact HSk|exact Hdb| | |done|done|by apply honest_grows].
      * cbn [sr_client]. lia.
      * exists []. split; [by rewrite app_nil_r|constructor].
Qed.

(** One message of the stream, whatever fails. *)
Lemma message_step fault n s m rest s' r :
  stream_at n s (m :: rest) -> on_message run shard_fn fault m s = (s', r) ->
  match r with
  | Ok _ => stream_at (n + commits [m]) s' rest
  | Err _ => exists k, (n <= k <= n + commits [m])%nat /\ target_holds k s'
  end.
Proof.
  intros (Ht & Hl & Hp) Hm. destruct Hp as [[Hb Hj]|(t & ms & ms' & Hlt & Hbody & Hrest & Hacc & Hpend & Hj)].
  - destruct (between_begin _ _ _ Hb) as (t & _ & -> & _). destruct (begin_step _ _ _ _ _ _ _ Ht Hl Hb Hj Hm) as [Hs ->].
    cbn [commits List.filter length]. by rewrite Nat.add_0_r.
  - destruct ms' as [|m' ms'].
    + injection Hrest as -> ->. rewrite app_nil_r in Hbody. subst ms.
      pose proof (commit_at_message _ _ _ _ _ _ _ Ht Hl Hlt Hacc Hpend Hj eq_refl Hm) as Hc. cbn [commits List.filter length].
      rewrite Nat.add_1_r. destruct r; [done|]. destruct Hc as [Hc|Hc]; eexists; (split; [|exact Hc]); lia.
    + injection Hrest as -> ->. pose proof (body_step_at _ _ _ _ _ _ _ _ _ _ Ht Hl Hlt Hbody Hacc Hpend Hj eq_refl Hm) as Hc.
      assert (commits [m'] = 0%nat) as ->.
      { destruct (history_at _ _ _ Hhist) as [_ Hat]. destruct (Hat _ _ Hlt) as (Sn & Sn' & _ & _ & Hsteps).
        destruct (body_step _ _ _ m' Hsteps) as (S1 & S2 & Hstep); [rewrite Hbody; set_solver|]. by destruct Hstep. }
      rewrite Nat.add_0_r. destruct r; [done|]. exists n. split; [lia|done].
Qed.

(** *** The turns *)

(** Only the connection, the decoder and the status moved, and what was sent reports
    the confirmed position. *)
Definition calm (s s' : Streamer) : Prop :=
  sr_db s' = sr_db s /\ sr_applier s' = sr_applier s /\ sr_relations s' = sr_relations s /\
  rc_confirmed_lsn (sr_client s') = rc_confirmed_lsn (sr_client s) /\ sr_pending_journal s' = sr_pending_journal s /\
  wst_journal_lsn (sr_status s') = wst_journal_lsn (sr_status s) /\ wst_applied_lsn (sr_status s') = wst_applied_lsn (sr_status s) /\
  exists l, rc_sent (sr_client s') = rc_sent (sr_client s) ++ l /\ Forall (reports_confirmed (rc_confirmed_lsn (sr_client s))) l.

Lemma calm_quiet s s' : sr_db s' = sr_db s -> sr_applier s' = sr_applier s -> sr_relations s' = sr_relations s ->
  sr_client s' = sr_client s -> sr_pending_journal s' = sr_pending_journal s ->
  wst_journal_lsn (sr_status s') = wst_journal_lsn (sr_status s) -> wst_applied_lsn (sr_status s') = wst_applied_lsn (sr_status s) -> calm s s'.
Proof. intros ? ? ? Hc ? ? ?. unfold calm. rewrite Hc. repeat (split; [done|]). exists []. by rewrite app_nil_r. Qed.

Lemma calm_trans s1 s2 s3 : calm s1 s2 -> calm s2 s3 -> calm s1 s3.
Proof.
  intros (Hd & Ha & Hr & Hc & Hp & Hj & Hw & l & Hl & Hf) (Hd' & Ha' & Hr' & Hc' & Hp' & Hj' & Hw' & l' & Hl' & Hf'). unfold calm.
  rewrite Hd', Hd, Ha', Ha, Hr', Hr, Hc', Hc, Hp', Hp, Hj', Hj, Hw', Hw.
  repeat (split; [done|]). exists (l ++ l'). split; [by rewrite Hl', Hl, app_assoc|]. apply Forall_app. split; [done|]. by rewrite <- Hc.
Qed.

Lemma calm_holds s s' k : calm s s' -> target_holds k s -> target_holds k s'.
Proof.
  intros (Hd & _ & _ & Hc & _ & Hj & Hw & l & Hl & Hr) (Hrow & Hp & Hb & (l0 & Hl0 & Hr0) & Hst). unfold target_holds, status_honest in *.
  rewrite Hd, Hc, Hj, Hw. split; [done|]. split; [done|]. split; [done|]. split; [|done]. exists (l0 ++ l). split; [by rewrite Hl, Hl0, app_assoc|]. apply Forall_app. split; [done|].
  eapply Forall_impl; [exact Hr|]. intros b Hrep. by exists (rc_confirmed_lsn (sr_client s)).
Qed.

Lemma calm_at s s' n rest : calm s s' -> stream_at n s rest -> stream_at n s' rest.
Proof.
  intros Hc (Ht & Hl & Hp). split; [by eapply calm_holds|]. destruct Hc as (_ & Ha & Hr & _ & Hj & _).
  unfold live, inside, journal_pending in *. by rewrite Ha, Hr, Hj.
Qed.

Lemma next_calm s s' r : on_client next s = (s', r) -> calm s s'.
Proof.
  unfold on_client. destruct (next (sr_client s)) as [c o] eqn:E. apply only_reports_next in E as (Hc & l & Hl & Hr).
  intros [= <- <-]. repeat (split; [done|]). by exists l.
Qed.

Lemma decode_calm data s s' r : decode_frame_data data s = (s', r) -> calm s s'.
Proof. unfold decode_frame_data. destruct (PgOutput.decode _ _) as [d o]. intros [= <- <-]. by apply calm_quiet. Qed.

(** A turn that brings no message is calm. *)
Lemma turn_calm publication ch s s' r :
  match ch with ChFrame _ => False | _ => True end -> turn run shard_fn publication ch s = (s', r) -> calm s s'.
Proof.
  destruct ch as [fault|answers|[]]; [done|intros _|intros _ [= <- <-]; by apply calm_quiet..].
  cbn [turn]. rewrite bind_run. unfold recheck. rewrite bind_run. unfold lift at 1. destruct (fetch_publication answers) as [now|]; [|intros [= <- <-]; by apply calm_quiet].
  rewrite bind_run. unfold lift at 1. destruct (ensure _ _); [|intros [= <- <-]; by apply calm_quiet].
  unfold lift. destruct (ensure _ _); intros [= <- <-]; by apply calm_quiet.
Qed.

Lemma commits_app l1 l2 : commits (l1 ++ l2) = (commits l1 + commits l2)%nat.
Proof. unfold commits. by rewrite List.filter_app, length_app. Qed.

Lemma frame_run publication fault s : exists s1, calm s s1 /\
  ((exists m, (forall choices, received publication (ChFrame fault :: choices) s =
       m :: match turn run shard_fn publication (ChFrame fault) s with (s', Ok false) => received publication choices s' | _ => [] end) /\
     turn run shard_fn publication (ChFrame fault) s = match on_message run shard_fn fault m s1 with (s', Ok _) => (s', Ok false) | (s', Err e) => (s', Err e) end) \/
   (exists e, turn run shard_fn publication (ChFrame fault) s = (s1, Err e) /\ forall choices, received publication (ChFrame fault :: choices) s = [])).
Proof.
  cbn [received turn]. rewrite bind_run. destruct (on_client next s) as [s1 [[x|]|e]] eqn:En; apply next_calm in En.
  - rewrite bind_run. destruct (decode_frame_data (xl_data x) s1) as [s2 [m|e]] eqn:Ed; apply decode_calm in Ed.
    + exists s2. split; [eapply calm_trans; eauto|]. left. exists m. rewrite bind_run. by destruct (on_message _ _ _ _ _) as [s3 [[]|e]].
    + exists s2. split; [eapply calm_trans; eauto|]. right. by exists e.
  - exists s1. split; [done|]. right. eexists. by split.
  - exists s1. split; [done|]. right. by exists e.
Qed.

Lemma turns_follow publication choices : forall n s rest s' r,
  stream_at n s (received publication choices s ++ rest) -> turns run shard_fn publication choices s = (s', r) ->
  match r with
  | Ok _ => stream_at (n + commits (received publication choices s)) s' rest
  | Err _ => exists k, (n <= k <= n + commits (received publication choices s))%nat /\ target_holds k s'
  end.
Proof.
  induction choices as [|ch choices IH]; intros n s rest s' r Hat Ht.
  { injection Ht as <- <-. cbn. by rewrite Nat.add_0_r. }
  cbn [turns] in Ht. rewrite bind_run in Ht. destruct (match ch with ChFrame _ => true | _ => false end) eqn:Hch.
  - destruct ch as [fault| |]; try done. destruct (frame_run publication fault s) as (s1 & Hcalm & [(m & Hrec & Hturn)|(e & Hturn & Hrec)]).
    + rewrite Hrec in *. apply (calm_at _ _ _ _ Hcalm) in Hat. rewrite Hturn in *.
      destruct (on_message run shard_fn fault m s1) as [s2 [[]|e]] eqn:Em; apply (message_step _ _ _ _ _ _ _ Hat) in Em.
      * specialize (IH _ _ _ _ _ Em Ht). cbn [app] in IH |- *. change (m :: ?l) with ([m] ++ l). rewrite commits_app, Nat.add_assoc.
        destruct r; [done|]. destruct IH as (k & Hk & Hh). exists k. split; [lia|done].
      * injection Ht as <- <-. destruct Em as (k & Hk & Hh). exists k. split; [|done]. exact Hk.
    + rewrite Hrec in *. rewrite Hturn in Ht. injection Ht as <- <-. exists n. split; [lia|]. by eapply calm_holds, Hat.
  - assert (Hrec : received publication (ch :: choices) s =
      match turn run shard_fn publication ch s with (s', Ok false) => received publication choices s' | _ => [] end) by by destruct ch.
    rewrite Hrec in *. destruct (turn run shard_fn publication ch s) as [s1 [[]|e]] eqn:Et; apply turn_calm in Et; try by destruct ch.
    + injection Ht as <- <-. cbn. rewrite Nat.add_0_r. by eapply calm_at.
    + apply (calm_at _ _ _ _ Et) in Hat. by apply (IH _ _ _ _ _ Hat Ht).
    + injection Ht as <- <-. exists n. split; [lia|]. by eapply calm_holds, Hat.
Qed.

Lemma commits_body S ms S' : source_steps S ms S' -> commits ms = 0%nat.
Proof. induction 1 as [|S ms S' m S'' Hs IH Hm]; [done|]. rewrite commits_app, IH. by destruct Hm. Qed.

Lemma commits_messages S l sts : history S l sts -> commits (messages l) = length l.
Proof.
  induction 1 as [|S t S' l sts Hs _ IH]; [done|]. unfold messages in *. rewrite fmap_cons. cbn [concat].
  unfold txn_messages at 1. change (MBegin (st_begin t) :: ?l) with ([MBegin (st_begin t)] ++ l).
  by rewrite !commits_app, (commits_body _ _ _ Hs), IH.
Qed.

Lemma start_at startup status db s :
  start_streaming run client0 consistent_point startup status db = Ok s -> db_progress db !! rp_id run = None ->
  tbl (db_rows db) = restrict S0 -> wst_journal_lsn status = None -> stream_at 0 s (messages log).
Proof.
  unfold start_streaming. intros Hs Hp Ht Hj. apply result_bind_Ok in Hs as (su & _ & Hs). apply result_bind_Ok in Hs as (a & Ha & [= <-]).
  unfold new_applier in Ha. rewrite Hp in Ha. destruct su; cbn [map_err] in Ha; try done. injection Ha as <-.
  destruct (history_at _ _ _ Hhist) as [H0 _]. split; [|split; [|left; split; [unfold between; by rewrite drop_0|done]]].
  - unfold target_holds. cbn [sr_db sr_client end_at]. split; [by exists S0|]. split; [done|]. split; [lia|].
    split; [exists []; split; [by rewrite app_nil_r|constructor]|]. split; [cbn; intros j; by rewrite Hj|by left].
  - unfold live. cbn. split; [apply map_empty_subseteq|]. split; [apply map_empty_subseteq|done].
Qed.

(** A run of the worker's loop, from the start of the stream on a target that holds the
    copy, over a piece of the source's stream with [rest] of it not received. *)
Record streamed (publication : PublicationBaseline) (choices : list Choice) (s s' : Streamer) (r : result Failure bool)
    (rest : list LogicalRepMsg) : Prop := mkStreamed {
  sm_starts : exists startup status db, start_streaming run client0 consistent_point startup status db = Ok s /\
    db_progress db !! rp_id run = None /\ tbl (db_rows db) = restrict S0 /\ wst_journal_lsn status = None;
  sm_messages : messages log = received publication choices s ++ rest;
  sm_turns : turns run shard_fn publication choices s = (s', r);
}.

Lemma streamed_prefix publication choices s s' r rest :
  streamed publication choices s s' r rest ->
  exists k, target_holds k s' /\ (k <= commits (received publication choices s))%nat /\
    (is_ok r = true -> k = commits (received publication choices s)).
Proof.
  intros [(startup & status & db & Hs & Hp & Ht & Hj) Hrec Hrun]. pose proof (start_at _ _ _ _ Hs Hp Ht Hj) as Hat. rewrite Hrec in Hat.
  pose proof (turns_follow _ _ _ _ _ _ _ Hat Hrun) as Hend. cbn [Nat.add] in Hend. destruct r as [b|e]; cbn [is_ok].
  - destruct Hend as (Hh & _). eexists. split; [exact Hh|]. by split.
  - destruct Hend as (k & Hk & Hh). exists k. split; [done|]. split; [lia|done].
Qed.

Lemma holds_all s : target_holds (length log) s -> exists Send, last states = Some Send /\ tbl (db_rows (sr_db s)) = restrict Send.
Proof. intros ((Send & HS & Htbl) & _). exists Send. split; [|done]. by rewrite last_lookup, (history_length _ _ _ Hhist). Qed.

(** C1: the seeding stream converges. Let the source run any log of transactions from
    the snapshot [S0] the copy took (inserts, updates with and without a changed
    identity or omitted large values, deletes), and let the worker start on a target
    that holds the snapshot's rows of its range. Through any turns of its loop, with any
    failure of the target's transactions, of the connections or of the publication
    recheck, and wherever it stops, the target holds exactly the rows of the range as
    of some transaction boundary [k] of the source: never a torn, lost or repeated
    transaction, never a row of another range. The progress row names that boundary;
    every standby status sent to the source and the published applied position report
    nothing beyond it. The boundary is at most the last commit received, it is that
    commit unless the run failed, and a run that received the whole log leaves the
    source's final rows. *)
Theorem seeding_converges publication choices s s' r rest :
  streamed publication choices s s' r rest ->
  exists k, target_holds k s' /\ (k <= commits (received publication choices s))%nat /\
    (is_ok r = true -> k = commits (received publication choices s)) /\
    (is_ok r = true -> rest = [] -> exists Send, last states = Some Send /\ tbl (db_rows (sr_db s')) = restrict Send).
Proof.
  intros Hst. destruct (streamed_prefix _ _ _ _ _ _ Hst) as (k & Hh & Hk & Hok). exists k. split_and!; [done|done|done|].
  intros Hr ->. destruct Hst as [_ Hrec _]. rewrite app_nil_r in Hrec. rewrite (Hok Hr), <- Hrec, (commits_messages _ _ _ Hhist) in Hh.
  by apply holds_all.
Qed.

(** C6: a journal acknowledgement is a barrier. When the published status reports the
    journal position [j], the transaction that carries the barrier message at [j], and
    every transaction before it, is in the target; so when the source was fenced and
    committed nothing after the barrier's transaction, the target holds the final rows
    of its range, even if the run failed afterwards, and the cutover loses nothing. *)
Theorem journal_is_a_barrier publication choices s s' r rest j :
  streamed publication choices s s' r rest -> wst_journal_lsn (sr_status s') = Some j ->
  (exists k, target_holds k s' /\ barrier_within k j) /\
  ((forall i t m, log !! i = Some t -> m ∈ st_body t -> is_barrier j m -> Datatypes.S i = length log) ->
   exists Send, last states = Some Send /\ tbl (db_rows (sr_db s')) = restrict Send).
Proof.
  intros Hst Hj. destruct (streamed_prefix _ _ _ _ _ _ Hst) as (k & Hh & _ & _). pose proof Hh as (HSk & _ & _ & _ & Hjournal & _).
  pose proof (Hjournal j Hj) as Hb. split; [by exists k|]. intros Hlast. destruct Hb as (i & t & m & Hi & Ht & Hm & Hb).
  specialize (Hlast i t m Ht Hm Hb). destruct HSk as (Sk & HSk & _). apply lookup_lt_Some in HSk. rewrite (history_length _ _ _ Hhist) in HSk.
  apply holds_all. by replace (length log) with k by lia.
Qed.

End rows.

(** ** A concrete stream *)

Module ConvergeExample.

#[local] Existing Instance be_hash.

#[local] Instance toy : Protocol := {|
  startup_message _ := Err "none"; query_message _ := Err "none"; sasl_initial_response _ _ := Err "none"; sasl_response _ := Err "none";
  Scram := unit; scram_new _ := tt; scram_message _ := []; scram_update _ _ := Err "none"; scram_finish _ _ := Err "none";
|}.

(** A table [public.users] sharded by [id], and the range below 10. *)
Definition users_rel : Relation := mkRelation None 16384 "public" "users" "d"%char
  [mkRelationColumn "001"%char "id" 20 (-1); mkRelationColumn "000"%char "name" 25 (-1)].
Definition plan : RunPlan := mkRunPlan "wf" (mkConfig "db" 5432 "repl" "pw" "app") "s" "p" "app" "prov"
  [mkTablePlan "public" "users" "id" TInt] (mkKeyRange 0 (Some 10)) "xxhash64_v1".
Definition users : RelationInfo := relation_info users_rel.
Definition known : gmap Oid (RelationInfo * RelFilter) := {[16384 := (users, mkRelFilter 0 TInt)]}.

Definition cell (s : string) : Cell := CText (bytes s).
Definition row (id name : string) : list Cell := [cell id; cell name].
Definition insert_of (id name : string) : LogicalRepMsg := MInsert (mkInsert None 16384 (tuple_of (row id name))).

(** Two inserts, one of them in the range; then the row in the range is renamed, in the
    transaction of the cutover's barrier. *)
Definition source_log : list SourceTxn :=
  [mkSourceTxn (mkBegin 100 0 7) [MRelation users_rel; insert_of "1" "ann"; insert_of "20" "bob"] (mkCommit 100 110 0);
   mkSourceTxn (mkBegin 200 0 8) [MUpdate (mkUpdate None 16384 None None (tuple_of (row "1" "eve")));
     MMessage (mkMessage None true 190 "pgshard" (bytes "cutover"))] (mkCommit 200 210 0)].

Definition state1 : RowMap := <[(16384, [cell "20"]) := row "20" "bob"]> (<[(16384, [cell "1"]) := row "1" "ann"]> ∅).
Definition state2 : RowMap := <[(16384, [cell "1"]) := row "1" "eve"]> (base.delete (16384, [cell "1"]) state1).

(** The effect of a change as PostgreSQL reports it. *)
Definition perform (c : PendingChange) (T : RowMap) : result string (Z * RowMap) :=
  match c with
  | PInsert oid new =>
      match T !! (oid, key_of users new) with None => Ok (1, <[(oid, key_of users new) := new]> T) | Some _ => Err "duplicate key" end
  | PUpdate oid ks new =>
      match T !! (oid, key_of users ks) with
      | Some old => Ok (1, <[(oid, key_of users (overlay old new)) := overlay old new]> (base.delete (oid, key_of users ks) T))
      | None => Ok (0, T)
      end
  | PDelete oid ks =>
      match T !! (oid, key_of users ks) with Some _ => Ok (1, base.delete (oid, key_of users ks) T) | None => Ok (0, T) end
  end.

Definition changes : list PendingChange := [PInsert 16384 (row "1" "ann"); PUpdate 16384 (row "1" "eve") (row "1" "eve")].

Definition renders (sql : string) (c : PendingChange) : bool :=
  match change_statements (rels known) c with Ok [s] => String.eqb s sql | _ => false end.

(** A database that knows the statements of the two changes. *)
#[local] Instance database : Target := {|
  Rows := RowMap;
  exec_sql sql T := match find_first (renders sql) changes with Some c => perform c T | None => Err "syntax error" end;
|}.

Definition records : list ascii :=
  concat ((fun m => final_frame (FRecord "000"%char (mkXLogData 0 0 0 (enc_msg "001"%char m)))) <$> messages source_log).
Definition socket : ReplicationClient := mkClient [Data records] [] [] [] 0 50.
Definition baseline : PublicationBaseline := mkBaseline (mkPublicationShape true true true true false false false [] []) 0 1.
Definition status0 : WorkflowStatus := mkWorkflowStatus "wf" PhaseCopy None None None.
Definition begun : Streamer := mkStreamer socket (mkApplier ∅ "wf" 0 0 []) (mkDb ∅ ∅) (new_decoder 4) ∅ None
  (mkWorkflowStatus "wf" PhaseStreaming None (Some 50) None).
Definition frames : list Choice := repeat (ChFrame NoFault) 9.

Lemma perform_step T c T' : target_step known T c T' -> perform c T = Ok (1, T').
Proof.
  assert (Hu : forall oid r f, known !! oid = Some (r, f) -> r = users).
  { intros oid r f. unfold known. rewrite lookup_singleton_Some. by intros [_ [= <- <-]]. }
  intros Ht. destruct Ht as [T oid new r f Hs Hn|T oid ks new old r f Hs Ho Hk|T oid ks old r f Hs Ho]; rewrite (Hu _ _ _ Hs) in *; cbn [perform].
  - by rewrite Hn.
  - by rewrite Ho.
  - by rewrite Ho.
Qed.

Lemma executes_change c sql : change_statements (rels known) c = Ok [sql] -> find_first (renders sql) changes = Some c -> executes known id c.
Proof.
  intros Hc Hf stmts rows T' Hs Ht. rewrite Hc in Hs. injection Hs as <-. exists T'. split; [|done]. cbn [run_statements exec_sql database].
  rewrite Hf. change rows with (id rows). by rewrite (perform_step _ _ _ Ht).
Qed.

Lemma history_holds : history plan known ∅ source_log [∅; state1; state2].
Proof.
  apply (hist_cons _ _ _ _ state1).
  - apply (src_snoc _ _ _ [MRelation users_rel; insert_of "1" "ann"] (<[(16384, [cell "1"]) := row "1" "ann"]> ∅)).
    + apply (src_snoc _ _ _ [MRelation users_rel] ∅).
      * apply (src_snoc _ _ _ [] ∅); [constructor|]. by apply (src_relation _ _ _ _ users (mkRelFilter 0 TInt)).
      * by apply (src_insert _ _ ∅ None 16384 _ (row "1" "ann") users (mkRelFilter 0 TInt)); [..|split; [|repeat constructor]|].
    + by apply (src_insert _ _ _ None 16384 _ (row "20" "bob") users (mkRelFilter 0 TInt)); [..|split; [|repeat constructor]|].
  - apply (hist_cons _ _ _ _ state2); [|constructor]. apply (src_snoc _ _ _ [MUpdate _] state2); [|constructor]. apply (src_snoc _ _ _ [] state1); [constructor|].
    by apply (src_update _ _ state1 None 16384 None _ (row "1" "eve") (row "1" "ann") [cell "1"] users (mkRelFilter 0 TInt)); [..|left|].
Qed.

Definition ended : Streamer := (turns plan XXHASH64_V1 baseline frames begun).1.

Lemma known_described oid r f : known !! oid = Some (r, f) ->
  exists rel, rl_oid rel = oid /\ relation_info rel = r /\ describe plan rel = Ok f.
Proof. unfold known. rewrite lookup_singleton_Some. intros [<- [= <- <-]]. by exists users_rel. Qed.

Lemma empty_wf : rows_wf known ∅.
Proof. intros oid k r Hr. by rewrite lookup_empty in Hr. Qed.

Lemma source_log_wf : log_wf (positions source_log).
Proof.
  split.
  - intros i t Hi. destruct i as [|[|i]]; [injection Hi as <-; vm_compute; intuition discriminate..|done].
  - intros i t u Hi Hu. destruct i as [|[|i]]; [injection Hi as <-; injection Hu as <-; vm_compute; discriminate|done..].
Qed.

Lemma changes_execute :
  Forall (fun t => Forall (executes known id) (kept_changes plan XXHASH64_V1 known (st_body t))) source_log.
Proof. repeat constructor; (eapply executes_change; vm_compute; reflexivity). Qed.

Lemma pair_snd {A B} (p : A * B) b : p.2 = b -> p = (p.1, b).
Proof. intros <-. apply surjective_pairing. Qed.

Lemma all_streamed : streamed plan XXHASH64_V1 known id ∅ source_log socket 50 baseline frames begun ended (Ok false) [].
Proof.
  split.
  - exists (Ok Started), status0, (mkDb ∅ ∅). by repeat split.
  - vm_compute. reflexivity.
  - unfold ended. apply pair_snd. vm_compute. reflexivity.
Qed.

Lemma seeding_converges_witness :
  exists k, target_holds plan XXHASH64_V1 known id source_log [∅; state1; state2] socket 50 k ended /\ k = 2%nat.
Proof.
  destruct (seeding_converges plan XXHASH64_V1 known known_described (TT := database) (@id RowMap) ∅ source_log [∅; state1; state2] socket 50
    history_holds empty_wf source_log_wf changes_execute baseline frames begun ended (Ok false) [] all_streamed) as (k & Hk & _ & Hc & _).
  exists k. split; [exact Hk|]. rewrite (Hc eq_refl). vm_compute. reflexivity.
Defined.

Lemma journal_is_a_barrier_witness :
  exists Send, last [∅; state1; state2] = Some Send /\ @id RowMap (db_rows (sr_db ended)) = restrict plan XXHASH64_V1 known Send.
Proof.
  destruct (journal_is_a_barrier plan XXHASH64_V1 known known_described (TT := database) (@id RowMap) ∅ source_log [∅; state1; state2] socket 50
    history_holds empty_wf source_log_wf changes_execute baseline frames begun ended (Ok false) [] 190 all_streamed) as [_ Hend].
  - vm_compute. reflexivity.
  - apply Hend. intros i t m Hi Hm Hb. destruct i as [|[|i]]; [|reflexivity|discriminate Hi]. injection Hi as <-. exfalso.
    cbn [st_body] in Hm. rewrite !elem_of_cons, elem_of_nil in Hm. destruct Hm as [->|[->|[->|[]]]]; exact Hb.
Defined.

End ConvergeExample.
