(* ===== verification/Pg.v ===== *)
(** * The PostgreSQL instance

    [src/crates/pgshard-agent/src/pg.rs], the agent's commands on the local
    PostgreSQL. A command is a program of requests: each constructor of [Request] is one
    statement the source sends (or its clock), with the type of the decoded reply.
    PostgreSQL itself, and the sessions that run beside the agent's, are the class
    [Postgres]: a state that moves between any two requests, with the documented facts
    the commands rely on, and the deployment's promise that nobody else alters the
    database. *)

From S2P Require Import Prelude Rust Lsn Keyspace ShardFn Agent PgOutput Stream Client Workflow Filter Copy Apply Seeding.

Open Scope Z_scope.

(** ** Requests *)

(** [tokio_postgres::Error]: its SQLSTATE, if the server sent one, and its text. *)
Record SqlError := mkSqlError { se_code : option string; se_text : string }.

(** A setting of [ALTER DATABASE]. *)
Inductive DbSetting := AllowConnections (b : bool) | DefaultReadOnly (b : bool).

(** The row of the status query. *)
Record SnapshotRow := mkSnapshotRow {
  sn_in_recovery : bool; sn_timeline : Z; sn_write_lsn : option string; sn_receive_lsn : option string; sn_replay_lsn : option string;
  sn_receiver_active : bool; sn_version : string; sn_system_id : Z;
}.

Inductive Request : Type -> Type :=
| Connect (database : option string) : Request unit
| Now : Request Z
| Sleep (ms : Z) : Request unit
| SelectWriters (database : string) (include_starting : bool) : Request (list Z)
| TerminateBackends (pids : list Z) : Request Z
| CountPrepared (database : string) : Request Z
| AlterDatabase (database : string) (settings : list DbSetting) : Request unit
| SelectDescription (name : string) : Request (option (option string))
| CreateDatabase (name owner : string) : Request unit
| CommentOnDatabase (name comment : string) : Request unit
| DropDatabase (name : string) : Request unit
| SelectSnapshot : Request SnapshotRow
| PgPromote : Request bool
| LiveTimeline : Request Z
| BatchExecute (sql : string) : Request unit
| PgCreateRestorePoint (name : string) : Request (string * Z)
| PgSwitchWal : Request string
| BeginTransaction : Request unit
| SetSynchronousCommit : Request unit
| EmitMessage (payload : list ascii) : Request string
| CommitTransaction : Request unit
| HasGenerated (schema name : string) : Request bool
| SelectPublicationFlags (publication : string) : Request (option bool)
| SelectMembers (publication : string) : Request (list (string * string * bool))
| DropPublication (publication : string) : Request unit
| CreatePublication (publication : string) (tables : list (string * string)) : Request unit
| SlotKeepSize : Request string
| SizeBytes (size : string) : Request Z.

(** The [anyhow] errors of the commands. *)
Inductive PgError :=
| PSql (e : SqlError)
| PPromoteTimedOut
| PNotImplemented
| PForeignDatabase (name : string) (found : option string)
| PFlapping (name : string)
| PWritersRemain (database : string)
| PPrepared (database : string) (n : Z)
| PGenerated (schema name : string)
| POutOfRounds.

Inductive Prog (A : Type) : Type :=
| Ret (r : result PgError A)
| Ask {R : Type} (q : Request R) (k : result SqlError R -> Prog A).
Arguments Ret {A}.
Arguments Ask {A R}.

#[export] Instance Prog_ret : MRet Prog := fun A a => Ret (Ok a).

Fixpoint prog_bind {A B} (f : A -> Prog B) (p : Prog A) : Prog B :=
  match p with
  | Ret (Ok a) => f a
  | Ret (Err e) => Ret (Err e)
  | Ask q k => Ask q (fun x => prog_bind f (k x))
  end.
#[export] Instance Prog_bind : MBind Prog := @prog_bind.

(** A request whose failure is the command's ([.await?]). *)
Definition ask {R} (q : Request R) : Prog R := Ask q (fun x => Ret (map_err PSql x)).

Definition check (b : bool) (e : PgError) : Prog unit := Ret (ensure b e).

(** ** Pieces of the commands *)

Definition quote_ident (ident : string) : string := quoted "034"%char ident.
Definition quote_literal (s : string) : string := quoted "039"%char s.

(** [u64::from_str_radix(_, 16).unwrap_or(0)]. *)
Definition hex_or_zero (s : string) : Z := default 0 (from_str_radix_unsigned 16 u64_MAX (bytes s)).

Definition parse_lsn (text : string) : Z :=
  match split_once "/"%char text with
  | Some (hi, lo) => Z.lor (as_u64 (Z.shiftl (hex_or_zero hi) 32)) (hex_or_zero lo)
  | None => 0
  end.

Definition stamp_provenance (name provenance : string) : Prog unit := ask (CommentOnDatabase name (provenance_marker provenance)).

Definition DRAIN_MS : Z := 10000.
Definition POLL_MS : Z := 100.

(** The rounds of the drain: its deadline passes within a hundred polls. *)
Definition DRAIN_ROUNDS : nat := 101.

Fixpoint drain_rounds (rounds : nat) (database : string) (include_starting : bool) (deadline terminated : Z) : Prog Z :=
  match rounds with
  | O => Ret (Err POutOfRounds)
  | S rounds' =>
      pids ← ask (SelectWriters database include_starting);
      match pids with
      | [] => mret terminated
      | _ =>
          now ← ask Now;
          _ ← check (now <? deadline) (PWritersRemain database);
          exited ← ask (TerminateBackends pids);
          _ ← ask (Sleep POLL_MS);
          drain_rounds rounds' database include_starting deadline (Z.min u32_MAX (terminated + as_u32 (Z.max exited 0)))
      end
  end.

Definition drain_writers (database : string) (include_starting : bool) : Prog Z :=
  now ← ask Now;
  drain_rounds DRAIN_ROUNDS database include_starting (now + DRAIN_MS) 0.

Definition ensure_no_prepared (database : string) : Prog unit :=
  prepared ← ask (CountPrepared database);
  check (prepared =? 0) (PPrepared database prepared).

Definition publication_matches (publication : string) (tables : list (string * string)) : Prog bool :=
  row ← ask (SelectPublicationFlags publication);
  match row with
  | None => mret false
  | Some false => mret false
  | Some true =>
      members ← ask (SelectMembers publication);
      if negb (length members =? length tables)%nat then mret false
      else mret (forallb (fun t => existsb (fun m => bool_decide (m.1.1 = t.1) && bool_decide (m.1.2 = t.2) && m.2) members) tables)
  end.

(** ** The commands *)

Definition lsn_or_zero (o : option string) : Z := default 0 (parse_lsn <$> o).

Definition snapshot : Prog Snapshot :=
  _ ← ask (Connect None);
  row ← ask SelectSnapshot;
  mret (mkSnapshot (sn_in_recovery row) true (as_u32 (sn_timeline row)) (lsn_or_zero (sn_write_lsn row))
          (lsn_or_zero (sn_receive_lsn row)) (lsn_or_zero (sn_replay_lsn row)) (sn_receiver_active row) (sn_version row)
          (as_u64 (sn_system_id row)) false).

Definition promote : Prog Z :=
  _ ← ask (Connect None);
  promoted ← ask PgPromote;
  _ ← check promoted PPromoteTimedOut;
  timeline ← ask LiveTimeline;
  mret (as_u32 timeline).

Definition set_fenced (fenced : bool) : Prog unit := Ret (Err PNotImplemented).
Definition rejoin (upstream : string) (allow_rewind : bool) : Prog bool := Ret (Err PNotImplemented).

Definition exec_sql (sql : string) : Prog unit :=
  _ ← ask (Connect None);
  ask (BatchExecute sql).

Definition DUPLICATE_DATABASE : string := "42P04".

(** The verify-or-create attempts left. *)
Fixpoint create_attempts (attempts : nat) (name owner provenance : string) (adopt : bool) : Prog unit :=
  match attempts with
  | O => Ret (Err (PFlapping name))
  | S attempts' =>
      existing ← ask (SelectDescription name);
      match existing with
      | Some found =>
          if str_is_empty provenance then mret tt
          else if bool_decide (found = Some (provenance_marker provenance)) then mret tt
          else if adopt then stamp_provenance name provenance
          else Ret (Err (PForeignDatabase name found))
      | None =>
          Ask (CreateDatabase name owner) (fun created =>
            match created with
            | Ok _ => if str_is_empty provenance then mret tt else stamp_provenance name provenance
            | Err e =>
                if bool_decide (se_code e = Some DUPLICATE_DATABASE) then create_attempts attempts' name owner provenance adopt
                else Ret (Err (PSql e))
            end)
      end
  end.

Definition create_database (name owner provenance : string) (adopt : bool) : Prog unit :=
  _ ← ask (Connect None);
  create_attempts 3 name owner provenance adopt.

Definition drop_database (name : string) : Prog unit :=
  _ ← ask (Connect None);
  ask (DropDatabase name).

Definition create_restore_point (name : string) : Prog (Z * Z) :=
  _ ← ask (Connect None);
  '(lsn, timeline) ← ask (PgCreateRestorePoint name);
  mret (parse_lsn lsn, as_u32 timeline).

Definition switch_wal (wait_archived : bool) : Prog Z :=
  _ ← check (negb wait_archived) PNotImplemented;
  _ ← ask (Connect None);
  lsn ← ask PgSwitchWal;
  mret (parse_lsn lsn).

Definition MAINTENANCE : string := "postgres".

Definition fence_writes (database : string) (read_only : bool) : Prog Z :=
  _ ← ask (Connect (Some MAINTENANCE));
  if negb read_only then
    _ ← ask (AlterDatabase database [AllowConnections true; DefaultReadOnly false]);
    _ ← drain_writers database false;
    mret 0
  else
    _ ← ask (AlterDatabase database [AllowConnections false]);
    _ ← ensure_no_prepared database;
    terminated ← drain_writers database true;
    _ ← ensure_no_prepared database;
    _ ← ask (AlterDatabase database [DefaultReadOnly true; AllowConnections true]);
    mret terminated.

Definition emit_journal (database : string) (payload : list ascii) : Prog Z :=
  _ ← ask (Connect (Some database));
  _ ← ask BeginTransaction;
  _ ← ask SetSynchronousCommit;
  lsn ← ask (EmitMessage payload);
  _ ← ask CommitTransaction;
  mret (parse_lsn lsn).

Fixpoint refuse_generated (tables : list (string * string)) : Prog unit :=
  match tables with
  | [] => mret tt
  | (schema, name) :: tables' =>
      has_generated ← ask (HasGenerated schema name);
      _ ← check (negb has_generated) (PGenerated schema name);
      refuse_generated tables'
  end.

Definition prepare_source (database publication : string) (tables : list (string * string)) : Prog (option Z) :=
  _ ← ask (Connect (Some database));
  _ ← refuse_generated tables;
  matches ← publication_matches publication tables;
  _ ← (if negb matches then
         _ ← ask (DropPublication publication);
         ask (CreatePublication publication tables)
       else mret tt);
  keep ← ask SlotKeepSize;
  if bool_decide (keep = "-1") then mret None
  else
    size ← ask (SizeBytes keep);
    mret (Some (Z.max size 0)).

(** ** The texts of the statements that splice a name *)

Definition setting_text (s : DbSetting) : string :=
  match s with
  | AllowConnections b => " WITH ALLOW_CONNECTIONS " +:+ (if b then "true" else "false")
  | DefaultReadOnly b => " SET default_transaction_read_only = " +:+ (if b then "on" else "off")
  end.

Definition alter_text (database : string) (s : DbSetting) : string := "ALTER DATABASE " +:+ quote_ident database +:+ setting_text s.

Definition create_database_text (name owner : string) : string :=
  "CREATE DATABASE " +:+ quote_ident name +:+ (if str_is_empty owner then EmptyString else " OWNER " +:+ quote_ident owner).

Definition comment_text (name comment : string) : string :=
  "COMMENT ON DATABASE " +:+ quote_ident name +:+ " IS " +:+ quote_literal comment.

Definition drop_database_text (name : string) : string := "DROP DATABASE IF EXISTS " +:+ quote_ident name +:+ " WITH (FORCE)".

Definition drop_publication_text (publication : string) : string := "DROP PUBLICATION IF EXISTS " +:+ quote_ident publication.

Definition create_publication_text (publication : string) (tables : list (string * string)) : string :=
  "CREATE PUBLICATION " +:+ quote_ident publication +:+ " FOR TABLE "
  +:+ join ", " ((fun t => quote_ident t.1 +:+ "." +:+ quote_ident t.2) <$> tables)
  +:+ "
                         WITH (publish = 'insert, update, delete, truncate')".

(** ** What the catalogs say of a publication

    The two descriptions of a publication that the agent reads: the query of
    [publication_matches], and those of the seeding worker's [fetch_publication]. *)

(** A row of [pg_publication_tables]; [pw_rel] is the [pg_publication_rel] row that names
    the same table ([prattrs IS NULL], [prqual IS NULL]). The leaves of a partitioned
    member have a row here and none there. *)
Record PublishedRow := mkPublishedRow {
  pw_schema : string; pw_name : string; pw_columns : list string; pw_rel : option (bool * bool);
}.

(** The [pg_publication] row, the versions of the three catalogs' rows, and the tables. *)
Record Publication := mkPublication {
  pc_insert : bool; pc_update : bool; pc_delete : bool; pc_truncate : bool; pc_viaroot : bool; pc_gencols : ascii;
  pc_alltables : bool; pc_versions : list (Z * Z * string); pc_rows : list PublishedRow;
}.

Definition in_schema (v : Z * Z * string) : bool := v.1.1 =? 2.

(** [pubinsert AND ... AND NOT EXISTS (SELECT 1 FROM pg_publication_namespace ...)]. *)
Definition flags_answer (p : Publication) : bool :=
  pc_insert p && pc_update p && pc_delete p && pc_truncate p && negb (pc_alltables p) && negb (pc_viaroot p)
  && bool_decide (pc_gencols p = "n"%char) && negb (existsb in_schema (pc_versions p)).

(** The inner join with [pg_publication_rel]. *)
Definition members_answer (p : Publication) : list (string * string * bool) :=
  omap (fun w => match pw_rel w with Some (attrs, qual) => Some (pw_schema w, pw_name w, attrs && qual) | None => None end) (pc_rows p).

(** The worker's three queries; the left join with [pg_publication_rel]. *)
Definition worker_answers (p : Publication) (xid : string) : PublicationAnswers :=
  mkPublicationAnswers
    (Ok (Some (mkPublicationRow (pc_insert p) (pc_update p) (pc_delete p) (pc_truncate p) (pc_viaroot p)
       (negb (bool_decide (pc_gencols p = "n"%char))) (pc_alltables p) xid)))
    (Ok (pc_versions p))
    (Ok ((fun w => (pw_schema w, pw_name w, Some (pw_columns w), (fun r => negb r.1) <$> pw_rel w, (fun r => negb r.2) <$> pw_rel w))
          <$> pc_rows p)).

(** A command under answers that do not change. *)
Fixpoint interp {A} (oracle : forall R, Request R -> result SqlError R) (p : Prog A) : result PgError A :=
  match p with Ret r => r | Ask q k => interp oracle (k (oracle _ q)) end.

(** The agent's answers for a publication that is as [p]. *)
Definition sees (oracle : forall R, Request R -> result SqlError R) (publication : string) (p : Publication) : Prop :=
  oracle _ (SelectPublicationFlags publication) = Ok (Some (flags_answer p)) /\
  oracle _ (SelectMembers publication) = Ok (members_answer p).

(** ** PostgreSQL and the other sessions *)

(** The settings a request changes on [database]. *)
Definition alters {R} (q : Request R) (database : string) : option (list DbSetting) :=
  match q with AlterDatabase d settings => if bool_decide (d = database) then Some settings else None | _ => None end.

(** [(datallowconn, default_transaction_read_only)] after settings. *)
Definition with_settings (settings : list DbSetting) (s : bool * bool) : bool * bool :=
  foldl (fun s x => match x with AllowConnections b => (b, s.2) | DefaultReadOnly b => (s.1, b) end) s settings.

(** How the drain sees a session: a client's, one whose application name begins with
    [pgshard_] at some time of its life, which any client can give itself, or no client
    backend at all. *)
Inductive SessionKind := Client | Spared | Background.

(** A session, connected or still starting: its process, and the default of its
    transactions' access mode that it took from the database when it started. *)
Record Session := mkSession { se_pid : Z; se_kind : SessionKind; se_read_only : bool }.

(** A transaction that wrote: its session, and whether its access mode was asked for in the
    session (by a statement, a connection option or a setting of the role) against the
    default of the database. *)
Record WriteCommit := mkWriteCommit { wc_session : Session; wc_asked : bool }.

Class Postgres := {
  World : Type;
  (** a request of the agent: atomic, with its reply *)
  reply : forall {R}, Request R -> World -> result SqlError R -> World -> Prop;
  (** a step of the other sessions *)
  others : World -> World -> Prop;
  clock : World -> Z;
  (** [(datallowconn, default_transaction_read_only)] of a database *)
  settings : World -> string -> bool * bool;
  (** the sessions on a database, or still starting, beside the agent's *)
  sessions : World -> string -> list Session;
  (** the transactions that are prepared on it, each by the session that prepared it *)
  prepared : World -> string -> list Session;
  (** a write on the database becomes durable in a step of the others *)
  commits_write : World -> World -> string -> WriteCommit -> Prop;

  clock_others : forall w w', others w w' -> clock w <= clock w';
  clock_reply : forall R (q : Request R) w x w', reply q w x w' -> clock w <= clock w';
  now_reads : forall w x w', reply Now w x w' -> exists t, x = Ok t /\ clock w <= t <= clock w';
  sleep_waits : forall ms w x w', reply (Sleep ms) w x w' -> clock w + ms <= clock w';
  (** nobody else alters the database *)
  settings_others : forall w w' d, others w w' -> settings w' d = settings w d;
  (** a batch is one transaction; a failed one may have committed before its reply
      was lost *)
  settings_reply : forall R (q : Request R) w x w' d, reply q w x w' ->
    match alters q d with
    | None => settings w' d = settings w d
    | Some l => if is_ok x then settings w' d = with_settings l (settings w d)
                else settings w' d = settings w d \/ settings w' d = with_settings l (settings w d)
    end;
  (** a client starts a session only where connections are allowed, and takes the default of
      the database *)
  sessions_others : forall w w' d s, others w w' -> s ∈ sessions w' d ->
    s ∈ sessions w d \/ se_kind s = Background \/ ((settings w d).1 = true /\ se_read_only s = (settings w d).2);
  sessions_reply : forall R (q : Request R) w x w' d, reply q w x w' -> sessions w' d ⊆ sessions w d;
  (** [pg_stat_activity] shows a client's session from its start to its end *)
  sessions_visible : forall d w pids w' s, reply (SelectWriters d true) w (Ok pids) w' -> s ∈ sessions w d -> se_kind s = Client -> se_pid s ∈ pids;
  (** a transaction is prepared by a session that is there *)
  prepared_others : forall w w' d, others w w' -> prepared w' d ⊆ prepared w d ++ sessions w d;
  prepared_reply : forall R (q : Request R) w x w' d, reply q w x w' -> prepared w' d = prepared w d;
  prepared_counted : forall d w n w', reply (CountPrepared d) w (Ok n) w' -> n = Z.of_nat (length (prepared w d));
  (** a write commits in a session or from a prepared transaction *)
  write_from : forall w w' d c, others w w' -> commits_write w w' d c -> wc_session c ∈ prepared w d ++ sessions w d;
  (** a session that is read-only by default writes only where it asks for it *)
  write_asked : forall w w' d c, others w w' -> commits_write w w' d c -> se_read_only (wc_session c) = true -> wc_asked c = true;
}.

(** A command, with the other sessions moving between its requests. *)
Fixpoint runs `{Postgres} {A} (p : Prog A) (w : World) (r : result PgError A) (w' : World) : Prop :=
  match p with
  | Ret r0 => r = r0 /\ rtc others w w'
  | Ask q k => exists w1 x w2, rtc others w w1 /\ reply q w1 x w2 /\ runs (k x) w2 r w'
  end.

(** The session is not a client's, or is read-only unless it asks otherwise. *)
Definition tame (s : Session) : Prop := se_kind s <> Client \/ se_read_only s = true.

(** New sessions of [database] are read-only by default, and every client's session that is
    there, or has a transaction prepared, is so too. *)
Definition quiescent `{Postgres} (database : string) (w : World) : Prop :=
  settings w database = (true, true) /\ forall s, s ∈ prepared w database ++ sessions w database -> tame s.

(** ** What a command asks, in order *)

Inductive Entry :=
| Described (name : string) (found : option (option string))
| Created (name owner : string) (ok : bool)
| Stamped (name comment : string) (ok : bool)
| PublicationDropped (publication : string)
| PublicationCreated (publication : string) (tables : list (string * string)) (ok : bool)
| Otherwise.

Definition entry {R} (q : Request R) : result SqlError R -> Entry :=
  match q in Request R return result SqlError R -> Entry with
  | SelectDescription name => fun x => match x with Ok found => Described name found | Err _ => Otherwise end
  | CreateDatabase name owner => fun x => Created name owner (is_ok x)
  | CommentOnDatabase name comment => fun x => Stamped name comment (is_ok x)
  | DropPublication publication => fun _ => PublicationDropped publication
  | CreatePublication publication tables => fun x => PublicationCreated publication tables (is_ok x)
  | _ => fun _ => Otherwise
  end.

Fixpoint traces {A} (p : Prog A) (l : list Entry) (r : result PgError A) : Prop :=
  match p with
  | Ret r0 => l = [] /\ r = r0
  | Ask q k => exists x l', l = entry q x :: l' /\ traces (k x) l' r
  end.

(** ** Lemmas: runs *)

Section fence.
  Context `{PG : Postgres} (database : string).
  Implicit Types w : World.

Lemma runs_others {A} (p : Prog A) w w1 r w' : rtc others w w1 -> runs p w1 r w' -> runs p w r w'.
Proof.
  intros Hw. destruct p as [r0|R q k]; cbn [runs]; [intros [-> Hr]; by split; [|etrans]|].
  intros (w2 & x & w3 & Hr & Hq & Hk). exists w2, x, w3. split; [by etrans|done].
Qed.

Lemma runs_bind {A B} (f : A -> Prog B) (p : Prog A) w r w' : runs (p ≫= f) w r w' ->
  (exists a w1, runs p w (Ok a) w1 /\ runs (f a) w1 r w') \/ (exists e, r = Err e /\ runs p w (Err e) w').
Proof.
  unfold mbind, Prog_bind. revert w. induction p as [[a|e]|R q k IH]; intros w; cbn [prog_bind runs].
  - intros Hr. left. exists a, w. by repeat split.
  - intros [-> Hr]. right. by exists e.
  - intros (w1 & x & w2 & H1 & Hq & [(a & w3 & Ha & Hf)|(e & -> & He)]%IH).
    + left. exists a, w3. split; [by exists w1, x, w2|done].
    + right. exists e. split; [done|by exists w1, x, w2].
Qed.

Lemma runs_ask {R} (q : Request R) w r w' : runs (ask q) w r w' ->
  exists w1 x w2, rtc others w w1 /\ reply q w1 x w2 /\ r = map_err PSql x /\ rtc others w2 w'.
Proof. intros (w1 & x & w2 & H1 & Hq & Hr & H2). by exists w1, x, w2. Qed.

Lemma runs_check b e w r w' : runs (check b e) w r w' -> r = ensure b e /\ rtc others w w'.
Proof. done. Qed.

(** ** Facts that hold on *)

(** [P] survives the other sessions and the requests that do not alter the database. *)
Definition stable (P : World -> Prop) : Prop :=
  (forall w w', others w w' -> P w -> P w') /\
  forall R (q : Request R) w x w', alters q database = None -> reply q w x w' -> P w -> P w'.

Lemma stable_others P w w' : stable P -> rtc others w w' -> P w -> P w'.
Proof. intros [Hs _]. induction 1 as [|w w1 w' Hw _ IH]; [done|]. intros Hp. apply IH. by eapply Hs. Qed.

Lemma stable_ask {R} (q : Request R) P w r w' : stable P -> alters q database = None -> runs (ask q) w r w' -> P w -> P w'.
Proof.
  intros Hs Ha (w1 & x & w2 & H1 & Hq & _ & H2)%runs_ask Hp. eapply stable_others; [done|exact H2|].
  eapply Hs; [done|exact Hq|]. by eapply stable_others.
Qed.

Fixpoint never_alters {A} (p : Prog A) : Prop :=
  match p with Ret _ => True | Ask q k => alters q database = None /\ forall x, never_alters (k x) end.

Lemma never_alters_bind {A B} (f : A -> Prog B) (p : Prog A) :
  never_alters p -> (forall a, never_alters (f a)) -> never_alters (p ≫= f).
Proof.
  unfold mbind, Prog_bind. intros Hp Hf. induction p as [[a|e]|R q k IH]; cbn [prog_bind never_alters] in *; [apply Hf|done|].
  destruct Hp as [Ha Hk]. split; [done|]. intros x. by apply IH.
Qed.

Lemma never_alters_ask {R} (q : Request R) : alters q database = None -> never_alters (ask q).
Proof. done. Qed.

Lemma stable_runs {A} (p : Prog A) P w r w' : stable P -> never_alters p -> runs p w r w' -> P w -> P w'.
Proof.
  intros Hs. revert w. induction p as [r0|R q k IH]; intros w; cbn [runs never_alters].
  - intros _ [_ Hr]. by eapply stable_others.
  - intros [Ha Hk] (w1 & x & w2 & H1 & Hq & Hr) Hp. eapply IH; [apply Hk|exact Hr|]. eapply Hs; [done|exact Hq|]. by eapply stable_others.
Qed.

(** Connections are refused. *)
Definition closed (ro : bool) w : Prop := settings w database = (false, ro).
(** ... and no client's session is left. *)
Definition drained (ro : bool) w : Prop := closed ro w /\ forall s, s ∈ sessions w database -> se_kind s <> Client.
(** ... and no client's transaction is prepared. *)
Definition sealed (ro : bool) w : Prop := drained ro w /\ forall s, s ∈ prepared w database -> se_kind s <> Client.

Lemma unchanged_stable s : stable (fun w => settings w database = s).
Proof.
  split; [intros w w' Ho <-; by eapply settings_others|]. intros R q w x w' Ha Hq <-. pose proof (settings_reply _ _ _ _ _ database Hq) as Hs.
  by rewrite Ha in Hs.
Qed.

Lemma drained_stable ro : stable (drained ro).
Proof.
  destruct (unchanged_stable (false, ro)) as [Ho Hr]. split.
  - intros w w' Hw [Hc Hn]. split; [by eapply Ho|]. intros s [?|[Hb|[Ha _]]]%(sessions_others _ _ _ _ Hw); [by apply Hn|by rewrite Hb|by rewrite Hc in Ha].
  - intros R q w x w' Ha Hq [Hc Hn]. split; [by eapply Hr|]. intros s Hs. by apply Hn, (sessions_reply _ _ _ _ _ _ Hq).
Qed.

Lemma sealed_stable ro : stable (sealed ro).
Proof.
  destruct (drained_stable ro) as [Ho Hr]. split.
  - intros w w' Hw [Hd Hp]. split; [by eapply Ho|]. intros s [?|?]%(prepared_others _ _ _ Hw)%elem_of_app; [by apply Hp|by apply Hd].
  - intros R q w x w' Ha Hq [Hd Hp]. split; [by eapply Hr|]. by rewrite (prepared_reply _ _ _ _ _ _ Hq).
Qed.

Lemma quiescent_others w w' : rtc others w w' -> quiescent database w -> quiescent database w'.
Proof.
  induction 1 as [|w w1 w' Hw _ IH]; [done|]. intros [Hs Hn]. apply IH. split; [by rewrite (settings_others _ _ _ Hw)|].
  intros s [Hp|Hin]%elem_of_app; [by apply Hn, (prepared_others _ _ _ Hw)|].
  apply (sessions_others _ _ _ _ Hw) in Hin as [?|[Hb|[_ Hro]]]; [apply Hn, elem_of_app; by right|left; by rewrite Hb|right; by rewrite Hro, Hs].
Qed.

(** ** The drain *)

Lemma drain_rounds_quiet rounds starting deadline : forall terminated,
  never_alters (drain_rounds rounds database starting deadline terminated).
Proof.
  induction rounds as [|rounds IH]; intros terminated; [done|]. cbn [drain_rounds].
  apply never_alters_bind; [by apply never_alters_ask|]. intros [|pid pids]; [done|].
  repeat (apply never_alters_bind; [done|intros ?]). apply IH.
Qed.

Lemma drain_writers_quiet starting : never_alters (drain_writers database starting).
Proof. apply never_alters_bind; [by apply never_alters_ask|]. intros now. apply drain_rounds_quiet. Qed.

Lemma ensure_no_prepared_quiet : never_alters (ensure_no_prepared database).
Proof. by apply never_alters_bind. Qed.

(** A drain that ends saw no writer, and none appears while connections are refused. *)
Lemma drain_rounds_clear ro rounds deadline : forall terminated w n w',
  runs (drain_rounds rounds database true deadline terminated) w (Ok n) w' -> closed ro w -> drained ro w'.
Proof.
  induction rounds as [|rounds IH]; intros terminated w n w'; [by intros [? _]|]. cbn [drain_rounds].
  intros [(pids & w1 & Hask & Hrest)|(e & ? & _)]%runs_bind Hc; [|done].
  pose proof (runs_ask _ _ _ _ Hask) as (wa & x & wb & Ha & Hq & Hx & Hb).
  assert (Hc1 : closed ro w1) by by refine (stable_ask _ _ _ _ _ (unchanged_stable (false, ro)) _ Hask Hc).
  destruct x as [pids'|]; [|done]. injection Hx as ->. destruct pids' as [|pid pids'].
  - destruct Hrest as [_ Hr]. eapply stable_others; [apply drained_stable|exact Hr|]. eapply stable_others; [apply drained_stable|exact Hb|].
    assert (Hca : closed ro wa) by by refine (stable_others _ _ _ (unchanged_stable (false, ro)) Ha Hc).
    eapply (proj2 (drained_stable ro)); [|exact Hq|]; [done|]. split; [done|].
    intros s Hs Hk. by apply (sessions_visible _ _ _ _ _ Hq Hs), not_elem_of_nil in Hk.
  - repeat (apply runs_bind in Hrest as [(? & ? & ?Hr & Hrest)|(e & ? & _)]; [|done]).
    eapply IH; [exact Hrest|]. pose proof (unchanged_stable (false, ro)) as Hst.
    do 4 (eapply (stable_runs _ _ _ _ _ Hst); [|eassumption|]; [done|]). done.
Qed.

Lemma alter_run l w r w' : runs (ask (AlterDatabase database l)) w r w' ->
  exists w1, rtc others w w1 /\
    if is_ok r then settings w' database = with_settings l (settings w1 database)
    else settings w' database = settings w1 database \/ settings w' database = with_settings l (settings w1 database).
Proof.
  intros (w1 & x & w2 & H1 & Hq & -> & H2)%runs_ask. exists w1. split; [done|]. pose proof (settings_reply _ _ _ _ _ database Hq) as Hs.
  cbn [alters] in Hs. rewrite bool_decide_true in Hs by done.
  rewrite (stable_others _ _ _ (unchanged_stable (settings w2 database)) H2 eq_refl). by destruct x.
Qed.

Lemma unchanged_others w w' : rtc others w w' -> settings w' database = settings w database.
Proof. intros Ho. by apply (stable_others _ _ _ (unchanged_stable (settings w database)) Ho). Qed.

Lemma closed_runs {A} (p : Prog A) ro w r w' : never_alters p -> runs p w r w' -> closed ro w -> closed ro w'.
Proof. intros Hn Hr. by apply (stable_runs _ _ _ _ _ (unchanged_stable (false, ro)) Hn Hr). Qed.

(** With connections refused: when the drain and the second check pass, the database is
    sealed. *)
Lemma seal_run ro w n w1 w2 :
  closed ro w -> runs (drain_writers database true) w (Ok n) w1 -> runs (ensure_no_prepared database) w1 (Ok tt) w2 -> sealed ro w2.
Proof.
  intros Hc H1 H2. assert (Hd : drained ro w1).
  { apply runs_bind in H1 as [(now & wa & Hnow & H1)|(e & ? & _)]; [|done]. eapply drain_rounds_clear; [exact H1|].
    by apply (closed_runs _ _ _ _ _ (never_alters_ask Now eq_refl) Hnow). }
  apply runs_bind in H2 as [(m & wb & Hcount & [He Hb])|(e & ? & _)]; [|done].
  symmetry in He. apply ensure_Ok, Z.eqb_eq in He. subst m.
  apply runs_ask in Hcount as (wx & x & wy & Hx & Hq & Hok & Hy). destruct x as [m|]; [|done]. injection Hok as <-.
  apply prepared_counted in Hq as Hp. eapply stable_others; [apply sealed_stable|exact Hb|].
  eapply stable_others; [apply sealed_stable|exact Hy|]. split.
  2: { rewrite (prepared_reply _ _ _ _ _ _ Hq). destruct (prepared wx database); [by intros s ?%not_elem_of_nil|done]. }
  eapply (proj2 (drained_stable ro)); [|exact Hq|]; [done|]. by eapply stable_others; [apply drained_stable|exact Hx|].
Qed.

Lemma reopen_run ro w r w' :
  sealed ro w -> runs (ask (AlterDatabase database [DefaultReadOnly true; AllowConnections true])) w r w' ->
  quiescent database w' \/ is_ok r = false /\ closed ro w'.
Proof.
  intros Hs (w1 & x & w2 & H1 & Hq & -> & H2)%runs_ask. assert (sealed ro w1) as [[Hc Hn] Hp] by (by eapply stable_others; [apply sealed_stable|..]).
  pose proof (settings_reply _ _ _ _ _ database Hq) as Hset. cbn [alters] in Hset. rewrite bool_decide_true in Hset by done.
  assert (Hquiet : settings w2 database = (true, true) -> quiescent database w').
  { intros Hset2. eapply quiescent_others; [exact H2|]. split; [done|].
    intros s [Hin|Hin]%elem_of_app; left; [rewrite (prepared_reply _ _ _ _ _ _ Hq) in Hin; by apply Hp|].
    by apply Hn, (sessions_reply _ _ _ _ _ _ Hq). }
  rewrite Hc in Hset. destruct x as [[]|e]; cbn [is_ok map_err] in *; [left; by apply Hquiet|]. destruct Hset as [Hset|Hset]; [|left; by apply Hquiet].
  right. split; [done|]. unfold closed. by rewrite (unchanged_others _ _ H2).
Qed.

(** C5: What a fence guarantees, and what it leaves to trust. Other sessions connect, start
    up, write, prepare and disconnect between any two statements of [fence_writes], but
    nobody else alters the database. When it succeeds, every client's session and every
    prepared transaction of a client that is left is of a session that started read-only,
    and so are all later ones; a write that commits at any later time is then of a session
    that the drain spares (a [pgshard_] application name, or no client backend), or of one
    that started read-only and asked for the read-write mode itself: trusted clients, which
    do neither, commit none. When it fails, the database is as it was, or refuses
    connections, or, if only the last reply was lost, is fenced as after a success. *)
Theorem fence_quiesces w r w' :
  runs (fence_writes database true) w r w' ->
  match r with
  | Ok _ => quiescent database w' /\ forall w1 w2 c, rtc others w' w1 -> others w1 w2 -> commits_write w1 w2 database c ->
      se_kind (wc_session c) <> Client \/ se_read_only (wc_session c) = true /\ wc_asked c = true
  | Err _ => settings w' database = settings w database \/ (settings w' database).1 = false \/ quiescent database w'
  end.
Proof.
  intros Hr. apply runs_bind in Hr as [([] & w1 & Hconn & Hr)|(e & -> & Hconn)]; pose proof (stable_runs _ _ _ _ _
    (unchanged_stable (settings w database)) (never_alters_ask (Connect _) eq_refl) Hconn eq_refl) as Hsame; [|by left].
  cbn [negb] in Hr. apply runs_bind in Hr as [([] & w2 & Ha & Hr)|(e & -> & Ha)]; apply alter_run in Ha as (wa & Ho & Hs);
    rewrite (unchanged_others _ _ Ho), Hsame in Hs; cbn [is_ok] in Hs; [|destruct Hs as [->| ->]; [by left|right; by left]].
  set (ro := (settings w database).2). assert (Hc : closed ro w2) by exact Hs.
  assert (Hclosed : forall u, closed ro u -> (settings u database).1 = false) by by intros u ->.
  apply runs_bind in Hr as [([] & w3 & H1 & Hr)|(e & -> & H1)]; apply (closed_runs _ ro _ _ _ ensure_no_prepared_quiet) in H1; [|by auto..].
  apply runs_bind in Hr as [(n & w4 & H2 & Hr)|(e & -> & H2)]; pose proof (closed_runs _ ro _ _ _ (drain_writers_quiet true) H2 H1) as Hc4; [|by auto].
  apply runs_bind in Hr as [([] & w5 & H3 & Hr)|(e & -> & H3)];
    [|right; left; by apply Hclosed, (closed_runs _ ro _ _ _ ensure_no_prepared_quiet H3)].
  pose proof (seal_run _ _ _ _ _ H1 H2 H3) as Hseal.
  apply runs_bind in Hr as [([] & w6 & Ha & [-> Hr])|(e & -> & Ha)]; apply (reopen_run _ _ _ _ Hseal) in Ha as [Hq|[Hf Hcl]]; [|done|by auto..].
  split; [by eapply quiescent_others|]. intros u1 u2 c Hu Hu2 Hw. destruct (quiescent_others w6 u1 ltac:(by etrans) Hq) as [_ Hn].
  destruct (Hn _ (write_from _ _ _ _ Hu2 Hw)) as [?|Hro]; [by left|right]. split; [done|by apply (write_asked _ _ _ _ Hu2 Hw)].
Qed.

(** ** The drain ends *)

Lemma clock_rtc w w' : rtc others w w' -> clock w <= clock w'.
Proof. induction 1 as [|w w1 w' Hw _ IH]; [lia|]. apply clock_others in Hw. lia. Qed.

Lemma clock_ask {R} (q : Request R) w r w' : runs (ask q) w r w' -> clock w <= clock w'.
Proof.
  intros (w1 & x & w2 & H1 & Hq & _ & H2)%runs_ask. apply clock_rtc in H1. apply clock_reply in Hq. apply clock_rtc in H2. lia.
Qed.

(** [p] does not stop for want of rounds. *)
Definition in_rounds {A} (p : Prog A) : Prop := forall w w', ~ runs p w (Err POutOfRounds) w'.

Lemma in_rounds_ask {R} (q : Request R) : in_rounds (ask q).
Proof. intros w w' (? & x & ? & _ & _ & He & _)%runs_ask. by destruct x. Qed.

Lemma in_rounds_step {A B} (p : Prog A) (f : A -> Prog B) w w' :
  in_rounds p -> runs (p ≫= f) w (Err POutOfRounds) w' ->
  exists a w1, runs p w (Ok a) w1 /\ runs (f a) w1 (Err POutOfRounds) w'.
Proof. intros Hp [?|(e & [= <-] & He)]%runs_bind; [done|]. by apply Hp in He. Qed.

Lemma in_rounds_bind {A B} (p : Prog A) (f : A -> Prog B) : in_rounds p -> (forall a, in_rounds (f a)) -> in_rounds (p ≫= f).
Proof. intros Hp Hf w w' (a & w1 & _ & Ha)%in_rounds_step; [|done]. by eapply Hf. Qed.

(** Each round but the last takes a poll's sleep off the time left. *)
Lemma drain_rounds_end starting deadline rounds : forall terminated w w',
  deadline <= clock w + POLL_MS * Z.of_nat rounds ->
  ~ runs (drain_rounds (S rounds) database starting deadline terminated) w (Err POutOfRounds) w'.
Proof.
  induction rounds as [|rounds IH]; intros terminated w w' Hd Hr; cbn [drain_rounds] in Hr;
    apply in_rounds_step in Hr as (pids & w1 & H1%clock_ask & Hr); try apply in_rounds_ask; (destruct pids as [|pid pids]; [by destruct Hr|]);
    apply in_rounds_step in Hr as (now & w2 & H2 & Hr); try apply in_rounds_ask;
    (apply in_rounds_step in Hr as ([] & w3 & [Hc H3]%runs_check & Hr); [|intros ? ? [Hc _]; by destruct (now <? deadline)]);
    symmetry in Hc; apply ensure_Ok, Z.ltb_lt in Hc;
    pose proof (runs_ask _ _ _ _ H2) as (wa & x & wb & Ha%clock_rtc & (t & -> & Ht)%now_reads & [= ->] & Hb%clock_rtc); [lia|].
  apply in_rounds_step in Hr as (exited & w4 & H4%clock_ask & Hr); [|apply in_rounds_ask].
  apply in_rounds_step in Hr as ([] & w5 & H5 & Hr); [|apply in_rounds_ask].
  apply runs_ask in H5 as (wc & x & wd & H5%clock_rtc & Hs%sleep_waits & _ & H6%clock_rtc). apply clock_rtc in H3.
  eapply IH; [|exact Hr]. lia.
Qed.

Lemma drain_bounded_end rounds starting : (DRAIN_ROUNDS <= rounds)%nat ->
  in_rounds (now ← ask Now; drain_rounds rounds database starting (now + DRAIN_MS) 0).
Proof.
  intros Hn w w' Hr. apply in_rounds_step in Hr as (now & w1 & H1 & Hr); [|apply in_rounds_ask].
  pose proof (runs_ask _ _ _ _ H1) as (wa & x & wb & Ha%clock_rtc & (t & -> & Ht)%now_reads & [= ->] & Hb%clock_rtc).
  unfold DRAIN_ROUNDS in Hn. destruct rounds as [|rounds]; [lia|]. eapply (drain_rounds_end starting _ rounds); [|exact Hr]. unfold DRAIN_MS, POLL_MS. lia.
Qed.

Lemma drain_writers_end starting : in_rounds (drain_writers database starting).
Proof. by apply drain_bounded_end. Qed.

Lemma ensure_no_prepared_end : in_rounds (ensure_no_prepared database).
Proof. apply in_rounds_bind; [apply in_rounds_ask|]. intros n w w' [He _]. by destruct (n =? 0). Qed.

(** Rounds of the loop taken apart and put together again. *)
Lemma runs_bind_Ok {A B} (f : A -> Prog B) (p : Prog A) a w w1 r w' : runs p w (Ok a) w1 -> runs (f a) w1 r w' -> runs (p ≫= f) w r w'.
Proof.
  unfold mbind, Prog_bind. revert w. induction p as [r0|R q k IH]; intros w; cbn [prog_bind runs].
  - intros [<- Hw] Hf. by eapply runs_others.
  - intros (w2 & x & w3 & Hr & Hq & Hk) Hf. exists w2, x, w3. split_and!; [done|done|by eapply IH].
Qed.

Lemma runs_bind_Err {A B} (f : A -> Prog B) (p : Prog A) e w w' : runs p w (Err e) w' -> runs (p ≫= f) w (Err e) w'.
Proof.
  unfold mbind, Prog_bind. revert w. induction p as [r0|R q k IH]; intros w; cbn [prog_bind runs].
  - by intros [<- Hw].
  - intros (w2 & x & w3 & Hr & Hq & Hk). exists w2, x, w3. split_and!; [done|done|by eapply IH].
Qed.

(** The same continuation runs, or one that is replaced by what it may run to. *)
Lemma runs_cont {A B} (f g : A -> Prog B) (p : Prog A) (S : result PgError B -> World -> Prop) w r w' :
  (forall a w1, runs (f a) w1 r w' -> runs (g a) w1 r w' \/ exists r2 w2, S r2 w2 /\ runs (g a) w1 r2 w2) ->
  runs (p ≫= f) w r w' -> runs (p ≫= g) w r w' \/ exists r2 w2, S r2 w2 /\ runs (p ≫= g) w r2 w2.
Proof.
  intros Hfg [(a & w1 & Ha & [Hg|(r2 & w2 & HS & Hg)]%Hfg)|(e & -> & He)]%runs_bind.
  - left. by eapply runs_bind_Ok.
  - right. exists r2, w2. split; [done|by eapply runs_bind_Ok].
  - left. by apply runs_bind_Err.
Qed.

(** With another bound the loop does the same, or is cut off. *)
Lemma drain_rounds_bound starting deadline n : forall m terminated w r w',
  (m <= n)%nat \/ r <> Err POutOfRounds -> runs (drain_rounds n database starting deadline terminated) w r w' ->
  runs (drain_rounds m database starting deadline terminated) w r w' \/
  exists r2 w2, r2 = Err POutOfRounds /\ runs (drain_rounds m database starting deadline terminated) w r2 w2.
Proof.
  induction n as [|n IH]; intros m terminated w r w' Hb.
  { intros [-> Hr]. destruct Hb as [Hb|?]; [|done]. destruct m; [by left|lia]. }
  destruct m as [|m]; [right; exists (Err POutOfRounds), w; by split|]. cbn [drain_rounds].
  apply runs_cont. intros pids w1. destruct pids as [|pid pids]; [by left|].
  do 4 (apply runs_cont; intros ? ?). apply IH. destruct Hb as [?|?]; [left; lia|by right].
Qed.

(** C37: fencing ends. The source's drain loops until it sees no writer; its only bound is its
    clock. Whatever the other sessions do, the loop unrolled to any number of rounds from
    [DRAIN_ROUNDS] on has exactly the executions of [drain_writers], and none of these is cut
    off by the bound: within that many polls the drain has seen the last writer go, or its
    deadline has passed, or a statement has failed; so the fence and the un-fence end. *)
Theorem fence_ends read_only :
  (forall w r w', runs (fence_writes database read_only) w r w' -> r <> Err POutOfRounds) /\
  forall rounds starting w r w', (DRAIN_ROUNDS <= rounds)%nat ->
    runs (now ← ask Now; drain_rounds rounds database starting (now + DRAIN_MS) 0) w r w' <->
    runs (drain_writers database starting) w r w'.
Proof.
  split.
  { assert (Hin : in_rounds (fence_writes database read_only)); [|intros w r w' Hr ->; by apply Hin in Hr].
    apply in_rounds_bind; [apply in_rounds_ask|]. intros _. destruct read_only; cbn [negb];
      repeat first [apply in_rounds_ask | apply drain_writers_end | apply ensure_no_prepared_end | by intros ? ? [? _]
                   | apply in_rounds_bind; [|intros ?]]. }
  intros rounds starting w r w' Hn. unfold drain_writers. split; intros Hr; pose proof Hr as Hcont.
  - apply (runs_cont _ (fun now => drain_rounds DRAIN_ROUNDS database starting (now + DRAIN_MS) 0) _ (fun r2 _ => r2 = Err POutOfRounds)) in Hcont
      as [?|(r2 & w2 & -> & Hcut)]; [done| |]; [by apply (drain_bounded_end DRAIN_ROUNDS) in Hcut|]. intros now w1. apply drain_rounds_bound. by left.
  - apply (runs_cont _ (fun now => drain_rounds rounds database starting (now + DRAIN_MS) 0) _ (fun r2 _ => r2 = Err POutOfRounds)) in Hcont
      as [?|(r2 & w2 & -> & Hcut)]; [done| |]; [by apply (drain_bounded_end rounds) in Hcut|]. intros now w1. apply drain_rounds_bound. right.
    intros ->. by apply drain_writers_end in Hr.
Qed.

End fence.

(** ** Databases *)

Lemma traces_bind {A B} (f : A -> Prog B) (p : Prog A) l r : traces (p ≫= f) l r ->
  (exists a l1 l2, l = l1 ++ l2 /\ traces p l1 (Ok a) /\ traces (f a) l2 r) \/ (exists e, r = Err e /\ traces p l (Err e)).
Proof.
  unfold mbind, Prog_bind. revert l. induction p as [[a|e]|R q k IH]; intros l; cbn [prog_bind traces].
  - intros Hr. left. by exists a, [], l.
  - intros [-> ->]. right. by exists e.
  - intros (x & l' & -> & [(a & l1 & l2 & -> & Ha & Hf)|(e & -> & He)]%IH).
    + left. exists a, (entry q x :: l1), l2. split; [done|]. split; [|done]. by exists x, l1.
    + right. exists e. split; [done|]. by exists x, l'.
Qed.

Lemma traces_ask {R} (q : Request R) l r : traces (ask q) l r -> exists x, l = [entry q x] /\ r = map_err PSql x.
Proof. intros (x & l' & -> & -> & ->). by exists x. Qed.

(** The stamps of a trace: at the end only, of this database, and of one that this very
    command created unless it may adopt. *)
Definition stamps_own (name owner provenance : string) (adopt : bool) (l : list Entry) : Prop :=
  forall l1 n c ok l2, l = l1 ++ Stamped n c ok :: l2 ->
    l2 = [] /\ n = name /\ c = provenance_marker provenance /\ (adopt = true \/ exists l0, l1 = l0 ++ [Created name owner true]).

(** The last thing a trace saw is the database with its marker. *)
Definition ends_marked (name provenance : string) (l : list Entry) : Prop :=
  last l = Some (Described name (Some (Some (provenance_marker provenance)))) \/
  last l = Some (Stamped name (provenance_marker provenance) true).

Definition creations (l : list Entry) : nat := length (List.filter (fun e => match e with Created _ _ _ => true | _ => false end) l).

Lemma no_stamps name owner provenance adopt l :
  Forall (fun e => match e with Stamped _ _ _ => False | _ => True end) l -> stamps_own name owner provenance adopt l.
Proof. intros Hl l1 n c ok l2 ->. apply Forall_app in Hl as [_ Hl]. by inversion Hl. Qed.

Lemma stamps_own_app name owner provenance adopt l l' :
  Forall (fun e => match e with Stamped _ _ _ => False | _ => True end) l -> stamps_own name owner provenance adopt l' ->
  stamps_own name owner provenance adopt (l ++ l').
Proof.
  intros Hl Hl'. induction Hl as [|e l He Hl IH]; [done|]. intros l1 n c ok l2 E. destruct l1 as [|e1 l1]; [by injection E as -> _|].
  injection E as <- E. destruct (IH _ _ _ _ _ E) as (H1 & H2 & H3 & H4). split_and!; [done..|]. destruct H4 as [?|[l0 ->]]; [by left|].
  right. by exists (e :: l0).
Qed.

Lemma stamp_trace name owner provenance adopt l r before :
  traces (stamp_provenance name provenance) l r -> adopt = true \/ (exists l0, before = l0 ++ [Created name owner true]) ->
  Forall (fun e => match e with Stamped _ _ _ => False | _ => True end) before ->
  stamps_own name owner provenance adopt (before ++ l) /\ (r = Ok tt -> ends_marked name provenance (before ++ l)) /\ creations l = 0%nat.
Proof.
  intros (x & -> & ->)%traces_ask Hb Hf. cbn [entry]. split_and!; [| |done].
  - intros l1 n c ok l2 E. destruct l2 as [|z l2 _] using rev_ind.
    + apply app_inj_tail in E as [-> [= <- <- <-]]. by split_and!.
    + rewrite app_comm_cons, app_assoc in E. apply app_inj_tail in E as [-> _]. apply Forall_app in Hf as [_ Hf]. by inversion Hf.
  - intros Hok. destruct x as [[]|]; [|done]. right. by rewrite last_snoc.
Qed.

Lemma create_attempts_trace name owner provenance adopt attempts : forall l r,
  provenance <> EmptyString -> traces (create_attempts attempts name owner provenance adopt) l r ->
  stamps_own name owner provenance adopt l /\ (r = Ok tt -> ends_marked name provenance l) /\ (creations l <= attempts)%nat.
Proof.
  intros l r Hp. assert (Hne : str_is_empty provenance = false) by by destruct provenance. revert l r.
  induction attempts as [|attempts IH]; intros l r; cbn [create_attempts].
  { intros [-> ->]. split_and!; [by apply no_stamps|done|done]. }
  intros [(existing & l1 & l2 & -> & (x & -> & Hx)%traces_ask & Hl2)|(e & -> & (x & -> & _)%traces_ask)]%traces_bind; [|destruct x; (split_and!; [by apply no_stamps; repeat constructor|done|cbn; lia])].
  destruct x as [x|]; [|done]. injection Hx as ->. cbn [entry]. rewrite Hne in Hl2. destruct x as [found|].
  - destruct (bool_decide (found = Some (provenance_marker provenance))) eqn:Ef.
    { apply bool_decide_eq_true in Ef as ->. destruct Hl2 as [-> ->]. split_and!; [apply no_stamps; by repeat constructor|by left|cbn; lia]. }
    destruct adopt.
    + destruct (stamp_trace name owner provenance true l2 r [Described name (Some found)] Hl2) as (H1 & H2 & H3); [by left|by repeat constructor|].
      split_and!; [done|done|]. unfold creations in *. cbn. lia.
    + destruct Hl2 as [-> ->]. split_and!; [apply no_stamps; by repeat constructor|done|cbn; lia].
  - destruct Hl2 as (x & l3 & -> & Hl3). cbn [entry]. destruct x as [[]|e]; cbn [is_ok].
    + destruct (stamp_trace name owner provenance adopt l3 r [Described name None; Created name owner true] Hl3) as (H1 & H2 & H3);
        [right; by exists [Described name None]|by repeat constructor|]. split_and!; [done|done|]. unfold creations in *. cbn. lia.
    + destruct (bool_decide _); [|destruct Hl3 as [-> ->]; split_and!; [apply no_stamps; by repeat constructor|done|cbn; lia]].
      destruct (IH _ _ Hl3) as (H1 & H2 & H3). split_and!.
      * by apply (stamps_own_app _ _ _ _ [_; _]); [repeat constructor|].
      * intros Hok. specialize (H2 Hok). destruct l3 as [|e3 l3]; [by destruct H2|]. exact H2.
      * unfold creations in *. cbn. lia.
Qed.

(** a database is never adopted silently. Whatever PostgreSQL answers and whoever
    else creates and drops databases meanwhile, [create_database] with a provenance
    succeeds only when the last thing it saw of the database is its own marker on it;
    without [adopt] it stamps a database only directly after its own [CREATE DATABASE]
    made it; it stamps nothing after that, and tries to create it at most three times. *)
Theorem create_database_verifies name owner provenance adopt l r :
  provenance <> EmptyString -> traces (create_database name owner provenance adopt) l r ->
  stamps_own name owner provenance adopt l /\ (r = Ok tt -> ends_marked name provenance l) /\ (creations l <= 3)%nat.
Proof.
  intros Hp [(x & l1 & l2 & -> & (c & -> & _)%traces_ask & H2)|(e & -> & (c & -> & _)%traces_ask)]%traces_bind.
  - destruct (create_attempts_trace _ _ _ _ _ _ _ Hp H2) as (Hs & He & Hc). cbn [entry]. split_and!.
    + apply (stamps_own_app _ _ _ _ [_]); [by repeat constructor|done].
    + intros Hr. specialize (He Hr). destruct l2 as [|e2 l2]; [by destruct He|]. exact He.
    + exact Hc.
  - split_and!; [apply no_stamps; by repeat constructor|done|cbn; lia].
Qed.

(** ** Publications *)

Definition row_name (w : PublishedRow) : string * string := (pw_schema w, pw_name w).
Definition plan_names (run : RunPlan) : list (string * string) := (fun t => (tp_schema t, tp_name t)) <$> rp_tables run.

(** A table that is a member itself, not the leaf of a partitioned one. *)
Definition is_member (w : PublishedRow) : Prop := pw_rel w <> None.

(** Neither a column list nor a row filter. *)
Definition is_whole (w : PublishedRow) : Prop := pw_rel w = Some (true, true).

(** The publication carries exactly the tables of the plan, whole. *)
Definition publishes_exactly (run : RunPlan) (p : Publication) : Prop :=
  flags_answer p = true /\ (forall n, n ∈ row_name <$> pc_rows p <-> n ∈ plan_names run) /\ Forall is_whole (pc_rows p).

Lemma same_names_length {A} `{EqDecision A} (l k : list A) :
  NoDup l -> NoDup k -> length l = length k -> l ⊆ k -> forall x, x ∈ k -> x ∈ l.
Proof.
  intros Hl Hk Hlen Hsub x Hx. assert (Hperm : l ≡ₚ k); [|by rewrite Hperm].
  apply submseteq_length_Permutation; [|lia]. by apply NoDup_submseteq.
Qed.

Lemma NoDup_fmap_elem {A B} (f : A -> B) (l : list A) x y : NoDup (f <$> l) -> x ∈ l -> y ∈ l -> f x = f y -> x = y.
Proof.
  intros Hn (i & Hi)%list_elem_of_lookup (j & Hj)%list_elem_of_lookup E.
  assert (i = j) as ->; [|congruence]. eapply (NoDup_lookup (f <$> l)); [done|rewrite list_lookup_fmap, Hi; done|].
  by rewrite list_lookup_fmap, Hj, E.
Qed.

Lemma members_of_rows p : Forall is_member (pc_rows p) ->
  length (members_answer p) = length (pc_rows p) /\
  forall s n c, (s, n, c) ∈ members_answer p <-> exists w a q, w ∈ pc_rows p /\ pw_rel w = Some (a, q) /\ s = pw_schema w /\ n = pw_name w /\ c = a && q.
Proof.
  intros Hm. split.
  - unfold members_answer. induction Hm as [|w l Hw _ IH]; [done|]. cbn [omap list_omap]. unfold is_member in Hw.
    destruct (pw_rel w) as [[a q]|]; [|done]. cbn. by rewrite IH.
  - intros s n c. unfold members_answer. rewrite list_elem_of_omap. split.
    + intros (w & Hw & E). destruct (pw_rel w) as [[a q]|] eqn:Er; [|done]. injection E as <- <- <-. by exists w, a, q.
    + intros (w & a & q & Hw & E & -> & -> & ->). exists w. by rewrite E.
Qed.

Lemma matches_exactly oracle run p :
  sees oracle (rp_publication run) p -> NoDup (plan_names run) -> NoDup (row_name <$> pc_rows p) -> Forall is_member (pc_rows p) ->
  interp oracle (publication_matches (rp_publication run) (plan_names run)) = Ok true <-> publishes_exactly run p.
Proof.
  intros [Hf Hms] Hnt Hnr Hm. destruct (members_of_rows p Hm) as [Hlen Hin]. unfold publication_matches. cbn. rewrite Hf. cbn [map_err prog_bind interp].
  unfold publishes_exactly. destruct (flags_answer p); [|cbn; split; [done|by intros [? _]]]. cbn. rewrite Hms. cbn [map_err prog_bind interp]. rewrite Hlen.
  destruct (Nat.eqb_spec (length (pc_rows p)) (length (plan_names run))) as [El|El]; cbn.
  - split.
    + intros [= Hall]. rewrite forallb_forall in Hall. assert (Hrow : forall n, n ∈ plan_names run -> exists w, w ∈ pc_rows p /\ row_name w = n /\ is_whole w).
      { intros [s n] Hn. specialize (Hall _ (proj1 (list_elem_of_In _ _) Hn)). apply existsb_exists in Hall as ([[s' n'] c] & Hmem%list_elem_of_In & Hc).
        cbn [fst snd] in Hc. rewrite !andb_true_iff in Hc. destruct Hc as [[->%bool_decide_eq_true ->%bool_decide_eq_true] ->]. apply Hin in Hmem as (w & a & q & Hw & Er & -> & -> & Eq).
        symmetry in Eq. apply andb_true_iff in Eq as [-> ->]. by exists w. }
      assert (Hsub : plan_names run ⊆ row_name <$> pc_rows p).
      { intros n (w & Hw & <- & _)%Hrow. by apply list_elem_of_fmap_2. }
      assert (Hback : forall n, n ∈ row_name <$> pc_rows p -> n ∈ plan_names run).
      { apply same_names_length; [done|done| |done]. by rewrite length_fmap. }
      split_and!; [done|by split; auto|]. apply Forall_forall. intros w Hw. destruct (Hrow (row_name w)) as (w' & Hw' & En & Hwh).
      { apply Hback. by apply list_elem_of_fmap_2. }
      by rewrite <- (NoDup_fmap_elem _ _ _ _ Hnr Hw' Hw En).
    + intros (_ & Hnames & Hwh). f_equal. apply forallb_forall. intros [s n] Hn%list_elem_of_In. apply Hnames in Hn.
      apply list_elem_of_fmap in Hn as (w & [= -> ->] & Hw). apply existsb_exists. exists (pw_schema w, pw_name w, true).
      rewrite !bool_decide_true by done. split; [|done]. apply list_elem_of_In, Hin. exists w, true, true. rewrite Forall_forall in Hwh.
      split_and!; [done|by apply Hwh|done..].
  - split; [done|]. intros (_ & Hnames & _). destruct El. rewrite <- (length_fmap row_name). apply Permutation_length, NoDup_Permutation; done.
Qed.

(** The table as the worker records it. *)
Definition worker_table (w : PublishedRow) : PublishedTable :=
  mkPublishedTable (pw_schema w) (pw_name w) (pw_columns w) (default false ((fun r => negb r.1) <$> pw_rel w))
    (default false ((fun r => negb r.2) <$> pw_rel w)).

Lemma worker_shape p xid base : fetch_publication (worker_answers p xid) = Ok base ->
  pb_shape base = mkPublicationShape (pc_insert p) (pc_update p) (pc_delete p) (pc_truncate p) (pc_viaroot p)
    (negb (bool_decide (pc_gencols p = "n"%char))) (pc_alltables p) (pc_versions p) (worker_table <$> pc_rows p).
Proof.
  unfold fetch_publication, worker_answers. cbn [an_row an_versions an_tables sql map_err ok_or mbind result_bind]. intros Hf.
  apply result_bind_Ok in Hf as (n & _ & Hf). apply result_bind_Ok in Hf as (h & _ & [= <-]).
  cbn [pb_shape pr_insert pr_update pr_delete pr_truncate pr_viaroot pr_gencols pr_alltables]. f_equal. by rewrite <- list_fmap_compose.
Qed.

Lemma unit_bind_Ok {E} (r : result E unit) (k : result E unit) : (_ ← r; k) = Ok tt <-> r = Ok tt /\ k = Ok tt.
Proof. destruct r as [[]|]; cbn; naive_solver. Qed.

Lemma named_in {A} (f g : A -> string) (l : list A) s n :
  existsb (fun x => bool_decide (f x = s) && bool_decide (g x = n)) l = true <-> (s, n) ∈ (fun x => (f x, g x)) <$> l.
Proof.
  rewrite existsb_exists, list_elem_of_fmap. setoid_rewrite andb_true_iff. setoid_rewrite bool_decide_eq_true. setoid_rewrite list_elem_of_In. split.
  - intros (x & Hx & <- & <-). by exists x.
  - intros (x & [= -> ->] & Hx). by exists x.
Qed.

Lemma row_check run w : is_member w ->
  (_ ← ensure (existsb (fun t => bool_decide (tp_schema t = pt_schema (worker_table w)) && bool_decide (tp_name t = pt_name (worker_table w))) (rp_tables run))
         (FUnmapped (pt_schema (worker_table w)) (pt_name (worker_table w)));
   _ ← ensure (negb (pt_has_row_filter (worker_table w))) (FRowFilter (pt_schema (worker_table w)) (pt_name (worker_table w)));
   ensure (negb (pt_has_column_list (worker_table w))) (FColumnList (pt_schema (worker_table w)) (pt_name (worker_table w)))) = Ok tt
  <-> row_name w ∈ plan_names run /\ is_whole w.
Proof.
  intros Hm. rewrite !unit_bind_Ok, !ensure_Ok, named_in. cbn [worker_table pt_schema pt_name pt_has_row_filter pt_has_column_list].
  unfold is_member, is_whole in *. destruct (pw_rel w) as [[[] []]|]; cbn; naive_solver.
Qed.

Lemma check_exactly run p xid base :
  fetch_publication (worker_answers p xid) = Ok base -> Forall is_member (pc_rows p) ->
  check_publication run (pb_shape base) = Ok tt <-> publishes_exactly run p.
Proof.
  intros Hf Hm. rewrite (worker_shape _ _ _ Hf). unfold check_publication.
  cbn [ps_insert ps_update ps_delete ps_truncate ps_via_partition_root ps_publishes_generated ps_all_tables ps_versions ps_tables].
  rewrite !unit_bind_Ok, !check_all_Ok, !ensure_Ok, Forall_fmap. unfold publishes_exactly, flags_answer.
  assert (Hkinds : forallb (fun v => negb (v.1.1 =? 2)) (pc_versions p) = negb (existsb in_schema (pc_versions p))).
  { unfold in_schema. induction (pc_versions p) as [|v l IH]; [done|]. cbn. rewrite IH. by destruct (v.1.1 =? 2). }
  rewrite Hkinds, negb_involutive, !andb_true_iff, !negb_true_iff.
  assert (Hall : Forall (fun t => ensure (existsb (fun q => bool_decide (pt_schema q = tp_schema t) && bool_decide (pt_name q = tp_name t)) (worker_table <$> pc_rows p))
      (FNotPublished (tp_schema t) (tp_name t)) = Ok tt) (rp_tables run) <-> forall n, n ∈ plan_names run -> n ∈ row_name <$> pc_rows p).
  { rewrite Forall_forall. setoid_rewrite ensure_Ok. setoid_rewrite named_in. rewrite <- list_fmap_compose. split.
    - intros Ht n (t & -> & Hin)%list_elem_of_fmap. by apply Ht.
    - intros Ht t Hin. apply (Ht (tp_schema t, tp_name t)). by apply (list_elem_of_fmap_2 (fun t => (tp_schema t, tp_name t))). }
  rewrite Hall. clear Hall Hkinds. rewrite Forall_forall in Hm.
  assert (Hrow : forall P, (forall w, is_member w -> P w <-> row_name w ∈ plan_names run /\ is_whole w) ->
    Forall P (pc_rows p) <-> (forall n, n ∈ row_name <$> pc_rows p -> n ∈ plan_names run) /\ Forall is_whole (pc_rows p)).
  { intros P HP. rewrite !Forall_forall. split.
    - intros Hr. split; [intros n (w & -> & Hw)%list_elem_of_fmap|intros w Hw]; by apply HP; auto.
    - intros [Hn Hw] w Hin. apply HP; [by auto|]. split; [apply Hn; by apply list_elem_of_fmap_2|by apply Hw]. }
  rewrite (Hrow _ (row_check run)). naive_solver.
Qed.

(** preparing and checking a publication agree. For a publication of plain tables,
    [publication_matches], by which [prepare_source] decides to leave it untouched, says
    yes exactly when the checks of the seeding worker's preflight pass on it: a prepared
    source passes the preflight, and a publication a worker has accepted is never
    dropped under it by a retry. *)
Theorem publication_checks_agree oracle run p xid base :
  sees oracle (rp_publication run) p -> NoDup (plan_names run) -> NoDup (row_name <$> pc_rows p) -> Forall is_member (pc_rows p) ->
  fetch_publication (worker_answers p xid) = Ok base ->
  interp oracle (publication_matches (rp_publication run) (plan_names run)) = Ok true <-> check_publication run (pb_shape base) = Ok tt.
Proof. intros Hs Ht Hr Hm Hf. by rewrite (matches_exactly _ _ _ Hs Ht Hr Hm), (check_exactly _ _ _ _ Hf Hm). Qed.

(** ** The statements *)

Definition literal_token (s : string) : list Token := [TQuoted "039"%char (bytes s)].

Definition create_database_tokens (name owner : string) : list Token :=
  raw "CREATE DATABASE " ++ ident_token name ++ (if str_is_empty owner then [] else raw " OWNER " ++ ident_token owner).

Definition create_publication_tokens (publication : string) (tables : list (string * string)) : list Token :=
  raw "CREATE PUBLICATION " ++ ident_token publication ++ raw " FOR TABLE "
  ++ sep_tokens ", " ((fun t => ident_token t.1 ++ raw "." ++ ident_token t.2) <$> tables)
  ++ raw "
                         WITH (publish = " ++ literal_token "insert, update, delete, truncate" ++ raw ")".

Lemma lexes_after_ident b name s ts :
  lexes b s ts -> (exists c l, bytes s = c :: l /\ is_quote c = false) -> lexes b (quote_ident name +:+ s) (ident_token name ++ ts).
Proof. intros Hs Hh. apply lexes_app_weak; [by apply lexes_quoted|done|done]. Qed.

Lemma append_empty s : s +:+ EmptyString = s.
Proof. induction s as [|c s IH]; [done|]. change (String c (s +:+ EmptyString) = String c s). by rewrite IH. Qed.

Lemma lexes_setting s : lexes true (setting_text s) (raw (setting_text s)) /\ exists c l, bytes (setting_text s) = c :: l /\ is_quote c = false.
Proof. split; [apply lexes_raw; by destruct s as [[]|[]]|]. destruct s; eexists _, _; (split; [reflexivity|done]). Qed.

(** no name changes the DDL it is spliced into. However a database, an owner, a
    provenance marker, a publication or a table is named, PostgreSQL reads each statement
    the agent builds as that statement's fixed text, with each name as one quoted token
    that holds exactly the name. *)
Theorem ddl_quotes_names database setting owner comment publication tables :
  lex None (bytes (alter_text database setting)) = raw "ALTER DATABASE " ++ ident_token database ++ raw (setting_text setting) /\
  lex None (bytes (create_database_text database owner)) = create_database_tokens database owner /\
  lex None (bytes (comment_text database comment)) = raw "COMMENT ON DATABASE " ++ ident_token database ++ raw " IS " ++ literal_token comment /\
  lex None (bytes (drop_database_text database)) = raw "DROP DATABASE IF EXISTS " ++ ident_token database ++ raw " WITH (FORCE)" /\
  lex None (bytes (drop_publication_text publication)) = raw "DROP PUBLICATION IF EXISTS " ++ ident_token publication /\
  lex None (bytes (create_publication_text publication tables)) = create_publication_tokens publication tables.
Proof.
  split_and!; apply lexes_all; (apply lexes_app; [by apply lexes_raw|]).
  - destruct (lexes_setting setting). apply lexes_after_ident; [by apply lexes_weaken|done].
  - destruct (str_is_empty owner); [|apply lexes_after_ident; [|by apply (starts_raw " "%char)]; apply lexes_app; [by apply lexes_raw|by apply lexes_quoted]].
    rewrite app_nil_r, append_empty. by apply lexes_quoted.
  - apply lexes_after_ident; [|by apply (starts_raw " "%char)]. apply lexes_app; [by apply lexes_raw|by apply lexes_quoted].
  - apply lexes_after_ident; [by apply lexes_weaken, lexes_raw|by eexists _, _].
  - by apply lexes_quoted.
  - apply lexes_after_ident; [|by apply (starts_raw " "%char)]. apply lexes_app; [by apply lexes_raw|].
    apply lexes_app_weak; [| |by eexists _, _].
    + apply lexes_join; [done|done|]. apply Forall2_fmap, Forall_Forall2_diag, Forall_true. intros t.
      apply lexes_after_ident; [|by apply (starts_raw "."%char)]. apply lexes_app; [by apply lexes_raw|by apply lexes_quoted].
    + change ("
                         WITH (publish = 'insert, update, delete, truncate')") with ("
                         WITH (publish = " +:+ (quote_literal "insert, update, delete, truncate" +:+ ")")).
      apply lexes_app; [by apply lexes_raw|]. apply lexes_app_weak; [by apply lexes_quoted|by apply lexes_weaken, lexes_raw|by eexists _, _].
Qed.

(** [parse_lsn] reads what [Lsn::from_str] accepts as it does. *)
Lemma parse_lsn_agrees s lsn : Lsn_from_str s = Ok lsn -> parse_lsn s = lsn.
Proof.
  unfold Lsn_from_str, parse_lsn, hex_or_zero. intros Hs. apply result_bind_Ok in Hs as ([hi lo] & Hsp%ok_or_Ok & Hs). rewrite Hsp.
  apply result_bind_Ok in Hs as (h & Hh%ok_or_Ok & Hs). apply result_bind_Ok in Hs as (l & Hl%ok_or_Ok & Hs). rewrite Hh, Hl. cbn [default].
  apply from_str_radix_unsigned_range in Hh; [|unfold u64_MAX; lia..]. destruct ((h >? u32_MAX) || (l >? u32_MAX)) eqn:E; [done|]. injection Hs as <-.
  f_equal. unfold as_u64. apply Z.mod_small. rewrite Z.shiftl_mul_pow2 by lia. unfold two64, u32_MAX in *. lia.
Qed.

(** ** A small PostgreSQL *)

Module PgExample.

Record Tiny := mkTiny { ty_clock : Z; ty_settings : string -> bool * bool; ty_sessions : list Session; ty_prepared : list Session }.

(** The statement of the drain, on one database. *)
Definition tiny_writers (w : Tiny) : list Z := se_pid <$> List.filter (fun s => match se_kind s with Client => true | _ => false end) (ty_sessions w).

Definition tiny_answer {R} (q : Request R) : Tiny -> result SqlError R * Tiny :=
  match q in Request R return Tiny -> result SqlError R * Tiny with
  | Connect _ => fun w => (Ok tt, w)
  | Now => fun w => (Ok (ty_clock w), w)
  | Sleep ms => fun w => (Ok tt, mkTiny (ty_clock w + Z.max 0 ms) (ty_settings w) (ty_sessions w) (ty_prepared w))
  | SelectWriters _ _ => fun w => (Ok (tiny_writers w), w)
  | TerminateBackends pids => fun w => (Ok (Z.of_nat (length pids)),
      mkTiny (ty_clock w) (ty_settings w) (List.filter (fun s => negb (bool_decide (se_pid s ∈ pids))) (ty_sessions w)) (ty_prepared w))
  | CountPrepared _ => fun w => (Ok (Z.of_nat (length (ty_prepared w))), w)
  | AlterDatabase d l => fun w =>
      (Ok tt, mkTiny (ty_clock w) (fun d' => if bool_decide (d = d') then with_settings l (ty_settings w d') else ty_settings w d')
                (ty_sessions w) (ty_prepared w))
  | _ => fun w => (Err (mkSqlError None "unsupported"), w)
  end.

(** The other sessions come, where they may, prepare and go. *)
Definition tiny_others (w w' : Tiny) : Prop :=
  ty_clock w' = ty_clock w /\ ty_settings w' = ty_settings w /\ ty_prepared w' ⊆ ty_prepared w ++ ty_sessions w /\
  forall s, s ∈ ty_sessions w' -> s ∈ ty_sessions w \/ forall d, (ty_settings w d).1 = true /\ se_read_only s = (ty_settings w d).2.

(** Any of them may commit, in the mode it has or asks for. *)
Definition tiny_commits (w w' : Tiny) (d : string) (c : WriteCommit) : Prop :=
  wc_session c ∈ ty_prepared w ++ ty_sessions w /\ (se_read_only (wc_session c) = true -> wc_asked c = true).

#[local] Instance tiny : Postgres.
Proof.
  refine {| World := Tiny; reply R q w x w' := (x, w') = tiny_answer q w; others := tiny_others; clock := ty_clock; settings := ty_settings;
            sessions w _ := ty_sessions w; prepared w _ := ty_prepared w; commits_write := tiny_commits |}.
  - intros w w' (-> & _). lia.
  - intros R q w x w' E. destruct q; injection E as -> ->; cbn; lia.
  - intros w x w' [= -> ->]. eexists. split; [done|lia].
  - intros ms w x w' [= -> ->]. cbn. lia.
  - by intros w w' d (_ & -> & _).
  - intros R q w x w' d E. destruct q; injection E as -> ->; try done. cbn. by case_bool_decide.
  - intros w w' d s (_ & _ & _ & Hs) [?|Hn]%Hs; [by left|right; right; apply Hn].
  - intros R q w x w' d E. destruct q; injection E as -> ->; try done. cbn. intros s Hs. by apply elem_of_filter_b in Hs as [? _].
  - intros d w pids w' s [= -> ->] Hs Hk. apply list_elem_of_fmap_2, elem_of_filter_b. split; [done|]. by rewrite Hk.
  - by intros w w' d (_ & _ & Hp & _).
  - intros R q w x w' d E. by destruct q; injection E as -> ->.
  - by intros d w n w' [= -> ->].
  - by intros w w' d c _ [? _].
  - by intros w w' d c _ [_ ?].
Defined.

Fixpoint exec {A} (p : Prog A) (w : Tiny) : result PgError A * Tiny :=
  match p with Ret r => (r, w) | Ask q k => let '(x, w') := tiny_answer q w in exec (k x) w' end.

Lemma exec_runs {A} (p : Prog A) : forall w, runs p w (exec p w).1 (exec p w).2.
Proof.
  induction p as [r|R q k IH]; intros w; cbn [runs exec]; [split; [done|constructor]|].
  destruct (tiny_answer q w) as [x w'] eqn:E. exists w, x, w'. split; [constructor|]. split; [done|apply IH].
Qed.

(** A client and a copy of the reshard are connected. *)
Definition busy : Tiny := mkTiny 0 (fun _ => (true, false)) [mkSession 7 Client false; mkSession 8 Spared false] [].

Lemma fence_quiesces_witness : (exec (fence_writes "app" true) busy).1 = Ok 1 /\ quiescent "app" (exec (fence_writes "app" true) busy).2.
Proof.
  split; [vm_compute; reflexivity|].
  destruct (fence_quiesces (PG := tiny) "app" busy (Ok 1) (exec (fence_writes "app" true) busy).2 (exec_runs (fence_writes "app" true) busy)) as [Hq _].
  exact Hq.
Defined.

Lemma fence_ends_witness : (exec (fence_writes "app" true) busy).1 <> Err POutOfRounds /\
  forall r w', runs (now ← ask Now; drain_rounds 500 "app" true (now + DRAIN_MS) 0) busy r w' <-> runs (drain_writers "app" true) busy r w'.
Proof.
  destruct (fence_ends (PG := tiny) "app" true) as [He Hd]. split; [exact (He busy _ _ (exec_runs (fence_writes "app" true) busy))|].
  intros r w'. apply Hd. unfold DRAIN_ROUNDS. lia.
Defined.

(** A creation that loses the race to another agent of the same placement. *)
Definition race : list Entry :=
  [Otherwise; Described "app" None; Created "app" "owner" false; Described "app" (Some (Some "pgshard-provenance:uid"))].

Lemma create_database_verifies_witness : ends_marked "app" "uid" race /\ (creations race <= 3)%nat.
Proof.
  destruct (create_database_verifies "app" "owner" "uid" false race (Ok tt)) as (_ & Hm & Hc); [discriminate| |split; [apply Hm; reflexivity|exact Hc]].
  exists (Ok tt), (tail race). split; [reflexivity|]. exists (Ok None), (tail (tail race)). split; [reflexivity|].
  exists (Err (mkSqlError (Some DUPLICATE_DATABASE) "exists")), (tail (tail (tail race))). split; [reflexivity|].
  exists (Ok (Some (Some "pgshard-provenance:uid"))), []. split; [reflexivity|]. split; reflexivity.
Defined.

Definition plan : RunPlan := mkRunPlan "wf" (mkConfig "db" 5432 "repl" "pw" "app") "s" "pgshard_p" "app" "uid"
  [mkTablePlan "public" "users" "id" TInt] (mkKeyRange 0 None) "xxhash64_v1".

Definition plain : Publication := mkPublication true true true true false "n"%char false [(0, 16390, "700"); (1, 16391, "701")]
  [mkPublishedRow "public" "users" ["id"; "name"] (Some (true, true))].

Definition oracle (p : Publication) : forall R, Request R -> result SqlError R := fun R q =>
  match q in Request R return result SqlError R with
  | SelectPublicationFlags _ => Ok (Some (flags_answer p))
  | SelectMembers _ => Ok (members_answer p)
  | _ => Err (mkSqlError None "unsupported")
  end.

Lemma publication_checks_agree_witness :
  interp (oracle plain) (publication_matches "pgshard_p" [("public", "users")]) = Ok true <->
  check_publication plan (mkPublicationShape true true true true false false false [(0, 16390, "700"); (1, 16391, "701")]
    [mkPublishedTable "public" "users" ["id"; "name"] false false]) = Ok tt.
Proof.
  apply (publication_checks_agree (oracle plain) plan plain "800" (mkBaseline
    (mkPublicationShape true true true true false false false [(0, 16390, "700"); (1, 16391, "701")]
      [mkPublishedTable "public" "users" ["id"; "name"] false false]) 800 4294967196)).
  - split; reflexivity.
  - repeat constructor. apply not_elem_of_nil.
  - repeat constructor. apply not_elem_of_nil.
  - repeat constructor. discriminate.
  - vm_compute. reflexivity.
Defined.

(** The same publication with a partitioned table added: [pg_publication_tables] shows
    its leaf, which has no [pg_publication_rel] row. *)
Definition partitioned : Publication := mkPublication true true true true false "n"%char false
  [(0, 16390, "700"); (1, 16391, "701"); (1, 16392, "702")]
  [mkPublishedRow "public" "events_2024" ["id"] None; mkPublishedRow "public" "users" ["id"; "name"] (Some (true, true))].

End PgExample.

(** A partitioned member goes unnoticed: [publication_matches] finds exactly the plan's
    table, so [prepare_source] leaves the publication alone, and the worker's preflight
    refuses it for the leaf it does not map, at every retry. *)
Example partitioned_member_unnoticed :
  interp (PgExample.oracle PgExample.partitioned) (publication_matches "pgshard_p" (plan_names PgExample.plan)) = Ok true /\
  (base ← fetch_publication (worker_answers PgExample.partitioned "800"); check_publication PgExample.plan (pb_shape base))
    = Err (FUnmapped "public" "events_2024").
Proof. split; vm_compute; reflexivity. Qed.
