(* ===== verification/Merge.v ===== *)
(** * The cross-shard ORDER BY merge

    [src/crates/pgshard-router/src/merge.rs]: sort keys resolved against the
    result schema, the sort columns decoded from the wire rows, and the combined
    rows ordered by a comparator. A double is the standard library's
    specification of a binary64 ([spec_float]). *)

From Stdlib Require Import SpecFloat.
From S2P Require Import Prelude Rust.

Open Scope Z_scope.

(** ** [f64::from_str] and its order *)

Definition float64 : Type := spec_float.

(** [m * 10 ^ e], correctly rounded to binary64. *)
Definition f64_of_decimal (sign : bool) (m e : Z) : float64 :=
  match m with
  | Zpos p =>
      if 0 <=? e then binary_normalize 53 1024 ((if sign then -1 else 1) * m * 10 ^ e) 0 sign
      else SFdiv 53 1024 (S754_finite sign p 0) (S754_finite false (Z.to_pos (10 ^ (- e))) 0)
  | _ => S754_zero sign
  end.

(** Leading decimal digits: their value, their number and what follows. *)
Fixpoint take_digits (acc : Z) (n : nat) (l : list ascii) : Z * nat * list ascii :=
  match l with
  | c :: l' => if is_ascii_digit c then take_digits (acc * 10 + (byte_val c - 48)) (S n) l' else (acc, n, l)
  | [] => (acc, n, l)
  end.

Definition split_sign (l : list ascii) : bool * list ascii :=
  match l with
  | c :: l' => if decide (c = "-"%char) then (true, l') else if decide (c = "+"%char) then (false, l') else (false, l)
  | [] => (false, l)
  end.

Definition parse_exponent (l : list ascii) : option Z :=
  match l with
  | [] => Some 0
  | c :: l' =>
      if decide (c = "e"%char \/ c = "E"%char) then
        let '(neg, l1) := split_sign l' in
        match take_digits 0 0 l1 with
        | (v, S _, []) => Some (if neg then - v else v)
        | _ => None
        end
      else None
  end.

Definition f64_from_str (s : list ascii) : option float64 :=
  let '(sign, l) := split_sign s in
  let lower := ascii_lower <$> l in
  if decide (lower = bytes "inf" \/ lower = bytes "infinity") then Some (S754_infinity sign)
  else if decide (lower = bytes "nan") then Some S754_nan
  else
    let '(int, n1, l1) := take_digits 0 0 l in
    let '(m, n2, l2) :=
      match l1 with
      | c :: l' => if decide (c = "."%char) then take_digits int 0 l' else (int, O, l1)
      | [] => (int, O, l1)
      end in
    if (n1 + n2 =? 0)%nat then None
    else e ← parse_exponent l2; Some (f64_of_decimal sign m (e - Z.of_nat n2)).

Definition is_nan (x : float64) : bool := match x with S754_nan => true | _ => false end.

(** ** Rows and sort keys *)

Inductive FieldFormat := FormatText | FormatBinary.

#[export] Instance FieldFormat_eq_dec : EqDecision FieldFormat.
Proof. solve_decision. Defined.

(** A result column: its name, the OID of its type, its wire format. *)
Record FieldInfo := mkFieldInfo { fi_name : string; fi_datatype : Z; fi_format : FieldFormat }.

(** [pg_type] OIDs of the supported types. *)
Definition INT2 : Z := 21.
Definition INT4 : Z := 23.
Definition INT8 : Z := 20.
Definition FLOAT4 : Z := 700.
Definition FLOAT8 : Z := 701.
Definition BOOL : Z := 16.

Inductive SortColumn := SCName (name : string) | SCPosition (p : nat).
Record SortKey := mkSortKey { sk_column : SortColumn; sk_descending : bool; sk_nulls_first : bool }.

Inductive SortKind := KInt | KFloat | KBool.
Record ResolvedKey := mkResolvedKey { rk_index : nat; rk_kind : SortKind; rk_descending : bool; rk_nulls_first : bool }.

Inductive SortValue := VNull | VInt (v : Z) | VFloat (v : float64) | VBool (v : bool).

(** A rejection: its SQLSTATE and what it is about. *)
Record PgWireError := mkPgWireError { pe_code : string; pe_reason : string }.

Definition sort_kind (ty : Z) : option SortKind :=
  if decide (ty = INT2 \/ ty = INT4 \/ ty = INT8) then Some KInt
  else if decide (ty = FLOAT4 \/ ty = FLOAT8) then Some KFloat
  else if decide (ty = BOOL) then Some KBool
  else None.

(** The indices of the columns named [name], in order. *)
Definition name_hits (schema : list FieldInfo) (name : string) : list nat :=
  fst <$> List.filter (fun p => bool_decide (fi_name p.2 = name)) (imap pair schema).

Definition key_index (schema : list FieldInfo) (column : SortColumn) : result PgWireError nat :=
  match column with
  | SCPosition p =>
      ok_or (mkPgWireError "0A000" "ORDER BY position is out of range for the result")
        (match p with O => None | S i => if (i <? length schema)%nat then Some i else None end)
  | SCName name =>
      match name_hits schema name with
      | [] => Err (mkPgWireError "0A000" "ORDER BY column is not in the SELECT list")
      | [i] => Ok i
      | _ => Err (mkPgWireError "0A000" "ORDER BY column is ambiguous in the result")
      end
  end.

(** [schema[index]] is in range: the index was found in the schema. *)
Definition resolve_key (schema : list FieldInfo) (key : SortKey) : result PgWireError ResolvedKey :=
  index ← key_index schema (sk_column key);
  field ← ok_or (mkPgWireError "panic" "index out of bounds") (schema !! index);
  match fi_format field with
  | FormatBinary => Err (mkPgWireError "0A000" "cross-shard ORDER BY on a binary-format column is not supported")
  | FormatText =>
      kind ← ok_or (mkPgWireError "0A000" "cross-shard ORDER BY on a column of this type is not supported yet")
        (sort_kind (fi_datatype field));
      mret (mkResolvedKey index kind (sk_descending key) (sk_nulls_first key))
  end.

Definition resolve_keys (schema : list FieldInfo) (keys : list SortKey) : result PgWireError (list ResolvedKey) :=
  mapM (resolve_key schema) keys.

(** ** Wire rows *)

Definition malformed_row : PgWireError :=
  mkPgWireError "XX000" "malformed DataRow from backend: field is truncated or out of range".

(** The [for field in 0..=idx] loop; [todo] fields are left to skip before the
    one wanted, [offset] is the position in [data]. *)
Fixpoint field_bytes_from (data : list ascii) (offset : nat) (todo : nat) : result PgWireError (option (list ascii)) :=
  let len_end := (offset + 4)%nat in
  if negb (len_end <=? length data)%nat then Err malformed_row
  else
    let len := as_i32 (be_val (take 4 (drop offset data))) in
    if len =? -1 then
      match todo with O => Ok None | S todo' => field_bytes_from data len_end todo' end
    else if len <? -1 then Err malformed_row
    else
      let val_end := (len_end + Z.to_nat len)%nat in
      if negb (val_end <=? length data)%nat then Err malformed_row
      else match todo with
           | O => Ok (Some (take (Z.to_nat len) (drop len_end data)))
           | S todo' => field_bytes_from data val_end todo'
           end.

Definition field_bytes (row : list ascii) (idx : nat) : result PgWireError (option (list ascii)) :=
  field_bytes_from row 0 idx.

Definition decode (cell : option (list ascii)) (kind : SortKind) : result PgWireError SortValue :=
  match cell with
  | None => Ok VNull
  | Some b =>
      if negb (utf8_valid b) then Err (mkPgWireError "XX000" "non-UTF-8 sort key from backend")
      else match kind with
      | KInt =>
          v ← ok_or (mkPgWireError "XX000" "unparsable integer sort key") (from_str_radix_signed 10 i64_MIN i64_MAX b);
          mret (VInt v)
      | KFloat => v ← ok_or (mkPgWireError "XX000" "unparsable float sort key") (f64_from_str b); mret (VFloat v)
      | KBool =>
          if decide (b = bytes "t") then Ok (VBool true)
          else if decide (b = bytes "f") then Ok (VBool false)
          else Err (mkPgWireError "XX000" "unparsable boolean sort key")
      end
  end.

(** ** The comparator *)

Definition cmp_f64 (x y : float64) : comparison :=
  match is_nan x, is_nan y with
  | true, true => Eq
  | true, false => Gt
  | false, true => Lt
  | false, false => default Eq (SFcompare x y)
  end.

Definition cmp_bool (x y : bool) : comparison :=
  match x, y with false, true => Lt | true, false => Gt | _, _ => Eq end.

Definition cmp_value (a b : SortValue) (descending nulls_first : bool) : comparison :=
  let directed c := if descending then CompOpp c else c in
  match a, b with
  | VNull, VNull => Eq
  | VNull, _ => if nulls_first then Lt else Gt
  | _, VNull => if nulls_first then Gt else Lt
  | VInt x, VInt y => directed (x ?= y)
  | VBool x, VBool y => directed (cmp_bool x y)
  | VFloat x, VFloat y => directed (cmp_f64 x y)
  | _, _ => directed Eq
  end.

(** [a[i]], [b[i]]: both lists hold one value per key. *)
Fixpoint cmp_rows (a b : list SortValue) (keys : list ResolvedKey) : comparison :=
  match keys, a, b with
  | key :: keys', x :: a', y :: b' =>
      match cmp_value x y (rk_descending key) (rk_nulls_first key) with
      | Eq => cmp_rows a' b' keys'
      | ord => ord
      end
  | _, _, _ => Eq
  end.

Definition decode_row (resolved : list ResolvedKey) (row : list ascii) : result PgWireError (list SortValue * list ascii) :=
  values ← mapM (fun k => cell ← field_bytes row (rk_index k); decode cell (rk_kind k)) resolved;
  mret (values, row).

(** [cmp_rows(a, b) != Greater]. *)
Definition le_rows (resolved : list ResolvedKey) (a b : list SortValue * list ascii) : bool :=
  match cmp_rows a.1 b.1 resolved with Gt => false | _ => true end.

Definition merge_ordered (schema : list FieldInfo) (rows : list (list ascii)) (keys : list SortKey) :
    result PgWireError (list (list ascii)) :=
  resolved ← resolve_keys schema keys;
  decoded ← mapM (decode_row resolved) rows;
  mret (snd <$> sort_by (le_rows resolved) decoded).

(** ** Specification: the order as a lexicographic order of integers *)

Fixpoint lexcmp (a b : list Z) : comparison :=
  match a, b with
  | [], [] => Eq
  | [], _ => Lt
  | _, [] => Gt
  | x :: a', y :: b' => match x ?= y with Eq => lexcmp a' b' | c => c end
  end.

(** PostgreSQL's order of doubles: [-inf], negative numbers, zero (of either sign),
    positive numbers, [inf], [NaN]. *)
Definition float_key (x : float64) : list Z :=
  match x with
  | S754_infinity true => [-2; 0; 0]
  | S754_finite true m e => [-1; - e; - Zpos m]
  | S754_zero _ => [0; 0; 0]
  | S754_finite false m e => [1; e; Zpos m]
  | S754_infinity false => [2; 0; 0]
  | S754_nan => [3; 0; 0]
  end.

Definition present_key (v : SortValue) : list Z :=
  match v with
  | VNull => []
  | VInt z => [z]
  | VBool b => [if b then 1 else 0]
  | VFloat x => float_key x
  end.

Definition key_width (k : SortKind) : nat := match k with KFloat => 3 | _ => 1 end.

(** A value under a key: NULLs by their placement, the others by value in the
    key's direction. *)
Definition value_key (k : ResolvedKey) (v : SortValue) : list Z :=
  match v with
  | VNull => (if rk_nulls_first k then -1 else 1) :: replicate (key_width (rk_kind k)) 0
  | _ => 0 :: (if rk_descending k then Z.opp <$> present_key v else present_key v)
  end.

Definition has_kind (k : ResolvedKey) (v : SortValue) : Prop :=
  match v, rk_kind k with VNull, _ | VInt _, KInt | VFloat _, KFloat | VBool _, KBool => True | _, _ => False end.

Definition row_key (keys : list ResolvedKey) (vs : list SortValue) : list Z := concat (zip_with value_key keys vs).

(** The sort values of a wire row. *)
Definition row_values (keys : list ResolvedKey) (row : list ascii) : result PgWireError (list SortValue) :=
  fst <$> decode_row keys row.

Definition row_le (keys : list ResolvedKey) (r1 r2 : list ascii) : Prop :=
  exists v1 v2, row_values keys r1 = Ok v1 /\ row_values keys r2 = Ok v2 /\ cmp_rows v1 v2 keys <> Gt.

(** [r] compares equal to the sort values [vs]. *)
Definition row_ties (keys : list ResolvedKey) (vs : list SortValue) (r : list ascii) : bool :=
  match row_values keys r with Ok v => match cmp_rows v vs keys with Eq => true | _ => false end | Err _ => false end.

(** The comparator as a decision on the integer keys. *)
Definition le_key (keys : list ResolvedKey) (a b : list SortValue * list ascii) : bool :=
  match lexcmp (row_key keys a.1) (row_key keys b.1) with Gt => false | _ => true end.

(** What decoding gives for a row. *)
Definition decoded_ok (keys : list ResolvedKey) (p : list SortValue * list ascii) : Prop :=
  Forall2 has_kind keys p.1 /\ row_values keys p.2 = Ok p.1.

(** A text row on the wire: each cell its length and its bytes, [-1] for NULL. *)
Definition enc_cell (c : option (list ascii)) : list ascii :=
  match c with Some v => to_be 4 (Z.of_nat (length v)) ++ v | None => to_be 4 (-1) end.
Definition enc_row (cells : list (option (list ascii))) : list ascii := concat (enc_cell <$> cells).
Definition wf_cell (c : option (list ascii)) : Prop :=
  match c with Some v => Z.of_nat (length v) <= i32_MAX | None => True end.

(** ** The lexicographic order *)

Lemma lexcmp_eq a b : lexcmp a b = Eq <-> a = b.
Proof.
  revert b. induction a as [|x a IH]; intros [|y b]; simpl; try done.
  destruct (Z.compare_spec x y) as [->|?|?]; [rewrite IH; naive_solver|naive_solver lia|naive_solver lia].
Qed.

Lemma lexcmp_opp a b : lexcmp b a = CompOpp (lexcmp a b).
Proof.
  revert b. induction a as [|x a IH]; intros [|y b]; simpl; try done.
  rewrite (Z.compare_antisym x y). destruct (x ?= y); simpl; [apply IH|done|done].
Qed.

Lemma lexcmp_lt_trans a b c : lexcmp a b = Lt -> lexcmp b c = Lt -> lexcmp a c = Lt.
Proof.
  revert b c. induction a as [|x a IH]; intros [|y b] [|z c]; simpl; try done.
  destruct (Z.compare_spec x y), (Z.compare_spec y z), (Z.compare_spec x z); intros; try done; try lia; eauto.
Qed.

Lemma lexcmp_le_trans a b c : lexcmp a b <> Gt -> lexcmp b c <> Gt -> lexcmp a c <> Gt.
Proof.
  destruct (lexcmp a b) eqn:E1, (lexcmp b c) eqn:E2; try done; intros _ _.
  - apply lexcmp_eq in E1 as ->. by rewrite E2.
  - apply lexcmp_eq in E1 as ->. by rewrite E2.
  - apply lexcmp_eq in E2 as <-. by rewrite E1.
  - by rewrite (lexcmp_lt_trans _ _ _ E1 E2).
Qed.

Lemma lexcmp_app a b r s :
  length a = length b -> lexcmp (a ++ r) (b ++ s) = match lexcmp a b with Eq => lexcmp r s | c => c end.
Proof.
  revert b. induction a as [|x a IH]; intros [|y b] Hl; try done. simpl.
  destruct (x ?= y); [apply IH; naive_solver|done|done].
Qed.

Lemma compare_opp_opp x y : (- x ?= - y) = CompOpp (x ?= y).
Proof. by rewrite Z.compare_opp, (Z.compare_antisym x y). Qed.

Lemma lexcmp_map_opp a b : length a = length b -> lexcmp (Z.opp <$> a) (Z.opp <$> b) = CompOpp (lexcmp a b).
Proof.
  revert b. induction a as [|x a IH]; intros [|y b] Hl; try done. rewrite !fmap_cons. simpl.
  rewrite compare_opp_opp. destruct (x ?= y); simpl; [apply IH; naive_solver|done|done].
Qed.

(** ** The comparator is that order *)

Lemma float_key_length x : length (float_key x) = 3%nat.
Proof. by destruct x as [|[]| |[]]. Qed.

Lemma cmp_f64_key x y : cmp_f64 x y = lexcmp (float_key x) (float_key y).
Proof.
  assert (forall m1 m2, Pos.compare_cont Eq m1 m2 = (Zpos m1 ?= Zpos m2)) as Hm by done.
  destruct x as [[]|[]| |[] m1 e1], y as [[]|[]| |[] m2 e2]; try reflexivity; unfold cmp_f64;
    cbn [is_nan SFcompare default float_key lexcmp Z.compare].
  - rewrite compare_opp_opp. destruct (e1 ?= e2); try done. simpl CompOpp. rewrite Hm, compare_opp_opp.
    by destruct (Zpos m1 ?= Zpos m2).
  - destruct (e1 ?= e2); try done. change (Pos.compare_cont Eq m1 m2) with (m1 ?= m2)%positive.
    by destruct (m1 ?= m2)%positive.
Qed.

Lemma value_key_length k v : has_kind k v -> length (value_key k v) = S (key_width (rk_kind k)).
Proof.
  unfold has_kind, value_key. destruct v as [|z|x|b]; cbn [length].
  - by rewrite length_replicate.
  - destruct (rk_kind k), (rk_descending k); done.
  - destruct (rk_kind k); try done. intros _. destruct (rk_descending k); cbn [present_key];
      rewrite ?length_fmap, float_key_length; done.
  - destruct (rk_kind k), (rk_descending k); done.
Qed.

Lemma present_directed (d : bool) a b : length a = length b ->
  lexcmp (0 :: (if d then Z.opp <$> a else a)) (0 :: (if d then Z.opp <$> b else b))
  = (if d then CompOpp (lexcmp a b) else lexcmp a b).
Proof. intros H. destruct d; [simpl; by apply lexcmp_map_opp|done]. Qed.

Lemma cmp_value_key k a b : has_kind k a -> has_kind k b ->
  cmp_value a b (rk_descending k) (rk_nulls_first k) = lexcmp (value_key k a) (value_key k b).
Proof.
  intros Ha Hb.
  assert (forall l, lexcmp (value_key k VNull) (0 :: l) = if rk_nulls_first k then Lt else Gt) as Hn1.
  { intros l. unfold value_key. by destruct (rk_nulls_first k). }
  assert (forall l, lexcmp (0 :: l) (value_key k VNull) = if rk_nulls_first k then Gt else Lt) as Hn2.
  { intros l. unfold value_key. by destruct (rk_nulls_first k). }
  destruct a as [|x|x|x], b as [|y|y|y]; try (unfold has_kind in *; destruct (rk_kind k); done).
  all: try (unfold value_key at 2; by rewrite Hn1).
  all: try (unfold value_key at 1; by rewrite Hn2).
  - symmetry. by apply lexcmp_eq.
  - unfold value_key, cmp_value. rewrite present_directed by done. simpl. by destruct (x ?= y).
  - unfold value_key, cmp_value. rewrite present_directed by (simpl; by rewrite !float_key_length).
    by rewrite cmp_f64_key.
  - unfold value_key, cmp_value. rewrite present_directed by done. by destruct x, y.
Qed.

Lemma cmp_rows_key keys a b :
  Forall2 has_kind keys a -> Forall2 has_kind keys b -> cmp_rows a b keys = lexcmp (row_key keys a) (row_key keys b).
Proof.
  intros Ha. revert b. induction Ha as [|k x keys a Hk Ha IH]; intros b Hb; [by inversion Hb|].
  inversion Hb as [|? y ? b' Hy Hb']; subst. unfold row_key. cbn [zip_with concat cmp_rows].
  rewrite lexcmp_app by by rewrite !value_key_length. rewrite cmp_value_key by done.
  destruct (lexcmp _ _); [by apply IH|done|done].
Qed.

Lemma decode_kind k cell v : decode cell (rk_kind k) = Ok v -> has_kind k v.
Proof.
  unfold decode, has_kind. destruct cell as [b|]; [|by intros [= <-]]. destruct (negb _); [done|].
  destruct (rk_kind k); intros H.
  - by apply result_bind_Ok in H as (z & _ & [= <-]).
  - by apply result_bind_Ok in H as (z & _ & [= <-]).
  - repeat case_match; by simplify_eq.
Qed.

Lemma decode_row_kinds keys row vs r : decode_row keys row = Ok (vs, r) -> Forall2 has_kind keys vs /\ r = row.
Proof.
  unfold decode_row. intros (vs' & H & [= <- <-])%result_bind_Ok. split; [|done].
  apply mapM_Ok in H. eapply Forall2_impl; [exact H|]. cbn. intros k v (cell & _ & Hd)%result_bind_Ok.
  by eapply decode_kind.
Qed.

(** ** Sorting with a comparator that agrees with an order on the elements *)

Lemma insert_sorted_ext {A} (le le' : A -> A -> bool) x l :
  (forall y, y ∈ l -> le x y = le' x y) -> insert_sorted le x l = insert_sorted le' x l.
Proof.
  induction l as [|y l IH]; intros H; [done|]. cbn [insert_sorted]. rewrite H by left.
  destruct (le' x y); [done|]. f_equal. apply IH. intros z Hz. apply H. by right.
Qed.

Lemma sort_by_ext {A} (le le' : A -> A -> bool) l :
  (forall x y, x ∈ l -> y ∈ l -> le x y = le' x y) -> sort_by le l = sort_by le' l.
Proof.
  induction l as [|x l IH]; intros H; [done|]. cbn [sort_by].
  rewrite IH by (intros; apply H; by right). apply insert_sorted_ext. intros y Hy. apply H; [left|].
  right. by rewrite (sort_by_perm le' l) in Hy.
Qed.

Lemma le_key_spec keys a b : le_key keys a b = true <-> lexcmp (row_key keys a.1) (row_key keys b.1) <> Gt.
Proof. unfold le_key. destruct (lexcmp _ _); naive_solver. Qed.

Lemma le_key_total keys a b : le_key keys a b = false -> le_key keys b a = true.
Proof. unfold le_key. rewrite (lexcmp_opp (row_key keys a.1)). by destruct (lexcmp _ _). Qed.

Lemma le_key_trans keys a b c : le_key keys a b = true -> le_key keys b c = true -> le_key keys a c = true.
Proof. rewrite !le_key_spec. apply lexcmp_le_trans. Qed.

Lemma decode_rows_spec keys rows decoded :
  mapM (decode_row keys) rows = Ok decoded -> Forall (decoded_ok keys) decoded /\ snd <$> decoded = rows.
Proof.
  intros Hd%mapM_Ok. induction Hd as [|row [v r] rows decoded Hp _ [IH1 IH2]]; [by split|].
  destruct (decode_row_kinds _ _ _ _ Hp) as [Hv ->]. rewrite fmap_cons, IH2. split; [|done].
  constructor; [|done]. split; [done|]. cbn [fst snd]. unfold row_values. by rewrite Hp.
Qed.

Lemma le_rows_key keys l x y :
  Forall (decoded_ok keys) l -> x ∈ l -> y ∈ l -> le_rows keys x y = le_key keys x y.
Proof.
  rewrite Forall_forall. intros H Hx Hy. unfold le_rows, le_key. by rewrite cmp_rows_key by (by apply H).
Qed.

Lemma sorted_rows keys l :
  StronglySorted (fun a b => le_key keys a b = true) l -> Forall (decoded_ok keys) l ->
  StronglySorted (row_le keys) (snd <$> l).
Proof.
  induction 1 as [|p l Hs IH Hall]; intros Hk; [constructor|]. rewrite fmap_cons.
  apply Forall_cons in Hk as [[Hp1 Hp2] Hk]. constructor; [by apply IH|]. apply Forall_fmap.
  rewrite Forall_forall in Hall, Hk |- *. intros q Hq. destruct (Hk q Hq) as [Hq1 Hq2].
  exists p.1, q.1. split; [done|]. split; [done|]. rewrite cmp_rows_key by done. by apply le_key_spec, Hall.
Qed.

Lemma ties_rows keys vs l :
  Forall2 has_kind keys vs -> Forall (decoded_ok keys) l ->
  List.filter (row_ties keys vs) (snd <$> l)
  = snd <$> List.filter (fun p => bool_decide (row_key keys p.1 = row_key keys vs)) l.
Proof.
  intros Hvs. induction 1 as [|p l [Hp1 Hp2] _ IH]; [done|]. rewrite fmap_cons. cbn [List.filter]. rewrite IH.
  replace (row_ties keys vs p.2) with (bool_decide (row_key keys p.1 = row_key keys vs)); [by case_bool_decide|].
  unfold row_ties. rewrite Hp2, cmp_rows_key by done.
  case_bool_decide as E; [by rewrite (proj2 (lexcmp_eq _ _) E)|].
  destruct (lexcmp _ _) eqn:E1; [by apply lexcmp_eq in E1|done|done].
Qed.

(** ** Wire rows *)

Lemma be_val_cell z : - (2 ^ 31) <= z <= i32_MAX -> as_i32 (be_val (to_be 4 z)) = z.
Proof.
  intros Hz. rewrite be_val_to_be_mod. unfold as_i32, i32_MIN, u32_MAX, i32_MAX in *.
  change (256 ^ Z.of_nat 4) with 4294967296.
  rewrite Zminus_mod_idemp_l. change (4294967295 + 1) with 4294967296. rewrite Z.mod_small by lia. lia.
Qed.

Lemma field_bytes_prefix pre cells i :
  Forall wf_cell cells ->
  field_bytes_from (pre ++ enc_row cells) (length pre) i
  = match cells !! i with Some c => Ok c | None => Err malformed_row end.
Proof.
  intros H. revert pre i. induction H as [|c cells Hc Hcs IH]; intros pre i.
  - unfold enc_row. simpl concat. rewrite app_nil_r.
    assert ((length pre + 4 <=? length pre)%nat = false) as E by (apply Nat.leb_gt; lia).
    destruct i; cbn [field_bytes_from]; by rewrite E.
  - unfold enc_row. rewrite fmap_cons. cbn [concat]. fold (enc_row cells).
    assert (forall hd tl : list ascii, length hd = 4%nat -> take 4 (drop (length pre) (pre ++ hd ++ tl)) = hd) as Htake.
    { intros hd tl Hl. rewrite drop_app_length. rewrite <- Hl. apply take_app_length. }
    destruct c as [v|]; cbn [enc_cell].
    + assert ((length pre + 4 <=? length (pre ++ (to_be 4 (Z.of_nat (length v)) ++ v) ++ enc_row cells)) = true)%nat as E1.
      { apply Nat.leb_le. rewrite !length_app, length_to_be. lia. }
      assert (as_i32 (be_val (take 4 (drop (length pre) (pre ++ (to_be 4 (Z.of_nat (length v)) ++ v) ++ enc_row cells))))
        = Z.of_nat (length v)) as E2.
      { rewrite <- app_assoc, Htake by apply length_to_be. apply be_val_cell. simpl in Hc. lia. }
      assert ((length pre + 4 + Z.to_nat (Z.of_nat (length v))
        <=? length (pre ++ (to_be 4 (Z.of_nat (length v)) ++ v) ++ enc_row cells)) = true)%nat as E3.
      { apply Nat.leb_le. rewrite !length_app, length_to_be. lia. }
      specialize (IH (pre ++ to_be 4 (Z.of_nat (length v)) ++ v)).
      rewrite !length_app, length_to_be in IH. rewrite <- !app_assoc in IH.
      destruct i as [|i]; cbn [field_bytes_from]; rewrite E1, E2, E3; cbn [negb];
        rewrite (proj2 (Z.eqb_neq _ _)), (proj2 (Z.ltb_ge _ _)), Nat2Z.id by lia.
      * cbn [lookup list_lookup]. do 2 f_equal. rewrite <- drop_drop, drop_app_length, <- app_assoc.
        rewrite <- (length_to_be 4 (Z.of_nat (length v))) at 1. by rewrite drop_app_length, take_app_length.
      * rewrite <- !app_assoc. rewrite <- Nat.add_assoc. cbn [lookup list_lookup]. apply IH.
    + assert ((length pre + 4 <=? length (pre ++ to_be 4 (-1) ++ enc_row cells)) = true)%nat as E1.
      { apply Nat.leb_le. rewrite !length_app, length_to_be. lia. }
      assert (as_i32 (be_val (take 4 (drop (length pre) (pre ++ to_be 4 (-1) ++ enc_row cells)))) = -1) as E2.
      { rewrite Htake by apply length_to_be. done. }
      specialize (IH (pre ++ to_be 4 (-1))). rewrite length_app, length_to_be, <- app_assoc in IH.
      destruct i as [|i]; cbn [field_bytes_from]; rewrite E1, E2; cbn [negb]; [done|apply IH].
Qed.

(** ** Properties *)

(** What a merge returns. *)
Lemma merge_ordered_spec schema rows keys out :
  merge_ordered schema rows keys = Ok out ->
  exists resolved, resolve_keys schema keys = Ok resolved /\ out ≡ₚ rows /\ StronglySorted (row_le resolved) out /\
    forall vs, Forall2 has_kind resolved vs ->
      List.filter (row_ties resolved vs) out = List.filter (row_ties resolved vs) rows.
Proof.
  intros (resolved & Hr & (decoded & Hd & [= <-])%result_bind_Ok)%result_bind_Ok. exists resolved. split; [done|].
  destruct (decode_rows_spec _ _ _ Hd) as [Hk Hrows].
  rewrite (sort_by_ext (le_rows resolved) (le_key resolved)) by (intros; by eapply le_rows_key).
  assert (Forall (decoded_ok resolved) (sort_by (le_key resolved) decoded)) as Hk' by by rewrite sort_by_perm.
  split; [by rewrite sort_by_perm, Hrows|]. split.
  - apply sorted_rows; [|done]. apply sort_by_sorted; [apply le_key_total|apply le_key_trans].
  - intros vs Hvs. rewrite <- Hrows, !(ties_rows resolved vs) by done. f_equal. apply sort_by_stable.
    intros a b Ha%bool_decide_eq_true Hb%bool_decide_eq_true.
    apply le_key_spec. rewrite Ha, Hb. by rewrite (proj2 (lexcmp_eq _ _) eq_refl).
Qed.

(** the cross-shard merge orders the combined rows. What it returns is a
    permutation of the rows of all shards; every row is at or before every later
    one in the order of the decoded keys, for every mix of directions, NULL
    placements and types; and rows that tie on all keys keep their arrival
    order. *)
Theorem merge_sorts_stably schema rows keys out :
  merge_ordered schema rows keys = Ok out ->
  exists resolved, resolve_keys schema keys = Ok resolved /\ out ≡ₚ rows /\ StronglySorted (row_le resolved) out /\
    forall vs, Forall2 has_kind resolved vs ->
      List.filter (row_ties resolved vs) out = List.filter (row_ties resolved vs) rows.
Proof. apply merge_ordered_spec. Qed.

(** the sort column read from a wire row is the cell the backend encoded:
    NULL or the exact bytes, whatever the other cells are; a row without that
    column is an error, never a NULL. *)
Theorem field_bytes_exact cells i :
  Forall wf_cell cells ->
  field_bytes (enc_row cells) i = match cells !! i with Some c => Ok c | None => Err malformed_row end.
Proof. intros H. apply (field_bytes_prefix [] cells i H). Qed.

Lemma field_bytes_exact_witness :
  field_bytes (enc_row [None; Some (bytes "10")]) 1 = Ok (Some (bytes "10")).
Proof. apply (field_bytes_exact [None; Some (bytes "10")] 1). repeat constructor. vm_compute. discriminate. Defined.

(** Two shards' rows by a numeric column, descending with NULLs last. *)
Definition demo_schema : list FieldInfo := [mkFieldInfo "id" INT8 FormatText; mkFieldInfo "score" FLOAT8 FormatText].
Definition demo_rows : list (list ascii) :=
  (fun p => enc_row [Some (bytes p.1); bytes <$> p.2]) <$>
    [("1", Some "9"); ("2", None); ("3", Some "10.5"); ("4", Some "NaN"); ("5", Some "9")].
Definition demo_sorted : list (list ascii) :=
  (fun p => enc_row [Some (bytes p.1); bytes <$> p.2]) <$>
    [("4", Some "NaN"); ("3", Some "10.5"); ("1", Some "9"); ("5", Some "9"); ("2", None)].

Lemma merge_sorts_stably_witness :
  exists resolved, resolve_keys demo_schema [mkSortKey (SCName "score") true false] = Ok resolved
    /\ demo_sorted ≡ₚ demo_rows /\ StronglySorted (row_le resolved) demo_sorted /\
    forall vs, Forall2 has_kind resolved vs ->
      List.filter (row_ties resolved vs) demo_sorted = List.filter (row_ties resolved vs) demo_rows.
Proof. apply (merge_sorts_stably demo_schema demo_rows). vm_compute. reflexivity. Defined.
