(* ===== verification/Backend.v ===== *)
(** * Backend connections of the router

    [src/crates/pgshard-router/src/backend.rs]: how a routed query runs on a
    shard's PostgreSQL through the pgwire client, and how the server's messages
    become results. The server and the client library are parameters: what a
    session answers to a query, and the transport error when it stops answering.
    The text of a transport error is left out. The text-mode backend over tokio-postgres
    is modelled beside it, with tokio-postgres and pgwire's row encoder as parameters. *)

From S2P Require Import Prelude Rust Merge.

Open Scope Z_scope.

(** ** Results *)

Inductive BackendResult :=
| BRows (schema : list FieldInfo) (rows : list (list ascii)) (command_tag : option string)
| BCommand (tag : string)
| BEmpty.

(** [str::rsplit_once] on the bytes. *)
Definition rsplit_once_bytes (c : ascii) (l : list ascii) : option (list ascii * list ascii) :=
  (fun p => (reverse p.2, reverse p.1)) <$> split_once_bytes c (reverse l).

Definition counted_tag_prefix (tag : string) : option string :=
  match rsplit_once_bytes " "%char (bytes tag) with
  | Some (prefix, count) =>
      if negb (bool_decide (count = [])) && forallb is_ascii_digit count then Some (str_of prefix) else None
  | None => None
  end.

(** ** Messages of the server *)

Inductive BackendMsg :=
| MRowDescription (fields : list FieldInfo)
| MDataRow (row : list ascii)
| MCommandComplete (tag : string)
| MEmptyQueryResponse
| MReadyForQuery
| MErrorResponse (code message : string)
| MNoticeResponse
| MParameterStatus
| MNotificationResponse
| MOtherMessage.

Inductive PgWireClientError :=
| RemoteError (code message : string)
| UnexpectedMessage (m : BackendMsg)
| ClientOther (what : string).

Definition client_error (e : PgWireClientError) : PgWireError :=
  match e with
  | RemoteError code message => mkPgWireError code message
  | _ => mkPgWireError "08006" "backend connection failed: "
  end.

(** ** The collector *)

Record ResultCollector := mkCollector {
  rc_pending : option (list FieldInfo * list (list ascii));
  rc_out : list BackendResult;
}.

Definition collector_default : ResultCollector := mkCollector None [].

Definition on_row_description (fields : list FieldInfo) (c : ResultCollector) : ResultCollector :=
  mkCollector (Some (fields, [])) (rc_out c).

Definition on_data_row (row : list ascii) (c : ResultCollector) : result PgWireClientError ResultCollector :=
  match rc_pending c with
  | Some (fields, rows) => Ok (mkCollector (Some (fields, rows ++ [row])) (rc_out c))
  | None => Err (UnexpectedMessage (MDataRow row))
  end.

Definition on_command_complete (tag : string) (c : ResultCollector) : ResultCollector :=
  mkCollector None (rc_out c ++ [match rc_pending c with
                                 | Some (schema, rows) => BRows schema rows (counted_tag_prefix tag)
                                 | None => BCommand tag
                                 end]).

Definition on_empty_query (c : ResultCollector) : ResultCollector := mkCollector (rc_pending c) (rc_out c ++ [BEmpty]).

Definition on_ready_for_query (c : ResultCollector) : ResultCollector * list BackendResult :=
  (mkCollector (rc_pending c) [], rc_out c).

(** What a message leads to: the results ([Ready]), or waiting for the next one. *)
Inductive ReadyState := Ready (out : list BackendResult) | Pending (c : ResultCollector).

Definition on_message (m : BackendMsg) (c : ResultCollector) : result PgWireClientError ReadyState :=
  match m with
  | MRowDescription fields => Ok (Pending (on_row_description fields c))
  | MDataRow row => c' ← on_data_row row c; Ok (Pending c')
  | MCommandComplete tag => Ok (Pending (on_command_complete tag c))
  | MEmptyQueryResponse => Ok (Pending (on_empty_query c))
  | MReadyForQuery => Ok (Ready (on_ready_for_query c).2)
  | MErrorResponse code message => Err (RemoteError code message)
  | MNoticeResponse | MParameterStatus | MNotificationResponse => Ok (Pending c)
  | MOtherMessage => Err (UnexpectedMessage m)
  end.

(** The messages of one query, fed until the collector is ready or fails; a server
    that stops before that is the transport error [closed]. *)
Fixpoint feed (closed : PgWireClientError) (msgs : list BackendMsg) (c : ResultCollector)
    : result PgWireClientError (list BackendResult) :=
  match msgs with
  | [] => Err closed
  | m :: msgs' =>
      s ← on_message m c;
      match s with Ready out => Ok out | Pending c' => feed closed msgs' c' end
  end.

(** ** The pgwire backend *)

(** A session with a server: whether the connection succeeds, and what the server
    sends after each query. *)
Record Server := mkServer {
  srv_connect : option PgWireClientError;
  srv_answer : string -> list BackendMsg;
  srv_closed : PgWireClientError;
}.

Definition SET_READ_ONLY : string := "SET default_transaction_read_only = on".

Definition simple_query (srv : Server) (query : string) : result PgWireClientError (list BackendResult) :=
  feed (srv_closed srv) (srv_answer srv query) collector_default.

(** [PgWireBackend::run]: the queries sent on the session, and the result. *)
Definition run (srv : Server) (query : string) (read_only : bool) : list string * result PgWireError (list BackendResult) :=
  match srv_connect srv with
  | Some e => ([], Err (client_error e))
  | None =>
      if read_only then
        match simple_query srv SET_READ_ONLY with
        | Err e => ([SET_READ_ONLY], Err (client_error e))
        | Ok _ => ([SET_READ_ONLY; query], map_err client_error (simple_query srv query))
        end
      else ([query], map_err client_error (simple_query srv query))
  end.

(** ** The text-mode backend *)

(** [str::split] at the first whitespace, parenthesis or semicolon: the part before it. *)
Fixpoint first_word (l : list ascii) : list ascii :=
  match l with
  | [] => []
  | c :: l' =>
      if negb (enc_at white_space l =? 0)%nat || bool_decide (c = "("%char) || bool_decide (c = ";"%char) then []
      else c :: first_word l'
  end.

(** [str::to_uppercase] of the ASCII letters; other bytes are left as they are. *)
Definition ascii_upper (c : ascii) : ascii := if is_ascii_lower c then byte_of (byte_val c - 32) else c.

Definition command_keyword (query : string) : string :=
  match first_word (trim_start_bytes (bytes query)) with
  | [] => "OK"
  | w => str_of (ascii_upper <$> w)
  end.

Definition dml_tag_prefix (query : string) : option string :=
  let k := command_keyword query in
  if bool_decide (k = "INSERT") then Some "INSERT 0"
  else if bool_decide (k = "UPDATE") then Some "UPDATE"
  else if bool_decide (k = "DELETE") then Some "DELETE"
  else None.

Definition text_command_tag (query : string) (affected : Z) : string :=
  let command := command_keyword query in
  if bool_decide (command = "INSERT") then "INSERT 0 " +:+ str_of (fmt_radix false 10 affected)
  else command +:+ " " +:+ str_of (fmt_radix false 10 affected).

Definition user_error (code message : string) : PgWireError := mkPgWireError code message.

(** An error of tokio-postgres: the server's, with its SQLSTATE, or any other. *)
Inductive TokioError := TokioDb (code message : string) | TokioOther.

Definition tokio_backend_error (e : TokioError) : PgWireError :=
  match e with
  | TokioDb code message => user_error code message
  | TokioOther => user_error "08006" "backend connection failed: "
  end.

(** [tokio_postgres::SimpleQueryMessage]: column names, text cells, a row count. *)
Inductive SimpleQueryMessage :=
| SQRowDescription (columns : list string)
| SQRow (cells : list (option string))
| SQCommandComplete (n : Z)
| SQOther.

Definition VARCHAR : Z := 1043.
Definition text_field (name : string) : FieldInfo := mkFieldInfo name VARCHAR FormatText.

Definition cell_bytes (c : option string) : option (list ascii) := option_map bytes c.

(** The cells of one row, given to an encoder in turn. *)
Fixpoint encode_cells {E} (field : option string -> E -> result PgWireError E) (row : list (option string)) (e : E) : result PgWireError E :=
  match row with
  | [] => Ok e
  | value :: row' => e' ← field value e; encode_cells field row' e'
  end.

(** pgwire's [DataRowEncoder]: text columns are written as length-prefixed cells. *)
Class RowEncoder := {
  Encoder : Type;
  encoder_new : list FieldInfo -> Encoder;
  encode_field : option string -> Encoder -> result PgWireError Encoder;
  take_row : Encoder -> list ascii;
  encode_text_columns (names : list string) (cells : list (option string)) : (length cells <= length names)%nat ->
    Forall (fun c => wf_cell (cell_bytes c)) cells ->
    exists e, encode_cells encode_field cells (encoder_new (List.map text_field names)) = Ok e /\
              take_row e = enc_row (List.map cell_bytes cells);
}.

Section text_backend.
Context `{!RowEncoder}.

Fixpoint encode_text_rows (schema : list FieldInfo) (rows : list (list (option string))) : result PgWireError (list (list ascii)) :=
  match rows with
  | [] => Ok []
  | row :: rows' =>
      e ← encode_cells encode_field row (encoder_new schema);
      encoded ← encode_text_rows schema rows';
      Ok (take_row e :: encoded)
  end.

(** The loop of [text_result], on the schema, the rows and the count. *)
Definition text_message (acc : option (list FieldInfo) * list (list (option string)) * Z) (m : SimpleQueryMessage)
    : option (list FieldInfo) * list (list (option string)) * Z :=
  let '(schema, text_rows, affected) := acc in
  match m with
  | SQRowDescription cols => (Some (List.map text_field cols), [], affected)
  | SQRow cells => (schema, text_rows ++ [cells], affected)
  | SQCommandComplete n => (schema, text_rows, n)
  | SQOther => acc
  end.

Definition text_result (query : string) (messages : list SimpleQueryMessage) : result PgWireError BackendResult :=
  match foldl text_message (None, [], 0) messages with
  | (Some schema, text_rows, _) =>
      rows ← encode_text_rows schema text_rows;
      Ok (BRows schema rows (dml_tag_prefix query))
  | (None, _, affected) => Ok (BCommand (text_command_tag query affected))
  end.

(** tokio-postgres: the outcome of connecting with or without the read-only option, and
    of a simple query on that session. *)
Record TextServer := mkTextServer {
  ts_connect : bool -> option TokioError;
  ts_simple_query : bool -> string -> result TokioError (list SimpleQueryMessage);
}.

(** [TokioPostgresBackend::run]. *)
Definition text_run (srv : TextServer) (query : string) (read_only : bool) : result PgWireError (list BackendResult) :=
  match ts_connect srv read_only with
  | Some e => Err (tokio_backend_error e)
  | None =>
      messages ← map_err tokio_backend_error (ts_simple_query srv read_only query);
      r ← text_result query messages;
      Ok [r]
  end.

End text_backend.

(** ** The message grammar of the simple-query protocol *)

(** One statement's outcome at the server. *)
Inductive StmtOutcome :=
| SORows (fields : list FieldInfo) (rows : list (list ascii)) (tag : string)
| SOCommand (tag : string)
| SOEmpty.

Definition stmt_msgs (o : StmtOutcome) : list BackendMsg :=
  match o with
  | SORows fields rows tag => MRowDescription fields :: (MDataRow <$> rows) ++ [MCommandComplete tag]
  | SOCommand tag => [MCommandComplete tag]
  | SOEmpty => [MEmptyQueryResponse]
  end.

Definition stmt_result (o : StmtOutcome) : BackendResult :=
  match o with
  | SORows fields rows tag => BRows fields rows (counted_tag_prefix tag)
  | SOCommand tag => BCommand tag
  | SOEmpty => BEmpty
  end.

(** The asynchronous messages a server may interleave anywhere. *)
Definition is_async (m : BackendMsg) : bool :=
  match m with MNoticeResponse | MParameterStatus | MNotificationResponse => true | _ => false end.

(** [msgs] with asynchronous messages interleaved. *)
Inductive interleaved : list BackendMsg -> list BackendMsg -> Prop :=
| il_nil : interleaved [] []
| il_async m core ms : is_async m = true -> interleaved core ms -> interleaved core (m :: ms)
| il_core m core ms : interleaved core ms -> interleaved (m :: core) (m :: ms).

(** A data-modifying statement at the server: it returns rows or only a count. *)
Inductive DmlOutcome :=
| DReturning (fields : list FieldInfo) (rows : list (list (option string)))
| DCount.

(** The command tag PostgreSQL gives such a statement. *)
Definition dml_tag (verb : string) (n : Z) : string :=
  (if bool_decide (verb = "INSERT") then "INSERT 0" else verb) +:+ " " +:+ str_of (fmt_radix false 10 n).

(** What the wire client reads of it, and what tokio-postgres reports of it. *)
Definition wire_outcome (o : DmlOutcome) (tag : string) : StmtOutcome :=
  match o with
  | DReturning fields rows => SORows fields (List.map (fun r => enc_row (List.map cell_bytes r)) rows) tag
  | DCount => SOCommand tag
  end.

Definition tokio_messages (o : DmlOutcome) (n : Z) : list SimpleQueryMessage :=
  match o with
  | DReturning fields rows => SQRowDescription (List.map fi_name fields) :: List.map SQRow rows ++ [SQCommandComplete n]
  | DCount => [SQCommandComplete n]
  end.

Definition wf_outcome (o : DmlOutcome) : Prop :=
  match o with
  | DReturning fields rows =>
      Forall (fun r => (length r <= length fields)%nat /\ Forall (fun c => wf_cell (cell_bytes c)) r) rows
  | DCount => True
  end.

(** A result with every column advertised as text. *)
Definition as_text (r : BackendResult) : BackendResult :=
  match r with BRows schema rows tag => BRows (List.map (fun f => text_field (fi_name f)) schema) rows tag | _ => r end.

(** ** Lemmas *)

Lemma feed_async closed m msgs c : is_async m = true -> feed closed (m :: msgs) c = feed closed msgs c.
Proof. by destruct m. Qed.

Lemma feed_interleaved closed core ms rest c :
  interleaved core ms -> feed closed (ms ++ rest) c = feed closed (core ++ rest) c.
Proof.
  intros Hi. revert c. induction Hi as [|m core ms Ha _ IH|m core ms _ IH]; intros c; [done| |].
  - cbn [app]. by rewrite feed_async.
  - cbn [app feed]. destruct (on_message m c) as [[out|c']|e]; [done|apply IH|done].
Qed.

Lemma feed_rows closed fields rows rest : forall acc out,
  feed closed ((MDataRow <$> rows) ++ rest) (mkCollector (Some (fields, acc)) out) =
  feed closed rest (mkCollector (Some (fields, acc ++ rows)) out).
Proof.
  induction rows as [|r rows IH]; intros acc out; [by rewrite app_nil_r|].
  cbn [fmap list_fmap app feed on_message on_data_row rc_pending rc_out mbind result_bind].
  by rewrite IH, <- app_assoc.
Qed.

Lemma feed_stmt closed o rest out :
  feed closed (stmt_msgs o ++ rest) (mkCollector None out) = feed closed rest (mkCollector None (out ++ [stmt_result o])).
Proof.
  destruct o as [fields rows tag|tag|]; cbn [stmt_msgs app feed on_message mbind result_bind]; [|done|done].
  unfold on_row_description. cbn [rc_out]. rewrite <- app_assoc, feed_rows. done.
Qed.

Lemma feed_stmts closed os rest : forall out,
  feed closed (concat (stmt_msgs <$> os) ++ rest) (mkCollector None out) =
  feed closed rest (mkCollector None (out ++ (stmt_result <$> os))).
Proof.
  induction os as [|o os IH]; intros out; [by rewrite app_nil_r|].
  rewrite fmap_cons. cbn [concat]. rewrite <- app_assoc, feed_stmt, IH, <- app_assoc. done.
Qed.

Lemma rsplit_once_bytes_Some c l a b : rsplit_once_bytes c l = Some (a, b) <-> l = a ++ c :: b /\ c ∉ b.
Proof.
  unfold rsplit_once_bytes. split.
  - intros Hs. apply fmap_Some in Hs as ([x y] & Hs & [= -> ->]). apply split_once_bytes_Some in Hs as [Hl Hx].
    split; [|by rewrite elem_of_reverse]. apply (f_equal reverse) in Hl.
    rewrite reverse_involutive, reverse_app, reverse_cons, <- app_assoc in Hl. exact Hl.
  - intros [-> Hb]. rewrite reverse_app, reverse_cons, <- app_assoc. cbn [app].
    rewrite split_once_bytes_app by by rewrite elem_of_reverse. cbn [fmap option_fmap option_map fst snd]. by rewrite !reverse_involutive.
Qed.

Lemma digit_not_space l : forallb is_ascii_digit l = true -> " "%char ∉ l.
Proof. intros Hd Hin. rewrite forallb_forall in Hd. apply list_elem_of_In, Hd in Hin. done. Qed.

Lemma digits_fmt_is_digit n : forallb is_ascii_digit (fmt_radix false 10 n) = true.
Proof.
  apply forallb_forall. intros c Hc. apply list_elem_of_In in Hc. revert c Hc. apply Forall_forall.
  apply (fmt_radix_Forall (fun c => is_ascii_digit c = true)); [lia|]. intros d Hd.
  assert (d = 0 \/ d = 1 \/ d = 2 \/ d = 3 \/ d = 4 \/ d = 5 \/ d = 6 \/ d = 7 \/ d = 8 \/ d = 9) as Hcase by lia.
  destruct_or!; subst; reflexivity.
Qed.

Lemma tag_prefix_of prefix n : counted_tag_prefix (prefix +:+ " " +:+ str_of (fmt_radix false 10 n)) = Some prefix.
Proof.
  unfold counted_tag_prefix. rewrite (proj2 (rsplit_once_bytes_Some " "%char _ (bytes prefix) (fmt_radix false 10 n))).
  - rewrite bool_decide_eq_false_2 by apply fmt_radix_nonempty. rewrite digits_fmt_is_digit. cbn. by rewrite str_of_bytes.
  - split; [by rewrite !bytes_app, bytes_str_of|]. apply digit_not_space, digits_fmt_is_digit.
Qed.

Section text_lemmas.
Context `{!RowEncoder}.

Lemma text_rows_fold schema rows : forall acc n,
  foldl text_message (Some schema, acc, n) (List.map SQRow rows) = (Some schema, acc ++ rows, n).
Proof.
  induction rows as [|r rows IH]; intros acc n; [by rewrite app_nil_r|]. cbn [List.map foldl text_message]. by rewrite IH, <- app_assoc.
Qed.

Lemma encode_rows names rows :
  Forall (fun r => (length r <= length names)%nat /\ Forall (fun c => wf_cell (cell_bytes c)) r) rows ->
  encode_text_rows (List.map text_field names) rows = Ok (List.map (fun r => enc_row (List.map cell_bytes r)) rows).
Proof.
  induction 1 as [|r rows [Hl Hw] _ IH]; [done|]. cbn [encode_text_rows List.map].
  destruct (encode_text_columns names r Hl Hw) as (e & -> & He). cbn. by rewrite IH, <- He.
Qed.
End text_lemmas.

(** ** Properties *)

(** a simple query's messages become its statements' results. However the server
    interleaves notices, parameter changes and notifications, the collector returns
    one result per statement, in order, with the rows in order, the real column
    descriptions and the command tag; an error response at any point, also in the
    middle of a result, becomes the server's error and no partial result. *)
Theorem collector_exact closed os ms rest :
  interleaved (concat (stmt_msgs <$> os)) ms ->
  feed closed (ms ++ MReadyForQuery :: rest) collector_default = Ok (stmt_result <$> os) /\
  (forall code message, feed closed (ms ++ MErrorResponse code message :: rest) collector_default = Err (RemoteError code message)) /\
  forall fields rows code message ms', interleaved (MRowDescription fields :: (MDataRow <$> rows)) ms' ->
    feed closed (ms ++ ms' ++ MErrorResponse code message :: rest) collector_default = Err (RemoteError code message).
Proof.
  intros Hi. unfold collector_default. split_and!; intros; rewrite (feed_interleaved _ _ _ _ _ Hi), feed_stmts; [done|done|].
  rewrite (feed_interleaved _ (MRowDescription fields :: (MDataRow <$> rows)) ms') by done.
  cbn [app feed on_message mbind result_bind]. unfold on_row_description. by rewrite feed_rows.
Qed.

(** the command-tag prefix is what precedes a trailing row count: a tag has one
    exactly when it ends in a space and one or more digits. *)
Theorem counted_tag_prefix_spec tag prefix :
  counted_tag_prefix tag = Some prefix <->
  exists count, count <> [] /\ forallb is_ascii_digit count = true /\ bytes tag = bytes prefix ++ " "%char :: count.
Proof.
  unfold counted_tag_prefix. split.
  - destruct (rsplit_once_bytes _ _) as [[a b]|] eqn:E; [|done]. apply rsplit_once_bytes_Some in E as [E _].
    case_bool_decide as Hb; [done|]. destruct (forallb _ b) eqn:Hd; [|done]. intros [= <-]. exists b. by rewrite bytes_str_of.
  - intros (count & Hne & Hd & E).
    rewrite (proj2 (rsplit_once_bytes_Some " "%char (bytes tag) (bytes prefix) count)) by (split; [done|by apply digit_not_space]).
    rewrite bool_decide_eq_false_2, Hd by done. cbn. by rewrite str_of_bytes.
Qed.

(** a read-only run pins the session first. The query is sent on a read-only run
    only after the server accepted the setting on that session; a failed connection
    or setting sends nothing more and is an error. A result is the server's answer to
    the query itself. *)
Theorem read_only_pins_session srv query read_only log r :
  run srv query read_only = (log, r) ->
  (log = [] /\ srv_connect srv <> None /\ is_ok r = false) \/
  (read_only = true /\ log = [SET_READ_ONLY] /\ is_ok (simple_query srv SET_READ_ONLY) = false /\ is_ok r = false) \/
  (log = (if read_only then [SET_READ_ONLY; query] else [query]) /\
   (read_only = true -> is_ok (simple_query srv SET_READ_ONLY) = true) /\
   r = map_err client_error (simple_query srv query)).
Proof.
  unfold run. destruct (srv_connect srv) as [e|]; [intros [= <- <-]; by left|]. destruct read_only.
  - destruct (simple_query srv SET_READ_ONLY) as [x|e]; intros [= <- <-]; right; [by right|by left].
  - intros [= <- <-]. right. right. split_and!; done.
Qed.

(** the text-mode backend agrees with the wire one. For an INSERT, UPDATE or DELETE,
    recognised by its leading keyword, both give the same answer: the same rows and tag
    prefix when it returns rows, the same full tag when it does not; only the column types
    differ, all text in text mode. *)
Theorem text_backend_agrees `{!RowEncoder} closed query verb o n :
  command_keyword query = verb -> verb ∈ ["INSERT"; "UPDATE"; "DELETE"] -> wf_outcome o ->
  exists r, feed closed (stmt_msgs (wire_outcome o (dml_tag verb n)) ++ [MReadyForQuery]) collector_default = Ok [r] /\
            text_result query (tokio_messages o n) = Ok (as_text r).
Proof.
  intros Hk Hv Hw. exists (stmt_result (wire_outcome o (dml_tag verb n))). split; [unfold collector_default; by rewrite feed_stmt|].
  assert (dml_tag_prefix query = counted_tag_prefix (dml_tag verb n) /\ text_command_tag query n = dml_tag verb n) as [Hp Ht].
  { unfold dml_tag_prefix, text_command_tag, dml_tag. rewrite Hk, tag_prefix_of.
    apply elem_of_cons in Hv as [->|Hv]; [done|]. apply elem_of_cons in Hv as [->|Hv]; [done|]. by apply list_elem_of_singleton in Hv as ->. }
  unfold text_result. destruct o as [fields rows|]; cbn [tokio_messages wire_outcome stmt_result as_text foldl text_message]; [|by rewrite Ht].
  rewrite foldl_app, text_rows_fold. cbn [foldl text_message app]. cbn in Hw.
  rewrite encode_rows by by rewrite length_map. cbn. by rewrite Hp, map_map.
Qed.

(** a comment before the statement becomes its command in the text-mode tag. *)
Example text_tag_of_commented_statement :
  text_command_tag "/* nightly */ DELETE FROM t" 3 = "/* 3" /\ text_command_tag "DELETE FROM t" 3 = "DELETE 3".
Proof. split; vm_compute; reflexivity. Qed.

(** ** Witnesses *)

Lemma collector_exact_witness :
  let ms := [MRowDescription []; MParameterStatus; MDataRow []; MCommandComplete "SELECT 1"] in
  feed (ClientOther "closed") (ms ++ [MReadyForQuery]) collector_default = Ok [BRows [] [[]] (Some "SELECT")] /\
  (forall code message, feed (ClientOther "closed") (ms ++ [MErrorResponse code message]) collector_default = Err (RemoteError code message)) /\
  forall fields rows code message ms', interleaved (MRowDescription fields :: (MDataRow <$> rows)) ms' ->
    feed (ClientOther "closed") (ms ++ ms' ++ [MErrorResponse code message]) collector_default = Err (RemoteError code message).
Proof.
  intros ms. apply (collector_exact (ClientOther "closed") [SORows [] [[]] "SELECT 1"] ms []).
  apply il_core, il_async; [reflexivity|]. apply il_core, il_core, il_nil.
Defined.

Definition demo_server : Server :=
  mkServer None (fun q => if decide (q = SET_READ_ONLY) then [MCommandComplete "SET"; MReadyForQuery]
                          else [MErrorResponse "25006" "cannot execute in a read-only transaction"]) (ClientOther "closed").

Lemma read_only_pins_session_witness :
  run demo_server "DELETE FROM t" true =
    ([SET_READ_ONLY; "DELETE FROM t"], Err (mkPgWireError "25006" "cannot execute in a read-only transaction")) /\
  (true = true -> is_ok (simple_query demo_server SET_READ_ONLY) = true).
Proof.
  split; [vm_compute; reflexivity|]. intros _.
  destruct (read_only_pins_session demo_server "DELETE FROM t" true _ _ eq_refl) as [(H & _)|[(_ & H & _)|(_ & H & _)]];
    [vm_compute in H; discriminate|vm_compute in H; discriminate|by apply H].
Defined.

(** An encoder of text rows, for the examples. *)
#[local] Instance demo_encoder : RowEncoder.
Proof.
  refine {| Encoder := list ascii; encoder_new _ := []; encode_field c e := Ok (e ++ enc_cell (cell_bytes c)); take_row e := e |}.
  intros names cells _ _. exists (enc_row (List.map cell_bytes cells)). split; [|done].
  assert (forall l acc, encode_cells (fun c (e : list ascii) => Ok (e ++ enc_cell (cell_bytes c))) l acc = Ok (acc ++ enc_row (List.map cell_bytes l))) as H.
  { induction l as [|c l IH]; intros acc; cbn; [by rewrite app_nil_r|]. rewrite IH, <- app_assoc. done. }
  apply (H cells []).
Defined.

Lemma text_backend_agrees_witness :
  let o := DReturning [mkFieldInfo "id" INT8 FormatText] [[Some "7"]] in
  exists r, feed (ClientOther "closed") (stmt_msgs (wire_outcome o "INSERT 0 1") ++ [MReadyForQuery]) collector_default = Ok [r] /\
            text_result " insert into t values (7) returning id" (tokio_messages o 1) = Ok (as_text r).
Proof.
  intros o. apply (text_backend_agrees (ClientOther "closed") " insert into t values (7) returning id" "INSERT" o 1);
    [vm_compute; reflexivity|by apply elem_of_cons; left|].
  constructor; [|constructor]. split; [cbn; lia|]. repeat constructor. cbn. unfold i32_MAX. lia.
Defined.
