(* ===== verification/Sql.v ===== *)
(** * Parse trees and statement classes

    The fields of PostgreSQL's parse tree the router reads, as libpg_query names
    them (an optional [Node] without content is no node), and
    [src/crates/pgshard-sql/src/lib.rs]: the classification of a statement. *)

From S2P Require Import Prelude Rust.

Inductive StatementKind :=
| KSelect | KInsert | KUpdate | KDelete | KMerge
| KTxnBegin | KTxnCommit | KTxnRollback | KTxnOther
| KSet | KShow | KDdl | KCopy | KPrepareExec | KEmpty | KOther.

#[export] Instance StatementKind_eq_dec : EqDecision StatementKind.
Proof. solve_decision. Defined.

(** ** Parse trees *)

(** The value of an [A_Const]; an integer out of range of 32 bits is an [Fval]. *)
Inductive ConstVal := Ival (i : Z) | Fval (f : string) | Sval (s : string) | OtherVal.

Inductive BoolOp := AndExpr | OrExpr | NotExpr.
Inductive AExprKind := AexprOp | AexprIn | AexprOther.
Inductive SetOperation := SetopNone | SetopUnion | SetopIntersect | SetopExcept.
Inductive OnConflictAction := OnconflictNothing | OnconflictUpdate.
Inductive TransactionStmtKind := TransStmtBegin | TransStmtStart | TransStmtCommit | TransStmtRollback | TransStmtOther.

#[export] Instance BoolOp_eq_dec : EqDecision BoolOp.
Proof. solve_decision. Defined.
#[export] Instance SetOperation_eq_dec : EqDecision SetOperation.
Proof. solve_decision. Defined.

(** The statements the router broadcasts. *)
Inductive DdlNode :=
| CreateStmt | AlterTableStmt | IndexStmt | DropStmt | RenameStmt | TruncateStmt | CreateSchemaStmt | CreateSeqStmt
| AlterSeqStmt | ViewStmt | CreateTableAsStmt | RefreshMatViewStmt | CreateForeignTableStmt | CreateStatsStmt
| AlterStatsStmt | AlterDomainStmt | CreateDomainStmt | CreateFunctionStmt | AlterFunctionStmt | CreateTrigStmt
| CreateEnumStmt | AlterEnumStmt | CompositeTypeStmt | AlterTypeStmt | DefineStmt | CreateExtensionStmt
| AlterExtensionStmt | AlterExtensionContentsStmt | CreatePolicyStmt | AlterPolicyStmt | RuleStmt | CreateCastStmt
| CreateTableSpaceStmt | CreateAmStmt | CreateFdwStmt | AlterFdwStmt | CreateForeignServerStmt
| AlterForeignServerStmt | CreateUserMappingStmt | AlterUserMappingStmt | DropUserMappingStmt
| ImportForeignSchemaStmt | CreatePublicationStmt | AlterPublicationStmt | CreateSubscriptionStmt
| AlterSubscriptionStmt | DropSubscriptionStmt | CreateRoleStmt | AlterRoleStmt | DropRoleStmt
| AlterObjectSchemaStmt | AlterOwnerStmt | SecLabelStmt | VacuumStmt | ClusterStmt | ReindexStmt | CommentStmt
| GrantStmt | GrantRoleStmt.

Inductive SortByDir := SortbyDefault | SortbyAsc | SortbyDesc | SortbyUsing.
Inductive SortByNulls := SortbyNullsDefault | SortbyNullsFirst | SortbyNullsLast.

(** Whether the clauses of a [SELECT] the router only tests for are present. *)
Record SelectClauses := mkSelectClauses {
  sc_locking : bool; sc_group : bool; sc_having : bool; sc_distinct : bool; sc_group_distinct : bool;
  sc_limit_count : bool; sc_limit_offset : bool;
}.

Definition no_clauses : SelectClauses := mkSelectClauses false false false false false false false.

Record RangeVar := mkRangeVar { rv_schemaname : string; rv_relname : string }.

#[warnings="-register-all"]
Inductive NodeEnum :=
| NSelectStmt (s : SelectStmt)
| NInsertStmt (s : InsertStmt)
| NUpdateStmt (s : UpdateStmt)
| NDeleteStmt (s : DeleteStmt)
| NMergeStmt
| NTransactionStmt (kind : TransactionStmtKind)
| NVariableSetStmt
| NVariableShowStmt
| NCopyStmt
| NPrepareStmt
| NExecuteStmt
| NDeallocateStmt
| NDdl (d : DdlNode)
| NAConst (isnull : bool) (val : option ConstVal)
| NParamRef (number : Z)
| NString (sval : string)
| NColumnRef (fields : list (option NodeEnum))
| NBoolExpr (boolop : BoolOp) (args : list (option NodeEnum))
| NAExpr (kind : AExprKind) (name : list (option NodeEnum)) (lexpr rexpr : option NodeEnum)
| NList (items : list (option NodeEnum))
| NResTarget (name : string) (val : option NodeEnum)
| NRangeVar (rv : RangeVar)
| NJoinExpr (larg rarg : option (option NodeEnum))
| NIndexElem (name : string)
| NCommonTableExpr (ctename : string) (ctequery : option NodeEnum)
| NSortBy (node : option NodeEnum) (dir : SortByDir) (nulls : SortByNulls)
| NOther (tag : string) (children : list (option NodeEnum))
with SelectStmt :=
| mkSelectStmt (op : SetOperation) (from_clause : list (option NodeEnum)) (where_clause : option NodeEnum)
    (with_clause : option (list (option NodeEnum))) (values_lists : list (option NodeEnum)) (into_clause : bool)
    (larg rarg : option SelectStmt) (target_list sort_clause : list (option NodeEnum)) (clauses : SelectClauses)
with InsertStmt :=
| mkInsertStmt (relation : option RangeVar) (cols : list (option NodeEnum)) (select_stmt : option NodeEnum)
    (on_conflict : option OnConflict) (with_clause : option (list (option NodeEnum))) (rest : list (option NodeEnum))
with OnConflict :=
| mkOnConflict (action : OnConflictAction) (infer : option (string * list (option NodeEnum)))
with UpdateStmt :=
| mkUpdateStmt (relation : option RangeVar) (target_list : list (option NodeEnum)) (where_clause : option NodeEnum)
    (from_clause : list (option NodeEnum)) (with_clause : option (list (option NodeEnum))) (rest : list (option NodeEnum))
with DeleteStmt :=
| mkDeleteStmt (relation : option RangeVar) (using_clause : list (option NodeEnum)) (where_clause : option NodeEnum)
    (with_clause : option (list (option NodeEnum))) (rest : list (option NodeEnum)).

(** ** Fields *)

Definition sel_op (s : SelectStmt) := let '(mkSelectStmt x _ _ _ _ _ _ _ _ _ _) := s in x.
Definition sel_from (s : SelectStmt) := let '(mkSelectStmt _ x _ _ _ _ _ _ _ _ _) := s in x.
Definition sel_where (s : SelectStmt) := let '(mkSelectStmt _ _ x _ _ _ _ _ _ _ _) := s in x.
Definition sel_with (s : SelectStmt) := let '(mkSelectStmt _ _ _ x _ _ _ _ _ _ _) := s in x.
Definition sel_values (s : SelectStmt) := let '(mkSelectStmt _ _ _ _ x _ _ _ _ _ _) := s in x.
Definition sel_into (s : SelectStmt) := let '(mkSelectStmt _ _ _ _ _ x _ _ _ _ _) := s in x.
Definition sel_targets (s : SelectStmt) := let '(mkSelectStmt _ _ _ _ _ _ _ _ x _ _) := s in x.
Definition sel_sort (s : SelectStmt) := let '(mkSelectStmt _ _ _ _ _ _ _ _ _ x _) := s in x.
Definition sel_clauses (s : SelectStmt) := let '(mkSelectStmt _ _ _ _ _ _ _ _ _ _ x) := s in x.
Definition ins_relation (s : InsertStmt) := let '(mkInsertStmt x _ _ _ _ _) := s in x.
Definition ins_cols (s : InsertStmt) := let '(mkInsertStmt _ x _ _ _ _) := s in x.
Definition ins_select (s : InsertStmt) := let '(mkInsertStmt _ _ x _ _ _) := s in x.
Definition ins_on_conflict (s : InsertStmt) := let '(mkInsertStmt _ _ _ x _ _) := s in x.
Definition ins_with (s : InsertStmt) := let '(mkInsertStmt _ _ _ _ x _) := s in x.
Definition oc_action (o : OnConflict) := let '(mkOnConflict x _) := o in x.
Definition oc_infer (o : OnConflict) := let '(mkOnConflict _ x) := o in x.
Definition upd_relation (s : UpdateStmt) := let '(mkUpdateStmt x _ _ _ _ _) := s in x.
Definition upd_targets (s : UpdateStmt) := let '(mkUpdateStmt _ x _ _ _ _) := s in x.
Definition upd_where (s : UpdateStmt) := let '(mkUpdateStmt _ _ x _ _ _) := s in x.
Definition upd_from (s : UpdateStmt) := let '(mkUpdateStmt _ _ _ x _ _) := s in x.
Definition upd_with (s : UpdateStmt) := let '(mkUpdateStmt _ _ _ _ x _) := s in x.
Definition del_relation (s : DeleteStmt) := let '(mkDeleteStmt x _ _ _ _) := s in x.
Definition del_using (s : DeleteStmt) := let '(mkDeleteStmt _ x _ _ _) := s in x.
Definition del_where (s : DeleteStmt) := let '(mkDeleteStmt _ _ x _ _) := s in x.
Definition del_with (s : DeleteStmt) := let '(mkDeleteStmt _ _ _ x _) := s in x.

(** ** Classification *)

Definition is_write_node (n : NodeEnum) : bool :=
  match n with NInsertStmt _ | NUpdateStmt _ | NDeleteStmt _ | NMergeStmt => true | _ => false end.

Definition has_writable_cte (s : SelectStmt) : bool :=
  match sel_with s with
  | None => false
  | Some ctes =>
      existsb (fun node => match node with
        | Some (NCommonTableExpr _ (Some q)) => is_write_node q
        | _ => false
        end) ctes
  end.

Definition classify (node : option NodeEnum) : StatementKind :=
  match node with
  | None => KEmpty
  | Some (NSelectStmt s) => if sel_into s then KDdl else if has_writable_cte s then KOther else KSelect
  | Some (NInsertStmt _) => KInsert
  | Some (NUpdateStmt _) => KUpdate
  | Some (NDeleteStmt _) => KDelete
  | Some NMergeStmt => KMerge
  | Some (NTransactionStmt k) =>
      match k with
      | TransStmtBegin | TransStmtStart => KTxnBegin
      | TransStmtCommit => KTxnCommit
      | TransStmtRollback => KTxnRollback
      | TransStmtOther => KTxnOther
      end
  | Some NVariableSetStmt => KSet
  | Some NVariableShowStmt => KShow
  | Some NCopyStmt => KCopy
  | Some (NPrepareStmt | NExecuteStmt | NDeallocateStmt) => KPrepareExec
  | Some (NDdl _) => KDdl
  | Some _ => KOther
  end.

(** A parsed query: its statements' roots and their classes. The fingerprint and the
    table list are not kept: the router reads neither. *)
Record Parsed := mkParsed { pa_statements : list StatementKind; pa_stmts : list (option NodeEnum) }.

Definition parsed_of (stmts : list (option NodeEnum)) : Parsed := mkParsed (classify <$> stmts) stmts.

(** ** Parsing *)

(** libpg_query: its parser, its fingerprint and its deparser. *)
Class PgParser := {
  pg_parse : string -> result string (list (option NodeEnum));
  pg_fingerprint : string -> result string Z;
  pg_deparse : list (option NodeEnum) -> result string string;
}.

Inductive SqlError := SqlParse (e : string) | SqlFingerprint (e : string).

Definition parse `{PgParser} (sql : string) : result SqlError Parsed :=
  stmts ← map_err SqlParse (pg_parse sql);
  _ ← map_err SqlFingerprint (pg_fingerprint sql);
  Ok (parsed_of stmts).
