(* ===== verification/Extract.v ===== *)
(** * Reading shard keys and relations out of a parse tree

    [src/crates/pgshard-plan/src/extract.rs]. The tests for subqueries, CTEs and
    unknown relations walk the serde form of a statement; the serialization is
    libpg_query's and is a parameter. *)

From S2P Require Import Prelude Rust ShardFn VSchema Sql.

Open Scope Z_scope.

Inductive KeyVal := KConst (v : ScalarValue) | KParam (n : Z).

#[export] Instance KeyVal_eq_dec : EqDecision KeyVal.
Proof. solve_decision. Defined.

(** An unqualified name defaults to the schema [public]. *)
Definition or_public (schema : string) : string := if str_is_empty schema then "public" else schema.

Definition range_var_table (rv : RangeVar) : TableName := mkTableName (or_public (rv_schemaname rv)) (rv_relname rv).

Definition scalar_from_const (isnull : bool) (val : option ConstVal) : option ScalarValue :=
  if isnull then None
  else match val with
  | Some (Ival i) => Some (Int64 i)
  | Some (Fval f) => Int64 <$> from_str_radix_signed 10 i64_MIN i64_MAX (bytes f)
  | Some (Sval s) => Some (Text s)
  | _ => None
  end.

Definition key_val (node : NodeEnum) : option KeyVal :=
  match node with
  | NAConst isnull val => KConst <$> scalar_from_const isnull val
  | NParamRef number => if 0 <? number then Some (KParam number) else None
  | _ => None
  end.

Definition column_name (fields : list (option NodeEnum)) : option string :=
  match last fields with Some (Some (NString s)) => Some s | _ => None end.

Definition is_key_column (node : NodeEnum) (key_col : string) : bool :=
  match node with NColumnRef fields => bool_decide (column_name fields = Some key_col) | _ => false end.

Definition is_eq_operator (name : list (option NodeEnum)) : bool :=
  match name with [Some (NString s)] => bool_decide (s = "=") | _ => false end.

Definition push_value (node : NodeEnum) : list KeyVal := match key_val node with Some v => [v] | None => [] end.

(** The loop over an [IN] list: all elements or none. *)
Fixpoint in_values (items : list (option NodeEnum)) : option (list KeyVal) :=
  match items with
  | [] => Some []
  | item :: items' => v ← (n ← item; key_val n); vs ← in_values items'; Some (v :: vs)
  end.

(** The values an [A_Expr] contributes. *)
Definition collect_a_expr (kind : AExprKind) (name : list (option NodeEnum)) (lexpr rexpr : option NodeEnum)
    (key_col : string) : list KeyVal :=
  match lexpr, rexpr with
  | Some lhs, Some rhs =>
      match kind with
      | AexprOp =>
          if is_eq_operator name then
            if is_key_column lhs key_col then push_value rhs
            else if is_key_column rhs key_col then push_value lhs
            else []
          else []
      | AexprIn =>
          if is_eq_operator name && is_key_column lhs key_col then
            match rhs with NList items => default [] (in_values items) | _ => [] end
          else []
      | AexprOther => []
      end
  | _, _ => []
  end.

Fixpoint collect_and (node : NodeEnum) (key_col : string) : list KeyVal :=
  match node with
  | NBoolExpr AndExpr args =>
      concat (map (fun arg => match arg with Some inner => collect_and inner key_col | None => [] end) args)
  | NAExpr kind name lexpr rexpr => collect_a_expr kind name lexpr rexpr key_col
  | _ => []
  end.

Definition where_key_values (where_clause : option NodeEnum) (key_col : string) : list KeyVal :=
  match where_clause with Some node => collect_and node key_col | None => [] end.

Definition names_target (key_col : string) (n : option NodeEnum) : bool :=
  match n with Some (NResTarget name _) => bool_decide (name = key_col) | _ => false end.

(** The cell of column [idx] in each [VALUES] row. *)
Fixpoint row_keys (rows : list (option NodeEnum)) (idx : nat) : option (list KeyVal) :=
  match rows with
  | [] => Some []
  | row :: rows' =>
      match row with
      | Some (NList items) =>
          cell ← items !! idx; n ← cell; v ← key_val n; vs ← row_keys rows' idx; Some (v :: vs)
      | _ => None
      end
  end.

Definition insert_key_values (ins : InsertStmt) (key_col : string) : option (list KeyVal) :=
  idx ← position (names_target key_col) (ins_cols ins);
  match ins_select ins with
  | Some (NSelectStmt sel) =>
      match sel_values sel with
      | [] => None
      | rows => row_keys rows idx
      end
  | _ => None
  end.

Definition sets_column (target_list : list (option NodeEnum)) (key_col : string) : bool :=
  existsb (names_target key_col) target_list.

Record FromClause := mkFromClause { fc_tables : list TableName; fc_all_plain : bool }.

Definition merge_from (a b : FromClause) : FromClause :=
  mkFromClause (fc_tables a ++ fc_tables b) (fc_all_plain a && fc_all_plain b).

(** An item without content is no plain table; an absent join arm is skipped. *)
Fixpoint collect_from (node : NodeEnum) : FromClause :=
  let arm a :=
    match a with
    | Some (Some n) => collect_from n
    | Some None => mkFromClause [] false
    | None => mkFromClause [] true
    end in
  match node with
  | NRangeVar rv => mkFromClause [range_var_table rv] true
  | NJoinExpr larg rarg => merge_from (arm larg) (arm rarg)
  | _ => mkFromClause [] false
  end.

Fixpoint analyze_from (from_clause : list (option NodeEnum)) : FromClause :=
  match from_clause with
  | [] => mkFromClause [] true
  | item :: rest =>
      merge_from (match item with Some n => collect_from n | None => mkFromClause [] false end) (analyze_from rest)
  end.

(** ** The serde form of a statement *)

#[warnings="-register-all"]
Inductive Json :=
| JObject (fields : list (string * Json))
| JArray (items : list Json)
| JString (s : string)
| JBool (b : bool)
| JOther.

(** libpg_query's serialization of a statement; [None] is a serialization error. *)
Class PgQuery := {
  select_value : SelectStmt -> option Json;
  insert_value : InsertStmt -> option Json;
  update_value : UpdateStmt -> option Json;
  delete_value : DeleteStmt -> option Json;
}.

Fixpoint contains_key (v : Json) (key : string) : bool :=
  match v with
  | JObject fields => existsb (fun p => bool_decide (p.1 = key)) fields || existsb (fun p => contains_key p.2 key) fields
  | JArray items => existsb (fun v => contains_key v key) items
  | _ => false
  end.

Definition contains_node (tree : option Json) (node_kind : string) : bool :=
  match tree with Some json => contains_key json node_kind | None => true end.

Definition contains_sublink (tree : option Json) : bool := contains_node tree "SubLink".
Definition contains_cte (tree : option Json) : bool := contains_node tree "CommonTableExpr".

(** [map.get], [as_object], [as_array], [as_str], [as_bool]. *)
Definition field (fields : list (string * Json)) (key : string) : option Json :=
  snd <$> find_first (fun p => bool_decide (p.1 = key)) fields.
Definition as_object (v : Json) : option (list (string * Json)) := match v with JObject f => Some f | _ => None end.
Definition as_array (v : Json) : option (list Json) := match v with JArray l => Some l | _ => None end.
Definition as_str (v : Json) : option string := match v with JString s => Some s | _ => None end.
Definition as_bool (v : Json) : option bool := match v with JBool b => Some b | _ => None end.

Definition cte_name (cte : Json) : option string :=
  f ← as_object cte; n ← field f "node"; f ← as_object n; c ← field f "CommonTableExpr"; f ← as_object c;
  s ← field f "ctename"; as_str s.

Definition str_field (fields : list (string * Json)) (key : string) : string := default "" (field fields key ≫= as_str).

(** A statement's [WITH]: whether it is recursive, and its items. *)
Definition with_scope (fields : list (string * Json)) : option (bool * list Json) :=
  wc ← field fields "with_clause" ≫= as_object;
  Some (default false (field wc "recursive" ≫= as_bool), default [] (field wc "ctes" ≫= as_array)).

Definition cte_names (ctes : list Json) : gset string := list_to_set (omap cte_name ctes).

(** [iter().find_map]. *)
Fixpoint find_map {A B} (f : A -> option B) (l : list A) : option B :=
  match l with
  | [] => None
  | x :: l' => match f x with Some y => Some y | None => find_map f l' end
  end.

(** The loop over the CTE bodies: under [RECURSIVE] every body sees [all], else the
    names of the items before it. *)
Fixpoint walk_ctes (walk : gset string -> Json -> option (string * string)) (recursive : bool) (all before : gset string)
    (ctes : list Json) : option (string * string) :=
  match ctes with
  | [] => None
  | cte :: rest =>
      match walk (if recursive then all else before) cte with
      | Some hit => Some hit
      | None =>
          walk_ctes walk recursive all (match cte_name cte with Some n => {[n]} ∪ before | None => before end) rest
      end
  end.

(** The nesting depth of a value: the recursion of [walk] is bounded by it. *)
Fixpoint json_depth (v : Json) : nat :=
  match v with
  | JObject fields => S (list_max (map (fun p => json_depth p.2) fields))
  | JArray items => S (list_max (map json_depth items))
  | _ => 1
  end.

Fixpoint walk_relations (fuel : nat) (resolve : string -> string -> bool) (visible : gset string) (v : Json) :
    option (string * string) :=
  match fuel with
  | O => Some ("", "<out of fuel>")
  | S fuel' =>
      match v with
      | JObject fields =>
          match field fields "RangeVar" ≫= as_object with
          | Some rv =>
              let schema := str_field rv "schemaname" in
              let name := str_field rv "relname" in
              let is_cte := str_is_empty schema && bool_decide (name ∈ visible) in
              if negb is_cte && negb (resolve schema name) then Some (schema, name) else None
          | None =>
              match with_scope fields with
              | Some (recursive, ctes) =>
                  let all := visible ∪ cte_names ctes in
                  match walk_ctes (walk_relations fuel' resolve) recursive all visible ctes with
                  | Some hit => Some hit
                  | None =>
                      find_map (fun p => if decide (p.1 = "with_clause") then None
                                         else walk_relations fuel' resolve all p.2) fields
                  end
              | None => find_map (fun p => walk_relations fuel' resolve visible p.2) fields
              end
          end
      | JArray items => find_map (walk_relations fuel' resolve visible) items
      | _ => None
      end
  end.

Definition find_unresolved_relation (tree : option Json) (resolve : string -> string -> bool) : option (string * string) :=
  match tree with
  | None => Some ("", "<unserializable statement>")
  | Some json => walk_relations (json_depth json) resolve ∅ json
  end.

(** ** Specification: the relation references of a statement and the CTEs they see *)

(** [refs visible v schema name vis]: below [v], where the CTE names [visible] are in
    scope, a relation is referenced as [schema.name] in the scope [vis]. *)
Inductive refs : gset string -> Json -> string -> string -> gset string -> Prop :=
| refs_here visible fields rv :
    field fields "RangeVar" ≫= as_object = Some rv ->
    refs visible (JObject fields) (str_field rv "schemaname") (str_field rv "relname") visible
| refs_field visible fields p schema name vis :
    field fields "RangeVar" ≫= as_object = None -> with_scope fields = None ->
    p ∈ fields -> refs visible p.2 schema name vis -> refs visible (JObject fields) schema name vis
| refs_main visible fields recursive ctes p schema name vis :
    field fields "RangeVar" ≫= as_object = None -> with_scope fields = Some (recursive, ctes) ->
    p ∈ fields -> p.1 <> "with_clause" ->
    refs (visible ∪ cte_names ctes) p.2 schema name vis -> refs visible (JObject fields) schema name vis
| refs_body visible fields (recursive : bool) ctes i cte schema name vis :
    field fields "RangeVar" ≫= as_object = None -> with_scope fields = Some (recursive, ctes) -> ctes !! i = Some cte ->
    refs (visible ∪ cte_names (if recursive then ctes else take i ctes)) cte schema name vis ->
    refs visible (JObject fields) schema name vis
| refs_item visible items v schema name vis :
    v ∈ items -> refs visible v schema name vis -> refs visible (JArray items) schema name vis.

(** An unqualified name in scope is the CTE; otherwise [resolve] decides. *)
Definition ref_ok (resolve : string -> string -> bool) (schema name : string) (vis : gset string) : Prop :=
  (schema = "" /\ name ∈ vis) \/ resolve schema name = true.

(** The answer [o] of a walk is right for the references [R]. *)
Definition answers (resolve : string -> string -> bool) (R : string -> string -> gset string -> Prop)
    (o : option (string * string)) : Prop :=
  match o with
  | None => forall schema name vis, R schema name vis -> ref_ok resolve schema name vis
  | Some (schema, name) => exists vis, R schema name vis /\ ~ ref_ok resolve schema name vis
  end.

(** ** Lemmas *)

Lemma find_map_None {A B} (f : A -> option B) l : find_map f l = None <-> forall x, x ∈ l -> f x = None.
Proof.
  induction l as [|x l IH]; cbn [find_map]; [split; [intros _ ? ?%elem_of_nil; done|done]|].
  destruct (f x) eqn:E; [split; [done|intros H; by rewrite (H x) in E by left]|].
  rewrite IH. setoid_rewrite elem_of_cons. naive_solver.
Qed.

Lemma find_map_Some {A B} (f : A -> option B) l y : find_map f l = Some y -> exists x, x ∈ l /\ f x = Some y.
Proof.
  induction l as [|x l IH]; cbn [find_map]; [done|].
  destruct (f x) eqn:E; [intros [= ->]; exists x; split; [left|done]|].
  intros (z & Hz & ?)%IH. exists z. split; [by right|done].
Qed.

Lemma in_list_max {A} (f : A -> nat) (l : list A) x : x ∈ l -> (f x <= list_max (map f l))%nat.
Proof.
  induction l as [|y l IH]; [by intros ?%elem_of_nil|]. cbn [map list_max foldr]. fold (list_max (map f l)).
  intros [->|Hx]%elem_of_cons; [lia|]. specialize (IH Hx). lia.
Qed.

Lemma field_elem fields key v : field fields key = Some v -> exists p, p ∈ fields /\ p.2 = v.
Proof.
  unfold field. destruct (find_first _ _) as [p|] eqn:E; [|done]. intros [= <-].
  apply find_first_Some in E as [Hp _]. by exists p.
Qed.

Lemma field_depth fields key v : field fields key = Some v -> (json_depth v < json_depth (JObject fields))%nat.
Proof.
  intros (p & Hp & <-)%field_elem. apply le_n_S, (in_list_max (fun p => json_depth p.2) _ _ Hp).
Qed.

Lemma cte_depth fields recursive ctes cte :
  with_scope fields = Some (recursive, ctes) -> cte ∈ ctes -> (json_depth cte < json_depth (JObject fields))%nat.
Proof.
  unfold with_scope. intros Hw Hin. apply bind_Some in Hw as (wc & Hwc & [= _ <-]).
  apply bind_Some in Hwc as (o & Ho & Hwc). destruct o as [f| | | |]; try done. injection Hwc as ->. apply field_depth in Ho.
  destruct (field wc "ctes") as [a|] eqn:Ea; [|by apply elem_of_nil in Hin].
  destruct a as [|items| | |]; cbn [mbind option_bind as_array default] in Hin; try by apply elem_of_nil in Hin.
  apply field_depth in Ea.
  assert (json_depth cte < json_depth (JArray items))%nat by (apply le_n_S, in_list_max, Hin). lia.
Qed.

Lemma cte_names_app l1 l2 : cte_names (l1 ++ l2) = cte_names l1 ∪ cte_names l2.
Proof. unfold cte_names. by rewrite omap_app, list_to_set_app_L. Qed.

Lemma cte_names_singleton c : cte_names [c] = match cte_name c with Some n => {[n]} | None => ∅ end.
Proof. unfold cte_names. cbn. destruct (cte_name c); cbn; set_solver. Qed.

Section walk.
  Context (resolve : string -> string -> bool) (fuel : nat)
    (IH : forall visible v, (json_depth v <= fuel)%nat -> answers resolve (refs visible v) (walk_relations fuel resolve visible v)).

Lemma walk_list {A} (R : A -> string -> string -> gset string -> Prop) (g : A -> option (string * string)) l :
  (forall x, x ∈ l -> answers resolve (R x) (g x)) ->
  answers resolve (fun schema name vis => exists x, x ∈ l /\ R x schema name vis) (find_map g l).
Proof.
  intros Hl. destruct (find_map g l) as [[schema name]|] eqn:E; cbn [answers].
  - apply find_map_Some in E as (x & Hx & Hg). specialize (Hl x Hx). rewrite Hg in Hl.
    destruct Hl as (vis & Hr & Hn). exists vis. split; [by exists x|done].
  - rewrite find_map_None in E. intros schema name vis (x & Hx & Hr). specialize (Hl x Hx). rewrite (E x Hx) in Hl. by apply Hl.
Qed.

(** The loop over the CTEs, after the items [done_]. *)
Lemma walk_ctes_answers (recursive : bool) (visible : gset string) (ctes : list Json) : forall done_ rest,
  ctes = done_ ++ rest -> (forall c, c ∈ rest -> (json_depth c <= fuel)%nat) ->
  answers resolve
    (fun schema name vis => exists i cte, (length done_ <= i)%nat /\ ctes !! i = Some cte /\
       refs (visible ∪ cte_names (if recursive then ctes else take i ctes)) cte schema name vis)
    (walk_ctes (walk_relations fuel resolve) recursive (visible ∪ cte_names ctes) (visible ∪ cte_names done_) rest).
Proof.
  intros done_ rest. revert done_. induction rest as [|c rest IHr]; intros done_ -> Hd; cbn [walk_ctes].
  - cbn [answers]. intros schema name vis (i & cte & Hi & Hc & _). rewrite app_nil_r in Hc.
    apply lookup_lt_Some in Hc. lia.
  - assert (Hat : (done_ ++ c :: rest) !! length done_ = Some c) by by apply list_lookup_middle.
    assert (Htake : take (length done_) (done_ ++ c :: rest) = done_) by apply take_app_length.
    assert (Hwalk : answers resolve
      (refs (visible ∪ cte_names (if recursive then done_ ++ c :: rest else take (length done_) (done_ ++ c :: rest))) c)
      (walk_relations fuel resolve (if recursive then visible ∪ cte_names (done_ ++ c :: rest) else visible ∪ cte_names done_) c)).
    { rewrite Htake. destruct recursive; apply IH, Hd; left. }
    destruct (walk_relations _ _ _ c) as [[schema name]|] eqn:E.
    + destruct Hwalk as (vis & Hr & Hn). exists vis. split; [|done]. exists (length done_), c. split; [lia|done].
    + specialize (IHr (done_ ++ [c])). rewrite <- app_assoc in IHr.
      assert (Hset : match cte_name c with Some n => {[n]} ∪ (visible ∪ cte_names done_) | None => visible ∪ cte_names done_ end
                     = visible ∪ cte_names (done_ ++ [c])).
      { rewrite cte_names_app, cte_names_singleton. destruct (cte_name c); set_solver. }
      rewrite Hset. specialize (IHr eq_refl ltac:(intros; apply Hd; by right)). cbn [app] in IHr.
      destruct (walk_ctes _ _ _ _ rest) as [[schema name]|]; cbn [answers] in *.
      * destruct IHr as (vis & (i & cte & Hi & Hc & Hr) & Hn). rewrite length_app in Hi. exists vis. split; [|done].
        exists i, cte. split; [lia|done].
      * intros schema name vis (i & cte & Hi & Hc & Hr). destruct (decide (i = length done_)) as [->|Hne].
        -- rewrite Hat in Hc. injection Hc as <-. by apply Hwalk.
        -- apply IHr. exists i, cte. rewrite length_app. cbn. split; [lia|done].
Qed.

(** Right answers for sub-walks and for the union of their references. *)
Lemma answers_iff (R R' : string -> string -> gset string -> Prop) o :
  (forall schema name vis, R schema name vis <-> R' schema name vis) -> answers resolve R o -> answers resolve R' o.
Proof. intros HR. destruct o as [[]|]; cbn [answers]; setoid_rewrite HR; done. Qed.

Lemma answers_or (R1 R2 : string -> string -> gset string -> Prop) o1 o2 :
  answers resolve R1 o1 -> answers resolve R2 o2 ->
  answers resolve (fun schema name vis => R1 schema name vis \/ R2 schema name vis)
    (match o1 with Some hit => Some hit | None => o2 end).
Proof. intros H1 H2. destruct o1 as [[]|]; [|destruct o2 as [[]|]]; cbn [answers] in *; naive_solver. Qed.

End walk.

Lemma walk_relations_answers resolve fuel : forall visible v,
  (json_depth v <= fuel)%nat -> answers resolve (refs visible v) (walk_relations fuel resolve visible v).
Proof.
  induction fuel as [|fuel IH]; intros visible v Hd; [destruct v; cbn [json_depth] in Hd; lia|].
  destruct v as [fields|items|s|b|]; cbn [walk_relations]; try (intros schema name vis Hr; by inversion Hr).
  - assert (Hf : forall p, p ∈ fields -> (json_depth p.2 <= fuel)%nat).
    { intros p Hp. pose proof (in_list_max (fun p => json_depth p.2) _ _ Hp). cbn [json_depth] in Hd. cbn beta in *. lia. }
    destruct (field fields "RangeVar" ≫= as_object) as [rv|] eqn:Erv.
    { destruct (str_is_empty _ && _) eqn:Ecte; [|destruct (resolve _ _) eqn:Er]; cbn [negb andb answers].
      - apply andb_true_iff in Ecte as [E1 E2]. apply str_is_empty_spec in E1. apply bool_decide_eq_true in E2.
        intros schema name vis Hr. inversion Hr; simplify_eq; try congruence. by left.
      - intros schema name vis Hr. inversion Hr; simplify_eq; try congruence. by right.
      - exists visible. split; [by constructor|]. intros [[E1 E2]|E]; [|congruence].
        rewrite E1, bool_decide_eq_true_2 in Ecte by done. done. }
    destruct (with_scope fields) as [[recursive ctes]|] eqn:Ew.
    + assert (Hc : forall c, c ∈ ctes -> (json_depth c <= fuel)%nat)
        by (intros c Hc; pose proof (cte_depth _ _ _ _ Ew Hc); lia).
      pose proof (walk_ctes_answers resolve fuel IH recursive visible ctes [] ctes eq_refl Hc) as Hbodies.
      replace (visible ∪ cte_names []) with visible in Hbodies by set_solver.
      eapply answers_iff; [|apply answers_or; [exact Hbodies|]].
      2: { apply (walk_list resolve (fun p schema name vis => p.1 <> "with_clause" /\ refs (visible ∪ cte_names ctes) p.2 schema name vis)).
           intros p Hp. destruct (decide _) as [Hk|Hk]; [by intros ??? [? _]|].
           eapply answers_iff; [|apply IH, Hf, Hp]. naive_solver. }
      intros schema name vis. split.
      * intros [(i & cte & _ & Hi & Hr)|(p & Hp & Hk & Hr)]; [by eapply refs_body|by eapply refs_main].
      * intros Hr. inversion Hr; simplify_eq; try congruence; [right; by eexists|left; do 2 eexists; split; [apply Nat.le_0_l|done]].
    + eapply answers_iff; [|apply (walk_list resolve (fun p => refs visible p.2)); intros p Hp; apply IH, Hf, Hp].
      intros schema name vis. split; [intros (p & Hp & Hr); by eapply refs_field|].
      intros Hr. inversion Hr; simplify_eq; try congruence. by eexists.
  - eapply answers_iff; [|apply (walk_list resolve (refs visible)); intros x Hx; apply IH].
    + intros schema name vis. split; [intros (x & Hx & Hr); by eapply refs_item|].
      intros Hr. inversion Hr; simplify_eq. by eexists.
    + pose proof (in_list_max json_depth _ _ Hx). cbn [json_depth] in Hd. lia.
Qed.

(** ** Properties *)

(** no relation escapes the planner's scope check, and no CTE is mistaken for a
    table. The walk accepts a statement exactly when it serializes and every
    relation reference in it, at any depth, is a CTE visible at that place
    (PostgreSQL's rules: earlier siblings, all names under RECURSIVE, nested scopes)
    or a relation [resolve] knows; what it reports is such an unresolved reference. *)
Theorem unresolved_relation_exact tree resolve :
  (find_unresolved_relation tree resolve = None <->
   exists json, tree = Some json /\ forall schema name vis, refs ∅ json schema name vis -> ref_ok resolve schema name vis) /\
  forall json schema name, tree = Some json -> find_unresolved_relation tree resolve = Some (schema, name) ->
    exists vis, refs ∅ json schema name vis /\ ~ ref_ok resolve schema name vis.
Proof.
  unfold find_unresolved_relation. destruct tree as [json|]; [|split; [split; [done|by intros (? & ? & _)]|done]].
  pose proof (walk_relations_answers resolve (json_depth json) ∅ json ltac:(lia)) as Hw.
  destruct (walk_relations _ _ _ _) as [[schema name]|]; cbn [answers] in Hw.
  - split; [|intros ? ? ? [= <-] [= <- <-]; done]. split; [done|]. intros (j & [= <-] & Hok).
    destruct Hw as (vis & Hr & Hn). by destruct Hn; apply Hok.
  - split; [|done]. split; [intros _; by exists json|done].
Qed.

(** [WITH a AS (SELECT FROM t) SELECT FROM a]: the reference to [a] is the CTE, the
    one to [t] is a table; without [t] in the schema, [t] is reported. *)
Example cte_scope_demo :
  let rv n := JObject [("node", JObject [("RangeVar", JObject [("relname", JString n)])])] in
  let cte := JObject [("node", JObject [("CommonTableExpr", JObject [("ctename", JString "a"); ("ctequery", rv "t")])])] in
  let stmt := JObject [("from_clause", JArray [rv "a"]); ("with_clause", JObject [("ctes", JArray [cte])])] in
  find_unresolved_relation (Some stmt) (fun _ n => bool_decide (n = "t")) = None /\
  find_unresolved_relation (Some stmt) (fun _ n => bool_decide (n = "a")) = Some ("", "t").
Proof. vm_compute. split; reflexivity. Qed.
