(* ===== verification/Inject.v ===== *)
(** * Global-sequence columns of an INSERT

    [src/crates/pgshard-plan/src/sequence.rs]: which sequence-bound columns an
    INSERT omits, and the rewrite that adds them with one id per row. libpg_query's
    deparser is a parameter. *)

From S2P Require Import Prelude Rust Keyspace ShardFn VSchema Sql Extract.

Open Scope Z_scope.

(** ** Data *)

Record SequenceInjection := mkSequenceInjection { si_column : string; si_sequence : string }.

Record InjectedColumn := mkInjectedColumn { ij_column : string; ij_ids : list Z }.

Inductive RewriteError :=
| NotInjectable
| RowCountMismatch (column : string) (ids rows : nat)
| Deparse (e : string).

(** ** Detection *)

Definition has_value_rows (ins : InsertStmt) : bool :=
  match ins_select ins with Some (NSelectStmt s) => negb (bool_decide (length (sel_values s) = O)) | _ => false end.

(** The columns an INSERT lists. *)
Definition listed_columns (ins : InsertStmt) : list string :=
  omap (fun c => match c with Some (NResTarget name _) => Some name | _ => None end) (ins_cols ins).

Definition insert_sequence_injections (node : NodeEnum) (vschema : VSchema) : list SequenceInjection :=
  match node with
  | NInsertStmt ins =>
      match ins_relation ins with
      | None => []
      | Some rv =>
          match VSchema.get vschema (range_var_table rv) with
          | Some (Sharded _ _ _ sequences) =>
              if bool_decide (length sequences = O) || negb (has_value_rows ins) then []
              else if bool_decide (length (listed_columns ins) = O) then []
              else (fun b => mkSequenceInjection (sb_column b) (sb_sequence b)) <$>
                     List.filter (fun b => negb (bool_decide (sb_column b ∈ listed_columns ins))) sequences
          | _ => []
          end
      end
  | _ => []
  end.

Definition value_row_count (node : NodeEnum) : nat :=
  match node with
  | NInsertStmt ins => match ins_select ins with Some (NSelectStmt s) => length (sel_values s) | _ => O end
  | _ => O
  end.

(** ** The rewrite *)

Definition res_target (name : string) : option NodeEnum := Some (NResTarget name None).

Definition int_const (id : Z) : option NodeEnum := Some (NAConst false (Some (Fval (str_of (fmt_i id))))).

(** The up-front check of every column's ids. *)
Fixpoint check_counts (rows : nat) (injected : list InjectedColumn) : result RewriteError unit :=
  match injected with
  | [] => Ok tt
  | inj :: rest =>
      if bool_decide (length (ij_ids inj) = rows) then check_counts rows rest
      else Err (RowCountMismatch (ij_column inj) (length (ij_ids inj)) rows)
  end.

(** [values_lists.iter_mut().zip(&ids)]: each row gets its id. *)
Fixpoint push_ids (rows : list (option NodeEnum)) (ids : list Z) : result RewriteError (list (option NodeEnum)) :=
  match rows, ids with
  | row :: rows', id :: ids' =>
      match row with
      | Some (NList items) => rest ← push_ids rows' ids'; Ok (Some (NList (items ++ [int_const id])) :: rest)
      | _ => Err NotInjectable
      end
  | rows, _ => Ok rows
  end.

Fixpoint push_columns (cols rows : list (option NodeEnum)) (injected : list InjectedColumn)
    : result RewriteError (list (option NodeEnum) * list (option NodeEnum)) :=
  match injected with
  | [] => Ok (cols, rows)
  | inj :: rest =>
      rows' ← push_ids rows (ij_ids inj);
      push_columns (cols ++ [res_target (ij_column inj)]) rows' rest
  end.

Definition set_values (s : SelectStmt) (rows : list (option NodeEnum)) : SelectStmt :=
  let '(mkSelectStmt op from wh wc _ into larg rarg targets sort clauses) := s in
  mkSelectStmt op from wh wc rows into larg rarg targets sort clauses.

Definition set_insert_rows (ins : InsertStmt) (cols : list (option NodeEnum)) (sel : SelectStmt) : InsertStmt :=
  let '(mkInsertStmt relation _ _ oc wc rest) := ins in mkInsertStmt relation cols (Some (NSelectStmt sel)) oc wc rest.

(** The statement after the rewrite. *)
Definition rewrite_ast (parsed : Parsed) (injected : list InjectedColumn) : result RewriteError InsertStmt :=
  match pa_stmts parsed with
  | [Some (NInsertStmt ins)] =>
      match ins_select ins with
      | Some (NSelectStmt sel) =>
          if bool_decide (length (sel_values sel) = O) then Err NotInjectable
          else
            _ ← check_counts (length (sel_values sel)) injected;
            '(cols, rows) ← push_columns (ins_cols ins) (sel_values sel) injected;
            Ok (set_insert_rows ins cols (set_values sel rows))
      | _ => Err NotInjectable
      end
  | _ => Err NotInjectable
  end.

Definition rewrite_insert (deparse : list (option NodeEnum) -> result string string) (parsed : Parsed)
    (injected : list InjectedColumn) : result RewriteError string :=
  ins ← rewrite_ast parsed injected;
  map_err Deparse (deparse [Some (NInsertStmt ins)]).

(** ** Specification *)

(** Row [i] of the rewritten INSERT. *)
Definition rewritten_row (injected : list InjectedColumn) (i : nat) (items : list (option NodeEnum)) : list (option NodeEnum) :=
  items ++ ((fun inj => int_const (default 0 (ij_ids inj !! i))) <$> injected).

(** The bound columns that are not listed. *)
Definition missing (seqs : list SequenceBinding) (listed : list string) : list SequenceInjection :=
  (fun b => mkSequenceInjection (sb_column b) (sb_sequence b)) <$>
    List.filter (fun b => negb (bool_decide (sb_column b ∈ listed))) seqs.

(** ** Lemmas *)

Lemma elem_of_missing seqs listed col seq :
  mkSequenceInjection col seq ∈ missing seqs listed <-> mkSequenceBinding col seq ∈ seqs /\ col ∉ listed.
Proof.
  unfold missing. rewrite list_elem_of_fmap. split.
  - intros ([c' s'] & [= -> ->] & Hb). apply elem_of_filter_b in Hb as [Hb Hn]. split; [done|].
    by apply negb_true_iff, bool_decide_eq_false in Hn.
  - intros [Hb Hn]. exists (mkSequenceBinding col seq). split; [done|]. apply elem_of_filter_b. split; [done|].
    by apply negb_true_iff, bool_decide_eq_false.
Qed.

Lemma missing_NoDup seqs listed : NoDup (sb_column <$> seqs) -> NoDup (si_column <$> missing seqs listed).
Proof.
  unfold missing. rewrite <- list_fmap_compose. induction seqs as [|b seqs IH]; intros Hnd; [constructor|].
  rewrite fmap_cons in Hnd. apply NoDup_cons in Hnd as [Hb Hnd]. cbn [List.filter]. case_match; [|by apply IH].
  rewrite fmap_cons. constructor; [|by apply IH]. intros (b' & Hc & Hin)%list_elem_of_fmap. apply Hb.
  apply elem_of_filter_b in Hin as [Hin _]. cbn in Hc. rewrite Hc. by apply list_elem_of_fmap_2.
Qed.

Lemma missing_filled seqs listed : missing seqs (listed ++ (si_column <$> missing seqs listed)) = [].
Proof.
  destruct (missing seqs (listed ++ _)) as [|[col seq] l] eqn:E; [done|].
  assert (Hin : mkSequenceInjection col seq ∈ missing seqs (listed ++ (si_column <$> missing seqs listed))) by (rewrite E; left).
  apply elem_of_missing in Hin as [Hb Hn]. apply not_elem_of_app in Hn as [Hl Hm]. destruct Hm.
  apply list_elem_of_fmap. exists (mkSequenceInjection col seq). split; [done|]. by apply elem_of_missing.
Qed.

Lemma push_ids_Ok rows : forall ids rows',
  length ids = length rows -> push_ids rows ids = Ok rows' ->
  length rows' = length rows /\
  forall i items, rows !! i = Some (Some (NList items)) -> exists id, ids !! i = Some id /\
    rows' !! i = Some (Some (NList (items ++ [int_const id]))).
Proof.
  induction rows as [|row rows IH]; intros [|id ids] rows' Hl Hp; try done; cbn [push_ids] in Hp.
  - injection Hp as <-. split; [done|]. intros i items Hi. by rewrite lookup_nil in Hi.
  - destruct row as [[]|]; try done. apply result_bind_Ok in Hp as (rest & Hr & [= <-]).
    destruct (IH ids rest) as [Hlen Hrow]; [by injection Hl|done|]. cbn [length]. split; [by rewrite Hlen|].
    intros [|i] its Hi; [injection Hi as <-; by exists id|]. by apply Hrow.
Qed.

Lemma push_ids_lists rows : forall ids rows',
  length ids = length rows -> push_ids rows ids = Ok rows' ->
  Forall (fun r => exists items, r = Some (NList items)) rows /\ Forall (fun r => exists items, r = Some (NList items)) rows'.
Proof.
  induction rows as [|row rows IH]; intros [|id ids] rows' Hl Hp; try done; cbn [push_ids] in Hp.
  - injection Hp as <-. by split.
  - destruct row as [[]|]; try done. apply result_bind_Ok in Hp as (rest & Hr & [= <-]).
    destruct (IH ids rest) as [H1 H2]; [by injection Hl|done|]. split; constructor; eauto.
Qed.

Lemma push_ids_total rows ids :
  Forall (fun r => exists items, r = Some (NList items)) rows -> exists rows', push_ids rows ids = Ok rows'.
Proof.
  intros Hr. revert ids. induction Hr as [|row rows [items ->] _ IH]; intros [|id ids]; cbn [push_ids]; try by eexists.
  destruct (IH ids) as [rows' ->]. by eexists.
Qed.

Lemma push_columns_Ok injected : forall cols rows cols' rows',
  (forall inj, inj ∈ injected -> length (ij_ids inj) = length rows) ->
  push_columns cols rows injected = Ok (cols', rows') ->
  cols' = cols ++ (res_target ∘ ij_column <$> injected) /\ length rows' = length rows /\
  forall i items, rows !! i = Some (Some (NList items)) -> rows' !! i = Some (Some (NList (rewritten_row injected i items))).
Proof.
  induction injected as [|inj injected IH]; intros cols rows cols' rows' Hl Hp; cbn [push_columns] in Hp.
  - injection Hp as <- <-. rewrite app_nil_r. split_and!; [done|done|]. intros i items Hi. unfold rewritten_row. by rewrite app_nil_r.
  - apply result_bind_Ok in Hp as (rows1 & H1 & Hp). apply push_ids_Ok in H1 as [Hlen Hrow]; [|apply Hl; left].
    apply IH in Hp as (-> & Hlen' & Hrow'); [|intros j Hj; rewrite Hlen; apply Hl; by right].
    split_and!; [by rewrite <- app_assoc|congruence|].
    intros i items Hi. destruct (Hrow i items Hi) as (id & Hid & Hr). rewrite (Hrow' _ _ Hr). unfold rewritten_row.
    rewrite fmap_cons, <- app_assoc, Hid. done.
Qed.

Lemma push_columns_total injected : forall cols rows,
  (forall inj, inj ∈ injected -> length (ij_ids inj) = length rows) ->
  Forall (fun r => exists items, r = Some (NList items)) rows -> is_ok (push_columns cols rows injected) = true.
Proof.
  induction injected as [|inj injected IH]; intros cols rows Hl Hr; cbn [push_columns]; [done|].
  destruct (push_ids_total rows (ij_ids inj) Hr) as [rows1 H1]. rewrite H1. cbn [mbind result_bind].
  pose proof (push_ids_Ok _ _ _ (Hl inj ltac:(left)) H1) as [Hlen _]. apply IH.
  - intros j Hj. rewrite Hlen. apply Hl. by right.
  - by eapply push_ids_lists; [apply Hl; left|].
Qed.

(** Pushing fails only on a row that is no list. *)
Lemma push_ids_Err rows : forall ids e, push_ids rows ids = Err e -> e = NotInjectable.
Proof.
  induction rows as [|row rows IH]; intros [|id ids] e; cbn [push_ids]; try done.
  destruct row as [[]|]; try by intros [= <-]. destruct (push_ids rows ids) eqn:E; [done|]. intros [= <-]. by eapply IH.
Qed.

Lemma push_columns_Err injected : forall cols rows e, push_columns cols rows injected = Err e -> e = NotInjectable.
Proof.
  induction injected as [|inj injected IH]; intros cols rows e; cbn [push_columns]; [done|].
  destruct (push_ids rows (ij_ids inj)) as [rows'|] eqn:E; [apply IH|]. intros [= <-]. by eapply push_ids_Err.
Qed.

Lemma check_counts_Ok rows injected :
  check_counts rows injected = Ok tt <-> forall inj, inj ∈ injected -> length (ij_ids inj) = rows.
Proof.
  induction injected as [|inj injected IH]; cbn [check_counts]; [split; [intros _ ? ?%elem_of_nil; done|done]|].
  setoid_rewrite elem_of_cons. case_bool_decide as E; [rewrite IH; naive_solver|]. split; [done|]. intros Hl. destruct E. apply Hl. by left.
Qed.

Lemma position_app {A} (p : A -> bool) l l' i : position p l = Some i -> position p (l ++ l') = Some i.
Proof.
  revert i. induction l as [|x l IH]; intros i; cbn; [done|]. destruct (p x); [done|].
  destruct (position p l) as [j|]; [|done]. by rewrite (IH j eq_refl).
Qed.

Lemma row_keys_ext idx rows rows' vs :
  length rows' = length rows ->
  (forall i items, rows !! i = Some (Some (NList items)) -> exists tl, rows' !! i = Some (Some (NList (items ++ tl)))) ->
  row_keys rows idx = Some vs -> row_keys rows' idx = Some vs.
Proof.
  revert rows' vs. induction rows as [|row rows IH]; intros [|row' rows'] vs Hl Hr Hk; try done; cbn [row_keys] in *.
  destruct row as [[]|]; try done. destruct (Hr O _ eq_refl) as [tl [= ->]].
  apply bind_Some in Hk as (cell & Hc & Hk). rewrite (lookup_app_l_Some _ _ _ _ Hc). cbn [mbind option_bind] in *.
  destruct cell as [n|]; [|done]. cbn [mbind option_bind] in *. destruct (key_val n); [|done]. cbn [mbind option_bind] in *.
  apply bind_Some in Hk as (vs' & Hv & Hk). rewrite (IH rows' vs'); [done|by injection Hl| |done].
  intros i its Hi. by apply (Hr (S i)).
Qed.

(** The parts of a rewritten statement. *)
Record rewritten (injected : list InjectedColumn) (ins : InsertStmt) (sel : SelectStmt) (ins' : InsertStmt) (sel' : SelectStmt) : Prop := {
  rw_relation : ins_relation ins' = ins_relation ins;
  rw_conflict : ins_on_conflict ins' = ins_on_conflict ins;
  rw_with : ins_with ins' = ins_with ins;
  rw_cols : ins_cols ins' = ins_cols ins ++ (res_target ∘ ij_column <$> injected);
  rw_select : ins_select ins' = Some (NSelectStmt sel');
  rw_sel : sel' = set_values sel (sel_values sel');
  rw_length : length (sel_values sel') = length (sel_values sel);
  rw_rows i items : sel_values sel !! i = Some (Some (NList items)) ->
    sel_values sel' !! i = Some (Some (NList (rewritten_row injected i items)));
}.

Lemma rewrite_ast_Ok parsed injected ins' :
  rewrite_ast parsed injected = Ok ins' ->
  exists ins sel sel', pa_stmts parsed = [Some (NInsertStmt ins)] /\ ins_select ins = Some (NSelectStmt sel) /\
    sel_values sel <> [] /\ rewritten injected ins sel ins' sel'.
Proof.
  unfold rewrite_ast. destruct (pa_stmts parsed) as [|[[]|] [|]]; try done. destruct (ins_select s) as [[]|] eqn:Es; try done.
  case_bool_decide as Hz; [done|]. intros Hr. apply result_bind_Ok in Hr as ([] & Hc & Hr).
  apply result_bind_Ok in Hr as ([cols rows] & Hp & [= <-]). rewrite check_counts_Ok in Hc.
  destruct (push_columns_Ok _ _ _ _ _ Hc Hp) as (-> & Hl & Hrow).
  exists s, s0, (set_values s0 rows). split_and!; [done|done|by intros E; rewrite E in Hz|].
  destruct s as [rel cols0 sl oc wc rest], s0 as [op from wh wc0 vl into larg rarg tl sc cl]. by constructor.
Qed.

Lemma rewrite_keeps_keys injected ins sel ins' sel' key vs :
  ins_select ins = Some (NSelectStmt sel) -> rewritten injected ins sel ins' sel' ->
  insert_key_values ins key = Some vs -> insert_key_values ins' key = Some vs.
Proof.
  intros Hs [_ _ _ Hcols Hsel _ Hl Hrows] Hk. unfold insert_key_values in *. rewrite Hs in Hk. rewrite Hcols, Hsel.
  apply bind_Some in Hk as (idx & Hidx & Hk). rewrite (position_app _ _ _ _ Hidx). cbn [mbind option_bind].
  destruct (sel_values sel) as [|r rs] eqn:Er; [done|]. destruct (sel_values sel') as [|r' rs'] eqn:Er'; [done|].
  eapply row_keys_ext; [exact Hl| |exact Hk]. intros i items Hi. eexists. by apply Hrows.
Qed.

Lemma int_const_value id : is_i64 id -> int_const id ≫= key_val = Some (KConst (Int64 id)).
Proof. intros Hid. cbn. unfold scalar_from_const. by rewrite bytes_str_of, parse_fmt_i64. Qed.

Lemma listed_app l names :
  omap (fun c => match c with Some (NResTarget name _) => Some name | _ => None end) (l ++ (res_target <$> names)) =
  omap (fun c => match c with Some (NResTarget name _) => Some name | _ => None end) l ++ names.
Proof. rewrite omap_app. f_equal. induction names as [|n names IH]; [done|]. cbn. by f_equal. Qed.

(** ** Properties *)

(** C35: the rewrite succeeds exactly on a single INSERT with VALUES rows, one id per
    row for every column and, when there is a column to add, only list rows. It then adds exactly the
    injected columns, in order, at the end of the column list and of every row, with
    row [i] getting the [i]-th id as a literal that reads back as that id; nothing
    else of the statement changes, and the rows keep their shard-key values, so the
    rewritten statement belongs where the original was routed. *)
Theorem rewrite_exact parsed injected :
  (is_ok (rewrite_ast parsed injected) = true <->
   exists ins sel, pa_stmts parsed = [Some (NInsertStmt ins)] /\ ins_select ins = Some (NSelectStmt sel) /\
     sel_values sel <> [] /\ (forall inj, inj ∈ injected -> length (ij_ids inj) = length (sel_values sel)) /\
     (injected <> [] -> Forall (fun r => exists items, r = Some (NList items)) (sel_values sel))) /\
  (forall ins', rewrite_ast parsed injected = Ok ins' ->
   exists ins sel sel', pa_stmts parsed = [Some (NInsertStmt ins)] /\ ins_select ins = Some (NSelectStmt sel) /\
     rewritten injected ins sel ins' sel' /\
     forall key vs, insert_key_values ins key = Some vs -> insert_key_values ins' key = Some vs) /\
  forall id, is_i64 id -> int_const id ≫= key_val = Some (KConst (Int64 id)).
Proof.
  split_and!; [|intros ins' Hr|apply int_const_value].
  - unfold rewrite_ast. split.
    + intros Hok. destruct (pa_stmts parsed) as [|[[]|] [|]]; try done. destruct (ins_select s) as [[]|] eqn:Es; try done.
      case_bool_decide as Hz; [done|]. destruct (check_counts _ _) as [[]|] eqn:Hc; [|done]. rewrite check_counts_Ok in Hc.
      exists s, s0. split_and!; [done|done|by intros E; rewrite E in Hz|done|].
      destruct injected as [|inj injected]; [done|]. intros _. cbn [push_columns mbind result_bind] in Hok.
      destruct (push_ids _ (ij_ids inj)) as [rows1|] eqn:E1; [|done].
      apply (push_ids_lists _ _ _ (Hc inj ltac:(left)) E1).
    + intros (ins & sel & -> & -> & Hne & Hc & Hrows). rewrite bool_decide_eq_false_2 by (by destruct (sel_values sel)).
      rewrite (proj2 (check_counts_Ok _ _) Hc). cbn [mbind result_bind].
      destruct injected as [|inj injected]; [done|].
      pose proof (push_columns_total (inj :: injected) (ins_cols ins) _ Hc (Hrows ltac:(done))) as Hp.
      by destruct (push_columns _ _ (inj :: injected)) as [[]|].
  - destruct (rewrite_ast_Ok _ _ _ Hr) as (ins & sel & sel' & H1 & H2 & _ & Hw). exists ins, sel, sel'. split_and!; [done..|].
    intros key vs. by eapply rewrite_keeps_keys.
Qed.

(** exactly the missing columns are injected. For an INSERT with a column list
    and VALUES rows into a sharded table, a column is injected, once, if and only if
    it is bound to a sequence and not listed; and once the rewrite has added them,
    no column is missing any more. *)
Theorem injections_exact `{XxHash} ins vschema rv c t f seqs :
  vschema_wf vschema -> ins_relation ins = Some rv -> VSchema.get vschema (range_var_table rv) = Some (Sharded c t f seqs) ->
  has_value_rows ins = true -> listed_columns ins <> [] ->
  let inj := insert_sequence_injections (NInsertStmt ins) vschema in
  NoDup (si_column <$> inj) /\
  (forall col seq, mkSequenceInjection col seq ∈ inj <-> mkSequenceBinding col seq ∈ seqs /\ col ∉ listed_columns ins) /\
  forall parsed cols ins', pa_stmts parsed = [Some (NInsertStmt ins)] -> ij_column <$> cols = si_column <$> inj ->
    rewrite_ast parsed cols = Ok ins' -> insert_sequence_injections (NInsertStmt ins') vschema = [].
Proof.
  intros Hwf Hrv Hget Hvr Hl inj.
  assert (Hnd : NoDup (sb_column <$> seqs)) by (apply Hwf in Hget; by destruct Hget as (_ & _ & _ & _ & ?)).
  assert (Hinj : inj = missing seqs (listed_columns ins)).
  { unfold inj, insert_sequence_injections. rewrite Hrv, Hget, Hvr. case_bool_decide as E; cbn [orb negb].
    - by apply nil_length_inv in E as ->.
    - case_bool_decide as E2; [by apply nil_length_inv in E2|done]. }
  split_and!; [rewrite Hinj; by apply missing_NoDup|intros col seq; rewrite Hinj; apply elem_of_missing|].
  intros parsed cols ins' Hp Hcols Hr. destruct (rewrite_ast_Ok _ _ _ Hr) as (ins0 & sel & sel' & Hp' & Hs & Hne & Hw).
  rewrite Hp in Hp'. injection Hp' as <-. unfold insert_sequence_injections.
  rewrite (rw_relation _ _ _ _ _ Hw), Hrv, Hget. case_match; [done|]. case_match; [done|].
  change (missing seqs (listed_columns ins') = []). unfold listed_columns at 1.
  rewrite (rw_cols _ _ _ _ _ Hw), list_fmap_compose, Hcols, listed_app, Hinj. apply missing_filled.
Qed.

(** ** Witnesses *)

#[local] Existing Instance be_hash.

Definition demo_vschema : VSchema :=
  mkVSchema {[ mkTableName "public" "orders" := Sharded "customer" (Some TInt) "xxhash64_v1" [mkSequenceBinding "id" "orders_id"] ]}.
Definition demo_insert (cols : list string) (rows : list (option NodeEnum)) : InsertStmt :=
  mkInsertStmt (Some (mkRangeVar "" "orders")) (res_target <$> cols)
    (Some (NSelectStmt (mkSelectStmt SetopNone [] None None rows false None None [] [] no_clauses))) None None [].

Lemma injections_exact_witness :
  let ins := demo_insert ["customer"] [Some (NList [int_const 5]); Some (NList [int_const 6])] in
  let inj := insert_sequence_injections (NInsertStmt ins) demo_vschema in
  NoDup (si_column <$> inj) /\
  (forall col seq, mkSequenceInjection col seq ∈ inj <->
     mkSequenceBinding col seq ∈ [mkSequenceBinding "id" "orders_id"] /\ col ∉ listed_columns ins) /\
  forall parsed cols ins', pa_stmts parsed = [Some (NInsertStmt ins)] -> ij_column <$> cols = si_column <$> inj ->
    rewrite_ast parsed cols = Ok ins' -> insert_sequence_injections (NInsertStmt ins') demo_vschema = [].
Proof.
  intros ins. apply (injections_exact ins demo_vschema (mkRangeVar "" "orders") "customer" (Some TInt) "xxhash64_v1").
  - apply map_Forall_singleton. split_and!; [done|done|done|vm_compute; reflexivity|apply NoDup_singleton].
  - reflexivity.
  - vm_compute; reflexivity.
  - reflexivity.
  - vm_compute; discriminate.
Defined.

(** Two rows get their two ids. *)
Example rewrite_demo :
  rewrite_ast (parsed_of [Some (NInsertStmt (demo_insert ["customer"] [Some (NList [int_const 5]); Some (NList [int_const 6])]))])
    [mkInjectedColumn "id" [100; 101]] =
  Ok (demo_insert ["customer"; "id"]
        [Some (NList [int_const 5; int_const 100]); Some (NList [int_const 6; int_const 101])]).
Proof. vm_compute. reflexivity. Qed.
