(* ===== verification/Plan.v ===== *)
(** * The planner

    [src/crates/pgshard-plan/src/lib.rs]: where a statement goes. [None] is a
    panic (a shard function or a route the source expects to exist). *)

From S2P Require Import Prelude Rust Keyspace ShardFn VSchema Catalog Sql Extract.

Open Scope Z_scope.

Definition CROSS_SHARD : string := "0A000".
Definition UNDEFINED_TABLE : string := "42P01".

Record Parameterized := mkParameterized {
  pz_shard_function : string; pz_key_type : option ScalarType; pz_param_indices : list Z; pz_write : bool;
}.

(** A rejection's reason is the source's text; [{:?}] quoting is left out. *)
Inductive Plan :=
| PSingleShard (id : ShardId)
| PScatter (ids : list ShardId)
| PBroadcast (ids : list ShardId)
| PUnsharded
| PRouterLocal
| PParameterized (p : Parameterized)
| PReject (code reason : string).

Definition reject (reason : string) : Plan := PReject CROSS_SHARD reason.

(** [BTreeSet::insert] into the sorted elements of the set. *)
Fixpoint set_insert (x : ShardId) (l : list ShardId) : list ShardId :=
  match l with
  | [] => [x]
  | y :: l' =>
      match String.compare x y with
      | Lt => x :: l
      | Eq => l
      | Gt => y :: set_insert x l'
      end
  end.

Definition show_nat (n : nat) : string := str_of (fmt_radix false 10 (Z.of_nat n)).
Definition show_param (n : Z) : string := str_of (fmt_radix false 10 n).

(** ** Key values to shards *)

Inductive Resolution :=
| RUnkeyed
| RParams (ns : list Z)
| RMixed
| RUncoercible
| RShards (ids : list ShardId).

Section plan.
  Context `{XxHash} `{PgQuery}.

(** The keyspace id of a value under a declared type; [None] when it is not valid
    for the type. *)
Definition key_id (f : ShardFunction) (key_type : option ScalarType) (v : ScalarValue) : option KeyspaceId :=
  match key_type with
  | Some t => keyspace_id f <$> coerce t v
  | None => Some (keyspace_id f v)
  end.

(** The loop over the literals: [Err] is the early return of [Uncoercible]. *)
Fixpoint hit_shards (f : ShardFunction) (key_type : option ScalarType) (shards : ShardCatalog) (values : list KeyVal)
    (hit : list ShardId) : option Resolution :=
  match values with
  | [] => Some (RShards hit)
  | KConst sv :: values' =>
      match key_id f key_type sv with
      | None => Some RUncoercible
      | Some id => s ← ShardCatalog.route shards id; hit_shards f key_type shards values' (set_insert s hit)
      end
  | KParam _ :: values' => hit_shards f key_type shards values' hit
  end.

Definition param_of (v : KeyVal) : option Z := match v with KParam n => Some n | KConst _ => None end.
Definition is_const (v : KeyVal) : bool := match v with KConst _ => true | KParam _ => false end.

Definition route_values (values : list KeyVal) (key_type : option ScalarType) (shard_fn : string) (shards : ShardCatalog) :
    option Resolution :=
  match values with
  | [] => Some RUnkeyed
  | _ =>
      let params := omap param_of values in
      match params, existsb is_const values with
      | _ :: _, true => Some RMixed
      | _ :: _, false => Some (RParams params)
      | [], _ => f ← res_ok (shard_function shard_fn); hit_shards f key_type shards values []
      end
  end.

Definition read_from_shards (hit : list ShardId) : Plan := match hit with [s] => PSingleShard s | _ => PScatter hit end.

Definition write_to_shards (hit : list ShardId) (table : TableName) : Plan :=
  match hit with
  | [s] => PSingleShard s
  | _ => reject ("write to sharded table " +:+ TableName_to_string table +:+ " spans " +:+ show_nat (length hit)
                 +:+ " shards; cross-shard writes are not supported")
  end.

(** ** Relations *)

Inductive Placement :=
| PlSharded (key : string) (key_type : option ScalarType) (shard_fn : string)
| PlGlobal
| PlUnknown.

Definition placement (vschema : VSchema) (table : TableName) : Placement :=
  match VSchema.get vschema table with
  | Some (Sharded key key_type shard_fn _) => PlSharded key key_type shard_fn
  | Some Global => PlGlobal
  | None => PlUnknown
  end.

Definition is_catalog_schema (t : TableName) : bool :=
  bool_decide (tn_schema t = "pg_catalog") || bool_decide (tn_schema t = "information_schema").

Definition reject_unknown (t : TableName) : Plan :=
  PReject UNDEFINED_TABLE ("relation " +:+ TableName_to_string t
    +:+ " is not in the sharding configuration; qualify catalog reads with pg_catalog").

Definition resolve_relation (vschema : VSchema) (schema name : string) : bool :=
  let t := mkTableName (or_public schema) name in
  is_catalog_schema t || match placement vschema t with PlUnknown => false | _ => true end.

Definition unknown_relation (tree : option Json) (vschema : VSchema) : option TableName :=
  (fun p => mkTableName (or_public p.1) p.2) <$> find_unresolved_relation tree (resolve_relation vschema).

Definition is_sharded (vschema : VSchema) (t : TableName) : option (string * option ScalarType * string) :=
  match placement vschema t with PlSharded key key_type shard_fn => Some (key, key_type, shard_fn) | _ => None end.

(** ** Reads *)

(** The [FROM] relations of every arm of a set operation. *)
Fixpoint set_op_from (s : SelectStmt) : FromClause :=
  match s with
  | mkSelectStmt SetopNone from _ _ _ _ _ _ _ _ _ => analyze_from from
  | mkSelectStmt _ _ _ _ _ _ larg rarg _ _ _ =>
      merge_from (match larg with Some a => set_op_from a | None => mkFromClause [] true end)
                 (match rarg with Some a => set_op_from a | None => mkFromClause [] true end)
  end.

Definition plan_set_op (s : SelectStmt) (vschema : VSchema) : Plan :=
  if contains_sublink (select_value s) then reject "a set operation with a subquery is not supported in M1"
  else if contains_cte (select_value s) then reject "a set operation with a CTE (WITH) is not supported in M1"
  else
    let from := set_op_from s in
    if negb (fc_all_plain from) then
      reject "a set operation with a subquery or function in a FROM is not supported in M1"
    else if existsb (fun t => match is_sharded vschema t with Some _ => true | None => false end) (fc_tables from) then
      reject "a set operation (UNION/INTERSECT/EXCEPT) over a sharded table is not supported in M1"
    else match fc_tables from with [] => PRouterLocal | _ => PUnsharded end.

(** The plan of a keyed read. *)
Definition read_plan (key_type : option ScalarType) (shard_fn : string) (shards : ShardCatalog) (r : Resolution) : Plan :=
  match r with
  | RUnkeyed | RMixed | RUncoercible => PScatter (ShardCatalog.all shards)
  | RParams param_indices => PParameterized (mkParameterized shard_fn key_type param_indices false)
  | RShards hit => read_from_shards hit
  end.

Definition plan_select (s : SelectStmt) (vschema : VSchema) (shards : ShardCatalog) : option Plan :=
  match unknown_relation (select_value s) vschema with
  | Some unknown => Some (reject_unknown unknown)
  | None =>
      if negb (bool_decide (sel_op s = SetopNone)) then Some (plan_set_op s vschema)
      else
        let from := analyze_from (sel_from s) in
        match omap (is_sharded vschema) (fc_tables from) with
        | [] =>
            let session_local :=
              bool_decide (fc_tables from = []) && fc_all_plain from && negb (contains_sublink (select_value s))
              && negb (contains_cte (select_value s)) in
            Some (if session_local then PRouterLocal else PUnsharded)
        | [(key, key_type, shard_fn)] =>
            if (1 <? length (fc_tables from))%nat || negb (fc_all_plain from) then
              Some (reject "SELECT joining a sharded table with another relation is not supported in M1")
            else if bool_decide (is_Some (sel_with s)) then
              Some (reject "SELECT with a CTE (WITH) on a sharded table is not supported in M1")
            else if contains_sublink (select_value s) then
              Some (reject "SELECT with a subquery on a sharded table is not supported in M1")
            else
              r ← route_values (where_key_values (sel_where s) key) key_type shard_fn shards;
              Some (read_plan key_type shard_fn shards r)
        | _ => Some (reject "SELECT joining multiple sharded tables is not supported in M1")
        end
  end.

(** ** Writes *)

Definition plan_keyed_write (values : list KeyVal) (key_type : option ScalarType) (shard_fn : string)
    (shards : ShardCatalog) (table : TableName) (key verb : string) : option Plan :=
  let t := TableName_to_string table in
  r ← route_values values key_type shard_fn shards;
  Some match r with
       | RUnkeyed => reject (verb +:+ " of sharded table " +:+ t +:+ " must constrain shard key " +:+ key)
       | RMixed => reject (verb +:+ " of sharded table " +:+ t +:+ " mixes literal and parameter shard keys")
       | RUncoercible => reject (verb +:+ " of sharded table " +:+ t +:+ " has a shard key " +:+ key
                                 +:+ " value that is not valid for the column type")
       | RParams param_indices => PParameterized (mkParameterized shard_fn key_type param_indices true)
       | RShards hit => write_to_shards hit table
       end.

Definition plan_update (s : UpdateStmt) (vschema : VSchema) (shards : ShardCatalog) : option Plan :=
  match upd_relation s with
  | None => Some (reject "UPDATE without a target relation")
  | Some rv =>
      let table := range_var_table rv in
      let t := TableName_to_string table in
      match placement vschema table with
      | PlGlobal => Some PUnsharded
      | PlUnknown => Some (reject ("table " +:+ t +:+ " is not in the sharding schema"))
      | PlSharded key key_type shard_fn =>
          if sets_column (upd_targets s) key then Some (reject ("shard key " +:+ key +:+ " of " +:+ t +:+ " is immutable"))
          else if negb (bool_decide (length (upd_from s) = O)) then
            Some (reject ("UPDATE " +:+ t +:+ " ... FROM another relation is not supported in M1"))
          else if bool_decide (is_Some (upd_with s)) then
            Some (reject ("UPDATE " +:+ t +:+ " with a CTE (WITH) is not supported in M1"))
          else if contains_sublink (update_value s) then
            Some (reject ("UPDATE " +:+ t +:+ " with a subquery is not supported in M1"))
          else plan_keyed_write (where_key_values (upd_where s) key) key_type shard_fn shards table key "UPDATE"
      end
  end.

Definition plan_delete (s : DeleteStmt) (vschema : VSchema) (shards : ShardCatalog) : option Plan :=
  match del_relation s with
  | None => Some (reject "DELETE without a target relation")
  | Some rv =>
      let table := range_var_table rv in
      let t := TableName_to_string table in
      match placement vschema table with
      | PlGlobal => Some PUnsharded
      | PlUnknown => Some (reject ("table " +:+ t +:+ " is not in the sharding schema"))
      | PlSharded key key_type shard_fn =>
          if negb (bool_decide (length (del_using s) = O)) then
            Some (reject ("DELETE FROM " +:+ t +:+ " ... USING another relation is not supported in M1"))
          else if bool_decide (is_Some (del_with s)) then
            Some (reject ("DELETE FROM " +:+ t +:+ " with a CTE (WITH) is not supported in M1"))
          else if contains_sublink (delete_value s) then
            Some (reject ("DELETE FROM " +:+ t +:+ " with a subquery is not supported in M1"))
          else plan_keyed_write (where_key_values (del_where s) key) key_type shard_fn shards table key "DELETE"
      end
  end.

(** The conflict target lists the shard key. *)
Definition arbiter_includes_key (oc : OnConflict) (key : string) : bool :=
  match oc_infer oc with
  | Some (conname, index_elems) =>
      str_is_empty conname
      && existsb (fun e => match e with Some (NIndexElem name) => bool_decide (name = key) | _ => false end) index_elems
  | None => false
  end.

(** The checks of [ON CONFLICT]: the rejection, if any. *)
Definition conflict_check (oc : option OnConflict) (table : TableName) (key : string) : option Plan :=
  let t := TableName_to_string table in
  match oc with
  | None => None
  | Some oc =>
      match oc_action oc with
      | OnconflictUpdate =>
          Some (reject ("INSERT into sharded table " +:+ t +:+ " with ON CONFLICT DO UPDATE is not supported in M1"))
      | OnconflictNothing =>
          if arbiter_includes_key oc key then None
          else Some (reject ("INSERT into sharded table " +:+ t
                 +:+ " with ON CONFLICT requires a conflict target listing the shard key column " +:+ key))
      end
  end.

Definition plan_insert (s : InsertStmt) (vschema : VSchema) (shards : ShardCatalog) : option Plan :=
  match ins_relation s with
  | None => Some (reject "INSERT without a target relation")
  | Some rv =>
      let table := range_var_table rv in
      let t := TableName_to_string table in
      if bool_decide (is_Some (ins_with s)) then
        Some (reject ("INSERT into " +:+ t +:+ " with a CTE (WITH) is not supported in M1"))
      else if contains_sublink (insert_value s) then
        Some (reject ("INSERT into " +:+ t +:+ " with a subquery is not supported in M1"))
      else match placement vschema table with
      | PlGlobal => Some PUnsharded
      | PlUnknown => Some (reject ("table " +:+ t +:+ " is not in the sharding schema"))
      | PlSharded key key_type shard_fn =>
          match conflict_check (ins_on_conflict s) table key with
          | Some rejection => Some rejection
          | None =>
              match insert_key_values s key with
              | None => Some (reject ("INSERT into sharded table " +:+ t +:+ " must list column " +:+ key
                          +:+ " with a literal or bind-parameter value"))
              | Some values =>
                  r ← route_values values key_type shard_fn shards;
                  Some match r with
                       | RUnkeyed => reject ("INSERT into sharded table " +:+ t +:+ " does not set shard key " +:+ key)
                       | RMixed => reject ("INSERT into sharded table " +:+ t
                                     +:+ " mixes literal and parameter shard keys across rows")
                       | RUncoercible => reject ("INSERT into sharded table " +:+ t +:+ " has a shard key " +:+ key
                                           +:+ " value that is not valid for the column type")
                       | RParams param_indices =>
                           PParameterized (mkParameterized shard_fn key_type param_indices true)
                       | RShards hit => write_to_shards hit table
                       end
              end
          end
      end
  end.

(** ** Statements *)

Definition plan (kind : StatementKind) (node : NodeEnum) (vschema : VSchema) (shards : ShardCatalog) : option Plan :=
  match kind, node with
  | KSelect, NSelectStmt s => plan_select s vschema shards
  | KInsert, NInsertStmt s => plan_insert s vschema shards
  | KUpdate, NUpdateStmt s => plan_update s vschema shards
  | KDelete, NDeleteStmt s => plan_delete s vschema shards
  | KDdl, _ => Some (PBroadcast (ShardCatalog.all shards))
  | KMerge, _ => Some (reject "MERGE is not supported in M1")
  | KCopy, _ => Some (reject "COPY to a sharded table is not supported in M1")
  | KOther, _ => Some (reject "data-modifying CTEs and this statement form are not supported in M1")
  | _, _ => Some PRouterLocal
  end.

Definition plan_all (parsed : Parsed) (vschema : VSchema) (shards : ShardCatalog) : list (option Plan) :=
  imap (fun i stmt =>
    let kind := default KOther (pa_statements parsed !! i) in
    match stmt with Some node => plan kind node vschema shards | None => Some PRouterLocal end) (pa_stmts parsed).

(** ** Bind parameters *)

(** The loop over the shard-key parameters; the index [$n] is [values[n - 1]]. *)
Fixpoint bound_shards (f : ShardFunction) (key_type : option ScalarType) (values : list ScalarValue)
    (shards : ShardCatalog) (idxs : list Z) (hit : list ShardId) : option (result Plan (list ShardId)) :=
  match idxs with
  | [] => Some (Ok hit)
  | idx :: idxs' =>
      match (if idx =? 0 then None else values !! Z.to_nat (idx - 1)) with
      | None => Some (Err (reject ("bind parameter $" +:+ show_param idx +:+ " for the shard key is missing")))
      | Some value =>
          match key_id f key_type value with
          | None => Some (Err (reject ("bind parameter $" +:+ show_param idx
                                 +:+ " is not a valid value for the shard key type")))
          | Some id => s ← ShardCatalog.route shards id; bound_shards f key_type values shards idxs' (set_insert s hit)
          end
      end
  end.

Definition resolve_bound (param : Parameterized) (values : list ScalarValue) (shards : ShardCatalog) : option Plan :=
  match shard_function (pz_shard_function param) with
  | Err _ => Some (reject ("unknown shard function " +:+ pz_shard_function param))
  | Ok f =>
      r ← bound_shards f (pz_key_type param) values shards (pz_param_indices param) [];
      Some match r with
           | Err rejection => rejection
           | Ok [] => reject "parameterized plan named no shard-key parameters"
           | Ok [s] => PSingleShard s
           | Ok hit =>
               if pz_write param then
                 reject ("write resolves to " +:+ show_nat (length hit) +:+ " shards; cross-shard writes are not supported")
               else PScatter hit
           end
  end.

End plan.

(** ** What PostgreSQL does with a statement on a sharded table *)

(** The value a key value stands for, under the bound parameters. *)
Definition value_of (params : list ScalarValue) (v : KeyVal) : option ScalarValue :=
  match v with KConst sv => Some sv | KParam n => if n =? 0 then None else params !! Z.to_nat (n - 1) end.

(** If [v] is a value of the column's type at all, it is the key [k]. *)
Definition key_matches (ty : ScalarType) (params : list ScalarValue) (v : KeyVal) (k : ScalarValue) : Prop :=
  forall sv w, value_of params v = Some sv -> coerce ty sv = Some w -> w = k.

(** Rows of a table with shard key [key_col] of type [ty], what a session sees, and
    when a row satisfies a condition: a conjunction only if every conjunct, an
    equality of the key with a literal or parameter only if that is the row's key,
    an [IN] list only if one of its elements is; a condition of a statement
    without subqueries depends on the row alone. *)
Class Semantics `{PgQuery} (key_col : string) (ty : ScalarType) := {
  row : Type;
  session : Type;
  row_key : row -> ScalarValue;
  sat : session -> list ScalarValue -> NodeEnum -> row -> Prop;
  sat_and d ps args r n : sat d ps (NBoolExpr AndExpr args) r -> Some n ∈ args -> sat d ps n r;
  sat_eq d ps name lhs rhs r v :
    is_eq_operator name = true -> is_key_column lhs key_col = true -> key_val rhs = Some v ->
    sat d ps (NAExpr AexprOp name (Some lhs) (Some rhs)) r -> key_matches ty ps v (row_key r);
  sat_eq_sym d ps name lhs rhs r v :
    is_eq_operator name = true -> is_key_column rhs key_col = true -> key_val lhs = Some v ->
    sat d ps (NAExpr AexprOp name (Some lhs) (Some rhs)) r -> key_matches ty ps v (row_key r);
  sat_in d ps name lhs items r vs :
    is_eq_operator name = true -> is_key_column lhs key_col = true -> in_values items = Some vs ->
    sat d ps (NAExpr AexprIn name (Some lhs) (Some (NList items))) r ->
    exists v, v ∈ vs /\ key_matches ty ps v (row_key r);
  select_local s w d d' ps r :
    contains_sublink (select_value s) = false -> sel_where s = Some w -> sat d ps w r -> sat d' ps w r;
  update_local s w d d' ps r :
    contains_sublink (update_value s) = false -> upd_where s = Some w -> sat d ps w r -> sat d' ps w r;
  delete_local s w d d' ps r :
    contains_sublink (delete_value s) = false -> del_where s = Some w -> sat d ps w r -> sat d' ps w r;
}.
Arguments row {_ _ _} _.
Arguments session {_ _ _} _.

(** The shard a key lives on. *)
Definition shard_of `{XxHash} (shard_fn : string) (shards : ShardCatalog) (k : ScalarValue) : option ShardId :=
  f ← res_ok (shard_function shard_fn); ShardCatalog.route shards (keyspace_id f k).

(** The shards a plan runs on once its parameters are bound; [None] when it does not
    run on shards. *)
Definition targets `{XxHash} (p : Plan) (params : list ScalarValue) (shards : ShardCatalog) : option (list ShardId) :=
  let shards_of p := match p with PSingleShard s => Some [s] | PScatter l => Some l | _ => None end in
  match p with
  | PParameterized q => p' ← resolve_bound q params shards; shards_of p'
  | _ => shards_of p
  end.

(** A [WHERE] clause: absent, it is true. *)
Definition where_sat `{Semantics key_col ty} d ps (w : option NodeEnum) r : Prop :=
  match w with Some n => sat d ps n r | None => True end.

(** ** Sets of shards *)

Lemma elem_of_set_insert x y l : y ∈ set_insert x l <-> y = x \/ y ∈ l.
Proof.
  induction l as [|z l IH]; cbn [set_insert]; [set_solver|].
  destruct (String.compare x z) eqn:E; [|set_solver|rewrite elem_of_cons, IH; set_solver].
  apply String.compare_eq_iff in E as ->. set_solver.
Qed.

Lemma string_compare_lt_trans x : forall y z, String.compare x y = Lt -> String.compare y z = Lt -> String.compare x z = Lt.
Proof.
  induction x as [|a x IH]; intros [|b y] [|c z]; try done. cbn [String.compare].
  destruct (Ascii.compare a b) eqn:E1; [|intros _|done]; destruct (Ascii.compare b c) eqn:E2; try done; unfold Ascii.compare in *.
  - apply N.compare_eq_iff in E1, E2. rewrite E1, E2, N.compare_refl. apply IH.
  - apply N.compare_eq_iff in E1. rewrite E1, E2. done.
  - apply N.compare_eq_iff in E2. rewrite <- E2, E1. done.
  - intros _. apply N.compare_lt_iff in E1, E2. by rewrite (proj2 (N.compare_lt_iff (Ascii.N_of_ascii a) (Ascii.N_of_ascii c)) (N.lt_trans _ _ _ E1 E2)).
Qed.

(** The set is kept sorted, so it has no duplicates. *)
Definition sorted_set (l : list ShardId) : Prop := StronglySorted (fun a b => String.compare a b = Lt) l.

Lemma set_insert_sorted x l : sorted_set l -> sorted_set (set_insert x l).
Proof.
  unfold sorted_set. induction l as [|y l IH]; intros Hs; cbn [set_insert]; [by repeat constructor|].
  apply StronglySorted_inv in Hs as [Hs Hall]. destruct (String.compare x y) eqn:E.
  - by constructor.
  - constructor; [by constructor|]. constructor; [done|]. eapply Forall_impl; [exact Hall|].
    intros z Hz. by eapply string_compare_lt_trans.
  - constructor; [by apply IH|]. rewrite Forall_forall in Hall. apply Forall_forall. intros z [->|Hz]%elem_of_set_insert; [|by apply Hall].
    rewrite String.compare_antisym, E. done.
Qed.

Lemma sorted_set_NoDup l : sorted_set l -> NoDup l.
Proof.
  induction 1 as [|x l _ IH Hall]; constructor; [|done]. intros Hin. rewrite Forall_forall in Hall.
  specialize (Hall x Hin). pose proof (String.compare_antisym x x) as Ha. rewrite Hall in Ha. done.
Qed.

(** ** The extractor bounds the keys of the rows a condition matches *)

Section extract.
  Context `{XxHash} `{SS : Semantics key_col ty}.

Lemma collect_a_expr_bounds d ps kind name lexpr rexpr r :
  sat d ps (NAExpr kind name lexpr rexpr) r -> collect_a_expr kind name lexpr rexpr key_col <> [] ->
  exists v, v ∈ collect_a_expr kind name lexpr rexpr key_col /\ key_matches ty ps v (row_key r).
Proof.
  intros Hs Hne. unfold collect_a_expr in *. destruct lexpr as [lhs|]; [|done]. destruct rexpr as [rhs|]; [|done].
  destruct kind; [| |done].
  - destruct (is_eq_operator name) eqn:En; [|done].
    destruct (is_key_column lhs key_col) eqn:El; [|destruct (is_key_column rhs key_col) eqn:Er; [|done]];
      unfold push_value in *.
    + destruct (key_val rhs) as [v|] eqn:Ev; [|done]. exists v. split; [set_solver|by eapply sat_eq].
    + destruct (key_val lhs) as [v|] eqn:Ev; [|done]. exists v. split; [set_solver|by eapply sat_eq_sym].
  - destruct (is_eq_operator name) eqn:En; [|done]. destruct (is_key_column lhs key_col) eqn:El; [|done].
    cbn [andb] in *. destruct rhs as [| | | | | | | | | | | | | | | | | | |items| | | | | | |]; try done.
    destruct (in_values items) as [vs|] eqn:Ei; [|done]. cbn [default] in *. by eapply sat_in.
Qed.

Lemma collect_and_bounds d ps : forall node r,
  sat d ps node r -> collect_and node key_col <> [] ->
  exists v, v ∈ collect_and node key_col /\ key_matches ty ps v (row_key r).
Proof.
  fix IH 1. intros node r Hs Hne.
  destruct node as [| | | | | | | | | | | | | | | | |[] args|kind name lexpr rexpr| | | | | | | |]; try done.
  - cbn [collect_and] in *.
    assert (forall a n, a ∈ args -> a = Some n -> sat d ps n r) as Hall.
    { intros a n Ha ->. by eapply sat_and. }
    clear Hs. induction args as [|a args IHa]; [done|]. cbn [map concat] in *.
    destruct (concat (map _ args)) as [|v0 vs] eqn:E.
    + rewrite app_nil_r in *. destruct a as [n|]; [|done].
      apply IH; [apply (Hall (Some n)); [left|done]|done].
    + destruct IHa as (v & Hv & Hm); [done|intros b n Hb; apply Hall; by right|].
      exists v. split; [apply elem_of_app; by right|done].
  - by eapply collect_a_expr_bounds.
Qed.

Lemma where_key_values_bounds d ps w r :
  where_sat d ps w r -> where_key_values w key_col <> [] ->
  exists v, v ∈ where_key_values w key_col /\ key_matches ty ps v (row_key r).
Proof. destruct w as [n|]; [apply collect_and_bounds|done]. Qed.

End extract.

(** ** Routing values *)

Section routing.
  Context `{XxHash}.

Lemma hit_shards_covers f ty shards values hit out :
  hit_shards f (Some ty) shards values hit = Some (RShards out) ->
  (forall s, s ∈ hit -> s ∈ out) /\
  forall sv, KConst sv ∈ values -> exists w s, coerce ty sv = Some w /\ ShardCatalog.route shards (keyspace_id f w) = Some s
    /\ s ∈ out.
Proof.
  revert hit. induction values as [|v values IH]; intros hit Hh; cbn [hit_shards] in Hh.
  - injection Hh as ->. split; [done|]. intros sv Hin. by apply elem_of_nil in Hin.
  - destruct v as [sv|n].
    + cbn [key_id] in Hh. destruct (coerce ty sv) as [w|] eqn:Ec; [|done]. cbn [fmap option_fmap option_map] in Hh.
      destruct (ShardCatalog.route shards _) as [s|] eqn:Er; [|done]. cbn [mbind option_bind] in Hh.
      destruct (IH _ Hh) as [H1 H2]. split; [intros s' Hs'; apply H1, elem_of_set_insert; by right|].
      intros sv' [[= ->]|Hin]%elem_of_cons; [|by apply H2].
      exists w, s. split; [done|]. split; [done|]. apply H1, elem_of_set_insert. by left.
    + destruct (IH _ Hh) as [H1 H2]. split; [done|]. intros sv [?|Hin]%elem_of_cons; [done|by apply H2].
Qed.

Lemma omap_param_nil values : omap param_of values = [] -> forall v, v ∈ values -> exists sv, v = KConst sv.
Proof.
  induction values as [|[sv|n] values IH]; intros Hp v Hv; [by apply elem_of_nil in Hv| |done].
  apply elem_of_cons in Hv as [->|Hv]; [by eexists|by apply IH].
Qed.

Lemma no_const_params values : existsb is_const values = false -> forall v, v ∈ values -> exists n, v = KParam n /\ n ∈ omap param_of values.
Proof.
  induction values as [|[sv|n] values IH]; intros Hp v Hv; [by apply elem_of_nil in Hv|done|].
  cbn in Hp. apply elem_of_cons in Hv as [->|Hv].
  - exists n. split; [done|]. cbn. left.
  - destruct (IH Hp v Hv) as (m & -> & Hm). exists m. split; [done|]. cbn. by right.
Qed.

Lemma hit_shards_shape f kt shards values hit r :
  hit_shards f kt shards values hit = Some r -> r = RUncoercible \/ exists out, r = RShards out.
Proof.
  revert hit. induction values as [|[sv|n] values IH]; intros hit; cbn [hit_shards]; [naive_solver| |apply IH].
  destruct (key_id _ _ _); [|naive_solver]. destruct (ShardCatalog.route _ _); [apply IH|done].
Qed.

(** What each resolution says about the values. *)
Lemma route_values_cases values ty shard_fn shards r :
  route_values values (Some ty) shard_fn shards = Some r ->
  match r with
  | RUnkeyed => values = []
  | RParams ns => values <> [] /\ forall v, v ∈ values -> exists n, v = KParam n /\ n ∈ ns
  | RShards out => values <> [] /\ exists f, shard_function shard_fn = Ok f /\
      forall v, v ∈ values -> exists sv w s, v = KConst sv /\ coerce ty sv = Some w
        /\ ShardCatalog.route shards (keyspace_id f w) = Some s /\ s ∈ out
  | RMixed | RUncoercible => True
  end.
Proof.
  unfold route_values. destruct values as [|v0 values0] eqn:Ev; [by intros [= <-]|]. rewrite <- Ev.
  assert (values <> []) as Hne by by rewrite Ev. clear Ev v0 values0.
  destruct (omap param_of values) as [|n ns] eqn:Ep.
  - destruct (shard_function shard_fn) as [f|] eqn:Ef; [|done]. cbn [res_ok mbind option_bind]. intros Hh.
    destruct (hit_shards_shape _ _ _ _ _ _ Hh) as [->|[out ->]]; [done|]. split; [done|]. exists f. split; [done|].
    intros v Hv. destruct (omap_param_nil _ Ep v Hv) as [sv ->].
    destruct (hit_shards_covers _ _ _ _ _ _ Hh) as [_ Hc]. destruct (Hc sv Hv) as (w & s & ?). by exists sv, w, s.
  - destruct (existsb is_const values) eqn:Ec; intros [= <-]; [done|]. split; [done|].
    rewrite <- Ep. by apply no_const_params.
Qed.

Lemma bound_shards_covers f ty params shards idxs hit out :
  bound_shards f (Some ty) params shards idxs hit = Some (Ok out) ->
  (forall s, s ∈ hit -> s ∈ out) /\
  forall n, n ∈ idxs -> exists sv w s, value_of params (KParam n) = Some sv /\ coerce ty sv = Some w
    /\ ShardCatalog.route shards (keyspace_id f w) = Some s /\ s ∈ out.
Proof.
  revert hit. induction idxs as [|n idxs IH]; intros hit Hh; cbn [bound_shards] in Hh.
  - injection Hh as ->. split; [done|]. intros n Hin. by apply elem_of_nil in Hin.
  - destruct (if n =? 0 then None else _) as [sv|] eqn:Ev; [|done]. cbn [key_id] in Hh.
    destruct (coerce ty sv) as [w|] eqn:Ec; [|done]. cbn [fmap option_fmap option_map] in Hh.
    destruct (ShardCatalog.route shards _) as [s|] eqn:Er; [|done]. cbn [mbind option_bind] in Hh.
    destruct (IH _ Hh) as [H1 H2]. split; [intros s' Hs'; apply H1, elem_of_set_insert; by right|].
    intros n' [->|Hin]%elem_of_cons; [|by apply H2].
    exists sv, w, s. split; [done|]. split; [done|]. split; [done|]. apply H1, elem_of_set_insert. by left.
Qed.

Lemma bound_shards_err f kt params shards idxs hit pl :
  bound_shards f kt params shards idxs hit = Some (Err pl) -> exists r, pl = reject r.
Proof.
  revert hit. induction idxs as [|n idxs IH]; intros hit Hh; [done|]. cbn [bound_shards] in Hh.
  destruct (if n =? 0 then None else _) as [sv|]; [|injection Hh as <-; by eexists].
  destruct (key_id f kt sv) as [id|]; [|injection Hh as <-; by eexists].
  destruct (ShardCatalog.route _ _); [|done]. by eapply IH.
Qed.

(** A bound plan that runs on shards covers the keys of its parameters. *)
Lemma resolve_bound_targets shard_fn ty ns write params shards ts :
  targets (PParameterized (mkParameterized shard_fn (Some ty) ns write)) params shards = Some ts ->
  exists f, shard_function shard_fn = Ok f /\
    (write = true -> exists s, ts = [s]) /\
    forall n, n ∈ ns -> exists sv w s, value_of params (KParam n) = Some sv /\ coerce ty sv = Some w
      /\ ShardCatalog.route shards (keyspace_id f w) = Some s /\ s ∈ ts.
Proof.
  cbn [targets]. unfold resolve_bound. cbn [pz_shard_function pz_key_type pz_param_indices pz_write].
  destruct (shard_function shard_fn) as [f|] eqn:Ef; [|done].
  destruct (bound_shards f (Some ty) params shards ns []) as [[out|pl]|] eqn:E; [| |done].
  - cbn [mbind option_bind]. destruct (bound_shards_covers _ _ _ _ _ _ _ E) as [_ Hc].
    destruct out as [|s [|s' out]]; [done| |].
    + intros [= <-]. exists f. split; [done|]. split; [by eexists|done].
    + destruct write; [done|]. intros [= <-]. by exists f.
  - by destruct (bound_shards_err _ _ _ _ _ _ _ E) as [r ->].
Qed.

End routing.

(** ** Coverage *)

Section coverage.
  Context `{XxHash} `{SS : Semantics key_col ty}.

Lemma shard_of_known fn shards f k s :
  shard_function fn = Ok f -> ShardCatalog.route shards (keyspace_id f k) = Some s -> shard_of fn shards k = Some s.
Proof. intros Hf Hr. unfold shard_of. by rewrite Hf. Qed.

Lemma shard_of_all fn shards k s : shard_of fn shards k = Some s -> s ∈ ShardCatalog.all shards.
Proof.
  unfold shard_of. destruct (shard_function fn) as [f|]; [|done]. cbn [res_ok mbind option_bind].
  unfold ShardCatalog.route. destruct (find_first _ _) as [p|] eqn:E; [|done]. intros [= <-].
  apply find_first_Some in E as [Hin _]. by apply list_elem_of_fmap_2.
Qed.

(** A row whose key one of the values matches is on a target shard. *)
Lemma resolution_covers values fn shards r p ps ts k sh :
  route_values values (Some ty) fn shards = Some r ->
  (values <> [] -> exists v, v ∈ values /\ key_matches ty ps v k) ->
  p = read_plan (Some ty) fn shards r \/ (exists ns, r = RParams ns /\ p = PParameterized (mkParameterized fn (Some ty) ns true))
    \/ (exists s, r = RShards [s] /\ p = PSingleShard s) ->
  targets p ps shards = Some ts -> shard_of fn shards k = Some sh -> sh ∈ ts.
Proof.
  intros Hr Hb Hp Ht Hsh. pose proof (route_values_cases _ _ _ _ _ Hr) as Hc.
  assert (forall f w s (ts' : list ShardId), shard_function fn = Ok f -> ShardCatalog.route shards (keyspace_id f w) = Some s ->
    s ∈ ts' -> w = k -> sh ∈ ts') as Hfin.
  { intros f w s ts' Hf Hs Hin ->. rewrite (shard_of_known _ _ _ _ _ Hf Hs) in Hsh. by injection Hsh as <-. }
  assert (forall ns wr, r = RParams ns -> p = PParameterized (mkParameterized fn (Some ty) ns wr) -> sh ∈ ts) as Hpar.
  { intros ns wr -> ->. destruct Hc as [Hne Hv]. destruct (Hb Hne) as (v & Hin & Hm).
    destruct (Hv v Hin) as (n & -> & Hn). destruct (resolve_bound_targets _ _ _ _ _ _ _ Ht) as (f & Hf & _ & Hcov).
    destruct (Hcov n Hn) as (sv & w & s & Hsv & Hw & Hs & Hin'). eapply Hfin; eauto. }
  assert (forall out, r = RShards out -> ts = out -> sh ∈ ts) as Hlit.
  { intros out -> ->. destruct Hc as (Hne & f & Hf & Hv). destruct (Hb Hne) as (v & Hin & Hm).
    destruct (Hv v Hin) as (sv & w & s & -> & Hw & Hs & Hin'). eapply Hfin; eauto. }
  destruct Hp as [->|[(ns & -> & ->)|(s & -> & ->)]]; [|by eapply Hpar|apply (Hlit [s]); [done|by injection Ht as <-]].
  destruct r as [|ns| | |out]; cbn [read_plan] in *; try (injection Ht as <-; by eapply shard_of_all); [by eapply Hpar|].
  apply (Hlit out); [done|]. unfold read_from_shards in Ht. by destruct out as [|? [|]]; injection Ht as <-.
Qed.

(** The plan of a read of one sharded relation: a refusal, or what its key values give. *)
Lemma plan_select_keyed s vschema shards key kt fn p :
  plan_select s vschema shards = Some p -> sel_op s = SetopNone ->
  omap (is_sharded vschema) (fc_tables (analyze_from (sel_from s))) = [(key, kt, fn)] ->
  (exists code reason, p = PReject code reason) \/
  contains_sublink (select_value s) = false /\
  exists r, route_values (where_key_values (sel_where s) key) kt fn shards = Some r /\ p = read_plan kt fn shards r.
Proof.
  intros Hp Hop Hone. unfold plan_select in Hp. rewrite Hop, Hone in Hp.
  destruct (unknown_relation _ _) as [u|]; [left; injection Hp as <-; by repeat eexists|].
  rewrite bool_decide_eq_true_2 in Hp by done. cbn [negb] in Hp.
  destruct (_ || _); [left; injection Hp as <-; by repeat eexists|].
  destruct (bool_decide _); [left; injection Hp as <-; by repeat eexists|].
  destruct (contains_sublink (select_value s)) eqn:El; [left; injection Hp as <-; by repeat eexists|].
  destruct (route_values _ _ _ _) as [res|] eqn:Er; [|done]. injection Hp as <-. right. split; [done|by exists res].
Qed.

(** A row that satisfies the condition of a routed read is on a target shard, and
    satisfies it with that shard's data alone. *)
Lemma select_covers s vschema shards fn p ps ts d r :
  plan_select s vschema shards = Some p -> sel_op s = SetopNone ->
  omap (is_sharded vschema) (fc_tables (analyze_from (sel_from s))) = [(key_col, Some ty, fn)] ->
  targets p ps shards = Some ts -> where_sat d ps (sel_where s) r ->
  (forall sh, shard_of fn shards (row_key r) = Some sh -> sh ∈ ts) /\ forall d', where_sat d' ps (sel_where s) r.
Proof.
  intros Hp Hop Hone Ht Hs. destruct (plan_select_keyed _ _ _ _ _ _ _ Hp Hop Hone) as [(c & m & ->)|(El & res & Er & ->)]; [done|].
  split.
  - intros sh Hsh. eapply resolution_covers; [exact Er| |by left|exact Ht|exact Hsh].
    intros Hne. by eapply where_key_values_bounds.
  - intros d'. destruct (sel_where s) as [w|] eqn:Ew; [|done]. by eapply select_local.
Qed.

(** A routed read's condition does not depend on the session's data. *)
Lemma select_condition_local s vschema shards fn p ps ts d d' r :
  plan_select s vschema shards = Some p -> sel_op s = SetopNone ->
  omap (is_sharded vschema) (fc_tables (analyze_from (sel_from s))) = [(key_col, Some ty, fn)] ->
  targets p ps shards = Some ts -> where_sat d ps (sel_where s) r -> where_sat d' ps (sel_where s) r.
Proof. intros Hp Hop Hone Ht Hs. by eapply select_covers. Qed.

(** ** Properties *)

(** C10: a read never misses a row. When a SELECT on a sharded table runs on shards
    (its parameters bound to any values), a row satisfies its condition if and
    only if the shard the row lives on is among the targets and the row satisfies
    the condition there, where only that shard's data is visible: the union of
    the targets' answers is the answer. *)
Theorem select_never_under_routes s vschema shards fn p ps ts d d' r sh :
  plan_select s vschema shards = Some p -> sel_op s = SetopNone ->
  omap (is_sharded vschema) (fc_tables (analyze_from (sel_from s))) = [(key_col, Some ty, fn)] ->
  targets p ps shards = Some ts -> shard_of fn shards (row_key r) = Some sh ->
  where_sat d ps (sel_where s) r <-> sh ∈ ts /\ where_sat d' ps (sel_where s) r.
Proof.
  intros Hp Hop Hone Ht Hsh. split.
  - intros Hs. destruct (select_covers _ _ _ _ _ _ _ _ _ Hp Hop Hone Ht Hs) as [Hin Hloc]. auto.
  - intros [_ Hs]. by eapply select_condition_local.
Qed.

Lemma keyed_write_shape values fn shards table verb p ps ts :
  plan_keyed_write values (Some ty) fn shards table key_col verb = Some p ->
  targets p ps shards = Some ts -> exists s, ts = [s].
Proof.
  unfold plan_keyed_write. destruct (route_values _ _ _ _) as [r|] eqn:Er; [|done]. intros [= <-] Ht.
  destruct r as [|ns| | |[|s [|]]]; try done.
  - destruct (resolve_bound_targets _ _ _ _ _ _ _ Ht) as (f & _ & Hw & _). by apply Hw.
  - injection Ht as <-. by eexists.
Qed.

Lemma keyed_write_covers values fn shards table verb p ps ts k sh :
  plan_keyed_write values (Some ty) fn shards table key_col verb = Some p ->
  (values <> [] -> exists v, v ∈ values /\ key_matches ty ps v k) ->
  targets p ps shards = Some ts -> shard_of fn shards k = Some sh -> ts = [sh].
Proof.
  intros Hp Hb Ht Hsh. destruct (keyed_write_shape _ _ _ _ _ _ _ _ Hp Ht) as [s ->].
  unfold plan_keyed_write in Hp. destruct (route_values _ _ _ _) as [r|] eqn:Er; [|done]. injection Hp as <-.
  do 2 f_equal. symmetry. apply list_elem_of_singleton.
  eapply resolution_covers; [exact Er|exact Hb| |exact Ht|exact Hsh].
  destruct r as [|ns| | |[|s' [|]]]; try done; [right; left; by eexists|right; right; by eexists].
Qed.

(** The condition of a keyed write that runs on shards. *)
Lemma keyed_write_local w fn shards table verb p ps ts d d' r :
  plan_keyed_write (where_key_values w key_col) (Some ty) fn shards table key_col verb = Some p ->
  targets p ps shards = Some ts ->
  (forall n, w = Some n -> forall e e', sat e ps n r -> sat e' ps n r) ->
  (exists sh, ts = [sh]) /\
  (where_sat d ps w r -> where_sat d' ps w r /\ forall sh, shard_of fn shards (row_key r) = Some sh -> ts = [sh]).
Proof.
  intros Hp Ht Hloc.
  assert (where_key_values w key_col <> []) as Hne.
  { intros E. rewrite E in Hp. unfold plan_keyed_write, route_values in Hp. by injection Hp as <-. }
  destruct w as [n|]; [|by destruct Hne].
  split; [|intros Hs; split; [by eapply (Hloc n)|]].
  - eapply (keyed_write_shape _ _ _ _ _ _ _ _ Hp Ht).
  - intros sh Hsh. eapply keyed_write_covers; [exact Hp| |exact Ht|exact Hsh].
    intros _. by eapply where_key_values_bounds.
Qed.

(** C8: a keyed UPDATE or DELETE that runs on shards runs on exactly one, and every
    row it matches lives there; its condition means the same on that shard as on
    the whole table. *)
Theorem write_hits_the_rows_shard vschema shards fn ps ts d d' r :
  (forall s rv p, plan_update s vschema shards = Some p -> upd_relation s = Some rv ->
     placement vschema (range_var_table rv) = PlSharded key_col (Some ty) fn -> targets p ps shards = Some ts ->
     (exists sh, ts = [sh]) /\
     (where_sat d ps (upd_where s) r -> where_sat d' ps (upd_where s) r /\
        forall sh, shard_of fn shards (row_key r) = Some sh -> ts = [sh])) /\
  (forall s rv p, plan_delete s vschema shards = Some p -> del_relation s = Some rv ->
     placement vschema (range_var_table rv) = PlSharded key_col (Some ty) fn -> targets p ps shards = Some ts ->
     (exists sh, ts = [sh]) /\
     (where_sat d ps (del_where s) r -> where_sat d' ps (del_where s) r /\
        forall sh, shard_of fn shards (row_key r) = Some sh -> ts = [sh])).
Proof.
  split; intros s rv p Hp Hrv Hpl Ht.
  - unfold plan_update in Hp. rewrite Hrv, Hpl in Hp.
    destruct (sets_column _ _); [by injection Hp as <-|]. destruct (bool_decide _); [|by injection Hp as <-].
    cbn [negb] in Hp. destruct (bool_decide _); [by injection Hp as <-|].
    destruct (contains_sublink _) eqn:El; [by injection Hp as <-|].
    eapply keyed_write_local; [exact Hp|exact Ht|]. intros w Hw e e'. by eapply update_local.
  - unfold plan_delete in Hp. rewrite Hrv, Hpl in Hp.
    destruct (bool_decide _); [|by injection Hp as <-]. cbn [negb] in Hp. destruct (bool_decide _); [by injection Hp as <-|].
    destruct (contains_sublink _) eqn:El; [by injection Hp as <-|].
    eapply keyed_write_local; [exact Hp|exact Ht|]. intros w Hw e e'. by eapply delete_local.
Qed.

End coverage.

Section inserts.
  Context `{XxHash} `{PgQuery}.

Lemma row_keys_spec rows idx vs :
  row_keys rows idx = Some vs ->
  forall row, row ∈ rows -> exists items n v, row = Some (NList items) /\ items !! idx = Some (Some n) /\ key_val n = Some v /\ v ∈ vs.
Proof.
  revert vs. induction rows as [|row rows IH]; intros vs Hvs r0 Hin; [by apply elem_of_nil in Hin|].
  cbn [row_keys] in Hvs. destruct row as [[]|]; try done.
  apply bind_Some in Hvs as (cell & Hc & Hvs). apply bind_Some in Hvs as (n & -> & Hvs).
  apply bind_Some in Hvs as (v & Hv & Hvs). apply bind_Some in Hvs as (vs' & Hvs' & [= <-]).
  apply elem_of_cons in Hin as [->|Hin]; [do 3 eexists; repeat split; [done..|left]|].
  destruct (IH _ Hvs' _ Hin) as (its & m & u & -> & ? & ? & ?). do 3 eexists. repeat split; [done..|by right].
Qed.

Lemma insert_key_values_spec s key vs :
  insert_key_values s key = Some vs ->
  exists idx sel, position (names_target key) (ins_cols s) = Some idx /\ ins_select s = Some (NSelectStmt sel) /\
    sel_values sel <> [] /\ row_keys (sel_values sel) idx = Some vs.
Proof.
  unfold insert_key_values. intros Hvs. apply bind_Some in Hvs as (idx & Hidx & Hvs).
  destruct (ins_select s) as [[]|]; try done. destruct (sel_values _) eqn:E; [done|].
  do 2 eexists. repeat split; [done..|by rewrite E|by rewrite E].
Qed.

(** Every value of a single-shard write is a key of that shard. *)
Lemma write_values_shard values ty fn shards r p table ps ts :
  route_values values (Some ty) fn shards = Some r ->
  (exists ns, r = RParams ns /\ p = PParameterized (mkParameterized fn (Some ty) ns true)) \/
  (exists hit, r = RShards hit /\ p = write_to_shards hit table) ->
  targets p ps shards = Some ts ->
  exists sh, ts = [sh] /\ forall v, v ∈ values ->
    exists sv w, value_of ps v = Some sv /\ coerce ty sv = Some w /\ shard_of fn shards w = Some sh.
Proof.
  intros Hr Hp Ht. pose proof (route_values_cases _ _ _ _ _ Hr) as Hc.
  destruct Hp as [(ns & -> & ->)|(hit & -> & ->)].
  - destruct Hc as [_ Hv]. destruct (resolve_bound_targets _ _ _ _ _ _ _ Ht) as (f & Hf & Hw & Hcov).
    destruct (Hw eq_refl) as [sh ->]. exists sh. split; [done|]. intros v Hin. destruct (Hv v Hin) as (n & -> & Hn).
    destruct (Hcov n Hn) as (sv & w & s & Hsv & Hcw & Hs & Hin'). apply list_elem_of_singleton in Hin' as ->.
    exists sv, w. repeat split; [done..|by eapply shard_of_known].
  - destruct Hc as (_ & f & Hf & Hv). destruct hit as [|sh [|]]; try done. injection Ht as <-. exists sh. split; [done|].
    intros v Hin. destruct (Hv v Hin) as (sv & w & s & -> & Hcw & Hs & Hin'). apply list_elem_of_singleton in Hin' as ->.
    exists sv, w. repeat split; [done..|by eapply shard_of_known].
Qed.

(** C9: an INSERT into a sharded table that runs on shards runs on exactly one, and
    every row of its VALUES lists carries, in the column named as the shard key, a
    literal or bound parameter that is a key of that shard. *)
Theorem insert_rows_on_their_shard s vschema shards rv key ty fn p ps ts :
  plan_insert s vschema shards = Some p -> ins_relation s = Some rv ->
  placement vschema (range_var_table rv) = PlSharded key (Some ty) fn -> targets p ps shards = Some ts ->
  exists sh idx sel, ts = [sh] /\ position (names_target key) (ins_cols s) = Some idx /\
    ins_select s = Some (NSelectStmt sel) /\ sel_values sel <> [] /\
    forall row, row ∈ sel_values sel -> exists items n v sv w,
      row = Some (NList items) /\ items !! idx = Some (Some n) /\ key_val n = Some v /\
      value_of ps v = Some sv /\ coerce ty sv = Some w /\ shard_of fn shards w = Some sh.
Proof.
  intros Hp Hrv Hpl Ht. unfold plan_insert in Hp. rewrite Hrv in Hp.
  destruct (bool_decide _); [by injection Hp as <-|]. destruct (contains_sublink _); [by injection Hp as <-|].
  rewrite Hpl in Hp. destruct (conflict_check _ _ _) as [rej|] eqn:Ec.
  { injection Hp as <-. unfold conflict_check in Ec. by repeat (case_match; simplify_eq). }
  destruct (insert_key_values s key) as [values|] eqn:Ev; [|by injection Hp as <-].
  destruct (route_values _ _ _ _) as [r|] eqn:Er; [|done]. injection Hp as Hp.
  destruct (insert_key_values_spec _ _ _ Ev) as (idx & sel & Hidx & Hsel & Hne & Hrows).
  destruct (write_values_shard _ _ _ _ _ p (range_var_table rv) ps ts Er) as (sh & -> & Hv); [|done|].
  { destruct r as [|ns| | |hit]; subst p; try done; [left|right]; by eexists. }
  exists sh, idx, sel. repeat split; [done..|]. intros row Hin.
  destruct (row_keys_spec _ _ _ Hrows _ Hin) as (items & n & v & -> & Hi & Hn & Hvin).
  destruct (Hv v Hvin) as (sv & w & ? & ? & ?). by exists items, n, v, sv, w.
Qed.

End inserts.

(** ** The planner does not panic *)

Section total.
  Context `{XxHash} `{PgQuery} (shards : ShardCatalog) (Hwf : catalog_wf shards).

Lemma keyspace_id_routes fn f k : shard_function fn = Ok f -> is_Some (ShardCatalog.route shards (keyspace_id f k)).
Proof.
  unfold shard_function. destruct (decide _); [|done]. intros [= <-].
  destruct (catalog_route shards (keyspace_id XXHASH64_V1 k)) as (i & r & s & _ & _ & Hr & _); [done|apply xxh64_u64|].
  by exists s.
Qed.

Lemma key_id_routes fn f kt v id : shard_function fn = Ok f -> key_id f kt v = Some id -> is_Some (ShardCatalog.route shards id).
Proof.
  intros Hf. unfold key_id. destruct kt as [t|]; [destruct (coerce t v) as [w|]; [|done]|]; intros [= <-];
    by eapply keyspace_id_routes.
Qed.

Lemma hit_shards_total fn f kt values hit : shard_function fn = Ok f -> is_Some (hit_shards f kt shards values hit).
Proof.
  intros Hf. revert hit. induction values as [|[sv|n] values IH]; intros hit; cbn [hit_shards]; [by eexists| |apply IH].
  destruct (key_id f kt sv) as [id|] eqn:Ek; [|by eexists].
  destruct (key_id_routes _ _ _ _ _ Hf Ek) as [s ->]. apply IH.
Qed.

Lemma route_values_total fn kt values : is_ok (shard_function fn) = true -> is_Some (route_values values kt fn shards).
Proof.
  intros Hok. unfold route_values. destruct values as [|v vs]; [by eexists|].
  destruct (omap param_of _) as [|n ns]; [|destruct (existsb _ _); by eexists].
  destruct (shard_function fn) as [f|] eqn:Ef; [|done]. by eapply hit_shards_total.
Qed.

Lemma bound_shards_total fn f kt params idxs hit : shard_function fn = Ok f ->
  is_Some (bound_shards f kt params shards idxs hit).
Proof.
  intros Hf. revert hit. induction idxs as [|n idxs IH]; intros hit; cbn [bound_shards]; [by eexists|].
  destruct (if n =? 0 then _ else _) as [v|]; [|by eexists]. destruct (key_id f kt v) as [id|] eqn:Ek; [|by eexists].
  destruct (key_id_routes _ _ _ _ _ Hf Ek) as [s ->]. apply IH.
Qed.

Lemma plan_keyed_write_total values kt fn table key verb : is_ok (shard_function fn) = true ->
  is_Some (plan_keyed_write values kt fn shards table key verb).
Proof. intros Hok. unfold plan_keyed_write. destruct (route_values_total fn kt values Hok) as [r ->]. by eexists. Qed.

Context (vschema : VSchema) (Hvs : vschema_wf vschema).

Lemma placement_function table key kt fn : placement vschema table = PlSharded key kt fn -> is_ok (shard_function fn) = true.
Proof.
  unfold placement, VSchema.get. destruct (vs_tables vschema !! table) as [[]|] eqn:E; try done. intros [= <- <- <-].
  apply Hvs in E. by destruct E as (_ & _ & _ & ? & _).
Qed.

Lemma plan_select_total s : is_Some (plan_select s vschema shards).
Proof.
  unfold plan_select. destruct (unknown_relation _ _); [by eexists|]. destruct (negb _); [by eexists|].
  destruct (omap (is_sharded vschema) _) as [|[[key kt] fn] [|]] eqn:E; [by eexists| |by eexists].
  repeat (case_match; [by eexists|]).
  assert ((key, kt, fn) ∈ omap (is_sharded vschema) (fc_tables (analyze_from (sel_from s)))) as Hin by (rewrite E; left).
  apply list_elem_of_omap in Hin as (t & _ & Ht). unfold is_sharded in Ht.
  destruct (placement vschema t) eqn:Ep; simplify_eq.
  destruct (route_values_total fn kt (where_key_values (sel_where s) key)) as [r ->]; [by eapply placement_function|].
  by eexists.
Qed.

Lemma plan_update_total s : is_Some (plan_update s vschema shards).
Proof.
  unfold plan_update. destruct (upd_relation s) as [rv|]; [|by eexists].
  destruct (placement _ _) as [key kt fn| |] eqn:Ep; [|by eexists..]. repeat (case_match; [by eexists|]).
  eapply plan_keyed_write_total, placement_function, Ep.
Qed.

Lemma plan_delete_total s : is_Some (plan_delete s vschema shards).
Proof.
  unfold plan_delete. destruct (del_relation s) as [rv|]; [|by eexists].
  destruct (placement _ _) as [key kt fn| |] eqn:Ep; [|by eexists..]. repeat (case_match; [by eexists|]).
  eapply plan_keyed_write_total, placement_function, Ep.
Qed.

Lemma plan_insert_total s : is_Some (plan_insert s vschema shards).
Proof.
  unfold plan_insert. destruct (ins_relation s) as [rv|]; [|by eexists]. do 2 (case_match; [by eexists|]).
  destruct (placement _ _) as [key kt fn| |] eqn:Ep; [|by eexists..]. case_match; [by eexists|].
  destruct (insert_key_values s key) as [values|]; [|by eexists].
  destruct (route_values_total fn kt values) as [r ->]; [by eapply placement_function|by eexists].
Qed.

End total.

Lemma hit_shards_sorted `{XxHash} f kt shards values : forall hit out,
  hit_shards f kt shards values hit = Some (RShards out) -> sorted_set hit -> sorted_set out.
Proof.
  induction values as [|[sv|n] values IH]; intros hit out; cbn [hit_shards]; [by intros [= <-]| |apply IH].
  destruct (key_id f kt sv) as [id|]; [|done]. destruct (ShardCatalog.route shards id) as [s|]; [|done].
  intros Hh Hs. eapply IH; [exact Hh|]. by apply set_insert_sorted.
Qed.

Lemma hit_shards_keeps `{XxHash} f kt shards values : forall hit out,
  hit_shards f kt shards values hit = Some (RShards out) -> hit ⊆ out.
Proof.
  induction values as [|[sv|n] values IH]; intros hit out; cbn [hit_shards]; [by intros [= <-]| |apply IH].
  destruct (key_id f kt sv) as [id|]; [|done]. destruct (ShardCatalog.route shards id) as [s|]; [|done].
  intros Hh x Hx. apply (IH _ _ Hh), elem_of_set_insert. by right.
Qed.

(** Key values that resolve to shards name at least one. *)
Lemma route_values_nonempty `{XxHash} values kt fn shards out : route_values values kt fn shards = Some (RShards out) -> out <> [].
Proof.
  unfold route_values. destruct values as [|v values]; [done|]. destruct (omap _ _) eqn:Eo; [|by destruct (existsb _ _)].
  destruct (shard_function fn) as [f|]; [|done]. cbn [res_ok mbind option_bind].
  destruct v as [sv|n]; [|done]. cbn [hit_shards]. destruct (key_id f kt sv) as [id|]; [|done].
  destruct (ShardCatalog.route shards id) as [s|]; [|done]. intros Hh ->.
  apply hit_shards_keeps in Hh. apply (elem_of_nil s), Hh, elem_of_set_insert. by left.
Qed.

(** A read never runs twice on a shard. *)
Lemma read_plan_NoDup `{XxHash} values kt fn shards r :
  NoDup (ShardCatalog.all shards) -> route_values values kt fn shards = Some r ->
  match read_plan kt fn shards r with PScatter l => NoDup l | _ => True end.
Proof.
  intros Hall Hr. destruct r as [|ns| | |out]; cbn [read_plan]; try done. unfold read_from_shards.
  assert (sorted_set out) as Hs.
  { unfold route_values in Hr. destruct values; [done|]. destruct (omap _ _); [|by destruct (existsb _ _)].
    destruct (shard_function fn); [|done]. eapply hit_shards_sorted; [exact Hr|constructor]. }
  destruct out as [|x [|]]; [constructor|done|by apply sorted_set_NoDup].
Qed.

(** ** Plans name shards of the catalog *)

Definition plan_shards (p : Plan) : list ShardId :=
  match p with PSingleShard s => [s] | PScatter l | PBroadcast l => l | _ => [] end.

Section known.
  Context `{XxHash} `{PgQuery} (shards : ShardCatalog).

Lemma list_subseteq_nil (l : list ShardId) : [] ⊆ l.
Proof. set_solver. Qed.

Lemma hit_shards_known f kt values hit out :
  hit_shards f kt shards values hit = Some (RShards out) -> hit ⊆ ShardCatalog.all shards -> out ⊆ ShardCatalog.all shards.
Proof.
  revert hit. induction values as [|[sv|n] values IH]; intros hit; cbn [hit_shards]; [by intros [= <-]| |apply IH].
  destruct (key_id f kt sv) as [id|]; [|done]. destruct (ShardCatalog.route shards id) as [s|] eqn:Er; [|done].
  intros Hh Hin. apply (IH _ Hh). intros x [->|Hx]%elem_of_set_insert; [by eapply route_in_all|by apply Hin].
Qed.

Lemma bound_shards_known f kt params idxs hit out :
  bound_shards f kt params shards idxs hit = Some (Ok out) -> hit ⊆ ShardCatalog.all shards -> out ⊆ ShardCatalog.all shards.
Proof.
  revert hit. induction idxs as [|n idxs IH]; intros hit; cbn [bound_shards]; [by intros [= <-]|].
  destruct (if n =? 0 then _ else _) as [v|]; [|done]. destruct (key_id f kt v) as [id|]; [|done].
  destruct (ShardCatalog.route shards id) as [s|] eqn:Er; [|done].
  intros Hh Hin. apply (IH _ Hh). intros x [->|Hx]%elem_of_set_insert; [by eapply route_in_all|by apply Hin].
Qed.

Lemma route_values_known values kt fn out :
  route_values values kt fn shards = Some (RShards out) -> out ⊆ ShardCatalog.all shards.
Proof.
  unfold route_values. destruct values; [done|]. destruct (omap _ _); [|by destruct (existsb _ _)].
  destruct (shard_function fn) as [f|]; [|done]. intros Hh. eapply hit_shards_known; [exact Hh|set_solver].
Qed.

Lemma read_from_shards_all hit : plan_shards (read_from_shards hit) = hit.
Proof. by destruct hit as [|? [|]]. Qed.

Lemma write_to_shards_sub hit table : plan_shards (write_to_shards hit table) ⊆ hit.
Proof. destruct hit as [|? [|]]; cbn; set_solver. Qed.

Lemma bound_shards_reject f kt params idxs hit pl :
  bound_shards f kt params shards idxs hit = Some (Err pl) -> plan_shards pl = [].
Proof.
  revert hit. induction idxs as [|n idxs IH]; intros hit; cbn [bound_shards]; [done|].
  destruct (if n =? 0 then _ else _) as [v|]; [|by intros [= <-]]. destruct (key_id f kt v) as [id|]; [|by intros [= <-]].
  destruct (ShardCatalog.route shards id); [apply IH|done].
Qed.

Lemma resolve_bound_known param values p :
  resolve_bound param values shards = Some p -> plan_shards p ⊆ ShardCatalog.all shards.
Proof.
  unfold resolve_bound. destruct (shard_function _) as [f|]; [|intros [= <-]; apply list_subseteq_nil].
  destruct (bound_shards _ _ _ _ _ _) as [[out|pl]|] eqn:E; [| |done]; intros [= <-].
  - apply bound_shards_known in E; [|set_solver]. destruct out as [|s [|]]; [apply list_subseteq_nil|done|].
    destruct (pz_write param); [apply list_subseteq_nil|done].
  - apply bound_shards_reject in E as ->. apply list_subseteq_nil.
Qed.

Context (vschema : VSchema).

Lemma plan_select_known s p : plan_select s vschema shards = Some p -> plan_shards p ⊆ ShardCatalog.all shards.
Proof.
  unfold plan_select, plan_set_op. intros Hp. repeat (case_match; simplify_eq; try apply list_subseteq_nil).
  destruct (route_values _ _ _ _) as [[| | | |out]|] eqn:Er; simplify_eq/=; try done; try apply list_subseteq_nil.
  rewrite read_from_shards_all. by eapply route_values_known.
Qed.

Lemma write_known values kt fn r p table :
  route_values values kt fn shards = Some r ->
  match r with RShards hit => p = write_to_shards hit table | _ => plan_shards p = [] end ->
  plan_shards p ⊆ ShardCatalog.all shards.
Proof.
  intros Er Hp. destruct r as [| | | |out]; [rewrite Hp; apply list_subseteq_nil..|]. subst p.
  apply route_values_known in Er. pose proof (write_to_shards_sub out table). set_solver.
Qed.

Lemma plan_keyed_write_known values kt fn table key verb p :
  plan_keyed_write values kt fn shards table key verb = Some p -> plan_shards p ⊆ ShardCatalog.all shards.
Proof.
  unfold plan_keyed_write. destruct (route_values _ _ _ _) as [r|] eqn:Er; [|done]. intros [= <-].
  eapply (write_known _ _ _ _ _ table Er). by destruct r.
Qed.

Lemma plan_update_known s p : plan_update s vschema shards = Some p -> plan_shards p ⊆ ShardCatalog.all shards.
Proof.
  unfold plan_update. intros Hp. repeat (case_match; simplify_eq; try apply list_subseteq_nil).
  by eapply plan_keyed_write_known.
Qed.

Lemma plan_delete_known s p : plan_delete s vschema shards = Some p -> plan_shards p ⊆ ShardCatalog.all shards.
Proof.
  unfold plan_delete. intros Hp. repeat (case_match; simplify_eq; try apply list_subseteq_nil).
  by eapply plan_keyed_write_known.
Qed.

Lemma conflict_check_reject oc table key pl : conflict_check oc table key = Some pl -> plan_shards pl = [].
Proof. unfold conflict_check. intros Hc. by repeat (case_match; simplify_eq). Qed.

Lemma plan_insert_known s p : plan_insert s vschema shards = Some p -> plan_shards p ⊆ ShardCatalog.all shards.
Proof.
  unfold plan_insert. destruct (ins_relation s) as [rv|]; [|intros [= <-]; apply list_subseteq_nil].
  do 2 (case_match; [intros [= <-]; apply list_subseteq_nil|]).
  destruct (placement _ _) as [key kt fn| |]; [|intros [= <-]; apply list_subseteq_nil..].
  destruct (conflict_check _ _ _) eqn:Ec; [intros [= <-]; apply conflict_check_reject in Ec as ->; apply list_subseteq_nil|].
  destruct (insert_key_values s key) as [values|]; [|intros [= <-]; apply list_subseteq_nil].
  destruct (route_values _ _ _ _) as [r|] eqn:Er; [|done]. intros [= <-].
  eapply (write_known _ _ _ _ _ (range_var_table rv) Er). by destruct r.
Qed.

Lemma plan_known kind node p : plan kind node vschema shards = Some p -> plan_shards p ⊆ ShardCatalog.all shards.
Proof.
  unfold plan. intros Hp. destruct kind, node; simplify_eq; try apply list_subseteq_nil; try done;
    eauto using plan_select_known, plan_insert_known, plan_update_known, plan_delete_known.
Qed.

Lemma plan_all_known parsed p : Some p ∈ plan_all parsed vschema shards -> plan_shards p ⊆ ShardCatalog.all shards.
Proof.
  unfold plan_all. intros Ho. apply list_elem_of_lookup in Ho as [i Hi]. rewrite list_lookup_imap in Hi.
  apply fmap_Some in Hi as ([node|] & _ & Hp); [by eapply plan_known|simplify_eq; apply list_subseteq_nil].
Qed.

End known.

Lemma plan_total `{XxHash} `{PgQuery} kind node vschema shards :
  catalog_wf shards -> vschema_wf vschema -> is_Some (plan kind node vschema shards).
Proof.
  intros Hwf Hvs. unfold plan. destruct kind, node; try (by eexists);
    eauto using plan_select_total, plan_insert_total, plan_update_total, plan_delete_total.
Qed.

Lemma plan_all_total `{XxHash} `{PgQuery} parsed vschema shards :
  catalog_wf shards -> vschema_wf vschema -> Forall is_Some (plan_all parsed vschema shards).
Proof.
  intros Hwf Hvs. apply Forall_forall. intros o Ho. unfold plan_all in Ho.
  apply list_elem_of_lookup in Ho as [i Hi]. rewrite list_lookup_imap in Hi.
  apply fmap_Some in Hi as ([node|] & _ & ->); [|by eexists]. by apply plan_total.
Qed.

Lemma resolve_bound_total `{XxHash} shards param values : catalog_wf shards -> is_Some (resolve_bound param values shards).
Proof.
  intros Hwf. unfold resolve_bound. destruct (shard_function _) as [f|] eqn:Ef; [|by eexists].
  destruct (bound_shards_total shards Hwf _ f (pz_key_type param) values (pz_param_indices param) [] Ef) as [r ->].
  by eexists.
Qed.

(** the planner is total and names only shards it was given. Against a catalog
    that partitions the keyspace and a validated schema, every statement of every
    batch gets a plan, a parameterized plan resolves for any bound values (no
    [expect] fires), and every shard of such a plan is one of the catalog. *)
Theorem planner_never_panics `{XxHash} `{PgQuery} parsed vschema shards :
  catalog_wf shards -> vschema_wf vschema ->
  Forall is_Some (plan_all parsed vschema shards) /\ length (plan_all parsed vschema shards) = length (pa_stmts parsed) /\
  (forall p, Some p ∈ plan_all parsed vschema shards -> plan_shards p ⊆ ShardCatalog.all shards) /\
  forall param values, exists p, resolve_bound param values shards = Some p /\ plan_shards p ⊆ ShardCatalog.all shards.
Proof.
  intros Hwf Hvs. split_and!; [by apply plan_all_total|apply length_imap|intros p; apply plan_all_known|].
  intros param values. destruct (resolve_bound_total shards param values Hwf) as [p Hp].
  exists p. split; [done|]. by eapply resolve_bound_known.
Qed.

(** ** Witnesses *)

Module PlanExample.

#[local] Existing Instance be_hash.

(** A serializer of statements without sublinks, and conditions evaluated on a row
    that is just its key. *)
#[local] Instance plain_query : PgQuery := {|
  select_value _ := Some (JObject []);
  insert_value _ := Some (JObject []);
  update_value _ := Some (JObject []);
  delete_value _ := Some (JObject []);
|}.

Fixpoint holds (ps : list ScalarValue) (n : NodeEnum) (k : ScalarValue) : Prop :=
  match n with
  | NBoolExpr AndExpr args =>
      foldr and True (map (fun a => match a with Some m => holds ps m k | None => True end) args)
  | NAExpr AexprOp name (Some lhs) (Some rhs) =>
      is_eq_operator name = true ->
      (is_key_column lhs "id" = true -> forall v, key_val rhs = Some v -> key_matches TInt ps v k) /\
      (is_key_column rhs "id" = true -> forall v, key_val lhs = Some v -> key_matches TInt ps v k)
  | NAExpr AexprIn name (Some lhs) (Some (NList items)) =>
      is_eq_operator name = true -> is_key_column lhs "id" = true -> forall vs, in_values items = Some vs ->
      exists v, v ∈ vs /\ key_matches TInt ps v k
  | _ => True
  end.

Lemma holds_and ps args k n : holds ps (NBoolExpr AndExpr args) k -> Some n ∈ args -> holds ps n k.
Proof.
  cbn [holds]. induction args as [|a args IH]; [by intros _ ?%elem_of_nil|]. cbn [map foldr].
  intros [Ha Hr] [<-|Hin]%elem_of_cons; [done|by apply IH].
Qed.

#[local] Instance key_rows : Semantics "id" TInt.
Proof.
  refine {| row := ScalarValue; session := unit; row_key k := k; sat _ := holds |}; try (by intros; assumption).
  - intros _ ps args k n. apply holds_and.
  - intros _ ps name lhs rhs k v Hn Hl Hv Hs. exact (proj1 (Hs Hn) Hl v Hv).
  - intros _ ps name lhs rhs k v Hn Hl Hv Hs. exact (proj2 (Hs Hn) Hl v Hv).
  - intros _ ps name lhs items k vs Hn Hl Hv Hs. exact (Hs Hn Hl vs Hv).
Defined.

Definition shards : ShardCatalog := mkShardCatalog [(mkKeyRange 0 (Some 128), "a"); (mkKeyRange 128 None, "b")].
Definition orders : RangeVar := mkRangeVar EmptyString "orders".
Definition vschema : VSchema :=
  mkVSchema {[ mkTableName "public" "orders" := Sharded "id" (Some TInt) "xxhash64_v1" [] ]}.

(** [id = $1] *)
Definition id_is_param : NodeEnum :=
  NAExpr AexprOp [Some (NString "=")] (Some (NColumnRef [Some (NString "id")])) (Some (NParamRef 1)).

Definition select_orders : SelectStmt :=
  mkSelectStmt SetopNone [Some (NRangeVar orders)] (Some id_is_param) None [] false None None
    [Some (NResTarget EmptyString (Some (NColumnRef [Some (NString "total")])))] [] no_clauses.
Definition update_orders : UpdateStmt :=
  mkUpdateStmt (Some orders) [Some (NResTarget "total" (Some (NParamRef 2)))] (Some id_is_param) [] None [].
Definition delete_orders : DeleteStmt := mkDeleteStmt (Some orders) [] (Some id_is_param) None [].
Definition insert_orders : InsertStmt :=
  mkInsertStmt (Some orders) [Some (NResTarget "id" None); Some (NResTarget "total" None)]
    (Some (NSelectStmt (mkSelectStmt SetopNone [] None None
       [Some (NList [Some (NAConst false (Some (Ival 200))); Some (NAConst false (Some (Ival 5)))]);
        Some (NList [Some (NAConst false (Some (Sval "300"))); Some (NAConst false (Some (Ival 7)))])]
       false None None [] [] no_clauses))) None None [].

Lemma select_never_under_routes_witness :
  where_sat (tt : session key_rows) [Text "200"] (sel_where select_orders) (Int64 200) <->
  "b" ∈ ["b"] /\ where_sat (tt : session key_rows) [Text "200"] (sel_where select_orders) (Int64 200).
Proof.
  apply (select_never_under_routes (SS := key_rows) select_orders vschema shards "xxhash64_v1"
    (PParameterized (mkParameterized "xxhash64_v1" (Some TInt) [1] false)) [Text "200"] ["b"] tt tt (Int64 200) "b");
    vm_compute; reflexivity.
Defined.

Lemma write_hits_the_rows_shard_witness :
  ((exists sh, ["b"] = [sh]) /\
   (where_sat (tt : session key_rows) [Int64 200] (upd_where update_orders) (Int64 200) ->
    where_sat (tt : session key_rows) [Int64 200] (upd_where update_orders) (Int64 200) /\
    forall sh, shard_of "xxhash64_v1" shards (row_key (Int64 200 : row key_rows)) = Some sh -> ["b"] = [sh])) /\
  targets (default PRouterLocal (plan_delete delete_orders vschema shards)) [Int64 200] shards = Some ["b"].
Proof.
  split; [|vm_compute; reflexivity].
  apply (proj1 (write_hits_the_rows_shard (SS := key_rows) vschema shards "xxhash64_v1" [Int64 200] ["b"] tt tt (Int64 200))
    update_orders orders (PParameterized (mkParameterized "xxhash64_v1" (Some TInt) [1] true)));
    vm_compute; reflexivity.
Defined.

Lemma insert_rows_on_their_shard_witness :
  exists sh idx sel, ["b"] = [sh] /\ position (names_target "id") (ins_cols insert_orders) = Some idx /\
    ins_select insert_orders = Some (NSelectStmt sel) /\ sel_values sel <> [] /\
    forall row, row ∈ sel_values sel -> exists items n v sv w,
      row = Some (NList items) /\ items !! idx = Some (Some n) /\ key_val n = Some v /\
      value_of [] v = Some sv /\ coerce TInt sv = Some w /\ shard_of "xxhash64_v1" shards w = Some sh.
Proof.
  apply (insert_rows_on_their_shard insert_orders vschema shards orders "id" TInt "xxhash64_v1" (PSingleShard "b") [] ["b"]);
    vm_compute; reflexivity.
Defined.

Lemma planner_never_panics_witness :
  Forall is_Some (plan_all (mkParsed [KSelect] [Some (NSelectStmt select_orders)]) vschema shards) /\
  length (plan_all (mkParsed [KSelect] [Some (NSelectStmt select_orders)]) vschema shards) = 1%nat /\
  (forall p, Some p ∈ plan_all (mkParsed [KSelect] [Some (NSelectStmt select_orders)]) vschema shards ->
     plan_shards p ⊆ ShardCatalog.all shards) /\
  forall param values, exists p, resolve_bound param values shards = Some p /\ plan_shards p ⊆ ShardCatalog.all shards.
Proof.
  apply (planner_never_panics (mkParsed [KSelect] [Some (NSelectStmt select_orders)]) vschema shards).
  - split; [unfold shards; cbn [sc_shards]; repeat constructor; concrete|reflexivity].
  - apply map_Forall_singleton. split; [done|]. split; [done|]. split; [done|]. split; [vm_compute; reflexivity|constructor].
Defined.

End PlanExample.
