(* ===== verification/Router.v ===== *)
(** * The router snapshot

    [src/crates/pgshard-router/src/lib.rs]: building a routing snapshot from a
    topology, resolving plans to endpoints, and the task that swaps snapshots and
    renews the write lease as topologies and validations arrive; and
    [src/crates/pgshard-router/src/main.rs], the start of the process over the file
    watcher of the topology. *)

From S2P Require Import Prelude Rust Keyspace ShardFn VSchema Catalog Topo Sql Extract Plan.

Open Scope Z_scope.

(** ** Data *)

#[global] Abbreviation Endpoint := TopoInstance.

Inductive BuildError :=
| MissingShardKey (table : TableName)
| MissingShardKeyType (table : TableName)
| DuplicateShard (name : string)
| UnsupportedGates (n : nat)
| BuildVSchema (e : VSchemaError)
| BuildPartition (e : PartitionError).

Record Target := mkTarget { tg_endpoint : Endpoint; tg_database : string }.

Inductive Route :=
| RtShard (t : Target)
| RtScatter (ts : list Target)
| RtBroadcast (ts : list Target)
| RtSystem (ep : Endpoint)
| RtLocal
| RtNeedsBind (p : Parameterized)
| RtUnavailable (reason : string)
| RtReject (code reason : string).

(** The [BTreeMap] of primaries is a [gmap]; its iteration order is written out. *)
Record Router := mkRouter {
  ro_epoch : Z;
  ro_vschema : VSchema;
  ro_catalog : ShardCatalog;
  ro_primaries : gmap string (option Endpoint);
  ro_system : option Endpoint;
  ro_write_lease : Z;
}.

(** ** Building *)

Definition map_shard_key_type (t : ShardKeyType) : ScalarType :=
  match t with SKInt => TInt | SKText => TText | SKUuid => TUuid | SKBytea => TBytea end.

Definition table_def (topo : Topology) (name : TableName) (t : TableEntry) : result BuildError TableDef :=
  match te_table_type t with
  | TTGlobal => Ok Global
  | TTSharded =>
      shard_key_column ← ok_or (MissingShardKey name) (te_shard_key_column t);
      shard_key_type ← ok_or (MissingShardKeyType name) (map_shard_key_type <$> te_shard_key_type t);
      Ok (Sharded shard_key_column (Some shard_key_type) (t_hash_function topo)
            ((fun s => mkSequenceBinding (ts_column s) (ts_sequence s)) <$> te_sequences t))
  end.

Fixpoint insert_tables `{XxHash} (topo : Topology) (tables : list TableEntry) (vschema : VSchema)
    : result BuildError VSchema :=
  match tables with
  | [] => Ok vschema
  | t :: tables' =>
      let name := mkTableName (te_schema t) (te_name t) in
      def ← table_def topo name t;
      vschema' ← map_err BuildVSchema (VSchema.insert vschema name def);
      insert_tables topo tables' vschema'
  end.

Definition build_vschema `{XxHash} (topo : Topology) : result BuildError VSchema :=
  insert_tables topo (t_tables topo) VSchema.default.

(** The loop over the shards: their primaries and, in list order, the serving ranges. *)
Fixpoint collect_serving (shards : list ShardEntry) (primaries : gmap string (option Endpoint))
    : result BuildError (list (KeyRange * ShardId) * gmap string (option Endpoint)) :=
  match shards with
  | [] => Ok ([], primaries)
  | shard :: shards' =>
      if is_serving shard then
        match primaries !! se_name shard with
        | Some _ => Err (DuplicateShard (se_name shard))
        | None =>
            '(serving, primaries') ← collect_serving shards' (<[se_name shard := se_primary shard]> primaries);
            Ok ((se_key_range shard, se_name shard) :: serving, primaries')
        end
      else collect_serving shards' primaries
  end.

Definition le_start (a b : KeyRange * ShardId) : bool := kr_start a.1 <=? kr_start b.1.

Definition build `{XxHash} (topo : Topology) : result BuildError Router :=
  match t_gates topo with
  | [] =>
      vschema ← build_vschema topo;
      '(serving, primaries) ← collect_serving (t_shards topo) ∅;
      catalog ← map_err BuildPartition (ShardCatalog.new (sort_by le_start serving));
      Ok (mkRouter (t_epoch topo) vschema catalog primaries (t_sequence_endpoint topo)
            (t_write_lease_seconds topo * 1000000000))
  | gates => Err (UnsupportedGates (length gates))
  end.

(** ** Resolving *)

(** The connection target of a shard, or the unavailability. *)
Definition target (self : Router) (id : ShardId) : result Route Target :=
  match ro_primaries self !! (id : string) with
  | Some (Some ep) => Ok (mkTarget ep id)
  | Some None => Err (RtUnavailable ("shard " +:+ id +:+ " has no primary"))
  | None => Err (RtUnavailable ("shard " +:+ id +:+ " is not in the topology"))
  end.

Definition resolve_many (self : Router) (ids : list ShardId) (wrap : list Target -> Route) : Route :=
  match mapM (target self) ids with Ok targets => wrap targets | Err unavail => unavail end.

Definition resolve (self : Router) (plan : Plan) : Route :=
  match plan with
  | PSingleShard id => match target self id with Ok t => RtShard t | Err unavail => unavail end
  | PScatter ids => resolve_many self ids RtScatter
  | PBroadcast ids => resolve_many self ids RtBroadcast
  | PUnsharded =>
      match ro_system self with
      | Some ep => RtSystem ep
      | None => RtUnavailable "system database has no endpoint"
      end
  | PRouterLocal => RtLocal
  | PParameterized p => RtNeedsBind p
  | PReject code reason => RtReject code reason
  end.

(** [None] is a panic of the planner. *)
Definition route_parsed `{XxHash} `{PgQuery} (self : Router) (parsed : Parsed) : list (option Route) :=
  map (option_map (resolve self)) (plan_all parsed (ro_vschema self) (ro_catalog self)).

(** [BTreeMap::iter]: in key order. *)
Definition primaries_iter (self : Router) : list (string * option Endpoint) :=
  sort_by (fun a b => String.leb a.1 b.1) (map_to_list (ro_primaries self)).

Definition any_shard_target (self : Router) : option Target :=
  find_map (fun '(id, primary) => (fun ep => mkTarget ep id) <$> primary) (primaries_iter self).

(** ** The watch task *)

(** The shared router and freshness, and the task's two channel receivers: the
    latest value and whether a change is unseen. *)
Record Watch := mkWatch {
  wa_router : Router;
  wa_fresh : Stamp;
  wa_topology : Topology;
  wa_topology_unseen : bool;
  wa_validated : SourceValidation;
  wa_validated_unseen : bool;
}.

(** A validation announcement is consumed. *)
Definition on_validated (w : Watch) : Watch :=
  let stamp := wa_validated w in
  mkWatch (wa_router w)
    (if sv_epoch stamp =? ro_epoch (wa_router w) then Freshness.install stamp (wa_fresh w) else wa_fresh w)
    (wa_topology w) (wa_topology_unseen w) stamp false.

(** A topology is consumed: built and swapped in, or skipped. *)
Definition on_update `{XxHash} (w : Watch) : Watch :=
  match build (wa_topology w) with
  | Ok router =>
      let stamp := wa_validated w in
      mkWatch router
        (if sv_epoch stamp =? ro_epoch router then Freshness.install stamp (wa_fresh w) else wa_fresh w)
        (wa_topology w) false stamp (wa_validated_unseen w)
  | Err _ => mkWatch (wa_router w) (wa_fresh w) (wa_topology w) false (wa_validated w) (wa_validated_unseen w)
  end.

(** The task and its source: a poll publishes a strictly newer topology, then
    announces its validation; the task may consume the two in either order. *)
Inductive watch_step `{XxHash} : Watch -> Watch -> Prop :=
| ws_publish w t :
    t_epoch t > t_epoch (wa_topology w) ->
    watch_step w (mkWatch (wa_router w) (wa_fresh w) t true (wa_validated w) (wa_validated_unseen w))
| ws_announce w v :
    sv_epoch v <= t_epoch (wa_topology w) ->
    watch_step w (mkWatch (wa_router w) (wa_fresh w) (wa_topology w) (wa_topology_unseen w) v true)
| ws_on_validated w : wa_validated_unseen w = true -> watch_step w (on_validated w)
| ws_on_update w : wa_topology_unseen w = true -> watch_step w (on_update w).

(** ** Startup *)

Inductive StartError := SEBuild (e : BuildError) | SEPollInterval.

(** The start of the binary, over what the file watcher holds when the topology channel
    is subscribed ([w1]) and borrowed ([w2]), and when the validation channel is borrowed
    ([w3]) and subscribed ([w4]): the watcher polls beside it. A fresh subscription has
    seen the value it starts from. *)
Definition startup `{XxHash} (poll_seconds : Z) (w1 w2 w3 w4 : FileWatcher) : result StartError Watch :=
  router ← map_err SEBuild (build (fw_current w2));
  if poll_seconds * 1000000000 >=? ro_write_lease router then Err SEPollInterval
  else
    let initial_validation := fw_validated w3 in
    let freshness :=
      if sv_epoch initial_validation =? ro_epoch router then Freshness.seeded initial_validation
      else Freshness.unconfirmed in
    Ok (mkWatch router freshness (fw_current w4) (t_epoch (fw_current w4) >? t_epoch (fw_current w1))
          (fw_validated w4) false).

(** The watcher's two channels change one at a time: a validated candidate is applied,
    and a validation of a snapshot no newer than the current one is announced. *)
Inductive source_step `{XxHash} : FileWatcher -> FileWatcher -> Prop :=
| so_apply candidate w :
    validate candidate = Ok tt ->
    source_step w (mkFileWatcher (fst (apply candidate (fw_current w))) (fw_validated w))
| so_announce v w :
    sv_epoch v <= t_epoch (fw_current w) -> source_step w (mkFileWatcher (fw_current w) v).

(** ** Lemmas *)

Definition serving_entries (topo : Topology) : list ShardEntry := List.filter is_serving (t_shards topo).
Definition entry_of (s : ShardEntry) : KeyRange * ShardId := (se_key_range s, se_name s).

Lemma collect_serving_Ok shards : forall prim serving prim',
  collect_serving shards prim = Ok (serving, prim') ->
  serving = entry_of <$> List.filter is_serving shards /\
  NoDup (se_name <$> List.filter is_serving shards) /\
  (forall s, s ∈ List.filter is_serving shards -> prim !! se_name s = None /\ prim' !! se_name s = Some (se_primary s)) /\
  (forall n x, prim !! n = Some x -> prim' !! n = Some x).
Proof.
  induction shards as [|s shards IH]; intros prim serving prim' Hc; cbn [collect_serving List.filter] in *.
  - injection Hc as <- <-. split_and!; [done|constructor|set_solver|done].
  - destruct (is_serving s); [|by apply IH]. destruct (prim !! se_name s) eqn:Es; [done|].
    apply result_bind_Ok in Hc as ([sv p] & Hc & [= <- <-]). apply IH in Hc as (-> & Hnd & Hin & Hkeep).
    split_and!; [done| | |].
    + rewrite fmap_cons. constructor; [|done]. intros Hs. apply list_elem_of_fmap in Hs as (s' & Hn & Hs').
      destruct (Hin s' Hs') as [Hnone _]. by rewrite Hn, lookup_insert_eq in Hnone.
    + intros s' [->|Hs']%elem_of_cons; [split; [done|apply Hkeep, lookup_insert_eq]|].
      destruct (Hin s' Hs') as [Hnone Hp]. split; [|done]. apply lookup_insert_None in Hnone. tauto.
    + intros n x Hn. apply Hkeep. rewrite lookup_insert_ne; [done|]. intros Heq; rewrite <- Heq, Es in Hn; done.
Qed.

Section built.
  Context `{XxHash} (topo : Topology) (r : Router) (Hb : build topo = Ok r).

Lemma build_Ok : exists vs serving prim,
  t_gates topo = [] /\ build_vschema topo = Ok vs /\ collect_serving (t_shards topo) ∅ = Ok (serving, prim) /\
  ShardCatalog.new (sort_by le_start serving) = Ok (ro_catalog r) /\
  ro_vschema r = vs /\ ro_primaries r = prim /\ ro_epoch r = t_epoch topo.
Proof.
  unfold build in Hb. destruct (t_gates topo); [|done]. apply result_bind_Ok in Hb as (vs & Hvs & H1).
  apply result_bind_Ok in H1 as ([sv prim] & Hc & H1). apply result_bind_Ok in H1 as (cat & Hn & [= <-]).
  destruct (ShardCatalog.new _) as [c|] eqn:En; [|done]. injection Hn as <-. by exists vs, sv, prim.
Qed.

Lemma insert_tables_wf tables vs vs' :
  insert_tables topo tables vs = Ok vs' -> vschema_wf vs ->
  (forall t c k f q, VSchema.get vs t = Some (Sharded c k f q) -> is_Some k /\ f = t_hash_function topo) ->
  vschema_wf vs' /\ forall t c k f q, VSchema.get vs' t = Some (Sharded c k f q) -> is_Some k /\ f = t_hash_function topo.
Proof.
  revert vs. induction tables as [|t tables IH]; intros vs Hi Hwf Hty; cbn [insert_tables] in Hi; [by injection Hi as <-|].
  apply result_bind_Ok in Hi as (def & Hd & Hi). apply result_bind_Ok in Hi as (vs1 & Hv & Hi).
  destruct (VSchema.insert vs _ def) as [vs2|] eqn:Ei; [|done]. injection Hv as ->.
  destruct (insert_behaviour vs (mkTableName (te_schema t) (te_name t)) def Hwf) as [_ Hok].
  destruct (Hok _ Ei) as (Hwf1 & Hget & Hother).
  apply (IH _ Hi Hwf1). intros u c k f q Hu. destruct (decide (u = mkTableName (te_schema t) (te_name t))) as [->|Hne].
  - rewrite Hget in Hu. injection Hu as ->. unfold table_def in Hd. destruct (te_table_type t); [|done].
    apply result_bind_Ok in Hd as (c' & _ & Hd). apply result_bind_Ok in Hd as (k' & _ & [= <- <- <- <-]). by split.
  - rewrite Hother in Hu by done. by eapply Hty.
Qed.

Lemma build_vschema_wf :
  vschema_wf (ro_vschema r) /\
  forall t c k f q, VSchema.get (ro_vschema r) t = Some (Sharded c k f q) -> is_Some k /\ f = t_hash_function topo.
Proof.
  destruct build_Ok as (vs & sv & prim & _ & Hvs & _ & _ & -> & _).
  eapply insert_tables_wf; [exact Hvs|apply map_Forall_empty|]. intros t c k f q Hg.
  unfold VSchema.get, VSchema.default in Hg. cbn [vs_tables] in Hg. by rewrite lookup_empty in Hg.
Qed.

Context (Hranges : Forall (fun s => range_wf (se_key_range s)) (t_shards topo)).

Lemma build_catalog :
  catalog_wf (ro_catalog r) /\ sc_shards (ro_catalog r) ≡ₚ entry_of <$> serving_entries topo /\
  NoDup (se_name <$> serving_entries topo) /\
  forall s, s ∈ serving_entries topo -> ro_primaries r !! se_name s = Some (se_primary s).
Proof.
  destruct build_Ok as (vs & sv & prim & _ & _ & Hc & Hn & _ & -> & _).
  apply collect_serving_Ok in Hc as (-> & Hnd & Hp & _).
  apply new_catalog_wf in Hn as [Hwf Hs].
  - split_and!; [done|rewrite Hs; apply sort_by_perm|done|]. intros s Hs'. by apply Hp.
  - rewrite sort_by_perm. apply Forall_fmap, Forall_forall. intros s Hs. apply elem_of_filter_b in Hs as [Hs _].
    rewrite Forall_forall in Hranges. by apply Hranges.
Qed.

End built.

(** What [target] gives for a serving shard. *)
Definition entry_target (s : ShardEntry) : result Route Target :=
  match se_primary s with
  | Some ep => Ok (mkTarget ep (se_name s))
  | None => Err (RtUnavailable ("shard " +:+ se_name s +:+ " has no primary"))
  end.

Lemma target_entry `{XxHash} topo r s :
  build topo = Ok r -> Forall (fun s => range_wf (se_key_range s)) (t_shards topo) ->
  s ∈ serving_entries topo -> target r (se_name s) = entry_target s.
Proof.
  intros Hb Hr Hs. destruct (build_catalog topo r Hb Hr) as (_ & _ & _ & Hp).
  unfold target, entry_target. by rewrite (Hp s Hs); destruct (se_primary s).
Qed.

(** ** Properties *)

(** a built snapshot sends every keyspace id to its owner. Exactly one serving
    shard of the topology has the id in its range; the catalog routes the id to that
    shard's name and the resolved target is that shard's own primary and database,
    or the statement is unavailable when the shard has no primary. *)
Theorem route_reaches_owner `{XxHash} topo r id :
  Forall (fun s => range_wf (se_key_range s)) (t_shards topo) -> build topo = Ok r -> is_u64 id ->
  exists s, s ∈ t_shards topo /\ se_state s = Serving /\ KeyRange.contains (se_key_range s) id = true /\
    (forall s', s' ∈ t_shards topo -> se_state s' = Serving -> KeyRange.contains (se_key_range s') id = true -> s' = s) /\
    ShardCatalog.route (ro_catalog r) id = Some (se_name s) /\
    resolve r (PSingleShard (se_name s)) = match entry_target s with Ok t => RtShard t | Err u => u end.
Proof.
  intros Hr Hb Hid. destruct (build_catalog topo r Hb Hr) as (Hwf & Hperm & Hnd & _).
  destruct (catalog_route _ id Hwf Hid) as (i & kr & n & Hi & Hc & Hroute & Huniq).
  assert (Hent : forall s, s ∈ t_shards topo -> se_state s = Serving -> s ∈ serving_entries topo).
  { intros s Hs Hst. apply elem_of_filter_b. split; [done|]. by apply bool_decide_eq_true. }
  assert (Hin : (kr, n) ∈ entry_of <$> serving_entries topo) by (rewrite <- Hperm; by eapply list_elem_of_lookup_2).
  apply list_elem_of_fmap in Hin as (s & [= -> ->] & Hs).
  pose proof Hs as Hs'. apply elem_of_filter_b in Hs' as [Hs1 Hs2]. apply bool_decide_eq_true in Hs2.
  exists s. split_and!; [done|done|done| |done|].
  - intros s' Hs1' Hst' Hc'. pose proof (Hent _ Hs1' Hst') as Hin'.
    assert (entry_of s' ∈ sc_shards (ro_catalog r)) as Hcat by (rewrite Hperm; by apply list_elem_of_fmap_2).
    apply list_elem_of_lookup in Hcat as [j Hj]. rewrite (Huniq j _ _ Hj Hc') in Hj.
    assert (se_name s' = se_name s) as Hname by (rewrite Hi in Hj; by injection Hj).
    apply list_elem_of_lookup in Hs as [a Ha]. apply list_elem_of_lookup in Hin' as [b Hb'].
    assert (a = b) as ->; [|congruence].
    eapply (NoDup_lookup (se_name <$> serving_entries topo)); [done| |]; rewrite list_lookup_fmap, ?Ha, ?Hb'; [done|].
    cbn. by rewrite Hname.
  - cbn [resolve]. by rewrite (target_entry topo r s).
Qed.

(** a built snapshot never panics and never misses a shard. Every statement of
    every batch gets a route, and every shard a plan names is a serving shard of the
    topology whose target is that shard's own primary and database: the resolution
    "not in the topology" is unreachable. Sharded tables of a snapshot always have
    a key type, and a topology with gates is never built. *)
Theorem built_router_total `{XxHash} `{PgQuery} topo r parsed :
  Forall (fun s => range_wf (se_key_range s)) (t_shards topo) -> build topo = Ok r ->
  Forall is_Some (route_parsed r parsed) /\ t_gates topo = [] /\
  (forall t c k f q, VSchema.get (ro_vschema r) t = Some (Sharded c k f q) -> is_Some k /\ f = t_hash_function topo) /\
  forall p id, Some p ∈ plan_all parsed (ro_vschema r) (ro_catalog r) -> id ∈ plan_shards p ->
    exists s, s ∈ t_shards topo /\ se_state s = Serving /\ id = se_name s /\ target r id = entry_target s.
Proof.
  intros Hr Hb. destruct (build_vschema_wf topo r Hb) as [Hvs Hty]. destruct (build_catalog topo r Hb Hr) as (Hwf & Hperm & _ & _).
  split_and!; [| |done|].
  - unfold route_parsed. apply Forall_map, (Forall_impl is_Some); [by apply plan_all_total|]. intros o [p ->]. by eexists.
  - by destruct (build_Ok topo r Hb) as (_ & _ & _ & ? & _).
  - intros p id Hp Hid. apply (plan_all_known _ _ _ _ Hp) in Hid. unfold ShardCatalog.all in Hid.
    rewrite Hperm in Hid. apply list_elem_of_fmap in Hid as ([kr n] & -> & Hin).
    apply list_elem_of_fmap in Hin as (s & [= -> ->] & Hs). pose proof Hs as Hs'.
    apply elem_of_filter_b in Hs' as [Hs1 Hs2]. apply bool_decide_eq_true in Hs2.
    exists s. split_and!; [done..|]. by eapply target_entry.
Qed.

(** ** The write lease *)

(** The confirmation last announced is installed, if the task has consumed it and it
    confirms the active snapshot. *)
Definition installed (w : Watch) : Prop :=
  wa_validated_unseen w = false -> sv_epoch (wa_validated w) = ro_epoch (wa_router w) ->
  sv_boot (wa_validated w) <= st_boot (wa_fresh w).

(** The lease is unconfirmed, or confirmed by a validation no newer than the active snapshot. *)
Definition confirmed (w : Watch) : Prop :=
  wa_fresh w = Freshness.unconfirmed \/
  exists v, wa_fresh w = Freshness.seeded v /\ sv_epoch v <= ro_epoch (wa_router w).

Definition watch_ok `{XxHash} (w : Watch) : Prop :=
  ro_epoch (wa_router w) <= t_epoch (wa_topology w) /\
  (wa_topology_unseen w = false -> forall r, build (wa_topology w) = Ok r -> wa_router w = r).

Lemma build_epoch `{XxHash} topo r : build topo = Ok r -> ro_epoch r = t_epoch topo.
Proof. intros Hb. by destruct (build_Ok topo r Hb) as (_ & _ & _ & _ & _ & _ & _ & _ & _ & ?). Qed.

Lemma install_boot v f : sv_boot v <= st_boot (Freshness.install v f) /\ st_boot f <= st_boot (Freshness.install v f).
Proof. unfold Freshness.install. destruct (_ >? _) eqn:E; cbn; lia. Qed.

Lemma watch_step_inv `{XxHash} w w' : watch_step w w' -> watch_ok w -> watch_ok w' /\ (installed w -> installed w').
Proof.
  intros Hs (He & Hr). destruct Hs as [w t Ht|w v Hv|w Hu|w Hu]; unfold watch_ok, installed in *;
    cbn [wa_router wa_fresh wa_topology wa_topology_unseen wa_validated wa_validated_unseen].
  - split_and!; [lia|done|done].
  - split_and!; done.
  - cbn [on_validated wa_router wa_fresh wa_topology wa_topology_unseen wa_validated wa_validated_unseen].
    split_and!; [done|done|]. intros _ _ Heq. rewrite (proj2 (Z.eqb_eq _ _) Heq). apply install_boot.
  - unfold on_update. destruct (build (wa_topology w)) as [r|] eqn:Eb;
      cbn [wa_router wa_fresh wa_topology wa_topology_unseen wa_validated wa_validated_unseen].
    + split_and!; [by rewrite (build_epoch _ _ Eb)|by rewrite Eb; intros _ ? [= ->]|].
      intros _ _ Heq. rewrite (proj2 (Z.eqb_eq _ _) Heq). apply install_boot.
    + split_and!; [done|by rewrite Eb|done].
Qed.

(** A validation that is not installed is the one that was not to begin with. *)
Lemma watch_step_lost `{XxHash} w w' v : watch_step w w' -> watch_ok w ->
  installed w \/ wa_validated w = v -> installed w' \/ wa_validated w' = v.
Proof.
  intros Hs Hok [Hi|<-]; [left; by apply (watch_step_inv w w' Hs Hok)|]. destruct Hs as [w t Ht|w u Hv|w Hu|w Hu]; [by right|left; done|by right|].
  unfold on_update. destruct (build (wa_topology w)); by right.
Qed.

Lemma watch_step_epoch `{XxHash} w w' : watch_step w w' -> watch_ok w -> ro_epoch (wa_router w) <= ro_epoch (wa_router w').
Proof.
  intros Hs [He _]. destruct Hs as [w t Ht|w v Hv|w Hu|w Hu]; cbn [wa_router on_validated]; try lia.
  unfold on_update. destruct (build (wa_topology w)) as [r|] eqn:Eb; cbn [wa_router]; [|lia]. by rewrite (build_epoch _ _ Eb).
Qed.

(** A poll is an application and then an announcement. *)
Lemma poll_source_steps `{XxHash} from_slice clocks read w : rtc source_step w (poll from_slice clocks read w).
Proof.
  unfold poll. destruct clocks as [c|]; [|done]. destruct (load from_slice read) as [t|] eqn:El; [|done].
  eapply rtc_l; [apply (so_apply t); by eapply load_valid|]. eapply rtc_l; [|done].
  apply (so_announce (stamp c (t_epoch t))). cbn. unfold apply. destruct (_ >? _) eqn:E; cbn; lia.
Qed.

(** What a poll does to the channels of a task that follows the watcher. *)
Lemma source_watch_step `{XxHash} fw fw' w :
  source_step fw fw' -> wa_topology w = fw_current fw -> wa_validated w = fw_validated fw ->
  exists w', rtc watch_step w w' /\ wa_topology w' = fw_current fw' /\ wa_validated w' = fw_validated fw' /\
    wa_router w' = wa_router w /\ wa_fresh w' = wa_fresh w.
Proof.
  intros [candidate fw0 Hv|v fw0 Hv] Ht Hva.
  - unfold apply. destruct (_ >? _) eqn:E; cbn; [|by exists w].
    eexists. split; [apply rtc_once, (ws_publish w candidate); rewrite Ht; lia|done].
  - eexists. split; [apply rtc_once, (ws_announce w v); by rewrite Ht|done].
Qed.

Lemma source_steps_epoch `{XxHash} w w' : rtc source_step w w' ->
  t_epoch (fw_current w) <= t_epoch (fw_current w') /\
  (t_epoch (fw_current w') <= t_epoch (fw_current w) -> fw_current w' = fw_current w).
Proof.
  induction 1 as [|w w1 w2 Hs _ [IH1 IH2]]; [done|].
  destruct Hs as [t w Hv|v w Hv]; cbn [fw_current] in *; [|done].
  unfold apply in *. destruct (_ >? _) eqn:E; cbn [fst] in *; [|done]. split; [lia|]. intros ?. lia.
Qed.

Lemma startup_Ok `{XxHash} ps w1 w2 w3 w4 w : startup ps w1 w2 w3 w4 = Ok w ->
  rtc source_step w1 w2 -> rtc source_step w2 w3 -> rtc source_step w3 w4 ->
  build (fw_current w2) = Ok (wa_router w) /\ ps * 1000000000 < ro_write_lease (wa_router w) /\
  ro_epoch (wa_router w) <= t_epoch (wa_topology w) /\
  (wa_topology_unseen w = false -> forall r, build (wa_topology w) = Ok r -> wa_router w = r) /\
  (fw_validated w4 = fw_validated w3 -> installed w) /\ confirmed w.
Proof.
  unfold startup. intros Hs H12 H23 H34. destruct (build (fw_current w2)) as [r|] eqn:Eb; [|done]. cbn in Hs.
  destruct (_ >=? _) eqn:El; [done|]. injection Hs as <-. unfold installed, confirmed.
  cbn [wa_router wa_fresh wa_topology wa_topology_unseen wa_validated wa_validated_unseen].
  destruct (source_steps_epoch _ _ H12) as [? Heq]. assert (rtc source_step w2 w4) as H24 by by etrans.
  destruct (source_steps_epoch _ _ H24) as [? Heq'].
  split_and!; [done|lia|by rewrite (build_epoch _ _ Eb)| | |].
  - intros ?. rewrite Heq' by lia. rewrite Eb. by intros ? [= ->].
  - intros -> _ ->. by rewrite Z.eqb_refl.
  - destruct (_ =? _) eqn:E; [right|by left]. eexists. split; [done|lia].
Qed.

Lemma watch_step_confirmed `{XxHash} w w' : watch_step w w' -> ro_epoch (wa_router w) <= t_epoch (wa_topology w) ->
  confirmed w -> confirmed w'.
Proof.
  unfold confirmed, Freshness.install. intros Hs He Hc. destruct Hs as [w t Ht|w v Hv|w Hu|w Hu]; [done|done| |].
  - cbn [on_validated wa_router wa_fresh]. unfold Freshness.install. repeat case_match; [|done..]. right.
    eexists. split; [done|lia].
  - unfold on_update, Freshness.install. destruct (build (wa_topology w)) as [r|] eqn:Eb; [|done].
    cbn [wa_router wa_fresh]. rewrite (build_epoch _ _ Eb).
    assert (wa_fresh w = Freshness.unconfirmed \/
      exists v, wa_fresh w = Freshness.seeded v /\ sv_epoch v <= t_epoch (wa_topology w)) as Hc'.
    { destruct Hc as [?|(v & ? & ?)]; [by left|right]. exists v. split; [done|lia]. }
    repeat case_match; [|done..]. right. eexists. split; [done|lia].
Qed.

(** A step that changes the lease installs a validation of the epoch then active. *)
Lemma watch_step_renews `{XxHash} w w' : watch_step w w' -> wa_fresh w' <> wa_fresh w ->
  wa_fresh w' = Freshness.seeded (wa_validated w') /\ sv_epoch (wa_validated w') = ro_epoch (wa_router w').
Proof.
  intros Hs Hne. destruct Hs as [w t Ht|w v Hv|w Hu|w Hu]; [done|done| |].
  - cbn [on_validated wa_router wa_fresh wa_validated] in *. destruct (_ =? _) eqn:E; [|done].
    unfold Freshness.install in *. destruct (_ >? _); [|done]. split; [done|lia].
  - unfold on_update in *. destruct (build (wa_topology w)) as [r|]; [|done]. cbn [wa_router wa_fresh wa_validated] in *.
    destruct (_ =? _) eqn:E; [|done]. unfold Freshness.install in *. destruct (_ >? _); [|done]. split; [done|lia].
Qed.


(** ** Witnesses *)

Module RouterExample.

#[local] Existing Instance be_hash.
#[local] Existing Instance PlanExample.plain_query.

Definition node (host : string) : Endpoint := mkTopoInstance "pod" host 5432 true.

(** Two serving shards, listed out of keyspace order, one of them without a primary. *)
Definition topo : Topology :=
  mkTopology 3 1 10 "xxhash64_v1"
    [mkShardEntry "b" (mkKeyRange 128 None) Serving (Some (node "nb")) []; mkShardEntry "a" (mkKeyRange 0 (Some 128)) Serving None []]
    [mkTableEntry "public" "orders" TTSharded (Some "id") (Some SKInt) []] [] (Some (node "sys")).

Definition router : Router :=
  match build topo with Ok r => r | Err _ => mkRouter 0 VSchema.default (mkShardCatalog []) ∅ None 0 end.

(** A watcher that has read this topology, and the process it starts. *)
Definition watcher : FileWatcher := mkFileWatcher topo (mkSourceValidation 3 7 9).
Definition watch : Watch :=
  mkWatch router (Freshness.seeded (mkSourceValidation 3 7 9)) topo false (mkSourceValidation 3 7 9) false.

Lemma route_reaches_owner_witness :
  exists s, s ∈ t_shards topo /\ se_state s = Serving /\ KeyRange.contains (se_key_range s) 200 = true /\
    (forall s', s' ∈ t_shards topo -> se_state s' = Serving -> KeyRange.contains (se_key_range s') 200 = true -> s' = s) /\
    ShardCatalog.route (ro_catalog router) 200 = Some (se_name s) /\
    resolve router (PSingleShard (se_name s)) = match entry_target s with Ok t => RtShard t | Err u => u end.
Proof.
  apply (route_reaches_owner topo router 200); [repeat constructor; concrete|vm_compute; reflexivity|concrete].
Defined.

Lemma built_router_total_witness :
  Forall is_Some (route_parsed router (parsed_of [Some (NSelectStmt PlanExample.select_orders)])) /\ t_gates topo = [] /\
  (forall t c k f q, VSchema.get (ro_vschema router) t = Some (Sharded c k f q) -> is_Some k /\ f = t_hash_function topo) /\
  forall p id, Some p ∈ plan_all (parsed_of [Some (NSelectStmt PlanExample.select_orders)]) (ro_vschema router) (ro_catalog router) ->
    id ∈ plan_shards p ->
    exists s, s ∈ t_shards topo /\ se_state s = Serving /\ id = se_name s /\ target router id = entry_target s.
Proof.
  apply (built_router_total topo router (parsed_of [Some (NSelectStmt PlanExample.select_orders)]));
    [repeat constructor; concrete|vm_compute; reflexivity].
Defined.


(** The lost validation: announced between the two reads, it does not renew the lease, and the
    task does not see it. *)
Example startup_loses_validation :
  let later := mkFileWatcher topo (mkSourceValidation 3 8 10) in
  source_step watcher later /\
  exists w, startup 5 watcher watcher watcher later = Ok w /\ ~ installed w /\ wa_validated_unseen w = false.
Proof.
  intros later. split; [apply (so_announce (mkSourceValidation 3 8 10) watcher); vm_compute; discriminate|].
  eexists. split; [reflexivity|]. split; [|reflexivity]. intros Hi. specialize (Hi eq_refl eq_refl). vm_compute in Hi. by apply Hi.
Qed.

End RouterExample.
