(* ===== verification/Wire.v ===== *)
(** * The wire frontend of the router

    [src/crates/pgshard-router/src/wire.rs]: what the proxy does with a simple
    query, from the parse to the responses. The backend and the sequence allocator
    are parameters: the answer of every request, and the id of every draw. A
    handler returns the requests it sent, in order, along with its result. A message
    that ends in the text of an underlying error is kept up to that text. *)

From S2P Require Import Prelude Rust Seq Keyspace ShardFn VSchema Catalog Topo Merge Backend Sql Extract Inject Plan Router.

Open Scope Z_scope.

(** ** Responses *)

Record Tag := mkTag { tag_command : string; tag_rows : option nat }.

Inductive Response :=
| RQuery (schema : list FieldInfo) (rows : list (list ascii)) (command_tag : option string)
| RExecution (tag : Tag)
| REmptyQuery.

Definition user_error (code message : string) : PgWireError := mkPgWireError code message.

Definition rows_response (schema : list FieldInfo) (rows : list (list ascii)) (command_tag : option string) : Response :=
  RQuery schema rows command_tag.

Definition response_from (r : BackendResult) : Response :=
  match r with
  | BRows schema rows command_tag => rows_response schema rows command_tag
  | BCommand tag => RExecution (mkTag tag None)
  | BEmpty => REmptyQuery
  end.

(** ** Statement classes *)

Definition is_transaction_control (parsed : Parsed) : bool :=
  existsb (fun s => match s with KTxnBegin | KTxnCommit | KTxnRollback | KTxnOther => true | _ => false end)
    (pa_statements parsed).

Definition is_write (parsed : Parsed) : bool :=
  existsb (fun s => match s with KInsert | KUpdate | KDelete | KDdl | KMerge | KCopy | KOther => true | _ => false end)
    (pa_statements parsed).

(** ** Scatter classification *)

Inductive ScatterPlan := SPConcat | SPOrdered (keys : list SortKey) | SPUnsupported.

Definition sort_column (node : option NodeEnum) : option SortColumn :=
  match node with
  | Some (NColumnRef [Some (NString s)]) => Some (SCName s)
  | Some (NAConst _ (Some (Ival i))) => if 1 <=? i then Some (SCPosition (Z.to_nat i)) else None
  | _ => None
  end.

Definition nulls_first (nulls : SortByNulls) (descending : bool) : bool :=
  match nulls with SortbyNullsFirst => true | SortbyNullsLast => false | SortbyNullsDefault => descending end.

Definition is_plain_column_target (node : option NodeEnum) : bool :=
  match node with Some (NResTarget _ (Some (NColumnRef _))) => true | _ => false end.

(** The plain-projection gate. *)
Definition plain_select (s : SelectStmt) : bool :=
  let c := sel_clauses s in
  bool_decide (sel_op s = SetopNone) && negb (bool_decide (is_Some (sel_with s))) && negb (sel_into s)
  && negb (sc_locking c) && negb (sc_group c) && negb (sc_having c) && negb (sc_distinct c) && negb (sc_group_distinct c)
  && negb (sc_limit_count c) && negb (sc_limit_offset c)
  && negb (bool_decide (length (sel_targets s) = O)) && forallb is_plain_column_target (sel_targets s).

(** The loop over the [ORDER BY] items. *)
Fixpoint sort_keys (items : list (option NodeEnum)) : option (list SortKey) :=
  match items with
  | [] => Some []
  | Some (NSortBy node dir nulls) :: items' =>
      match dir with
      | SortbyUsing => None
      | _ =>
          column ← sort_column node;
          let descending := match dir with SortbyDesc => true | _ => false end in
          keys ← sort_keys items';
          Some (mkSortKey column descending (nulls_first nulls descending) :: keys)
      end
  | _ :: _ => None
  end.

Definition classify_scatter `{PgParser} (query : string) : ScatterPlan :=
  match pg_parse query with
  | Ok [Some (NSelectStmt select)] =>
      if negb (plain_select select) then SPUnsupported
      else match sel_sort select with
           | [] => SPConcat
           | items => match sort_keys items with Some keys => SPOrdered keys | None => SPUnsupported end
           end
  | _ => SPUnsupported
  end.

(** ** Merging the answers of a scatter *)

Definition field_match (x y : FieldInfo) : bool :=
  bool_decide (fi_name x = fi_name y) && (fi_datatype x =? fi_datatype y) && bool_decide (fi_format x = fi_format y).

Definition schemas_match (a b : list FieldInfo) : bool :=
  bool_decide (length a = length b) && forallb (fun p => field_match p.1 p.2) (zip a b).

Definition schema_mismatch : PgWireError :=
  user_error "0A000" "shards returned different result schemas; a schema change may be mid-rollout".

(** The accumulated schema and rows. *)
Definition Gathered : Type := option (list FieldInfo) * list (list ascii).

(** The loop over one shard's results. *)
Fixpoint gather_shard (outs : list BackendResult) (acc : Gathered) : result PgWireError Gathered :=
  match outs with
  | [] => Ok acc
  | BRows shard_schema shard_rows _ :: outs' =>
      match acc.1 with
      | None => gather_shard outs' (Some shard_schema, acc.2 ++ shard_rows)
      | Some first =>
          if schemas_match first shard_schema then gather_shard outs' (Some first, acc.2 ++ shard_rows)
          else Err schema_mismatch
      end
  | _ :: outs' => gather_shard outs' acc
  end.

(** The loop over the shards. *)
Fixpoint gather (results : list (result PgWireError (list BackendResult))) (acc : Gathered) : result PgWireError Gathered :=
  match results with
  | [] => Ok acc
  | r :: results' => outs ← r; acc' ← gather_shard outs acc; gather results' acc'
  end.

(** ** The proxy *)

Record Request := mkRequest { rq_endpoint : Endpoint; rq_database : string; rq_query : string; rq_read_only : bool }.

(** The allocator's state is of type [A]; [None] is a proxy without sequences. *)
Record Proxy (A : Type) := mkProxy {
  px_system_database : string;
  px_seq : option (string -> A -> A * result SeqError Z);
  px_freshness : option Stamp;
}.
Arguments mkProxy {A}.
Arguments px_system_database {A}.
Arguments px_seq {A}.
Arguments px_freshness {A}.

(** One id per row: the draws stop at the first failure. *)
Fixpoint draw {A} (next_id : string -> A -> A * result SeqError Z) (sequence : string) (rows : nat) (a : A)
    : A * result SeqError (list Z) :=
  match rows with
  | O => (a, Ok [])
  | S rows' =>
      match next_id sequence a with
      | (a1, Err e) => (a1, Err e)
      | (a1, Ok id) =>
          match draw next_id sequence rows' a1 with
          | (a2, Err e) => (a2, Err e)
          | (a2, Ok ids) => (a2, Ok (id :: ids))
          end
      end
  end.

Fixpoint draw_columns {A} (next_id : string -> A -> A * result SeqError Z) (rows : nat) (injections : list SequenceInjection)
    (a : A) : A * result SeqError (list InjectedColumn) :=
  match injections with
  | [] => (a, Ok [])
  | inj :: rest =>
      match draw next_id (si_sequence inj) rows a with
      | (a1, Err e) => (a1, Err e)
      | (a1, Ok ids) =>
          match draw_columns next_id rows rest a1 with
          | (a2, Err e) => (a2, Err e)
          | (a2, Ok columns) => (a2, Ok (mkInjectedColumn (si_column inj) ids :: columns))
          end
      end
  end.

Section proxy.
  Context `{XxHash} `{PgQuery} `{PgParser} {A : Type}.
  (** The backend's answer to a request, and the texts of the errors it is wrapped in. *)
  Context (ask : Request -> result PgWireError (list BackendResult)).

(** The new SQL, or [None] when nothing needs injecting. *)
Definition inject_sequences (px : Proxy A) (router : Router) (parsed : Parsed) (a : A)
    : A * result PgWireError (option string) :=
  match pa_stmts parsed with
  | Some node :: _ =>
      match insert_sequence_injections node (ro_vschema router) with
      | [] => (a, Ok None)
      | injections =>
          match px_seq px with
          | None => (a, Err (user_error "55000" "cannot allocate sequence ids: the router has no system database"))
          | Some next_id =>
              match draw_columns next_id (value_row_count node) injections a with
              | (a', Err e) => (a', Err (user_error "55000" "sequence allocation failed: "))
              | (a', Ok columns) =>
                  (a', match rewrite_insert pg_deparse parsed columns with
                       | Ok sql => Ok (Some sql)
                       | Err e => Err (user_error "XX000" "could not inject sequence ids: ")
                       end)
              end
          end
      end
  | _ => (a, Ok None)
  end.

Definition run_on (endpoint : Endpoint) (database query : string) (read_only : bool)
    : list Request * result PgWireError (list Response) :=
  let rq := mkRequest endpoint database query read_only in ([rq], results ← ask rq; Ok (map response_from results)).

Definition scatter_requests (targets : list Target) (query : string) (read_only : bool) : list Request :=
  (fun t => mkRequest (tg_endpoint t) (tg_database t) query read_only) <$> targets.

(** [collect_scatter]: every target is asked, then the answers are gathered in order. *)
Definition collect_scatter (targets : list Target) (query : string) (read_only : bool)
    : list Request * result PgWireError (option (list FieldInfo * list (list ascii))) :=
  let rqs := scatter_requests targets query read_only in
  (rqs, match gather (map ask rqs) (None, []) with
        | Ok (schema, rows) => Ok (option_map (fun schema => (schema, rows)) schema)
        | Err e => Err e
        end).

Definition run_scatter (targets : list Target) (query : string) (read_only : bool)
    : list Request * result PgWireError (list Response) :=
  let '(rqs, r) := collect_scatter targets query read_only in
  (rqs, o ← r; match o with
               | Some (schema, rows) => Ok [rows_response schema rows None]
               | None => Ok [RExecution (mkTag "SELECT" (Some O))]
               end).

Definition run_ordered_scatter (targets : list Target) (query : string) (keys : list SortKey) (read_only : bool)
    : list Request * result PgWireError (list Response) :=
  let '(rqs, r) := collect_scatter targets query read_only in
  (rqs, o ← r; match o with
               | Some (schema, rows) => merged ← merge_ordered schema rows keys; Ok [rows_response schema merged None]
               | None => Ok [RExecution (mkTag "SELECT" (Some O))]
               end).

(** [Duration::as_secs], printed. *)
Definition show_secs (nanos : Z) : string := show_param (nanos / 1000000000).

Definition lease_expired (age lease : Z) : PgWireError :=
  user_error "57P01" ("write lease expired: topology last confirmed " +:+ show_secs age +:+ "s ago (limit " +:+ show_secs lease
                      +:+ "s); refusing writes until the view refreshes").

(** The write lease: whether the view is stale, or the refusal of a write. *)
Definition lease_check (px : Proxy A) (router : Router) (parsed : Parsed) (wall_now : Z) (boot_now : option Z)
    : result PgWireError bool :=
  match px_freshness px with
  | Some freshness =>
      let age := Freshness.age wall_now boot_now freshness in
      let lease := ro_write_lease router in
      if age >? lease then
        if is_write parsed then Err (lease_expired age lease)
        else Ok true
      else Ok false
  | None => Ok false
  end.

Definition dispatch (px : Proxy A) (router : Router) (parsed : Parsed) (route : Route) (query : string)
    (wall_now : Z) (boot_now : option Z) (a : A) : A * (list Request * result PgWireError (list Response)) :=
  match lease_check px router parsed wall_now boot_now with
  | Err e => (a, ([], Err e))
  | Ok stale =>
      match route with
      | RtShard t =>
          match inject_sequences px router parsed a with
          | (a', Err e) => (a', ([], Err e))
          | (a', Ok injected) => (a', run_on (tg_endpoint t) (tg_database t) (default query injected) stale)
          end
      | RtSystem ep => (a, run_on ep (px_system_database px) query stale)
      | RtLocal =>
          (a, if is_transaction_control parsed then
                ([], Err (user_error "0A000" "transactions are not supported by this router version"))
              else match any_shard_target router with
                   | Some t => run_on (tg_endpoint t) (tg_database t) query stale
                   | None => ([], Err (user_error "57P01" "no serving shard primary is available to run this statement"))
                   end)
      | RtReject code reason => (a, ([], Err (user_error code reason)))
      | RtUnavailable reason => (a, ([], Err (user_error "57P01" reason)))
      | RtScatter targets =>
          (a, match classify_scatter query with
              | SPConcat => run_scatter targets query stale
              | SPOrdered keys => run_ordered_scatter targets query keys stale
              | SPUnsupported =>
                  ([], Err (user_error "0A000" "this scatter read needs limiting or aggregation that is not supported yet"))
              end)
      | RtBroadcast _ => (a, ([], Err (user_error "0A000" "broadcast (multi-shard DDL) is not supported yet")))
      | RtNeedsBind _ => (a, ([], Err (user_error "0A000" "parameterized queries require the extended protocol")))
      end
  end.

(** [do_query]; [None] is a panic of the planner. *)
Definition do_query (px : Proxy A) (router : Router) (query : string) (wall_now : Z) (boot_now : option Z) (a : A)
    : option (A * (list Request * result PgWireError (list Response))) :=
  match parse query with
  | Err _ => Some (a, ([], Err (user_error "42601" "could not parse query: ")))
  | Ok parsed =>
      routes ← mapM (M := option) id (route_parsed router parsed);
      Some match routes with
           | [] => (a, ([], Ok [REmptyQuery]))
           | [route] => dispatch px router parsed route query wall_now boot_now a
           | _ => (a, ([], Err (user_error "0A000" "multi-statement simple queries are not supported yet")))
           end
  end.

End proxy.

(** ** Specification: the union of the shards' tables *)

(** The row sets among the results of a shard. *)
Definition tables_of (outs : list BackendResult) : list (list FieldInfo * list (list ascii)) :=
  omap (fun r => match r with BRows schema rows _ => Some (schema, rows) | _ => None end) outs.

(** All tables have the shape of the first. *)
Definition tables_agree (ts : list (list FieldInfo * list (list ascii))) : bool :=
  match ts with [] => true | t :: rest => forallb (fun u => schemas_match t.1 u.1) rest end.

Definition tables_union (ts : list (list FieldInfo * list (list ascii))) : Gathered :=
  (fst <$> head ts, concat (snd <$> ts)).

(** ** Lemmas: gathering *)

Lemma tables_agree_app ts us : tables_agree (ts ++ us) = true -> tables_agree ts = true.
Proof. destruct ts as [|t ts]; [done|]. cbn [app tables_agree]. rewrite forallb_app. by intros [? _]%andb_true_iff. Qed.

Lemma tables_union_snoc ts schema rows :
  tables_union (ts ++ [(schema, rows)]) = (Some (default schema (tables_union ts).1), (tables_union ts).2 ++ rows).
Proof.
  unfold tables_union. rewrite fmap_app, concat_app. cbn [fmap list_fmap concat snd]. rewrite app_nil_r. by destruct ts.
Qed.

Lemma tables_agree_snoc ts schema rows :
  tables_agree ts = true ->
  tables_agree (ts ++ [(schema, rows)]) = match (tables_union ts).1 with Some first => schemas_match first schema | None => true end.
Proof.
  destruct ts as [|t ts]; [done|]. cbn [app tables_agree tables_union fst head fmap option_fmap option_map]. intros Ht.
  rewrite forallb_app, Ht. cbn. by rewrite andb_true_r.
Qed.

Lemma gather_shard_spec outs : forall ts,
  tables_agree ts = true ->
  gather_shard outs (tables_union ts) =
  if tables_agree (ts ++ tables_of outs) then Ok (tables_union (ts ++ tables_of outs)) else Err schema_mismatch.
Proof.
  induction outs as [|o outs IH]; intros ts Ht; cbn [gather_shard tables_of omap list_omap]; [by rewrite app_nil_r, Ht|].
  destruct o as [schema rows tag|tag|]; [|by apply IH..]. fold (tables_of outs).
  pose proof (tables_agree_snoc ts schema rows Ht) as Ha. pose proof (tables_union_snoc ts schema rows) as Hu.
  replace (ts ++ (schema, rows) :: tables_of outs) with ((ts ++ [(schema, rows)]) ++ tables_of outs) by by rewrite <- app_assoc.
  destruct (tables_union ts).1 as [first|]; cbn [default from_option id] in *.
  - destruct (schemas_match first schema); [rewrite <- Hu; by apply IH|].
    destruct (tables_agree ((ts ++ _) ++ _)) eqn:E; [|done]. apply tables_agree_app in E. congruence.
  - rewrite <- Hu. by apply IH.
Qed.

(** Gathering succeeds exactly when every shard answered and all tables agree. *)
Lemma gather_spec results : forall ts g,
  tables_agree ts = true ->
  gather results (tables_union ts) = Ok g <->
  exists outs, results = map Ok outs /\ tables_agree (ts ++ tables_of (concat outs)) = true /\
    g = tables_union (ts ++ tables_of (concat outs)).
Proof.
  induction results as [|r results IH]; intros ts g Ht; cbn [gather].
  - rewrite <- (app_nil_r ts) at 1. split; [intros [= <-]; exists []; rewrite !app_nil_r; done|].
    intros (outs & Ho & _ & ->). destruct outs; [|done]. by rewrite !app_nil_r.
  - split.
    + intros Hg. apply result_bind_Ok in Hg as (outs & -> & Hg). rewrite gather_shard_spec in Hg by done.
      destruct (tables_agree (ts ++ tables_of outs)) eqn:Ha; [|done]. apply (IH _ _ Ha) in Hg as (rest & -> & Ha' & ->).
      exists (outs :: rest). cbn [map concat]. unfold tables_of in *. rewrite omap_app, app_assoc. done.
    + intros (outs & Ho & Ha & ->). destruct outs as [|o outs]; [done|]. injection Ho as -> ->. cbn [concat] in *.
      unfold tables_of in Ha. rewrite omap_app, app_assoc in Ha. fold (tables_of o) in Ha.
      cbn [mbind result_bind]. rewrite gather_shard_spec, (tables_agree_app _ _ Ha) by done. cbn [mbind result_bind].
      apply IH; [by eapply tables_agree_app|]. exists outs. unfold tables_of. by rewrite omap_app, app_assoc.
Qed.

(** ** Lemmas: ids *)

(** The draws of a run of the allocator: the sequence and the id of each. *)
Inductive drawn {A} (next_id : string -> A -> A * result SeqError Z) : list (string * Z) -> A -> A -> Prop :=
| drawn_nil a : drawn next_id [] a a
| drawn_cons sequence id l a a1 a2 :
    next_id sequence a = (a1, Ok id) -> drawn next_id l a1 a2 -> drawn next_id ((sequence, id) :: l) a a2.

(** The ids of a column, as draws from its sequence. *)
Definition column_draws (sequence : string) (ids : list Z) : list (string * Z) := pair sequence <$> ids.

Section draws.
  Context {A : Type} (next_id : string -> A -> A * result SeqError Z).

Lemma drawn_app l1 l2 a a1 a2 : drawn next_id l1 a a1 -> drawn next_id l2 a1 a2 -> drawn next_id (l1 ++ l2) a a2.
Proof. induction 1; [done|]. intros Hd. eapply drawn_cons; [done|by auto]. Qed.

Lemma draw_Ok sequence rows : forall a a' ids,
  draw next_id sequence rows a = (a', Ok ids) -> length ids = rows /\ drawn next_id (column_draws sequence ids) a a'.
Proof.
  induction rows as [|rows IH]; intros a a' ids; cbn [draw]; [intros [= <- <-]; split; [done|constructor]|].
  destruct (next_id sequence a) as [a1 [id|]] eqn:En; [|done]. destruct (draw _ _ rows a1) as [a2 [l|]] eqn:Ed; [|done].
  intros [= <- <-]. destruct (IH _ _ _ Ed) as [Hl Hd]. split; [cbn; by rewrite Hl|]. by eapply drawn_cons.
Qed.

Lemma draw_columns_Ok rows injections : forall a a' columns,
  draw_columns next_id rows injections a = (a', Ok columns) ->
  ij_column <$> columns = si_column <$> injections /\ Forall (fun c => length (ij_ids c) = rows) columns /\
  drawn next_id (concat (zip_with (fun inj c => column_draws (si_sequence inj) (ij_ids c)) injections columns)) a a'.
Proof.
  induction injections as [|inj injections IH]; intros a a' columns; cbn [draw_columns].
  { intros [= <- <-]. split_and!; [done|constructor|constructor]. }
  destruct (draw _ _ rows a) as [a1 [ids|]] eqn:Ed; [|done].
  destruct (draw_columns _ rows injections a1) as [a2 [cs|]] eqn:Ec; [|done]. intros [= <- <-].
  destruct (draw_Ok _ _ _ _ _ Ed) as [Hl Hd]. destruct (IH _ _ _ Ec) as (Hc & Hf & Hds).
  split_and!; [by rewrite !fmap_cons, Hc|by constructor|]. cbn [zip_with concat]. by eapply drawn_app.
Qed.

End draws.

(** ** Properties *)

Section props.
  Context `{XxHash} `{PgQuery} `{PgParser} {A : Type}.
  Context (ask : Request -> result PgWireError (list BackendResult)).

Lemma collect_scatter_Ok targets query ro o :
  (collect_scatter ask targets query ro).2 = Ok o <->
  exists outs, map ask (scatter_requests targets query ro) = map Ok outs /\ tables_agree (tables_of (concat outs)) = true /\
    o = match tables_of (concat outs) with [] => None | t :: ts => Some (t.1, concat (snd <$> t :: ts)) end.
Proof.
  unfold collect_scatter. cbn [snd]. change (@None (list FieldInfo), @nil (list ascii)) with (tables_union []).
  pose proof (fun g => gather_spec (map ask (scatter_requests targets query ro)) [] g eq_refl) as Hg.
  destruct (gather _ _) as [[schema rows]|e].
  - split.
    + intros [= <-]. destruct (proj1 (Hg _) eq_refl) as (outs & Ho & Ha & Hu). exists outs. split_and!; [done..|].
      cbn [app] in Hu. injection Hu as -> ->. by destruct (tables_of (concat outs)).
    + intros (outs & Ho & Ha & ->). pose proof (proj2 (Hg _) (ex_intro _ outs (conj Ho (conj Ha eq_refl)))) as E.
      cbn [app] in E. injection E as -> ->. by destruct (tables_of (concat outs)).
  - split; [done|]. intros (outs & Ho & Ha & ->).
    by pose proof (proj2 (Hg _) (ex_intro _ outs (conj Ho (conj Ha eq_refl)))).
Qed.

(** a scatter is all or nothing. Every target is asked the query exactly once, in
    order; the scatter succeeds exactly when every shard answered and all their
    result shapes agree, and then returns every row of every shard, under the shape
    they share. One failing or differing shard fails the whole read. *)
Theorem scatter_all_or_nothing targets query ro :
  (collect_scatter ask targets query ro).1 = (fun t => mkRequest (tg_endpoint t) (tg_database t) query ro) <$> targets /\
  forall o, (collect_scatter ask targets query ro).2 = Ok o <->
    exists outs, map ask (scatter_requests targets query ro) = map Ok outs /\ tables_agree (tables_of (concat outs)) = true /\
      o = match tables_of (concat outs) with [] => None | t :: ts => Some (t.1, concat (snd <$> t :: ts)) end.
Proof. split; [done|]. apply collect_scatter_Ok. Qed.

(** The requests of a dispatch all carry the staleness of the view. *)
Lemma dispatch_read_only px router parsed route query wall boot a a' rqs r stale :
  lease_check (A := A) px router parsed wall boot = Ok stale ->
  dispatch ask px router parsed route query wall boot a = (a', (rqs, r)) -> Forall (fun rq => rq_read_only rq = stale) rqs.
Proof.
  unfold dispatch. intros -> Hd.
  assert (forall ts, Forall (fun rq => rq_read_only rq = stale) (scatter_requests ts query stale)) as Hs.
  { intros ts. unfold scatter_requests. apply Forall_fmap, Forall_forall. done. }
  destruct route; try (injection Hd as _ <- _; by repeat constructor).
  - destruct (inject_sequences _ _ _ _) as [a1 [o|]]; injection Hd as _ <- _; by repeat constructor.
  - injection Hd as _ Hd. destruct (classify_scatter query); injection Hd as <- _; [apply Hs|apply Hs|constructor].
  - injection Hd as _ Hd. destruct (is_transaction_control parsed); [injection Hd as <- _; constructor|].
    destruct (any_shard_target router); injection Hd as <- _; by repeat constructor.
Qed.

Lemma no_routes_no_write router query parsed :
  parse query = Ok parsed -> mapM (M := option) id (route_parsed router parsed) = Some [] -> is_write parsed = false.
Proof.
  unfold parse. intros Hp Hr. apply result_bind_Ok in Hp as (stmts & _ & Hp). apply result_bind_Ok in Hp as (fp & _ & [= <-]).
  apply mapM_Some_1, Forall2_length in Hr. unfold route_parsed, plan_all in Hr. rewrite length_map, length_imap in Hr.
  by destruct stmts.
Qed.

(** The SQL of an injection is the rewritten statement with one id per row. *)
Lemma inject_sequences_Some px router parsed (a a' : A) sql :
  inject_sequences px router parsed a = (a', Ok (Some sql)) ->
  exists node rest next_id columns, pa_stmts parsed = Some node :: rest /\ px_seq px = Some next_id /\
    draw_columns next_id (value_row_count node) (insert_sequence_injections node (ro_vschema router)) a = (a', Ok columns) /\
    rewrite_insert pg_deparse parsed columns = Ok sql.
Proof.
  unfold inject_sequences. destruct (pa_stmts parsed) as [|[node|] rest]; [done| |done].
  destruct (insert_sequence_injections _ _) as [|i is_] eqn:Ei; [done|]. destruct (px_seq px) as [next_id|]; [|done].
  destruct (draw_columns _ _ _ _) as [a1 [columns|]] eqn:Ed; [|done].
  destruct (rewrite_insert _ _ _) as [s|] eqn:Er; [|done]. intros [= <- <-]. exists node, rest, next_id, columns. split_and!; [done..|by rewrite Ei|done].
Qed.

Lemma inject_sequences_sql px router parsed (a a' : A) sql :
  inject_sequences px router parsed a = (a', Ok (Some sql)) ->
  exists columns, rewrite_insert pg_deparse parsed columns = Ok sql.
Proof. intros (? & ? & ? & columns & _ & _ & _ & ?)%inject_sequences_Some. by exists columns. Qed.

(** C16: a router with a stale view never writes. Once the age of the view exceeds the
    write lease, every request the proxy sends is read-only, and a query with a
    statement that may write sends nothing, draws no id and is an error; while the
    lease holds, nothing is forced to be read-only. *)
Theorem stale_router_never_writes px router query wall boot a a' rqs r f :
  px_freshness px = Some f -> do_query ask px router query wall boot a = Some (a', (rqs, r)) ->
  (Freshness.age wall boot f > ro_write_lease router ->
     Forall (fun rq => rq_read_only rq = true) rqs /\
     forall parsed, parse query = Ok parsed -> is_write parsed = true -> rqs = [] /\ (a' : A) = a /\ is_ok r = false) /\
  (Freshness.age wall boot f <= ro_write_lease router -> Forall (fun rq => rq_read_only rq = false) rqs).
Proof.
  intros Hf Hq. unfold do_query in Hq. destruct (parse query) as [parsed|e] eqn:Hp.
  2: { injection Hq as <- <- <-. split; [|done]. intros _. by split. }
  apply bind_Some in Hq as (routes & Hr & Hq). injection Hq as Hq.
  assert (Hlease : lease_check px router parsed wall boot =
    if Freshness.age wall boot f >? ro_write_lease router then
      if is_write parsed then Err (lease_expired (Freshness.age wall boot f) (ro_write_lease router)) else Ok true
    else Ok false) by (unfold lease_check; by rewrite Hf).
  destruct routes as [|route [|]].
  - injection Hq as <- <- <-. split; [|done]. intros _. split; [done|]. intros parsed' [= <-] Hw.
    by rewrite (no_routes_no_write _ _ _ Hp Hr) in Hw.
  - destruct (_ >? _) eqn:E; [|split; [lia|intros _; by eapply dispatch_read_only]]. split; [intros _|lia].
    destruct (is_write parsed) eqn:Ew.
    + unfold dispatch in Hq. rewrite Hlease in Hq. injection Hq as <- <- <-. by split.
    + split; [by eapply dispatch_read_only|]. intros ? [= <-] Hw. congruence.
  - injection Hq as <- <- <-. split; [|done]. intros _. by split.
Qed.

Lemma plain_select_shape s : plain_select s = true -> sel_op s = SetopNone /\ sel_with s = None /\ sel_into s = false.
Proof.
  unfold plain_select. rewrite !andb_true_iff, !negb_true_iff, bool_decide_eq_true, bool_decide_eq_false, <- eq_None_not_Some.
  tauto.
Qed.

(** The write kinds and the statements of a scatter exclude each other. *)
Lemma scatter_not_write query parsed :
  parse query = Ok parsed -> is_write parsed = true -> classify_scatter query = SPUnsupported.
Proof.
  unfold parse, classify_scatter. destruct (pg_parse query) as [stmts|]; [|done].
  cbn [map_err mbind result_bind]. destruct (pg_fingerprint query); [|done]. intros [= <-].
  destruct stmts as [|[[s| | | | | | | | | | | | | | | | | | | | | | | | | |]|] [|]]; try done.
  destruct (plain_select s) eqn:E; [|done]. apply plain_select_shape in E as (_ & Ew & Ei).
  unfold is_write, parsed_of. cbn. rewrite Ei. unfold has_writable_cte. by rewrite Ew.
Qed.

(** C17: a write goes to at most one database, once. A query with a statement that may
    write sends at most one request; what it sends is the client's own text, or that
    INSERT rewritten with ids drawn for its omitted sequence columns. *)
Theorem write_sent_at_most_once px router query wall boot a a' rqs r parsed :
  parse query = Ok parsed -> is_write parsed = true ->
  do_query ask px router query wall boot (a : A) = Some (a', (rqs, r)) ->
  (length rqs <= 1)%nat /\
  forall rq, rq ∈ rqs -> rq_query rq = query \/ exists columns, rewrite_insert pg_deparse parsed columns = Ok (rq_query rq).
Proof.
  intros Hp Hw Hq. unfold do_query in Hq. rewrite Hp in Hq. apply bind_Some in Hq as (routes & Hr & Hq). injection Hq as Hq.
  assert (Hnil : (length (@nil Request) <= 1)%nat /\ forall rq, rq ∈ @nil Request -> rq_query rq = query \/
    exists columns, rewrite_insert pg_deparse parsed columns = Ok (rq_query rq)).
  { split; [cbn; lia|]. by intros rq ?%elem_of_nil. }
  assert (Hone : forall ep db ro, (length (run_on ask ep db query ro).1 <= 1)%nat /\ forall rq, rq ∈ (run_on ask ep db query ro).1 ->
    rq_query rq = query \/ exists columns, rewrite_insert pg_deparse parsed columns = Ok (rq_query rq)).
  { intros ep db ro. split; [cbn; lia|]. intros rq ->%list_elem_of_singleton. by left. }
  destruct routes as [|route [|]]; [by injection Hq as _ <- _| |by injection Hq as _ <- _].
  unfold dispatch in Hq. destruct (lease_check _ _ _ _ _) as [stale|]; [|by injection Hq as _ <- _].
  destruct route; try (injection Hq as _ <- _; exact Hnil).
  - destruct (inject_sequences px router parsed a) as [a1 [o|e]] eqn:Ei; injection Hq as _ <- _; [|exact Hnil].
    split; [cbn; lia|]. intros rq ->%list_elem_of_singleton. cbn [rq_query].
    destruct o as [sql|]; [right; by eapply inject_sequences_sql|by left].
  - rewrite (scatter_not_write _ _ Hp Hw) in Hq. by injection Hq as _ <- _.
  - injection Hq as _ <- _. apply Hone.
  - injection Hq as _ Hq. destruct (is_transaction_control parsed); [by injection Hq as <- _|].
    destruct (any_shard_target router); [injection Hq as <- _; apply Hone|by injection Hq as <- _].
Qed.

(** every row gets its own id. When the proxy rewrites an INSERT, the columns it
    adds are exactly the omitted sequence columns; each has one id per VALUES row,
    drawn in order from its own sequence, nothing else is drawn, and the statement
    sent is the INSERT with those ids. The ids drawn always fit the rows: a
    row-count mismatch cannot happen. *)
Theorem injection_draws_one_id_per_row px router parsed (a a' : A) :
  (forall sql, inject_sequences px router parsed a = (a', Ok (Some sql)) ->
     exists ins ins' next_id columns, pa_stmts parsed = [Some (NInsertStmt ins)] /\ px_seq px = Some next_id /\
       let inj := insert_sequence_injections (NInsertStmt ins) (ro_vschema router) in
       ij_column <$> columns = si_column <$> inj /\
       Forall (fun c => length (ij_ids c) = value_row_count (NInsertStmt ins)) columns /\
       drawn next_id (concat (zip_with (fun i c => column_draws (si_sequence i) (ij_ids c)) inj columns)) a a' /\
       rewrite_ast parsed columns = Ok ins' /\ pg_deparse [Some (NInsertStmt ins')] = Ok sql) /\
  forall node rest next_id columns c n m, pa_stmts parsed = Some node :: rest ->
    draw_columns next_id (value_row_count node) (insert_sequence_injections node (ro_vschema router)) a = (a', Ok columns) ->
    rewrite_ast parsed columns <> Err (RowCountMismatch c n m).
Proof.
  split.
  - intros sql (node & rest & next_id & columns & Hp & Hs & Hd & Hr)%inject_sequences_Some.
    unfold rewrite_insert in Hr. apply result_bind_Ok in Hr as (ins' & Ha & Hde).
    destruct (rewrite_ast_Ok _ _ _ Ha) as (ins & sel & sel' & Hp' & _). rewrite Hp in Hp'. injection Hp' as -> ->.
    destruct (draw_columns_Ok _ _ _ _ _ _ Hd) as (Hc & Hf & Hdr).
    exists ins, ins', next_id, columns. cbn zeta. split_and!; try done. by destruct (pg_deparse _); simplify_eq/=.
  - intros node rest next_id columns c n m Hp Hd Hr. destruct (draw_columns_Ok _ _ _ _ _ _ Hd) as (_ & Hf & _).
    unfold rewrite_ast in Hr. rewrite Hp in Hr. destruct node as [|ins| | | | | | | | | | | | | | | | | | | | | | | | |], rest; try done.
    cbn [value_row_count] in Hf. destruct (ins_select ins) as [[sel| | | | | | | | | | | | | | | | | | | | | | | | | |]|]; try done.
    case_bool_decide; [done|]. rewrite (proj2 (check_counts_Ok _ _)) in Hr by (rewrite Forall_forall in Hf; exact Hf).
    cbn [mbind result_bind] in Hr. destruct (push_columns _ _ _) as [[]|e] eqn:Ep; [done|]. injection Hr as ->.
    by apply push_columns_Err in Ep.
Qed.
End props.

(** ** Witnesses *)

Module WireExample.

#[local] Existing Instance be_hash.
#[local] Existing Instance PlanExample.plain_query.

Definition column (name : string) : NodeEnum := NColumnRef [Some (NString name)].
Definition select_ids (where_ : option NodeEnum) : SelectStmt :=
  mkSelectStmt SetopNone [Some (NRangeVar PlanExample.orders)] where_ None [] false None None
    [Some (NResTarget EmptyString (Some (column "id")))] [] no_clauses.
Definition id_is (k : Z) : NodeEnum :=
  NAExpr AexprOp [Some (NString "=")] (Some (column "id")) (Some (NAConst false (Some (Ival k)))).

Definition read_all : string := "select id from orders".
Definition read_one : string := "select id from orders where id = 200".
Definition delete_one : string := "delete from orders where id = 200".

(** A parser of three texts. *)
#[local] Instance three_texts : PgParser := {|
  pg_parse q :=
    if bool_decide (q = read_all) then Ok [Some (NSelectStmt (select_ids None))]
    else if bool_decide (q = read_one) then Ok [Some (NSelectStmt (select_ids (Some (id_is 200))))]
    else if bool_decide (q = delete_one) then Ok [Some (NDeleteStmt (mkDeleteStmt (Some PlanExample.orders) [] (Some (id_is 200)) None []))]
    else Err "syntax error";
  pg_fingerprint _ := Ok 0;
  pg_deparse _ := Err "unsupported";
|}.

(** Two shards with primaries, and a lease of ten seconds. *)
Definition topo : Topology :=
  mkTopology 3 1 10 "xxhash64_v1"
    [mkShardEntry "a" (mkKeyRange 0 (Some 128)) Serving (Some (RouterExample.node "na")) [];
     mkShardEntry "b" (mkKeyRange 128 None) Serving (Some (RouterExample.node "nb")) []]
    [mkTableEntry "public" "orders" TTSharded (Some "id") (Some SKInt) []] [] None.

Definition router : Router :=
  match build topo with Ok r => r | Err _ => mkRouter 0 VSchema.default (mkShardCatalog []) ∅ None 0 end.

Definition seconds (n : Z) : Z := n * 1000000000.
Definition proxy : Proxy unit := mkProxy "system" None (Some (mkStamp (seconds 5) (seconds 5))).
Definition backend (rq : Request) : result PgWireError (list BackendResult) := Ok [BCommand "DELETE 1"].

Lemma stale_router_never_writes_witness :
  let f := mkStamp (seconds 5) (seconds 5) in
  let refusal := Err (user_error "57P01" "write lease expired: topology last confirmed 11s ago (limit 10s); refusing writes until the view refreshes") in
  (Freshness.age (seconds 16) (Some (seconds 16)) f > ro_write_lease router ->
     Forall (fun rq => rq_read_only rq = true) [] /\
     forall parsed, parse delete_one = Ok parsed -> is_write parsed = true ->
       @nil Request = [] /\ tt = tt /\ is_ok (A := list Response) refusal = false) /\
  (Freshness.age (seconds 16) (Some (seconds 16)) f <= ro_write_lease router -> Forall (fun rq => rq_read_only rq = false) []).
Proof.
  intros f refusal.
  apply (stale_router_never_writes backend proxy router delete_one (seconds 16) (Some (seconds 16)) tt tt [] refusal f);
    vm_compute; reflexivity.
Defined.

Lemma write_sent_at_most_once_witness :
  let rqs := [mkRequest (RouterExample.node "nb") "b" delete_one false] in
  let parsed := match parse delete_one with Ok p => p | Err _ => mkParsed [] [] end in
  (length rqs <= 1)%nat /\
  forall rq, rq ∈ rqs -> rq_query rq = delete_one \/ exists columns, rewrite_insert pg_deparse parsed columns = Ok (rq_query rq).
Proof.
  intros rqs parsed.
  apply (write_sent_at_most_once backend proxy router delete_one (seconds 6) (Some (seconds 6)) tt tt rqs
    (Ok [RExecution (mkTag "DELETE 1" None)]) parsed); vm_compute; reflexivity.
Defined.

End WireExample.
