(* ===== verification/Answer.v ===== *)
(** * Answers of a sharded read

    The composition of the proxy ([Wire]), the planner ([Plan]) and the router
    snapshot ([Router]): what the client of [do_query] gets for a SELECT of a sharded
    table, compared with the table as a whole. The shards hold the table's rows
    according to their keys; a backend answers a SELECT from the rows of its own
    shard. *)

From S2P Require Import Prelude Rust Seq Keyspace ShardFn VSchema Catalog Topo Merge Backend Sql Extract Inject Plan Router Wire.

Open Scope Z_scope.

(** ** Specification *)

(** What a SELECT means on a multiset of rows: the rows its condition keeps in a
    session, and the results it may give for the kept rows, in any order of them. A
    plain SELECT gives one result row per kept row. *)
Class SelectMeaning `{Semantics key_col ty} (s : SelectStmt) := {
  matches : session _ -> row _ -> bool;
  matches_spec d r : matches d r = true <-> where_sat d [] (sel_where s) r;
  answer : list (row _) -> list (list ascii) -> Prop;
  answer_perm xs ys out : xs ≡ₚ ys -> answer xs out -> answer ys out;
  project : row _ -> list ascii;
  answer_plain xs out : plain_select s = true -> answer xs out -> out ≡ₚ project <$> xs;
}.

Section answer.
  Context `{XxHash} `{PgQuery} `{PgParser} {key_col : string} {ty : ScalarType} `{SS : !Semantics key_col ty}.

(** The rows of the table on each shard, and what a session there sees. *)
Record Cluster := mkCluster { cl_rows : ShardId -> list (row SS); cl_session : ShardId -> session SS }.

(** The table: the rows of all serving shards. *)
Definition table (topo : Topology) (c : Cluster) : list (row SS) :=
  concat (cl_rows c <$> (se_name <$> serving_entries topo)).

(** Every row is on the shard of its key. *)
Definition placed (fn : string) (router : Router) (c : Cluster) : Prop :=
  forall n r, r ∈ cl_rows c n -> shard_of fn (ro_catalog router) (row_key r) = Some n.

Context (s : SelectStmt) `{M : !SelectMeaning s}.

(** A primary answers the SELECT from the rows of its own database. *)
Definition serves (ask : Request -> result PgWireError (list BackendResult)) (topo : Topology) (c : Cluster)
    (query : string) (schema : list FieldInfo) : Prop :=
  forall e ep ro, e ∈ serving_entries topo -> se_primary e = Some ep ->
    exists rows tag, ask (mkRequest ep (se_name e) query ro) = Ok [BRows schema rows tag] /\
      answer (List.filter (matches (cl_session c (se_name e))) (cl_rows c (se_name e))) rows.

(** ** Lemmas *)

Lemma schemas_match_refl schema : schemas_match schema schema = true.
Proof.
  unfold schemas_match. rewrite bool_decide_eq_true_2 by done. cbn [andb].
  induction schema as [|f schema IH]; [done|]. cbn [zip_with forallb fst snd]. rewrite IH. unfold field_match.
  by rewrite !bool_decide_eq_true_2, Z.eqb_refl.
Qed.

Lemma tables_agree_same schema (rowss : list (list (list ascii))) : tables_agree (pair schema <$> rowss) = true.
Proof.
  destruct rowss as [|rows rowss]; [done|]. cbn [fmap list_fmap tables_agree]. apply forallb_forall.
  intros t Ht%list_elem_of_In. apply list_elem_of_fmap in Ht as (x & -> & _). apply schemas_match_refl.
Qed.

(** Leaving out the lists that are empty. *)
Lemma concat_support {A B} (f : A -> list B) ts l :
  NoDup ts -> NoDup l -> ts ⊆ l -> (forall n, n ∈ l -> n ∉ ts -> f n = []) -> concat (f <$> ts) ≡ₚ concat (f <$> l).
Proof.
  intros Ht Hl Hsub Hempty. destruct (submseteq_Permutation ts l (NoDup_submseteq _ _ Ht Hsub)) as [k Hk].
  assert (concat (f <$> k) = []) as Hnil.
  { assert (forall n, n ∈ k -> f n = []) as Hf.
    { intros n Hn. apply Hempty; [rewrite Hk; set_solver|]. rewrite Hk in Hl. apply NoDup_app in Hl. set_solver. }
    clear -Hf. induction k as [|n k IH]; [done|]. cbn. rewrite Hf by set_solver. apply IH. set_solver. }
  rewrite Hk, fmap_app, concat_app, Hnil. by rewrite app_nil_r.
Qed.

Lemma filter_concat {A} (p : A -> bool) ls : List.filter p (concat ls) = concat (List.filter p <$> ls).
Proof. induction ls as [|l ls IH]; [done|]. cbn. by rewrite List.filter_app, IH. Qed.

(** ** The cluster *)

Section cluster.
  Context (topo : Topology) (router : Router) (c : Cluster) (fn query : string) (schema : list FieldInfo).
  Context (ask : Request -> result PgWireError (list BackendResult)).
  Context (Hb : build topo = Ok router) (Hr : Forall (fun e => range_wf (se_key_range e)) (t_shards topo)).
  Context (Hplaced : placed fn router c) (Hserves : serves ask topo c query schema).
  Context (Hop : sel_op s = SetopNone)
    (Hone : omap (is_sharded (ro_vschema router)) (fc_tables (analyze_from (sel_from s))) = [(key_col, Some ty, fn)]).

(** The rows a shard's own session keeps. *)
Definition kept (n : ShardId) : list (row SS) := List.filter (matches (cl_session c n)) (cl_rows c n).

Lemma all_shards : ShardCatalog.all (ro_catalog router) ≡ₚ se_name <$> serving_entries topo.
Proof.
  destruct (build_catalog topo router Hb Hr) as (_ & Hp & _). unfold ShardCatalog.all. rewrite Hp.
  rewrite <- list_fmap_compose. done.
Qed.

Lemma all_shards_NoDup : NoDup (ShardCatalog.all (ro_catalog router)).
Proof. rewrite all_shards. by destruct (build_catalog topo router Hb Hr) as (_ & _ & ? & _). Qed.

Lemma all_shards_nonempty : ShardCatalog.all (ro_catalog router) <> [].
Proof.
  destruct (build_catalog topo router Hb Hr) as (Hwf & _). destruct (catalog_route _ 0 Hwf) as (i & kr & n & Hi & _).
  { concrete. }
  unfold ShardCatalog.all. intros E. by destruct (sc_shards (ro_catalog router)).
Qed.

(** The rows the targets keep are the table's matching rows. *)
Lemma kept_is_matching p ts d :
  plan_select s (ro_vschema router) (ro_catalog router) = Some p -> targets p [] (ro_catalog router) = Some ts ->
  NoDup ts -> ts ⊆ ShardCatalog.all (ro_catalog router) ->
  concat (kept <$> ts) ≡ₚ List.filter (matches d) (table topo c).
Proof.
  intros Hp Ht Hnd Hsub. unfold table. rewrite filter_concat, <- list_fmap_compose.
  assert (forall n r, r ∈ cl_rows c n -> matches d r = true -> n ∈ ts) as Hcov.
  { intros n r Hin Hm%matches_spec. destruct (select_covers _ _ _ _ _ _ _ _ _ Hp Hop Hone Ht Hm) as [Hc _].
    by apply Hc, Hplaced. }
  assert (forall n, kept n = List.filter (matches d) (cl_rows c n)) as Hk.
  { intros n. apply List.filter_ext. intros r. apply eq_bool_prop_intro. rewrite !Is_true_true, !matches_spec.
    split; intros Hs; by eapply select_condition_local. }
  rewrite (list_fmap_ext _ (List.filter (matches d) ∘ cl_rows c) ts) by (intros; apply Hk).
  apply concat_support; [done| | |].
  - rewrite <- all_shards. apply all_shards_NoDup.
  - intros n Hn. rewrite <- all_shards. by apply Hsub.
  - intros n _ Hn. cbn. destruct (List.filter _ _) as [|r l] eqn:E; [done|]. exfalso. apply Hn.
    assert (r ∈ List.filter (matches d) (cl_rows c n)) as Hin by (rewrite E; left).
    apply elem_of_filter_b in Hin as [Hin Hm]. by eapply Hcov.
Qed.

Lemma target_answers n t ro :
  n ∈ ShardCatalog.all (ro_catalog router) -> target router n = Ok t ->
  exists rows tag, ask (mkRequest (tg_endpoint t) (tg_database t) query ro) = Ok [BRows schema rows tag] /\ answer (kept n) rows.
Proof.
  rewrite all_shards. intros Hn Ht. apply list_elem_of_fmap in Hn as (e & -> & He).
  rewrite (target_entry topo router e Hb Hr He) in Ht. unfold entry_target in Ht.
  destruct (se_primary e) as [ep|] eqn:Ep; [|done]. injection Ht as <-. by apply Hserves.
Qed.

Lemma targets_answer ro : forall ts tgs,
  ts ⊆ ShardCatalog.all (ro_catalog router) -> mapM (target router) ts = Ok tgs ->
  exists outs rowss, map ask (scatter_requests tgs query ro) = map Ok outs /\
    tables_of (concat outs) = pair schema <$> rowss /\ Forall2 (fun n rows => answer (kept n) rows) ts rowss.
Proof.
  intros ts tgs Hsub Ht. apply mapM_Ok in Ht. induction Ht as [|n t ts tgs Hn _ IH]; [by exists [], []|].
  destruct IH as (outs & rowss & Ha & Ht & Hf); [set_solver|].
  destruct (target_answers n t ro) as (rows & tag & Hask & Hans); [set_solver|done|].
  exists ([BRows schema rows tag] :: outs), (rows :: rowss). cbn [scatter_requests fmap list_fmap map] in *.
  split_and!; [by rewrite Hask, <- Ha| |by constructor]. cbn [concat app]. unfold tables_of in *. cbn. by rewrite Ht.
Qed.

(** What a scatter to a set of shards collects. *)
Lemma scatter_collects ro ts tgs :
  ts ⊆ ShardCatalog.all (ro_catalog router) -> ts <> [] -> mapM (target router) ts = Ok tgs ->
  exists rowss, (collect_scatter ask tgs query ro).2 = Ok (Some (schema, concat rowss)) /\
    Forall2 (fun n rows => answer (kept n) rows) ts rowss.
Proof.
  intros Hsub Hne Ht. destruct (targets_answer ro ts tgs Hsub Ht) as (outs & rowss & Ha & Htab & Hf).
  exists rowss. split; [|done]. apply collect_scatter_Ok. exists outs. split_and!; [done|rewrite Htab; apply tables_agree_same|].
  rewrite Htab. destruct Hf as [|n rows ts' rowss' _ Hf]; [done|]. cbn [fmap list_fmap fst snd]. do 3 f_equal. cbn. f_equal.
  rewrite <- list_fmap_compose. by rewrite list_fmap_id.
Qed.

(** The rows of a scattered plain SELECT. *)
Lemma scattered_rows p ts rowss d :
  plan_select s (ro_vschema router) (ro_catalog router) = Some p -> targets p [] (ro_catalog router) = Some ts ->
  NoDup ts -> ts ⊆ ShardCatalog.all (ro_catalog router) -> plain_select s = true ->
  Forall2 (fun n rows => answer (kept n) rows) ts rowss ->
  concat rowss ≡ₚ project <$> List.filter (matches d) (table topo c).
Proof.
  intros Hp Ht Hnd Hsub Hpl Hf. rewrite <- (kept_is_matching p ts d) by done. clear -Hf Hpl.
  induction Hf as [|n rows ts rowss Ha _ IH]; [done|]. cbn [fmap list_fmap concat]. rewrite fmap_app. f_equiv; [|exact IH].
  by apply answer_plain.
Qed.

(** ** The proxy's handling of the SELECT *)

(** The plans a keyed read can have. *)
Lemma keyed_read_plan p :
  plan_select s (ro_vschema router) (ro_catalog router) = Some p ->
  (exists code reason, p = PReject code reason) \/ (exists q, p = PParameterized q) \/
  (exists n, p = PSingleShard n /\ n ∈ ShardCatalog.all (ro_catalog router)) \/
  (exists ts, p = PScatter ts /\ NoDup ts /\ ts ⊆ ShardCatalog.all (ro_catalog router) /\ ts <> []).
Proof.
  intros Hp. pose proof (plan_select_known _ _ _ _ Hp) as Hk.
  destruct (plan_select_keyed _ _ _ _ _ _ _ Hp Hop Hone) as [?|(_ & r & Hv & ->)]; [by left|right].
  pose proof (read_plan_NoDup _ _ _ _ _ all_shards_NoDup Hv) as Hnd. pose proof all_shards_nonempty as Hne.
  destruct r as [|ns| | |hit]; cbn [read_plan] in *; [right; right; by eexists|left; by eexists|right; right; by eexists..|].
  apply route_values_nonempty in Hv. unfold read_from_shards in *. destruct hit as [|n [|n' hit]]; [done|right; left|right; right].
  - exists n. split; [done|]. apply Hk. cbn. set_solver.
  - by eexists.
Qed.

Lemma target_unavailable n u : target router n = Err u -> exists reason, u = RtUnavailable reason.
Proof. unfold target. intros Hu. repeat case_match; simplify_eq; by eexists. Qed.

Lemma resolve_many_shape ids wrap :
  (exists tgs, mapM (target router) ids = Ok tgs /\ resolve_many router ids wrap = wrap tgs) \/
  exists reason, resolve_many router ids wrap = RtUnavailable reason.
Proof.
  unfold resolve_many. destruct (mapM (target router) ids) as [tgs|u] eqn:E; [left; by eexists|right].
  revert u E. induction ids as [|n ids IH]; intros u; [done|]. cbn [mapM].
  destruct (target router n) as [t|v] eqn:Et; cbn [mbind result_bind]; [|intros [= ->]; by eapply target_unavailable].
  destruct (mapM (target router) ids) as [|w]; cbn; [done|]. intros [= ->]. by apply IH.
Qed.

Context {A : Type} (px : Proxy A) (wall : Z) (boot : option Z) (a : A).

Definition select_parsed : Parsed := parsed_of [Some (NSelectStmt s)].

(** What the client may get for the rows [rows] of the table. *)
Definition good_answer (matching : list (row SS)) (rows : list (list ascii)) : Prop :=
  answer matching rows \/
  plain_select s = true /\ rows ≡ₚ project <$> matching /\
  (sel_sort s <> [] -> exists keys resolved,
     sort_keys (sel_sort s) = Some keys /\ resolve_keys schema keys = Ok resolved /\ StronglySorted (row_le resolved) rows).

(** A dispatch that leaves the allocator alone and answers well, if at all. *)
Definition sound (d : session SS) (o : A * (list Request * result PgWireError (list Response))) : Prop :=
  o.1 = a /\ forall out, o.2.2 = Ok out ->
    exists rows tag, out = [RQuery schema rows tag] /\ good_answer (List.filter (matches d) (table topo c)) rows.

Lemma sound_Err d rqs e : sound d (a, (rqs, Err e)).
Proof. by split. Qed.

Lemma dispatch_unavailable d parsed reason : sound d (dispatch ask px router parsed (RtUnavailable reason) query wall boot a).
Proof. unfold dispatch. destruct (lease_check _ _ _ _ _); apply sound_Err. Qed.

Lemma dispatch_single d n :
  plan_select s (ro_vschema router) (ro_catalog router) = Some (PSingleShard n) -> n ∈ ShardCatalog.all (ro_catalog router) ->
  sound d (dispatch ask px router select_parsed (resolve router (PSingleShard n)) query wall boot a).
Proof.
  intros Hp Hn. cbn [resolve]. destruct (target router n) as [t|u] eqn:Et.
  2: { destruct (target_unavailable _ _ Et) as [reason ->]. apply dispatch_unavailable. }
  unfold dispatch. destruct (lease_check _ _ _ _ _) as [stale|]; [|apply sound_Err].
  change (inject_sequences px router select_parsed a) with (a, @Ok PgWireError (option string) None). cbn [default from_option id].
  destruct (target_answers n t stale Hn Et) as (rows & tag & Hask & Hans). split; [done|]. unfold run_on. cbn [snd]. rewrite Hask.
  intros out [= <-]. exists rows, tag. split; [done|]. left. eapply answer_perm; [|exact Hans].
  pose proof (kept_is_matching (PSingleShard n) [n] d Hp eq_refl) as Hk. cbn in Hk. rewrite app_nil_r in Hk. apply Hk; [|set_solver].
  apply NoDup_singleton.
Qed.

Lemma dispatch_scatter d ts :
  pg_parse query = Ok [Some (NSelectStmt s)] ->
  plan_select s (ro_vschema router) (ro_catalog router) = Some (PScatter ts) ->
  NoDup ts -> ts ⊆ ShardCatalog.all (ro_catalog router) -> ts <> [] ->
  sound d (dispatch ask px router select_parsed (resolve router (PScatter ts)) query wall boot a).
Proof.
  intros Hq Hp Hnd Hsub Hne. cbn [resolve]. destruct (resolve_many_shape ts RtScatter) as [(tgs & Ht & ->)|[reason ->]].
  2: apply dispatch_unavailable.
  unfold dispatch. destruct (lease_check _ _ _ _ _) as [stale|]; [|apply sound_Err].
  destruct (scatter_collects stale ts tgs Hsub Hne Ht) as (rowss & Hc & Hf).
  pose proof (fun Hpl => scattered_rows (PScatter ts) ts rowss d Hp eq_refl Hnd Hsub Hpl Hf) as Hrows.
  unfold classify_scatter. rewrite Hq. destruct (plain_select s) eqn:Epl; cbn [negb]; [|apply sound_Err].
  specialize (Hrows eq_refl). destruct (sel_sort s) as [|item items] eqn:Es.
  - split; [done|]. cbn [snd]. unfold run_scatter. destruct (collect_scatter _ _ _ _) as [rqs r]. cbn [snd] in *. subst r.
    intros out [= <-]. exists (concat rowss), None. split; [done|]. right. split_and!; [done|done|]. by rewrite Es.
  - rewrite <- Es. destruct (sort_keys (sel_sort s)) as [keys|] eqn:Ek; [|apply sound_Err]. split; [done|]. cbn [snd].
    unfold run_ordered_scatter. destruct (collect_scatter _ _ _ _) as [rqs r]. cbn [snd] in *. subst r.
    intros out Ho. cbn [mbind result_bind] in Ho. apply result_bind_Ok in Ho as (merged & Hm & [= <-]).
    destruct (merge_ordered_spec _ _ _ _ Hm) as (resolved & Hres & Hperm & Hsorted & _).
    exists merged, None. split; [done|]. right. split_and!; [done|by rewrite Hperm|]. intros _. by exists keys, resolved.
Qed.

(** A SELECT that is not a pure read is refused. *)
Lemma dispatch_not_read d p :
  plan (classify (Some (NSelectStmt s))) (NSelectStmt s) (ro_vschema router) (ro_catalog router) = Some p ->
  classify (Some (NSelectStmt s)) <> KSelect ->
  sound d (dispatch ask px router select_parsed (resolve router p) query wall boot a).
Proof.
  unfold classify. intros Hp Hk. destruct (sel_into s); [|destruct (has_writable_cte s); [|done]]; injection Hp as <-; cbn [resolve].
  - destruct (resolve_many_shape (ShardCatalog.all (ro_catalog router)) RtBroadcast) as [(tgs & _ & ->)|[reason ->]];
      [|apply dispatch_unavailable].
    unfold dispatch. destruct (lease_check _ _ _ _ _); apply sound_Err.
  - unfold dispatch. destruct (lease_check _ _ _ _ _); apply sound_Err.
Qed.

Lemma dispatch_sound d p :
  pg_parse query = Ok [Some (NSelectStmt s)] ->
  plan (classify (Some (NSelectStmt s))) (NSelectStmt s) (ro_vschema router) (ro_catalog router) = Some p ->
  sound d (dispatch ask px router select_parsed (resolve router p) query wall boot a).
Proof.
  intros Hq Hp. destruct (decide (classify (Some (NSelectStmt s)) = KSelect)) as [Hk|]; [|by apply dispatch_not_read].
  rewrite Hk in Hp. cbn [plan] in Hp.
  destruct (keyed_read_plan p Hp) as [(code & m & ->)|[[q ->]|[(n & -> & Hn)|(ts & -> & Hnd & Hsub & Hne)]]].
  - cbn [resolve]. unfold dispatch. destruct (lease_check _ _ _ _ _); apply sound_Err.
  - cbn [resolve]. unfold dispatch. destruct (lease_check _ _ _ _ _); apply sound_Err.
  - by apply dispatch_single.
  - by apply dispatch_scatter.
Qed.

Lemma select_plan_total :
  is_Some (plan (classify (Some (NSelectStmt s))) (NSelectStmt s) (ro_vschema router) (ro_catalog router)).
Proof.
  destruct (build_vschema_wf topo router Hb) as [Hvs _]. destruct (build_catalog topo router Hb Hr) as (Hwf & _).
  by apply plan_total.
Qed.

Lemma do_query_select fp p :
  pg_parse query = Ok [Some (NSelectStmt s)] -> pg_fingerprint query = Ok fp ->
  plan (classify (Some (NSelectStmt s))) (NSelectStmt s) (ro_vschema router) (ro_catalog router) = Some p ->
  do_query ask px router query wall boot a =
    Some (dispatch ask px router select_parsed (resolve router p) query wall boot a).
Proof.
  intros Hq Hf Hp. unfold do_query, parse. rewrite Hq, Hf. cbn [map_err mbind result_bind].
  unfold route_parsed, plan_all. cbn [parsed_of pa_stmts pa_statements imap fmap list_fmap lookup list_lookup default from_option id map].
  by rewrite Hp.
Qed.

(** ** Plain reads are answered *)

Lemma plain_select_reads : plain_select s = true -> classify (Some (NSelectStmt s)) = KSelect /\ is_write select_parsed = false.
Proof.
  intros (_ & Ew & Ei)%plain_select_shape. unfold is_write, select_parsed, parsed_of. cbn. rewrite Ei.
  unfold has_writable_cte. by rewrite Ew.
Qed.

Lemma plain_plan_runs p :
  plan_select s (ro_vschema router) (ro_catalog router) = Some p -> plain_select s = true ->
  unknown_relation (select_value s) (ro_vschema router) = None ->
  length (fc_tables (analyze_from (sel_from s))) = 1%nat -> fc_all_plain (analyze_from (sel_from s)) = true ->
  contains_sublink (select_value s) = false -> omap param_of (where_key_values (sel_where s) key_col) = [] ->
  (exists n, p = PSingleShard n /\ n ∈ ShardCatalog.all (ro_catalog router)) \/
  (exists ts, p = PScatter ts /\ ts ⊆ ShardCatalog.all (ro_catalog router) /\ ts <> []).
Proof.
  intros Hp Hpl Hu Hlen Hplain Hsub Hpar. destruct (plain_select_shape _ Hpl) as (_ & Hw & _).
  destruct (keyed_read_plan p Hp) as [(code & m & ->)|[[q ->]|[?|(ts & -> & ? & ? & ?)]]]; [exfalso..|by left|right; by exists ts].
  all: unfold plan_select in Hp; rewrite Hu, Hop, Hone, Hlen, Hplain, Hw, Hsub in Hp; cbn in Hp.
  all: unfold route_values in Hp; rewrite Hpar in Hp.
  all: destruct (where_key_values _ _) as [|v vs]; [done|].
  all: destruct (shard_function fn) as [f|]; [|done]; cbn [res_ok mbind option_bind] in Hp.
  all: destruct (hit_shards _ _ _ _ _) as [r|] eqn:Eh; [|done]; destruct (hit_shards_shape _ _ _ _ _ _ Eh) as [->|[hit ->]]; [done|].
  all: cbn in Hp; unfold read_from_shards in Hp; by destruct hit as [|? [|]].
Qed.

Lemma primaries_resolve n :
  Forall (fun e => is_Some (se_primary e)) (serving_entries topo) -> n ∈ ShardCatalog.all (ro_catalog router) ->
  exists t, target router n = Ok t.
Proof.
  rewrite all_shards. intros Hprim Hn. apply list_elem_of_fmap in Hn as (e & -> & He).
  rewrite (target_entry topo router e Hb Hr He). rewrite Forall_forall in Hprim. destruct (Hprim e He) as [ep Hep].
  unfold entry_target. rewrite Hep. by eexists.
Qed.

Lemma lease_lets_reads : is_write select_parsed = false -> exists stale, lease_check px router select_parsed wall boot = Ok stale.
Proof. intros Hw. unfold lease_check. rewrite Hw. repeat case_match; by eexists. Qed.

Lemma single_answers n :
  is_write select_parsed = false -> Forall (fun e => is_Some (se_primary e)) (serving_entries topo) ->
  n ∈ ShardCatalog.all (ro_catalog router) ->
  exists rqs out, dispatch ask px router select_parsed (resolve router (PSingleShard n)) query wall boot a = (a, (rqs, Ok out)).
Proof.
  intros Hw Hprim Hn. destruct (lease_lets_reads Hw) as [stale Hl]. destruct (primaries_resolve n Hprim Hn) as [t Ht].
  destruct (target_answers n t stale Hn Ht) as (rows & tag & Hask & _).
  unfold dispatch. rewrite Hl. cbn [resolve]. rewrite Ht.
  change (inject_sequences px router select_parsed a) with (a, @Ok PgWireError (option string) None). cbn [default from_option id].
  unfold run_on. rewrite Hask. by repeat eexists.
Qed.

Lemma scatter_answers ts :
  is_write select_parsed = false -> Forall (fun e => is_Some (se_primary e)) (serving_entries topo) ->
  pg_parse query = Ok [Some (NSelectStmt s)] -> plain_select s = true -> sel_sort s = [] ->
  ts ⊆ ShardCatalog.all (ro_catalog router) -> ts <> [] ->
  exists rqs out, dispatch ask px router select_parsed (resolve router (PScatter ts)) query wall boot a = (a, (rqs, Ok out)).
Proof.
  intros Hw Hprim Hq Hpl Hsort Hsub Hne. destruct (lease_lets_reads Hw) as [stale Hl].
  assert (exists tgs, mapM (target router) ts = Ok tgs) as [tgs Ht].
  { clear Hne. induction ts as [|n ts IH]; [by eexists|]. destruct (primaries_resolve n Hprim) as [t Ht]; [set_solver|].
    destruct IH as [tgs Hts]; [set_solver|]. exists (t :: tgs). cbn [mapM]. rewrite Ht. cbn [mbind result_bind]. by rewrite Hts. }
  destruct (scatter_collects stale ts tgs Hsub Hne Ht) as (rowss & Hc & _).
  unfold dispatch. rewrite Hl. cbn [resolve]. unfold resolve_many. rewrite Ht. unfold classify_scatter. rewrite Hq, Hpl, Hsort.
  cbn [negb]. unfold run_scatter. destruct (collect_scatter _ _ _ _) as [rqs r]. cbn [snd] in Hc. subst r. by repeat eexists.
Qed.

(** ** Properties *)


(** a plain read is answered. A plain unordered SELECT of one known sharded table,
    with neither subqueries nor parameters in its key condition, succeeds whenever
    every serving shard has a primary, also on a stale router; the answer has one
    result row per matching row of the whole table. *)
Theorem plain_select_answered d fp :
  pg_parse query = Ok [Some (NSelectStmt s)] -> pg_fingerprint query = Ok fp ->
  plain_select s = true -> sel_sort s = [] -> unknown_relation (select_value s) (ro_vschema router) = None ->
  length (fc_tables (analyze_from (sel_from s))) = 1%nat -> fc_all_plain (analyze_from (sel_from s)) = true ->
  contains_sublink (select_value s) = false -> omap param_of (where_key_values (sel_where s) key_col) = [] ->
  Forall (fun e => is_Some (se_primary e)) (serving_entries topo) ->
  exists rqs rows tag, do_query ask px router query wall boot a = Some (a, (rqs, Ok [RQuery schema rows tag])) /\
    rows ≡ₚ project <$> List.filter (matches d) (table topo c).
Proof.
  intros Hq Hf Hpl Hsort Hu Hlen Hplain Hsub Hpar Hprim. destruct (plain_select_reads Hpl) as (Hk & Hw).
  destruct select_plan_total as [p Hp]. rewrite (do_query_select fp p Hq Hf Hp).
  destruct (dispatch_sound d p Hq Hp) as [Ha Ho]. pose proof Hp as Hp'. rewrite Hk in Hp'. cbn [plan] in Hp'.
  assert (exists rqs out, dispatch ask px router select_parsed (resolve router p) query wall boot a = (a, (rqs, Ok out)))
    as (rqs & out & Hd).
  { destruct (plain_plan_runs p Hp' Hpl Hu Hlen Hplain Hsub Hpar) as [(n & -> & Hn)|(ts & -> & Hts & Hne)].
    - by apply single_answers.
    - by eapply scatter_answers. }
  rewrite Hd in *. destruct (Ho _ eq_refl) as (rows & tag & -> & Hg). exists rqs, rows, tag. split; [done|].
  destruct Hg as [Hg|(_ & Hg & _)]; [by apply answer_plain|done].
Qed.

End cluster.
End answer.

(** ** Witnesses *)

Module AnswerExample.
Import WireExample.

#[local] Existing Instance be_hash.
#[local] Existing Instance PlanExample.plain_query.
#[local] Existing Instance PlanExample.key_rows.
#[local] Existing Instance WireExample.three_texts.

(** One integer column, sent as a text field. *)
Definition id_row (k : ScalarValue) : list ascii :=
  match k with Int64 z => to_be 4 (Z.of_nat (length (fmt_i z))) ++ fmt_i z | _ => [] end.
Definition id_schema : list FieldInfo := [mkFieldInfo "id" INT8 FormatText].

Definition keeps (k0 : option Z) (k : ScalarValue) : bool :=
  match k0 with Some z => bool_decide (k = Int64 z) | None => true end.

#[local] Instance ids_of_all : SelectMeaning (select_ids None).
Proof.
  refine {| matches _ := keeps None; project := id_row; answer xs out := out ≡ₚ id_row <$> xs |}.
  - intros d r. split; done.
  - intros xs ys out Hp ->. by rewrite Hp.
  - intros xs out _ ->. done.
Defined.

#[local] Instance ids_of_one : SelectMeaning (select_ids (Some (id_is 200))).
Proof.
  refine {| matches _ := keeps (Some 200); project := id_row; answer xs out := out ≡ₚ id_row <$> xs |}.
  - intros d r. cbn. rewrite bool_decide_eq_true. split.
    + intros -> _. split; [|done]. intros _ v [= <-]. intros sv w [= <-] Hw. vm_compute in Hw. by injection Hw as <-.
    + intros Hs. destruct (Hs eq_refl) as [Hl _]. symmetry. by apply (Hl eq_refl (KConst (Int64 200)) eq_refl (Int64 200) (Int64 200)).
  - intros xs ys out Hp ->. by rewrite Hp.
  - intros xs out _ ->. done.
Defined.

(** Three rows on their shards, and backends that project them. *)
Definition cluster : Cluster :=
  mkCluster (fun n => if bool_decide (n = "a") then [Int64 5] else if bool_decide (n = "b") then [Int64 200; Int64 300] else []) (fun _ => tt).

Definition projecting (k0 : option Z) (rq : Request) : result PgWireError (list BackendResult) :=
  Ok [BRows id_schema (id_row <$> List.filter (keeps k0) (cl_rows cluster (rq_database rq))) None].

Lemma cluster_placed : placed "xxhash64_v1" router cluster.
Proof.
  intros n k Hin. cbn [cluster cl_rows] in Hin. case_bool_decide as Ea; [subst n|case_bool_decide as Eb; [subst n|by apply elem_of_nil in Hin]].
  - apply list_elem_of_singleton in Hin as ->. vm_compute. reflexivity.
  - apply elem_of_cons in Hin as [->|Hin]; [|apply list_elem_of_singleton in Hin as ->]; vm_compute; reflexivity.
Qed.


Lemma plain_select_answered_witness :
  exists rqs rows tag, do_query (projecting None) proxy router read_all (seconds 16) None tt = Some (tt, (rqs, Ok [RQuery id_schema rows tag])) /\
    rows ≡ₚ project (s := select_ids None) <$> List.filter (matches (s := select_ids None) tt) (table topo cluster).
Proof.
  apply (plain_select_answered (select_ids None) topo router cluster "xxhash64_v1" read_all id_schema (projecting None))
    with (fp := 0);
    [vm_compute; reflexivity|repeat constructor; concrete|apply cluster_placed| |vm_compute; reflexivity..|repeat constructor; by eexists].
  intros e ep ro _ _. eexists _, None. split; [reflexivity|]. apply Permutation_refl.
Defined.

End AnswerExample.
