(* ===== verification/Go.v ===== *)
(** * The Go standard library the operator uses

    [math/bits], [cmp], [slices] and [strings], as far as the operator's sources call
    them. [slices.SortFunc] promises a sorted permutation of its input; the insertion sort
    of [Rust] is one, and the only one when the keys are distinct ([sort_canonical]). *)

From S2P Require Import Prelude Rust.
From stdpp Require Import sorting.

Open Scope Z_scope.

(** ** [math/bits] *)

(** [bits.Mul64]: the high and the low word of the product. *)
Definition Mul64 (x y : Z) : Z * Z := (x * y / two64, (x * y) mod two64).

(** [bits.Div64]: panics when the quotient does not fit. *)
Definition Div64 (hi lo y : Z) : option Z :=
  if (y =? 0) || (y <=? hi) then None else Some ((hi * two64 + lo) / y).

(** ** [cmp], [slices] and [strings] *)

(** [cmp.Or] of comparisons. *)
Fixpoint cmp_or (l : list comparison) : comparison :=
  match l with
  | [] => Eq
  | Eq :: l' => cmp_or l'
  | c :: _ => c
  end.

Definition le_of {A} (cmp : A -> A -> comparison) (a b : A) : bool :=
  match cmp a b with Gt => false | _ => true end.

(** [slices.EqualFunc]. *)
Fixpoint equal_func {A} (eq : A -> A -> bool) (l k : list A) : bool :=
  match l, k with
  | [], [] => true
  | a :: l', b :: k' => eq a b && equal_func eq l' k'
  | _, _ => false
  end.

(** [strings.ToLower] on the ASCII identifiers the CRD admits. *)
Definition ToLower (s : string) : string := str_of (ascii_lower <$> bytes s).

(** [strings.ToLower] of a string with a byte outside ASCII. *)
Class GoUnicode := { unicode_lower : string -> string }.

Definition is_ascii (s : string) : bool := forallb (fun c => byte_val c <? 128) (bytes s).

(** [strings.ToLower]. *)
Definition to_lower `{GoUnicode} (s : string) : string := if is_ascii s then ToLower s else unicode_lower s.

(** ** Lemmas *)

Lemma Div64_Mul64 x y parts hi lo : 0 <= x < parts -> 0 <= y < two64 -> Mul64 x y = (hi, lo) ->
  Div64 hi lo parts = Some (x * y / parts).
Proof.
  unfold Mul64, Div64. intros Hx Hy [= <- <-].
  assert (x * y / two64 <= x) by (apply Z.div_le_upper_bound; unfold two64 in *; nia).
  destruct (_ || _) eqn:E; [lia|]. do 2 f_equal. rewrite Z.mul_comm. symmetry. apply Z_div_mod_eq_full.
Qed.

Lemma equal_func_spec {A B} (f : A -> B) (eq : A -> A -> bool) l : (forall a b, eq a b = true <-> f a = f b) ->
  forall k, equal_func eq l k = true <-> f <$> l = f <$> k.
Proof.
  intros Heq. induction l as [|a l IH]; intros [|b k]; try done.
  cbn [equal_func]. rewrite andb_true_iff, Heq, IH, !fmap_cons. split; [by intros [-> ->]|by intros [= -> ->]].
Qed.

Lemma insert_sorted_fmap {A B} (f : A -> B) le le' x l : (forall a b, le' (f a) (f b) = le a b) ->
  insert_sorted le' (f x) (f <$> l) = f <$> insert_sorted le x l.
Proof. intros Hle. induction l as [|y l IH]; [done|]. cbn. rewrite Hle. destruct (le _ _); cbn; by rewrite ?IH. Qed.

Lemma sort_by_fmap {A B} (f : A -> B) le le' l : (forall a b, le' (f a) (f b) = le a b) ->
  sort_by le' (f <$> l) = f <$> sort_by le l.
Proof. intros Hle. induction l as [|y l IH]; [done|]. cbn. rewrite IH. by apply insert_sorted_fmap. Qed.

Lemma NoDup_fmap_inj {A B} (f : A -> B) l x y : NoDup (f <$> l) -> x ∈ l -> y ∈ l -> f x = f y -> x = y.
Proof.
  intros Hnd [i Hi]%list_elem_of_lookup [j Hj]%list_elem_of_lookup Hf. assert (i = j) as ->; [|congruence].
  eapply (NoDup_lookup (f <$> l)); [done| |]; rewrite list_lookup_fmap, ?Hi, ?Hj; [done|]. cbn. by rewrite Hf.
Qed.

Lemma NoDup_fmap_filter {A B} (f : A -> B) (p : A -> bool) l : NoDup (f <$> l) -> NoDup (f <$> List.filter p l).
Proof.
  induction l as [|x l IH]; [done|]. rewrite fmap_cons. intros [Hni Hnd]%NoDup_cons. cbn [List.filter].
  destruct (p x); [|by apply IH]. rewrite fmap_cons. apply NoDup_cons. split; [|by apply IH].
  intros Hin. apply Hni. apply list_elem_of_fmap in Hin as (y & -> & Hy). apply elem_of_filter_b in Hy as [Hy _].
  by apply list_elem_of_fmap_2.
Qed.

(** *** Orders *)

(** A lawful three-way comparison. *)
Record Ordered {A} (cmp : A -> A -> comparison) : Prop := {
  cmp_eq a b : cmp a b = Eq <-> a = b;
  cmp_antisym a b : cmp a b = CompOpp (cmp b a);
  cmp_trans a b c : cmp a b = Lt -> cmp b c = Lt -> cmp a c = Lt;
}.

(** Lexicographic comparison of lists. *)
Fixpoint lex {A} (cmp : A -> A -> comparison) (l k : list A) : comparison :=
  match l, k with
  | [], [] => Eq
  | [], _ :: _ => Lt
  | _ :: _, [] => Gt
  | a :: l', b :: k' => match cmp a b with Eq => lex cmp l' k' | c => c end
  end.

Lemma lex_ordered {A} (cmp : A -> A -> comparison) : Ordered cmp -> Ordered (lex cmp).
Proof.
  intros [He Ha Ht]. split.
  - induction a as [|x l IH]; intros [|y k]; cbn; try done. destruct (cmp x y) eqn:E.
    + apply He in E as ->. rewrite IH. split; [by intros ->|by intros [= ->]].
    + split; [done|]. intros [= -> ->]. by rewrite (proj2 (He y y) eq_refl) in E.
    + split; [done|]. intros [= -> ->]. by rewrite (proj2 (He y y) eq_refl) in E.
  - induction a as [|x l IH]; intros [|y k]; cbn; try done. rewrite (Ha x y). destruct (cmp y x); cbn; [apply IH|done|done].
  - induction a as [|x l IH]; intros [|y k] [|z m]; cbn; try done.
    destruct (cmp x y) eqn:E1, (cmp y z) eqn:E2; try done.
    + apply He in E1 as ->. rewrite E2. apply IH.
    + apply He in E1 as ->. by rewrite E2.
    + apply He in E2 as ->. by rewrite E1.
    + by rewrite (Ht x y z E1 E2).
Qed.

(** Comparison of pairs, the first component first. *)
Definition pair_cmp {A B} (ca : A -> A -> comparison) (cb : B -> B -> comparison) (x y : A * B) : comparison :=
  match ca (fst x) (fst y) with Eq => cb (snd x) (snd y) | c => c end.

Lemma pair_ordered {A B} (ca : A -> A -> comparison) (cb : B -> B -> comparison) : Ordered ca -> Ordered cb -> Ordered (pair_cmp ca cb).
Proof.
  intros [He Ha Ht] [He' Ha' Ht']. unfold pair_cmp. split.
  - intros [x1 x2] [y1 y2]. cbn. destruct (ca x1 y1) eqn:E.
    + apply He in E as ->. rewrite He'. split; [by intros ->|by intros [= ->]].
    + split; [done|]. intros [= -> ->]. by rewrite (proj2 (He y1 y1) eq_refl) in E.
    + split; [done|]. intros [= -> ->]. by rewrite (proj2 (He y1 y1) eq_refl) in E.
  - intros [x1 x2] [y1 y2]. cbn. rewrite (Ha x1 y1). destruct (ca y1 x1); cbn; [apply Ha'|done|done].
  - intros [x1 x2] [y1 y2] [z1 z2]. cbn. destruct (ca x1 y1) eqn:E1, (ca y1 z1) eqn:E2; try done.
    + apply He in E1 as ->. rewrite E2. apply Ht'.
    + apply He in E1 as ->. by rewrite E2.
    + apply He in E2 as ->. by rewrite E1.
    + by rewrite (Ht x1 y1 z1 E1 E2).
Qed.

Lemma Z_ordered : Ordered Z.compare.
Proof.
  split; [apply Z.compare_eq_iff|by intros a b; apply Z.compare_antisym|]. intros a b c. rewrite !Z.compare_lt_iff. lia.
Qed.

Lemma N_ordered : Ordered N.compare.
Proof.
  split; [apply N.compare_eq_iff|by intros a b; apply N.compare_antisym|]. intros a b c. rewrite !N.compare_lt_iff. lia.
Qed.

Lemma string_compare_lex s t : String.compare s t = lex N.compare (N_of_ascii <$> bytes s) (N_of_ascii <$> bytes t).
Proof.
  revert t. induction s as [|a s IH]; intros [|b t]; try done. cbn. unfold Ascii.compare.
  destruct (N.compare _ _); [apply IH|done|done].
Qed.

Lemma ordered_key {A B} (f : A -> B) (cmp : B -> B -> comparison) : Inj (=) (=) f -> Ordered cmp ->
  Ordered (fun a b => cmp (f a) (f b)).
Proof.
  intros Hf [He Ha Ht]. split; [|by intros; apply Ha|by intros a b c; apply Ht].
  intros a b. rewrite He. split; [apply Hf|by intros ->].
Qed.

Lemma string_ordered : Ordered String.compare.
Proof.
  assert (Ordered (fun s t => lex N.compare (N_of_ascii <$> bytes s) (N_of_ascii <$> bytes t))) as [He Ha Ht].
  { apply (ordered_key (fun s => N_of_ascii <$> bytes s)); [|apply lex_ordered, N_ordered].
    intros s t Hst. apply (inj bytes). eapply (list_fmap_eq_inj N_of_ascii); [|exact Hst].
    intros a b Hab. rewrite <- (ascii_N_embedding a), <- (ascii_N_embedding b). by f_equal. }
  split; intros; rewrite ?string_compare_lex in *; eauto.
Qed.

(** *** Sorting *)

Section sort_by_key.
Context {A K : Type} (key : A -> K) (cmpk : K -> K -> comparison) (cmp : A -> A -> comparison).
Hypothesis Hord : Ordered cmpk.
Hypothesis Hcmp : forall a b, cmp a b = cmpk (key a) (key b).

Lemma le_of_total a b : le_of cmp a b = false -> le_of cmp b a = true.
Proof using Hord Hcmp. unfold le_of. rewrite (Hcmp b a), (cmp_antisym _ Hord), <- Hcmp. by destruct (cmp a b). Qed.

Lemma le_of_antisym a b : le_of cmp a b = true -> le_of cmp b a = true -> key a = key b.
Proof using Hord Hcmp.
  unfold le_of. rewrite (Hcmp b a), (cmp_antisym _ Hord), <- Hcmp. destruct (cmp a b) eqn:E; [|done|done].
  intros _ _. rewrite Hcmp in E. by apply (cmp_eq _ Hord).
Qed.

Lemma le_of_trans a b c : le_of cmp a b = true -> le_of cmp b c = true -> le_of cmp a c = true.
Proof using Hord Hcmp.
  unfold le_of. rewrite !Hcmp. destruct (cmpk (key a) (key b)) eqn:E1; [| |done]; intros _.
  - apply (cmp_eq _ Hord) in E1. by rewrite E1.
  - destruct (cmpk (key b) (key c)) eqn:E2; [| |done]; intros _.
    + apply (cmp_eq _ Hord) in E2. by rewrite <- E2, E1.
    + by rewrite (cmp_trans _ Hord _ _ _ E1 E2).
Qed.

(** Any order of the input gives the same output when the keys are distinct. *)
Lemma sort_canonical l k : NoDup (key <$> l) -> l ≡ₚ k -> sort_by (le_of cmp) l = sort_by (le_of cmp) k.
Proof using Hord Hcmp.
  intros Hnd Hp. apply (StronglySorted_unique_strong (fun a b => le_of cmp a b = true)).
  - intros x y Hx Hy Hxy Hyx. rewrite sort_by_perm in Hx, Hy. rewrite <- Hp in Hy.
    apply list_elem_of_lookup in Hx as [i Hi], Hy as [j Hj]. pose proof (le_of_antisym x y Hxy Hyx) as Hk.
    assert (i = j) as ->; [|congruence]. eapply (NoDup_lookup (key <$> l)); [done| |]; rewrite list_lookup_fmap, ?Hi, ?Hj; [done|].
    cbn. by rewrite Hk.
  - apply sort_by_sorted; [apply le_of_total|apply le_of_trans].
  - apply sort_by_sorted; [apply le_of_total|apply le_of_trans].
  - by rewrite !sort_by_perm.
Qed.
End sort_by_key.
