(* ===== verification/OpProg.v ===== *)
(** * Programs of requests

    A reconcile of the operator is a program that asks the API server and the agents, one
    request after another, and computes on the answers. What the requests of a controller
    are is the parameter [E]; how they are answered is left open, so a theorem about all
    runs covers failures, stale caches and every interleaving with other writers. *)

From S2P Require Import Prelude.

(** [Stop] is an error returned to the work queue: nothing more is asked. *)
Inductive Prog (E : Type -> Type) (A : Type) : Type :=
| Done (a : A)
| Stop
| Req {R : Type} (q : E R) (k : R -> Prog E A).
Arguments Done {E A}.
Arguments Stop {E A}.
Arguments Req {E A R}.

#[export] Instance Prog_ret (E : Type -> Type) : MRet (Prog E) := fun A a => Done a.

Fixpoint prog_bind {E : Type -> Type} {A B} (f : A -> Prog E B) (p : Prog E A) : Prog E B :=
  match p with
  | Done a => f a
  | Stop => Stop
  | Req q k => Req q (fun x => prog_bind f (k x))
  end.
#[export] Instance Prog_bind (E : Type -> Type) : MBind (Prog E) := @prog_bind E.

Definition req {E : Type -> Type} {R} (q : E R) : Prog E R := Req q Done.

(** A request whose failure is the reconcile's. *)
Definition must {E : Type -> Type} (q : E bool) : Prog E unit := Req q (fun ok : bool => if ok then Done tt else Stop).

(** ** Runs *)

(** A request with its answer. *)
Definition Event (E : Type -> Type) : Type := {R : Type & (E R * R)%type}.
Definition answered {E : Type -> Type} {R} (q : E R) (x : R) : Event E := existT R (q, x).

(** A run of a program to its end, with the answers it got, in order. *)
Fixpoint runs {E : Type -> Type} {A} (p : Prog E A) (tr : list (Event E)) (a : A) : Prop :=
  match p with
  | Done b => tr = [] /\ b = a
  | Stop => False
  | Req q k => exists x tr', tr = answered q x :: tr' /\ runs (k x) tr' a
  end.

(** After the answers [tr] the program asks [e]. *)
Fixpoint asks {E : Type -> Type} {A} (p : Prog E A) (tr : list (Event E)) (e : sigT E) : Prop :=
  match p with
  | Done _ | Stop => False
  | Req q k => (tr = [] /\ e = existT _ q) \/ exists x tr', tr = answered q x :: tr' /\ asks (k x) tr' e
  end.

(** All ends of a program. *)
Definition yields {E : Type -> Type} {A} (p : Prog E A) (Q : A -> Prop) : Prop := forall tr a, runs p tr a -> Q a.

(** Whatever [p] asks, after the answers in [tr] and its own, is allowed by [I]. *)
Definition allowed {E : Type -> Type} (I : list (Event E) -> sigT E -> Prop) {A} (tr : list (Event E)) (p : Prog E A) : Prop :=
  forall tr' e, asks p tr' e -> I (tr ++ tr') e.

(** ** Lemmas *)

(** Traces grow at their ends. *)
Lemma sub_l {A} (l k : list A) : l ⊆ l ++ k.
Proof. intros x Hx. apply elem_of_app. by left. Qed.
Lemma sub_r {A} (l k : list A) : k ⊆ l ++ k.
Proof. intros x Hx. apply elem_of_app. by right. Qed.

Section lemmas.
Context {E : Type -> Type}.

Lemma run_bind {A B} (p : Prog E A) (f : A -> Prog E B) tr b : runs (p ≫= f) tr b ->
  exists a tr1 tr2, tr = tr1 ++ tr2 /\ runs p tr1 a /\ runs (f a) tr2 b.
Proof.
  revert tr. induction p as [a| |R q k IH]; intros tr; cbn.
  - intros Hr. by exists a, [], tr.
  - done.
  - intros (x & tr' & -> & Hr). destruct (IH x tr' Hr) as (a & tr1 & tr2 & -> & H1 & H2).
    exists a, (answered q x :: tr1), tr2. split_and!; [done| |done]. by exists x, tr1.
Qed.

Lemma runs_req {A R} (q : E R) (k : R -> Prog E A) tr a : runs (req q ≫= k) tr a ->
  exists x tr', tr = answered q x :: tr' /\ runs (k x) tr' a.
Proof. done. Qed.

Lemma runs_step {A R} (p : Prog E A) (q : E R) k x tr a : p = Req q k -> runs (k x) tr a -> runs p (answered q x :: tr) a.
Proof. intros -> H. by exists x, tr. Qed.

Lemma yields_done {A} (a : A) (Q : A -> Prop) : Q a -> yields (E := E) (Done a) Q.
Proof. intros H tr b [_ <-]. done. Qed.
Lemma yields_stop {A} (Q : A -> Prop) : yields (E := E) Stop Q.
Proof. by intros tr a. Qed.
Lemma yields_bind {A B} (p : Prog E A) (f : A -> Prog E B) R Q : yields p R -> (forall a, R a -> yields (f a) Q) -> yields (p ≫= f) Q.
Proof. intros Hp Hf tr b (a & tr1 & tr2 & _ & H1 & H2)%run_bind. eapply Hf; [by eapply Hp|done]. Qed.
Lemma yields_any {A B} (p : Prog E A) (f : A -> Prog E B) Q : (forall a, yields (f a) Q) -> yields (p ≫= f) Q.
Proof. intros Hf. apply (yields_bind p f (fun _ => True)); [by intros ???|auto]. Qed.

(** A request of a sequence is one of the first part, or of the rest after a run of it. *)
Lemma asks_bind {A B} (p : Prog E A) (f : A -> Prog E B) tr e : asks (p ≫= f) tr e ->
  asks p tr e \/ exists a tr1 tr2, tr = tr1 ++ tr2 /\ runs p tr1 a /\ asks (f a) tr2 e.
Proof.
  revert tr. induction p as [a| |R q k IH]; intros tr; cbn.
  - intros Hr. right. by exists a, [], tr.
  - done.
  - intros [[-> ->]|(x & tr' & -> & Hr)]; [by left; left|].
    destruct (IH x tr' Hr) as [?|(a & tr1 & tr2 & -> & H1 & H2)]; [left; right; by exists x, tr'|].
    right. exists a, (answered q x :: tr1), tr2. split_and!; [done| |done]. by exists x, tr1.
Qed.

Lemma asks_req {A R} (q : E R) (k : R -> Prog E A) tr e : asks (req q ≫= k) tr e ->
  (tr = [] /\ e = existT _ q) \/ exists x tr', tr = answered q x :: tr' /\ asks (k x) tr' e.
Proof. done. Qed.

Lemma asks_here {A R} (p : Prog E A) (q : E R) k : p = Req q k -> asks p [] (existT _ q).
Proof. intros ->. by left. Qed.

Lemma asks_after {A R} (p : Prog E A) (q : E R) k x tr e : p = Req q k -> asks (k x) tr e -> asks p (answered q x :: tr) e.
Proof. intros -> Ha. right. by exists x, tr. Qed.

(** Two programs in sequence run one after the other. *)
Lemma runs_bind_intro {A B} (p : Prog E A) (f : A -> Prog E B) tr1 tr2 a b :
  runs p tr1 a -> runs (f a) tr2 b -> runs (p ≫= f) (tr1 ++ tr2) b.
Proof.
  revert tr1. induction p as [a'| |R q k IH]; intros tr1; cbn; [by intros [-> ->]|done|].
  intros (x & tr' & -> & Hr) Hf. exists x, (tr' ++ tr2). split; [done|]. by apply IH.
Qed.

Section allowed_rules.
Variable I : list (Event E) -> sigT E -> Prop.

Lemma allowed_done {A} tr (a : A) : allowed I tr (Done a).
Proof. by intros tr' e. Qed.
Lemma allowed_stop {A} tr : allowed I tr (@Stop E A).
Proof. by intros tr' e. Qed.
Lemma allowed_Req {A R} tr (q : E R) (k : R -> Prog E A) :
  I tr (existT _ q) -> (forall x, allowed I (tr ++ [answered q x]) (k x)) -> allowed I tr (Req q k).
Proof.
  intros Hq Hk tr' e [[-> ->]|(x & tr1 & -> & Ha)]; [by rewrite app_nil_r|].
  replace (tr ++ answered q x :: tr1) with ((tr ++ [answered q x]) ++ tr1) by (by rewrite <- app_assoc). by apply Hk.
Qed.
Lemma allowed_req {A R} tr (q : E R) (k : R -> Prog E A) :
  I tr (existT _ q) -> (forall x, allowed I (tr ++ [answered q x]) (k x)) -> allowed I tr (req q ≫= k).
Proof. apply allowed_Req. Qed.
Lemma allowed_bind {A B} tr (p : Prog E A) (f : A -> Prog E B) :
  allowed I tr p -> (forall a tr1, runs p tr1 a -> allowed I (tr ++ tr1) (f a)) -> allowed I tr (p ≫= f).
Proof.
  intros Hp Hf tr' e [Ha|(a & tr1 & tr2 & -> & Hr & Ha)]%asks_bind; [by apply Hp|].
  rewrite app_assoc. by eapply Hf.
Qed.
Lemma allowed_weaken {A} (J : list (Event E) -> sigT E -> Prop) tr (p : Prog E A) :
  (forall tr' e, tr ⊆ tr' -> J tr' e -> I tr' e) -> allowed J tr p -> allowed I tr p.
Proof. intros Hi Hp tr' e Ha. apply Hi; [apply sub_l|by apply Hp]. Qed.
Lemma allowed_must tr (q : E bool) : I tr (existT _ q) -> allowed I tr (must q).
Proof. intros Hq. apply allowed_Req; [done|]. intros []; [apply allowed_done|apply allowed_stop]. Qed.
End allowed_rules.

End lemmas.

Ltac yield :=
  repeat match goal with
  | |- yields (Done _) _ => apply yields_done
  | |- yields Stop _ => apply yields_stop
  | |- yields (_ ≫= _) _ => apply yields_any; intros ?
  | |- yields (match ?x with _ => _ end) _ => destruct x
  end.

(** One step of a program whose requests are to be shown allowed. *)
Ltac step_allowed :=
  match goal with
  | |- allowed _ _ (Done _) => apply allowed_done
  | |- allowed _ _ Stop => apply allowed_stop
  | |- allowed _ _ (must _) => apply allowed_must
  | |- allowed _ _ (req _ ≫= _) => apply allowed_req; [|intros ?]
  | |- allowed _ _ (_ ≫= _) => apply allowed_bind; [|intros ? ? ?]
  | |- allowed _ _ (if ?b then _ else _) => let E := fresh "Hif" in destruct b eqn:E
  end.

(** One step of a concrete trace. *)
Ltac next_ask := eapply asks_after; [reflexivity|].
Ltac next_run := eapply runs_step; [reflexivity|].
