(* ===== verification/OpConfig.v ===== *)
(** * PostgreSQL configuration of an instance

    [src/operator/internal/pgconfig/pgconfig.go]: the parameters and resources the
    operator derives from a size class, its overrides and the parameters of the user, and
    the content hash that drives restarts. A Go map of parameters is a [gmap]; the user's
    map is the list of its entries in the order one iteration visits them, because Go
    leaves that order open. Quantities are those of [k8s.io/apimachinery], a parameter
    here ([Quantity]), and so are the lower-casing of strings outside ASCII
    ([GoUnicode]) and SHA-256 ([Sha256]). An [int64] is a [Z] whose products wrap; Go
    divides towards zero. *)

From S2P Require Import Prelude Rust Go.
From stdpp Require Import gmap strings.

Open Scope Z_scope.

(** ** What the package calls *)

(** [resource.Quantity]: [MustParse] of a literal, [Value] and [MilliValue] as [int64],
    the canonical text, and equality ([Cmp]). *)
Class Quantity := {
  quantity : Type;
  MustParse : string -> quantity;
  Value : quantity -> Z;
  MilliValue : quantity -> Z;
  quantity_string : quantity -> string;
  quantity_equal : quantity -> quantity -> bool;
}.

(** [hex.EncodeToString] of the SHA-256 sum. *)
Class Sha256 := { sha256_hex : list ascii -> string }.

(** [strings.TrimSpace] trims the characters that Rust's [str::trim] does. *)
Definition TrimSpace (s : string) : string := str_of (trim_bytes (bytes s)).

(** [strings.Trim] with a cutset of single bytes. *)
Fixpoint trim_left (cut : list ascii) (l : list ascii) : list ascii :=
  match l with
  | c :: l' => if bool_decide (c ∈ cut) then trim_left cut l' else l
  | [] => []
  end.

Definition Trim (cut : list ascii) (s : string) : string :=
  str_of (reverse (trim_left cut (reverse (trim_left cut (bytes s))))).

(** [strconv.Atoi] where [int] has 64 bits. *)
Definition Atoi (s : string) : option Z := from_str_radix_signed 10 i64_MIN i64_MAX (bytes s).

(** [%d]. *)
Definition fmt_d (z : Z) : string := str_of (fmt_i z).

(** ** Names *)

Definition SyncQuorum : string := "quorum".
Definition SyncOff : string := "off".
Definition ParamWalLevel : string := "wal_level".
Definition ParamSharedBuffers : string := "shared_buffers".
Definition ParamWorkMem : string := "work_mem".
Definition ParamRandomPageCost : string := "random_page_cost".
Definition ParamMaxConnections : string := "max_connections".
Definition ssdRandomPageCost : string := "1.1".
Definition logicalWalLevel : string := "logical".

Definition sharedBuffersCap : Z := Z.shiftl 32 30.
Definition maintenanceCap : Z := Z.shiftl 2 30.
Definition workMemFloor : Z := Z.shiftl 4 20.
Definition ioWorkersMax : Z := 32.
Definition minWorkerProcesses : Z := 8.

(** ** Size classes *)

Record classProfile := mkProfile {
  cp_cpu : string; cp_memory : string; cp_replicas : Z; cp_sync_mode : string; cp_sync_number : Z;
  cp_max_connections : Z; cp_max_wal_size : string }.

Definition classProfiles : list (string * classProfile) :=
  [("S", mkProfile "1" "4Gi" 2 SyncOff 0 100 "2GB");
   ("M", mkProfile "4" "16Gi" 3 SyncQuorum 1 200 "8GB");
   ("L", mkProfile "8" "64Gi" 3 SyncQuorum 1 300 "16GB");
   ("XL", mkProfile "16" "128Gi" 5 SyncQuorum 2 400 "32GB")]%string.

Definition profile_of (class : string) : option classProfile :=
  snd <$> find_first (fun e => bool_decide (fst e = class)) classProfiles.

Record SynchronousSpec := mkSync { sy_mode : string; sy_number : Z }.

Record ResourceRequirements `{Quantity} := mkResources { rr_limits : gmap string quantity; rr_requests : gmap string quantity }.
Arguments mkResources {_} _ _.

Record StorageSpec `{Quantity} := mkStorage { stg_size : quantity; stg_class : string; stg_wal_separate : bool }.
Arguments mkStorage {_} _ _ _.

Record SizeOverrides `{Quantity} := mkOverrides {
  ov_resources : option ResourceRequirements; ov_storage : option StorageSpec; ov_replicas : option Z;
  ov_synchronous : option SynchronousSpec }.
Arguments mkOverrides {_} _ _ _ _.

Record Inputs `{Quantity} := mkInputs {
  in_class : string; in_overrides : option SizeOverrides;
  in_user_parameters : list (string * string); in_slot_headroom : Z }.
Arguments mkInputs {_} _ _ _ _.

Record Rendered `{Quantity} := mkRendered {
  re_resources : ResourceRequirements; re_replicas : Z; re_synchronous : SynchronousSpec;
  re_parameters : gmap string string; re_config_hash : string }.
Arguments mkRendered {_} _ _ _ _ _.

Inductive ConfigError :=
| InvalidName (k : string)
| NewlineInValue (key : string)
| RejectedParameter (key : string)
| DuplicateParameter (key : string)
| UnknownClass (class : string)
| TooFewReplicas (replicas : Z)
| TooManySynchronous (number replicas : Z).

(** ** The user's parameters *)

(** [gucNameRe]: [^[a-z_][a-z0-9_.]*$]. *)
Definition guc_start (c : ascii) : bool := is_ascii_lower c || bool_decide (c = "_"%char).
Definition guc_char (c : ascii) : bool := guc_start c || is_ascii_digit c || bool_decide (c = "."%char).
Definition gucNameRe (s : string) : bool :=
  match bytes s with c :: l => guc_start c && forallb guc_char l | [] => false end.

Definition rejectedParameters : list string :=
  ["archive_command"; "restore_command"; "archive_cleanup_command"; "recovery_end_command"; "ssl_passphrase_command";
   "shared_preload_libraries"; "session_preload_libraries"; "local_preload_libraries"; "archive_library";
   "oauth_validator_libraries"; "jit_provider"; "include"; "include_if_exists"; "include_dir"]%string.

(** [strings.ContainsAny(v, "\r\n")]. *)
Definition has_newline (v : string) : bool := existsb (fun c => (byte_val c =? 13) || (byte_val c =? 10)) (bytes v).

Definition guc_key `{GoUnicode} (k : string) : string := to_lower (TrimSpace k).

Fixpoint sanitize_loop `{GoUnicode} (out : gmap string string) (in_ : list (string * string)) : result ConfigError (gmap string string) :=
  match in_ with
  | [] => Ok out
  | (k, v) :: rest =>
      let key := guc_key k in
      if negb (gucNameRe key) then Err (InvalidName k)
      else if has_newline v then Err (NewlineInValue key)
      else if bool_decide (key ∈ rejectedParameters) then Err (RejectedParameter key)
      else if bool_decide (is_Some (out !! key)) then Err (DuplicateParameter key)
      else sanitize_loop (<[key := v]> out) rest
  end.

Definition sanitizeUserParameters `{GoUnicode} (in_ : list (string * string)) : result ConfigError (gmap string string) :=
  sanitize_loop ∅ in_.

(** ** Rendering *)

Definition platformFixed (replicas headroom : Z) : gmap string string :=
  let slots := replicas + headroom in
  list_to_map
    [(ParamWalLevel, logicalWalLevel); ("archive_mode", "on"); ("hot_standby_feedback", "on");
     ("sync_replication_slots", "on"); ("password_encryption", "scram-sha-256");
     ("max_replication_slots", fmt_d slots); ("max_wal_senders", fmt_d slots);
     ("wal_log_hints", "on"); ("max_prepared_transactions", "0")]%string.

Definition pickQuantity `{Quantity} (rr : ResourceRequirements) (name : string) (fallback : quantity) : quantity :=
  match rr_limits rr !! name with
  | Some v => v
  | None => default fallback (rr_requests rr !! name)
  end.

Definition mb (n : Z) : string := fmt_d (Z.shiftr n 20) +:+ "MB".

(** *** The content hash *)

Definition field (s : string) : list ascii := fmt_i (Z.of_nat (str_len s)) ++ ":"%char :: bytes s.

(** [slices.Sorted(maps.Keys(m))]. *)
Definition sorted_keys {V} (m : gmap string V) : list string :=
  sort_by (le_of String.compare) (fst <$> map_to_list m).

(** The bytes written to the hash. *)
Definition hash_text (params : gmap string string) (cpu memory : string) : list ascii :=
  concat (field <$> (["cpu"%string; cpu; "memory"%string; memory] ++
    concat ((fun k => [k; default EmptyString (params !! k)]) <$> sorted_keys params))).

Definition hashConfig `{Sha256} (params : gmap string string) (cpu memory : string) : string :=
  sha256_hex (hash_text params cpu memory).

(** *** [Render] *)

(** The connections that the memory per backend is divided by: the user's
    [max_connections] when it reads as a positive number. *)
Definition quotes : list ascii := ["'"%char; byte_of 34].
Definition max_conn (profile : classProfile) (userParams : gmap string string) : Z :=
  match userParams !! ParamMaxConnections with
  | Some v =>
      match Atoi (TrimSpace (Trim quotes (TrimSpace v))) with
      | Some n => if n >? 0 then n else cp_max_connections profile
      | None => cp_max_connections profile
      end
  | None => cp_max_connections profile
  end.

(** The parameters derived from memory, CPU and connections. *)
Definition derived (profile : classProfile) (memBytes cpuCores maxConn : Z) : gmap string string :=
  list_to_map
    [(ParamSharedBuffers, mb (Z.min (memBytes ÷ 4) sharedBuffersCap));
     ("effective_cache_size", mb (as_i64 (memBytes * 70) ÷ 100));
     ("maintenance_work_mem", mb (Z.min (memBytes ÷ 16) maintenanceCap));
     (ParamWorkMem, mb (Z.max (memBytes ÷ 4 ÷ maxConn) workMemFloor));
     (ParamMaxConnections, fmt_d maxConn);
     ("max_wal_size", cp_max_wal_size profile);
     ("checkpoint_completion_target", "0.9");
     (ParamRandomPageCost, ssdRandomPageCost);
     ("effective_io_concurrency", "256");
     ("wal_compression", "zstd");
     ("max_worker_processes", fmt_d (Z.max cpuCores minWorkerProcesses));
     ("max_parallel_workers", fmt_d cpuCores);
     ("io_method", "worker");
     ("io_workers", fmt_d (Z.min (Z.max (cpuCores ÷ 2) 3) ioWorkersMax))]%string.

(** The class, with M as the default. *)
Definition class_of `{Quantity} (in_ : Inputs) : string := if str_is_empty (in_class in_) then "M"%string else in_class in_.

(** CPU, memory, replicas and synchronous replication after the overrides. *)
Definition sized `{Quantity} (in_ : Inputs) (profile : classProfile) : quantity * quantity * Z * SynchronousSpec :=
  let cpu := MustParse (cp_cpu profile) in
  let memory := MustParse (cp_memory profile) in
  let sync := mkSync (cp_sync_mode profile) (cp_sync_number profile) in
  match in_overrides in_ with
  | None => (cpu, memory, cp_replicas profile, sync)
  | Some o =>
      (match ov_resources o with Some rr => pickQuantity rr "cpu" cpu | None => cpu end,
       match ov_resources o with Some rr => pickQuantity rr "memory" memory | None => memory end,
       default (cp_replicas profile) (ov_replicas o),
       default sync (ov_synchronous o))
  end.

Definition Render `{Quantity} `{GoUnicode} `{Sha256} (in_ : Inputs) : result ConfigError (Rendered) :=
  profile ← ok_or (UnknownClass (class_of in_)) (profile_of (class_of in_));
  userParams ← sanitizeUserParameters (in_user_parameters in_);
  let '(cpu, memory, replicas, sync) := sized in_ profile in
  if replicas <? 1 then Err (TooFewReplicas replicas)
  else if negb (bool_decide (sy_mode sync = SyncOff)) && (sy_number sync >=? replicas)
  then Err (TooManySynchronous (sy_number sync) replicas)
  else
    let cpuCores := Z.max (MilliValue cpu ÷ 1000) 1 in
    let params :=
      platformFixed replicas (in_slot_headroom in_) ∪
      (userParams ∪ derived profile (Value memory) cpuCores (max_conn profile userParams)) in
    let list_ := list_to_map [("cpu", cpu); ("memory", memory)]%string in
    Ok (mkRendered (mkResources list_ list_) replicas sync params
          (hashConfig params (quantity_string cpu) (quantity_string memory))).

(** ** What a change needs *)

Definition reloadableParameters : list string :=
  ["effective_cache_size"; "maintenance_work_mem"; ParamWorkMem; "max_wal_size"; "checkpoint_completion_target";
   ParamRandomPageCost; "effective_io_concurrency"; "wal_compression"; "max_parallel_workers"; "io_workers";
   "hot_standby_feedback"; "sync_replication_slots"; "password_encryption"]%string.

Definition changed (old new : gmap string string) (k : string) : bool := negb (bool_decide (old !! k = new !! k)).

(** The loop over the sorted keys: [reload] and [restart] grow at their ends. *)
Fixpoint classify_loop (old new : gmap string string) (keys : list string) (reload restart : list string) : list string * list string :=
  match keys with
  | [] => (reload, restart)
  | k :: keys' =>
      if negb (changed old new k) then classify_loop old new keys' reload restart
      else if bool_decide (k ∈ reloadableParameters) then classify_loop old new keys' (reload ++ [k]) restart
      else classify_loop old new keys' reload (restart ++ [k])
  end.

Definition ClassifyDiff (old new : gmap string string) : list string * list string :=
  classify_loop old new (sorted_keys (old ∪ new)) [] [].

(** ** Lemmas *)

(** *** Sanitizing *)

Definition entry_ok `{GoUnicode} (e : string * string) : bool :=
  gucNameRe (guc_key (fst e)) && negb (has_newline (snd e)) && negb (bool_decide (guc_key (fst e) ∈ rejectedParameters)).

Definition keyed `{GoUnicode} (e : string * string) : string * string := (guc_key (fst e), snd e).

Lemma keyed_keys `{GoUnicode} l : (keyed <$> l).*1 = guc_key <$> l.*1.
Proof. by rewrite <- !list_fmap_compose. Qed.

(** The loop succeeds exactly when every entry is admissible and no normalized name
    occurs twice; it then adds all of them. *)
Lemma sanitize_loop_Ok `{GoUnicode} l : forall out m,
  sanitize_loop out l = Ok m <->
  forallb entry_ok l = true /\ NoDup (guc_key <$> l.*1) /\ Forall (fun k => out !! k = None) (guc_key <$> l.*1) /\
  m = list_to_map (keyed <$> l) ∪ out.
Proof.
  induction l as [|[k v] l IH]; intros out m; cbn [sanitize_loop forallb].
  { cbn. rewrite (left_id_L ∅ (∪)). split; [intros [= ->]|intros (_ & _ & _ & ->)]; eauto using NoDup_nil_2. }
  rewrite !fmap_cons. unfold entry_ok at 1. cbn [fst snd keyed list_to_map].
  destruct (gucNameRe _); cbn [negb andb]; [|split; [done|by intros [? _]]].
  destruct (has_newline v); cbn [negb andb]; [split; [done|by intros [? _]]|].
  destruct (bool_decide (guc_key k ∈ _)); cbn [negb andb]; [split; [done|by intros [? _]]|].
  case_bool_decide as Hout; [split; [done|]|].
  { intros (_ & _ & [Hn _]%Forall_cons & _). rewrite Hn in Hout. by destruct Hout. }
  apply eq_None_not_Some in Hout.
  rewrite IH, NoDup_cons, Forall_cons. split.
  - intros (Hl & Hnd & Hf & ->). assert (Hni : guc_key k ∉ guc_key <$> l.*1).
    { intros Hin. rewrite Forall_forall in Hf. specialize (Hf _ Hin). by rewrite lookup_insert_eq in Hf. }
    split_and!; [done|done|done|done| |].
    + eapply Forall_impl; [exact Hf|]. cbn. intros k'. rewrite lookup_insert_None. by intros [? _].
    + rewrite <- insert_union_r; [by rewrite insert_union_l|]. apply not_elem_of_list_to_map_1.
      by rewrite keyed_keys.
  - intros (Hl & [Hni Hnd] & [_ Hf] & ->). split_and!; [done|done| |].
    + rewrite Forall_forall in *. intros k' Hk'. rewrite lookup_insert_ne; [by apply Hf|]. by intros <-.
    + rewrite <- insert_union_r; [by rewrite insert_union_l|]. apply not_elem_of_list_to_map_1.
      by rewrite keyed_keys.
Qed.

Lemma sanitize_Ok `{GoUnicode} l m :
  sanitizeUserParameters l = Ok m <->
  forallb entry_ok l = true /\ NoDup (guc_key <$> l.*1) /\ m = list_to_map (keyed <$> l).
Proof.
  unfold sanitizeUserParameters. rewrite sanitize_loop_Ok, (right_id_L ∅ (∪)).
  split; [by intros (? & ? & _ & ?)|]. intros (? & ? & ?). split_and!; [done|done| |done].
  apply Forall_forall. intros k _. apply lookup_empty.
Qed.

Lemma sanitize_perm `{GoUnicode} l l' m : l ≡ₚ l' -> sanitizeUserParameters l = Ok m -> sanitizeUserParameters l' = Ok m.
Proof.
  intros Hp. rewrite !sanitize_Ok, !forallb_spec. intros (Hf & Hnd & ->). split_and!.
  - intros x Hx. apply Hf. by rewrite Hp.
  - by rewrite <- Hp.
  - apply list_to_map_proper; [by rewrite keyed_keys|]. by apply fmap_Permutation.
Qed.

(** What an admitted map of parameters guarantees of each entry. *)
Definition clean (k v : string) : Prop :=
  gucNameRe k = true /\ (k ∉ rejectedParameters) /\ has_newline v = false.

Lemma sanitize_clean `{GoUnicode} l m : sanitizeUserParameters l = Ok m -> map_Forall clean m.
Proof.
  intros (Hl & _ & ->)%sanitize_Ok k v Hk. apply elem_of_list_to_map_2 in Hk.
  apply list_elem_of_fmap in Hk as ([k0 v0] & [= -> ->] & Hin).
  rewrite forallb_spec in Hl. specialize (Hl _ Hin). unfold entry_ok in Hl. cbn in Hl.
  rewrite !andb_true_iff, !negb_true_iff, bool_decide_eq_false in Hl. destruct Hl as [[Hg Hv] Hr]. by split_and!.
Qed.

Lemma sanitize_lookup `{GoUnicode} l m k v : sanitizeUserParameters l = Ok m -> (k, v) ∈ l -> m !! guc_key k = Some v.
Proof.
  intros (_ & Hnd & ->)%sanitize_Ok Hin. apply elem_of_list_to_map_1; [by rewrite keyed_keys|].
  by apply (list_elem_of_fmap_2 keyed _ (k, v)).
Qed.

(** *** The values that the platform writes *)

Lemma newline_graphic l : Forall (fun c => graphic c = true) l -> has_newline (str_of l) = false.
Proof.
  unfold has_newline. rewrite bytes_str_of. intros Hl. apply not_true_iff_false. rewrite existsb_spec.
  intros (c & Hin & Hc). rewrite Forall_forall in Hl. specialize (Hl c Hin).
  unfold graphic, in_range in Hl. lia.
Qed.

Lemma newline_d z : has_newline (fmt_d z) = false.
Proof. apply newline_graphic, fmt_i_graphic. Qed.

Lemma newline_mb n : has_newline (mb n) = false.
Proof.
  unfold mb. rewrite <- (str_of_bytes (fmt_d _ +:+ _)). apply newline_graphic. rewrite bytes_app. apply Forall_app. split.
  - unfold fmt_d. rewrite bytes_str_of. apply fmt_i_graphic.
  - by repeat constructor.
Qed.

Definition clean_b (e : string * string) : Prop := clean (fst e) (snd e).

Lemma list_to_map_clean l : Forall clean_b l -> map_Forall clean (list_to_map (M := gmap string string) l).
Proof.
  intros Hl k v Hk. apply elem_of_list_to_map_2 in Hk. rewrite Forall_forall in Hl. by apply (Hl _ Hk).
Qed.

Ltac clean_entries :=
  repeat (constructor; [split_and!;
    [reflexivity
    |apply (bool_decide_unpack _); reflexivity
    |first [apply newline_d | apply newline_mb | reflexivity]]|]).

Lemma platform_clean replicas headroom : map_Forall clean (platformFixed replicas headroom).
Proof. apply list_to_map_clean. clean_entries. constructor. Qed.

Lemma profile_of_Some class profile : profile_of class = Some profile -> profile ∈ classProfiles.*2.
Proof.
  unfold profile_of. rewrite fmap_Some. intros (e & [He _]%find_first_Some & ->).
  by apply list_elem_of_fmap_2.
Qed.

Lemma derived_clean profile mem cores conns : profile ∈ classProfiles.*2 -> map_Forall clean (derived profile mem cores conns).
Proof.
  intros Hp. apply list_to_map_clean.
  do 4 (apply elem_of_cons in Hp as [->|Hp]; [clean_entries; constructor|]). by apply not_elem_of_nil in Hp.
Qed.

(** *** The hash *)

Lemma digits_no_colon z : ":"%char ∉ fmt_i z.
Proof.
  assert (Hd : forall x, Forall (fun c => c <> ":"%char) (fmt_radix false 10 x)).
  { intros x. apply fmt_radix_Forall; [lia|]. intros d Hd Heq. apply (f_equal byte_val) in Heq.
    rewrite digit_char_val in Heq by lia.
    change (byte_val ":"%char) with 58 in Heq. repeat case_match; lia. }
  intros Hin. unfold fmt_i in Hin. destruct (z <? 0).
  - apply elem_of_cons in Hin as [?|Hin]; [done|]. pose proof (Hd (- z)) as Hf. rewrite Forall_forall in Hf. by apply (Hf _ Hin).
  - pose proof (Hd z) as Hf. rewrite Forall_forall in Hf. by apply (Hf _ Hin).
Qed.

(** The length of a Go string is an [int]. *)
Definition fits (s : string) : Prop := Z.of_nat (str_len s) <= i64_MAX.

Lemma field_inj s t rest rest' : fits s -> fits t -> field s ++ rest = field t ++ rest' -> s = t /\ rest = rest'.
Proof.
  unfold field, fits. intros Hs Ht Heq. rewrite <- !app_assoc in Heq. cbn [app] in Heq.
  pose proof (split_once_bytes_app _ _ (bytes s ++ rest) (digits_no_colon (Z.of_nat (str_len s)))) as E1.
  rewrite Heq, split_once_bytes_app in E1 by apply digits_no_colon. injection E1 as El Er.
  assert (Hlen : Z.of_nat (str_len s) = Z.of_nat (str_len t)).
  { assert (forall u : string, Z.of_nat (str_len u) <= i64_MAX -> is_i64 (Z.of_nat (str_len u))) as Hi.
    { intros u Hu. unfold is_i64, i64_MIN in *. lia. }
    apply Hi in Hs, Ht. apply parse_fmt_i64 in Hs, Ht. congruence. }
  apply app_inj_1 in Er as [Hb Hr]; [|unfold str_len in Hlen; lia]. split; [by apply (inj bytes)|done].
Qed.

Lemma fields_inj l : forall k, Forall fits l -> Forall fits k -> concat (field <$> l) = concat (field <$> k) -> l = k.
Proof.
  assert (Hne : forall s rest, field s ++ rest <> []).
  { intros s rest. unfold field. destruct (fmt_i _); discriminate. }
  induction l as [|s l IH]; intros [|t k] Hl Hk; rewrite ?fmap_cons; cbn [concat fmap list_fmap].
  - done.
  - intros Heq. by edestruct (Hne t).
  - intros Heq. by edestruct (Hne s).
  - apply Forall_cons in Hl as [Hs Hl], Hk as [Ht Hk]. intros [-> Heq]%field_inj; [|done|done]. f_equal. by apply IH.
Qed.

Lemma elem_of_sorted_keys {V} (m : gmap string V) k : k ∈ sorted_keys m <-> is_Some (m !! k).
Proof.
  unfold sorted_keys. rewrite sort_by_perm. rewrite list_elem_of_fmap. split.
  - intros ([k' v] & -> & Hin%elem_of_map_to_list). by exists v.
  - intros [v Hv]. exists (k, v). split; [done|]. by apply elem_of_map_to_list.
Qed.

Lemma pairs_inj {A} (f g : A -> A) l : forall k,
  concat ((fun x => [x; f x]) <$> l) = concat ((fun x => [x; g x]) <$> k) -> l = k /\ Forall (fun x => f x = g x) l.
Proof.
  induction l as [|x l IH]; intros [|y k]; rewrite ?fmap_cons; cbn; [done|done|done|].
  intros [= -> Hf Heq]. apply IH in Heq as [-> Hl]. split; [done|by constructor].
Qed.

Definition fits_map (m : gmap string string) : Prop := map_Forall (fun k v => fits k /\ fits v) m.

Lemma hash_fields_fit m : fits_map m -> Forall fits (concat ((fun k => [k; default EmptyString (m !! k)]) <$> sorted_keys m)).
Proof.
  intros Hm. apply Forall_concat, Forall_fmap, Forall_forall. intros k [v Hv]%elem_of_sorted_keys. cbn.
  rewrite Hv. destruct (Hm _ _ Hv). by repeat constructor.
Qed.

Lemma hash_text_inj p p' cpu cpu' mem mem' : fits_map p -> fits_map p' -> Forall fits [cpu; cpu'; mem; mem'] ->
  hash_text p cpu mem = hash_text p' cpu' mem' -> p = p' /\ cpu = cpu' /\ mem = mem'.
Proof.
  intros Hp Hp' Hf Heq. apply fields_inj in Heq.
  - injection Heq as Hc Hm Hl. split_and!; [|done|done]. apply pairs_inj in Hl as [Hk Hv].
    apply map_eq. intros k. destruct (decide (k ∈ sorted_keys p)) as [Hin|Hni].
    + rewrite Forall_forall in Hv. specialize (Hv k Hin). pose proof Hin as Hin'. rewrite Hk in Hin'.
      apply elem_of_sorted_keys in Hin as [v Hv1], Hin' as [v' Hv2]. rewrite Hv1, Hv2 in *. cbn in Hv. by f_equal.
    + pose proof Hni as Hni'. rewrite Hk in Hni'. rewrite elem_of_sorted_keys in Hni, Hni'.
      by rewrite <- eq_None_not_Some in *; rewrite Hni, Hni'.
  - rewrite !Forall_cons in Hf. destruct Hf as (? & ? & ? & ? & _). cbn [app].
    repeat (constructor; [first [done|unfold fits, i64_MAX; cbn; lia]|]). by apply hash_fields_fit.
  - rewrite !Forall_cons in Hf. destruct Hf as (? & ? & ? & ? & _). cbn [app].
    repeat (constructor; [first [done|unfold fits, i64_MAX; cbn; lia]|]). by apply hash_fields_fit.
Qed.

(** *** Classifying a change *)

Lemma classify_loop_filter old new keys : forall reload restart,
  classify_loop old new keys reload restart =
  (reload ++ List.filter (fun k => changed old new k && bool_decide (k ∈ reloadableParameters)) keys,
   restart ++ List.filter (fun k => changed old new k && negb (bool_decide (k ∈ reloadableParameters))) keys).
Proof.
  induction keys as [|k keys IH]; intros reload restart; cbn [classify_loop List.filter]; [by rewrite !app_nil_r|].
  destruct (changed old new k); cbn [negb andb]; [|apply IH].
  destruct (bool_decide _); cbn [negb]; rewrite IH; by rewrite <- app_assoc.
Qed.

Lemma sorted_keys_sorted {V} (m : gmap string V) : StronglySorted (fun a b => String.compare a b = Lt) (sorted_keys m).
Proof.
  assert (Hnd : NoDup (sorted_keys m)) by (unfold sorted_keys; rewrite sort_by_perm; apply NoDup_fst_map_to_list).
  assert (Hs : StronglySorted (fun a b => le_of String.compare a b = true) (sorted_keys m)).
  { apply sort_by_sorted; [apply (le_of_total id String.compare); [apply string_ordered|done]|].
    apply (le_of_trans id String.compare); [apply string_ordered|done]. }
  revert Hnd Hs. generalize (sorted_keys m). induction l as [|k l IH]; [by constructor|].
  intros [Hni Hnd]%NoDup_cons [Hs Hf]%StronglySorted_inv. constructor; [by apply IH|].
  rewrite Forall_forall in *. intros k' Hk'. specialize (Hf k' Hk'). unfold le_of in Hf.
  destruct (String.compare k k') eqn:E; [|done|done]. apply (cmp_eq _ string_ordered) in E as ->. done.
Qed.

Lemma filter_sublist {A} (p : A -> bool) l : sublist (List.filter p l) l.
Proof. induction l as [|x l IH]; cbn; [constructor|]. destruct (p x); by constructor. Qed.

(** *** The render *)

Lemma Render_Ok `{Quantity} `{GoUnicode} `{Sha256} (in_ : Inputs) r : Render in_ = Ok r <->
  exists profile user cpu memory sync,
    profile_of (class_of in_) = Some profile /\ sanitizeUserParameters (in_user_parameters in_) = Ok user /\
    sized in_ profile = (cpu, memory, re_replicas r, sync) /\ 1 <= re_replicas r /\
    (sy_mode sync = SyncOff \/ sy_number sync < re_replicas r) /\
    let list_ := list_to_map [("cpu", cpu); ("memory", memory)]%string in
    let params := platformFixed (re_replicas r) (in_slot_headroom in_) ∪
      (user ∪ derived profile (Value memory) (Z.max (MilliValue cpu ÷ 1000) 1) (max_conn profile user)) in
    r = mkRendered (mkResources list_ list_) (re_replicas r) sync params
          (hashConfig params (quantity_string cpu) (quantity_string memory)).
Proof.
  unfold Render. split.
  - intros (profile & Hp%ok_or_Ok & Hr)%result_bind_Ok. apply result_bind_Ok in Hr as (user & Hu & Hr).
    destruct (sized in_ profile) as [[[cpu memory] replicas] sync] eqn:Es.
    destruct (replicas <? 1) eqn:E1; [done|]. destruct (_ && _) eqn:E2; [done|]. injection Hr as <-. cbn.
    exists profile, user, cpu, memory, sync. rewrite Es. split_and!; [done..|lia| |done].
    destruct (bool_decide_reflect (sy_mode sync = SyncOff)); [by left|]. right. cbn in E2. lia.
  - intros (profile & user & cpu & memory & sync & -> & Hu & Hs & Hn & Hsync & Hr). cbn [ok_or mbind result_bind].
    rewrite Hu. cbn [mbind result_bind]. rewrite Hs. destruct (_ <? 1) eqn:E1; [lia|].
    destruct (_ && _) eqn:E2; [|by rewrite Hr].
    apply andb_prop in E2 as [E2%negb_true_iff%bool_decide_eq_false E3]. destruct Hsync; [done|lia].
Qed.

(** *** Memory *)

Lemma max_conn_pos profile user : profile ∈ classProfiles.*2 -> 1 <= max_conn profile user.
Proof.
  intros Hp. assert (Hc : 1 <= cp_max_connections profile).
  { do 4 (apply elem_of_cons in Hp as [->|Hp]; [done|]). by apply not_elem_of_nil in Hp. }
  unfold max_conn. repeat case_match; lia.
Qed.

(** A derived parameter that neither the platform nor the user sets. *)
Lemma render_derived `{Quantity} `{GoUnicode} `{Sha256} (in_ : Inputs) r profile cpu memory replicas sync :
  Render in_ = Ok r -> profile_of (class_of in_) = Some profile -> sized in_ profile = (cpu, memory, replicas, sync) ->
  exists user, sanitizeUserParameters (in_user_parameters in_) = Ok user /\
    forall k, platformFixed replicas (in_slot_headroom in_) !! k = None -> k ∉ guc_key <$> (in_user_parameters in_).*1 ->
    re_parameters r !! k = derived profile (Value memory) (Z.max (MilliValue cpu ÷ 1000) 1) (max_conn profile user) !! k.
Proof.
  intros (profile' & user & cpu' & memory' & sync' & Hp' & Hu & Hs' & _ & _ & Hr)%Render_Ok Hp Hs.
  rewrite Hp in Hp'. injection Hp' as <-. rewrite Hs in Hs'. injection Hs' as <- <- Hrep <-. exists user. split; [done|].
  intros k Hk Hni. rewrite Hr. cbn [re_parameters]. rewrite <- Hrep. rewrite lookup_union_r by done. apply lookup_union_r.
  apply sanitize_Ok in Hu as (_ & _ & ->). apply not_elem_of_list_to_map_1. by rewrite keyed_keys.
Qed.

Lemma as_i64_id z : is_i64 z -> as_i64 z = z.
Proof. unfold is_i64, as_i64. intros Hz. rewrite Z.mod_small; unfold i64_MIN, i64_MAX, two64 in *; lia. Qed.

Lemma quot_bound a b : 0 <= a -> 0 < b -> 0 <= a ÷ b /\ b * (a ÷ b) <= a.
Proof. intros Ha Hb. rewrite Z.quot_div_nonneg by lia. split; [apply Z.div_pos; lia|apply Z.mul_div_le; lia]. Qed.

(** ** Theorems *)

(** Whatever the user asks for, a rendered configuration has every platform parameter at
    the platform's value (2PC off, logical WAL, slots for the replicas and the headroom),
    every other parameter of the user at the user's value, no execution or
    library-loading or include directive under any spelling, only well-formed names, no
    value that spans lines, at least one replica, and fewer synchronous standbys than
    replicas unless synchronous replication is off. *)
Theorem render_enforces `{Quantity} `{GoUnicode} `{Sha256} (in_ : Inputs) r :
  Render in_ = Ok r ->
  let fixed := platformFixed (re_replicas r) (in_slot_headroom in_) in
  (forall k v, fixed !! k = Some v -> re_parameters r !! k = Some v) /\
  (forall k v, (k, v) ∈ in_user_parameters in_ -> fixed !! guc_key k = None -> re_parameters r !! guc_key k = Some v) /\
  map_Forall clean (re_parameters r) /\
  1 <= re_replicas r /\ (sy_mode (re_synchronous r) = SyncOff \/ sy_number (re_synchronous r) < re_replicas r).
Proof.
  intros (profile & user & cpu & memory & sync & Hp & Hu & _ & Hn & Hs & Hr)%Render_Ok. destruct r as [res replicas sync' params hash].
  cbn [re_parameters re_replicas re_synchronous] in *. injection Hr as -> -> -> ->.
  split_and!; [|..|done|done].
  - intros k v Hk. by apply lookup_union_Some_l.
  - intros k v Hin Hk. rewrite lookup_union_r by done. apply lookup_union_Some_l. by eapply sanitize_lookup.
  - apply map_Forall_union_2; [apply platform_clean|]. apply map_Forall_union_2; [by eapply sanitize_clean|].
    eapply derived_clean, profile_of_Some, Hp.
Qed.

(** [Render] accepts exactly the inputs with a known class, admissible user parameters of
    distinct normalized names, a replica, and synchronous standbys below the replicas; and
    its result does not depend on the order in which Go visits the user's map. *)
Theorem render_deterministic `{Quantity} `{GoUnicode} `{Sha256} (in_ : Inputs) user' :
  in_user_parameters in_ ≡ₚ user' ->
  res_ok (Render in_) =
    res_ok (Render (mkInputs (in_class in_) (in_overrides in_) user' (in_slot_headroom in_))) /\
  (is_ok (Render in_) = true <->
   exists profile, profile_of (class_of in_) = Some profile /\
     forallb entry_ok user' = true /\ NoDup (guc_key <$> user'.*1) /\
     let '(_, _, replicas, sync) := sized in_ profile in
     1 <= replicas /\ (sy_mode sync = SyncOff \/ sy_number sync < replicas)).
Proof.
  intros Hperm. set (in' := mkInputs _ _ _ _).
  assert (Hsan : forall m, sanitizeUserParameters (in_user_parameters in_) = Ok m <-> sanitizeUserParameters user' = Ok m)
    by (intros m; split; by apply sanitize_perm).
  split.
  - assert (Hiff : forall r, Render in_ = Ok r <-> Render in' = Ok r).
    { intros r. rewrite !Render_Ok. setoid_rewrite Hsan. done. }
    destruct (Render in_) as [r|] eqn:E; [by rewrite (proj1 (Hiff r) eq_refl)|].
    destruct (Render in') as [r'|] eqn:E'; [|done]. by pose proof (proj2 (Hiff r') eq_refl).
  - destruct (Render in_) as [r|e] eqn:E; cbn [is_ok].
    + split; [|done]. intros _. apply Render_Ok in E as (profile & user & cpu & memory & sync & Hp & Hu & Hs & Hn & Hsy & _).
      exists profile. apply Hsan, sanitize_Ok in Hu as (Hf & Hnd & _). rewrite Hs. done.
    + split; [done|]. intros (profile & Hp & Hf & Hnd & Hs). exfalso.
      destruct (sized in_ profile) as [[[cpu memory] replicas] sync] eqn:Es. destruct Hs as [Hn Hsy].
      assert (Hok : exists r, Render in_ = Ok r); [|destruct Hok; congruence].
      eexists (mkRendered _ replicas sync _ _). apply Render_Ok.
      exists profile, (list_to_map (keyed <$> user')), cpu, memory, sync.
      split_and!; [done|by apply Hsan, sanitize_Ok|done|done|done|cbn zeta; cbn [re_replicas]; reflexivity].
Qed.

(** Two configurations have the same hash only if they have the same parameters, CPU and
    memory, as far as SHA-256 does not collide on their texts: no content of a name or
    value can make two parameter maps hash the same bytes. *)
Theorem hash_distinguishes `{Sha256} p p' cpu cpu' mem mem' :
  fits_map p -> fits_map p' -> Forall fits [cpu; cpu'; mem; mem'] ->
  (sha256_hex (hash_text p cpu mem) = sha256_hex (hash_text p' cpu' mem') -> hash_text p cpu mem = hash_text p' cpu' mem') ->
  hashConfig p cpu mem = hashConfig p' cpu' mem' <-> p = p' /\ cpu = cpu' /\ mem = mem'.
Proof.
  intros Hp Hp' Hf Hcr. split; [|by intros (-> & -> & ->)]. intros Heq. by apply hash_text_inj, Hcr.
Qed.

(** The two lists of [ClassifyDiff] are sorted, without repetition, and split the changed
    parameters: those known to be reloadable, and all others. *)
Theorem classify_exact old new :
  let '(reload, restart) := ClassifyDiff old new in
  (forall k, k ∈ reload <-> old !! k <> new !! k /\ k ∈ reloadableParameters) /\
  (forall k, k ∈ restart <-> old !! k <> new !! k /\ (k ∉ reloadableParameters)) /\
  StronglySorted (fun a b => String.compare a b = Lt) reload /\ StronglySorted (fun a b => String.compare a b = Lt) restart.
Proof.
  unfold ClassifyDiff. rewrite classify_loop_filter. cbn [app].
  assert (Hin : forall k, old !! k <> new !! k -> k ∈ sorted_keys (old ∪ new)).
  { intros k Hk. apply elem_of_sorted_keys. rewrite lookup_union. by destruct (old !! k), (new !! k). }
  split_and!.
  - intros k. rewrite elem_of_filter_b, andb_true_iff. unfold changed. rewrite negb_true_iff, bool_decide_eq_false, bool_decide_eq_true.
    naive_solver.
  - intros k. rewrite elem_of_filter_b, andb_true_iff. unfold changed. rewrite !negb_true_iff, !bool_decide_eq_false.
    naive_solver.
  - eapply sorted_sublist; [apply filter_sublist|apply sorted_keys_sorted].
  - eapply sorted_sublist; [apply filter_sublist|apply sorted_keys_sorted].
Qed.

(** The memory parameters of a rendered configuration, where the user leaves them to the
    platform: shared buffers take a quarter of the memory and at most 32 GiB, the cache
    estimate 70 percent, maintenance a sixteenth and at most 2 GiB, and [work_mem] for every
    connection together a quarter of the memory unless the floor of 4 MiB is more. The
    connections are the user's [max_connections] where that reads as a positive number. *)
Theorem render_memory `{Quantity} `{GoUnicode} `{Sha256} (in_ : Inputs) r profile cpu memory replicas sync :
  Render in_ = Ok r -> profile_of (class_of in_) = Some profile -> sized in_ profile = (cpu, memory, replicas, sync) ->
  0 <= Value memory -> Value memory * 70 <= i64_MAX ->
  Forall (fun k => k ∉ guc_key <$> (in_user_parameters in_).*1)
    [ParamSharedBuffers; "effective_cache_size"; "maintenance_work_mem"; ParamWorkMem]%string ->
  exists user sb ec mm wm, let conns := max_conn profile user in
    sanitizeUserParameters (in_user_parameters in_) = Ok user /\ 1 <= conns /\
    re_parameters r !! ParamSharedBuffers = Some (mb sb) /\ 0 <= sb <= sharedBuffersCap /\ 4 * sb <= Value memory /\
    re_parameters r !! "effective_cache_size"%string = Some (mb ec) /\ 0 <= ec /\ 100 * ec <= 70 * Value memory /\
    re_parameters r !! "maintenance_work_mem"%string = Some (mb mm) /\ 0 <= mm <= maintenanceCap /\ 16 * mm <= Value memory /\
    re_parameters r !! ParamWorkMem = Some (mb wm) /\ workMemFloor <= wm /\
    (wm = workMemFloor \/ 4 * (conns * wm) <= Value memory).
Proof.
  intros Hr Hp Hs Hm0 Hm1 Hk. rewrite !Forall_cons in Hk. destruct Hk as (Hsb & Hec & Hmm & Hwm & _).
  destruct (render_derived in_ r _ _ _ _ _ Hr Hp Hs) as (user & Hu & Hd). exists user.
  rewrite (Hd ParamSharedBuffers eq_refl Hsb), (Hd "effective_cache_size"%string eq_refl Hec),
    (Hd "maintenance_work_mem"%string eq_refl Hmm), (Hd ParamWorkMem eq_refl Hwm).
  pose proof (max_conn_pos profile user (profile_of_Some _ _ Hp)) as Hc. revert Hc.
  generalize (max_conn profile user). intros conns Hc. clear - Hu Hm0 Hm1 Hc.
  destruct (quot_bound (Value memory) 4) as [Hq1 Hq2]; [lia..|].
  destruct (quot_bound (Value memory) 16) as [Hq3 Hq4]; [lia..|].
  destruct (quot_bound (Value memory * 70) 100) as [Hq5 Hq6]; [lia..|].
  destruct (quot_bound (Value memory ÷ 4) conns) as [Hq7 Hq8]; [lia..|].
  unfold derived. rewrite (as_i64_id (Value memory * 70)) by (unfold is_i64, i64_MIN; lia).
  do 4 eexists. cbv zeta. split_and!; try exact Hu; try exact Hc; try reflexivity;
    change sharedBuffersCap with 34359738368; change maintenanceCap with 2147483648; change workMemFloor with 4194304; try lia.
Qed.

(** ** Witnesses *)

Module ConfigExample.

(** Quantities as milli-units, for the literals of the size classes. *)
#[local] Instance milli : Quantity := {|
  quantity := Z;
  MustParse := fun s =>
    let gib n := n * 1073741824 * 1000 in
    default 0 (snd <$> find_first (fun e => bool_decide (fst e = s))
      [("1", 1000); ("4", 4000); ("8", 8000); ("16", 16000);
       ("4Gi", gib 4); ("16Gi", gib 16); ("64Gi", gib 64); ("128Gi", gib 128)]%string);
  Value := fun q => q / 1000;
  MilliValue := fun q => q;
  quantity_string := fun q => str_of (fmt_i q);
  quantity_equal := Z.eqb;
|}.

#[local] Instance no_unicode : GoUnicode := {| unicode_lower := fun s => s |}.
#[local] Instance identity_hash : Sha256 := {| sha256_hex := str_of |}.

(** A user who wants two-phase commit, more connections, and a custom parameter. *)
Definition wishes : list (string * string) :=
  [(" Max_Prepared_Transactions", "100"); ("max_connections", "'400'"); ("my.setting", "x")]%string.
Definition request : Inputs := mkInputs "L" None wishes 16.

Definition rendered : Rendered :=
  match Render request with Ok r => r | Err _ => mkRendered (mkResources ∅ ∅) 0 (mkSync EmptyString 0) ∅ EmptyString end.

Lemma request_renders : Render request = Ok rendered.
Proof. vm_cast_no_check (@eq_refl (result ConfigError Rendered) (Ok rendered)). Qed.

Lemma render_enforces_witness :
  re_parameters rendered !! "max_prepared_transactions"%string = Some "0"%string /\
  re_parameters rendered !! "my.setting"%string = Some "x"%string /\
  map_Forall clean (re_parameters rendered).
Proof.
  destruct (render_enforces request rendered request_renders) as (Hfix & Huser & Hclean & _).
  split; [|split; [|exact Hclean]].
  - apply Hfix. reflexivity.
  - apply (Huser "my.setting"%string); [|reflexivity]. apply (bool_decide_unpack _). vm_compute. exact I.
Defined.

Lemma render_deterministic_witness :
  res_ok (Render request) = res_ok (Render (mkInputs "L" None (reverse wishes) 16)) /\ is_ok (Render request) = true.
Proof.
  assert (Hp : in_user_parameters request ≡ₚ reverse wishes) by (symmetry; apply reverse_Permutation).
  destruct (render_deterministic request (reverse wishes) Hp) as [Heq Hiff].
  split; [exact Heq|]. apply Hiff. exists (mkProfile "8" "64Gi" 3 SyncQuorum 1 300 "16GB").
  split; [reflexivity|]. split; [vm_compute; reflexivity|]. split; [apply (bool_decide_unpack _); vm_compute; exact I|].
  cbn. split; [lia|right; lia].
Defined.

(** Moving a delimiter from a value into a name changes the hash. *)
Lemma hash_distinguishes_witness :
  hashConfig {["a=b"%string := "c"%string]} "1" "4Gi" <> hashConfig {["a"%string := "b=c"%string]} "1" "4Gi".
Proof.
  assert (Hfit : forall k v : string, fits k -> fits v -> fits_map {[k := v]}).
  { intros k v Hk Hv. by apply map_Forall_singleton. }
  rewrite (hash_distinguishes {["a=b"%string := "c"%string]} {["a"%string := "b=c"%string]} "1" "1" "4Gi" "4Gi").
  - intros (Hp & _). apply (f_equal (lookup "a"%string)) in Hp. vm_compute in Hp. discriminate.
  - apply Hfit; vm_compute; discriminate.
  - apply Hfit; vm_compute; discriminate.
  - repeat constructor; vm_compute; discriminate.
  - apply (inj str_of).
Defined.

Lemma render_memory_witness : exists sb wm,
  re_parameters rendered !! ParamSharedBuffers = Some (mb sb) /\ 4 * sb <= 68719476736 /\
  re_parameters rendered !! ParamWorkMem = Some (mb wm) /\ (wm = workMemFloor \/ 4 * (400 * wm) <= 68719476736).
Proof.
  destruct (render_memory request rendered (mkProfile "8" "64Gi" 3 SyncQuorum 1 300 "16GB") 8000 68719476736000 3
              (mkSync SyncQuorum 1)) as (user & sb & ec & mm & wm & Hu & _ & Hsb & _ & Hsb2 & _ & _ & _ & _ & _ & _ & Hwm & _ & Hwm2).
  - exact request_renders.
  - reflexivity.
  - reflexivity.
  - vm_compute. discriminate.
  - vm_compute. discriminate.
  - apply (bool_decide_unpack _). vm_compute. exact I.
  - exists sb, wm. split_and!; [exact Hsb|exact Hsb2|exact Hwm|].
    assert (Hmax : max_conn (mkProfile "8" "64Gi" 3 SyncQuorum 1 300 "16GB") user = 400).
    { unfold max_conn. change ParamMaxConnections with (guc_key "max_connections").
      rewrite (sanitize_lookup _ _ "max_connections"%string "'400'"%string Hu); [vm_compute; reflexivity|].
      apply (bool_decide_unpack _). vm_compute. exact I. }
    rewrite Hmax in Hwm2. exact Hwm2.
Defined.

(** PostgreSQL reads [0x1000] as 4096 connections; [strconv.Atoi] does not read it, so the
    rendered [work_mem] is the one of the class's 200 connections while the server is told 4096. *)
Example hex_connections_under_divided :
  let r := Render (mkInputs "M" None [("max_connections", "0x1000")]%string 16) in
  let m := Render (mkInputs "M" None [] 16) in
  (re_parameters <$> res_ok r) ≫= lookup "max_connections"%string = Some "0x1000"%string /\
  (re_parameters <$> res_ok r) ≫= lookup ParamWorkMem = (re_parameters <$> res_ok m) ≫= lookup ParamWorkMem.
Proof. vm_compute. done. Qed.

(** 70 percent of 200 PiB is computed in an [int64] that overflows. *)
Example cache_size_overflows :
  derived (mkProfile "4" "16Gi" 3 SyncQuorum 1 200 "8GB") 225179981368524800 4 200 !! "effective_cache_size"%string
  = Some (mb (-26841453779128156)).
Proof. vm_compute. reflexivity. Qed.

End ConfigExample.
