(* ===== verification/OpTopology.v ===== *)
(** * The operator's key ranges

    [src/operator/internal/topology/{keyrange,keyspaceid}.go] and
    [src/operator/internal/controller/reshard.go]: the Go implementation of the keyspace,
    which must stay in lockstep with the Rust one ([Keyspace], [ShardFn]), and the check
    that the targets of a reshard exactly replace their source. A [uint64] is a [Z] and
    wraps; a Go panic is [None]. *)

From S2P Require Import Prelude Rust Go Keyspace ShardFn Topo.

Open Scope Z_scope.

(** ** Ranges *)

(** [KeyRange]; its zero value is the full range. *)
Record GoRange := mkGoRange { gr_start : Z; gr_end : Z; gr_closed : bool }.

#[export] Instance GoRange_eq_dec : EqDecision GoRange.
Proof. solve_decision. Defined.

Inductive RangeError :=
| GoEmptyRange (start end_ : Z)
| GoZeroParts
| GoTooNarrow (parts : Z)
| GoInvalidBound (s : string)
| GoInvalidRange (s : string)
| GoNoRanges
| GoFirstStart (start : Z)
| GoGap (i : nat)
| GoLastEnd (end_ : Z).

Definition FullRange : GoRange := mkGoRange 0 0 false.

Definition NewKeyRange (start end_ : Z) : result RangeError GoRange :=
  if start >=? end_ then Err (GoEmptyRange start end_) else Ok (mkGoRange start end_ true).

Definition NewOpenKeyRange (start : Z) : GoRange := mkGoRange start 0 false.

Definition IsFull (r : GoRange) : bool := negb (gr_closed r) && (gr_start r =? 0).

Definition Contains (r : GoRange) (id : Z) : bool :=
  (id >=? gr_start r) && (negb (gr_closed r) || (id <? gr_end r)).

Definition Intersects (r other : GoRange) : bool :=
  (negb (gr_closed other) || (gr_start r <? gr_end other)) &&
  (negb (gr_closed r) || (gr_start other <? gr_end r)).

(** The width of a range that is not full, as a [uint64]. *)
Definition go_width (r : GoRange) : Z :=
  if negb (gr_closed r) then as_u64 (- gr_start r) else as_u64 (gr_end r - gr_start r).

Definition go_bound (r : GoRange) (parts i : Z) : option Z :=
  if negb (gr_closed r) && (gr_start r =? 0) then Div64 i 0 parts
  else
    let '(hi, lo) := Mul64 i (go_width r) in
    q ← Div64 hi lo parts;
    Some (as_u64 (gr_start r + q)).

(** The body of the loop of [SplitEvenly]. *)
Definition go_part (r : GoRange) (parts i : Z) : option GoRange :=
  start ← go_bound r parts i;
  if i =? parts - 1 then Some (mkGoRange start (gr_end r) (gr_closed r))
  else
    end_ ← go_bound r parts (i + 1);
    Some (mkGoRange start end_ true).

Definition SplitEvenly (r : GoRange) (parts : Z) : option (result RangeError (list GoRange)) :=
  if parts =? 0 then Some (Err GoZeroParts)
  else if negb (IsFull r) && (go_width r <? parts) then Some (Err (GoTooNarrow parts))
  else
    ranges ← mapM (fun i => go_part r parts (Z.of_nat i)) (seq 0 (Z.to_nat parts));
    Some (Ok ranges).

(** ** Bounds as text *)

(** [strings.TrimRight(s, "0")], on the reversed byte string. *)
Fixpoint trim_zeros_rev (l : list ascii) : list ascii :=
  match l with
  | c :: l' => if bool_decide (c = "0"%char) then trim_zeros_rev l' else l
  | [] => []
  end.

Definition FormatBound (v : Z) : string :=
  if v =? 0 then EmptyString
  else
    let s := reverse (trim_zeros_rev (reverse (fixed_digits false 16 16 v))) in
    str_of (if Nat.odd (length s) then s ++ ["0"%char] else s).

(** The loop over the bytes: [v = v<<4 | d]. *)
Fixpoint parse_hex (s : string) (v : Z) (l : list ascii) : result RangeError Z :=
  match l with
  | [] => Ok v
  | c :: l' =>
      d ← (if in_range 48 57 c then Ok (byte_val c - 48)
           else if in_range 97 102 c then Ok (byte_val c - 97 + 10)
           else Err (GoInvalidBound s));
      parse_hex s (Z.lor (as_u64 (Z.shiftl v 4)) d) l'
  end.

Definition ParseBound (s : string) : result RangeError Z :=
  if str_is_empty s then Ok 0
  else if Nat.odd (str_len s) || (16 <? str_len s)%nat then Err (GoInvalidBound s)
  else
    v ← parse_hex s 0 (bytes s);
    Ok (as_u64 (Z.shiftl v (4 * (16 - Z.of_nat (str_len s))))).

(** [KeyRange.String]. *)
Definition RangeString (r : GoRange) : string :=
  FormatBound (gr_start r) +:+ "-" +:+ (if gr_closed r then FormatBound (gr_end r) else EmptyString).

(** [strings.Cut] is Rust's [split_once]. *)
Definition ParseKeyRange (s : string) : result RangeError GoRange :=
  '(start_str, end_str) ← ok_or (GoInvalidRange s) (split_once "-"%char s);
  start ← ParseBound start_str;
  if str_is_empty end_str then Ok (NewOpenKeyRange start)
  else
    end_ ← ParseBound end_str;
    NewKeyRange start end_.

(** ** Partitions *)

Fixpoint check_adjacent (i : nat) (ws : list (GoRange * GoRange)) : result RangeError unit :=
  match ws with
  | [] => Ok tt
  | (prev, next) :: ws' =>
      if negb (gr_closed prev) || negb (gr_end prev =? gr_start next) then Err (GoGap i)
      else check_adjacent (S i) ws'
  end.

Definition ValidatePartition (ranges : list GoRange) : result RangeError unit :=
  match ranges with
  | [] => Err GoNoRanges
  | first :: _ =>
      if negb (gr_start first =? 0) then Err (GoFirstStart (gr_start first))
      else
        _ ← check_adjacent 1 (windows2 ranges);
        let last := List.last ranges first in
        if gr_closed last then Err (GoLastEnd (gr_end last)) else Ok tt
  end.

(** ** The shard function *)

Definition HashInt64 `{XxHash} (v : Z) : KeyspaceId := xxh64 (to_be 8 (as_u64 v)) 0.
Definition HashText `{XxHash} (s : string) : KeyspaceId := xxh64 (bytes s) 0.
Definition HashUUID `{XxHash} (u : list ascii) : KeyspaceId := xxh64 u 0.
Definition HashBytes `{XxHash} (b : list ascii) : KeyspaceId := xxh64 b 0.

(** ** Reshards *)

Inductive ReshardError :=
| TooFewTargets (n : nat)
| TargetStart
| TargetUnbounded (i : nat)
| TargetGap (i : nat)
| TargetEnd.

(** [toRange]: the CRD's pair of texts. *)
Definition toRange (b : Bounds) : result RangeError GoRange :=
  ParseKeyRange (bd_start b +:+ "-" +:+ bd_end b).

Fixpoint check_contiguous (i : nat) (ws : list (GoRange * GoRange)) : result ReshardError unit :=
  match ws with
  | [] => Ok tt
  | (a, b) :: ws' =>
      if negb (gr_closed a) then Err (TargetUnbounded i)
      else if negb (gr_end a =? gr_start b) then Err (TargetGap i)
      else check_contiguous (S i) ws'
  end.

(** The checks on the sorted targets. *)
Definition check_targets (source : GoRange) (sorted : list GoRange) : result ReshardError unit :=
  match sorted with
  | [] => Err TargetStart
  | first :: _ =>
      if negb (gr_start first =? gr_start source) then Err TargetStart
      else
        _ ← check_contiguous 0 (windows2 sorted);
        let last := List.last sorted first in
        if negb (Bool.eqb (gr_closed last) (gr_closed source))
           || (gr_closed last && negb (gr_end last =? gr_end source))
        then Err TargetEnd else Ok tt
  end.

(** [slices.SortFunc] promises a sorted permutation, not a stable one; the outcome does
    not depend on which one it is ([check_targets_exact]). *)
Definition validateReshardPartition (source : GoRange) (targets : list GoRange) : result ReshardError unit :=
  if (length targets <? 2)%nat then Err (TooFewTargets (length targets))
  else check_targets source (sort_by (fun a b => gr_start a <=? gr_start b) targets).

(** ** Lockstep with the Rust implementation *)

(** The Go value of a Rust range. *)
Definition to_go (r : KeyRange) : GoRange :=
  match kr_end r with
  | Some e => mkGoRange (kr_start r) e true
  | None => mkGoRange (kr_start r) 0 false
  end.

Lemma to_go_start r : gr_start (to_go r) = kr_start r.
Proof. unfold to_go. by destruct (kr_end r). Qed.

Lemma to_go_closed r : gr_closed (to_go r) = true <-> is_Some (kr_end r).
Proof. unfold to_go. destruct (kr_end r); split; intros H; try done; by inversion H. Qed.

Lemma contains_agrees r id : is_u64 id -> Contains (to_go r) id = KeyRange.contains r id.
Proof.
  intros [_ Hid]. unfold Contains, KeyRange.contains, KeyRange.end_exclusive, to_go.
  destruct (kr_end r); simpl; [done|]. f_equal. symmetry. apply Z.ltb_lt.
  change (Z.shiftl 1 64) with two64. unfold u64_MAX, two64 in *. lia.
Qed.

Lemma start_below_top r : range_wf r -> (kr_start r <? Z.shiftl 1 64) = true.
Proof.
  intros Hr. apply range_start_u64 in Hr as [_ Hr]. apply Z.ltb_lt. change (Z.shiftl 1 64) with two64.
  unfold u64_MAX, two64 in *. lia.
Qed.

Lemma intersects_agrees r s : range_wf r -> range_wf s -> Intersects (to_go r) (to_go s) = KeyRange.intersects r s.
Proof.
  intros Hr%start_below_top Hs%start_below_top.
  unfold Intersects, KeyRange.intersects, KeyRange.end_exclusive, to_go.
  destruct (kr_end r), (kr_end s); cbn [gr_start gr_end gr_closed negb orb]; by rewrite ?Hr, ?Hs.
Qed.

(** *** Bounds *)

Lemma trim_zeros_even : forall l, Nat.even (length l) = true ->
  trim_00_rev l = (if Nat.odd (length (trim_zeros_rev l)) then "0"%char :: trim_zeros_rev l else trim_zeros_rev l).
Proof.
  fix IH 1. intros [|a [|b l]] He; [done|done|]. cbn [trim_00_rev trim_zeros_rev].
  destruct (decide (a = "0"%char)) as [->|Ha].
  - rewrite (bool_decide_true ("0"%char = "0"%char)) by done. destruct (decide (b = "0"%char)) as [->|Hb].
    + rewrite decide_True, bool_decide_true by done. apply IH. exact He.
    + rewrite decide_False, bool_decide_false by naive_solver. cbn [length]. cbn in He.
      rewrite Nat.odd_succ. by rewrite He.
  - rewrite decide_False, bool_decide_false by naive_solver. cbn [length]. cbn in He.
    rewrite Nat.odd_succ, Nat.even_succ, <- Nat.negb_even, He. done.
Qed.

Lemma format_agrees v : FormatBound v = format_bound v.
Proof.
  unfold FormatBound, format_bound. destruct (v =? 0); [done|]. f_equal.
  rewrite trim_zeros_even by by rewrite length_reverse, length_fixed_digits.
  rewrite length_reverse. destruct (Nat.odd _); [|done]. by rewrite reverse_cons.
Qed.

Lemma lower_hex_digit c : is_lower_hex c = true ->
  exists d, 0 <= d < 16 /\ to_digit 16 c = Some d /\
    (if in_range 48 57 c then Ok (byte_val c - 48)
     else if in_range 97 102 c then Ok (byte_val c - 97 + 10) else Err (GoInvalidBound EmptyString)) = Ok d.
Proof.
  unfold is_lower_hex, is_ascii_digit, to_digit, in_range. intros H. pose proof (byte_val_range c).
  destruct ((48 <=? byte_val c) && (byte_val c <=? 57)) eqn:E1.
  - exists (byte_val c - 48). repeat case_bool; split_and!; try done; lia.
  - destruct ((97 <=? byte_val c) && (byte_val c <=? 102)) eqn:E2; [|done].
    exists (byte_val c - 97 + 10). split_and!; [lia|lia| |done].
    repeat case_bool; try lia; f_equal; lia.
Qed.

Lemma lor_nibble v d : 0 <= d < 16 -> Z.lor (Z.shiftl v 4) d = v * 16 + d.
Proof.
  intros Hd. rewrite <- Z.add_nocarry_lor; [by rewrite Z.shiftl_mul_pow2 by lia|].
  apply Z.bits_inj'. intros n Hn. rewrite Z.land_spec, Z.bits_0. destruct (decide (n < 4)).
  - by rewrite Z.shiftl_spec_low by lia.
  - assert (Z.testbit d n = false) as ->; [|by rewrite andb_false_r].
    apply Z.testbit_false; [lia|]. rewrite Z.div_small; [done|]. split; [lia|].
    apply Z.lt_le_trans with (2 ^ 4); [lia|]. apply Z.pow_le_mono_r; lia.
Qed.

Lemma parse_hex_agrees s l : forall v,
  0 <= v -> v * 16 ^ Z.of_nat (length l) + 16 ^ Z.of_nat (length l) <= two64 ->
  res_ok (parse_hex s v l) = if forallb is_lower_hex l then digits_checked 16 u64_MAX v l else None.
Proof.
  induction l as [|c l IH]; intros v Hv Hb; [done|]. cbn [parse_hex forallb digits_checked].
  destruct (is_lower_hex c) eqn:Hc; cbn [andb].
  - destruct (lower_hex_digit c Hc) as (d & Hd & -> & Hg).
    assert (Hg' : (if in_range 48 57 c then Ok (byte_val c - 48)
      else if in_range 97 102 c then Ok (byte_val c - 97 + 10) else Err (GoInvalidBound s)) = Ok d)
      by (revert Hg; by repeat case_bool).
    rewrite Hg'. cbn [mbind result_bind]. cbn [length] in Hb. rewrite Nat2Z.inj_succ, Z.pow_succ_r in Hb by lia.
    assert (0 < 16 ^ Z.of_nat (length l)) by (apply Z.pow_pos_nonneg; lia).
    assert (v * 16 + 16 <= two64) by nia.
    unfold as_u64. rewrite Z.shiftl_mul_pow2 by lia. change (2 ^ 4) with 16. rewrite Z.mod_small by lia.
    replace (v * 16) with (Z.shiftl v 4) at 1 by (by rewrite Z.shiftl_mul_pow2 by lia). rewrite lor_nibble by done.
    rewrite IH by nia. destruct (forallb _ l); [|done]. repeat case_bool; try done; unfold u64_MAX, two64 in *; lia.
  - unfold is_lower_hex, is_ascii_digit, in_range in *. by destruct (_ && _), (_ && _).
Qed.

Lemma parse_agrees s : res_ok (ParseBound s) = res_ok (parse_bound s).
Proof.
  unfold ParseBound, parse_bound. destruct (str_is_empty s) eqn:Es; [done|].
  rewrite <- Nat.negb_even. destruct (negb (Nat.even _) || _) eqn:El; [done|]. cbn [orb].
  apply orb_false_iff in El as [_ Hl]. apply Nat.ltb_ge in Hl. unfold str_len in Hl.
  pose proof (parse_hex_agrees s (bytes s) 0 ltac:(lia)) as Hp.
  specialize (Hp ltac:(rewrite Z.mul_0_l, Z.add_0_l; change two64 with (16 ^ 16); apply Z.pow_le_mono_r; lia)).
  destruct (parse_hex s 0 (bytes s)) as [x|]; cbn [res_ok mbind result_bind] in *.
  - destruct (forallb _ _); [|done]. cbn [negb]. rewrite (from_unsigned_digits _ _ _ x); [done| |done].
    intros Hn. apply bytes_nil in Hn. by subst.
  - destruct (forallb is_lower_hex (bytes s)) eqn:Hf; [|done]. cbn [negb].
    assert (from_str_radix_unsigned 16 u64_MAX (bytes s) = None) as ->; [|done].
    pose proof (proj1 (forallb_spec _ _) Hf) as Hall. destruct (bytes s) as [|c [|c' l]]; [done| |]; cbn [from_str_radix_unsigned].
    + by case_decide.
    + rewrite decide_False; [done|]. intros ->. by specialize (Hall "+"%char ltac:(set_solver)).
Qed.

Lemma res_ok_bind {E F A B C} (r : result E A) (r' : result F A) (f : A -> result E B) (g : A -> result F C) (h : C -> B) :
  res_ok r = res_ok r' -> (forall a, res_ok (f a) = h <$> res_ok (g a)) -> res_ok (r ≫= f) = h <$> res_ok (r' ≫= g).
Proof. intros Hr Hf. destruct r, r'; cbn in *; simplify_eq; [apply Hf|done]. Qed.

Lemma range_parse_agrees s : res_ok (ParseKeyRange s) = to_go <$> res_ok (KeyRange_from_str s).
Proof.
  unfold ParseKeyRange, KeyRange_from_str. apply res_ok_bind; [by destruct (split_once _ _)|].
  intros [a b]. apply res_ok_bind; [apply parse_agrees|]. intros start.
  destruct (str_is_empty b); [done|]. pose proof (parse_agrees b) as Hb.
  destruct (ParseBound b) as [e|], (parse_bound b) as [e'|]; cbn in *; simplify_eq; [|done].
  unfold NewKeyRange, KeyRange.new. by destruct (_ >=? _).
Qed.

(** *** Splitting *)

Section split.
Context (r : KeyRange) (parts : Z).
Hypothesis Hr : range_wf r.
Hypothesis Hparts : 0 < parts.
Let width := KeyRange.end_exclusive r - kr_start r.

Lemma go_width_agrees : IsFull (to_go r) = false -> go_width (to_go r) = width /\ 0 < width < two64.
Proof using Hr.
  pose proof (end_exclusive_range r Hr) as He. destruct Hr as (H0 & _ & Hm).
  unfold IsFull, go_width, to_go, width, KeyRange.end_exclusive, as_u64 in *.
  destruct (kr_end r) as [e|]; cbn [gr_start gr_end gr_closed negb andb] in *.
  - intros _. unfold u64_MAX, two64 in *. rewrite Z.mod_small by lia. split; lia.
  - change (Z.shiftl 1 64) with two64 in *. intros Hz%Z.eqb_neq.
    replace (- kr_start r) with (two64 - kr_start r + (-1) * two64) by lia.
    rewrite Z.mod_add, Z.mod_small by (unfold two64 in *; lia). lia.
Qed.

Lemma go_bound_agrees i : parts <= width -> 0 <= i < parts ->
  go_bound (to_go r) parts i = Some (KeyRange.split_bound (kr_start r) width parts i).
Proof using Hr Hparts.
  intros Hw Hi. unfold go_bound. destruct (negb _ && _) eqn:Ef.
  - unfold to_go, width, KeyRange.split_bound, KeyRange.end_exclusive, Div64 in *.
    destruct (kr_end r); cbn [gr_start gr_closed negb andb] in *; [done|]. apply Z.eqb_eq in Ef. rewrite Ef.
    destruct (_ || _) eqn:E; [lia|]. change (Z.shiftl 1 64) with two64. f_equal. by rewrite Z.add_0_l, Z.add_0_r, Z.sub_0_r.
  - destruct (go_width_agrees Ef) as [-> Hlt]. destruct (Mul64 i width) as [hi lo] eqn:Em.
    rewrite (Div64_Mul64 i width parts hi lo) by (try done; lia). rewrite to_go_start.
    cbn [mbind option_bind]. f_equal. unfold as_u64. apply Z.mod_small.
    pose proof (end_exclusive_range r Hr) as He.
    pose proof (split_bound_mono r parts Hparts Hw 0 i ltac:(lia)) as Hlo.
    rewrite (split_bound_0 r parts) in Hlo.
    pose proof (split_bound_lt r parts Hparts Hw i) as Hhi.
    pose proof (split_bound_mono r parts Hparts Hw (i + 1) parts ltac:(lia)) as Hup.
    rewrite (split_bound_parts r parts Hparts) in Hup. destruct Hr as (? & _ & _).
    unfold KeyRange.split_bound in *. fold width in Hlo, Hhi, Hup. lia.
Qed.

Lemma go_part_agrees i : parts <= width -> 0 <= i < parts ->
  go_part (to_go r) parts i = Some (to_go (KeyRange.split_part r width parts i)).
Proof using Hr Hparts.
  intros Hw Hi. unfold go_part. rewrite (go_bound_agrees i Hw Hi). cbn [mbind option_bind].
  destruct (split_part_spec r parts Hr Hparts Hw i Hi) as (Hs & _ & He). fold width in Hs, He.
  unfold to_go at 4. rewrite He, Hs. destruct (i =? parts - 1) eqn:E.
  - rewrite decide_True by lia. unfold to_go. by destruct (kr_end r).
  - rewrite decide_False by lia. by rewrite go_bound_agrees by lia.
Qed.

Lemma split_agrees : parts <= u32_MAX -> SplitEvenly (to_go r) parts =
  Some (match KeyRange.split_evenly r parts with
        | Ok rs => Ok (to_go <$> rs)
        | Err _ => Err (GoTooNarrow parts)
        end).
Proof using Hr Hparts.
  intros Hmax. unfold SplitEvenly, KeyRange.split_evenly. fold width. destruct (parts =? 0) eqn:E0; [lia|].
  assert (negb (IsFull (to_go r)) && (go_width (to_go r) <? parts) = (width <? parts)) as ->.
  { destruct (IsFull (to_go r)) eqn:Ef; [|by destruct (go_width_agrees Ef) as [-> _]].
    symmetry. apply Z.ltb_ge. unfold IsFull, to_go, width, KeyRange.end_exclusive in *.
    destruct (kr_end r); cbn in Ef; [done|]. change (Z.shiftl 1 64) with two64. unfold u32_MAX, two64 in *. lia. }
  destruct (width <? parts) eqn:Ew; [done|].
  assert (mapM (fun i => go_part (to_go r) parts (Z.of_nat i)) (seq 0 (Z.to_nat parts)) =
    Some (to_go <$> ((fun i => KeyRange.split_part r width parts (Z.of_nat i)) <$> seq 0 (Z.to_nat parts)))) as ->; [|done].
  apply mapM_Some. rewrite <- list_fmap_compose. apply Forall2_fmap_r, Forall2_same_length_lookup_2; [done|].
  intros k x y Hx Hy. rewrite Hx in Hy. simplify_eq. apply lookup_seq in Hx as [-> Hk]. apply go_part_agrees; lia.
Qed.
End split.

(** *** Partitions *)

Lemma windows2_fmap {A B} (f : A -> B) l : windows2 (f <$> l) = (fun p => (f p.1, f p.2)) <$> windows2 l.
Proof. induction l as [|a [|b l] IH]; [done|done|]. cbn in *. by rewrite IH. Qed.

Lemma last_fmap {A B} (f : A -> B) x l d d' : List.last (f <$> x :: l) d = f (List.last (x :: l) d').
Proof. revert x. induction l as [|y l IH]; intros x; [done|]. apply IH. Qed.

Lemma adjacent_agrees ws : forall i j,
  is_ok (check_adjacent i ((fun p => (to_go p.1, to_go p.2)) <$> ws)) = is_ok (check_windows j ws).
Proof.
  induction ws as [|[a b] ws IH]; intros i j; [done|]. cbn [fmap list_fmap check_adjacent check_windows fst snd].
  rewrite to_go_start. unfold to_go at 1 2. destruct (kr_end a) as [e|]; cbn [gr_closed gr_end negb orb].
  - destruct (e =? kr_start b) eqn:E; cbn [negb].
    + rewrite decide_True by (f_equal; lia). apply IH.
    + by rewrite decide_False by (intros [= ->]; lia).
  - by rewrite decide_False.
Qed.

Lemma partition_agrees rs : is_ok (ValidatePartition (to_go <$> rs)) = is_ok (validate_partition rs).
Proof.
  destruct rs as [|r rs]; [done|]. unfold ValidatePartition, validate_partition.
  change (to_go <$> r :: rs) with (to_go r :: (to_go <$> rs)) at 1. cbv iota beta. rewrite to_go_start.
  destruct (negb _); [done|]. rewrite windows2_fmap. pose proof (adjacent_agrees (windows2 (r :: rs)) 1 0) as Ha.
  destruct (check_adjacent _ _), (check_windows _ _); cbn in Ha; try done.
  cbn [mbind result_bind].
  rewrite (last_fmap to_go r rs (to_go r) r). unfold to_go at 1 2. by destruct (kr_end _).
Qed.

(** *** Hashing *)

Lemma to_be_mod n z : to_be n (z mod 256 ^ Z.of_nat n) = to_be n z.
Proof.
  revert z. induction n as [|n IH]; intros z; [done|]. cbn [to_be]. rewrite Nat2Z.inj_succ, Z.pow_succ_r by lia.
  assert (0 < 256 ^ Z.of_nat n) by (apply Z.pow_pos_nonneg; lia). f_equal.
  - rewrite <- (IH (z / 256)). f_equal. rewrite Z.rem_mul_r by lia. rewrite (Z.mul_comm 256 (_ mod _)), Z.div_add by lia.
    rewrite (Z.div_small (z mod 256)) by (apply Z.mod_pos_bound; lia). apply Z.add_0_l.
  - assert ((z mod (256 * 256 ^ Z.of_nat n)) mod 256 = z mod 256) as Hm; [|unfold byte_of; by rewrite Hm].
    rewrite Z.rem_mul_r by lia. rewrite (Z.mul_comm 256), Z.mod_add by lia. by apply Z.mod_mod.
Qed.

Lemma hash_agrees `{XxHash} v : HashInt64 v = keyspace_id XXHASH64_V1 (Int64 v).
Proof. change (xxh64 (to_be 8 (as_u64 v)) 0 = xxh64 (to_be 8 v) 0). f_equal. apply (to_be_mod 8). Qed.

(** C25: the operator's keyspace and the data plane's are the same. Bounds and ranges have
    the same texts and the same parses, containment, intersection and even splits give
    the same answers (and a split never panics), a list of ranges is a partition for one
    exactly when it is for the other, and every key has the same keyspace id. *)
Theorem keyspace_lockstep `{XxHash} :
  (forall v, FormatBound v = format_bound v) /\
  (forall s, res_ok (ParseBound s) = res_ok (parse_bound s)) /\
  (forall r, RangeString (to_go r) = KeyRange_to_string r) /\
  (forall s, res_ok (ParseKeyRange s) = option_map to_go (res_ok (KeyRange_from_str s))) /\
  (forall r id, is_u64 id -> Contains (to_go r) id = KeyRange.contains r id) /\
  (forall r s, range_wf r -> range_wf s -> Intersects (to_go r) (to_go s) = KeyRange.intersects r s) /\
  (forall r parts, range_wf r -> is_u32 parts -> exists res, SplitEvenly (to_go r) parts = Some res /\
     res_ok res = option_map (List.map to_go) (res_ok (KeyRange.split_evenly r parts))) /\
  (forall rs, is_ok (ValidatePartition (List.map to_go rs)) = is_ok (validate_partition rs)) /\
  (forall v, HashInt64 v = keyspace_id XXHASH64_V1 (Int64 v)) /\
  (forall s, HashText s = keyspace_id XXHASH64_V1 (Text s)) /\
  (forall b, HashUUID b = keyspace_id XXHASH64_V1 (Uuid b) /\ HashBytes b = keyspace_id XXHASH64_V1 (Bytea b)).
Proof.
  split_and!; [apply format_agrees|apply parse_agrees| |apply range_parse_agrees|apply contains_agrees|
    apply intersects_agrees| |apply partition_agrees|apply hash_agrees|done|done].
  - intros r. unfold RangeString, KeyRange_to_string, to_go. rewrite !format_agrees. by destruct (kr_end r).
  - intros r parts Hr [Hp0 Hp]. destruct (decide (parts = 0)) as [->|Hnz]; [by eexists|].
    eexists. split; [apply split_agrees; [done|lia|done]|]. by destruct (KeyRange.split_evenly r parts).
Qed.

(** ** Reshards *)

(** How many ranges of the list hold the id. *)
Definition owners (rs : list KeyRange) (id : KeyspaceId) : nat :=
  length (List.filter (fun r => KeyRange.contains r id) rs).

Definition le_kr_start (a b : KeyRange) : bool := kr_start a <=? kr_start b.

Lemma owners_app a b id : owners (a ++ b) id = (owners a id + owners b id)%nat.
Proof. unfold owners. by rewrite List.filter_app, length_app. Qed.

Lemma owners_cons r rs id : owners (r :: rs) id = ((if KeyRange.contains r id then 1 else 0) + owners rs id)%nat.
Proof. unfold owners. cbn [List.filter]. by destruct (KeyRange.contains r id). Qed.

Lemma owners_perm a b id : a ≡ₚ b -> owners a id = owners b id.
Proof. intros Hp. unfold owners. by rewrite (filter_perm _ _ _ Hp). Qed.

Lemma owners_pos rs r id : r ∈ rs -> KeyRange.contains r id = true -> (0 < owners rs id)%nat.
Proof.
  intros Hr Hc. unfold owners. assert (r ∈ List.filter (fun r => KeyRange.contains r id) rs) as Hin by by apply elem_of_filter_b.
  destruct (List.filter _ rs); [by apply elem_of_nil in Hin|cbn; lia].
Qed.

Lemma chain_lt lo rs hi : Forall range_wf rs -> chain lo rs hi -> lo < KeyRange.end_exclusive (mkKeyRange lo hi).
Proof.
  revert lo. induction rs as [|a rs IH]; intros lo Hwf Hc; [done|]. apply Forall_cons in Hwf as [(_ & Ha & _) Hwf].
  destruct Hc as [<- Hc]. unfold KeyRange.end_exclusive in *. destruct rs as [|b rs]; [by rewrite Hc in Ha|].
  destruct Hc as (m & Hm & Hc). rewrite Hm in Ha. specialize (IH m Hwf Hc). cbn in *. lia.
Qed.

Lemma chain_owners lo rs hi id : Forall range_wf rs -> chain lo rs hi ->
  owners rs id = if KeyRange.contains (mkKeyRange lo hi) id then 1%nat else O.
Proof.
  revert lo. induction rs as [|a rs IH]; intros lo Hwf Hc; [done|]. rewrite owners_cons.
  apply Forall_cons in Hwf as [Ha Hwf]. destruct Hc as [<- Hc]. destruct rs as [|b rs].
  - destruct a as [s e]. cbn in Hc. subst. by destruct (KeyRange.contains _ id).
  - destruct Hc as (m & Hm & Hc). pose proof (chain_lt m _ hi Hwf Hc) as Hlt. rewrite (IH m Hwf Hc).
    destruct Ha as (_ & Ha & _). destruct a as [s e]. unfold KeyRange.contains, KeyRange.end_exclusive in *. cbn in *.
    subst e. repeat case_bool; lia.
Qed.

Lemma owned_chain rs id : Forall range_wf rs -> validate_partition (sort_by le_kr_start rs) = Ok tt -> is_u64 id -> owners rs id = 1%nat.
Proof.
  intros Hwf Hv Hid. rewrite <- (owners_perm _ _ _ (sort_by_perm le_kr_start rs)). apply range_count, partition_owner; [|done|done].
  by rewrite sort_by_perm.
Qed.

Lemma sort_starts rs : StronglySorted (fun a b => kr_start a <= kr_start b) (sort_by le_kr_start rs).
Proof.
  assert (H : StronglySorted (fun a b => le_kr_start a b = true) (sort_by le_kr_start rs))
    by (apply sort_by_sorted; unfold le_kr_start; intros; lia).
  unfold le_kr_start in H at 1. clear - H. induction H as [|x l _ IH Hall]; constructor; [done|].
  eapply Forall_impl; [exact Hall|]. cbn. lia.
Qed.

Lemma partition_iff_owned rs : Forall range_wf rs ->
  (validate_partition (sort_by le_kr_start rs) = Ok tt <-> forall id, is_u64 id -> owners rs id = 1%nat).
Proof.
  intros Hwf. split; [intros; by apply owned_chain|]. intros Ho.
  apply validate_partition_chain, partition_complete_chain; [by rewrite sort_by_perm|apply sort_starts|].
  intros id Hid. apply range_count. rewrite <- (Ho id Hid). apply owners_perm, sort_by_perm.
Qed.

Lemma chain_cons lo x l hi : l <> [] ->
  chain lo (x :: l) hi <-> kr_start x = lo /\ exists m, kr_end x = Some m /\ chain m l hi.
Proof. by destruct l. Qed.

Lemma chain_app lo a b hi : a <> [] -> b <> [] -> chain lo (a ++ b) hi <-> exists m, chain lo a (Some m) /\ chain m b hi.
Proof.
  intros Ha Hb. revert lo Ha. induction a as [|x a IH]; intros lo Ha; [done|].
  destruct (decide (a = [])) as [->|Hne].
  - cbn [app]. rewrite chain_cons by done. cbn. naive_solver.
  - cbn [app]. rewrite chain_cons by (by destruct a). setoid_rewrite IH; [|done].
    setoid_rewrite chain_cons; [|done]. naive_solver.
Qed.

(** What lies below and above a range. *)
Definition below (r : KeyRange) : list KeyRange :=
  if kr_start r =? 0 then [] else [mkKeyRange 0 (Some (kr_start r))].
Definition above (r : KeyRange) : list KeyRange :=
  match kr_end r with Some e => [mkKeyRange e None] | None => [] end.

Lemma below_wf r : range_wf r -> Forall range_wf (below r).
Proof.
  intros Hr. unfold below. destruct (kr_start r =? 0) eqn:E; constructor; [|done].
  apply range_start_u64 in Hr as [? ?]. unfold range_wf, KeyRange.end_exclusive. cbn. split_and!; lia.
Qed.

Lemma above_wf r : range_wf r -> Forall range_wf (above r).
Proof.
  intros (? & Hlt & Hm). unfold above, KeyRange.end_exclusive in *. destruct (kr_end r) as [e|]; constructor; [|done].
  unfold range_wf, KeyRange.end_exclusive. cbn. change (Z.shiftl 1 64) with two64. unfold u64_MAX, two64 in *. split_and!; lia || done.
Qed.

Lemma outside_owners r id : range_wf r -> is_u64 id ->
  (owners (below r) id + (if KeyRange.contains r id then 1 else 0) + owners (above r) id = 1)%nat.
Proof.
  intros (H0 & Hlt & Hm) [Hid0 Hid]. unfold below, above, KeyRange.end_exclusive, KeyRange.contains in *.
  assert (owners [] id = O) as Hn by done.
  destruct (kr_start r =? 0) eqn:E, (kr_end r) as [e|] eqn:He; rewrite ?owners_cons, ?Hn;
    unfold KeyRange.contains, KeyRange.end_exclusive; cbn [kr_start kr_end]; rewrite ?He;
    change (Z.shiftl 1 64) with two64 in *; unfold u64_MAX, two64 in *; repeat case_bool; lia.
Qed.

Section exact_split.
Context (src : KeyRange) (rs : list KeyRange).
Hypothesis Hsrc : range_wf src.
Hypothesis Hwf : Forall range_wf rs.
Hypothesis Hsorted : StronglySorted (fun a b => kr_start a <= kr_start b) rs.
Hypothesis Howned : forall id, is_u64 id -> owners rs id = if KeyRange.contains src id then 1%nat else O.

Lemma part_start_in r : r ∈ rs -> KeyRange.contains src (kr_start r) = true.
Proof using Hwf Howned.
  intros Hr. rewrite Forall_forall in Hwf. pose proof (Hwf r Hr) as Hw.
  assert (Hc : KeyRange.contains r (kr_start r) = true)
    by (apply contains_spec; pose proof (end_exclusive_range r Hw); lia).
  pose proof (owners_pos rs r _ Hr Hc) as Hp. rewrite Howned in Hp by by apply range_start_u64.
  destruct (KeyRange.contains src _); [done|lia].
Qed.

Lemma surrounded_sorted : StronglySorted (fun a b => kr_start a <= kr_start b) (below src ++ rs ++ above src).
Proof using Hsrc Hwf Hsorted Howned.
  pose proof (end_exclusive_range src Hsrc) as He. destruct Hsrc as (H0 & _ & _).
  assert (Hb : forall x, x ∈ below src -> kr_start x = 0) by (unfold below; destruct (_ =? _); set_solver).
  assert (Ha : forall x, x ∈ above src -> kr_start x = KeyRange.end_exclusive src)
    by (unfold above, KeyRange.end_exclusive; destruct (kr_end src); set_solver).
  assert (Hr : forall x, x ∈ rs -> kr_start src <= kr_start x < KeyRange.end_exclusive src)
    by (intros x Hx; apply contains_spec, part_start_in, Hx).
  apply sorted_app.
  - intros x y Hx [Hy|Hy]%elem_of_app; rewrite (Hb x Hx); [specialize (Hr y Hy)|rewrite (Ha y Hy)]; lia.
  - unfold below. destruct (_ =? _); repeat constructor.
  - apply sorted_app; [|done|unfold above; destruct (kr_end src); repeat constructor].
    intros x y Hx Hy. rewrite (Ha y Hy). specialize (Hr x Hx). lia.
Qed.

Lemma exact_split_chain : chain (kr_start src) rs (kr_end src).
Proof using Hsrc Hwf Hsorted Howned.
  assert (Hne : rs <> []).
  { intros Hn. pose proof (Howned (kr_start src) (range_start_u64 _ Hsrc)) as H. rewrite Hn in H.
    assert (KeyRange.contains src (kr_start src) = true) as Hc by (apply contains_spec; pose proof (end_exclusive_range src Hsrc); lia).
    by rewrite Hc in H. }
  assert (Hc : chain 0 (below src ++ rs ++ above src) None).
  { apply partition_complete_chain; [|apply surrounded_sorted|].
    - apply Forall_app. split; [by apply below_wf|]. apply Forall_app. split; [done|by apply above_wf].
    - intros id Hid. apply range_count. change (owners (below src ++ rs ++ above src) id = 1%nat).
      rewrite !owners_app, Howned by done. pose proof (outside_owners src id Hsrc Hid). lia. }
  assert (Hmid : chain (kr_start src) (rs ++ above src) None).
  { unfold below in Hc. destruct (kr_start src =? 0) eqn:E; [by replace (kr_start src) with 0 by lia|].
    apply chain_app in Hc as (m & [_ [= <-]] & Hc); [done|done|by destruct rs]. }
  unfold above in Hmid. destruct (kr_end src) as [e|]; [|by rewrite app_nil_r in Hmid].
  apply chain_app in Hmid as (m & Hc' & [[= <-] _]); done.
Qed.
End exact_split.

Lemma contiguous_Ok ws i : check_contiguous i ((fun p => (to_go p.1, to_go p.2)) <$> ws) = Ok tt <->
  Forall (fun p => kr_end p.1 = Some (kr_start p.2)) ws.
Proof.
  revert i. induction ws as [|[a b] ws IH]; intros i; [by split|].
  rewrite Forall_cons. cbn [fmap list_fmap check_contiguous fst snd]. rewrite to_go_start.
  unfold to_go at 1 2. destruct (kr_end a) as [e|]; cbn [gr_closed gr_end negb]; [|naive_solver].
  destruct (e =? kr_start b) eqn:E; cbn [negb].
  - apply Z.eqb_eq in E as ->. rewrite IH. naive_solver.
  - split; [done|]. intros [[= ->] _]. lia.
Qed.

Lemma same_end_to_go a b :
  negb (Bool.eqb (gr_closed (to_go a)) (gr_closed (to_go b)))
    || (gr_closed (to_go a) && negb (gr_end (to_go a) =? gr_end (to_go b))) = false <-> kr_end a = kr_end b.
Proof.
  unfold to_go. destruct (kr_end a) as [x|], (kr_end b) as [y|]; cbn; try done.
  destruct (x =? y) eqn:E; split; intros H; simplify_eq/=; try done; [f_equal; lia|lia].
Qed.

Lemma check_targets_chain src rs :
  check_targets (to_go src) (to_go <$> rs) = Ok tt <-> chain (kr_start src) rs (kr_end src).
Proof.
  destruct rs as [|r rs]; [done|]. rewrite chain_windows. unfold check_targets.
  change (to_go <$> r :: rs) with (to_go r :: (to_go <$> rs)) at 1. cbv iota beta. rewrite !to_go_start.
  destruct (kr_start r =? kr_start src) eqn:E; cbn [negb]; [|split; [done|lia]]. apply Z.eqb_eq in E.
  rewrite windows2_fmap, <- (contiguous_Ok _ 0), (last_fmap to_go r rs (to_go r) r), <- same_end_to_go.
  destruct (check_contiguous _ _) as [[]|]; cbn [mbind result_bind]; [|naive_solver].
  destruct (negb _ || _); naive_solver.
Qed.

(** Any sorted permutation of the targets is accepted exactly when every id of the source
    is in one of them and they hold no other. *)
Lemma check_targets_exact src ts sorted : range_wf src -> Forall range_wf ts -> sorted ≡ₚ ts ->
  StronglySorted (fun a b => kr_start a <= kr_start b) sorted ->
  (check_targets (to_go src) (to_go <$> sorted) = Ok tt <->
   forall id, is_u64 id -> owners ts id = if KeyRange.contains src id then 1%nat else O).
Proof.
  intros Hsrc Hwf Hp Hs. assert (Hwf' : Forall range_wf sorted) by by rewrite Hp.
  rewrite check_targets_chain. setoid_rewrite <- (owners_perm _ _ _ Hp). split.
  - intros Hc id _. rewrite (chain_owners _ _ _ id Hwf' Hc). by destruct src.
  - intros Ho. by apply exact_split_chain.
Qed.

Lemma validate_reshard_exact src ts : range_wf src -> Forall range_wf ts ->
  (validateReshardPartition (to_go src) (to_go <$> ts) = Ok tt <->
   (2 <= length ts)%nat /\ forall id, is_u64 id -> owners ts id = if KeyRange.contains src id then 1%nat else O).
Proof.
  intros Hsrc Hwf. unfold validateReshardPartition. rewrite length_fmap.
  rewrite (sort_by_fmap to_go le_kr_start) by (intros; unfold le_kr_start; by rewrite !to_go_start).
  rewrite <- (check_targets_exact src ts _ Hsrc Hwf (sort_by_perm le_kr_start ts) (sort_starts ts)).
  destruct (_ <? 2)%nat eqn:E; [apply Nat.ltb_lt in E|apply Nat.ltb_ge in E]; naive_solver lia.
Qed.

(** a reshard is admitted exactly when the cutover keeps the keyspace partitioned. With
    the source in a serving set that partitions the keyspace, the check of the target
    ranges succeeds if and only if there are at least two of them and the set with the
    targets in place of the source, in whatever order, is again a partition. *)
Theorem reshard_keeps_partition src ts others :
  Forall range_wf (src :: ts ++ others) ->
  validate_partition (sort_by le_kr_start (src :: others)) = Ok tt ->
  (validateReshardPartition (to_go src) (List.map to_go ts) = Ok tt <->
   (2 <= length ts)%nat /\ validate_partition (sort_by le_kr_start (ts ++ others)) = Ok tt).
Proof.
  intros [Hsrc [Hts Hot]%Forall_app]%Forall_cons Hold.
  rewrite (validate_reshard_exact src ts Hsrc Hts), partition_iff_owned by by apply Forall_app.
  rewrite partition_iff_owned in Hold by by constructor. setoid_rewrite owners_app. setoid_rewrite owners_cons in Hold.
  split; intros [Hl Ho]; (split; [done|]); intros id Hid; specialize (Hold id Hid); specialize (Ho id Hid); lia.
Qed.

(** ** Witnesses *)

Lemma reshard_keeps_partition_witness :
  let src := mkKeyRange 4611686018427387904 (Some 9223372036854775808) in
  let ts := [mkKeyRange 6917529027641081856 (Some 9223372036854775808); mkKeyRange 4611686018427387904 (Some 6917529027641081856)] in
  let others := [mkKeyRange 9223372036854775808 None; mkKeyRange 0 (Some 4611686018427387904)] in
  validateReshardPartition (to_go src) (List.map to_go ts) = Ok tt <->
  (2 <= length ts)%nat /\ validate_partition (sort_by le_kr_start (ts ++ others)) = Ok tt.
Proof.
  intros src ts others. apply (reshard_keeps_partition src ts others); [repeat constructor; concrete|reflexivity].
Defined.
