(* ===== verification/OpRouting.v ===== *)
(** * The operator's routing compiler

    [src/operator/internal/routing/compiler.go]: the compilation of shards, table
    configurations and gates into the routing object that routers watch, and its writer,
    which numbers every change with the next epoch. The fields of the Kubernetes objects
    that the compiler reads are kept, under the constraints their CRDs declare
    ([src/operator/api/v1alpha1]); an object's JSON is read by the router with the types of
    [src/crates/pgshard-topo/src/model.rs]. *)

From S2P Require Import Prelude Rust Go Keyspace ShardFn VSchema Catalog Topo Sql Extract Plan Router OpTopology.

Open Scope Z_scope.

(** ** Objects *)

Record RoutingEndpoint := mkRoutingEndpoint {
  re_pod : string; re_host : string; re_port : Z; re_can_read : bool;
}.

(** The polled state of a pod: what the compiler reads of it. *)
Record InstanceState := mkInstanceState { is_pod : string; is_role : string; is_ready : bool }.

Record PgShardShard := mkPgShardShard {
  sh_name : string; sh_key_range : Bounds; sh_role : string; sh_serving : bool;
  sh_instances : list InstanceState; sh_current_primary : string;
}.

Record RoutingShard := mkRoutingShard {
  rsh_name : string; rsh_key_range : Bounds; rsh_state : ShardState;
  rsh_primary : option RoutingEndpoint; rsh_replicas : list RoutingEndpoint;
}.

Record RoutingSequence := mkRoutingSequence { rq_column : string; rq_sequence : string }.

(** [RoutingTable] and [TableEntry] have the same fields; an absent text is empty. *)
Record RoutingTable := mkRoutingTable {
  rt_schema : string; rt_name : string; rt_type : string; rt_shard_key_column : string;
  rt_shard_key_type : string; rt_sequences : list RoutingSequence;
}.

Record PgShardTableConfig := mkPgShardTableConfig { tc_name : string; tc_tables : list RoutingTable }.

Record GateMatch := mkGateMatch { gm_all : bool; gm_tables : list string; gm_key_ranges : list Bounds }.

(** The deadline is the text of its time. *)
Record RoutingGate := mkRoutingGate {
  rg_id : string; rg_match : GateMatch; rg_mode : string; rg_deadline : string; rg_min_generation : Z;
}.

Record RoutingSpec := mkRoutingSpec {
  rp_epoch : Z; rp_generation : Z; rp_write_lease : Z; rp_hash_function : string;
  rp_shards : list RoutingShard; rp_tables : list RoutingTable; rp_gates : list RoutingGate;
  rp_sequence_endpoint : option RoutingEndpoint;
}.

#[export] Instance Bounds_eq_dec : EqDecision Bounds.
Proof. solve_decision. Defined.
#[export] Instance RoutingEndpoint_eq_dec : EqDecision RoutingEndpoint.
Proof. solve_decision. Defined.
#[export] Instance RoutingShard_eq_dec : EqDecision RoutingShard.
Proof. solve_decision. Defined.
#[export] Instance RoutingSequence_eq_dec : EqDecision RoutingSequence.
Proof. solve_decision. Defined.
#[export] Instance RoutingTable_eq_dec : EqDecision RoutingTable.
Proof. solve_decision. Defined.
#[export] Instance GateMatch_eq_dec : EqDecision GateMatch.
Proof. solve_decision. Defined.
#[export] Instance RoutingGate_eq_dec : EqDecision RoutingGate.
Proof. solve_decision. Defined.
#[export] Instance RoutingSpec_eq_dec : EqDecision RoutingSpec.
Proof. solve_decision. Defined.

(** [CompileInputs]: of the cluster, the router's lease (absent router: [None]) and the
    hash function. *)
Record CompileInputs := mkCompileInputs {
  ci_router_lease : option Z; ci_hash_function : string;
  ci_shards : list PgShardShard; ci_table_configs : list PgShardTableConfig;
  ci_endpoints : gmap string RoutingEndpoint; ci_gates : list RoutingGate;
}.

Inductive CompileError :=
| DuplicateGate (id : string)
| SystemShards
| ShardRange (shard : string) (e : RangeError)
| NotPartition (e : RangeError)
| DuplicateTableErr (table first second : string).

(** ** Ordering *)

Definition cmp_gates (a b : RoutingGate) : comparison := String.compare (rg_id a) (rg_id b).
Definition cmp_shards (a b : PgShardShard) : comparison :=
  cmp_or [String.compare (bd_start (sh_key_range a)) (bd_start (sh_key_range b));
          String.compare (bd_end (sh_key_range a)) (bd_end (sh_key_range b));
          String.compare (sh_name a) (sh_name b)].
Definition cmp_endpoints (a b : RoutingEndpoint) : comparison := String.compare (re_pod a) (re_pod b).
Definition cmp_configs (a b : PgShardTableConfig) : comparison := String.compare (tc_name a) (tc_name b).
Definition cmp_sequences (a b : RoutingSequence) : comparison :=
  cmp_or [String.compare (rq_column a) (rq_column b); String.compare (rq_sequence a) (rq_sequence b)].
Definition cmp_tables (a b : RoutingTable) : comparison :=
  cmp_or [String.compare (rt_schema a) (rt_schema b); String.compare (rt_name a) (rt_name b)].

(** ** Compilation *)

Definition defaultWriteLeaseSeconds : Z := 10.
Definition defaultSchema : string := "public".
Definition instanceRolePrimary : string := "primary".
Definition instanceRoleReplica : string := "replica".
Definition ShardRoleSystem : string := "system".

Fixpoint duplicate_gate (seen : gset string) (gates : list RoutingGate) : option string :=
  match gates with
  | [] => None
  | g :: gates' =>
      if decide (rg_id g ∈ seen) then Some (rg_id g) else duplicate_gate ({[rg_id g]} ∪ seen) gates'
  end.

Definition primaryEndpoint (endpoints : gmap string RoutingEndpoint) (instances : list InstanceState)
    (primary : string) : option RoutingEndpoint :=
  if str_is_empty primary then None
  else
    inst ← find_first (fun i => bool_decide (is_pod i = primary)) instances;
    if negb (is_ready inst) || negb (bool_decide (is_role inst = instanceRolePrimary)) then None
    else endpoints !! primary.

Definition replicaEndpoints (endpoints : gmap string RoutingEndpoint) (instances : list InstanceState)
    (primary : string) : list RoutingEndpoint :=
  sort_by (le_of cmp_endpoints)
    (omap (fun inst =>
       if negb (bool_decide (is_role inst = instanceRoleReplica)) || bool_decide (is_pod inst = primary) then None
       else (fun ep => mkRoutingEndpoint (re_pod ep) (re_host ep) (re_port ep) (is_ready inst)) <$> endpoints !! is_pod inst)
     instances).

(** What the loop over the shards has gathered. *)
Record Gathered := mkGathered {
  ga_shards : list RoutingShard; ga_serving : list GoRange;
  ga_system_seen : bool; ga_sequence_endpoint : option RoutingEndpoint;
}.

(** The body of the loop over the sorted shards. *)
Definition gather_shard (endpoints : gmap string RoutingEndpoint) (shard : PgShardShard) (g : Gathered)
    : result CompileError Gathered :=
  let primary := primaryEndpoint endpoints (sh_instances shard) (sh_current_primary shard) in
  if bool_decide (sh_role shard = ShardRoleSystem) then
    if ga_system_seen g then Err SystemShards
    else Ok (mkGathered (ga_shards g) (ga_serving g) true
               (match primary with Some ep => Some ep | None => ga_sequence_endpoint g end))
  else
    kr ← map_err (ShardRange (sh_name shard)) (toRange (sh_key_range shard));
    let state := if sh_serving shard then Serving else Hidden in
    let entry := mkRoutingShard (sh_name shard) (sh_key_range shard) state primary
                   (replicaEndpoints endpoints (sh_instances shard) (sh_current_primary shard)) in
    Ok (mkGathered (ga_shards g ++ [entry])
          (if sh_serving shard then ga_serving g ++ [kr] else ga_serving g)
          (ga_system_seen g) (ga_sequence_endpoint g)).

Fixpoint gather_shards (endpoints : gmap string RoutingEndpoint) (shards : list PgShardShard) (g : Gathered)
    : result CompileError Gathered :=
  match shards with
  | [] => Ok g
  | shard :: shards' => g' ← gather_shard endpoints shard g; gather_shards endpoints shards' g'
  end.

Definition schema_of (t : RoutingTable) : string :=
  if str_is_empty (rt_schema t) then defaultSchema else rt_schema t.

Definition table_key (t : RoutingTable) : string := ToLower (schema_of t +:+ "." +:+ rt_name t).

Definition compile_table (t : RoutingTable) : RoutingTable :=
  mkRoutingTable (schema_of t) (rt_name t) (rt_type t) (rt_shard_key_column t) (rt_shard_key_type t)
    (sort_by (le_of cmp_sequences) (rt_sequences t)).

(** The two nested loops, over the tables each with the name of its configuration. *)
Fixpoint collect_tables (owner : gmap string string) (entries : list (string * RoutingTable))
    : result CompileError (list RoutingTable) :=
  match entries with
  | [] => Ok []
  | (config, t) :: entries' =>
      match owner !! table_key t with
      | Some first => Err (DuplicateTableErr (table_key t) first config)
      | None => tables ← collect_tables (<[table_key t := config]> owner) entries'; Ok (compile_table t :: tables)
      end
  end.

Definition config_entries (configs : list PgShardTableConfig) : list (string * RoutingTable) :=
  configs ≫= (fun tc => (fun t => (tc_name tc, t)) <$> tc_tables tc).

Definition compileTables (configs : list PgShardTableConfig) : result CompileError (list RoutingTable) :=
  tables ← collect_tables ∅ (config_entries (sort_by (le_of cmp_configs) configs));
  Ok (sort_by (le_of cmp_tables) tables).

(** [Compile]; the writer assigns the epoch and the generation. *)
Definition Compile (input : CompileInputs) : result CompileError RoutingSpec :=
  let writeLease := match ci_router_lease input with
                    | Some lease => if lease >? 0 then lease else defaultWriteLeaseSeconds
                    | None => defaultWriteLeaseSeconds
                    end in
  match duplicate_gate ∅ (ci_gates input) with
  | Some id => Err (DuplicateGate id)
  | None =>
      g ← gather_shards (ci_endpoints input) (sort_by (le_of cmp_shards) (ci_shards input)) (mkGathered [] [] false None);
      _ ← map_err NotPartition (ValidatePartition (ga_serving g));
      tables ← compileTables (ci_table_configs input);
      Ok (mkRoutingSpec 0 0 writeLease (ci_hash_function input) (ga_shards g) tables
            (sort_by (le_of cmp_gates) (ci_gates input)) (ga_sequence_endpoint g))
  end.

(** ** The writer *)

Definition with_versions (epoch generation : Z) (s : RoutingSpec) : RoutingSpec :=
  mkRoutingSpec epoch generation (rp_write_lease s) (rp_hash_function s) (rp_shards s) (rp_tables s) (rp_gates s)
    (rp_sequence_endpoint s).

Definition specEquivalent (a b : RoutingSpec) : bool := bool_decide (with_versions 0 0 a = with_versions 0 0 b).

Definition sameStructuralShard (a b : RoutingShard) : bool :=
  bool_decide (rsh_name a = rsh_name b) && bool_decide (rsh_key_range a = rsh_key_range b) &&
  bool_decide (rsh_state a = rsh_state b).

Definition structuralChange (old updated : RoutingSpec) : bool :=
  negb (equal_func sameStructuralShard (rp_shards old) (rp_shards updated)) ||
  negb (bool_decide (rp_tables old = rp_tables updated)).

(** What a turn of the loop of [Write] does after its [Get]. *)
Inductive WriteCall :=
| CallCreate (spec : RoutingSpec)
| CallNone (epoch : Z)
| CallUpdate (version : nat) (spec : RoutingSpec).

Definition write_turn (current : option (nat * RoutingSpec)) (desired : RoutingSpec) : WriteCall :=
  match current with
  | None => CallCreate (with_versions 1 1 desired)
  | Some (version, cur) =>
      if specEquivalent cur desired then CallNone (rp_epoch cur)
      else CallUpdate version
             (with_versions (rp_epoch cur + 1)
                (rp_generation cur + (if structuralChange cur desired then 1 else 0)) desired)
  end.

(** A call of [Write]: about to read, about to send its call, or returned with the epoch
    and whether it changed the object ([None]: an error). *)
Inductive WriterPc :=
| WGet
| WSend (call : WriteCall)
| WReturned (r : option (Z * bool)).

Record Writer := mkWriter { wr_desired : RoutingSpec; wr_pc : WriterPc }.

(** The API server: the versions the routing object has had, newest first, each with the
    resource version that an update must name; and the writers. *)
Record RoutingWorld := mkRoutingWorld { rw_versions : list RoutingSpec; rw_writers : list Writer }.

Definition current_version (w : RoutingWorld) : nat := length (rw_versions w).

Definition set_pc (i : nat) (pc : WriterPc) (w : RoutingWorld) : RoutingWorld :=
  mkRoutingWorld (rw_versions w) (alter (fun wr => mkWriter (wr_desired wr) pc) i (rw_writers w)).

Definition publish (spec : RoutingSpec) (w : RoutingWorld) : RoutingWorld :=
  mkRoutingWorld (spec :: rw_versions w) (rw_writers w).

(** A read sees some version the object has had, or none: the client reads from a cache. *)
Definition may_read (w : RoutingWorld) (seen : option (nat * RoutingSpec)) : Prop :=
  match seen with
  | None => True
  | Some (version, spec) => (0 < version)%nat /\ reverse (rw_versions w) !! pred version = Some spec
  end.

(** Whether the server accepts a call: an update must name the current version. *)
Definition accepts (w : RoutingWorld) (call : WriteCall) : option RoutingSpec :=
  match call with
  | CallCreate spec => if decide (current_version w = O) then Some spec else None
  | CallNone _ => None
  | CallUpdate version spec => if decide (version = current_version w /\ version <> O) then Some spec else None
  end.

Inductive write_step : RoutingWorld -> RoutingWorld -> Prop :=
| st_start w desired : write_step w (mkRoutingWorld (rw_versions w) (rw_writers w ++ [mkWriter desired WGet]))
| st_get w i wr seen :
    rw_writers w !! i = Some wr -> wr_pc wr = WGet -> may_read w seen ->
    write_step w (set_pc i (match write_turn seen (wr_desired wr) with
                            | CallNone epoch => WReturned (Some (epoch, false))
                            | call => WSend call
                            end) w)
| st_accepted w i wr call spec :
    rw_writers w !! i = Some wr -> wr_pc wr = WSend call -> accepts w call = Some spec ->
    write_step w (publish spec (set_pc i (WReturned (Some (rp_epoch spec, true))) w))
| st_refused w i wr call :
    (* already exists, or conflict *)
    rw_writers w !! i = Some wr -> wr_pc wr = WSend call -> accepts w call = None ->
    write_step w (set_pc i WGet w)
| st_lost w i wr call spec :
    (* accepted, and the answer is lost *)
    rw_writers w !! i = Some wr -> wr_pc wr = WSend call -> accepts w call = Some spec ->
    write_step w (publish spec (set_pc i (WReturned None) w))
| st_error w i wr :
    rw_writers w !! i = Some wr -> (forall r, wr_pc wr <> WReturned r) -> write_step w (set_pc i (WReturned None) w).

Definition no_routing : RoutingWorld := mkRoutingWorld [] [].

(** ** The object as the router reads it

    The JSON of the object, read with the types of the router's topology: Go leaves out
    an empty field that is marked so, and serde then takes its default. *)

Definition decode_endpoint (e : RoutingEndpoint) : option TopoInstance :=
  let port := if re_port e =? 0 then default_port else re_port e in
  if (0 <=? port) && (port <=? u16_MAX) then Some (mkTopoInstance (re_pod e) (re_host e) port (re_can_read e)) else None.

Definition decode_option {A B} (f : A -> option B) (o : option A) : option (option B) :=
  match o with Some a => Some <$> f a | None => Some None end.

Definition decode_shard (s : RoutingShard) : option ShardEntry :=
  kr ← res_ok (into_range (rsh_key_range s));
  primary ← decode_option decode_endpoint (rsh_primary s);
  replicas ← mapM decode_endpoint (rsh_replicas s);
  Some (mkShardEntry (rsh_name s) kr (rsh_state s) primary replicas).

Definition decode_table_type (s : string) : option TableType :=
  if decide (s = "sharded") then Some TTSharded else if decide (s = "global") then Some TTGlobal else None.

Definition decode_key_type (s : string) : option ShardKeyType :=
  if decide (s = "int") then Some SKInt else if decide (s = "text") then Some SKText
  else if decide (s = "uuid") then Some SKUuid else if decide (s = "bytea") then Some SKBytea else None.

Definition non_empty (s : string) : option string := if str_is_empty s then None else Some s.

Definition decode_table (t : RoutingTable) : option TableEntry :=
  ty ← decode_table_type (rt_type t);
  key_type ← decode_option decode_key_type (non_empty (rt_shard_key_type t));
  Some (mkTableEntry (rt_schema t) (rt_name t) ty (non_empty (rt_shard_key_column t)) key_type
          ((fun q => mkTopoSequence (rq_column q) (rq_sequence q)) <$> rt_sequences t)).

Definition decode_gate_mode (s : string) : option TopoGateMode :=
  if decide (s = EmptyString) then Some default_gate_mode
  else if decide (s = "bufferWrites") then Some BufferWrites else if decide (s = "bufferAll") then Some BufferAll else None.

Definition decode_gate (g : RoutingGate) : option TopoGateSpec :=
  ranges ← mapM (fun b => res_ok (into_range b)) (gm_key_ranges (rg_match g));
  mode ← decode_gate_mode (rg_mode g);
  if (0 <=? rg_min_generation g) then
    Some (mkTopoGateSpec (rg_id g) (mkTopoGateMatch (gm_all (rg_match g)) (gm_tables (rg_match g)) ranges) mode
            (rg_deadline g) (rg_min_generation g))
  else None.

Definition decode_spec (s : RoutingSpec) : option Topology :=
  if (0 <=? rp_epoch s) && (0 <=? rp_generation s) && (0 <=? rp_write_lease s) then
    shards ← mapM decode_shard (rp_shards s);
    tables ← mapM decode_table (rp_tables s);
    gates ← mapM decode_gate (rp_gates s);
    sequence_endpoint ← decode_option decode_endpoint (rp_sequence_endpoint s);
    Some (mkTopology (rp_epoch s) (rp_generation s)
            (if rp_write_lease s =? 0 then default_write_lease_seconds else rp_write_lease s)
            (default default_hash_function (non_empty (rp_hash_function s)))
            shards tables gates sequence_endpoint)
  else None.

(** *** What the CRDs admit *)

(** The pattern of a bound: even-length lower-case hex, up to eight bytes, the last one
    not zero. *)
Definition crd_bound (s : string) : bool :=
  str_is_empty s ||
  (Nat.even (str_len s) && (str_len s <=? 16)%nat && forallb is_lower_hex (bytes s) &&
   match reverse (bytes s) with
   | a :: b :: _ => negb (bool_decide (a = "0"%char /\ b = "0"%char))
   | _ => false
   end).

Definition crd_range (b : Bounds) : bool := crd_bound (bd_start b) && crd_bound (bd_end b).

Definition crd_endpoint (e : RoutingEndpoint) : bool := (0 <=? re_port e) && (re_port e <=? u16_MAX).

(** A table: named, and with a key when sharded. *)
Definition crd_table (t : RoutingTable) : bool :=
  negb (str_is_empty (rt_name t)) &&
  (bool_decide (rt_type t = "global" /\ (rt_shard_key_type t = EmptyString \/ is_Some (decode_key_type (rt_shard_key_type t)))) ||
   bool_decide (rt_type t = "sharded" /\ rt_shard_key_column t <> EmptyString /\ is_Some (decode_key_type (rt_shard_key_type t)))).

(** ** Lemmas: versions *)

(** What routers and restores call the structure of a routing. *)
Definition structure (s : RoutingSpec) : list (string * Bounds * ShardState) * list RoutingTable :=
  ((fun x => (rsh_name x, rsh_key_range x, rsh_state x)) <$> rp_shards s, rp_tables s).

Lemma structuralChange_spec a b : structuralChange a b = false <-> structure a = structure b.
Proof.
  unfold structuralChange, structure. rewrite orb_false_iff, !negb_false_iff, bool_decide_eq_true.
  rewrite (equal_func_spec (fun x => (rsh_name x, rsh_key_range x, rsh_state x))).
  { split; [by intros [-> ->]|by intros [= -> ->]]. }
  intros x y. unfold sameStructuralShard. rewrite !andb_true_iff, !bool_decide_eq_true.
  split; [by intros [[-> ->] ->]|by intros [= -> -> ->]].
Qed.

(** The version after [o]. *)
Definition next_version (o s : RoutingSpec) : Prop :=
  rp_epoch s = rp_epoch o + 1 /\ specEquivalent o s = false /\
  rp_generation s = rp_generation o + (if structuralChange o s then 1 else 0).

Fixpoint versions_ok (l : list RoutingSpec) : Prop :=
  match l with
  | [] => True
  | s :: l' => versions_ok l' /\
      match l' with [] => rp_epoch s = 1 /\ rp_generation s = 1 | o :: _ => next_version o s end
  end.

(** The n-th version, from 1. *)
Definition version_at (w : RoutingWorld) (n : nat) : option RoutingSpec :=
  if decide (n = O) then None else reverse (rw_versions w) !! pred n.

Definition writer_ok (versions : list RoutingSpec) (wr : Writer) : Prop :=
  match wr_pc wr with
  | WGet | WReturned None => True
  | WSend call => exists seen, call = write_turn seen (wr_desired wr) /\
      match seen with
      | None => True
      | Some (v, spec) => (0 < v)%nat /\ reverse versions !! pred v = Some spec
      end
  | WReturned (Some (epoch, _)) =>
      exists s, s ∈ versions /\ rp_epoch s = epoch /\ specEquivalent s (wr_desired wr) = true
  end.

Lemma writer_ok_mono versions s wr : writer_ok versions wr -> writer_ok (s :: versions) wr.
Proof.
  unfold writer_ok. destruct (wr_pc wr) as [|call|[[e ch]|]]; [done| | |done].
  - intros (seen & Hc & Hs). exists seen. split; [done|]. destruct seen as [[v spec]|]; [|done].
    destruct Hs as [Hv Hs]. split; [done|]. rewrite reverse_cons. by apply lookup_app_l_Some.
  - intros (s' & Hs' & ?). exists s'. split; [set_solver|done].
Qed.

Lemma specEquivalent_versions e g d : specEquivalent (with_versions e g d) d = true.
Proof. by apply bool_decide_eq_true. Qed.

(** An accepted call publishes the version after the newest. *)
Lemma accepted_next w wr call spec : writer_ok (rw_versions w) wr -> wr_pc wr = WSend call -> accepts w call = Some spec ->
  versions_ok (rw_versions w) -> versions_ok (spec :: rw_versions w) /\ specEquivalent spec (wr_desired wr) = true.
Proof.
  intros Hw Hpc Ha Hv. unfold writer_ok in Hw. rewrite Hpc in Hw. destruct Hw as ([[v cur]|] & -> & Hs); cbn in Ha.
  - destruct (specEquivalent cur (wr_desired wr)) eqn:Ee; [done|]. cbn in Ha. case_decide as Hd; [|done].
    destruct Hd as [-> Hn]. injection Ha as <-. split; [|apply specEquivalent_versions]. destruct Hs as [_ Hs].
    unfold current_version in *. destruct (rw_versions w) as [|o l]; [done|]. cbn [length pred] in Hs.
    rewrite reverse_cons, lookup_app_r, length_reverse, Nat.sub_diag in Hs by by rewrite length_reverse.
    injection Hs as ->. split; [done|]. by split_and!.
  - unfold current_version in Ha. case_decide as Hd; [|done]. injection Ha as <-.
    destruct (rw_versions w); [|done]. split; [by split_and!|apply specEquivalent_versions].
Qed.

Definition routing_inv (w : RoutingWorld) : Prop :=
  versions_ok (rw_versions w) /\ Forall (writer_ok (rw_versions w)) (rw_writers w).

Lemma set_pc_inv i pc w : routing_inv w -> (forall wr, rw_writers w !! i = Some wr -> writer_ok (rw_versions w) (mkWriter (wr_desired wr) pc)) ->
  routing_inv (set_pc i pc w).
Proof. intros [Hv Hw] Hp. split; [done|]. apply Forall_alter; [done|]. intros wr Hi _. by apply Hp. Qed.

Lemma publish_inv i wr call spec r w : routing_inv w -> rw_writers w !! i = Some wr -> wr_pc wr = WSend call ->
  accepts w call = Some spec -> (r = None \/ r = Some (rp_epoch spec, true)) ->
  routing_inv (publish spec (set_pc i (WReturned r) w)).
Proof.
  intros [Hv Hw] Hi Hpc Ha Hr. pose proof (Forall_lookup_1 _ _ _ _ Hw Hi) as Hwr.
  destruct (accepted_next w wr call spec Hwr Hpc Ha Hv) as [Hv' He]. split; [done|].
  cbn [publish set_pc rw_versions rw_writers]. apply Forall_alter.
  - eapply Forall_impl; [exact Hw|]. intros x. apply writer_ok_mono.
  - intros wr' Hi' _. rewrite Hi in Hi'. injection Hi' as <-. destruct Hr as [->| ->]; [done|].
    exists spec. split_and!; [set_solver|done|done].
Qed.

Lemma write_step_inv w w' : write_step w w' -> routing_inv w -> routing_inv w'.
Proof.
  intros Hs Hinv. destruct Hs as [w desired|w i wr seen Hi Hpc Hr|w i wr call spec Hi Hpc Ha|w i wr call Hi Hpc Ha|w i wr call spec Hi Hpc Ha|w i wr Hi Hpc].
  - destruct Hinv as [Hv Hw]. split; [done|]. apply Forall_app. split; [done|]. by constructor.
  - apply set_pc_inv; [done|]. intros wr' Hi'. rewrite Hi in Hi'. injection Hi' as <-.
    assert (Hsend : forall call, call = write_turn seen (wr_desired wr) -> writer_ok (rw_versions w) (mkWriter (wr_desired wr) (WSend call))).
    { intros call ->. exists seen. split; [done|]. by destruct seen as [[v s]|]. }
    destruct (write_turn seen (wr_desired wr)) as [s|e|v s] eqn:Et; [by apply Hsend| |by apply Hsend].
    destruct seen as [[v cur]|]; cbn in Et; [|done]. destruct (specEquivalent cur _) eqn:Ee; [|done]. injection Et as <-.
    destruct Hr as [_ Hr]. exists cur. split_and!; [|done|done]. apply list_elem_of_lookup_2 in Hr. set_solver.
  - eapply publish_inv; eauto.
  - by apply set_pc_inv.
  - eapply publish_inv; eauto.
  - by apply set_pc_inv.
Qed.

Lemma newest_epoch s l : versions_ok (s :: l) -> rp_epoch s = Z.of_nat (length (s :: l)).
Proof.
  revert s. induction l as [|o l IH]; intros s [Hv Hs]; [by destruct Hs as [-> _]|].
  destruct Hs as [-> _]. rewrite (IH o Hv). cbn [length]. lia.
Qed.

Lemma epoch_is_version l : versions_ok l -> forall n s, reverse l !! n = Some s -> rp_epoch s = Z.of_nat (S n).
Proof.
  induction l as [|x l IH]; intros Hv n s Hs; [done|]. rewrite reverse_cons in Hs. apply lookup_app_Some in Hs as [Hs|[Hn Hs]].
  - apply IH; [apply Hv|done].
  - rewrite length_reverse in *. destruct (n - length l)%nat eqn:En; [|done]. injection Hs as <-.
    rewrite (newest_epoch x l Hv). cbn [length]. lia.
Qed.

Lemma generation_structure s l : versions_ok (s :: l) -> forall o, o ∈ l ->
  rp_generation o <= rp_generation s /\ (rp_generation o = rp_generation s -> structure o = structure s).
Proof.
  revert s. induction l as [|x l IH]; intros s [Hv Hs] o Ho; [by apply elem_of_nil in Ho|].
  destruct Hs as (_ & _ & Hg).
  assert (rp_generation x <= rp_generation s /\ (rp_generation x = rp_generation s -> structure x = structure s)) as [Hle Heq].
  { destruct (structuralChange x s) eqn:Ec; split; try lia. intros _. by apply structuralChange_spec. }
  apply elem_of_cons in Ho as [->|Ho]; [done|]. destruct (IH x Hv o Ho) as [Hle' Heq']. split; [lia|].
  intros He. rewrite Heq', Heq by lia. done.
Qed.

Lemma same_generation l : versions_ok l -> forall a b, a ∈ l -> b ∈ l ->
  rp_generation a = rp_generation b -> structure a = structure b.
Proof.
  induction l as [|s l IH]; intros Hv a b Ha Hb Hg; [by apply elem_of_nil in Ha|].
  apply elem_of_cons in Ha as [->|Ha], Hb as [->|Hb]; [done| | |].
  - symmetry. by apply (generation_structure s l Hv b Hb).
  - by apply (generation_structure s l Hv a Ha).
  - apply IH; [apply Hv|done..].
Qed.

Lemma versions_next l : versions_ok l -> forall n o s,
  reverse l !! n = Some o -> reverse l !! S n = Some s -> next_version o s.
Proof.
  induction l as [|x l IH]; intros Hv n o s Ho Hs; [done|].
  rewrite reverse_cons in Ho, Hs. apply lookup_app_Some in Hs as [Hs|[Hn Hs]].
  - apply lookup_app_Some in Ho as [Ho|[Hn _]]; [by eapply IH; [apply Hv| |]|]. apply lookup_lt_Some in Hs. lia.
  - rewrite length_reverse in *. destruct (S n - length l)%nat eqn:En; [|done]. injection Hs as <-.
    destruct l as [|y l]; [cbn in *; lia|]. rewrite reverse_cons in Ho. cbn [length] in *.
    rewrite <- app_assoc, lookup_app_r, length_reverse in Ho by (rewrite length_reverse; lia).
    replace (n - length l)%nat with O in Ho by lia. injection Ho as <-. apply Hv.
Qed.

(** C31: every change of the routing object gets the next epoch. With any number of writers
    that read a stale cache, conflict, crash or lose the server's answer: the n-th version
    of the object has epoch n, so an epoch names one routing and a consumer that applies
    only higher epochs never goes back; each version differs from the one before; versions
    of one topology generation have the same shard set and tables; and a write that
    returned an epoch has its routing at that epoch. *)
Theorem routing_versions w : rtc write_step no_routing w ->
  (forall n s, reverse (rw_versions w) !! n = Some s -> rp_epoch s = Z.of_nat (S n)) /\
  (forall n o s, reverse (rw_versions w) !! n = Some o -> reverse (rw_versions w) !! S n = Some s -> next_version o s) /\
  (forall a b, a ∈ rw_versions w -> b ∈ rw_versions w -> rp_generation a = rp_generation b -> structure a = structure b) /\
  forall wr epoch changed, wr ∈ rw_writers w -> wr_pc wr = WReturned (Some (epoch, changed)) ->
    exists s, s ∈ rw_versions w /\ rp_epoch s = epoch /\ specEquivalent s (wr_desired wr) = true.
Proof.
  intros Hr. assert (routing_inv w) as [Hv Hw].
  { assert (routing_inv no_routing) as H0 by (split; [done|constructor]). revert H0.
    induction Hr as [|w0 w1 w2 Hs _ IH]; [done|]. intros H0. by apply IH, (write_step_inv w0). }
  split_and!; [by apply epoch_is_version| |by apply same_generation|].
  - by apply versions_next.
  - intros wr e ch Hin Hpc. rewrite Forall_forall in Hw. specialize (Hw wr Hin). unfold writer_ok in Hw. by rewrite Hpc in Hw.
Qed.

(** ** Lemmas: canonical bounds *)

Lemma lower_hex_char c : is_lower_hex c = true -> exists d, 0 <= d < 16 /\ digit_char false d = c.
Proof.
  intros Hc. destruct (lower_hex_digit c Hc) as (d & Hd & _ & Hg). exists d. split; [done|].
  apply (inj byte_val). rewrite digit_char_val by done. unfold in_range in Hg. repeat case_bool; simplify_eq; lia.
Qed.

Lemma hex_fixed_digits l : Forall (fun c => is_lower_hex c = true) l ->
  exists x, 0 <= x < 16 ^ Z.of_nat (length l) /\ fixed_digits false 16 (length l) x = l.
Proof.
  induction l as [|c l IH] using rev_ind; intros Hl; [by exists 0|].
  apply Forall_app in Hl as [Hl [Hc _]%Forall_cons]. destruct (IH Hl) as (x & Hx & Hf).
  destruct (lower_hex_char c Hc) as (d & Hd & Hdc). exists (x * 16 + d).
  rewrite length_app, Nat.add_comm. cbn [length Nat.add fixed_digits]. rewrite Nat2Z.inj_succ, Z.pow_succ_r by lia. split; [nia|].
  rewrite Z.div_add_l, (Z.div_small d), Z.add_0_r, Hf by lia.
  by rewrite Z.add_comm, Z.mod_add, Z.mod_small, Hdc by lia.
Qed.

Lemma fixed_digits_shift u n k x : fixed_digits u 16 (n + k) (x * 16 ^ Z.of_nat k) = fixed_digits u 16 n x ++ replicate k "0"%char.
Proof.
  induction k as [|k IH]; [by rewrite Nat.add_0_r, Z.mul_1_r, app_nil_r|].
  rewrite Nat.add_succ_r, Nat2Z.inj_succ, Z.pow_succ_r by lia. cbn [fixed_digits].
  replace (x * (16 * 16 ^ Z.of_nat k)) with (x * 16 ^ Z.of_nat k * 16) by ring.
  rewrite Z.div_mul, Z.mod_mul, IH, <- app_assoc by lia. f_equal. rewrite digit_char_zero.
  by rewrite <- replicate_cons_app.
Qed.

Lemma trim_00_replicate j m : trim_00_rev (replicate (2 * j) "0"%char ++ m) = trim_00_rev m.
Proof.
  induction j as [|j IH]; [done|]. replace (2 * S j)%nat with (S (S (2 * j))) by lia. cbn [replicate app trim_00_rev].
  by rewrite decide_True by done.
Qed.

Lemma trim_00_stop a b m : ~ (a = "0"%char /\ b = "0"%char) -> trim_00_rev (a :: b :: m) = a :: b :: m.
Proof. intros Hne. cbn [trim_00_rev]. by rewrite decide_False. Qed.

(** The admitted bounds are the texts of the canonical ones. *)
Lemma crd_bound_format s : crd_bound s = true -> exists v, is_u64 v /\ s = format_bound v.
Proof.
  unfold crd_bound. destruct (str_is_empty s) eqn:Es; [intros _; exists 0; apply str_is_empty_spec in Es; by subst|].
  cbn [orb]. rewrite !andb_true_iff. intros [[[He Hl] Hx] Hlast]. apply Nat.leb_le in Hl. unfold str_len in *.
  assert (Hall : Forall (fun c => is_lower_hex c = true) (bytes s))
    by (apply Forall_forall; by apply forallb_spec).
  destruct (hex_fixed_digits _ Hall) as (x & Hxb & Hf). apply Nat.even_spec in He as [h Hh].
  set (k := (16 - length (bytes s))%nat). exists (x * 16 ^ Z.of_nat k).
  assert (Hpow : 16 ^ Z.of_nat (length (bytes s)) * 16 ^ Z.of_nat k = two64)
    by (rewrite <- Z.pow_add_r by lia; unfold k; by replace (Z.of_nat _ + Z.of_nat _) with 16 by lia).
  assert (Hd : fixed_digits false 16 16 (x * 16 ^ Z.of_nat k) = bytes s ++ replicate k "0"%char)
    by (rewrite <- Hf at 1; rewrite <- fixed_digits_shift; f_equal; unfold k; lia).
  assert (0 < 16 ^ Z.of_nat k) by (apply Z.pow_pos_nonneg; lia).
  split; [unfold is_u64, u64_MAX, two64 in *; nia|].
  destruct (reverse (bytes s)) as [|a [|b m]] eqn:Er; [done|done|]. apply negb_true_iff, bool_decide_eq_false in Hlast.
  unfold format_bound. destruct (_ =? 0) eqn:E0.
  - apply Z.eqb_eq in E0. exfalso. assert (x = 0) as -> by nia.
    rewrite Z.mul_0_l in Hd. change (fixed_digits false 16 16 0) with (replicate 16 "0"%char) in Hd.
    apply (f_equal reverse) in Hd. rewrite reverse_app, !reverse_replicate, Er in Hd.
    assert (Hz : forall c, c ∈ replicate k "0"%char ++ a :: b :: m -> c = "0"%char)
      by (rewrite <- Hd; intros c Hc; by apply elem_of_replicate in Hc as [-> _]).
    apply Hlast. split; apply Hz; set_solver.
  - rewrite Hd, reverse_app, reverse_replicate, Er. replace k with (2 * (8 - h))%nat by (unfold k; lia).
    rewrite trim_00_replicate, trim_00_stop by done. by rewrite <- Er, reverse_involutive, str_of_bytes.
Qed.

(** The Go and the Rust reading of an admitted pair of bounds agree. *)
Lemma crd_range_reads b g : crd_range b = true -> toRange b = Ok g ->
  exists kr, into_range b = Ok kr /\ range_wf kr /\ g = to_go kr.
Proof.
  destruct b as [bs be]. unfold crd_range, toRange. cbn [bd_start bd_end]. rewrite andb_true_iff.
  intros [(s & Hs & ->)%crd_bound_format (e & He & ->)%crd_bound_format] Ht.
  assert (Hp : res_ok (ParseKeyRange (format_bound s +:+ "-" +:+ format_bound e)) = Some g) by by rewrite Ht.
  rewrite range_parse_agrees in Hp. unfold KeyRange_from_str in Hp.
  rewrite split_once_sep in Hp by (apply hex_no_dash, format_bound_hex; done). cbn [ok_or mbind result_bind] in Hp.
  rewrite (parse_format_bound s Hs) in Hp. cbn [mbind result_bind] in Hp.
  assert (Hcan : forall v, is_u64 v -> canonical_bound (format_bound v) = Ok v)
    by (intros v Hv; by apply canonical_bound_Ok).
  unfold into_range. cbn [bd_start bd_end]. rewrite (Hcan s Hs). cbn [mbind result_bind].
  destruct (str_is_empty (format_bound e)).
  - cbn in Hp. injection Hp as <-. eexists. split_and!; [done| |done]. by apply (new_wf s None).
  - rewrite (parse_format_bound e He) in Hp. rewrite (Hcan e He). cbn [fmap result_fmap mbind result_bind] in *.
    destruct (KeyRange.new s (Some e)) as [kr|] eqn:En; [|done]. cbn in Hp. injection Hp as <-.
    exists kr. split_and!; [done| |done]. eapply (new_wf s (Some e)); [done| |done]. by intros ? [= <-].
Qed.

(** ** Lemmas: what a compiled routing holds *)

Definition is_data (s : PgShardShard) : bool := negb (bool_decide (sh_role s = ShardRoleSystem)).

Definition routing_entry (eps : gmap string RoutingEndpoint) (s : PgShardShard) : RoutingShard :=
  mkRoutingShard (sh_name s) (sh_key_range s) (if sh_serving s then Serving else Hidden)
    (primaryEndpoint eps (sh_instances s) (sh_current_primary s))
    (replicaEndpoints eps (sh_instances s) (sh_current_primary s)).

Lemma gather_shards_Ok eps l : forall g g', gather_shards eps l g = Ok g' ->
  ga_shards g' = ga_shards g ++ (routing_entry eps <$> List.filter is_data l) /\
  (forall s, s ∈ List.filter is_data l -> exists kr, toRange (sh_key_range s) = Ok kr) /\
  exists krs, ga_serving g' = ga_serving g ++ krs /\
    Forall2 (fun s kr => toRange (sh_key_range s) = Ok kr) (List.filter sh_serving (List.filter is_data l)) krs.
Proof.
  induction l as [|s l IH]; intros g g' H.
  { injection H as <-. split_and!; [by rewrite app_nil_r|by intros ? ?%elem_of_nil|exists []; by rewrite app_nil_r]. }
  cbn [gather_shards] in H. apply result_bind_Ok in H as (g1 & Hg & H). unfold gather_shard in Hg.
  assert (bool_decide (sh_role s = ShardRoleSystem) = negb (is_data s)) as Hd by (unfold is_data; by rewrite negb_involutive).
  rewrite Hd in Hg. cbn [List.filter]. destruct (is_data s); cbn [negb] in Hg.
  - apply result_bind_Ok in Hg as (kr & Hk & [= <-]). apply IH in H as (Hs & Hp & krs & Hv & Hf). cbn [ga_shards ga_serving] in *.
    destruct (toRange (sh_key_range s)) as [kr'|] eqn:Et; [|done]. injection Hk as <-. split_and!.
    + rewrite Hs, fmap_cons. by rewrite <- app_assoc.
    + intros x [->|Hx]%elem_of_cons; [by exists kr'|by apply Hp].
    + cbn [List.filter]. destruct (sh_serving s).
      * exists (kr' :: krs). split; [by rewrite Hv, <- app_assoc|by constructor].
      * by exists krs.
  - destruct (ga_system_seen g); [done|]. injection Hg as <-. by apply IH in H.
Qed.

Definition endpoint_of (e : RoutingEndpoint) : TopoInstance :=
  mkTopoInstance (re_pod e) (re_host e) (if re_port e =? 0 then default_port else re_port e) (re_can_read e).

Lemma decode_endpoint_crd e : crd_endpoint e = true -> decode_endpoint e = Some (endpoint_of e).
Proof.
  unfold crd_endpoint, decode_endpoint, endpoint_of, default_port, u16_MAX. intros H.
  destruct (re_port e =? 0); [done|]. by rewrite H.
Qed.

Definition entry_for (eps : gmap string RoutingEndpoint) (s : PgShardShard) (kr : KeyRange) : ShardEntry :=
  mkShardEntry (sh_name s) kr (if sh_serving s then Serving else Hidden)
    (endpoint_of <$> primaryEndpoint eps (sh_instances s) (sh_current_primary s))
    (endpoint_of <$> replicaEndpoints eps (sh_instances s) (sh_current_primary s)).

Section decoding.
Context (eps : gmap string RoutingEndpoint).
Hypothesis Heps : forall pod ep, eps !! pod = Some ep -> crd_endpoint ep = true.

Lemma primary_crd insts primary ep : primaryEndpoint eps insts primary = Some ep -> crd_endpoint ep = true.
Proof using Heps.
  unfold primaryEndpoint. destruct (str_is_empty primary); [done|]. destruct (find_first _ _); [|done].
  cbn. destruct (negb _ || _); [done|]. apply Heps.
Qed.

Lemma replicas_crd insts primary ep : ep ∈ replicaEndpoints eps insts primary -> crd_endpoint ep = true.
Proof using Heps.
  unfold replicaEndpoints. rewrite sort_by_perm, list_elem_of_omap. intros (i & _ & Hi).
  destruct (negb _ || _); [done|]. destruct (eps !! is_pod i) as [e|] eqn:He; [|done]. injection Hi as <-. apply (Heps _ _ He).
Qed.

Lemma decode_shard_entry s kr : into_range (sh_key_range s) = Ok kr ->
  decode_shard (routing_entry eps s) = Some (entry_for eps s kr).
Proof using Heps.
  intros Hk. unfold decode_shard, routing_entry. cbn [rsh_key_range rsh_primary rsh_replicas rsh_name rsh_state]. rewrite Hk.
  cbn [res_ok mbind option_bind].
  assert (decode_option decode_endpoint (primaryEndpoint eps (sh_instances s) (sh_current_primary s)) =
    Some (endpoint_of <$> primaryEndpoint eps (sh_instances s) (sh_current_primary s))) as ->.
  { destruct (primaryEndpoint _ _ _) as [ep|] eqn:Ep; [|done]. cbn. by rewrite (decode_endpoint_crd _ (primary_crd _ _ _ Ep)). }
  cbn [mbind option_bind].
  assert (mapM decode_endpoint (replicaEndpoints eps (sh_instances s) (sh_current_primary s)) =
    Some (endpoint_of <$> replicaEndpoints eps (sh_instances s) (sh_current_primary s))) as ->; [|done].
  apply mapM_Some, Forall2_fmap_r, Forall_Forall2_diag, Forall_forall. intros ep Hep. apply decode_endpoint_crd. by eapply replicas_crd.
Qed.

Lemma decode_shards ds krs : Forall2 (fun s kr => into_range (sh_key_range s) = Ok kr) ds krs ->
  mapM decode_shard (routing_entry eps <$> ds) = Some (zip_with (entry_for eps) ds krs).
Proof using Heps.
  induction 1 as [|s kr ds krs Hk _ IH]; [done|]. cbn. rewrite (decode_shard_entry s kr Hk). cbn.
  cbn in IH. by rewrite IH.
Qed.
End decoding.

Lemma is_serving_entry eps s kr : is_serving (entry_for eps s kr) = sh_serving s.
Proof. unfold is_serving, entry_for. cbn. by destruct (sh_serving s). Qed.

Lemma serving_go eps ds krs : Forall2 (fun s kr => toRange (sh_key_range s) = Ok (to_go kr)) ds krs ->
  forall gos, Forall2 (fun s g => toRange (sh_key_range s) = Ok g) (List.filter sh_serving ds) gos ->
  gos = to_go <$> (se_key_range <$> List.filter is_serving (zip_with (entry_for eps) ds krs)).
Proof.
  induction 1 as [|s kr ds krs Hk _ IH]; intros gos Hg; [by inversion Hg|].
  cbn [zip_with List.filter] in *. rewrite is_serving_entry. destruct (sh_serving s); [|by apply IH].
  inversion Hg as [|? g ? gos' Hg1 Hg2]; subst. rewrite Hk in Hg1. injection Hg1 as <-. rewrite !fmap_cons. f_equal. by apply IH.
Qed.

(** *** Tables *)

Lemma collect_tables_Ok entries : forall owner tables, collect_tables owner entries = Ok tables ->
  tables = compile_table <$> entries.*2 /\ NoDup (table_key <$> entries.*2) /\
  forall t, t ∈ entries.*2 -> owner !! table_key t = None.
Proof.
  induction entries as [|[config t] entries IH]; intros owner tables H.
  { injection H as <-. split_and!; [done|constructor|by intros ? ?%elem_of_nil]. }
  cbn [collect_tables] in H. destruct (owner !! table_key t) eqn:Eo; [done|].
  apply result_bind_Ok in H as (ts & Hts & [= <-]). apply IH in Hts as (-> & Hnd & Hno). rewrite !fmap_cons. cbn [snd]. split_and!.
  - done.
  - apply NoDup_cons. split; [|done]. intros Hin. apply list_elem_of_fmap in Hin as (t' & He & Ht').
    specialize (Hno t' Ht'). rewrite <- He, lookup_insert_eq in Hno. done.
  - intros t' [->|Ht']%elem_of_cons; [done|]. specialize (Hno t' Ht').
    by apply lookup_insert_None in Hno as [? _].
Qed.

(** A table entry that the router's schema takes. *)
Definition entry_ok (te : TableEntry) : Prop :=
  te_schema te <> EmptyString /\ te_name te <> EmptyString /\
  (te_table_type te = TTSharded ->
   (exists c, te_shard_key_column te = Some c /\ c <> EmptyString) /\ is_Some (te_shard_key_type te) /\
   NoDup (ts_column <$> te_sequences te)).

Definition entry_name (te : TableEntry) : TableName := mkTableName (te_schema te) (te_name te).

Lemma insert_tables_succeeds `{XxHash} topo tes : is_ok (shard_function (t_hash_function topo)) = true ->
  forall vs, Forall entry_ok tes -> NoDup (entry_name <$> tes) ->
  (forall te, te ∈ tes -> vs_tables vs !! entry_name te = None) -> exists vs', insert_tables topo tes vs = Ok vs'.
Proof.
  intros Hh. induction tes as [|te tes IH]; intros vs Hok Hnd Hno; [by eexists|].
  apply Forall_cons in Hok as [(Hs & Hn & Hsh) Hok]. rewrite fmap_cons in Hnd. apply NoDup_cons in Hnd as [Hni Hnd].
  assert (Hnext : forall def, exists vs', insert_tables topo tes (mkVSchema (<[entry_name te := def]> (vs_tables vs))) = Ok vs').
  { intros def. apply IH; [done|done|]. intros te' Hte'. cbn [vs_tables]. rewrite lookup_insert_ne; [apply Hno; set_solver|].
    intros He. apply Hni. rewrite He. by apply list_elem_of_fmap_2. }
  assert (Hfresh : vs_tables vs !! entry_name te = None) by (apply Hno; set_solver).
  cbn [insert_tables]. fold (entry_name te).
  assert (Hne : str_is_empty (tn_schema (entry_name te)) || str_is_empty (tn_name (entry_name te)) = false).
  { apply orb_false_iff. split; apply not_true_iff_false; rewrite str_is_empty_spec; done. }
  unfold table_def. destruct (te_table_type te).
  - destruct (Hsh eq_refl) as ((c & -> & Hc) & [k ->] & Hq). cbn [ok_or mbind result_bind fmap option_fmap option_map].
    unfold VSchema.insert. rewrite Hne, decide_False by (rewrite Hfresh; by intros [? ?]).
    assert (str_is_empty c = false) as -> by (apply not_true_iff_false; by rewrite str_is_empty_spec).
    rewrite Hh. cbn [negb].
    assert (VSchema.duplicate_column ∅ ((fun s => mkSequenceBinding (ts_column s) (ts_sequence s)) <$> te_sequences te) = None) as ->.
    { apply duplicate_column_None. split; [|set_solver]. by rewrite <- list_fmap_compose. }
    cbn [mbind result_bind map_err]. apply Hnext.
  - cbn [mbind result_bind]. unfold VSchema.insert. rewrite Hne, decide_False by (rewrite Hfresh; by intros [? ?]).
    cbn [mbind result_bind map_err]. apply Hnext.
Qed.

Lemma decode_table_crd t : crd_table t = true -> NoDup (rq_column <$> rt_sequences t) ->
  exists te, decode_table (compile_table t) = Some te /\ entry_ok te /\ entry_name te = mkTableName (schema_of t) (rt_name t).
Proof.
  unfold crd_table. rewrite andb_true_iff, orb_true_iff, !bool_decide_eq_true, negb_true_iff. intros [Hn Hty] Hq.
  assert (Hs : schema_of t <> EmptyString).
  { unfold schema_of, defaultSchema. destruct (str_is_empty (rt_schema t)) eqn:E; [done|]. intros He. by rewrite He in E. }
  assert (Hn' : rt_name t <> EmptyString) by (intros He; by rewrite He in Hn).
  unfold decode_table, compile_table, decode_table_type. cbn [rt_type rt_shard_key_type rt_shard_key_column rt_schema rt_name rt_sequences].
  destruct Hty as [[-> Hk]|(-> & Hc & [k Hk])].
  - rewrite decide_False, decide_True by done. cbn [mbind option_bind].
    assert (exists kt, decode_option decode_key_type (non_empty (rt_shard_key_type t)) = Some kt) as [kt ->].
    { unfold non_empty. destruct Hk as [->|[k Hk]]; [by eexists|]. destruct (str_is_empty (rt_shard_key_type t)); [by eexists|]. cbn [decode_option]. rewrite Hk. by eexists. }
    eexists. split_and!; [done| |done]. by split_and!.
  - rewrite decide_True by done. cbn [mbind option_bind]. unfold non_empty.
    assert (str_is_empty (rt_shard_key_type t) = false) as ->
      by (apply not_true_iff_false; rewrite str_is_empty_spec; intros He; by rewrite He in Hk).
    cbn [decode_option]. rewrite Hk.
    assert (str_is_empty (rt_shard_key_column t) = false) as -> by (apply not_true_iff_false; by rewrite str_is_empty_spec).
    eexists. split_and!; [done| |done]. split_and!; [done|done|]. intros _. split_and!; [by eexists|by eexists|].
    cbn [te_sequences]. rewrite <- list_fmap_compose. change (NoDup (rq_column <$> sort_by (le_of cmp_sequences) (rt_sequences t))).
    by rewrite sort_by_perm.
Qed.

(** *** The router takes it *)

Lemma collect_serving_succeeds shards : forall prim,
  NoDup (se_name <$> List.filter is_serving shards) ->
  (forall s, s ∈ List.filter is_serving shards -> prim !! se_name s = None) -> exists x, collect_serving shards prim = Ok x.
Proof.
  induction shards as [|s shards IH]; intros prim Hnd Hno; [by eexists|]. cbn [collect_serving List.filter] in *.
  destruct (is_serving s); [|by apply IH]. rewrite fmap_cons in Hnd. apply NoDup_cons in Hnd as [Hni Hnd].
  rewrite (Hno s) by set_solver. destruct (IH (<[se_name s := se_primary s]> prim) Hnd) as [[sv pr] ->]; [|by eexists].
  intros s' Hs'. rewrite lookup_insert_ne; [apply Hno; set_solver|]. intros He. apply Hni. rewrite He. by apply list_elem_of_fmap_2.
Qed.

Lemma build_succeeds `{XxHash} topo : t_gates topo = [] -> validate topo = Ok tt ->
  Forall entry_ok (t_tables topo) -> NoDup (entry_name <$> t_tables topo) ->
  NoDup (se_name <$> List.filter is_serving (t_shards topo)) -> exists r, build topo = Ok r.
Proof.
  intros Hg Hv Hok Hnd Hns. unfold validate in Hv.
  destruct (t_epoch topo =? 0); [done|]. destruct (negb _); [done|]. destruct (t_topology_generation topo =? 0); [done|].
  apply result_bind_Ok in Hv as (f & Hf & Hp).
  assert (Hh : is_ok (shard_function (t_hash_function topo)) = true) by by destruct (shard_function _).
  unfold build. rewrite Hg. unfold build_vschema.
  destruct (insert_tables_succeeds topo (t_tables topo) Hh VSchema.default Hok Hnd) as [vs ->].
  { intros te _. unfold VSchema.default. cbn [vs_tables]. apply lookup_empty. }
  cbn [mbind result_bind]. destruct (collect_serving_succeeds (t_shards topo) ∅ Hns) as [[sv pr] Hc]; [intros; apply lookup_empty|].
  rewrite Hc. cbn [mbind result_bind]. apply collect_serving_Ok in Hc as (-> & _).
  unfold ShardCatalog.new.
  assert (fst <$> sort_by le_start (entry_of <$> List.filter is_serving (t_shards topo)) = serving_ranges topo) as ->.
  { rewrite <- (sort_by_fmap fst le_start (fun a b => kr_start a <=? kr_start b)) by done. by rewrite <- list_fmap_compose. }
  destruct (validate_partition (serving_ranges topo)) as [[]|]; [by eexists|done].
Qed.

(** What the API server has checked of the objects a compile reads. *)
Record admitted (input : CompileInputs) : Prop := {
  ad_ranges s : s ∈ ci_shards input -> crd_range (sh_key_range s) = true;
  ad_names : NoDup (sh_name <$> ci_shards input);
  ad_endpoints pod ep : ci_endpoints input !! pod = Some ep -> crd_endpoint ep = true;
  ad_lease l : ci_router_lease input = Some l -> l <= 60;
  ad_tables tc t : tc ∈ ci_table_configs input -> t ∈ tc_tables tc -> crd_table t = true;
}.

(** The routers know the cluster's hash function, which the CRD does not check. *)
Definition known_hash `{XxHash} (input : CompileInputs) : bool :=
  is_ok (shard_function (default default_hash_function (non_empty (ci_hash_function input)))).

(** No table binds two sequences to one column, which the CRD does not check. *)
Definition distinct_sequences (input : CompileInputs) : Prop :=
  forall tc t, tc ∈ ci_table_configs input -> t ∈ tc_tables tc -> NoDup (rq_column <$> rt_sequences t).

Lemma config_entries_elem configs t : t ∈ (config_entries configs).*2 -> exists tc, tc ∈ configs /\ t ∈ tc_tables tc.
Proof.
  intros Ht. apply list_elem_of_fmap in Ht as ([c t'] & -> & Ht). apply list_elem_of_bind in Ht as (tc & Ht & Htc).
  apply list_elem_of_fmap in Ht as (t'' & [= -> ->] & Ht''). by exists tc.
Qed.

Definition table_name (t : RoutingTable) : TableName := mkTableName (schema_of t) (rt_name t).

Lemma decode_tables l : (forall t, t ∈ l -> crd_table t = true /\ NoDup (rq_column <$> rt_sequences t)) ->
  exists tes, mapM decode_table (compile_table <$> l) = Some tes /\ Forall entry_ok tes /\ entry_name <$> tes = table_name <$> l.
Proof.
  induction l as [|t l IH]; intros Hl; [exists []; by split_and!|].
  destruct IH as (tes & Hd & Hok & Hn); [intros; apply Hl; set_solver|].
  destruct (Hl t) as [Hc Hq]; [set_solver|]. destruct (decode_table_crd t Hc Hq) as (te & Hte & Ho & Hne).
  exists (te :: tes). rewrite !fmap_cons. cbn [mapM]. rewrite Hte. cbn [mbind option_bind]. rewrite Hd.
  split_and!; [done|by constructor|by rewrite Hne, Hn].
Qed.

Lemma NoDup_table_names l : NoDup (table_key <$> l) -> NoDup (table_name <$> l).
Proof.
  assert (table_key <$> l = (fun n => ToLower (tn_schema n +:+ "." +:+ tn_name n)) <$> (table_name <$> l)) as ->
    by by rewrite <- list_fmap_compose.
  apply NoDup_fmap_1.
Qed.

Lemma compile_tables_decode input tables : (forall tc t, tc ∈ ci_table_configs input -> t ∈ tc_tables tc -> crd_table t = true) ->
  distinct_sequences input -> compileTables (ci_table_configs input) = Ok tables ->
  exists tes, mapM decode_table tables = Some tes /\ Forall entry_ok tes /\ NoDup (entry_name <$> tes).
Proof.
  intros Hcrd Hseq H. unfold compileTables in H. apply result_bind_Ok in H as (ts & Hts & [= <-]).
  apply collect_tables_Ok in Hts as (-> & Hnd & _). set (l := (config_entries _).*2) in *.
  rewrite (sort_by_fmap compile_table (fun a b => le_of cmp_tables (compile_table a) (compile_table b))) by done.
  set (l' := sort_by _ l). assert (Hp : l' ≡ₚ l) by apply sort_by_perm.
  destruct (decode_tables l') as (tes & Hd & Hok & Hn).
  { intros t Ht. rewrite Hp in Ht. apply config_entries_elem in Ht as (tc & Htc & Ht). rewrite sort_by_perm in Htc.
    split; [by eapply Hcrd|by eapply Hseq]. }
  exists tes. split_and!; [done|done|]. rewrite Hn. apply NoDup_table_names. by rewrite Hp.
Qed.

Section compiled.
Context `{XxHash} (input : CompileInputs) (spec : RoutingSpec).
Hypothesis Had : admitted input.
Hypothesis Hcompile : Compile input = Ok spec.

Let shards := sort_by (le_of cmp_shards) (ci_shards input).
Let data := List.filter is_data shards.

Lemma data_elem s : s ∈ data <-> s ∈ ci_shards input /\ is_data s = true.
Proof using. unfold data, shards. rewrite elem_of_filter_b. by rewrite sort_by_perm. Qed.

(** The pieces of a successful compile. *)
Lemma compile_pieces : exists g tables,
  gather_shards (ci_endpoints input) shards (mkGathered [] [] false None) = Ok g /\
  ValidatePartition (ga_serving g) = Ok tt /\ compileTables (ci_table_configs input) = Ok tables /\
  rp_shards spec = ga_shards g /\ rp_tables spec = tables /\ rp_gates spec = sort_by (le_of cmp_gates) (ci_gates input) /\
  rp_hash_function spec = ci_hash_function input /\ 1 <= rp_write_lease spec <= 60 /\
  rp_sequence_endpoint spec = ga_sequence_endpoint g.
Proof using Had Hcompile.
  unfold Compile in Hcompile. destruct (duplicate_gate ∅ _); [done|].
  apply result_bind_Ok in Hcompile as (g & Hg & H1). apply result_bind_Ok in H1 as ([] & Hv & H1).
  apply result_bind_Ok in H1 as (tables & Ht & [= <-]). exists g, tables. cbn.
  split_and!; try done.
  - by destruct (ValidatePartition _) as [[]|].
  - destruct (ci_router_lease input) as [l|]; [|unfold defaultWriteLeaseSeconds; lia]. unfold defaultWriteLeaseSeconds. destruct (l >? 0) eqn:E; lia.
  - pose proof (ad_lease input Had) as Hl. unfold defaultWriteLeaseSeconds. destruct (ci_router_lease input) as [l|]; [|lia].
    specialize (Hl l eq_refl). destruct (l >? 0); lia.
Qed.

Lemma data_ranges : exists krs,
  Forall2 (fun s kr => into_range (sh_key_range s) = Ok kr /\ range_wf kr /\ toRange (sh_key_range s) = Ok (to_go kr)) data krs.
Proof using Had Hcompile.
  destruct compile_pieces as (g & tables & Hg & _). apply gather_shards_Ok in Hg as (_ & Hp & _).
  assert (Hin : forall s, s ∈ data -> exists kr, into_range (sh_key_range s) = Ok kr /\ range_wf kr /\ toRange (sh_key_range s) = Ok (to_go kr)).
  { intros s Hs. destruct (Hp s Hs) as [gr Hgr]. apply data_elem in Hs as [Hs _].
    destruct (crd_range_reads _ _ (ad_ranges input Had s Hs) Hgr) as (kr & Hi & Hw & ->). by exists kr. }
  clear -Hin. induction data as [|s l IH]; [by exists []|].
  destruct (Hin s) as [kr Hkr]; [set_solver|]. destruct IH as [krs Hk]; [intros; apply Hin; set_solver|]. exists (kr :: krs). by constructor.
Qed.

Lemma gather_sequence eps l : (forall pod ep, eps !! pod = Some ep -> crd_endpoint ep = true) ->
  forall g g', gather_shards eps l g = Ok g' -> (forall ep, ga_sequence_endpoint g = Some ep -> crd_endpoint ep = true) ->
  forall ep, ga_sequence_endpoint g' = Some ep -> crd_endpoint ep = true.
Proof using.
  intros Heps. induction l as [|s l IH]; intros g g' Hg Hep; [by injection Hg as <-|].
  cbn [gather_shards] in Hg. apply result_bind_Ok in Hg as (g1 & Hg1 & Hg). apply (IH g1 g' Hg).
  unfold gather_shard in Hg1. destruct (bool_decide _).
  - destruct (ga_system_seen g); [done|]. injection Hg1 as <-. cbn.
    destruct (primaryEndpoint eps _ _) as [ep|] eqn:Ep; [|done]. intros ? [= <-]. by eapply primary_crd.
  - by apply result_bind_Ok in Hg1 as (kr & _ & [= <-]).
Qed.

(** The topology the router reads. *)
Lemma compiled_topology e g : ci_gates input = [] -> distinct_sequences input -> 1 <= e -> 1 <= g ->
  exists t krs, decode_spec (with_versions e g spec) = Some t /\ t_epoch t = e /\ t_gates t = [] /\
    t_shards t = zip_with (entry_for (ci_endpoints input)) data krs /\
    Forall2 (fun s kr => into_range (sh_key_range s) = Ok kr /\ range_wf kr /\ toRange (sh_key_range s) = Ok (to_go kr)) data krs /\
    Forall entry_ok (t_tables t) /\ NoDup (entry_name <$> t_tables t) /\
    t_topology_generation t = g /\ 1 <= t_write_lease_seconds t <= 60 /\ is_ok (shard_function (t_hash_function t)) = known_hash input.
Proof using Had Hcompile.
  intros Hgates Hseq He Hg. destruct compile_pieces as (ga & tables & Hga & _ & Ht & Hsh & Htb & Hgt & Hh & Hl & Hse).
  destruct data_ranges as [krs Hk]. destruct (compile_tables_decode input tables (ad_tables input Had) Hseq Ht) as (tes & Hd & Hok & Hnd).
  pose proof (gather_sequence _ _ (ad_endpoints input Had) _ _ Hga ltac:(done)) as Hep.
  apply gather_shards_Ok in Hga as (Hs & _). cbn [ga_shards app] in Hs. fold data in Hs.
  assert (Hds : mapM decode_shard (rp_shards spec) = Some (zip_with (entry_for (ci_endpoints input)) data krs)).
  { rewrite Hsh, Hs. apply decode_shards; [apply (ad_endpoints input Had)|]. eapply Forall2_impl; [exact Hk|]. by intros ? ? [? _]. }
  assert (exists ep, decode_option decode_endpoint (rp_sequence_endpoint spec) = Some ep) as [ep Hdep].
  { rewrite Hse. destruct (ga_sequence_endpoint ga) as [ep|]; [|by eexists]. cbn [decode_option].
    rewrite (decode_endpoint_crd ep) by by apply Hep. by eexists. }
  unfold decode_spec, with_versions. cbn [rp_epoch rp_generation rp_write_lease rp_hash_function rp_shards rp_tables rp_gates rp_sequence_endpoint].
  rewrite !(proj2 (Z.leb_le _ _)) by lia. cbn [andb]. rewrite Hds, Htb, Hd, Hgt, Hgates, Hdep, Hh. cbn [mbind option_bind mapM sort_by].
  eexists _, krs. split; [done|]. cbn. split_and!; try done.
  - destruct (rp_write_lease spec =? 0) eqn:E; lia.
  - destruct (rp_write_lease spec =? 0) eqn:E; lia.
Qed.

Lemma compiled_partition krs :
  Forall2 (fun s kr => into_range (sh_key_range s) = Ok kr /\ range_wf kr /\ toRange (sh_key_range s) = Ok (to_go kr)) data krs ->
  validate_partition (sort_by (fun a b => kr_start a <=? kr_start b)
    (se_key_range <$> List.filter is_serving (zip_with (entry_for (ci_endpoints input)) data krs))) = Ok tt.
Proof using Had Hcompile.
  intros Hk. destruct compile_pieces as (ga & tables & Hga & Hv & _). apply gather_shards_Ok in Hga as (_ & _ & gos & Hgs & Hf).
  cbn [ga_serving app] in Hgs. fold data in Hf. rewrite (serving_go (ci_endpoints input) data krs) in Hgs; [| |done].
  2: { eapply Forall2_impl; [exact Hk|]. by intros ? ? (_ & _ & ?). }
  set (rs := se_key_range <$> _) in *. rewrite Hgs in Hv.
  assert (Hvp : validate_partition rs = Ok tt).
  { pose proof (partition_agrees rs) as Hag. rewrite Hv in Hag. by destruct (validate_partition rs) as [[]|]. }
  assert (Hwf : Forall range_wf rs).
  { apply Forall_fmap, Forall_forall. intros en Hen. apply elem_of_filter_b in Hen as [Hen _].
    apply elem_of_lookup_zip_with in Hen as (i & s & kr & -> & Hi & Hkr). cbn. by destruct (Forall2_lookup_lr _ _ _ _ _ _ Hk Hi Hkr) as (_ & ? & _). }
  apply (partition_iff_owned rs Hwf). intros id Hid. apply range_count. by apply partition_owner.
Qed.
End compiled.

Lemma zip_entries eps ds krs en : en ∈ zip_with (entry_for eps) ds krs -> exists s kr i, en = entry_for eps s kr /\ ds !! i = Some s /\ krs !! i = Some kr.
Proof. intros Hen. apply elem_of_lookup_zip_with in Hen as (i & s & kr & -> & Hi & Hk). by exists s, kr, i. Qed.

Lemma zip_names eps ds krs : length ds = length krs ->
  se_name <$> List.filter is_serving (zip_with (entry_for eps) ds krs) = sh_name <$> List.filter sh_serving ds.
Proof.
  revert krs. induction ds as [|s ds IH]; intros [|kr krs] Hl; try done. cbn [zip_with List.filter].
  rewrite is_serving_entry. destruct (sh_serving s); [rewrite !fmap_cons; f_equal|]; apply IH; by injection Hl.
Qed.

(** Where a client reaches a shard: its ready, primary-role current primary, or nowhere. *)
Definition shard_target (eps : gmap string RoutingEndpoint) (s : PgShardShard) : result Route Target :=
  match primaryEndpoint eps (sh_instances s) (sh_current_primary s) with
  | Some ep => Ok (mkTarget (endpoint_of ep) (sh_name s))
  | None => Err (RtUnavailable ("shard " +:+ sh_name s +:+ " has no primary"))
  end.

(** C14: what the operator compiles, every router takes, unless it does not know the hash
    function. For admitted objects, without gates and without two sequences on one column, a
    routing that compiles and is written with an epoch decodes to a topology, which validates
    exactly when the hash function is known, a thing that neither the CRD nor the compiler
    asks for. If it is, a snapshot is built that sends every keyspace id to the one serving
    data shard whose range, as written in its object, holds it: to that shard's current
    primary, if that instance is ready and reports the role. *)
Theorem compiled_routing_routes `{XxHash} input spec e g :
  admitted input -> distinct_sequences input -> ci_gates input = [] -> Compile input = Ok spec -> 1 <= e -> 1 <= g ->
  exists t, decode_spec (with_versions e g spec) = Some t /\ is_ok (validate t) = known_hash input /\
  (known_hash input = true -> exists r, build t = Ok r /\ ro_epoch r = e /\
    forall id, is_u64 id -> exists s kr, s ∈ ci_shards input /\ is_data s = true /\ sh_serving s = true /\
      into_range (sh_key_range s) = Ok kr /\ KeyRange.contains kr id = true /\
      ShardCatalog.route (ro_catalog r) id = Some (sh_name s) /\
      target r (sh_name s) = shard_target (ci_endpoints input) s).
Proof.
  intros Had Hseq Hgates Hc He Hg.
  destruct (compiled_topology input spec Had Hc e g Hgates Hseq He Hg) as (t & krs & Hd & Hte & Htg & Hts & Hk & Hok & Hnd & Hgen & Hl & Hh).
  assert (Hv : is_ok (validate t) = known_hash input).
  { unfold validate, serving_ranges. rewrite Hte, Hgen, Hts, (compiled_partition input spec Had Hc krs Hk).
    destruct (e =? 0) eqn:E; [lia|]. destruct (g =? 0) eqn:E'; [lia|].
    rewrite !(proj2 (Z.leb_le _ _)) by lia. cbn [andb negb]. rewrite <- Hh. by destruct (shard_function _). }
  exists t. split; [done|]. split; [done|]. intros Hkn. rewrite Hkn in Hv. destruct (validate t) as [[]|] eqn:Hval; [clear Hv; rename Hval into Hv|done].
  pose proof (Forall2_length _ _ _ Hk) as Hlen.
  destruct (build_succeeds t Htg Hv Hok Hnd) as [r Hb].
  { rewrite Hts, zip_names by done. do 2 apply NoDup_fmap_filter. rewrite sort_by_perm. apply (ad_names input Had). }
  assert (Hwf : Forall (fun s => range_wf (se_key_range s)) (t_shards t)).
  { rewrite Hts. apply Forall_forall. intros en (s & kr & i & -> & Hi & Hkr)%zip_entries. cbn.
    by destruct (Forall2_lookup_lr _ _ _ _ _ _ Hk Hi Hkr) as (_ & ? & _). }
  exists r. split_and!; [done|by rewrite (build_epoch t r Hb)|]. intros id Hid.
  destruct (build_catalog t r Hb Hwf) as (Hcw & Hperm & _ & _). destruct (catalog_route _ id Hcw Hid) as (i & kr & n & Hi & Hin & Hroute & _).
  apply list_elem_of_lookup_2 in Hi. rewrite Hperm in Hi. apply list_elem_of_fmap in Hi as (en & [= -> ->] & Hen).
  pose proof (target_entry t r en Hb Hwf Hen) as Ht.
  apply elem_of_filter_b in Hen as [Hen Hsv]. rewrite Hts in Hen. apply zip_entries in Hen as (s & kr & j & -> & Hj & Hkr).
  destruct (Forall2_lookup_lr _ _ _ _ _ _ Hk Hj Hkr) as (Hr & _ & _). apply list_elem_of_lookup_2, data_elem in Hj as [Hs Hds].
  rewrite is_serving_entry in Hsv. exists s, kr. split_and!; try done.
  cbn [se_name entry_for] in Ht. rewrite Ht. unfold entry_target, shard_target, entry_for. cbn.
  by destruct (primaryEndpoint _ _ _).
Qed.

(** ** Canonical output *)

Lemma cmp_or_lex l k : length l = length k -> cmp_or (zip_with String.compare l k) = lex String.compare l k.
Proof.
  revert k. induction l as [|a l IH]; intros [|b k] Hl; try done. cbn. injection Hl as Hl.
  destruct (String.compare a b); [by apply IH|done|done].
Qed.

Definition shard_key (s : PgShardShard) : list string := [bd_start (sh_key_range s); bd_end (sh_key_range s); sh_name s].

Lemma shards_canonical l k : NoDup (sh_name <$> l) -> l ≡ₚ k -> sort_by (le_of cmp_shards) l = sort_by (le_of cmp_shards) k.
Proof.
  intros Hnd. apply (sort_canonical shard_key (lex String.compare)); [apply lex_ordered, string_ordered| |].
  - intros a b. apply (cmp_or_lex (shard_key a) (shard_key b)). done.
  - assert (sh_name <$> l = (fun k => List.last k EmptyString) <$> (shard_key <$> l)) as Hf by by rewrite <- list_fmap_compose.
    rewrite Hf in Hnd. by apply NoDup_fmap_1 in Hnd.
Qed.

Lemma configs_canonical l k : NoDup (tc_name <$> l) -> l ≡ₚ k -> sort_by (le_of cmp_configs) l = sort_by (le_of cmp_configs) k.
Proof. by apply (sort_canonical tc_name String.compare); [apply string_ordered|]. Qed.

Lemma duplicate_gate_None gates : forall seen, duplicate_gate seen gates = None <->
  NoDup (rg_id <$> gates) /\ forall g, g ∈ gates -> rg_id g ∉ seen.
Proof.
  induction gates as [|g gates IH]; intros seen; cbn [duplicate_gate].
  { split; [intros _; split; [constructor|by intros ? ?%elem_of_nil]|done]. }
  rewrite fmap_cons, NoDup_cons. destruct (decide _) as [Hin|Hni]; [split; [done|intros [_ Hn]; exfalso; apply (Hn g); set_solver]|].
  rewrite IH. split.
  - intros [Hnd Hn]. split_and!; [|done|].
    + intros Hin. apply list_elem_of_fmap in Hin as (g' & He & Hg'). apply (Hn g' Hg'). set_solver.
    + intros g' [->|Hg']%elem_of_cons; [done|]. specialize (Hn g' Hg'). set_solver.
  - intros [[Hg Hnd] Hn]. split; [done|]. intros g' Hg' Hin. apply elem_of_union in Hin as [He%elem_of_singleton|Hin].
    + apply Hg. rewrite <- He. by apply list_elem_of_fmap_2.
    + apply (Hn g'); [set_solver|done].
Qed.

(** the compiled routing does not depend on the order in which the objects were listed:
    an object list read in another order never changes the routing, so it never costs an
    epoch or a generation. *)
Theorem compile_canonical input input' :
  ci_router_lease input = ci_router_lease input' -> ci_hash_function input = ci_hash_function input' ->
  ci_endpoints input = ci_endpoints input' ->
  ci_shards input ≡ₚ ci_shards input' -> ci_table_configs input ≡ₚ ci_table_configs input' -> ci_gates input ≡ₚ ci_gates input' ->
  NoDup (sh_name <$> ci_shards input) -> NoDup (tc_name <$> ci_table_configs input) ->
  res_ok (Compile input) = res_ok (Compile input') /\
  forall s s', Compile input = Ok s -> Compile input' = Ok s' -> specEquivalent s s' = true /\ structuralChange s s' = false.
Proof.
  intros Hl Hh He Hs Ht Hg Hns Hnt. assert (Heq : res_ok (Compile input) = res_ok (Compile input')).
  { unfold Compile, compileTables. rewrite <- Hl, <- Hh, <- He, <- (shards_canonical _ _ Hns Hs), <- (configs_canonical _ _ Hnt Ht).
    destruct (duplicate_gate ∅ (ci_gates input)) eqn:E1, (duplicate_gate ∅ (ci_gates input')) eqn:E2; [done| | |].
    - apply duplicate_gate_None in E2 as [E2 _]. rewrite <- Hg in E2. exfalso.
      assert (duplicate_gate ∅ (ci_gates input) = None) as Hn by (apply duplicate_gate_None; split; [done|set_solver]). congruence.
    - apply duplicate_gate_None in E1 as [E1 _]. rewrite Hg in E1. exfalso.
      assert (duplicate_gate ∅ (ci_gates input') = None) as Hn by (apply duplicate_gate_None; split; [done|set_solver]). congruence.
    - apply duplicate_gate_None in E1 as [E1 _].
      by rewrite (sort_canonical rg_id String.compare cmp_gates string_ordered ltac:(done) _ _ E1 Hg). }
  split; [done|]. intros s s' Hc Hc'. rewrite Hc, Hc' in Heq. injection Heq as ->. split; [by apply bool_decide_eq_true|].
  by apply structuralChange_spec.
Qed.

(** ** Witnesses *)

Module RoutingExample.

#[local] Existing Instance be_hash.

Definition pod (name : string) : RoutingEndpoint := mkRoutingEndpoint name "10.0.0.1" 0 false.

Definition shard (name start end_ primary : string) (serving : bool) : PgShardShard :=
  mkPgShardShard name (mkBounds start end_) "data" serving [mkInstanceState primary "primary" true] primary.

Definition orders (sequences : list RoutingSequence) : PgShardTableConfig :=
  mkPgShardTableConfig "app" [mkRoutingTable EmptyString "orders" "sharded" "id" "int" sequences].

(** Two serving halves, listed out of order, a hidden quarter, and the system shard. *)
Definition input (sequences : list RoutingSequence) : CompileInputs :=
  mkCompileInputs (Some 10) EmptyString
    [shard "b" "80" EmptyString "b-0" true; shard "a" EmptyString "80" "a-0" true; shard "a1" EmptyString "40" "c-0" false;
     mkPgShardShard "sys" (mkBounds EmptyString EmptyString) "system" false [] EmptyString]
    [orders sequences] {[ "a-0" := pod "a-0"; "b-0" := pod "b-0" ]} [].

Definition one : list RoutingSequence := [mkRoutingSequence "id" "orders_id"].

Definition compiled (sequences : list RoutingSequence) : RoutingSpec :=
  match Compile (input sequences) with Ok s => s | Err _ => mkRoutingSpec 0 0 0 EmptyString [] [] [] None end.

Lemma input_admitted sequences : admitted (input sequences).
Proof.
  split; cbn [input ci_shards ci_endpoints ci_router_lease ci_hash_function ci_table_configs].
  - intros s Hs. repeat (apply elem_of_cons in Hs as [->|Hs]; [reflexivity|]). by apply elem_of_nil in Hs.
  - by apply (bool_decide_unpack _); vm_compute.
  - intros p ep Hp. apply lookup_insert_Some in Hp as [[_ <-]|[_ Hp]]; [done|]. by apply lookup_singleton_Some in Hp as [_ <-].
  - intros l [= <-]. lia.
  - intros tc t Htc%list_elem_of_singleton Ht. subst tc. cbn in Ht. apply list_elem_of_singleton in Ht. by subst t.
Qed.

Lemma compiled_routing_routes_witness : exists t r, decode_spec (with_versions 3 1 (compiled one)) = Some t /\ build t = Ok r /\
  forall id, is_u64 id -> exists s, s ∈ ci_shards (input one) /\ target r (sh_name s) = shard_target (ci_endpoints (input one)) s.
Proof.
  destruct (compiled_routing_routes (input one) (compiled one) 3 1) as (t & Ht & _ & Hr);
    [apply input_admitted| |reflexivity|vm_compute; reflexivity|lia|lia|].
  - intros tc t Htc%list_elem_of_singleton Ht. subst tc. cbn in Ht. apply list_elem_of_singleton in Ht. subst t. cbn. apply NoDup_singleton.
  - destruct (Hr eq_refl) as (r & Hb & _ & Hroute). exists t, r. split; [exact Ht|]. split; [exact Hb|].
    intros id Hid. destruct (Hroute id Hid) as (s & kr & Hs & _ & _ & _ & _ & _ & Htarget). exists s. split; [exact Hs|exact Htarget].
Defined.

Lemma compile_canonical_witness :
  let other := mkCompileInputs (Some 10) EmptyString (reverse (ci_shards (input one))) [orders one] (ci_endpoints (input one)) [] in
  res_ok (Compile (input one)) = res_ok (Compile other) /\
  forall s s', Compile (input one) = Ok s -> Compile other = Ok s' -> specEquivalent s s' = true /\ structuralChange s s' = false.
Proof.
  intros other. apply (compile_canonical (input one) other); try reflexivity.
  - symmetry. apply reverse_Permutation.
  - by apply (bool_decide_unpack _); vm_compute.
  - by apply (bool_decide_unpack _); vm_compute.
Defined.

(** Two writers race to create the routing; one of them finds it and updates it. *)
Definition leased (seconds : Z) : RoutingSpec := mkRoutingSpec 0 0 seconds "xxhash64_v1" [] [] [] None.

Definition raced : RoutingWorld :=
  mkRoutingWorld [with_versions 2 1 (leased 20); with_versions 1 1 (leased 10)]
    [mkWriter (leased 10) (WReturned (Some (1, true))); mkWriter (leased 20) (WReturned (Some (2, true)))].

Lemma routing_versions_witness :
  (forall n s, reverse (rw_versions raced) !! n = Some s -> rp_epoch s = Z.of_nat (S n)) /\
  (forall n o s, reverse (rw_versions raced) !! n = Some o -> reverse (rw_versions raced) !! S n = Some s -> next_version o s) /\
  (forall a b, a ∈ rw_versions raced -> b ∈ rw_versions raced -> rp_generation a = rp_generation b -> structure a = structure b) /\
  forall wr epoch changed, wr ∈ rw_writers raced -> wr_pc wr = WReturned (Some (epoch, changed)) ->
    exists s, s ∈ rw_versions raced /\ rp_epoch s = epoch /\ specEquivalent s (wr_desired wr) = true.
Proof.
  apply (routing_versions raced).
  eapply rtc_l; [apply (st_start _ (leased 10))|]. eapply rtc_l; [apply (st_start _ (leased 20))|].
  eapply rtc_l; [eapply (st_get _ 0 _ None); reflexivity|]. eapply rtc_l; [eapply (st_get _ 1 _ None); reflexivity|].
  eapply rtc_l; [eapply (st_accepted _ 0); reflexivity|]. eapply rtc_l; [eapply (st_refused _ 1); reflexivity|].
  eapply rtc_l; [eapply (st_get _ 1 _ (Some (1%nat, with_versions 1 1 (leased 10)))); [reflexivity|reflexivity|split; [lia|reflexivity]]|].
  eapply rtc_l; [eapply (st_accepted _ 1); reflexivity|]. apply rtc_refl.
Defined.

(** a table that binds two sequences to one column, which its CRD admits and the compiler
    publishes, is refused by every router: the topology decodes and validates, and no
    snapshot can be built from it. *)
Example duplicate_sequence_column_refused :
  let two := [mkRoutingSequence "id" "orders_id"; mkRoutingSequence "id" "other"] in
  admitted (input two) /\ Compile (input two) = Ok (compiled two) /\
  exists t, decode_spec (with_versions 3 1 (compiled two)) = Some t /\ validate t = Ok tt /\
    build t = Err (BuildVSchema (DuplicateSequenceColumn (mkTableName "public" "orders") "id")).
Proof.
  intros two. split_and!; [apply input_admitted|vm_compute; reflexivity|].
  exists (default default_topology (decode_spec (with_versions 3 1 (compiled two)))). split_and!; vm_compute; reflexivity.
Qed.

(** a cluster of another hash function, which its CRD admits, is compiled and published, and
    refused by every router. *)
Example unknown_hash_refused :
  let foreign := mkCompileInputs (Some 10) "md5" (ci_shards (input one)) [orders one] (ci_endpoints (input one)) [] in
  admitted foreign /\ exists spec t, Compile foreign = Ok spec /\ decode_spec (with_versions 3 1 spec) = Some t /\ validate t = Err (TopoInvalid "hash function").
Proof.
  intros foreign. split; [destruct (input_admitted one); by constructor|].
  exists (match Compile foreign with Ok s => s | Err _ => compiled one end).
  exists (default default_topology (decode_spec (with_versions 3 1 (match Compile foreign with Ok s => s | Err _ => compiled one end)))).
  split_and!; vm_compute; reflexivity.
Qed.

End RoutingExample.
