(* ===== verification/OpPlacement.v ===== *)
(** * Expansion and placement of a cluster

    [src/operator/internal/controller/pgshardcluster_controller.go]: the shards a cluster
    starts with, the nodes they are placed on, and the reconcile that creates and converges
    both. A reconcile is a program of requests; a read that fails for another reason than
    absence ends it, so it is a run cut short. *)

From S2P Require Import Prelude Rust Go Keyspace Topo OpProg OpConfig OpTopology OpRouting.
From stdpp Require Import gmap strings.

Open Scope Z_scope.

(** ** Objects *)

Section objects.
Context `{Quantity}.

Record SizeSpec := mkSize { sz_class : string; sz_overrides : option SizeOverrides }.

Record PlacementSpec := mkPlacement { pl_mode : string; pl_colocate_with : string }.

Inductive ClusterPhase := ClusterProvisioning | ClusterReady | ClusterDegraded | ClusterPaused.

Record ShardCounts := mkCounts { sc_total : Z; sc_ready : Z; sc_degraded : Z }.

(** [PgShardCluster]: its identity, the parts of its spec the controllers read, and the
    status this controller writes. *)
Record Cluster := mkCluster {
  cl_name : string; cl_uid : string; cl_image : string; cl_parameters : list (string * string); cl_hash_function : string;
  cl_size : option SizeSpec; cl_initial_count : Z; cl_placement : option PlacementSpec;
  cl_system : option (option StorageSpec); cl_pause : bool; cl_phase : ClusterPhase; cl_counts : ShardCounts }.

Record ShardSpec := mkShardSpec {
  ss_cluster_ref : string; ss_range : Bounds; ss_node_ref : string; ss_role : string; ss_replicas : Z; ss_serving : bool;
  ss_config_hash : string; ss_image : string; ss_resources : ResourceRequirements; ss_stanza : string }.

Record NodeSpec := mkNodeSpec {
  ns_replicas : Z; ns_image : string; ns_resources : ResourceRequirements; ns_storage : option StorageSpec; ns_config_hash : string }.

(** Phases; the first of each is the empty string of a new object. *)
Inductive ShardPhase := ShardNew | ShardProvisioning | ShardReady | ShardFailingOver | ShardDegraded.
Inductive NodePhase := NodeNew | NodeProvisioning | NodeReady | NodeFailingOver | NodeDegraded.

(** The status of a placed shard: its phase and primary, the condition that its database is
    ready, and the node and pod the database was verified on. *)
Record ShardStatus := mkShardStatus {
  hs_phase : ShardPhase; hs_primary : string; hs_db_ready : option bool; hs_db_node : string; hs_db_node_uid : string;
  hs_db_pod_uid : string }.

Record NodeStatus := mkNodeStatus { nt_phase : NodePhase; nt_primary : string }.

(** Stored objects, with their UID and the UID of their controller. *)
Record Shard := mkShard { sx_name : string; sx_uid : string; sx_owner : string; sx_spec : ShardSpec; sx_status : ShardStatus }.
Record Node := mkNode { nx_name : string; nx_uid : string; nx_owner : string; nx_spec : NodeSpec; nx_status : NodeStatus }.

(** An object before it is created: the server gives it a UID. *)
Definition new_shard (name owner : string) (spec : ShardSpec) : Shard :=
  mkShard name EmptyString owner spec (mkShardStatus ShardNew EmptyString None EmptyString EmptyString EmptyString).
Definition new_node (name owner : string) (spec : NodeSpec) : Node :=
  mkNode name EmptyString owner spec (mkNodeStatus NodeNew EmptyString).
Definition with_shard_spec (spec : ShardSpec) (s : Shard) : Shard := mkShard (sx_name s) (sx_uid s) (sx_owner s) spec (sx_status s).
Definition with_node_spec (spec : NodeSpec) (n : Node) : Node := mkNode (nx_name n) (nx_uid n) (nx_owner n) spec (nx_status n).

End objects.

#[export] Instance ClusterPhase_eq_dec : EqDecision ClusterPhase.
Proof. solve_decision. Defined.
#[export] Instance ShardCounts_eq_dec : EqDecision ShardCounts.
Proof. solve_decision. Defined.

Definition ShardRoleData : string := "data".
Definition PlacementShared : string := "shared".
Definition PlacementDedicatedInstance : string := "dedicatedInstance".

(** ** Names *)

Definition shardName (cluster start end_ : string) : string :=
  let start := if str_is_empty start then "min"%string else start in
  let end_ := if str_is_empty end_ then "max"%string else end_ in
  cluster +:+ "-" +:+ start +:+ "-" +:+ end_.

Definition systemName (cluster : string) : string := cluster +:+ "-system".
Definition sharedNodeName (cluster : string) : string := cluster +:+ "-shared".
Definition nodeNameMaxLength : nat := 58.
Definition DNS1123SubdomainMaxLength : nat := 253.

Definition configMapName (shard : string) : option string :=
  let name := shard +:+ "-postgres-config" in
  if (DNS1123SubdomainMaxLength <? str_len name)%nat then None else Some name.

Section cluster.
Context `{Quantity}.

(** ** Rendering *)

Definition clusterRenderInputs (cluster : Cluster) : Inputs :=
  match cl_size cluster with
  | Some size => mkInputs (sz_class size) (sz_overrides size) (cl_parameters cluster) 16
  | None => mkInputs EmptyString None (cl_parameters cluster) 16
  end.

(** ** The initial shards *)

Definition shardFor (cluster : Cluster) (name : string) (kr : Bounds) (role : string) (rendered : Rendered) (serving : bool) : ShardSpec :=
  mkShardSpec (cl_name cluster) kr EmptyString role (re_replicas rendered) serving (re_config_hash rendered) (cl_image cluster)
    (re_resources rendered) (name +:+ "-g1").

Definition range_bounds (kr : GoRange) : Bounds :=
  mkBounds (FormatBound (gr_start kr)) (if gr_closed kr then FormatBound (gr_end kr) else EmptyString).

(** [desiredShards]: names with their specs. A panic of [SplitEvenly] is [None]; the count
    is converted to [uint32]. *)
Definition desiredShards (cluster : Cluster) (rendered : Rendered) : option (result RangeError (list (string * ShardSpec))) :=
  split ← SplitEvenly FullRange (as_u32 (cl_initial_count cluster));
  match split with
  | Err e => Some (Err e)
  | Ok ranges =>
      let data := (fun kr =>
        let b := range_bounds kr in
        let name := shardName (cl_name cluster) (bd_start b) (bd_end b) in
        (name, shardFor cluster name b ShardRoleData rendered true)) <$> ranges in
      let name := systemName (cl_name cluster) in
      Some (Ok (data ++ [(name, shardFor cluster name (mkBounds EmptyString EmptyString) ShardRoleSystem rendered true)]))
  end.

(** ** Placement *)

Definition placementOf (cluster : Cluster) : string * string :=
  match cl_placement cluster with
  | Some p => (if str_is_empty (pl_mode p) then PlacementDedicatedInstance else pl_mode p, pl_colocate_with p)
  | None => (PlacementDedicatedInstance, EmptyString)
  end.

Definition dataStorage (cluster : Cluster) : option StorageSpec :=
  match cl_size cluster with Some size => sz_overrides size ≫= ov_storage | None => None end.
Definition systemStorage (cluster : Cluster) : option StorageSpec := default None (cl_system cluster).
Definition storageForShard (cluster : Cluster) (shard : ShardSpec) : option StorageSpec :=
  if bool_decide (ss_role shard = ShardRoleSystem) then systemStorage cluster else dataStorage cluster.

(** [None]: the name is too long. *)
Definition nodeFor (cluster : Cluster) (name : string) (rendered : Rendered) (storage : option StorageSpec) : option (string * NodeSpec) :=
  if (nodeNameMaxLength <? str_len name)%nat then None
  else Some (name, mkNodeSpec (re_replicas rendered) (cl_image cluster) (re_resources rendered) storage (re_config_hash rendered)).

(** The assignment of shards to nodes, the nodes to create, and another cluster's node
    (empty when there is none). *)
Definition desiredPlacement (cluster : Cluster) (rendered : Rendered) (shards : list (string * ShardSpec))
    : option (gmap string string * list (string * NodeSpec) * string) :=
  let '(mode, colocateWith) := placementOf cluster in
  if bool_decide (mode = PlacementShared) then
    let target := if str_is_empty colocateWith then cl_name cluster else colocateWith in
    let external := if str_is_empty colocateWith then EmptyString else sharedNodeName target in
    let node := sharedNodeName target in
    let assignment := list_to_map ((fun s => (fst s, node)) <$> shards) in
    if str_is_empty colocateWith then
      n ← nodeFor cluster node rendered (dataStorage cluster);
      Some (assignment, [n], external)
    else Some (assignment, [], external)
  else
    owned ← mapM (fun s => nodeFor cluster (fst s) rendered (storageForShard cluster (snd s))) shards;
    Some (list_to_map ((fun s => (fst s, fst s)) <$> shards), owned, EmptyString).

Definition clusterPhase (ready degraded total : Z) : ClusterPhase :=
  if (total =? 0) || (ready <? total) && (degraded =? 0) then ClusterProvisioning
  else if ready =? total then ClusterReady
  else ClusterDegraded.

(** ** The reconcile *)

(** The data of a configuration map: the hash and the parameters. *)
Definition config_data (rendered : Rendered) : gmap string string :=
  <["config-hash"%string := re_config_hash rendered]>
    (list_to_map ((fun e => ("param." +:+ fst e, snd e)) <$> map_to_list (re_parameters rendered))).

(** The result of a [Create]. *)
Inductive Created := CreatedOk | AlreadyThere | CreateFailed.

(** Requests. [EnsureConfigMap] is controllerutil's [CreateOrUpdate] with the owner as
    controller; it refuses a map that another controller owns. *)
Inductive ClusterRequest : Type -> Type :=
| GetOtherCluster (name : string) : ClusterRequest (option string)
| GetNode (name : string) : ClusterRequest (option Node)
| GetShard (name : string) : ClusterRequest (option Shard)
| CreateNode (n : Node) : ClusterRequest Created
| CreateShard (s : Shard) : ClusterRequest Created
| UpdateNode (n : Node) : ClusterRequest bool
| UpdateShard (s : Shard) : ClusterRequest bool
| EnsureConfigMap (owner name : string) (data : gmap string string) : ClusterRequest bool
| UpdateClusterStatus (p : ClusterPhase) (c : ShardCounts) : ClusterRequest bool.

Abbreviation ClusterProg := (Prog ClusterRequest).

(** Semantic equality of storage: quantities by value. *)
Definition storage_equal (a b : option StorageSpec) : bool :=
  match a, b with
  | None, None => true
  | Some x, Some y =>
      quantity_equal (stg_size x) (stg_size y) && bool_decide (stg_class x = stg_class y) &&
      Bool.eqb (stg_wal_separate x) (stg_wal_separate y)
  | _, _ => false
  end.

Section reconcile.
Variable cluster : Cluster.

Definition ensureConfigMap (shard : string) (rendered : Rendered) : ClusterProg unit :=
  match configMapName shard with
  | None => Stop
  | Some name => must (EnsureConfigMap (cl_uid cluster) name (config_data rendered))
  end.

(** [ensureNode]: whether to requeue. *)
Definition ensureNode (name : string) (node : NodeSpec) (rendered : Rendered) : ClusterProg bool :=
  found ← req (GetNode name);
  match found with
  | None =>
      r ← req (CreateNode (new_node name (cl_uid cluster) node));
      match r with
      | AlreadyThere => Done true
      | CreateFailed => Stop
      | CreatedOk => _ ← ensureConfigMap name rendered; Done false
      end
  | Some existing =>
      if negb (bool_decide (nx_owner existing = cl_uid cluster)) then Stop
      else
        _ ← ensureConfigMap name rendered;
        let spec := nx_spec existing in
        if negb (bool_decide (ns_config_hash spec = ns_config_hash node)) || negb (ns_replicas spec =? ns_replicas node) ||
           negb (bool_decide (ns_image spec = ns_image node)) || negb (storage_equal (ns_storage spec) (ns_storage node))
        then _ ← must (UpdateNode (with_node_spec node existing)); Done false
        else Done false
  end.

Fixpoint ensureNodes (owned : list (string * NodeSpec)) (rendered : Rendered) : ClusterProg bool :=
  match owned with
  | [] => Done false
  | (name, node) :: rest =>
      requeue ← ensureNode name node rendered;
      if negb requeue then ensureNodes rest rendered else Done true
  end.

(** The node that another cluster lends must exist and be controlled by that cluster. *)
Definition checkColocation (colocateWith external : string) : ClusterProg unit :=
  if str_is_empty external then Done tt
  else
    target ← req (GetOtherCluster colocateWith);
    match target with
    | None => Stop
    | Some uid =>
        ext ← req (GetNode external);
        match ext with
        | None => Stop
        | Some n => if bool_decide (nx_owner n = uid) then Done tt else Stop
        end
    end.

(** [NodeRef] of a desired shard; a name without an assignment reads as empty. *)
Definition placed (assignment : gmap string string) (s : string * ShardSpec) : string * ShardSpec :=
  let spec := snd s in
  (fst s, mkShardSpec (ss_cluster_ref spec) (ss_range spec) (default EmptyString (assignment !! fst s)) (ss_role spec) (ss_replicas spec)
            (ss_serving spec) (ss_config_hash spec) (ss_image spec) (ss_resources spec) (ss_stanza spec)).

(** [placeShards]: the placed shards, or [None] to requeue. *)
Definition placeShards (rendered : Rendered) (desired : list (string * ShardSpec)) : ClusterProg (option (list (string * ShardSpec))) :=
  match desiredPlacement cluster rendered desired with
  | None => Stop
  | Some (assignment, owned, external) =>
      _ ← checkColocation (snd (placementOf cluster)) external;
      requeue ← ensureNodes owned rendered;
      if negb requeue then Done (Some (placed assignment <$> desired)) else Done None
  end.

(** The fields of an existing shard that the cluster owns. *)
Definition converged (spec want : ShardSpec) : ShardSpec :=
  mkShardSpec (ss_cluster_ref spec) (ss_range spec) (ss_node_ref want) (ss_role spec) (ss_replicas want) (ss_serving spec)
    (ss_config_hash want) (ss_image want) (ss_resources want) (ss_stanza spec).

(** One shard: [None] to requeue, else its phase if it existed. *)
Definition ensureShard (name : string) (want : ShardSpec) (rendered : Rendered) : ClusterProg (option (option ShardPhase)) :=
  found ← req (GetShard name);
  match found with
  | None =>
      match configMapName name with
      | None => Stop
      | Some _ =>
          r ← req (CreateShard (new_shard name (cl_uid cluster) want));
          match r with
          | AlreadyThere => Done None
          | CreateFailed => Stop
          | CreatedOk => _ ← ensureConfigMap name rendered; Done (Some None)
          end
      end
  | Some existing =>
      if negb (bool_decide (sx_owner existing = cl_uid cluster)) then Stop
      else
        _ ← ensureConfigMap name rendered;
        let spec := sx_spec existing in
        _ ← (if negb (bool_decide (ss_config_hash spec = ss_config_hash want)) || negb (ss_replicas spec =? ss_replicas want) ||
                negb (bool_decide (ss_image spec = ss_image want)) || negb (bool_decide (ss_node_ref spec = ss_node_ref want))
             then must (UpdateShard (with_shard_spec (converged spec want) existing))
             else Done tt);
        Done (Some (Some (hs_phase (sx_status existing))))
  end.

Fixpoint ensureShards (desired : list (string * ShardSpec)) (rendered : Rendered) (ready degraded : Z) : ClusterProg (option (Z * Z)) :=
  match desired with
  | [] => Done (Some (ready, degraded))
  | (name, want) :: rest =>
      r ← ensureShard name want rendered;
      match r with
      | None => Done None
      | Some (Some ShardReady) => ensureShards rest rendered (ready + 1) degraded
      | Some (Some ShardDegraded) => ensureShards rest rendered ready (degraded + 1)
      | Some _ => ensureShards rest rendered ready degraded
      end
  end.

(** The status after the placed shards were ensured, written only if it changed. *)
Definition clusterStatus (desired : list (string * ShardSpec)) (rendered : Rendered) : ClusterProg unit :=
  counts ← ensureShards desired rendered 0 0;
  match counts with
  | None => Done tt
  | Some (ready, degraded) =>
      let total := Z.of_nat (length desired) in
      let c := mkCounts total ready degraded in
      let p := clusterPhase ready degraded total in
      if bool_decide (cl_phase cluster = p) && bool_decide (cl_counts cluster = c) then Done tt
      else _ ← req (UpdateClusterStatus p c); Done tt
  end.

Definition ClusterReconcile `{GoUnicode} `{Sha256} : ClusterProg unit :=
  if cl_pause cluster then
    if bool_decide (cl_phase cluster = ClusterPaused) then Done tt
    else _ ← req (UpdateClusterStatus ClusterPaused (cl_counts cluster)); Done tt
  else
    match Render (clusterRenderInputs cluster) with
    | Err _ => Stop
    | Ok rendered =>
        match desiredShards cluster rendered with
        | Some (Ok desired) =>
            placed ← placeShards rendered desired;
            match placed with
            | None => Done tt
            | Some desired' => clusterStatus desired' rendered
            end
        | _ => Stop
        end
    end.

End reconcile.
End cluster.

(** ** Lemmas *)

(** *** Names *)

(** The bounds the CRD admits, as far as names depend on it. *)
Definition hex_bound (s : string) : Prop := Forall (fun c => is_lower_hex c = true) (bytes s).

(** The last separator splits a name. *)
Lemma last_dash_inj a b a' b' : "-"%char ∉ b -> "-"%char ∉ b' -> a ++ "-"%char :: b = a' ++ "-"%char :: b' -> a = a' /\ b = b'.
Proof.
  intros Hb Hb' Heq. apply (f_equal reverse) in Heq. rewrite !reverse_app, !reverse_cons, <- !app_assoc in Heq. cbn in Heq.
  pose proof (split_once_bytes_app "-"%char (reverse b) (reverse a)) as E1.
  rewrite Heq, split_once_bytes_app in E1 by (by rewrite elem_of_reverse).
  specialize (E1 ltac:(by rewrite elem_of_reverse)). injection E1 as E2 E3.
  split; apply (inj reverse); congruence.
Qed.

(** A bound as it stands in a name. *)
Definition bound_text (stand_in s : string) : string := if str_is_empty s then stand_in else s.

Lemma shardName_text cluster s e : shardName cluster s e = cluster +:+ "-" +:+ bound_text "min" s +:+ "-" +:+ bound_text "max" e.
Proof. done. Qed.

Lemma bound_text_dash w s : "-"%char ∉ bytes w -> hex_bound s -> "-"%char ∉ bytes (bound_text w s).
Proof. unfold bound_text. destruct (str_is_empty s); [done|]. intros _. apply hex_no_dash. Qed.

Lemma bound_text_inj w s s' : ~ hex_bound w -> hex_bound s -> hex_bound s' -> bound_text w s = bound_text w s' -> s = s'.
Proof.
  intros Hw Hs Hs'. unfold bound_text.
  destruct (str_is_empty s) eqn:E, (str_is_empty s') eqn:E'; [intros _|by intros ->|by intros ->|done].
  apply str_is_empty_spec in E, E'. congruence.
Qed.

Lemma no_hex w c : c ∈ bytes w -> is_lower_hex c = false -> ~ hex_bound w.
Proof. unfold hex_bound. rewrite Forall_forall. intros Hin Hc Hf. specialize (Hf c Hin). congruence. Qed.

Lemma min_not_hex : ~ hex_bound "min".
Proof. by eapply (no_hex _ "m"%char); [left|]. Qed.
Lemma max_not_hex : ~ hex_bound "max".
Proof. by eapply (no_hex _ "m"%char); [left|]. Qed.

Lemma shardName_inj c s e c' s' e' : hex_bound s -> hex_bound e -> hex_bound s' -> hex_bound e' ->
  shardName c s e = shardName c' s' e' -> c = c' /\ s = s' /\ e = e'.
Proof.
  intros Hs He Hs' He'. rewrite !shardName_text. intros Heq%(f_equal bytes).
  rewrite !bytes_app in Heq. cbn [bytes String.list_ascii_of_string app] in Heq.
  assert (Hd : forall w x, w = "min"%string \/ w = "max"%string -> hex_bound x -> "-"%char ∉ bytes (bound_text w x)).
  { intros w x Hw. apply bound_text_dash. by destruct Hw as [->| ->]; apply (bool_decide_unpack _). }
  assert (Hshape : forall c x y : list ascii, c ++ "-"%char :: x ++ "-"%char :: y = (c ++ "-"%char :: x) ++ "-"%char :: y)
    by (intros; by rewrite <- app_assoc).
  rewrite !Hshape in Heq.
  apply last_dash_inj in Heq as [Heq E]; [|by apply Hd; [right|]..].
  apply last_dash_inj in Heq as [E1 E2]; [|by apply Hd; [left|]..].
  apply (inj bytes) in E, E1, E2. split_and!; [done|by eapply (bound_text_inj "min"), E2; auto using min_not_hex|].
  by eapply (bound_text_inj "max"), E; auto using max_not_hex.
Qed.

(** *** The initial ranges *)

Lemma range_bounds_text r : bd_start (range_bounds (to_go r)) +:+ "-" +:+ bd_end (range_bounds (to_go r)) = KeyRange_to_string r.
Proof.
  unfold range_bounds, to_go, KeyRange_to_string. destruct (kr_end r); cbn; by rewrite ?format_agrees.
Qed.

Lemma toRange_bounds r : range_wf r -> toRange (range_bounds (to_go r)) = Ok (to_go r).
Proof.
  intros Hr. unfold toRange. rewrite range_bounds_text. pose proof (range_parse_agrees (KeyRange_to_string r)) as Hp.
  rewrite range_round_trip in Hp by done. by destruct (ParseKeyRange _); [injection Hp as ->|].
Qed.

Lemma range_bounds_hex r : range_wf r -> hex_bound (bd_start (range_bounds (to_go r))) /\ hex_bound (bd_end (range_bounds (to_go r))).
Proof.
  intros Hr. pose proof (range_start_u64 r Hr) as Hs. pose proof (end_exclusive_range r Hr) as He.
  unfold hex_bound, range_bounds, to_go, KeyRange.end_exclusive in *. destruct Hr as (? & ? & ?).
  destruct (kr_end r); cbn; rewrite ?format_agrees; split; try (by apply format_bound_hex); [|constructor].
  apply format_bound_hex. unfold is_u64 in *. lia.
Qed.

Lemma chain_NoDup lo rs hi : Forall range_wf rs -> chain lo rs hi -> NoDup rs.
Proof.
  revert lo. induction rs as [|r [|r' rs] IH]; intros lo Hwf Hc; [constructor|apply NoDup_singleton|].
  apply Forall_cons in Hwf as [Hr Hwf]. apply chain_cons in Hc as (_ & m & Hm & Hc); [|done].
  apply NoDup_cons. split; [|by eapply IH]. intros [i Hi]%list_elem_of_lookup.
  pose proof (chain_start_le _ _ _ _ _ Hwf Hc Hi) as Hle. pose proof (end_exclusive_range r Hr) as He.
  unfold KeyRange.end_exclusive in He. rewrite Hm in He. cbn in He. lia.
Qed.

Lemma to_go_inj r r' : range_wf r -> range_wf r' -> to_go r = to_go r' -> r = r'.
Proof.
  destruct r as [s [e|]], r' as [s' [e'|]]; unfold to_go; cbn; intros _ _ Heq; injection Heq; intros; subst; done.
Qed.

(** A name that ends in a reserved word is not the name of a range. *)
Lemma reserved_name w c s e x : hex_bound e -> x ∈ bytes w -> is_lower_hex x = false -> "-"%char ∉ bytes w -> w <> "max"%string ->
  forall c', shardName c s e <> c' +:+ "-" +:+ w.
Proof.
  intros He Hx Hnx Hd Hm c' Heq. rewrite shardName_text in Heq. apply (f_equal bytes) in Heq. rewrite !bytes_app in Heq.
  cbn [bytes String.list_ascii_of_string app] in Heq.
  rewrite (app_comm_cons _ _ "-"%char), app_assoc in Heq.
  apply last_dash_inj in Heq as [_ Heq]; [|by apply bound_text_dash; [apply (bool_decide_unpack _)|]|done].
  apply (inj bytes) in Heq. unfold bound_text in Heq. destruct (str_is_empty e); [by subst|]. subst. by eapply no_hex.
Qed.

Section initial.
Context `{Quantity} (cluster : Cluster) (rendered : Rendered).

Definition data_shard (r : KeyRange) : string * ShardSpec :=
  let b := range_bounds (to_go r) in
  let name := shardName (cl_name cluster) (bd_start b) (bd_end b) in
  (name, shardFor cluster name b ShardRoleData rendered true).

Definition system_shard : string * ShardSpec :=
  let name := systemName (cl_name cluster) in
  (name, shardFor cluster name (mkBounds EmptyString EmptyString) ShardRoleSystem rendered true).

Lemma desiredShards_Ok : 1 <= cl_initial_count cluster <= u32_MAX -> exists rs,
  desiredShards cluster rendered = Some (Ok ((data_shard <$> rs) ++ [system_shard])) /\
  length rs = Z.to_nat (cl_initial_count cluster) /\ Forall range_wf rs /\ chain 0 rs None.
Proof.
  intros Hn. assert (Hu : as_u32 (cl_initial_count cluster) = cl_initial_count cluster).
  { unfold as_u32. apply Z.mod_small. unfold u32_MAX in *. lia. }
  assert (Hfull : range_wf KeyRange.FULL) by concrete.
  unfold desiredShards. rewrite Hu. change FullRange with (to_go KeyRange.FULL).
  rewrite split_agrees by (done || lia).
  destruct (split_evenly_spec KeyRange.FULL (cl_initial_count cluster) Hfull) as [[_ Hbad]|(rs & -> & _ & Hlen & Hwf & Hc & _)]; [lia|..].
  { exfalso. destruct Hbad as [?|Hbad]; [lia|]. vm_compute KeyRange.end_exclusive in Hbad. cbn in Hbad. unfold u32_MAX in *. lia. }
  cbn [mbind option_bind]. exists rs. split; [|done]. by rewrite <- list_fmap_compose.
Qed.

Lemma data_shard_name_inj r r' : range_wf r -> range_wf r' -> fst (data_shard r) = fst (data_shard r') -> r = r'.
Proof.
  intros Hr Hr' Heq. destruct (range_bounds_hex r Hr), (range_bounds_hex r' Hr').
  apply shardName_inj in Heq as (_ & Es & Ee); [|done..].
  pose proof (toRange_bounds r Hr) as E1. pose proof (toRange_bounds r' Hr') as E2.
  unfold toRange in E1, E2. rewrite Es, Ee, E2 in E1. injection E1 as E1. by apply to_go_inj.
Qed.

Lemma system_name_fresh r : range_wf r -> fst (data_shard r) <> fst system_shard.
Proof. intros Hr. destruct (range_bounds_hex r Hr) as [_ He]. eapply (reserved_name "system" _ _ _ "y"%char); [done|..|done]; by apply (bool_decide_unpack _). Qed.

Lemma initial_names rs : Forall range_wf rs -> chain 0 rs None -> NoDup ((data_shard <$> rs) ++ [system_shard]).*1.
Proof.
  intros Hwf Hc. rewrite fmap_app, <- list_fmap_compose. apply NoDup_app. split_and!; [|..|apply NoDup_singleton].
  - pose proof (chain_NoDup _ _ _ Hwf Hc) as Hnd. clear Hc. induction rs as [|r rs IH]; [constructor|].
    apply Forall_cons in Hwf as [Hr Hwf]. apply NoDup_cons in Hnd as [Hni Hnd]. rewrite fmap_cons. apply NoDup_cons. split; [|by apply IH].
    intros (r' & Heq & Hin)%list_elem_of_fmap. rewrite Forall_forall in Hwf.
    apply data_shard_name_inj in Heq as ->; [done|done|]. by apply Hwf.
  - intros n (r & -> & Hin)%list_elem_of_fmap Hs%list_elem_of_singleton. rewrite Forall_forall in Hwf.
    by eapply system_name_fresh, Hs; apply Hwf.
Qed.
End initial.

(** *** What a reconcile touches *)

Section touches.
Context `{Quantity} (cluster : Cluster) (names : list string).

Abbreviation Trace := (list (Event ClusterRequest)).

Definition owned_node (tr : Trace) (name : string) : Prop :=
  (exists n, answered (GetNode name) (Some n) ∈ tr /\ nx_owner n = cl_uid cluster) \/
  (exists spec, answered (CreateNode (new_node name (cl_uid cluster) spec)) CreatedOk ∈ tr).

Definition owned_shard (tr : Trace) (name : string) : Prop :=
  (exists s, answered (GetShard name) (Some s) ∈ tr /\ sx_owner s = cl_uid cluster) \/
  (exists spec, answered (CreateShard (new_shard name (cl_uid cluster) spec)) CreatedOk ∈ tr).

(** Another cluster's node, where the placement asks for one, is that cluster's. *)
Definition lent (tr : Trace) : Prop :=
  fst (placementOf cluster) = PlacementShared -> snd (placementOf cluster) <> EmptyString ->
  exists uid n, answered (GetOtherCluster (snd (placementOf cluster))) (Some uid) ∈ tr /\
    answered (GetNode (sharedNodeName (snd (placementOf cluster)))) (Some n) ∈ tr /\ nx_owner n = uid.

Definition own_only (tr : Trace) (e : sigT ClusterRequest) : Prop :=
  match projT2 e with
  | GetShard name => name ∈ names
  | CreateNode n => nx_owner n = cl_uid cluster /\ answered (GetNode (nx_name n)) None ∈ tr
  | UpdateNode n => exists name old, answered (GetNode name) (Some old) ∈ tr /\ nx_owner old = cl_uid cluster /\
      nx_owner n = nx_owner old /\ nx_name n = nx_name old
  | CreateShard s => sx_owner s = cl_uid cluster /\ sx_name s ∈ names /\ ss_serving (sx_spec s) = true /\
      answered (GetShard (sx_name s)) None ∈ tr /\ lent tr
  | UpdateShard s => exists name old, answered (GetShard name) (Some old) ∈ tr /\ sx_owner old = cl_uid cluster /\
      sx_name s = sx_name old /\ sx_owner s = sx_owner old /\ ss_serving (sx_spec s) = ss_serving (sx_spec old) /\
      ss_range (sx_spec s) = ss_range (sx_spec old) /\ ss_role (sx_spec s) = ss_role (sx_spec old) /\
      ss_cluster_ref (sx_spec s) = ss_cluster_ref (sx_spec old) /\ lent tr
  | EnsureConfigMap owner cm _ => owner = cl_uid cluster /\
      exists name, configMapName name = Some cm /\ (owned_node tr name \/ owned_shard tr name)
  | UpdateClusterStatus p _ => p = ClusterReady ->
      forall name, name ∈ names -> exists x, answered (GetShard name) (Some x) ∈ tr /\ hs_phase (sx_status x) = ShardReady
  | GetOtherCluster _ | GetNode _ => True
  end.

Lemma configmap_allowed tr name rendered : owned_node tr name \/ owned_shard tr name ->
  allowed own_only tr (ensureConfigMap cluster name rendered).
Proof.
  intros Ho. unfold ensureConfigMap. destruct (configMapName name) eqn:E; [|step_allowed].
  step_allowed. split; [done|]. by exists name.
Qed.

Lemma seen {E : Type -> Type} {R} (q : E R) x tr : answered q x ∈ tr ++ [answered q x].
Proof. apply elem_of_app. right. by left. Qed.

Lemma ensureNode_allowed tr name node rendered : allowed own_only tr (ensureNode cluster name node rendered).
Proof.
  unfold ensureNode. step_allowed; [done|]. destruct x as [existing|].
  - case_bool_decide as Ho; cbn [negb]; [|step_allowed]. step_allowed.
    + apply configmap_allowed. left. left. exists existing. split; [apply seen|done].
    + cbv zeta. destruct (_ || _); [|step_allowed]. step_allowed; [|intros; step_allowed].
      step_allowed. exists name, existing. split; [|done]. apply elem_of_app. left. apply seen.
  - step_allowed.
    + split; [done|]. apply seen.
    + destruct x; [|step_allowed..]. step_allowed; [|intros; step_allowed].
      apply configmap_allowed. left. right. exists node. apply seen.
Qed.

Lemma ensureNodes_allowed owned rendered : forall tr, allowed own_only tr (ensureNodes cluster owned rendered).
Proof.
  induction owned as [|[name node] owned IH]; intros tr; cbn [ensureNodes]; [step_allowed|].
  step_allowed; [apply ensureNode_allowed|]. destruct a; cbn [negb]; [step_allowed|apply IH].
Qed.

Lemma ensureShard_allowed tr name want rendered : name ∈ names -> ss_serving want = true -> lent tr ->
  allowed own_only tr (ensureShard cluster name want rendered).
Proof.
  intros Hn Hs Hl. assert (Hmono : forall tr', lent (tr ++ tr')).
  { intros tr' H1 H2. destruct (Hl H1 H2) as (uid & n & ? & ? & ?). exists uid, n. split_and!; [apply elem_of_app; by left..|done]. }
  unfold ensureShard. step_allowed; [done|]. destruct x as [existing|].
  - case_bool_decide as Ho; cbn [negb]; [|step_allowed]. step_allowed.
    + apply configmap_allowed. right. left. exists existing. split; [apply seen|done].
    + cbv zeta. step_allowed; [|intros; step_allowed]. destruct (_ || _); step_allowed.
      exists name, existing. rewrite <- !app_assoc.
      split_and!; first [done|apply Hmono|by apply elem_of_app; right; left].
  - destruct (configMapName name); [|step_allowed]. step_allowed.
    + split_and!; first [done|apply seen|apply Hmono].
    + destruct x; [|step_allowed..]. step_allowed; [|intros; step_allowed].
      apply configmap_allowed. right. right. exists want. apply seen.
Qed.

Lemma ensureShards_allowed rendered desired : forall tr ready degraded,
  Forall (fun d => d.1 ∈ names /\ ss_serving d.2 = true) desired -> lent tr ->
  allowed own_only tr (ensureShards cluster desired rendered ready degraded).
Proof.
  induction desired as [|[name want] desired IH]; intros tr ready degraded Hd Hl; cbn [ensureShards]; [step_allowed|].
  apply Forall_cons in Hd as [[Hn Hs] Hd]. step_allowed; [by apply ensureShard_allowed|].
  assert (lent (tr ++ tr1)).
  { intros H1 H2. destruct (Hl H1 H2) as (uid & n & ? & ? & ?). exists uid, n. split_and!; [apply elem_of_app; by left..|done]. }
  destruct a as [[[]|]|]; first [by apply IH | step_allowed].
Qed.

Lemma checkColocation_allowed tr w external : allowed own_only tr (checkColocation w external).
Proof.
  unfold checkColocation. destruct (str_is_empty external); [step_allowed|]. step_allowed; [done|].
  destruct x; [|step_allowed]. step_allowed; [done|]. destruct x; [|step_allowed]. case_bool_decide; step_allowed.
Qed.

Lemma checkColocation_runs w external tr u : runs (checkColocation w external) tr u -> external <> EmptyString ->
  exists uid n, answered (GetOtherCluster w) (Some uid) ∈ tr /\ answered (GetNode external) (Some n) ∈ tr /\ nx_owner n = uid.
Proof.
  unfold checkColocation. destruct (str_is_empty external) eqn:E; [by apply str_is_empty_spec in E|].
  intros (t & tr1 & -> & Hr)%runs_req _. destruct t as [uid|]; [|done].
  apply runs_req in Hr as (n & tr2 & -> & Hr). destruct n as [n|]; [|done].
  case_bool_decide as Hn; [|done]. exists uid, n. split_and!; [by left|by right; left|done].
Qed.

Lemma placeShards_runs rendered desired tr ds : runs (placeShards cluster rendered desired) tr (Some ds) ->
  lent tr /\ ds.*1 = desired.*1 /\ (fun d => ss_serving d.2) <$> ds = (fun d => ss_serving d.2) <$> desired.
Proof.
  unfold placeShards. destruct (desiredPlacement cluster rendered desired) as [[[assignment owned] external]|] eqn:Hp; [|done].
  intros (u & tr1 & tr2 & -> & Hc & Hr)%run_bind. apply run_bind in Hr as (requeue & tr3 & tr4 & -> & _ & Hr).
  destruct requeue; cbn [negb] in Hr; destruct Hr as [-> [= <-]]. split_and!.
  - intros Hm Hw. destruct (checkColocation_runs _ _ _ _ Hc) as (uid & n & ? & ? & ?).
    + unfold desiredPlacement in Hp. destruct (placementOf cluster) as [mode w]. cbn in Hm, Hw. subst mode.
      rewrite bool_decide_true in Hp by done. destruct (str_is_empty w) eqn:E; [by apply str_is_empty_spec in E|].
      injection Hp as _ _ <-. by destruct w.
    + assert (external = sharedNodeName (snd (placementOf cluster))) as ->.
      { unfold desiredPlacement in Hp. destruct (placementOf cluster) as [mode w]. cbn in Hm, Hw. subst mode.
        rewrite bool_decide_true in Hp by done. destruct (str_is_empty w) eqn:E; [by apply str_is_empty_spec in E|].
        by injection Hp as _ _ <-. }
      exists uid, n. split_and!; [apply elem_of_app; by left..|done].
  - by rewrite <- list_fmap_compose.
  - by rewrite <- list_fmap_compose.
Qed.

Lemma placeShards_allowed rendered desired tr : allowed own_only tr (placeShards cluster rendered desired).
Proof.
  unfold placeShards. destruct (desiredPlacement _ _ _) as [[[assignment owned] external]|]; [|step_allowed].
  step_allowed; [apply checkColocation_allowed|]. step_allowed; [apply ensureNodes_allowed|]. destruct a0; cbn [negb]; step_allowed.
Qed.

(** Shards that were read as ready are counted, each at most once. *)
Lemma ensureShards_counts rendered desired : forall tr ready degraded ready' degraded',
  runs (ensureShards cluster desired rendered ready degraded) tr (Some (ready', degraded')) ->
  ready' <= ready + Z.of_nat (length desired) /\ degraded <= degraded' /\
  (ready' = ready + Z.of_nat (length desired) ->
   forall name, name ∈ desired.*1 -> exists x, answered (GetShard name) (Some x) ∈ tr /\ hs_phase (sx_status x) = ShardReady).
Proof.
  induction desired as [|[name want] desired IH]; intros tr ready degraded ready' degraded'; cbn [ensureShards].
  { intros [-> [= <- <-]]. cbn. split_and!; [lia|lia|]. by intros _ n ?%not_elem_of_nil. }
  intros (a & tr1 & tr2 & -> & Hr & Hrest)%run_bind. rewrite fmap_cons. cbn [length fst].
  destruct a as [p|]; [|by destruct Hrest].
  assert (Hn : forall x, p = Some x -> exists s, answered (GetShard name) (Some s) ∈ tr1 /\ hs_phase (sx_status s) = x).
  { intros x ->. unfold ensureShard in Hr. apply runs_req in Hr as (s & tr3 & -> & Hr). destruct s as [s|].
    - case_bool_decide; [|done]. cbn [negb] in Hr. apply run_bind in Hr as (_ & ? & ? & -> & _ & Hr).
      apply run_bind in Hr as (_ & ? & ? & -> & _ & [_ [= <-]]). exists s. split; [by left|done].
    - destruct (configMapName name); [|done]. apply runs_req in Hr as ([] & ? & -> & Hr); [|by destruct Hr..].
      by apply run_bind in Hr as (_ & ? & ? & -> & _ & [_ [=]]). }
  destruct p as [[]|]; try (destruct (IH _ _ _ _ _ Hrest) as (? & ? & Hall); split_and!; [lia|lia|intros; lia]).
  destruct (IH _ _ _ _ _ Hrest) as (? & ? & Hall). split_and!; [lia|lia|]. intros Heq n [->|Hin]%elem_of_cons.
  - destruct (Hn _ eq_refl) as (s & ? & ?). exists s. split; [apply elem_of_app; by left|done].
  - destruct (Hall ltac:(lia) n Hin) as (s & ? & ?). exists s. split; [apply elem_of_app; by right|done].
Qed.

End touches.

(** ** Theorems *)

(** The shards a cluster starts with: for every count the CRD admits, that many data shards
    and one system shard, all serving, with distinct names; the ranges stored in the data
    shards read back as a valid partition, so every keyspace id has exactly one of them. *)
Theorem initial_shards_partition `{Quantity} cluster rendered :
  1 <= cl_initial_count cluster <= 128 -> exists data system ranges,
    desiredShards cluster rendered = Some (Ok (data ++ [system])) /\
    length data = Z.to_nat (cl_initial_count cluster) /\ NoDup (data ++ [system]).*1 /\
    Forall (fun s => ss_serving s.2 = true /\ ss_role s.2 = ShardRoleData) data /\
    ss_serving system.2 = true /\ ss_role system.2 = ShardRoleSystem /\
    mapM (fun s => toRange (ss_range s.2)) data = Ok (to_go <$> ranges) /\ ValidatePartition (to_go <$> ranges) = Ok tt /\
    forall id, is_u64 id -> owners ranges id = 1%nat.
Proof.
  intros Hn. destruct (desiredShards_Ok cluster rendered) as (rs & Hd & Hlen & Hwf & Hc); [unfold u32_MAX; lia|].
  exists (data_shard cluster rendered <$> rs), (system_shard cluster rendered), rs. rewrite length_fmap.
  pose proof (proj2 (validate_partition_chain rs) Hc) as Hv. split_and!; [done|done|by apply initial_names| |done|done| | |].
  - apply Forall_fmap, Forall_forall. done.
  - apply mapM_Ok, Forall2_fmap, Forall_Forall2_diag. eapply Forall_impl; [exact Hwf|]. apply toRange_bounds.
  - pose proof (partition_agrees rs) as Hp. rewrite Hv in Hp. by destruct (ValidatePartition _) as [[]|].
  - intros id Hid. rewrite (chain_owners 0 rs None id) by done. destruct (KeyRange.contains _ id) eqn:E; [done|].
    apply not_true_iff_false in E. destruct E. apply contains_spec. change (0 <= id < two64). unfold is_u64, u64_MAX, two64 in *. lia.
Qed.

(** Whatever the API server answers, a reconcile of a cluster that is not paused creates and
    changes only objects of this cluster: it creates a node or a shard only after reading that
    there is none, the shards it creates are its initial ones, it changes an object only as
    read with this cluster as controller, it leaves the range, the role and the serving flag
    of an existing shard alone, it writes a configuration map only for an object it owns, it
    places shards on another cluster's node only if that cluster controls it; and it reports
    Ready only if every initial shard was read as ready. *)
Theorem cluster_touches_own `{Quantity} `{GoUnicode} `{Sha256} cluster rendered desired tr e :
  cl_pause cluster = false -> Render (clusterRenderInputs cluster) = Ok rendered -> desiredShards cluster rendered = Some (Ok desired) ->
  asks (ClusterReconcile cluster) tr e -> own_only cluster desired.*1 tr e.
Proof.
  intros Hpause Hr Hd. unfold ClusterReconcile. rewrite Hpause, Hr, Hd.
  assert (Hserve : Forall (fun d => ss_serving d.2 = true) desired).
  { apply Forall_forall. intros d Hin. unfold desiredShards in Hd.
    destruct (SplitEvenly _ _) as [[rs|]|]; [|done..]. injection Hd as <-. apply elem_of_app in Hin as [Hin|Hin].
    - by apply list_elem_of_fmap in Hin as (kr & -> & _).
    - by apply list_elem_of_singleton in Hin as ->. }
  intros Ha. refine ((_ : allowed (own_only cluster desired.*1) [] _) tr e Ha). clear Ha.
  step_allowed; [apply placeShards_allowed|]. destruct a as [ds|]; [|step_allowed].
  destruct (placeShards_runs cluster rendered desired _ _ H2) as (Hl & Hn & Hs). rewrite <- Hn. unfold clusterStatus.
  step_allowed.
  - apply ensureShards_allowed; [|done]. apply Forall_forall. intros d Hd'. split; [by apply list_elem_of_fmap_2|].
    assert (Hin : ss_serving d.2 ∈ (fun d => ss_serving d.2) <$> ds) by (apply (list_elem_of_fmap_2 (fun d => ss_serving d.2)); done).
    rewrite Hs in Hin. apply list_elem_of_fmap in Hin as (d0 & -> & Hd0). rewrite Forall_forall in Hserve. by apply Hserve.
  - destruct a as [[ready degraded]|]; [|step_allowed]. cbv zeta. destruct (_ && _); [step_allowed|].
    step_allowed; [|step_allowed]. cbn [own_only projT2]. intros Hp name Hin.
    destruct (ensureShards_counts cluster rendered ds _ _ _ _ _ H3) as (Hle & Hdeg & Hall).
    destruct (Hall) with (name := name) as (x & Hx & Hphase); [|done|].
    + unfold clusterPhase in Hp. destruct (_ || _); [done|]. destruct (ready =? Z.of_nat (length ds)) eqn:E; [lia|done].
    + exists x. split; [|done]. apply elem_of_app. by right.
Qed.

(** Two shards have the same name only if they are of the same cluster and range, and no
    name of a range, in any cluster, is that of a system shard or of a shared node. *)
Theorem names_never_clash c s e c' s' e' : hex_bound s -> hex_bound e -> hex_bound s' -> hex_bound e' ->
  (shardName c s e = shardName c' s' e' -> c = c' /\ s = s' /\ e = e') /\
  shardName c s e <> systemName c' /\ shardName c s e <> sharedNodeName c'.
Proof.
  intros Hs He Hs' He'. split; [by apply shardName_inj|]. split.
  - apply (reserved_name "system" _ _ _ "y"%char); [done|..|done]; by apply (bool_decide_unpack _).
  - apply (reserved_name "shared" _ _ _ "s"%char); [done|..|done]; by apply (bool_decide_unpack _).
Qed.

(** ** Witnesses *)

Module PlacementExample.
Import ConfigExample.
#[local] Existing Instances milli no_unicode identity_hash.

Definition demo : Cluster :=
  mkCluster "shop" "u1" "pg:18" [] "xxhash64_v1" None 2 None None false ClusterProvisioning (mkCounts 0 0 0).
Definition config : Rendered :=
  match Render (clusterRenderInputs demo) with Ok r => r | Err _ => mkRendered (mkResources ∅ ∅) 0 (mkSync EmptyString 0) ∅ EmptyString end.
Definition shards : list (string * ShardSpec) := match desiredShards demo config with Some (Ok l) => l | _ => [] end.

Lemma names : shards.*1 = ["shop-min-80"; "shop-80-max"; "shop-system"]%string.
Proof. vm_cast_no_check (@eq_refl (list string) ["shop-min-80"; "shop-80-max"; "shop-system"]%string). Qed.

Lemma initial_shards_partition_witness : exists data system,
  desiredShards demo config = Some (Ok (data ++ [system])) /\ length data = 2%nat /\ NoDup (data ++ [system]).*1.
Proof.
  destruct (initial_shards_partition demo config) as (data & system & ranges & H1 & H2 & H3 & _); [cbn; lia|].
  exists data, system. done.
Defined.

Lemma names_never_clash_witness :
  shardName "shop" EmptyString "80" <> systemName "shop" /\ shardName "shop" EmptyString "80" <> sharedNodeName "shop-min".
Proof.
  assert (Hx : forall x : string, forallb is_lower_hex (bytes x) = true -> hex_bound x).
  { intros x Hx. apply Forall_forall. rewrite forallb_spec in Hx. exact Hx. }
  split; [apply (names_never_clash "shop" EmptyString "80" "shop" EmptyString "80")
         |apply (names_never_clash "shop" EmptyString "80" "shop-min" EmptyString "80")]; apply Hx; reflexivity.
Defined.

(** The first node exists and is the cluster's: its configuration map may be written. *)
Definition node : Node := mkNode "shop-min-80" "n1" "u1" (mkNodeSpec 3 "pg:18" (re_resources config) None (re_config_hash config)) (mkNodeStatus NodeReady "shop-min-80-0").
Definition prefix : list (Event ClusterRequest) := [answered (GetNode "shop-min-80") (Some node)].
Definition write : sigT ClusterRequest :=
  existT _ (EnsureConfigMap "u1" "shop-min-80-postgres-config" (config_data config)).

Lemma config_renders : Render (clusterRenderInputs demo) = Ok config.
Proof. vm_cast_no_check (@eq_refl (result ConfigError Rendered) (Ok config)). Qed.
Lemma config_expands : desiredShards demo config = Some (Ok shards).
Proof. vm_cast_no_check (@eq_refl (option (result RangeError (list (string * ShardSpec)))) (Some (Ok shards))). Qed.
Lemma prefix_asks : asks (ClusterReconcile demo) prefix write.
Proof.
  unfold ClusterReconcile. cbn [cl_pause demo]. rewrite config_renders, config_expands.
  unfold prefix. eapply asks_after; [reflexivity|]. eapply asks_here. reflexivity.
Qed.

Lemma cluster_touches_own_witness : own_only demo shards.*1 prefix write.
Proof. exact (cluster_touches_own demo config shards prefix write eq_refl config_renders config_expands prefix_asks). Defined.

(** After a reshard has replaced the range of an initial shard, the shard is hidden; when it
    is removed, the next reconcile creates it again, serving, beside the shards that have
    its range. *)
Example removed_source_comes_back : exists tr s,
  asks (ensureShards demo (placed ∅ <$> shards) config 0 0) tr (existT _ (CreateShard s)) /\
  sx_name s = "shop-min-80"%string /\ ss_serving (sx_spec s) = true /\ tr = [answered (GetShard "shop-min-80") None].
Proof.
  exists [answered (GetShard "shop-min-80") None]. eexists. split; [eapply asks_after; [reflexivity|]; eapply asks_here; reflexivity|].
  done.
Qed.

End PlacementExample.
