(* ===== verification/Failover.v ===== *)
(** * Failover

    [src/operator/internal/controller/failover.go] and the status aggregation that calls
    it ([aggregateStatus], [deriveNodeStatus], [ordinalOf] of the node controller; the
    shard controller has the same code for shards without a node). One poll of the agents
    gives a view per pod; identities are latched and assessed, an election is decided, its
    target is made durable under a new decision epoch, and only then is its agent told to
    promote. Texts of conditions and fence reasons are not modelled. *)

From S2P Require Import Prelude Rust Go Agent Keyspace ShardFn VSchema Catalog Topo Sql Extract Plan Router OpTopology OpRouting Service.

Open Scope Z_scope.

(** ** Views *)

Record instanceView := mkView {
  iv_pod : string; iv_host : string; iv_ready : bool; iv_is_primary : bool; iv_is_standby : bool;
  iv_received_lsn : Z; iv_wal_receiver : bool; iv_observed : bool; iv_system_id : Z; iv_timeline : Z;
}.

(** The role an agent reports, and the fields of its status the operator reads. *)
Inductive ReportedRole := RoleUnspecified | RolePrimary | RoleStandby.

Record PolledStatus := mkPolledStatus {
  ps_role : ReportedRole; ps_ready : bool; ps_receive_lsn : Z; ps_receiver_active : bool; ps_system_id : Z; ps_timeline : Z;
}.

(** A pod of the node, its address, and what its agent answered. *)
Record PolledPod := mkPolledPod { pp_name : string; pp_ip : string; pp_answer : option PolledStatus }.

Definition role_label (r : ReportedRole) : string :=
  match r with RolePrimary => instanceRolePrimary | RoleStandby => instanceRoleReplica | RoleUnspecified => EmptyString end.

(** The body of the loop over the pods. *)
Definition poll_pod (p : PolledPod) : instanceView * InstanceState :=
  match (if str_is_empty (pp_ip p) then None else pp_answer p) with
  | Some st =>
      (mkView (pp_name p) (pp_ip p) (ps_ready st)
         (match ps_role st with RolePrimary => true | _ => false end)
         (match ps_role st with RoleStandby => true | _ => false end)
         (ps_receive_lsn st) (ps_receiver_active st) true (ps_system_id st) (as_i32 (ps_timeline st)),
       mkInstanceState (pp_name p) (role_label (ps_role st)) (ps_ready st))
  | None =>
      (mkView (pp_name p) (pp_ip p) false false false 0 false false 0 0,
       mkInstanceState (pp_name p) EmptyString false)
  end.

(** ** Identity *)

(** [strconv.ParseUint(s, 10, 64)]. *)
Definition parse_uint (s : string) : option Z :=
  if str_is_empty s then None else digits_checked 10 u64_MAX 0 (bytes s).

(** [None] is an error. *)
Definition parseLatchedID (s : string) : option Z :=
  if str_is_empty s then Some 0
  else
    id ← parse_uint s;
    if id =? 0 then None else Some id.

(** The distinct nonzero ids of the observed views. *)
Definition reported_ids (views : list instanceView) : gset Z :=
  list_to_set (iv_system_id <$> List.filter (fun v => iv_observed v && negb (iv_system_id v =? 0)) views).

(** The turn of [latchIdentity] for one view, on the latch and the timeline. *)
Definition latch_view (current committed : string) (parse_ok disagreement : bool) (st : string * Z * Z) (v : instanceView)
    : string * Z * Z :=
  let '(system_id, expected, tl) := st in
  let trusted := negb (str_is_empty (iv_pod v)) && (bool_decide (iv_pod v = current) || bool_decide (iv_pod v = committed)) in
  if negb (iv_is_primary v) || negb (iv_observed v) || negb trusted || (iv_system_id v =? 0) then st
  else if parse_ok && (expected =? 0) && disagreement then st
  else
    let '(system_id, expected) :=
      if parse_ok && (expected =? 0) then (str_of (fmt_radix false 10 (iv_system_id v)), iv_system_id v)
      else (system_id, expected) in
    if negb (iv_system_id v =? expected) || (iv_timeline v <=? tl) then (system_id, expected, tl)
    else if (tl =? 0) || bool_decide (iv_pod v = committed) then (system_id, expected, iv_timeline v)
    else (system_id, expected, tl).

(** The latch as text, its value, the timeline, and whether the text was unreadable. *)
Definition latchIdentity (views : list instanceView) (current committed latched : string) (timeline : Z)
    : string * Z * Z * bool :=
  let parsed := parseLatchedID latched in
  let parse_ok := bool_decide (is_Some parsed) in
  let disagreement := (1 <? size (reported_ids views))%nat in
  (foldl (latch_view current committed parse_ok disagreement) (latched, default 0 parsed, timeline) views, negb parse_ok).

Record identityInputs := mkIdentityInputs {
  ii_system_id : Z; ii_timeline : Z; ii_committed : string; ii_malformed : bool;
}.

Record identityAssessment := mkAssessment {
  ia_kept : list instanceView; ia_unrecognized : list string;
  ia_suppress : bool; ia_conflict : bool; ia_blocked : bool; ia_unobserved : bool;
}.

(** What the latched lineage makes of one view. *)
Inductive Verdict := VKeep | VForeign | VClaimant | VBlocked.

Definition is_foreign (i : identityInputs) (v : instanceView) : bool :=
  negb (iv_system_id v =? 0) && negb (iv_system_id v =? ii_system_id i).

Definition verdict (i : identityInputs) (v : instanceView) : Verdict :=
  let foreign := is_foreign i v in
  let unknown := iv_observed v && (iv_system_id v =? 0) in
  let ahead := negb (ii_timeline i =? 0) && (iv_timeline v >? ii_timeline i) in
  let vouched := (iv_system_id v =? ii_system_id i) && negb (ii_timeline i =? 0) && (iv_timeline v =? ii_timeline i) in
  if bool_decide (iv_pod v = ii_committed i) && negb (str_is_empty (ii_committed i)) && negb foreign then VKeep
  else if foreign then VForeign
  else if iv_is_primary v && vouched then VKeep
  else if iv_is_primary v then VClaimant
  else if unknown || ahead then VBlocked
  else VKeep.

(** A view without its role. *)
Definition strip_role (v : instanceView) : instanceView :=
  mkView (iv_pod v) (iv_host v) (iv_ready v) false false (iv_received_lsn v) (iv_wal_receiver v) (iv_observed v)
    (iv_system_id v) (iv_timeline v).

Definition assess_view (i : identityInputs) (a : identityAssessment) (v : instanceView) : identityAssessment :=
  match verdict i v with
  | VKeep => mkAssessment (ia_kept a ++ [v]) (ia_unrecognized a) (ia_suppress a) (ia_conflict a) (ia_blocked a) (ia_unobserved a)
  | VForeign => mkAssessment (ia_kept a) (ia_unrecognized a ++ [iv_pod v]) (ia_suppress a) (ia_conflict a) (ia_blocked a) (ia_unobserved a)
  | VClaimant =>
      mkAssessment (ia_kept a ++ [v]) (ia_unrecognized a ++ [iv_pod v]) true (ia_conflict a) (ia_blocked a) (ia_unobserved a)
  | VBlocked =>
      mkAssessment (ia_kept a ++ [strip_role v]) (ia_unrecognized a ++ [iv_pod v]) (ia_suppress a) (ia_conflict a) true (ia_unobserved a)
  end.

Definition assessIdentity (views : list instanceView) (i : identityInputs) : identityAssessment :=
  let unobserved := existsb (fun v => negb (iv_observed v) && negb (str_is_empty (iv_host v))) views in
  if ii_malformed i then mkAssessment views (iv_pod <$> views) true false false unobserved
  else if ii_system_id i =? 0 then
    let conflict := (1 <? size (reported_ids views))%nat in
    mkAssessment views (if conflict then iv_pod <$> views else []) conflict conflict false unobserved
  else foldl (assess_view i) (mkAssessment [] [] false false false unobserved) views.

Definition rogue (a : identityAssessment) (pod : string) : bool := bool_decide (pod ∈ ia_unrecognized a).

(** ** The election *)

Record instanceSummary := mkSummary {
  su_ready_primary : bool; su_claims : bool; su_unobserved : bool; su_unconfirmed : bool; su_receiver : bool;
  su_drivable : bool; su_committed_lsn : Z; su_max_lsn : Z; su_candidates : list instanceView;
}.

Definition summarize_view (committed : string) (s : instanceSummary) (v : instanceView) : instanceSummary :=
  let drives := negb (str_is_empty committed) && bool_decide (iv_pod v = committed) && iv_observed v && negb (iv_is_primary v) in
  mkSummary
    (su_ready_primary s || (iv_is_primary v && iv_ready v))
    (su_claims s || iv_is_primary v)
    (su_unobserved s || (negb (iv_observed v) && negb (str_is_empty (iv_host v))))
    (su_unconfirmed s || (iv_observed v && negb (iv_is_primary v) && negb (iv_is_standby v) && negb (bool_decide (iv_pod v = committed))))
    (su_receiver s || iv_wal_receiver v)
    (su_drivable s || drives)
    (if drives then iv_received_lsn v else su_committed_lsn s)
    (if iv_observed v && (iv_received_lsn v >? su_max_lsn s) then iv_received_lsn v else su_max_lsn s)
    (if iv_ready v && iv_is_standby v then su_candidates s ++ [v] else su_candidates s).

Definition summarizeInstances (instances : list instanceView) (committed : string) : instanceSummary :=
  foldl (summarize_view committed) (mkSummary false false false false false false 0 0 []) instances.

(** Not warranted; warranted but to wait; or a target. *)
Inductive failoverDecision := NotWarranted | Wait | Elect (target : string).

(** Higher positions first, then by name. *)
Definition cmp_candidates (a b : instanceView) : comparison :=
  if negb (iv_received_lsn a =? iv_received_lsn b) then Z.compare (iv_received_lsn b) (iv_received_lsn a)
  else String.compare (iv_pod a) (iv_pod b).

Definition evaluateFailover (instances : list instanceView) (committed : string) : failoverDecision :=
  let s := summarizeInstances instances committed in
  if su_ready_primary s then NotWarranted
  else if match su_candidates s with [] => true | _ => false end && negb (su_drivable s) && str_is_empty committed then NotWarranted
  else if su_claims s || su_unobserved s || su_unconfirmed s || su_receiver s then Wait
  else if negb (str_is_empty committed) then
    if negb (su_drivable s) then Wait
    else if su_committed_lsn s <? su_max_lsn s then Wait
    else Elect committed
  else
    match sort_by (le_of cmp_candidates) (su_candidates s) with
    | [] => Wait
    | best :: _ => if iv_received_lsn best <? su_max_lsn s then Wait else Elect (iv_pod best)
    end.

(** ** The handshake *)

Inductive Phase := PhaseProvisioning | PhaseReady | PhaseDegraded | PhaseFailingOver.

(** The status fields of a node (or shard) that the handshake reads and writes. *)
Record FailoverStatus := mkStatus {
  fs_phase : Phase; fs_current : string; fs_target : string; fs_epoch : Z;
  fs_timeline : Z; fs_system_id : string; fs_instances : list InstanceState;
}.

(** The [Promote] sent: to the agent at an address, for a target at an epoch. *)
Record PromoteCall := mkPromote { pr_host : string; pr_target : string; pr_epoch : Z }.

Definition hostByPod (views : list instanceView) (pod : string) : string :=
  match find_first (fun v => bool_decide (iv_pod v = pod)) views with Some v => iv_host v | None => EmptyString end.

Definition set_target (s : FailoverStatus) (phase : Phase) (target : string) (epoch : Z) : FailoverStatus :=
  mkStatus phase (fs_current s) target epoch (fs_timeline s) (fs_system_id s) (fs_instances s).

Definition reconcileFailover (s : FailoverStatus) (views : list instanceView) : FailoverStatus * option PromoteCall :=
  match evaluateFailover views (fs_target s) with
  | NotWarranted =>
      (if negb (str_is_empty (fs_current s)) && negb (str_is_empty (fs_target s))
       then set_target s (fs_phase s) EmptyString (fs_epoch s) else s, None)
  | Wait => (s, None)
  | Elect target =>
      if negb (bool_decide (fs_target s = target)) then (set_target s PhaseFailingOver target (fs_epoch s + 1), None)
      else
        let s' := set_target s PhaseFailingOver (fs_target s) (fs_epoch s) in
        let host := hostByPod views target in
        (s', if str_is_empty host then None else Some (mkPromote host target (fs_epoch s)))
  end.

(** ** The aggregation *)

(** [strconv.ParseInt(s, 10, 32)]: an optional sign and digits. *)
Definition ordinalOf (pod prefix : string) : option Z :=
  suffix ← strip_prefix_bytes (bytes prefix) (bytes pod);
  n ← from_str_radix_signed 10 i32_MIN i32_MAX suffix;
  if (n <? 0) || negb (bool_decide (fmt_i n = suffix)) then None else Some n.

Definition confirmed_ready (s : InstanceState) : bool :=
  is_ready s && (bool_decide (is_role s = instanceRolePrimary) || bool_decide (is_role s = instanceRoleReplica)).

Definition deriveStatus (instances : list InstanceState) (replicas : Z) (had_primary : bool) (prefix : string) : string * Phase :=
  let ready := List.filter confirmed_ready instances in
  let primaries := List.filter (fun s => bool_decide (is_role s = instanceRolePrimary)) instances in
  let current := match last primaries with Some s => is_pod s | None => EmptyString end in
  let desired : gset Z := list_to_set (List.filter (fun n => n <? replicas) (omap (fun s => ordinalOf (is_pod s) prefix) ready)) in
  if (1 <? length primaries)%nat then (EmptyString, PhaseDegraded)
  else if (Z.of_nat (size desired) =? replicas) && negb (str_is_empty current) then (current, PhaseReady)
  else if match ready with [] => true | _ => false end && negb had_primary then (current, PhaseProvisioning)
  else (current, PhaseDegraded).

(** The instance states with the roles of unrecognized pods removed. *)
Definition believed (a : identityAssessment) (instances : list InstanceState) : list InstanceState :=
  (fun s => if rogue a (is_pod s) then mkInstanceState (is_pod s) EmptyString (is_ready s) else s) <$> instances.

(** [aggregateStatus] up to its status write: the new status, the call it sends, and
    the pods whose roles it refuses. *)
Definition aggregateStatus (name : string) (replicas : Z) (before : FailoverStatus) (pods : list PolledPod)
    : FailoverStatus * option PromoteCall * list string :=
  let views := fst ∘ poll_pod <$> pods in
  let '(system_id, expected, tl, parse_err) :=
    latchIdentity views (fs_current before) (fs_target before) (fs_system_id before) (fs_timeline before) in
  let a := assessIdentity views (mkIdentityInputs expected tl (fs_target before) parse_err) in
  let instances := believed a (snd ∘ poll_pod <$> pods) in
  let '(current, phase) := deriveStatus instances replicas (negb (str_is_empty (fs_current before))) (name +:+ "-") in
  let current := if ia_suppress a then EmptyString else current in
  let phase := if ia_suppress a || ia_blocked a then PhaseDegraded else phase in
  let s := mkStatus phase current (fs_target before) (fs_epoch before) tl system_id instances in
  let '(s', call) := if negb parse_err && negb (ia_conflict a) then reconcileFailover s (ia_kept a) else (s, None) in
  (s', call, ia_unrecognized a).

(** ** Lemmas: the summary *)

Definition drives (committed : string) (v : instanceView) : bool :=
  negb (str_is_empty committed) && bool_decide (iv_pod v = committed) && iv_observed v && negb (iv_is_primary v).

Definition unconfirmed (committed : string) (v : instanceView) : bool :=
  iv_observed v && negb (iv_is_primary v) && negb (iv_is_standby v) && negb (bool_decide (iv_pod v = committed)).

Definition unseen (v : instanceView) : bool := negb (iv_observed v) && negb (str_is_empty (iv_host v)).

Lemma summarize_foldl c l : forall s, let s' := foldl (summarize_view c) s l in
  su_ready_primary s' = su_ready_primary s || existsb (fun v => iv_is_primary v && iv_ready v) l /\
  su_claims s' = su_claims s || existsb iv_is_primary l /\
  su_unobserved s' = su_unobserved s || existsb unseen l /\
  su_unconfirmed s' = su_unconfirmed s || existsb (unconfirmed c) l /\
  su_receiver s' = su_receiver s || existsb iv_wal_receiver l /\
  su_drivable s' = su_drivable s || existsb (drives c) l /\
  su_candidates s' = su_candidates s ++ List.filter (fun v => iv_ready v && iv_is_standby v) l /\
  su_max_lsn s <= su_max_lsn s' /\
  (forall v, v ∈ l -> iv_observed v = true -> iv_received_lsn v <= su_max_lsn s') /\
  (su_max_lsn s' = su_max_lsn s \/ exists v, v ∈ l /\ iv_observed v = true /\ iv_received_lsn v = su_max_lsn s') /\
  (existsb (drives c) l = true -> exists v, v ∈ l /\ drives c v = true /\ su_committed_lsn s' = iv_received_lsn v).
Proof.
  induction l as [|v l IH]; intros s; cbn [foldl existsb List.filter].
  { rewrite !orb_false_r, app_nil_r. split_and!; try done; [by intros ? ?%elem_of_nil|by left]. }
  specialize (IH (summarize_view c s v)). cbn in IH. cbv zeta.
  destruct IH as (-> & -> & -> & -> & -> & -> & -> & Hm & Hv & Hmax & Hd).
  split_and!; try by rewrite ?orb_assoc.
  - destruct (iv_ready v && iv_is_standby v); [by rewrite <- app_assoc|done].
  - cbn in Hm. destruct (_ && _) eqn:E; lia.
  - intros u [->|Hu]%elem_of_cons Ho; [|by apply Hv]. rewrite Ho in Hm. cbn in Hm. destruct (_ >? _) eqn:E; lia.
  - destruct Hmax as [Hmax|(u & Hu & Ho & Hl)]; [|right; exists u; set_solver].
    destruct (iv_observed v && (iv_received_lsn v >? su_max_lsn s)) eqn:E; [|by left].
    right. exists v. split_and!; [set_solver|by destruct (iv_observed v)|done].
  - intros Hex. destruct (existsb (drives c) l) eqn:El.
    + destruct (Hd eq_refl) as (u & Hu & ? & ?). exists u. split_and!; [set_solver|done|done].
    + rewrite orb_false_r in Hex. exists v. split_and!; [set_solver|done|].
      clear -Hex El. assert (forall k s, existsb (drives c) k = false -> su_committed_lsn (foldl (summarize_view c) s k) = su_committed_lsn s) as Hk.
      { induction k as [|u k IH]; intros s' Hk; [done|]. cbn [existsb] in Hk. apply orb_false_iff in Hk as [Hu Hk]. cbn [foldl].
        rewrite IH by done. unfold summarize_view. fold (drives c u). cbn. by rewrite Hu. }
      rewrite Hk by done. unfold summarize_view. fold (drives c v). cbn. by rewrite Hex.
Qed.

Lemma existsb_false {A} (p : A -> bool) l : existsb p l = false <-> forall x, x ∈ l -> p x = false.
Proof.
  rewrite <- not_true_iff_false, existsb_spec. split.
  - intros Hn x Hx. destruct (p x) eqn:E; [|done]. exfalso. eauto.
  - intros Hf (x & Hx & Hp). by rewrite (Hf x Hx) in Hp.
Qed.

(** Whatever the sort, its head is one of the candidates. *)
Lemma sorted_head_elem {A} (le : A -> A -> bool) l x k : sort_by le l = x :: k -> x ∈ l.
Proof. intros Hs. rewrite <- (sort_by_perm le l), Hs. set_solver. Qed.

(** An elected target: what the snapshot must have looked like. *)
Record electable (views : list instanceView) (committed p : string) (v : instanceView) : Prop := {
  el_in : v ∈ views;
  el_pod : iv_pod v = p;
  el_no_claim u : u ∈ views -> iv_is_primary u = false;
  el_seen u : u ∈ views -> iv_observed u = true \/ iv_host u = EmptyString;
  el_confirmed u : u ∈ views -> iv_observed u = true -> iv_is_standby u = true \/ (committed <> EmptyString /\ iv_pod u = committed);
  el_quiet u : u ∈ views -> iv_wal_receiver u = false;
  el_ahead u : u ∈ views -> iv_observed u = true -> iv_received_lsn u <= iv_received_lsn v;
  el_who : if str_is_empty committed then iv_ready v = true /\ iv_is_standby v = true else p = committed /\ iv_observed v = true;
}.

Lemma evaluate_elect views committed p : (forall v, v ∈ views -> iv_pod v <> EmptyString) ->
  evaluateFailover views committed = Elect p -> exists v, electable views committed p v.
Proof.
  intros Hpods. unfold evaluateFailover, summarizeInstances.
  destruct (summarize_foldl committed views (mkSummary false false false false false false 0 0 []))
    as (-> & -> & -> & -> & -> & -> & -> & _ & Hle & _ & Hd). cbn [su_ready_primary su_claims su_unobserved su_unconfirmed su_receiver
    su_drivable su_candidates su_max_lsn orb app] in *.
  destruct (existsb (fun v => iv_is_primary v && iv_ready v) views); [done|]. destruct (_ && _ && _) eqn:Enone; [done|].
  destruct (existsb iv_is_primary views) eqn:Ec; [done|]. destruct (existsb unseen views) eqn:Eu; [done|].
  destruct (existsb (unconfirmed committed) views) eqn:Er; [done|]. destruct (existsb iv_wal_receiver views) eqn:Ew; [done|]. cbn [orb].
  rewrite existsb_false in Ec, Eu, Er, Ew. set (smax := su_max_lsn _) in *.
  assert (Hseen : forall u, u ∈ views -> iv_observed u = true \/ iv_host u = EmptyString).
  { intros u Hu. specialize (Eu u Hu). unfold unseen in Eu. destruct (iv_observed u); [by left|right]. apply str_is_empty_spec.
    by destruct (str_is_empty (iv_host u)). }
  assert (Hconf : forall u, u ∈ views -> iv_observed u = true -> iv_is_standby u = true \/ (committed <> EmptyString /\ iv_pod u = committed)).
  { intros u Hu Ho. specialize (Er u Hu). unfold unconfirmed in Er. rewrite Ho, (Ec u Hu) in Er. cbn in Er.
    destruct (iv_is_standby u); [by left|right]. case_bool_decide as Hp; [|done]. split; [|done]. rewrite <- Hp. by apply Hpods. }
  destruct (str_is_empty committed) eqn:Ecm; cbn [negb].
  - destruct (sort_by _ _) as [|best rest] eqn:Es; [done|]. destruct (_ <? smax) eqn:El; [done|]. intros [= <-].
    apply sorted_head_elem, elem_of_filter_b in Es as [Hb Hrs]. apply andb_true_iff in Hrs as [Hr Hs].
    exists best. split; try done; [|by rewrite Ecm]. intros u Hu Ho. specialize (Hle u Hu Ho). lia.
  - destruct (existsb (drives committed) views) eqn:Ed; cbn [negb]; [|done].
    destruct (Hd eq_refl) as (v & Hv & Hdv & Hlsn). rewrite Hlsn. destruct (_ <? smax) eqn:El; [done|]. intros [= <-].
    unfold drives in Hdv. rewrite !andb_true_iff in Hdv. destruct Hdv as [[[_ Hp%bool_decide_eq_true] Ho] _].
    exists v. split; try done; [|by rewrite Ecm]. intros u Hu Ho'. specialize (Hle u Hu Ho'). lia.
Qed.

(** ** Lemmas: the identity *)

Definition kept_view (i : identityInputs) (v : instanceView) : option instanceView :=
  match verdict i v with VForeign => None | VBlocked => Some (strip_role v) | _ => Some v end.

Definition is_verdict (w : Verdict) (i : identityInputs) (v : instanceView) : bool :=
  match w, verdict i v with
  | VKeep, VKeep | VForeign, VForeign | VClaimant, VClaimant | VBlocked, VBlocked => true
  | _, _ => false
  end.

Lemma assess_foldl i l : forall a, let a' := foldl (assess_view i) a l in
  ia_kept a' = ia_kept a ++ omap (kept_view i) l /\
  ia_unrecognized a' = ia_unrecognized a ++ (iv_pod <$> List.filter (fun v => negb (is_verdict VKeep i v)) l) /\
  ia_suppress a' = ia_suppress a || existsb (is_verdict VClaimant i) l /\
  ia_conflict a' = ia_conflict a.
Proof.
  induction l as [|v l IH]; intros a; cbn [foldl existsb List.filter omap list_omap].
  { by rewrite !app_nil_r, orb_false_r. }
  cbv zeta. destruct (IH (assess_view i a v)) as (-> & -> & -> & ->). clear IH.
  unfold assess_view, kept_view, is_verdict. destruct (verdict i v); cbn; rewrite <- ?app_assoc, ?orb_true_r, ?orb_false_r; done.
Qed.

(** A foreign or a blocking view is the only one the election does not see as it is. *)
Lemma kept_view_claims i v : iv_is_primary v = true -> is_foreign i v = false -> kept_view i v = Some v.
Proof. intros Hp Hf. unfold kept_view, verdict. rewrite Hf, Hp. by repeat case_match. Qed.

Lemma kept_view_pod i v u : kept_view i v = Some u ->
  iv_pod u = iv_pod v /\ iv_host u = iv_host v /\ iv_observed u = iv_observed v /\
  iv_received_lsn u = iv_received_lsn v /\ iv_wal_receiver u = iv_wal_receiver v.
Proof. unfold kept_view. by destruct (verdict i v); intros [= <-]. Qed.

(** One turn either leaves the latch or is the turn of a claimant of the latched lineage. *)
Lemma latch_view_spec current committed parse_ok disagreement sid exp tl v :
  let st := latch_view current committed parse_ok disagreement (sid, exp, tl) v in
  st = (sid, exp, tl) \/
  exists sid1 tl1, st = (sid1, iv_system_id v, tl1) /\
    iv_is_primary v = true /\ iv_observed v = true /\ iv_system_id v <> 0 /\ tl <= tl1 /\
    (exp <> 0 -> iv_system_id v = exp /\ sid1 = sid) /\ (tl1 <> tl -> tl = 0 \/ iv_pod v = committed) /\
    (exp = 0 -> disagreement = false).
Proof.
  cbv zeta. unfold latch_view. destruct (iv_is_primary v), (iv_observed v); cbn [negb orb]; try by left.
  destruct (negb (negb (str_is_empty (iv_pod v)) && _)); cbn [orb]; [by left|].
  destruct (iv_system_id v =? 0) eqn:E0; [by left|].
  assert (Htl : exists tl1, tl <= tl1 /\ (tl1 <> tl -> tl = 0 \/ iv_pod v = committed) /\ forall A B (a : A) (b : B),
    (if iv_timeline v <=? tl then (a, b, tl)
     else if (tl =? 0) || bool_decide (iv_pod v = committed) then (a, b, iv_timeline v) else (a, b, tl)) = (a, b, tl1)).
  { destruct (iv_timeline v <=? tl) eqn:Hle; [exists tl; split_and!; done|].
    destruct (tl =? 0) eqn:Hz; cbn [orb]; [exists (iv_timeline v); split_and!; [lia|left; lia|done]|].
    case_bool_decide; [exists (iv_timeline v); split_and!; [lia|by right|done]|exists tl; done]. }
  destruct Htl as (tl1 & Hle & Hmove & Heq). destruct (parse_ok && (exp =? 0)) eqn:Ep; cbn [andb].
  - destruct disagreement; [by left|]. right. rewrite Z.eqb_refl. cbn [negb orb]. rewrite Heq.
    eexists _, tl1. split_and!; [done|done|done|lia|done|lia|done|done].
  - destruct (iv_system_id v =? exp) eqn:Ei; cbn [negb orb]; [|by left]. apply Z.eqb_eq in Ei. right. rewrite Heq, Ei.
    exists sid, tl1. split_and!; [done|done|done|lia|done|done|done|lia].
Qed.

(** The latch moves only by a claimant of the lineage it ends up with. *)
Lemma latch_fold current committed parse_ok disagreement l : forall sid exp tl sid' exp' tl',
  foldl (latch_view current committed parse_ok disagreement) (sid, exp, tl) l = (sid', exp', tl') ->
  ((sid', exp', tl') = (sid, exp, tl) \/
   exists v, v ∈ l /\ iv_is_primary v = true /\ iv_observed v = true /\ iv_system_id v = exp' /\ exp' <> 0) /\
  tl <= tl' /\ (exp <> 0 -> exp' = exp /\ sid' = sid) /\
  (tl' <> tl -> tl = 0 \/ exists v, v ∈ l /\ iv_pod v = committed /\ iv_is_primary v = true /\ iv_system_id v = exp') /\
  (exp = 0 -> exp' <> 0 -> disagreement = false).
Proof.
  induction l as [|v l IH]; intros sid exp tl sid' exp' tl' Hf; cbn [foldl] in Hf.
  { simplify_eq. split_and!; [by left|done|done|done|lia]. }
  destruct (latch_view_spec current committed parse_ok disagreement sid exp tl v)
    as [Hs|(sid1 & tl1 & Hs & Hp & Ho & Hn & Hle & Hk & Ht & Hd0)]; rewrite Hs in Hf;
    destruct (IH _ _ _ _ _ _ Hf) as (Hl & Hle' & Hk' & Ht' & Hd').
  - split_and!; [|done|done| |done].
    + destruct Hl as [|(u & ? & ?)]; [by left|right; exists u; split; [by apply elem_of_cons; right|done]].
    + intros Hne. destruct (Ht' Hne) as [|(u & ? & ?)]; [by left|right; exists u; split; [by apply elem_of_cons; right|done]].
  - destruct (Hk' Hn) as [-> ->]. split_and!; [|lia|done| |by auto].
    + right. exists v. split_and!; [by apply elem_of_cons; left|done..].
    + intros Hne. destruct (decide (tl1 = tl)) as [->|Hd].
      * destruct (Ht' Hne) as [|(u & ? & ?)]; [by left|right; exists u; split; [by apply elem_of_cons; right|done]].
      * destruct (Ht Hd) as [|Hc]; [by left|]. right. exists v. split_and!; [by apply elem_of_cons; left|done..].
Qed.

(** ** Lemmas: what the aggregation sends *)

(** What a pod answered, if it has an address and its agent was reached. *)
Definition answer (p : PolledPod) : option PolledStatus := if str_is_empty (pp_ip p) then None else pp_answer p.

(** Pod names are unique in a namespace and never empty. *)
Definition distinct_pods (pods : list PolledPod) : Prop :=
  NoDup (pp_name <$> pods) /\ forall p, p ∈ pods -> pp_name p <> EmptyString.

Definition view_of (p : PolledPod) : instanceView := fst (poll_pod p).

Lemma view_pod p : iv_pod (view_of p) = pp_name p /\ iv_host (view_of p) = pp_ip p.
Proof. unfold view_of, poll_pod. by case_match. Qed.

Lemma view_unanswered p : answer p = None -> view_of p = mkView (pp_name p) (pp_ip p) false false false 0 false false 0 0.
Proof. unfold view_of, poll_pod, answer. by intros ->. Qed.

Lemma view_answered p st : answer p = Some st ->
  let v := view_of p in
  iv_ready v = ps_ready st /\ (iv_is_primary v = true <-> ps_role st = RolePrimary) /\ (iv_is_standby v = true <-> ps_role st = RoleStandby) /\
  iv_received_lsn v = ps_receive_lsn st /\ iv_wal_receiver v = ps_receiver_active st /\ iv_observed v = true /\
  iv_system_id v = ps_system_id st /\ iv_timeline v = as_i32 (ps_timeline st).
Proof. unfold view_of, poll_pod, answer. intros ->. cbn. destruct (ps_role st); split_and!; done. Qed.

Lemma view_observed p : iv_observed (view_of p) = true -> exists st, answer p = Some st.
Proof. destruct (answer p) as [st|] eqn:E; [by eauto|]. by rewrite (view_unanswered p E). Qed.

(** The parts of one aggregation. *)
Lemma aggregate_parts name replicas before pods s' call fenced :
  aggregateStatus name replicas before pods = (s', call, fenced) ->
  exists sid exp tl err,
    latchIdentity (view_of <$> pods) (fs_current before) (fs_target before) (fs_system_id before) (fs_timeline before) = (sid, exp, tl, err) /\
    let a := assessIdentity (view_of <$> pods) (mkIdentityInputs exp tl (fs_target before) err) in
    let '(current, phase) := deriveStatus (believed a (snd ∘ poll_pod <$> pods)) replicas (negb (str_is_empty (fs_current before))) (name +:+ "-") in
    let s := mkStatus (if ia_suppress a || ia_blocked a then PhaseDegraded else phase) (if ia_suppress a then EmptyString else current)
               (fs_target before) (fs_epoch before) tl sid (believed a (snd ∘ poll_pod <$> pods)) in
    (s', call) = (if negb err && negb (ia_conflict a) then reconcileFailover s (ia_kept a) else (s, None)).
Proof.
  unfold aggregateStatus, view_of. change (fst ∘ poll_pod) with (fun p => fst (poll_pod p)).
  destruct (latchIdentity _ _ _ _ _) as [[[sid exp] tl] err]. intros Ha. exists sid, exp, tl, err. split; [done|]. cbv zeta. revert Ha.
  destruct (deriveStatus _ _ _ _) as [current phase]. destruct (negb err && _); [destruct (reconcileFailover _ _)|]; by intros [= -> -> _].
Qed.

Lemma reconcile_promotes s views s' call : reconcileFailover s views = (s', Some call) ->
  evaluateFailover views (fs_target s) = Elect (fs_target s) /\ pr_target call = fs_target s /\ pr_epoch call = fs_epoch s /\
  pr_host call = hostByPod views (fs_target s) /\ pr_host call <> EmptyString.
Proof.
  unfold reconcileFailover. destruct (evaluateFailover _ _) as [| |t]; [by case_match|done|].
  case_bool_decide as Ht; cbn [negb]; [|done]. subst t. destruct (str_is_empty _) eqn:Eh; [done|]. intros [= _ <-].
  split_and!; try done. cbn. intros Hh. by rewrite Hh in Eh.
Qed.

(** The lineage a poll is judged by: the latched identifier, 0 while none is latched. *)
Definition foreign_to (id : Z) (st : PolledStatus) : Prop := id <> 0 /\ ps_system_id st <> 0 /\ ps_system_id st <> id.

(** What must hold of a poll for the promotion of [p] (answering [st]) to lose no write
    and to start no second primary. *)
Record safe_target (id timeline : Z) (pods : list PolledPod) (p : PolledPod) (st : PolledStatus) : Prop := {
  sf_in : p ∈ pods;
  sf_answer : answer p = Some st;
  sf_ours : ~ foreign_to id st;
  sf_all q : q ∈ pods -> pp_ip q <> EmptyString -> exists sq, pp_answer q = Some sq /\ (foreign_to id sq \/
    (ps_role sq <> RolePrimary /\ ps_receiver_active sq = false /\ ps_receive_lsn sq <= ps_receive_lsn st /\
     (q <> p -> ps_role sq = RoleStandby /\
        (id <> 0 -> ps_system_id sq = id /\ (timeline <> 0 -> as_i32 (ps_timeline sq) <= timeline)))));
  sf_agree q q' sq sq' : id = 0 -> q ∈ pods -> q' ∈ pods -> answer q = Some sq -> answer q' = Some sq' ->
    ps_system_id sq <> 0 -> ps_system_id sq' <> 0 -> ps_system_id sq = ps_system_id sq';
}.

Lemma reported_agree views v u : (1 <? size (reported_ids views))%nat = false -> v ∈ views -> u ∈ views ->
  iv_observed v = true -> iv_observed u = true -> iv_system_id v <> 0 -> iv_system_id u <> 0 -> iv_system_id v = iv_system_id u.
Proof.
  intros Hsz Hv Hu Ho Ho' Hn Hn'. apply Nat.ltb_ge in Hsz.
  assert (Hin : forall w, w ∈ views -> iv_observed w = true -> iv_system_id w <> 0 -> iv_system_id w ∈ reported_ids views).
  { intros w Hw Hwo Hwn. apply elem_of_list_to_set, list_elem_of_fmap_2, elem_of_filter_b. split; [done|].
    rewrite Hwo. apply negb_true_iff, Z.eqb_neq, Hwn. }
  destruct (decide (iv_system_id v = iv_system_id u)) as [|Hd]; [done|]. exfalso.
  assert (size ({[iv_system_id v; iv_system_id u]} : gset Z) <= size (reported_ids views))%nat as Hs.
  { apply subseteq_size. intros x [->%elem_of_singleton| ->%elem_of_singleton]%elem_of_union; by apply Hin. }
  rewrite size_union, !size_singleton in Hs; [lia|]. set_solver.
Qed.

(** What the election sees of the views, when it runs at all. *)
Definition seen_by_election (i : identityInputs) (v : instanceView) : option instanceView :=
  if ii_system_id i =? 0 then Some v else kept_view i v.

Lemma kept_spec views i : ii_malformed i = false ->
  ia_kept (assessIdentity views i) = omap (seen_by_election i) views.
Proof.
  intros Hm. unfold assessIdentity, seen_by_election. rewrite Hm. destruct (ii_system_id i =? 0); cbn [ia_kept].
  - induction views as [|v views IH]; [done|]. cbn. by f_equal.
  - by destruct (assess_foldl i views (mkAssessment [] [] false false false (existsb (fun v => negb (iv_observed v) && negb (str_is_empty (iv_host v))) views))) as (-> & _).
Qed.

Lemma seen_pod i v u : seen_by_election i v = Some u ->
  iv_pod u = iv_pod v /\ iv_host u = iv_host v /\ iv_observed u = iv_observed v /\
  iv_received_lsn u = iv_received_lsn v /\ iv_wal_receiver u = iv_wal_receiver v.
Proof. unfold seen_by_election. destruct (_ =? 0); [by intros [= <-]|apply kept_view_pod]. Qed.

(** A view of the lineage is seen, and with its claim if it has one. *)
Lemma seen_ours i v : (ii_system_id i = 0 \/ is_foreign i v = false) -> exists u, seen_by_election i v = Some u /\
  (iv_is_primary v = true -> iv_is_primary u = true) /\ (iv_is_standby u = true -> iv_is_standby v = true) /\
  (iv_is_standby u = true -> iv_observed v = true -> iv_is_primary v = false -> ii_system_id i <> 0 -> iv_pod v <> ii_committed i ->
     iv_system_id v = ii_system_id i /\ (ii_timeline i <> 0 -> iv_timeline v <= ii_timeline i)).
Proof.
  intros Hf. unfold seen_by_election. destruct (ii_system_id i =? 0) eqn:E0; [exists v; split_and!; [done..|lia]|].
  destruct Hf as [Hf|Hf]; [lia|]. unfold kept_view, verdict. rewrite Hf. rewrite andb_true_r.
  case_bool_decide as Hc; cbn [andb].
  - destruct (negb (str_is_empty (ii_committed i))) eqn:Ec; [exists v; split_and!; done|].
    destruct (iv_is_primary v) eqn:Ep; cbn [andb]; [destruct (_ && _)|destruct (_ || _)]; eexists; (split_and!; [done|cbn; congruence|done|done]).
  - unfold is_foreign in Hf. destruct (iv_is_primary v) eqn:Ep; cbn [andb].
    + match goal with |- context [if ?b then VKeep else _] => destruct b end; exists v; (split_and!; [done|congruence|done|congruence]).
    + destruct (iv_observed v && (iv_system_id v =? 0) || negb (ii_timeline i =? 0) && (iv_timeline v >? ii_timeline i)) eqn:Eb;
        eexists; (split_and!; [done|congruence|done|]); [done|]. intros _ Ho _ _ _. rewrite Ho in Eb. cbn [andb] in Eb.
      apply orb_false_iff in Eb as [Eb1 Eb2]. split; [lia|]. intros Ht. lia.
Qed.

(** Whoever the election sees without a claim leaves the latch where it was. *)
Lemma latch_kept views current committed latched timeline sid exp tl err :
  latchIdentity views current committed latched timeline = (sid, exp, tl, err) -> err = false ->
  (forall u, u ∈ omap (seen_by_election (mkIdentityInputs exp tl committed err)) views -> iv_is_primary u = false) ->
  parseLatchedID latched = Some exp /\ tl = timeline /\ sid = latched.
Proof.
  intros Hl -> Hno. unfold latchIdentity in Hl. destruct (foldl _ _ _) as [[sid1 exp1] tl1] eqn:Ef.
  injection Hl as -> -> -> Hok. apply negb_false_iff, bool_decide_eq_true in Hok as [id Hid]. rewrite Hid in Ef. cbn in Ef.
  apply latch_fold in Ef as [[Heq|(v & Hv & Hp & Ho & Hi & Hn)] _]; [by simplify_eq|]. exfalso.
  destruct (seen_ours (mkIdentityInputs exp tl committed false) v) as (u & Hu & Hup & _).
  { right. unfold is_foreign. cbn. rewrite Hi. rewrite Z.eqb_refl. apply andb_false_r. }
  specialize (Hno u). rewrite Hup in Hno by done. discriminate Hno. apply list_elem_of_omap. eauto.
Qed.

Lemma foreign_view id tl committed q st : answer q = Some st ->
  is_foreign (mkIdentityInputs id tl committed false) (view_of q) = true <-> ps_system_id st <> 0 /\ ps_system_id st <> id.
Proof.
  intros Hst. destruct (view_answered _ _ Hst) as (_ & _ & _ & _ & _ & _ & Hsid & _). unfold is_foreign. cbn. rewrite Hsid.
  rewrite andb_true_iff, !negb_true_iff, !Z.eqb_neq. done.
Qed.

(** Once a target is electable, every pod with an address has been heard, and is of
    another lineage or harmless. *)
Lemma other_pods_safe id tl committed pods v r :
  electable (omap (seen_by_election (mkIdentityInputs id tl committed false)) (view_of <$> pods)) committed committed v ->
  r ∈ pods -> pp_ip r <> EmptyString ->
  exists sr, pp_answer r = Some sr /\ (foreign_to id sr \/
    (ps_role sr <> RolePrimary /\ ps_receiver_active sr = false /\ ps_receive_lsn sr <= iv_received_lsn v /\
     (pp_name r <> committed -> ps_role sr = RoleStandby /\
        (id <> 0 -> ps_system_id sr = id /\ (tl <> 0 -> as_i32 (ps_timeline sr) <= tl))))).
Proof.
  intros Hel Hr Hip. set (i := mkIdentityInputs id tl committed false) in *.
  assert (Hsame : answer r = pp_answer r).
  { unfold answer. destruct (str_is_empty (pp_ip r)) eqn:E; [by apply str_is_empty_spec in E|done]. }
  assert (Hin : forall u, seen_by_election i (view_of r) = Some u -> u ∈ omap (seen_by_election i) (view_of <$> pods)).
  { intros u Hu. apply list_elem_of_omap. exists (view_of r). split; [by apply list_elem_of_fmap_2|done]. }
  destruct (view_pod r) as [Hrn Hrh]. rewrite <- Hsame. destruct (answer r) as [sr|] eqn:Ha.
  2:{ exfalso. destruct (seen_ours i (view_of r)) as (u & Hu & _).
      { right. unfold is_foreign. by rewrite (view_unanswered r Ha). }
      destruct (el_seen _ _ _ _ Hel u (Hin u Hu)) as [Ho|Hh]; destruct (seen_pod _ _ _ Hu) as (_ & Hh' & Ho' & _).
      - rewrite Ho', (view_unanswered r Ha) in Ho. done.
      - congruence. }
  exists sr. split; [done|]. destruct (decide (id <> 0 /\ ps_system_id sr <> 0 /\ ps_system_id sr <> id)) as [Hf|Hf]; [by left|right].
  destruct (view_answered _ _ Ha) as (_ & Hp & Hsb & Hlsn & Hw & Ho & Hsid & Htl).
  destruct (seen_ours i (view_of r)) as (u & Hu & Hup & Hus & Hid).
  { destruct (decide (id = 0)); [by left|right]. destruct (is_foreign i (view_of r)) eqn:E; [|done].
    apply (foreign_view id tl committed r sr Ha) in E. tauto. }
  specialize (Hin u Hu). destruct (seen_pod _ _ _ Hu) as (Hn & _ & Huo & Hul & Huw).
  pose proof (el_no_claim _ _ _ _ Hel u Hin) as Hnc. assert (Hnp : iv_is_primary (view_of r) = false).
  { destruct (iv_is_primary (view_of r)); [|done]. by rewrite Hup in Hnc. }
  split_and!.
  - intros Hrole%Hp. congruence.
  - pose proof (el_quiet _ _ _ _ Hel u Hin). congruence.
  - pose proof (el_ahead _ _ _ _ Hel u Hin). rewrite Huo, Hul, Hlsn, Ho in *. auto.
  - intros Hne. assert (Hst : iv_is_standby u = true).
    { destruct (el_confirmed _ _ _ _ Hel u Hin) as [|[_ Hc]]; [congruence|done|]. exfalso. congruence. }
    split; [by apply Hsb, Hus|]. intros Hid0. rewrite <- Hsid, <- Htl. apply Hid; try done. cbn. congruence.
Qed.

(** A poll from which a promotion is sent, seen through the election. *)
Lemma elected_safe id tl committed pods p :
  distinct_pods pods -> (id = 0 -> (1 <? size (reported_ids (view_of <$> pods)))%nat = false) -> committed <> EmptyString ->
  evaluateFailover (omap (seen_by_election (mkIdentityInputs id tl committed false)) (view_of <$> pods)) committed = Elect p ->
  exists q st, pp_name q = committed /\ ps_role st <> RolePrimary /\ safe_target id tl pods q st.
Proof.
  intros [Hnd Hne] Hagree Hcm He. set (i := mkIdentityInputs id tl committed false) in *.
  assert (Hback : forall u, u ∈ omap (seen_by_election i) (view_of <$> pods) ->
    exists q, q ∈ pods /\ seen_by_election i (view_of q) = Some u).
  { intros u (v & Hv & Hs)%list_elem_of_omap. apply list_elem_of_fmap in Hv as (q & -> & Hq). eauto. }
  apply evaluate_elect in He as (v & Hel).
  2:{ intros u (q & Hq & Hs)%Hback. destruct (seen_pod _ _ _ Hs) as [-> _]. destruct (view_pod q) as [-> _]. by apply Hne. }
  destruct (Hback v (el_in _ _ _ _ Hel)) as (q & Hq & Hs). destruct (seen_pod _ _ _ Hs) as (Hpod & _ & Hobs & Hlsn & _).
  pose proof (el_who _ _ _ _ Hel) as Hwho. destruct (str_is_empty committed) eqn:Ec; [by apply str_is_empty_spec in Ec|].
  destruct Hwho as [-> Hov]. rewrite Hobs in Hov. destruct (view_observed _ Hov) as [st Hst].
  destruct (view_answered _ _ Hst) as (_ & Hrp & _ & Hsl & _).
  pose proof (el_pod _ _ _ _ Hel) as Hname. rewrite Hpod in Hname. destruct (view_pod q) as [Hqn Hqh]. rewrite Hqn in Hname.
  assert (Hours : ~ foreign_to id st).
  { intros (Hid & Hf). apply (foreign_view id tl committed q st Hst) in Hf. unfold seen_by_election, kept_view, verdict in Hs.
    fold i in Hf. rewrite Hf in Hs. cbn in Hs. rewrite andb_false_r in Hs. by destruct (id =? 0) eqn:E; [lia|]. }
  assert (Hip : pp_ip q <> EmptyString). { intros Hip. unfold answer in Hst. by rewrite Hip in Hst. }
  exists q, st. split; [done|]. split.
  { destruct (other_pods_safe id tl committed pods v q Hel Hq Hip) as (sq & Hsq & [Hf|Hs']); unfold answer in Hst.
    - destruct (str_is_empty (pp_ip q)); [done|]. by simplify_eq.
    - destruct (str_is_empty (pp_ip q)); [done|]. by simplify_eq; destruct Hs'. }
  split; [done|done|done| |].
  - intros r Hr Hrip. destruct (other_pods_safe id tl committed pods v r Hel Hr Hrip) as (sr & Hsr & Hcase). exists sr. split; [done|].
    destruct Hcase as [Hf|(H1 & H2 & H3 & H4)]; [by left|right]. split_and!; [done|done|lia|].
    intros Hrq. apply H4. intros Heq. apply Hrq. eapply NoDup_fmap_inj; [exact Hnd|done|done|]. congruence.
  - intros q1 q2 s1 s2 Hid Hq1 Hq2 Ha1 Ha2 Hn1 Hn2.
    destruct (view_answered _ _ Ha1) as (_ & _ & _ & _ & _ & Ho1 & Hi1 & _), (view_answered _ _ Ha2) as (_ & _ & _ & _ & _ & Ho2 & Hi2 & _).
    rewrite <- Hi1, <- Hi2 in *. eapply reported_agree; [by apply Hagree|by apply list_elem_of_fmap_2|by apply list_elem_of_fmap_2|done..].
Qed.

Lemma assess_conflict views i : ii_malformed i = false -> ii_system_id i = 0 -> ia_conflict (assessIdentity views i) = false ->
  (1 <? size (reported_ids views))%nat = false.
Proof. intros Hm H0. unfold assessIdentity. by rewrite Hm, H0. Qed.

(** The address a promotion goes to is that of the pod it names. *)
Lemma host_of_target i pods committed host : distinct_pods pods -> host <> EmptyString ->
  hostByPod (omap (seen_by_election i) (view_of <$> pods)) committed = host ->
  forall q, q ∈ pods -> pp_name q = committed -> pp_ip q = host.
Proof.
  intros [Hnd _] Hh. unfold hostByPod. destruct (find_first _ _) as [u|] eqn:Ef; [|by intros <-]. intros <- q Hq Hn.
  apply find_first_Some in Ef as [(v & Hv & Hs)%list_elem_of_omap Hp%bool_decide_eq_true].
  apply list_elem_of_fmap in Hv as (r & -> & Hr). destruct (seen_pod _ _ _ Hs) as (Hup & Hhost & _). destruct (view_pod r) as [Hrn Hrh].
  assert (q = r) as ->; [|congruence]. eapply NoDup_fmap_inj; [exact Hnd|done|done|congruence].
Qed.

Lemma promotion_safe name replicas before pods s' call fenced :
  distinct_pods pods -> aggregateStatus name replicas before pods = (s', Some call, fenced) ->
  fs_target before <> EmptyString /\ pr_target call = fs_target before /\ pr_epoch call = fs_epoch before /\
  exists id p st, parseLatchedID (fs_system_id before) = Some id /\ pp_name p = fs_target before /\ pp_ip p = pr_host call /\
    ps_role st <> RolePrimary /\ safe_target id (fs_timeline before) pods p st.
Proof.
  intros Hd Ha. apply aggregate_parts in Ha as (sid & exp & tl & err & Hl & Hs). cbv zeta in Hs.
  set (a := assessIdentity _ _) in *. destruct (deriveStatus _ _ _ _) as [current phase].
  destruct err; cbn [negb andb] in Hs; [done|]. destruct (ia_conflict a) eqn:Ec; cbn [negb] in Hs; [done|].
  symmetry in Hs. apply reconcile_promotes in Hs as (He & Ht & Hep & Hh & Hhn). cbn [fs_target fs_epoch] in *.
  unfold a in He, Hh. rewrite kept_spec in He, Hh by done. set (i := mkIdentityInputs exp tl (fs_target before) false) in *.
  assert (Hpods : forall u, u ∈ omap (seen_by_election i) (view_of <$> pods) -> iv_pod u <> EmptyString).
  { intros u (v & Hv & Hs)%list_elem_of_omap. apply list_elem_of_fmap in Hv as (q & -> & Hq).
    destruct (seen_pod _ _ _ Hs) as [-> _]. destruct (view_pod q) as [-> _]. by apply Hd. }
  destruct (evaluate_elect _ _ _ Hpods He) as (v & Hel).
  assert (Hcm : fs_target before <> EmptyString).
  { rewrite <- (el_pod _ _ _ _ Hel). apply Hpods, Hel. }
  destruct (latch_kept _ _ _ _ _ _ _ _ _ Hl eq_refl) as (Hid & -> & _); [intros u; apply Hel|].
  destruct (elected_safe exp (fs_timeline before) (fs_target before) pods (fs_target before)) as (q & st & Hq & Hr & Hsafe); [done| |done|exact He|].
  { intros ->. by apply (assess_conflict _ i). }
  split_and!; [done..|]. exists exp, q, st. split_and!; [done|done| |done|done].
  eapply host_of_target; [exact Hd|exact Hhn|by symmetry|apply Hsafe|done].
Qed.

(** ** The handshake over time *)

(** The agent's [promote] reaches PostgreSQL: the request names this pod and passes the
    epoch guard. *)
Definition promotes {I} (target : string) (epoch : Z) (s : AgentSvc I) : bool :=
  bool_decide (target = ag_pod s) &&
  match EpochGuard.check (ag_epoch s) epoch ("promote:" +:+ target) with Ok Apply => true | _ => false end.

(** The stored versions of one node's status (newest first), the agents by address, the
    [Promote]s sent with the poll and the status version they were decided on, and the
    promotions carried out on a PostgreSQL. *)
Record FailoverWorld (I : Type) := mkFailoverWorld {
  fw_versions : list FailoverStatus;
  fw_agents : gmap string (AgentSvc I);
  fw_sent : list (PromoteCall * (FailoverStatus * list PolledPod));
  fw_promoted : list (string * Z);
}.
Arguments mkFailoverWorld {I} _ _ _ _.
Arguments fw_versions {I} _.
Arguments fw_agents {I} _.
Arguments fw_sent {I} _.
Arguments fw_promoted {I} _.

Section handshake.
Context {I : Type} `{!Instance I}.
Variables (name : string) (replicas : Z).

(** A reconcile works on some stored version, not always the newest one, and any poll; it
    may stop before its [Promote] or before its status write, and the API server refuses
    the write unless the version read is still the newest. A sent [Promote] arrives at any
    time, any number of times, at whatever agent then has the address. Agents restart, are
    replaced and serve other requests between. *)
Inductive fo_step : FailoverWorld I -> FailoverWorld I -> Prop :=
| fo_reconcile w k before pods s' call fenced (sends writes : bool) :
    fw_versions w !! k = Some before -> distinct_pods pods ->
    aggregateStatus name replicas before pods = (s', call, fenced) ->
    (writes = true -> k = 0%nat) ->
    fo_step w (mkFailoverWorld
      (if writes then s' :: fw_versions w else fw_versions w) (fw_agents w)
      (match call with Some c => if sends then (c, (before, pods)) :: fw_sent w else fw_sent w | None => fw_sent w end)
      (fw_promoted w))
| fo_deliver w c poll s :
    (c, poll) ∈ fw_sent w -> fw_agents w !! pr_host c = Some s ->
    fo_step w (mkFailoverWorld (fw_versions w)
      (<[pr_host c := fst (promote (pr_target c) (pr_epoch c) s)]> (fw_agents w)) (fw_sent w)
      (if promotes (pr_target c) (pr_epoch c) s then (ag_pod s, pr_epoch c) :: fw_promoted w else fw_promoted w))
| fo_agents w agents :
    fo_step w (mkFailoverWorld (fw_versions w) agents (fw_sent w) (fw_promoted w)).

Definition fo_init (s0 : FailoverStatus) (agents : gmap string (AgentSvc I)) : FailoverWorld I :=
  mkFailoverWorld [s0] agents [] [].

(** A newer version keeps the target of its epoch, or has dropped it, or has a later epoch. *)
Definition succeeds (newer older : FailoverStatus) : Prop :=
  fs_epoch older <= fs_epoch newer /\
  (fs_epoch older = fs_epoch newer -> fs_target newer = fs_target older \/ fs_target newer = EmptyString).

Lemma succeeds_trans s1 s2 s3 : succeeds s1 s2 -> succeeds s2 s3 -> succeeds s1 s3.
Proof.
  intros [He1 Ht1] [He2 Ht2]. split; [lia|]. intros He.
  destruct Ht1 as [->|]; [lia| |by right]. apply Ht2. lia.
Qed.

Lemma aggregate_succeeds before pods s' call fenced :
  aggregateStatus name replicas before pods = (s', call, fenced) -> succeeds s' before.
Proof.
  intros (sid & exp & tl & err & _ & Hs)%aggregate_parts. cbv zeta in Hs. destruct (deriveStatus _ _ _ _) as [current phase].
  destruct (negb err && _); [|simplify_eq; split; cbn; [lia|by left]]. unfold reconcileFailover in Hs. cbn [fs_target fs_epoch fs_current] in Hs.
  destruct (evaluateFailover _ _) as [| |t]; [| |destruct (negb _)].
  - destruct (_ && _); simplify_eq; split; cbn; [lia|by right|lia|by left].
  - simplify_eq. split; cbn; [lia|by left].
  - simplify_eq. split; cbn; lia.
  - simplify_eq. split; cbn; [lia|by left].
Qed.

Record fo_inv (w : FailoverWorld I) : Prop := {
  fi_versions : StronglySorted succeeds (fw_versions w);
  fi_sent c before pods : (c, (before, pods)) ∈ fw_sent w ->
    before ∈ fw_versions w /\ exists s' fenced, distinct_pods pods /\ aggregateStatus name replicas before pods = (s', Some c, fenced);
  fi_promoted p e : (p, e) ∈ fw_promoted w -> exists c poll, (c, poll) ∈ fw_sent w /\ pr_target c = p /\ pr_epoch c = e;
}.

Lemma fo_inv_step w w' : fo_inv w -> fo_step w w' -> fo_inv w'.
Proof.
  intros [Hv Hsent Hpro] Hstep. destruct Hstep as [w k before pods s' call fenced sends writes Hk Hd Ha Hw|w c poll s Hc Hs|w agents].
  - assert (Hinb : before ∈ fw_versions w) by by eapply list_elem_of_lookup_2.
    assert (Hmono : forall b, b ∈ fw_versions w -> b ∈ (if writes then s' :: fw_versions w else fw_versions w)).
    { intros b Hb. destruct writes; [by apply elem_of_cons; right|done]. }
    split; cbn [fw_versions fw_sent fw_promoted].
    + destruct writes; [|done]. rewrite (Hw eq_refl) in Hk. destruct (fw_versions w) as [|b vs]; [done|]. injection Hk as ->.
      apply aggregate_succeeds in Ha. inversion_clear Hv as [|? ? Hvs Hall].
      constructor; [by constructor|]. constructor; [done|]. eapply Forall_impl; [exact Hall|]. intros b. by apply succeeds_trans.
    + intros c b ps Hin. assert ((c, (b, ps)) ∈ fw_sent w \/ (call = Some c /\ b = before /\ ps = pods)) as [Hold|(-> & -> & ->)].
      { destruct call as [c'|]; [|by left]. destruct sends; [|by left]. apply elem_of_cons in Hin as [[= -> -> ->]|]; [by right|by left]. }
      * destruct (Hsent _ _ _ Hold) as [Hb ?]. eauto.
      * eauto 10.
    + intros p e Hp. destruct (Hpro p e Hp) as (c & poll & Hc & ?). exists c, poll. split; [|done].
      destruct call; [|done]. destruct sends; [by apply elem_of_cons; right|done].
  - split; cbn [fw_versions fw_sent fw_promoted]; [done|done|]. intros p e Hp.
    destruct (promotes _ _ _) eqn:Epr; [|by apply Hpro]. apply elem_of_cons in Hp as [[= -> ->]|Hp]; [|by apply Hpro].
    exists c, poll. apply andb_true_iff in Epr as [->%bool_decide_eq_true _]. done.
  - by split.
Qed.

Lemma fo_inv_reachable s0 agents w : rtc fo_step (fo_init s0 agents) w -> fo_inv w.
Proof.
  intros Hr. assert (H0 : fo_inv (fo_init s0 agents)).
  { split; cbn; [repeat constructor|by intros ? ? ? ?%elem_of_nil|by intros ? ? ?%elem_of_nil]. }
  revert H0. induction Hr as [w|w w1 w' Hs _ IH]; [done|]. intros Hi. by apply IH, (fo_inv_step w).
Qed.

Lemma succeeds_target vs a b : StronglySorted succeeds vs -> a ∈ vs -> b ∈ vs -> fs_epoch a = fs_epoch b ->
  fs_target a <> EmptyString -> fs_target b <> EmptyString -> fs_target a = fs_target b.
Proof.
  induction 1 as [|s vs Hs IH Hall]; [by intros ?%elem_of_nil|]. rewrite Forall_forall in Hall. intros Ha Hb He Hna Hnb.
  apply elem_of_cons in Ha as [->|Ha]; apply elem_of_cons in Hb as [->|Hb]; [done| | |by apply IH].
  - destruct (Hall b Hb) as [_ Ht]. destruct Ht; [lia|congruence|done].
  - destruct (Hall a Ha) as [_ Ht]. destruct Ht; [lia|congruence|done].
Qed.

End handshake.

(** ** Lemmas: what the aggregation publishes *)

Definition claims (p : PolledPod) : bool := match answer p with Some st => match ps_role st with RolePrimary => true | _ => false end | None => false end.

Lemma claims_view p : claims p = iv_is_primary (view_of p).
Proof. unfold claims, view_of, poll_pod, answer. destruct (if str_is_empty (pp_ip p) then _ else _) as [st|]; [|done]. by destruct (ps_role st). Qed.

Lemma claims_answer p : claims p = true <-> exists st, answer p = Some st /\ ps_role st = RolePrimary.
Proof.
  unfold claims. destruct (answer p) as [st|]; [|by split; [|intros (? & ? & _)]].
  destruct (ps_role st) eqn:E; split; try done; try (intros (st' & [= <-] & ?); congruence). by eauto.
Qed.

(** The believed claimants. *)
Lemma believed_primaries a pods :
  List.filter (fun s => bool_decide (is_role s = instanceRolePrimary)) (believed a (snd ∘ poll_pod <$> pods)) =
  (fun p => snd (poll_pod p)) <$> List.filter (fun p => claims p && negb (rogue a (pp_name p))) pods.
Proof.
  unfold believed. induction pods as [|p pods IH]; [done|]. rewrite !fmap_cons. cbn [List.filter]. rewrite IH. clear IH.
  assert (Hpod : is_pod (snd (poll_pod p)) = pp_name p) by (unfold poll_pod; by case_match).
  assert (Hrole : bool_decide (is_role (snd (poll_pod p)) = instanceRolePrimary) = claims p).
  { unfold claims, poll_pod, answer. destruct (if str_is_empty (pp_ip p) then _ else _) as [st|]; [|done]. by destruct (ps_role st). }
  change ((snd ∘ poll_pod) p) with (snd (poll_pod p)). rewrite Hpod. destruct (rogue a (pp_name p)); cbn [is_role negb].
  - by rewrite andb_false_r.
  - rewrite Hrole, andb_true_r. by destruct (claims p).
Qed.

Lemma derive_current instances replicas had prefix c phase : deriveStatus instances replicas had prefix = (c, phase) -> c <> EmptyString ->
  exists s, List.filter (fun s => bool_decide (is_role s = instanceRolePrimary)) instances = [s] /\ is_pod s = c.
Proof.
  unfold deriveStatus. destruct (List.filter (fun s => bool_decide _) _) as [|s1 [|s2 l]]; cbn [length last].
  - destruct (1 <? 0)%nat eqn:E; [done|]. repeat case_match; by intros [= <- _].
  - intros Hd Hc. exists s1. split; [done|]. revert Hd. destruct (1 <? 1)%nat eqn:E; [done|]. repeat case_match; by intros [= <- _].
  - by intros [= <- _].
Qed.

Lemma reconcile_keeps s views s' call : reconcileFailover s views = (s', call) ->
  fs_current s' = fs_current s /\ fs_system_id s' = fs_system_id s /\ fs_timeline s' = fs_timeline s.
Proof. unfold reconcileFailover. intros H. repeat case_match; by simplify_eq. Qed.

(** With an identity latched, a pod's role is refused exactly for the verdict on it. *)
Lemma rogue_spec pods i p : distinct_pods pods -> ii_malformed i = false -> ii_system_id i <> 0 -> p ∈ pods ->
  rogue (assessIdentity (view_of <$> pods) i) (pp_name p) = negb (is_verdict VKeep i (view_of p)).
Proof.
  intros [Hnd _] Hm Hid Hp. unfold assessIdentity. rewrite Hm. destruct (ii_system_id i =? 0) eqn:E0; [lia|].
  set (a0 := mkAssessment _ _ _ _ _ _). destruct (assess_foldl i (view_of <$> pods) a0) as (_ & Hu & _ & _). unfold rogue. rewrite Hu. cbn [ia_unrecognized a0 app].
  apply eq_true_iff_eq. rewrite bool_decide_eq_true. split.
  - intros (v & Hn & [Hv Hk]%elem_of_filter_b)%list_elem_of_fmap. apply list_elem_of_fmap in Hv as (q & -> & Hq).
    destruct (view_pod q) as [Hqn _]. assert (p = q) as ->; [|done]. eapply NoDup_fmap_inj; [exact Hnd|done|done|congruence].
  - intros Hk. destruct (view_pod p) as [<- _]. apply list_elem_of_fmap_2, elem_of_filter_b. split; [by apply list_elem_of_fmap_2|done].
Qed.

(** A claimant of the lineage is believed unless publication is suppressed. *)
Lemma claimant_believed pods i q : distinct_pods pods -> ii_malformed i = false ->
  ia_suppress (assessIdentity (view_of <$> pods) i) = false -> q ∈ pods -> claims q = true ->
  (ii_system_id i = 0 \/ is_foreign i (view_of q) = false) -> rogue (assessIdentity (view_of <$> pods) i) (pp_name q) = false.
Proof.
  intros Hd Hm Hs Hq Hc Hf. destruct (decide (ii_system_id i = 0)) as [H0|H0].
  - unfold assessIdentity, rogue in *. rewrite Hm, H0 in *. cbn in *. rewrite Hs in *. done.
  - destruct Hf as [|Hf]; [done|]. rewrite rogue_spec by done. unfold assessIdentity in Hs. rewrite Hm in Hs.
    destruct (ii_system_id i =? 0) eqn:E0; [lia|]. set (a0 := mkAssessment _ _ _ _ _ _) in Hs.
    destruct (assess_foldl i (view_of <$> pods) a0) as (_ & _ & Hsup & _). rewrite Hsup in Hs. cbn [a0 ia_suppress orb] in Hs.
    rewrite existsb_false in Hs. specialize (Hs (view_of q) (list_elem_of_fmap_2 _ _ _ Hq)).
    unfold is_verdict, verdict in *. rewrite Hf in *. rewrite claims_view in Hc. rewrite Hc in *. cbn [andb] in *.
    repeat (case_match; try done).
Qed.

(** The latch of an aggregation. *)
Lemma aggregate_latch name replicas before pods s' call fenced :
  aggregateStatus name replicas before pods = (s', call, fenced) ->
  exists exp err, latchIdentity (view_of <$> pods) (fs_current before) (fs_target before) (fs_system_id before) (fs_timeline before) =
      (fs_system_id s', exp, fs_timeline s', err) /\
    let a := assessIdentity (view_of <$> pods) (mkIdentityInputs exp (fs_timeline s') (fs_target before) err) in
    fs_current s' = if ia_suppress a then EmptyString
                    else fst (deriveStatus (believed a (snd ∘ poll_pod <$> pods)) replicas (negb (str_is_empty (fs_current before))) (name +:+ "-")).
Proof.
  intros (sid & exp & tl & err & Hl & Hs)%aggregate_parts. exists exp, err. cbv zeta in *. destruct (deriveStatus _ _ _ _) as [current phase] eqn:Ed.
  assert (fs_current s' = (if ia_suppress (assessIdentity (view_of <$> pods) (mkIdentityInputs exp tl (fs_target before) err)) then EmptyString else current)
    /\ fs_system_id s' = sid /\ fs_timeline s' = tl) as (Hc & -> & ->).
  { destruct (negb err && _); [|by simplify_eq]. symmetry in Hs. by destruct (reconcile_keeps _ _ _ _ Hs) as (-> & -> & ->). }
  split; [done|]. by rewrite Ed.
Qed.

(** The latch reads as before, or is set by this poll from ids that agree. *)
Lemma latch_value views current committed latched timeline sid exp tl err :
  latchIdentity views current committed latched timeline = (sid, exp, tl, err) -> err = false ->
  exists id, parseLatchedID latched = Some id /\ (id <> 0 -> exp = id) /\
    (id = 0 -> exp <> 0 -> (1 <? size (reported_ids views))%nat = false /\
      forall v, v ∈ views -> iv_observed v = true -> iv_system_id v <> 0 -> iv_system_id v = exp).
Proof.
  unfold latchIdentity. destruct (foldl _ _ _) as [[sid1 exp1] tl1] eqn:Ef. intros [= -> -> -> Hok] ->.
  apply negb_false_iff, bool_decide_eq_true in Hok as [id Hid]. rewrite Hid in Ef. cbn in Ef.
  apply latch_fold in Ef as (Hl & _ & Hk & _ & Hdis). exists id. split_and!; [done|by intros [? _]%Hk|]. intros -> Hexp. split; [by apply Hdis|].
  intros v Hv Ho Hn. destruct Hl as [Heq|(u & Hu & _ & Huo & Hui & _)]; [by simplify_eq|]. rewrite <- Hui in *.
  eapply reported_agree; [by apply Hdis|done..].
Qed.

(** The verdict that keeps a claimant. *)
Lemma keep_claimant i v : is_verdict VKeep i v = true -> iv_is_primary v = true -> is_foreign i v = false /\
  (iv_pod v = ii_committed i \/ (iv_system_id v = ii_system_id i /\ iv_timeline v = ii_timeline i)).
Proof.
  unfold is_verdict, verdict. destruct (is_foreign i v) eqn:Ef.
  - by rewrite andb_false_r.
  - intros Hk Hp. split; [done|]. rewrite Hp in Hk. cbn [andb] in Hk.
    case_bool_decide as Hc; [by left|]. cbn [andb] in Hk. right.
    destruct ((iv_system_id v =? ii_system_id i) && negb (ii_timeline i =? 0) && (iv_timeline v =? ii_timeline i)) eqn:Ev; [lia|done].
Qed.

Lemma published_vouched name replicas before pods s' call fenced :
  distinct_pods pods -> aggregateStatus name replicas before pods = (s', call, fenced) -> fs_current s' <> EmptyString ->
  exists id p st, parseLatchedID (fs_system_id before) = Some id /\
    p ∈ pods /\ pp_name p = fs_current s' /\ answer p = Some st /\ ps_role st = RolePrimary /\ ~ foreign_to id st /\
    (forall q sq, q ∈ pods -> answer q = Some sq -> ps_role sq = RolePrimary -> q = p \/ foreign_to id sq) /\
    (id <> 0 -> pp_name p = fs_target before \/ (ps_system_id st = id /\ as_i32 (ps_timeline st) = fs_timeline s')) /\
    (id = 0 -> (1 <? size (reported_ids (view_of <$> pods)))%nat = false).
Proof.
  intros Hd (exp & err & Hl & Hcur)%aggregate_latch Hne. cbv zeta in Hcur. set (i := mkIdentityInputs exp (fs_timeline s') (fs_target before) err) in *.
  set (a := assessIdentity _ i) in *. destruct (ia_suppress a) eqn:Esup; [done|]. destruct err.
  { unfold a, assessIdentity in Esup. done. }
  destruct (latch_value _ _ _ _ _ _ _ _ _ Hl eq_refl) as (id & Hid & Hkeep & Hdis).
  assert (Hag : id = 0 -> (1 <? size (reported_ids (view_of <$> pods)))%nat = false).
  { intros H0. destruct (decide (exp = 0)) as [He|He]; [|by apply Hdis]. unfold a, assessIdentity in Esup. cbn in Esup. by rewrite He in Esup. }
  destruct (deriveStatus _ _ _ _) as [c phase] eqn:Ed. cbn [fst] in Hcur. rewrite Hcur in Hne.
  destruct (derive_current _ _ _ _ _ _ Ed Hne) as (s & Hf & Hs). rewrite believed_primaries in Hf.
  destruct (List.filter (fun p => claims p && _) pods) as [|p [|]] eqn:Efl; try done. injection Hf as Hsp.
  assert (Hin : forall q, q ∈ pods -> claims q = true -> rogue a (pp_name q) = false -> q = p).
  { intros q Hq Hc Hr. apply list_elem_of_singleton. rewrite <- Efl. apply elem_of_filter_b. split; [done|]. by rewrite Hc, Hr. }
  assert (p ∈ pods /\ claims p && negb (rogue a (pp_name p)) = true) as [Hp [Hc Hnr%negb_true_iff]%andb_true_iff].
  { apply (elem_of_filter_b (fun p => claims p && negb (rogue a (pp_name p)))). rewrite Efl. by apply list_elem_of_singleton. }
  destruct (proj1 (claims_answer p) Hc) as (st & Hst & Hrole). destruct (view_answered _ _ Hst) as (_ & _ & _ & _ & _ & Hobs & Hsid & Htl).
  assert (Hforeign : forall q sq, q ∈ pods -> answer q = Some sq -> exp <> 0 -> is_foreign i (view_of q) = true -> id <> 0 -> foreign_to id sq).
  { intros q sq Hq Hsq Hexp Hfor Hid0. apply (foreign_view exp _ _ q sq Hsq) in Hfor. rewrite (Hkeep Hid0) in Hfor. by split. }
  assert (Hk : exp <> 0 -> is_foreign i (view_of p) = false /\
     (pp_name p = fs_target before \/ (ps_system_id st = exp /\ as_i32 (ps_timeline st) = fs_timeline s'))).
  { intros Hexp. unfold a in Hnr. rewrite rogue_spec, negb_false_iff in Hnr by done. apply keep_claimant in Hnr; [|by rewrite <- claims_view].
    destruct (view_pod p) as [Hn _]. rewrite Hn, Hsid, Htl in Hnr. done. }
  exists id, p, st. split_and!; try done.
  - rewrite Hcur, <- Hs, <- Hsp. unfold poll_pod. by case_match.
  - intros (Hid0 & Hf1 & Hf2). destruct Hk as [Hk _]; [by rewrite Hkeep|].
    assert (is_foreign i (view_of p) = true); [|congruence]. apply (foreign_view exp _ _ p st Hst). by rewrite Hkeep.
  - intros q sq Hq Hsq Hrq. assert (Hcq : claims q = true) by (apply claims_answer; eauto).
    destruct (decide (exp = 0 \/ is_foreign i (view_of q) = false)) as [Hn|Hn].
    { left. apply Hin; [done|done|]. by apply claimant_believed. }
    assert (exp <> 0 /\ is_foreign i (view_of q) = true) as [Hexp Hfor] by (destruct (is_foreign i (view_of q)); tauto).
    destruct (decide (id = 0)) as [H0|H0]; [|right; by apply (Hforeign q)].
    exfalso. apply (foreign_view exp _ _ q sq Hsq) in Hfor as [Hn1 Hn2].
    destruct (view_answered _ _ Hsq) as (_ & _ & _ & _ & _ & Hqo & Hqs & _). apply Hn2. rewrite <- Hqs in *.
    by apply (Hdis H0 Hexp); [apply list_elem_of_fmap_2|..].
  - intros Hid0. rewrite <- (Hkeep Hid0). apply Hk. by rewrite (Hkeep Hid0).
Qed.

(** ** Lemmas: when the handshake completes *)

(** The election prefers the highest position. *)
Lemma candidates_best l best rest v : sort_by (le_of cmp_candidates) l = best :: rest -> v ∈ l ->
  iv_received_lsn v <= iv_received_lsn best.
Proof.
  intros Hs Hv. assert (Hcmp : forall a b, cmp_candidates a b =
    pair_cmp Z.compare String.compare (- iv_received_lsn a, iv_pod a) (- iv_received_lsn b, iv_pod b)).
  { intros a b. unfold cmp_candidates, pair_cmp. cbn [fst snd]. rewrite Z.compare_opp.
    destruct (iv_received_lsn a =? iv_received_lsn b) eqn:E; cbn [negb].
    - apply Z.eqb_eq in E as ->. by rewrite Z.compare_refl.
    - destruct (Z.compare _ _) eqn:Ez; try done. apply Z.compare_eq in Ez. lia. }
  pose proof (pair_ordered _ _ Z_ordered string_ordered) as Hord.
  assert (StronglySorted (fun a b => le_of cmp_candidates a b = true) (sort_by (le_of cmp_candidates) l)) as Hsort.
  { apply sort_by_sorted; [eapply (le_of_total (fun v => (- iv_received_lsn v, iv_pod v)))|eapply (le_of_trans (fun v => (- iv_received_lsn v, iv_pod v)))]; done. }
  rewrite <- (sort_by_perm (le_of cmp_candidates) l), Hs in Hv. rewrite Hs in Hsort. inversion_clear Hsort as [|? ? _ Hall].
  apply elem_of_cons in Hv as [->|Hv]; [done|]. rewrite Forall_forall in Hall. specialize (Hall v Hv). unfold le_of, cmp_candidates in Hall.
  destruct (iv_received_lsn best =? iv_received_lsn v) eqn:E; cbn [negb] in Hall; [lia|].
  destruct (Z.compare_spec (iv_received_lsn v) (iv_received_lsn best)); [lia|lia|done].
Qed.

(** A snapshot to elect from: everybody with an address was heard, is a confirmed standby
    and receives nothing. *)
Record settled (views : list instanceView) : Prop := {
  se_no_claim u : u ∈ views -> iv_is_primary u = false;
  se_seen u : u ∈ views -> iv_observed u = true \/ iv_host u = EmptyString;
  se_confirmed u : u ∈ views -> iv_observed u = true -> iv_is_standby u = true;
  se_quiet u : u ∈ views -> iv_wal_receiver u = false;
}.

Lemma existsb_none {A} (p : A -> bool) l : (forall x, x ∈ l -> p x = false) -> existsb p l = false.
Proof. apply existsb_false. Qed.

Lemma evaluate_settled views committed : settled views ->
  let s := summarizeInstances views committed in
  su_ready_primary s = false /\ su_claims s || su_unobserved s || su_unconfirmed s || su_receiver s = false.
Proof.
  intros [Hc Hs Hf Hq]. cbv zeta. unfold summarizeInstances.
  destruct (summarize_foldl committed views (mkSummary false false false false false false 0 0 [])) as (-> & -> & -> & -> & -> & _).
  cbn [su_ready_primary su_claims su_unobserved su_unconfirmed su_receiver orb].
  rewrite !existsb_none; [done|done|..].
  - intros v Hv. unfold unconfirmed. destruct (iv_observed v) eqn:Ho; [|done]. rewrite (Hf v Hv Ho). cbn. by rewrite andb_false_r.
  - intros v Hv. unfold unseen. destruct (Hs v Hv) as [->| ->]; [done|]. apply andb_false_r.
  - done.
  - intros v Hv. by rewrite (Hc v Hv).
Qed.

(** From a settled snapshot in which a ready standby is not behind anyone, such a standby
    is elected. *)
Lemma settled_elects views v : settled views -> (forall u, u ∈ views -> 0 <= iv_received_lsn u) ->
  v ∈ views -> iv_ready v = true -> iv_is_standby v = true ->
  (forall u, u ∈ views -> iv_observed u = true -> iv_received_lsn u <= iv_received_lsn v) ->
  exists t, t ∈ views /\ iv_ready t = true /\ iv_is_standby t = true /\ iv_received_lsn v <= iv_received_lsn t /\
    evaluateFailover views EmptyString = Elect (iv_pod t).
Proof.
  intros Hset Hnn Hv Hr Hst Hmax. destruct (evaluate_settled views EmptyString Hset) as [Hp Hw]. unfold evaluateFailover. rewrite Hp, Hw.
  unfold summarizeInstances in *. destruct (summarize_foldl EmptyString views (mkSummary false false false false false false 0 0 []))
    as (_ & _ & _ & _ & _ & _ & Hcand & _ & _ & Hatt & _). rewrite Hcand. cbn [su_candidates app].
  assert (Hvc : v ∈ List.filter (fun v => iv_ready v && iv_is_standby v) views) by (apply elem_of_filter_b; by rewrite Hr, Hst).
  destruct (List.filter _ views) as [|c0 cs] eqn:Ec; [by apply elem_of_nil in Hvc|]. cbn [andb str_is_empty negb]. rewrite <- Ec in *.
  destruct (sort_by _ _) as [|best rest] eqn:Es.
  { rewrite <- (sort_by_perm (le_of cmp_candidates)), Es in Hvc. by apply elem_of_nil in Hvc. }
  pose proof (candidates_best _ _ _ v Es Hvc) as Hb. apply sorted_head_elem, elem_of_filter_b in Es as [Hbv [Hbr Hbs]%andb_true_iff].
  exists best. split_and!; [done..|]. destruct (_ <? _) eqn:El; [|done]. exfalso. destruct Hatt as [Hz|(u & Hu & Ho & Hlu)].
  - cbn [su_max_lsn] in Hz. specialize (Hnn best Hbv). lia.
  - specialize (Hmax u Hu Ho). lia.
Qed.

(** A committed target that is not behind anyone keeps being elected. *)
Lemma settled_drives views t : settled views -> NoDup (iv_pod <$> views) -> (forall u, u ∈ views -> 0 <= iv_received_lsn u) ->
  t ∈ views -> iv_observed t = true -> iv_pod t <> EmptyString ->
  (forall u, u ∈ views -> iv_observed u = true -> iv_received_lsn u <= iv_received_lsn t) ->
  evaluateFailover views (iv_pod t) = Elect (iv_pod t).
Proof.
  intros Hset Hnd Hnn Ht Ho Hne Hmax. destruct (evaluate_settled views (iv_pod t) Hset) as [Hp Hw]. unfold evaluateFailover. rewrite Hp, Hw.
  unfold summarizeInstances in *. destruct (summarize_foldl (iv_pod t) views (mkSummary false false false false false false 0 0 []))
    as (_ & _ & _ & _ & _ & Hd & _ & _ & _ & Hatt & Hlsn).
  assert (Hex : existsb (drives (iv_pod t)) views = true).
  { apply existsb_spec. exists t. split; [done|]. unfold drives. rewrite bool_decide_true, Ho, (se_no_claim _ Hset t Ht) by done.
    by destruct (str_is_empty (iv_pod t)) eqn:E; [apply str_is_empty_spec in E|]. }
  destruct (str_is_empty (iv_pod t)) eqn:E; [by apply str_is_empty_spec in E|]. rewrite Hd, Hex, !andb_false_r. cbn [su_drivable orb negb].
  destruct (Hlsn Hex) as (u & Hu & Hdu & ->). unfold drives in Hdu. rewrite !andb_true_iff in Hdu. destruct Hdu as [[[_ Hpu%bool_decide_eq_true] _] _].
  assert (u = t) as -> by by eapply (NoDup_fmap_inj iv_pod). destruct (_ <? _) eqn:El; [|done]. exfalso.
  destruct Hatt as [Hz|(w & Hwv & Hwo & Hlw)]; [cbn [su_max_lsn] in Hz; specialize (Hnn t Ht); lia|].
  specialize (Hmax w Hwv Hwo). lia.
Qed.

(** A poll of a node that lost its primary and has come to rest: every pod with an address
    is a standby of the latched lineage, no further than its timeline, receiving nothing. *)
Definition rested (id timeline : Z) (pods : list PolledPod) : Prop :=
  forall q, q ∈ pods -> pp_ip q <> EmptyString -> exists sq, pp_answer q = Some sq /\ ps_role sq = RoleStandby /\
    ps_receiver_active sq = false /\ ps_system_id sq = id /\ as_i32 (ps_timeline sq) <= timeline /\ 0 <= ps_receive_lsn sq.

(** A pod of such a poll: heard and a standby, or without an address. *)
Lemma rested_view id tl pods v : rested id tl pods -> v ∈ view_of <$> pods ->
  iv_is_primary v = false /\ iv_wal_receiver v = false /\ 0 <= iv_received_lsn v /\
  ((iv_observed v = true /\ iv_is_standby v = true /\ iv_system_id v = id /\ iv_timeline v <= tl) \/
   (iv_observed v = false /\ iv_host v = EmptyString /\ iv_system_id v = 0 /\ iv_timeline v = 0)).
Proof.
  intros Hr (q & -> & Hq)%list_elem_of_fmap. destruct (answer q) as [sq|] eqn:Ha.
  - assert (Hip : pp_ip q <> EmptyString) by (intros Hip; unfold answer in Ha; by rewrite Hip in Ha).
    destruct (Hr q Hq Hip) as (sq' & Hsq & Hrole & Hrecv & Hid & Htl & Hl). assert (sq' = sq) as ->.
    { unfold answer in Ha. destruct (str_is_empty (pp_ip q)); congruence. }
    destruct (view_answered _ _ Ha) as (_ & Hp & Hs & -> & -> & Ho & -> & ->). split_and!; [|done|done|left; by rewrite Hs].
    destruct (iv_is_primary (view_of q)); [|done]. destruct Hp as [Hp _]. rewrite Hp in Hrole; done.
  - rewrite (view_unanswered q Ha). cbn. split_and!; [done..|]. right. split_and!; [done| |done|done].
    destruct (decide (pp_ip q = EmptyString)) as [|Hip]; [done|]. destruct (Hr q Hq Hip) as (sq & Hsq & _).
    unfold answer in Ha. destruct (str_is_empty (pp_ip q)) eqn:E; [by apply str_is_empty_spec in E|congruence].
Qed.

Lemma rested_settled id tl pods : rested id tl pods -> settled (view_of <$> pods).
Proof.
  intros Hr. split; intros v Hv; destruct (rested_view _ _ _ _ Hr Hv) as (Hp & Hw & _ & [(Ho & Hs & _)|(Ho & Hh & _)]);
    rewrite ?Hp, ?Hw, ?Ho; auto; try done.
Qed.

Lemma latch_idle current committed ok dis l st : (forall v, v ∈ l -> iv_is_primary v = false) ->
  foldl (latch_view current committed ok dis) st l = st.
Proof.
  revert st. induction l as [|v l IH]; intros [[sid exp] tl] Hl; [done|]. cbn [foldl].
  assert (latch_view current committed ok dis (sid, exp, tl) v = (sid, exp, tl)) as ->.
  { unfold latch_view. rewrite (Hl v) by (by apply elem_of_cons; left). done. }
  apply IH. intros u Hu. apply Hl. by apply elem_of_cons; right.
Qed.

Lemma rested_keep id tl committed v : id <> 0 -> 0 < tl -> iv_is_primary v = false ->
  (iv_observed v = true /\ iv_is_standby v = true /\ iv_system_id v = id /\ iv_timeline v <= tl) \/
  (iv_observed v = false /\ iv_host v = EmptyString /\ iv_system_id v = 0 /\ iv_timeline v = 0) ->
  verdict (mkIdentityInputs id tl committed false) v = VKeep.
Proof.
  intros Hid Htl Hp Hv. unfold verdict, is_foreign. cbn. rewrite Hp. cbn [andb].
  destruct Hv as [(-> & _ & -> & Hle)|(-> & _ & -> & ->)]; cbn [andb].
  - rewrite Z.eqb_refl. cbn [negb]. rewrite andb_false_r. replace (id =? 0) with false by lia. replace (iv_timeline v >? tl) with false by lia.
    rewrite andb_false_r. cbn. by destruct (_ && _).
  - replace (0 >? tl) with false by lia. rewrite andb_false_r. cbn. by destruct (_ && _).
Qed.

Lemma assess_all_kept l i a : (forall v, v ∈ l -> verdict i v = VKeep) ->
  foldl (assess_view i) a l = mkAssessment (ia_kept a ++ l) (ia_unrecognized a) (ia_suppress a) (ia_conflict a) (ia_blocked a) (ia_unobserved a).
Proof.
  revert a. induction l as [|v l IH]; intros a Hl; cbn [foldl]; [rewrite app_nil_r; by destruct a|].
  unfold assess_view at 2. rewrite (Hl v) by (by apply elem_of_cons; left). rewrite IH by (intros u Hu; apply Hl; by apply elem_of_cons; right).
  cbn. by rewrite <- app_assoc.
Qed.

(** At rest an aggregation is its handshake over all the views. *)
Lemma rested_aggregate name replicas before pods id :
  rested id (fs_timeline before) pods -> id <> 0 -> 0 < fs_timeline before -> parseLatchedID (fs_system_id before) = Some id ->
  exists s, fs_target s = fs_target before /\ fs_epoch s = fs_epoch before /\ fs_system_id s = fs_system_id before /\ fs_timeline s = fs_timeline before /\
    aggregateStatus name replicas before pods = (reconcileFailover s (view_of <$> pods), []).
Proof.
  intros Hr Hid Htl Hparse. unfold aggregateStatus, latchIdentity. change (fst ∘ poll_pod) with view_of. rewrite Hparse.
  rewrite latch_idle by (intros v Hv; by apply (rested_view _ _ _ _ Hr) in Hv as [? _]). cbn [default from_option Datatypes.id].
  rewrite bool_decide_true by by eexists. cbn [negb]. unfold assessIdentity at 1. cbn [ii_malformed ii_system_id].
  unfold assessIdentity. cbn [ii_malformed ii_system_id]. replace (id =? 0) with false by lia.
  rewrite assess_all_kept by (intros v Hv; destruct (rested_view _ _ _ _ Hr Hv) as (? & _ & _ & ?); by apply rested_keep).
  cbn [ia_kept ia_unrecognized ia_suppress ia_conflict ia_blocked app negb andb orb].
  destruct (deriveStatus _ _ _ _) as [current phase]. match goal with |- context [reconcileFailover ?s _] => exists s; destruct (reconcileFailover s _) end.
  split_and!; done.
Qed.

Lemma rested_nodup pods : distinct_pods pods -> NoDup (iv_pod <$> (view_of <$> pods)).
Proof.
  intros [Hnd _]. rewrite <- list_fmap_compose. erewrite list_fmap_ext; [exact Hnd|]. intros i p _. by destruct (view_pod p).
Qed.

(** A reconcile whose committed target is elected and has an address sends the promotion. *)
Lemma reconcile_drives s views v : NoDup (iv_pod <$> views) -> v ∈ views -> iv_host v <> EmptyString -> iv_pod v = fs_target s ->
  evaluateFailover views (fs_target s) = Elect (fs_target s) ->
  reconcileFailover s views =
    (set_target s PhaseFailingOver (fs_target s) (fs_epoch s), Some (mkPromote (iv_host v) (fs_target s) (fs_epoch s))).
Proof.
  intros Hnd Hv Hh Hp He. assert (Hhost : hostByPod views (fs_target s) = iv_host v).
  { unfold hostByPod. destruct (find_first _ _) as [u|] eqn:Ef.
    - apply find_first_Some in Ef as [Hu Hpu%bool_decide_eq_true]. f_equal. eapply NoDup_fmap_inj; [exact Hnd|done|done|congruence].
    - apply find_first_None in Ef. rewrite Forall_forall in Ef. specialize (Ef v Hv). by apply bool_decide_eq_false in Ef. }
  unfold reconcileFailover. rewrite He, bool_decide_true, Hhost by done. cbn [negb].
  destruct (str_is_empty (iv_host v)) eqn:E; [by apply str_is_empty_spec in E|done].
Qed.

(** ** Theorems *)


(** C19: A status publishes a primary only if that pod itself reports the role under the
    latched identifier on exactly the recorded timeline, or is the committed election
    target of the lineage, and no other pod that claims to be primary can be of the lineage;
    while nothing is latched, all reported identifiers agree. *)
Theorem published_primary_vouched name replicas before pods s' call fenced :
  distinct_pods pods -> aggregateStatus name replicas before pods = (s', call, fenced) -> fs_current s' <> EmptyString ->
  exists id p st, parseLatchedID (fs_system_id before) = Some id /\
    p ∈ pods /\ pp_name p = fs_current s' /\ answer p = Some st /\ ps_role st = RolePrimary /\ ~ foreign_to id st /\
    (forall q sq, q ∈ pods -> answer q = Some sq -> ps_role sq = RolePrimary -> q = p \/ foreign_to id sq) /\
    (id <> 0 -> pp_name p = fs_target before \/ (ps_system_id st = id /\ as_i32 (ps_timeline st) = fs_timeline s')) /\
    (id = 0 -> forall q q' sq sq', q ∈ pods -> q' ∈ pods -> answer q = Some sq -> answer q' = Some sq' ->
       ps_system_id sq <> 0 -> ps_system_id sq' <> 0 -> ps_system_id sq = ps_system_id sq').
Proof.
  intros Hd Ha Hc. destruct (published_vouched _ _ _ _ _ _ _ Hd Ha Hc) as (id & p & st & H1 & H2 & H3 & H4 & H5 & H6 & H7 & H8 & H9).
  exists id, p, st. split_and!; try done. intros H0 q1 q2 s1 s2 Hq1 Hq2 Ha1 Ha2 Hn1 Hn2.
  destruct (view_answered _ _ Ha1) as (_ & _ & _ & _ & _ & Ho1 & Hi1 & _), (view_answered _ _ Ha2) as (_ & _ & _ & _ & _ & Ho2 & Hi2 & _).
  rewrite <- Hi1, <- Hi2 in *. eapply reported_agree; [by apply H9|by apply list_elem_of_fmap_2|by apply list_elem_of_fmap_2|done..].
Qed.

(** the identity latch is never overwritten, and the recorded timeline never goes back and
    moves past a recorded value only by a claim of the committed election target. *)
Theorem latch_never_overwritten name replicas before pods s' call fenced id :
  aggregateStatus name replicas before pods = (s', call, fenced) -> parseLatchedID (fs_system_id before) = Some id ->
  (id <> 0 -> fs_system_id s' = fs_system_id before) /\ fs_timeline before <= fs_timeline s' /\
  (id <> 0 -> fs_timeline s' <> fs_timeline before -> fs_timeline before = 0 \/
     exists p, p ∈ pods /\ pp_name p = fs_target before /\ claims p = true /\ iv_system_id (view_of p) = id).
Proof.
  intros (exp & err & Hl & _)%aggregate_latch Hid. unfold latchIdentity in Hl. destruct (foldl _ _ _) as [[sid1 exp1] tl1] eqn:Ef.
  injection Hl as -> -> -> _. rewrite Hid in Ef. cbn in Ef. apply latch_fold in Ef as (_ & Hle & Hk & Ht & _).
  split_and!; [by intros [_ ?]%Hk|done|]. intros Hn Hne. destruct (Hk Hn) as [-> _].
  destruct (Ht Hne) as [|(v & Hv & Hp & Hpr & Hi)]; [by left|]. right. apply list_elem_of_fmap in Hv as (p & -> & Hpp).
  exists p. destruct (view_pod p) as [Hn' _]. rewrite claims_view. split_and!; congruence.
Qed.

(** C34: A node that lost its primary and whose standbys have come to rest fails over: if a
    ready standby holds all the WAL anyone holds, the first reconcile commits such a pod as
    target under the next epoch without telling anyone, and the second one sends that pod
    the promotion. *)
Theorem failover_completes name replicas before pods id p sp :
  distinct_pods pods -> rested id (fs_timeline before) pods -> id <> 0 -> 0 < fs_timeline before ->
  parseLatchedID (fs_system_id before) = Some id -> fs_target before = EmptyString ->
  p ∈ pods -> answer p = Some sp -> ps_ready sp = true ->
  (forall q sq, q ∈ pods -> answer q = Some sq -> ps_receive_lsn sq <= ps_receive_lsn sp) ->
  exists t st s1 s2, t ∈ pods /\ answer t = Some st /\ ps_receive_lsn sp <= ps_receive_lsn st /\
    aggregateStatus name replicas before pods = (s1, None, []) /\
    fs_phase s1 = PhaseFailingOver /\ fs_target s1 = pp_name t /\ fs_epoch s1 = fs_epoch before + 1 /\
    aggregateStatus name replicas s1 pods = (s2, Some (mkPromote (pp_ip t) (pp_name t) (fs_epoch before + 1)), []).
Proof.
  intros Hd Hr Hid Htl Hparse Htgt Hp Hsp Hrdy Hmax. pose proof (rested_settled _ _ _ Hr) as Hset.
  destruct (view_answered _ _ Hsp) as (Hvr & _ & _ & Hvl & _ & Hvo & _).
  assert (Hpv : view_of p ∈ view_of <$> pods) by by apply list_elem_of_fmap_2.
  assert (Hnn : forall u, u ∈ view_of <$> pods -> 0 <= iv_received_lsn u).
  { intros u Hu. by destruct (rested_view _ _ _ _ Hr Hu) as (_ & _ & ? & _). }
  assert (Hle : forall u, u ∈ view_of <$> pods -> iv_observed u = true -> iv_received_lsn u <= iv_received_lsn (view_of p)).
  { intros u (q & -> & Hq)%list_elem_of_fmap Ho. destruct (view_observed _ Ho) as [sq Hsq].
    destruct (view_answered _ _ Hsq) as (_ & _ & _ & -> & _). rewrite Hvl. eauto. }
  destruct (settled_elects _ (view_of p) Hset Hnn Hpv) as (tv & Htv & Htr & Hts & Htle & He); [congruence|by apply Hset|done|].
  apply list_elem_of_fmap in Htv as (t & -> & Ht). destruct (view_pod t) as [Htn Hth].
  assert (Hto : iv_observed (view_of t) = true).
  { destruct (answer t) eqn:Ea; [|by rewrite (view_unanswered t Ea) in Hts]. by destruct (view_answered _ _ Ea) as (_ & _ & _ & _ & _ & ? & _). }
  destruct (view_observed _ Hto) as [st Hst]. destruct (view_answered _ _ Hst) as (_ & _ & _ & Hsl & _).
  destruct (rested_aggregate name replicas before pods id Hr Hid Htl Hparse) as (s & Hs1 & Hs2 & Hs3 & Hs4 & Ha).
  set (s1 := set_target s PhaseFailingOver (pp_name t) (fs_epoch s + 1)).
  assert (Ha1 : aggregateStatus name replicas before pods = (s1, None, [])).
  { rewrite Ha. unfold reconcileFailover. rewrite Hs1, Htgt, He, Htn. rewrite bool_decide_false; [done|]. intros Hn. by apply (proj2 Hd t Ht). }
  destruct (rested_aggregate name replicas s1 pods id) as (s' & Hs1' & Hs2' & _ & _ & Ha2); [by rewrite <- Hs4 in Hr|done|cbn; lia|cbn; congruence|].
  assert (Hdrv : evaluateFailover (view_of <$> pods) (pp_name t) = Elect (pp_name t)).
  { rewrite <- Htn. apply settled_drives; [done|by apply rested_nodup|done|by apply list_elem_of_fmap_2|done|rewrite Htn; by apply Hd|].
    intros u Hu Ho. specialize (Hle u Hu Ho). lia. }
  assert (Hip : pp_ip t <> EmptyString) by (intros Hip; unfold answer in Hst; by rewrite Hip in Hst).
  exists t, st, s1. eexists. split_and!; [done|done|lia|done|done|done|cbn; lia|]. rewrite Ha2.
  cbn [fs_target fs_epoch s1 set_target] in Hs1', Hs2'.
  rewrite (reconcile_drives _ _ (view_of t)); [|by apply rested_nodup|by apply list_elem_of_fmap_2|congruence|congruence|by rewrite Hs1'].
  by rewrite Hs1', Hs2', Hs2, Hth.
Qed.

(** ** A run *)

(** A node of three whose primary's pod is gone: the standby further ahead is elected,
    committed under epoch 5, and promoted. *)
Module FailoverExample.

#[local] Existing Instance demo_instance.

Definition standby (lsn : Z) : PolledStatus := mkPolledStatus RoleStandby true lsn false 77 3.
Definition pods : list PolledPod :=
  [mkPolledPod "n-0" EmptyString None; mkPolledPod "n-1" "10.0.0.2" (Some (standby 100)); mkPolledPod "n-2" "10.0.0.3" (Some (standby 90))].
Definition before : FailoverStatus := mkStatus PhaseReady "n-0" EmptyString 4 3 "77" [].
Definition elected : FailoverStatus := fst (fst (aggregateStatus "n" 3 before pods)).
Definition promoting : FailoverStatus := fst (fst (aggregateStatus "n" 3 elected pods)).
Definition call : PromoteCall := mkPromote "10.0.0.2" "n-1" 5.

Definition agent : AgentSvc Z := mkAgent 7 "n-1" "uid-1" (mkApplied 4 "fence:false" true) ∅ ∅ ∅ ∅ None.
Definition agents : gmap string (AgentSvc Z) := {[ "10.0.0.2" := agent ]}.

Definition done_world : FailoverWorld Z :=
  mkFailoverWorld [promoting; elected; before] (<["10.0.0.2" := fst (promote "n-1" 5 agent)]> agents) [(call, (elected, pods))] [("n-1", 5)].

Lemma pods_distinct : distinct_pods pods.
Proof.
  split; [by apply (bool_decide_unpack _); vm_compute|].
  intros p Hp. unfold pods in Hp. repeat (apply elem_of_cons in Hp as [->|Hp]; [done|]). by apply elem_of_nil in Hp.
Qed.

Lemma pods_rested : rested 77 3 pods.
Proof.
  intros p Hp Hip. unfold pods in Hp. apply elem_of_cons in Hp as [->|Hp]; [done|].
  apply elem_of_cons in Hp as [->|Hp]; [eexists; split_and!; done|].
  apply elem_of_cons in Hp as [->|Hp]; [eexists; split_and!; done|]. by apply elem_of_nil in Hp.
Qed.

Lemma done_reachable : rtc (fo_step "n" 3) (fo_init before agents) done_world.
Proof.
  eapply rtc_l.
  { apply (fo_reconcile "n" 3 (fo_init before agents) 0 before pods elected None [] false true);
      [done|exact pods_distinct|by vm_compute|done]. }
  eapply rtc_l.
  { apply (fo_reconcile "n" 3 _ 0 elected pods promoting (Some call) [] true true); [done|exact pods_distinct|by vm_compute|done]. }
  eapply rtc_l; [|apply rtc_refl]. cbn [fw_versions fw_agents fw_sent fw_promoted fo_init].
  apply (fo_deliver "n" 3 (mkFailoverWorld [promoting; elected; before] agents [(call, (elected, pods))] []) call (elected, pods) agent); [by apply list_elem_of_singleton|done].
Qed.


(** After the promotion: the new primary reports timeline 4. *)
Definition healed : list PolledPod :=
  [mkPolledPod "n-0" EmptyString None; mkPolledPod "n-1" "10.0.0.2" (Some (mkPolledStatus RolePrimary true 100 false 77 4));
   mkPolledPod "n-2" "10.0.0.3" (Some (standby 90))].
Definition recovered : FailoverStatus := fst (fst (aggregateStatus "n" 3 promoting healed)).

Lemma healed_distinct : distinct_pods healed.
Proof.
  split; [by apply (bool_decide_unpack _); vm_compute|].
  intros p Hp. unfold healed in Hp. repeat (apply elem_of_cons in Hp as [->|Hp]; [done|]). by apply elem_of_nil in Hp.
Qed.

Lemma published_primary_vouched_witness :
  fs_current recovered = "n-1" /\ fs_timeline recovered = 4 /\ fs_target recovered = EmptyString /\
  exists p st, p ∈ healed /\ pp_name p = "n-1" /\ answer p = Some st /\ ps_role st = RolePrimary.
Proof.
  assert (Ha : aggregateStatus "n" 3 promoting healed = (recovered, None, [])) by (vm_compute; reflexivity).
  assert (Hc : fs_current recovered = "n-1") by (vm_compute; reflexivity).
  split; [exact Hc|]. split; [vm_compute; reflexivity|]. split; [vm_compute; reflexivity|].
  destruct (published_primary_vouched "n" 3 promoting healed recovered None [] healed_distinct Ha) as (id & p & st & _ & Hp & Hn & Hst & Hr & _).
  - rewrite Hc. discriminate.
  - exists p, st. rewrite <- Hc. auto.
Defined.

Lemma failover_completes_witness : exists t st s1 s2, t ∈ pods /\ answer t = Some st /\ 100 <= ps_receive_lsn st /\
  aggregateStatus "n" 3 before pods = (s1, None, []) /\ fs_phase s1 = PhaseFailingOver /\ fs_target s1 = pp_name t /\ fs_epoch s1 = 5 /\
  aggregateStatus "n" 3 s1 pods = (s2, Some (mkPromote (pp_ip t) (pp_name t) 5), []).
Proof.
  apply (failover_completes "n" 3 before pods 77 (mkPolledPod "n-1" "10.0.0.2" (Some (standby 100))) (standby 100) pods_distinct pods_rested);
    [done|done|vm_compute; reflexivity|done| |done|done|].
  - apply elem_of_cons. right. by apply elem_of_cons; left.
  - intros q sq Hq Hsq. unfold pods in Hq. repeat (apply elem_of_cons in Hq as [->|Hq]; [cbn in Hsq; by simplify_eq|]). by apply elem_of_nil in Hq.
Defined.

Lemma latch_never_overwritten_witness : fs_system_id recovered = "77" /\ 3 <= fs_timeline recovered.
Proof.
  assert (Ha : aggregateStatus "n" 3 promoting healed = (recovered, None, [])) by (vm_compute; reflexivity).
  destruct (latch_never_overwritten "n" 3 promoting healed recovered None [] 77 Ha) as (H1 & H2 & _); [vm_compute; reflexivity|].
  split; [by rewrite H1|exact H2].
Defined.

End FailoverExample.
