(* ===== verification/Restore.v ===== *)
(** * Restore planning

    [src/operator/internal/backupcatalog]: the manifests of the object-storage catalog
    (catalog.go) and the resolution of a restore target to one restore instruction per
    shard (resolver.go). Instants are integers; an error carries what its message names. *)

From S2P Require Import Prelude Rust Go.

Open Scope Z_scope.

(** ** The catalog *)

Record KeyRangeRef := mkKeyRangeRef { kf_start : string; kf_end : string }.
Record ShardTopology := mkShardTopology { sp_name : string; sp_range : KeyRangeRef; sp_stanza : string; sp_role : string; sp_state : string }.
Record SequenceTopology := mkSequenceTopology { sq_column : string; sq_sequence : string }.
Record TableTopology := mkTableTopology {
  tt_schema : string; tt_name : string; tt_type : string; tt_key_column : string; tt_key_type : string; tt_sequences : list SequenceTopology;
}.
Record TopologySnapshot := mkSnapshotT {
  tn_generation : Z; tn_valid_from : Z; tn_epoch : Z; tn_hash : string; tn_shards : list ShardTopology; tn_tables : list TableTopology;
}.
Record BarrierShard := mkBarrierShard { bs_name : string; bs_stanza : string; bs_lsn : string; bs_timeline : Z; bs_point : string }.
Record BarrierManifest := mkBarrier { bm_id : string; bm_time : Z; bm_epoch : Z; bm_generation : Z; bm_shards : list BarrierShard }.
Record BackupShard := mkBackupShard {
  bk_name : string; bk_stanza : string; bk_label : string; bk_stop_lsn : string; bk_timeline : Z; bk_stop_time : Z;
}.
Record BackupManifest := mkBackup { bu_id : string; bu_completed : Z; bu_generation : Z; bu_epoch : Z; bu_shards : list BackupShard }.
Record BackupCatalog := mkCatalog { ct_topologies : list TopologySnapshot; ct_barriers : list BarrierManifest; ct_backups : list BackupManifest }.

(** ** Targets and plans *)

Record Target := mkTarget { tg_barrier : string; tg_time : option Z; tg_backup : string; tg_latest : bool }.

Inductive TargetType := TypeName | TypeTime | TypeLSN.

(** A target value: a text from a manifest, or a formatted instant. *)
Inductive TargetValue := ValueText (s : string) | ValueTime (t : Z).

Record ShardPlan := mkShardPlan {
  pl_shard : string; pl_stanza : string; pl_set : string; pl_type : TargetType; pl_value : TargetValue;
  pl_timeline : string; pl_exclusive : bool; pl_verify : string;
}.

Record RestorePlan := mkPlan { rp_topology : TopologySnapshot; rp_shards : list ShardPlan }.

Inductive ResolveError :=
| ESelectors (n : nat)
| EBarrierTwice (id : string) | EBackupTwice (id : string) | EGenerationTwice (g : Z)
| ENoBarrier (id : string) | ENoSuchBackup (id : string) | ENoGeneration (g : Z) | EPredates (t : Z)
| ENoBackupBefore (stanza : string) (t : Z) | ENoBackups | ENoStopLSN (backup shard : string)
| EHash (h : string) | ERole (shard role : string) | EState (shard state : string) | ESystemShards (n : nat)
| ETableName | ETableTwice (key : string) | ENoShardKey (key : string) | EKeyType (key type : string) | ETableType (key type : string)
| ECovers (planned have : nat) | ENoStanza (shard : string) | EShardTwice (shard : string) | EStanzaShared (a b stanza : string)
| ENotInTopology (shard : string) | EPlannedTwice (shard : string) | EWrongStanza (shard stanza recorded : string)
| ENoSet (shard : string) | EEmptyTarget (shard : string) | ENoVerify (shard : string) | EUnplanned (shard : string).

(** ** Lookups *)

(** The first key that was seen before. *)
Fixpoint first_dup {A} `{EqDecision A} (seen l : list A) : option A :=
  match l with
  | [] => None
  | x :: l' => if bool_decide (x ∈ seen) then Some x else first_dup (x :: seen) l'
  end.

Definition validate (c : BackupCatalog) : result ResolveError unit :=
  match first_dup [] (List.map bm_id (ct_barriers c)) with
  | Some id => Err (EBarrierTwice id)
  | None =>
      match first_dup [] (List.map bu_id (ct_backups c)) with
      | Some id => Err (EBackupTwice id)
      | None =>
          match first_dup [] (List.map tn_generation (ct_topologies c)) with
          | Some g => Err (EGenerationTwice g)
          | None => Ok tt
          end
      end
  end.

Definition findBarrier (c : BackupCatalog) (id : string) : result ResolveError BarrierManifest :=
  ok_or (ENoBarrier id) (find_first (fun b => bool_decide (bm_id b = id)) (ct_barriers c)).

Definition findBackup (c : BackupCatalog) (id : string) : result ResolveError BackupManifest :=
  ok_or (ENoSuchBackup id) (find_first (fun b => bool_decide (bu_id b = id)) (ct_backups c)).

Definition topologyByGeneration (c : BackupCatalog) (g : Z) : result ResolveError TopologySnapshot :=
  ok_or (ENoGeneration g) (find_first (fun s => tn_generation s =? g) (ct_topologies c)).

Definition later_snapshot (s current : TopologySnapshot) : bool :=
  (tn_valid_from s >? tn_valid_from current) ||
  ((tn_valid_from s =? tn_valid_from current) && (tn_generation s >? tn_generation current)).

Definition topology_turn (t : Z) (current : option TopologySnapshot) (s : TopologySnapshot) : option TopologySnapshot :=
  if tn_valid_from s >? t then current
  else match current with
       | None => Some s
       | Some c => if later_snapshot s c then Some s else current
       end.

Definition topologyAt (c : BackupCatalog) (t : Z) : result ResolveError TopologySnapshot :=
  ok_or (EPredates t) (foldl (topology_turn t) None (ct_topologies c)).

Definition backup_turn (stanza : string) (t : Z) (best : option BackupShard) (s : BackupShard) : option BackupShard :=
  if negb (bool_decide (bk_stanza s = stanza)) || (bk_stop_time s >? t) then best
  else match best with
       | None => Some s
       | Some b => if bk_stop_time s >? bk_stop_time b then Some s else best
       end.

Definition newestBackupBefore (c : BackupCatalog) (stanza : string) (t : Z) : option BackupShard :=
  foldl (backup_turn stanza t) None (concat (List.map bu_shards (ct_backups c))).

Definition timelineArg (tl : Z) : string := str_of (fmt_i tl).

(** ** Checks *)

Definition known_role (r : string) : bool := bool_decide (r = "data") || bool_decide (r = "system").
Definition known_state (s : string) : bool := bool_decide (s ∈ ["serving"; "buffered"; "readOnly"; "draining"; "hidden"]).
Definition known_key_type (s : string) : bool := bool_decide (s ∈ ["int"; "text"; "uuid"; "bytea"]).

Fixpoint check_shards (l : list ShardTopology) : result ResolveError nat :=
  match l with
  | [] => Ok O
  | sh :: l' =>
      if negb (known_role (sp_role sh)) then Err (ERole (sp_name sh) (sp_role sh))
      else if negb (known_state (sp_state sh)) then Err (EState (sp_name sh) (sp_state sh))
      else
        n ← check_shards l';
        Ok (if bool_decide (sp_role sh = "system") then S n else n)
  end.

Section unicode.
Context {GU : GoUnicode}.

Definition restored_key (t : TableTopology) : string := to_lower (tt_schema t) +:+ "." +:+ to_lower (tt_name t).

Definition check_table (t : TableTopology) : result ResolveError unit :=
  let key := restored_key t in
  if bool_decide (tt_type t = "sharded") then
    if str_is_empty (tt_key_column t) || str_is_empty (tt_key_type t) then Err (ENoShardKey key)
    else if known_key_type (tt_key_type t) then Ok tt else Err (EKeyType key (tt_key_type t))
  else if bool_decide (tt_type t = "global") then Ok tt
  else Err (ETableType key (tt_type t)).

Fixpoint check_tables (seen : list string) (l : list TableTopology) : result ResolveError unit :=
  match l with
  | [] => Ok tt
  | t :: l' =>
      if str_is_empty (tt_schema t) || str_is_empty (tt_name t) then Err ETableName
      else if bool_decide (restored_key t ∈ seen) then Err (ETableTwice (restored_key t))
      else _ ← check_table t; check_tables (restored_key t :: seen) l'
  end.

Definition snapshotComplete (s : TopologySnapshot) : result ResolveError unit :=
  if negb (bool_decide (tn_hash s = "xxhash64_v1")) then Err (EHash (tn_hash s))
  else
    n ← check_shards (tn_shards s);
    if negb (n =? 1)%nat then Err (ESystemShards n) else check_tables [] (tn_tables s).

(** The topology's stanza of each shard, in the order of the loop. *)
Fixpoint check_stanzas (seen : list ShardTopology) (l : list ShardTopology) : result ResolveError unit :=
  match l with
  | [] => Ok tt
  | s :: l' =>
      if str_is_empty (sp_stanza s) then Err (ENoStanza (sp_name s))
      else if existsb (fun o => bool_decide (sp_name o = sp_name s)) seen then Err (EShardTwice (sp_name s))
      else match find_first (fun o => bool_decide (sp_stanza o = sp_stanza s)) seen with
           | Some other => Err (EStanzaShared (sp_name other) (sp_name s) (sp_stanza s))
           | None => check_stanzas (s :: seen) l'
           end
  end.

Definition value_empty (v : TargetValue) : bool := match v with ValueText s => str_is_empty s | ValueTime _ => false end.
Definition needs_value (t : TargetType) : bool := match t with TypeTime => false | _ => true end.

Definition check_plan (topology : list ShardTopology) (planned : list string) (p : ShardPlan) : result ResolveError unit :=
  match find_first (fun s => bool_decide (sp_name s = pl_shard p)) topology with
  | None => Err (ENotInTopology (pl_shard p))
  | Some s =>
      if bool_decide (pl_shard p ∈ planned) then Err (EPlannedTwice (pl_shard p))
      else if negb (bool_decide (pl_stanza p = sp_stanza s)) then Err (EWrongStanza (pl_shard p) (pl_stanza p) (sp_stanza s))
      else if str_is_empty (pl_set p) then Err (ENoSet (pl_shard p))
      else if needs_value (pl_type p) && value_empty (pl_value p) then Err (EEmptyTarget (pl_shard p))
      else if match pl_type p with TypeName => str_is_empty (pl_verify p) | _ => false end then Err (ENoVerify (pl_shard p))
      else Ok tt
  end.

Fixpoint check_plans (topology : list ShardTopology) (planned : list string) (l : list ShardPlan) : result ResolveError (list string) :=
  match l with
  | [] => Ok planned
  | p :: l' => _ ← check_plan topology planned p; check_plans topology (pl_shard p :: planned) l'
  end.

Definition sanity (p : RestorePlan) : result ResolveError unit :=
  let topology := tn_shards (rp_topology p) in
  _ ← snapshotComplete (rp_topology p);
  if negb (length (rp_shards p) =? length topology)%nat then Err (ECovers (length (rp_shards p)) (length topology))
  else
    _ ← check_stanzas [] topology;
    planned ← check_plans topology [] (rp_shards p);
    match find_first (fun s => negb (bool_decide (sp_name s ∈ planned))) topology with
    | Some s => Err (EUnplanned (sp_name s))
    | None => Ok tt
    end.

(** ** Resolution *)

Definition barrier_plan (c : BackupCatalog) (t : Z) (s : BarrierShard) : result ResolveError ShardPlan :=
  match newestBackupBefore c (bs_stanza s) t with
  | None => Err (ENoBackupBefore (bs_stanza s) t)
  | Some b => Ok (mkShardPlan (bs_name s) (bs_stanza s) (bk_label b) TypeName (ValueText (bs_point s)) (timelineArg (bs_timeline s)) false (bs_lsn s))
  end.

Definition time_plan (c : BackupCatalog) (t : Z) (s : ShardTopology) : result ResolveError ShardPlan :=
  match newestBackupBefore c (sp_stanza s) t with
  | None => Err (ENoBackupBefore (sp_stanza s) t)
  | Some b => Ok (mkShardPlan (sp_name s) (sp_stanza s) (bk_label b) TypeTime (ValueTime t) "latest" false EmptyString)
  end.

Definition backup_plan (backup : string) (s : BackupShard) : result ResolveError ShardPlan :=
  if str_is_empty (bk_stop_lsn s) then Err (ENoStopLSN backup (bk_name s))
  else Ok (mkShardPlan (bk_name s) (bk_stanza s) (bk_label s) TypeLSN (ValueText (bk_stop_lsn s)) (timelineArg (bk_timeline s)) true (bk_stop_lsn s)).

(** The loops that build a plan, and the check they all end in. *)
Fixpoint plan_all {A} (f : A -> result ResolveError ShardPlan) (l : list A) : result ResolveError (list ShardPlan) :=
  match l with
  | [] => Ok []
  | x :: l' => p ← f x; ps ← plan_all f l'; Ok (p :: ps)
  end.

Definition planned {A} (topology : TopologySnapshot) (f : A -> result ResolveError ShardPlan) (l : list A) : result ResolveError RestorePlan :=
  ps ← plan_all f l;
  _ ← sanity (mkPlan topology ps);
  Ok (mkPlan topology ps).

Definition resolveBarrier (c : BackupCatalog) (id : string) : result ResolveError RestorePlan :=
  barrier ← findBarrier c id;
  topology ← topologyByGeneration c (bm_generation barrier);
  planned topology (barrier_plan c (bm_time barrier)) (bm_shards barrier).

Definition resolveTime (c : BackupCatalog) (t : Z) : result ResolveError RestorePlan :=
  topology ← topologyAt c t;
  planned topology (time_plan c t) (tn_shards topology).

Definition planFromBackup (c : BackupCatalog) (backup : BackupManifest) : result ResolveError RestorePlan :=
  topology ← topologyByGeneration c (bu_generation backup);
  planned topology (backup_plan (bu_id backup)) (bu_shards backup).

Definition resolveBackup (c : BackupCatalog) (id : string) : result ResolveError RestorePlan :=
  backup ← findBackup c id; planFromBackup c backup.

Definition later_backup (b newest : BackupManifest) : bool :=
  (bu_completed b >? bu_completed newest) ||
  ((bu_completed b =? bu_completed newest) && match String.compare (bu_id b) (bu_id newest) with Gt => true | _ => false end).

Definition resolveLatest (c : BackupCatalog) : result ResolveError RestorePlan :=
  match ct_backups c with
  | [] => Err ENoBackups
  | b :: l => planFromBackup c (foldl (fun newest x => if later_backup x newest then x else newest) b l)
  end.

Definition selectors (t : Target) : nat :=
  (if str_is_empty (tg_barrier t) then 0 else 1) + (match tg_time t with Some _ => 1 | None => 0 end) +
  (if str_is_empty (tg_backup t) then 0 else 1) + (if tg_latest t then 1 else 0).

Definition Resolve (c : BackupCatalog) (t : Target) : result ResolveError RestorePlan :=
  if negb (selectors t =? 1)%nat then Err (ESelectors (selectors t))
  else
    _ ← validate c;
    if negb (str_is_empty (tg_barrier t)) then resolveBarrier c (tg_barrier t)
    else match tg_time t with
         | Some time => resolveTime c time
         | None => if negb (str_is_empty (tg_backup t)) then resolveBackup c (tg_backup t) else resolveLatest c
         end.

(** ** What a plan promises *)

Definition all_sets (c : BackupCatalog) : list BackupShard := concat (List.map bu_shards (ct_backups c)).

(** The newest set of a stanza that was finished at [t]. *)
Definition newest_set (c : BackupCatalog) (stanza : string) (t : Z) (b : BackupShard) : Prop :=
  b ∈ all_sets c /\ bk_stanza b = stanza /\ bk_stop_time b <= t /\
  forall b', b' ∈ all_sets c -> bk_stanza b' = stanza -> bk_stop_time b' <= t -> bk_stop_time b' <= bk_stop_time b.

(** The topology in force at [t]: of those committed by then, the last. *)
Definition in_force (c : BackupCatalog) (t : Z) (s : TopologySnapshot) : Prop :=
  s ∈ ct_topologies c /\ tn_valid_from s <= t /\
  forall s', s' ∈ ct_topologies c -> tn_valid_from s' <= t -> s' = s \/ tn_valid_from s' < tn_valid_from s \/
    (tn_valid_from s' = tn_valid_from s /\ tn_generation s' < tn_generation s).

(** The last completed backup. *)
Definition latest_backup (c : BackupCatalog) (b : BackupManifest) : Prop :=
  b ∈ ct_backups c /\ forall b', b' ∈ ct_backups c -> b' = b \/ bu_completed b' < bu_completed b \/
    (bu_completed b' = bu_completed b /\ String.compare (bu_id b') (bu_id b) = Lt).

(** One instruction per shard of the topology, from that shard's own stanza. *)
Record covers (p : RestorePlan) : Prop := {
  cv_hash : tn_hash (rp_topology p) = "xxhash64_v1";
  cv_system : length (List.filter (fun s => bool_decide (sp_role s = "system")) (tn_shards (rp_topology p))) = 1%nat;
  cv_shards : List.map (fun x => (pl_shard x, pl_stanza x)) (rp_shards p) ≡ₚ
              List.map (fun s => (sp_name s, sp_stanza s)) (tn_shards (rp_topology p));
  cv_names : NoDup (List.map sp_name (tn_shards (rp_topology p)));
  cv_stanzas : NoDup (List.map sp_stanza (tn_shards (rp_topology p)));
  cv_set x : x ∈ rp_shards p -> pl_set x <> EmptyString;
  cv_value x : x ∈ rp_shards p -> pl_type x <> TypeTime -> value_empty (pl_value x) = false;
  cv_verify x : x ∈ rp_shards p -> pl_type x = TypeName -> pl_verify x <> EmptyString;
}.

(** What each kind of target makes of the catalog. *)
Inductive selected (c : BackupCatalog) (t : Target) (p : RestorePlan) : Prop :=
| sel_barrier bar : bar ∈ ct_barriers c -> tg_barrier t = bm_id bar -> rp_topology p ∈ ct_topologies c ->
    tn_generation (rp_topology p) = bm_generation bar ->
    Forall2 (fun s x => exists b, newest_set c (bs_stanza s) (bm_time bar) b /\
      x = mkShardPlan (bs_name s) (bs_stanza s) (bk_label b) TypeName (ValueText (bs_point s)) (timelineArg (bs_timeline s)) false (bs_lsn s))
      (bm_shards bar) (rp_shards p) -> selected c t p
| sel_time time : tg_time t = Some time -> in_force c time (rp_topology p) ->
    Forall2 (fun s x => exists b, newest_set c (sp_stanza s) time b /\
      x = mkShardPlan (sp_name s) (sp_stanza s) (bk_label b) TypeTime (ValueTime time) "latest" false EmptyString)
      (tn_shards (rp_topology p)) (rp_shards p) -> selected c t p
| sel_backup bu : bu ∈ ct_backups c -> (tg_backup t = bu_id bu \/ (tg_latest t = true /\ latest_backup c bu)) ->
    rp_topology p ∈ ct_topologies c -> tn_generation (rp_topology p) = bu_generation bu ->
    Forall2 (fun s x => bk_stop_lsn s <> EmptyString /\
      x = mkShardPlan (bk_name s) (bk_stanza s) (bk_label s) TypeLSN (ValueText (bk_stop_lsn s)) (timelineArg (bk_timeline s)) true (bk_stop_lsn s))
      (bu_shards bu) (rp_shards p) -> selected c t p.

(** ** Lemmas *)

Lemma first_dup_None {A} `{EqDecision A} (seen l : list A) : first_dup seen l = None <-> NoDup l /\ forall x, x ∈ l -> x ∉ seen.
Proof.
  revert seen. induction l as [|y l IH]; intros seen; cbn [first_dup].
  { split; [|done]. intros _. split; [constructor|by intros x ?%elem_of_nil]. }
  case_bool_decide as Hy.
  - split; [done|]. intros [_ Hn]. exfalso. apply (Hn y); [by apply elem_of_cons; left|done].
  - rewrite IH, NoDup_cons. split.
    + intros [Hnd Hn]. split_and!; [|done|].
      * intros Hin. apply (Hn y Hin). by apply elem_of_cons; left.
      * intros x [->|Hx]%elem_of_cons; [done|]. intros Hs. apply (Hn x Hx). by apply elem_of_cons; right.
    + intros [[Hni Hnd] Hn]. split; [done|]. intros x Hx [->|Hs]%elem_of_cons; [done|].
      apply (Hn x); [by apply elem_of_cons; right|done].
Qed.

(** *** A fold that keeps the best eligible element *)

Section best.
Context {A K : Type} (elig : A -> bool) (better : A -> A -> bool) (key : A -> K) (cmpk : K -> K -> comparison).
Hypothesis Hord : Ordered cmpk.
Hypothesis Hbetter : forall x c, better x c = match cmpk (key x) (key c) with Gt => true | _ => false end.

Definition best_turn (best : option A) (x : A) : option A :=
  if elig x then match best with None => Some x | Some c => if better x c then Some x else best end else best.

#[local] Abbreviation upto := (fun x m => le_of (fun a b => cmpk (key a) (key b)) x m = true).

Lemma upto_refl x : upto x x.
Proof using Hord. unfold le_of. by rewrite (proj2 (cmp_eq _ Hord _ _) eq_refl). Qed.

Lemma upto_trans x y z : upto x y -> upto y z -> upto x z.
Proof using Hord. by apply (le_of_trans key cmpk). Qed.

Lemma better_false x c : better x c = false <-> upto x c.
Proof using Hbetter. rewrite Hbetter. unfold le_of. by destruct (cmpk (key x) (key c)). Qed.

Lemma better_true x c : better x c = true -> upto c x.
Proof using Hord Hbetter. rewrite Hbetter. unfold le_of. rewrite (cmp_antisym _ Hord (key c)). by destruct (cmpk (key x) (key c)). Qed.

Lemma best_foldl l : forall b, match foldl best_turn b l with
  | Some m => (b = Some m \/ (m ∈ l /\ elig m = true)) /\ (forall x, x ∈ l -> elig x = true -> upto x m) /\ (forall c, b = Some c -> upto c m)
  | None => b = None /\ forall x, x ∈ l -> elig x = false
  end.
Proof using Hord Hbetter.
  induction l as [|y l IH]; intros b; cbn [foldl].
  { destruct b as [c|]; split_and!; auto; try (by intros x ?%elem_of_nil). intros c' [= ->]. apply upto_refl. }
  assert (Hstep : (elig y = true -> exists c, best_turn b y = Some c /\ upto y c /\ (b = Some c \/ c = y)) /\
    (elig y = false -> best_turn b y = b) /\ forall c, b = Some c -> exists c', best_turn b y = Some c' /\ upto c c').
  { unfold best_turn. destruct (elig y); (split_and!; [done || intros _|done || intros _|]).
    - destruct b as [c|]; [|exists y; split_and!; [done|apply upto_refl|by right]]. destruct (better y c) eqn:E.
      + exists y. split_and!; [done|apply upto_refl|by right].
      + exists c. split_and!; [done|by apply better_false|by left].
    - intros c ->. destruct (better y c) eqn:E; [exists y; split; [done|by apply better_true]|exists c; split; [done|apply upto_refl]].
    - intros c ->. exists c. split; [done|apply upto_refl]. }
  destruct Hstep as (He & Hn & Hb). specialize (IH (best_turn b y)). destruct (foldl best_turn (best_turn b y) l) as [m|].
  - destruct IH as (Hm & Hl & Hm'). split_and!.
    + destruct Hm as [Hm|[Hm Hme]]; [|right; split; [by apply elem_of_cons; right|done]]. destruct (elig y) eqn:E.
      * destruct (He eq_refl) as (c & Hc & _ & [Hbc| ->]); [left; congruence|]. assert (m = y) as -> by congruence.
        right. split; [by apply elem_of_cons; left|done].
      * rewrite Hn in Hm by done. by left.
    + intros x [->|Hx]%elem_of_cons Hxe; [|by apply Hl]. destruct (He Hxe) as (c & Hc & Hyc & _). eapply upto_trans; [exact Hyc|by apply Hm'].
    + intros c Hc. destruct (Hb c Hc) as (c' & Hc' & Hcc). eapply upto_trans; [exact Hcc|by apply Hm'].
  - destruct IH as [Hbt Hl]. destruct (elig y) eqn:E.
    + destruct (He eq_refl) as (c & Hc & _). congruence.
    + rewrite Hn in Hbt by done. split; [done|]. intros x [->|Hx]%elem_of_cons; [done|by apply Hl].
Qed.

(** The best is found, and is unique up to its key. *)
Lemma best_Some l m : foldl best_turn None l = Some m ->
  m ∈ l /\ elig m = true /\ forall x, x ∈ l -> elig x = true -> key x = key m \/ cmpk (key x) (key m) = Lt.
Proof using Hord Hbetter.
  intros Hf. pose proof (best_foldl l None) as H. rewrite Hf in H. destruct H as ([|[Hm He]] & Hl & _); [done|].
  split_and!; [done|done|]. intros x Hx Hxe. specialize (Hl x Hx Hxe). unfold le_of in Hl.
  destruct (cmpk (key x) (key m)) eqn:E; [left; by apply (cmp_eq _ Hord)|by right|done].
Qed.

Lemma best_None l : foldl best_turn None l = None -> forall x, x ∈ l -> elig x = false.
Proof using Hord Hbetter. intros Hf. pose proof (best_foldl l None) as H. rewrite Hf in H. by destruct H. Qed.

(** In any order of the input, when eligible elements with equal keys are equal. *)
Lemma best_perm l k : l ≡ₚ k -> (forall x y, x ∈ l -> y ∈ l -> elig x = true -> elig y = true -> key x = key y -> x = y) ->
  foldl best_turn None l = foldl best_turn None k.
Proof using Hord Hbetter.
  intros Hp Huniq. destruct (foldl best_turn None l) as [m|] eqn:El, (foldl best_turn None k) as [m'|] eqn:Ek; [| | |done].
  - apply best_Some in El as (Hm & He & Hl), Ek as (Hm' & He' & Hk). rewrite <- Hp in Hm'.
    assert (Hkm : forall x, x ∈ l -> elig x = true -> key x = key m' \/ cmpk (key x) (key m') = Lt).
    { intros x Hx. apply Hk. by rewrite <- Hp. }
    f_equal. apply Huniq; [done..|]. destruct (Hkm m Hm He) as [|Hlt]; [done|]. destruct (Hl m' Hm' He') as [|Hlt']; [done|].
    rewrite (cmp_antisym _ Hord), Hlt' in Hlt. done.
  - apply best_Some in El as (Hm & He & _). rewrite Hp in Hm. rewrite (best_None k Ek m Hm) in He. done.
  - apply best_Some in Ek as (Hm & He & _). rewrite <- Hp in Hm. rewrite (best_None l El m' Hm) in He. done.
Qed.
End best.

(** *** The lookups *)

Lemma Z_gtb_cmp a b : (a >? b) = match Z.compare a b with Gt => true | _ => false end.
Proof. unfold Z.gtb. by destruct (Z.compare a b). Qed.

Lemma later_snapshot_cmp s c : later_snapshot s c =
  match pair_cmp Z.compare Z.compare (tn_valid_from s, tn_generation s) (tn_valid_from c, tn_generation c) with Gt => true | _ => false end.
Proof.
  unfold later_snapshot, pair_cmp. cbn [fst snd]. rewrite !Z_gtb_cmp. destruct (Z.compare_spec (tn_valid_from s) (tn_valid_from c)) as [E|E|E].
  - rewrite E, Z.eqb_refl. done.
  - replace (_ =? _) with false by lia. done.
  - done.
Qed.

Definition committed_by (t : Z) (s : TopologySnapshot) : bool := negb (tn_valid_from s >? t).
Definition snapshot_key (s : TopologySnapshot) : Z * Z := (tn_valid_from s, tn_generation s).

Lemma foldl_turns {A B} (f g : B -> A -> B) l : (forall b x, f b x = g b x) -> forall b, foldl f b l = foldl g b l.
Proof. intros Hfg. induction l as [|x l IH]; intros b; cbn [foldl]; [done|]. by rewrite Hfg, IH. Qed.

Lemma topology_best t l : foldl (topology_turn t) None l = foldl (best_turn (committed_by t) later_snapshot) None l.
Proof. apply foldl_turns. intros b s. unfold topology_turn, best_turn, committed_by. by destruct (_ >? t). Qed.

Lemma topologyAt_spec c t s : NoDup (List.map tn_generation (ct_topologies c)) -> topologyAt c t = Ok s -> in_force c t s.
Proof.
  intros Hnd. unfold topologyAt. rewrite topology_best. destruct (foldl _ _ _) as [m|] eqn:Ef; [|done]. intros [= <-].
  apply (best_Some _ _ snapshot_key _ (pair_ordered _ _ Z_ordered Z_ordered) later_snapshot_cmp) in Ef as (Hm & He & Hl).
  unfold committed_by in *. split_and!; [done|lia|]. intros s' Hs' Ht. destruct (Hl s' Hs') as [Hk|Hk]; [lia| |].
  - left. unfold snapshot_key in Hk. injection Hk as Hv Hg. by eapply (NoDup_fmap_inj tn_generation).
  - right. unfold pair_cmp, snapshot_key in Hk. cbn [fst snd] in Hk. destruct (Z.compare_spec (tn_valid_from s') (tn_valid_from m)); [right|by left|done].
    split; [done|by apply Z.compare_lt_iff].
Qed.

Definition set_eligible (stanza : string) (t : Z) (s : BackupShard) : bool := bool_decide (bk_stanza s = stanza) && negb (bk_stop_time s >? t).
Definition set_better (s b : BackupShard) : bool := bk_stop_time s >? bk_stop_time b.

Lemma set_better_cmp s b : set_better s b = match Z.compare (bk_stop_time s) (bk_stop_time b) with Gt => true | _ => false end.
Proof. apply Z_gtb_cmp. Qed.

Lemma newest_best c stanza t : newestBackupBefore c stanza t = foldl (best_turn (set_eligible stanza t) set_better) None (all_sets c).
Proof.
  apply foldl_turns. intros b s. unfold backup_turn, best_turn, set_eligible. by destruct (bool_decide _), (_ >? t).
Qed.

Lemma newest_spec c stanza t b : newestBackupBefore c stanza t = Some b -> newest_set c stanza t b.
Proof.
  rewrite newest_best. intros Hf. apply (best_Some _ _ bk_stop_time Z.compare Z_ordered set_better_cmp) in Hf as (Hm & He & Hl).
  unfold set_eligible in *. apply andb_true_iff in He as [Hs%bool_decide_eq_true Ht]. split_and!; [done|done|lia|].
  intros b' Hb' Hs' Ht'. assert (Hel : bool_decide (bk_stanza b' = stanza) && negb (bk_stop_time b' >? t) = true).
  { rewrite bool_decide_true by done. cbn. lia. }
  destruct (Hl b' Hb' Hel) as [Hk|Hk]; [lia|]. change (bk_stop_time b' < bk_stop_time b) in Hk. lia.
Qed.

(** *** The checks *)

Lemma check_shards_spec l n : check_shards l = Ok n -> n = length (List.filter (fun s => bool_decide (sp_role s = "system")) l).
Proof.
  revert n. induction l as [|sh l IH]; intros n; cbn [check_shards List.filter]; [by intros [= <-]|].
  destruct (negb (known_role _)); [done|]. destruct (negb (known_state _)); [done|]. destruct (check_shards l) as [k|]; [|done]. cbn. intros [= <-].
  rewrite (IH k) by done. by case_bool_decide.
Qed.

Lemma complete_spec s : snapshotComplete s = Ok tt -> tn_hash s = "xxhash64_v1" /\
  length (List.filter (fun s => bool_decide (sp_role s = "system")) (tn_shards s)) = 1%nat.
Proof.
  unfold snapshotComplete. case_bool_decide as Hh; cbn [negb]; [|done]. destruct (check_shards _) as [n|] eqn:En; [|done]. cbn.
  destruct (n =? 1)%nat eqn:E1; cbn [negb]; [|done]. intros _. apply check_shards_spec in En as <-. split; [done|by apply Nat.eqb_eq].
Qed.

Lemma check_stanzas_spec l : forall seen, check_stanzas seen l = Ok tt ->
  NoDup (List.map sp_name l) /\ NoDup (List.map sp_stanza l) /\
  forall s o, s ∈ l -> o ∈ seen -> sp_name s <> sp_name o /\ sp_stanza s <> sp_stanza o.
Proof.
  induction l as [|s l IH]; intros seen; cbn [check_stanzas List.map].
  { intros _. split_and!; [constructor|constructor|by intros ? ? ?%elem_of_nil]. }
  destruct (str_is_empty _); [done|]. destruct (existsb _ seen) eqn:Ex; [done|]. destruct (find_first _ seen) eqn:Ef; [done|].
  intros (Hn & Hs & Hd)%IH. rewrite <- not_true_iff_false, existsb_spec in Ex. apply find_first_None in Ef. rewrite Forall_forall in Ef.
  assert (Hlater : forall o, o ∈ l -> sp_name o <> sp_name s /\ sp_stanza o <> sp_stanza s).
  { intros o Ho. apply Hd; [done|by apply elem_of_cons; left]. }
  rewrite !NoDup_cons. split_and!; try done.
  - intros (o & Ho & Hin)%list_elem_of_fmap. destruct (Hlater o Hin). congruence.
  - intros (o & Ho & Hin)%list_elem_of_fmap. destruct (Hlater o Hin). congruence.
  - intros x o [->|Hx]%elem_of_cons Ho; [|apply Hd; [done|by apply elem_of_cons; right]]. split.
    + intros He. apply Ex. exists o. split; [done|by apply bool_decide_eq_true].
    + intros He. specialize (Ef o Ho). by apply bool_decide_eq_false in Ef.
Qed.

Definition plan_ok (topology : list ShardTopology) (p : ShardPlan) : Prop :=
  (exists s, s ∈ topology /\ sp_name s = pl_shard p /\ sp_stanza s = pl_stanza p) /\ pl_set p <> EmptyString /\
  (pl_type p <> TypeTime -> value_empty (pl_value p) = false) /\ (pl_type p = TypeName -> pl_verify p <> EmptyString).

Lemma check_plan_spec topology done_ p : check_plan topology done_ p = Ok tt -> plan_ok topology p /\ pl_shard p ∉ done_.
Proof.
  unfold check_plan. destruct (find_first _ _) as [s|] eqn:Ef; [|done]. apply find_first_Some in Ef as [Hs Hn%bool_decide_eq_true].
  case_bool_decide as Hd; [done|]. case_bool_decide as Hst; cbn [negb]; [|done]. destruct (str_is_empty (pl_set p)) eqn:Es; [done|].
  destruct (needs_value _ && _) eqn:Ev; [done|]. destruct (match pl_type p with TypeName => _ | _ => _ end) eqn:Evf; [done|]. intros _.
  split; [|done]. split_and!; [by exists s| | |].
  - intros He. by rewrite He in Es.
  - intros Ht. destruct (pl_type p); [done|by destruct Ht|done].
  - intros Ht He. rewrite Ht, He in Evf. done.
Qed.

Lemma check_plans_spec topology l : forall seen out, check_plans topology seen l = Ok out ->
  (forall p, p ∈ l -> plan_ok topology p) /\ NoDup (List.map pl_shard l) /\ (forall p, p ∈ l -> pl_shard p ∉ seen) /\
  forall n, n ∈ out <-> n ∈ seen \/ n ∈ List.map pl_shard l.
Proof.
  induction l as [|p l IH]; intros seen out; cbn [check_plans List.map].
  { intros [= <-]. split_and!; [by intros ? ?%elem_of_nil|constructor|by intros ? ?%elem_of_nil|]. intros n. rewrite elem_of_nil. tauto. }
  destruct (check_plan topology seen p) as [[]|] eqn:Ep; [|done]. cbn. intros (Hok & Hnd & Hf & Hout)%IH.
  apply check_plan_spec in Ep as [Hp Hns]. split_and!.
  - intros q [->|Hq]%elem_of_cons; [done|by apply Hok].
  - apply NoDup_cons. split; [|done]. intros (q & Hq & Hin)%list_elem_of_fmap. apply (Hf q Hin). rewrite <- Hq. by apply elem_of_cons; left.
  - intros q [->|Hq]%elem_of_cons; [done|]. intros Hin. apply (Hf q Hq). by apply elem_of_cons; right.
  - intros n. rewrite Hout, !elem_of_cons. tauto.
Qed.

Lemma sanity_covers p : sanity p = Ok tt -> covers p.
Proof.
  unfold sanity. destruct (snapshotComplete _) as [[]|] eqn:Ec; [|done]. cbn [mbind result_bind].
  destruct (negb (length _ =? length _)%nat) eqn:El; [done|]. destruct (check_stanzas _ _) as [[]|] eqn:Es; [|done]. cbn [mbind result_bind].
  destruct (check_plans _ _ _) as [out|] eqn:Ep; [|done]. cbn [mbind result_bind]. destruct (find_first _ _) eqn:Eu; [done|]. intros _.
  apply complete_spec in Ec as [Hh Hsys]. apply check_stanzas_spec in Es as (Hn & Hst & _). apply check_plans_spec in Ep as (Hok & Hnd & _ & Hout).
  apply find_first_None in Eu. rewrite Forall_forall in Eu. set (topology := tn_shards (rp_topology p)) in *.
  assert (Hall : forall s, s ∈ topology -> exists x, x ∈ rp_shards p /\ pl_shard x = sp_name s).
  { intros s Hs. specialize (Eu s Hs). apply negb_false_iff, bool_decide_eq_true, Hout in Eu as [?%elem_of_nil|(x & Hx & Hin)%list_elem_of_fmap]; [done|].
    by exists x. }
  split; try done.
  - apply NoDup_Permutation.
    + apply (NoDup_fmap_1 fst). rewrite <- list_fmap_compose. exact Hnd.
    + apply (NoDup_fmap_1 fst). rewrite <- list_fmap_compose. exact Hn.
    + intros [n st]. split.
      * intros (x & Hx & Hin)%list_elem_of_fmap. injection Hx as -> ->. destruct (Hok x Hin) as ((s & Hs & <- & <-) & _).
        apply (list_elem_of_fmap_2 (fun s => (sp_name s, sp_stanza s)) _ s Hs).
      * intros (s & Hs & Hin)%list_elem_of_fmap. injection Hs as -> ->. destruct (Hall s Hin) as (x & Hx & Hxn).
        destruct (Hok x Hx) as ((s' & Hs' & Hn' & Hst') & _). assert (s' = s) as ->.
        { eapply (NoDup_fmap_inj sp_name); [exact Hn|done|done|congruence]. }
        rewrite <- Hxn, Hst'. apply (list_elem_of_fmap_2 (fun x => (pl_shard x, pl_stanza x)) _ x Hx).
  - intros x Hx. apply (Hok x Hx).
  - intros x Hx. apply (Hok x Hx).
  - intros x Hx. apply (Hok x Hx).
Qed.

Lemma plan_all_Forall2 {A} (f : A -> result ResolveError ShardPlan) (P : A -> ShardPlan -> Prop) l ps :
  (forall x p, f x = Ok p -> P x p) -> plan_all f l = Ok ps -> Forall2 P l ps.
Proof.
  intros Hf. revert ps. induction l as [|x l IH]; intros ps; cbn [plan_all]; [by intros [= <-]; constructor|].
  destruct (f x) as [p|] eqn:Ep; [|done]. cbn. destruct (plan_all f l) as [ps'|]; [|done]. cbn. intros [= <-]. constructor; [by apply Hf|by apply IH].
Qed.

Lemma planned_spec {A} topology (f : A -> result ResolveError ShardPlan) (P : A -> ShardPlan -> Prop) l plan :
  (forall x p, f x = Ok p -> P x p) -> planned topology f l = Ok plan ->
  rp_topology plan = topology /\ Forall2 P l (rp_shards plan) /\ covers plan.
Proof.
  intros Hf. unfold planned. destruct (plan_all f l) as [ps|] eqn:Ep; [|done]. cbn [mbind result_bind].
  destruct (sanity _) as [[]|] eqn:Es; [|done]. cbn. intros [= <-]. split_and!; [done|by eapply plan_all_Forall2|by apply sanity_covers].
Qed.

Lemma validate_spec c : validate c = Ok tt <->
  NoDup (List.map bm_id (ct_barriers c)) /\ NoDup (List.map bu_id (ct_backups c)) /\ NoDup (List.map tn_generation (ct_topologies c)).
Proof.
  unfold validate. assert (Hd : forall A `{EqDecision A} (l : list A), first_dup [] l = None <-> NoDup l).
  { intros. rewrite first_dup_None. split; [by intros [? _]|]. intros ?. split; [done|by intros ? _ ?%elem_of_nil]. }
  pose proof (Hd string _ (List.map bm_id (ct_barriers c))) as H1. pose proof (Hd string _ (List.map bu_id (ct_backups c))) as H2.
  pose proof (Hd Z _ (List.map tn_generation (ct_topologies c))) as H3. rewrite <- H1, <- H2, <- H3. clear H1 H2 H3. split.
  - destruct (first_dup [] (List.map bm_id _)); [done|]. destruct (first_dup [] (List.map bu_id _)); [done|]. destruct (first_dup [] (List.map tn_generation _)); [done|]. intros _. split_and!; reflexivity.
  - by intros (-> & -> & ->).
Qed.

Lemma generation_spec c g s : topologyByGeneration c g = Ok s -> s ∈ ct_topologies c /\ tn_generation s = g.
Proof.
  unfold topologyByGeneration. destruct (find_first _ _) eqn:E; [|done]. intros [= <-]. apply find_first_Some in E as [? ?]. split; [done|lia].
Qed.

Lemma later_backup_cmp x c : later_backup x c =
  match pair_cmp Z.compare String.compare (bu_completed x, bu_id x) (bu_completed c, bu_id c) with Gt => true | _ => false end.
Proof.
  unfold later_backup, pair_cmp. cbn [fst snd]. rewrite Z_gtb_cmp. destruct (Z.compare_spec (bu_completed x) (bu_completed c)) as [E|E|E].
  - by rewrite E, Z.eqb_refl.
  - by replace (_ =? _) with false by lia.
  - done.
Qed.

Lemma latest_best b l :
  Some (foldl (fun newest x => if later_backup x newest then x else newest) b l) = foldl (best_turn (fun _ => true) later_backup) None (b :: l).
Proof.
  cbn [foldl]. change (best_turn (fun _ => true) later_backup None b) with (Some b). revert b.
  induction l as [|x l IH]; intros b; [done|]. cbn [foldl]. unfold best_turn at 2. rewrite IH. by destruct (later_backup x b).
Qed.

Lemma latest_spec b l : NoDup (List.map bu_id (b :: l)) ->
  let m := foldl (fun newest x => if later_backup x newest then x else newest) b l in
  m ∈ b :: l /\ forall b', b' ∈ b :: l -> b' = m \/ bu_completed b' < bu_completed m \/
    (bu_completed b' = bu_completed m /\ String.compare (bu_id b') (bu_id m) = Lt).
Proof.
  intros Hnd. cbv zeta. pose proof (latest_best b l) as Hf. set (m := foldl _ b l) in *. symmetry in Hf.
  apply (best_Some _ _ (fun x => (bu_completed x, bu_id x)) _ (pair_ordered _ _ Z_ordered string_ordered) later_backup_cmp) in Hf as (Hm & _ & Hl).
  split; [done|]. intros b' Hb'. destruct (Hl b' Hb' eq_refl) as [Hk|Hk].
  - left. injection Hk as _ Hid. by eapply (NoDup_fmap_inj bu_id).
  - right. unfold pair_cmp in Hk. cbn [fst snd] in Hk. destruct (Z.compare_spec (bu_completed b') (bu_completed m)); [by right|by left|done].
Qed.

Lemma latest_backup_of c b l : ct_backups c = b :: l -> NoDup (List.map bu_id (ct_backups c)) ->
  latest_backup c (foldl (fun newest x => if later_backup x newest then x else newest) b l).
Proof. intros He Hnd. rewrite He in Hnd. unfold latest_backup. rewrite He. by apply latest_spec. Qed.

Lemma planFromBackup_spec c bu plan : planFromBackup c bu = Ok plan ->
  rp_topology plan ∈ ct_topologies c /\ tn_generation (rp_topology plan) = bu_generation bu /\ covers plan /\
  Forall2 (fun s x => bk_stop_lsn s <> EmptyString /\
    x = mkShardPlan (bk_name s) (bk_stanza s) (bk_label s) TypeLSN (ValueText (bk_stop_lsn s)) (timelineArg (bk_timeline s)) true (bk_stop_lsn s))
    (bu_shards bu) (rp_shards plan).
Proof.
  unfold planFromBackup. destruct (topologyByGeneration _ _) as [top|] eqn:Et; [|done]. cbn [mbind result_bind].
  intros Hp. apply (planned_spec _ _ (fun s x => bk_stop_lsn s <> EmptyString /\
    x = mkShardPlan (bk_name s) (bk_stanza s) (bk_label s) TypeLSN (ValueText (bk_stop_lsn s)) (timelineArg (bk_timeline s)) true (bk_stop_lsn s)))
    in Hp as (-> & Hf & Hc).
  - apply generation_spec in Et as [? ?]. split_and!; done.
  - intros s x. unfold backup_plan. destruct (str_is_empty (bk_stop_lsn s)) eqn:E; [done|]. intros [= <-]. split; [|done].
    intros He. by rewrite He in E.
Qed.

Lemma resolve_selected c t plan : Resolve c t = Ok plan -> covers plan /\ selected c t plan.
Proof.
  unfold Resolve. destruct (negb (selectors t =? 1)%nat) eqn:Esel; [done|]. destruct (validate c) as [[]|] eqn:Ev; [|done]. cbn [mbind result_bind].
  apply validate_spec in Ev as (_ & Hbu & Htop). destruct (negb (str_is_empty (tg_barrier t))) eqn:Eb.
  { unfold resolveBarrier, findBarrier. destruct (find_first _ (ct_barriers c)) as [bar|] eqn:Ef; [|done]. cbn [ok_or mbind result_bind].
    apply find_first_Some in Ef as [Hbar Hid%bool_decide_eq_true]. destruct (topologyByGeneration _ _) as [top|] eqn:Et; [|done]. cbn [mbind result_bind].
    apply generation_spec in Et as [Hin Hg].
    intros Hp. eapply (planned_spec _ _ (fun s x => exists b, newest_set c (bs_stanza s) (bm_time bar) b /\ x = mkShardPlan (bs_name s) (bs_stanza s)
      (bk_label b) TypeName (ValueText (bs_point s)) (timelineArg (bs_timeline s)) false (bs_lsn s))) in Hp as (Ht & Hf & Hc).
    - split; [done|]. rewrite <- Ht in Hin, Hg. eapply sel_barrier; [exact Hbar|by symmetry|done|done|done].
    - intros s x. unfold barrier_plan. destruct (newestBackupBefore _ _ _) as [b|] eqn:En; [|done]. intros [= <-]. exists b.
      split; [by apply newest_spec|done]. }
  destruct (tg_time t) as [time|] eqn:Et.
  { unfold resolveTime. destruct (topologyAt c time) as [top|] eqn:Ea; [|done]. cbn [mbind result_bind]. apply topologyAt_spec in Ea; [|done].
    intros Hp. eapply (planned_spec _ _ (fun s x => exists b, newest_set c (sp_stanza s) time b /\ x = mkShardPlan (sp_name s) (sp_stanza s)
      (bk_label b) TypeTime (ValueTime time) "latest" false EmptyString)) in Hp as (Ht & Hf & Hc).
    - split; [done|]. rewrite <- Ht in Ea, Hf. by eapply sel_time.
    - intros s x. unfold time_plan. destruct (newestBackupBefore _ _ _) as [b|] eqn:En; [|done]. intros [= <-]. exists b.
      split; [by apply newest_spec|done]. }
  destruct (negb (str_is_empty (tg_backup t))) eqn:Ek.
  - unfold resolveBackup, findBackup. destruct (find_first _ (ct_backups c)) as [bu|] eqn:Ef; [|done]. cbn [ok_or mbind result_bind].
    apply find_first_Some in Ef as [Hin Hid%bool_decide_eq_true]. intros (H1 & H2 & H3 & H4)%planFromBackup_spec. split; [done|].
    eapply sel_backup; [exact Hin|by left|done..].
  - unfold resolveLatest. destruct (ct_backups c) as [|b l] eqn:El; [done|]. intros (H1 & H2 & H3 & H4)%planFromBackup_spec. split; [done|].
    pose proof (latest_backup_of c b l El) as Hlat. rewrite El in Hlat. specialize (Hlat Hbu).
    eapply sel_backup; [apply Hlat|right; split; [|exact Hlat]|done..].
    unfold selectors in Esel. rewrite Et in Esel. destruct (str_is_empty (tg_barrier t)), (str_is_empty (tg_backup t)); try done. by destruct (tg_latest t).
Qed.

(** *** The order of the catalog *)

(** Two orders of the same manifests. *)
Definition reordered (c c' : BackupCatalog) : Prop :=
  ct_topologies c ≡ₚ ct_topologies c' /\ ct_barriers c ≡ₚ ct_barriers c' /\ ct_backups c ≡ₚ ct_backups c'.

(** Sets of one stanza that stopped at the same instant are the same set. *)
Definition distinct_stops (c : BackupCatalog) : Prop :=
  forall b b', b ∈ all_sets c -> b' ∈ all_sets c -> bk_stanza b = bk_stanza b' -> bk_stop_time b = bk_stop_time b' -> b = b'.

Lemma find_first_perm {A K} (key : A -> K) (p : A -> bool) l k : NoDup (List.map key l) -> l ≡ₚ k ->
  (forall x y, p x = true -> p y = true -> key x = key y) -> find_first p l = find_first p k.
Proof.
  intros Hnd Hp Hkey. destruct (find_first p l) as [x|] eqn:El, (find_first p k) as [y|] eqn:Ek; [| | |done].
  - apply find_first_Some in El as [Hx Hpx], Ek as [Hy Hpy]. rewrite <- Hp in Hy. f_equal. eapply (NoDup_fmap_inj key); [exact Hnd|done|done|by apply Hkey].
  - apply find_first_Some in El as [Hx Hpx]. apply find_first_None in Ek. rewrite Forall_forall in Ek. rewrite Hp in Hx. by rewrite (Ek x Hx) in Hpx.
  - apply find_first_Some in Ek as [Hx Hpx]. apply find_first_None in El. rewrite Forall_forall in El. rewrite <- Hp in Hx. by rewrite (El y Hx) in Hpx.
Qed.

Lemma newest_perm c c' stanza t : reordered c c' -> distinct_stops c -> newestBackupBefore c stanza t = newestBackupBefore c' stanza t.
Proof.
  intros (_ & _ & Hb) Hd. rewrite !newest_best. apply (best_perm _ _ bk_stop_time Z.compare Z_ordered set_better_cmp).
  - unfold all_sets. by rewrite Hb.
  - intros x y Hx Hy Hex Hey Hk. unfold set_eligible in *. apply andb_true_iff in Hex as [Hex%bool_decide_eq_true _], Hey as [Hey%bool_decide_eq_true _].
    apply Hd; [done|done|congruence|done].
Qed.

Lemma topologyAt_perm c c' t : reordered c c' -> NoDup (List.map tn_generation (ct_topologies c)) -> topologyAt c t = topologyAt c' t.
Proof.
  intros (Ht & _) Hnd. unfold topologyAt. rewrite !topology_best. f_equal.
  apply (best_perm _ _ snapshot_key _ (pair_ordered _ _ Z_ordered Z_ordered) later_snapshot_cmp); [done|].
  intros x y Hx Hy _ _ [= _ Hg]. by eapply (NoDup_fmap_inj tn_generation).
Qed.

Lemma plan_all_ext {A} (f g : A -> result ResolveError ShardPlan) l : (forall x, f x = g x) -> plan_all f l = plan_all g l.
Proof. intros Hfg. induction l as [|x l IH]; [done|]. cbn [plan_all]. by rewrite Hfg, IH. Qed.

Lemma planned_ext {A} topology (f g : A -> result ResolveError ShardPlan) l : (forall x, f x = g x) -> planned topology f l = planned topology g l.
Proof. intros Hfg. unfold planned. by rewrite (plan_all_ext f g l Hfg). Qed.

Lemma latest_perm c c' : reordered c c' -> NoDup (List.map bu_id (ct_backups c)) ->
  (forall bu, planFromBackup c bu = planFromBackup c' bu) -> resolveLatest c = resolveLatest c'.
Proof.
  intros (_ & _ & Hb) Hnd Hplan. unfold resolveLatest. destruct (ct_backups c) as [|b l] eqn:El, (ct_backups c') as [|b' l'] eqn:Er; [done| | |].
  - by apply Permutation_nil_l in Hb.
  - by apply Permutation_nil_r in Hb.
  - rewrite Hplan. f_equal. apply (inj Some). rewrite !latest_best.
    apply (best_perm _ _ (fun x => (bu_completed x, bu_id x)) _ (pair_ordered _ _ Z_ordered string_ordered) later_backup_cmp); [done|].
    intros x y Hx Hy _ _ [= _ Hid]. by eapply (NoDup_fmap_inj bu_id).
Qed.

(** *** When a time can be restored *)

Lemma in_force_unique c t s s' : in_force c t s -> in_force c t s' -> s = s'.
Proof.
  intros (Hs & Ht & Hl) (Hs' & Ht' & Hl'). destruct (Hl s' Hs' Ht') as [|H1]; [done|]. destruct (Hl' s Hs Ht) as [|H2]; [done|]. lia.
Qed.

Lemma topologyAt_complete c t s : NoDup (List.map tn_generation (ct_topologies c)) -> in_force c t s -> topologyAt c t = Ok s.
Proof.
  intros Hnd Hin. destruct (topologyAt c t) as [s'|e] eqn:E.
  - f_equal. eapply in_force_unique; [by apply topologyAt_spec|done].
  - exfalso. unfold topologyAt in E. rewrite topology_best in E. destruct (foldl _ _ _) eqn:Ef; [done|]. destruct Hin as (Hs & Ht & _).
    pose proof (best_None _ _ snapshot_key _ (pair_ordered _ _ Z_ordered Z_ordered) later_snapshot_cmp _ Ef s Hs) as Hc. unfold committed_by in Hc. lia.
Qed.

Lemma newest_complete c stanza t b : b ∈ all_sets c -> bk_stanza b = stanza -> bk_stop_time b <= t ->
  exists m, newestBackupBefore c stanza t = Some m /\ m ∈ all_sets c.
Proof.
  intros Hb Hs Ht. destruct (newestBackupBefore c stanza t) as [m|] eqn:E.
  - exists m. split; [done|]. by apply newest_spec in E as [? _].
  - exfalso. rewrite newest_best in E. pose proof (best_None _ _ bk_stop_time _ Z_ordered set_better_cmp _ E b Hb) as Hc.
    unfold set_eligible in Hc. rewrite bool_decide_true in Hc by done. cbn in Hc. lia.
Qed.

Lemma check_stanzas_complete l : forall seen, NoDup (List.map sp_name l) -> NoDup (List.map sp_stanza l) ->
  (forall s, s ∈ l -> sp_stanza s <> EmptyString) ->
  (forall s o, s ∈ l -> o ∈ seen -> sp_name s <> sp_name o /\ sp_stanza s <> sp_stanza o) -> check_stanzas seen l = Ok tt.
Proof.
  induction l as [|s l IH]; intros seen Hn Hst Hne Hd; [done|]. cbn [check_stanzas List.map] in *.
  apply NoDup_cons in Hn as [Hni Hn], Hst as [Hsi Hst]. assert (Hs : s ∈ s :: l) by by apply elem_of_cons; left.
  destruct (str_is_empty (sp_stanza s)) eqn:E; [exfalso; by apply (Hne s Hs), str_is_empty_spec|].
  destruct (existsb _ seen) eqn:Ex.
  { apply existsb_spec in Ex as (o & Ho & Hoe%bool_decide_eq_true). exfalso. by destruct (Hd s o Hs Ho) as [[] _]. }
  destruct (find_first _ seen) as [o|] eqn:Ef.
  { apply find_first_Some in Ef as [Ho Hoe%bool_decide_eq_true]. exfalso. by destruct (Hd s o Hs Ho) as [_ []]. }
  apply IH; [done|done|intros x Hx; apply Hne; by apply elem_of_cons; right|]. intros x o Hx [->|Ho]%elem_of_cons.
  - split; intros He; [apply Hni|apply Hsi]; rewrite <- He; by apply list_elem_of_fmap_2.
  - apply Hd; [by apply elem_of_cons; right|done].
Qed.

Lemma check_plans_complete topology l : forall seen, (forall p, p ∈ l -> plan_ok topology p) -> NoDup (List.map sp_name topology) ->
  NoDup (List.map pl_shard l) -> (forall p, p ∈ l -> pl_shard p ∉ seen) -> exists out, check_plans topology seen l = Ok out.
Proof.
  induction l as [|p l IH]; intros seen Hok Hn Hnd Hf; [by eexists|]. cbn [check_plans List.map] in *. apply NoDup_cons in Hnd as [Hni Hnd].
  assert (Hp : p ∈ p :: l) by by apply elem_of_cons; left. destruct (Hok p Hp) as ((s & Hs & Hsn & Hst) & Hset & Hval & Hver).
  assert (check_plan topology seen p = Ok tt) as ->.
  { unfold check_plan. destruct (find_first _ _) as [s'|] eqn:Ef.
    - apply find_first_Some in Ef as [Hs' Hn'%bool_decide_eq_true]. assert (s' = s) as -> by (eapply (NoDup_fmap_inj sp_name); [exact Hn|done|done|congruence]).
      rewrite bool_decide_false by by apply Hf. rewrite bool_decide_true by done. cbn [negb].
      destruct (str_is_empty (pl_set p)) eqn:Ese; [by apply str_is_empty_spec in Ese|].
      destruct (pl_type p); cbn [needs_value andb]; rewrite ?Hval by done; [|done|done].
      destruct (str_is_empty (pl_verify p)) eqn:Eve; [exfalso; by apply Hver, str_is_empty_spec|done].
    - apply find_first_None in Ef. rewrite Forall_forall in Ef. specialize (Ef s Hs). by apply bool_decide_eq_false in Ef. }
  cbn [mbind result_bind]. apply IH; [intros q Hq; apply Hok; by apply elem_of_cons; right|done|done|].
  intros q Hq [He|Hin]%elem_of_cons; [apply Hni; rewrite <- He; by apply list_elem_of_fmap_2|]. eapply Hf; [by apply elem_of_cons; right|done].
Qed.

Lemma time_plans c t shards : (forall s, s ∈ shards -> exists b, b ∈ all_sets c /\ bk_stanza b = sp_stanza s /\ bk_stop_time b <= t) ->
  (forall b, b ∈ all_sets c -> bk_label b <> EmptyString) ->
  exists ps, plan_all (time_plan c t) shards = Ok ps /\
    Forall2 (fun s p => pl_shard p = sp_name s /\ pl_stanza p = sp_stanza s /\ pl_set p <> EmptyString /\ pl_type p = TypeTime) shards ps.
Proof.
  intros Hb Hl. induction shards as [|s shards IH]; [exists []; by split|]. cbn [plan_all].
  destruct IH as (ps & Hps & Hf); [intros s' Hs'; apply Hb; by apply elem_of_cons; right|].
  destruct (Hb s) as (b & Hin & Hst & Ht); [by apply elem_of_cons; left|]. destruct (newest_complete c (sp_stanza s) t b Hin Hst Ht) as (m & Hm & Hmin).
  pose proof (eq_refl : time_plan c t s = time_plan c t s) as Hp. unfold time_plan in Hp at 2. rewrite Hm in Hp. rewrite Hp.
  cbn [mbind result_bind]. rewrite Hps. eexists. split; [done|]. constructor; [|done]. split_and!; try done. by apply Hl.
Qed.

Lemma Forall2_fmap_eq {A B C} (f : A -> C) (g : B -> C) l k : Forall2 (fun x y => g y = f x) l k -> List.map g k = List.map f l.
Proof. induction 1 as [|x y l k Hxy _ IH]; [done|]. cbn. by rewrite Hxy, IH. Qed.

Lemma sanity_time topology ps : snapshotComplete topology = Ok tt ->
  NoDup (List.map sp_name (tn_shards topology)) -> NoDup (List.map sp_stanza (tn_shards topology)) ->
  (forall s, s ∈ tn_shards topology -> sp_stanza s <> EmptyString) ->
  Forall2 (fun s p => pl_shard p = sp_name s /\ pl_stanza p = sp_stanza s /\ pl_set p <> EmptyString /\ pl_type p = TypeTime) (tn_shards topology) ps ->
  sanity (mkPlan topology ps) = Ok tt.
Proof.
  intros Hc Hn Hst Hne Hf. assert (Hmap : List.map pl_shard ps = List.map sp_name (tn_shards topology)).
  { apply Forall2_fmap_eq. eapply Forall2_impl; [exact Hf|]. by intros s p [? _]. }
  unfold sanity. cbn [rp_topology rp_shards]. rewrite Hc. cbn [mbind result_bind]. rewrite <- (Forall2_length _ _ _ Hf), Nat.eqb_refl. cbn [negb].
  rewrite check_stanzas_complete; [|done|done|done|by intros ? ? _ ?%elem_of_nil]. cbn [mbind result_bind].
  destruct (check_plans_complete (tn_shards topology) ps []) as [out Hout]; [|done|by rewrite Hmap|by intros ? _ ?%elem_of_nil|].
  { intros p Hp. apply list_elem_of_lookup in Hp as [i Hi]. destruct (Forall2_lookup_r _ _ _ _ _ Hf Hi) as (s & Hs & H1 & H2 & H3 & H4).
    split_and!; [|done|by rewrite H4|by rewrite H4]. exists s. split; [by eapply list_elem_of_lookup_2|by rewrite H1, H2]. }
  rewrite Hout. cbn [mbind result_bind]. apply check_plans_spec in Hout as (_ & _ & _ & Hin). destruct (find_first _ _) as [s|] eqn:Ef; [|done].
  exfalso. apply find_first_Some in Ef as [Hs Hb]. apply negb_true_iff, bool_decide_eq_false in Hb. apply Hb, Hin. right. rewrite Hmap. by apply list_elem_of_fmap_2.
Qed.

(** ** Theorems *)

(** C32: A restore target that resolves gives exactly one instruction for every shard of the
    topology in force at the target, each from that shard's own stanza and a named set,
    under the implemented hash function and with the one system shard; for a barrier or a
    time the set is the newest one of the stanza finished by then, and for a backup the
    sets it recorded, stopping exactly at the recorded position. *)
Theorem resolve_exact c t plan : Resolve c t = Ok plan -> covers plan /\ selected c t plan.
Proof. apply resolve_selected. Qed.

(** A plan does not depend on the order in which the manifests are listed, as long as no
    two sets of one stanza stopped at the same instant. *)
Theorem resolve_order_independent c c' t plan :
  reordered c c' -> distinct_stops c -> Resolve c t = Ok plan -> Resolve c' t = Ok plan.
Proof.
  intros Hr Hd. unfold Resolve. destruct (negb _); [done|]. destruct (validate c) as [[]|] eqn:Ev; [|done]. apply validate_spec in Ev as (Hba & Hbu & Hto).
  assert (validate c' = Ok tt) as ->.
  { apply validate_spec. destruct Hr as (H1 & H2 & H3). unfold List.map. rewrite <- H1, <- H2, <- H3. done. }
  cbn [mbind result_bind]. pose proof Hr as (Ht & Hb & Hk).
  assert (Hgen : forall g, topologyByGeneration c g = topologyByGeneration c' g).
  { intros g. unfold topologyByGeneration. f_equal. apply (find_first_perm tn_generation); [done|done|]. lia. }
  assert (Hplan : forall bu, planFromBackup c bu = planFromBackup c' bu) by (intros bu; unfold planFromBackup; by rewrite Hgen).
  destruct (negb (str_is_empty (tg_barrier t))).
  { unfold resolveBarrier, findBarrier. rewrite (find_first_perm bm_id _ _ (ct_barriers c')); [|done|done|].
    2:{ intros x y Hx%bool_decide_eq_true Hy%bool_decide_eq_true. congruence. }
    destruct (find_first _ _) as [bar|]; [|done]. cbn [ok_or mbind result_bind]. rewrite Hgen. destruct (topologyByGeneration c' _); [|done]. cbn [mbind result_bind].
    rewrite (planned_ext _ _ (barrier_plan c' (bm_time bar))); [done|]. intros s. unfold barrier_plan. by rewrite (newest_perm c c'). }
  destruct (tg_time t) as [time|].
  { unfold resolveTime. rewrite (topologyAt_perm c c') by done. destruct (topologyAt c' time); [|done]. cbn [mbind result_bind].
    rewrite (planned_ext _ _ (time_plan c' time)); [done|]. intros s. unfold time_plan. by rewrite (newest_perm c c'). }
  destruct (negb (str_is_empty (tg_backup t))); [|by rewrite (latest_perm c c')].
  unfold resolveBackup, findBackup. rewrite (find_first_perm bu_id _ _ (ct_backups c')); [|done|done|].
  2:{ intros x y Hx%bool_decide_eq_true Hy%bool_decide_eq_true. congruence. }
  destruct (find_first _ _) as [bu|]; [|done]. cbn [ok_or mbind result_bind]. by rewrite Hplan.
Qed.

(** A time restores whenever the catalog has what it needs: unique ids, a complete topology
    in force at that time with distinct shards and stanzas, and for each stanza some set
    finished by then. *)
Theorem time_restores c t s :
  validate c = Ok tt -> in_force c t s -> snapshotComplete s = Ok tt ->
  NoDup (List.map sp_name (tn_shards s)) -> NoDup (List.map sp_stanza (tn_shards s)) ->
  (forall sh, sh ∈ tn_shards s -> sp_stanza sh <> EmptyString /\ exists b, b ∈ all_sets c /\ bk_stanza b = sp_stanza sh /\ bk_stop_time b <= t) ->
  (forall b, b ∈ all_sets c -> bk_label b <> EmptyString) ->
  exists plan, Resolve c (mkTarget EmptyString (Some t) EmptyString false) = Ok plan /\ rp_topology plan = s.
Proof.
  intros Hv Hin Hc Hn Hst Hsh Hl. unfold Resolve. cbn [selectors tg_barrier tg_time tg_backup tg_latest str_is_empty Nat.add Nat.eqb negb].
  rewrite Hv. cbn [mbind result_bind]. unfold resolveTime. apply validate_spec in Hv as (_ & _ & Hg). rewrite (topologyAt_complete c t s) by done.
  cbn [mbind result_bind]. destruct (time_plans c t (tn_shards s)) as (ps & Hps & Hf); [intros sh Hs; by apply Hsh|done|].
  exists (mkPlan s ps). split; [|done]. unfold planned. rewrite Hps. cbn [mbind result_bind].
  rewrite sanity_time; [done|done|done|done| |done]. intros sh Hs. by apply Hsh.
Qed.

End unicode.

(** ** An example *)

(** A cluster that was split at instant 50, backed up before and after. *)
Module RestoreExample.

#[local] Instance ascii_catalog : GoUnicode := {| unicode_lower := fun s => s |}.

Definition sys : ShardTopology := mkShardTopology "sys" (mkKeyRangeRef EmptyString EmptyString) "st-sys" "system" "serving".
Definition shard (name lo hi : string) : ShardTopology := mkShardTopology name (mkKeyRangeRef lo hi) ("st-" +:+ name) "data" "serving".
Definition orders : TableTopology := mkTableTopology "public" "orders" "sharded" "id" "int" [].
Definition gen1 : TopologySnapshot := mkSnapshotT 1 10 1 "xxhash64_v1" [sys; shard "s0" EmptyString EmptyString] [orders].
Definition gen2 : TopologySnapshot := mkSnapshotT 2 50 2 "xxhash64_v1" [sys; shard "s1" EmptyString "80"; shard "s2" "80" EmptyString] [orders].

Definition set (name : string) (t : Z) : BackupShard := mkBackupShard name ("st-" +:+ name) (name +:+ "-full") "0/5000" 1 t.
Definition early : BackupManifest := mkBackup "bk-1" 30 1 1 [set "sys" 28; set "s0" 29].
Definition late : BackupManifest := mkBackup "bk-2" 70 2 2 [set "sys" 66; set "s1" 67; set "s2" 68].
Definition barrier : BarrierManifest :=
  mkBarrier "b-1" 40 1 1 [mkBarrierShard "sys" "st-sys" "0/7000" 1 "b-1"; mkBarrierShard "s0" "st-s0" "0/8000" 1 "b-1"].
Definition catalog : BackupCatalog := mkCatalog [gen1; gen2] [barrier] [early; late].
Definition listed : BackupCatalog := mkCatalog [gen2; gen1] [barrier] [late; early].

(** Just before the split the old layout is restored, from the sets of before. *)
Definition at45 : Target := mkTarget EmptyString (Some 45) EmptyString false.
Definition plan45 : RestorePlan :=
  mkPlan gen1 [mkShardPlan "sys" "st-sys" "sys-full" TypeTime (ValueTime 45) "latest" false EmptyString;
               mkShardPlan "s0" "st-s0" "s0-full" TypeTime (ValueTime 45) "latest" false EmptyString].

Lemma resolve_exact_witness : covers plan45 /\ selected catalog at45 plan45.
Proof. apply (resolve_exact catalog at45 plan45). vm_compute. reflexivity. Defined.

Lemma elem_of_all_sets (P : BackupShard -> Prop) : Forall P (all_sets catalog) -> forall b, b ∈ all_sets catalog -> P b.
Proof. intros Hf. by apply Forall_forall. Qed.

Lemma catalog_stops : distinct_stops catalog.
Proof.
  intros b b' Hb Hb' _ Ht. unfold all_sets, catalog in Hb, Hb'. cbn in Hb, Hb'.
  repeat (apply elem_of_cons in Hb as [->|Hb]); [..|by apply elem_of_nil in Hb];
    repeat (apply elem_of_cons in Hb' as [->|Hb']); try (by apply elem_of_nil in Hb'); first [reflexivity|discriminate Ht].
Qed.

Lemma resolve_order_independent_witness : Resolve listed at45 = Ok plan45.
Proof.
  apply (resolve_order_independent catalog listed at45 plan45); [|exact catalog_stops|vm_compute; reflexivity].
  split; [apply perm_swap|]. split; [done|apply perm_swap].
Defined.

Lemma in_force45 : in_force catalog 45 gen1.
Proof.
  split; [by apply elem_of_cons; left|]. split; [done|]. intros s Hs Ht.
  apply elem_of_cons in Hs as [->|Hs]; [by left|]. apply list_elem_of_singleton in Hs. subst s. cbn in Ht. lia.
Qed.

Lemma time_restores_witness : exists plan, Resolve catalog at45 = Ok plan /\ rp_topology plan = gen1.
Proof.
  apply (time_restores catalog 45 gen1); [vm_compute; reflexivity|exact in_force45|vm_compute; reflexivity| | | |].
  - apply (bool_decide_unpack _). vm_compute. exact I.
  - apply (bool_decide_unpack _). vm_compute. exact I.
  - intros sh Hsh. apply elem_of_cons in Hsh as [->|Hsh].
    + split; [done|]. exists (set "sys" 28). split; [by apply elem_of_cons; left|done].
    + apply list_elem_of_singleton in Hsh. subst sh. split; [done|]. exists (set "s0" 29). split; [|done]. apply elem_of_cons. right. by apply elem_of_cons; left.
  - apply elem_of_all_sets. repeat constructor; done.
Defined.

(** two sets of one stanza that stopped at the same instant are told apart by the order of
    the catalog: the same manifests in another order restore another set. *)
Definition twin (label : string) : BackupManifest := mkBackup ("bk-" +:+ label) 31 1 1 [mkBackupShard "s0" "st-s0" label "0/6000" 1 29].

Example simultaneous_sets_depend_on_order :
  option_map bk_label (newestBackupBefore (mkCatalog [] [] [twin "a"; twin "b"]) "st-s0" 40) = Some "a" /\
  option_map bk_label (newestBackupBefore (mkCatalog [] [] [twin "b"; twin "a"]) "st-s0" 40) = Some "b".
Proof. split; vm_compute; reflexivity. Qed.

End RestoreExample.
