(* ===== verification/Cutover.v ===== *)
(** * Cutover of a reshard

    [src/operator/internal/controller/reshard_cutover.go], the dispatch of
    pgshardreshard_controller.go, [resolveSource] and [foreignTarget] of reshard_seeding.go,
    and the gates of pgshardrouting_controller.go. A reconcile is a program of requests to
    the API server and the agents; any of them may fail, and the operator may stop between
    any two. Conditions and their messages are not modelled. *)

From S2P Require Import Prelude Rust Go Agent Keyspace ShardFn VSchema Catalog Topo Sql Extract Plan Router OpTopology OpRouting Service OpProg.

Open Scope Z_scope.

(** ** Objects *)

Inductive ReshardPhase :=
| Pending | Validating | ProvisioningTargets | Seeding | CatchingUp | ReadyToCutover | CuttingOver | SwitchedForward | ReshardFailed.

#[export] Instance ReshardPhase_eq_dec : EqDecision ReshardPhase.
Proof. solve_decision. Defined.

(** The status fields of the cutover; a zero position means not frozen. *)
Record ReshardStatus := mkReshardStatus {
  st_phase : ReshardPhase; st_targets : list string; st_deadline : option Z; st_observed : option Z;
  st_frozen : Z; st_attempt : Z; st_fenced : bool; st_committed : bool;
}.

Definition with_phase (p : ReshardPhase) (s : ReshardStatus) : ReshardStatus :=
  mkReshardStatus p (st_targets s) (st_deadline s) (st_observed s) (st_frozen s) (st_attempt s) (st_fenced s) (st_committed s).
Definition with_deadline (d : option Z) (s : ReshardStatus) : ReshardStatus :=
  mkReshardStatus (st_phase s) (st_targets s) d (st_observed s) (st_frozen s) (st_attempt s) (st_fenced s) (st_committed s).
Definition with_observed (o : option Z) (s : ReshardStatus) : ReshardStatus :=
  mkReshardStatus (st_phase s) (st_targets s) (st_deadline s) o (st_frozen s) (st_attempt s) (st_fenced s) (st_committed s).
Definition with_frozen (f : Z) (s : ReshardStatus) : ReshardStatus :=
  mkReshardStatus (st_phase s) (st_targets s) (st_deadline s) (st_observed s) f (st_attempt s) (st_fenced s) (st_committed s).
Definition with_attempt (a : Z) (s : ReshardStatus) : ReshardStatus :=
  mkReshardStatus (st_phase s) (st_targets s) (st_deadline s) (st_observed s) (st_frozen s) a (st_fenced s) (st_committed s).
Definition with_fenced (b : bool) (s : ReshardStatus) : ReshardStatus :=
  mkReshardStatus (st_phase s) (st_targets s) (st_deadline s) (st_observed s) (st_frozen s) (st_attempt s) b (st_committed s).
Definition with_committed (b : bool) (s : ReshardStatus) : ReshardStatus :=
  mkReshardStatus (st_phase s) (st_targets s) (st_deadline s) (st_observed s) (st_frozen s) (st_attempt s) (st_fenced s) b.

(** The reshard a reconcile works on: what no reconcile changes, and its finalizer. *)
Record Reshard := mkReshard {
  me_name : string; me_uid : string; me_cluster_uid : string; me_source_uid : string; me_cluster : string;
  me_ranges : list Bounds; me_finalizer : bool;
}.

(** A copy of the source shard, with its resource version. *)
Record Source := mkSource { so_version : nat; so_uid : string; so_claim : string; so_serving : bool; so_system : bool }.
Definition with_claim (c : string) (s : Source) : Source := mkSource (so_version s) (so_uid s) c (so_serving s) (so_system s).
Definition with_serving (b : bool) (s : Source) : Source := mkSource (so_version s) (so_uid s) (so_claim s) b (so_system s).

Record TargetShard := mkTargetShard { ta_owner : string; ta_cluster : string; ta_range : Bounds; ta_serving : bool; ta_system : bool }.

(** A primary pod, and whether the shard's database is verified on it. *)
Record Pod := mkPod { pod_uid : string; pod_verified : bool }.

Record JournalSuccessor := mkSuccessor { js_shard : string; js_range : GoRange }.

(** ** Requests *)

Inductive CutoverRequest : Type -> Type :=
| Now : CutoverRequest Z
| GetCluster : CutoverRequest (option string)
| GetSource : CutoverRequest (option Source)
| LiveSource : CutoverRequest Source
| LiveReshard : CutoverRequest (string * bool)
| GetRouting : CutoverRequest (option RoutingSpec)
| GetTarget (name : string) : CutoverRequest (option TargetShard)
| PrimaryOfSource : CutoverRequest (option Pod)
| PrimaryOfTarget (name : string) : CutoverRequest (option Pod)
| UpdateStatus (s : ReshardStatus) : CutoverRequest bool
| SetFinalizer (present : bool) : CutoverRequest bool
| UpdateSource (s : Source) : CutoverRequest (result bool Source)
| ServeTarget (name : string) : CutoverRequest bool
| FenceWrites (pod : string) (unfence : bool) : CutoverRequest (result Code unit)
| EmitJournal (pod : string) (id : string * Z) (successors : list JournalSuccessor) : CutoverRequest (result Code Z)
| WorkflowStatus (target pod id : string) : CutoverRequest (option (bool * Z)).

#[global] Abbreviation CutoverProg := (Prog CutoverRequest).

(** ** Names *)

Definition seed_char (c : ascii) : ascii := if is_ascii_alnum c || bool_decide (c = "_"%char) then c else "_"%char.
Definition seedIdent (name : string) : string := str_of (seed_char <$> bytes name).

Definition maxDatabaseNameBytes : nat := 63.
Definition seedSuffixReserve : nat := 5.

Definition seedPublication (me : Reshard) : string :=
  let uid := seedIdent (me_uid me) in
  let name := seedIdent (me_name me) in
  let max_name := (maxDatabaseNameBytes - 8 - 1 - str_len uid - seedSuffixReserve)%nat in
  "pgshard_" +:+ str_of (take max_name (bytes name)) +:+ "_" +:+ uid.

Definition seedWorkflowID (me : Reshard) (index : nat) : string :=
  seedPublication me +:+ "_t" +:+ str_of (fmt_i (Z.of_nat index)).

(** ** Pieces *)

Definition second : Z := 1000000000.
Definition cutoverGateWindow : Z := 120 * second.
Definition quiesceMargin : Z := 5 * second.

(** A stored time has whole seconds. *)
Definition metav1_time (t : Z) : Z := t - t mod second.

Definition failed (s : ReshardStatus) : ReshardStatus := with_phase ReshardFailed s.

Section handlers.
Variable me : Reshard.

(** [None]: the shard cannot be reached at a verified primary. *)
Definition verified (p : option Pod) : option string :=
  match p with Some pod => if pod_verified pod then Some (pod_uid pod) else None | None => None end.

(** The pod is still the verified primary. *)
Definition confirms (p : option Pod) (uid : string) : bool := bool_decide (verified p = Some uid).

Definition foreignTarget (target : TargetShard) (range : option Bounds) : bool :=
  negb (bool_decide (ta_owner target = me_uid me)) || negb (bool_decide (ta_cluster target = me_cluster me)) ||
  negb (bool_decide (Some (ta_range target) = range)) || ta_serving target || ta_system target.

(** [resolveSource]: on the left the status to return with. *)
Definition resolveSource (s : ReshardStatus) : CutoverProg (ReshardStatus + Source) :=
  found ← req GetSource;
  match found with
  | None => Done (inl s)
  | Some source =>
      if str_is_empty (me_source_uid me) || negb (bool_decide (me_source_uid me = so_uid source)) then Done (inl (failed s))
      else if negb (so_serving source) then Done (inl (failed s))
      else if so_system source then Done (inl (failed s))
      else Done (inr source)
  end.

(** [claimSource]: whether this reshard holds the claim. *)
Definition claimSource (source : Source) : CutoverProg bool :=
  if bool_decide (so_claim source = me_name me) then Done true
  else if negb (str_is_empty (so_claim source)) then Done false
  else if negb (me_finalizer me) then _ ← must (SetFinalizer true); Done false
  else
    r ← req (UpdateSource (with_claim (me_name me) source));
    match r with
    | Ok _ => Done true
    | Err true => Done false
    | Err false => Stop
    end.

Definition update_source (s : Source) : CutoverProg Source :=
  r ← req (UpdateSource s);
  match r with Ok s' => Done s' | Err _ => Stop end.

Definition releaseSourceClaim (source : Source) : CutoverProg unit :=
  if negb (bool_decide (so_claim source = me_name me)) then Done tt
  else _ ← update_source (with_claim EmptyString source); Done tt.

Definition sourceForCleanup : CutoverProg (option Source) :=
  found ← req GetSource;
  match found with
  | None => Done None
  | Some source =>
      if negb (str_is_empty (me_source_uid me)) && negb (bool_decide (me_source_uid me = so_uid source)) then Done None
      else Done (Some source)
  end.

(** [unfenceSource]: [false] means hold and retry. *)
Definition unfenceSource : CutoverProg bool :=
  live ← req LiveSource;
  if negb (bool_decide (so_claim live = me_name me)) then Done true
  else
    reshard ← req LiveReshard;
    if negb (bool_decide (fst reshard = me_uid me)) || snd reshard then Done false
    else
      p ← req PrimaryOfSource;
      match verified p with
      | None => Done false
      | Some pod =>
          r ← req (FenceWrites pod true);
          match r with
          | Err _ => Done false
          | Ok _ => p' ← req PrimaryOfSource; Done (confirms p' pod)
          end
      end.

Definition failCutover (s : ReshardStatus) (source : option Source) : CutoverProg ReshardStatus :=
  match source with
  | Some source =>
      if st_committed s then Done (failed s)
      else if st_fenced s then
        ok ← unfenceSource;
        if negb ok then Done s
        else
          let s' := with_fenced false s in
          _ ← must (UpdateStatus s');
          _ ← releaseSourceClaim source;
          Done (failed s')
      else _ ← releaseSourceClaim source; Done (failed s)
  | None => Done (failed s)
  end.

(** The parts of the journal's id, [uid-attempt]; UIDs have one length, so the text
    determines them. *)
Definition journal_id (s : ReshardStatus) : string * Z := (me_uid me, st_attempt s).

Fixpoint successors_of (names : list string) (ranges : list Bounds) : result RangeError (list JournalSuccessor) :=
  match names, ranges with
  | name :: names', b :: ranges' =>
      range ← toRange b;
      rest ← successors_of names' ranges';
      Ok (mkSuccessor name range :: rest)
  | _, _ => Ok []
  end.

Definition rejects_freeze (c : Code) : bool := match c with InvalidArgument | FailedPrecondition => true | _ => false end.

Definition freezeSource (s : ReshardStatus) (source : Source) : CutoverProg ReshardStatus :=
  p ← req PrimaryOfSource;
  match verified p with
  | None => Done s
  | Some pod =>
      r ← req (FenceWrites pod false);
      match r with
      | Err InvalidArgument => failCutover s (Some source)
      | Err _ => Done s
      | Ok _ =>
          match successors_of (st_targets s) (me_ranges me) with
          | Err _ => failCutover s (Some source)
          | Ok successors =>
              r ← req (EmitJournal pod (journal_id s) successors);
              match r with
              | Err c => if rejects_freeze c then failCutover s (Some source) else Done s
              | Ok lsn =>
                  if lsn =? 0 then Done s
                  else
                    p' ← req PrimaryOfSource;
                    if confirms p' pod then Done (with_frozen (as_i64 lsn) s) else Done s
              end
          end
      end
  end.

(** Every target acknowledged; not yet; or held, with the status to return with. *)
Inductive Ack := Acked | NotYet | Held (s : ReshardStatus).


Fixpoint barrierAcknowledged (s : ReshardStatus) (source : Source) (i : nat) (targets : list string) : CutoverProg Ack :=
  match targets with
  | [] => Done Acked
  | name :: targets' =>
      found ← req (GetTarget name);
      match found with
      | None => Done (Held s)
      | Some target =>
          if foreignTarget target (me_ranges me !! i) then s' ← failCutover s (Some source); Done (Held s')
          else
            p ← req (PrimaryOfTarget name);
            match verified p with
            | None => Done (Held s)
            | Some pod =>
                status ← req (WorkflowStatus name pod (seedWorkflowID me i));
                match status with
                | None => Done (Held s)
                | Some (streaming, journal) =>
                    p' ← req (PrimaryOfTarget name);
                    if negb (confirms p' pod) then Done (Held s)
                    else if negb streaming then Done (Held s)
                    else if journal <? as_u64 (st_frozen s) then Done NotYet
                    else barrierAcknowledged s source (S i) targets'
                end
            end
      end
  end.

Definition rollBackCutover (s : ReshardStatus) : CutoverProg ReshardStatus :=
  let reset s := with_phase CatchingUp (with_attempt (st_attempt s + 1) (with_frozen 0 (with_observed None (with_deadline None s)))) in
  if st_fenced s && negb (st_committed s) then
    ok ← unfenceSource;
    if negb ok then Done s else Done (reset (with_fenced false s))
  else Done (reset s).

(** The state a compiled routing gives a shard; the last entry of a name counts. *)
Definition compiled_state (routing : RoutingSpec) (name : string) : option ShardState :=
  rsh_state <$> last (List.filter (fun x => bool_decide (rsh_name x = name)) (OpRouting.rp_shards routing)).

Definition switchedSetCompiled (routing : RoutingSpec) (source : string) (targets : list string) : bool :=
  bool_decide (compiled_state routing source = Some Hidden) &&
  forallb (fun t => bool_decide (compiled_state routing t = Some Serving)) targets.

Fixpoint serve_targets (names : list string) : CutoverProg unit :=
  match names with
  | [] => Done tt
  | name :: names' =>
      found ← req (GetTarget name);
      match found with
      | None => Stop
      | Some target => if ta_serving target then serve_targets names' else _ ← must (ServeTarget name); serve_targets names'
      end
  end.

(** [completeSwitch]; [source_name] is the source's name in the routing. *)
Definition completeSwitch (source_name : string) (s : ReshardStatus) (source : Source) : CutoverProg ReshardStatus :=
  _ ← serve_targets (st_targets s);
  source' ← (if so_serving source then update_source (with_serving false source) else Done source);
  routing ← req GetRouting;
  match routing with
  | None => Stop
  | Some routing =>
      if negb (switchedSetCompiled routing source_name (st_targets s)) then Done s
      else
        _ ← releaseSourceClaim source';
        Done (with_phase SwitchedForward (with_deadline None s))
  end.

Definition expired (now : Z) (deadline : option Z) : bool := match deadline with Some d => now >? d | None => false end.

Variable source_name : string.

Definition reconcileReadyToCutover (s : ReshardStatus) : CutoverProg ReshardStatus :=
  found ← resolveSource s;
  match found with
  | inl s' => Done s'
  | inr source =>
      claimed ← claimSource source;
      if negb claimed then Done s
      else now ← req Now; Done (with_phase CuttingOver (with_deadline (Some (metav1_time (now + cutoverGateWindow))) s))
  end.

(** Steps 1 and 2 of the cutover, on the routing: [inl] is the status to return with. *)
Definition quiesced (s : ReshardStatus) : CutoverProg (ReshardStatus + unit) :=
  routing ← req GetRouting;
  match routing with
  | None => Done (inl s)
  | Some routing =>
      if negb (existsb (fun g => bool_decide (rg_id g = "reshard-" +:+ me_name me)) (rp_gates routing)) then Done (inl s)
      else
        match st_observed s with
        | None => now ← req Now; Done (inl (with_observed (Some (metav1_time now)) s))
        | Some observed =>
            now ← req Now;
            if now <? observed + rp_write_lease routing * second + quiesceMargin then Done (inl s) else Done (inr tt)
        end
  end.

Definition reconcileCuttingOver (s : ReshardStatus) : CutoverProg ReshardStatus :=
  cluster ← req GetCluster;
  match cluster with
  | None => Done s
  | Some cluster_uid =>
      if negb (bool_decide (me_cluster_uid me = cluster_uid)) then src ← sourceForCleanup; failCutover s src
      else
        found ← req GetSource;
        match found with
        | None => Done s
        | Some source =>
            if negb (bool_decide (me_source_uid me = so_uid source)) then _ ← releaseSourceClaim source; Done (failed s)
            else if negb (length (st_targets s) =? length (me_ranges me))%nat then failCutover s (Some source)
            else if st_committed s then completeSwitch source_name s source
            else
              now ← req Now;
              if expired now (st_deadline s) then rollBackCutover s
              else
                q ← quiesced s;
                match q with
                | inl s' => Done s'
                | inr _ =>
                    if (st_frozen s =? 0) && negb (st_fenced s) then Done (with_fenced true s)
                    else if st_frozen s =? 0 then freezeSource s source
                    else
                      ack ← barrierAcknowledged s source 0 (st_targets s);
                      match ack with
                      | Held s' => Done s'
                      | NotYet => Done s
                      | Acked =>
                          now ← req Now;
                          if expired now (st_deadline s) then rollBackCutover s else Done (with_committed true s)
                      end
                end
        end
  end.

(** Nothing of the status computed here is stored beyond what it updates itself. *)
Definition cleanupCutoverClaim (s : ReshardStatus) : CutoverProg unit :=
  if negb (me_finalizer me) then Done tt
  else
    source ← sourceForCleanup;
    if st_committed s && match source with Some x => so_serving x | None => false end then
      match source with
      | Some x =>
          cluster ← req GetCluster;
          match cluster with None => Stop | Some _ => _ ← completeSwitch source_name s x; Done tt end
      | None => Done tt
      end
    else
      s1 ← (match st_deadline s with
            | Some _ => let s1 := with_deadline None s in _ ← must (UpdateStatus s1); Done s1
            | None => Done s
            end);
      ok ← (match source with
            | Some _ =>
                if st_fenced s1 && negb (st_committed s1) then
                  ok ← unfenceSource;
                  if negb ok then Done false else _ ← must (UpdateStatus (with_fenced false s1)); Done true
                else Done true
            | None => Done true
            end);
      if negb ok then Done tt
      else
        _ ← (match source with Some x => releaseSourceClaim x | None => Done tt end);
        must (SetFinalizer false).

(** [Reconcile] of the two cutover phases and of a deleted object. The handlers of the
    earlier phases are not modelled here; the later phases are left alone. The source skips
    the last write when the status and its conditions did not change; here it is a request
    that may fail without effect. *)
Definition Reconcile (deleted : bool) (s : ReshardStatus) : CutoverProg unit :=
  if deleted then cleanupCutoverClaim s
  else
    match st_phase s with
    | ReadyToCutover => s' ← reconcileReadyToCutover s; must (UpdateStatus s')
    | CuttingOver => s' ← reconcileCuttingOver s; must (UpdateStatus s')
    | _ => Done tt
    end.

End handlers.

(** ** The gates the routing carries *)

(** What [cutoverGates] reads of a reshard. *)
Record GateRequest := mkGateRequest {
  gr_name : string; gr_cluster : string; gr_source : string; gr_deadline : option Z; gr_committed : bool;
}.

Inductive GateError := UngatedSwitch (reshard : string) | NoSource (reshard : string).

(** The last shard of a name counts. *)
Definition shard_named (shards : list PgShardShard) (name : string) : option PgShardShard :=
  last (List.filter (fun s => bool_decide (sh_name s = name)) shards).

Section gates.
Variable rfc3339 : Z -> string.

Definition gate_for (name : string) (source : PgShardShard) (deadline : Z) : RoutingGate :=
  mkRoutingGate ("reshard-" +:+ name) (mkGateMatch false [] [sh_key_range source]) "bufferWrites" (rfc3339 deadline) 0.

Fixpoint cutoverGates (cluster : string) (shards : list PgShardShard) (reshards : list GateRequest) : result GateError (list RoutingGate) :=
  match reshards with
  | [] => Ok []
  | r :: reshards' =>
      if negb (bool_decide (gr_cluster r = cluster)) then cutoverGates cluster shards reshards'
      else
        match gr_deadline r, shard_named shards (gr_source r) with
        | None, source =>
            if gr_committed r && match source with Some s => sh_serving s | None => false end then Err (UngatedSwitch (gr_name r))
            else cutoverGates cluster shards reshards'
        | Some _, None => Err (NoSource (gr_name r))
        | Some deadline, Some source =>
            gates ← cutoverGates cluster shards reshards';
            Ok (gate_for (gr_name r) source deadline :: gates)
        end
  end.

(** The gate a reshard asks for. *)
Definition wanted_gate (cluster : string) (shards : list PgShardShard) (r : GateRequest) : option RoutingGate :=
  if bool_decide (gr_cluster r = cluster) then
    deadline ← gr_deadline r;
    source ← shard_named shards (gr_source r);
    Some (gate_for (gr_name r) source deadline)
  else None.

(** whenever the gates compile at all they are exactly the gates the cluster's reshards
    ask for, in their order; a reshard that asks for a gate has one, and so has every
    reshard whose switch is committed while its source still serves. *)
Theorem cutover_gates_exact cluster shards reshards gates : cutoverGates cluster shards reshards = Ok gates ->
  gates = omap (wanted_gate cluster shards) reshards /\
  forall r, r ∈ reshards -> gr_cluster r = cluster ->
    gr_deadline r <> None \/ (gr_committed r = true /\ exists s, shard_named shards (gr_source r) = Some s /\ sh_serving s = true) ->
    exists d s, gr_deadline r = Some d /\ shard_named shards (gr_source r) = Some s /\ gate_for (gr_name r) s d ∈ gates.
Proof.
  revert gates. induction reshards as [|r reshards IH]; intros gates; cbn.
  { intros [= <-]. split; [done|]. by intros r ?%not_elem_of_nil. }
  unfold wanted_gate at 1. case_bool_decide as Hcl; cbn [negb].
  - destruct (gr_deadline r) as [d|] eqn:Hd; cbn.
    + destruct (shard_named shards (gr_source r)) as [s|] eqn:Hs; [|done]. cbn.
      destruct (cutoverGates cluster shards reshards) as [gs|] eqn:Hg; [|done]. cbn. intros [= <-].
      destruct (IH gs eq_refl) as [-> Hrest]. split; [done|]. intros q [->|Hq]%elem_of_cons Hcq Hw.
      * exists d, s. split_and!; [done..|]. by apply elem_of_cons; left.
      * destruct (Hrest q Hq Hcq Hw) as (d' & s' & ? & ? & ?). exists d', s'. split_and!; [done..|]. by apply elem_of_cons; right.
    + destruct (gr_committed r && _) eqn:Hc; [done|]. intros Hg. destruct (IH gates Hg) as [-> Hrest]. split; [done|].
      intros q [->|Hq]%elem_of_cons Hcq Hw; [|by apply Hrest]. exfalso.
      destruct Hw as [?|(Hcm & s & Hs & Hsv)]; [done|]. by rewrite Hcm, Hs, Hsv in Hc.
  - intros Hg. destruct (IH gates Hg) as [-> Hrest]. split; [done|].
    intros q [->|Hq]%elem_of_cons Hcq; [done|by apply Hrest].
Qed.

End gates.

(** ** The names of seeding *)

Lemma seed_char_ident c : is_ascii_alnum (seed_char c) || bool_decide (seed_char c = "_"%char) = true.
Proof. unfold seed_char. destruct (is_ascii_alnum c || bool_decide (c = "_"%char)) eqn:E; [done|]. by rewrite orb_true_r. Qed.

(** A UID: 36 characters, hexadecimal digits and dashes. *)
Definition uid_char (c : ascii) : bool := is_ascii_alnum c || bool_decide (c = "-"%char).
Definition is_uid (u : string) : bool := (str_len u =? 36)%nat && forallb uid_char (bytes u).

Lemma seed_char_inj a b : uid_char a = true -> uid_char b = true -> seed_char a = seed_char b -> a = b.
Proof.
  unfold uid_char, seed_char. intros Ha Hb.
  destruct (is_ascii_alnum a) eqn:Ea, (is_ascii_alnum b) eqn:Eb; cbn in *; rewrite ?bool_decide_eq_true in *; subst; cbn; try done.
  - intros ->. done.
  - intros <-. done.
Qed.

Lemma seedIdent_inj a b : is_uid a = true -> is_uid b = true -> seedIdent a = seedIdent b -> a = b.
Proof.
  unfold is_uid, seedIdent. rewrite !andb_true_iff, !Nat.eqb_eq, !forallb_forall. intros [La Ha] [Lb Hb] E.
  apply (f_equal bytes) in E. rewrite !bytes_str_of in E. unfold str_len in *.
  rewrite <- (str_of_bytes a), <- (str_of_bytes b). f_equal. clear La Lb. revert E Ha Hb.
  generalize (bytes a) (bytes b). intros la. induction la as [|x la IH]; intros [|y lb] [=] Ha Hb; [done|].
  f_equal; [apply seed_char_inj; auto; [apply Ha|apply Hb]; by left|].
  apply IH; [done|intros z Hz; apply Ha; by right|intros z Hz; apply Hb; by right].
Qed.

Lemma seedIdent_len a : str_len (seedIdent a) = str_len a.
Proof. unfold str_len, seedIdent. by rewrite bytes_str_of, length_fmap. Qed.

Lemma index_digits i : (i <= 128)%nat -> (length (fmt_i (Z.of_nat i)) <= 3)%nat /\ Forall (fun c => is_ascii_digit c = true) (fmt_i (Z.of_nat i)).
Proof.
  intros Hi.
  assert (H : forallb (fun k => (length (fmt_i (Z.of_nat k)) <=? 3)%nat && forallb is_ascii_digit (fmt_i (Z.of_nat k))) (seq 0 129) = true)
    by (vm_compute; reflexivity).
  rewrite forallb_forall in H. specialize (H i). rewrite in_seq in H. specialize (H ltac:(lia)).
  apply andb_true_iff in H as [H1%Nat.leb_le H2]. split; [done|]. apply Forall_forall. rewrite forallb_forall in H2.
  intros c Hc. by apply H2, list_elem_of_In.
Qed.

(** The last occurrence of a character splits a list in one way. *)
Lemma split_last {A} (x : A) l1 l2 d1 d2 : x ∉ d1 -> x ∉ d2 -> l1 ++ x :: d1 = l2 ++ x :: d2 -> l1 = l2 /\ d1 = d2.
Proof.
  intros H1 H2 E. apply app_eq_inv in E as [(k & -> & E)|(k & -> & E)]; destruct k as [|y k]; cbn in E; rewrite ?app_nil_r.
  - by injection E as ->.
  - injection E as -> E. exfalso. apply H2. rewrite E. by apply elem_of_app; right; apply elem_of_cons; left.
  - by injection E as ->.
  - injection E as -> E. exfalso. apply H1. rewrite E. by apply elem_of_app; right; apply elem_of_cons; left.
Qed.

Lemma seedWorkflowID_bytes me i : is_uid (me_uid me) = true -> exists name, (length name <= 13)%nat /\
  Forall (fun c => is_ascii_alnum c || bool_decide (c = "_"%char) = true) name /\
  bytes (seedWorkflowID me i) = (bytes "pgshard_" ++ name ++ ["_"%char]) ++ bytes (seedIdent (me_uid me)) ++ ["_"; "t"]%char ++ fmt_i (Z.of_nat i).
Proof.
  intros [Hl%Nat.eqb_eq _]%andb_true_iff. exists (take 13 (bytes (seedIdent (me_name me)))). split_and!.
  - rewrite length_take. lia.
  - apply Forall_take. unfold seedIdent. rewrite bytes_str_of. apply Forall_fmap, Forall_true. intros c. apply seed_char_ident.
  - unfold seedWorkflowID, seedPublication. rewrite seedIdent_len, Hl. rewrite !bytes_app, !bytes_str_of. by rewrite <- !app_assoc.
Qed.

(** the workflow of a target has a name the agent accepts, of at most 63 letters, digits
    and underscores, and no two targets share one: neither two of a reshard nor two of
    different reshards, whatever their names are. *)
Theorem seed_names_distinct me1 me2 i j : is_uid (me_uid me1) = true -> is_uid (me_uid me2) = true -> (i <= 128)%nat -> (j <= 128)%nat ->
  check_ident (seedWorkflowID me1 i) true = Ok tt /\
  Forall (fun c => is_ascii_alnum c || bool_decide (c = "_"%char) = true) (bytes (seedWorkflowID me1 i)) /\
  (seedWorkflowID me1 i = seedWorkflowID me2 j -> me_uid me1 = me_uid me2 /\ i = j).
Proof.
  intros H1 H2 Hi Hj. destruct (seedWorkflowID_bytes me1 i H1) as (n1 & L1 & F1 & E1), (seedWorkflowID_bytes me2 j H2) as (n2 & L2 & F2 & E2).
  destruct (index_digits i Hi) as [Li Fi], (index_digits j Hj) as [Lj Fj].
  assert (Hu : forall u, is_uid u = true -> length (bytes (seedIdent u)) = 36%nat).
  { intros u [Hl%Nat.eqb_eq _]%andb_true_iff. rewrite <- Hl. apply seedIdent_len. }
  split_and!.
  - unfold check_ident, str_len, MAX_IDENT_BYTES. replace (str_is_empty _) with false by done.
    rewrite E1, !length_app, Hu by done. change (length (bytes "pgshard_")) with 8%nat. cbn [length]. match goal with |- context [(?a <? ?b)%nat] => destruct (Nat.ltb_spec a b); [lia|done] end.
  - rewrite E1, !Forall_app. split_and!; [by repeat constructor|done|by repeat constructor| |by repeat constructor|].
    + unfold seedIdent. rewrite bytes_str_of. apply Forall_fmap, Forall_true. intros c. apply seed_char_ident.
    + eapply Forall_impl; [exact Fi|]. cbn. unfold is_ascii_alnum. by intros c ->.
  - intros E%(f_equal bytes). rewrite E1, E2 in E.
    assert (Ht : forall k, Forall (fun c => is_ascii_digit c = true) (fmt_i (Z.of_nat k)) -> "t"%char ∉ fmt_i (Z.of_nat k)).
    { intros k Hk Hin. by apply (Forall_forall _ _) with (2 := Hin) in Hk. }
    rewrite !app_assoc in E. change (["_"; "t"]%char) with (["_"]%char ++ ["t"]%char) in E. rewrite !app_assoc, <- !(app_assoc _ ["t"%char]) in E.
    apply split_last in E as [E Ed]; [|auto..]. apply app_inj_tail in E as [E _]. apply app_inj_2 in E as [_ E]; [|by rewrite !Hu].
    split.
    + apply seedIdent_inj; [done..|]. rewrite <- (str_of_bytes (seedIdent _)), E. apply str_of_bytes.
    + apply Nat2Z.inj. apply Some_inj. rewrite <- !parse_fmt_i64 by (unfold is_i64, i64_MIN, i64_MAX; lia). by rewrite Ed.
Qed.

(** ** The answers behind a commit *)

Section commits.
Variable me : Reshard.
Variable s : ReshardStatus.
Hypothesis before : st_committed s = false.

Definition uncommitted_status (s' : ReshardStatus) : Prop := st_committed s' = false.

Lemma fail_yields src : yields (failCutover me s src) uncommitted_status.
Proof. unfold failCutover. rewrite before. cbv zeta. by yield. Qed.

Lemma rollback_yields : yields (rollBackCutover me s) uncommitted_status.
Proof. unfold rollBackCutover. cbv zeta. by yield. Qed.

Lemma freeze_yields src : yields (freezeSource me s src) uncommitted_status.
Proof. unfold freezeSource. yield; try done; apply fail_yields. Qed.

Lemma quiesced_yields : yields (quiesced me s) (fun r => match r with inl s' => uncommitted_status s' | inr _ => True end).
Proof. unfold quiesced. by yield. Qed.

Lemma barrier_held src i names : yields (barrierAcknowledged me s src i names) (fun a => match a with Held s' => uncommitted_status s' | _ => True end).
Proof.
  revert i. induction names as [|name names IH]; intros i; cbn [barrierAcknowledged]; [by apply yields_done|].
  apply yields_any. intros [t|]; [|by apply yields_done]. destruct (foreignTarget _ _ _).
  { eapply yields_bind; [apply fail_yields|]. intros s' Hs'. by apply yields_done. }
  by yield.
Qed.

(** What target [i] answered: its own hidden shard, and a workflow that streams and has
    decoded the barrier, on a verified primary that stayed the primary. *)
Definition acknowledged (tr : list (Event CutoverRequest)) (i : nat) (name : string) : Prop :=
  exists t pod1 pod2 uid journal,
    answered (GetTarget name) (Some t) ∈ tr /\ foreignTarget me t (me_ranges me !! i) = false /\
    answered (PrimaryOfTarget name) pod1 ∈ tr /\ verified pod1 = Some uid /\
    answered (WorkflowStatus name uid (seedWorkflowID me i)) (Some (true, journal)) ∈ tr /\ as_u64 (st_frozen s) <= journal /\
    answered (PrimaryOfTarget name) pod2 ∈ tr /\ verified pod2 = Some uid.

Lemma acknowledged_mono tr tr' i name : (forall e, e ∈ tr -> e ∈ tr') -> acknowledged tr i name -> acknowledged tr' i name.
Proof. intros H (t & p1 & p2 & u & j & ? & ? & ? & ? & ? & ? & ? & ?). exists t, p1, p2, u, j. split_and!; auto. Qed.

Lemma barrier_acked src i names tr : runs (barrierAcknowledged me s src i names) tr Acked ->
  forall j name, names !! j = Some name -> acknowledged tr (i + j) name.
Proof.
  revert i tr. induction names as [|name names IH]; intros i tr Hr j nm Hj; [done|]. cbn [barrierAcknowledged] in Hr.
  apply runs_req in Hr as (t & tr1 & -> & Hr). destruct t as [t|]; [|by destruct Hr].
  destruct (foreignTarget me t (me_ranges me !! i)) eqn:Hf.
  { apply run_bind in Hr as (? & ? & ? & _ & _ & Hr). by destruct Hr. }
  apply runs_req in Hr as (p1 & tr2 & -> & Hr). destruct (verified p1) as [uid|] eqn:Hp1; [|by destruct Hr].
  apply runs_req in Hr as (st & tr3 & -> & Hr). destruct st as [[streaming journal]|]; [|by destruct Hr].
  apply runs_req in Hr as (p2 & tr4 & -> & Hr). destruct (confirms p2 uid) eqn:Hp2; [|by destruct Hr].
  destruct streaming; [|by destruct Hr]. cbn [negb] in Hr. destruct (Z.ltb_spec journal (as_u64 (st_frozen s))); [by destruct Hr|].
  destruct j as [|j].
  - injection Hj as ->. rewrite Nat.add_0_r. exists t, p1, p2, uid, journal.
    unfold confirms in Hp2. apply bool_decide_eq_true in Hp2. split_and!; try done; repeat (apply elem_of_cons; (by left) || right).
  - rewrite <- Nat.add_succ_comm. eapply acknowledged_mono; [|by apply (IH (S i) tr4 Hr)].
    intros e He. by repeat (apply elem_of_cons; right).
Qed.
(** The gate is published and the write leases of its routers have run out. *)
Definition quiet (tr : list (Event CutoverRequest)) : Prop :=
  exists routing observed now, answered GetRouting (Some routing) ∈ tr /\
    existsb (fun g => bool_decide (rg_id g = "reshard-" +:+ me_name me)) (rp_gates routing) = true /\
    st_observed s = Some observed /\ answered Now now ∈ tr /\ observed + rp_write_lease routing * second + quiesceMargin <= now.

Lemma quiet_mono tr tr' : (forall e, e ∈ tr -> e ∈ tr') -> quiet tr -> quiet tr'.
Proof. intros H (r & o & t & ? & ? & ? & ? & ?). exists r, o, t. split_and!; auto. Qed.

Lemma quiesced_quiet tr u : runs (quiesced me s) tr (inr u) -> quiet tr.
Proof.
  intros (r & tr1 & -> & Hr)%runs_req. destruct r as [routing|]; [|by destruct Hr].
  destruct (existsb _ _) eqn:Hg; [|by destruct Hr]. cbn [negb] in Hr. destruct (st_observed s) as [t|] eqn:Ho.
  - apply runs_req in Hr as (now & tr2 & -> & Hr). destruct (Z.ltb_spec now (t + rp_write_lease routing * second + quiesceMargin)); [by destruct Hr|].
    exists routing, t, now. split_and!; try done.
    + by apply elem_of_cons; left.
    + by apply elem_of_cons; right; apply elem_of_cons; left.
  - apply runs_req in Hr as (now & tr2 & -> & Hr). by destruct Hr.
Qed.

(** C33: a reconcile commits the switch only when the answers it got say so: the cluster and
    the source are the ones the reshard was validated against, its gate is published and
    every write lease under it has run out, every target acknowledged the barrier, and
    the last thing asked is the time, which is not past the deadline. *)
Theorem commit_only_acknowledged source_name tr s' : runs (reconcileCuttingOver me source_name s) tr s' -> st_committed s' = true ->
  s' = with_committed true s /\ st_frozen s <> 0 /\
  answered GetCluster (Some (me_cluster_uid me)) ∈ tr /\
  (exists src, answered GetSource (Some src) ∈ tr /\ so_uid src = me_source_uid me) /\
  length (st_targets s) = length (me_ranges me) /\ quiet tr /\
  (forall i name, st_targets s !! i = Some name -> acknowledged tr i name) /\
  exists tr0 now, tr = tr0 ++ [answered Now now] /\ expired now (st_deadline s) = false.
Proof.
  assert (Hno : forall {p : CutoverProg ReshardStatus} {t}, yields p uncommitted_status -> runs p t s' -> st_committed s' = true -> False).
  { intros p t Hy Hr Hc. apply Hy in Hr. unfold uncommitted_status in Hr. congruence. }
  intros (c & tr1 & -> & Hr)%runs_req Hc. destruct c as [cl|]; [|destruct Hr; congruence].
  case_bool_decide as Hcl; cbn [negb] in Hr.
  2: { exfalso. eapply Hno; [|exact Hr|done]. apply yields_any. intros. apply fail_yields. }
  apply runs_req in Hr as (src & tr2 & -> & Hr). destruct src as [src|]; [|destruct Hr; congruence].
  case_bool_decide as Hu; cbn [negb] in Hr.
  2: { exfalso. eapply Hno; [|exact Hr|done]. by yield. }
  destruct (length (st_targets s) =? length (me_ranges me))%nat eqn:Hl; cbn [negb] in Hr.
  2: { exfalso. eapply Hno; [|exact Hr|done]. apply fail_yields. }
  rewrite before in Hr. apply runs_req in Hr as (now & tr3 & -> & Hr).
  destruct (expired now (st_deadline s)). { exfalso. eapply Hno; [|exact Hr|done]. apply rollback_yields. }
  apply run_bind in Hr as (q & tq & tr4 & -> & Hq & Hr).
  destruct q as [sq|u]. { destruct Hr as [_ ->]. apply quiesced_yields in Hq. exfalso. unfold uncommitted_status in Hq. congruence. }
  apply quiesced_quiet in Hq.
  destruct (Z.eqb_spec (st_frozen s) 0) as [Hz|Hz]; cbn [andb] in Hr.
  { exfalso. eapply Hno; [|exact Hr|done]. destruct (negb _); [by apply yields_done|apply freeze_yields]. }
  apply run_bind in Hr as (a & ta & tr5 & -> & Ha & Hr). destruct a as [| |sh].
  2: { destruct Hr; congruence. }
  2: { destruct Hr as [_ ->]. apply barrier_held in Ha. exfalso. unfold uncommitted_status in Ha. congruence. }
  apply runs_req in Hr as (now' & tr6 & -> & Hr). destruct (expired now' (st_deadline s)) eqn:He.
  { exfalso. eapply Hno; [|exact Hr|done]. apply rollback_yields. }
  destruct Hr as [-> <-]. subst cl. apply Nat.eqb_eq in Hl. pose proof (barrier_acked src 0 _ _ Ha) as Hack.
  split_and!; try done.
  - by apply elem_of_cons; left.
  - exists src. split; [|done]. by apply elem_of_cons; right; apply elem_of_cons; left.
  - eapply quiet_mono; [|exact Hq]. intros e He'. do 3 (apply elem_of_cons; right). by apply elem_of_app; left.
  - intros i name Hi. eapply acknowledged_mono; [|by apply Hack]. intros e He'.
    do 3 (apply elem_of_cons; right). apply elem_of_app; right. by apply elem_of_app; left.
  - eexists (_ :: _ :: _ :: tq ++ ta), now'. split; [|done]. cbn. by rewrite <- app_assoc.
Qed.
End commits.

Module CutoverRuns.

#[local] Arguments runs : simpl never.

Definition left_half : Bounds := mkBounds EmptyString "80".
Definition right_half : Bounds := mkBounds "80" EmptyString.
Definition me : Reshard := mkReshard "split" "0f8fad5b-d9cb-469f-a165-70867728950e" "c1" "s1" "main" [left_half; right_half] true.
Definition twin : Reshard := mkReshard "split" "7c9e6679-7425-40de-944b-e07fc1f90ae7" "c1" "s1" "main" [left_half; right_half] true.
Definition status : ReshardStatus := mkReshardStatus CuttingOver ["a"; "b"] (Some (120 * second)) (Some 0) 500 0 true false.
Definition source : Source := mkSource 3 "s1" "split" true false.
Definition target (b : Bounds) : TargetShard := mkTargetShard (me_uid me) "main" b false false.
Definition pod : option Pod := Some (mkPod "pod" true).
Definition shard : PgShardShard := mkPgShardShard "old" (mkBounds EmptyString EmptyString) "data" true [] EmptyString.
Definition request : GateRequest := mkGateRequest "split" "main" "old" (Some (120 * second)) true.
Definition text (_ : Z) : string := "2026-01-01T00:02:00Z".
Definition routing : RoutingSpec := mkRoutingSpec 7 2 10 EmptyString [] [] [gate_for text "split" shard (120 * second)] None.

(** Gate, source, quiet, both targets past position 500, and the clock at 60 seconds. *)
Definition trace : list (Event CutoverRequest) :=
  [answered GetCluster (Some "c1"); answered GetSource (Some source); answered Now (60 * second);
   answered GetRouting (Some routing); answered Now (60 * second);
   answered (GetTarget "a") (Some (target left_half)); answered (PrimaryOfTarget "a") pod;
   answered (WorkflowStatus "a" "pod" (seedWorkflowID me 0)) (Some (true, 500)); answered (PrimaryOfTarget "a") pod;
   answered (GetTarget "b") (Some (target right_half)); answered (PrimaryOfTarget "b") pod;
   answered (WorkflowStatus "b" "pod" (seedWorkflowID me 1)) (Some (true, 612)); answered (PrimaryOfTarget "b") pod;
   answered Now (60 * second)].

Lemma trace_runs : runs (reconcileCuttingOver me "old" status) trace (with_committed true status).
Proof. unfold trace. do 14 (eapply runs_step; [reflexivity|cbn]). by split. Qed.

Lemma commit_only_acknowledged_witness : acknowledged me status trace 0 "a" /\ acknowledged me status trace 1 "b".
Proof.
  destruct (commit_only_acknowledged me status eq_refl "old" trace (with_committed true status) trace_runs eq_refl) as (_ & _ & _ & _ & _ & _ & H & _).
  split; apply H; reflexivity.
Defined.

Lemma cutover_gates_exact_witness : exists d s, gr_deadline request = Some d /\ shard_named [shard] "old" = Some s /\
  gate_for text "split" s d ∈ [gate_for text "split" shard (120 * second)].
Proof.
  destruct (cutover_gates_exact text "main" [shard] [request] [gate_for text "split" shard (120 * second)] eq_refl) as [_ H].
  apply (H request); [by apply elem_of_cons; left|reflexivity|by left].
Defined.

Lemma seed_names_distinct_witness : seedWorkflowID me 0 <> seedWorkflowID twin 0 /\ check_ident (seedWorkflowID me 128) true = Ok tt.
Proof.
  split.
  - intros E. assert (H1 : (0 <= 128)%nat) by lia.
    destruct (seed_names_distinct me twin 0 0 eq_refl eq_refl H1 H1) as (_ & _ & H). by destruct (H E).
  - apply (seed_names_distinct me me 128 128); [reflexivity|reflexivity|lia|lia].
Defined.

End CutoverRuns.
