(* ===== verification/CutoverWorld.v ===== *)
(** * Cutovers in their surroundings

    The reconciles of [Cutover] run in a world: the stored reshards and the versions of the
    source shard, the source database with its write fence and its WAL, the journals its
    agent remembers. Clients write whenever the database is not fenced, and only then (they are
    trusted as [Pg.fence_quiesces] says a fence needs), time passes, objects
    are deleted, caches lag, requests fail with or without effect, and the operator stops at
    any point. What is assumed: the primary of the source does not move ([Failover] is about
    that), the clock does not go back, only the reshard controller writes the source shard,
    a removed reshard is not reconciled from a cache and its name is not taken again. The
    theorems also assume a [calm] world, in which nobody edits a target shard, each reshard
    starts on its own cluster, source and targets, and the agent does not reject a freeze;
    [unfenced_commit] shows what happens without it. *)

From S2P Require Import Prelude Rust Go Agent Keyspace ShardFn VSchema Catalog Topo OpTopology Service OpProg Cutover.

Open Scope Z_scope.

(** ** The world around the controller *)

(** The source's WAL: committed writes of clients, and journal barriers. The position of
    an entry is its place, from 1. *)
Inductive WalEntry := WalWrite | WalBarrier (id : string * Z).

(** A stored reshard: its status, the earlier statuses a cache may still show, and whether
    it is being deleted. *)
Record Stored := mkStored { sd_me : Reshard; sd_status : ReshardStatus; sd_prev : list ReshardStatus; sd_deleted : bool }.

(** The versions of the source shard (newest first), its primary's pod, the write fence
    and the WAL of its database, the journals its agent remembers, the switches ever
    committed, and the reshard whose running reconcile works on a current copy. *)
Record CutoverWorld := mkCutoverWorld {
  cw_now : Z; cw_reshards : gmap string Stored; cw_used : gset string; cw_source : list Source; cw_cluster : option string;
  cw_targets : gmap string TargetShard; cw_pod : string; cw_fenced : bool; cw_wal : list WalEntry;
  cw_journal : gmap (string * Z) Z; cw_commits : list (string * Z); cw_fresh : option string;
}.

Definition set_now t w := mkCutoverWorld t (cw_reshards w) (cw_used w) (cw_source w) (cw_cluster w) (cw_targets w) (cw_pod w) (cw_fenced w) (cw_wal w) (cw_journal w) (cw_commits w) (cw_fresh w).
Definition set_reshards x w := mkCutoverWorld (cw_now w) x (cw_used w) (cw_source w) (cw_cluster w) (cw_targets w) (cw_pod w) (cw_fenced w) (cw_wal w) (cw_journal w) (cw_commits w) (cw_fresh w).
Definition set_used x w := mkCutoverWorld (cw_now w) (cw_reshards w) x (cw_source w) (cw_cluster w) (cw_targets w) (cw_pod w) (cw_fenced w) (cw_wal w) (cw_journal w) (cw_commits w) (cw_fresh w).
Definition set_source x w := mkCutoverWorld (cw_now w) (cw_reshards w) (cw_used w) x (cw_cluster w) (cw_targets w) (cw_pod w) (cw_fenced w) (cw_wal w) (cw_journal w) (cw_commits w) (cw_fresh w).
Definition set_targets x w := mkCutoverWorld (cw_now w) (cw_reshards w) (cw_used w) (cw_source w) (cw_cluster w) x (cw_pod w) (cw_fenced w) (cw_wal w) (cw_journal w) (cw_commits w) (cw_fresh w).
Definition set_fence b w := mkCutoverWorld (cw_now w) (cw_reshards w) (cw_used w) (cw_source w) (cw_cluster w) (cw_targets w) (cw_pod w) b (cw_wal w) (cw_journal w) (cw_commits w) (cw_fresh w).
Definition set_wal x w := mkCutoverWorld (cw_now w) (cw_reshards w) (cw_used w) (cw_source w) (cw_cluster w) (cw_targets w) (cw_pod w) (cw_fenced w) x (cw_journal w) (cw_commits w) (cw_fresh w).
Definition set_journal x w := mkCutoverWorld (cw_now w) (cw_reshards w) (cw_used w) (cw_source w) (cw_cluster w) (cw_targets w) (cw_pod w) (cw_fenced w) (cw_wal w) x (cw_commits w) (cw_fresh w).
Definition set_commits x w := mkCutoverWorld (cw_now w) (cw_reshards w) (cw_used w) (cw_source w) (cw_cluster w) (cw_targets w) (cw_pod w) (cw_fenced w) (cw_wal w) (cw_journal w) x (cw_fresh w).
Definition set_fresh b w := mkCutoverWorld (cw_now w) (cw_reshards w) (cw_used w) (cw_source w) (cw_cluster w) (cw_targets w) (cw_pod w) (cw_fenced w) (cw_wal w) (cw_journal w) (cw_commits w) b.

(** The position after the last entry. *)
Definition wal_next (w : CutoverWorld) : Z := Z.of_nat (length (cw_wal w)) + 1.

(** A status write of [n], with the commit it may record. *)
Definition store_status (n : string) (s : ReshardStatus) (o : Stored) (w : CutoverWorld) : CutoverWorld :=
  let w1 := set_reshards (<[n := mkStored (sd_me o) s (sd_status o :: sd_prev o) (sd_deleted o)]> (cw_reshards w)) w in
  if st_committed s && negb (st_committed (sd_status o)) then set_commits ((n, st_frozen s) :: cw_commits w1) w1 else w1.

(** A finalizer write of [n]; a deleted object without one is gone. *)
Definition store_finalizer (n : string) (present : bool) (o : Stored) (w : CutoverWorld) : CutoverWorld :=
  let me := sd_me o in
  let me' := mkReshard (me_name me) (me_uid me) (me_cluster_uid me) (me_source_uid me) (me_cluster me) (me_ranges me) present in
  if sd_deleted o && negb present then set_reshards (delete n (cw_reshards w)) w
  else set_reshards (<[n := mkStored me' (sd_status o) (sd_prev o) (sd_deleted o)]> (cw_reshards w)) w.

(** Somebody else wrote the object of [n]. *)
Definition outdate (n : string) (w : CutoverWorld) : CutoverWorld :=
  if bool_decide (cw_fresh w = Some n) then set_fresh None w else w.

Definition bump (s : Source) : Source := mkSource (S (so_version s)) (so_uid s) (so_claim s) (so_serving s) (so_system s).

(** What the surroundings may do at any time. [calm] excludes tampering: nobody replaces
    the cluster or edits a target shard. *)
Inductive env (calm : bool) : CutoverWorld -> CutoverWorld -> Prop :=
| env_time w t : cw_now w <= t -> env calm w (set_now t w)
| env_write w : cw_fenced w = false -> wal_next w < i64_MAX -> env calm w (set_wal (cw_wal w ++ [WalWrite]) w)
| env_agent_restart w : env calm w (set_journal ∅ w)
| env_delete w n o : cw_reshards w !! n = Some o ->
    env calm w (outdate n (set_reshards (<[n := mkStored (sd_me o) (sd_status o) (sd_prev o) true]> (cw_reshards w)) w))
| env_touch w n : env calm w (outdate n w)
| env_edit_target w name t : calm = false -> env calm w (set_targets (<[name := t]> (cw_targets w)) w).

(** How a request of [n]'s reconcile may be answered. A request that fails may have taken
    effect. When [calm], the agent accepts well-formed fences and journals. *)
Definition serve (calm : bool) (n : string) {R} (q : CutoverRequest R) (w : CutoverWorld) : R -> CutoverWorld -> Prop :=
  match q in CutoverRequest R return R -> CutoverWorld -> Prop with
  | Now => fun x w' => x = cw_now w /\ w' = w
  | GetCluster => fun x w' => (x = None \/ x = cw_cluster w) /\ w' = w
  | GetSource => fun x w' => (x = None \/ exists s, s ∈ cw_source w /\ x = Some s) /\ w' = w
  | LiveSource => fun x w' => head (cw_source w) = Some x /\ w' = w
  | LiveReshard => fun x w' => exists o, cw_reshards w !! n = Some o /\ x = (me_uid (sd_me o), st_committed (sd_status o)) /\ w' = w
  | GetRouting => fun _ w' => w' = w
  | GetTarget name => fun x w' => (x = None \/ x = cw_targets w !! name) /\ w' = w
  | PrimaryOfSource => fun _ w' => w' = w
  | PrimaryOfTarget _ => fun _ w' => w' = w
  | UpdateStatus s => fun x w' =>
      (x = false /\ w' = w) \/
      exists o, cw_reshards w !! n = Some o /\ cw_fresh w = Some n /\
        w' = set_fresh (if x then Some n else None) (store_status n s o w)
  | SetFinalizer b => fun x w' =>
      (x = false /\ w' = w) \/
      exists o, cw_reshards w !! n = Some o /\ cw_fresh w = Some n /\
        w' = set_fresh (if x then Some n else None) (store_finalizer n b o w)
  | UpdateSource s => fun x w' =>
      (exists c, x = Err c /\ w' = w) \/
      exists s0, head (cw_source w) = Some s0 /\ so_version s = so_version s0 /\
        (x = Ok (bump s) \/ x = Err false) /\ w' = set_source (bump s :: cw_source w) w
  | ServeTarget name => fun x w' =>
      (x = false /\ w' = w) \/
      exists t, cw_targets w !! name = Some t /\
        w' = set_targets (<[name := mkTargetShard (ta_owner t) (ta_cluster t) (ta_range t) true (ta_system t)]> (cw_targets w)) w
  | FenceWrites pod unfence => fun x w' =>
      (exists c, x = Err c /\ (calm = true -> c <> InvalidArgument) /\ w' = w) \/
      (pod = cw_pod w /\ (x = Ok tt \/ x = Err Unavailable) /\ w' = set_fence (negb unfence) w)
  | EmitJournal pod id _ => fun x w' =>
      (exists c, x = Err c /\ (calm = true -> rejects_freeze c = false) /\ w' = w) \/
      (pod = cw_pod w /\ exists l, cw_journal w !! id = Some l /\ x = Ok l /\ w' = w) \/
      (pod = cw_pod w /\ cw_journal w !! id = None /\ wal_next w < i64_MAX /\
         ((x = Ok (wal_next w) /\ w' = set_journal (<[id := wal_next w]> (cw_journal w)) (set_wal (cw_wal w ++ [WalBarrier id]) w)) \/
          (x = Err Internal /\ w' = set_wal (cw_wal w ++ [WalBarrier id]) w)))
  | WorkflowStatus _ _ _ => fun _ w' => w' = w
  end.

(** A run of a program for [n]: the surroundings act between any two requests, and the
    operator may stop before any of them. *)
Fixpoint exec (calm : bool) (n : string) {A} (p : CutoverProg A) (w w' : CutoverWorld) (o : option A) : Prop :=
  match p with
  | Done a => rtc (env calm) w w' /\ o = Some a
  | Stop => rtc (env calm) w w' /\ o = None
  | Req q k => exists w1, rtc (env calm) w w1 /\
      ((w' = w1 /\ o = None) \/ exists x w2, serve calm n q w1 x w2 /\ exec calm n (k x) w2 w' o)
  end.

(** A copy of a stored reshard as a cache may show it: current, or with an earlier status.
    Caches do not go back, so a reconcile that reads the current version leaves none of
    the earlier ones to be read. *)
Inductive cached (o : Stored) : bool -> Reshard -> bool -> ReshardStatus -> Prop :=
| cached_current : cached o true (sd_me o) (sd_deleted o) (sd_status o)
| cached_stale me deleted s : me_name me = me_name (sd_me o) -> me_uid me = me_uid (sd_me o) ->
    me_cluster_uid me = me_cluster_uid (sd_me o) -> me_source_uid me = me_source_uid (sd_me o) ->
    me_cluster me = me_cluster (sd_me o) -> me_ranges me = me_ranges (sd_me o) ->
    (deleted = true -> sd_deleted o = true) -> s = sd_status o \/ s ∈ sd_prev o ->
    cached o false me deleted s.

Definition seen_current (n : string) (o : Stored) (w : CutoverWorld) : CutoverWorld :=
  set_reshards (<[n := mkStored (sd_me o) (sd_status o) [] (sd_deleted o)]> (cw_reshards w)) w.

(** What validation and seeding leave: the reshard's own cluster and source, valid ranges,
    and one hidden target shard of its own for each. *)
Definition prepared (w : CutoverWorld) (me : Reshard) (s : ReshardStatus) : Prop :=
  cw_cluster w = Some (me_cluster_uid me) /\ (forall x, x ∈ cw_source w -> so_uid x = me_source_uid me) /\
  length (st_targets s) = length (me_ranges me) /\ Forall (fun b => is_ok (toRange b) = true) (me_ranges me) /\
  forall i name, st_targets s !! i = Some name ->
    exists t, cw_targets w !! name = Some t /\ foreignTarget me t (me_ranges me !! i) = false.

(** One reconcile at a time. The earlier phases end by making a reshard ready to cut over
    or by failing it. *)
Inductive cutover_step (calm : bool) (source_name : string) : CutoverWorld -> CutoverWorld -> Prop :=
| cs_env w w' : env calm w w' -> cutover_step calm source_name w w'
| cs_create w n me s : n ∉ cw_used w -> n <> EmptyString -> me_name me = n ->
    (forall m o, cw_reshards w !! m = Some o -> me_uid (sd_me o) <> me_uid me) ->
    (forall a, cw_journal w !! (me_uid me, a) = None) ->
    st_phase s = CatchingUp -> st_frozen s = 0 -> st_committed s = false -> (calm = true -> prepared w me s) ->
    cutover_step calm source_name w (set_used ({[n]} ∪ cw_used w) (set_reshards (<[n := mkStored me s [] false]> (cw_reshards w)) w))
| cs_seeded w n o p : cw_reshards w !! n = Some o -> st_phase (sd_status o) = CatchingUp -> sd_deleted o = false ->
    p ∈ [CatchingUp; ReadyToCutover; ReshardFailed] ->
    cutover_step calm source_name w (store_status n (with_phase p (sd_status o)) (mkStored (sd_me o) (sd_status o) [] (sd_deleted o)) w)
| cs_reconcile w w' n o fresh me deleted s out : cw_reshards w !! n = Some o -> cached o fresh me deleted s ->
    exec calm n (Reconcile me source_name deleted s) (if fresh then set_fresh (Some n) (seen_current n o w) else set_fresh None w) w' out -> cutover_step calm source_name w w'.

(** The start: an unclaimed source that serves. *)
Definition cutover_init (w : CutoverWorld) : Prop :=
  cw_reshards w = ∅ /\ cw_used w = {[EmptyString]} /\ cw_fenced w = false /\ cw_journal w = ∅ /\ cw_commits w = [] /\
  exists x, cw_source w = [x] /\ so_claim x = EmptyString.

(** The source is fenced, and every write it has lies before position [f]. *)
Definition sealed (f : Z) (w : CutoverWorld) : Prop :=
  cw_fenced w = true /\ forall i, cw_wal w !! i = Some WalWrite -> Z.of_nat i + 1 < f.

(** ** The invariant *)

Definition live_claim (w : CutoverWorld) : string := from_option so_claim EmptyString (head (cw_source w)).
Definition live_serving (w : CutoverWorld) : bool := from_option so_serving false (head (cw_source w)).

(** A status and one before it. *)
Record prev_ok (deleted : bool) (p s : ReshardStatus) : Prop := mkPrevOk {
  po_targets : st_targets p = st_targets s;
  po_committed : st_committed p = true -> st_committed s = true;
  po_commit : st_committed s = true -> st_committed p = false -> st_deadline p <> None /\ st_fenced p = true;
  po_attempt : st_attempt p <= st_attempt s;
  po_same : deleted = false -> st_phase p = CuttingOver -> st_phase s = CuttingOver -> st_committed s = false ->
    st_deadline p = st_deadline s /\ st_attempt p = st_attempt s;
  po_rolled : st_phase p = CuttingOver -> st_phase s = CatchingUp \/ st_phase s = ReadyToCutover -> st_attempt p < st_attempt s;
}.

(** The status of a reshard that is not being deleted, against the source. *)
Record live_ok (w : CutoverWorld) (n uid : string) (s : ReshardStatus) : Prop := mkLiveOk {
  lo_before : st_phase s = CatchingUp \/ st_phase s = ReadyToCutover ->
    st_committed s = false /\ st_frozen s = 0 /\ cw_journal w !! (uid, st_attempt s) = None;
  lo_during : st_phase s = CuttingOver -> st_committed s = false ->
    live_claim w = n /\ exists d, st_deadline s = Some d /\
      (st_frozen s <> 0 -> st_fenced s = true /\ (cw_now w <= d -> sealed (st_frozen s) w)) /\
      (forall l, cw_journal w !! (uid, st_attempt s) = Some l -> cw_now w <= d -> sealed l w);
}.

Definition owned (me : Reshard) (t : TargetShard) (range : option Bounds) : Prop :=
  ta_owner t = me_uid me /\ ta_cluster t = me_cluster me /\ Some (ta_range t) = range /\ ta_system t = false.

Record obj_ok (w : CutoverWorld) (n : string) (o : Stored) : Prop := mkObjOk {
  oo_name : me_name (sd_me o) = n;
  oo_cluster : cw_cluster w = Some (me_cluster_uid (sd_me o));
  oo_source : forall x, x ∈ cw_source w -> so_uid x = me_source_uid (sd_me o);
  oo_ranges : Forall (fun b => is_ok (toRange b) = true) (me_ranges (sd_me o));
  oo_length : length (st_targets (sd_status o)) = length (me_ranges (sd_me o));
  oo_targets : forall i name, st_targets (sd_status o) !! i = Some name ->
    exists t, cw_targets w !! name = Some t /\ owned (sd_me o) t (me_ranges (sd_me o) !! i) /\
      (ta_serving t = true -> st_committed (sd_status o) = true);
  oo_prev : forall p, p ∈ sd_prev o -> prev_ok (sd_deleted o) p (sd_status o);
  oo_future : forall a, st_attempt (sd_status o) < a -> cw_journal w !! (me_uid (sd_me o), a) = None;
  oo_live : sd_deleted o = false -> live_ok w n (me_uid (sd_me o)) (sd_status o);
}.

Definition left_cutover (o : Stored) : Prop := st_committed (sd_status o) = true \/ sd_deleted o = true.

Record cw_inv (w : CutoverWorld) : Prop := mkCwInv {
  ci_source : exists x xs, cw_source w = x :: xs /\ Forall (fun y => (so_version y < so_version x)%nat) xs;
  ci_hidden : forall x, x ∈ cw_source w -> so_serving x = false -> live_serving w = false;
  ci_claims : forall x, x ∈ cw_source w -> so_claim x <> live_claim w ->
    forall o, cw_reshards w !! so_claim x = Some o -> left_cutover o;
  ci_claim_used : forall x, x ∈ cw_source w -> so_claim x ∈ cw_used w;
  ci_used : EmptyString ∈ cw_used w /\ cw_reshards w !! EmptyString = None /\ forall n, n ∉ cw_used w -> cw_reshards w !! n = None;
  ci_commit : cw_commits w <> [] ->
    (live_claim w <> EmptyString /\ forall o, cw_reshards w !! live_claim w = Some o -> st_committed (sd_status o) = true) \/
    (live_claim w = EmptyString /\ live_serving w = false);
  ci_sealed : forall n f, (n, f) ∈ cw_commits w -> sealed f w;
  ci_logged : forall n o, cw_reshards w !! n = Some o -> st_committed (sd_status o) = true -> (n, st_frozen (sd_status o)) ∈ cw_commits w;
  ci_uids : forall m n o p, cw_reshards w !! m = Some o -> cw_reshards w !! n = Some p -> me_uid (sd_me o) = me_uid (sd_me p) -> m = n;
  ci_journal : forall id l, cw_journal w !! id = Some l -> 0 < l < i64_MAX;
  ci_objs : forall n o, cw_reshards w !! n = Some o -> obj_ok w n o;
}.

(** ** The surroundings preserve it *)

Lemma sealed_grow f w e : e <> WalWrite -> sealed f w -> sealed f (set_wal (cw_wal w ++ [e]) w).
Proof.
  intros He [Hf Hw]. split; [done|]. intros i Hi; cbn in Hi.
  apply lookup_app_Some in Hi as [Hi|[_ Hi]]; [by apply Hw|].
  apply list_lookup_singleton_Some in Hi as [_ ->]. done.
Qed.

Lemma sealed_next id w : cw_fenced w = true -> sealed (wal_next w) (set_wal (cw_wal w ++ [WalBarrier id]) w).
Proof.
  intros Hf. apply sealed_grow; [done|]. split; [done|].
  intros i Hi%lookup_lt_Some. unfold wal_next. lia.
Qed.

(** What [live_ok] needs when only time, the WAL or the journal moved. *)
Lemma live_ok_mono w w' n uid s : live_ok w n uid s -> live_claim w' = live_claim w -> cw_now w <= cw_now w' ->
  (forall f, sealed f w -> sealed f w') ->
  (forall a l, cw_journal w' !! (uid, a) = Some l -> cw_journal w !! (uid, a) = Some l) -> live_ok w' n uid s.
Proof.
  intros [Hb Hd] Hc Ht Hs Hj. split.
  - intros Hp. destruct (Hb Hp) as (? & ? & Hn). split_and!; [done..|].
    destruct (cw_journal w' !! _) eqn:E; [|done]. apply Hj in E. congruence.
  - intros Hp Hn. destruct (Hd Hp Hn) as (? & d & Hdl & Hf & Hjl). split; [congruence|]. exists d. split_and!; [done|..].
    + intros H0. destruct (Hf H0) as [? Hq]. split; [done|]. intros. apply Hs, Hq. lia.
    + intros l Hl Hle. apply Hs, Hjl; [by apply Hj|lia].
Qed.

Lemma obj_ok_mono w w' n o : obj_ok w n o -> cw_cluster w' = cw_cluster w -> cw_source w' = cw_source w ->
  cw_targets w' = cw_targets w -> cw_now w <= cw_now w' -> (forall f, sealed f w -> sealed f w') ->
  (forall id l, cw_journal w' !! id = Some l -> cw_journal w !! id = Some l) -> obj_ok w' n o.
Proof.
  intros [] Hcl Hso Ht Hn Hs Hj. split; try done.
  - congruence.
  - by rewrite Hso.
  - by rewrite Ht.
  - intros a Ha. destruct (cw_journal w' !! _) eqn:E; [|done]. apply Hj in E. rewrite oo_future0 in E; done.
  - intros Hd. eapply live_ok_mono; [by apply oo_live0|unfold live_claim; by rewrite Hso|done..|]. intros a l; apply Hj.
Qed.

(** Moves that leave the objects and the source alone. *)
Lemma cw_inv_mono w w' : cw_inv w -> cw_reshards w' = cw_reshards w -> cw_used w' = cw_used w -> cw_commits w' = cw_commits w ->
  cw_cluster w' = cw_cluster w -> cw_source w' = cw_source w -> cw_targets w' = cw_targets w -> cw_now w <= cw_now w' ->
  (forall f, sealed f w -> sealed f w') ->
  (forall id l, cw_journal w' !! id = Some l -> cw_journal w !! id = Some l) -> cw_inv w'.
Proof.
  intros [] Hr Hu Hk Hc Hs Ht Hn Hf Hj.
  split; unfold live_claim, live_serving in *; rewrite ?Hr, ?Hs, ?Hu, ?Hk; eauto.
  intros n o Ho. eapply obj_ok_mono; eauto.
Qed.

(** The objects do not look at one another, nor at the log of commits. *)
Lemma obj_ok_frame w w' n o : obj_ok w n o -> cw_cluster w' = cw_cluster w -> cw_source w' = cw_source w ->
  cw_targets w' = cw_targets w -> cw_now w' = cw_now w -> cw_fenced w' = cw_fenced w -> cw_wal w' = cw_wal w ->
  cw_journal w' = cw_journal w -> obj_ok w' n o.
Proof.
  intros H ? ? ? ? Hf Hw Hj. eapply obj_ok_mono; eauto; [lia|..].
  - unfold sealed. by rewrite Hf, Hw.
  - by rewrite Hj.
Qed.

(** A new state of the object [n], with the commit it may be. *)
Lemma cw_inv_object w n o o' ks : cw_inv w -> cw_reshards w !! n = Some o -> obj_ok w n o' ->
  me_uid (sd_me o') = me_uid (sd_me o) ->
  (sd_deleted o = true -> sd_deleted o' = true) -> (st_committed (sd_status o) = true -> st_committed (sd_status o') = true) ->
  (ks = [] /\ (st_committed (sd_status o') = true -> st_committed (sd_status o) = true /\ st_frozen (sd_status o') = st_frozen (sd_status o)) \/
   ks = [(n, st_frozen (sd_status o'))] /\ live_claim w = n /\ sealed (st_frozen (sd_status o')) w /\ st_committed (sd_status o') = true) ->
  cw_inv (set_commits (ks ++ cw_commits w) (set_reshards (<[n := o']> (cw_reshards w)) w)).
Proof.
  intros Hinv Ho Hok Hu Hd Hc Hk. pose proof Hinv as [].
  assert (Hne : n <> EmptyString) by (intros ->; destruct ci_used0 as (_ & ? & _); congruence).
  assert (Hlook : forall m q, <[n := o']> (cw_reshards w) !! m = Some q -> m = n /\ q = o' \/ m <> n /\ cw_reshards w !! m = Some q)
    by (intros m q [[<- <-]|[? ?]]%lookup_insert_Some; [by left|by right]).
  split; cbn; try done.
  - intros x Hx Hne' q Hq. destruct (Hlook _ _ Hq) as [[E ->]|[? ?]]; [|by eapply ci_claims0].
    destruct (ci_claims0 x Hx Hne' o ltac:(congruence)); [left|right]; auto.
  - destruct ci_used0 as (? & ? & Hus). split_and!; [done|by rewrite lookup_insert_ne|].
    intros m Hm. rewrite lookup_insert_ne by (intros <-; rewrite (Hus n) in Ho by done; done). auto.
  - intros Hn. unfold live_claim, live_serving in *; cbn.
    destruct Hk as [[-> Hsame]|(-> & Hcl & _ & Hcm)].
    + destruct (ci_commit0 Hn) as [[? Hall]|?]; [left|by right]. split; [done|].
      intros q [[E ->]|[? ?]]%Hlook; [|by eapply Hall]. apply Hc, Hall. congruence.
    + left. split; [congruence|]. intros q [[_ ->]|[? ?]]%Hlook; congruence.
  - intros m f [Hin|Hin]%elem_of_app; [|by eapply ci_sealed0].
    destruct Hk as [[-> _]|(-> & _ & Hs & _)]; [by apply not_elem_of_nil in Hin|].
    apply list_elem_of_singleton in Hin. by simplify_eq.
  - intros m q [[-> ->]|[? ?]]%Hlook Hcm; apply elem_of_app; [|by right; eapply ci_logged0].
    destruct Hk as [[-> Hs]|(-> & _)]; [|left; by apply list_elem_of_singleton].
    right. destruct (Hs Hcm) as [? ->]. by apply ci_logged0.
  - intros m1 m2 q1 q2 [[-> ->]|[? ?]]%Hlook [[-> ->]|[? ?]]%Hlook E; try done; eauto; eapply ci_uids0; eauto; congruence.
  - intros m q [[-> ->]|[? ?]]%Hlook; (apply (obj_ok_frame w); [|done..]); eauto.
Qed.

Lemma cw_inv_fresh w f : cw_inv w -> cw_inv (set_fresh f w).
Proof. intros H. apply (cw_inv_mono w); auto; cbn; lia. Qed.

Lemma prev_ok_delete d p s : prev_ok d p s -> prev_ok true p s.
Proof. intros []. split; auto; discriminate. Qed.

Lemma outdate_inv n w : cw_inv w -> cw_inv (outdate n w).
Proof. unfold outdate. case_bool_decide; [apply cw_inv_fresh|done]. Qed.

Lemma obj_ok_delete w n o : obj_ok w n o -> obj_ok w n (mkStored (sd_me o) (sd_status o) (sd_prev o) true).
Proof. intros []. split; cbn; try done. intros p Hp. by eapply prev_ok_delete, oo_prev0. Qed.

Lemma env_inv w w' : cw_inv w -> env true w w' -> cw_inv w'.
Proof.
  intros Hi He. revert Hi. destruct He as [w0 t ?|w0 Hf Hn|w0|w0 n o Ho|w0 n|w0 name t ?]; intros Hi; [..|by apply outdate_inv|done].
  - by apply (cw_inv_mono w0); auto; cbn.
  - apply (cw_inv_mono w0); auto; [cbn; lia|]. intros f [Hs _]. congruence.
  - apply (cw_inv_mono w0); auto; [cbn; lia|]. intros id l. cbn. by rewrite lookup_empty.
  - apply outdate_inv. refine (cw_inv_object w0 n o _ [] Hi Ho (obj_ok_delete _ _ _ (ci_objs _ Hi _ _ Ho)) _ _ _ _); try done. by left.
Qed.

(** ** What the requests preserve *)

Lemma live_claim_head w x : head (cw_source w) = Some x -> live_claim w = so_claim x /\ live_serving w = so_serving x.
Proof. unfold live_claim, live_serving. by intros ->. Qed.

(** A new version of the source. *)
Lemma cw_inv_source w x0 x1 : cw_inv w -> head (cw_source w) = Some x0 ->
  (so_version x0 < so_version x1)%nat -> so_uid x1 = so_uid x0 -> (so_serving x0 = false -> so_serving x1 = false) ->
  (so_claim x1 <> so_claim x0 -> forall o, cw_reshards w !! so_claim x0 = Some o -> left_cutover o) ->
  so_claim x1 ∈ cw_used w ->
  (cw_commits w <> [] ->
    (so_claim x1 <> EmptyString /\ forall o, cw_reshards w !! so_claim x1 = Some o -> st_committed (sd_status o) = true) \/
    (so_claim x1 = EmptyString /\ so_serving x1 = false)) ->
  cw_inv (set_source (x1 :: cw_source w) w).
Proof.
  intros Hinv Hh Hv Huid Hsv Hcl Hu Hcm. pose proof Hinv as [].
  destruct (live_claim_head _ _ Hh) as [Hlc Hls]. destruct ci_source0 as (x & xs & Hxs & Hall).
  rewrite Hxs in Hh; injection Hh as ->. split; try done; cbn.
  - exists x1, (cw_source w). split; [done|]. rewrite Hxs. constructor; [done|].
    eapply Forall_impl; [done|]. cbn. intros; lia.
  - intros y [->|Hy]%elem_of_cons Hs; [done|]. cbn. apply Hsv. rewrite <- Hls. eauto.
  - intros y [->|Hy]%elem_of_cons Hne o Ho; cbn in Hne; [done|].
    destruct (decide (so_claim y = live_claim w)) as [E|]; [|by eapply ci_claims0].
    rewrite Hlc in E. apply Hcl; congruence.
  - intros y [->|Hy]%elem_of_cons; auto.
  - intros m o Ho. destruct (ci_objs0 m o Ho) as []. split; try done; cbn.
    + intros y [->|Hy]%elem_of_cons; [|auto]. rewrite Huid. apply oo_source0. rewrite Hxs. by apply elem_of_cons; left.
    + intros Hd. destruct (oo_live0 Hd) as [Hb Hdu]. split; [done|]. intros Hp Hc.
      destruct (Hdu Hp Hc) as [Hm Hrest]. split; [|done]. cbn.
      destruct (decide (so_claim x1 = so_claim x0)) as [->|Hne]; [congruence|].
      exfalso. rewrite Hlc in Hm. rewrite <- Hm in Ho. destruct (Hcl Hne o Ho); congruence.
Qed.

Lemma source_current w x y : cw_inv w -> head (cw_source w) = Some x -> y ∈ cw_source w -> so_version y = so_version x -> y = x.
Proof.
  intros Hi Hh Hy Hv. destruct (ci_source _ Hi) as (z & zs & Hz & Hall). rewrite Hz in *. injection Hh as ->.
  apply elem_of_cons in Hy as [->|Hy]; [done|]. rewrite Forall_forall in Hall. apply Hall in Hy. lia.
Qed.

(** Fencing always; un-fencing by the holder of the claim, outside the time of its cutover. *)
Lemma fence_inv w : cw_inv w -> cw_inv (set_fence true w).
Proof. intros Hi. apply (cw_inv_mono w); auto; [cbn; lia|]. intros f [_ H]. by split. Qed.

Definition may_unfence (n : string) (w : CutoverWorld) : Prop :=
  forall o, cw_reshards w !! n = Some o ->
    left_cutover o \/ st_phase (sd_status o) <> CuttingOver \/ exists d, st_deadline (sd_status o) = Some d /\ d < cw_now w.

Lemma unfence_inv w n o : cw_inv w -> cw_reshards w !! n = Some o -> live_claim w = n -> st_committed (sd_status o) = false ->
  may_unfence n w -> cw_inv (set_fence false w).
Proof.
  intros Hinv Ho Hc Hn Hm. pose proof Hinv as [].
  assert (Hnil : cw_commits w = []).
  { destruct (cw_commits w) eqn:E; [done|]. destruct ci_commit0 as [[? Hall]|[? ?]]; [done|..].
    - rewrite Hc in Hall. apply Hall in Ho. congruence.
    - subst n. destruct ci_used0 as (_ & ? & _). congruence. }
  split; try done; cbn.
  - rewrite Hnil. by intros ? ? ?%not_elem_of_nil.
  - intros m q Hq. destruct (ci_objs0 m q Hq) as []. split; try done; cbn.
    intros Hd. destruct (oo_live0 Hd) as [Hb Hdu]. split; [done|]. intros Hp Hcm.
    destruct (Hdu Hp Hcm) as (Hcl & d & Hdl & Hf & Hj). split; [done|]. exists d.
    assert (Hlt : d < cw_now w).
    { assert (m = n) as -> by congruence. destruct (Hm q Hq) as [[?|?]|[?|(d' & ? & ?)]]; try congruence. }
    split_and!; [done|..].
    + intros H0. split; [by apply Hf|]. cbn. lia.
    + cbn. intros. lia.
Qed.

(** A barrier in the WAL of a fenced source, with the journal it records for a reshard in
    its cutover. *)
Lemma barrier_inv w id : cw_inv w -> cw_inv (set_wal (cw_wal w ++ [WalBarrier id]) w).
Proof. intros Hi. apply (cw_inv_mono w); auto; [cbn; lia|]. intros f Hf. by apply sealed_grow. Qed.

Lemma emit_inv w n o s : cw_inv w -> cw_fenced w = true -> cw_reshards w !! n = Some o -> s = sd_status o \/ s ∈ sd_prev o ->
  st_phase s = CuttingOver -> wal_next w < i64_MAX ->
  cw_inv (set_journal (<[(me_uid (sd_me o), st_attempt s) := wal_next w]> (cw_journal w)) (set_wal (cw_wal w ++ [WalBarrier (me_uid (sd_me o), st_attempt s)]) w)).
Proof.
  intros Hinv Hf Ho Hs Hp Hlt. pose proof (barrier_inv w (me_uid (sd_me o), st_attempt s) Hinv) as Hinv1.
  pose proof (sealed_next (me_uid (sd_me o), st_attempt s) w Hf) as Hsealed.
  set (w1 := set_wal _ w) in *. pose proof Hinv1 as []. pose proof (oo_prev _ _ _ (ci_objs _ Hinv n o Ho)) as Hpv.
  assert (Hat : st_attempt s <= st_attempt (sd_status o)) by (destruct Hs as [->|Hs]; [lia|by apply Hpv]).
  split; try done; cbn.
  - intros id l [[<- <-]|[? ?]]%lookup_insert_Some; [unfold wal_next in *; lia|by eapply ci_journal0].
  - intros m q Hq. destruct (ci_objs0 m q Hq) as []. split; try done; cbn.
    + intros a Ha. rewrite lookup_insert_ne; [auto|]. intros [= Hu <-].
      assert (m = n) as -> by (eapply ci_uids0; [exact Hq|exact Ho|done]). assert (q = o) as -> by (cbn in *; congruence). lia.
    + intros Hd. destruct (oo_live0 Hd) as [Hb Hdu]. split; cbn.
      * intros Hph. destruct (Hb Hph) as (? & ? & ?). split_and!; [done..|]. rewrite lookup_insert_ne; [done|]. intros [= Hu Hat'].
        assert (m = n) as -> by (eapply ci_uids0; [exact Hq|exact Ho|done]). assert (q = o) as -> by (cbn in *; congruence).
        destruct Hs as [->|Hs]; [destruct Hph; congruence|]. pose proof (po_rolled _ _ _ (Hpv s Hs) Hp Hph). lia.
      * intros Hph Hc. destruct (Hdu Hph Hc) as (? & d & ? & ? & Hj). split; [done|]. exists d. split_and!; [done..|].
        intros l [[_ <-]|[_ Hl]]%lookup_insert_Some Hle; [exact Hsealed|by apply Hj].
Qed.

(** A committed reshard's target starts to serve. *)
Lemma serve_target_inv w n o name i t : cw_inv w -> cw_reshards w !! n = Some o -> st_committed (sd_status o) = true ->
  st_targets (sd_status o) !! i = Some name -> cw_targets w !! name = Some t ->
  cw_inv (set_targets (<[name := mkTargetShard (ta_owner t) (ta_cluster t) (ta_range t) true (ta_system t)]> (cw_targets w)) w).
Proof.
  intros Hinv Ho Hc Hi Ht. pose proof Hinv as []. split; try done; cbn.
  intros m q Hq. destruct (ci_objs0 m q Hq) as []. split; try done; cbn.
  2: { intros Hd. destruct (oo_live0 Hd). by split. }
  intros j nm Hnm. destruct (oo_targets0 j nm Hnm) as (t' & Ht' & Hown & Hsv).
  destruct (decide (nm = name)) as [->|Hne]; [|rewrite lookup_insert_ne by done; by exists t'].
  assert (t' = t) as -> by congruence. rewrite lookup_insert_eq. eexists; split_and!; [done..|]. intros _.
  destruct (oo_targets _ _ _ (ci_objs0 n o Ho) i name Hi) as (t'' & Ht'' & Hown' & _).
  assert (t'' = t) as -> by congruence.
  assert (m = n) as -> by (eapply ci_uids0; eauto; destruct Hown, Hown'; congruence). congruence.
Qed.

(** ** Status writes *)

Definition next_status (o : Stored) (s : ReshardStatus) : Stored := mkStored (sd_me o) s (sd_status o :: sd_prev o) (sd_deleted o).

(** [s] may be written over the status of [n]. *)
Record writable (n : string) (s : ReshardStatus) (w : CutoverWorld) (o : Stored) : Prop := mkWritable {
  wr_prev : forall p, p ∈ sd_status o :: sd_prev o -> prev_ok (sd_deleted o) p s;
  wr_live : sd_deleted o = false -> live_ok w n (me_uid (sd_me o)) s;
  wr_frozen : st_committed (sd_status o) = true -> st_frozen s = st_frozen (sd_status o);
  wr_commit : st_committed s = true -> st_committed (sd_status o) = false -> live_claim w = n /\ sealed (st_frozen s) w;
}.

Lemma writable_last n s w o : writable n s w o -> prev_ok (sd_deleted o) (sd_status o) s.
Proof. intros []. apply wr_prev0. by apply elem_of_cons; left. Qed.

Lemma obj_ok_next w n o s : obj_ok w n o -> writable n s w o -> obj_ok w n (next_status o s).
Proof.
  intros [] Hw. pose proof (writable_last _ _ _ _ Hw) as Hl. destruct Hw. split; cbn; try done.
  - by rewrite <- (po_targets _ _ _ Hl).
  - intros i name. rewrite <- (po_targets _ _ _ Hl). intros Hi. destruct (oo_targets0 i name Hi) as (t & ? & ? & Hs).
    exists t. split_and!; [done..|]. intros Hsv. by apply (po_committed _ _ _ Hl), Hs.
  - intros a Ha. apply oo_future0. pose proof (po_attempt _ _ _ Hl). lia.
Qed.

Lemma store_status_inv w n s o : cw_inv w -> cw_reshards w !! n = Some o -> writable n s w o -> cw_inv (store_status n s o w).
Proof.
  intros Hi Ho Hw. pose proof (obj_ok_next _ _ _ _ (ci_objs _ Hi _ _ Ho) Hw) as Hok. pose proof (writable_last _ _ _ _ Hw) as Hl. destruct Hw.
  unfold store_status. destruct (st_committed s && negb (st_committed (sd_status o))) eqn:E.
  - apply andb_true_iff in E as [E1 E2%negb_true_iff]. destruct (wr_commit0 E1 E2) as [? ?].
    apply (cw_inv_object w n o (next_status o s) [(n, st_frozen s)]); try done. by right.
  - refine (cw_inv_object w n o (next_status o s) [] Hi Ho Hok eq_refl _ _ _); [done|apply Hl|].
    left. split; [done|]. cbn. intros Hs. rewrite Hs in E. cbn in E. apply negb_false_iff in E. auto.
Qed.

Lemma obj_ok_finalizer w n o b : obj_ok w n o ->
  obj_ok w n (mkStored (mkReshard (me_name (sd_me o)) (me_uid (sd_me o)) (me_cluster_uid (sd_me o)) (me_source_uid (sd_me o)) (me_cluster (sd_me o)) (me_ranges (sd_me o)) b)
    (sd_status o) (sd_prev o) (sd_deleted o)).
Proof. intros []. by split. Qed.

Lemma cw_inv_remove w n : cw_inv w -> cw_inv (set_reshards (delete n (cw_reshards w)) w).
Proof.
  intros []. assert (Hl : forall m q, delete n (cw_reshards w) !! m = Some q -> cw_reshards w !! m = Some q)
    by (intros m q [_ ?]%lookup_delete_Some; done).
  split; try done; cbn; unfold live_claim, live_serving in *; cbn; eauto.
  - destruct ci_used0 as (? & He & Hu). split_and!; [done|..].
    + by rewrite lookup_delete_None; right.
    + intros m Hm. rewrite lookup_delete_None. right. auto.
  - intros Hc. destruct (ci_commit0 Hc) as [[? Hall]|?]; [left|by right]. eauto.
  - intros m o Ho%Hl. apply (obj_ok_frame w); auto.
Qed.

Lemma store_finalizer_inv w n b o : cw_inv w -> cw_reshards w !! n = Some o -> cw_inv (store_finalizer n b o w).
Proof.
  intros Hi Ho. unfold store_finalizer. destruct (sd_deleted o && negb b); [by apply cw_inv_remove|].
  refine (cw_inv_object w n o _ [] Hi Ho (obj_ok_finalizer _ _ _ b (ci_objs _ Hi _ _ Ho)) _ _ _ _); try done. by left.
Qed.

(** ** What a reconcile may rely on while the surroundings act *)

Record env_keeps (w w' : CutoverWorld) : Prop := mkEnvKeeps {
  ek_source : cw_source w' = cw_source w;
  ek_cluster : cw_cluster w' = cw_cluster w;
  ek_targets : cw_targets w' = cw_targets w;
  ek_now : cw_now w <= cw_now w';
  ek_fence : cw_fenced w' = cw_fenced w;
  ek_sealed : forall f, sealed f w -> sealed f w';
  ek_journal : forall id l, cw_journal w' !! id = Some l -> cw_journal w !! id = Some l;
  ek_fresh : forall n, cw_fresh w' = Some n -> cw_fresh w = Some n /\ cw_reshards w' !! n = cw_reshards w !! n;
  ek_object : forall n o, cw_reshards w !! n = Some o ->
    cw_reshards w' !! n = Some o \/ cw_reshards w' !! n = Some (mkStored (sd_me o) (sd_status o) (sd_prev o) true);
  ek_back : forall n o, cw_reshards w' !! n = Some o ->
    exists d, cw_reshards w !! n = Some (mkStored (sd_me o) (sd_status o) (sd_prev o) d) /\ (d = true -> sd_deleted o = true);
}.

Lemma outdate_fresh n m w : cw_fresh (outdate n w) = Some m -> cw_fresh w = Some m /\ m <> n.
Proof. unfold outdate. case_bool_decide; cbn; [done|]. intros H'. split; [done|]. by intros ->. Qed.

Lemma outdate_same n w : outdate n w = w \/ outdate n w = set_fresh None w.
Proof. unfold outdate. case_bool_decide; auto. Qed.

Lemma env_keeps_refl w w' : cw_reshards w' = cw_reshards w -> cw_source w' = cw_source w -> cw_cluster w' = cw_cluster w ->
  cw_targets w' = cw_targets w -> cw_now w <= cw_now w' -> cw_fenced w' = cw_fenced w -> (forall f, sealed f w -> sealed f w') ->
  (forall id l, cw_journal w' !! id = Some l -> cw_journal w !! id = Some l) ->
  (forall n, cw_fresh w' = Some n -> cw_fresh w = Some n) -> env_keeps w w'.
Proof.
  intros Hr ? ? ? ? ? ? ? Hf. split; try done.
  - intros n Hn. rewrite Hr. eauto.
  - intros n o. rewrite Hr. auto.
  - intros n [me s p d]. rewrite Hr. eauto.
Qed.

Lemma delete_keeps w n o : cw_reshards w !! n = Some o ->
  env_keeps w (outdate n (set_reshards (<[n := mkStored (sd_me o) (sd_status o) (sd_prev o) true]> (cw_reshards w)) w)).
Proof.
  intros Ho. set (w1 := set_reshards _ w).
  assert (Hr : cw_reshards (outdate n w1) = cw_reshards w1) by (by destruct (outdate_same n w1) as [-> | ->]).
  split; rewrite ?Hr; try (by destruct (outdate_same n w1) as [-> | ->]).
  - intros m [? ?]%outdate_fresh. cbn. by rewrite lookup_insert_ne.
  - intros m p Hp. cbn. destruct (decide (n = m)) as [<-|Hne]; [right; rewrite lookup_insert_eq; congruence|left; by rewrite lookup_insert_ne].
  - intros m p Hp. cbn in Hp. apply lookup_insert_Some in Hp as [[<- <-]|[_ Hp]]; [exists (sd_deleted o)|exists (sd_deleted p)]; cbn.
    + by destruct o.
    + by destruct p.
Qed.

Lemma env_env_keeps w w' : env true w w' -> env_keeps w w'.
Proof.
  intros [w0 t ?|w0 Hf Hn|w0|w0 n o Ho|w0 n|w0 name t ?]; [..|done].
  - apply env_keeps_refl; auto.
  - apply env_keeps_refl; auto; [cbn; lia|]. intros f [? _]. congruence.
  - apply env_keeps_refl; auto; [cbn; lia|]. intros id l; cbn. by rewrite lookup_empty.
  - by apply delete_keeps.
  - apply env_keeps_refl; by destruct (outdate_same n w0) as [-> | ->].
Qed.

Definition stable (P : CutoverWorld -> Prop) : Prop := forall w w', cw_inv w -> env_keeps w w' -> P w -> P w'.

(** [p] keeps the invariant wherever it stops, and ends in [Q]. *)
Definition triple (n : string) {A} (P : CutoverWorld -> Prop) (p : CutoverProg A) (Q : A -> CutoverWorld -> Prop) : Prop :=
  forall w w' r, cw_inv w -> P w -> exec true n p w w' r -> cw_inv w' /\ forall a, r = Some a -> Q a w'.

Lemma stable_rtc P w w' : stable P -> cw_inv w -> rtc (env true) w w' -> P w -> cw_inv w' /\ P w'.
Proof.
  intros Hs Hi H. revert Hi. induction H as [|x y z Hxy _ IH]; intros Hi HP; [done|].
  apply IH; [by eapply env_inv|]. eapply Hs; [done|by apply env_env_keeps|done].
Qed.

Section rules.
Context (n : string).

Lemma t_done {A} P (a : A) Q : stable P -> (forall w, cw_inv w -> P w -> Q a w) -> triple n P (Done a) Q.
Proof.
  intros Hs Hq w w' r Hi HP [He ->]. destruct (stable_rtc P w w' Hs Hi He HP). split; [done|]. intros ? [= <-]. auto.
Qed.

Lemma t_stop {A} P Q : triple n P (@Stop CutoverRequest A) Q.
Proof.
  intros w w' r Hi HP [He ->]. split; [|done]. by apply (stable_rtc (fun _ => True) w).
Qed.

Lemma t_req {A R} P (q : CutoverRequest R) (k : R -> CutoverProg A) P' Q : stable P ->
  (forall x w w', cw_inv w -> P w -> serve true n q w x w' -> cw_inv w' /\ P' x w') ->
  (forall x, triple n (P' x) (k x) Q) -> triple n P (Req q k) Q.
Proof.
  intros Hs Hq Hk w w' r Hi HP (w1 & He & Hex). destruct (stable_rtc P w w1 Hs Hi He HP) as [Hi1 HP1].
  destruct Hex as [[-> ->]|(x & w2 & Hsv & Hex)]; [done|].
  destruct (Hq x w1 w2 Hi1 HP1 Hsv). by eapply Hk.
Qed.

Lemma exec_bind {A B} (p : CutoverProg A) (f : A -> CutoverProg B) w w' r : exec true n (prog_bind f p) w w' r ->
  (exists a w1, exec true n p w w1 (Some a) /\ exec true n (f a) w1 w' r) \/ (exec true n p w w' None /\ r = None).
Proof.
  revert w. induction p as [a| |R q k IH]; intros w; cbn.
  - intros Hex. left. by exists a, w.
  - intros [? ->]. by right.
  - intros (w1 & He & [[-> ->]|(x & w2 & Hsv & Hex)]).
    + right. split; [|done]. exists w1. auto.
    + destruct (IH x w2 Hex) as [(a & w3 & ? & ?)|[? ->]]; [left|right]; eauto 10.
Qed.

Lemma t_bind {A B} P (p : CutoverProg A) R (f : A -> CutoverProg B) Q :
  triple n P p R -> (forall a, triple n (R a) (f a) Q) -> triple n P (p ≫= f) Q.
Proof.
  intros Hp Hf w w' r Hi HP Hex. destruct (exec_bind p f w w' r Hex) as [(a & w1 & H1 & H2)|[H1 ->]].
  - destruct (Hp w w1 (Some a) Hi HP H1) as [Hi1 HR]. eapply Hf; [done| |done]. by apply HR.
  - split; [|done]. by eapply Hp.
Qed.

Lemma t_pre {A} P P' (p : CutoverProg A) Q : triple n P' p Q -> (forall w, cw_inv w -> P w -> P' w) -> triple n P p Q.
Proof. intros Ht HP w w' r Hi Hw. apply Ht; auto. Qed.

Lemma t_post {A} P (p : CutoverProg A) Q Q' : triple n P p Q -> (forall a w, Q a w -> Q' a w) -> triple n P p Q'.
Proof. intros Ht HP w w' r Hi Hw Hex. destruct (Ht w w' r Hi Hw Hex). split; auto. Qed.

End rules.

(** ** Assertions about a reconcile of [n] *)

Section assertions.
Context (n : string) (me : Reshard) (del : bool).

Definition same_me (a b : Reshard) : Prop :=
  me_name a = me_name b /\ me_uid a = me_uid b /\ me_cluster_uid a = me_cluster_uid b /\ me_source_uid a = me_source_uid b /\
  me_cluster a = me_cluster b /\ me_ranges a = me_ranges b.

(** What the cleanup of a deleted reshard leaves alone. *)
Definition alike (p s : ReshardStatus) : Prop :=
  st_phase p = st_phase s /\ st_targets p = st_targets s /\ st_attempt p = st_attempt s /\ st_committed p = st_committed s.

(** The reconcile's copy has status [s]. *)
Definition copy (s : ReshardStatus) (w : CutoverWorld) : Prop :=
  exists o, cw_reshards w !! n = Some o /\ same_me me (sd_me o) /\ (del = true -> sd_deleted o = true) /\
    (s = sd_status o \/ s ∈ sd_prev o) /\
    (cw_fresh w = Some n -> sd_status o = s /\ sd_deleted o = del /\ forall p, p ∈ sd_prev o -> del = true /\ alike p s).

Definition ok_write (s : ReshardStatus) (w : CutoverWorld) : Prop :=
  cw_fresh w = Some n -> forall o, cw_reshards w !! n = Some o -> writable n s w o.

Definition outdated (w : CutoverWorld) : Prop := cw_fresh w <> Some n.
Definition in_history (x : Source) (w : CutoverWorld) : Prop := x ∈ cw_source w.
Definition hidden (w : CutoverWorld) : Prop := live_serving w = false.
Definition claims (w : CutoverWorld) : Prop := live_claim w = n.
Definition object_is (K : Stored -> Prop) (w : CutoverWorld) : Prop := forall o, cw_reshards w !! n = Some o -> K o.
Definition uncommitted : CutoverWorld -> Prop := object_is (fun o => st_committed (sd_status o) = false).
Definition committed : CutoverWorld -> Prop := object_is (fun o => st_committed (sd_status o) = true).
Definition left : CutoverWorld -> Prop := object_is left_cutover.
Definition fenced (w : CutoverWorld) : Prop := cw_fenced w = true.
Definition after (d : Z) (w : CutoverWorld) : Prop := d < cw_now w.
Definition seals (f : Z) (w : CutoverWorld) : Prop := cw_fresh w = Some n -> sealed f w.
Definition seals_until (d : option Z) (f : Z) (w : CutoverWorld) : Prop :=
  cw_fresh w = Some n -> forall t, d = Some t -> cw_now w <= t -> sealed f w.

Lemma stable_and P Q : stable P -> stable Q -> stable (fun w => P w /\ Q w).
Proof. intros HP HQ w w' Hi He [? ?]. split; [by apply (HP w)|by apply (HQ w)]. Qed.
Lemma stable_or P Q : stable P -> stable Q -> stable (fun w => P w \/ Q w).
Proof. intros HP HQ w w' Hi He [?|?]; [left; by apply (HP w)|right; by apply (HQ w)]. Qed.
Lemma stable_pure (X : Prop) : stable (fun _ => X).
Proof. by intros w w' _ _. Qed.

Lemma stable_impl (X : Prop) P : stable P -> stable (fun w => X -> P w).
Proof. intros HP w w' Hi He H HX. apply (HP w); auto. Qed.

Lemma stable_copy s : stable (copy s).
Proof.
  intros w w' Hi He (o & Ho & Hm & Hd & Hs & Hf).
  destruct (ek_object _ _ He n o Ho) as [Ho'|Ho']; eexists; split_and!; try done.
  - intros [? ?]%(ek_fresh _ _ He). auto.
  - intros [? Hr]%(ek_fresh _ _ He). rewrite Hr, Ho in Ho'. injection Ho' as Ho'. rewrite <- Ho'. auto.
Qed.

Lemma live_ok_env w w' s o : env_keeps w w' -> live_ok w n (me_uid (sd_me o)) s -> live_ok w' n (me_uid (sd_me o)) s.
Proof.
  intros He Hl. eapply live_ok_mono; [done|..].
  - unfold live_claim. by rewrite (ek_source _ _ He).
  - apply He.
  - apply He.
  - intros a l. apply He.
Qed.

Lemma stable_ok_write s : stable (ok_write s).
Proof.
  intros w w' Hi He H [Hf Hr]%(ek_fresh _ _ He) o Ho. rewrite Hr in Ho. destruct (H Hf o Ho). split; try done.
  - intros Hd. eapply live_ok_env; eauto.
  - unfold live_claim. rewrite (ek_source _ _ He). intros Hc Hn. destruct (wr_commit0 Hc Hn). split; [done|]. by apply He.
Qed.

Lemma stable_outdated : stable outdated.
Proof. intros w w' Hi He H [? ?]%(ek_fresh _ _ He). done. Qed.
Lemma stable_in_history x : stable (in_history x).
Proof. intros w w' Hi He. unfold in_history. by rewrite (ek_source _ _ He). Qed.
Lemma stable_hidden : stable hidden.
Proof. intros w w' Hi He. unfold hidden, live_serving. by rewrite (ek_source _ _ He). Qed.
Lemma stable_claims : stable claims.
Proof. intros w w' Hi He. unfold claims, live_claim. by rewrite (ek_source _ _ He). Qed.
Lemma stable_object K : (forall me s p d d', (d = true -> d' = true) -> K (mkStored me s p d) -> K (mkStored me s p d')) -> stable (object_is K).
Proof.
  intros HK w w' Hi He H [m s p d'] Ho. destruct (ek_back _ _ He n _ Ho) as (d & Ho' & Hd). cbn in *.
  eapply HK; [exact Hd|]. by apply H.
Qed.
Lemma stable_uncommitted : stable uncommitted.
Proof. by apply stable_object. Qed.
Lemma stable_committed : stable committed.
Proof. by apply stable_object. Qed.
Lemma stable_left : stable left.
Proof. apply stable_object. unfold left_cutover. cbn. naive_solver. Qed.
Lemma stable_fenced : stable fenced.
Proof. intros w w' Hi He. unfold fenced. by rewrite (ek_fence _ _ He). Qed.
Lemma stable_after d : stable (after d).
Proof. intros w w' Hi He. unfold after. pose proof (ek_now _ _ He). lia. Qed.
Lemma stable_seals f : stable (seals f).
Proof. intros w w' Hi He H [Hf _]%(ek_fresh _ _ He). by apply He, H. Qed.
Lemma stable_seals_until d f : stable (seals_until d f).
Proof. intros w w' Hi He H [Hf _]%(ek_fresh _ _ He) t Ht Hle. apply He. pose proof (ek_now _ _ He). eapply H; eauto. lia. Qed.
Lemma stable_may_unfence : stable (may_unfence n).
Proof.
  intros w w' Hi He H [m s p d'] Ho. destruct (ek_back _ _ He n _ Ho) as (d & Ho' & Hd). pose proof (ek_now _ _ He).
  destruct (H _ Ho') as [[?|?]|[?|(t & ? & ?)]]; cbn in *; unfold left_cutover; cbn; [tauto|tauto|tauto|].
  right; right. exists t. split; [done|lia].
Qed.

End assertions.

Create HintDb stab.
#[export] Hint Resolve stable_and stable_or stable_impl stable_pure stable_copy stable_ok_write stable_outdated stable_in_history stable_hidden
  stable_claims stable_uncommitted stable_committed stable_left stable_fenced stable_after stable_seals stable_seals_until stable_may_unfence : stab.

(** ** Rules for the requests *)

Ltac stab := eauto 12 with stab.
Ltac phases := split; cbn; try done; try congruence; try lia; try (intros [?|?]; congruence); try (intros ? [?|?]; congruence).

Section requests.
Context (n : string) (me : Reshard) (del : bool) (Hname : me_name me = n).
Abbreviation own := (copy n me del).

Lemma t_read {A R} P (q : CutoverRequest R) (k : R -> CutoverProg A) F Q : stable P ->
  (forall x w w', cw_inv w -> P w -> serve true n q w x w' -> w' = w /\ F x w) ->
  (forall x, triple n (fun w => P w /\ F x w) (k x) Q) -> triple n P (Req q k) Q.
Proof.
  intros Hs Hq Hk. eapply (t_req n P q k (fun x w => P w /\ F x w)); [done| |done].
  intros x w w' Hi HP Hsv. destruct (Hq x w w' Hi HP Hsv) as [-> ?]. done.
Qed.

(** Requests whose answer the proof does not need. *)
Lemma t_skip {A R} P (q : CutoverRequest R) (k : R -> CutoverProg A) Q : stable P ->
  (forall x w w', serve true n q w x w' -> w' = w) -> (forall x, triple n P (k x) Q) -> triple n P (Req q k) Q.
Proof.
  intros Hs Hq Hk. apply (t_read P q k (fun _ _ => True)); [done|eauto|]. intros x. eapply t_pre; [apply Hk|]. by intros w _ [? _].
Qed.

Lemma t_get_source {A} P (k : option Source -> CutoverProg A) Q : stable P -> triple n P (k None) Q ->
  (forall x, triple n (fun w => P w /\ in_history x w) (k (Some x)) Q) -> triple n P (Req GetSource k) Q.
Proof.
  intros Hs Hn Hk. eapply (t_read P GetSource k (fun r w => match r with Some x => in_history x w | None => True end)); [done|..].
  - intros r w w' _ _ [[->|(x & ? & ->)] ->]; done.
  - intros [x|]; [done|]. eapply t_pre; [done|]. by intros w _ [? _].
Qed.

(** Writes of the status; in the cleanup the copy follows. *)
Lemma t_put s : triple n (ok_write n s) (must (UpdateStatus s)) (fun _ _ => True).
Proof.
  apply (t_req n _ _ _ (fun _ _ => True)); [by stab|..].
  - intros x w w' Hi Hw [[-> ->]|(o & Ho & Hfr & ->)]; [done|]. split; [apply cw_inv_fresh, store_status_inv; auto|done].
  - intros []; [|apply t_stop]. apply t_done; [by stab|done].
Qed.

Lemma t_must_status s s' F : del = true -> alike s s' -> stable F -> (forall w o f, F w -> F (set_fresh f (store_status n s' o w))) ->
  triple n (fun w => own s w /\ ok_write n s' w /\ F w) (must (UpdateStatus s'))
    (fun _ w => own s' w /\ object_is n (fun o => sd_status o = s') w /\ F w).
Proof.
  intros Hdel Hal HF HFs.
  apply (t_req n _ _ _ (fun x w => if x : bool then own s' w /\ object_is n (fun o => sd_status o = s') w /\ F w else True)); [by stab|..].
  - intros x w w' Hi [(o' & Ho' & Hm & Hd & _ & Hfd) [Hw HFw]] [[-> ->]|(o & Ho & Hfr & ->)]; [done|].
    split; [apply cw_inv_fresh, store_status_inv; auto|]. destruct x; [|done].
    assert (o' = o) as -> by congruence. destruct (Hfd Hfr) as (Hst & Hdl & Hall).
    assert (Hr : cw_reshards (store_status n s' o w) !! n = Some (next_status o s')).
    { unfold store_status. destruct (_ && _); cbn; by rewrite lookup_insert_eq. }
    split; [exists (next_status o s'); split_and!; auto|].
    + intros _. split_and!; [done..|]. intros p [->|Hp]%elem_of_cons; [by rewrite Hst|]. split; [done|].
      destruct (Hall p Hp) as [_ (? & ? & ? & ?)], Hal as (? & ? & ? & ?). unfold alike. split_and!; congruence.
    + split; [|by apply HFs]. intros q Hq. cbn in Hq. rewrite Hr in Hq. by injection Hq as <-.
  - intros []; [|apply t_stop]. apply t_done; [|done]. repeat apply stable_and; [by stab|by apply stable_object|done].
Qed.

Lemma t_must_outdated s Q : triple n (outdated n) (must (UpdateStatus s)) Q.
Proof.
  apply (t_req n _ _ _ (fun x _ => x = false)); [by stab|..].
  - intros x w w' Hi Ho [[-> ->]|(o & _ & Hfr & _)]; [done|]. by destruct Ho.
  - intros []; [|apply t_stop]. intros w w' r _ ?. done.
Qed.

Lemma t_finalizer s b : triple n (own s) (must (SetFinalizer b)) (fun _ w => b = true -> own s w).
Proof.
  apply (t_req n _ _ _ (fun x w => x = true -> b = true -> own s w)); [by stab|..].
  - intros x w w' Hi (o' & Ho' & Hm & Hd & Hst & Hfd) [[-> ->]|(o & Ho & Hfr & ->)]; [done|].
    split; [by apply cw_inv_fresh, store_finalizer_inv|]. intros -> ->. assert (o' = o) as -> by congruence.
    unfold store_finalizer. rewrite andb_false_r. eexists. cbn. rewrite lookup_insert_eq.
    split_and!; [reflexivity|cbn..]; auto.
  - intros []; [|apply t_stop]. apply t_done; [|by auto]. intros w w' Hi He H ? ?. eapply stable_copy; eauto.
Qed.

(** Writes of the source, from a copy [x] that is current if they take effect. *)
Lemma t_source {A} P x y (k : result bool Source -> CutoverProg A) P' Q : stable P -> so_version y = so_version x ->
  (forall w, P w -> in_history x w) ->
  (forall w, cw_inv w -> P w -> head (cw_source w) = Some x ->
     cw_inv (set_source (bump y :: cw_source w) w) /\ P' (set_source (bump y :: cw_source w) w)) ->
  triple n P (k (Err true)) Q -> triple n (fun _ => True) (k (Err false)) Q -> triple n P' (k (Ok (bump y))) Q ->
  triple n P (Req (UpdateSource y) k) Q.
Proof.
  intros Hs Hv Hin Hstep Ht Hf Hk.
  apply (t_req n P _ k (fun r w => match r with Ok z => z = bump y /\ P' w | Err true => P w | Err false => True end)); [done|..].
  - intros r w w' Hi HP [(c & -> & ->)|(x0 & Hh & Hvx & Hr & ->)]; [by destruct c|].
    assert (x = x0) as <- by (eapply source_current; [done..|by apply Hin|congruence]).
    destruct (Hstep w Hi HP Hh). by destruct Hr as [-> | ->].
  - intros [z|[]]; [|done..]. intros w w' r Hi [-> HP]. by apply Hk.
Qed.

Lemma own_uid s w : cw_inv w -> own s w -> exists o, cw_reshards w !! n = Some o /\ obj_ok w n o /\ same_me me (sd_me o) /\
  (s = sd_status o \/ s ∈ sd_prev o) /\ (cw_fresh w = Some n -> sd_status o = s /\ sd_deleted o = del).
Proof. intros Hi (o & Ho & Hm & _ & Hs & Hf). exists o. split_and!; auto; [by apply ci_objs|]. intros Hfr. by destruct (Hf Hfr) as (? & ? & _). Qed.

Lemma own_name s w : cw_inv w -> own s w -> n <> EmptyString /\ n ∈ cw_used w.
Proof.
  intros Hi (o & Ho & _). destruct (ci_used _ Hi) as (? & He & Hu). split; [by intros ->; congruence|].
  destruct (decide (n ∈ cw_used w)) as [|Hno]; [done|]. rewrite (Hu n Hno) in Ho. done.
Qed.

(** Hiding the source: only after the commit. *)
Lemma t_hide s x : triple n (fun w => own s w /\ committed n w /\ in_history x w) (update_source (with_serving false x))
  (fun y w => own s w /\ committed n w /\ in_history y w /\ hidden w).
Proof.
  eapply (t_source _ x _ _ (fun w => own s w /\ committed n w /\ in_history (bump (with_serving false x)) w /\ hidden w)); [by stab|done|..].
  - by intros w (_ & _ & ?).
  - intros w Hi (Ho & Hc & Hin) Hh. destruct (live_claim_head _ _ Hh) as [Hlc Hls]. split.
    + eapply cw_inv_source; cbn; try done; [lia|by apply ci_claim_used|].
      intros Hcm. rewrite <- Hlc. destruct (ci_commit _ Hi Hcm) as [?|[? _]]; auto.
    + split_and!; [done..| |done]. by apply elem_of_cons; left.
  - apply t_stop.
  - apply t_stop.
  - apply t_done; [by stab|done].
Qed.

(** Giving up the claim: after the commit with the source hidden, or by a deleted reshard. *)
Lemma t_release s x F : stable F -> (forall w l, F w -> F (set_source l w)) ->
  triple n (fun w => own s w /\ in_history x w /\ left n w /\ (hidden w \/ uncommitted n w) /\ F w) (releaseSourceClaim me x)
    (fun _ w => own s w /\ F w).
Proof.
  intros HF HFs. unfold releaseSourceClaim. case_bool_decide as Hcl; cbn; [|apply t_done; [by stab|by intros w _ (? & _ & _ & _ & ?)]].
  eapply (t_source _ x _ _ (fun w => own s w /\ F w)); [by stab|done|..].
  - by intros w (_ & ? & _).
  - intros w Hi (Ho & Hin & Hl & Hh & HFw) Hhd. destruct (live_claim_head _ _ Hhd) as [Hlc Hls].
    assert (Hxn : so_claim x = n) by congruence. split; [|split; [done|by apply HFs]].
    apply (cw_inv_source w x); cbn; try done; [lia|by rewrite Hxn|by apply ci_used|].
    intros Hcm. right. split; [done|]. destruct Hh as [Hh|Hh]; [by rewrite <- Hls|]. exfalso.
    destruct Ho as (o & Ho & _). destruct (ci_commit _ Hi Hcm) as [[_ Hall]|[E _]].
    + rewrite Hlc, Hxn in Hall. specialize (Hall o Ho). specialize (Hh o Ho). cbn in Hh. congruence.
    + destruct (ci_used _ Hi) as (_ & ? & _). congruence.
  - apply t_stop.
  - apply t_stop.
  - apply t_done; [by stab|done].
Qed.

(** Taking the claim of a source that serves. *)
Lemma t_claim s x : so_serving x = true ->
  triple n (fun w => own s w /\ in_history x w) (claimSource me x) (fun ok w => own s w /\ (ok = true -> claims n w \/ left n w)).
Proof.
  intros Hsv. unfold claimSource. case_bool_decide as Hcl.
  { apply t_done; [by stab|]. intros w Hi [Ho Hin]. split; [done|]. intros _.
    destruct (decide (so_claim x = live_claim w)) as [E|E]; [left; unfold claims; congruence|right].
    intros o Hr. eapply ci_claims; [done..|]. congruence. }
  destruct (negb (str_is_empty (so_claim x))) eqn:Ee; [apply t_done; [by stab|by intros w _ [? _]]|].
  apply negb_false_iff in Ee. assert (Hxe : so_claim x = EmptyString) by (unfold str_is_empty in Ee; by destruct (so_claim x)).
  destruct (me_finalizer me); cbn [negb].
  - eapply (t_source _ x _ _ (fun w => own s w /\ claims n w)); [by stab|done|..].
    + by intros w [_ ?].
    + intros w Hi [Ho Hin] Hhd. destruct (live_claim_head _ _ Hhd) as [Hlc Hls]. destruct (own_name _ _ Hi Ho) as [Hne Hu].
      split; [|split; [done|]; unfold claims; cbn; done].
      apply (cw_inv_source w x); cbn; try done; [lia|..].
      * intros _ o. rewrite Hxe. destruct (ci_used _ Hi) as (_ & -> & _). done.
      * by rewrite Hname.
      * intros Hcm. destruct (ci_commit _ Hi Hcm) as [[? _]|[_ ?]]; congruence.
    + apply t_done; [by stab|by intros w _ [? _]].
    + apply t_stop.
    + apply t_done; [by stab|]. intros w _ [? ?]. auto.
  - eapply t_bind.
    + eapply t_pre; [apply (t_finalizer s true)|]. by intros w _ [? _].
    + intros []. apply t_done; [|by intros w _ H; split; [apply H|]]. intros w w' Hi He H ?. eapply stable_copy; eauto.
Qed.

(** The fence. *)
Lemma t_fence {A} P pod (k : result Code unit -> CutoverProg A) Q : stable P ->
  (forall w b, P w -> P (set_fence b w)) -> (forall c, c <> InvalidArgument -> triple n P (k (Err c)) Q) ->
  triple n (fun w => P w /\ fenced w) (k (Ok tt)) Q -> triple n P (Req (FenceWrites pod false) k) Q.
Proof.
  intros Hs HP He Hk.
  apply (t_req n P _ k (fun r w => P w /\ match r with Ok _ => fenced w | Err c => c <> InvalidArgument end)); [done|..].
  - intros r w w' Hi Hp [(c & -> & Hc & ->)|(_ & Hr & ->)]; [by auto|].
    split; [by apply fence_inv|]. split; [by apply HP|]. by destruct Hr as [-> | ->].
  - intros [[]|c]; [done|]. intros w w' r Hi [? ?]. by apply He.
Qed.

Lemma t_unfence_rpc {A} P pod (k : result Code unit -> CutoverProg A) Q : stable P ->
  (forall w, cw_inv w -> P w -> exists o, cw_reshards w !! n = Some o /\ live_claim w = n /\ st_committed (sd_status o) = false /\ may_unfence n w) ->
  (forall w b, P w -> P (set_fence b w)) -> (forall r, triple n P (k r) Q) -> triple n P (Req (FenceWrites pod true) k) Q.
Proof.
  intros Hs Hw HP Hk. apply (t_req n P _ k (fun _ w => P w)); [done| |done].
  intros r w w' Hi Hp [(c & -> & Hc & ->)|(_ & Hr & ->)]; [done|].
  destruct (Hw w Hi Hp) as (o & ? & ? & ? & ?). split; [by eapply unfence_inv|by apply HP].
Qed.

(** The journal, on a fenced source. *)
Lemma t_emit {A} s pod ss (k : result Code Z -> CutoverProg A) Q : st_phase s = CuttingOver -> st_committed s = false ->
  (forall c, rejects_freeze c = false -> triple n (own s) (k (Err c)) Q) ->
  (forall l, 0 < l < i64_MAX -> triple n (fun w => own s w /\ seals_until n (st_deadline s) l w) (k (Ok l)) Q) ->
  del = false ->
  triple n (fun w => own s w /\ fenced w) (Req (EmitJournal pod (journal_id me s) ss) k) Q.
Proof.
  intros Hp Hc He Hk Hdel.
  apply (t_req n _ _ k (fun r w => own s w /\ match r with
    | Ok l => 0 < l < i64_MAX /\ seals_until n (st_deadline s) l w | Err c => rejects_freeze c = false end)); [by stab|..].
  - intros r w w' Hi [Ho Hf]. destruct (own_uid _ _ Hi Ho) as (o & Hr & Hok & Hm & Hs & Hfr).
    assert (Hid : journal_id me s = (me_uid (sd_me o), st_attempt s)) by (unfold journal_id; destruct Hm as (_ & -> & _); done).
    intros [(c & -> & Hrej & ->)|[(_ & l & Hl & -> & ->)|(_ & Hl & Hlt & Hres)]].
    + by auto.
    + split_and!; [done..|by eapply ci_journal|by eapply ci_journal|]. intros Hfresh t Ht Hle.
      destruct (Hfr Hfresh) as [Hst Hd]. rewrite Hdel in Hd. rewrite Hid in Hl.
      destruct (lo_during _ _ _ _ (oo_live _ _ _ Hok Hd)) as (_ & d & Hdl & _ & Hj); [congruence..|].
      rewrite Hst in *. apply Hj; [done|]. congruence.
    + pose proof (emit_inv w n o s Hi Hf Hr Hs Hp Hlt) as Hinv. rewrite Hid in *.
      destruct Hres as [[-> ->]|[-> ->]]; [|split_and!; [by apply barrier_inv|done..]].
      split_and!; [done..|unfold wal_next; lia|lia|]. intros _ t _ _. apply (sealed_next _ w Hf).
  - intros [l|c]; intros w w' r Hi [? Hx]; [destruct Hx; by eapply Hk|by eapply He].
Qed.

(** ** The statuses the handlers write *)

(** A change of the current status, whatever came before it. *)
Record change (s' : ReshardStatus) (w : CutoverWorld) (o : Stored) : Prop := mkChange {
  ch_prev : prev_ok (sd_deleted o) (sd_status o) s';
  ch_live : sd_deleted o = false -> live_ok w n (me_uid (sd_me o)) s';
  ch_frozen : st_committed (sd_status o) = true -> st_frozen s' = st_frozen (sd_status o);
  ch_commit : st_committed s' = true -> st_committed (sd_status o) = false -> live_claim w = n /\ sealed (st_frozen s') w;
}.

Lemma prev_ok_alike p s s' : prev_ok true s s' -> alike p s -> st_committed s' = st_committed s -> prev_ok true p s'.
Proof. intros [] (Hp & Ht & Ha & Hc) Hs. split; try congruence. rewrite Hp, Ha. done. Qed.

Lemma ok_intro s s' w : cw_inv w -> own s w -> (del = true -> st_committed s' = st_committed s) ->
  (forall o, cw_reshards w !! n = Some o -> obj_ok w n o -> sd_status o = s -> sd_deleted o = del -> change s' w o) -> ok_write n s' w.
Proof.
  intros Hi (o' & Hr' & _ & _ & _ & Hfr) Hc Hw Hf o Hr. assert (o' = o) as -> by congruence. destruct (Hfr Hf) as (Hs & Hd & Hall).
  destruct (Hw o Hr (ci_objs _ Hi _ _ Hr) Hs Hd) as []. split; [|done..].
  intros p [->|Hp]%elem_of_cons; [done|]. destruct (Hall p Hp) as [Hdel Hal]. rewrite Hd, Hdel, Hs in *.
  eapply prev_ok_alike; eauto.
Qed.

Lemma ok_hold s w : cw_inv w -> own s w -> ok_write n s w.
Proof.
  intros Hi Ho. apply (ok_intro s); [done..|done|]. intros o Hr [] Hs Hd. subst s. split; [|done|done|congruence].
  phases.
Qed.

Lemma ok_failed s w : cw_inv w -> own s w -> ok_write n (failed s) w.
Proof.
  intros Hi Ho. apply (ok_intro s); [done..|done|]. intros o Hr [] Hs Hd. subst s. split; cbn.
  - phases.
  - intros _. phases.
  - done.
  - congruence.
Qed.

Lemma ok_gate s t w : st_phase s = ReadyToCutover -> del = false -> cw_inv w -> own s w -> (claims n w \/ left n w) ->
  ok_write n (with_phase CuttingOver (with_deadline (Some t) s)) w.
Proof.
  intros Hp Hdel Hi Ho Hc. apply (ok_intro s); [done..|done|]. intros o Hr [] <- Hd.
  rewrite Hdel in Hd. destruct (oo_live0 Hd) as [Hb _]. destruct (Hb (or_intror Hp)) as (Hcm & Hfz & Hj).
  assert (Hcl : live_claim w = n). { destruct Hc as [?|Hl]; [done|]. destruct (Hl o Hr); congruence. }
  split; cbn.
  - phases.
  - intros _. phases. intros _ _. split; [done|]. exists t. split_and!; [done|congruence|]. congruence.
  - done.
  - congruence.
Qed.

(** A change that keeps the deadline and the attempt of a running cutover. *)
Lemma ok_during s s' w : st_phase s = CuttingOver -> del = false -> st_committed s = false -> cw_inv w -> own s w ->
  st_phase s' = CuttingOver -> st_targets s' = st_targets s -> st_deadline s' = st_deadline s -> st_attempt s' = st_attempt s ->
  st_committed s' = false -> (st_fenced s = true -> st_fenced s' = true) ->
  (st_frozen s' = st_frozen s \/ st_fenced s' = true /\ seals_until n (st_deadline s) (st_frozen s') w) -> ok_write n s' w.
Proof.
  intros Hp Hdel Hc Hi Ho Hp' Ht Hd' Ha Hc' Hfc Hfz Hfresh. revert Hfresh. intros Hfresh.
  refine (ok_intro s s' w Hi Ho ltac:(congruence) _ Hfresh). intros o Hr [] <- Hd. rewrite Hdel in Hd. destruct (oo_live0 Hd) as [_ Hdu].
  destruct (Hdu Hp Hc) as (Hcl & d & Hdl & Hfr & Hj). split.
  - phases.
  - intros _. phases. intros _ _. split; [done|]. exists d. split_and!; [congruence| |by rewrite Ha].
    intros H0. destruct Hfz as [E|[Hf Hs]].
    + rewrite E in *. destruct (Hfr H0). auto.
    + split; [done|]. intros Hle. by eapply Hs.
  - congruence.
  - congruence.
Qed.

Lemma ok_commit s w : st_phase s = CuttingOver -> del = false -> st_committed s = false -> st_frozen s <> 0 -> cw_inv w -> own s w ->
  seals n (st_frozen s) w -> ok_write n (with_committed true s) w.
Proof.
  intros Hp Hdel Hc Hfz Hi Ho Hsl Hfresh. refine (ok_intro s _ w Hi Ho ltac:(congruence) _ Hfresh). intros o Hr [] <- Hd. rewrite Hdel in Hd.
  destruct (oo_live0 Hd) as [_ Hdu]. destruct (Hdu Hp Hc) as (Hcl & d & Hdl & Hfr & Hj). destruct (Hfr Hfz) as [Hfe _].
  split; cbn.
  - phases. intros _ _. split; congruence.
  - intros _. phases.
  - done.
  - intros _ _. split; [done|]. by apply Hsl.
Qed.

Lemma ok_reset s b w : st_phase s = CuttingOver -> st_committed s = false -> cw_inv w -> own s w ->
  ok_write n (with_phase CatchingUp (with_attempt (st_attempt s + 1) (with_frozen 0 (with_observed None (with_deadline None (with_fenced b s)))))) w.
Proof.
  intros Hp Hc Hi Ho. apply (ok_intro s); [done..|done|]. intros o Hr [] <- Hd. split; cbn.
  - phases.
  - intros _. phases. intros _. split_and!; [done..|]. apply oo_future0. lia.
  - congruence.
  - congruence.
Qed.

Lemma ok_switched s w : cw_inv w -> own s w -> ok_write n (with_phase SwitchedForward (with_deadline None s)) w.
Proof.
  intros Hi Ho. apply (ok_intro s); [done..|done|]. intros o Hr [] <- Hd. split; cbn.
  - phases.
  - intros _. phases.
  - done.
  - congruence.
Qed.

(** The cleanup of a deleted reshard. *)
Lemma ok_cleanup s s' w : del = true -> cw_inv w -> own s w -> st_phase s' = st_phase s -> st_targets s' = st_targets s ->
  st_attempt s' = st_attempt s -> st_committed s' = st_committed s -> st_frozen s' = st_frozen s -> ok_write n s' w.
Proof.
  intros Hdel Hi Ho Hp Ht Ha Hc Hf. apply (ok_intro s); [done..|done|]. intros o Hr [] <- Hd. rewrite Hdel in Hd. split.
  - phases.
  - congruence.
  - congruence.
  - congruence.
Qed.

(** ** The handlers *)

(** A handler that returns [s'] from a copy with status [s]. *)
Definition ends (s s' : ReshardStatus) (w : CutoverWorld) : Prop := own s w /\ ok_write n s' w.

Lemma t_ret P s s' : stable P -> (forall w, cw_inv w -> P w -> own s w /\ ok_write n s' w) -> triple n P (Done s') (ends s).
Proof. intros Hs H. by apply t_done. Qed.

Lemma t_hold P s : stable P -> (forall w, P w -> own s w) -> triple n P (Done s) (ends s).
Proof. intros Hs H. apply t_ret; [done|]. intros w Hi Hw. split; [auto|apply ok_hold; auto]. Qed.

Lemma t_pure {A} (X : Prop) P (p : CutoverProg A) Q : (forall w, cw_inv w -> P w -> X) -> (X -> triple n P p Q) -> triple n P p Q.
Proof. intros HX Ht w w' r Hi HP. by apply Ht; [eapply HX|..]. Qed.

Lemma t_unfence s F : stable F -> (forall w b, F w -> F (set_fence b w)) ->
  triple n (fun w => own s w /\ may_unfence n w /\ F w) (unfenceSource me) (fun _ w => own s w /\ F w).
Proof.
  intros HF HFs. unfold unfenceSource. cbn.
  apply (t_read _ _ _ (fun x w => live_claim w = so_claim x)); [by stab| |].
  { intros x w w' Hi _ [Hh ->]. split; [done|]. by apply live_claim_head. }
  intros x. case_bool_decide as Hc; cbn; [|apply t_done; [|by intros w _ [(? & _ & ?) _]]].
  2: { apply stable_and; [by stab|]. intros w w' Hi He. unfold live_claim. by rewrite (ek_source _ _ He). }
  eapply (t_pre n _ (fun w => (own s w /\ may_unfence n w /\ F w) /\ claims n w)).
  2: { intros w _ [? E]. split; [done|]. unfold claims. congruence. }
  apply (t_read _ _ _ (fun r w => snd r = false -> uncommitted n w)); [by stab| |].
  { intros r w w' Hi _ (o & Ho & -> & ->). split; [done|]. cbn. intros Hcm o' Ho'. congruence. }
  intros r. destruct (negb (bool_decide (fst r = me_uid me)) || snd r) eqn:E.
  { apply t_done; [by stab|by intros w _ [[(? & _ & ?) _] _]]. }
  apply orb_false_iff in E as [_ E].
  eapply (t_pre n _ (fun w => (own s w /\ may_unfence n w /\ F w) /\ claims n w /\ uncommitted n w)); [|intros w _ [[? ?] Hu]; auto].
  apply t_skip; [by stab|by intros ? ? ?|]. intros pd. destruct (verified pd) as [pod|]; cbn.
  2: { apply t_done; [by stab|by intros w _ [(? & _ & ?) _]]. }
  apply t_unfence_rpc; [by stab|..].
  - intros w Hi [((o & Ho & _) & Hm & _) [Hcl Hun]]. exists o. split_and!; [done..|by apply Hun|done].
  - intros w b [(? & ? & ?) [? ?]]. split_and!; auto.
  - intros [[]|c].
    + apply t_skip; [by stab|by intros ? ? ?|]. intros pd'. apply t_done; [by stab|by intros w _ [(? & _ & ?) _]].
    + apply t_done; [by stab|by intros w _ [(? & _ & ?) _]].
Qed.

Lemma t_rollback s : st_phase s = CuttingOver -> st_committed s = false ->
  triple n (fun w => own s w /\ may_unfence n w) (rollBackCutover me s) (ends s).
Proof.
  intros Hp Hc. unfold rollBackCutover. rewrite Hc, andb_true_r. destruct (st_fenced s) eqn:Hf.
  - eapply (t_bind n _ _ (fun _ w => own s w /\ True)).
    + eapply t_pre; [apply (t_unfence s (fun _ => True)); [by stab|done]|]. by intros w _ [? ?].
    + intros []; cbn; [|apply t_hold; [by stab|by intros w [? _]]].
      apply t_ret; [by stab|]. intros w Hi [Ho _]. split; [done|]. by apply (ok_reset s false).
  - apply t_ret; [by stab|]. intros w Hi [Ho _]. split; [done|].
    replace (with_deadline None s) with (with_deadline None (with_fenced (st_fenced s) s)) by (by destruct s). by apply (ok_reset s).
Qed.

(** On an outdated copy nothing of a failure is stored. *)
Lemma t_fail_outdated s x : st_committed s = false -> st_fenced s = true ->
  triple n (fun w => own s w /\ may_unfence n w /\ outdated n w) (failCutover me s (Some x)) (ends s).
Proof.
  intros Hc Hf. unfold failCutover. rewrite Hc, Hf. eapply t_bind; [apply (t_unfence s (outdated n)); [by stab|done]|].
  intros []; cbn [negb].
  - eapply t_bind; [|intros ?; apply (t_pre n _ (fun _ => False)); [by intros ????|by intros w ? H; exact H]].
    eapply t_pre; [apply t_must_outdated|]. by intros w _ [_ ?].
  - apply t_hold; [by stab|by intros w [? _]].
Qed.

Lemma t_resolve s : triple n (own s) (resolveSource me s)
  (fun r w => match r with inl s' => ends s s' w | inr x => own s w /\ in_history x w /\ so_serving x = true end).
Proof.
  unfold resolveSource. cbn. apply t_get_source; [by stab|..].
  - apply t_done; [by stab|]. intros w Hi Ho. split; [done|by apply ok_hold].
  - intros x. assert (Hfail : triple n (fun w => own s w /\ in_history x w) (Done (inl (failed s)))
      (fun r w => match r with inl s' => ends s s' w | inr x => own s w /\ in_history x w /\ so_serving x = true end)).
    { apply t_done; [by stab|]. intros w Hi [Ho _]. split; [done|by apply ok_failed]. }
    destruct (_ || _); [done|]. destruct (so_serving x) eqn:Hs; [|done]. cbn [negb]. destruct (so_system x); [done|].
    apply t_done; [by stab|]. by intros w _ [? ?].
Qed.

Lemma t_ready s : st_phase s = ReadyToCutover -> del = false -> triple n (own s) (reconcileReadyToCutover me s) (ends s).
Proof.
  intros Hp Hdel. eapply t_bind; [apply t_resolve|]. intros [s'|x].
  - apply t_done; [|done]. unfold ends. by stab.
  - eapply (t_pure (so_serving x = true)); [by intros w _ (_ & _ & ?)|]. intros Hsv. eapply t_bind.
    + eapply t_pre; [by apply (t_claim s)|]. by intros w _ (? & ? & _).
    + intros []; cbn [negb]; [|apply t_hold; [by stab|by intros w [? _]]]. apply t_skip; [by stab|by intros ? ? ? [_ ->]|]. intros t.
      apply t_ret; [by stab|]. intros w Hi [Ho Hc]. split; [done|]. apply ok_gate; auto.
Qed.

(** What the clock says about the deadline: it is over, or the barrier still seals. *)
Definition clock (s : ReshardStatus) (t : Z) (w : CutoverWorld) : Prop :=
  (forall d, st_deadline s = Some d -> d < t -> after d w) /\
  (expired t (st_deadline s) = false -> st_frozen s <> 0 -> seals n (st_frozen s) w).

Lemma stable_clock s t : stable (clock s t).
Proof.
  apply stable_and; [|by stab]. intros w w' Hi He H d Hd Hlt. eapply stable_after; eauto.
Qed.
#[local] Hint Resolve stable_clock : stab.

Lemma t_clock {A} s P (k : Z -> CutoverProg A) Q : st_phase s = CuttingOver -> st_committed s = false -> del = false -> stable P ->
  (forall w, P w -> own s w) -> (forall t, triple n (fun w => P w /\ clock s t w) (k t) Q) -> triple n P (Req Now k) Q.
Proof.
  intros Hp Hc Hdel Hs HP Hk. eapply (t_read P Now k (clock s)); [done| |done].
  intros t w w' Hi Hw [-> ->]. split; [done|]. split; [by unfold after|]. intros He H0 Hfresh.
  destruct (own_uid _ _ Hi (HP w Hw)) as (o & Hr & Hok & _ & _ & Hfr). destruct (Hfr Hfresh) as [<- Hd]. rewrite Hdel in Hd.
  destruct (lo_during _ _ _ _ (oo_live _ _ _ Hok Hd) Hp Hc) as (_ & d & Hdl & Hf & _).
  apply Hf; [done|]. rewrite Hdl in He. cbn in He. lia.
Qed.

(** Past the deadline the claim's holder may un-fence. *)
Lemma expired_may_unfence s t w : st_phase s = CuttingOver -> st_committed s = false -> cw_inv w -> own s w -> clock s t w ->
  expired t (st_deadline s) = true -> may_unfence n w.
Proof.
  intros Hp Hc Hi Ho [Hk _] He o Hr. destruct (own_uid _ _ Hi Ho) as (o' & Hr' & [] & _ & Hs & _).
  assert (o' = o) as -> by congruence. destruct (st_deadline s) as [d|] eqn:Hd; [|done]. cbn in He.
  assert (Hlt : d < cw_now w) by (apply Hk; [done|lia]).
  destruct (st_committed (sd_status o)) eqn:Hcm; [by left; left|]. destruct (sd_deleted o) eqn:Hdl; [by left; right|].
  destruct (decide (st_phase (sd_status o) = CuttingOver)) as [Hph|]; [|by right; left]. right; right. exists d. split; [|done].
  destruct Hs as [->|Hs]; [done|]. destruct (po_same _ _ _ (oo_prev0 s Hs)) as [E _]; congruence.
Qed.

Lemma t_quiesced s P : st_phase s = CuttingOver -> st_committed s = false -> del = false -> stable P -> (forall w, P w -> own s w) ->
  triple n P (quiesced me s) (fun r w => match r with inl s' => ends s s' w | inr _ => P w end).
Proof.
  intros Hp Hc Hdel Hs HP. unfold quiesced. cbn. apply t_skip; [done|by intros ? ? ?|].
  assert (Hhold : triple n P (Done (@inl _ unit s)) (fun r w => match r with inl s' => ends s s' w | inr _ => P w end)).
  { apply t_done; [done|]. intros w Hi Hw. split; [auto|apply ok_hold; auto]. }
  intros [routing|]; [|done]. destruct (negb _); [done|]. destruct (st_observed s) as [t|] eqn:Ho.
  - apply t_skip; [done|by intros ? ? ? [_ ->]|]. intros now. destruct (_ <? _); [done|]. by apply t_done.
  - apply t_skip; [done|by intros ? ? ? [_ ->]|]. intros now. apply t_done; [done|]. intros w Hi Hw. split; [auto|].
    apply (ok_during s); auto.
Qed.

Lemma successors_ok names ranges : Forall (fun b => is_ok (toRange b) = true) ranges -> exists l, successors_of names ranges = Ok l.
Proof.
  revert ranges. induction names as [|name names IH]; intros [|b ranges] Hr; cbn; eauto. inversion Hr as [|? ? Hb Hr']; subst.
  destruct (toRange b) as [r|]; [|done]. destruct (IH ranges Hr') as [l ->]. cbn. eauto.
Qed.

Lemma t_freeze s x : st_phase s = CuttingOver -> st_committed s = false -> del = false -> st_fenced s = true ->
  triple n (own s) (freezeSource me s x) (ends s).
Proof.
  intros Hp Hc Hdel Hf. unfold freezeSource. cbn. apply t_skip; [by stab|by intros ? ? ?|]. intros pd.
  assert (Hhold : triple n (own s) (Done s) (ends s)) by (apply t_hold; [by stab|done]).
  destruct (verified pd) as [pod|]; [|done]. apply t_fence; [by stab|done|by intros []|].
  apply (t_pure (exists l, successors_of (st_targets s) (me_ranges me) = Ok l)).
  { intros w Hi [Ho _]. destruct (own_uid _ _ Hi Ho) as (o & _ & [] & Hm & _). apply successors_ok.
    destruct Hm as (_ & _ & _ & _ & _ & ->). done. }
  intros [l ->]. apply t_emit; [done..|by intros c ->| |done]. intros lsn Hl.
  destruct (Z.eqb_spec lsn 0); [lia|]. apply t_skip; [by stab|by intros ? ? ?|]. intros pd'.
  destruct (confirms _ _); [|apply t_hold; [by stab|by intros w [? _]]].
  apply t_ret; [by stab|]. intros w Hi [Ho Hs]. split; [done|]. apply (ok_during s); auto. right. split; [done|]. cbn.
  replace (as_i64 lsn) with lsn by (unfold as_i64, i64_MIN, i64_MAX, two64 in *; rewrite Z.mod_small; lia). done.
Qed.

(** Only an outdated copy finds a target of this reshard foreign: it serves already. *)
Lemma foreign_outdated s w i name t : cw_inv w -> own s w -> st_committed s = false -> st_targets s !! i = Some name ->
  cw_targets w !! name = Some t -> foreignTarget me t (me_ranges me !! i) = true -> (may_unfence n w /\ outdated n w) /\ st_fenced s = true.
Proof.
  intros Hi Ho Hc Hn Ht Hf. destruct (own_uid _ _ Hi Ho) as (o & Hr & [] & Hm & Hs & Hfr).
  destruct (oo_targets0 i name) as (t' & Ht' & (H1 & H2 & H3 & H4) & Hsv).
  { destruct Hs as [->|Hs]; [done|]. by rewrite <- (po_targets _ _ _ (oo_prev0 s Hs)). }
  assert (t' = t) as -> by congruence. destruct Hm as (_ & Hu & _ & _ & Hcl & Hrg).
  unfold foreignTarget in Hf. rewrite !bool_decide_eq_true_2, H4 in Hf by congruence. cbn in Hf. rewrite orb_false_r in Hf.
  specialize (Hsv Hf). split; [split|].
  - intros o' Hr'. left; left. congruence.
  - intros Hfresh. destruct (Hfr Hfresh). congruence.
  - destruct Hs as [->|Hs]; [congruence|]. by apply (po_commit _ _ _ (oo_prev0 s Hs)).
Qed.

Lemma t_barrier s x i names P : st_committed s = false ->
  stable P -> (forall w, P w -> own s w) -> (forall j name, names !! j = Some name -> st_targets s !! (i + j)%nat = Some name) ->
  triple n P (barrierAcknowledged me s x i names) (fun a w => match a with Held s' => ends s s' w | _ => P w end).
Proof.
  intros Hc Hs HP. revert i. induction names as [|name names IH]; intros i Hn; cbn; [by apply t_done|].
  set (Q := fun (a : Ack) w => match a with Held s' => ends s s' w | _ => P w end).
  assert (Hhold : triple n P (Done (Held s)) Q). { apply t_done; [done|]. intros w Hi Hw. split; [auto|apply ok_hold; auto]. }
  eapply (t_read P _ _ (fun r w => match r with
    | Some t => foreignTarget me t (me_ranges me !! i) = true -> own s w /\ (may_unfence n w /\ outdated n w) /\ st_fenced s = true | None => True end)); [done|..].
  { intros r w w' Hi Hw [[->|Hr] ->]; [done|]. split; [done|]. destruct r as [t|]; [|done]. intros Hfor. split; [auto|].
    eapply foreign_outdated; eauto. rewrite <- (Nat.add_0_r i). by apply Hn. }
  intros [t|]; [|by eapply t_pre; [apply Hhold|intros w _ [? _]]]. destruct (foreignTarget _ _ _).
  { apply (t_pure (st_fenced s = true)); [by intros w _ [_ H']; apply H'|]. intros Hf.
    eapply (t_bind n _ _ (ends s)); [|intros s'; apply t_done; [unfold ends; by stab|done]].
    eapply t_pre; [by apply (t_fail_outdated s x)|]. intros w _ [_ H']. by destruct (H' eq_refl) as (? & ? & _). }
  eapply (t_pre n _ P); [|by intros w _ [? _]].
  apply t_skip; [done|by intros ? ? ?|]. intros pd. destruct (verified pd) as [pod|]; [|done].
  apply t_skip; [done|by intros ? ? ?|]. intros [[streaming journal]|]; [|done].
  apply t_skip; [done|by intros ? ? ?|]. intros pd'. destruct (negb (confirms _ _)); [done|].
  destruct (negb streaming); [done|]. destruct (_ <? _); [by apply t_done|].
  apply IH. intros j nm Hj. rewrite Nat.add_succ_comm. by apply Hn.
Qed.

(** ** After the commit *)

Lemma own_committed s w : cw_inv w -> own s w -> st_committed s = true -> committed n w.
Proof.
  intros Hi Ho Hc o Hr. destruct (own_uid _ _ Hi Ho) as (o' & Hr' & [] & _ & Hs & _). assert (o' = o) as -> by congruence.
  destruct Hs as [<-|Hs]; [done|]. by apply (po_committed _ _ _ (oo_prev0 s Hs)).
Qed.

Lemma t_serve_targets s x names : (forall name, name ∈ names -> name ∈ st_targets s) ->
  triple n (fun w => own s w /\ committed n w /\ in_history x w) (serve_targets names) (fun _ w => own s w /\ committed n w /\ in_history x w).
Proof.
  intros Hn. induction names as [|name names IH]; cbn; [apply t_done; [by stab|done]|].
  assert (Hrest : triple n (fun w => own s w /\ committed n w /\ in_history x w) (serve_targets names)
    (fun _ w => own s w /\ committed n w /\ in_history x w)) by (apply IH; intros; apply Hn; by apply elem_of_cons; right).
  apply t_skip; [by stab|by intros ? ? ? [_ ->]|]. intros [t|]; [|apply t_stop]. destruct (ta_serving t); [done|].
  apply (t_req n _ _ _ (fun _ w => own s w /\ committed n w /\ in_history x w)); [by stab| |by intros []; [|apply t_stop]].
  intros r w w' Hi (Ho & Hc & Hx) [[-> ->]|(t' & Ht & ->)]; [done|]. split; [|done].
  destruct (own_uid _ _ Hi Ho) as (o & Hr & [] & _ & Hs & _).
  destruct (list_elem_of_lookup_1 (st_targets s) name) as [i Hi']; [apply Hn; by apply elem_of_cons; left|].
  eapply (serve_target_inv w n o name i); auto. destruct Hs as [<-|Hs]; [done|]. by rewrite <- (po_targets _ _ _ (oo_prev0 s Hs)).
Qed.

Lemma t_complete source_name s x : st_committed s = true ->
  triple n (fun w => own s w /\ in_history x w) (completeSwitch me source_name s x) (ends s).
Proof.
  intros Hc. unfold completeSwitch. eapply t_bind.
  { eapply t_pre; [by apply (t_serve_targets s x)|]. intros w Hi [? ?]. split_and!; [done| |done]. by eapply own_committed. }
  intros u. eapply (t_bind n _ _ (fun y w => own s w /\ committed n w /\ in_history y w /\ hidden w)).
  { destruct (so_serving x) eqn:Hsv; [apply t_hide|]. apply t_done; [by stab|]. intros w Hi (? & ? & ?). split_and!; [done..|].
    by eapply ci_hidden. }
  intros y. cbn. apply t_skip; [by stab|by intros ? ? ?|]. intros [routing|]; [|apply t_stop].
  destruct (negb _); [apply t_hold; [by stab|by intros w [? _]]|].
  eapply t_bind.
  - eapply t_pre; [apply (t_release s y (fun _ => True)); [by stab|done]|]. intros w Hi (? & Hcm & ? & ?). split_and!; [done..| |by left|done].
    intros o Ho. left. by apply Hcm.
  - intros ?. apply t_ret; [by stab|]. intros w Hi [? _]. split; [done|by apply ok_switched].
Qed.

Lemma req_bind {A R} (q : CutoverRequest R) (k : R -> CutoverProg A) : (req q ≫= k) = Req q k.
Proof. done. Qed.

Lemma own_fixed s w : cw_inv w -> own s w -> cw_cluster w = Some (me_cluster_uid me) /\
  (forall x, in_history x w -> so_uid x = me_source_uid me) /\ length (st_targets s) = length (me_ranges me).
Proof.
  intros Hi Ho. destruct (own_uid _ _ Hi Ho) as (o & _ & [] & (_ & _ & -> & -> & _ & ->) & Hs & _). split_and!; [done..|].
  destruct Hs as [->|Hs]; [done|]. by rewrite (po_targets _ _ _ (oo_prev0 s Hs)).
Qed.

(** The targets answer, and the clock is read again before the commit. *)
Lemma t_acks s x : st_phase s = CuttingOver -> st_committed s = false -> del = false -> st_frozen s <> 0 -> forall t,
  expired t (st_deadline s) = false ->
  triple n (fun w => own s w /\ clock s t w) (ack ← barrierAcknowledged me s x 0 (st_targets s);
    match ack with
    | Held s' => Done s'
    | NotYet => Done s
    | Acked => now ← req Now; if expired now (st_deadline s) then rollBackCutover me s else Done (with_committed true s)
    end) (ends s).
Proof.
  intros Hp Hc Hdel Hfz t He. eapply t_bind.
  { apply (t_barrier s x 0 _ (fun w => own s w /\ clock s t w)); [done..|by stab|by intros w [? _]|done]. }
  intros [| |s'].
  - apply (t_clock s); [done..|by stab|by intros w [? _]|]. intros t'. destruct (expired t' (st_deadline s)) eqn:He'.
    + eapply t_pre; [by apply t_rollback|]. intros w Hi [[? ?] ?]. split; [done|]. by eapply (expired_may_unfence s t').
    + apply t_ret; [by stab|]. intros w Hi [[Ho _] [_ Hk]]. split; [done|]. apply ok_commit; auto.
  - apply t_hold; [by stab|by intros w [? _]].
  - apply t_done; [unfold ends; by stab|done].
Qed.

Lemma t_cutting_over source_name s : st_phase s = CuttingOver -> del = false ->
  triple n (own s) (reconcileCuttingOver me source_name s) (ends s).
Proof.
  intros Hp Hdel. unfold reconcileCuttingOver. rewrite req_bind.
  assert (Hhold : triple n (own s) (Done s) (ends s)) by (apply t_hold; [by stab|done]).
  apply (t_read _ _ _ (fun r _ => r = None \/ r = Some (me_cluster_uid me))); [by stab|..].
  { intros r w w' Hi Ho [Hr ->]. split; [done|]. by destruct (own_fixed _ _ Hi Ho) as [<- _]. }
  intros r. apply (t_pure (r = None \/ r = Some (me_cluster_uid me))); [by intros w _ [_ ?]|]. intros Hr.
  eapply (t_pre n _ (own s)); [|by intros w _ [? _]].
  destruct Hr as [->| ->]; [done|]. rewrite bool_decide_eq_true_2 by done. cbn [negb].
  rewrite req_bind. apply t_get_source; [by stab|done|]. intros x. apply (t_pure (so_uid x = me_source_uid me /\ length (st_targets s) = length (me_ranges me))).
  { intros w Hi [Ho Hx]. destruct (own_fixed _ _ Hi Ho) as (_ & Hu & ?). auto. }
  intros [Hu Hlen]. rewrite bool_decide_eq_true_2 by done. cbn [negb]. rewrite Hlen, Nat.eqb_refl. cbn [negb].
  destruct (st_committed s) eqn:Hc; [by apply t_complete|]. eapply (t_pre n _ (own s)); [|by intros w _ [? _]].
  rewrite req_bind. apply (t_clock s); [done..|by stab|done|]. intros t. destruct (expired t (st_deadline s)) eqn:He.
  { eapply t_pre; [by apply t_rollback|]. intros w Hi [? ?]. split; [done|]. by eapply (expired_may_unfence s t). }
  eapply t_bind.
  { apply (t_quiesced s (fun w => own s w /\ clock s t w)); [done..|by stab|by intros w [? _]]. }
  intros [s'|[]]; [apply t_done; [unfold ends; by stab|done]|].
  destruct (Z.eqb_spec (st_frozen s) 0) as [Hz|Hz]; cbn [andb].
  - destruct (st_fenced s) eqn:Hf; cbn [negb].
    + eapply t_pre; [by apply t_freeze|]. by intros w _ [? _].
    + apply t_ret; [by stab|]. intros w Hi [Ho _]. split; [done|]. apply (ok_during s); auto.
  - apply (t_acks s x); auto.
Qed.

Definition found_source (x : option Source) (w : CutoverWorld) : Prop := match x with Some x => in_history x w | None => True end.

Lemma stable_found x : stable (found_source x).
Proof. destruct x; cbn; by stab. Qed.
#[local] Hint Resolve stable_found : stab.

Lemma found_store x s o f w : found_source x w -> found_source x (set_fresh f (store_status n s o w)).
Proof. unfold found_source, in_history, store_status. destruct x; [|done]. by destruct (_ && _). Qed.

Lemma t_exists {A B} (P : B -> CutoverWorld -> Prop) (p : CutoverProg A) Q : (forall b, triple n (P b) p Q) -> triple n (fun w => exists b, P b w) p Q.
Proof. intros Ht w w' r Hi [b Hb]. by eapply Ht. Qed.

Lemma t_source_for_cleanup P : stable P ->
  triple n P (sourceForCleanup me) (fun r w => P w /\ found_source r w).
Proof.
  intros Hs. unfold sourceForCleanup. rewrite req_bind. apply t_get_source; [done|by apply t_done|].
  intros x. destruct (_ && _); apply t_done; try (by stab); by intros w _ [? ?].
Qed.

(** The deadline of a deleted reshard goes first; after it, an uncommitted copy tells that
    the reshard is uncommitted. *)
Lemma t_clear_deadline s x : del = true ->
  triple n (fun w => own s w /\ found_source x w)
    (match st_deadline s with Some _ => let s1 := with_deadline None s in _ ← must (UpdateStatus s1); Done s1 | None => Done s end)
    (fun s1 w => own s1 w /\ found_source x w /\ st_committed s1 = st_committed s /\ (st_committed s = false -> uncommitted n w)).
Proof.
  intros Hdel. destruct (st_deadline s) as [d|] eqn:Hd; cbv zeta.
  - eapply t_bind.
    + eapply t_pre; [apply (t_must_status s (with_deadline None s) (found_source x)); [done|done|by stab|intros; by apply found_store]|].
      intros w Hi [Ho Hx]. split_and!; [done| |done]. by apply (ok_cleanup s).
    + intros ?. apply t_done; [repeat apply stable_and; try by stab; by apply stable_object|].
      intros w _ (Ho & His & Hx). split_and!; [done..|]. intros Hc o Hr. rewrite (His o Hr). done.
  - apply t_done; [by stab|]. intros w Hi [Ho Hx]. split_and!; [done..|]. intros Hc o Hr.
    destruct (own_uid _ _ Hi Ho) as (o' & Hr' & [] & _ & Hs & _). assert (o' = o) as -> by congruence.
    destruct Hs as [->|Hs]; [done|]. destruct (st_committed (sd_status o)) eqn:E; [|done].
    by destruct (po_commit _ _ _ (oo_prev0 s Hs) E Hc).
Qed.

Lemma deleted_left s w : del = true -> own s w -> left n w.
Proof. intros Hdel (o & Ho & _ & Hd & _) o' Ho'. right. rewrite Ho in Ho'. injection Ho' as <-. auto. Qed.

(** Then the fence, if it is this reshard's to lift. *)
Lemma t_cleanup_fence s x : del = true ->
  triple n (fun w => own s w /\ found_source x w /\ (st_committed s = false -> uncommitted n w))
    (match x with
     | Some _ =>
         if st_fenced s && negb (st_committed s) then
           ok ← unfenceSource me;
           if negb ok then Done false else _ ← must (UpdateStatus (with_fenced false s)); Done true
         else Done true
     | None => Done true
     end)
    (fun ok w => ok = true -> exists s', own s' w /\ found_source x w /\ st_committed s' = st_committed s /\ (st_committed s = false -> uncommitted n w)).
Proof.
  intros Hdel. assert (Hdone : triple n (fun w => own s w /\ found_source x w /\ (st_committed s = false -> uncommitted n w)) (Done true)
    (fun ok w => ok = true -> exists s', own s' w /\ found_source x w /\ st_committed s' = st_committed s /\ (st_committed s = false -> uncommitted n w))).
  { apply t_done; [by stab|]. intros w _ (? & ? & ?) _. by exists s. }
  destruct x as [y|] eqn:Ex; [|done]. destruct (st_fenced s && negb (st_committed s)) eqn:E; [|done].
  apply andb_true_iff in E as [_ Hc%negb_true_iff]. rewrite Hc. rewrite <- Ex in *. eapply t_bind.
  - eapply t_pre; [apply (t_unfence s (found_source x)); [by stab|by destruct x]|]. intros w _ (Ho & Hx & Hu). split_and!; [done| |done].
    intros o Hr. left. by apply (deleted_left s w).
  - intros []; cbn [negb]; [|apply t_done; [by stab|done]]. eapply t_bind.
    + eapply t_pre; [apply (t_must_status s (with_fenced false s) (found_source x)); [done|done|by stab|intros; by apply found_store]|].
      intros w Hi [Ho Hx]. split_and!; [done| |done]. by apply (ok_cleanup s).
    + intros ?. apply t_done; [repeat apply stable_and; try by stab; by apply stable_object|].
      intros w _ (Ho & His & Hx) _. exists (with_fenced false s). split_and!; [done..|]. intros _ o Hr. by rewrite (His o Hr).
Qed.

Lemma t_cleanup source_name s : del = true -> triple n (own s) (cleanupCutoverClaim me source_name s) (fun _ _ => True).
Proof.
  intros Hdel. unfold cleanupCutoverClaim. destruct (me_finalizer me); cbn [negb]; [|apply t_done; [by stab|done]].
  eapply t_bind; [apply t_source_for_cleanup; by stab|]. intros x.
  destruct (st_committed s && _) eqn:E.
  - destruct x as [x|]; [|apply t_done; [by stab|done]]. apply andb_true_iff in E as [Hc _].
    rewrite req_bind. apply t_skip; [by stab|by intros ? ? ? [_ ->]|]. intros [c|]; [|apply t_stop].
    eapply t_bind; [by apply t_complete|]. intros s'. apply t_done; [unfold ends; by stab|done].
  - eapply t_bind; [by apply t_clear_deadline|]. intros s1. eapply (t_pure (st_committed s1 = st_committed s)); [by intros w _ (_ & _ & ? & _)|].
    intros Hc1. eapply t_bind.
    { eapply t_pre; [by apply (t_cleanup_fence s1 x)|]. intros w _ (? & ? & _ & ?). rewrite Hc1. done. }
    intros []; cbn [negb]; [|apply t_done; [by stab|done]].
    apply (t_pre n _ (fun w => exists s', own s' w /\ found_source x w /\ st_committed s' = st_committed s1 /\ (st_committed s1 = false -> uncommitted n w))).
    2: { intros w _ H'. by apply H'. }
    apply t_exists. intros s'. eapply (t_bind n _ _ (fun _ => own s')).
    + destruct x as [x|]; [|apply t_done; [by stab|by intros w _ [? _]]].
      eapply t_post; [eapply t_pre; [apply (t_release s' x (fun _ => True)); [by stab|done]|]|by intros ? ? [? _]].
      intros w Hi (Ho & Hx & Hs' & Hu). split_and!; [done..|by eapply deleted_left| |done].
      destruct (st_committed s) eqn:Hc; [left|right; apply Hu; congruence]. by eapply ci_hidden.
    + intros ?. eapply t_post; [apply t_finalizer|done].
Qed.

End requests.

(** ** Every reachable world *)

Lemma seen_current_inv w n o : cw_inv w -> cw_reshards w !! n = Some o -> cw_inv (seen_current n o w).
Proof.
  intros Hi Ho. refine (cw_inv_object w n o _ [] Hi Ho _ _ _ _ _); try done; [|by left].
  destruct (ci_objs _ Hi _ _ Ho). split; cbn; try done. by intros p ?%not_elem_of_nil.
Qed.

Lemma t_reconcile source_name n me del s : me_name me = n ->
  triple n (copy n me del s) (Reconcile me source_name del s) (fun _ _ => True).
Proof.
  intros Hn. unfold Reconcile. destruct del eqn:Hdel; [by apply t_cleanup|].
  assert (Hput : forall s', triple n (ends n me false s s') (must (UpdateStatus s')) (fun _ _ => True))
    by (intros s'; eapply t_pre; [apply t_put|by intros w _ [_ ?]]).
  destruct (st_phase s) eqn:Hp; try (apply t_done; [by stab|done]).
  - eapply t_bind; [by apply t_ready|done].
  - eapply t_bind; [by apply t_cutting_over|done].
Qed.

Lemma reconcile_inv source_name w w' n o fresh me del s out : cw_inv w -> cw_reshards w !! n = Some o -> cached o fresh me del s ->
  exec true n (Reconcile me source_name del s) (if fresh then set_fresh (Some n) (seen_current n o w) else set_fresh None w) w' out -> cw_inv w'.
Proof.
  intros Hi Ho Hc Hex. pose proof (oo_name _ _ _ (ci_objs _ Hi _ _ Ho)) as Hnm.
  assert (Hn : me_name me = n) by (destruct Hc; congruence).
  refine (proj1 (t_reconcile source_name n me del s Hn _ w' out _ _ Hex)).
  - destruct fresh; apply cw_inv_fresh; [by apply seen_current_inv|done].
  - destruct Hc.
    + eexists. cbn. rewrite lookup_insert_eq. unfold same_me. split_and!; cbn; auto. intros _. split_and!; [done..|].
      by intros p ?%not_elem_of_nil.
    + exists o. unfold same_me. cbn. split_and!; auto. done.
Qed.

Lemma create_ok w me s n : me_name me = n -> prepared w me s -> (forall a, cw_journal w !! (me_uid me, a) = None) ->
  st_phase s = CatchingUp -> st_frozen s = 0 -> st_committed s = false -> obj_ok w n (mkStored me s [] false).
Proof.
  intros Hn (Hcl & Hso & Hlen & Hrg & Ht) Hj Hp Hf Hc. split; cbn; try done.
  - intros i name Hi. destruct (Ht i name Hi) as (t & ? & Hfor). exists t. split; [done|].
    unfold foreignTarget in Hfor. rewrite !orb_false_iff, !negb_false_iff, !bool_decide_eq_true in Hfor.
    destruct Hfor as ((((? & ?) & ?) & ?) & ?). split; [done|]. congruence.
  - by intros p ?%not_elem_of_nil.
  - intros _. phases.
Qed.

Lemma create_inv w n me s : cw_inv w -> n ∉ cw_used w -> n <> EmptyString ->
  (forall m o, cw_reshards w !! m = Some o -> me_uid (sd_me o) <> me_uid me) -> obj_ok w n (mkStored me s [] false) -> st_committed s = false ->
  cw_inv (set_used ({[n]} ∪ cw_used w) (set_reshards (<[n := mkStored me s [] false]> (cw_reshards w)) w)).
Proof.
  intros Hi Hn Hne Hu Hok Hc. pose proof Hi as [].
  assert (Hlc : live_claim w ∈ cw_used w).
  { destruct ci_source0 as (x & xs & E & _). unfold live_claim. rewrite E. cbn. apply ci_claim_used0. rewrite E. by apply elem_of_cons; left. }
  split; try done; cbn.
  - intros x Hx Hcl o. rewrite lookup_insert_ne; [by eapply ci_claims0|]. intros ->. by apply Hn, ci_claim_used0.
  - intros x Hx. apply elem_of_union_r. auto.
  - destruct ci_used0 as (? & ? & Hus). split_and!; [by apply elem_of_union_r|by rewrite lookup_insert_ne|].
    intros m Hm. apply not_elem_of_union in Hm as [Hm1 Hm2]. rewrite lookup_insert_ne; [by auto|]. intros ->. by apply Hm1, elem_of_singleton.
  - intros Hcm. destruct (ci_commit0 Hcm) as [[? Hall]|?]; [left|by right]. split; [done|].
    intros o. change (live_claim (set_used _ _)) with (live_claim w). rewrite lookup_insert_ne by congruence. apply Hall.
  - intros m o [[<- <-]|[_ Ho]]%lookup_insert_Some Hcm; [by cbn in *; congruence|by apply ci_logged0].
  - intros m1 m2 o p [[<- <-]|[? Ho]]%lookup_insert_Some [[<- <-]|[? Hp]]%lookup_insert_Some E; cbn in *; [done|..].
    + by destruct (Hu m2 p).
    + by destruct (Hu m1 o).
    + by eapply ci_uids0.
  - intros m o [[<- <-]|[_ Ho]]%lookup_insert_Some; apply (obj_ok_frame w); auto.
Qed.

Lemma seeded_writable w n o p : obj_ok w n o -> st_phase (sd_status o) = CatchingUp -> sd_deleted o = false -> sd_prev o = [] ->
  p ∈ [CatchingUp; ReadyToCutover; ReshardFailed] -> writable n (with_phase p (sd_status o)) w o.
Proof.
  intros [] Hp Hd Hnil Hin. destruct (oo_live0 Hd) as [Hb _]. specialize (Hb (or_introl Hp)).
  assert (Hne : p <> CuttingOver). { intros ->. apply list_elem_of_In in Hin. cbn in Hin. intuition discriminate. }
  split; cbn; [rewrite Hnil; intros q ->%list_elem_of_singleton; phases| |done|destruct Hb; congruence]. intros _. phases.
Qed.

Lemma store_seen w n o s o' : store_status n s o' (seen_current n o w) = store_status n s o' w.
Proof. unfold store_status, seen_current, set_reshards, set_commits. cbn. by rewrite insert_insert_eq. Qed.

Lemma step_inv source_name w w' : cw_inv w -> cutover_step true source_name w w' -> cw_inv w'.
Proof.
  intros Hi Hs. revert Hi. destruct Hs as [w w' He|w n me s Hn Hne Hnm Hu Hj Hp Hf Hc Hpr|w n o p Ho Hp Hd Hin|w w' n o fresh me del s out Ho Hc Hex]; intros Hi.
  - by eapply env_inv.
  - apply create_inv; auto. apply create_ok; auto.
  - pose proof (seen_current_inv w n o Hi Ho) as Hi'. set (o' := mkStored (sd_me o) (sd_status o) [] (sd_deleted o)).
    assert (Ho' : cw_reshards (seen_current n o w) !! n = Some o') by (cbn; apply lookup_insert_eq).
    rewrite <- (store_seen w n o). apply store_status_inv; auto. apply (seeded_writable _ n o'); auto. by apply ci_objs.
  - by eapply reconcile_inv.
Qed.

Lemma init_inv w : cutover_init w -> cw_inv w.
Proof.
  intros (Hr & Hu & Hf & Hj & Hc & x & Hs & Hx). split; unfold live_claim, live_serving; rewrite ?Hr, ?Hu, ?Hj, ?Hc, ?Hs; cbn; try done.
  - exists x, []. done.
  - by intros y ->%list_elem_of_singleton.
  - intros y ->%list_elem_of_singleton. rewrite Hx. by apply elem_of_singleton.
  - by intros n f ?%not_elem_of_nil.
Qed.

Lemma reachable_inv source_name w0 w : cutover_init w0 -> rtc (cutover_step true source_name) w0 w -> cw_inv w.
Proof. intros H0 Hr. apply init_inv in H0. induction Hr; [done|]. eauto using step_inv. Qed.

(** C4: in a calm world, whichever requests fail and wherever the operator stops, a committed
    switch has frozen the source for good: the source database is fenced, and every write
    it ever took lies before the barrier position recorded with the commit. *)
Theorem no_write_after_barrier source_name w0 w : cutover_init w0 -> rtc (cutover_step true source_name) w0 w ->
  (forall n o, cw_reshards w !! n = Some o -> st_committed (sd_status o) = true -> (n, st_frozen (sd_status o)) ∈ cw_commits w) /\
  forall n f, (n, f) ∈ cw_commits w -> cw_fenced w = true /\ forall i, cw_wal w !! i = Some WalWrite -> Z.of_nat i + 1 < f.
Proof. intros H0 Hr. apply reachable_inv in Hr; [|done]. split; apply Hr. Qed.

(** in a calm world at most one reshard that is not being deleted is in the middle of a
    cutover of the source, and none is once a switch was committed. *)
Theorem cutover_exclusive source_name w0 w m o : cutover_init w0 -> rtc (cutover_step true source_name) w0 w ->
  cw_reshards w !! m = Some o -> st_phase (sd_status o) = CuttingOver -> st_committed (sd_status o) = false -> sd_deleted o = false ->
  cw_commits w = [] /\ forall n p, cw_reshards w !! n = Some p -> st_phase (sd_status p) = CuttingOver -> sd_deleted p = false -> n = m.
Proof.
  intros H0 Hr Ho Hp Hc Hd. apply reachable_inv in Hr; [|done].
  assert (Hcl : live_claim w = m) by (destruct (lo_during _ _ _ _ (oo_live _ _ _ (ci_objs _ Hr _ _ Ho) Hd)); auto).
  assert (Hnil : cw_commits w = []).
  { destruct (cw_commits w) eqn:E; [done|]. destruct (ci_commit _ Hr) as [[? Hall]|[? ?]]; [by rewrite E|..].
    - rewrite Hcl in Hall. rewrite (Hall o Ho) in Hc. done.
    - destruct (ci_used _ Hr) as (_ & ? & _). congruence. }
  split; [done|]. intros n p Hq Hp' Hd'. destruct (st_committed (sd_status p)) eqn:Hcp.
  - pose proof (ci_logged _ Hr _ _ Hq Hcp) as Hin. rewrite Hnil in Hin. by apply not_elem_of_nil in Hin.
  - destruct (lo_during _ _ _ _ (oo_live _ _ _ (ci_objs _ Hr _ _ Hq) Hd')); auto. congruence.
Qed.

(** ** Runs *)

Lemma exec_done calm n {A} (a : A) w w' : w = w' -> exec calm n (Done a) w w' (Some a).
Proof. intros ->. by split. Qed.

Lemma exec_crash calm n {A R} (q : CutoverRequest R) (k : R -> CutoverProg A) w w' : w = w' -> exec calm n (Req q k) w w' None.
Proof. intros ->. exists w'. split; [done|]. by left. Qed.

Lemma exec_req calm n {A R} (x : R) w1 (q : CutoverRequest R) (k : R -> CutoverProg A) w w' o :
  serve calm n q w x w1 -> exec calm n (k x) w1 w' o -> exec calm n (Req q k) w w' o.
Proof. intros Hs Hx. exists w. split; [done|]. right. by exists x, w1. Qed.

Lemma run_current calm source_name w w' n o out : cw_reshards w !! n = Some o ->
  exec calm n (Reconcile (sd_me o) source_name (sd_deleted o) (sd_status o)) (set_fresh (Some n) (seen_current n o w)) w' out ->
  cutover_step calm source_name w w'.
Proof. intros Ho Hx. eapply (cs_reconcile _ _ w w' n o true); [done|constructor|done]. Qed.

Module CutoverExample.

#[local] Arguments exec : simpl never.

Definition full : Bounds := mkBounds EmptyString EmptyString.
Definition me : Reshard := mkReshard "r" "u" "c" "s" "main" [full] true.
Definition tgt : TargetShard := mkTargetShard "u" "main" full false false.
Definition src (v : nat) (claim : string) : Source := mkSource v "s" claim true false.
Definition st (p : ReshardPhase) (d ob : option Z) (f : Z) (fe c : bool) : ReshardStatus := mkReshardStatus p ["t"] d ob f 0 fe c.
Definition gated : OpRouting.RoutingSpec :=
  OpRouting.mkRoutingSpec 1 1 1 EmptyString [] []
    [OpRouting.mkRoutingGate "reshard-r" (OpRouting.mkGateMatch false [] []) EmptyString EmptyString 0] None.
Definition pod : option Pod := Some (mkPod "p" true).

(** The world with the reshard at status [s]; a cache may also show [ps]. *)
Definition at_status (now : Z) (ps : list ReshardStatus) (s : ReshardStatus) (hist : list Source) (t : TargetShard) (fenced : bool) (wal : list WalEntry)
    (j : gmap (string * Z) Z) (ks : list (string * Z)) : CutoverWorld :=
  mkCutoverWorld now {["r" := mkStored me s ps false]} ({["r"]} ∪ {[EmptyString]}) hist (Some "c") {["t" := t]} "p" fenced wal j ks (Some "r").

Definition start : CutoverWorld :=
  mkCutoverWorld 0 ∅ {[EmptyString]} [src 0 EmptyString] (Some "c") {["t" := tgt]} "p" false [WalWrite] ∅ [] (Some "r").

Definition limit : option Z := Some (120 * second).
Definition seen : option Z := Some 0.
Definition claimed : list Source := [src 1 "r"; src 0 EmptyString].
Definition s_caught := st CatchingUp None None 0 false false.
Definition s_ready := st ReadyToCutover None None 0 false false.
Definition s_gated := st CuttingOver limit None 0 false false.
Definition s_seen := st CuttingOver limit seen 0 false false.
Definition s_owed := st CuttingOver limit seen 0 true false.
Definition s_frozen := st CuttingOver limit seen 2 true false.
Definition s_failing := st CuttingOver limit seen 2 false false.
Definition frozen_wal : list WalEntry := [WalWrite; WalBarrier ("u", 0)].
Definition frozen_journal : gmap (string * Z) Z := {[("u", 0) := 2]}.

(** Answers that change nothing, a read of the newest source, and the writes. *)
Ltac ask x := eapply (exec_req _ _ x); [cbn; first [reflexivity | done | by auto]|cbn].
Ltac source_is x := eapply (exec_req _ _ (Some x)); [split; [right; exists x; split; [by apply elem_of_cons; left|done]|done]|cbn].
Ltac store := eapply (exec_req _ _ true); [right; eexists; split_and!; reflexivity|cbn].
Ltac ask_rpc x := eapply (exec_req _ _ x); [cbn; repeat first [reflexivity | split | right]|cbn].
Ltac settle := apply exec_done; vm_compute; reflexivity.

Lemma run_at calm now ps s hist t fenced wal j ks w' out :
  exec calm "r" (Reconcile me "src" false s) (at_status now [] s hist t fenced wal j ks) w' out ->
  cutover_step calm "src" (at_status now ps s hist t fenced wal j ks) w'.
Proof.
  intros Hx. apply (run_current calm "src" (at_status now ps s hist t fenced wal j ks) w' "r" (mkStored me s ps false) out); [apply lookup_singleton_eq|].
  by unfold seen_current; cbn; rewrite insert_singleton_eq.
Qed.

Lemma ready_step calm : cutover_step calm "src" (at_status 0 [s_caught] s_ready [src 0 EmptyString] tgt false [WalWrite] ∅ [])
  (at_status 0 [s_ready] s_gated claimed tgt false [WalWrite] ∅ []).
Proof.
  eapply run_at. cbn. source_is (src 0 EmptyString).
  eapply (exec_req _ _ (Ok (src 1 "r"))). { right. exists (src 0 EmptyString). split_and!; [done..|by left|reflexivity]. }
  cbn. ask 0. store. settle.
Qed.

Lemma gate_step calm : cutover_step calm "src" (at_status 0 [s_ready] s_gated claimed tgt false [WalWrite] ∅ [])
  (at_status 0 [s_gated] s_seen claimed tgt false [WalWrite] ∅ []).
Proof.
  eapply run_at. cbn. ask (Some "c"). source_is (src 1 "r"). ask 0. ask (Some gated). ask 0. store. settle.
Qed.

Definition later : Z := 10 * second.

Lemma owed_step calm : cutover_step calm "src" (at_status later [s_gated] s_seen claimed tgt false [WalWrite] ∅ [])
  (at_status later [s_seen] s_owed claimed tgt false [WalWrite] ∅ []).
Proof.
  eapply run_at. cbn. ask (Some "c"). source_is (src 1 "r"). ask later. ask (Some gated). ask later. store. settle.
Qed.

Lemma freeze_step calm : cutover_step calm "src" (at_status later [s_seen] s_owed claimed tgt false [WalWrite] ∅ [])
  (at_status later [s_owed] s_frozen claimed tgt true frozen_wal frozen_journal []).
Proof.
  eapply run_at. cbn. ask (Some "c"). source_is (src 1 "r"). ask later. ask (Some gated). ask later.
  ask pod. eapply (exec_req _ _ (Ok tt)). { right. split_and!; [done|by left|reflexivity]. } cbn.
  eapply (exec_req _ _ (Ok 2)). { right; right. split_and!; [done..|]. left. split; reflexivity. } cbn.
  ask pod. store. settle.
Qed.

(** The targets acknowledge and the switch commits; the fence is not looked at again. *)
Lemma committing_step calm ps f fenced wal : cutover_step calm "src"
  (at_status later ps (st CuttingOver limit seen 2 f false) claimed tgt fenced wal frozen_journal [])
  (at_status later [(st CuttingOver limit seen 2 f false)] (st CuttingOver limit seen 2 f true) claimed tgt fenced wal frozen_journal [("r", 2)]).
Proof.
  eapply run_at. cbn. ask (Some "c"). source_is (src 1 "r"). ask later. ask (Some gated). ask later.
  ask (Some tgt). ask pod. ask (Some (true, 2)). ask pod. ask later. store. settle.
Qed.

Lemma created calm : cutover_step calm "src" start (at_status 0 [] s_caught [src 0 EmptyString] tgt false [WalWrite] ∅ []).
Proof.
  refine (cs_create calm "src" start "r" me s_caught _ _ _ _ _ _ _ _ _); try done.
  intros _. split_and!; try done.
  - by intros x ->%list_elem_of_singleton.
  - by constructor.
  - intros [|i] name [= <-]. by exists tgt.
Qed.

Lemma caught_up calm : cutover_step calm "src" (at_status 0 [] s_caught [src 0 EmptyString] tgt false [WalWrite] ∅ [])
  (at_status 0 [s_caught] s_ready [src 0 EmptyString] tgt false [WalWrite] ∅ []).
Proof.
  refine (cs_seeded calm "src" (at_status 0 [] s_caught [src 0 EmptyString] tgt false [WalWrite] ∅ []) "r" (mkStored me s_caught [] false) ReadyToCutover _ _ _ _);
    try done. by apply elem_of_cons; right; apply elem_of_cons; left.
Qed.

Lemma waited calm : cutover_step calm "src" (at_status 0 [s_gated] s_seen claimed tgt false [WalWrite] ∅ [])
  (at_status later [s_gated] s_seen claimed tgt false [WalWrite] ∅ []).
Proof. apply cs_env, (env_time calm (at_status 0 [s_gated] s_seen claimed tgt false [WalWrite] ∅ []) later). done. Qed.

Lemma gated_reachable calm : rtc (cutover_step calm "src") start (at_status 0 [s_gated] s_seen claimed tgt false [WalWrite] ∅ []).
Proof.
  eapply rtc_l; [apply created|]. eapply rtc_l; [apply caught_up|]. eapply rtc_l; [apply ready_step|]. apply rtc_once, gate_step.
Qed.

Lemma frozen_reachable calm : rtc (cutover_step calm "src") start (at_status later [s_owed] s_frozen claimed tgt true frozen_wal frozen_journal []).
Proof.
  etrans; [apply gated_reachable|]. eapply rtc_l; [apply waited|]. eapply rtc_l; [apply owed_step|].
  apply rtc_once, freeze_step.
Qed.

Lemma start_init : cutover_init start.
Proof. repeat split. by exists (src 0 EmptyString). Qed.

Lemma no_write_after_barrier_witness :
  let w := at_status later [s_frozen] (st CuttingOver limit seen 2 true true) claimed tgt true frozen_wal frozen_journal [("r", 2)] in
  cw_commits w = [("r", 2)] /\ forall n f, (n, f) ∈ cw_commits w -> cw_fenced w = true /\ forall i, cw_wal w !! i = Some WalWrite -> Z.of_nat i + 1 < f.
Proof.
  intros w. split; [reflexivity|]. apply (no_write_after_barrier "src" start w start_init).
  eapply rtc_r; [apply frozen_reachable|apply committing_step].
Defined.

Lemma cutover_exclusive_witness :
  let w := at_status later [s_owed] s_frozen claimed tgt true frozen_wal frozen_journal [] in
  cw_commits w = [] /\ forall n p, cw_reshards w !! n = Some p -> st_phase (sd_status p) = CuttingOver -> sd_deleted p = false -> n = "r".
Proof.
  intros w. apply (cutover_exclusive "src" start w "r" (mkStored me s_frozen [s_owed] false) start_init); try reflexivity.
  apply frozen_reachable.
Defined.

(** ** A failure that is not completed *)

Definition edited : TargetShard := mkTargetShard "u" "main" full true false.

(** A target that was edited to serve fails the cutover: the source is un-fenced and that is
    recorded, but the frozen position stays, and the operator stops before the failure is. *)
Lemma failing_step : cutover_step false "src" (at_status later [s_owed] s_frozen claimed edited true frozen_wal frozen_journal [])
  (at_status later [s_frozen] s_failing claimed edited false frozen_wal frozen_journal []).
Proof.
  eapply run_at. cbn. ask (Some "c"). source_is (src 1 "r"). ask later. ask (Some gated). ask later.
  ask (Some edited). ask (src 1 "r"). eapply (exec_req _ _ ("u", false)). { eexists. split_and!; reflexivity. } cbn.
  ask pod. eapply (exec_req _ _ (Ok tt)). { right. split_and!; [done|by left|reflexivity]. } cbn. ask pod. store.
  apply exec_crash. vm_compute. reflexivity.
Qed.

(** a target shard edited to serve and back again, with the operator stopping in between,
    commits a switch whose source is not fenced and has a write past the barrier: the
    failure un-fences the source but keeps the frozen position, so the next reconcile
    does not freeze again. *)
Example unfenced_commit : exists w, cutover_init start /\ rtc (cutover_step false "src") start w /\
  cw_commits w = [("r", 2)] /\ cw_fenced w = false /\ cw_wal w !! 2%nat = Some WalWrite.
Proof.
  eexists. split; [apply start_init|]. split.
  - etrans; [apply frozen_reachable|].
    eapply rtc_l. { apply cs_env, (env_edit_target false _ "t" edited). done. }
    eapply rtc_l. { apply failing_step. }
    eapply rtc_l. { apply cs_env, (env_edit_target false _ "t" tgt). done. }
    eapply rtc_l. { apply cs_env, env_write; done. }
    apply rtc_once, (committing_step false [s_frozen] false false (frozen_wal ++ [WalWrite])).
  - done.
Qed.

End CutoverExample.
