(* ===== verification/OpSeeding.v ===== *)
(** * Validation, provisioning and seeding of a reshard

    The phases of a reshard before its cutover: [reconcileValidating] and the dispatch of
    pgshardreshard_controller.go, reshard_targets.go and reshard_seeding.go (under
    [src/operator/internal/controller]). As in [Cutover] a reconcile is a program of
    requests. A read that fails for another reason than absence ends the reconcile without a
    status write, so it is a run cut short; dialing an agent is part of the request to it.
    Conditions and messages are not modelled. *)

From S2P Require Import Prelude Rust Go Keyspace ShardFn Agent Client Workflow Topo Service OpProg OpConfig OpTopology OpRouting OpPlacement Cutover.
From stdpp Require Import gmap strings.

Open Scope Z_scope.

(** ** Objects *)

(** The spec of a reshard, with its identity. *)
Record ReshardSpec := mkReshardSpec {
  rs_name : string; rs_uid : string; rs_cluster : string; rs_source : string; rs_ranges : list Bounds }.

(** [ReshardSeedTable]. *)
Record SeedTable := mkSeedTable { sd_schema : string; sd_name : string; sd_key_column : string; sd_key_type : string }.

#[export] Instance SeedTable_eq_dec : EqDecision SeedTable.
Proof. solve_decision. Defined.

(** The status fields of these phases. *)
Record SeedStatus := mkSeedStatus {
  se_phase : ReshardPhase; se_targets : list string; se_cluster_uid : string; se_source_uid : string;
  se_pinned : bool; se_tables : list SeedTable }.

Definition to_phase (p : ReshardPhase) (s : SeedStatus) : SeedStatus :=
  mkSeedStatus p (se_targets s) (se_cluster_uid s) (se_source_uid s) (se_pinned s) (se_tables s).
(** [fail]. *)
Definition fail (s : SeedStatus) : SeedStatus := to_phase ReshardFailed s.

(** The reshard as the cutover's definitions see it. *)
Definition as_reshard (me : ReshardSpec) (s : SeedStatus) : Reshard :=
  mkReshard (rs_name me) (rs_uid me) (se_cluster_uid s) (se_source_uid s) (rs_cluster me) (rs_ranges me) false.

(** What [foreignTarget] reads of a shard. *)
Definition target_view `{Quantity} (s : Shard) : TargetShard :=
  mkTargetShard (sx_owner s) (ss_cluster_ref (sx_spec s)) (ss_range (sx_spec s)) (ss_serving (sx_spec s))
    (bool_decide (ss_role (sx_spec s) = ShardRoleSystem)).

Record PodObj := mkPodObj { pd_name : string; pd_uid : string; pd_owner : string; pd_ip : string }.

(** One snapshot of [WatchWorkflows], and the status of an instance. *)
Record WorkflowReport := mkReport { wf_id : string; wf_phase : WorkflowPhase; wf_applied : option Z; wf_journal : option Z }.
Record InstanceReport := mkInstance { ir_primary : bool; ir_ready : bool; ir_fenced : bool; ir_write_lsn : option Z }.

Inductive SeedRequest `{Quantity} : Type -> Type :=
| SeedCluster : SeedRequest (option Cluster)
| SeedHost (name : string) : SeedRequest (option string)
| SeedShard (name : string) : SeedRequest (option Shard)
| SeedNode (name : string) : SeedRequest (option Node)
| SeedPod (name : string) : SeedRequest (option PodObj)
| SeedConfigs : SeedRequest (list (string * PgShardTableConfig))
| SeedCreateNode (n : Node) : SeedRequest Created
| SeedCreateShard (s : Shard) : SeedRequest Created
| SeedConfigMap (owner name : string) (data : gmap string string) : SeedRequest bool
| PrepareSource (host pod_uid database publication : string) (tables : list TableRef) : SeedRequest (result Code unit)
| StartWorkflow (host pod_uid : string) (spec : WorkflowSpec) : SeedRequest (result Code unit)
| StopWorkflow (host id : string) : SeedRequest bool
| WatchWorkflow (host id : string) : SeedRequest (option WorkflowReport)
| AgentStatus (host : string) : SeedRequest (option InstanceReport)
| WriteStatus (s : SeedStatus) : SeedRequest bool.

(** ** Tables *)

Definition TableSharded : string := "sharded".

Definition cmp_seed_entries (a b : RoutingTable) : comparison :=
  cmp_or [String.compare (rt_schema a) (rt_schema b); String.compare (rt_name a) (rt_name b);
          String.compare (rt_shard_key_column a) (rt_shard_key_column b);
          String.compare (rt_shard_key_type a) (rt_shard_key_type b)].

Definition with_schema_default (t : RoutingTable) : RoutingTable :=
  mkRoutingTable (schema_of t) (rt_name t) (rt_type t) (rt_shard_key_column t) (rt_shard_key_type t) (rt_sequences t).

Definition is_sharded (t : RoutingTable) : bool := bool_decide (rt_type t = TableSharded).

(** [shardedTables] of the listed configurations, each with its cluster reference. *)
Definition shardedTables (cluster : string) (configs : list (string * PgShardTableConfig)) : list RoutingTable :=
  sort_by (le_of cmp_seed_entries)
    (configs ≫= fun c => if negb (bool_decide (fst c = cluster)) then []
                         else with_schema_default <$> List.filter is_sharded (tc_tables (snd c))).

Definition pinTables (tables : list RoutingTable) : list SeedTable :=
  (fun t => mkSeedTable (rt_schema t) (rt_name t) (rt_shard_key_column t) (rt_shard_key_type t)) <$> tables.

Definition unpinTables (pinned : list SeedTable) : list RoutingTable :=
  (fun t => mkRoutingTable (sd_schema t) (sd_name t) TableSharded (sd_key_column t) (sd_key_type t) []) <$> pinned.

(** [tablesDiffer]: the loop stops at the first difference. *)
Fixpoint entries_differ (pinned : list SeedTable) (live : list RoutingTable) : bool :=
  match pinned, live with
  | p :: pinned', l :: live' =>
      negb (bool_decide (sd_schema p = rt_schema l)) || negb (bool_decide (sd_name p = rt_name l)) ||
      negb (bool_decide (sd_key_column p = rt_shard_key_column l)) || negb (bool_decide (sd_key_type p = rt_shard_key_type l)) ||
      entries_differ pinned' live'
  | _, _ => false
  end.
Definition tablesDiffer (pinned : list SeedTable) (live : list RoutingTable) : bool :=
  negb (length pinned =? length live)%nat || entries_differ pinned live.

(** ** Seeding *)

Section seeding.
Context `{Quantity}.
Abbreviation SeedProg := (Prog SeedRequest).
Variable me : ReshardSpec.

(** The verified primary of a placement: the node must be ready with a primary, and the pod
    be controlled by this incarnation of the node and have an address. *)
Definition seedPrimary (nodeRef : string) : SeedProg (option (PodObj * Node)) :=
  if str_is_empty nodeRef then Done None
  else
    found ← req (SeedNode nodeRef);
    match found with
    | None => Done None
    | Some node =>
        match nt_phase (nx_status node) with
        | NodeReady =>
            if str_is_empty (nt_primary (nx_status node)) then Done None
            else
              pod ← req (SeedPod (nt_primary (nx_status node)));
              match pod with
              | None => Done None
              | Some pod =>
                  if negb (bool_decide (pd_owner pod = nx_uid node)) || str_is_empty (pd_ip pod) then Done None
                  else Done (Some (pod, node))
              end
        | _ => Done None
        end
    end.

Definition databaseVerified (shard : Shard) (node : Node) (pod : PodObj) : bool :=
  bool_decide (hs_db_ready (sx_status shard) = Some true) && bool_decide (hs_db_node (sx_status shard) = nx_name node) &&
  bool_decide (hs_db_node_uid (sx_status shard) = nx_uid node) && bool_decide (hs_db_pod_uid (sx_status shard) = pd_uid pod).

(** The pod is still the verified primary of the shard. *)
Definition stillVerified (shard : Shard) (pod : PodObj) : SeedProg bool :=
  p ← seedPrimary (ss_node_ref (sx_spec shard));
  match p with
  | None => Done false
  | Some (pod', node') => Done (bool_decide (pd_uid pod' = pd_uid pod) && databaseVerified shard node' pod')
  end.

Definition shardDatabaseName (shard : Shard) : string := sx_name shard.

(** [resolveSource]: on the left the status to return with. *)
Definition resolveSeedSource (s : SeedStatus) : SeedProg (SeedStatus + Shard) :=
  found ← req (SeedShard (rs_source me));
  match found with
  | None => Done (inl s)
  | Some source =>
      if str_is_empty (se_source_uid s) || negb (bool_decide (se_source_uid s = sx_uid source)) then Done (inl (fail s))
      else if negb (ss_serving (sx_spec source)) then Done (inl (fail s))
      else if bool_decide (ss_role (sx_spec source) = ShardRoleSystem) then Done (inl (fail s))
      else Done (inr source)
  end.

Inductive seedPassMode := seedModeSeeding | seedModeCatchingUp.

(** [advanceNothingToSeed]. *)
Fixpoint nothingToSeed (s : SeedStatus) (mode : seedPassMode) (i : nat) (targets : list string) : SeedProg SeedStatus :=
  match targets with
  | [] => Done (to_phase (match mode with seedModeSeeding => CatchingUp | seedModeCatchingUp => ReadyToCutover end) s)
  | name :: targets' =>
      found ← req (SeedShard name);
      match found with
      | None => Done s
      | Some target =>
          if foreignTarget (as_reshard me s) (target_view target) (rs_ranges me !! i) then Done (fail s)
          else nothingToSeed s mode (S i) targets'
      end
  end.
Definition advanceNothingToSeed (s : SeedStatus) (mode : seedPassMode) : SeedProg SeedStatus := nothingToSeed s mode 0 (se_targets s).

Definition postgresPort : Z := 5432.

(** [KeyRange] on the wire. *)
Definition wire_range (r : GoRange) : Z * option Z := (gr_start r, if gr_closed r then Some (gr_end r) else None).

Definition seedMapping (t : RoutingTable) : TableMapping :=
  mkTableMapping (Some (mkTableRef (rt_schema t) (rt_name t))) None [] (rt_shard_key_column t) (rt_shard_key_type t).

(** The spec of the workflow that seeds target [i]. *)
Definition seedSpec (s : SeedStatus) (cluster : Cluster) (source target : Shard) (sourcePod : PodObj) (range : GoRange) (i : nat) : WorkflowSpec :=
  let id := seedWorkflowID (as_reshard me s) i in
  mkWorkflowSpec id WORKFLOW_KIND_RESHARD (sx_name source)
    (Some (mkPgEndpoint (pd_ip sourcePod) postgresPort (shardDatabaseName source))) [] SOURCE_POLICY_PRIMARY
    id (seedPublication (as_reshard me s)) (seedMapping <$> unpinTables (se_tables s))
    (Some (FilterKeyRange (Some (wire_range range)) (cl_hash_function cluster)))
    (shardDatabaseName target) (sx_uid target).

(** [workflowStatus]: a snapshot of another workflow is an error. *)
Definition workflowStatus (host id : string) : SeedProg (option WorkflowReport) :=
  report ← req (WatchWorkflow host id);
  match report with
  | Some r => if bool_decide (wf_id r = id) then Done (Some r) else Done None
  | None => Done None
  end.

(** [seedTarget]: the status to return with, or whether the workflow streams and the
    position it has applied. *)
Definition seedTarget (s : SeedStatus) (cluster : Cluster) (source : Shard) (sourcePod : PodObj) (i : nat) (name : string)
    : SeedProg (SeedStatus + (bool * option Z)) :=
  found ← req (SeedShard name);
  match found with
  | None => Done (inl s)
  | Some target =>
      if foreignTarget (as_reshard me s) (target_view target) (rs_ranges me !! i) then Done (inl (fail s))
      else if negb (bool_decide (hs_db_ready (sx_status target) = Some true)) then Done (inl s)
      else
        p ← seedPrimary (ss_node_ref (sx_spec target));
        match p with
        | None => Done (inl s)
        | Some (pod, node) =>
            if negb (databaseVerified target node pod) then Done (inl s)
            else
              match toRange (ss_range (sx_spec target)) with
              | Err _ => Done (inl (fail s))
              | Ok range =>
                  let spec := seedSpec s cluster source target sourcePod range i in
                  r ← req (StartWorkflow (pd_ip pod) (pd_uid pod) spec);
                  match r with
                  | Err InvalidArgument => Done (inl (fail s))
                  | Err FailedPrecondition => _ ← req (StopWorkflow (pd_ip pod) (ws_id spec)); Done (inl s)
                  | Err _ => Done (inl s)
                  | Ok _ =>
                      report ← workflowStatus (pd_ip pod) (ws_id spec);
                      match report with
                      | None => Done (inl s)
                      | Some report =>
                          ok ← stillVerified target pod;
                          if negb ok then Done (inl s)
                          else
                            match wf_phase report with
                            | PhaseStreaming => Done (inr (true, wf_applied report))
                            | PhaseError => Done (inl s)
                            | _ => Done (inr (false, None))
                            end
                      end
                  end
              end
        end
  end.

(** The loop over the targets: the positions of the streaming workflows, in order. *)
Fixpoint seedTargets (s : SeedStatus) (cluster : Cluster) (source : Shard) (sourcePod : PodObj) (i : nat) (names : list string)
    : SeedProg (SeedStatus + list (option Z)) :=
  match names with
  | [] => Done (inr [])
  | name :: names' =>
      r ← seedTarget s cluster source sourcePod i name;
      match r with
      | inl s' => Done (inl s')
      | inr (streaming, applied) =>
          rest ← seedTargets s cluster source sourcePod (S i) names';
          match rest with
          | inl s' => Done (inl s')
          | inr l => Done (inr (if streaming : bool then applied :: l else l))
          end
      end
  end.

Definition catchupMaxLagBytes : Z := Z.shiftl 16 20.

(** The loop over the positions: [None] when one is missing or ahead of the source. *)
Fixpoint minApplied (writeLsn : Z) (min : option Z) (applied : list (option Z)) : option Z :=
  match applied with
  | [] => Some (default 0 min)
  | None :: _ => None
  | Some a :: applied' =>
      if a >? writeLsn then None
      else minApplied writeLsn (match min with Some m => if a <? m then Some a else Some m | None => Some a end) applied'
  end.

Definition gateCatchup (s : SeedStatus) (source : Shard) (sourcePod : PodObj) (applied : list (option Z)) : SeedProg SeedStatus :=
  status ← req (AgentStatus (pd_ip sourcePod));
  match status with
  | None => Done s
  | Some status =>
      if negb (ir_primary status) || negb (ir_ready status) || ir_fenced status then Done s
      else
        ok ← stillVerified source sourcePod;
        if negb ok then Done s
        else
          match ir_write_lsn status with
          | None => Done s
          | Some writeLsn =>
              match minApplied writeLsn None applied with
              | None => Done s
              | Some m => if as_u64 (writeLsn - m) >? catchupMaxLagBytes then Done s else Done (to_phase ReadyToCutover s)
              end
          end
  end.

(** The names of the targets, derived from the immutable spec. *)
Definition expectedTargets (cluster : string) : list string :=
  (fun b => shardName cluster (bd_start b) (bd_end b)) <$> rs_ranges me.

(** The part of the pass after the schema is known to be the pinned one. *)
Definition seedPinned (s : SeedStatus) (mode : seedPassMode) (cluster : Cluster) (source : Shard) : SeedProg SeedStatus :=
  p ← seedPrimary (ss_node_ref (sx_spec source));
  match p with
  | None => Done s
  | Some (sourcePod, sourceNode) =>
      if negb (databaseVerified source sourceNode sourcePod) then Done s
      else
        r ← req (PrepareSource (pd_ip sourcePod) (pd_uid sourcePod) (shardDatabaseName source) (seedPublication (as_reshard me s))
                   ((fun t => mkTableRef (rt_schema t) (rt_name t)) <$> unpinTables (se_tables s)));
        match r with
        | Err InvalidArgument => Done (fail s)
        | Err _ => Done s
        | Ok _ =>
            targets ← seedTargets s cluster source sourcePod 0 (se_targets s);
            match targets with
            | inl s' => Done s'
            | inr applied =>
                if (length applied <? length (se_targets s))%nat then Done s
                else
                  match mode with
                  | seedModeSeeding => Done (to_phase CatchingUp s)
                  | seedModeCatchingUp => gateCatchup s source sourcePod applied
                  end
            end
        end
  end.

Definition runSeedPass (s : SeedStatus) (mode : seedPassMode) : SeedProg SeedStatus :=
  found ← req SeedCluster;
  match found with
  | None => Done s
  | Some cluster =>
      if str_is_empty (se_cluster_uid s) || negb (bool_decide (se_cluster_uid s = cl_uid cluster)) then Done (fail s)
      else if (maxDatabaseNameBytes <? str_len (seedPublication (as_reshard me s)) + seedSuffixReserve)%nat then Done (fail s)
      else
        src ← resolveSeedSource s;
        match src with
        | inl s' => Done s'
        | inr source =>
            if negb (bool_decide (se_targets s = expectedTargets (cl_name cluster))) then Done (fail s)
            else
              configs ← req SeedConfigs;
              let live := shardedTables (cl_name cluster) configs in
              if negb (se_pinned s) then
                match mode with
                | seedModeCatchingUp => Done (fail s)
                | seedModeSeeding =>
                    Done (mkSeedStatus (se_phase s) (se_targets s) (se_cluster_uid s) (se_source_uid s) true (pinTables live))
                end
              else if tablesDiffer (se_tables s) live then Done s
              else if bool_decide (unpinTables (se_tables s) = []) then advanceNothingToSeed s mode
              else seedPinned s mode cluster source
        end
  end.

(** ** Validation *)

(** [reconcileValidating]. *)
Definition reconcileValidating (s : SeedStatus) : SeedProg SeedStatus :=
  found ← req (SeedShard (rs_source me));
  match found with
  | None => Done (to_phase Validating s)
  | Some source =>
      if negb (bool_decide (ss_cluster_ref (sx_spec source) = rs_cluster me)) then Done (fail s)
      else if bool_decide (ss_role (sx_spec source) = ShardRoleSystem) then Done (fail s)
      else if negb (ss_serving (sx_spec source)) then Done (fail s)
      else
        found ← req SeedCluster;
        match found with
        | None => Done (to_phase Validating s)
        | Some cluster =>
            match toRange (ss_range (sx_spec source)) with
            | Err _ => Done (fail s)
            | Ok sourceRange =>
                match mapM toRange (rs_ranges me) with
                | Err _ => Done (fail s)
                | Ok targets =>
                    match validateReshardPartition sourceRange targets with
                    | Err _ => Done (fail s)
                    | Ok _ => Done (mkSeedStatus ProvisioningTargets (se_targets s) (cl_uid cluster) (sx_uid source) (se_pinned s) (se_tables s))
                    end
                end
            end
        end
  end.

(** ** Provisioning *)

(** How ensuring an object ends: done, requeue, or a collision with another owner's. *)
Inductive Ensured := EnsuredOk | Requeue | Collision.

Definition ensureReshardConfigMap (object : string) (rendered : Rendered) : SeedProg unit :=
  match configMapName object with
  | None => Stop
  | Some name => must (SeedConfigMap (rs_uid me) name (config_data rendered))
  end.

Definition ensureReshardNode (name : string) (node : NodeSpec) (rendered : Rendered) : SeedProg Ensured :=
  found ← req (SeedNode name);
  match found with
  | None =>
      r ← req (SeedCreateNode (new_node name (rs_uid me) node));
      match r with
      | AlreadyThere => Done Requeue
      | CreateFailed => Stop
      | CreatedOk => _ ← ensureReshardConfigMap name rendered; Done EnsuredOk
      end
  | Some existing =>
      if negb (bool_decide (nx_owner existing = rs_uid me)) then Done Collision
      else _ ← ensureReshardConfigMap name rendered; Done EnsuredOk
  end.

Definition ensureReshardShard (name : string) (shard : ShardSpec) (rendered : Rendered) : SeedProg Ensured :=
  found ← req (SeedShard name);
  match found with
  | None =>
      r ← req (SeedCreateShard (new_shard name (rs_uid me) shard));
      match r with
      | AlreadyThere => Done Requeue
      | CreateFailed => Stop
      | CreatedOk => _ ← ensureReshardConfigMap name rendered; Done EnsuredOk
      end
  | Some existing =>
      if negb (bool_decide (sx_owner existing = rs_uid me)) then Done Collision
      else _ ← ensureReshardConfigMap name rendered; Done EnsuredOk
  end.

(** A loop that ends at the first object that is not ensured. *)
Fixpoint ensureAll {A} (ensure : string -> A -> SeedProg Ensured) (l : list (string * A)) : SeedProg bool :=
  match l with
  | [] => Done true
  | (name, a) :: l' =>
      r ← ensure name a;
      match r with EnsuredOk => ensureAll ensure l' | _ => Done false end
  end.

(** [validateColocation]: whether to go on. *)
Definition validateColocation (colocateWith external : string) : SeedProg bool :=
  host ← req (SeedHost colocateWith);
  match host with
  | None => Done false
  | Some uid =>
      node ← req (SeedNode external);
      match node with
      | None => Done false
      | Some n => Done (bool_decide (nx_owner n = uid))
      end
  end.

(** The hidden targets: [None] when a name is longer than a database name may be. *)
Definition targetShards (cluster : Cluster) (rendered : Rendered) : option (list (string * ShardSpec)) :=
  mapM (fun b =>
    let name := shardName (cl_name cluster) (bd_start b) (bd_end b) in
    if (maxDatabaseNameBytes <? str_len name)%nat then None
    else Some (name, shardFor cluster name b ShardRoleData rendered false)) (rs_ranges me).

Definition reconcileProvisioningTargets `{GoUnicode} `{Sha256} (s : SeedStatus) : SeedProg SeedStatus :=
  found ← req SeedCluster;
  match found with
  | None => Done s
  | Some cluster =>
      if negb (bool_decide (se_cluster_uid s = cl_uid cluster)) then Done (fail s)
      else
        match Render (clusterRenderInputs cluster) with
        | Err _ => Stop
        | Ok rendered =>
            match targetShards cluster rendered with
            | None => Done (fail s)
            | Some targets =>
                match desiredPlacement cluster rendered targets with
                | None => Done (fail s)
                | Some (assignment, owned, external) =>
                    colocated ← (if str_is_empty external then Done true else validateColocation (snd (placementOf cluster)) external);
                    if negb colocated then Done s
                    else
                      nodes ← (if bool_decide (fst (placementOf cluster) = PlacementShared) then Done true
                               else ensureAll (fun name node => ensureReshardNode name node rendered) owned);
                      if negb nodes then Done s
                      else
                        shards ← ensureAll (fun name shard => ensureReshardShard name shard rendered) (placed assignment <$> targets);
                        if negb shards then Done s
                        else Done (mkSeedStatus Seeding targets.*1 (se_cluster_uid s) (se_source_uid s) (se_pinned s) (se_tables s))
                end
            end
        end
  end.

(** ** Dispatch *)

(** The phases of this file. *)
Definition seedPhase `{GoUnicode} `{Sha256} (s : SeedStatus) : option (SeedProg SeedStatus) :=
  match se_phase s with
  | Pending | Validating => Some (reconcileValidating s)
  | ProvisioningTargets => Some (reconcileProvisioningTargets s)
  | Seeding => Some (runSeedPass s seedModeSeeding)
  | CatchingUp => Some (runSeedPass s seedModeCatchingUp)
  | _ => None
  end.

(** [Reconcile] of a reshard that is not being deleted, in the phases before the cutover;
    the source skips the write when nothing changed. *)
Definition ReconcileSeeding `{GoUnicode} `{Sha256} (s : SeedStatus) : SeedProg unit :=
  match seedPhase s with
  | Some p => s' ← p; must (WriteStatus s')
  | None => Done tt
  end.

End seeding.

(** ** What the requests rest on *)

Section requests.
Context `{Quantity} (me : ReshardSpec) (s : SeedStatus).
Abbreviation SeedTrace := (list (Event SeedRequest)).

(** The shard was read with this node and pod as the placement its database is verified on. *)
Definition on_verified (tr : SeedTrace) (shard : Shard) (host pod_uid : string) : Prop :=
  exists node pod, answered (SeedNode (ss_node_ref (sx_spec shard))) (Some node) ∈ tr /\ nt_phase (nx_status node) = NodeReady /\
    answered (SeedPod (nt_primary (nx_status node))) (Some pod) ∈ tr /\ pd_owner pod = nx_uid node /\
    databaseVerified shard node pod = true /\ pd_ip pod = host /\ pd_uid pod = pod_uid.

(** The validated cluster and the validated, serving source. *)
Definition identified (tr : SeedTrace) (cluster : Cluster) (source : Shard) : Prop :=
  answered SeedCluster (Some cluster) ∈ tr /\ cl_uid cluster = se_cluster_uid s /\
  answered (SeedShard (rs_source me)) (Some source) ∈ tr /\ sx_uid source = se_source_uid s /\
  ss_serving (sx_spec source) = true /\ ss_role (sx_spec source) <> ShardRoleSystem.

(** The pinned tables are still the live ones. *)
Definition schema_pinned (tr : SeedTrace) (cluster : Cluster) : Prop :=
  se_pinned s = true /\ se_tables s <> [] /\
  exists configs, answered SeedConfigs configs ∈ tr /\ tablesDiffer (se_tables s) (shardedTables (cl_name cluster) configs) = false.

(** Target [i] as read: hidden, of this reshard, with its range. *)
Definition own_target (tr : SeedTrace) (i : nat) (name : string) (target : Shard) : Prop :=
  se_targets s !! i = Some name /\ answered (SeedShard name) (Some target) ∈ tr /\
  foreignTarget (as_reshard me s) (target_view target) (rs_ranges me !! i) = false.

Definition source_prepared (tr : SeedTrace) (source : Shard) (sourcePod : PodObj) : Prop :=
  on_verified tr source (pd_ip sourcePod) (pd_uid sourcePod) /\
  answered (PrepareSource (pd_ip sourcePod) (pd_uid sourcePod) (shardDatabaseName source) (seedPublication (as_reshard me s))
    ((fun t => mkTableRef (rt_schema t) (rt_name t)) <$> unpinTables (se_tables s))) (Ok tt) ∈ tr.

Definition seed_only (tr : SeedTrace) (e : sigT SeedRequest) : Prop :=
  match projT2 e with
  | PrepareSource host pod_uid database publication tables =>
      exists cluster source, identified tr cluster source /\ schema_pinned tr cluster /\ on_verified tr source host pod_uid /\
        database = sx_name source /\ publication = seedPublication (as_reshard me s)
  | StartWorkflow host pod_uid spec =>
      exists cluster source sourcePod i name target range,
        identified tr cluster source /\ se_targets s = expectedTargets me (cl_name cluster) /\ schema_pinned tr cluster /\
        source_prepared tr source sourcePod /\
        own_target tr i name target /\ on_verified tr target host pod_uid /\ toRange (ss_range (sx_spec target)) = Ok range /\
        spec = seedSpec me s cluster source target sourcePod range i
  | StopWorkflow host id =>
      exists pod_uid spec, answered (StartWorkflow host pod_uid spec) (Err FailedPrecondition) ∈ tr /\ id = ws_id spec
  | SeedCreateShard x =>
      sx_owner x = rs_uid me /\ ss_serving (sx_spec x) = false /\ ss_role (sx_spec x) = ShardRoleData /\
      ss_range (sx_spec x) ∈ rs_ranges me /\ answered (SeedShard (sx_name x)) None ∈ tr
  | SeedCreateNode n => nx_owner n = rs_uid me /\ answered (SeedNode (nx_name n)) None ∈ tr
  | SeedConfigMap owner _ _ => owner = rs_uid me
  | _ => True
  end.

(** A longer trace rests on no less. *)
Lemma on_verified_mono tr tr' shard host uid : tr ⊆ tr' -> on_verified tr shard host uid -> on_verified tr' shard host uid.
Proof. intros Hs (n & p & ? & ? & ? & ? & ? & ? & ?). exists n, p. split_and!; try done; by apply Hs. Qed.
Lemma identified_mono tr tr' cluster source : tr ⊆ tr' -> identified tr cluster source -> identified tr' cluster source.
Proof. intros Hs (? & ? & ? & ? & ? & ?). split_and!; try done; by apply Hs. Qed.
Lemma schema_pinned_mono tr tr' cluster : tr ⊆ tr' -> schema_pinned tr cluster -> schema_pinned tr' cluster.
Proof. intros Hs (? & ? & c & ? & ?). split_and!; [done..|]. exists c. split; [by apply Hs|done]. Qed.
Lemma source_prepared_mono tr tr' source pod : tr ⊆ tr' -> source_prepared tr source pod -> source_prepared tr' source pod.
Proof. intros Hs [? ?]. split; [by eapply on_verified_mono|by apply Hs]. Qed.

Lemma seedPrimary_allowed tr ref : allowed seed_only tr (seedPrimary ref).
Proof.
  unfold seedPrimary. destruct (str_is_empty ref); [step_allowed|]. step_allowed; [done|]. destruct x as [node|]; [|step_allowed].
  destruct (nt_phase _); [step_allowed|step_allowed| |step_allowed..]. destruct (str_is_empty _); [step_allowed|]. step_allowed; [done|].
  destruct x as [pod|]; [|step_allowed]. destruct (_ || _); step_allowed.
Qed.

(** What a resolved primary was read from. *)
Lemma seedPrimary_runs ref tr pod node : runs (seedPrimary ref) tr (Some (pod, node)) ->
  answered (SeedNode ref) (Some node) ∈ tr /\ nt_phase (nx_status node) = NodeReady /\
  answered (SeedPod (nt_primary (nx_status node))) (Some pod) ∈ tr /\ pd_owner pod = nx_uid node /\ pd_ip pod <> EmptyString.
Proof.
  unfold seedPrimary. destruct (str_is_empty ref); [by intros [_ ?]|].
  intros (n & tr1 & -> & Hr)%runs_req. destruct n as [n|]; [|by destruct Hr].
  destruct (nt_phase (nx_status n)) eqn:Hp; try by destruct Hr. destruct (str_is_empty (nt_primary _)); [by destruct Hr|].
  apply runs_req in Hr as (p & tr2 & -> & Hr). destruct p as [p|]; [|by destruct Hr].
  destruct (negb (bool_decide (pd_owner p = nx_uid n)) || str_is_empty (pd_ip p)) eqn:E; [by destruct Hr|].
  destruct Hr as [-> [= -> ->]]. apply orb_false_iff in E as [E1%negb_false_iff%bool_decide_eq_true E2].
  split_and!; [by left|done|by right; left|done|]. intros E0. by rewrite E0 in E2.
Qed.

Lemma resolved_verified shard tr pod node : runs (seedPrimary (ss_node_ref (sx_spec shard))) tr (Some (pod, node)) ->
  databaseVerified shard node pod = true -> on_verified tr shard (pd_ip pod) (pd_uid pod).
Proof. intros (? & ? & ? & ? & _)%seedPrimary_runs ?. exists node, pod. done. Qed.

Lemma stillVerified_allowed tr shard pod : allowed seed_only tr (stillVerified shard pod).
Proof.
  unfold stillVerified. step_allowed; [apply seedPrimary_allowed|]. destruct a as [[]|]; step_allowed.
Qed.

Lemma workflowStatus_allowed tr host id : allowed seed_only tr (workflowStatus host id).
Proof. unfold workflowStatus. step_allowed; [done|]. destruct x; [|step_allowed]. case_bool_decide; step_allowed. Qed.

Section targets.
Variables (cluster : Cluster) (source : Shard) (sourcePod : PodObj).

(** What holds when the loop over the targets begins. *)
Definition ready_to_seed (tr : SeedTrace) : Prop :=
  identified tr cluster source /\ se_targets s = expectedTargets me (cl_name cluster) /\ schema_pinned tr cluster /\
  source_prepared tr source sourcePod.

Lemma ready_to_seed_mono tr tr' : tr ⊆ tr' -> ready_to_seed tr -> ready_to_seed tr'.
Proof.
  intros Hs (? & ? & ? & ?). split_and!; [by eapply identified_mono|done|by eapply schema_pinned_mono|by eapply source_prepared_mono].
Qed.

Lemma seedTarget_allowed tr i name : ready_to_seed tr -> se_targets s !! i = Some name ->
  allowed seed_only tr (seedTarget me s cluster source sourcePod i name).
Proof.
  intros Hr Hi. unfold seedTarget. step_allowed; [done|]. destruct x as [target|]; [|step_allowed].
  destruct (foreignTarget _ _ _) eqn:Hf; [step_allowed|]. destruct (negb _); [step_allowed|].
  step_allowed; [apply seedPrimary_allowed|]. destruct a as [[pod node]|]; [|step_allowed].
  destruct (databaseVerified target node pod) eqn:Hv; cbn [negb]; [|step_allowed].
  destruct (toRange _) as [range|] eqn:Hrange; [|step_allowed]. cbv zeta. step_allowed.
  - destruct Hr as (? & ? & ? & ?). exists cluster, source, sourcePod, i, name, target, range. rewrite <- app_assoc. split_and!.
    + eapply identified_mono; [apply sub_l|done].
    + done.
    + eapply schema_pinned_mono; [apply sub_l|done].
    + eapply source_prepared_mono; [apply sub_l|done].
    + split_and!; [done| |done]. apply elem_of_app. right. by left.
    + eapply on_verified_mono; [|by eapply resolved_verified]. etrans; [apply sub_r|]. apply sub_r.
    + done.
    + done.
  - destruct x as [u|c].
    + step_allowed; [apply workflowStatus_allowed|]. destruct a as [report|]; [|step_allowed].
      step_allowed; [apply stillVerified_allowed|]. destruct a; cbn [negb]; [|step_allowed]. destruct (wf_phase report); step_allowed.
    + destruct c; [step_allowed| |step_allowed..]. step_allowed; [|step_allowed].
      eexists _, _. split; [|done]. apply elem_of_app. right. by left.
Qed.

Lemma seedTargets_allowed names : forall tr i, ready_to_seed tr -> (forall j, names !! j = se_targets s !! (i + j)%nat) ->
  allowed seed_only tr (seedTargets me s cluster source sourcePod i names).
Proof.
  induction names as [|name names IH]; intros tr i Hr Hi; cbn [seedTargets]; [step_allowed|].
  step_allowed; [apply seedTarget_allowed; [done|]; specialize (Hi 0%nat); by rewrite Nat.add_0_r in Hi|].
  destruct a as [s'|[streaming applied]]; [step_allowed|]. step_allowed.
  - apply IH; [eapply ready_to_seed_mono; [apply sub_l|done]|]. intros j. specialize (Hi (S j)). by rewrite Nat.add_succ_r in Hi.
  - destruct a; step_allowed.
Qed.
End targets.

Lemma gateCatchup_allowed tr source pod applied : allowed seed_only tr (gateCatchup s source pod applied).
Proof.
  unfold gateCatchup. step_allowed; [done|]. destruct x as [status|]; [|step_allowed]. destruct (_ || _ || _); [step_allowed|].
  step_allowed; [apply stillVerified_allowed|]. destruct a; cbn [negb]; [|step_allowed].
  destruct (ir_write_lsn status); [|step_allowed]. destruct (minApplied _ _ _); [|step_allowed]. destruct (_ >? _); step_allowed.
Qed.

Lemma nothingToSeed_allowed mode names : forall tr i, allowed seed_only tr (nothingToSeed me s mode i names).
Proof.
  induction names as [|name names IH]; intros tr i; cbn [nothingToSeed]; [step_allowed|].
  step_allowed; [done|]. destruct x; [|step_allowed]. destruct (foreignTarget _ _ _); [step_allowed|apply IH].
Qed.

Lemma seedPinned_allowed tr mode cluster source : identified tr cluster source ->
  se_targets s = expectedTargets me (cl_name cluster) -> schema_pinned tr cluster ->
  allowed seed_only tr (seedPinned me s mode cluster source).
Proof.
  intros Hid Ht Hp. unfold seedPinned. step_allowed; [apply seedPrimary_allowed|]. destruct a as [[pod node]|]; [|step_allowed].
  destruct (databaseVerified source node pod) eqn:Hv; cbn [negb]; [|step_allowed].
  assert (Hon : on_verified (tr ++ tr1) source (pd_ip pod) (pd_uid pod)).
  { eapply on_verified_mono; [apply sub_r|]. by eapply resolved_verified. }
  step_allowed.
  - exists cluster, source. split_and!; [|..|done|done|done].
    + eapply identified_mono; [apply sub_l|done].
    + eapply schema_pinned_mono; [apply sub_l|done].
  - destruct x as [[]|c]; [|destruct c; step_allowed]. step_allowed.
    + apply seedTargets_allowed; [|done]. split_and!.
      * eapply identified_mono; [|done]. etrans; apply sub_l.
      * done.
      * eapply schema_pinned_mono; [|done]. etrans; apply sub_l.
      * split; [eapply on_verified_mono; [apply sub_l|done]|]. apply elem_of_app. right. by left.
    + destruct a as [s'|applied]; [step_allowed|]. destruct (_ <? _)%nat; [step_allowed|].
      destruct mode; [step_allowed|apply gateCatchup_allowed].
Qed.

Lemma resolveSeedSource_allowed tr : allowed seed_only tr (resolveSeedSource me s).
Proof.
  unfold resolveSeedSource. step_allowed; [done|]. destruct x; [|step_allowed]. do 3 (step_allowed; [step_allowed|]). step_allowed.
Qed.

Lemma resolveSeedSource_runs tr source : runs (resolveSeedSource me s) tr (inr source) ->
  answered (SeedShard (rs_source me)) (Some source) ∈ tr /\ sx_uid source = se_source_uid s /\
  ss_serving (sx_spec source) = true /\ ss_role (sx_spec source) <> ShardRoleSystem.
Proof.
  unfold resolveSeedSource. intros (x & tr1 & -> & Hr)%runs_req. destruct x as [x|]; [|by destruct Hr].
  destruct (str_is_empty (se_source_uid s)); [by destruct Hr|]. cbn [orb] in Hr.
  case_bool_decide as Hu; [|by destruct Hr]. cbn [negb] in Hr. destruct (ss_serving (sx_spec x)) eqn:Hs; [|by destruct Hr]. cbn [negb] in Hr.
  case_bool_decide as Hrole; [by destruct Hr|]. destruct Hr as [-> [= ->]]. split_and!; [by left|done|done|done].
Qed.

Lemma runSeedPass_allowed tr mode : allowed seed_only tr (runSeedPass me s mode).
Proof.
  unfold runSeedPass. step_allowed; [done|]. destruct x as [cluster|]; [|step_allowed].
  destruct (str_is_empty (se_cluster_uid s)); cbn [orb]; [step_allowed|]. case_bool_decide as Hc; cbn [negb]; [|step_allowed].
  destruct (_ <? _)%nat; [step_allowed|]. step_allowed; [apply resolveSeedSource_allowed|].
  destruct a as [s'|source]; [step_allowed|]. case_bool_decide as Ht; cbn [negb]; [|step_allowed].
  step_allowed; [done|]. rename x into configs. cbv zeta.
  destruct (se_pinned s) eqn:Hpin; cbn [negb]; [|destruct mode; step_allowed].
  destruct (tablesDiffer _ _) eqn:Hd; [step_allowed|]. case_bool_decide as Hempty; [apply nothingToSeed_allowed|].
  apply seedPinned_allowed; [|done|].
  - apply resolveSeedSource_runs in H0 as (? & ? & ? & ?). split_and!; try done.
    + apply sub_l, sub_l, elem_of_app. right. by left.
    + apply sub_l, sub_r. done.
  - split_and!; [done|intros E; by rewrite E in Hempty|]. exists configs. split; [|done]. apply elem_of_app. right. by left.
Qed.

Lemma reconcileValidating_allowed tr : allowed seed_only tr (reconcileValidating me s).
Proof.
  unfold reconcileValidating. step_allowed; [done|]. destruct x as [source|]; [|step_allowed].
  do 3 (step_allowed; [step_allowed|]). step_allowed; [done|]. destruct x; [|step_allowed].
  destruct (toRange _); [|step_allowed]. destruct (mapM toRange _); [|step_allowed].
  destruct (validateReshardPartition _ _); step_allowed.
Qed.

Lemma reshardConfigMap_allowed tr object rendered : allowed seed_only tr (ensureReshardConfigMap me object rendered).
Proof. unfold ensureReshardConfigMap. destruct (configMapName object); step_allowed. done. Qed.

Lemma reshardNode_allowed tr name node rendered : allowed seed_only tr (ensureReshardNode me name node rendered).
Proof.
  unfold ensureReshardNode. step_allowed; [done|]. destruct x as [existing|].
  - destruct (negb _); [step_allowed|]. step_allowed; [apply reshardConfigMap_allowed|step_allowed].
  - step_allowed; [split; [done|]; apply elem_of_app; right; by left|].
    destruct x; [|step_allowed..]. step_allowed; [apply reshardConfigMap_allowed|step_allowed].
Qed.

Lemma reshardShard_allowed tr name spec rendered : ss_serving spec = false -> ss_role spec = ShardRoleData -> ss_range spec ∈ rs_ranges me ->
  allowed seed_only tr (ensureReshardShard me name spec rendered).
Proof.
  intros Hs Hr Hin. unfold ensureReshardShard. step_allowed; [done|]. destruct x as [existing|].
  - destruct (negb _); [step_allowed|]. step_allowed; [apply reshardConfigMap_allowed|step_allowed].
  - step_allowed; [split_and!; [done..|]; apply elem_of_app; right; by left|].
    destruct x; [|step_allowed..]. step_allowed; [apply reshardConfigMap_allowed|step_allowed].
Qed.

Lemma ensureAll_allowed {A} (ensure : string -> A -> Prog SeedRequest Ensured) l : forall tr,
  (forall name a tr, (name, a) ∈ l -> allowed seed_only tr (ensure name a)) -> allowed seed_only tr (ensureAll ensure l).
Proof.
  induction l as [|[name a] l IH]; intros tr He; cbn [ensureAll]; [step_allowed|].
  step_allowed; [apply He; by left|]. destruct a0; [|step_allowed..]. apply IH. intros. apply He. by right.
Qed.

Lemma targetShards_Some cluster rendered targets : targetShards me cluster rendered = Some targets ->
  targets.*1 = expectedTargets me (cl_name cluster) /\
  forall name spec, (name, spec) ∈ targets -> ss_serving spec = false /\ ss_role spec = ShardRoleData /\ ss_range spec ∈ rs_ranges me.
Proof.
  unfold targetShards, expectedTargets. intros Hm%mapM_Some. split.
  - induction Hm as [|b t bs ts Hb _ IH]; [done|]. rewrite !fmap_cons. cbv zeta in Hb. destruct (_ <? _)%nat; [done|].
    injection Hb as <-. cbn. by rewrite IH.
  - intros name spec [i Hi]%list_elem_of_lookup. destruct (Forall2_lookup_r _ _ _ _ _ Hm Hi) as (b & Hb & Ht). cbv zeta in Ht.
    destruct (_ <? _)%nat; [done|]. injection Ht as <- <-. split_and!; [done|done|]. by eapply list_elem_of_lookup_2.
Qed.

Lemma reconcileProvisioning_allowed `{GoUnicode} `{Sha256} tr : allowed seed_only tr (reconcileProvisioningTargets me s).
Proof.
  unfold reconcileProvisioningTargets. step_allowed; [done|]. destruct x as [cluster|]; [|step_allowed].
  destruct (negb _); [step_allowed|]. destruct (Render _) as [rendered|]; [|step_allowed].
  destruct (targetShards _ _ _) as [targets|] eqn:Ht; [|step_allowed]. apply targetShards_Some in Ht as [_ Ht].
  destruct (desiredPlacement _ _ _) as [[[assignment owned] external]|]; [|step_allowed]. step_allowed.
  { destruct (str_is_empty external); [step_allowed|]. unfold validateColocation. step_allowed; [done|].
    destruct x; [|step_allowed]. step_allowed; [done|]. destruct x; step_allowed. }
  destruct a; cbn [negb]; [|step_allowed]. step_allowed.
  { case_bool_decide; [step_allowed|]. apply ensureAll_allowed. intros. apply reshardNode_allowed. }
  destruct a; cbn [negb]; [|step_allowed]. step_allowed.
  { apply ensureAll_allowed. intros name spec tr' ([n0 sp0] & [= -> ->] & Hin)%list_elem_of_fmap. apply Ht in Hin as (? & ? & ?).
    by apply reshardShard_allowed. }
  destruct a; cbn [negb]; step_allowed.
Qed.

End requests.

(** *** Seeded and routed tables *)

Definition entry_key (t : RoutingTable) : list string := [rt_schema t; rt_name t].
Definition entry_key4 (t : RoutingTable) : list string := [rt_schema t; rt_name t; rt_shard_key_column t; rt_shard_key_type t].

Lemma cmp_tables_key a b : cmp_tables a b = lex String.compare (entry_key a) (entry_key b).
Proof. by apply (cmp_or_lex (entry_key a) (entry_key b)). Qed.

Lemma cmp_seed_key a b : cmp_seed_entries a b = lex String.compare (entry_key4 a) (entry_key4 b).
Proof. by apply (cmp_or_lex (entry_key4 a) (entry_key4 b)). Qed.

Lemma seed_order_finer a b : le_of cmp_seed_entries a b = true -> le_of cmp_tables a b = true.
Proof. unfold le_of, cmp_seed_entries, cmp_tables. cbn [cmp_or]. by repeat case_match. Qed.

(** Two sorted arrangements of entries with distinct names are the same. *)
Lemma sorted_entries_unique l k : StronglySorted (fun a b => le_of cmp_tables a b = true) l ->
  StronglySorted (fun a b => le_of cmp_tables a b = true) k -> NoDup (entry_key <$> l) -> l ≡ₚ k -> l = k.
Proof.
  intros Hl Hk Hnd Hp. eapply sorting.StronglySorted_unique_strong; [|exact Hl|exact Hk|done].
  intros x y Hx Hy Hxy Hyx. rewrite <- Hp in Hy. eapply (NoDup_fmap_inj entry_key); [done..|].
  eapply (le_of_antisym entry_key); [apply lex_ordered, string_ordered|apply cmp_tables_key|done|done].
Qed.

Lemma sorted_fmap {A B} (f : A -> B) (R : B -> B -> Prop) l : StronglySorted (fun a b => R (f a) (f b)) l -> StronglySorted R (f <$> l).
Proof.
  induction 1 as [|x l _ IH Hx]; [constructor|]. rewrite fmap_cons. constructor; [done|]. by apply Forall_fmap.
Qed.

Lemma sorted_impl {A} (R R' : A -> A -> Prop) l : (forall a b, R a b -> R' a b) -> StronglySorted R l -> StronglySorted R' l.
Proof. intros Hi. induction 1 as [|x l _ IH Hx]; constructor; [done|]. eapply Forall_impl; [exact Hx|]. auto. Qed.

(** A sharded entry, as it is pinned and unpinned. *)
Definition pin_form (t : RoutingTable) : RoutingTable :=
  mkRoutingTable (rt_schema t) (rt_name t) TableSharded (rt_shard_key_column t) (rt_shard_key_type t) [].

Lemma unpin_pin l : unpinTables (pinTables l) = pin_form <$> l.
Proof. unfold unpinTables, pinTables. by rewrite <- list_fmap_compose. Qed.

Lemma pin_unpin l : pinTables (unpinTables l) = l.
Proof. unfold unpinTables, pinTables. rewrite <- list_fmap_compose. rewrite <- (list_fmap_id l) at 2. apply list_fmap_ext. by intros ? [] _. Qed.

Lemma config_tables_perm configs configs' : configs ≡ₚ configs' ->
  (config_entries configs).*2 ≡ₚ configs' ≫= tc_tables.
Proof.
  intros Hp. assert (Heq : forall l, (config_entries l).*2 = l ≫= tc_tables).
  { induction l as [|c l IH]; [done|]. unfold config_entries in *. rewrite !bind_cons, fmap_app, IH. f_equal.
    rewrite <- list_fmap_compose. by rewrite list_fmap_id. }
  rewrite Heq. by rewrite Hp.
Qed.

Lemma sharded_entries (cluster : string) (configs : list (string * PgShardTableConfig)) :
  (configs ≫= fun c => if negb (bool_decide (fst c = cluster)) then [] else with_schema_default <$> List.filter is_sharded (tc_tables (snd c))) =
  with_schema_default <$> List.filter is_sharded ((snd <$> List.filter (fun c => bool_decide (fst c = cluster)) configs) ≫= tc_tables).
Proof.
  induction configs as [|c configs IH]; [done|]. rewrite bind_cons, IH. cbn [List.filter].
  case_bool_decide; cbn [negb app]; [|done]. by rewrite fmap_cons, bind_cons, List.filter_app, fmap_app.
Qed.

Lemma filter_fmap_sharded (f : RoutingTable -> RoutingTable) l : (forall t, rt_type (f t) = rt_type t) ->
  List.filter is_sharded (f <$> l) = f <$> List.filter is_sharded l.
Proof.
  intros Hf. induction l as [|t l IH]; [done|]. rewrite fmap_cons. cbn [List.filter].
  assert (is_sharded (f t) = is_sharded t) as -> by (unfold is_sharded; by rewrite Hf).
  destruct (is_sharded t); [by rewrite fmap_cons, IH|done].
Qed.

(** *** Names and ranges on the wire *)

Lemma ident_safe l : (0 < length l <= 63)%nat -> Forall (fun c => is_ascii_alnum c || bool_decide (c = "_"%char) = true) l ->
  is_safe_ident (str_of l) = true.
Proof.
  intros Hl Hf. unfold is_safe_ident, str_len. rewrite bytes_str_of, !andb_true_iff. split_and!.
  - by destruct l; [cbn in Hl; lia|].
  - apply Nat.leb_le. lia.
  - apply forallb_spec. by rewrite Forall_forall in Hf.
Qed.

Lemma seedIdent_chars x : Forall (fun c => is_ascii_alnum c || bool_decide (c = "_"%char) = true) (bytes (seedIdent x)).
Proof. unfold seedIdent. rewrite bytes_str_of. apply Forall_fmap, Forall_true. intros c. apply seed_char_ident. Qed.

Lemma seed_publication_safe me : is_uid (me_uid me) = true ->
  is_safe_ident (seedPublication me) = true /\ (str_len (seedPublication me) <= 58)%nat.
Proof.
  intros [Hl%Nat.eqb_eq _]%andb_true_iff.
  assert (Hlen : (0 < length (bytes (seedPublication me)) <= 58)%nat).
  { unfold seedPublication. rewrite seedIdent_len, Hl, !bytes_app, bytes_str_of, !length_app, length_take.
    pose proof (seedIdent_len (me_uid me)) as Hlu. unfold str_len in Hl, Hlu. rewrite Hlu, Hl.
    cbn [length bytes String.list_ascii_of_string maxDatabaseNameBytes seedSuffixReserve]. unfold maxDatabaseNameBytes, seedSuffixReserve. lia. }
  split; [|unfold str_len; lia]. rewrite <- (str_of_bytes (seedPublication me)). apply ident_safe; [lia|].
  unfold seedPublication. rewrite !bytes_app, bytes_str_of, !Forall_app.
  split_and!; [by repeat constructor|apply Forall_take, seedIdent_chars|by repeat constructor|apply seedIdent_chars].
Qed.

Lemma seed_id_safe me i : is_uid (me_uid me) = true -> (i <= 128)%nat ->
  is_safe_ident (seedWorkflowID me i) = true /\ starts_with_str "pgshard_" (seedWorkflowID me i) = true /\
  str_is_empty (seedWorkflowID me i) = false.
Proof.
  intros Hu Hi. destruct (seedWorkflowID_bytes me i Hu) as (name & Hn & Hf & Hb). destruct (index_digits i Hi) as [Hd Hdf].
  pose proof Hu as [Hl%Nat.eqb_eq _]%andb_true_iff. pose proof (seedIdent_len (me_uid me)) as Hlu. unfold str_len in Hl, Hlu.
  split_and!; [|..|done].
  - rewrite <- (str_of_bytes (seedWorkflowID me i)), Hb. apply ident_safe.
    + rewrite !length_app, Hlu, Hl. cbn [length bytes String.list_ascii_of_string]. lia.
    + rewrite !Forall_app. split_and!; [by repeat constructor|done|by repeat constructor|apply seedIdent_chars|by repeat constructor|].
      eapply Forall_impl; [exact Hdf|]. cbn. unfold is_ascii_alnum. by intros c ->.
  - unfold starts_with_str. rewrite Hb, <- !app_assoc. by rewrite (proj2 (strip_prefix_bytes_Some _ _ _) eq_refl).
Qed.

(** A range of the CRD is a range of the data plane, and survives the wire. *)
Lemma toRange_wf b range : toRange b = Ok range -> exists kr, range_wf kr /\ range = to_go kr.
Proof.
  unfold toRange. intros Hp. pose proof (range_parse_agrees (bd_start b +:+ "-" +:+ bd_end b)) as Ha. rewrite Hp in Ha. cbn in Ha.
  destruct (KeyRange_from_str _) as [kr|] eqn:Hk; [|done]. injection Ha as ->. exists kr. split; [by eapply from_str_wf|done].
Qed.

Lemma wire_range_new kr : range_wf kr -> KeyRange.new (wire_range (to_go kr)).1 (wire_range (to_go kr)).2 = Ok kr.
Proof.
  destruct kr as [a [e|]]; cbn; [|done]. intros (_ & Hlt & _). unfold KeyRange.end_exclusive in Hlt. cbn in Hlt.
  destruct (a >=? e) eqn:E; [lia|done].
Qed.

(** *** The agent's view of a seed spec *)

(** What the CRD guarantees of a pinned table. *)
Definition seedable (t : SeedTable) : Prop :=
  sd_schema t <> EmptyString /\ sd_name t <> EmptyString /\ sd_key_column t <> EmptyString /\
  sd_key_type t ∈ ["int"; "text"; "uuid"; "bytea"]%string.

(** The table as the agent plans it. *)
Definition planned (t : SeedTable) (p : TablePlan) : Prop :=
  tp_schema p = sd_schema t /\ tp_name p = sd_name t /\ tp_shard_key_column p = sd_key_column t /\
  scalar_type (sd_key_type t) = Ok (tp_shard_key_type p).

Lemma str_nonempty s : s <> EmptyString -> str_is_empty s = false.
Proof. by destruct s. Qed.

Definition table_mapping (t : SeedTable) : TableMapping :=
  mkTableMapping (Some (mkTableRef (sd_schema t) (sd_name t))) None [] (sd_key_column t) (sd_key_type t).

Lemma mappings_of tables : seedMapping <$> unpinTables tables = table_mapping <$> tables.
Proof. unfold unpinTables. by rewrite <- list_fmap_compose. Qed.

Lemma plan_table_seedable t : seedable t -> exists p, plan_table (table_mapping t) = Ok p /\ planned t p.
Proof.
  intros (Hs & Hn & Hc & Ht). assert (Hty : exists ty, scalar_type (sd_key_type t) = Ok ty).
  { repeat (apply elem_of_cons in Ht as [->|Ht]; [by eexists|]). by apply not_elem_of_nil in Ht. }
  destruct Hty as [ty Hty]. exists (mkTablePlan (sd_schema t) (sd_name t) (sd_key_column t) ty).
  unfold plan_table, table_mapping. cbn [tm_source tm_target tm_column_map tm_shard_key_column tm_shard_key_type tr_schema tr_name].
  rewrite (str_nonempty _ Hs), (str_nonempty _ Hn), (str_nonempty _ Hc). cbn. rewrite Hty. by split.
Qed.

Lemma plan_tables_seedable tables : Forall seedable tables -> exists ps, mapM plan_table (table_mapping <$> tables) = Ok ps /\ Forall2 planned tables ps.
Proof.
  intros Hf. assert (Hps : exists ps, Forall2 (fun t p => plan_table (table_mapping t) = Ok p /\ planned t p) tables ps).
  { induction Hf as [|t ts Ht _ (ps & IH)]; [by exists []|].
    destruct (plan_table_seedable t Ht) as (p & ? & ?). exists (p :: ps). by constructor. }
  destruct Hps as (ps & Hps). exists ps. split.
  - apply mapM_Ok, Forall2_fmap_l. eapply Forall2_impl; [exact Hps|]. by intros ?? [? _].
  - eapply Forall2_impl; [exact Hps|]. by intros ?? [_ ?].
Qed.

Lemma mapped_once tables : forall prev, NoDup ((fun t => (sd_schema t, sd_name t)) <$> tables) ->
  (forall t, t ∈ tables -> mkTableRef (sd_schema t) (sd_name t) ∉ prev) -> mapped_twice prev (table_mapping <$> tables) = false.
Proof.
  induction tables as [|t ts IH]; intros prev Hnd Hp; [done|]. rewrite fmap_cons in *. apply NoDup_cons in Hnd as [Hni Hnd].
  cbn [mapped_twice table_mapping tm_source]. rewrite bool_decide_false by (apply Hp; by left). cbn [orb]. apply IH; [done|].
  intros t' Ht' [Heq|Hin]%elem_of_cons; [|by eapply Hp; [right|]]. injection Heq as E1 E2. apply Hni.
  apply list_elem_of_fmap. exists t'. by rewrite E1, E2.
Qed.

(** *** What validation establishes *)

Lemma validating_runs `{Quantity} me s0 tr s1 : runs (reconcileValidating me s0) tr s1 -> se_phase s1 = ProvisioningTargets ->
  exists source cluster src targets,
    tr = [answered (SeedShard (rs_source me)) (Some source); answered SeedCluster (Some cluster)] /\
    ss_cluster_ref (sx_spec source) = rs_cluster me /\ ss_serving (sx_spec source) = true /\ ss_role (sx_spec source) <> ShardRoleSystem /\
    toRange (ss_range (sx_spec source)) = Ok src /\ mapM toRange (rs_ranges me) = Ok targets /\
    validateReshardPartition src targets = Ok tt /\
    s1 = mkSeedStatus ProvisioningTargets (se_targets s0) (cl_uid cluster) (sx_uid source) (se_pinned s0) (se_tables s0).
Proof.
  unfold reconcileValidating. intros (x & tr1 & -> & Hr)%runs_req Hp. destruct x as [source|]; [|destruct Hr as [_ <-]; done].
  case_bool_decide as Hc; cbn [negb] in Hr; [|destruct Hr as [_ <-]; done].
  case_bool_decide as Hrole; [destruct Hr as [_ <-]; done|].
  destruct (ss_serving (sx_spec source)) eqn:Hs; cbn [negb] in Hr; [|destruct Hr as [_ <-]; done].
  apply runs_req in Hr as (x & tr2 & -> & Hr). destruct x as [cluster|]; [|destruct Hr as [_ <-]; done].
  destruct (toRange (ss_range (sx_spec source))) as [src|] eqn:Hsrc; [|destruct Hr as [_ <-]; done].
  destruct (mapM toRange (rs_ranges me)) as [targets|] eqn:Ht; [|destruct Hr as [_ <-]; done].
  destruct (validateReshardPartition src targets) as [[]|] eqn:Hv; [|destruct Hr as [_ <-]; done].
  destruct Hr as [-> <-]. by exists source, cluster, src, targets.
Qed.

Lemma toRanges_wf bs ranges : mapM toRange bs = Ok ranges -> exists rs, Forall range_wf rs /\ ranges = to_go <$> rs.
Proof.
  intros Hm%mapM_Ok. induction Hm as [|b r bs ranges Hb _ (rs & Hwf & ->)]; [by exists []|].
  destruct (toRange_wf _ _ Hb) as (kr & Hkr & ->). exists (kr :: rs). by split; [constructor|].
Qed.

Lemma seed_requests_allowed `{Quantity} `{GoUnicode} `{Sha256} me s tr e : asks (ReconcileSeeding me s) tr e -> seed_only me s tr e.
Proof.
  intros Ha. refine ((_ : allowed (seed_only me s) [] _) tr e Ha). unfold ReconcileSeeding, seedPhase.
  destruct (se_phase s); try apply allowed_done;
    (apply allowed_bind; [|intros s' tr1 _; by apply allowed_must]);
    first [apply reconcileValidating_allowed | apply reconcileProvisioning_allowed | apply runSeedPass_allowed].
Qed.

(** A target that is not foreign has its range of the spec. *)
Lemma own_range me target range : foreignTarget me target range = false -> range = Some (ta_range target).
Proof. unfold foreignTarget. rewrite !orb_false_iff, !negb_false_iff, !bool_decide_eq_true. by intros [[[_ <-] _] _]. Qed.

(** The range and the id of a plan. *)
Lemma plan_range `{XxHash} spec config run : plan spec config = Ok run ->
  plan_filter (ws_filter spec) = Ok (rp_range run, Workflow.rp_hash_function run) /\ rp_id run = ws_id spec.
Proof.
  unfold plan. intros Hp.
  repeat match type of Hp with (if ?b then Err _ else _) = _ => destruct b; [discriminate Hp|] end.
  apply result_bind_Ok in Hp as (src & _ & Hp).
  repeat match type of Hp with (if ?b then Err _ else _) = _ => destruct b; [discriminate Hp|] end.
  apply result_bind_Ok in Hp as ([rg hs] & Hf & Hp). by apply result_bind_Ok in Hp as (ts & _ & [= <-]).
Qed.

Lemma plan_of_seed `{Quantity} `{XxHash} me s cluster source target sourcePod kr i config run : range_wf kr ->
  plan (seedSpec me s cluster source target sourcePod (to_go kr) i) config = Ok run ->
  rp_range run = kr /\ rp_id run = seedWorkflowID (as_reshard me s) i.
Proof.
  intros Hwf [Hf Hid]%plan_range. split; [|done]. unfold plan_filter, seedSpec in Hf. cbv zeta in Hf.
  cbn [ws_filter ok_or mbind result_bind] in Hf. rewrite wire_range_new in Hf by done. cbn [map_err mbind result_bind] in Hf.
  destruct (negb _); [done|]. by injection Hf as -> _.
Qed.

(** *** What readiness rests on *)

Section readiness.
Context `{Quantity} (me : ReshardSpec) (s : SeedStatus).

(** Target [i]'s workflow reported streaming with this position, at the verified primary of
    the reshard's own hidden shard. *)
Definition streaming (tr : list (Event SeedRequest)) (i : nat) (name : string) (applied : option Z) : Prop :=
  exists target host pod_uid report, own_target me s tr i name target /\ on_verified tr target host pod_uid /\
    answered (WatchWorkflow host (seedWorkflowID (as_reshard me s) i)) (Some report) ∈ tr /\
    wf_id report = seedWorkflowID (as_reshard me s) i /\ wf_phase report = PhaseStreaming /\ wf_applied report = applied.

Lemma own_target_mono tr tr' i name target : tr ⊆ tr' -> own_target me s tr i name target -> own_target me s tr' i name target.
Proof. intros Hs (? & ? & ?). split_and!; [done|by apply Hs|done]. Qed.

Lemma streaming_mono tr tr' i name applied : tr ⊆ tr' -> streaming tr i name applied -> streaming tr' i name applied.
Proof.
  intros Hs (t & h & u & r & ? & ? & ? & ?). exists t, h, u, r.
  split_and!; [by eapply own_target_mono|by eapply on_verified_mono|by apply Hs|tauto..].
Qed.

Lemma seedTarget_runs cluster source sourcePod i name tr applied : se_targets s !! i = Some name ->
  runs (seedTarget me s cluster source sourcePod i name) tr (inr (true, applied)) -> streaming tr i name applied.
Proof.
  intros Hi. unfold seedTarget. intros (t & tr1 & -> & Hr)%runs_req. destruct t as [target|]; [|by destruct Hr].
  destruct (foreignTarget _ _ _) eqn:Hf; [by destruct Hr|]. destruct (negb _); [by destruct Hr|].
  apply run_bind in Hr as (p & tr2 & tr3 & -> & Hp & Hr). destruct p as [[pod node]|]; [|by destruct Hr].
  destruct (databaseVerified target node pod) eqn:Hv; cbn [negb] in Hr; [|by destruct Hr].
  destruct (toRange _); [|by destruct Hr]. cbv zeta in Hr. apply runs_req in Hr as (r & tr4 & -> & Hr).
  destruct r as [u|[]]; try by destruct Hr. 2: { by apply runs_req in Hr as (? & ? & _ & [_ ?]). }
  apply run_bind in Hr as (report & tr5 & tr6 & -> & Hrep & Hr). destruct report as [report|]; [|by destruct Hr].
  apply run_bind in Hr as (ok & tr7 & tr8 & -> & _ & Hr). destruct ok; cbn [negb] in Hr; [|by destruct Hr].
  destruct (wf_phase report) eqn:Hph; try by destruct Hr. destruct Hr as [-> [= <-]].
  unfold workflowStatus in Hrep. apply runs_req in Hrep as (rep & tr9 & -> & Hrep). destruct rep as [rep|]; [|by destruct Hrep].
  case_bool_decide as Hid; [|by destruct Hrep]. destruct Hrep as [-> [= ->]].
  exists target, (pd_ip pod), (pd_uid pod), report. split_and!; try done.
  - split_and!; [done|by left|done].
  - eapply on_verified_mono; [|by eapply resolved_verified]. intros e He. right. apply elem_of_app. by left.
  - right. apply elem_of_app. right. right. by left.
Qed.

Lemma seedTargets_runs cluster source sourcePod names : forall i tr l, (forall j, names !! j = se_targets s !! (i + j)%nat) ->
  runs (seedTargets me s cluster source sourcePod i names) tr (inr l) ->
  (length l <= length names)%nat /\
  (length l = length names -> forall j name, names !! j = Some name -> exists applied, l !! j = Some applied /\ streaming tr (i + j) name applied).
Proof.
  induction names as [|name names IH]; intros i tr l Hn; cbn [seedTargets].
  { intros [-> [= <-]]. done. }
  intros (r & tr1 & tr2 & -> & Hr & Hrest)%run_bind. destruct r as [s'|[str applied]]; [by destruct Hrest|].
  apply run_bind in Hrest as (rest & tr3 & tr4 & -> & Hrest & Hl). destruct rest as [s'|l']; [by destruct Hl|].
  destruct Hl as [-> [= <-]]. rewrite app_nil_r.
  destruct (IH (S i) tr3 l') as [Hle Hall]; [intros j; specialize (Hn (S j)); by rewrite Nat.add_succ_r in Hn|done|].
  destruct str; cbn [length]; [|split; [lia|intros; lia]]. split; [lia|]. intros Heq j nm Hj. destruct j as [|j].
  - injection Hj as <-. exists applied. split; [done|]. rewrite Nat.add_0_r. eapply streaming_mono; [apply sub_l|].
    eapply seedTarget_runs, Hr. specialize (Hn 0%nat). by rewrite Nat.add_0_r in Hn.
  - destruct (Hall ltac:(lia) j nm Hj) as (a & ? & ?). exists a. split; [done|]. rewrite Nat.add_succ_r.
    eapply streaming_mono; [apply sub_r|done].
Qed.

Lemma seedTargets_inl cluster source sourcePod names : forall i tr s', runs (seedTargets me s cluster source sourcePod i names) tr (inl s') ->
  s' = s \/ s' = fail s.
Proof.
  induction names as [|name names IH]; intros i tr s'; cbn [seedTargets]; [by intros [_ ?]|].
  intros (r & tr1 & tr2 & -> & Hr & Hrest)%run_bind. destruct r as [s1|[str applied]].
  - destruct Hrest as [_ [= <-]]. assert (Hy : yields (seedTarget me s cluster source sourcePod i name)
      (fun r => match r with inl s1 => s1 = s \/ s1 = fail s | inr _ => True end)); [|by apply Hy in Hr].
    unfold seedTarget. cbv zeta. yield; auto.
  - apply run_bind in Hrest as (rest & tr3 & tr4 & -> & Hrest & Hl). destruct rest as [s1|l]; [|by destruct Hl].
    destruct Hl as [_ [= <-]]. by eapply IH.
Qed.

(** The minimum of the positions, all of them known and none ahead. *)
Lemma minApplied_Some w l : forall min m, minApplied w min l = Some m ->
  (forall a, a ∈ l -> exists z, a = Some z /\ m <= z <= w) /\ (forall z, min = Some z -> m <= z) /\
  (Some m ∈ l \/ m = default 0 min).
Proof.
  induction l as [|[a|] l IH]; intros min m; cbn [minApplied]; [|case_bool; [done|]|done].
  { intros [= <-]. split_and!; [by intros a ?%not_elem_of_nil|by intros z ->|by right]. }
  intros Hm. destruct (IH _ _ Hm) as (Hall & Hmin & Hin).
  assert (Hma : m <= a /\ (forall z, min = Some z -> m <= z) /\ (Some m ∈ Some a :: l \/ m = default 0 min)).
  { destruct min as [z|]; [destruct (a <? z) eqn:E|].
    - pose proof (Hmin a eq_refl). split_and!; [lia|intros ? [= <-]; lia|]. left. destruct Hin as [?| ->]; [by right|by left].
    - pose proof (Hmin z eq_refl). split_and!; [lia|by intros ? [= <-]|]. destruct Hin as [?| ->]; [left; by right|by right].
    - split_and!; [by apply Hmin|done|]. left. destruct Hin as [?| ->]; [by right|by left]. }
  destruct Hma as (Hma & Hz & Hmem). split_and!; [|done|done].
  intros x [->|Hx]%elem_of_cons; [exists a; split; [done|lia]|by apply Hall].
Qed.

Lemma gateCatchup_runs source pod applied tr s' : se_phase s <> ReadyToCutover ->
  runs (gateCatchup s source pod applied) tr s' -> se_phase s' = ReadyToCutover ->
  s' = to_phase ReadyToCutover s /\ exists report write m, answered (AgentStatus (pd_ip pod)) (Some report) ∈ tr /\
    ir_primary report = true /\ ir_ready report = true /\ ir_fenced report = false /\ ir_write_lsn report = Some write /\
    minApplied write None applied = Some m /\ as_u64 (write - m) <= catchupMaxLagBytes.
Proof.
  intros Hs. unfold gateCatchup. intros (r & tr1 & -> & Hr)%runs_req Hp. destruct r as [report|]; [|by destruct Hr as [_ <-]].
  destruct (ir_primary report) eqn:E1, (ir_ready report) eqn:E2, (ir_fenced report) eqn:E3; cbn [negb orb] in Hr; try by destruct Hr as [_ <-].
  apply run_bind in Hr as (ok & tr2 & tr3 & -> & _ & Hr). destruct ok; cbn [negb] in Hr; [|by destruct Hr as [_ <-]].
  destruct (ir_write_lsn report) as [write|] eqn:E4; [|by destruct Hr as [_ <-]].
  destruct (minApplied write None applied) as [m|] eqn:E5; [|by destruct Hr as [_ <-]].
  destruct (as_u64 (write - m) >? catchupMaxLagBytes) eqn:E6; [by destruct Hr as [_ <-]|]. destruct Hr as [-> <-]. split; [done|].
  exists report, write, m. split_and!; try done; [by left|lia].
Qed.

Lemma nothingToSeed_runs mode names : forall i tr s', se_phase s <> ReadyToCutover -> (forall j, names !! j = se_targets s !! (i + j)%nat) ->
  runs (nothingToSeed me s mode i names) tr s' -> se_phase s' = ReadyToCutover ->
  s' = to_phase ReadyToCutover s /\ forall j name, names !! j = Some name -> exists target, own_target me s tr (i + j) name target.
Proof.
  induction names as [|name names IH]; intros i tr s' Hs Hn; cbn [nothingToSeed].
  { intros [-> <-] Hp. split; [by destruct mode|done]. }
  intros (t & tr1 & -> & Hr)%runs_req Hp. destruct t as [target|]; [|by destruct Hr as [_ <-]].
  destruct (foreignTarget _ _ _) eqn:Hf; [by destruct Hr as [_ <-]|].
  destruct (IH (S i) tr1 s' Hs) as [-> Hall]; [intros j; specialize (Hn (S j)); by rewrite Nat.add_succ_r in Hn|done|done|].
  split; [done|]. intros [|j] nm Hj.
  - injection Hj as <-. exists target. rewrite Nat.add_0_r. split_and!; [|by left|done]. specialize (Hn 0%nat). by rewrite Nat.add_0_r in Hn.
  - destruct (Hall j nm Hj) as (t & ?). exists t. rewrite Nat.add_succ_r. eapply own_target_mono; [|done]. intros e He. by right.
Qed.

(** How a pass ends before the schema is known to be the pinned one, or goes on from there. *)
Lemma runSeedPass_cases mode tr s' : runs (runSeedPass me s mode) tr s' ->
  s' = s \/ s' = fail s \/
  (se_pinned s = false /\ mode = seedModeSeeding /\
   exists tables, s' = mkSeedStatus (se_phase s) (se_targets s) (se_cluster_uid s) (se_source_uid s) true tables) \/
  exists cluster source configs tr1 tr2, tr = tr1 ++ tr2 /\ identified me s tr1 cluster source /\
    se_targets s = expectedTargets me (cl_name cluster) /\ se_pinned s = true /\ answered SeedConfigs configs ∈ tr1 /\
    tablesDiffer (se_tables s) (shardedTables (cl_name cluster) configs) = false /\
    (se_tables s = [] /\ runs (advanceNothingToSeed me s mode) tr2 s' \/
     se_tables s <> [] /\ runs (seedPinned me s mode cluster source) tr2 s').
Proof.
  unfold runSeedPass. intros (c & tr1 & -> & Hr)%runs_req. destruct c as [cluster|]; [|destruct Hr as [_ <-]; auto].
  destruct (str_is_empty (se_cluster_uid s)); cbn [orb] in Hr; [destruct Hr as [_ <-]; auto|].
  case_bool_decide as Hc; cbn [negb] in Hr; [|destruct Hr as [_ <-]; auto].
  destruct (_ <? _)%nat; [destruct Hr as [_ <-]; auto|].
  apply run_bind in Hr as (src & tr2 & tr3 & -> & Hsrc & Hr). destruct src as [s1|source].
  { destruct Hr as [_ <-]. unfold resolveSeedSource in Hsrc. apply runs_req in Hsrc as (x & ? & _ & Hsrc).
    destruct x as [x|]; [|destruct Hsrc as [_ [= <-]]; auto]. repeat case_match; destruct Hsrc as [_ Hx]; simplify_eq; auto. }
  apply resolveSeedSource_runs in Hsrc as (? & ? & ? & ?).
  case_bool_decide as Ht; cbn [negb] in Hr; [|destruct Hr as [_ <-]; auto].
  apply runs_req in Hr as (configs & tr4 & -> & Hr). cbv zeta in Hr.
  destruct (se_pinned s) eqn:Hpin; cbn [negb] in Hr.
  2: { destruct mode; destruct Hr as [_ <-]; auto. right. right. left. split_and!; [done|done|]. by eexists. }
  destruct (tablesDiffer _ _) eqn:Hd; [destruct Hr as [_ <-]; auto|]. do 3 right.
  exists cluster, source, configs, (answered SeedCluster (Some cluster) :: tr2 ++ [answered SeedConfigs configs]), tr4.
  split_and!; try done.
  - cbn. by rewrite <- app_assoc.
  - split_and!; try done; [by left|]. right. apply elem_of_app. by left.
  - right. apply elem_of_app. right. by left.
  - case_bool_decide as He; [left; by destruct (se_tables s)|right]. split; [|done]. intros E. by rewrite E in He.
Qed.

(** The end of the pass after that. *)
Lemma seedPinned_runs mode cluster source tr s' : runs (seedPinned me s mode cluster source) tr s' ->
  s' = s \/ s' = fail s \/ (mode = seedModeSeeding /\ s' = to_phase CatchingUp s) \/
  exists pod applied tr1 tr2, mode = seedModeCatchingUp /\ tr = tr1 ++ tr2 /\ on_verified tr1 source (pd_ip pod) (pd_uid pod) /\
    length applied = length (se_targets s) /\
    (forall i name, se_targets s !! i = Some name -> exists a, applied !! i = Some a /\ streaming tr1 i name a) /\
    runs (gateCatchup s source pod applied) tr2 s'.
Proof.
  unfold seedPinned. intros (p & tr1 & tr2 & -> & Hp & Hr)%run_bind. destruct p as [[pod node]|]; [|destruct Hr as [_ <-]; auto].
  destruct (databaseVerified source node pod) eqn:Hv; cbn [negb] in Hr; [|destruct Hr as [_ <-]; auto].
  apply runs_req in Hr as (r & tr3 & -> & Hr). destruct r as [u|[]]; try by (destruct Hr as [_ <-]; auto).
  apply run_bind in Hr as (ts & tr4 & tr5 & -> & Hts & Hr). destruct ts as [s1|applied].
  { destruct Hr as [_ <-]. apply seedTargets_inl in Hts as [->| ->]; auto. }
  destruct (seedTargets_runs cluster source pod (se_targets s) 0 tr4 applied (fun _ => eq_refl) Hts) as [Hle Hall].
  destruct (length applied <? length (se_targets s))%nat eqn:E; [destruct Hr as [_ <-]; auto|]. apply Nat.ltb_ge in E.
  destruct mode; [destruct Hr as [_ <-]; auto|]. do 3 right.
  exists pod, applied, (tr1 ++ answered (PrepareSource (pd_ip pod) (pd_uid pod) (shardDatabaseName source) (seedPublication (as_reshard me s))
    ((fun t => mkTableRef (rt_schema t) (rt_name t)) <$> unpinTables (se_tables s))) (Ok u) :: tr4), tr5.
  split_and!; [done|by rewrite <- !app_assoc| |lia| |done].
  - eapply on_verified_mono; [apply sub_l|]. by eapply resolved_verified.
  - intros i name Hi. destruct (Hall ltac:(lia) i name Hi) as (a & ? & ?). exists a. split; [done|].
    eapply streaming_mono; [|done]. intros e He. apply elem_of_app. right. by right.
Qed.
End readiness.

(** *** The life of a reshard *)

Section lifecycle.
Context `{Quantity} `{GoUnicode} `{Sha256} (me : ReshardSpec).

(** Refutes membership in a concrete list of phases. *)
Ltac absent Hin := exfalso; by apply (bool_decide_pack _) in Hin.

(** The stored status changes by a reconcile, whose write the API server accepts only if it
    was computed from the stored version, or by the cutover, which touches of these fields
    the phase alone. *)
Inductive seed_step : SeedStatus -> SeedStatus -> Prop :=
| step_reconcile s s' p tr : seedPhase me s = Some p -> runs p tr s' -> seed_step s s'
| step_cutover s p : se_phase s ∈ [ReadyToCutover; CuttingOver] ->
    p ∈ [CatchingUp; ReadyToCutover; CuttingOver; SwitchedForward; ReshardFailed] -> seed_step s (to_phase p s).

Definition seed_initial : SeedStatus := mkSeedStatus Pending [] EmptyString EmptyString false [].

Definition unvalidated (p : ReshardPhase) : bool := match p with Pending | Validating => true | _ => false end.
Definition unprovisioned (p : ReshardPhase) : bool := match p with Pending | Validating | ProvisioningTargets => true | _ => false end.

(** Objects with these UIDs passed validation. *)
Definition validated (cluster_uid source_uid : string) : Prop :=
  exists source cluster src targets, sx_uid source = source_uid /\ cl_uid cluster = cluster_uid /\
    ss_serving (sx_spec source) = true /\ ss_role (sx_spec source) <> ShardRoleSystem /\ ss_cluster_ref (sx_spec source) = rs_cluster me /\
    toRange (ss_range (sx_spec source)) = Ok src /\ mapM toRange (rs_ranges me) = Ok targets /\ validateReshardPartition src targets = Ok tt.

Record seed_ok (s : SeedStatus) : Prop := mkSeedOk {
  sk_validated : unvalidated (se_phase s) = false -> se_phase s <> ReshardFailed -> validated (se_cluster_uid s) (se_source_uid s);
  sk_targets : unprovisioned (se_phase s) = false -> se_phase s <> ReshardFailed -> exists name, se_targets s = expectedTargets me name;
  sk_pinned : se_phase s ∈ [CatchingUp; ReadyToCutover; CuttingOver; SwitchedForward] -> se_pinned s = true;
}.

(** What a step keeps. *)
Record seed_kept (s s' : SeedStatus) : Prop := mkSeedKept {
  kp_tables : se_pinned s = true -> se_pinned s' = true /\ se_tables s' = se_tables s;
  kp_identity : unvalidated (se_phase s) = false -> se_cluster_uid s' = se_cluster_uid s /\ se_source_uid s' = se_source_uid s /\ unvalidated (se_phase s') = false;
  kp_targets : unprovisioned (se_phase s) = false -> se_targets s' = se_targets s /\ unprovisioned (se_phase s') = false;
  kp_failed : se_phase s = ReshardFailed -> s' = s;
}.

Lemma to_phase_kept p s : se_phase s <> ReshardFailed -> (unvalidated (se_phase s) = false -> unvalidated p = false) ->
  (unprovisioned (se_phase s) = false -> unprovisioned p = false) -> seed_kept s (to_phase p s).
Proof. intros Hf Hv Hp. split; cbn; [done|auto|auto|done]. Qed.

Lemma seed_kept_refl s : seed_kept s s.
Proof. by split. Qed.

Lemma validating_kept s tr s' : unvalidated (se_phase s) = true -> runs (reconcileValidating me s) tr s' ->
  seed_ok s -> seed_ok s' /\ seed_kept s s'.
Proof.
  intros Hu Hr _. destruct (decide (se_phase s' = ProvisioningTargets)) as [Hp|Hp].
  - destruct (validating_runs me s tr s' Hr Hp) as (source & cluster & src & targets & _ & ? & ? & ? & ? & ? & ? & ->). split.
    + split; cbn; [|done|]. { intros _ _. by exists source, cluster, src, targets. }
      intros Hin. absent Hin.
    + split; cbn; [done|congruence|by destruct (se_phase s)|by destruct (se_phase s)].
  - assert (Hy : s' = to_phase Validating s \/ s' = fail s).
    { assert (Hall : yields (reconcileValidating me s)
        (fun s' => se_phase s' <> ProvisioningTargets -> s' = to_phase Validating s \/ s' = fail s)); [|by apply (Hall tr s')].
      unfold reconcileValidating. yield; auto. by intros []. }
    assert (Hk : forall p, (p = Validating \/ p = ReshardFailed) -> seed_ok (to_phase p s) /\ seed_kept s (to_phase p s)).
    { intros p Hq. split; [split; cbn|apply to_phase_kept; by destruct (se_phase s)].
      - by destruct Hq as [->| ->].
      - by destruct Hq as [->| ->].
      - intros Hin. exfalso. destruct Hq as [->| ->]; absent Hin. }
    destruct Hy as [->| ->]; [apply Hk; by left|apply Hk; by right].
Qed.

(** Failing or waiting keeps everything. *)
Lemma fail_kept s : se_phase s <> ReshardFailed -> seed_ok s -> seed_ok (fail s) /\ seed_kept s (fail s).
Proof.
  intros Hf _. split; [|by apply to_phase_kept]. split; cbn; [done|done|]. intros Hin. exfalso.
  absent Hin.
Qed.

(** Advancing to a later phase keeps everything but the phase. *)
Lemma advance_kept p s : unprovisioned (se_phase s) = false -> se_phase s <> ReshardFailed -> unprovisioned p = false -> p <> ReshardFailed ->
  se_pinned s = true -> seed_ok s -> seed_ok (to_phase p s) /\ seed_kept s (to_phase p s).
Proof.
  intros Hp Hf Hq Hqf Hpin [Hv Ht _].
  assert (Hun : forall x, unprovisioned x = false -> unvalidated x = false) by by intros [].
  split; [split; cbn|apply to_phase_kept]; auto.
Qed.

Lemma provisioning_kept s tr s' : se_phase s = ProvisioningTargets -> runs (reconcileProvisioningTargets me s) tr s' ->
  seed_ok s -> seed_ok s' /\ seed_kept s s'.
Proof.
  intros Hp Hr Hok. assert (Hall : yields (reconcileProvisioningTargets me s) (fun s' => s' = s \/ s' = fail s \/
    exists name, s' = mkSeedStatus Seeding (expectedTargets me name) (se_cluster_uid s) (se_source_uid s) (se_pinned s) (se_tables s))).
  { unfold reconcileProvisioningTargets. apply yields_any. intros [cluster|]; [|apply yields_done; auto].
    destruct (negb _); [apply yields_done; auto|]. destruct (Render _) as [rendered|]; [|apply yields_stop].
    destruct (targetShards me cluster rendered) as [targets|] eqn:Ht; [|apply yields_done; auto]. apply targetShards_Some in Ht as [-> _].
    yield; auto. right. right. by eexists. }
  destruct (Hall tr s' Hr) as [->|[->|[name ->]]]; [by split; [|apply seed_kept_refl]|by apply fail_kept; [rewrite Hp|]|].
  destruct Hok as [Hv _ _]. split; split; cbn; rewrite ?Hp in *; try done.
  - intros _ _. by apply Hv.
  - by eexists.
  - intros Hin. exfalso. absent Hin.
Qed.

Lemma pass_kept s mode tr s' : se_phase s = match mode with seedModeSeeding => Seeding | seedModeCatchingUp => CatchingUp end ->
  runs (runSeedPass me s mode) tr s' -> seed_ok s -> seed_ok s' /\ seed_kept s s'.
Proof.
  intros Hp Hr Hok. assert (Hf : se_phase s <> ReshardFailed) by (rewrite Hp; by destruct mode).
  assert (Hu : unprovisioned (se_phase s) = false) by (rewrite Hp; by destruct mode).
  assert (Hadv : se_pinned s = true -> s' = to_phase CatchingUp s \/ s' = to_phase ReadyToCutover s -> seed_ok s' /\ seed_kept s s')
    by (intros Hpin [->| ->]; by apply advance_kept).
  destruct (runSeedPass_cases me s mode tr s' Hr) as [->|[->|[(Hpin & -> & tables & ->)|Hcase]]].
  - by split; [|apply seed_kept_refl].
  - by apply fail_kept.
  - destruct Hok as [Hv Ht _]. split; split; cbn; rewrite ?Hp, ?Hpin in *; auto; done.
  - destruct Hcase as (cluster & source & configs & tr1 & tr2 & -> & _ & _ & Hpin & _ & _ & [[_ Hrun]|[_ Hrun]]).
    + assert (Hend : s' = s \/ s' = fail s \/ s' = to_phase CatchingUp s \/ s' = to_phase ReadyToCutover s).
      { clear - Hrun. unfold advanceNothingToSeed in Hrun. revert Hrun. generalize 0%nat, tr2. induction (se_targets s) as [|n ns IH]; intros i tr.
        - intros [_ <-]. destruct mode; auto.
        - intros (x & ? & _ & Hr)%runs_req. destruct x; [|destruct Hr as [_ <-]; auto].
          destruct (foreignTarget _ _ _); [destruct Hr as [_ <-]; auto|]. by eapply IH. }
      destruct Hend as [->|[->|Hend]]; [by split; [|apply seed_kept_refl]|by apply fail_kept|by apply Hadv].
    + destruct (seedPinned_runs me s _ _ _ _ _ Hrun) as [->|[->|[[_ ->]|Hg]]];
        [by split; [|apply seed_kept_refl]|by apply fail_kept|by apply Hadv; [|left]|].
      destruct Hg as (pod & applied & tr3 & tr4 & _ & _ & _ & _ & _ & Hg).
      assert (Hend : yields (gateCatchup s source pod applied) (fun s' => s' = s \/ s' = to_phase ReadyToCutover s)).
      { unfold gateCatchup. yield; auto. }
      destruct (Hend _ _ Hg) as [->| ->]; [by split; [|apply seed_kept_refl]|by apply Hadv; [|right]].
Qed.

Lemma cutover_kept s p : se_phase s ∈ [ReadyToCutover; CuttingOver] ->
  p ∈ [CatchingUp; ReadyToCutover; CuttingOver; SwitchedForward; ReshardFailed] -> seed_ok s -> seed_ok (to_phase p s) /\ seed_kept s (to_phase p s).
Proof.
  intros Hin Hp Hok. assert (Hs : unprovisioned (se_phase s) = false /\ se_phase s <> ReshardFailed /\ se_pinned s = true).
  { assert (se_phase s = ReadyToCutover \/ se_phase s = CuttingOver) as Hph.
    { apply elem_of_cons in Hin as [?|Hin]; [by left|]. apply list_elem_of_singleton in Hin. by right. }
    split_and!; [by destruct Hph as [-> | ->]..|]. apply (sk_pinned _ Hok). destruct Hph as [-> | ->]; by apply (bool_decide_unpack _). }
  destruct Hs as (Hu & Hf & Hpin). destruct (decide (p = ReshardFailed)) as [->|Hpf]; [by apply fail_kept|].
  apply advance_kept; try done. repeat (apply elem_of_cons in Hp as [->|Hp]; [done|]). by apply not_elem_of_nil in Hp.
Qed.

Lemma seed_step_kept s s' : seed_step s s' -> seed_ok s -> seed_ok s' /\ seed_kept s s'.
Proof.
  intros [s0 s1 p tr Hp Hr|s0 p Hin Hp] Hok; [|by apply cutover_kept]. unfold seedPhase in Hp.
  destruct (se_phase s0) eqn:Hph; try done; injection Hp as <-.
  - eapply validating_kept; [by rewrite Hph|done|done].
  - eapply validating_kept; [by rewrite Hph|done|done].
  - by eapply provisioning_kept.
  - apply (pass_kept s0 seedModeSeeding tr s1); [by rewrite Hph|done|done].
  - apply (pass_kept s0 seedModeCatchingUp tr s1); [by rewrite Hph|done|done].
Qed.

Lemma seed_kept_trans s1 s2 s3 : seed_kept s1 s2 -> seed_kept s2 s3 -> seed_kept s1 s3.
Proof.
  intros [A1 A2 A3 A4] [B1 B2 B3 B4]. split.
  - intros Hp. destruct (A1 Hp) as [Hp2 <-]. by apply B1.
  - intros Hp. destruct (A2 Hp) as (<- & <- & Hp2). by apply B2.
  - intros Hp. destruct (A3 Hp) as (<- & Hp2). by apply B3.
  - intros Hp. specialize (A4 Hp). subst s2. by apply B4.
Qed.

Lemma seed_initial_ok : seed_ok seed_initial.
Proof.
  split; cbn; [done|done|]. intros Hin. exfalso. absent Hin.
Qed.

Lemma seed_steps_kept s s' : rtc seed_step s s' -> seed_ok s -> seed_ok s' /\ seed_kept s s'.
Proof.
  induction 1 as [s|s1 s2 s3 Hstep _ IH]; intros Hok; [by split; [|apply seed_kept_refl]|].
  destruct (seed_step_kept _ _ Hstep Hok) as [Hok2 Hk]. destruct (IH Hok2) as [Hok3 Hk3]. split; [done|]. by eapply seed_kept_trans.
Qed.
End lifecycle.

Lemma mapped_once_iff tables : mapped_twice [] (table_mapping <$> tables) = false <-> NoDup ((fun t => (sd_schema t, sd_name t)) <$> tables).
Proof.
  split; [|intros Hnd; apply mapped_once; [done|by intros ? ? ?%not_elem_of_nil]]. intros [Hnd _]%mapped_twice_spec.
  apply (NoDup_fmap_1 (fun p => mkTableRef p.1 p.2)). rewrite <- list_fmap_compose.
  by assert (omap tm_source (table_mapping <$> tables) = (fun p => mkTableRef p.1 p.2) ∘ (fun t => (sd_schema t, sd_name t)) <$> tables) as <-
    by (clear; induction tables as [|t ts IH]; [done|]; cbn; by rewrite IH).
Qed.

(** The agent's checks on the operator's spec come down to two. *)
Lemma seed_plan `{Quantity} `{XxHash} me s cluster source target sourcePod range i config :
  is_uid (rs_uid me) = true -> (i <= 128)%nat -> sx_name source <> EmptyString -> pd_ip sourcePod <> EmptyString ->
  (0 < str_len (sx_name target) <= 63)%nat -> sx_uid target <> EmptyString ->
  se_tables s <> [] -> Forall seedable (se_tables s) -> toRange (ss_range (sx_spec target)) = Ok range ->
  exists ps kr, to_go kr = range /\ Forall2 planned (se_tables s) ps /\
  plan (seedSpec me s cluster source target sourcePod range i) config =
    if mapped_twice [] (table_mapping <$> se_tables s) then Err (WInvalid "mapped twice")
    else if is_ok (shard_function (cl_hash_function cluster)) then
      Ok (mkRunPlan (seedWorkflowID (as_reshard me s) i)
        (mkConfig (pd_ip sourcePod) postgresPort (wc_source_user config) (wc_source_password config) (sx_name source))
        (seedWorkflowID (as_reshard me s) i) (seedPublication (as_reshard me s)) (sx_name target) (sx_uid target) ps kr (cl_hash_function cluster))
    else Err (WInvalid "hash function").
Proof.
  intros Hu Hi Hsrc Hip Hname Huid Hne Hok Hrange.
  destruct (seed_id_safe (as_reshard me s) i Hu Hi) as (Hid & Hpre & Hide). destruct (seed_publication_safe (as_reshard me s) Hu) as [Hpub _].
  destruct (toRange_wf _ _ Hrange) as (kr & Hwf & ->). destruct (plan_tables_seedable _ Hok) as (ps & Hps & Hplanned).
  exists ps, kr. split; [done|]. split; [done|].
  unfold plan, seedSpec, shardDatabaseName. cbv zeta. cbn [ws_id ws_kind ws_slot ws_publication ws_target_database ws_expect_provenance
    ws_source_primary ws_source_policy ws_tables ws_filter pe_host pe_port pe_database].
  rewrite Hide, Hid, Hpre, Hpub. cbn [negb]. change (WORKFLOW_KIND_RESHARD =? WORKFLOW_KIND_RESHARD) with true. cbn [negb].
  rewrite (str_nonempty (sx_name target)) by (intros E; rewrite E in Hname; cbn in Hname; lia).
  destruct (63 <? str_len (sx_name target))%nat eqn:E63; [apply Nat.ltb_lt in E63; lia|]. cbn [orb].
  rewrite (str_nonempty _ Huid), (str_nonempty _ Hip), (str_nonempty _ Hsrc). cbn [negb andb].
  change (postgresPort =? 0) with false. cbn [negb andb ok_or mbind result_bind].
  change (pe_port _ >? u16_MAX) with false. cbn [negb andb]. change (SOURCE_POLICY_PRIMARY =? SOURCE_POLICY_PRIMARY) with true.
  cbn [negb andb]. rewrite mappings_of.
  rewrite bool_decide_false by (by destruct (se_tables s)). destruct (mapped_twice _ _); [done|].
  unfold plan_filter. cbn [ok_or mbind result_bind]. rewrite wire_range_new by done. cbn [map_err mbind result_bind].
  destruct (is_ok (shard_function _)); [|done]. cbn [negb mbind result_bind]. rewrite Hps. done.
Qed.

(** ** Theorems *)

(** C20: Every request of the phases before the cutover rests on what was read before it. A
    workflow, which truncates its target, is started only with the pinned tables still the
    cluster's, for the validated cluster and source, after the publication was prepared on the
    verified primary of the source, for a target of the list that the spec determines which was
    read hidden, not the system shard, of this reshard, its cluster and its range, at the
    primary pod its database is verified on, with that shard's UID as the expected provenance;
    a workflow is stopped only under the id that was refused; shards are created hidden, with
    one of the reshard's ranges, only where none was read. *)
Theorem seed_requests_rest `{Quantity} `{GoUnicode} `{Sha256} me s tr e :
  asks (ReconcileSeeding me s) tr e -> seed_only me s tr e.
Proof. apply seed_requests_allowed. Qed.

(** C26: What the agent makes of the workflow the operator builds. For admitted names and
    tables, a target whose name a database can have, and a source pod with an address, the
    agent accepts the operator's spec exactly when it knows the cluster's hash function and no
    table is pinned twice, neither of which the CRDs or the seeding check; and the plan it then
    makes has the target's range as the data plane reads it, the operator's slot and
    publication, the target's database with the shard's UID as the demanded provenance, the
    cluster's hash function, and the pinned tables in order with their keys. *)
Theorem seed_spec_accepted `{Quantity} `{XxHash} me s cluster source target sourcePod range i config :
  is_uid (rs_uid me) = true -> (i <= 128)%nat -> sx_name source <> EmptyString -> pd_ip sourcePod <> EmptyString ->
  (0 < str_len (sx_name target) <= 63)%nat -> sx_uid target <> EmptyString ->
  se_tables s <> [] -> Forall seedable (se_tables s) -> toRange (ss_range (sx_spec target)) = Ok range ->
  let planning := plan (seedSpec me s cluster source target sourcePod range i) config in
  (is_ok planning = true <->
     is_ok (shard_function (cl_hash_function cluster)) = true /\ NoDup ((fun t => (sd_schema t, sd_name t)) <$> se_tables s)) /\
  forall run, planning = Ok run ->
    to_go (rp_range run) = range /\ rp_slot run = seedWorkflowID (as_reshard me s) i /\
    rp_publication run = seedPublication (as_reshard me s) /\ rp_target_database run = sx_name target /\
    rp_expect_provenance run = sx_uid target /\ Workflow.rp_hash_function run = cl_hash_function cluster /\
    Forall2 planned (se_tables s) (Workflow.rp_tables run).
Proof.
  intros Hu Hi Hsrc Hip Hname Huid Hne Hok Hrange planning.
  destruct (seed_plan me s cluster source target sourcePod range i config Hu Hi Hsrc Hip Hname Huid Hne Hok Hrange) as (ps & kr & <- & Hplanned & Hplan).
  unfold planning. rewrite Hplan, <- mapped_once_iff. destruct (mapped_twice [] _), (is_ok (shard_function _)); split; try done; try (by split; intros []).
  by intros run [= <-].
Qed.

(** C11: A validated reshard seeds every row once. When validation passes, the target ranges as
    the data plane reads them give every keyspace id of the source's range exactly one owner
    and no other id any; and whatever workflow a later reconcile starts, on whatever answers,
    the plan that an agent makes of it copies and streams exactly one of these ranges, the one
    its id names. *)
Theorem seeding_partitions_source `{Quantity} `{GoUnicode} `{Sha256} `{XxHash} me s0 tr0 s1 :
  runs (reconcileValidating me s0) tr0 s1 -> se_phase s1 = ProvisioningTargets ->
  exists source src ranges, answered (SeedShard (rs_source me)) (Some source) ∈ tr0 /\ se_source_uid s1 = sx_uid source /\
    toRange (ss_range (sx_spec source)) = Ok (to_go src) /\ length ranges = length (rs_ranges me) /\
    (forall id, is_u64 id -> owners ranges id = if KeyRange.contains src id then 1%nat else O) /\
    forall s tr host pod_uid spec config run,
      asks (ReconcileSeeding me s) tr (existT _ (StartWorkflow host pod_uid spec)) -> plan spec config = Ok run ->
      exists i, ranges !! i = Some (rp_range run) /\ rp_id run = seedWorkflowID (as_reshard me s) i.
Proof.
  intros Hr Hp. destruct (validating_runs me s0 tr0 s1 Hr Hp) as (source & cluster & src & targets & -> & _ & _ & _ & Hsrc & Ht & Hv & ->).
  destruct (toRange_wf _ _ Hsrc) as (kr & Hwf & ->). destruct (toRanges_wf _ _ Ht) as (ranges & Hwfs & ->).
  apply (validate_reshard_exact kr ranges Hwf Hwfs) in Hv as [_ Hown]. apply mapM_Ok in Ht.
  exists source, kr, ranges. split_and!; [by left|done|done| |done|].
  - apply Forall2_length in Ht. by rewrite length_fmap in Ht.
  - intros s tr host pod_uid spec config run Ha Hplan. apply seed_requests_allowed in Ha.
    destruct Ha as (cl & sr & sp & i & name & target & range & _ & _ & _ & _ & (_ & _ & Hf) & _ & Hrange & ->).
    apply own_range in Hf. destruct (Forall2_lookup_l _ _ _ _ _ Ht Hf) as (g & Hg & Hgr). cbn in Hgr. rewrite Hrange in Hgr. injection Hgr as <-.
    apply list_lookup_fmap_Some in Hg as (r & -> & Hr'). assert (range_wf r) by (by eapply (Forall_lookup_1 _ _ _ _ Hwfs)).
    apply plan_of_seed in Hplan as [-> Hid]; [|done]. by exists i.
Qed.

(** C23: A reshard becomes ready to cut over only when it has caught up: on the answers of one
    reconcile, the cluster and the source are the validated ones, the pinned tables are the
    live ones, and every target is the reshard's own hidden shard; unless there is nothing to
    seed, every target's workflow reports that it streams, at the verified primary of the
    target, with a position that is at most 16 MiB behind the write position of a ready,
    unfenced source primary, and not ahead of it. *)
Theorem ready_only_caught_up `{Quantity} me s tr s' : se_phase s = CatchingUp ->
  runs (runSeedPass me s seedModeCatchingUp) tr s' -> se_phase s' = ReadyToCutover ->
  (forall host id r z, answered (WatchWorkflow host id) (Some r) ∈ tr -> wf_applied r = Some z -> is_u64 z) ->
  (forall host r z, answered (AgentStatus host) (Some r) ∈ tr -> ir_write_lsn r = Some z -> is_u64 z) ->
  s' = to_phase ReadyToCutover s /\ exists cluster source, identified me s tr cluster source /\
    (se_tables s = [] /\ (forall i name, se_targets s !! i = Some name -> exists target, own_target me s tr i name target) \/
     schema_pinned s tr cluster /\ exists host pod_uid report write, on_verified tr source host pod_uid /\
       answered (AgentStatus host) (Some report) ∈ tr /\ ir_primary report = true /\ ir_ready report = true /\ ir_fenced report = false /\
       ir_write_lsn report = Some write /\
       forall i name, se_targets s !! i = Some name -> exists z, streaming me s tr i name (Some z) /\ write - catchupMaxLagBytes <= z <= write).
Proof.
  intros Hs Hr Hp Hu1 Hu2. assert (Hne : se_phase s <> ReadyToCutover) by by rewrite Hs.
  destruct (runSeedPass_cases me s _ _ _ Hr) as [->|[->|[(_ & [=] & _)|Hcase]]]; [done|done|].
  destruct Hcase as (cluster & source & configs & tr1 & tr2 & -> & Hid & Ht & Hpin & Hcfg & Hd & [[He Hrun]|[Hne' Hrun]]).
  - destruct (nothingToSeed_runs me s _ _ 0 _ _ Hne (fun _ => eq_refl) Hrun Hp) as [-> Hall]. split; [done|].
    exists cluster, source. split; [eapply identified_mono; [apply sub_l|done]|]. left. split; [done|].
    intros i name Hi. destruct (Hall i name Hi) as (t & ?). exists t. eapply own_target_mono; [apply sub_r|done].
  - destruct (seedPinned_runs me s _ _ _ _ _ Hrun) as [->|[->|[[[=] _]|Hpinned]]]; [done|done|].
    destruct Hpinned as (pod & applied & tr3 & tr4 & _ & -> & Hon & Hlen & Hstr & Hgate).
    destruct (gateCatchup_runs s _ _ _ _ _ Hne Hgate Hp) as (-> & report & write & m & Hrep & ? & ? & ? & Hw & Hmin & Hlag). split; [done|].
    exists cluster, source. split; [eapply identified_mono; [apply sub_l|done]|]. right. split.
    { split_and!; [done|done|]. exists configs. split; [apply elem_of_app; by left|done]. }
    exists (pd_ip pod), (pd_uid pod), report, write. split_and!; try done.
    + eapply on_verified_mono; [|done]. etrans; [apply sub_l|apply sub_r].
    + apply sub_r, sub_r. done.
    + intros i name Hi. destruct (Hstr i name Hi) as (a & Ha & Hst).
      assert (Hst' : streaming me s (tr1 ++ tr3 ++ tr4) i name a).
      { eapply streaming_mono; [|done]. etrans; [apply sub_l|apply sub_r]. }
      destruct (minApplied_Some _ _ _ _ Hmin) as (Hall & _ & Hmem).
      destruct (Hall a (list_elem_of_lookup_2 _ _ _ Ha)) as (z & -> & Hz). exists z. split; [done|].
      assert (Hm0 : 0 <= m).
      { destruct Hmem as [[k Hk]%list_elem_of_lookup| ->]; [|done].
        destruct (lookup_lt_is_Some_2 (se_targets s) k) as [nm Hnm]; [rewrite <- Hlen; by eapply lookup_lt_Some|].
        destruct (Hstr k nm Hnm) as (b & Hb & (t & h & u & r & _ & _ & Hin & _ & _ & Happ)). rewrite Hk in Hb. injection Hb as <-.
        destruct (Hu1 h _ r m (sub_r _ _ _ (sub_l _ _ _ Hin)) Happ). lia. }
      pose proof (Hu2 _ _ _ (sub_r _ _ _ (sub_r _ _ _ Hrep)) Hw) as Hwu.
      unfold as_u64 in Hlag. rewrite Z.mod_small in Hlag; unfold is_u64, u64_MAX, two64 in *; lia.
Qed.

(** The life of a reshard, through any sequence of reconciles on any answers, of cutovers and
    of roll-backs. A status past validation holds the UIDs of a cluster and of a serving data
    shard of it whose range the target ranges partition; a status past provisioning lists the
    targets that the spec determines; from catching up on the schema is pinned. And once
    stored these do not change: neither the pinned tables, nor the two UIDs, nor the list of
    targets; and a failed reshard stays as it is. *)
Theorem seed_lifecycle `{Quantity} `{GoUnicode} `{Sha256} me s s' :
  rtc (seed_step me) seed_initial s -> rtc (seed_step me) s s' -> seed_ok me s' /\ seed_kept s s'.
Proof.
  intros Hs Hs'. destruct (seed_steps_kept me _ _ Hs (seed_initial_ok me)) as [Hok _]. by apply (seed_steps_kept me s s').
Qed.

(** Seeding and routing agree on the schema. Whenever the routing compiler accepts the table
    configurations of a cluster, the tables a reshard pins, and then copies, are exactly the
    sharded tables of the compiled routing, in the same order, with the same key columns and
    key types. *)
Theorem seeded_tables_routed cluster configs tables :
  compileTables (snd <$> List.filter (fun c => bool_decide (fst c = cluster)) configs) = Ok tables ->
  pinTables (shardedTables cluster configs) = pinTables (List.filter is_sharded tables).
Proof.
  intros Hc. unfold compileTables in Hc. apply result_bind_Ok in Hc as (ts & Hts & [= <-]).
  apply collect_tables_Ok in Hts as (-> & Hnd & _). set (entries := (config_entries _).*2) in *.
  set (mine := snd <$> List.filter (fun c => bool_decide (fst c = cluster)) configs) in *.
  assert (Hperm : entries ≡ₚ mine ≫= tc_tables) by apply config_tables_perm, sort_by_perm.
  set (l := List.filter is_sharded (sort_by (le_of cmp_tables) (compile_table <$> entries))).
  enough (pin_form <$> shardedTables cluster configs = pin_form <$> l) as Heq.
  { rewrite <- !unpin_pin in Heq. by rewrite <- (pin_unpin (pinTables (shardedTables _ _))), Heq, pin_unpin. }
  assert (Hl : l ≡ₚ compile_table <$> List.filter is_sharded (mine ≫= tc_tables)).
  { unfold l. rewrite (filter_perm _ _ _ (sort_by_perm _ _)), filter_fmap_sharded by done. by rewrite (filter_perm _ _ _ Hperm). }
  assert (Hs : shardedTables cluster configs ≡ₚ with_schema_default <$> List.filter is_sharded (mine ≫= tc_tables)).
  { unfold shardedTables. rewrite sort_by_perm. by rewrite sharded_entries. }
  apply sorted_entries_unique.
  - apply sorted_fmap. apply (sorted_impl (fun a b => le_of cmp_seed_entries a b = true)); [apply seed_order_finer|].
    apply sort_by_sorted; [apply (le_of_total entry_key4 (lex String.compare))|apply (le_of_trans entry_key4 (lex String.compare))];
      auto using lex_ordered, string_ordered, cmp_seed_key.
  - apply sorted_fmap. change (StronglySorted (fun a b => le_of cmp_tables a b = true) l).
    eapply sorted_sublist; [apply filter_sublist|].
    apply sort_by_sorted; [apply (le_of_total entry_key (lex String.compare))|apply (le_of_trans entry_key (lex String.compare))];
      auto using lex_ordered, string_ordered, cmp_tables_key.
  - rewrite <- list_fmap_compose. rewrite Hs, <- list_fmap_compose. apply NoDup_fmap_filter.
    apply (NoDup_fmap_1 (fun k => match k with [a; b] => ToLower (a +:+ "." +:+ b) | _ => EmptyString end)).
    rewrite <- list_fmap_compose. rewrite Hperm in Hnd. exact Hnd.
  - rewrite Hs, Hl, <- !list_fmap_compose. done.
Qed.

(** ** An example: the lower half of a cluster is split in two *)

Module SeedExample.
Import ConfigExample PlacementExample.
#[local] Existing Instances milli no_unicode identity_hash.
#[local] Existing Instance be_hash.

Definition uid : string := "0a1b2c3d-0000-4000-8000-00000000000f".
Definition reshard : ReshardSpec :=
  mkReshardSpec "split" uid "shop" "shop-min-80" [mkBounds EmptyString "40"; mkBounds "40" "80"].

Definition node_of (name : string) : Node :=
  mkNode name (name +:+ "-n") "u1" (mkNodeSpec 3 "pg:18" (re_resources config) None (re_config_hash config))
    (mkNodeStatus NodeReady (name +:+ "-0")).
Definition pod_of (name : string) : PodObj := mkPodObj (name +:+ "-0") (name +:+ "-p") (name +:+ "-n") ("10.0.0." +:+ name).
Definition shard_of (name owner : string) (range : Bounds) (serving : bool) : Shard :=
  mkShard name (name +:+ "-s") owner
    (mkShardSpec "shop" range name ShardRoleData 3 serving (re_config_hash config) "pg:18" (re_resources config) name)
    (mkShardStatus ShardReady (name +:+ "-0") (Some true) name (name +:+ "-n") (name +:+ "-p")).

Definition source : Shard := shard_of "shop-min-80" "u1" (mkBounds EmptyString "80") true.
Definition lower : Shard := shard_of "shop-min-40" uid (mkBounds EmptyString "40") false.
Definition upper : Shard := shard_of "shop-40-80" uid (mkBounds "40" "80") false.

Definition orders : RoutingTable := mkRoutingTable EmptyString "orders" TableSharded "customer" "int" [].
Definition configs : list (string * PgShardTableConfig) := [("shop"%string, mkPgShardTableConfig "app" [orders])].
Definition pinned : list SeedTable := [mkSeedTable "public" "orders" "customer" "int"].

(** Pinned, and catching up. *)
Definition catching : SeedStatus := mkSeedStatus CatchingUp ["shop-min-40"; "shop-40-80"]%string "u1" "shop-min-80-s" true pinned.

Definition read_primary (name : string) : list (Event SeedRequest) :=
  [answered (SeedNode name) (Some (node_of name)); answered (SeedPod (name +:+ "-0")) (Some (pod_of name))].
Definition half (i : nat) : GoRange :=
  match mapM toRange (rs_ranges reshard) with Ok l => default (mkGoRange 0 0 false) (l !! i) | Err _ => mkGoRange 0 0 false end.
Definition spec_of (i : nat) (target : Shard) : WorkflowSpec :=
  seedSpec reshard catching demo source target (pod_of "shop-min-80") (half i) i.

Definition prepared : list (Event SeedRequest) :=
  [answered SeedCluster (Some demo); answered (SeedShard "shop-min-80") (Some source); answered SeedConfigs configs] ++
  read_primary "shop-min-80" ++
  [answered (PrepareSource "10.0.0.shop-min-80" "shop-min-80-p" "shop-min-80" (seedPublication (as_reshard reshard catching))
      [mkTableRef "public" "orders"]) (Ok tt)].

(** Target [i] streams, with everything up to the position applied. *)
Definition streams (i : nat) (target : Shard) (applied : Z) : list (Event SeedRequest) :=
  let name := sx_name target in
  read_primary name ++
  [answered (StartWorkflow (pd_ip (pod_of name)) (pd_uid (pod_of name)) (spec_of i target)) (Ok tt);
   answered (WatchWorkflow (pd_ip (pod_of name)) (ws_id (spec_of i target)))
     (Some (mkReport (ws_id (spec_of i target)) PhaseStreaming (Some applied) None))] ++
  read_primary name.

Definition caught_up : list (Event SeedRequest) :=
  prepared ++ [answered (SeedShard "shop-min-40") (Some lower)] ++ streams 0 lower 4096 ++
  [answered (SeedShard "shop-40-80") (Some upper)] ++ streams 1 upper 8192 ++
  [answered (AgentStatus "10.0.0.shop-min-80") (Some (mkInstance true true false (Some 8192)))] ++ read_primary "shop-min-80".

(** The first workflow is asked for when its target has been read. *)
Definition before_start : list (Event SeedRequest) :=
  prepared ++ [answered (SeedShard "shop-min-40") (Some lower)] ++ read_primary "shop-min-40".
Definition start : sigT SeedRequest := existT _ (StartWorkflow "10.0.0.shop-min-40" "shop-min-40-p" (spec_of 0 lower)).

Lemma start_asked : asks (ReconcileSeeding reshard catching) before_start start.
Proof. unfold before_start, prepared, read_primary. cbn [app]. repeat next_ask. eapply asks_here. reflexivity. Qed.

Lemma catches_up : runs (runSeedPass reshard catching seedModeCatchingUp) caught_up (to_phase ReadyToCutover catching).
Proof. unfold caught_up, prepared, streams, read_primary. cbn [app]. repeat next_run. by split. Qed.

Lemma seed_requests_rest_witness : seed_only reshard catching before_start start.
Proof. exact (seed_requests_rest reshard catching before_start start start_asked). Defined.

Lemma seed_spec_accepted_witness : exists run, plan (spec_of 0 lower) (mkWorkflowConfig "pgshard" "secret") = Ok run /\
  rp_slot run = "pgshard_split_0a1b2c3d_0000_4000_8000_00000000000f_t0"%string /\ rp_target_database run = "shop-min-40"%string.
Proof.
  destruct (seed_spec_accepted reshard catching demo source lower (pod_of "shop-min-80") (half 0) 0 (mkWorkflowConfig "pgshard" "secret"))
    as [Hok Hrun]; [reflexivity|lia|done|done|cbn; lia|done|done| |reflexivity|].
  - apply Forall_singleton. split_and!; [done..|]. by apply (bool_decide_unpack _).
  - destruct (plan _ _) as [run|e] eqn:Hp; [|discriminate (proj2 Hok (conj eq_refl (NoDup_singleton _)))].
    destruct (Hrun run eq_refl) as (_ & Hs & _ & Hd & _). exists run. split; [reflexivity|]. split; [by rewrite Hs|exact Hd].
Defined.

Definition validating : list (Event SeedRequest) :=
  [answered (SeedShard "shop-min-80") (Some source); answered SeedCluster (Some demo)].
Definition provisioning : SeedStatus := mkSeedStatus ProvisioningTargets [] "u1" "shop-min-80-s" false [].

Lemma validates : runs (reconcileValidating reshard seed_initial) validating provisioning.
Proof. unfold validating. repeat next_run. by split. Qed.

Lemma seeding_partitions_source_witness : exists src ranges,
  (forall id, is_u64 id -> owners ranges id = if KeyRange.contains src id then 1%nat else O) /\ length ranges = 2%nat.
Proof.
  destruct (seeding_partitions_source reshard seed_initial validating provisioning validates eq_refl)
    as (source' & src & ranges & _ & _ & _ & Hl & Ho & _).
  exists src, ranges. split; [exact Ho|exact Hl].
Defined.

(** Reported positions are 64-bit. *)
Definition in_width (e : Event SeedRequest) : Prop :=
  let '(existT _ (q, x)) := e in
  match q in SeedRequest R return R -> Prop with
  | WatchWorkflow _ _ => fun r => forall z, (r ≫= wf_applied) = Some z -> is_u64 z
  | AgentStatus _ => fun r => forall z, (r ≫= ir_write_lsn) = Some z -> is_u64 z
  | _ => fun _ => True
  end x.

Lemma positions : Forall in_width caught_up.
Proof.
  unfold caught_up, prepared, streams, read_primary. cbn [app].
  repeat (apply Forall_cons_2; [first [exact I|intros z [= <-]; unfold is_u64, u64_MAX, two64; lia]|]). apply Forall_nil_2.
Qed.

Lemma ready_only_caught_up_witness : exists cluster source', identified reshard catching caught_up cluster source'.
Proof.
  destruct (ready_only_caught_up reshard catching caught_up (to_phase ReadyToCutover catching) eq_refl catches_up eq_refl)
    as (_ & cluster & source' & Hid & _).
  - intros host id r z Hin. exact (proj1 (Forall_forall _ _) positions _ Hin z).
  - intros host r z Hin. exact (proj1 (Forall_forall _ _) positions _ Hin z).
  - exists cluster, source'. exact Hid.
Defined.

Lemma seed_lifecycle_witness : seed_ok reshard provisioning /\ seed_kept provisioning (fail provisioning).
Proof.
  assert (Hv : rtc (seed_step reshard) seed_initial provisioning)
    by (eapply rtc_once, step_reconcile; [reflexivity|exact validates]).
  assert (Hf : rtc (seed_step reshard) provisioning (fail provisioning)).
  { eapply rtc_once, step_reconcile with (tr := [answered SeedCluster (Some (mkCluster "shop" "u2" "pg:18" [] "xxhash64_v1" None 2 None None false ClusterProvisioning (mkCounts 0 0 0)))]);
      [reflexivity|]. next_run. by split. }
  split; [exact (proj1 (seed_lifecycle reshard provisioning provisioning Hv (rtc_refl _ _)))
         |exact (proj2 (seed_lifecycle reshard provisioning (fail provisioning) Hv Hf))].
Defined.

Lemma seeded_tables_routed_witness : pinTables (shardedTables "shop" configs) = pinned.
Proof.
  rewrite (seeded_tables_routed "shop" configs [mkRoutingTable "public" "orders" TableSharded "customer" "int" []]); reflexivity.
Defined.

End SeedExample.
