(* ===== verification/OpDatabase.v ===== *)
(** * The database of a placed shard

    [reconcileLogicalShard] and [reconcileShardDatabase] of
    [src/operator/internal/controller/pgshardshard_controller.go]: a placed shard mirrors the
    health of its node and publishes a primary only for a database that the agent of that very
    pod attested. A reconcile is a program of requests, as in [Cutover]; reading the node with
    an error other than absence ends it without a status write. The other half of the
    controller, for shards without a node, is in [Failover]. *)

From S2P Require Import Prelude Rust Go Keyspace ShardFn Agent Client Workflow Topo Service OpProg OpConfig OpTopology OpRouting OpPlacement Cutover OpSeeding.
From stdpp Require Import gmap strings.

Open Scope Z_scope.

(** ** The reconcile *)

(** A shard as read, with the value of its adoption annotation. *)
Record DbShard `{Quantity} := mkDbShard { ds_shard : Shard; ds_adopt : option string }.
Arguments mkDbShard {_} _ _.

(** Dialing the agent is part of the request: a failure is one more transient error. *)
Inductive DbRequest `{Quantity} : Type -> Type :=
| DbNode (name : string) : DbRequest (option Node)
| DbPod (name : string) : DbRequest (option PodObj)
| CreateDatabase (host pod_uid name provenance : string) (adopt : bool) : DbRequest (result Code (string * string))
| ConsumeAdoption : DbRequest bool
| DbWriteStatus (s : ShardStatus) : DbRequest bool.

Definition shardPhaseForNode (phase : NodePhase) : ShardPhase :=
  match phase with
  | NodeReady => ShardReady
  | NodeFailingOver => ShardFailingOver
  | NodeDegraded => ShardDegraded
  | _ => ShardProvisioning
  end.

(** [setDatabaseCondition]. *)
Definition setDatabaseCondition (ready : bool) (s : ShardStatus) : ShardStatus :=
  mkShardStatus (hs_phase s) (hs_primary s) (Some ready) (hs_db_node s) (hs_db_node_uid s) (hs_db_pod_uid s).
Definition mirror (phase : ShardPhase) (primary : string) (s : ShardStatus) : ShardStatus :=
  mkShardStatus phase primary (hs_db_ready s) (hs_db_node s) (hs_db_node_uid s) (hs_db_pod_uid s).

Section database.
Context `{Quantity}.
Abbreviation DbProg := (Prog DbRequest).
Variable ds : DbShard.
Let shard := ds_shard ds.

(** The annotation grants the takeover on this node only. *)
Definition adopting (node : Node) : bool := bool_decide (default EmptyString (ds_adopt ds) = nx_uid node).

Definition reconcileShardDatabase (st : ShardStatus) (node : Node) : DbProg (ShardStatus * bool) :=
  let name := shardDatabaseName shard in
  if (maxDatabaseNameBytes <? str_len name)%nat then Done (setDatabaseCondition false st, false)
  else
    let primary := nt_primary (nx_status node) in
    if match nt_phase (nx_status node) with NodeReady => str_is_empty primary | _ => true end then Done (st, false)
    else
      found ← req (DbPod primary);
      match found with
      | None => Done (st, false)
      | Some pod =>
          if negb (bool_decide (pd_owner pod = nx_uid node)) then Done (st, false)
          else if bool_decide (hs_db_node st = nx_name node) && bool_decide (hs_db_node_uid st = nx_uid node) &&
                  bool_decide (hs_db_pod_uid st = pd_uid pod) && bool_decide (hs_db_ready st = Some true) then Done (st, true)
          else if str_is_empty (pd_ip pod) then Done (st, false)
          else
            r ← req (CreateDatabase (pd_ip pod) (pd_uid pod) name (sx_uid shard) (adopting node));
            match r with
            | Err InvalidArgument | Err FailedPrecondition => Done (setDatabaseCondition false st, false)
            | Err _ => Done (st, false)
            | Ok (provenance, served) =>
                if negb (bool_decide (provenance = sx_uid shard)) || negb (bool_decide (served = pd_uid pod)) then
                  Done (setDatabaseCondition false st, false)
                else
                  _ ← (if adopting node then req ConsumeAdoption else Done true);
                  Done (mkShardStatus (hs_phase st) (hs_primary st) (Some true) (nx_name node) (nx_uid node) (pd_uid pod), true)
            end
      end.

(** The status a reconcile computes. *)
Definition logicalStatus : DbProg ShardStatus :=
  let st := sx_status shard in
  found ← req (DbNode (ss_node_ref (sx_spec shard)));
  match found with
  | None => Done (mirror ShardProvisioning EmptyString st)
  | Some node =>
      let st := mirror (shardPhaseForNode (nt_phase (nx_status node))) (nt_primary (nx_status node)) st in
      '(st, verified) ← reconcileShardDatabase st node;
      if (verified : bool) then Done st
      else
        let phase :=
          if bool_decide (hs_db_ready st = Some false) then ShardDegraded
          else match hs_phase st with ShardReady => ShardProvisioning | p => p end in
        Done (mirror phase EmptyString st)
  end.

(** The source skips the write when nothing changed. *)
Definition reconcileLogicalShard : DbProg unit := st ← logicalStatus; must (DbWriteStatus st).
End database.

(** ** What a run establishes *)

Section runs.
Context `{Quantity}.
Variable ds : DbShard.
Let shard := ds_shard ds.
Abbreviation DbTrace := (list (Event DbRequest)).

(** The status records this node and this pod. *)
Definition recorded (st : ShardStatus) (node : Node) (pod : PodObj) : Prop :=
  hs_db_ready st = Some true /\ hs_db_node st = nx_name node /\ hs_db_node_uid st = nx_uid node /\ hs_db_pod_uid st = pd_uid pod.

(** The pod was read as the primary of the ready node, controlled by its incarnation. *)
Definition live_primary (tr : DbTrace) (node : Node) (pod : PodObj) : Prop :=
  nt_phase (nx_status node) = NodeReady /\ nt_primary (nx_status node) <> EmptyString /\
  answered (DbPod (nt_primary (nx_status node))) (Some pod) ∈ tr /\ pd_owner pod = nx_uid node.

(** The agent at the pod's address, asked as this pod, attested the shard's UID on the
    shard's database; a takeover only under a grant for this node. *)
Definition attested (tr : DbTrace) (node : Node) (pod : PodObj) : Prop :=
  exists adopt, answered (CreateDatabase (pd_ip pod) (pd_uid pod) (sx_name shard) (sx_uid shard) adopt) (Ok (sx_uid shard, pd_uid pod)) ∈ tr /\
    (adopt = true -> default EmptyString (ds_adopt ds) = nx_uid node).

(** The database fields are kept, but for a condition that turned false. *)
Definition not_verified (st st' : ShardStatus) : Prop :=
  hs_db_node st' = hs_db_node st /\ hs_db_node_uid st' = hs_db_node_uid st /\ hs_db_pod_uid st' = hs_db_pod_uid st /\
  (hs_db_ready st' = hs_db_ready st \/ hs_db_ready st' = Some false).

Lemma nonempty_neq s : str_is_empty s = false -> s <> EmptyString.
Proof. by intros Hs ->. Qed.

Lemma database_runs st node tr st' v : runs (reconcileShardDatabase ds st node) tr (st', v) ->
  hs_phase st' = hs_phase st /\ hs_primary st' = hs_primary st /\
  if v then exists pod, live_primary tr node pod /\ recorded st' node pod /\ (st' = st \/ attested tr node pod) else not_verified st st'.
Proof.
  assert (Hkeep : not_verified st st) by (split_and!; auto).
  assert (Hbad : not_verified st (setDatabaseCondition false st)) by (split_and!; [done..|by right]).
  unfold reconcileShardDatabase. destruct (_ <? _)%nat; [intros [-> [= <- <-]]; by split_and!|].
  destruct (nt_phase (nx_status node)) eqn:Hph; try (intros [-> [= <- <-]]; by split_and!).
  destruct (str_is_empty _) eqn:Hne; [intros [-> [= <- <-]]; by split_and!|].
  intros (x & tr1 & -> & Hr)%runs_req. destruct x as [pod|]; [|destruct Hr as [-> [= <- <-]]; by split_and!].
  case_bool_decide as Ho; cbn [negb] in Hr; [|destruct Hr as [-> [= <- <-]]; by split_and!].
  assert (Hlive : forall tr, live_primary (answered (DbPod (nt_primary (nx_status node))) (Some pod) :: tr) node pod).
  { intros tr. split_and!; [done|by apply nonempty_neq|by left|done]. }
  destruct (_ && _) eqn:Ev.
  { rewrite !andb_true_iff, !bool_decide_eq_true in Ev. destruct Ev as [[[? ?] ?] ?]. destruct Hr as [-> [= <- <-]].
    split_and!; [done..|]. exists pod. split_and!; [done|by split_and!|by left]. }
  destruct (str_is_empty (pd_ip pod)); [destruct Hr as [-> [= <- <-]]; by split_and!|].
  apply runs_req in Hr as (r & tr2 & -> & Hr). destruct r as [[prov served]|e]; [|destruct e; destruct Hr as [-> [= <- <-]]; by split_and!].
  destruct (_ || _) eqn:Ea; [destruct Hr as [-> [= <- <-]]; by split_and!|].
  rewrite orb_false_iff, !negb_false_iff, !bool_decide_eq_true in Ea. destruct Ea as [-> ->].
  apply run_bind in Hr as (u & tr3 & tr4 & -> & _ & [-> [= <- <-]]). split_and!; [done..|].
  exists pod. split_and!; [done|by split_and!|]. right. exists (adopting ds node). split; [right; by left|].
  unfold adopting. intros Hd%bool_decide_eq_true. done.
Qed.

(** How a reconcile ends: the shard is ready with its node's primary, or has none. *)
Lemma logical_runs tr st' : runs (logicalStatus ds) tr st' ->
  (hs_phase st' = ShardReady /\ exists node pod, answered (DbNode (ss_node_ref (sx_spec shard))) (Some node) ∈ tr /\
     live_primary tr node pod /\ hs_primary st' = nt_primary (nx_status node) /\ recorded st' node pod /\
     (recorded (sx_status shard) node pod \/ attested tr node pod)) \/
  (hs_phase st' <> ShardReady /\ hs_primary st' = EmptyString /\ not_verified (sx_status shard) st').
Proof.
  unfold logicalStatus. intros (x & tr1 & -> & Hr)%runs_req.
  destruct x as [node|]; [|destruct Hr as [-> <-]; right; split_and!; [done|done|split_and!; auto]].
  apply run_bind in Hr as ([st v] & tr2 & tr3 & -> & (Hph & Hpr & Hdb)%database_runs & Hr). destruct v.
  - left. destruct Hr as [-> <-]. rewrite app_nil_r. destruct Hdb as (pod & Hlive & Hrec & Hor).
    pose proof Hlive as (Hn & _ & Hpod & Ho). cbn in Hph, Hpr. rewrite Hn in Hph. split; [done|]. exists node, pod.
    split_and!; [by left| |done|done|].
    + destruct Hlive as (? & ? & ? & ?). split_and!; [done|done|by right|done].
    + destruct Hor as [-> |(adopt & Ha & Hg)]; [by left|right]. exists adopt. split; [by right|done].
  - right. destruct Hr as [-> <-]. split_and!; [|done|].
    + cbn. case_bool_decide; [done|]. by destruct (hs_phase st).
    + destruct Hdb as (? & ? & ? & ?). by split_and!.
Qed.
End runs.

(** ** The history of a status *)

Definition new_status : ShardStatus := mkShardStatus ShardNew EmptyString None EmptyString EmptyString EmptyString.

Section history.
Context `{Quantity}.
Variable uid name : string.

(** The reconciles so far, each with the copy of the shard it read and its answers, and the
    stored status. A write may be lost. One computed from an older copy is refused, unless the
    reconcile patched the annotation before it and so has the object's current version: it may
    then store what follows from an earlier status. *)
Inductive history : list (DbShard * list (Event DbRequest)) -> ShardStatus -> Prop :=
| history_new : history [] new_status
| history_step h st ds tr st' : history h st -> sx_uid (ds_shard ds) = uid -> sx_name (ds_shard ds) = name ->
    sx_status (ds_shard ds) = st -> runs (logicalStatus ds) tr st' -> history (h ++ [(ds, tr)]) st'
| history_stale h st h0 st0 ds tr st' : history h st -> history h0 st0 -> h0 ⊆ h -> sx_uid (ds_shard ds) = uid -> sx_name (ds_shard ds) = name ->
    sx_status (ds_shard ds) = st0 -> runs (logicalStatus ds) tr st' -> history (h ++ [(ds, tr)]) st'
| history_lost h st ds tr : history h st -> history (h ++ [(ds, tr)]) st.

(** One of the reconciles had the database attested on the recorded node and pod. *)
Definition once_attested (h : list (DbShard * list (Event DbRequest))) (st : ShardStatus) : Prop :=
  exists ds tr node pod, (ds, tr) ∈ h /\ sx_uid (ds_shard ds) = uid /\ sx_name (ds_shard ds) = name /\
    answered (DbNode (ss_node_ref (sx_spec (ds_shard ds)))) (Some node) ∈ tr /\ live_primary tr node pod /\
    attested ds tr node pod /\ recorded st node pod.

Lemma once_attested_mono h h' st : h ⊆ h' -> once_attested h st -> once_attested h' st.
Proof. intros Hs (ds & tr & node & pod & ? & ?). exists ds, tr, node, pod. split; [by apply Hs|done]. Qed.

(** A reconcile from a status that is attested leaves one that is. *)
Lemma step_attested h ds tr st' : sx_uid (ds_shard ds) = uid -> sx_name (ds_shard ds) = name -> runs (logicalStatus ds) tr st' ->
  (hs_db_ready (sx_status (ds_shard ds)) = Some true -> once_attested h (sx_status (ds_shard ds))) ->
  hs_db_ready st' = Some true -> once_attested (h ++ [(ds, tr)]) st'.
Proof.
  intros Hu Hn Hr IH Hready.
  destruct (logical_runs ds tr st' Hr) as [(_ & node & pod & Hnode & Hlive & _ & Hrec & [Hold|Hnew])|(_ & _ & E1 & E2 & E3 & [E4|E4])].
  - destruct Hold as (Ho1 & Ho2 & Ho3 & Ho4). apply (once_attested_mono h); [apply sub_l|].
    destruct (IH Ho1) as (ds0 & tr0 & node0 & pod0 & ? & ? & ? & ? & ? & ? & (R1 & R2 & R3 & R4)).
    exists ds0, tr0, node0, pod0. destruct Hrec as (C1 & C2 & C3 & C4). split_and!; try done. split_and!; congruence.
  - exists ds, tr, node, pod. split_and!; try done. apply elem_of_app. right. by left.
  - apply (once_attested_mono h); [apply sub_l|]. rewrite E4 in Hready.
    destruct (IH Hready) as (ds0 & tr0 & node0 & pod0 & ? & ? & ? & ? & ? & ? & (R1 & R2 & R3 & R4)).
    exists ds0, tr0, node0, pod0. split_and!; try done. split_and!; congruence.
  - congruence.
Qed.

Lemma history_attested h st : history h st -> hs_db_ready st = Some true -> once_attested h st.
Proof.
  induction 1 as [|h st ds tr st' _ IH Hu Hn Hst Hr|h st h0 st0 ds tr st' _ _ _ IH Hs Hu Hn Hst Hr|h st ds tr _ IH]; intros Hready; [done| | |].
  - apply step_attested; try done. by rewrite Hst.
  - apply step_attested; try done. rewrite Hst. intros Ho. by eapply once_attested_mono; [|apply IH].
  - apply (once_attested_mono h); [apply sub_l|by apply IH].
Qed.
End history.

(** ** The agent's side *)

Lemma uid_provenance uid : is_uid uid = true -> check_provenance uid = Ok tt /\ str_is_empty uid = false.
Proof.
  intros [Hl%Nat.eqb_eq Hc]%andb_true_iff. unfold check_provenance. rewrite Hl. change (MAX_PROVENANCE_BYTES <? 36)%nat with false.
  split; [|by destruct uid]. rewrite (proj2 (forallb_spec _ _)); [done|]. rewrite forallb_spec in Hc. intros c Hin. specialize (Hc c Hin).
  unfold uid_char in Hc. destruct (is_ascii_alnum c); [done|]. cbn [orb] in *. apply bool_decide_eq_true in Hc as ->.
  by apply bool_decide_eq_true, (bool_decide_unpack _).
Qed.

(** ** Theorems *)

(** C21: A placed shard is routable only on evidence. Through any sequence of reconciles of a
    shard, on any answers of the API server and of the agents, with writes refused or lost in
    between: the status a reconcile computes says ready exactly when it names a primary; then
    that is the primary of the node as just read, ready, whose pod was just read under this
    name and is controlled by this very incarnation of the node; and one of the reconciles had
    the agent of the pod with this UID, on a node with this UID, attest the shard's UID on the
    shard's database, taking a foreign database over only if the annotation it read granted it
    for that node. *)
Theorem routable_on_evidence `{Quantity} uid name h st ds tr st' :
  history uid name h st -> sx_uid (ds_shard ds) = uid -> sx_name (ds_shard ds) = name -> sx_status (ds_shard ds) = st ->
  runs (logicalStatus ds) tr st' ->
  (hs_phase st' = ShardReady <-> hs_primary st' <> EmptyString) /\
  (hs_phase st' = ShardReady -> exists node pod, answered (DbNode (ss_node_ref (sx_spec (ds_shard ds)))) (Some node) ∈ tr /\
     live_primary tr node pod /\ hs_primary st' = nt_primary (nx_status node) /\ recorded st' node pod /\
     once_attested uid name (h ++ [(ds, tr)]) st').
Proof.
  intros Hh Hu Hn Hst Hr. pose proof (history_step uid name h st ds tr st' Hh Hu Hn Hst Hr) as Hh'.
  destruct (logical_runs ds tr st' Hr) as [(Hp & node & pod & Hnode & Hlive & Hpr & Hrec & _)|(Hp & Hpr & _)].
  - split; [split; [|done]|].
    + intros _. rewrite Hpr. by destruct Hlive as (_ & ? & _).
    + intros _. exists node, pod. split_and!; try done. apply history_attested; [done|by destruct Hrec].
  - split; [|done]. split; [done|]. by rewrite Hpr.
Qed.

(** The agent answers the operator's request as it means it. For a shard as Kubernetes
    admits it the request is refused only by an agent of another pod or by PostgreSQL, never
    as invalid; an answer that the operator counts as attested comes from an agent that knows
    itself to be that pod, after its instance created or verified the database under the
    shard's UID. *)
Theorem create_request_served {I} `{!Instance I} (s s' : AgentSvc I) pod_uid name uid adopt r :
  is_uid uid = true -> (0 < str_len name <= 63)%nat -> pod_uid <> EmptyString ->
  Service.create_database pod_uid name EmptyString uid adopt s = (s', r) ->
  r <> Err InvalidArgument /\
  (wrong_pod s pod_uid = true -> s' = s /\ r = Err Aborted) /\
  (r = Ok (uid, pod_uid) -> ag_pod_uid s = pod_uid /\
     exists i, inst_create_database (ag_instance s) name EmptyString uid adopt = (i, Ok tt) /\ s' = with_instance i s).
Proof.
  intros Hu Hn Hp. unfold Service.create_database. destruct (wrong_pod s pod_uid) eqn:Hw; [intros [= <- <-]; by split_and!|].
  destruct (uid_provenance uid Hu) as [Hprov Hne]. unfold check_ident.
  destruct (str_is_empty name) eqn:E; [destruct name; cbn in *; [lia|done]|].
  change MAX_IDENT_BYTES with 63%nat. destruct (63 <? str_len name)%nat eqn:E63; [apply Nat.ltb_lt in E63; lia|].
  cbn [mbind result_bind str_is_empty]. rewrite Hprov, Hne, andb_false_r.
  destruct (inst_create_database (ag_instance s) name EmptyString uid adopt) as [i [[]|[]]] eqn:Hi; intros [= <- <-]; split_and!; try done.
  intros [= Hpod]. split; [done|]. by exists i.
Qed.

(** ** An example *)

Module DatabaseExample.
Import ConfigExample PlacementExample SeedExample.
#[local] Existing Instances milli.

Definition node_at (primary : string) : Node :=
  mkNode "shop-min-80" "n1" "u1" (mkNodeSpec 3 "pg:18" (re_resources config) None (re_config_hash config)) (mkNodeStatus NodeReady primary).
Definition pod_a : PodObj := mkPodObj "shop-min-80-0" "pa" "n1" "10.0.0.1".
Definition pod_b : PodObj := mkPodObj "shop-min-80-1" "pb" "n1" "10.0.0.2".

Definition copy (st : ShardStatus) : DbShard :=
  mkDbShard (mkShard "shop-min-80" uid "u1" (sx_spec source) st) None.

(** Verified on the first pod. *)
Definition on_a : ShardStatus := mkShardStatus ShardReady "shop-min-80-0" (Some true) "shop-min-80" "n1" "pa".
Definition verify_a : list (Event DbRequest) :=
  [answered (DbNode "shop-min-80") (Some (node_at "shop-min-80-0")); answered (DbPod "shop-min-80-0") (Some pod_a);
   answered (CreateDatabase "10.0.0.1" "pa" "shop-min-80" uid false) (Ok (uid, "pa"%string))].

Lemma verifies_a : runs (logicalStatus (copy new_status)) verify_a on_a.
Proof. unfold verify_a. repeat next_run. by split. Qed.

Lemma history_a : history uid "shop-min-80" [(copy new_status, verify_a)] on_a.
Proof. eapply (history_step _ _ [] new_status); [constructor|reflexivity..|exact verifies_a]. Qed.

Lemma routable_on_evidence_witness : exists node pod, recorded on_a node pod.
Proof.
  destruct (routable_on_evidence uid "shop-min-80" [] new_status (copy new_status) verify_a on_a
    (history_new _ _) eq_refl eq_refl eq_refl verifies_a) as [_ Hev].
  destruct (Hev eq_refl) as (node & pod & _ & _ & _ & Hrec & _). exists node, pod. exact Hrec.
Defined.

#[local] Existing Instance demo_instance.
Definition agent_a : AgentSvc Z := mkAgent 7 "shop-min-80-0" "pa" (mkApplied 6 "fence:true" true) ∅ ∅ ∅ ∅ None.

Lemma create_request_served_witness : ag_pod_uid agent_a = "pa"%string.
Proof.
  destruct (create_request_served agent_a _ "pa" "shop-min-80" uid false _ eq_refl ltac:(cbn; lia) ltac:(done) eq_refl) as (_ & _ & Hok).
  exact (proj1 (Hok eq_refl)).
Defined.

(** The first pod lost the primary to the second, whose agent could not be reached. *)
Definition failed_over : ShardStatus := mkShardStatus ShardProvisioning EmptyString (Some true) "shop-min-80" "n1" "pa".
Definition miss_b : list (Event DbRequest) :=
  [answered (DbNode "shop-min-80") (Some (node_at "shop-min-80-1")); answered (DbPod "shop-min-80-1") (Some pod_b);
   answered (CreateDatabase "10.0.0.2" "pb" "shop-min-80" uid false) (Err Unavailable)].
Definition back_on_a : list (Event DbRequest) :=
  [answered (DbNode "shop-min-80") (Some (node_at "shop-min-80-0")); answered (DbPod "shop-min-80-0") (Some pod_a)].

(** When the first pod is promoted again it counts as verified, and no agent is asked,
    although in between the other pod was the primary. *)
Example failback_not_verified_again :
  history uid "shop-min-80" [(copy new_status, verify_a); (copy on_a, miss_b); (copy failed_over, back_on_a)] on_a.
Proof.
  eapply (history_step _ _ [(copy new_status, verify_a); (copy on_a, miss_b)] failed_over); [|reflexivity..|].
  - eapply (history_step _ _ [(copy new_status, verify_a)] on_a); [exact history_a|reflexivity..|].
    unfold miss_b. repeat next_run. by split.
  - unfold back_on_a. repeat next_run. by split.
Qed.
End DatabaseExample.
