(* ===== verification/OpPublish.v ===== *)
(** * The routing controller

    [src/operator/internal/controller/pgshardrouting_controller.go]: the single writer of the
    routing object gathers the cluster's shards, checks each placed shard's primary against the
    live objects, resolves the addresses of the instances, pins the reshards that hold a gate,
    and writes what [Compile] makes of it. A reconcile is a program of requests; the call of
    [Write] is one request, whose steps are in [OpRouting]. *)

From S2P Require Import Prelude Rust Go Keyspace ShardFn Topo Service OpProg OpConfig OpTopology OpRouting OpPlacement Cutover OpSeeding OpDatabase.
From stdpp Require Import gmap strings.

Open Scope Z_scope.

(** ** Objects *)

(** A shard and a node as listed and read, with the instances of their status. *)
Record ShardView `{Quantity} := mkShardView { sv_shard : Shard; sv_instances : list InstanceState }.
Record NodeView `{Quantity} := mkNodeView { nv_node : Node; nv_instances : list InstanceState }.
Arguments mkShardView {_} _ _.
Arguments mkNodeView {_} _ _.

(** A reshard: what its gate depends on, and whether the routing finalizer pins it. *)
Record ReshardView := mkReshardView { rv_gate : GateRequest; rv_finalizer : bool }.

(** The verdict of the condition on the cluster. *)
Inductive Verdict := RoutingCompiled (epoch : Z) | GateInconsistent (e : GateError) | CompileFailed (e : CompileError).

(** Reading a pod: absent, or an error other than that. *)
Inductive RouteRequest `{Quantity} : Type -> Type :=
| ListShards : RouteRequest (list ShardView)
| RtNode (name : string) : RouteRequest (option NodeView)
| RtPod (name : string) : RouteRequest (result unit (option PodObj))
| ListConfigs : RouteRequest (list (string * PgShardTableConfig))
| ListReshards : RouteRequest (list ReshardView)
| SetFinalizer (reshard : string) (present : bool) : RouteRequest bool
| WriteRouting (spec : RoutingSpec) : RouteRequest (option Z)
| RoutingOwner : RouteRequest (option (option string))
| OwnRouting : RouteRequest bool
| SetVerdict (v : Verdict) : RouteRequest bool.

(** ** The reconcile *)

Section routing.
Context `{Quantity}.
Abbreviation RtProg := (Prog RouteRequest).
Abbreviation Nodes := (gmap string (option NodeView)).
Variable cluster : Cluster.
Variable lease : option Z.
Variable rfc3339 : Z -> string.

(** The shard with the instances and the primary that the compiler is given. *)
Definition overlay (instances : list InstanceState) (primary : string) (s : ShardView) : ShardView :=
  let st := sx_status (sv_shard s) in
  mkShardView
    (mkShard (sx_name (sv_shard s)) (sx_uid (sv_shard s)) (sx_owner (sv_shard s)) (sx_spec (sv_shard s))
       (mkShardStatus (hs_phase st) primary (hs_db_ready st) (hs_db_node st) (hs_db_node_uid st) (hs_db_pod_uid st)))
    instances.

Definition primaryStillVerified (s : ShardView) (node : NodeView) : RtProg bool :=
  let primary := hs_primary (sx_status (sv_shard s)) in
  if str_is_empty primary then Done false
  else
    found ← req (RtPod primary);
    match found with
    | Ok (Some pod) =>
        if negb (bool_decide (pd_owner pod = nx_uid (nv_node node))) then Done false
        else Done (databaseVerified (sv_shard s) (nv_node node) pod)
    | _ => Done false
    end.

(** A node is read once. *)
Definition lookupNode (nodes : Nodes) (ref : string) : RtProg (option NodeView * Nodes) :=
  match nodes !! ref with
  | Some node => Done (node, nodes)
  | None => node ← req (RtNode ref); Done (node, <[ref := node]> nodes)
  end.

Definition overlayShard (s : ShardView) (node : option NodeView) : RtProg ShardView :=
  match node with
  | Some n =>
      ok ← primaryStillVerified s n;
      Done (overlay (nv_instances n) (if ok : bool then hs_primary (sx_status (sv_shard s)) else EmptyString) s)
  | None => Done (overlay [] EmptyString s)
  end.

Fixpoint clusterShards (nodes : Nodes) (list : list ShardView) : RtProg (Datatypes.list ShardView * Nodes) :=
  match list with
  | [] => Done ([], nodes)
  | s :: list' =>
      if negb (bool_decide (ss_cluster_ref (sx_spec (sv_shard s)) = cl_name cluster)) then clusterShards nodes list'
      else
        let ref := ss_node_ref (sx_spec (sv_shard s)) in
        '(s', nodes') ← (if str_is_empty ref then Done (s, nodes)
                         else '(node, nodes') ← lookupNode nodes ref; s' ← overlayShard s node; Done (s', nodes'));
        '(rest, nodes'') ← clusterShards nodes' list';
        Done (s' :: rest, nodes'')
  end.

Abbreviation Endpoints := (gmap string RoutingEndpoint).

(** The loops of [resolveEndpoints]. *)
Fixpoint resolveInstances (node : NodeView) (instances : list InstanceState) (endpoints : Endpoints) : RtProg Endpoints :=
  match instances with
  | [] => Done endpoints
  | inst :: instances' =>
      match endpoints !! is_pod inst with
      | Some _ => resolveInstances node instances' endpoints
      | None =>
          found ← req (RtPod (is_pod inst));
          match found with
          | Err _ => Stop
          | Ok None => resolveInstances node instances' endpoints
          | Ok (Some pod) =>
              if negb (bool_decide (pd_owner pod = nx_uid (nv_node node))) || str_is_empty (pd_ip pod) then
                resolveInstances node instances' endpoints
              else
                resolveInstances node instances'
                  (<[is_pod inst := mkRoutingEndpoint (is_pod inst) (pd_ip pod) postgresPort false]> endpoints)
          end
      end
  end.

Fixpoint resolveEndpoints (nodes : Nodes) (shards : list ShardView) (endpoints : Endpoints) : RtProg Endpoints :=
  match shards with
  | [] => Done endpoints
  | s :: shards' =>
      match nodes !! ss_node_ref (sx_spec (sv_shard s)) with
      | Some (Some node) =>
          endpoints' ← resolveInstances node (sv_instances s) endpoints;
          resolveEndpoints nodes shards' endpoints'
      | _ => resolveEndpoints nodes shards' endpoints
      end
  end.

(** What the compiler reads of a shard. *)
Definition as_input (s : ShardView) : PgShardShard :=
  mkPgShardShard (sx_name (sv_shard s)) (ss_range (sx_spec (sv_shard s))) (ss_role (sx_spec (sv_shard s)))
    (ss_serving (sx_spec (sv_shard s))) (sv_instances s) (hs_primary (sx_status (sv_shard s))).

(** Whether the reshard is what keeps writes off its source. *)
Definition holding (shards : list PgShardShard) (g : GateRequest) : bool :=
  bool_decide (is_Some (gr_deadline g)) ||
  (gr_committed g && match shard_named shards (gr_source g) with Some s => sh_serving s | None => false end).

Definition syncGateFinalizer (r : ReshardView) (hold : bool) : RtProg unit :=
  match hold, rv_finalizer r with
  | true, false => must (SetFinalizer (gr_name (rv_gate r)) true)
  | false, true => must (SetFinalizer (gr_name (rv_gate r)) false)
  | _, _ => Done tt
  end.

Fixpoint syncGateFinalizers (shards : list PgShardShard) (reshards : list ReshardView) : RtProg unit :=
  match reshards with
  | [] => Done tt
  | r :: reshards' =>
      if negb (bool_decide (gr_cluster (rv_gate r) = cl_name cluster)) then syncGateFinalizers shards reshards'
      else _ ← syncGateFinalizer r (holding shards (rv_gate r)); syncGateFinalizers shards reshards'
  end.

(** [SetControllerReference] refuses an object of another controller. *)
Definition ensureRoutingOwned : RtProg unit :=
  owner ← req RoutingOwner;
  match owner with
  | None => Stop
  | Some None => must OwnRouting
  | Some (Some o) => if bool_decide (o = cl_uid cluster) then Done tt else Stop
  end.

Definition compileAndWrite : RtProg Verdict :=
  listed ← req ListShards;
  '(shards, nodes) ← clusterShards ∅ listed;
  configs ← req ListConfigs;
  let tableConfigs := snd <$> List.filter (fun c => bool_decide (fst c = cl_name cluster)) configs in
  endpoints ← resolveEndpoints nodes shards ∅;
  reshards ← req ListReshards;
  let inputs := as_input <$> shards in
  _ ← syncGateFinalizers inputs reshards;
  match cutoverGates rfc3339 (cl_name cluster) inputs (rv_gate <$> reshards) with
  | Err e => Done (GateInconsistent e)
  | Ok gates =>
      match Compile (mkCompileInputs lease (cl_hash_function cluster) inputs tableConfigs endpoints gates) with
      | Err e => Done (CompileFailed e)
      | Ok desired =>
          epoch ← req (WriteRouting desired);
          match epoch with
          | None => Stop
          | Some epoch => _ ← ensureRoutingOwned; Done (RoutingCompiled epoch)
          end
      end
  end.

(** [Reconcile]; the source skips the update when the conditions did not change. *)
Definition RoutingReconcile : RtProg unit := v ← compileAndWrite; must (SetVerdict v).

End routing.

(** ** What the parts of a reconcile establish *)

Section parts.
Context `{Quantity}.
Variable cluster : Cluster.
Abbreviation RtTrace := (list (Event RouteRequest)).
Abbreviation Nodes := (gmap string (option NodeView)).

(** The primary of the shard was read live, controlled by the node, as the pod on which the
    database is recorded as verified. *)
Definition still_verified (tr : RtTrace) (s : Shard) (node : Node) : Prop :=
  hs_primary (sx_status s) <> EmptyString /\
  exists pod, answered (RtPod (hs_primary (sx_status s))) (Ok (Some pod)) ∈ tr /\ pd_owner pod = nx_uid node /\
    databaseVerified s node pod = true.

(** A shard that the compiler is given, and what it was made of. *)
Definition overlaid (tr : RtTrace) (nodes : Nodes) (s s' : ShardView) : Prop :=
  let ref := ss_node_ref (sx_spec (sv_shard s)) in
  (ref = EmptyString /\ s' = s) \/
  (ref <> EmptyString /\ nodes !! ref = Some None /\ s' = overlay [] EmptyString s) \/
  (ref <> EmptyString /\ exists node primary, nodes !! ref = Some (Some node) /\ s' = overlay (nv_instances node) primary s /\
     (primary = EmptyString \/ primary = hs_primary (sx_status (sv_shard s)) /\ still_verified tr (sv_shard s) (nv_node node))).

Lemma still_verified_mono tr tr' s node : tr ⊆ tr' -> still_verified tr s node -> still_verified tr' s node.
Proof. intros Hs (? & pod & ? & ?). split; [done|]. exists pod. split; [by apply Hs|done]. Qed.

Lemma overlaid_mono tr tr' nodes nodes' s s' : tr ⊆ tr' -> nodes ⊆ nodes' -> overlaid tr nodes s s' -> overlaid tr' nodes' s s'.
Proof.
  intros Ht Hn [?|[(? & Hl & ?)|(? & node & p & Hl & ? & Hp)]]; [by left|right; left|right; right].
  - split_and!; [done|by eapply lookup_weaken|done].
  - split; [done|]. exists node, p. split_and!; [by eapply lookup_weaken|done|]. destruct Hp as [?|[? ?]]; [by left|right].
    split; [done|]. by eapply still_verified_mono.
Qed.

Lemma stillVerified_runs s node tr : runs (primaryStillVerified s node) tr true -> still_verified tr (sv_shard s) (nv_node node).
Proof.
  unfold primaryStillVerified. destruct (str_is_empty _) eqn:He; [by intros [_ ?]|].
  intros (r & tr1 & -> & Hr)%runs_req. destruct r as [[pod|]|]; try by destruct Hr.
  case_bool_decide; cbn [negb] in Hr; [|by destruct Hr]. destruct Hr as [-> Hv]. split; [by apply nonempty_neq|].
  exists pod. split_and!; [by left|done|done].
Qed.

(** Where the nodes come from. *)
Definition nodes_read (tr : RtTrace) (nodes nodes' : Nodes) : Prop :=
  nodes ⊆ nodes' /\ forall ref node, nodes' !! ref = Some node -> nodes !! ref = Some node \/ (ref <> EmptyString /\ answered (RtNode ref) node ∈ tr).

Lemma nodes_read_trans tr1 tr2 n1 n2 n3 : nodes_read tr1 n1 n2 -> nodes_read tr2 n2 n3 -> nodes_read (tr1 ++ tr2) n1 n3.
Proof.
  intros [H1 R1] [H2 R2]. split; [by etrans|]. intros ref node Hn. destruct (R2 ref node Hn) as [Hn2|[? ?]].
  - destruct (R1 ref node Hn2) as [?|[? ?]]; [by left|right]. split; [done|]. apply elem_of_app. by left.
  - right. split; [done|]. apply elem_of_app. by right.
Qed.

Lemma lookupNode_runs nodes ref tr node nodes' : ref <> EmptyString -> runs (lookupNode nodes ref) tr (node, nodes') ->
  nodes_read tr nodes nodes' /\ nodes' !! ref = Some node.
Proof.
  intros Hne. unfold lookupNode. destruct (nodes !! ref) as [n|] eqn:Hl.
  - intros [-> [= <- <-]]. split; [|done]. split; [done|]. by left.
  - intros (n & tr1 & -> & [-> [= <- <-]])%runs_req. split; [|by rewrite lookup_insert_eq]. split; [by apply insert_subseteq|].
    intros r' n' [[<- <-]|[? ?]]%lookup_insert_Some; [right|by left]. split; [done|by left].
Qed.

Lemma overlayShard_runs nodes s node tr s' : ss_node_ref (sx_spec (sv_shard s)) <> EmptyString ->
  nodes !! ss_node_ref (sx_spec (sv_shard s)) = Some node -> runs (overlayShard s node) tr s' -> overlaid tr nodes s s'.
Proof.
  intros Hne Hl. unfold overlayShard. destruct node as [n|].
  - intros (ok & tr1 & tr2 & -> & Hv & [-> <-])%run_bind. rewrite app_nil_r. right. right. split; [done|]. eexists n, _.
    split_and!; [done|done|]. destruct ok; [right|by left]. split; [done|]. by apply stillVerified_runs.
  - intros [-> <-]. right. left. done.
Qed.

(** What the compiler and the gates read of a shard is as listed, but for the overlay. *)
Definition placed_as (s : ShardView) : string * Bounds * string * bool :=
  (sx_name (sv_shard s), ss_range (sx_spec (sv_shard s)), ss_role (sx_spec (sv_shard s)), ss_serving (sx_spec (sv_shard s))).

Definition of_cluster (s : ShardView) : bool := bool_decide (ss_cluster_ref (sx_spec (sv_shard s)) = cl_name cluster).

Lemma overlaid_placed tr nodes s s' : overlaid tr nodes s s' -> placed_as s' = placed_as s.
Proof. by intros [[_ ->]|[(_ & _ & ->)|(_ & ? & ? & _ & -> & _)]]. Qed.

Lemma clusterShards_runs listed : forall nodes tr shards nodes', runs (clusterShards cluster nodes listed) tr (shards, nodes') ->
  nodes_read tr nodes nodes' /\ Forall2 (overlaid tr nodes') (List.filter of_cluster listed) shards.
Proof.
  induction listed as [|s listed IH]; intros nodes tr shards nodes'; cbn [clusterShards List.filter].
  { intros [-> [= <- <-]]. split; [|done]. split; [done|]. by left. }
  unfold of_cluster at 1. case_bool_decide as Hc; cbn [negb]; [|apply IH].
  intros ([s' n1] & tr1 & tr2 & -> & H1 & ([rest n2] & tr3 & tr4 & -> & H2 & [-> [= <- <-]])%run_bind)%run_bind. rewrite app_nil_r.
  apply IH in H2 as [Hn2 Hrest].
  assert (Hs : nodes_read tr1 nodes n1 /\ overlaid tr1 n1 s s').
  { destruct (str_is_empty _) eqn:He.
    - destruct H1 as [-> [= <- <-]]. split; [split; [done|by left]|]. left. split; [|done]. by destruct (ss_node_ref _).
    - apply nonempty_neq in He. apply run_bind in H1 as ([node n3] & t1 & t2 & -> & Hlk & (s2 & t3 & t4 & -> & Ho & [-> [= <- <-]])%run_bind).
      rewrite app_nil_r. destruct (lookupNode_runs _ _ _ _ _ He Hlk) as [[Hsub Hr] Hl]. split.
      + split; [done|]. intros ref n Hn. destruct (Hr ref n Hn) as [?|[? ?]]; [by left|right; split; [done|]]. apply elem_of_app. by left.
      + eapply overlaid_mono; [apply sub_r|reflexivity|]. by apply (overlayShard_runs _ s node). }
  destruct Hs as [Hn1 Ho]. split; [by eapply nodes_read_trans|]. constructor.
  - eapply overlaid_mono; [apply sub_l|by destruct Hn2|done].
  - eapply Forall2_impl; [exact Hrest|]. intros ? ?. by apply overlaid_mono; [apply sub_r|].
Qed.
(** An endpoint is the address of a pod that was read under its name, controlled by one of
    the nodes. *)
Definition resolved (tr : RtTrace) (nodes : Nodes) (name : string) (ep : RoutingEndpoint) : Prop :=
  exists ref node pod, nodes !! ref = Some (Some node) /\ answered (RtPod name) (Ok (Some pod)) ∈ tr /\
    pd_owner pod = nx_uid (nv_node node) /\ pd_ip pod <> EmptyString /\ ep = mkRoutingEndpoint name (pd_ip pod) postgresPort false.

Lemma resolved_mono tr tr' nodes name ep : tr ⊆ tr' -> resolved tr nodes name ep -> resolved tr' nodes name ep.
Proof. intros Hs (ref & node & pod & ? & ? & ?). exists ref, node, pod. split_and!; [done|by apply Hs|tauto..]. Qed.

Lemma resolveInstances_runs nodes ref node instances : nodes !! ref = Some (Some node) ->
  forall endpoints tr endpoints', runs (resolveInstances node instances endpoints) tr endpoints' ->
  forall name ep, endpoints' !! name = Some ep -> endpoints !! name = Some ep \/ resolved tr nodes name ep.
Proof.
  intros Hn. induction instances as [|inst instances IH]; intros endpoints tr endpoints'; cbn [resolveInstances]; [intros [-> <-]; by left|].
  destruct (endpoints !! is_pod inst) eqn:Hl; [apply IH|]. intros (r & tr1 & -> & Hr)%runs_req name ep Hep.
  assert (Hcons : forall eps, runs (resolveInstances node instances eps) tr1 endpoints' ->
    eps !! name = Some ep \/ resolved (answered (RtPod (is_pod inst)) r :: tr1) nodes name ep).
  { intros eps Hr'. destruct (IH _ _ _ Hr' name ep Hep) as [?|?]; [by left|right]. eapply resolved_mono; [|done]. intros e He. by right. }
  destruct r as [[pod|]|]; [|by apply Hcons|done].
  destruct (_ || _) eqn:Eb; [by apply Hcons|]. apply orb_false_iff in Eb as [Eo%negb_false_iff%bool_decide_eq_true Ei].
  destruct (Hcons _ Hr) as [[[<- <-]|[_ ?]]%lookup_insert_Some|?]; [right|by left|by right].
  exists ref, node, pod. split_and!; [done|by left|done|by apply nonempty_neq|done].
Qed.

Lemma resolveEndpoints_runs nodes shards : forall endpoints tr endpoints', runs (resolveEndpoints nodes shards endpoints) tr endpoints' ->
  forall name ep, endpoints' !! name = Some ep -> endpoints !! name = Some ep \/ resolved tr nodes name ep.
Proof.
  induction shards as [|s shards IH]; intros endpoints tr endpoints'; cbn [resolveEndpoints]; [intros [-> <-]; by left|].
  destruct (nodes !! _) as [[node|]|] eqn:Hn; [|apply IH..].
  intros (eps & tr1 & tr2 & -> & H1 & H2)%run_bind name ep Hep. destruct (IH _ _ _ H2 name ep Hep) as [Hl|?].
  - destruct (resolveInstances_runs nodes _ node _ Hn _ _ _ H1 name ep Hl) as [?|?]; [by left|right]. eapply resolved_mono; [apply sub_l|done].
  - right. eapply resolved_mono; [apply sub_r|done].
Qed.

(** A reshard that holds a gate is pinned. *)
Lemma syncGateFinalizers_runs shards reshards : forall tr u, runs (syncGateFinalizers cluster shards reshards) tr u ->
  forall r, r ∈ reshards -> gr_cluster (rv_gate r) = cl_name cluster -> holding shards (rv_gate r) = true ->
  rv_finalizer r = true \/ answered (SetFinalizer (gr_name (rv_gate r)) true) true ∈ tr.
Proof.
  induction reshards as [|q reshards IH]; intros tr u; cbn [syncGateFinalizers]; [by intros _ r ?%not_elem_of_nil|].
  case_bool_decide as Hc; cbn [negb]; [|intros Hr r [->|Hin]%elem_of_cons Hcl; [done|by eapply IH]].
  intros (v & tr1 & tr2 & -> & H1 & H2)%run_bind r [->|Hin]%elem_of_cons Hcl Hh.
  - rewrite Hh in H1. unfold syncGateFinalizer in H1. destruct (rv_finalizer q); [by left|right].
    destruct H1 as ([] & t & -> & H1); [|done]. by left.
  - destruct (IH _ _ H2 r Hin Hcl Hh) as [?|?]; [by left|right]. apply elem_of_app. by right.
Qed.
End parts.

(** ** The compiled primaries *)

(** The primary of an entry, or of the sequences ([None]). *)
Definition published_in (entries : list RoutingShard) (sequences : option RoutingEndpoint) (who : option string) (ep : RoutingEndpoint) : Prop :=
  match who with
  | Some name => exists e, e ∈ entries /\ rsh_name e = name /\ rsh_primary e = Some ep
  | None => sequences = Some ep
  end.
Definition published (spec : RoutingSpec) : option string -> RoutingEndpoint -> Prop :=
  published_in (rp_shards spec) (rp_sequence_endpoint spec).

Definition is_published (who : option string) (s : PgShardShard) : Prop :=
  match who with Some name => sh_name s = name | None => sh_role s = ShardRoleSystem end.

Lemma gather_published eps l : forall g g', gather_shards eps l g = Ok g' ->
  forall who ep, published_in (ga_shards g') (ga_sequence_endpoint g') who ep -> published_in (ga_shards g) (ga_sequence_endpoint g) who ep \/
  exists s, s ∈ l /\ is_published who s /\ primaryEndpoint eps (sh_instances s) (sh_current_primary s) = Some ep.
Proof.
  induction l as [|s l IH]; intros g g' Hg who ep Hep; [injection Hg as <-; by left|].
  cbn [gather_shards] in Hg. apply result_bind_Ok in Hg as (g1 & Hg1 & Hg).
  destruct (IH g1 g' Hg who ep Hep) as [H1|(s' & ? & ?)]; [|right; exists s'; split; [by right|done]].
  unfold gather_shard in Hg1. case_bool_decide as Hsys.
  - destruct (ga_system_seen g); [done|]. injection Hg1 as <-. destruct who as [name|]; [by left|]. cbn in H1.
    destruct (primaryEndpoint eps _ _) as [ep'|] eqn:Hp; [|by left]. injection H1 as ->. right. exists s. split_and!; [by left|done|done].
  - apply result_bind_Ok in Hg1 as (kr & _ & [= <-]). destruct who as [name|]; [|by left]. cbn in H1.
    destruct H1 as (e & [?|He]%elem_of_app & Hn & Hp); [left; by exists e|]. apply list_elem_of_singleton in He as ->. right. exists s.
    split_and!; [by left|done|done].
Qed.

Lemma compile_published input spec who ep : Compile input = Ok spec -> published spec who ep ->
  exists s, s ∈ ci_shards input /\ is_published who s /\ primaryEndpoint (ci_endpoints input) (sh_instances s) (sh_current_primary s) = Some ep.
Proof.
  unfold Compile. destruct (duplicate_gate _ _); [done|]. intros Hc Hp.
  apply result_bind_Ok in Hc as (g & Hg & Hc). apply result_bind_Ok in Hc as (v & _ & Hc). apply result_bind_Ok in Hc as (t & _ & [= <-]).
  destruct (gather_published _ _ _ _ Hg who ep) as [Hn|(s & Hs & ? & ?)].
  - exact Hp.
  - destruct who; [|done]. by destruct Hn as (e & ?%not_elem_of_nil & _).
  - exists s. split_and!; [|done|done]. by rewrite sort_by_perm in Hs.
Qed.

Lemma primaryEndpoint_Some eps instances primary ep : primaryEndpoint eps instances primary = Some ep ->
  primary <> EmptyString /\ eps !! primary = Some ep /\
  exists inst, inst ∈ instances /\ is_pod inst = primary /\ is_ready inst = true /\ is_role inst = instanceRolePrimary.
Proof.
  unfold primaryEndpoint. destruct (str_is_empty primary) eqn:He; [done|]. destruct (find_first _ _) as [inst|] eqn:Hf; [|done].
  cbn. destruct (_ || _) eqn:Eb; [done|]. intros Hep. apply orb_false_iff in Eb as [?%negb_false_iff ?%negb_false_iff%bool_decide_eq_true].
  apply find_first_Some in Hf as [Hin Hp%bool_decide_eq_true]. split_and!; [by apply nonempty_neq|done|]. by exists inst.
Qed.

(** ** The write *)

Section write.
Context `{Quantity}.
Variables (cluster : Cluster) (lease : option Z) (rfc3339 : Z -> string).
Abbreviation RtTrace := (list (Event RouteRequest)).

(** What a routing is compiled from. *)
Definition compiled_from (tr : RtTrace) (spec : RoutingSpec) : Prop :=
  exists listed shards nodes configs endpoints reshards gates tr1 tr2 tr3,
    tr = [answered ListShards listed] ++ tr1 ++ [answered ListConfigs configs] ++ tr2 ++ [answered ListReshards reshards] ++ tr3 /\
    runs (clusterShards cluster ∅ listed) tr1 (shards, nodes) /\ runs (resolveEndpoints nodes shards ∅) tr2 endpoints /\
    runs (syncGateFinalizers cluster (as_input <$> shards) reshards) tr3 tt /\
    cutoverGates rfc3339 (cl_name cluster) (as_input <$> shards) (rv_gate <$> reshards) = Ok gates /\
    Compile (mkCompileInputs lease (cl_hash_function cluster) (as_input <$> shards)
      (snd <$> List.filter (fun c => bool_decide (fst c = cl_name cluster)) configs) endpoints gates) = Ok spec.

Definition write_only (tr : RtTrace) (e : sigT RouteRequest) : Prop :=
  match projT2 e with WriteRouting spec => compiled_from tr spec | _ => True end.

(** Programs that write no routing. *)
Definition no_write {A} (p : Prog RouteRequest A) : Prop := forall tr, allowed write_only tr p.

Lemma clusterShards_no_write listed : forall nodes, no_write (clusterShards cluster nodes listed).
Proof.
  induction listed as [|s listed IH]; intros nodes tr; cbn [clusterShards]; [step_allowed|]. destruct (negb _); [apply IH|].
  step_allowed; [|destruct a; step_allowed; [apply IH|destruct a; step_allowed]].
  destruct (str_is_empty _); [step_allowed|]. step_allowed.
  { unfold lookupNode. destruct (nodes !! _); [step_allowed|]. step_allowed; [done|step_allowed]. }
  destruct a as [node n]. step_allowed; [|step_allowed]. unfold overlayShard. destruct node; [|step_allowed]. step_allowed; [|step_allowed].
  unfold primaryStillVerified. destruct (str_is_empty _); [step_allowed|]. step_allowed; [done|].
  destruct x as [[pod|]|]; [destruct (negb _)| |]; step_allowed.
Qed.

Lemma resolveInstances_no_write node instances : forall eps, no_write (resolveInstances node instances eps).
Proof.
  induction instances as [|i instances IH]; intros eps tr; cbn [resolveInstances]; [step_allowed|].
  destruct (eps !! _); [apply IH|]. step_allowed; [done|]. destruct x as [[pod|]|]; [destruct (_ || _)| |]; [apply IH..|step_allowed].
Qed.

Lemma resolveEndpoints_no_write nodes shards : forall eps, no_write (resolveEndpoints nodes shards eps).
Proof.
  induction shards as [|s shards IH]; intros eps tr; cbn [resolveEndpoints]; [step_allowed|].
  destruct (nodes !! _) as [[node|]|]; [|apply IH..]. step_allowed; [apply resolveInstances_no_write|apply IH].
Qed.

Lemma syncGateFinalizers_no_write shards reshards : no_write (syncGateFinalizers cluster shards reshards).
Proof.
  induction reshards as [|r reshards IH]; intros tr; cbn [syncGateFinalizers]; [step_allowed|]. destruct (negb _); [apply IH|].
  step_allowed; [|apply IH]. unfold syncGateFinalizer. destruct (holding _ _), (rv_finalizer r); by step_allowed.
Qed.

(** A routing is written only when everything was gathered and compiled. *)
Lemma writes_compiled tr spec : asks (RoutingReconcile cluster lease rfc3339) tr (existT _ (WriteRouting spec)) -> compiled_from tr spec.
Proof.
  intros Ha. refine ((_ : allowed write_only [] (RoutingReconcile cluster lease rfc3339)) tr _ Ha).
  unfold RoutingReconcile. step_allowed; [|by step_allowed]. unfold compileAndWrite. step_allowed; [done|]. rename x into listed.
  step_allowed; [apply clusterShards_no_write|]. destruct a as [shards nodes]. rename tr1 into t1, H0 into H1.
  step_allowed; [done|]. rename x into configs. cbv zeta. step_allowed; [apply resolveEndpoints_no_write|]. rename a into endpoints.
  step_allowed; [done|]. rename x into reshards. step_allowed; [apply syncGateFinalizers_no_write|]. destruct a.
  destruct (cutoverGates _ _ _ _) as [gates|] eqn:Hg; [|step_allowed]. destruct (Compile _) as [desired|] eqn:Hc; [|step_allowed].
  step_allowed; [|destruct x; [|step_allowed]; step_allowed; [|step_allowed]; unfold ensureRoutingOwned; step_allowed; [done|]].
  - exists listed, shards, nodes, configs, endpoints, reshards, gates. do 3 eexists. split_and!; try done.
    by rewrite !app_nil_l, <- !app_assoc.
  - destruct x as [[o|]|]; [case_bool_decide| |]; by step_allowed.
Qed.
End write.

(** ** Theorems *)

(** C12: A router is never sent to an unverified database of a placed shard. Whatever routing is
    written, on whatever answers: an endpoint it gives as the primary of a shard, or of the
    sequences, belongs to a shard of the cluster as listed; and if that shard is placed, its
    node was read with a ready primary instance of the recorded name, the pod of this name was
    read controlled by this very incarnation of the node, and the shard's status records its
    database as verified on the node and the pod with these UIDs. If the pod did not change
    between the reads of the reconcile, the endpoint is the address of that very pod. And if
    the status is one the shard's reconciles wrote, the agent of this pod attested the database
    in one of them. *)
Theorem published_primary_verified `{Quantity} cluster lease rfc3339 tr spec who ep :
  asks (RoutingReconcile cluster lease rfc3339) tr (existT _ (WriteRouting spec)) -> published spec who ep ->
  exists listed s, answered ListShards listed ∈ tr /\ s ∈ listed /\ is_published who (as_input s) /\
    ss_cluster_ref (sx_spec (sv_shard s)) = cl_name cluster /\
    (ss_node_ref (sx_spec (sv_shard s)) <> EmptyString -> exists node inst pod,
      answered (RtNode (ss_node_ref (sx_spec (sv_shard s)))) (Some node) ∈ tr /\
      inst ∈ nv_instances node /\ is_pod inst = hs_primary (sx_status (sv_shard s)) /\ is_ready inst = true /\ is_role inst = instanceRolePrimary /\
      answered (RtPod (is_pod inst)) (Ok (Some pod)) ∈ tr /\ pd_owner pod = nx_uid (nv_node node) /\
      databaseVerified (sv_shard s) (nv_node node) pod = true /\ re_pod ep = is_pod inst /\
      ((forall a b, answered (RtPod (is_pod inst)) a ∈ tr -> answered (RtPod (is_pod inst)) b ∈ tr -> a = b) ->
         re_host ep = pd_ip pod /\ re_port ep = postgresPort) /\
      (forall h, history (sx_uid (sv_shard s)) (sx_name (sv_shard s)) h (sx_status (sv_shard s)) ->
         once_attested (sx_uid (sv_shard s)) (sx_name (sv_shard s)) h (sx_status (sv_shard s)))).
Proof.
  intros Ha Hp.
  destruct (writes_compiled _ _ _ _ _ Ha) as (listed & shards & nodes & configs & eps & reshards & gates & tr1 & tr2 & tr3 & -> & H1 & H2 & _ & _ & Hc).
  destruct (compile_published _ _ _ _ Hc Hp) as (x & Hx & Hw & (Hne & Hep & inst & Hi & Hpod & Hrd & Hrole)%primaryEndpoint_Some).
  cbn [ci_shards ci_endpoints] in *. apply list_elem_of_fmap in Hx as (s' & -> & Hs').
  apply clusterShards_runs in H1 as [[_ Hread] Hall]. apply list_elem_of_lookup in Hs' as [k Hk].
  destruct (Forall2_lookup_r _ _ _ _ _ Hall Hk) as (s & Hs%list_elem_of_lookup_2 & Ho). apply elem_of_filter_b in Hs as [Hin Hcl%bool_decide_eq_true].
  exists listed, s. split_and!; [by left|done|apply overlaid_placed in Ho; injection Ho as E1 E2 E3 E4; by destruct who; cbn in *; congruence|done|].
  intros Href. destruct (resolveEndpoints_runs _ _ _ _ _ H2 _ _ Hep) as [?|(ref & node' & pod' & _ & Hpod' & _ & _ & ->)]; [by rewrite lookup_empty in *|].
  destruct Ho as [[? _]|[(_ & _ & ->)|(_ & node & primary & Hnode & -> & [->|[-> (_ & pod & Hrp & Hown & Hdb)]])]]; [done..|].
  cbn [as_input overlay sh_current_primary sh_instances sv_instances sv_shard sx_status hs_primary] in *.
  destruct (Hread _ _ Hnode) as [?|[_ Hn]]; [by rewrite lookup_empty in *|].
  exists node, inst, pod. rewrite Hpod. split_and!; try done.
  - right. apply elem_of_app. by left.
  - right. apply elem_of_app. by left.
  - intros Hstable. enough (Ok (E := unit) (Some pod') = Ok (Some pod)) as [= ->] by done.
    apply Hstable; right; apply elem_of_app; [right; right|by left]. apply elem_of_app. by left.
  - intros h Hh. apply history_attested; [done|]. unfold databaseVerified in Hdb. rewrite !andb_true_iff, !bool_decide_eq_true in Hdb. tauto.
Qed.

(** C22: Writes are never re-admitted while a reshard relies on its gate. Whatever routing is
    written, on whatever answers: it has a gate over the source's range for every reshard of
    the cluster that declares a deadline, or whose switch is committed while its source still
    serves, as the lists of this reconcile say; and each of these reshards was already pinned
    by the finalizer, or has just been, so it cannot be deleted with its gate. Every gate it
    has is one that a reshard of the cluster asks for. *)
Theorem written_routing_gated `{Quantity} cluster lease rfc3339 tr spec :
  asks (RoutingReconcile cluster lease rfc3339) tr (existT _ (WriteRouting spec)) ->
  exists listed reshards inputs, answered ListShards listed ∈ tr /\ answered ListReshards reshards ∈ tr /\
    (fun s => (sh_name s, sh_key_range s, sh_role s, sh_serving s)) <$> inputs = placed_as <$> List.filter (of_cluster cluster) listed /\
    (forall r, r ∈ reshards -> gr_cluster (rv_gate r) = cl_name cluster -> holding inputs (rv_gate r) = true ->
       (rv_finalizer r = true \/ answered (SetFinalizer (gr_name (rv_gate r)) true) true ∈ tr) /\
       exists d s, gr_deadline (rv_gate r) = Some d /\ shard_named inputs (gr_source (rv_gate r)) = Some s /\
         gate_for rfc3339 (gr_name (rv_gate r)) s d ∈ rp_gates spec) /\
    (forall g, g ∈ rp_gates spec -> exists r, r ∈ reshards /\ wanted_gate rfc3339 (cl_name cluster) inputs (rv_gate r) = Some g).
Proof.
  intros Ha.
  destruct (writes_compiled _ _ _ _ _ Ha) as (listed & shards & nodes & configs & eps & reshards & gates & tr1 & tr2 & tr3 & -> & H1 & _ & H3 & Hg & Hc).
  apply clusterShards_runs in H1 as [_ Hall]. exists listed, reshards, (as_input <$> shards).
  assert (Hgates : rp_gates spec = sort_by (le_of cmp_gates) gates).
  { unfold Compile in Hc. destruct (duplicate_gate _ _); [done|]. apply result_bind_Ok in Hc as (g & _ & Hc).
    apply result_bind_Ok in Hc as (v & _ & Hc). by apply result_bind_Ok in Hc as (t & _ & [= <-]). }
  apply cutover_gates_exact in Hg as [Hexact Hwant]. split_and!.
  - by left.
  - rewrite !elem_of_app. do 4 right. left. by left.
  - rewrite <- list_fmap_compose. clear - Hall. induction Hall as [|s s' ? ? Ho _ IH]; [done|]. rewrite !fmap_cons, IH.
    by rewrite <- (overlaid_placed _ _ _ _ Ho).
  - intros r Hr Hcl Hh. split.
    + destruct (syncGateFinalizers_runs _ _ _ _ _ H3 r Hr Hcl Hh) as [?|?]; [by left|right]. rewrite !elem_of_app. by do 5 right.
    + destruct (Hwant (rv_gate r)) as (d & s & ? & ? & Hin); [by apply list_elem_of_fmap_2|done| |exists d, s; split_and!; [done..|]].
      * unfold holding in Hh. apply orb_true_iff in Hh as [Hd%bool_decide_eq_true|[Hcm Hs]%andb_true_iff]; [left; by intros E; rewrite E in Hd; destruct Hd|right].
        split; [done|]. destruct (shard_named _ _) as [s|]; [by exists s|done].
      * by rewrite Hgates, sort_by_perm.
  - intros g. rewrite Hgates, sort_by_perm, Hexact. intros (q & (r & -> & Hr)%list_elem_of_fmap & Hq)%list_elem_of_omap. by exists r.
Qed.

(** ** An example: two shards, the first under a gate *)

Module PublishExample.
Import ConfigExample PlacementExample SeedExample.
#[local] Existing Instances milli.

Definition upper_half : Shard := shard_of "shop-80-max" "u1" (mkBounds "80" EmptyString) true.
Definition view_node (name : string) : NodeView := mkNodeView (node_of name) [mkInstanceState (name +:+ "-0") instanceRolePrimary true].
Definition view_shard (s : Shard) : ShardView := mkShardView s [].
Definition text (deadline : Z) : string := str_of (fmt_i deadline).
Definition gated : ReshardView := mkReshardView (mkGateRequest "split" "shop" "shop-min-80" (Some 120) false) false.

(** The reads, with the pod that the second read of the first primary finds. *)
Definition reads (again : PodObj) : list (Event RouteRequest) :=
  [answered ListShards [view_shard source; view_shard upper_half];
   answered (RtNode "shop-min-80") (Some (view_node "shop-min-80"));
   answered (RtPod "shop-min-80-0") (Ok (Some (pod_of "shop-min-80")));
   answered (RtNode "shop-80-max") (Some (view_node "shop-80-max"));
   answered (RtPod "shop-80-max-0") (Ok (Some (pod_of "shop-80-max")));
   answered ListConfigs []; answered (RtPod "shop-min-80-0") (Ok (Some again));
   answered (RtPod "shop-80-max-0") (Ok (Some (pod_of "shop-80-max")));
   answered ListReshards [gated]; answered (SetFinalizer "split" true) true].

Definition endpoint (name host : string) : RoutingEndpoint := mkRoutingEndpoint (name +:+ "-0") host 5432 false.
Definition routing (host : string) : RoutingSpec :=
  mkRoutingSpec 0 0 10 "xxhash64_v1"
    [mkRoutingShard "shop-min-80" (mkBounds EmptyString "80") Serving (Some (endpoint "shop-min-80" host)) [];
     mkRoutingShard "shop-80-max" (mkBounds "80" EmptyString) Serving (Some (endpoint "shop-80-max" "10.0.0.shop-80-max")) []]
    [] [gate_for text "split" (as_input (view_shard source)) 120] None.

Lemma writes : asks (RoutingReconcile demo None text) (reads (pod_of "shop-min-80")) (existT _ (WriteRouting (routing "10.0.0.shop-min-80"))).
Proof. unfold reads. repeat next_ask. eapply asks_here. reflexivity. Qed.

Lemma published_primary_verified_witness : exists listed s,
  answered ListShards listed ∈ reads (pod_of "shop-min-80") /\ s ∈ listed /\ sx_name (sv_shard s) = "shop-min-80"%string.
Proof.
  destruct (published_primary_verified demo None text (reads (pod_of "shop-min-80")) (routing "10.0.0.shop-min-80") (Some "shop-min-80"%string)
    (endpoint "shop-min-80" "10.0.0.shop-min-80") writes) as (listed & s & Hl & Hs & Hn & _).
  - exists (mkRoutingShard "shop-min-80" (mkBounds EmptyString "80") Serving (Some (endpoint "shop-min-80" "10.0.0.shop-min-80")) []).
    split; [by left|done].
  - exists listed, s. split; [exact Hl|]. split; [exact Hs|exact Hn].
Defined.

Lemma written_routing_gated_witness : exists listed reshards,
  answered ListShards listed ∈ reads (pod_of "shop-min-80") /\ answered ListReshards reshards ∈ reads (pod_of "shop-min-80").
Proof.
  destruct (written_routing_gated demo None text (reads (pod_of "shop-min-80")) (routing "10.0.0.shop-min-80") writes) as (l & r & _ & Hl & Hr & _).
  exists l, r. split; [exact Hl|exact Hr].
Defined.

(** The pod is replaced between the two reads, by one of the same name under the same node:
    the address that is published is the replacement's, whose database nobody verified. *)
Definition replacement : PodObj := mkPodObj "shop-min-80-0" "new" "shop-min-80-n" "10.0.0.99".

Example replaced_pod_published :
  asks (RoutingReconcile demo None text) (reads replacement) (existT _ (WriteRouting (routing (pd_ip replacement)))) /\
  databaseVerified source (node_of "shop-min-80") replacement = false.
Proof. split; [|reflexivity]. unfold reads. repeat next_ask. eapply asks_here. reflexivity. Qed.
End PublishExample.
