(* ===== verification/OpNode.v ===== *)
(** * The node controller

    [src/operator/internal/controller/pgshardnode_controller.go]: the pods, volumes and
    services of a node, the provenance of its volumes, the role labels that put a pod behind
    the services, and the scale-down; the status in between is [Failover]'s
    [aggregateStatus]. A reconcile is a program of requests; a request that fails ends it
    unless its answer says so. A label that is missing reads as the empty string. Container
    ports, probes and environment of the pod template are not modelled. *)

From S2P Require Import Prelude Rust Go Agent Keyspace ShardFn Topo Service OpProg OpConfig OpTopology OpRouting Failover OpPlacement.
From stdpp Require Import gmap strings.

Open Scope Z_scope.

(** ** Objects *)

(** A pod: its controller's UID, address, mounted claims, and the labels of its role and of
    the node incarnation. *)
Record NodePod := mkNodePod {
  np_name : string; np_uid : string; np_owner : string; np_ip : string; np_claims : list string;
  np_role : string; np_node_uid : string }.

(** What else a pod is created with. *)
Record PodTemplate := mkPodTemplate { pt_image : string; pt_agent_image : string; pt_config_map : string; pt_config_hash : string }.

(** [ShardImages]. *)
Record Images := mkImages { im_postgres : string; im_agent : string }.

(** The node as read: its spec, its status and the condition of its volumes' provenance.
    [nd_wal_separate]: a storage spec that asks for a separate volume. *)
Record NodeObj := mkNodeObj {
  nd_name : string; nd_uid : string; nd_fenced : bool; nd_replicas : Z; nd_image : string; nd_wal_separate : bool;
  nd_config_hash : string; nd_status : FailoverStatus; nd_provenance : option bool }.

(** A claim of another node identity, and the pod that mounts or would mount it. *)
Record foreignPVC := mkForeign { fp_claim : string; fp_found : string; fp_pod : string }.

(** Requests. Reading a claim gives its label; creating a claim names the label it gets; a
    list fails with [None]; a patch of labels leaves those it does not name; a deletion names the UID it is for, and succeeds when the pod is
    gone. *)
Inductive NodeRequest : Type -> Type :=
| NEnsureService (suffix : string) (role : string) (headless : bool) : NodeRequest bool
| NListPods : NodeRequest (option (list NodePod))
| NGetClaim (name : string) : NodeRequest (option string)
| NCreateClaim (name node_uid : string) : NodeRequest Created
| NGetPod (name : string) : NodeRequest (option NodePod)
| NCreatePod (p : NodePod) (t : PodTemplate) : NodeRequest Created
| NLabelPod (name : string) (role node_uid : option string) : NodeRequest bool
| NPoll (ip : string) : NodeRequest (option PolledStatus)
| NPromote (call : PromoteCall) : NodeRequest bool
| NWriteStatus (s : FailoverStatus) (provenance : option bool) : NodeRequest bool
| NDeletePod (name uid : string) : NodeRequest bool.

(** ** Names, services and the pod template *)

Definition roleLabelPrimary : string := "primary".
Definition roleLabelReplica : string := "replica".

Definition nodeInstanceName (node : NodeObj) (ordinal : nat) : string :=
  nd_name node +:+ "-" +:+ str_of (fmt_i (Z.of_nat ordinal)).

(** The ordinals of the loops. *)
Definition ordinals (node : NodeObj) : list nat := seq 0 (Z.to_nat (nd_replicas node)).

(** The services: suffix, the role their selector asks for (empty: any), and whether headless. *)
Definition services : list (string * string * bool) :=
  [("-rw"%string, roleLabelPrimary, false); ("-ro"%string, roleLabelReplica, false); ("-r"%string, EmptyString, false);
   ("-pods"%string, EmptyString, true)].

(** Whether a service of the node selects a pod of the node's name label. *)
Definition selects (node : NodeObj) (role : string) (p : NodePod) : bool :=
  bool_decide (np_node_uid p = nd_uid node) && (str_is_empty role || bool_decide (np_role p = role)).

Definition desired_claims (node : NodeObj) (name : string) : list string :=
  (name +:+ "-data") :: (if nd_wal_separate node then [name +:+ "-wal"] else []).

(** [instancePod] with its controller reference; the server gives it a UID and an address. *)
Definition instancePod (images : Images) (node : NodeObj) (ordinal : nat) : NodePod * PodTemplate :=
  let name := nodeInstanceName node ordinal in
  (mkNodePod name EmptyString (nd_uid node) EmptyString (desired_claims node name) roleLabelReplica (nd_uid node),
   mkPodTemplate (if str_is_empty (nd_image node) then im_postgres images else nd_image node) (im_agent images)
     (nd_name node +:+ "-postgres-config") (nd_config_hash node)).

(** ** The reconcile *)

Section node.
Abbreviation NodeProg := (Prog NodeRequest).
Variable images : Images.
Variable node : NodeObj.

Fixpoint ensureServices (l : list (string * string * bool)) : NodeProg unit :=
  match l with
  | [] => Done tt
  | (suffix, role, headless) :: l' => _ ← must (NEnsureService suffix role headless); ensureServices l'
  end.

(** [ensurePVC]: the label of a foreign claim. A claim that appeared concurrently is not
    verified, and ends the reconcile. *)
Definition ensurePVC (claim : string) : NodeProg (option string) :=
  found ← req (NGetClaim claim);
  match found with
  | Some uid => if bool_decide (uid = nd_uid node) then Done None else Done (Some uid)
  | None =>
      r ← req (NCreateClaim claim (nd_uid node));
      match r with CreatedOk => Done None | _ => Stop end
  end.

Definition controlled (pods : list NodePod) : list NodePod := List.filter (fun p => bool_decide (np_owner p = nd_uid node)) pods.

(** The instances to verify: the desired ordinals and the controlled pods. *)
Definition instances_of (pods : list NodePod) : list string :=
  sort_by (le_of String.compare) (remove_dups ((nodeInstanceName node <$> ordinals node) ++ (np_name <$> controlled pods))).

(** The claims that the pod mounts, or those the layout will mount. *)
Definition claims_of (pods : list NodePod) (name : string) : list string :=
  let mounted := List.filter (fun p => bool_decide (np_name p = name)) (controlled pods) ≫= np_claims in
  sort_by (le_of String.compare) (match mounted with [] => desired_claims node name | _ => mounted end).

(** The two loops over instances and claims. *)
Fixpoint verifyClaims (l : list (string * string)) : NodeProg (list foreignPVC) :=
  match l with
  | [] => Done []
  | (name, claim) :: l' =>
      r ← ensurePVC claim;
      rest ← verifyClaims l';
      Done (match r with Some uid => mkForeign claim uid name :: rest | None => rest end)
  end.

Fixpoint backfill (foreigns : list foreignPVC) (pods : list NodePod) : NodeProg unit :=
  match pods with
  | [] => Done tt
  | p :: pods' =>
      if negb (bool_decide (np_owner p = nd_uid node)) || bool_decide (np_name p ∈ fp_pod <$> foreigns) then backfill foreigns pods'
      else if bool_decide (np_node_uid p = nd_uid node) then backfill foreigns pods'
      else _ ← must (NLabelPod (np_name p) None (Some (nd_uid node))); backfill foreigns pods'
  end.

Definition preflightStorage : NodeProg (list foreignPVC) :=
  listed ← req NListPods;
  match listed with
  | None => Stop
  | Some pods =>
      foreigns ← verifyClaims (instances_of pods ≫= fun name => (fun claim => (name, claim)) <$> claims_of pods name);
      _ ← backfill foreigns pods;
      Done foreigns
  end.

Fixpoint quarantine (foreigns : list foreignPVC) : NodeProg unit :=
  match foreigns with
  | [] => Done tt
  | f :: foreigns' =>
      found ← req (NGetPod (fp_pod f));
      _ ← match found with
          | Some p =>
              if bool_decide (np_owner p = nd_uid node) && (negb (str_is_empty (np_role p)) || negb (str_is_empty (np_node_uid p)))
              then must (NLabelPod (fp_pod f) (Some EmptyString) (Some EmptyString)) else Done tt
          | None => Done tt
          end;
      quarantine foreigns'
  end.

Definition degraded (s : FailoverStatus) : FailoverStatus :=
  mkStatus PhaseDegraded (fs_current s) (fs_target s) (fs_epoch s) (fs_timeline s) (fs_system_id s) (fs_instances s).

Definition degradeForeignStorage (foreigns : list foreignPVC) : NodeProg unit :=
  _ ← quarantine foreigns;
  must (NWriteStatus (degraded (nd_status node)) (Some false)).

(** [ensureInstance]: the foreign claim that stopped it. *)
Fixpoint ensureClaims (name : string) (claims : list string) : NodeProg (option foreignPVC) :=
  match claims with
  | [] => Done None
  | claim :: claims' =>
      r ← ensurePVC claim;
      match r with Some uid => Done (Some (mkForeign claim uid name)) | None => ensureClaims name claims' end
  end.

Definition ensureInstance (ordinal : nat) : NodeProg (option foreignPVC) :=
  let name := nodeInstanceName node ordinal in
  foreign ← ensureClaims name (desired_claims node name);
  match foreign with
  | Some f => Done (Some f)
  | None =>
      found ← req (NGetPod name);
      match found with
      | Some p => if bool_decide (np_owner p = nd_uid node) then Done None else Stop
      | None =>
          r ← req (NCreatePod (fst (instancePod images node ordinal)) (snd (instancePod images node ordinal)));
          match r with CreateFailed => Stop | _ => Done None end
      end
  end.

Fixpoint ensureInstances (l : list nat) : NodeProg (option foreignPVC) :=
  match l with
  | [] => Done None
  | ordinal :: l' =>
      foreign ← ensureInstance ordinal;
      match foreign with Some f => Done (Some f) | None => ensureInstances l' end
  end.

Definition clearStorageProvenance : NodeProg (option bool) :=
  match nd_provenance node with
  | Some false => _ ← must (NWriteStatus (nd_status node) (Some true)); Done (Some true)
  | p => Done p
  end.

Fixpoint pollPods (pods : list NodePod) : NodeProg (list PolledPod) :=
  match pods with
  | [] => Done []
  | p :: pods' =>
      answer ← (if str_is_empty (np_ip p) then Done None else req (NPoll (np_ip p)));
      rest ← pollPods pods';
      Done (mkPolledPod (np_name p) (np_ip p) answer :: rest)
  end.

(** The pods confirmed as ready replicas. *)
Definition ready_replicas (s : FailoverStatus) (polled : list NodePod) : list NodePod :=
  snd <$> List.filter (fun e => is_ready (fst e) && bool_decide (is_role (fst e) = roleLabelReplica) &&
                                negb (bool_decide (is_pod (fst e) = fs_current s))) (zip (fs_instances s) polled).

(** What the aggregation hands on: the status in memory, the ready replicas, the fenced pods,
    and whether it had no error. *)
Record Aggregated := mkAggregated { ag_status : FailoverStatus; ag_replicas : list NodePod; ag_fenced : list string; ag_fine : bool }.

(** The source writes the status only when it changed. *)
Definition aggregate (provenance : option bool) : NodeProg Aggregated :=
  listed ← req NListPods;
  match listed with
  | None => Done (mkAggregated (nd_status node) [] [] false)
  | Some pods =>
      polled ← pollPods (controlled pods);
      let '(s, call, fenced) := aggregateStatus (nd_name node) (nd_replicas node) (nd_status node) polled in
      promoted ← match call with Some c => req (NPromote c) | None => Done true end;
      written ← req (NWriteStatus s provenance);
      Done (mkAggregated s (ready_replicas s (controlled pods)) fenced (promoted && written))
  end.

(** The role label a controlled pod is to have. *)
Definition wanted_role (s : FailoverStatus) (fenced : list string) (p : NodePod) : string :=
  if bool_decide (np_name p = fs_current s) then roleLabelPrimary
  else if existsb (fun i => bool_decide (is_role i = roleLabelReplica) && bool_decide (is_pod i = np_name p)) (fs_instances s) then roleLabelReplica
  else if bool_decide (np_role p = roleLabelReplica) && negb (bool_decide (np_name p ∈ fenced)) then roleLabelReplica
  else EmptyString.

Fixpoint labelPods (s : FailoverStatus) (fenced : list string) (pods : list NodePod) : NodeProg unit :=
  match pods with
  | [] => Done tt
  | p :: pods' =>
      let want := wanted_role s fenced p in
      if bool_decide (np_role p = want) then labelPods s fenced pods'
      else _ ← must (NLabelPod (np_name p) (Some want) None); labelPods s fenced pods'
  end.

Definition syncRoleLabels (s : FailoverStatus) (fenced : list string) : NodeProg unit :=
  listed ← req NListPods;
  match listed with
  | None => Stop
  | Some pods => labelPods s fenced (controlled pods)
  end.

Fixpoint prunePods (pods : list NodePod) : NodeProg unit :=
  match pods with
  | [] => Done tt
  | p :: pods' =>
      match ordinalOf (np_name p) (nd_name node +:+ "-") with
      | Some ord => if ord <? nd_replicas node then prunePods pods' else _ ← must (NDeletePod (np_name p) (np_uid p)); prunePods pods'
      | None => prunePods pods'
      end
  end.

Definition pruneExcessInstances (s : FailoverStatus) (candidates : list NodePod) : NodeProg unit :=
  match fs_phase s with PhaseReady => prunePods candidates | _ => Done tt end.

(** The end of [Reconcile]: status, role labels and scale-down. The shard controller ends
    in the same way. *)
Definition reconcileStatus (provenance : option bool) : NodeProg unit :=
  a ← aggregate provenance;
  _ ← syncRoleLabels (ag_status a) (ag_fenced a);
  if negb (ag_fine a) then Stop else pruneExcessInstances (ag_status a) (ag_replicas a).

Definition NodeReconcile : NodeProg unit :=
  if nd_fenced node then Done tt
  else if str_is_empty (im_agent images) then Stop
  else if str_is_empty (nd_image node) && str_is_empty (im_postgres images) then Stop
  else
    _ ← ensureServices services;
    foreigns ← preflightStorage;
    match foreigns with
    | _ :: _ => degradeForeignStorage foreigns
    | [] =>
        foreign ← ensureInstances (ordinals node);
        match foreign with
        | Some f => degradeForeignStorage [f]
        | None => provenance ← clearStorageProvenance; reconcileStatus provenance
        end
    end.

End node.

(** ** What the requests rest on *)

Section rest.
Variable images : Images.
Variable node : NodeObj.
Abbreviation NodeTrace := (list (Event NodeRequest)).

(** The claim was read with this node's identity, or has just been created with it. *)
Definition verified_claim (tr : NodeTrace) (claim : string) : Prop :=
  answered (NGetClaim claim) (Some (nd_uid node)) ∈ tr \/ answered (NCreateClaim claim (nd_uid node)) CreatedOk ∈ tr.

(** Every claim of every instance was verified. *)
Definition storage_verified (tr : NodeTrace) : Prop :=
  exists pods, answered NListPods (Some pods) ∈ tr /\
    forall name claim, name ∈ instances_of node pods -> claim ∈ claims_of node pods name -> verified_claim tr claim.

(** The pods were polled. *)
Definition polled_from (tr : NodeTrace) (p : NodePod) (q : PolledPod) : Prop :=
  pp_name q = np_name p /\ pp_ip q = np_ip p /\
  if str_is_empty (np_ip p) then pp_answer q = None else answered (NPoll (np_ip p)) (pp_answer q) ∈ tr.

Definition aggregated (tr : NodeTrace) (pods : list NodePod) (polled : list PolledPod) (s : FailoverStatus) (call : option PromoteCall)
    (fenced : list string) : Prop :=
  answered NListPods (Some pods) ∈ tr /\ Forall2 (polled_from tr) (controlled node pods) polled /\
  aggregateStatus (nd_name node) (nd_replicas node) (nd_status node) polled = (s, call, fenced).

(** The status that labels and scale-down follow: the one just computed, or the stored one
    when the pods could not be listed. *)
Definition followed (tr : NodeTrace) (s : FailoverStatus) (fenced : list string) : Prop :=
  (exists pods polled call, aggregated tr pods polled s call fenced) \/
  (answered NListPods None ∈ tr /\ s = nd_status node /\ fenced = []).

(** Pods with a foreign claim are out of every service. *)
Definition quarantined (tr : NodeTrace) (f : foreignPVC) : Prop :=
  answered (NGetPod (fp_pod f)) None ∈ tr \/
  exists p, answered (NGetPod (fp_pod f)) (Some p) ∈ tr /\
    (np_owner p <> nd_uid node \/ (np_role p = EmptyString /\ np_node_uid p = EmptyString) \/
     answered (NLabelPod (fp_pod f) (Some EmptyString) (Some EmptyString)) true ∈ tr).

Definition foreign_claim (tr : NodeTrace) (f : foreignPVC) : Prop :=
  answered (NGetClaim (fp_claim f)) (Some (fp_found f)) ∈ tr /\ fp_found f <> nd_uid node.

(** What labels, promotions and deletions rest on. *)
Definition status_only (tr : NodeTrace) (e : sigT NodeRequest) : Prop :=
  match projT2 e with
  | NLabelPod name role uid => uid = None /\ exists s fenced pods p, followed tr s fenced /\ answered NListPods (Some pods) ∈ tr /\
      p ∈ controlled node pods /\ np_name p = name /\ np_role p <> wanted_role s fenced p /\ role = Some (wanted_role s fenced p)
  | NPromote call => exists pods polled s fenced, aggregated tr pods polled s (Some call) fenced
  | NDeletePod name uid => exists pods polled s call fenced p ord, aggregated tr pods polled s call fenced /\
      fs_phase s = PhaseReady /\ p ∈ ready_replicas s (controlled node pods) /\ np_name p = name /\ np_uid p = uid /\
      ordinalOf name (nd_name node +:+ "-") = Some ord /\ nd_replicas node <= ord
  | NWriteStatus _ provenance => provenance <> Some false
  | NCreatePod _ _ | NCreateClaim _ _ => False
  | _ => True
  end.

Definition node_only (tr : NodeTrace) (e : sigT NodeRequest) : Prop :=
  match projT2 e with
  | NCreateClaim claim uid => uid = nd_uid node /\ answered (NGetClaim claim) None ∈ tr
  | NCreatePod p t => exists ordinal, ordinal ∈ ordinals node /\ (p, t) = instancePod images node ordinal /\
      answered (NGetPod (np_name p)) None ∈ tr /\ Forall (verified_claim tr) (np_claims p) /\ storage_verified tr
  | NLabelPod name None uid => uid = Some (nd_uid node) /\ exists pods p, answered NListPods (Some pods) ∈ tr /\
      p ∈ controlled node pods /\ np_name p = name /\ forall claim, claim ∈ claims_of node pods name -> verified_claim tr claim
  | NLabelPod name (Some role) (Some uid) =>
      role = EmptyString /\ uid = EmptyString /\ exists f, fp_pod f = name /\ foreign_claim tr f
  | NLabelPod _ (Some _) None | NPromote _ | NDeletePod _ _ => status_only tr e /\ storage_verified tr
  | NWriteStatus s (Some false) => s = degraded (nd_status node) /\
      exists foreigns, foreigns <> [] /\ forall f, f ∈ foreigns -> foreign_claim tr f /\ quarantined tr f
  | _ => True
  end.

Lemma verified_mono tr tr' claim : tr ⊆ tr' -> verified_claim tr claim -> verified_claim tr' claim.
Proof. intros Hs [?|?]; [left|right]; by apply Hs. Qed.
Lemma storage_mono tr tr' : tr ⊆ tr' -> storage_verified tr -> storage_verified tr'.
Proof. intros Hs (pods & ? & Hv). exists pods. split; [by apply Hs|]. intros. eapply verified_mono; [done|by eapply Hv]. Qed.
Lemma foreign_mono tr tr' f : tr ⊆ tr' -> foreign_claim tr f -> foreign_claim tr' f.
Proof. intros Hs [? ?]. split; [by apply Hs|done]. Qed.
Lemma quarantined_mono tr tr' f : tr ⊆ tr' -> quarantined tr f -> quarantined tr' f.
Proof.
  intros Hs [?|(p & ? & Hp)]; [left; by apply Hs|right]. exists p. split; [by apply Hs|].
  destruct Hp as [?|[?|?]]; [by left|right; by left|right; right; by apply Hs].
Qed.
Lemma polled_mono tr tr' p q : tr ⊆ tr' -> polled_from tr p q -> polled_from tr' p q.
Proof. intros Hs (? & ? & Hp). split_and!; [done..|]. destruct (str_is_empty _); [done|by apply Hs]. Qed.
Lemma aggregated_mono tr tr' pods polled s call fenced : tr ⊆ tr' -> aggregated tr pods polled s call fenced -> aggregated tr' pods polled s call fenced.
Proof.
  intros Hs (? & Hp & ?). split_and!; [by apply Hs| |done]. eapply Forall2_impl; [exact Hp|]. intros. by eapply polled_mono.
Qed.
Lemma followed_mono tr tr' s fenced : tr ⊆ tr' -> followed tr s fenced -> followed tr' s fenced.
Proof.
  intros Hs [(pods & polled & call & ?)|(? & ? & ?)]; [left|right].
  - exists pods, polled, call. by eapply aggregated_mono.
  - split_and!; [by apply Hs|done|done].
Qed.

(** *** Storage *)

Lemma ensurePVC_allowed tr claim : allowed node_only tr (ensurePVC node claim).
Proof.
  unfold ensurePVC. step_allowed; [done|]. destruct x as [uid|]; [case_bool_decide; step_allowed|].
  step_allowed; [|destruct x; step_allowed]. split; [done|]. apply elem_of_app. right. by left.
Qed.

Lemma ensurePVC_runs claim tr r : runs (ensurePVC node claim) tr r ->
  match r with None => verified_claim tr claim | Some uid => answered (NGetClaim claim) (Some uid) ∈ tr /\ uid <> nd_uid node end.
Proof.
  unfold ensurePVC. intros (x & tr1 & -> & Hr)%runs_req. destruct x as [uid|].
  - case_bool_decide as Hu; destruct Hr as [-> <-]; [left; rewrite <- Hu; by left|]. split; [by left|done].
  - apply runs_req in Hr as (c & tr2 & -> & Hr). destruct c; [|done|done]. destruct Hr as [-> <-]. right. right. by left.
Qed.

Lemma verifyClaims_allowed l : forall tr, allowed node_only tr (verifyClaims node l).
Proof.
  induction l as [|[name claim] l IH]; intros tr; cbn [verifyClaims]; [step_allowed|]. step_allowed; [apply ensurePVC_allowed|].
  step_allowed; [apply IH|step_allowed].
Qed.

Lemma verifyClaims_runs l : forall tr foreigns, runs (verifyClaims node l) tr foreigns ->
  (forall f, f ∈ foreigns -> foreign_claim tr f) /\
  forall name claim, (name, claim) ∈ l -> name ∉ fp_pod <$> foreigns -> verified_claim tr claim.
Proof.
  induction l as [|[name claim] l IH]; intros tr foreigns; cbn [verifyClaims].
  { intros [-> <-]. split; [by intros f ?%not_elem_of_nil|by intros ? ? ?%not_elem_of_nil]. }
  intros (r & tr1 & tr2 & -> & Hr%ensurePVC_runs & (rest & tr3 & tr4 & -> & Hrest & [-> <-])%run_bind)%run_bind. rewrite app_nil_r.
  destruct (IH _ _ Hrest) as [Hf Hv]. destruct r as [uid|].
  - split.
    + intros f [->|Hin]%elem_of_cons; [|eapply foreign_mono; [apply sub_r|by apply Hf]].
      destruct Hr. split; [apply elem_of_app; by left|done].
    + intros n c [[= -> ->]|Hin]%elem_of_cons Hn; [exfalso; apply Hn; by left|].
      eapply verified_mono; [apply sub_r|]. eapply Hv; [done|]. intros Hin'. apply Hn. by right.
  - split; [intros f Hin; eapply foreign_mono; [apply sub_r|by apply Hf]|].
    intros n c [[= -> ->]|Hin]%elem_of_cons Hn; [eapply verified_mono; [apply sub_l|done]|].
    eapply verified_mono; [apply sub_r|]. by eapply Hv.
Qed.
Lemma backfill_allowed foreigns listed l : forall tr, answered NListPods (Some listed) ∈ tr -> l ⊆ listed ->
  (forall p claim, p ∈ controlled node listed -> np_name p ∉ fp_pod <$> foreigns -> claim ∈ claims_of node listed (np_name p) -> verified_claim tr claim) ->
  allowed node_only tr (backfill node foreigns l).
Proof.
  induction l as [|p l IH]; intros tr Hl Hsub Hv; cbn [backfill]; [step_allowed|].
  assert (Hrest : forall tr', tr ⊆ tr' -> allowed node_only tr' (backfill node foreigns l)).
  { intros tr' Ht. apply IH; [by apply Ht|intros x Hx; apply Hsub; by right|]. intros. eapply verified_mono; [done|by eapply Hv]. }
  case_bool_decide as Ho; cbn [negb orb]; [|by apply Hrest]. case_bool_decide as Hf; [by apply Hrest|].
  case_bool_decide; [by apply Hrest|]. step_allowed; [|by apply Hrest, sub_l]. apply allowed_must. split; [done|]. exists listed, p.
  assert (Hc : p ∈ controlled node listed) by (apply elem_of_filter_b; split; [apply Hsub; by left|by apply bool_decide_eq_true]).
  split_and!; [done|done|done|]. intros claim Hin. by eapply Hv.
Qed.

Lemma instance_listed pods p : p ∈ controlled node pods -> np_name p ∈ instances_of node pods.
Proof.
  intros Hp. unfold instances_of. rewrite sort_by_perm. apply elem_of_remove_dups, elem_of_app. right. by apply list_elem_of_fmap_2.
Qed.
Lemma instance_desired pods ordinal : ordinal ∈ ordinals node -> nodeInstanceName node ordinal ∈ instances_of node pods.
Proof.
  intros Hp. unfold instances_of. rewrite sort_by_perm. apply elem_of_remove_dups, elem_of_app. left. by apply list_elem_of_fmap_2.
Qed.

Lemma instance_claims pods name claim : name ∈ instances_of node pods -> claim ∈ claims_of node pods name ->
  (name, claim) ∈ (instances_of node pods ≫= fun n => (fun c => (n, c)) <$> claims_of node pods n).
Proof. intros Hn Hc. apply list_elem_of_bind. exists name. split; [by apply list_elem_of_fmap_2|done]. Qed.

Lemma preflight_allowed tr : allowed node_only tr (preflightStorage node).
Proof.
  unfold preflightStorage. step_allowed; [done|]. destruct x as [pods|]; [|step_allowed].
  step_allowed; [apply verifyClaims_allowed|]. step_allowed; [|step_allowed]. apply (backfill_allowed a pods pods); [|done|].
  - apply elem_of_app. left. apply elem_of_app. right. by left.
  - intros p claim Hp Hn Hc. eapply verified_mono; [apply sub_r|]. apply verifyClaims_runs in H as [_ Hv].
    eapply Hv; [|exact Hn]. by apply instance_claims; [apply instance_listed|].
Qed.

Lemma preflight_runs tr foreigns : runs (preflightStorage node) tr foreigns ->
  (forall f, f ∈ foreigns -> foreign_claim tr f) /\ (foreigns = [] -> storage_verified tr).
Proof.
  unfold preflightStorage. intros (x & tr1 & -> & Hr)%runs_req. destruct x as [pods|]; [|done].
  apply run_bind in Hr as (fs & tr2 & tr3 & -> & Hv & (u & tr4 & tr5 & -> & _ & [-> <-])%run_bind). rewrite app_nil_r.
  apply verifyClaims_runs in Hv as [Hf Hv].
  assert (Hsub : tr2 ⊆ answered NListPods (Some pods) :: tr2 ++ tr4) by (intros e He; right; apply elem_of_app; by left). split.
  - intros f Hin. eapply foreign_mono; [exact Hsub|by apply Hf].
  - intros ->. exists pods. split; [by left|]. intros name claim Hn Hc. eapply verified_mono; [exact Hsub|].
    eapply Hv; [by apply instance_claims|]. by intros ?%not_elem_of_nil.
Qed.

Lemma quarantine_allowed l : forall tr, (forall f, f ∈ l -> foreign_claim tr f) -> allowed node_only tr (quarantine node l).
Proof.
  induction l as [|f l IH]; intros tr Hf; cbn [quarantine]; [step_allowed|]. step_allowed; [done|].
  assert (Hall : forall tr', tr ⊆ tr' -> forall g, g ∈ f :: l -> foreign_claim tr' g) by (intros; eapply foreign_mono; [done|auto]).
  step_allowed; [|apply IH; intros g Hg; rewrite <- app_assoc; apply Hall; [apply sub_l|by right]].
  destruct x as [p|]; [|step_allowed]. destruct (_ && _); [|step_allowed]. apply allowed_must. split_and!; [done..|].
  exists f. split; [done|]. apply Hall; [apply sub_l|by left].
Qed.

Lemma quarantine_runs l : forall tr u, runs (quarantine node l) tr u -> forall f, f ∈ l -> quarantined tr f.
Proof.
  induction l as [|g l IH]; intros tr u; cbn [quarantine]; [by intros _ f ?%not_elem_of_nil|].
  intros (x & tr1 & -> & (v & tr2 & tr3 & -> & Hq & Hr)%run_bind)%runs_req f [->|Hin]%elem_of_cons.
  - destruct x as [p|]; [right|left; by left]. exists p. split; [by left|].
    case_bool_decide as Ho; cbn [andb] in Hq; [|by left]. right.
    destruct (str_is_empty (np_role p)) eqn:E1, (str_is_empty (np_node_uid p)) eqn:E2; cbn [negb orb] in Hq.
    1: left; split; by apply str_is_empty_spec.
    all: right; destruct Hq as ([] & t & -> & Hq); [|done]; right; by left.
  - eapply quarantined_mono; [|by eapply IH]. intros e He. right. apply elem_of_app. by right.
Qed.

Lemma degrade_allowed tr foreigns : foreigns <> [] -> (forall f, f ∈ foreigns -> foreign_claim tr f) ->
  allowed node_only tr (degradeForeignStorage node foreigns).
Proof.
  intros Hne Hf. unfold degradeForeignStorage. step_allowed; [by apply quarantine_allowed|]. apply allowed_must. split; [done|].
  exists foreigns. split; [done|]. intros f Hin. split; [eapply foreign_mono; [apply sub_l|by apply Hf]|].
  eapply quarantined_mono; [apply sub_r|]. by eapply quarantine_runs.
Qed.

(** *** Instances *)

Lemma ensureClaims_allowed name l : forall tr, allowed node_only tr (ensureClaims node name l).
Proof.
  induction l as [|c l IH]; intros tr; cbn [ensureClaims]; [step_allowed|]. step_allowed; [apply ensurePVC_allowed|].
  destruct a; [step_allowed|apply IH].
Qed.

Lemma ensureClaims_runs name l : forall tr r, runs (ensureClaims node name l) tr r ->
  match r with Some f => foreign_claim tr f | None => Forall (verified_claim tr) l end.
Proof.
  induction l as [|c l IH]; intros tr r; cbn [ensureClaims]; [intros [-> <-]; constructor|].
  intros (x & tr1 & tr2 & -> & Hx%ensurePVC_runs & Hr)%run_bind. destruct x as [uid|].
  - destruct Hr as [-> <-]. rewrite app_nil_r. exact Hx.
  - specialize (IH _ _ Hr). destruct r as [f|]; [eapply foreign_mono; [apply sub_r|done]|].
    constructor; [eapply verified_mono; [apply sub_l|done]|]. eapply Forall_impl; [exact IH|]. intros. eapply verified_mono; [apply sub_r|done].
Qed.

Lemma ensureInstance_allowed tr ordinal : ordinal ∈ ordinals node -> storage_verified tr ->
  allowed node_only tr (ensureInstance images node ordinal).
Proof.
  intros Ho Hs. unfold ensureInstance. cbv zeta. step_allowed; [apply ensureClaims_allowed|]. apply ensureClaims_runs in H.
  destruct a as [f|]; [step_allowed|]. step_allowed; [done|]. destruct x as [p|]; [case_bool_decide; step_allowed|].
  step_allowed; [|destruct x; step_allowed]. exists ordinal. split_and!; [done|done| | |].
  - rewrite !elem_of_app. right. by left.
  - eapply Forall_impl; [exact H|]. intros c Hc. eapply verified_mono; [|exact Hc]. rewrite <- app_assoc. etrans; [apply sub_l|apply sub_r].
  - eapply storage_mono; [|done]. rewrite <- app_assoc. apply sub_l.
Qed.

Lemma ensureInstance_runs ordinal tr f : runs (ensureInstance images node ordinal) tr (Some f) -> foreign_claim tr f.
Proof.
  unfold ensureInstance. cbv zeta. intros (r & tr1 & tr2 & -> & Hc%ensureClaims_runs & Hr)%run_bind. destruct r as [g|].
  - destruct Hr as [-> [= <-]]. eapply foreign_mono; [apply sub_l|done].
  - apply runs_req in Hr as (x & tr3 & -> & Hr). destruct x; [case_bool_decide; by destruct Hr|].
    apply runs_req in Hr as (y & tr4 & -> & Hr). destruct y; by destruct Hr.
Qed.

Lemma ensureInstances_allowed l : forall tr, l ⊆ ordinals node -> storage_verified tr -> allowed node_only tr (ensureInstances images node l).
Proof.
  induction l as [|o l IH]; intros tr Hl Hs; cbn [ensureInstances]; [step_allowed|].
  step_allowed; [apply ensureInstance_allowed; [apply Hl; by left|done]|]. destruct a; [step_allowed|].
  apply IH; [intros x Hx; apply Hl; by right|]. eapply storage_mono; [apply sub_l|done].
Qed.

Lemma ensureInstances_runs l : forall tr f, runs (ensureInstances images node l) tr (Some f) -> foreign_claim tr f.
Proof.
  induction l as [|o l IH]; intros tr f; cbn [ensureInstances]; [by intros [_ ?]|].
  intros (r & tr1 & tr2 & -> & Hi & Hr)%run_bind. destruct r as [g|].
  - destruct Hr as [-> [= <-]]. eapply foreign_mono; [apply sub_l|by eapply ensureInstance_runs].
  - eapply foreign_mono; [apply sub_r|by eapply IH].
Qed.
(** *** Status, labels and scale-down *)

Lemma pollPods_allowed l : forall tr, allowed status_only tr (pollPods l).
Proof.
  induction l as [|p l IH]; intros tr; cbn [pollPods]; [step_allowed|]. step_allowed.
  - destruct (str_is_empty _); [step_allowed|]. apply allowed_Req; [done|]. intros x. step_allowed.
  - step_allowed; [apply IH|step_allowed].
Qed.

Lemma pollPods_runs l : forall tr polled, runs (pollPods l) tr polled -> Forall2 (polled_from tr) l polled.
Proof.
  induction l as [|p l IH]; intros tr polled; cbn [pollPods]; [intros [-> <-]; constructor|].
  intros (a & tr1 & tr2 & -> & Ha & (rest & tr3 & tr4 & -> & Hr & [-> <-])%run_bind)%run_bind. rewrite app_nil_r. constructor.
  - split_and!; [done|done|]. cbn [pp_answer]. destruct (str_is_empty (np_ip p)); [by destruct Ha as [_ <-]|].
    destruct Ha as (x & t & -> & [-> <-]). apply elem_of_app. left. by left.
  - eapply Forall2_impl; [by apply IH|]. intros. eapply polled_mono; [apply sub_r|done].
Qed.

Lemma aggregate_allowed tr provenance : provenance <> Some false -> allowed status_only tr (aggregate node provenance).
Proof.
  intros Hn. unfold aggregate. step_allowed; [done|]. destruct x as [pods|]; [|step_allowed]. step_allowed; [apply pollPods_allowed|].
  rename a into polled. destruct (aggregateStatus _ _ _ _) as [[s call] fenced] eqn:Ha. step_allowed.
  - destruct call as [c|]; [|step_allowed]. apply allowed_Req; [|intros x; step_allowed].
    exists pods, polled, s, fenced. split_and!; [| |done].
    + rewrite !elem_of_app. left. right. by left.
    + eapply Forall2_impl; [by apply pollPods_runs|]. intros. eapply polled_mono; [apply sub_r|done].
  - step_allowed; [done|step_allowed].
Qed.

Lemma aggregate_runs provenance tr a : runs (aggregate node provenance) tr a ->
  (ag_fine a = false /\ answered NListPods None ∈ tr /\ ag_status a = nd_status node /\ ag_fenced a = []) \/
  exists pods polled call, aggregated tr pods polled (ag_status a) call (ag_fenced a) /\ ag_replicas a = ready_replicas (ag_status a) (controlled node pods).
Proof.
  unfold aggregate. intros (x & tr1 & -> & Hr)%runs_req. destruct x as [pods|]; [|destruct Hr as [-> <-]; left; split_and!; [done|by left|done|done]].
  apply run_bind in Hr as (polled & tr2 & tr3 & -> & Hp & Hr). destruct (aggregateStatus _ _ _ _) as [[s call] fenced] eqn:Ha. right.
  apply run_bind in Hr as (pr & tr4 & tr5 & -> & _ & (w & tr6 & -> & [-> <-])%runs_req). exists pods, polled, call. split; [|done].
  split_and!; [by left| |done]. eapply Forall2_impl; [by apply pollPods_runs|]. intros. eapply polled_mono; [|done].
  intros e He. right. apply elem_of_app. by left.
Qed.

Lemma labelPods_allowed s fenced listed l : forall tr, followed tr s fenced -> answered NListPods (Some listed) ∈ tr ->
  l ⊆ controlled node listed -> allowed status_only tr (labelPods s fenced l).
Proof.
  induction l as [|p l IH]; intros tr Hf Hl Hsub; cbn [labelPods]; [step_allowed|]. cbv zeta.
  assert (Hrest : forall tr', tr ⊆ tr' -> allowed status_only tr' (labelPods s fenced l)).
  { intros tr' Ht. apply IH; [by eapply followed_mono|by apply Ht|]. intros x Hx. apply Hsub. by right. }
  case_bool_decide as Hw; [by apply Hrest|]. step_allowed; [|by apply Hrest, sub_l]. apply allowed_must. split; [done|].
  exists s, fenced, listed, p. split_and!; try done. apply Hsub. by left.
Qed.

Lemma prunePods_allowed s pods polled call fenced l : forall tr, aggregated tr pods polled s call fenced -> fs_phase s = PhaseReady ->
  l ⊆ ready_replicas s (controlled node pods) -> allowed status_only tr (prunePods node l).
Proof.
  induction l as [|p l IH]; intros tr Ha Hp Hsub; cbn [prunePods]; [step_allowed|].
  assert (Hrest : forall tr', tr ⊆ tr' -> allowed status_only tr' (prunePods node l)).
  { intros tr' Ht. apply IH; [by eapply aggregated_mono|done|]. intros x Hx. apply Hsub. by right. }
  destruct (ordinalOf _ _) as [ord|] eqn:Hord; [|by apply Hrest]. destruct (ord <? nd_replicas node) eqn:Hlt; [by apply Hrest|].
  step_allowed; [|by apply Hrest, sub_l]. apply allowed_must. exists pods, polled, s, call, fenced, p, ord.
  split_and!; try done; [apply Hsub; by left|lia].
Qed.

Lemma status_allowed tr provenance : provenance <> Some false -> allowed status_only tr (reconcileStatus node provenance).
Proof.
  intros Hn. unfold reconcileStatus. apply allowed_bind; [by apply aggregate_allowed|]. intros a tr2 Ha. apply aggregate_runs in Ha.
  assert (Hf : followed tr2 (ag_status a) (ag_fenced a)).
  { destruct Ha as [(_ & ? & ? & ?)|(pods & polled & call & ? & _)]; [by right|left]. by exists pods, polled, call. }
  apply allowed_bind.
  - unfold syncRoleLabels. step_allowed; [done|]. destruct x as [pods|]; [|step_allowed]. apply (labelPods_allowed _ _ pods).
    + eapply followed_mono; [|done]. rewrite <- !app_assoc. etrans; [apply sub_l|apply sub_r].
    + rewrite !elem_of_app. right. by left.
    + done.
  - intros u tr3 _. destruct (ag_fine a) eqn:Hfine; cbn [negb]; [|step_allowed]. unfold pruneExcessInstances.
    destruct (fs_phase (ag_status a)) eqn:Hph; [step_allowed| |step_allowed..].
    destruct Ha as [[? _]|(pods & polled & call & Ha & ->)]; [congruence|]. apply (prunePods_allowed (ag_status a) pods polled call (ag_fenced a)); [|done|done].
    eapply aggregated_mono; [|done]. rewrite <- !app_assoc. etrans; [apply sub_l|apply sub_r].
Qed.

(** After the storage is verified, requests of the status are requests of the node. *)
Lemma status_node tr e : storage_verified tr -> status_only tr e -> node_only tr e.
Proof.
  intros Hv Hs. destruct e as [R q]. destruct q as [| | | | | |name role uid| | |s provenance|]; try done.
  - pose proof Hs as (Hu & ? & ? & ? & ? & _ & _ & _ & _ & _ & Hr). by rewrite Hu, Hr in Hs |- *.
  - by destruct provenance as [[]|].
Qed.

Lemma verified_allowed tr : storage_verified tr -> allowed node_only tr (provenance ← clearStorageProvenance node; reconcileStatus node provenance).
Proof.
  intros Hv. apply allowed_bind.
  { unfold clearStorageProvenance. destruct (nd_provenance node) as [[]|]; [step_allowed| |step_allowed]. step_allowed; [by apply allowed_must|step_allowed]. }
  intros provenance tr1 Hc. assert (Hn : provenance <> Some false).
  { unfold clearStorageProvenance in Hc. destruct (nd_provenance node) as [[]|].
    - by destruct Hc as [_ <-].
    - by apply run_bind in Hc as (u & ? & ? & _ & _ & [_ <-]).
    - by destruct Hc as [_ <-]. }
  eapply allowed_weaken; [|by apply status_allowed]. intros tr2 e Hsub. apply status_node. eapply storage_mono; [|done].
  etrans; [apply sub_l|exact Hsub].
Qed.

Lemma services_allowed l : forall tr, allowed node_only tr (ensureServices l).
Proof.
  induction l as [|[[suffix role] headless] l IH]; intros tr; cbn [ensureServices]; [step_allowed|].
  step_allowed; [by apply allowed_must|apply IH].
Qed.

Lemma node_requests tr e : asks (NodeReconcile images node) tr e -> node_only tr e.
Proof.
  intros Ha. refine ((_ : allowed node_only [] (NodeReconcile images node)) tr e Ha). unfold NodeReconcile.
  destruct (nd_fenced node); [step_allowed|]. destruct (str_is_empty (im_agent images)); [step_allowed|]. destruct (_ && _); [step_allowed|].
  step_allowed; [apply services_allowed|]. step_allowed; [apply preflight_allowed|]. apply preflight_runs in H0 as [Hf Hv].
  destruct a0 as [|f fs].
  - specialize (Hv eq_refl). step_allowed; [apply ensureInstances_allowed; [done|eapply storage_mono; [apply sub_r|done]]|].
    destruct a0 as [f|].
    + apply degrade_allowed; [done|]. intros g ->%list_elem_of_singleton. eapply foreign_mono; [apply sub_r|by eapply ensureInstances_runs].
    + apply verified_allowed. eapply storage_mono; [|done]. rewrite <- app_assoc. etrans; [apply sub_l|apply sub_r].
  - apply degrade_allowed; [done|]. intros g Hg. eapply foreign_mono; [apply sub_r|by apply Hf].
Qed.
End rest.

(** ** What the aggregation publishes *)

Lemma aggregate_instances name replicas before polled s call fenced : aggregateStatus name replicas before polled = (s, call, fenced) ->
  exists a, fs_instances s = believed a (snd ∘ poll_pod <$> polled) /\ fenced = ia_unrecognized a /\
    (fs_phase s = PhaseReady -> deriveStatus (fs_instances s) replicas (negb (str_is_empty (fs_current before))) (name +:+ "-") = (fs_current s, PhaseReady)).
Proof.
  unfold aggregateStatus. destruct (latchIdentity _ _ _ _ _) as [[[sid expected] tl] err].
  set (a := assessIdentity _ _). destruct (deriveStatus _ _ _ _) as [current phase] eqn:Hd. intros Hs. exists a.
  destruct (negb err && negb (ia_conflict a)) eqn:Hc.
  - destruct (reconcileFailover _ _) as [s' c'] eqn:Hr. injection Hs as -> -> <-. unfold reconcileFailover in Hr.
    destruct (evaluateFailover _ _); [| |repeat case_match; simplify_eq; done].
    + destruct (ia_suppress a), (ia_blocked a); cbn [orb] in Hr; case_match; simplify_eq; cbn [fs_phase fs_instances fs_current set_target] in *; split_and!; try done; intros; congruence.
    + injection Hr as <- <-. cbn. split_and!; [done..|]. destruct (ia_suppress a), (ia_blocked a); cbn [orb]; try done. intros; congruence.
  - injection Hs as <- <- <-. cbn. split_and!; [done..|]. destruct (ia_suppress a), (ia_blocked a); cbn [orb]; try done. intros; congruence.
Qed.

(** A believed replica answered as one. *)
Definition believed_pod (a : identityAssessment) (q : PolledPod) : InstanceState :=
  if rogue a (is_pod (snd (poll_pod q))) then mkInstanceState (is_pod (snd (poll_pod q))) EmptyString (is_ready (snd (poll_pod q))) else snd (poll_pod q).

Lemma believed_fmap a polled : (believed a (snd ∘ poll_pod <$> polled)) = (believed_pod a <$> polled).
Proof. unfold believed. by rewrite <- list_fmap_compose. Qed.

Lemma believed_name a q : is_pod (believed_pod a q) = pp_name q.
Proof. unfold believed_pod, poll_pod. repeat case_match; done. Qed.

Lemma believed_replica a q : is_role (believed_pod a q) = roleLabelReplica ->
  exists st, answer q = Some st /\ ps_role st = RoleStandby /\ is_ready (believed_pod a q) = ps_ready st /\ pp_name q ∉ ia_unrecognized a.
Proof.
  pose proof (believed_name a q) as Hn. revert Hn. unfold believed_pod. destruct (rogue a _) eqn:Hrg; [done|]. intros Hn Hr.
  unfold rogue in Hrg. apply bool_decide_eq_false in Hrg. rewrite Hn in Hrg. unfold poll_pod in *. fold (answer q) in *.
  destruct (answer q) as [st|]; [|done]. exists st. split_and!; try done. cbn in Hr. by destruct (ps_role st).
Qed.

Lemma ready_replica_spec tr node pods polled s call fenced p : aggregated node tr pods polled s call fenced ->
  p ∈ ready_replicas s (controlled node pods) ->
  p ∈ controlled node pods /\ np_name p <> fs_current s /\ (np_name p ∉ fenced) /\
  exists q st, q ∈ polled /\ polled_from tr p q /\ answer q = Some st /\ ps_role st = RoleStandby /\ ps_ready st = true.
Proof.
  intros (_ & Hp & Ha) Hin. apply aggregate_instances in Ha as (a & Hi & -> & _). rewrite believed_fmap in Hi.
  unfold ready_replicas in Hin. apply list_elem_of_fmap in Hin as ([i p'] & -> & Hin). apply elem_of_filter_b in Hin as [Hz Hb].
  cbn [fst snd] in *. rewrite !andb_true_iff, negb_true_iff, bool_decide_eq_true, bool_decide_eq_false in Hb. destruct Hb as [[Hrd Hrole] Hcur].
  apply list_elem_of_lookup in Hz as [k Hk]. apply lookup_zip_Some in Hk as [Hk1 Hk2].
  rewrite Hi in Hk1. apply list_lookup_fmap_Some in Hk1 as (q & -> & Hq). destruct (Forall2_lookup_lr _ _ _ _ _ _ Hp Hk2 Hq) as (Hn & Hip & Hans).
  apply believed_replica in Hrole as (st & Ha & Hst & Hready & Hnf). rewrite believed_name in Hcur. rewrite Hn in Hcur, Hnf.
  split_and!; [by eapply list_elem_of_lookup_2|done|done|]. exists q, st. split_and!; try done; [by eapply list_elem_of_lookup_2|congruence].
Qed.

(** Ready means that every desired ordinal is. *)
Lemma ordinalOf_nonneg pod prefix n : ordinalOf pod prefix = Some n -> 0 <= n.
Proof.
  unfold ordinalOf. intros (suffix & _ & (m & _ & Hm)%bind_Some)%bind_Some. destruct ((m <? 0) || _) eqn:E; [done|].
  injection Hm as <-. apply orb_false_iff in E as [E _]. lia.
Qed.

Lemma derive_ready instances replicas had prefix current : deriveStatus instances replicas had prefix = (current, PhaseReady) ->
  current <> EmptyString /\ forall o, 0 <= o < replicas -> exists i, i ∈ instances /\ confirmed_ready i = true /\ ordinalOf (is_pod i) prefix = Some o.
Proof.
  unfold deriveStatus. set (desired := list_to_set _ : gset Z). set (c := match last _ with Some s => _ | None => _ end).
  destruct (1 <? _)%nat; [done|]. destruct (_ && _) eqn:E; [|repeat case_match; done]. intros [= <-].
  apply andb_true_iff in E as [Hsz%Z.eqb_eq Hne%negb_true_iff]. split; [intros Hc; by rewrite Hc in Hne|]. intros o Ho.
  assert (Hsub : desired ⊆ list_to_set (seqZ 0 replicas)).
  { intros n. unfold desired. rewrite !elem_of_list_to_set, elem_of_seqZ. intros [(i & _ & Hi)%list_elem_of_omap Hlt]%elem_of_filter_b.
    apply ordinalOf_nonneg in Hi. lia. }
  assert (Heq : desired = list_to_set (seqZ 0 replicas)).
  { apply leibniz_equiv, set_subseteq_size_equiv; [done|]. rewrite size_list_to_set by apply NoDup_seqZ. rewrite length_seqZ. lia. }
  assert (Hin : o ∈ desired) by (rewrite Heq, elem_of_list_to_set, elem_of_seqZ; lia).
  unfold desired in Hin. rewrite elem_of_list_to_set in Hin. apply elem_of_filter_b in Hin as [(i & Hi & Hord)%list_elem_of_omap _].
  apply elem_of_filter_b in Hi as [? ?]. by exists i.
Qed.

(** An ordinal's name is read back. *)
Lemma ordinalOf_instance node o : Z.of_nat o <= i32_MAX -> ordinalOf (nodeInstanceName node o) (nd_name node +:+ "-") = Some (Z.of_nat o).
Proof.
  intros Ho. unfold ordinalOf, nodeInstanceName. rewrite !bytes_app, bytes_str_of.
  rewrite (proj2 (strip_prefix_bytes_Some _ _ (fmt_i (Z.of_nat o)))) by by rewrite <- app_assoc. cbn [mbind option_bind].
  assert (Hf : fmt_i (Z.of_nat o) = fmt_radix false 10 (Z.of_nat o)) by (unfold fmt_i; destruct (Z.of_nat o <? 0) eqn:E; [lia|done]).
  rewrite (from_signed_digits 10 i32_MIN i32_MAX _ (Z.of_nat o)).
  - cbn [mbind option_bind]. rewrite bool_decide_true by done. destruct (Z.of_nat o <? 0) eqn:E; [lia|done].
  - apply fmt_i_nonempty.
  - rewrite Hf. apply digits_fmt_radix; unfold i32_MAX in *; lia.
Qed.

(** What a deletion says of the pod: this reconcile listed it, with the UID the deletion
    names, as controlled by this node, with an ordinal at or above the desired count; its
    agent answered the poll as a ready standby, it is not the published primary and not
    fenced; and the status just computed is ready. *)
Definition spare_standby (node : NodeObj) (tr : list (Event NodeRequest)) (name uid : string) : Prop :=
  exists pods polled s call fenced p ord q st, aggregated node tr pods polled s call fenced /\
    p ∈ controlled node pods /\ np_name p = name /\ np_uid p = uid /\ ordinalOf name (nd_name node +:+ "-") = Some ord /\ nd_replicas node <= ord /\
    q ∈ polled /\ polled_from tr p q /\ answer q = Some st /\ ps_role st = RoleStandby /\ ps_ready st = true /\
    name <> fs_current s /\ (name ∉ fenced) /\ fs_phase s = PhaseReady /\ fs_current s <> EmptyString /\
    forall o, 0 <= o < nd_replicas node -> exists q' st', q' ∈ polled /\ answer q' = Some st' /\ ps_ready st' = true /\
      ps_role st' <> RoleUnspecified /\ ordinalOf (pp_name q') (nd_name node +:+ "-") = Some o.

(** What a role label that is set on a pod says: by the status just computed, or, when the
    pods could not be listed for it, by the stored one. *)
Definition confirmed_label (node : NodeObj) (tr : list (Event NodeRequest)) (name role : string) : Prop :=
  (exists pods p, answered NListPods (Some pods) ∈ tr /\ p ∈ controlled node pods /\ np_name p = name) /\
  ((exists pods polled s call fenced, aggregated node tr pods polled s call fenced /\
      (role = roleLabelPrimary -> name = fs_current s /\ (name <> EmptyString -> distinct_pods polled -> exists id q st, parseLatchedID (fs_system_id (nd_status node)) = Some id /\
         q ∈ polled /\ pp_name q = name /\ answer q = Some st /\ ps_role st = RolePrimary /\ ~ foreign_to id st /\
         forall q' st', q' ∈ polled -> answer q' = Some st' -> ps_role st' = RolePrimary -> q' = q \/ foreign_to id st')) /\
      (role = roleLabelReplica -> (name ∉ fenced) /\ exists q st, q ∈ polled /\ pp_name q = name /\ answer q = Some st /\ ps_role st = RoleStandby)) \/
   (answered NListPods None ∈ tr /\ (role = roleLabelPrimary -> name = fs_current (nd_status node)) /\
    (role = roleLabelReplica -> exists i, i ∈ fs_instances (nd_status node) /\ is_pod i = name /\ is_role i = roleLabelReplica))) /\
  role ∈ [EmptyString; roleLabelPrimary; roleLabelReplica].

Lemma removal_spares node tr name uid : status_only node tr (existT _ (NDeletePod name uid)) -> spare_standby node tr name uid.
Proof.
  intros (pods & polled & s & call & fenced & p & ord & Ha & Hph & Hp & Hn & Hu & Ho & Hge).
  destruct (ready_replica_spec _ _ _ _ _ _ _ _ Ha Hp) as (Hc & Hne & Hnf & q & st & Hq & Hpf & Hans & Hst & Hrd).
  exists pods, polled, s, call, fenced, p, ord, q, st. rewrite Hn in Hne, Hnf.
  destruct Ha as (Hl & Hf2 & Hagg). destruct (aggregate_instances _ _ _ _ _ _ _ Hagg) as (a & Hi & _ & Hd). specialize (Hd Hph).
  apply derive_ready in Hd as [Hcur Hall]. split_and!; try done.
  intros o Hrange. destruct (Hall o Hrange) as (i & Hin & Hcr & Hord). rewrite Hi, believed_fmap in Hin. apply list_elem_of_fmap in Hin as (q' & -> & Hq').
  rewrite believed_name in Hord. exists q'. unfold confirmed_ready, believed_pod, poll_pod in Hcr. fold (answer q') in Hcr.
  destruct (answer q') as [st'|].
  - exists st'. destruct (rogue a _); cbn in Hcr; [by rewrite andb_false_r in Hcr|]. apply andb_true_iff in Hcr as [? Hrole].
    split_and!; try done. intros E. by rewrite E in Hrole.
  - by destruct (rogue a _).
Qed.

(** A changed label has the status for it. *)
Lemma wanted_role_changed s fenced p role : role = wanted_role s fenced p -> np_role p <> role ->
  (role = roleLabelPrimary -> np_name p = fs_current s) /\
  (role = roleLabelReplica -> exists i, i ∈ fs_instances s /\ is_pod i = np_name p /\ is_role i = roleLabelReplica) /\
  role ∈ [EmptyString; roleLabelPrimary; roleLabelReplica].
Proof.
  intros Hw Hne. unfold wanted_role in Hw. case_bool_decide as Hcur; [rewrite Hw; split_and!; [done|done|set_solver]|].
  destruct (existsb _ _) eqn:Hex.
  - split_and!; [by rewrite Hw| |set_solver]. intros _. apply existsb_spec in Hex as (i & Hi & [Hr%bool_decide_eq_true Hpod%bool_decide_eq_true]%andb_true_iff).
    by exists i.
  - destruct (_ && _) eqn:Hst; [apply andb_true_iff in Hst as [Hst%bool_decide_eq_true _]; congruence|].
    split_and!; [by rewrite Hw|by rewrite Hw|set_solver].
Qed.

Lemma label_confirmed node tr name role : status_only node tr (existT _ (NLabelPod name (Some role) None)) -> confirmed_label node tr name role.
Proof.
  intros (_ & s & fenced & pods & p & Hf & Hl & Hp & <- & Hne & Hr). injection Hr as Hw. rewrite <- Hw in Hne.
  destruct (wanted_role_changed s fenced p role Hw Hne) as (Hprim & Hrep & Hrole). split; [by exists pods, p|]. split; [|done].
  destruct Hf as [(pods' & polled & call & Ha)|(? & -> & _)]; [left|by right]. exists pods', polled, s, call, fenced. split; [done|].
  destruct Ha as (_ & _ & Hagg). split.
  - intros Hc%Hprim. split; [done|]. rewrite Hc. intros He Hd.
    destruct (published_vouched _ _ _ _ _ _ _ Hd Hagg He) as (id & q & st & ? & ? & ? & ? & ? & ? & ? & _). by exists id, q, st.
  - intros (i & Hi & Hpod & Hr')%Hrep. apply aggregate_instances in Hagg as (a & Hins & -> & _).
    rewrite Hins, believed_fmap in Hi. apply list_elem_of_fmap in Hi as (q & -> & Hq).
    apply believed_replica in Hr' as (st & Ha & Hst & _ & Hnf). rewrite believed_name in Hpod. rewrite Hpod in Hnf. split; [done|]. by exists q, st.
Qed.

(** ** Theorems *)

(** C13: No pod is created on another lineage's data. Whatever the API server answers, the node
    controller asks for a pod only when each volume the pod mounts, and each volume of every
    desired instance and of every pod of the node that runs, was in this very reconcile read
    with this node's UID on it or created with it; when no pod of the name was read; with the
    configuration map that the cluster's controller writes for the node; and under a name that
    the controller reads back as the ordinal it is for. *)
Theorem foreign_volume_never_mounted images node tr p t :
  asks (NodeReconcile images node) tr (existT _ (NCreatePod p t)) ->
  np_owner p = nd_uid node /\ answered (NGetPod (np_name p)) None ∈ tr /\
  (forall claim, claim ∈ np_claims p -> verified_claim node tr claim) /\ storage_verified node tr /\
  (forall name, configMapName (nd_name node) = Some name -> pt_config_map t = name) /\
  exists ordinal, 0 <= ordinal < nd_replicas node /\ (ordinal <= i32_MAX -> ordinalOf (np_name p) (nd_name node +:+ "-") = Some ordinal).
Proof.
  intros (o & Ho & Hp & Hget & Hc & Hs)%node_requests. injection Hp as -> ->. split_and!; try done.
  - intros claim Hin. rewrite Forall_forall in Hc. by apply Hc.
  - intros name. unfold configMapName. cbn [pt_config_map]. case_match; [done|]. by intros [= <-].
  - exists (Z.of_nat o). unfold ordinals in Ho. apply elem_of_seq in Ho. split; [lia|]. apply ordinalOf_instance.
Qed.

(** A scale-down removes only spare standbys. A pod is deleted only when this reconcile
    listed it, with the UID the deletion names, as controlled by this node, with an ordinal at
    or above the desired count; its agent answered the poll as a ready standby, it is not the
    published primary and not fenced; and the status just computed is ready: it publishes a
    primary, and every desired ordinal answered ready with a confirmed role. *)
Theorem prune_only_spare_standbys images node tr name uid :
  asks (NodeReconcile images node) tr (existT _ (NDeletePod name uid)) ->
  spare_standby node tr name uid.
Proof.
  intros [Hs _]%node_requests. by apply removal_spares.
Qed.

(** C27: How a pod gets the role label that puts it behind the services. A pod is created as a
    replica, before its agent has answered. Afterwards a label is set only on a pod of this
    node, after all its storage was verified: to primary only on the pod that the status
    publishes, to replica only on a pod that the status has as a replica. The status is the
    one of this reconcile's poll, and then the primary answered as one, is of the latched
    lineage, and no other pod that did is; and the replica answered as a standby and is not
    fenced. Only when the pods could not be listed for that poll it is the stored status, and
    no answer backs the label. A foreign pod's label is only ever cleared. *)
Theorem labels_follow_poll images node tr :
  (forall p t, asks (NodeReconcile images node) tr (existT _ (NCreatePod p t)) -> np_role p = roleLabelReplica) /\
  (forall name role, asks (NodeReconcile images node) tr (existT _ (NLabelPod name (Some role) None)) ->
     storage_verified node tr /\ confirmed_label node tr name role) /\
  (forall name role uid, asks (NodeReconcile images node) tr (existT _ (NLabelPod name (Some role) (Some uid))) ->
     role = EmptyString /\ exists f, fp_pod f = name /\ foreign_claim node tr f).
Proof.
  split_and!.
  - intros p t (o & _ & Hp & _)%node_requests. by injection Hp as -> ->.
  - intros name role [Hs Hv]%node_requests. split; [done|]. by apply label_confirmed.
  - by intros name role uid (-> & _ & Hf)%node_requests.
Qed.

(** A pod on foreign data serves nothing. The status says that foreign storage degrades the
    node only after each pod that mounts a claim read with another identity is gone, or not
    this node's, or has lost its role and incarnation labels; and no service of the node
    selects a pod without them. *)
Theorem foreign_pods_serve_nothing images node tr s : nd_uid node <> EmptyString ->
  asks (NodeReconcile images node) tr (existT _ (NWriteStatus s (Some false))) ->
  fs_phase s = PhaseDegraded /\ (exists foreigns, foreigns <> [] /\ forall f, f ∈ foreigns -> foreign_claim node tr f /\ quarantined node tr f) /\
  forall suffix role headless p, (suffix, role, headless) ∈ services -> np_node_uid p = EmptyString -> selects node role p = false.
Proof.
  intros Hu [-> Hf]%node_requests. split_and!; [done|done|]. intros suffix role headless p _ Hp. unfold selects.
  rewrite bool_decide_false; [done|]. rewrite Hp. congruence.
Qed.

(** ** An example: a node of one instance *)

Module NodeExample.

Definition images : Images := mkImages "pg:18" "agent:1".
Definition fresh : FailoverStatus := mkStatus PhaseProvisioning EmptyString EmptyString 0 0 EmptyString [].
Definition node : NodeObj := mkNodeObj "n" "u" false 1 EmptyString false "h" fresh None.

Definition service_calls : list (Event NodeRequest) :=
  (fun e => answered (NEnsureService (fst (fst e)) (snd (fst e)) (snd e)) true) <$> services.

(** The first reconcile creates the claim and asks for the pod. *)
Definition bringing_up : list (Event NodeRequest) :=
  service_calls ++
  [answered NListPods (Some []); answered (NGetClaim "n-0-data") None; answered (NCreateClaim "n-0-data" "u") CreatedOk;
   answered (NGetClaim "n-0-data") (Some "u"%string); answered (NGetPod "n-0") None].

Lemma creates : asks (NodeReconcile images node) bringing_up
  (existT _ (NCreatePod (fst (instancePod images node 0)) (snd (instancePod images node 0)))).
Proof. unfold bringing_up, service_calls, services. cbn [fmap list_fmap app fst snd]. repeat next_ask. eapply asks_here. reflexivity. Qed.

Lemma foreign_volume_never_mounted_witness : verified_claim node bringing_up "n-0-data".
Proof.
  destruct (foreign_volume_never_mounted images node bringing_up _ _ creates) as (_ & _ & Hc & _).
  apply Hc. left.
Defined.

(** Later: a primary that still has the label it was created with, and a standby too many. *)
Definition pod (name role : string) : NodePod := mkNodePod name (name +:+ "-u") "u" ("10.0.0." +:+ name) [name +:+ "-data"] role "u".
Definition report (role : ReportedRole) : PolledStatus := mkPolledStatus role true 0 false 77 1.
Definition polled : list PolledPod :=
  [mkPolledPod "n-0" "10.0.0.n-0" (Some (report RolePrimary)); mkPolledPod "n-1" "10.0.0.n-1" (Some (report RoleStandby))].
Definition status : FailoverStatus := fst (fst (aggregateStatus "n" 1 fresh polled)).

Definition polling : list (Event NodeRequest) :=
  let pods := [pod "n-0" "replica"; pod "n-1" "replica"] in
  service_calls ++
  [answered NListPods (Some pods); answered (NGetClaim "n-0-data") (Some "u"%string); answered (NGetClaim "n-1-data") (Some "u"%string);
   answered (NGetClaim "n-0-data") (Some "u"%string); answered (NGetPod "n-0") (Some (pod "n-0" "replica"));
   answered NListPods (Some pods); answered (NPoll "10.0.0.n-0") (Some (report RolePrimary)); answered (NPoll "10.0.0.n-1") (Some (report RoleStandby));
   answered (NWriteStatus status None) true; answered NListPods (Some pods)].

Lemma labels : asks (NodeReconcile images node) polling (existT _ (NLabelPod "n-0" (Some roleLabelPrimary) None)).
Proof. unfold polling, service_calls, services. cbn [fmap list_fmap app fst snd]. repeat next_ask. eapply asks_here. reflexivity. Qed.

Lemma labels_follow_poll_witness : storage_verified node polling.
Proof. exact (proj1 (proj1 (proj2 (labels_follow_poll images node polling)) "n-0"%string roleLabelPrimary labels)). Defined.

Lemma prunes : asks (NodeReconcile images node) (polling ++ [answered (NLabelPod "n-0" (Some roleLabelPrimary) None) true])
  (existT _ (NDeletePod "n-1" "n-1-u")).
Proof. unfold polling, service_calls, services. cbn [fmap list_fmap app fst snd]. repeat next_ask. eapply asks_here. reflexivity. Qed.

Lemma prune_only_spare_standbys_witness : exists s : FailoverStatus, fs_phase s = PhaseReady /\ fs_current s <> EmptyString.
Proof.
  destruct (prune_only_spare_standbys images node _ "n-1" "n-1-u" prunes)
    as (pods & ps & s & call & fenced & p & ord & q & st & _ & _ & _ & _ & _ & _ & _ & _ & _ & _ & _ & _ & _ & Hp & Hc & _).
  exists s. split; [exact Hp|exact Hc].
Defined.

(** The claim has turned foreign under the running pod. *)
Definition turned : list (Event NodeRequest) :=
  service_calls ++
  [answered NListPods (Some [pod "n-0" "primary"]); answered (NGetClaim "n-0-data") (Some "v"%string);
   answered (NGetPod "n-0") (Some (pod "n-0" "primary")); answered (NLabelPod "n-0" (Some EmptyString) (Some EmptyString)) true].

Lemma degrades : asks (NodeReconcile images node) turned (existT _ (NWriteStatus (degraded fresh) (Some false))).
Proof. unfold turned, service_calls, services. cbn [fmap list_fmap app fst snd]. repeat next_ask. eapply asks_here. reflexivity. Qed.

Lemma foreign_pods_serve_nothing_witness : exists foreigns, foreigns <> [] /\ forall f, f ∈ foreigns -> quarantined node turned f.
Proof.
  destruct (foreign_pods_serve_nothing images node turned (degraded fresh) ltac:(done) degrades) as (_ & (fs & Hne & Hf) & _).
  exists fs. split; [exact Hne|]. intros f Hin. exact (proj2 (Hf f Hin)).
Defined.

(** A pod is created as a replica, and keeps that label when its agent has never answered:
    the only instance of a new node, which initializes itself as a primary, stays behind the
    read service. *)
Example unconfirmed_pod_serves_reads : let newborn := fst (instancePod images node 0) in
  aggregateStatus "n" 1 fresh [mkPolledPod (np_name newborn) "10.0.0.1" None] =
    (mkStatus PhaseProvisioning EmptyString EmptyString 0 0 EmptyString [mkInstanceState "n-0" EmptyString false], None, []) /\
  wanted_role (mkStatus PhaseProvisioning EmptyString EmptyString 0 0 EmptyString [mkInstanceState "n-0" EmptyString false]) [] newborn = roleLabelReplica /\
  selects node roleLabelReplica newborn = true.
Proof. split_and!; reflexivity. Qed.
End NodeExample.
