(* ===== verification/OpShard.v ===== *)
(** * Shards without a node

    [src/operator/internal/controller/pgshardshard_controller.go], the physical half: the
    controller of a shard that no node hosts keeps pods, volumes and services of its own. The
    requests are [OpNode]'s, and so is the object as read, here of the shard; status, role
    labels and scale-down, [reconcileStatus], are the same code for both kinds. What differs is the
    storage: volumes and pods carry no incarnation, and a volume that exists is taken as it
    is. *)

From S2P Require Import Prelude Rust Go Agent Keyspace ShardFn Topo Service OpProg OpConfig OpTopology OpRouting Failover OpPlacement OpNode.
From stdpp Require Import gmap strings.

Open Scope Z_scope.

(** ** The reconcile *)

Section shard.
Abbreviation ShardProg := (Prog NodeRequest).
Variable images : Images.
Variable shard : NodeObj.

(** [instancePod] with its controller reference: no label of an incarnation. *)
Definition shardPod (ordinal : nat) : NodePod * PodTemplate :=
  let name := nodeInstanceName shard ordinal in
  (mkNodePod name EmptyString (nd_uid shard) EmptyString (desired_claims shard name) roleLabelReplica EmptyString,
   mkPodTemplate (if str_is_empty (nd_image shard) then im_postgres images else nd_image shard) (im_agent images)
     (nd_name shard +:+ "-postgres-config") (nd_config_hash shard)).

(** [ensurePVC]: a claim that is there, whoever created it, is enough. *)
Definition ensureShardPVC (claim : string) : ShardProg unit :=
  found ← req (NGetClaim claim);
  match found with
  | Some _ => Done tt
  | None =>
      r ← req (NCreateClaim claim EmptyString);
      match r with CreatedOk | AlreadyThere => Done tt | CreateFailed => Stop end
  end.

Fixpoint ensureShardClaims (l : list string) : ShardProg unit :=
  match l with
  | [] => Done tt
  | claim :: l' => _ ← ensureShardPVC claim; ensureShardClaims l'
  end.

Definition ensureShardInstance (ordinal : nat) : ShardProg unit :=
  let name := nodeInstanceName shard ordinal in
  _ ← ensureShardClaims (desired_claims shard name);
  found ← req (NGetPod name);
  match found with
  | Some p => if bool_decide (np_owner p = nd_uid shard) then Done tt else Stop
  | None =>
      r ← req (NCreatePod (fst (shardPod ordinal)) (snd (shardPod ordinal)));
      match r with CreatedOk | AlreadyThere => Done tt | CreateFailed => Stop end
  end.

Fixpoint ensureShardInstances (l : list nat) : ShardProg unit :=
  match l with
  | [] => Done tt
  | ordinal :: l' => _ ← ensureShardInstance ordinal; ensureShardInstances l'
  end.

(** [Reconcile] of a shard with no node. A shard has no condition of provenance. *)
Definition ShardReconcile : ShardProg unit :=
  if nd_fenced shard then Done tt
  else if str_is_empty (im_agent images) then Stop
  else if str_is_empty (nd_image shard) && str_is_empty (im_postgres images) then Stop
  else
    _ ← ensureServices services;
    _ ← ensureShardInstances (ordinals shard);
    reconcileStatus shard None.
End shard.

(** ** What the requests rest on *)

Section rest.
Variable images : Images.
Variable shard : NodeObj.
Abbreviation ShardTrace := (list (Event NodeRequest)).

(** The claim is there: read, created, or found to exist when it was to be created. *)
Definition claim_exists (tr : ShardTrace) (claim : string) : Prop :=
  (exists uid, answered (NGetClaim claim) (Some uid) ∈ tr) \/
  exists r, r <> CreateFailed /\ answered (NCreateClaim claim EmptyString) r ∈ tr.

Definition shard_only (tr : ShardTrace) (e : sigT NodeRequest) : Prop :=
  match projT2 e with
  | NCreateClaim claim uid => uid = EmptyString /\ answered (NGetClaim claim) None ∈ tr
  | NCreatePod p t => exists ordinal, ordinal ∈ ordinals shard /\ (p, t) = shardPod images shard ordinal /\
      answered (NGetPod (np_name p)) None ∈ tr /\ Forall (claim_exists tr) (np_claims p)
  | _ => status_only shard tr e
  end.

Lemma claim_mono tr tr' claim : tr ⊆ tr' -> claim_exists tr claim -> claim_exists tr' claim.
Proof. intros Hs [[uid ?]|(r & ? & ?)]; [left; exists uid|right; exists r; split; [done|]]; by apply Hs. Qed.

Lemma status_shard tr e : status_only shard tr e -> shard_only tr e.
Proof. by destruct e as [R []]. Qed.

Lemma shardPVC_allowed tr claim : allowed shard_only tr (ensureShardPVC claim).
Proof.
  unfold ensureShardPVC. step_allowed; [done|]. destruct x as [uid|]; [step_allowed|].
  step_allowed; [|destruct x; step_allowed]. split; [done|]. apply elem_of_app. right. by left.
Qed.

Lemma shardPVC_runs claim tr u : runs (ensureShardPVC claim) tr u -> claim_exists tr claim.
Proof.
  unfold ensureShardPVC. intros (x & tr1 & -> & Hr)%runs_req. destruct x as [uid|]; [left; exists uid; by left|].
  apply runs_req in Hr as (c & tr2 & -> & Hr). right. exists c. split; [by destruct c|]. right. by left.
Qed.

Lemma shardClaims_allowed l : forall tr, allowed shard_only tr (ensureShardClaims l).
Proof.
  induction l as [|c l IH]; intros tr; cbn [ensureShardClaims]; [step_allowed|]. step_allowed; [apply shardPVC_allowed|apply IH].
Qed.

Lemma shardClaims_runs l : forall tr u, runs (ensureShardClaims l) tr u -> Forall (claim_exists tr) l.
Proof.
  induction l as [|c l IH]; intros tr u; cbn [ensureShardClaims]; [constructor|].
  intros (v & tr1 & tr2 & -> & Hc%shardPVC_runs & Hr%IH)%run_bind. constructor; [eapply claim_mono; [apply sub_l|done]|].
  eapply Forall_impl; [exact Hr|]. intros. eapply claim_mono; [apply sub_r|done].
Qed.

Lemma shardInstance_allowed tr ordinal : ordinal ∈ ordinals shard -> allowed shard_only tr (ensureShardInstance images shard ordinal).
Proof.
  intros Ho. unfold ensureShardInstance. cbv zeta. step_allowed; [apply shardClaims_allowed|]. apply shardClaims_runs in H.
  step_allowed; [done|]. destruct x as [p|]; [case_bool_decide; step_allowed|]. step_allowed; [|destruct x; step_allowed].
  exists ordinal. split_and!; [done|done| |].
  - rewrite !elem_of_app. right. by left.
  - eapply Forall_impl; [exact H|]. intros c Hc. eapply claim_mono; [|exact Hc]. rewrite <- app_assoc. etrans; [apply sub_l|apply sub_r].
Qed.

Lemma shardInstances_allowed l : forall tr, l ⊆ ordinals shard -> allowed shard_only tr (ensureShardInstances images shard l).
Proof.
  induction l as [|o l IH]; intros tr Hl; cbn [ensureShardInstances]; [step_allowed|].
  step_allowed; [apply shardInstance_allowed, Hl; by left|]. apply IH. intros x Hx. apply Hl. by right.
Qed.

Lemma shardServices_allowed l : forall tr, allowed shard_only tr (ensureServices l).
Proof.
  induction l as [|[[suffix role] headless] l IH]; intros tr; cbn [ensureServices]; [step_allowed|].
  step_allowed; [by apply allowed_must|apply IH].
Qed.

Lemma shard_requests tr e : asks (ShardReconcile images shard) tr e -> shard_only tr e.
Proof.
  intros Ha. refine ((_ : allowed shard_only [] (ShardReconcile images shard)) tr e Ha). unfold ShardReconcile.
  destruct (nd_fenced shard); [step_allowed|]. destruct (str_is_empty (im_agent images)); [step_allowed|]. destruct (_ && _); [step_allowed|].
  step_allowed; [apply shardServices_allowed|]. step_allowed; [by apply shardInstances_allowed|].
  eapply allowed_weaken; [|by apply status_allowed]. intros. by apply status_shard.
Qed.
End rest.

(** ** Theorems *)

(** A pod is created only for a desired ordinal, when no pod of its name was read and each
    volume it mounts is there; under a name that the controller reads back as that ordinal.
    Of whom the volume is is not asked. *)
Theorem shard_pod_rests images shard tr p t :
  asks (ShardReconcile images shard) tr (existT _ (NCreatePod p t)) ->
  np_owner p = nd_uid shard /\ answered (NGetPod (np_name p)) None ∈ tr /\ (forall claim, claim ∈ np_claims p -> claim_exists tr claim) /\
  exists ordinal, 0 <= ordinal < nd_replicas shard /\ (ordinal <= i32_MAX -> ordinalOf (np_name p) (nd_name shard +:+ "-") = Some ordinal).
Proof.
  intros (o & Ho & Hp & Hget & Hc)%shard_requests. injection Hp as -> ->. split_and!; try done.
  - intros claim Hin. rewrite Forall_forall in Hc. by apply Hc.
  - exists (Z.of_nat o). unfold ordinals in Ho. apply elem_of_seq in Ho. split; [lia|]. apply ordinalOf_instance.
Qed.

(** As of a node, a pod is deleted only as a spare standby, and a role label is set only as
    the poll confirms it. *)
Theorem shard_status_rests images shard tr name :
  (forall uid, asks (ShardReconcile images shard) tr (existT _ (NDeletePod name uid)) -> spare_standby shard tr name uid) /\
  (forall role, asks (ShardReconcile images shard) tr (existT _ (NLabelPod name (Some role) None)) -> confirmed_label shard tr name role) /\
  (forall role uid, ~ asks (ShardReconcile images shard) tr (existT _ (NLabelPod name role (Some uid)))).
Proof.
  split_and!.
  - intros uid Hs%shard_requests. by apply removal_spares.
  - intros role Hs%shard_requests. by apply label_confirmed.
  - intros role uid Hs%shard_requests. by destruct Hs as [[=] _].
Qed.

(** ** An example: a shard of one instance *)

Module ShardExample.

Import NodeExample.

(** A volume labelled with another identity is read, and the pod is asked for. *)
Definition found_volume : list (Event NodeRequest) :=
  service_calls ++ [answered (NGetClaim "n-0-data") (Some "v"%string); answered (NGetPod "n-0") None].

Lemma mounts : asks (ShardReconcile images node) found_volume
  (existT _ (NCreatePod (fst (shardPod images node 0)) (snd (shardPod images node 0)))).
Proof. unfold found_volume, service_calls, services. cbn [fmap list_fmap app fst snd]. repeat next_ask. eapply asks_here. reflexivity. Qed.

Lemma shard_pod_rests_witness : claim_exists found_volume "n-0-data".
Proof. apply (proj1 (proj2 (proj2 (shard_pod_rests images node found_volume _ _ mounts)))). left. Defined.

(** The standby too many goes. *)
Definition polling_shard : list (Event NodeRequest) :=
  let pods := [pod "n-0" "primary"; pod "n-1" "replica"] in
  service_calls ++
  [answered (NGetClaim "n-0-data") (Some EmptyString); answered (NGetPod "n-0") (Some (pod "n-0" "primary"));
   answered NListPods (Some pods); answered (NPoll "10.0.0.n-0") (Some (report RolePrimary)); answered (NPoll "10.0.0.n-1") (Some (report RoleStandby));
   answered (NWriteStatus status None) true; answered NListPods (Some pods)].

Lemma prunes_shard : asks (ShardReconcile images node) polling_shard (existT _ (NDeletePod "n-1" "n-1-u")).
Proof. unfold polling_shard, service_calls, services. cbn [fmap list_fmap app fst snd]. repeat next_ask. eapply asks_here. reflexivity. Qed.

Lemma shard_status_rests_witness : spare_standby node polling_shard "n-1" "n-1-u".
Proof. exact (proj1 (shard_status_rests images node polling_shard "n-1") "n-1-u"%string prunes_shard). Defined.
End ShardExample.
